(* ===== verification/_CoqProject ===== *)
-Q . S2P
Prelude.v
Status.v
Crc32c.v
Wire.v
Value.v
Fact.v
FactCodec.v
Frame.v
MetaCodec.v
CommitBatch.v
PreparedCodec.v
GroupCommit.v
Bloom.v
RecentWrites.v
ValidationCache.v
Accelerators.v
Temporal.v
FactStore.v
Conflict.v
Scan.v
WriteBatch.v
Commit.v
GroupedCommit.v
CommitSize.v
Transaction.v
Serializable.v
SnapshotReader.v
Overlay.v
Epoch.v
Vacuum.v
SequenceRetention.v
Retention.v
MetaTable.v
Prepared.v
Allocator.v
Schema.v
Recovery.v
Compression.v
Projection.v
Resources.v
