(* ===== verification/Prelude.v ===== *)
(** * Cedar: a verification of the bitemporal fact store

    Cedar is an embedded graph database.  What it stores are facts: versions of the
    state and the properties of vertices and edges, each with the valid time from which
    it holds and the sequence of the commit that recorded it.  A version is never
    changed; a later commit corrects it by writing another one.  This library models
    the part of the program that keeps the facts and makes them readable, and proves
    that it does so correctly.  Paths below are those of the repository.

    ** The program and how it is modelled

    The layers, from the bytes up:

    - _Foundations._  [Prelude] has bytes, machine integers at their width ([uint],
      [sint], [wrap]), big- and little-endian numbers, bytewise order and the generic
      lemmas.  [Status] is [core/status]: codes, messages, and [StatusOr] as an error
      monad.  [Crc32c] is [core/crc32c].  [Value] is [types/value].
    - _Formats._  [Wire] is the contract between readers and writers of bytes, [Frame]
      that of checksummed records; both are type classes that the codecs instantiate and
      whose laws their clients use.  [Fact] is [fact/fact], [FactCodec] the keys and
      values of [storage/facts/fact_codec.cc], [MetaCodec] the records of
      [meta_codec.cc], [PreparedCodec] those of [prepared_commit_codec.cc].
    - _Histories._  [Temporal] is [query/temporal]: intervals, the corrected chain of a
      fact and its present and missing states.  [effective] is the specification that
      everything else refers to: the event that decides the state at one valid time
      under one snapshot.
    - _Storage._  [WriteBatch] is what the store uses of the vendored engine: batches,
      their serialized size, and atomic writes to sorted column families.  [FactStore]
      and [Scan] are the readers of [storage/rocks/rocks_adapter.cc]: point reads,
      histories, neighborhoods, scans and lookups.
    - _Derived structures._  [Bloom] ([fact_identity_history.cc]), [RecentWrites]
      ([recent_fact_write_index.cc]) and [ValidationCache]
      ([version_validation_cache.cc]) let the writer skip reads; [Accelerators] states
      as a class what it may conclude from them.
    - _Commits._  [CommitBatch] is the batch and its validation, [Conflict] the three
      validations against the store, [Commit] the direct commit with its retry
      ([commit_publisher.cc], [CommitDirect]), [CommitSize] the size estimate and the
      commits that must succeed, [GroupCommit] and [GroupedCommit] the selection and the
      single write of several commits, [Epoch] the decision and the write of epochs
      ([decided_epoch.cc], [CommitGroupWithWalCallbackDirect]).
    - _Transactions and reads._  [Transaction] is the client's transaction
      ([kernel/transaction.cc], [temporal_validation.cc]), [Serializable] its
      guarantees, [SnapshotReader] the canonical reads of a snapshot
      ([kernel/snapshot.cc], [fact/read_spec.h], [query/temporal/state_reader.cc]),
      [Overlay] the reads of a transaction that sees its own staged writes.
    - _Retention._  [Vacuum] removes versions ([vacuum.cc],
      [DeleteObsoleteFactVersions]), [SequenceRetention] prunes sequence records,
      [Retention] interleaves readers, commits and the vacuum.
    - _Tables of the metadata._  [MetaTable] states as a class what the records under one
      prefix of the metadata are; [Prepared] is the participant in a two-phase commit
      (prepared batches, decisions and their recovery in [rocks_adapter.cc] and
      [kernel/database.cc]); [Allocator] hands out the identifiers of transactions,
      vertices and edges, down to the atomic operations of [AllocateTransactionId];
      [Schema] is the catalog of property definitions.
    - _Opening._  [Recovery] is [FactStore::Open]: the creation of a database, the
      validation of an existing one, and what is loaded, resumed and built again.  Its
      relation [life_step] composes the writers above with crashes and restarts.
    - _Projections._  [Compression] is [query/projection/projection_compression.cc], the
      codecs of payloads, and [Projection] is [projection_format.cc]: the columns of a
      page, the header and the directory of a file, its encoder, and the readers of a
      whole file, of its directory and of one page, each with its budget.
    - _Budgets of queries._  [Resources] is [query/resource/query_resource_pool.cc] with
      the reservations of [query/runtime/relational.cc]: the shared counters of a pool,
      the admission of queries down to its atomic operations, and what an admitted query
      reserves and retains.

    ** State and effects

    A column family is the ascending list of its pairs, which is what an iterator of the
    engine shows.  [represents cf events] relates it to a set of events, [store_ok]
    relates a store with its derived structures, [commit_inv] a running store with its
    ledger of committed batches.  Fallible code is in the monad of [StatusOr]; code that
    changes state and may fail returns both, since what was done before a failure stays
    done; code that calls back is a function of a [Visitor].  Critical sections are
    single definitions, and where the code interleaves them ([Retention],
    [ValidationCache], [Allocator], [Resources]) a step relation does.  What comes from
    outside is an argument: the outcome of a write of the engine ([WriteOutcome]), the
    queue's answer to a submission, the SSE4.2 instructions, the LZ4 codec ([lz4_ok] is what its
    documentation promises), the sizes of types and the reservation of memory.

    ** What the theorems show

    - Codecs: round trips, the order of keys is that of the facts, every single-byte
      corruption is detected, decoders accept exactly the encodings.
    - Reads: a point read returns the effective event of the history; scans visit
      exactly what they select, end, and report the visitor's error; state rows show one
      row for every present fact.
    - Commits: [CommitDirect] refines the verdict of an abstract history
      ([commit_verdict]), which says what becomes of every key of both column families;
      a snapshot taken before stays as it was, a write is readable afterwards, a retry
      answers as the first call did or is refused as another batch, grouped commits and
      epochs equal commits one after the other, and a batch within the limits commits.
    - Derived structures: what the filters and the cache claim is true of the history,
      also when publications, evictions and scans interleave.
    - Transactions: a committed strict transaction read the state just before its own
      commit, no committed write is lost, staged batches are valid, without contention
      the commit succeeds, and the overlay shows what the commit will leave.
    - Retention: a snapshot that is held reads the same until it is released, whatever
      the vacuum does; an interrupted vacuum resumes; pruned sequences are covered by
      the durable watermark.
    - Prepared transactions: whatever happens to the writes of an open database, a
      prepared transaction waits or follows its decision, and a decision never changes;
      opening with the policy to finalize commits all that wait, whatever was decided.
    - Identifiers: none is handed out twice, by any interleaving of threads, leases,
      failed writes and restarts, and a call that meets no other one returns.
    - The catalog: a registered definition stays under its epoch for ever.
    - Recovery: from its creation on a database opens again, whenever the process ends,
      and the opened store has every acknowledged commit and every definition, as long as
      the identifier 2^64-1 is not committed before identifiers are leased
      ([leased_before_last]); a database with a hole in its sequences does not open.
    - Projections: every codec gives a payload back within its budget, and a projection
      file gives back its header and its rows, read as a whole or page by page, once the
      budget is large enough; the reader of directories refuses property indexes.
    - Budgets of queries: under any interleaving the pool is never overcommitted and leaks
      nothing, and an admission that meets no other call returns and is decided by the
      counters alone.

    ** Bounds and fuel

    Loops over containers are structural.  Fuel is used where the code moves a cursor:
    one round per stored pair and one more for the family scan ([ScanFamily]), the
    resumed vacuum and the pruning of sequence records, one round per row for the
    batches of an overlay, sixty-four rounds for the size of a Bloom filter, and one
    round per step of a call of [AllocateTransactionId], ten rounds for a variable-length
    integer, one round per byte for the runs of a column, and forty steps for an
    admission ([admit_fuel]).  The theorems on these functions state that the fuel is
    enough.

    ** Not modelled

    - I/O errors of the engine on reads, memory budgets of reads ([read_memory]),
      metrics, timers, test observers and fault injectors.
    - The rest of the vendored engine, which the sources treat as a library: only the
      documented effect of its iterators and atomic writes is used.
    - Threads as such: a lock makes its critical section one step; relaxed atomics are
      modelled one operation at a time.
    - Directories, the placement of the log and the engine's own recovery: [Recovery]
      starts from the database that the engine has recovered.
    - Columnar reads, the store, the cache, the index and the in-memory delta of
      projections, the query planner and its operators, the Cypher front end and the
      server.  They build on interfaces that are modelled here, but each needs a model
      of its own. *)

From Stdlib Require Export ZArith Lia Strings.Byte.
From stdpp Require Export base list strings gmap sorting.

Declare Scope cedar_scope.
Delimit Scope cedar_scope with cedar.

#[global] Open Scope Z_scope.

Create HintDb cedar.
Create Rewrite HintDb cedar_len.

(** ** Bytes

    A [std::string] or [std::string_view] is a list of bytes.  [b2z] is
    [static_cast<uint8_t>(c)] and [z2b] is [static_cast<char>(v)], which keeps
    the low eight bits. *)

Definition b2z (b : byte) : Z := Z.of_N (Byte.to_N b).

Definition z2b (z : Z) : byte :=
  match Byte.of_N (Z.to_N (z mod 256)) with
  | Some b => b
  | None => "000"%byte
  end.

#[export] Instance byte_eq_decision : EqDecision byte := Byte.byte_eq_dec.

#[export] Program Instance byte_countable : Countable byte :=
  inj_countable Byte.to_N Byte.of_N _.
Next Obligation. apply Byte.of_to_N. Qed.

(** ** Machine integers

    An unsigned [w]-bit integer is a [Z] in [0, 2^w).  Arithmetic that can wrap
    is written with [wrap]. *)

Definition wrap (w z : Z) : Z := z mod 2 ^ w.

Definition uint (w z : Z) : Prop := 0 <= z < 2 ^ w.

Definition sint (w z : Z) : Prop := - 2 ^ (w - 1) <= z < 2 ^ (w - 1).

Definition U64_MAX : Z := 2 ^ 64 - 1.

(** The bitwise complement [~v] of a [uint64_t]. *)
Definition bnot64 (v : Z) : Z := wrap 64 (Z.lnot v).

(** [static_cast<uintN_t>] of a signed value and back. *)
Definition to_unsigned (w z : Z) : Z := wrap w z.

Definition to_signed (w z : Z) : Z :=
  if z <? 2 ^ (w - 1) then z else z - 2 ^ w.

#[export] Instance uint_decision w z : Decision (uint w z).
Proof. unfold uint. apply _. Defined.

#[export] Instance sint_decision w z : Decision (sint w z).
Proof. unfold sint. apply _. Defined.

(** ** Big-endian integers *)

(** The bytes [v >> 8(n-1), ..., v >> 8, v]. *)
Fixpoint be_bytes (n : nat) (v : Z) : list byte :=
  match n with
  | O => []
  | S m => z2b (Z.shiftr v (8 * Z.of_nat m)) :: be_bytes m v
  end.

(** The shift-and-or loop that reads an [n]-byte integer. *)
Definition be_value (n : nat) (bytes : list byte) : Z :=
  fold_left
    (fun value b => Z.lor (wrap (8 * Z.of_nat n) (Z.shiftl value 8)) (b2z b))
    bytes 0.

(** Reading [n] bytes at [offset]: the value and the offset behind it, or
    [None] when fewer than [n] bytes are left. *)
Definition read_be (n : nat) (input : list byte) (offset : nat)
  : option (Z * nat) :=
  if (length input - offset <? n)%nat then None
  else Some (be_value n (take n (drop offset input)), (offset + n)%nat).

(** The number that a big-endian byte string denotes, without the width. *)
Definition be_num (bytes : list byte) : Z :=
  fold_left (fun value b => 256 * value + b2z b) bytes 0.

(** [suffix_at input offset rest]: [offset] is inside [input] and [rest] is
    what follows it.  The readers of the codecs are reasoned about with it. *)

Definition suffix_at (input : list byte) (offset : nat) (rest : list byte)
  : Prop := (offset <= length input)%nat /\ drop offset input = rest.

(** The bytewise order of two strings (the comparator of the column
    families). *)
Fixpoint bytes_compare (a b : list byte) : comparison :=
  match a, b with
  | [], [] => Eq
  | [], _ :: _ => Lt
  | _ :: _, [] => Gt
  | x :: a', y :: b' =>
      match Z.compare (b2z x) (b2z y) with
      | Eq => bytes_compare a' b'
      | c => c
      end
  end.

Definition bytes_lt (a b : list byte) : Prop := bytes_compare a b = Lt.

(** Lexicographic composition of comparisons. *)
Definition then_compare (c d : comparison) : comparison :=
  match c with Eq => d | _ => c end.

(** [std::stable_sort]: equal elements keep their order. *)
Fixpoint insert_sorted {A} (less : A -> A -> bool) (x : A) (l : list A) : list A :=
  match l with
  | [] => [x]
  | y :: l' => if less y x then y :: insert_sorted less x l' else x :: l
  end.

Definition stable_sort {A} (less : A -> A -> bool) (l : list A) : list A :=
  foldr (insert_sorted less) [] l.

(** ** Tactics *)

(** Case analysis on the scrutinee of a [match] or [if] in the goal or in a
    hypothesis, with the equation kept. *)
Ltac case_goal :=
  match goal with
  | |- context [match ?x with _ => _ end] => destruct x eqn:?
  end.

Ltac case_hyp H :=
  match type of H with
  | context [match ?x with _ => _ end] => destruct x eqn:?
  end.

(** Turns boolean tests into propositions, everywhere. *)
Ltac bool_to_prop :=
  repeat match goal with
  | H : _ && _ = true |- _ => apply andb_true_iff in H as [? ?]
  | H : _ || _ = false |- _ => apply orb_false_iff in H as [? ?]
  | H : negb _ = true |- _ => apply negb_true_iff in H
  | H : negb _ = false |- _ => apply negb_false_iff in H
  | H : (_ =? _) = true |- _ => apply Z.eqb_eq in H
  | H : (_ =? _) = false |- _ => apply Z.eqb_neq in H
  | H : (_ <? _) = true |- _ => apply Z.ltb_lt in H
  | H : (_ <? _) = false |- _ => apply Z.ltb_ge in H
  | H : (_ <=? _) = true |- _ => apply Z.leb_le in H
  | H : (_ <=? _) = false |- _ => apply Z.leb_gt in H
  | H : (_ =? _)%nat = true |- _ => apply Nat.eqb_eq in H
  | H : (_ =? _)%nat = false |- _ => apply Nat.eqb_neq in H
  | H : (_ <? _)%nat = true |- _ => apply Nat.ltb_lt in H
  | H : (_ <? _)%nat = false |- _ => apply Nat.ltb_ge in H
  | H : (_ <=? _)%nat = true |- _ => apply Nat.leb_le in H
  | H : (_ <=? _)%nat = false |- _ => apply Nat.leb_gt in H
  | H : bool_decide _ = true |- _ => apply bool_decide_eq_true in H
  | H : bool_decide _ = false |- _ => apply bool_decide_eq_false in H
  end.

(** ** Lemmas on lists *)

Lemma fold_left_ext {A B} (f g : A -> B -> A) l a :
  (forall a b, f a b = g a b) -> fold_left f l a = fold_left g l a.
Proof.
  intros Hfg. revert a. induction l; intros; simpl; [done|].
  rewrite Hfg. auto.
Qed.

Lemma filter_all {A} (P : A -> Prop) `{!forall x, Decision (P x)} l :
  Forall P l -> filter P l = l.
Proof.
  induction 1; [done|]. rewrite filter_cons, decide_True by done. congruence.
Qed.

Lemma filter_none {A} (P : A -> Prop) `{!forall x, Decision (P x)} l :
  Forall (fun x => ~ P x) l -> filter P l = [].
Proof.
  induction 1; [done|]. by rewrite filter_cons, decide_False.
Qed.

Lemma filter_ext_on {A} (P Q : A -> Prop) `{!forall a, Decision (P a)}
    `{!forall a, Decision (Q a)} (l : list A) :
  (forall a, a ∈ l -> P a <-> Q a) -> filter P l = filter Q l.
Proof.
  induction l as [|a l IH]; intros Hl; [done|]. rewrite !filter_cons.
  rewrite IH by (intros; apply Hl; by right). specialize (Hl a (list_elem_of_here _ _)).
  repeat case_decide; tauto.
Qed.

Lemma filter_rev {A} (P : A -> Prop) `{!forall x, Decision (P x)} l :
  filter P (rev l) = rev (filter P l).
Proof.
  induction l as [|a l IH]; [done|]. simpl. rewrite filter_app, IH, !filter_cons.
  case_decide; [done|]. by rewrite filter_nil, app_nil_r.
Qed.

Lemma insert_sorted_perm {A} (less : A -> A -> bool) x l :
  insert_sorted less x l ≡ₚ x :: l.
Proof.
  induction l as [|y l IH]; [done|]. cbn. destruct (less y x); [|done].
  rewrite IH. apply Permutation_swap.
Qed.

Lemma stable_sort_perm {A} (less : A -> A -> bool) l : stable_sort less l ≡ₚ l.
Proof. induction l as [|x l IH]; [done|]. cbn. by rewrite insert_sorted_perm, IH. Qed.

(** A sort leaves the elements in any order that its comparison decides. *)
Section sorted.

Context {A : Type} (less : A -> A -> bool) (P : A -> Prop) (R : A -> A -> Prop).
Hypothesis less_R : forall a b, P a -> P b -> if less a b then R a b else R b a.
Hypothesis R_trans : forall a b c, P a -> P b -> P c -> R a b -> R b c -> R a c.

Lemma insert_sorted_sorted x l :
  P x -> Forall P l -> StronglySorted R l -> StronglySorted R (insert_sorted less x l).
Proof.
  intros Hx Hl Hs. induction Hs as [|y l Hs IH Hall]; [by repeat constructor|].
  apply Forall_cons in Hl as [Hy Hl]. cbn. pose proof (less_R y x Hy Hx) as Hyx.
  destruct (less y x).
  - constructor; [by apply IH|]. apply Forall_forall. intros z Hz.
    rewrite (insert_sorted_perm less x l) in Hz. rewrite Forall_forall in Hall.
    apply elem_of_cons in Hz as [->|Hz]; [done|by apply Hall].
  - constructor; [by constructor|]. constructor; [done|].
    rewrite Forall_forall in *. intros z Hz. apply (R_trans x y z); auto.
Qed.

Lemma stable_sort_sorted l : Forall P l -> StronglySorted R (stable_sort less l).
Proof.
  induction l as [|x l IH]; intros Hl; [constructor|]. apply Forall_cons in Hl as [Hx Hl].
  cbn. apply insert_sorted_sorted; [done| |by apply IH].
  apply Forall_forall. intros y Hy. rewrite (stable_sort_perm less l) in Hy.
  rewrite Forall_forall in Hl. by apply Hl.
Qed.

End sorted.

Lemma list_alter_insert {A} (f : A -> A) i (l : list A) :
  alter f i l = match l !! i with Some x => <[i := f x]> l | None => l end.
Proof.
  apply list_eq. intros j. rewrite list_lookup_alter.
  destruct (l !! i) as [x|] eqn:Hi; case_decide as D; try done.
  - destruct D. rewrite list_lookup_insert_eq; [done|].
    by eapply lookup_lt_Some.
  - by rewrite list_lookup_insert_ne.
  - destruct D. by rewrite Hi.
Qed.

(** ** Lemmas on bytes and integers *)

Lemma b2z_range b : 0 <= b2z b < 256.
Proof.
  unfold b2z. pose proof (Byte.to_N_bounded b). lia.
Qed.

Lemma b2z_z2b z : b2z (z2b z) = z mod 256.
Proof.
  unfold b2z, z2b. pose proof (Z.mod_pos_bound z 256 ltac:(lia)).
  destruct (Byte.of_N _) as [b|] eqn:E.
  - apply Byte.to_of_N in E. rewrite E. lia.
  - apply Byte.of_N_None_iff in E. lia.
Qed.

Lemma b2z_inj a b : b2z a = b2z b -> a = b.
Proof.
  unfold b2z. intros H. apply N2Z.inj in H.
  apply (f_equal Byte.of_N) in H. rewrite !Byte.of_to_N in H. congruence.
Qed.

Lemma z2b_b2z b : z2b (b2z b) = b.
Proof.
  apply b2z_inj. rewrite b2z_z2b. apply Z.mod_small, b2z_range.
Qed.

Lemma z2b_mod z : z2b (z mod 256) = z2b z.
Proof. apply b2z_inj. rewrite !b2z_z2b. by rewrite Z.mod_mod. Qed.

Lemma uint_wrap w z : uint w z -> wrap w z = z.
Proof. intros. by apply Z.mod_small. Qed.

Lemma wrap_uint w z : 0 <= w -> uint w (wrap w z).
Proof. intros. apply Z.mod_pos_bound. lia. Qed.

Lemma bnot64_spec v : uint 64 v -> bnot64 v = U64_MAX - v.
Proof.
  unfold uint, bnot64, wrap, U64_MAX, Z.lnot. intros.
  symmetry. apply Z.mod_unique with (q := -1); lia.
Qed.

Lemma bnot64_uint v : uint 64 (bnot64 v).
Proof. apply wrap_uint. lia. Qed.

Lemma bnot64_involutive v : uint 64 v -> bnot64 (bnot64 v) = v.
Proof.
  intros H. rewrite (bnot64_spec (bnot64 v)) by apply bnot64_uint.
  rewrite bnot64_spec by done. lia.
Qed.

Lemma to_signed_unsigned w z :
  0 < w -> sint w z -> to_signed w (to_unsigned w z) = z.
Proof.
  unfold sint, to_signed, to_unsigned, wrap. intros Hw [? ?].
  assert (2 ^ w = 2 * 2 ^ (w - 1)) as E.
  { rewrite <- Z.pow_succ_r by lia. f_equal. lia. }
  destruct (Z.neg_nonneg_cases z).
  - replace (z mod 2 ^ w) with (z + 2 ^ w)
      by (apply Z.mod_unique with (q := -1); lia).
    destruct (Z.ltb_spec (z + 2 ^ w) (2 ^ (w - 1))); lia.
  - rewrite Z.mod_small by lia.
    destruct (Z.ltb_spec z (2 ^ (w - 1))); lia.
Qed.

Lemma to_unsigned_uint w z : 0 <= w -> uint w (to_unsigned w z).
Proof. apply wrap_uint. Qed.

Lemma to_signed_sint w z : 0 < w -> uint w z -> sint w (to_signed w z).
Proof.
  unfold sint, to_signed, uint. intros Hw [? ?].
  assert (2 ^ w = 2 * 2 ^ (w - 1)) as E.
  { rewrite <- Z.pow_succ_r by lia. f_equal. lia. }
  destruct (Z.ltb_spec z (2 ^ (w - 1))); lia.
Qed.

Lemma to_unsigned_signed w z :
  0 < w -> uint w z -> to_unsigned w (to_signed w z) = z.
Proof.
  unfold to_signed, to_unsigned, uint, wrap. intros Hw [? ?].
  destruct (Z.ltb_spec z (2 ^ (w - 1))).
  - by apply Z.mod_small.
  - symmetry. apply Z.mod_unique with (q := -1); lia.
Qed.

(** ** Lemmas on big-endian integers *)

Lemma length_be_bytes n v : length (be_bytes n v) = n.
Proof. induction n; simpl; auto. Qed.

#[export] Hint Rewrite length_be_bytes @length_app @length_cons @length_nil
  @length_take @length_drop : cedar_len.

Lemma lor_add_byte v b : 0 <= b < 256 ->
  Z.lor (Z.shiftl v 8) b = 256 * v + b.
Proof.
  intros. assert (Z.land (Z.shiftl v 8) b = 0) as Hland.
  { apply Z.bits_inj'. intros n Hn. rewrite Z.land_spec, Z.bits_0.
    destruct (Z.lt_ge_cases n 8); [by rewrite Z.shiftl_spec_low|].
    rewrite <- (Z.mod_small b (2 ^ 8)) by lia.
    rewrite Z.mod_pow2_bits_high by lia. apply andb_false_r. }
  rewrite <- Z.lxor_lor, <- Z.add_nocarry_lxor by done.
  rewrite Z.shiftl_mul_pow2 by lia. lia.
Qed.

Lemma pow_8_succ n : 2 ^ (8 * Z.of_nat (S n)) = 256 * 2 ^ (8 * Z.of_nat n).
Proof.
  replace (8 * Z.of_nat (S n)) with (8 + 8 * Z.of_nat n) by lia.
  rewrite Z.pow_add_r by lia. done.
Qed.

Lemma be_num_acc l acc :
  fold_left (fun value b => 256 * value + b2z b) l acc
  = acc * 2 ^ (8 * Z.of_nat (length l)) + be_num l.
Proof.
  unfold be_num. revert acc. induction l as [|b l IH]; intros acc.
  - simpl. lia.
  - rewrite length_cons, pow_8_succ. cbn [fold_left].
    rewrite (IH (256 * acc + b2z b)), (IH (256 * 0 + b2z b)). lia.
Qed.

Lemma be_num_cons b l :
  be_num (b :: l) = b2z b * 2 ^ (8 * Z.of_nat (length l)) + be_num l.
Proof.
  unfold be_num at 1. cbn [fold_left]. by rewrite be_num_acc.
Qed.

Lemma be_num_range l : uint (8 * Z.of_nat (length l)) (be_num l).
Proof.
  induction l as [|b l IH]; [unfold uint, be_num; simpl; lia|].
  rewrite be_num_cons, length_cons. unfold uint in *. rewrite pow_8_succ.
  pose proof (b2z_range b). nia.
Qed.

Lemma be_value_acc n l acc :
  (length l <= n)%nat ->
  0 <= acc < 2 ^ (8 * Z.of_nat (n - length l)) ->
  fold_left
    (fun value b => Z.lor (wrap (8 * Z.of_nat n) (Z.shiftl value 8)) (b2z b))
    l acc
  = fold_left (fun value b => 256 * value + b2z b) l acc.
Proof.
  revert acc.
  induction l as [|b l IH]; intros acc Hlen Hacc; cbn [fold_left]; [done|].
  rewrite length_cons in Hlen, Hacc.
  pose proof (b2z_range b).
  assert (256 * 2 ^ (8 * Z.of_nat (n - S (length l)))
          = 2 ^ (8 * Z.of_nat (n - length l))) as E.
  { rewrite <- pow_8_succ. do 3 f_equal. lia. }
  assert (2 ^ (8 * Z.of_nat (n - length l)) <= 2 ^ (8 * Z.of_nat n))
    by (apply Z.pow_le_mono_r; lia).
  rewrite (uint_wrap _ (Z.shiftl acc 8)).
  2: { rewrite Z.shiftl_mul_pow2 by lia. unfold uint. lia. }
  rewrite lor_add_byte by done. apply IH; lia.
Qed.

Lemma be_value_num n l : (length l <= n)%nat -> be_value n l = be_num l.
Proof. intros Hlen. apply be_value_acc; lia. Qed.

Lemma be_num_bytes n v : be_num (be_bytes n v) = v mod 2 ^ (8 * Z.of_nat n).
Proof.
  induction n as [|n IH]; [by rewrite Z.mod_1_r|].
  cbn [be_bytes]. rewrite be_num_cons, length_be_bytes, IH, b2z_z2b.
  rewrite Z.shiftr_div_pow2, pow_8_succ by lia.
  rewrite (Z.mul_comm 256), Z.rem_mul_r by lia. lia.
Qed.

Lemma be_num_inj l k : length l = length k -> be_num l = be_num k -> l = k.
Proof.
  revert k. induction l as [|b l IH]; intros [|c k] Hlen; try discriminate.
  - done.
  - rewrite !be_num_cons. simpl in Hlen. injection Hlen as Hlen.
    pose proof (be_num_range l). pose proof (be_num_range k).
    unfold uint in *. rewrite Hlen in *. intros E.
    destruct (Z.div_mod_unique (2 ^ (8 * Z.of_nat (length k)))
                (b2z b) (b2z c) (be_num l) (be_num k)) as [Hb Hl]; lia || idtac.
    f_equal; [by apply b2z_inj|by apply IH].
Qed.

Lemma be_bytes_num n l : length l = n -> be_bytes n (be_num l) = l.
Proof.
  intros Hlen. apply be_num_inj; rewrite ?length_be_bytes; [done|].
  rewrite be_num_bytes, <- Hlen. apply Z.mod_small, be_num_range.
Qed.

(** ** Lemmas on reading at an offset *)

Lemma suffix_at_0 input : suffix_at input 0 input.
Proof. split; [lia|by rewrite drop_0]. Qed.

Lemma suffix_at_length input offset rest :
  suffix_at input offset rest -> length input = (offset + length rest)%nat.
Proof. intros [? <-]. rewrite length_drop. lia. Qed.

Lemma suffix_at_skip input offset chunk rest :
  suffix_at input offset (chunk ++ rest) ->
  suffix_at input (offset + length chunk) rest.
Proof.
  intros H. pose proof (suffix_at_length _ _ _ H) as Hl.
  destruct H as [? H]. rewrite length_app in Hl.
  split; [lia|]. rewrite <- drop_drop, H. apply drop_app_length.
Qed.

Lemma suffix_at_take input offset chunk rest :
  suffix_at input offset (chunk ++ rest) ->
  take (length chunk) (drop offset input) = chunk.
Proof. intros [_ ->]. apply take_app_length. Qed.

Lemma suffix_at_lookup input offset b rest :
  suffix_at input offset (b :: rest) -> input !! offset = Some b.
Proof.
  intros [_ H]. apply (f_equal (fun l => l !! 0%nat)) in H.
  by rewrite lookup_drop, Nat.add_0_r in H.
Qed.

Lemma suffix_at_next input offset b rest :
  suffix_at input offset (b :: rest) -> suffix_at input (S offset) rest.
Proof.
  intros H. apply (suffix_at_skip _ _ [b]) in H.
  by rewrite length_cons, length_nil, Nat.add_1_r in H.
Qed.

Lemma read_be_suffix n input offset chunk rest :
  length chunk = n ->
  suffix_at input offset (chunk ++ rest) ->
  read_be n input offset = Some (be_num chunk, (offset + n)%nat).
Proof.
  intros Hn H. pose proof (suffix_at_length _ _ _ H) as Hl.
  rewrite length_app in Hl. unfold read_be.
  destruct (Nat.ltb_spec (length input - offset) n); [lia|].
  subst n. rewrite (suffix_at_take _ _ _ _ H). by rewrite be_value_num.
Qed.

Lemma read_be_at n input offset v rest :
  uint (8 * Z.of_nat n) v ->
  suffix_at input offset (be_bytes n v ++ rest) ->
  read_be n input offset = Some (v, (offset + n)%nat)
  /\ suffix_at input (offset + n) rest.
Proof.
  intros Hv H. split.
  - rewrite (read_be_suffix _ _ _ _ _ (length_be_bytes n v) H).
    rewrite be_num_bytes. by rewrite Z.mod_small.
  - apply suffix_at_skip in H. by rewrite length_be_bytes in H.
Qed.

Lemma read_be_Some n input offset v offset' :
  (offset <= length input)%nat ->
  read_be n input offset = Some (v, offset') ->
  offset' = (offset + n)%nat /\ (offset' <= length input)%nat /\
  uint (8 * Z.of_nat n) v /\
  drop offset input = be_bytes n v ++ drop offset' input.
Proof.
  unfold read_be. intros Hoff H.
  destruct (Nat.ltb_spec (length input - offset) n); [done|].
  injection H as <- <-.
  assert (length (take n (drop offset input)) = n) as Hlen.
  { rewrite length_take, length_drop. lia. }
  rewrite be_value_num by lia.
  split; [done|]. split; [lia|]. split.
  - rewrite <- Hlen at 1. apply be_num_range.
  - rewrite be_bytes_num by done. rewrite <- drop_drop.
    by rewrite take_drop.
Qed.

(** ** Lemmas on the bytewise order *)

Lemma bytes_compare_refl a : bytes_compare a a = Eq.
Proof. induction a; simpl; [done|]. by rewrite Z.compare_refl. Qed.

Lemma bytes_compare_eq a b : bytes_compare a b = Eq -> a = b.
Proof.
  revert b. induction a as [|x a IH]; intros [|y b]; simpl; try done.
  destruct (Z.compare_spec (b2z x) (b2z y)); try done.
  intros. f_equal; [by apply b2z_inj|by apply IH].
Qed.

Lemma bytes_compare_antisym a b :
  bytes_compare b a = CompOpp (bytes_compare a b).
Proof.
  revert b. induction a as [|x a IH]; intros [|y b]; simpl; try done.
  rewrite (Z.compare_antisym (b2z x) (b2z y)).
  destruct (b2z x ?= b2z y); simpl; auto.
Qed.

Lemma bytes_compare_lt_trans a b c :
  bytes_compare a b = Lt -> bytes_compare b c = Lt -> bytes_compare a c = Lt.
Proof.
  revert b c. induction a as [|x a IH]; intros [|y b] [|z c]; simpl; try done.
  destruct (Z.compare_spec (b2z x) (b2z y));
    destruct (Z.compare_spec (b2z y) (b2z z));
    destruct (Z.compare_spec (b2z x) (b2z z)); try done; try lia.
  apply IH.
Qed.

#[export] Instance bytes_lt_transitive : Transitive bytes_lt.
Proof. intros a b c. apply bytes_compare_lt_trans. Qed.

#[export] Instance bytes_lt_irreflexive : Irreflexive bytes_lt.
Proof. intros a. unfold complement, bytes_lt. by rewrite bytes_compare_refl. Qed.

Lemma bytes_compare_app a b x y :
  length a = length b ->
  bytes_compare (a ++ x) (b ++ y)
  = then_compare (bytes_compare a b) (bytes_compare x y).
Proof.
  revert b. induction a as [|u a IH]; intros [|v b] Hlen; try discriminate.
  - done.
  - simpl. destruct (b2z u ?= b2z v); simpl; auto.
Qed.

Lemma bytes_compare_num a b :
  length a = length b -> bytes_compare a b = (be_num a ?= be_num b).
Proof.
  revert b. induction a as [|u a IH]; intros [|v b] Hlen; try discriminate.
  - done.
  - injection Hlen as Hlen. rewrite !be_num_cons, Hlen.
    cbn [bytes_compare]. rewrite (IH b Hlen).
    pose proof (be_num_range a) as Ha. pose proof (be_num_range b) as Hb.
    unfold uint in *. rewrite Hlen in Ha.
    set (P := 2 ^ (8 * Z.of_nat (length b))) in *. clearbody P.
    destruct (Z.compare_spec (b2z u) (b2z v)) as [E|E|E].
    + rewrite E. destruct (Z.compare_spec (be_num a) (be_num b)); symmetry;
        [apply Z.compare_eq_iff|apply Z.compare_lt_iff|apply Z.compare_gt_iff];
        lia.
    + symmetry. apply Z.compare_lt_iff. nia.
    + symmetry. apply Z.compare_gt_iff. nia.
Qed.

Lemma bytes_compare_be n v w :
  uint (8 * Z.of_nat n) v -> uint (8 * Z.of_nat n) w ->
  bytes_compare (be_bytes n v) (be_bytes n w) = (v ?= w).
Proof.
  intros Hv Hw. rewrite bytes_compare_num by by rewrite !length_be_bytes.
  rewrite !be_num_bytes. by rewrite !Z.mod_small.
Qed.
