(* ===== verification/Status.v ===== *)
(** * Status: error values of Cedar

    Models [include/cedar/core/status.h] and [src/core/status.cc].  A [Status]
    is OK or a code with a message; a [StatusOr] holds a value or a status that
    is not OK.  Functions of the code that return [StatusOr] are written in the
    monad of [StatusOr], with stdpp's [x ← e; k] notation for the pattern
    [if (!e.ok()) return e.status();]. *)

From S2P Require Import Prelude.

(** [Status::Code]. *)
Inductive Code :=
| kOk
| kNotFound
| kCorruption
| kNotSupported
| kInvalidArgument
| kIOError
| kConflict
| kSchemaMismatch
| kParseError
| kBindError
| kBlobCorruption
| kQueryCancelled
| kWriteStalled
| kResourceExhausted
| kIndeterminate
| kRecoveryRequired
| kShutdownInProgress
| kMaintenanceBackoff
| kIdentityConflict
| kSnapshotExpired
| kSnapshotPinned
| kUnsupportedSerializablePredicate
| kDeadlineExceeded
| kNumericOverflow.

#[export] Instance Code_eq_dec : EqDecision Code.
Proof. solve_decision. Defined.

(** [state_ == nullptr] is [StatusOK]; otherwise the state holds the code and
    the message. *)
Inductive Status :=
| StatusOK
| StatusError (code : Code) (message : string).

#[export] Instance Status_eq_dec : EqDecision Status.
Proof. solve_decision. Defined.

(** The constructor [Status(code, msg, msg2)]: the second message is appended
    after a colon and a blank when it is not empty. *)
Definition mkStatus (c : Code) (msg msg2 : string) : Status :=
  StatusError c (msg +:+ match msg2 with
                         | EmptyString => ""
                         | _ => ": " +:+ msg2
                         end).

Definition NotFound := mkStatus kNotFound.
Definition Corruption := mkStatus kCorruption.
Definition NotSupported := mkStatus kNotSupported.
Definition InvalidArgument := mkStatus kInvalidArgument.
Definition Conflict := mkStatus kConflict.
Definition QueryCancelled := mkStatus kQueryCancelled.
Definition ResourceExhausted := mkStatus kResourceExhausted.
Definition IdentityConflict := mkStatus kIdentityConflict.
Definition IOError := mkStatus kIOError.
Definition Indeterminate := mkStatus kIndeterminate.
Definition RecoveryRequired := mkStatus kRecoveryRequired.
Definition SnapshotExpired := mkStatus kSnapshotExpired.
Definition SnapshotPinned := mkStatus kSnapshotPinned.
Definition SchemaMismatch := mkStatus kSchemaMismatch.
Definition ShutdownInProgress := mkStatus kShutdownInProgress.
Definition UnsupportedSerializablePredicate := mkStatus kUnsupportedSerializablePredicate.

Definition status_ok (s : Status) : bool :=
  match s with StatusOK => true | StatusError _ _ => false end.

Definition status_code (s : Status) : Code :=
  match s with StatusOK => kOk | StatusError c _ => c end.

Definition IsQueryCancelled (s : Status) : bool :=
  bool_decide (status_code s = kQueryCancelled).

Definition IsIndeterminate (s : Status) : bool :=
  bool_decide (status_code s = kIndeterminate).

Definition IsRecoveryRequired (s : Status) : bool :=
  bool_decide (status_code s = kRecoveryRequired).

(** The prefix that [Status::ToString] gives each code. *)
Definition code_prefix (c : Code) : string :=
  match c with
  | kOk => "OK"
  | kNotFound => "NotFound: "
  | kCorruption => "Corruption: "
  | kNotSupported => "Not implemented: "
  | kInvalidArgument => "Invalid argument: "
  | kIOError => "IO error: "
  | kConflict => "Conflict: "
  | kSchemaMismatch => "SchemaMismatch: "
  | kParseError => "ParseError: "
  | kBindError => "BindError: "
  | kBlobCorruption => "BlobCorruption: "
  | kQueryCancelled => "QueryCancelled: "
  | kDeadlineExceeded => "DeadlineExceeded: "
  | kNumericOverflow => "NumericOverflow: "
  | kWriteStalled => "WriteStalled: "
  | kResourceExhausted => "ResourceExhausted: "
  | kIndeterminate => "Indeterminate: "
  | kRecoveryRequired => "RecoveryRequired: "
  | kShutdownInProgress => "ShutdownInProgress: "
  | kMaintenanceBackoff => "MaintenanceBackoff: "
  | kIdentityConflict => "IdentityConflict: "
  | kSnapshotExpired => "SnapshotExpired: "
  | kSnapshotPinned => "SnapshotPinned: "
  | kUnsupportedSerializablePredicate => "UnsupportedSerializablePredicate: "
  end.

Definition ToString (s : Status) : string :=
  match s with
  | StatusOK => "OK"
  | StatusError c m => code_prefix c +:+ m
  end.

(** [StatusOr<T>]. *)
Inductive StatusOr (A : Type) :=
| Ok (value : A)
| Fail (status : Status).
Arguments Ok {A} value.
Arguments Fail {A} status.

#[export] Instance StatusOr_ret : MRet StatusOr := fun A a => Ok a.

#[export] Instance StatusOr_bind : MBind StatusOr := fun A B f m =>
  match m with Ok a => f a | Fail s => Fail s end.

#[export] Instance StatusOr_fmap : FMap StatusOr := fun A B f m =>
  match m with Ok a => Ok (f a) | Fail s => Fail s end.

Definition is_ok {A} (m : StatusOr A) : bool :=
  match m with Ok _ => true | Fail _ => false end.

(** [const Status s = ...; if (!s.ok()) return s;] *)
Definition check (s : Status) : StatusOr unit :=
  match s with StatusOK => Ok tt | _ => Fail s end.

(** [if (!condition) return status;] *)
Definition require (condition : bool) (s : Status) : StatusOr unit :=
  if condition then Ok tt else Fail s.

(** [if (!Read(..., &value)) return status;] *)
Definition from_option {A} (o : option A) (s : Status) : StatusOr A :=
  match o with Some a => Ok a | None => Fail s end.

(** Runs a fallible step over the elements of a vector, in order, and stops at
    the first failure. *)
Fixpoint mapM_status {A B} (f : A -> StatusOr B) (l : list A)
  : StatusOr (list B) :=
  match l with
  | [] => Ok []
  | a :: l' => b ← f a; bs ← mapM_status f l'; Ok (b :: bs)
  end.

(** The first status of a list of checks that is not OK. *)
Fixpoint first_error {A} (f : A -> Status) (l : list A) : Status :=
  match l with
  | [] => StatusOK
  | a :: l' => match f a with StatusOK => first_error f l' | s => s end
  end.

(** The status of a computation whose value is not used. *)
Definition to_status {A} (m : StatusOr A) : Status :=
  match m with Ok _ => StatusOK | Fail s => s end.

(** A [StatusOr] never holds an OK status in place of a value ([assert] in its
    constructor); the computations keep to that. *)
Definition proper {A} (m : StatusOr A) : Prop := m <> Fail StatusOK.

(** ** Lemmas *)

Lemma bind_Ok {A B} (m : StatusOr A) (f : A -> StatusOr B) b :
  m ≫= f = Ok b <-> exists a, m = Ok a /\ f a = Ok b.
Proof.
  destruct m as [a|s]; simpl; split.
  - eauto.
  - by intros (? & [= ->] & ?).
  - done.
  - by intros (? & ? & ?).
Qed.

Lemma Ok_inj {A} (a b : A) : Ok a = Ok b -> a = b.
Proof. congruence. Qed.

Lemma check_Ok s u : check s = Ok u <-> s = StatusOK.
Proof. destruct s, u; simpl; split; congruence. Qed.

Lemma require_Ok c s u : require c s = Ok u <-> c = true.
Proof. destruct c, u; simpl; split; congruence. Qed.

Lemma from_option_Ok {A} (o : option A) s a :
  from_option o s = Ok a <-> o = Some a.
Proof. destruct o; simpl; split; congruence. Qed.

Lemma status_ok_spec s : status_ok s = true <-> s = StatusOK.
Proof. destruct s; simpl; split; congruence. Qed.

Lemma first_error_OK {A} (f : A -> Status) l :
  first_error f l = StatusOK <-> Forall (fun a => f a = StatusOK) l.
Proof.
  induction l as [|a l IH]; simpl; [by split|].
  rewrite Forall_cons. destruct (f a); naive_solver.
Qed.

Lemma mapM_status_Ok {A B} (f : A -> StatusOr B) l bs :
  mapM_status f l = Ok bs <-> Forall2 (fun a b => f a = Ok b) l bs.
Proof.
  revert bs. induction l as [|a l IH]; intros bs; simpl.
  - split; [intros [= <-]; constructor|by inversion 1].
  - rewrite bind_Ok. setoid_rewrite bind_Ok. setoid_rewrite IH. split.
    + intros (b & ? & bs' & ? & [= <-]). by constructor.
    + inversion 1; subst. eauto 10.
Qed.

Lemma proper_Ok {A} (a : A) : proper (Ok a).
Proof. done. Qed.

Lemma proper_bind {A B} (m : StatusOr A) (f : A -> StatusOr B) :
  proper m -> (forall a, proper (f a)) -> proper (m ≫= f).
Proof. unfold proper. destruct m as [a|s]; simpl; [auto|congruence]. Qed.

Lemma proper_check s : proper (check s).
Proof. by destruct s. Qed.

Lemma proper_require c code msg msg2 : proper (require c (mkStatus code msg msg2)).
Proof. by destruct c. Qed.

Lemma proper_from_option {A} (o : option A) code msg msg2 :
  proper (from_option o (mkStatus code msg msg2)).
Proof. by destruct o. Qed.

#[export] Hint Resolve proper_Ok proper_bind proper_check proper_require
  proper_from_option : cedar.

Lemma to_status_OK {A} (m : StatusOr A) :
  proper m -> to_status m = StatusOK <-> exists a, m = Ok a.
Proof.
  unfold proper, to_status. destruct m as [a|[]]; naive_solver.
Qed.

(** Splits a successful run of a [StatusOr] computation into its steps. *)
Ltac inv_ok :=
  repeat match goal with
  | p : (_ * _)%type |- _ => destruct p
  | H : (let _ := _ in _) = Ok _ |- _ => progress cbv zeta in H
  | H : _ ≫= _ = Ok _ |- _ => apply bind_Ok in H as (? & ? & H)
  | H : check _ = Ok _ |- _ => apply check_Ok in H
  | H : require _ _ = Ok _ |- _ => apply require_Ok in H
  | H : from_option _ _ = Ok _ |- _ => apply from_option_Ok in H
  | H : mret _ = Ok _ |- _ => apply Ok_inj in H
  | H : Ok _ = Ok _ |- _ => apply Ok_inj in H
  | H : Fail _ = Ok _ |- _ => discriminate H
  end.

(** Runs the steps of a computation whose outcomes are known. *)
Ltac run_ok :=
  repeat match goal with
  | E : ?m = Ok _ |- context [?m ≫= _] =>
      rewrite E; cbn beta iota delta [mbind StatusOr_bind]
  end.
