(* ===== verification/Crc32c.v ===== *)
(** * CRC32C

    Models [include/cedar/core/crc32c.h] and [src/core/crc32c.cc]: the
    table-driven extension, the one on the SSE4.2 instructions (which are
    parameters), the masked form, and the checksum of a byte string.

    The theorems relate the table to the bit-serial definition of the reflected
    Castagnoli polynomial, show that the two extensions agree, that extension
    composes over concatenation, and that a checksum distinguishes any two
    strings that differ in one byte.  The codecs rely on the last fact. *)

From S2P Require Import Prelude.

Definition kByteExtensionTable : list Z :=
  [0x00000000; 0xf26b8303; 0xe13b70f7; 0x1350f3f4; 0xc79a971f; 0x35f1141c;
   0x26a1e7e8; 0xd4ca64eb; 0x8ad958cf; 0x78b2dbcc; 0x6be22838; 0x9989ab3b;
   0x4d43cfd0; 0xbf284cd3; 0xac78bf27; 0x5e133c24; 0x105ec76f; 0xe235446c;
   0xf165b798; 0x030e349b; 0xd7c45070; 0x25afd373; 0x36ff2087; 0xc494a384;
   0x9a879fa0; 0x68ec1ca3; 0x7bbcef57; 0x89d76c54; 0x5d1d08bf; 0xaf768bbc;
   0xbc267848; 0x4e4dfb4b; 0x20bd8ede; 0xd2d60ddd; 0xc186fe29; 0x33ed7d2a;
   0xe72719c1; 0x154c9ac2; 0x061c6936; 0xf477ea35; 0xaa64d611; 0x580f5512;
   0x4b5fa6e6; 0xb93425e5; 0x6dfe410e; 0x9f95c20d; 0x8cc531f9; 0x7eaeb2fa;
   0x30e349b1; 0xc288cab2; 0xd1d83946; 0x23b3ba45; 0xf779deae; 0x05125dad;
   0x1642ae59; 0xe4292d5a; 0xba3a117e; 0x4851927d; 0x5b016189; 0xa96ae28a;
   0x7da08661; 0x8fcb0562; 0x9c9bf696; 0x6ef07595; 0x417b1dbc; 0xb3109ebf;
   0xa0406d4b; 0x522bee48; 0x86e18aa3; 0x748a09a0; 0x67dafa54; 0x95b17957;
   0xcba24573; 0x39c9c670; 0x2a993584; 0xd8f2b687; 0x0c38d26c; 0xfe53516f;
   0xed03a29b; 0x1f682198; 0x5125dad3; 0xa34e59d0; 0xb01eaa24; 0x42752927;
   0x96bf4dcc; 0x64d4cecf; 0x77843d3b; 0x85efbe38; 0xdbfc821c; 0x2997011f;
   0x3ac7f2eb; 0xc8ac71e8; 0x1c661503; 0xee0d9600; 0xfd5d65f4; 0x0f36e6f7;
   0x61c69362; 0x93ad1061; 0x80fde395; 0x72966096; 0xa65c047d; 0x5437877e;
   0x4767748a; 0xb50cf789; 0xeb1fcbad; 0x197448ae; 0x0a24bb5a; 0xf84f3859;
   0x2c855cb2; 0xdeeedfb1; 0xcdbe2c45; 0x3fd5af46; 0x7198540d; 0x83f3d70e;
   0x90a324fa; 0x62c8a7f9; 0xb602c312; 0x44694011; 0x5739b3e5; 0xa55230e6;
   0xfb410cc2; 0x092a8fc1; 0x1a7a7c35; 0xe811ff36; 0x3cdb9bdd; 0xceb018de;
   0xdde0eb2a; 0x2f8b6829; 0x82f63b78; 0x709db87b; 0x63cd4b8f; 0x91a6c88c;
   0x456cac67; 0xb7072f64; 0xa457dc90; 0x563c5f93; 0x082f63b7; 0xfa44e0b4;
   0xe9141340; 0x1b7f9043; 0xcfb5f4a8; 0x3dde77ab; 0x2e8e845f; 0xdce5075c;
   0x92a8fc17; 0x60c37f14; 0x73938ce0; 0x81f80fe3; 0x55326b08; 0xa759e80b;
   0xb4091bff; 0x466298fc; 0x1871a4d8; 0xea1a27db; 0xf94ad42f; 0x0b21572c;
   0xdfeb33c7; 0x2d80b0c4; 0x3ed04330; 0xccbbc033; 0xa24bb5a6; 0x502036a5;
   0x4370c551; 0xb11b4652; 0x65d122b9; 0x97baa1ba; 0x84ea524e; 0x7681d14d;
   0x2892ed69; 0xdaf96e6a; 0xc9a99d9e; 0x3bc21e9d; 0xef087a76; 0x1d63f975;
   0x0e330a81; 0xfc588982; 0xb21572c9; 0x407ef1ca; 0x532e023e; 0xa145813d;
   0x758fe5d6; 0x87e466d5; 0x94b49521; 0x66df1622; 0x38cc2a06; 0xcaa7a905;
   0xd9f75af1; 0x2b9cd9f2; 0xff56bd19; 0x0d3d3e1a; 0x1e6dcdee; 0xec064eed;
   0xc38d26c4; 0x31e6a5c7; 0x22b65633; 0xd0ddd530; 0x0417b1db; 0xf67c32d8;
   0xe52cc12c; 0x1747422f; 0x49547e0b; 0xbb3ffd08; 0xa86f0efc; 0x5a048dff;
   0x8ecee914; 0x7ca56a17; 0x6ff599e3; 0x9d9e1ae0; 0xd3d3e1ab; 0x21b862a8;
   0x32e8915c; 0xc083125f; 0x144976b4; 0xe622f5b7; 0xf5720643; 0x07198540;
   0x590ab964; 0xab613a67; 0xb831c993; 0x4a5a4a90; 0x9e902e7b; 0x6cfbad78;
   0x7fab5e8c; 0x8dc0dd8f; 0xe330a81a; 0x115b2b19; 0x020bd8ed; 0xf0605bee;
   0x24aa3f05; 0xd6c1bc06; 0xc5914ff2; 0x37faccf1; 0x69e9f0d5; 0x9b8273d6;
   0x88d28022; 0x7ab90321; 0xae7367ca; 0x5c18e4c9; 0x4f48173d; 0xbd23943e;
   0xf36e6f75; 0x0105ec76; 0x12551f82; 0xe03e9c81; 0x34f4f86a; 0xc69f7b69;
   0xd5cf889d; 0x27a40b9e; 0x79b737ba; 0x8bdcb4b9; 0x988c474d; 0x6ae7c44e;
   0xbe2da0a5; 0x4c4623a6; 0x5f16d052; 0xad7d5351].

Definition kCRC32Xor : Z := 0xffffffff.

(** One turn of the loop of [ExtendPortable]. *)
Definition portable_step (l : Z) (b : byte) : Z :=
  let c := Z.lxor (Z.land l 0xff) (b2z b) in
  Z.lxor (nth (Z.to_nat c) kByteExtensionTable 0) (Z.shiftr l 8).

Definition ExtendPortable (crc : Z) (data : list byte) : Z :=
  Z.lxor (fold_left portable_step data (Z.lxor crc kCRC32Xor)) kCRC32Xor.

(** [Extend] and [Value].  The dispatch picks one of two extensions once; they
    agree ([ExtendHardware_portable]), so the portable one stands for it. *)
Definition Extend (crc : Z) (data : list byte) : Z :=
  match data with [] => crc | _ => ExtendPortable crc data end.

Definition crc32c (data : list byte) : Z := Extend 0 data.

Definition kMaskDelta : Z := 0xa282ead8.

Definition Mask (crc : Z) : Z :=
  wrap 32 (Z.lor (Z.shiftr crc 15) (wrap 32 (Z.shiftl crc 17)) + kMaskDelta).

Definition Unmask (masked_crc : Z) : Z :=
  let rot := wrap 32 (masked_crc - kMaskDelta) in
  Z.lor (Z.shiftr rot 17) (wrap 32 (Z.shiftl rot 15)).

(** The bit-serial definition: one bit of the reflected polynomial. *)
Definition kPolynomial : Z := 0x82f63b78.

Definition bit_step (x : Z) : Z :=
  Z.lxor (Z.shiftr x 1) (if Z.testbit x 0 then kPolynomial else 0).

Definition byte_step (x : Z) : Z :=
  bit_step (bit_step (bit_step (bit_step
    (bit_step (bit_step (bit_step (bit_step x))))))).

Arguments bit_step : simpl never.
Arguments byte_step : simpl never.

(** The little-endian [uint64_t] that [memcpy] loads. *)
Definition le_num (bytes : list byte) : Z := be_num (rev bytes).

(** The framing that the record codecs share: the last four bytes are the
    big-endian checksum of everything before them. *)
Definition checksummed (bytes : list byte) : Prop :=
  (4 <= length bytes)%nat /\
  drop (length bytes - 4) bytes
  = be_bytes 4 (crc32c (take (length bytes - 4) bytes)).

Section hardware.

(** [_mm_crc32_u8] and [_mm_crc32_u64], with the behaviour that the instruction
    set documents: the first divides by the reflected polynomial one byte at a
    time, the second does so for the eight bytes of its operand from the least
    significant one. *)
Context (mm_crc32_u8 : Z -> Z -> Z) (mm_crc32_u64 : Z -> Z -> Z).

(** The 64-bit loop of [ExtendHardware]: [n >= 8]. *)
Fixpoint hardware_words (fuel : nat) (wide : Z) (data : list byte)
  : Z * list byte :=
  match fuel with
  | O => (wide, data)
  | S fuel' =>
      if (8 <=? length data)%nat then
        hardware_words fuel' (mm_crc32_u64 wide (le_num (take 8 data)))
          (drop 8 data)
      else (wide, data)
  end.

Definition ExtendHardware (crc : Z) (data : list byte) : Z :=
  let '(wide, rest) :=
    hardware_words (length data) (Z.lxor crc kCRC32Xor) data in
  let value := wrap 32 wide in
  Z.lxor (fold_left (fun v b => mm_crc32_u8 v (b2z b)) rest value) kCRC32Xor.

End hardware.

(** ** The bit-serial definition *)

(** Equality of two bit patterns, by comparing every bit. *)
Ltac bits_eq :=
  apply Z.bits_inj'; intros ? ?; rewrite ?Z.lxor_spec, ?Z.bits_0;
  repeat match goal with |- context [Z.testbit ?a ?i] =>
    destruct (Z.testbit a i) end; reflexivity.

Lemma bit_step_lxor a b :
  bit_step (Z.lxor a b) = Z.lxor (bit_step a) (bit_step b).
Proof.
  unfold bit_step. rewrite Z.shiftr_lxor, Z.lxor_spec.
  destruct (Z.testbit a 0), (Z.testbit b 0); simpl xorb; cbv iota; bits_eq.
Qed.

Lemma bit_step_even x n :
  0 < n -> bit_step (Z.shiftl x n) = Z.shiftl x (n - 1).
Proof.
  intros. unfold bit_step. rewrite Z.shiftl_spec_low by lia.
  rewrite Z.lxor_0_r. by rewrite Z.shiftr_shiftl_l by lia.
Qed.

Lemma byte_step_lxor a b :
  byte_step (Z.lxor a b) = Z.lxor (byte_step a) (byte_step b).
Proof. unfold byte_step. by rewrite !bit_step_lxor. Qed.

Lemma byte_step_shift x : byte_step (Z.shiftl x 8) = x.
Proof.
  unfold byte_step. rewrite !bit_step_even by lia. apply Z.shiftl_0_r.
Qed.

Lemma split_low_byte x :
  x = Z.lxor (Z.land x 0xff) (Z.shiftl (Z.shiftr x 8) 8).
Proof.
  apply Z.bits_inj'. intros n Hn. change 0xff with (Z.ones 8).
  rewrite Z.lxor_spec, Z.land_spec.
  destruct (Z.lt_ge_cases n 8).
  - rewrite Z.ones_spec_low, Z.shiftl_spec_low by lia.
    by rewrite andb_true_r, xorb_false_r.
  - rewrite Z.ones_spec_high, Z.shiftl_spec_high, Z.shiftr_spec by lia.
    rewrite andb_false_r, xorb_false_l. f_equal. lia.
Qed.

Lemma byte_step_split x :
  byte_step x = Z.lxor (byte_step (Z.land x 0xff)) (Z.shiftr x 8).
Proof.
  rewrite (split_low_byte x) at 1. by rewrite byte_step_lxor, byte_step_shift.
Qed.

Lemma table_byte_step c :
  0 <= c < 256 -> nth (Z.to_nat c) kByteExtensionTable 0 = byte_step c.
Proof.
  assert (forallb (fun i => nth i kByteExtensionTable 0
                            =? byte_step (Z.of_nat i)) (seq 0 256) = true)
    as Htable by (vm_compute; reflexivity).
  rewrite forallb_forall in Htable. intros Hc.
  specialize (Htable (Z.to_nat c)). rewrite Z2Nat.id in Htable by lia.
  apply Z.eqb_eq, Htable, in_seq. lia.
Qed.

Lemma land_byte b : Z.land (b2z b) 0xff = b2z b.
Proof.
  change 0xff with (Z.ones 8). rewrite Z.land_ones by lia.
  apply Z.mod_small, b2z_range.
Qed.

Lemma shiftr_byte b : Z.shiftr (b2z b) 8 = 0.
Proof.
  rewrite Z.shiftr_div_pow2 by lia. apply Z.div_small, b2z_range.
Qed.

Lemma portable_step_bits l b :
  portable_step l b = byte_step (Z.lxor l (b2z b)).
Proof.
  unfold portable_step. rewrite byte_step_split, Z.shiftr_lxor, shiftr_byte.
  rewrite Z.lxor_0_r. f_equal.
  assert (Z.lxor (Z.land l 0xff) (b2z b) = Z.land (Z.lxor l (b2z b)) 0xff)
    as E.
  { rewrite <- (land_byte b) at 1. apply Z.bits_inj'. intros n Hn.
    rewrite ?Z.lxor_spec, ?Z.land_spec, ?Z.lxor_spec.
    destruct (Z.testbit l n), (Z.testbit (b2z b) n), (Z.testbit 0xff n);
      reflexivity. }
  rewrite E. apply table_byte_step.
  change 0xff with (Z.ones 8). rewrite Z.land_ones by lia.
  apply Z.mod_pos_bound. lia.
Qed.

(** ** Injectivity of a step on 32-bit words *)

Lemma uint_high_bits w a n :
  uint w a -> 0 <= w <= n -> Z.testbit a n = false.
Proof.
  intros Ha Hn. rewrite <- (Z.mod_small a (2 ^ w)) by apply Ha.
  apply Z.mod_pow2_bits_high. lia.
Qed.

Lemma lxor_uint w a b : 0 <= w -> uint w a -> uint w b -> uint w (Z.lxor a b).
Proof.
  intros Hw Ha Hb.
  assert (Z.lxor a b = Z.lxor a b mod 2 ^ w) as ->.
  { rewrite <- Z.land_ones by lia. apply Z.bits_inj'. intros n Hn.
    rewrite Z.land_spec. destruct (Z.lt_ge_cases n w).
    - rewrite Z.ones_spec_low by lia. by rewrite andb_true_r.
    - rewrite Z.lxor_spec, !(uint_high_bits w) by (done || lia). done. }
  apply Z.mod_pos_bound. lia.
Qed.

Lemma bit_step_uint x : uint 32 x -> uint 32 (bit_step x).
Proof.
  intros [? ?]. apply lxor_uint; [lia| |].
  - rewrite Z.shiftr_div_pow2 by lia. split.
    + apply Z.div_pos; lia.
    + apply Z.div_lt_upper_bound; lia.
  - destruct (Z.testbit x 0); unfold uint, kPolynomial; lia.
Qed.

Lemma bit_step_top x : uint 32 x -> Z.testbit (bit_step x) 31 = Z.testbit x 0.
Proof.
  intros Hx. unfold bit_step. rewrite Z.lxor_spec, Z.shiftr_spec by lia.
  assert (Z.testbit x (31 + 1) = false) as ->.
  { rewrite <- (Z.mod_small x (2 ^ 32)) by apply Hx.
    apply Z.mod_pow2_bits_high. lia. }
  by destruct (Z.testbit x 0).
Qed.

Lemma bit_step_inj x y :
  uint 32 x -> uint 32 y -> bit_step x = bit_step y -> x = y.
Proof.
  intros Hx Hy E.
  assert (Z.testbit x 0 = Z.testbit y 0) as E0.
  { rewrite <- !bit_step_top by done. by rewrite E. }
  assert (Z.shiftr x 1 = Z.shiftr y 1) as E1.
  { unfold bit_step in E. rewrite E0 in E.
    apply (f_equal (fun v =>
      Z.lxor v (if Z.testbit y 0 then kPolynomial else 0))) in E.
    by rewrite !Z.lxor_assoc, !Z.lxor_nilpotent, !Z.lxor_0_r in E. }
  apply Z.bits_inj'. intros n Hn. destruct (Z.eq_dec n 0) as [->|Hn0]; [done|].
  apply (f_equal (fun v => Z.testbit v (n - 1))) in E1.
  rewrite !Z.shiftr_spec in E1 by lia. by replace (n - 1 + 1) with n in E1 by lia.
Qed.

#[local] Opaque bit_step.

Lemma byte_step_uint x : uint 32 x -> uint 32 (byte_step x).
Proof. intros. unfold byte_step. by repeat apply bit_step_uint. Qed.

Lemma byte_step_inj x y :
  uint 32 x -> uint 32 y -> byte_step x = byte_step y -> x = y.
Proof.
  intros Hx Hy E.
  do 8 (apply bit_step_inj; [auto 9 using bit_step_uint..|]). exact E.
Qed.

Lemma byte_uint32 b : uint 32 (b2z b).
Proof. pose proof (b2z_range b). unfold uint. lia. Qed.

Lemma lxor_cancel_r a b c : Z.lxor a c = Z.lxor b c -> a = b.
Proof.
  intros E. apply (f_equal (fun v => Z.lxor v c)) in E.
  by rewrite !Z.lxor_assoc, !Z.lxor_nilpotent, !Z.lxor_0_r in E.
Qed.

Lemma lxor_cancel_l a b c : Z.lxor c a = Z.lxor c b -> a = b.
Proof. rewrite !(Z.lxor_comm c). apply lxor_cancel_r. Qed.

Lemma portable_step_uint l b : uint 32 l -> uint 32 (portable_step l b).
Proof.
  intros. rewrite portable_step_bits.
  apply byte_step_uint, lxor_uint; auto using byte_uint32; lia.
Qed.

Lemma portable_fold_uint data l :
  uint 32 l -> uint 32 (fold_left portable_step data l).
Proof.
  revert l. induction data; simpl; auto using portable_step_uint.
Qed.

Lemma portable_fold_inj data l l' :
  uint 32 l -> uint 32 l' ->
  fold_left portable_step data l = fold_left portable_step data l' -> l = l'.
Proof.
  revert l l'. induction data as [|b data IH]; intros l l' Hl Hl'; simpl; [done|].
  intros E. apply IH in E; auto using portable_step_uint.
  rewrite !portable_step_bits in E.
  apply byte_step_inj, lxor_cancel_r in E; auto;
    apply lxor_uint; auto using byte_uint32; lia.
Qed.

Lemma ExtendPortable_uint crc data :
  uint 32 crc -> uint 32 (ExtendPortable crc data).
Proof.
  assert (uint 32 kCRC32Xor) by (unfold uint, kCRC32Xor; lia).
  intros. apply lxor_uint; [lia| |done].
  apply portable_fold_uint. apply lxor_uint; auto; lia.
Qed.

Lemma crc32c_uint data : uint 32 (crc32c data).
Proof.
  unfold crc32c, Extend. destruct data; [unfold uint; lia|].
  apply ExtendPortable_uint. unfold uint. lia.
Qed.

Lemma Extend_portable crc data : Extend crc data = ExtendPortable crc data.
Proof.
  destruct data; [|done]. unfold Extend, ExtendPortable. simpl.
  by rewrite Z.lxor_assoc, Z.lxor_nilpotent, Z.lxor_0_r.
Qed.

Lemma crc32c_one_byte p b b' s :
  b <> b' -> crc32c (p ++ b :: s) <> crc32c (p ++ b' :: s).
Proof.
  intros Hb E. apply Hb. unfold crc32c in E. rewrite !Extend_portable in E.
  unfold ExtendPortable in E. apply lxor_cancel_r in E.
  rewrite !fold_left_app in E. cbn [fold_left] in E.
  assert (uint 32 (fold_left portable_step p (Z.lxor 0 kCRC32Xor))) as Hu.
  { apply portable_fold_uint. unfold uint. vm_compute. intuition congruence. }
  apply portable_fold_inj in E; auto using portable_step_uint.
  rewrite !portable_step_bits in E.
  apply byte_step_inj, lxor_cancel_l, b2z_inj in E; auto;
    apply lxor_uint; auto using byte_uint32; lia.
Qed.

Lemma ExtendPortable_app crc a b :
  ExtendPortable (ExtendPortable crc a) b = ExtendPortable crc (a ++ b).
Proof.
  unfold ExtendPortable.
  by rewrite fold_left_app, Z.lxor_assoc, Z.lxor_nilpotent, Z.lxor_0_r.
Qed.

(** ** Checksummed records *)

Lemma checksummed_app body :
  checksummed (body ++ be_bytes 4 (crc32c body)).
Proof.
  unfold checksummed. rewrite length_app, length_be_bytes.
  replace (length body + 4 - 4)%nat with (length body) by lia.
  rewrite drop_app_length, take_app_length. split; [lia|done].
Qed.

Lemma be_bytes_inj n v w :
  uint (8 * Z.of_nat n) v -> uint (8 * Z.of_nat n) w ->
  be_bytes n v = be_bytes n w -> v = w.
Proof.
  intros Hv Hw E. apply (f_equal be_num) in E.
  rewrite !be_num_bytes in E. by rewrite !Z.mod_small in E.
Qed.

(** A checksummed record does not stay one when one of its bytes changes. *)
Lemma checksummed_one_byte p b b' s :
  b <> b' -> checksummed (p ++ b :: s) -> ~ checksummed (p ++ b' :: s).
Proof.
  intros Hb [Hl H] [_ H']. rewrite !length_app, !length_cons in *.
  set (n := (length p + S (length s) - 4)%nat) in *.
  destruct (Nat.lt_ge_cases (length p) n).
  - assert (forall c, take n (p ++ c :: s)
                      = p ++ c :: take (n - S (length p)) s) as Ht.
    { intros c. rewrite take_app_ge by lia. f_equal.
      replace (n - length p)%nat with (S (n - S (length p))) by lia. done. }
    assert (forall c, drop n (p ++ c :: s) = drop (n - S (length p)) s) as Hd.
    { intros c. rewrite drop_app_ge by lia.
      replace (n - length p)%nat with (S (n - S (length p))) by lia. done. }
    rewrite Ht, Hd in H. rewrite Ht, Hd, H in H'.
    apply be_bytes_inj in H'; try apply crc32c_uint.
    by apply crc32c_one_byte in H'.
  - rewrite take_app_le in H, H' by lia. rewrite <- H in H'.
    apply (f_equal (app (take n p))) in H'.
    rewrite !drop_app_le, !app_assoc, !take_drop in H' by lia.
    apply app_inv_head in H'. congruence.
Qed.

(** ** The SSE4.2 extension *)

Section hardware_agrees.

Context (mm_crc32_u8 : Z -> Z -> Z) (mm_crc32_u64 : Z -> Z -> Z).

Hypothesis mm_crc32_u8_spec : forall c b,
  uint 32 c -> mm_crc32_u8 c (b2z b) = byte_step (Z.lxor c (b2z b)).

Hypothesis mm_crc32_u64_spec : forall c bytes,
  uint 32 c -> length bytes = 8%nat ->
  mm_crc32_u64 c (le_num bytes)
  = fold_left (fun v b => byte_step (Z.lxor v (b2z b))) bytes c.

Lemma bit_serial_fold data l :
  fold_left (fun v b => byte_step (Z.lxor v (b2z b))) data l
  = fold_left portable_step data l.
Proof. apply fold_left_ext. intros. symmetry. apply portable_step_bits. Qed.

Lemma u8_fold data l :
  uint 32 l ->
  fold_left (fun v b => mm_crc32_u8 v (b2z b)) data l
  = fold_left portable_step data l.
Proof.
  revert l. induction data; intros l Hl; simpl; [done|].
  rewrite mm_crc32_u8_spec, <- portable_step_bits by done.
  auto using portable_step_uint.
Qed.

Lemma hardware_words_spec fuel wide data :
  uint 32 wide ->
  let '(wide', rest) := hardware_words mm_crc32_u64 fuel wide data in
  uint 32 wide' /\
  fold_left portable_step rest wide' = fold_left portable_step data wide.
Proof.
  revert wide data. induction fuel as [|fuel IH]; intros wide data Hw; [done|].
  cbn [hardware_words]. destruct (Nat.leb_spec 8 (length data)); [|done].
  assert (length (take 8 data) = 8%nat) as H8 by (rewrite length_take; lia).
  rewrite mm_crc32_u64_spec, bit_serial_fold by done.
  specialize (IH (fold_left portable_step (take 8 data) wide) (drop 8 data)
                (portable_fold_uint _ _ Hw)).
  destruct (hardware_words _ _ _ _) as [wide' rest].
  destruct IH as [? ->]. split; [done|].
  by rewrite <- fold_left_app, take_drop.
Qed.

Lemma hardware_portable crc data :
  uint 32 crc ->
  ExtendHardware mm_crc32_u8 mm_crc32_u64 crc data = ExtendPortable crc data.
Proof.
  intros Hcrc. unfold ExtendHardware, ExtendPortable.
  assert (uint 32 (Z.lxor crc kCRC32Xor)) as Hl.
  { apply lxor_uint; [lia|done|]. unfold uint, kCRC32Xor. lia. }
  pose proof (hardware_words_spec (length data) _ data Hl) as H.
  destruct (hardware_words _ _ _ _) as [wide rest]. destruct H as [Hu <-].
  by rewrite (uint_wrap 32 wide), u8_fold by done.
Qed.

End hardware_agrees.

(** ** Properties *)

(** The checksum of a string distinguishes it from every string that
    differs from it in exactly one byte, whatever surrounds that byte. *)
Theorem crc32c_detects_one_byte p b b' s :
  b <> b' -> crc32c (p ++ b :: s) <> crc32c (p ++ b' :: s).
Proof. apply crc32c_one_byte. Qed.

Lemma crc32c_detects_one_byte_witness :
  "001"%byte <> "002"%byte /\
  crc32c (["007"%byte] ++ "001"%byte :: []) <>
  crc32c (["007"%byte] ++ "002"%byte :: []).
Proof.
  split; [discriminate|].
  apply (crc32c_detects_one_byte ["007"%byte] "001"%byte "002"%byte []).
  discriminate.
Defined.

(** C38: the extension that runs on the SSE4.2 instructions, eight bytes at a
    time with a byte-wise tail, computes the checksum of the portable table
    loop, given the documented behaviour of the two instructions. *)
Theorem ExtendHardware_portable mm_crc32_u8 mm_crc32_u64 crc data
  (mm_crc32_u8_spec : forall c b, uint 32 c ->
     mm_crc32_u8 c (b2z b) = byte_step (Z.lxor c (b2z b)))
  (mm_crc32_u64_spec : forall c bytes, uint 32 c -> length bytes = 8%nat ->
     mm_crc32_u64 c (le_num bytes)
     = fold_left (fun v b => byte_step (Z.lxor v (b2z b))) bytes c)
  (Hcrc : uint 32 crc) :
  ExtendHardware mm_crc32_u8 mm_crc32_u64 crc data = Extend crc data.
Proof. rewrite Extend_portable. by apply hardware_portable. Qed.

Lemma ExtendHardware_portable_witness :
  ExtendHardware (fun c b => byte_step (Z.lxor c b))
    (fun c w => fold_left (fun v b => byte_step (Z.lxor v (b2z b)))
                  (rev (be_bytes 8 w)) c)
    0 (replicate 11 "097"%byte)
  = Extend 0 (replicate 11 "097"%byte).
Proof.
  apply ExtendHardware_portable.
  - intros. reflexivity.
  - intros c bytes _ Hlen. unfold le_num.
    rewrite be_bytes_num by (rewrite length_rev; exact Hlen).
    rewrite rev_involutive. reflexivity.
  - unfold uint. lia.
Defined.

(** Extending the checksum of a prefix over the rest of the data gives the
    checksum of the whole, as the header of [Extend] documents. *)
Theorem Extend_app crc a b :
  Extend (Extend crc a) b = Extend crc (a ++ b).
Proof. rewrite !Extend_portable. apply ExtendPortable_app. Qed.
