(* ===== verification/Wire.v ===== *)
(** * Wire: the contract between readers and writers

    Every binary format of the code is read by functions that take the input
    and an offset and return a value with the offset behind it, and written by
    functions that append bytes.  [Wire rd wr wf] states that the reader [rd]
    and the writer [wr] agree on the values satisfying [wf], in both
    directions.  The integer readers are instances; the record codecs prove
    instances for their own fields and are reasoned about through the two laws
    only. *)

From S2P Require Import Prelude Status.

Class Wire {A} (rd : list byte -> nat -> option (A * nat))
    (wr : A -> list byte) (wf : A -> Prop) := {
  wire_read input offset a rest :
    wf a -> suffix_at input offset (wr a ++ rest) ->
    rd input offset = Some (a, (offset + length (wr a))%nat);
  wire_write input offset a offset' :
    (offset <= length input)%nat -> rd input offset = Some (a, offset') ->
    wf a /\ offset' = (offset + length (wr a))%nat /\
    (offset' <= length input)%nat /\
    drop offset input = wr a ++ drop offset' input
}.

(** [input[i]] as an unsigned number, used where the code has checked the
    size. *)
Definition byte_at (input : list byte) (i : nat) : Z :=
  b2z (nth i input (z2b 0)).

#[global] Opaque be_bytes.

#[export] Instance Wire_be n :
  Wire (read_be n) (be_bytes n) (uint (8 * Z.of_nat n)).
Proof.
  split.
  - intros input offset v rest Hv Hs. rewrite length_be_bytes.
    apply (read_be_at n input offset v rest Hv Hs).
  - intros input offset v offset' Hle Hr. rewrite length_be_bytes.
    destruct (read_be_Some _ _ _ _ _ Hle Hr) as (? & ? & ? & ?). done.
Qed.

Lemma suffix_at_nil_r input offset rest :
  suffix_at input offset rest -> suffix_at input offset (rest ++ []).
Proof. by rewrite app_nil_r. Qed.

Lemma byte_at_suffix input offset b rest :
  suffix_at input offset (b :: rest) -> byte_at input offset = b2z b.
Proof.
  intros H. apply suffix_at_lookup in H. unfold byte_at. f_equal.
  by apply nth_lookup_Some.
Qed.

Lemma drop_byte_at input offset :
  (offset < length input)%nat ->
  drop offset input = z2b (byte_at input offset) :: drop (S offset) input.
Proof.
  intros H. apply lookup_lt_is_Some in H as [b Hb].
  rewrite (drop_S _ _ _ Hb). f_equal. unfold byte_at.
  rewrite (nth_lookup_Some _ _ _ _ Hb). by rewrite z2b_b2z.
Qed.

Lemma byte_at_uint input offset : uint 8 (byte_at input offset).
Proof. unfold byte_at, uint. pose proof (b2z_range (nth offset input (z2b 0))). lia. Qed.

Lemma b2z_z2b_uint z : uint 8 z -> b2z (z2b z) = z.
Proof. intros. rewrite b2z_z2b. by apply Z.mod_small. Qed.

#[export] Hint Resolve byte_at_uint : cedar.

(** Runs the reader [rd i o] of the goal on the chunk that lies at [o]. *)
Ltac wire_read_at rd i o r Hs :=
  let W := constr:(ltac:(typeclasses eauto) : Wire rd _ _) in
  let E := fresh "E" in
  unshelve epose proof (@wire_read _ rd _ _ W i o _ r _ Hs) as E;
  [solve [eauto with cedar]|];
  rewrite E; clear E;
  apply suffix_at_skip in Hs;
  cbn beta iota delta [mbind option_bind StatusOr_bind from_option].

(** Runs one reader of the goal against what is known to lie at its offset. *)
Ltac wire_step :=
  match goal with
  | Hs : suffix_at ?i ?o ((?b :: ?c) ++ ?r) |- _ =>
      change ((b :: c) ++ r) with (b :: (c ++ r)) in Hs
  | Hs : suffix_at ?i ?o ((?a ++ ?b) ++ ?r) |- _ =>
      rewrite <- (app_assoc a b r) in Hs
  | Hs : suffix_at ?i ?o (?w ++ ?r) |- context [?rd ?i ?o] =>
      wire_read_at rd i o r Hs
  | Hs : suffix_at ?i ?o (?b :: ?r) |- context [byte_at ?i ?o] =>
      rewrite (byte_at_suffix i o b r Hs);
      apply suffix_at_next in Hs
  | Hs : suffix_at ?i ?o (?f ?w) |- context [?rd ?i ?o] =>
      apply suffix_at_nil_r in Hs; wire_read_at rd i o (@nil byte) Hs
  end.

(** Splits one successful reader of a hypothesis. *)
Ltac wire_inv :=
  match goal with
  | H : _ ≫= _ = Some _ |- _ => apply bind_Some in H as ([? ?] & ? & H)
  | H : ?rd ?i ?o = Some (?a, ?o') |- _ =>
      let Hw := fresh "Hwf" in
      let Ho := fresh "Hoff" in
      let Hl := fresh "Hle" in
      let Hd := fresh "Hdrop" in
      let W := constr:(ltac:(typeclasses eauto) : Wire rd _ _) in
      apply (@wire_write _ rd _ _ W) in H as (Hw & Ho & Hl & Hd);
        [autorewrite with cedar_len in Ho|lia]
  end.

(** Rewrites what lies at an offset with what the readers found there. *)
Ltac wire_subst :=
  repeat match goal with
  | H : drop ?o ?i = _ |- context [drop ?o ?i] => rewrite H; clear H
  end; rewrite <- ?app_assoc.
