(* ===== verification/Value.v ===== *)
(** * Value: schema-bound values

    Models [include/cedar/types/value.h] and [src/types/value.cc]: the eight
    physical types, the little-endian self-describing encoding and the equality
    of values.  A [float] or [double] is its IEEE-754 bit pattern, so equality
    of values is the IEEE comparison (NaN differs from itself, the two zeros
    are equal), as [std::variant]'s [==] is in the code. *)

From S2P Require Import Prelude.

(** [PhysicalType].  A cast from a byte can give a value outside the named
    enumerators, which the code rejects where it matters. *)
Inductive PhysicalType :=
| kBool
| kInt32
| kInt64
| kFloat32
| kFloat64
| kTimestamp64
| kString
| kBinary
| kUnknownPhysicalType (raw : Z).

#[export] Instance PhysicalType_eq_dec : EqDecision PhysicalType.
Proof. solve_decision. Defined.

Definition PhysicalType_to_u8 (t : PhysicalType) : Z :=
  match t with
  | kBool => 1
  | kInt32 => 2
  | kInt64 => 3
  | kFloat32 => 4
  | kFloat64 => 5
  | kTimestamp64 => 6
  | kString => 7
  | kBinary => 8
  | kUnknownPhysicalType raw => raw
  end.

Definition PhysicalType_of_u8 (z : Z) : PhysicalType :=
  match z with
  | 1 => kBool
  | 2 => kInt32
  | 3 => kInt64
  | 4 => kFloat32
  | 5 => kFloat64
  | 6 => kTimestamp64
  | 7 => kString
  | 8 => kBinary
  | _ => kUnknownPhysicalType z
  end.

(** [Value]: the type tag with the alternative of the variant it selects. *)
Inductive Value :=
| VBool (b : bool)
| VInt32 (z : Z)
| VInt64 (z : Z)
| VFloat32 (bits : Z)
| VFloat64 (bits : Z)
| VTimestamp (z : Z)
| VString (s : list byte)
| VBinary (s : list byte).

#[export] Instance Value_eq_dec : EqDecision Value.
Proof. solve_decision. Defined.

Definition value_type (v : Value) : PhysicalType :=
  match v with
  | VBool _ => kBool
  | VInt32 _ => kInt32
  | VInt64 _ => kInt64
  | VFloat32 _ => kFloat32
  | VFloat64 _ => kFloat64
  | VTimestamp _ => kTimestamp64
  | VString _ => kString
  | VBinary _ => kBinary
  end.

(** The range of the C++ type of each alternative. *)
Definition value_wf (v : Value) : Prop :=
  match v with
  | VBool _ => True
  | VInt32 z => sint 32 z
  | VInt64 z => sint 64 z
  | VFloat32 bits => uint 32 bits
  | VFloat64 bits => uint 64 bits
  | VTimestamp z => uint 64 z
  | VString _ | VBinary _ => True
  end.

(** [PutLittleEndian] and [GetLittleEndian] for an [n]-byte type. *)
Definition le_bytes (n : nat) (v : Z) : list byte := rev (be_bytes n v).

(** The loop [bits |= byte[i] << (i * 8)], from index [i]. *)
Fixpoint le_or (i : Z) (bytes : list byte) (bits : Z) : Z :=
  match bytes with
  | [] => bits
  | b :: rest => le_or (i + 1) rest (Z.lor bits (Z.shiftl (b2z b) (i * 8)))
  end.

Definition GetLittleEndian (n : nat) (input : list byte) (offset : nat)
  : option (Z * nat) :=
  if (length input - offset <? n)%nat then None
  else Some (le_or 0 (take n (drop offset input)) 0, (offset + n)%nat).

Definition Encode (v : Value) : list byte :=
  z2b (PhysicalType_to_u8 (value_type v)) ::
  match v with
  | VBool b => [if b then z2b 1 else z2b 0]
  | VInt32 z => le_bytes 4 (to_unsigned 32 z)
  | VInt64 z => le_bytes 8 (to_unsigned 64 z)
  | VFloat32 bits => le_bytes 4 bits
  | VFloat64 bits => le_bytes 8 bits
  | VTimestamp z => le_bytes 8 z
  | VString s | VBinary s =>
      le_bytes 4 (wrap 32 (Z.of_nat (length s))) ++ s
  end.

(** [GetLittleEndian(...) && offset == encoded.size()]. *)
Definition get_exact (n : nat) (encoded : list byte) : option Z :=
  match GetLittleEndian n encoded 1 with
  | Some (v, offset) => if (offset =? length encoded)%nat then Some v else None
  | None => None
  end.

(** The branch of [Value::Decode] for the type that the first byte names. *)
Definition decode_as (type : PhysicalType) (encoded : list byte)
  : option Value :=
  match type with
  | kBool =>
      match encoded with
      | [_; b] => if b2z b =? 0 then Some (VBool false)
                  else if b2z b =? 1 then Some (VBool true) else None
      | _ => None
      end
  | kInt32 => v ← get_exact 4 encoded; Some (VInt32 (to_signed 32 v))
  | kInt64 => v ← get_exact 8 encoded; Some (VInt64 (to_signed 64 v))
  | kFloat32 => v ← get_exact 4 encoded; Some (VFloat32 v)
  | kFloat64 => v ← get_exact 8 encoded; Some (VFloat64 v)
  | kTimestamp64 => v ← get_exact 8 encoded; Some (VTimestamp v)
  | kString | kBinary =>
      '(len, offset) ← GetLittleEndian 4 encoded 1;
      if len =? Z.of_nat (length encoded - offset) then
        let bytes := drop offset encoded in
        Some (if bool_decide (type = kString) then VString bytes
              else VBinary bytes)
      else None
  | kUnknownPhysicalType _ => None
  end.

Definition Decode (encoded : list byte) : option Value :=
  match encoded with
  | [] => None
  | tag :: _ => decode_as (PhysicalType_of_u8 (b2z tag)) encoded
  end.

(** IEEE-754 equality of two bit patterns with [exponent] as the pattern of
    infinity and [magnitude] as the mask that drops the sign. *)
Definition float_eqb (magnitude infinity a b : Z) : bool :=
  negb (infinity <? Z.land a magnitude) && negb (infinity <? Z.land b magnitude)
  && ((a =? b) || ((Z.land a magnitude =? 0) && (Z.land b magnitude =? 0))).

Definition float32_eqb : Z -> Z -> bool := float_eqb 0x7fffffff 0x7f800000.

Definition float64_eqb : Z -> Z -> bool :=
  float_eqb 0x7fffffffffffffff 0x7ff0000000000000.

(** [Value::operator==]. *)
Definition Value_eqb (a b : Value) : bool :=
  match a, b with
  | VBool x, VBool y => Bool.eqb x y
  | VInt32 x, VInt32 y | VInt64 x, VInt64 y
  | VTimestamp x, VTimestamp y => x =? y
  | VFloat32 x, VFloat32 y => float32_eqb x y
  | VFloat64 x, VFloat64 y => float64_eqb x y
  | VString x, VString y | VBinary x, VBinary y => bool_decide (x = y)
  | _, _ => false
  end.

(** [==] of [std::optional<Value>]. *)
Definition option_Value_eqb (a b : option Value) : bool :=
  match a, b with
  | Some x, Some y => Value_eqb x y
  | None, None => true
  | _, _ => false
  end.

(** ** Lemmas on enumerators *)

Lemma PhysicalType_of_to_value v :
  PhysicalType_of_u8 (PhysicalType_to_u8 (value_type v)) = value_type v.
Proof. by destruct v. Qed.

Lemma PhysicalType_to_of z : PhysicalType_to_u8 (PhysicalType_of_u8 z) = z.
Proof.
  unfold PhysicalType_of_u8.
  repeat (case_match; simpl; try done).
Qed.

Lemma value_type_u8 v : 1 <= PhysicalType_to_u8 (value_type v) <= 8.
Proof. destruct v; simpl; lia. Qed.

(** ** Lemmas on little-endian integers *)

Lemma length_le_bytes n v : length (le_bytes n v) = n.
Proof. unfold le_bytes. by rewrite length_rev, length_be_bytes. Qed.

#[export] Hint Rewrite length_le_bytes : cedar_len.

Lemma lor_disjoint_add k v b :
  0 <= k -> uint k v -> Z.lor v (Z.shiftl b k) = v + b * 2 ^ k.
Proof.
  intros Hk Hv. rewrite <- Z.shiftl_mul_pow2 by lia.
  assert (Z.land v (Z.shiftl b k) = 0) as Hland.
  { apply Z.bits_inj'. intros n Hn. rewrite Z.land_spec, Z.bits_0.
    destruct (Z.lt_ge_cases n k).
    - rewrite Z.shiftl_spec_low by lia. apply andb_false_r.
    - rewrite <- (Z.mod_small v (2 ^ k)) by apply Hv.
      by rewrite Z.mod_pow2_bits_high by lia. }
  by rewrite <- Z.lxor_lor, <- Z.add_nocarry_lxor.
Qed.

Lemma be_num_app a b :
  be_num (a ++ b) = be_num a * 2 ^ (8 * Z.of_nat (length b)) + be_num b.
Proof. unfold be_num at 1. rewrite fold_left_app. apply be_num_acc. Qed.

Lemma le_or_num i bytes bits :
  0 <= i -> uint (i * 8) bits ->
  le_or i bytes bits = bits + be_num (rev bytes) * 2 ^ (i * 8).
Proof.
  revert i bits. induction bytes as [|b rest IH]; intros i bits Hi Hbits.
  - change (be_num (rev [])) with 0. simpl. lia.
  - cbn [le_or]. rewrite lor_disjoint_add by (done || lia).
    pose proof (b2z_range b).
    assert (2 ^ ((i + 1) * 8) = 2 ^ (i * 8) * 256) as E.
    { replace ((i + 1) * 8) with (i * 8 + 8) by lia.
      by rewrite Z.pow_add_r by lia. }
    rewrite IH; [|lia|unfold uint in *; rewrite E; nia].
    cbn [rev]. rewrite be_num_app, E. change (be_num [b]) with (256 * 0 + b2z b).
    change (length [b]) with 1%nat. change (2 ^ (8 * Z.of_nat 1)) with 256. lia.
Qed.

Lemma le_or_0 bytes : le_or 0 bytes 0 = be_num (rev bytes).
Proof. rewrite le_or_num by (unfold uint; simpl; lia). lia. Qed.

Lemma GetLittleEndian_at n input offset v rest :
  uint (8 * Z.of_nat n) v ->
  suffix_at input offset (le_bytes n v ++ rest) ->
  GetLittleEndian n input offset = Some (v, (offset + n)%nat)
  /\ suffix_at input (offset + n) rest.
Proof.
  intros Hv H. pose proof (suffix_at_length _ _ _ H) as Hl.
  rewrite length_app, length_le_bytes in Hl.
  unfold GetLittleEndian.
  destruct (Nat.ltb_spec (length input - offset) n); [lia|]. split.
  - pose proof (suffix_at_take _ _ _ _ H) as Ht.
    rewrite length_le_bytes in Ht. rewrite Ht, le_or_0.
    unfold le_bytes. rewrite rev_involutive, be_num_bytes.
    by rewrite Z.mod_small.
  - apply suffix_at_skip in H. by rewrite length_le_bytes in H.
Qed.

Lemma GetLittleEndian_Some n input offset v offset' :
  (offset <= length input)%nat ->
  GetLittleEndian n input offset = Some (v, offset') ->
  offset' = (offset + n)%nat /\ (offset' <= length input)%nat /\
  uint (8 * Z.of_nat n) v /\
  drop offset input = le_bytes n v ++ drop offset' input.
Proof.
  unfold GetLittleEndian. intros Hoff H.
  destruct (Nat.ltb_spec (length input - offset) n); [done|].
  injection H as <- <-. rewrite le_or_0.
  assert (length (rev (take n (drop offset input))) = n) as Hlen.
  { rewrite length_rev, length_take, length_drop. lia. }
  split; [done|]. split; [lia|]. split.
  - rewrite <- Hlen at 1. apply be_num_range.
  - unfold le_bytes. rewrite be_bytes_num by done.
    rewrite rev_involutive, <- drop_drop. by rewrite take_drop.
Qed.

Lemma get_exact_at n tag v :
  uint (8 * Z.of_nat n) v -> get_exact n (tag :: le_bytes n v) = Some v.
Proof.
  intros Hv. unfold get_exact.
  assert (suffix_at (tag :: le_bytes n v) 1 (le_bytes n v ++ [])) as H.
  { rewrite app_nil_r. split; [simpl; lia|done]. }
  destruct (GetLittleEndian_at _ _ _ _ _ Hv H) as [-> _].
  rewrite length_cons, length_le_bytes.
  by rewrite (proj2 (Nat.eqb_eq _ _)).
Qed.

Lemma get_exact_Some n tag rest v :
  get_exact n (tag :: rest) = Some v ->
  uint (8 * Z.of_nat n) v /\ rest = le_bytes n v.
Proof.
  unfold get_exact. destruct (GetLittleEndian _ _ _) as [[w o]|] eqn:E; [|done].
  intros H. case_match; [|done]. injection H as <-. bool_to_prop.
  apply GetLittleEndian_Some in E as (-> & ? & ? & E); [|simpl; lia].
  split; [done|]. simpl in E. rewrite drop_0 in E. rewrite E.
  rewrite drop_ge; [by rewrite app_nil_r|]. simpl in *. lia.
Qed.

(** ** Equality of values *)

Lemma float_eqb_sym m i a b : float_eqb m i a b = float_eqb m i b a.
Proof.
  unfold float_eqb. rewrite (Z.eqb_sym a b).
  rewrite (andb_comm (negb (i <? Z.land a m))). f_equal. f_equal.
  apply andb_comm.
Qed.

Lemma float_eqb_trans m i a b c :
  float_eqb m i a b = true -> float_eqb m i b c = true ->
  float_eqb m i a c = true.
Proof.
  unfold float_eqb. 
  rewrite !andb_true_iff, !orb_true_iff, !andb_true_iff, !Z.eqb_eq.
  intros [[? ?] ?] [[? ?] ?]. naive_solver.
Qed.

Lemma Value_eqb_sym a b : Value_eqb a b = Value_eqb b a.
Proof.
  destruct a, b; simpl; try done; try apply Z.eqb_sym;
    try apply float_eqb_sym.
  - by destruct b, b0.
  - apply bool_decide_ext. by split.
  - apply bool_decide_ext. by split.
Qed.

Lemma Value_eqb_trans a b c :
  Value_eqb a b = true -> Value_eqb b c = true -> Value_eqb a c = true.
Proof.
  destruct a, b, c; simpl; try done; try apply float_eqb_trans;
    rewrite ?Z.eqb_eq, ?bool_decide_eq_true, ?Bool.eqb_true_iff;
    congruence.
Qed.

Lemma option_Value_eqb_sym a b : option_Value_eqb a b = option_Value_eqb b a.
Proof. destruct a, b; simpl; auto using Value_eqb_sym. Qed.

Lemma option_Value_eqb_trans a b c :
  option_Value_eqb a b = true -> option_Value_eqb b c = true ->
  option_Value_eqb a c = true.
Proof. destruct a, b, c; simpl; try done. apply Value_eqb_trans. Qed.

(** ** Round trips of the encoding *)

Lemma tag_of_value v :
  PhysicalType_of_u8 (b2z (z2b (PhysicalType_to_u8 (value_type v))))
  = value_type v.
Proof. by destruct v. Qed.

Lemma Decode_string_at (tag : byte) s :
  Z.of_nat (length s) < 2 ^ 32 ->
  let encoded := tag :: le_bytes 4 (wrap 32 (Z.of_nat (length s))) ++ s in
  GetLittleEndian 4 encoded 1 = Some (Z.of_nat (length s), 5%nat)
  /\ Z.of_nat (length encoded - 5) = Z.of_nat (length s)
  /\ drop 5 encoded = s.
Proof.
  intros Hs encoded.
  assert (uint 32 (Z.of_nat (length s))) as Hu by (unfold uint; lia).
  assert (suffix_at encoded 1 (le_bytes 4 (Z.of_nat (length s)) ++ s)) as H.
  { unfold encoded. rewrite uint_wrap by done. split; [simpl; lia|done]. }
  destruct (GetLittleEndian_at 4 _ _ _ _ Hu H) as [-> [_ Hd]].
  split; [done|]. split; [|done].
  rewrite (suffix_at_length _ _ _ H), length_app, length_le_bytes. lia.
Qed.

Lemma tag_byte tag t :
  PhysicalType_of_u8 (b2z tag) = t -> tag = z2b (PhysicalType_to_u8 t).
Proof. intros <-. by rewrite PhysicalType_to_of, z2b_b2z. Qed.

Lemma decode_as_string tag rest len offset :
  GetLittleEndian 4 (tag :: rest) 1 = Some (len, offset) ->
  len = Z.of_nat (length (tag :: rest) - offset) ->
  rest = le_bytes 4 (wrap 32 (Z.of_nat (length (drop offset (tag :: rest)))))
         ++ drop offset (tag :: rest).
Proof.
  intros E Hlen.
  apply GetLittleEndian_Some in E as (-> & ? & ? & E); [|simpl; lia].
  rewrite length_drop, <- Hlen, uint_wrap by done.
  rewrite <- E. done.
Qed.

Lemma Decode_Some_Encode encoded v :
  Decode encoded = Some v -> Encode v = encoded /\ value_wf v.
Proof.
  destruct encoded as [|tag rest]; [done|]. cbn [Decode].
  destruct (PhysicalType_of_u8 (b2z tag)) eqn:Et; cbn [decode_as];
    try apply tag_byte in Et; subst; intros H; try done.
  1: destruct rest as [|b [|]]; try done;
       repeat (case_match; try done); injection H as <-; bool_to_prop;
       (split; [|done]); unfold Encode; repeat f_equal; apply b2z_inj;
       by match goal with H : b2z _ = _ |- _ => rewrite H end.
  1-5: apply bind_Some in H as (w & E & [= <-]);
       apply get_exact_Some in E as [Hw ->]; split; unfold Encode, value_wf;
       rewrite ?to_unsigned_signed by (exact Hw || lia); try done;
       (apply to_signed_sint; [lia|exact Hw]).
  1-2: apply bind_Some in H as ([len offset] & E & H);
       case_match; [|done]; injection H as <-; bool_to_prop;
       (split; [|done]); unfold Encode; simpl value_type; f_equal;
       symmetry; by apply (decode_as_string _ _ _ _ E).
Qed.

(** A byte string that decodes to a value is the one encoding of that
    value, and the value is within the range of its type: no two byte strings
    decode to the same value, and no length or tag is ignored. *)
Theorem Value_Encode_Decode encoded v :
  Decode encoded = Some v -> Encode v = encoded /\ value_wf v.
Proof. apply Decode_Some_Encode. Qed.

Lemma Value_Encode_Decode_witness :
  Encode (VInt32 (-2)) = [z2b 2; z2b 254; z2b 255; z2b 255; z2b 255]
  /\ value_wf (VInt32 (-2)).
Proof. apply Value_Encode_Decode. reflexivity. Defined.

(** Decoding the encoding of a value gives the value back, bit patterns of
    floats (NaNs and signed zeros included) and empty strings included, for
    every value of its C++ type whose string has fewer than 2^32 bytes. *)
Theorem Value_Decode_Encode v :
  value_wf v ->
  match v with
  | VString s | VBinary s => Z.of_nat (length s) < 2 ^ 32
  | _ => True
  end ->
  Decode (Encode v) = Some v.
Proof.
  intros Hwf Hlen.
  transitivity (decode_as (value_type v) (Encode v)).
  { unfold Decode. destruct (Encode v) eqn:E; [done|].
    injection E as <- _. by rewrite tag_of_value. }
  destruct v as [[]|z|z|z|z|z|s|s]; cbn [value_type decode_as];
    unfold Encode; try done.
  - rewrite get_exact_at by by apply to_unsigned_uint. simpl.
    by rewrite to_signed_unsigned.
  - rewrite get_exact_at by by apply to_unsigned_uint. simpl.
    by rewrite to_signed_unsigned.
  - by rewrite get_exact_at.
  - by rewrite get_exact_at.
  - by rewrite get_exact_at.
  - destruct (Decode_string_at (z2b 7) s Hlen) as (E1 & E2 & E3).
    cbn [value_type PhysicalType_to_u8]. rewrite E1.
    cbv beta iota delta [mbind option_bind]. by rewrite E2, Z.eqb_refl, E3.
  - destruct (Decode_string_at (z2b 8) s Hlen) as (E1 & E2 & E3).
    cbn [value_type PhysicalType_to_u8]. rewrite E1.
    cbv beta iota delta [mbind option_bind]. by rewrite E2, Z.eqb_refl, E3.
Qed.

Lemma Value_Decode_Encode_witness :
  Decode (Encode (VString ["104"%byte; "105"%byte]))
  = Some (VString ["104"%byte; "105"%byte]).
Proof. apply Value_Decode_Encode; [exact I|reflexivity]. Defined.
