(* ===== verification/Fact.v ===== *)
(** * Fact: bitemporal graph facts

    Models [include/cedar/fact/fact.h] and [src/storage/facts/fact.cc]: fact
    references, edge identities, committed fact events and pending mutations,
    with their validation.  The one-field wrapper structs ([PartId],
    [VertexId], [ValidTime], [CommitSeq], ...) are their [value]; the
    [..._typed] predicates state the width of each field.  The field
    [read_memory_owner] of [FactEvent] is runtime ownership, never encoded, and
    is left out. *)

From S2P Require Import Prelude Status Value.

Record VertexRef := mkVertexRef {
  vertex_part_id : Z;
  vertex_id : Z
}.

Record EdgeRef := mkEdgeRef {
  edge_home_part_id : Z;
  edge_ref_id : Z
}.

#[export] Instance EdgeRef_eq_dec : EqDecision EdgeRef.
Proof. solve_decision. Defined.

(** [FactFamily]; a cast from a byte may give an unnamed value. *)
Inductive FactFamily :=
| kVertexState
| kVertexProperty
| kEdgeIdentity
| kEdgeState
| kEdgeProperty
| kUnknownFamily (raw : Z).

#[export] Instance FactFamily_eq_dec : EqDecision FactFamily.
Proof. solve_decision. Defined.

Definition FactFamily_to_u8 (f : FactFamily) : Z :=
  match f with
  | kVertexState => 1
  | kVertexProperty => 2
  | kEdgeIdentity => 3
  | kEdgeState => 4
  | kEdgeProperty => 5
  | kUnknownFamily raw => raw
  end.

Definition FactFamily_of_u8 (z : Z) : FactFamily :=
  match z with
  | 1 => kVertexState
  | 2 => kVertexProperty
  | 3 => kEdgeIdentity
  | 4 => kEdgeState
  | 5 => kEdgeProperty
  | _ => kUnknownFamily z
  end.

Inductive FactOperation :=
| kPut
| kDelete
| kUnknownOperation (raw : Z).

#[export] Instance FactOperation_eq_dec : EqDecision FactOperation.
Proof. solve_decision. Defined.

Definition FactOperation_to_u8 (o : FactOperation) : Z :=
  match o with
  | kPut => 1
  | kDelete => 2
  | kUnknownOperation raw => raw
  end.

Definition FactOperation_of_u8 (z : Z) : FactOperation :=
  match z with
  | 1 => kPut
  | 2 => kDelete
  | _ => kUnknownOperation z
  end.

Record FactRef := mkFactRef {
  ref_part_id : Z;
  ref_family : FactFamily;
  ref_property_id : Z;
  ref_entity_id : Z
}.

#[export] Instance FactRef_eq_dec : EqDecision FactRef.
Proof. solve_decision. Defined.

Record EdgeIdentity := mkEdgeIdentity {
  edge_id : Z;
  source_vertex_id : Z;
  target_vertex_id : Z;
  edge_type : Z;
  home_part_id : Z;
  source_part_id : Z;
  target_part_id : Z
}.

#[export] Instance EdgeIdentity_eq_dec : EqDecision EdgeIdentity.
Proof. solve_decision. Defined.

(** The constructor [EdgeIdentity(EdgeRef, VertexRef, VertexRef, type)] and the
    accessors. *)
Definition EdgeIdentity_of_refs (edge : EdgeRef) (source target : VertexRef)
    (type : Z) : EdgeIdentity :=
  mkEdgeIdentity (edge_ref_id edge) (vertex_id source) (vertex_id target) type
    (edge_home_part_id edge) (vertex_part_id source) (vertex_part_id target).

Definition edge_ref (i : EdgeIdentity) : EdgeRef :=
  mkEdgeRef (home_part_id i) (edge_id i).

Record FactEvent := mkFactEvent {
  event_ref : FactRef;
  event_valid_from : Z;
  event_commit_seq : Z;
  event_operation : FactOperation;
  event_schema_epoch : Z;
  event_value : option Value;
  event_edge_identity : option EdgeIdentity
}.

#[export] Instance FactEvent_eq_dec : EqDecision FactEvent.
Proof. solve_decision. Defined.

Record PendingFactMutation := mkPendingFactMutation {
  mutation_ref : FactRef;
  mutation_valid_from : Z;
  mutation_operation : FactOperation;
  mutation_schema_epoch : Z;
  mutation_value : option Value
}.

#[export] Instance PendingFactMutation_eq_dec : EqDecision PendingFactMutation.
Proof. solve_decision. Defined.

(** ** Validation *)

Definition IsStateFamily (f : FactFamily) : bool :=
  match f with kVertexState | kEdgeState | kEdgeIdentity => true | _ => false end.

Definition IsKnownFamily (f : FactFamily) : bool :=
  IsStateFamily f
  || match f with kVertexProperty | kEdgeProperty => true | _ => false end.

Definition IsKnownOperation (o : FactOperation) : bool :=
  match o with kPut | kDelete => true | kUnknownOperation _ => false end.

Definition IsProperty (r : FactRef) : bool := negb (IsStateFamily (ref_family r)).

Definition FactRef_Validate (r : FactRef) : Status :=
  if negb (IsKnownFamily (ref_family r)) then
    InvalidArgument "fact reference" "unknown fact family"
  else if ref_entity_id r =? 0 then
    InvalidArgument "fact reference" "zero entity ID"
  else if IsStateFamily (ref_family r) && negb (ref_property_id r =? 0) then
    InvalidArgument "fact reference" "state fact has property ID"
  else if negb (IsStateFamily (ref_family r)) && (ref_property_id r =? 0) then
    InvalidArgument "fact reference" "property fact has zero property ID"
  else StatusOK.

Definition ValidateMutation (r : FactRef) (operation : FactOperation)
    (schema_epoch : Z) (value : option Value) : Status :=
  match FactRef_Validate r with
  | StatusOK =>
      if negb (IsKnownOperation operation) then
        InvalidArgument "fact mutation" "unknown operation"
      else if negb (IsProperty r) then
        if negb (schema_epoch =? 0) || bool_decide (is_Some value) then
          InvalidArgument "entity fact"
            "state facts cannot carry schema or value"
        else StatusOK
      else if schema_epoch =? 0 then
        InvalidArgument "property fact" "missing schema epoch"
      else if bool_decide (operation = kPut) && bool_decide (value = None) then
        InvalidArgument "property fact" "PUT requires a value"
      else if bool_decide (operation = kDelete) && bool_decide (is_Some value)
      then InvalidArgument "property fact" "DELETE cannot carry a value"
      else StatusOK
  | s => s
  end.

Definition EntityFact_Vertex (v : VertexRef) : FactRef :=
  mkFactRef (vertex_part_id v) kVertexState 0 (vertex_id v).

Definition EntityFact_Edge (e : EdgeRef) : FactRef :=
  mkFactRef (edge_home_part_id e) kEdgeState 0 (edge_ref_id e).

Definition PropertyFact_Vertex (v : VertexRef) (property : Z) : FactRef :=
  mkFactRef (vertex_part_id v) kVertexProperty property (vertex_id v).

Definition PropertyFact_Edge (e : EdgeRef) (property : Z) : FactRef :=
  mkFactRef (edge_home_part_id e) kEdgeProperty property (edge_ref_id e).

Definition EdgeIdentity_Validate (i : EdgeIdentity) : Status :=
  if (edge_id i =? 0) || (source_vertex_id i =? 0) || (target_vertex_id i =? 0)
     || (edge_type i =? 0) || negb (home_part_id i =? source_part_id i)
  then InvalidArgument "edge identity"
         "invalid edge home partition, endpoints, or type"
  else StatusOK.

Definition FactEvent_Validate (e : FactEvent) : Status :=
  if event_commit_seq e =? 0 then
    InvalidArgument "fact event" "zero commit sequence"
  else
    match ValidateMutation (event_ref e) (event_operation e)
            (event_schema_epoch e) (event_value e) with
    | StatusOK =>
        if bool_decide (ref_family (event_ref e) = kEdgeIdentity) then
          match event_edge_identity e with
          | Some identity =>
              if negb (event_valid_from e =? 0)
                 || negb (bool_decide (event_operation e = kPut))
                 || negb (event_schema_epoch e =? 0)
                 || bool_decide (is_Some (event_value e))
                 || negb (bool_decide (edge_ref identity
                            = mkEdgeRef (ref_part_id (event_ref e))
                                (ref_entity_id (event_ref e))))
              then InvalidArgument "edge identity fact"
                     "identity facts require a valid_from=0 PUT payload"
              else EdgeIdentity_Validate identity
          | None => InvalidArgument "edge identity fact"
                      "identity facts require a valid_from=0 PUT payload"
          end
        else if bool_decide (is_Some (event_edge_identity e)) then
          InvalidArgument "fact event"
            "edge identity payload on non-identity fact"
        else StatusOK
    | s => s
    end.

Definition PendingFactMutation_Validate (m : PendingFactMutation) : Status :=
  match ValidateMutation (mutation_ref m) (mutation_operation m)
          (mutation_schema_epoch m) (mutation_value m) with
  | StatusOK =>
      if bool_decide (ref_family (mutation_ref m) = kEdgeIdentity) then
        InvalidArgument "fact mutation"
          "edge identity uses StoreCommitBatch identity payload"
      else StatusOK
  | s => s
  end.

(** ** Widths of the fields *)

Definition ref_typed (r : FactRef) : Prop :=
  uint 32 (ref_part_id r) /\ uint 8 (FactFamily_to_u8 (ref_family r)) /\
  uint 16 (ref_property_id r) /\ uint 64 (ref_entity_id r).

Definition identity_typed (i : EdgeIdentity) : Prop :=
  uint 64 (edge_id i) /\ uint 64 (source_vertex_id i) /\
  uint 64 (target_vertex_id i) /\ uint 64 (edge_type i) /\
  uint 32 (home_part_id i) /\ uint 32 (source_part_id i) /\
  uint 32 (target_part_id i).

Definition value_typed (v : option Value) : Prop :=
  match v with Some v => value_wf v | None => True end.

Definition event_typed (e : FactEvent) : Prop :=
  ref_typed (event_ref e) /\ uint 64 (event_valid_from e) /\
  uint 64 (event_commit_seq e) /\ uint 32 (event_schema_epoch e) /\
  value_typed (event_value e) /\
  match event_edge_identity e with Some i => identity_typed i | None => True end.

Definition mutation_typed (m : PendingFactMutation) : Prop :=
  ref_typed (mutation_ref m) /\ uint 64 (mutation_valid_from m) /\
  uint 32 (mutation_schema_epoch m) /\ value_typed (mutation_value m).

(** What [FactEvent::Validate] asks of the identity payload. *)
Definition identity_payload_ok (e : FactEvent) : Prop :=
  match event_edge_identity e with
  | Some i => ref_family (event_ref e) = kEdgeIdentity /\
              event_valid_from e = 0 /\ event_operation e = kPut /\
              event_schema_epoch e = 0 /\ event_value e = None /\
              edge_ref i = mkEdgeRef (ref_part_id (event_ref e))
                             (ref_entity_id (event_ref e)) /\
              EdgeIdentity_Validate i = StatusOK
  | None => ref_family (event_ref e) <> kEdgeIdentity
  end.

(** ** Lemmas *)

Lemma FactFamily_to_of z : FactFamily_to_u8 (FactFamily_of_u8 z) = z.
Proof. unfold FactFamily_of_u8. repeat (case_match; simpl; try done). Qed.

Lemma FactFamily_of_to f :
  IsKnownFamily f = true -> FactFamily_of_u8 (FactFamily_to_u8 f) = f.
Proof. by destruct f. Qed.

Lemma FactOperation_to_of z : FactOperation_to_u8 (FactOperation_of_u8 z) = z.
Proof. unfold FactOperation_of_u8. repeat (case_match; simpl; try done). Qed.

Lemma FactOperation_of_to o :
  IsKnownOperation o = true -> FactOperation_of_u8 (FactOperation_to_u8 o) = o.
Proof. by destruct o. Qed.

Lemma FactRef_Validate_OK r :
  FactRef_Validate r = StatusOK <->
  IsKnownFamily (ref_family r) = true /\ ref_entity_id r <> 0 /\
  (IsProperty r = true <-> ref_property_id r <> 0).
Proof.
  unfold FactRef_Validate, IsProperty.
  destruct (IsKnownFamily (ref_family r)); [|simpl; intuition done].
  destruct (Z.eqb_spec (ref_entity_id r) 0); [simpl; intuition done|].
  destruct (IsStateFamily (ref_family r)),
    (Z.eqb_spec (ref_property_id r) 0); simpl; intuition done.
Qed.

Lemma ValidateMutation_OK r o epoch v :
  ValidateMutation r o epoch v = StatusOK <->
  FactRef_Validate r = StatusOK /\ IsKnownOperation o = true /\
  (IsProperty r = false -> epoch = 0 /\ v = None) /\
  (IsProperty r = true -> epoch <> 0 /\ (o = kPut <-> is_Some v)).
Proof.
  unfold ValidateMutation. destruct (FactRef_Validate r); [|intuition done].
  destruct o, (IsProperty r), (Z.eqb_spec epoch 0), v; simpl;
    naive_solver.
Qed.

Lemma EdgeIdentity_Validate_OK i :
  EdgeIdentity_Validate i = StatusOK <->
  edge_id i <> 0 /\ source_vertex_id i <> 0 /\ target_vertex_id i <> 0 /\
  edge_type i <> 0 /\ home_part_id i = source_part_id i.
Proof.
  unfold EdgeIdentity_Validate.
  destruct (Z.eqb_spec (edge_id i) 0), (Z.eqb_spec (source_vertex_id i) 0),
    (Z.eqb_spec (target_vertex_id i) 0), (Z.eqb_spec (edge_type i) 0),
    (Z.eqb_spec (home_part_id i) (source_part_id i)); simpl; intuition done.
Qed.

Lemma FactEvent_Validate_OK e :
  FactEvent_Validate e = StatusOK <->
  event_commit_seq e <> 0 /\
  ValidateMutation (event_ref e) (event_operation e) (event_schema_epoch e)
    (event_value e) = StatusOK /\
  identity_payload_ok e.
Proof.
  unfold FactEvent_Validate, identity_payload_ok.
  destruct (Z.eqb_spec (event_commit_seq e) 0); [intuition done|].
  destruct (ValidateMutation _ _ _ _); [|intuition done].
  case_bool_decide; destruct (event_edge_identity e) as [i|]; simpl;
    [|intuition done..].
  destruct (Z.eqb_spec (event_valid_from e) 0); [|simpl; intuition done].
  destruct (Z.eqb_spec (event_schema_epoch e) 0);
    repeat case_bool_decide; destruct (event_value e); simpl;
    try (exfalso; by eauto); intuition (congruence || by eauto).
Qed.

Lemma FactEvent_Validate_ref e :
  FactEvent_Validate e = StatusOK -> FactRef_Validate (event_ref e) = StatusOK.
Proof.
  rewrite FactEvent_Validate_OK, ValidateMutation_OK. intuition done.
Qed.

#[export] Hint Resolve FactEvent_Validate_ref : cedar.

(** A fact event passes validation exactly when its commit sequence is not
    zero, its reference is a known family with a non-zero entity and a property
    identifier if and only if the family is a property family, its operation is
    known, state facts carry neither schema nor value, property facts carry a
    schema epoch and carry a value if and only if they are a PUT, and an edge
    identity is carried by exactly the identity facts, at valid time 0, as a
    PUT, for the referenced edge, and is itself valid. *)
Theorem FactEvent_Validate_spec e :
  FactEvent_Validate e = StatusOK <->
  event_commit_seq e <> 0 /\
  IsKnownFamily (ref_family (event_ref e)) = true /\
  ref_entity_id (event_ref e) <> 0 /\
  (IsProperty (event_ref e) = true <-> ref_property_id (event_ref e) <> 0) /\
  IsKnownOperation (event_operation e) = true /\
  (IsProperty (event_ref e) = false ->
     event_schema_epoch e = 0 /\ event_value e = None) /\
  (IsProperty (event_ref e) = true ->
     event_schema_epoch e <> 0 /\
     (event_operation e = kPut <-> is_Some (event_value e))) /\
  (is_Some (event_edge_identity e) <->
     ref_family (event_ref e) = kEdgeIdentity) /\
  (forall i, event_edge_identity e = Some i ->
     event_valid_from e = 0 /\ event_operation e = kPut /\
     home_part_id i = ref_part_id (event_ref e) /\
     edge_id i = ref_entity_id (event_ref e) /\
     source_vertex_id i <> 0 /\ target_vertex_id i <> 0 /\ edge_type i <> 0 /\
     home_part_id i = source_part_id i).
Proof.
  rewrite FactEvent_Validate_OK, ValidateMutation_OK, FactRef_Validate_OK.
  unfold identity_payload_ok. destruct (event_edge_identity e) as [i|].
  - rewrite EdgeIdentity_Validate_OK. unfold edge_ref, IsProperty. split.
    + intros (? & ((? & ? & ?) & ? & ? & ?) & Hf & ? & ? & ? & ? & [= Hh He] & ?).
      rewrite Hf in *. split_and!; try done.
      intros j [= <-]. intuition done.
    + intros (? & ? & ? & ? & ? & Hs & ? & [Hf _] & Hi).
      specialize (Hf ltac:(eauto)). rewrite Hf in *.
      destruct (Hs eq_refl). destruct (Hi i eq_refl) as (? & ? & Hh & He & ?).
      rewrite Hh, He. intuition congruence.
  - split; intuition done.
Qed.
