(* ===== verification/FactCodec.v ===== *)
(** * FactCodec: encoding of fact keys and fact values

    Models [include/cedar/fact/fact_codec.h] and
    [src/storage/facts/fact_codec.cc].  A fact key is 32 bytes: format version,
    partition, family, property, entity, and the complements of the valid time
    and the commit sequence, all big-endian.  A fact value is a header, a
    payload and a CRC32C trailer.

    Readers take the input and an offset and return the value with the offset
    behind it. *)

From S2P Require Import Prelude Status Crc32c Wire Value Fact.

Definition kEncodedFactKeyBytes : nat := 32.
Definition kMaxFactValuePayloadBytes : Z := 16 * 1024 * 1024.
Definition kFactKeyVersion : Z := 2.
Definition kFactValueVersion : Z := 1.
Definition kNoValueKind : Z := 0.
Definition kEdgeIdentityValueKind : Z := 9.
Definition kFactValueHeaderBytes : nat := 11.
Definition kFactValueChecksumBytes : nat := 4.

Definition AppendU16 (out : list byte) (value : Z) := out ++ be_bytes 2 value.
Definition AppendU32 (out : list byte) (value : Z) := out ++ be_bytes 4 value.
Definition AppendU64 (out : list byte) (value : Z) := out ++ be_bytes 8 value.

Definition WriteU16 (value : Z) : list byte := be_bytes 2 value.
Definition WriteU32 (value : Z) : list byte := be_bytes 4 value.
Definition WriteU64 (value : Z) : list byte := be_bytes 8 value.

Definition ReadU16 := read_be 2.
Definition ReadU32 := read_be 4.
Definition ReadU64 := read_be 8.

Definition IsPhysicalType (value : Z) : bool := (1 <=? value) && (value <=? 8).

(** The [switch] of [EncodeValuePayload]. *)
Definition value_payload (value : Value) : list byte :=
  match value with
  | VBool b => [if b then z2b 1 else z2b 0]
  | VInt32 z => AppendU32 [] (to_unsigned 32 z)
  | VInt64 z => AppendU64 [] (to_unsigned 64 z)
  | VFloat32 bits => AppendU32 [] bits
  | VFloat64 bits => AppendU64 [] bits
  | VTimestamp z => AppendU64 [] z
  | VString s | VBinary s => s
  end.

Definition EncodeValuePayload (value : Value) : StatusOr (list byte) :=
  let payload := value_payload value in
  if kMaxFactValuePayloadBytes <? Z.of_nat (length payload) then
    Fail (InvalidArgument "fact value" "payload exceeds size limit")
  else Ok payload.

Definition invalid_payload : Status :=
  Corruption "fact value" "invalid physical value payload".

(** [ReadU32(payload, &offset, &bits) && offset == payload.size()]. *)
Definition read_exact (n : nat) (payload : list byte) : StatusOr Z :=
  '(v, offset) ← from_option (read_be n payload 0) invalid_payload;
  if (offset =? length payload)%nat then Ok v else Fail invalid_payload.

#[global] Arguments read_exact : simpl never.

Definition DecodeValuePayload (type : PhysicalType) (payload : list byte)
  : StatusOr Value :=
  match type with
  | kBool =>
      match payload with
      | [b] => if b2z b =? 0 then Ok (VBool false)
               else if b2z b =? 1 then Ok (VBool true)
               else Fail invalid_payload
      | _ => Fail invalid_payload
      end
  | kInt32 => v ← read_exact 4 payload; Ok (VInt32 (to_signed 32 v))
  | kInt64 => v ← read_exact 8 payload; Ok (VInt64 (to_signed 64 v))
  | kFloat32 => v ← read_exact 4 payload; Ok (VFloat32 v)
  | kFloat64 => v ← read_exact 8 payload; Ok (VFloat64 v)
  | kTimestamp64 => v ← read_exact 8 payload; Ok (VTimestamp v)
  | kString => Ok (VString payload)
  | kBinary => Ok (VBinary payload)
  | kUnknownPhysicalType _ => Fail invalid_payload
  end.

(** The 44 bytes of an edge identity, shared by the fact payload, the routing
    record and the prepared batch. *)
Definition identity_bytes (i : EdgeIdentity) : list byte :=
  AppendU64 (AppendU64 (AppendU32 (AppendU64 (AppendU32 (AppendU64
    (AppendU32 [] (home_part_id i)) (edge_id i)) (source_part_id i))
    (source_vertex_id i)) (target_part_id i)) (target_vertex_id i))
    (edge_type i).

Definition EncodeEdgeIdentityPayload (i : EdgeIdentity) : StatusOr (list byte) :=
  _ ← check (EdgeIdentity_Validate i);
  Ok (identity_bytes i).

(** The chain of reads of an edge identity at an offset. *)
Definition read_identity (payload : list byte) (offset : nat)
  : option (EdgeIdentity * nat) :=
  '(home_part, offset) ← ReadU32 payload offset;
  '(edge, offset) ← ReadU64 payload offset;
  '(source_part, offset) ← ReadU32 payload offset;
  '(source, offset) ← ReadU64 payload offset;
  '(target_part, offset) ← ReadU32 payload offset;
  '(target, offset) ← ReadU64 payload offset;
  '(type, offset) ← ReadU64 payload offset;
  Some (EdgeIdentity_of_refs (mkEdgeRef home_part edge)
          (mkVertexRef source_part source) (mkVertexRef target_part target)
          type, offset).

Definition DecodeEdgeIdentityPayload (payload : list byte)
  : StatusOr EdgeIdentity :=
  if negb (length payload =? 44)%nat then
    Fail (Corruption "edge identity fact" "invalid identity payload length")
  else
    match read_identity payload 0 with
    | Some (identity, offset) =>
        if (offset =? length payload)%nat then
          match EdgeIdentity_Validate identity with
          | StatusOK => Ok identity
          | s => Fail (Corruption "edge identity fact" (ToString s))
          end
        else Fail (Corruption "edge identity fact" "invalid identity payload")
    | None => Fail (Corruption "edge identity fact" "invalid identity payload")
    end.

(** ** Fact keys *)

Record DecodedFactKey := mkDecodedFactKey {
  key_ref : FactRef;
  key_valid_from : Z;
  key_commit_seq : Z
}.

Definition EncodeFactKey (ref : FactRef) (valid_from commit_seq : Z)
  : list byte :=
  if negb (status_ok (FactRef_Validate ref)) || (commit_seq =? 0) then []
  else
    z2b kFactKeyVersion :: WriteU32 (ref_part_id ref) ++
    z2b (FactFamily_to_u8 (ref_family ref)) :: WriteU16 (ref_property_id ref) ++
    WriteU64 (ref_entity_id ref) ++ WriteU64 (bnot64 valid_from) ++
    WriteU64 (bnot64 commit_seq).

Definition DecodeFactKey (encoded : list byte) : StatusOr DecodedFactKey :=
  let invalid := Corruption "fact key" "invalid key encoding" in
  if negb (length encoded =? kEncodedFactKeyBytes)%nat then
    Fail (Corruption "fact key" "incorrect fixed key length")
  else if negb (byte_at encoded 0 =? kFactKeyVersion) then Fail invalid
  else
    '(part_id, offset) ← from_option (ReadU32 encoded 1) invalid;
    if (length encoded <=? offset)%nat then Fail invalid
    else
      let family := byte_at encoded offset in
      '(property_id, offset) ← from_option (ReadU16 encoded (S offset)) invalid;
      '(entity_id, offset) ← from_option (ReadU64 encoded offset) invalid;
      '(valid_from_desc, offset) ← from_option (ReadU64 encoded offset) invalid;
      '(commit_seq_desc, offset) ← from_option (ReadU64 encoded offset) invalid;
      let ref := mkFactRef part_id (FactFamily_of_u8 family) property_id
                   entity_id in
      let commit_seq := bnot64 commit_seq_desc in
      if negb (status_ok (FactRef_Validate ref)) || (commit_seq =? 0) then
        Fail (Corruption "fact key" "invalid fact identity")
      else Ok (mkDecodedFactKey ref (bnot64 valid_from_desc) commit_seq).

(** ** Fact values *)

(** The kind byte and the payload of an event. *)
Definition event_payload (e : FactEvent) : StatusOr (Z * list byte) :=
  match event_edge_identity e, event_value e with
  | Some identity, _ =>
      payload ← EncodeEdgeIdentityPayload identity;
      Ok (kEdgeIdentityValueKind, payload)
  | None, Some v =>
      payload ← EncodeValuePayload v;
      Ok (PhysicalType_to_u8 (value_type v), payload)
  | None, None => Ok (kNoValueKind, [])
  end.

Definition EncodeFactValue (e : FactEvent) : StatusOr (list byte) :=
  _ ← check (FactEvent_Validate e);
  '(kind, payload) ← event_payload e;
  let encoded := [z2b kFactValueVersion;
                  z2b (FactOperation_to_u8 (event_operation e))] in
  let encoded := AppendU32 encoded (event_schema_epoch e) in
  let encoded := encoded ++ [z2b kind] in
  let encoded := AppendU32 encoded (wrap 32 (Z.of_nat (length payload))) in
  let encoded := encoded ++ payload in
  Ok (AppendU32 encoded (crc32c encoded)).

(** [const Status valid = event.Validate(); ...; return event;] *)
Definition validated_event (e : FactEvent) : StatusOr FactEvent :=
  match FactEvent_Validate e with
  | StatusOK => Ok e
  | s => Fail (Corruption "fact value" (ToString s))
  end.

(** What [DecodeFactValue] does once the frame is known to be intact: the
    payload is decoded by its kind and the event is validated. *)
Definition decode_payload (ref : FactRef) (valid_from commit_seq : Z)
    (operation : FactOperation) (schema_epoch kind : Z) (payload : list byte)
  : StatusOr FactEvent :=
  if kind =? kEdgeIdentityValueKind then
    identity ← DecodeEdgeIdentityPayload payload;
    validated_event
      (mkFactEvent ref valid_from commit_seq operation schema_epoch None
         (Some identity))
  else
    value ←
      (if kind =? kNoValueKind then
         if negb (length payload =? 0)%nat then
           Fail (Corruption "fact value" "missing value kind")
         else Ok None
       else if negb (IsPhysicalType kind) then
         Fail (Corruption "fact value" "unknown physical value kind")
       else Some <$> DecodeValuePayload (PhysicalType_of_u8 kind) payload);
    validated_event
      (mkFactEvent ref valid_from commit_seq operation schema_epoch value None).

Definition DecodeFactValue (ref : FactRef) (valid_from commit_seq : Z)
    (encoded : list byte) : StatusOr FactEvent :=
  if (length encoded <? kFactValueHeaderBytes + kFactValueChecksumBytes)%nat
  then Fail (Corruption "fact value" "truncated value record")
  else
    let version := byte_at encoded 0 in
    let operation := FactOperation_of_u8 (byte_at encoded 1) in
    let unsupported := Corruption "fact value" "unsupported value format" in
    let bad_length := Corruption "fact value" "invalid payload length" in
    if negb (version =? kFactValueVersion) then Fail unsupported
    else
      '(schema_epoch, offset) ← from_option (ReadU32 encoded 2) unsupported;
      let kind := byte_at encoded offset in
      '(payload_length, offset) ←
         from_option (ReadU32 encoded (S offset)) bad_length;
      if (kMaxFactValuePayloadBytes <? payload_length)
         || negb (Z.of_nat (length encoded - offset)
                  =? payload_length + Z.of_nat kFactValueChecksumBytes)
      then Fail bad_length
      else
        let checksum_offset := (length encoded - kFactValueChecksumBytes)%nat in
        let mismatch := Corruption "fact value" "CRC32C mismatch" in
        '(stored_checksum, _) ←
           from_option (ReadU32 encoded checksum_offset) mismatch;
        if negb (stored_checksum =? crc32c (take checksum_offset encoded)) then
          Fail mismatch
        else
          decode_payload ref valid_from commit_seq operation schema_epoch kind
            (take (Z.to_nat payload_length) (drop offset encoded)).

(** ** Specification of the keys and values *)

(** The width and validity conditions of a key that can be stored. *)
Definition key_ok (r : FactRef) (valid_from commit_seq : Z) : Prop :=
  ref_typed r /\ FactRef_Validate r = StatusOK /\ uint 64 valid_from /\
  uint 64 commit_seq /\ commit_seq <> 0.

(** The order of the facts column family: references ascending, then valid
    time and commit sequence descending. *)
Definition ref_compare (a b : FactRef) : comparison :=
  then_compare (ref_part_id a ?= ref_part_id b)
    (then_compare (FactFamily_to_u8 (ref_family a) ?= FactFamily_to_u8 (ref_family b))
       (then_compare (ref_property_id a ?= ref_property_id b)
          (ref_entity_id a ?= ref_entity_id b))).

Definition version_compare (a b : DecodedFactKey) : comparison :=
  then_compare (ref_compare (key_ref a) (key_ref b))
    (then_compare (key_valid_from b ?= key_valid_from a)
       (key_commit_seq b ?= key_commit_seq a)).

(** The bytes shared by all versions of a reference. *)
Definition ref_bytes (r : FactRef) : list byte :=
  z2b kFactKeyVersion :: be_bytes 4 (ref_part_id r) ++
  z2b (FactFamily_to_u8 (ref_family r)) :: be_bytes 2 (ref_property_id r) ++
  be_bytes 8 (ref_entity_id r).

(** The widths of what a value record carries of an event. *)
Definition payload_typed (e : FactEvent) : Prop :=
  uint 32 (event_schema_epoch e) /\ value_typed (event_value e) /\
  match event_edge_identity e with Some i => identity_typed i | None => True end.

(** The bytes of a value record in front of its checksum. *)
Definition value_body (e : FactEvent) (kind : Z) (payload : list byte)
  : list byte :=
  z2b kFactValueVersion :: z2b (FactOperation_to_u8 (event_operation e)) ::
  be_bytes 4 (event_schema_epoch e) ++ z2b kind ::
  be_bytes 4 (Z.of_nat (length payload)) ++ payload.

(** A property fact with the bytes of its value record behind the version. *)
Definition sample_event : FactEvent :=
  mkFactEvent (mkFactRef 1 kVertexProperty 2 3) 5 8 kPut 1 (Some (VInt32 7))
    None.

Definition sample_tail : list byte :=
  match EncodeFactValue sample_event with Ok b => drop 1 b | Fail _ => [] end.

(** ** Readers and writers *)

#[export] Instance Wire_U16 : Wire ReadU16 (be_bytes 2) (uint 16) := Wire_be 2.
#[export] Instance Wire_U32 : Wire ReadU32 (be_bytes 4) (uint 32) := Wire_be 4.
#[export] Instance Wire_U64 : Wire ReadU64 (be_bytes 8) (uint 64) := Wire_be 8.

#[global] Opaque ReadU16 ReadU32 ReadU64.

Lemma identity_bytes_eq i :
  identity_bytes i
  = be_bytes 4 (home_part_id i) ++ be_bytes 8 (edge_id i) ++
    be_bytes 4 (source_part_id i) ++ be_bytes 8 (source_vertex_id i) ++
    be_bytes 4 (target_part_id i) ++ be_bytes 8 (target_vertex_id i) ++
    be_bytes 8 (edge_type i).
Proof.
  unfold identity_bytes, AppendU64, AppendU32.
  rewrite <- !app_assoc. done.
Qed.

Lemma length_identity_bytes i : length (identity_bytes i) = 44%nat.
Proof. rewrite identity_bytes_eq. by autorewrite with cedar_len. Qed.

#[export] Hint Rewrite length_identity_bytes : cedar_len.

#[export] Instance Wire_identity :
  Wire read_identity identity_bytes identity_typed.
Proof.
  split.
  - intros input offset i rest (? & ? & ? & ? & ? & ? & ?) Hs.
    rewrite length_identity_bytes. rewrite identity_bytes_eq in Hs.
    unfold read_identity.
    repeat wire_step.
    autorewrite with cedar_len. destruct i. unfold EdgeIdentity_of_refs. simpl.
    do 2 f_equal.
    lia.
  - intros input offset i offset' Hle Hr. unfold read_identity in Hr.
    rewrite length_identity_bytes, identity_bytes_eq.
    repeat wire_inv. autorewrite with cedar_len in *.
    injection Hr as <- <-. simpl.
    wire_subst. unfold identity_typed. simpl.
    split_and!; try done; try lia.
Qed.

(** ** Fact keys *)

Lemma length_ref_bytes r : length (ref_bytes r) = 16%nat.
Proof. unfold ref_bytes. by autorewrite with cedar_len. Qed.

#[export] Hint Rewrite length_ref_bytes : cedar_len.

Lemma EncodeFactKey_eq r vf cs :
  FactRef_Validate r = StatusOK -> cs <> 0 ->
  EncodeFactKey r vf cs
  = ref_bytes r ++ be_bytes 8 (bnot64 vf) ++ be_bytes 8 (bnot64 cs).
Proof.
  intros Hr Hcs. unfold EncodeFactKey, ref_bytes. rewrite Hr.
  apply Z.eqb_neq in Hcs. rewrite Hcs.
  cbn [negb orb status_ok app]. rewrite <- app_assoc. cbn [app].
  by rewrite <- app_assoc.
Qed.

Lemma length_EncodeFactKey r vf cs :
  FactRef_Validate r = StatusOK -> cs <> 0 ->
  length (EncodeFactKey r vf cs) = kEncodedFactKeyBytes.
Proof. intros. rewrite EncodeFactKey_eq by done. by autorewrite with cedar_len. Qed.

Lemma DecodeFactKey_Encode r vf cs :
  key_ok r vf cs ->
  DecodeFactKey (EncodeFactKey r vf cs) = Ok (mkDecodedFactKey r vf cs).
Proof.
  intros ((? & Hf & ? & ?) & Hv & ? & ? & Hcs). unfold DecodeFactKey.
  rewrite length_EncodeFactKey by done. rewrite Nat.eqb_refl. simpl negb.
  pose proof (suffix_at_0 (EncodeFactKey r vf cs)) as Hs.
  rewrite EncodeFactKey_eq in Hs at 2 by done. unfold ref_bytes in Hs.
  assert (uint 64 (bnot64 vf)) by apply bnot64_uint.
  assert (uint 64 (bnot64 cs)) by apply bnot64_uint.
  pose proof (length_EncodeFactKey r vf cs Hv Hcs).
  repeat wire_step. rewrite b2z_z2b_uint by done. simpl Z.eqb. simpl negb.
  cbv iota. repeat wire_step. autorewrite with cedar_len in *.
  rewrite leb_correct_conv by (unfold kEncodedFactKeyBytes; lia).
  repeat wire_step. rewrite b2z_z2b_uint by done.
  rewrite !bnot64_involutive by done.
  rewrite FactFamily_of_to by (by apply FactRef_Validate_OK in Hv as [? _]).
  destruct r; simpl in *. rewrite Hv. simpl.
  by apply Z.eqb_neq in Hcs as ->.
Qed.

Lemma DecodeFactKey_Ok k d :
  DecodeFactKey k = Ok d ->
  key_ok (key_ref d) (key_valid_from d) (key_commit_seq d) /\
  k = EncodeFactKey (key_ref d) (key_valid_from d) (key_commit_seq d).
Proof.
  unfold DecodeFactKey. intros H.
  destruct (Nat.eqb_spec (length k) kEncodedFactKeyBytes) as [Hl|]; [|done].
  unfold kEncodedFactKeyBytes in Hl. cbn [negb] in H.
  destruct (Z.eqb_spec (byte_at k 0) kFactKeyVersion) as [Hv|]; [|done].
  cbn [negb] in H. apply bind_Ok in H as ([p o1] & H1 & H).
  destruct (Nat.leb_spec (length k) o1); [done|]. inv_ok.
  repeat wire_inv. autorewrite with cedar_len in *.
  destruct (negb _ || _) eqn:Hok; [done|]. injection H as <-. simpl.
  bool_to_prop. apply status_ok_spec in H. split.
  - unfold key_ok, ref_typed. simpl. rewrite FactFamily_to_of.
    split_and!; try done; auto using bnot64_uint, byte_at_uint.
  - rewrite EncodeFactKey_eq by done. rewrite !bnot64_involutive by done.
    unfold ref_bytes. simpl. rewrite FactFamily_to_of, <- Hv.
    rewrite <- (drop_0 k) at 1. rewrite drop_byte_at by lia. wire_subst.
    rewrite drop_byte_at by lia. wire_subst. cbn [app].
    rewrite drop_ge by lia. by rewrite app_nil_r.
Qed.

(** The encoding tells references and valid times apart. *)
Lemma EncodeFactKey_inj r vf r' vf' cs :
  key_ok r vf cs -> key_ok r' vf' cs ->
  EncodeFactKey r vf cs = EncodeFactKey r' vf' cs <-> (r, vf) = (r', vf').
Proof.
  intros H H'. split; [|congruence]. intros E.
  apply DecodeFactKey_Encode in H, H'. rewrite E in H. congruence.
Qed.

Lemma ref_bytes_inj a b :
  ref_typed a -> ref_typed b -> FactRef_Validate a = StatusOK ->
  FactRef_Validate b = StatusOK -> ref_bytes a = ref_bytes b -> a = b.
Proof.
  intros. assert (EncodeFactKey a 0 1 = EncodeFactKey b 0 1) as E
    by (rewrite !EncodeFactKey_eq by done; congruence).
  apply EncodeFactKey_inj in E; [congruence|..]; unfold key_ok, uint; done.
Qed.

Lemma then_compare_assoc c d e :
  then_compare (then_compare c d) e = then_compare c (then_compare d e).
Proof. by destruct c. Qed.

Lemma bytes_compare_cons a b x y :
  bytes_compare (a :: x) (b :: y)
  = then_compare (b2z a ?= b2z b) (bytes_compare x y).
Proof. simpl. by destruct (b2z a ?= b2z b). Qed.

Lemma ref_bytes_compare a b x y :
  ref_typed a -> ref_typed b ->
  bytes_compare (ref_bytes a ++ x) (ref_bytes b ++ y)
  = then_compare (ref_compare a b) (bytes_compare x y).
Proof.
  intros (? & ? & ? & ?) (? & ? & ? & ?). unfold ref_bytes, ref_compare.
  rewrite bytes_compare_app by by autorewrite with cedar_len.
  f_equal. rewrite bytes_compare_cons, Z.compare_refl. cbn [then_compare].
  rewrite bytes_compare_app by by autorewrite with cedar_len.
  rewrite bytes_compare_cons, !b2z_z2b_uint by done.
  rewrite bytes_compare_app by by autorewrite with cedar_len.
  by rewrite !bytes_compare_be.
Qed.

Lemma bnot64_compare v w :
  uint 64 v -> uint 64 w -> (bnot64 v ?= bnot64 w) = (w ?= v).
Proof.
  intros Hv Hw. rewrite !bnot64_spec by done.
  destruct (Z.compare_spec w v), (Z.compare_spec (U64_MAX - v) (U64_MAX - w));
    lia || done.
Qed.

Lemma EncodeFactKey_compare a b :
  key_ok (key_ref a) (key_valid_from a) (key_commit_seq a) ->
  key_ok (key_ref b) (key_valid_from b) (key_commit_seq b) ->
  bytes_compare
    (EncodeFactKey (key_ref a) (key_valid_from a) (key_commit_seq a))
    (EncodeFactKey (key_ref b) (key_valid_from b) (key_commit_seq b))
  = version_compare a b.
Proof.
  intros (? & ? & ? & ? & ?) (? & ? & ? & ? & ?).
  rewrite !EncodeFactKey_eq by done. rewrite ref_bytes_compare by done.
  unfold version_compare. f_equal.
  rewrite bytes_compare_app by by autorewrite with cedar_len.
  rewrite !bytes_compare_be by apply bnot64_uint.
  by rewrite !bnot64_compare.
Qed.

(** ** Fact values *)

Lemma wrap_small_length (payload : list byte) :
  Z.of_nat (length payload) <= kMaxFactValuePayloadBytes ->
  uint 32 (Z.of_nat (length payload)).
Proof. unfold uint, kMaxFactValuePayloadBytes. lia. Qed.

Lemma read_exact_be n v :
  uint (8 * Z.of_nat n) v -> read_exact n (be_bytes n v) = Ok v.
Proof.
  intros Hv. unfold read_exact.
  pose proof (suffix_at_0 (be_bytes n v)) as Hs.
  wire_step. autorewrite with cedar_len. by rewrite Nat.eqb_refl.
Qed.

Lemma read_exact_Ok n payload v :
  read_exact n payload = Ok v ->
  uint (8 * Z.of_nat n) v /\ payload = be_bytes n v.
Proof.
  unfold read_exact. intros H. inv_ok.
  destruct (Nat.eqb_spec n0 (length payload)) as [->|]; [|done]. inv_ok. subst.
  wire_inv. rewrite drop_0 in *. wire_subst. split; [done|].
  rewrite drop_ge, app_nil_r in Hdrop by done. done.
Qed.

Lemma EncodeValuePayload_Ok v payload :
  EncodeValuePayload v = Ok payload ->
  Z.of_nat (length payload) <= kMaxFactValuePayloadBytes.
Proof.
  unfold EncodeValuePayload. case_match; [done|]. intros [= <-].
  by apply Z.ltb_ge in H.
Qed.

Lemma ValuePayload_roundtrip v payload :
  value_wf v -> EncodeValuePayload v = Ok payload ->
  DecodeValuePayload (value_type v) payload = Ok v.
Proof.
  intros Hv. unfold EncodeValuePayload. case_match; [done|]. intros [= <-].
  destruct v; simpl in *; try done; unfold AppendU32, AppendU64;
    rewrite ?app_nil_l; [by destruct b|..];
    rewrite read_exact_be by (done || by apply to_unsigned_uint);
    cbn beta iota delta [mbind StatusOr_bind];
    by rewrite ?to_signed_unsigned.
Qed.

Lemma DecodeValuePayload_Ok t payload v :
  Z.of_nat (length payload) <= kMaxFactValuePayloadBytes ->
  DecodeValuePayload t payload = Ok v ->
  value_wf v /\ value_type v = t /\ EncodeValuePayload v = Ok payload.
Proof.
  intros Hlen H.
  cut (value_wf v /\ value_type v = t /\ value_payload v = payload).
  { intros (? & ? & E). unfold EncodeValuePayload. rewrite E.
    apply Z.ltb_ge in Hlen. by rewrite Hlen. }
  destruct t; simpl in H; inv_ok; try done; subst;
    try (apply read_exact_Ok in H0 as [? ->]; simpl;
         unfold AppendU32, AppendU64; rewrite ?app_nil_l;
         rewrite ?to_unsigned_signed by done;
         split_and!; try done; by apply to_signed_sint);
    [|by split_and!..].
  destruct payload as [|b [|]]; try done.
  destruct (Z.eqb_spec (b2z b) 0) as [E|];
    [|destruct (Z.eqb_spec (b2z b) 1) as [E|]; [|done]];
    inv_ok; subst; simpl; rewrite <- (z2b_b2z b), E; done.
Qed.

Lemma event_payload_Ok e kind payload :
  event_payload e = Ok (kind, payload) ->
  Z.of_nat (length payload) <= kMaxFactValuePayloadBytes /\ uint 8 kind.
Proof.
  unfold event_payload. intros H.
  destruct (event_edge_identity e), (event_value e) as [v|]; inv_ok; simplify_eq;
    try (unfold EncodeEdgeIdentityPayload in *; inv_ok; subst;
         rewrite length_identity_bytes; done).
  - split; [by eapply EncodeValuePayload_Ok|].
    pose proof (value_type_u8 v). unfold uint. lia.
  - done.
Qed.

Lemma EncodeFactValue_Ok e bytes :
  EncodeFactValue e = Ok bytes <->
  FactEvent_Validate e = StatusOK /\
  exists kind payload, event_payload e = Ok (kind, payload) /\
    bytes = value_body e kind payload
            ++ be_bytes 4 (crc32c (value_body e kind payload)).
Proof.
  assert (forall kind payload, event_payload e = Ok (kind, payload) ->
    AppendU32 (AppendU32 [z2b kFactValueVersion;
         z2b (FactOperation_to_u8 (event_operation e))] (event_schema_epoch e)
      ++ [z2b kind]) (wrap 32 (Z.of_nat (length payload))) ++ payload
    = value_body e kind payload) as Hb.
  { intros kind payload [Hl _]%event_payload_Ok.
    rewrite uint_wrap by by apply wrap_small_length.
    unfold AppendU32, value_body. cbn [app]. by rewrite <- !app_assoc. }
  unfold EncodeFactValue. split.
  - intros H. inv_ok. split; [done|]. do 2 eexists. split; [done|].
    rewrite Hb in H by done. by rewrite <- H.
  - intros (Hv & kind & payload & Hp & ->). rewrite Hv, Hp.
    cbn beta iota delta [check mbind StatusOr_bind]. by rewrite Hb.
Qed.

Lemma EncodeFactValue_checksummed e bytes :
  EncodeFactValue e = Ok bytes -> checksummed bytes.
Proof.
  rewrite EncodeFactValue_Ok. intros (_ & k & p & _ & ->).
  apply checksummed_app.
Qed.

Lemma DecodeEdgeIdentityPayload_bytes i :
  identity_typed i -> EdgeIdentity_Validate i = StatusOK ->
  DecodeEdgeIdentityPayload (identity_bytes i) = Ok i.
Proof.
  intros Hi Hv. unfold DecodeEdgeIdentityPayload.
  rewrite length_identity_bytes, Nat.eqb_refl. cbn [negb].
  pose proof (suffix_at_0 (identity_bytes i)) as Hs. wire_step.
  rewrite length_identity_bytes, Nat.eqb_refl. by rewrite Hv.
Qed.

Lemma DecodeEdgeIdentityPayload_Ok payload i :
  DecodeEdgeIdentityPayload payload = Ok i ->
  identity_typed i /\ EdgeIdentity_Validate i = StatusOK /\
  payload = identity_bytes i.
Proof.
  unfold DecodeEdgeIdentityPayload. intros H.
  destruct (Nat.eqb_spec (length payload) 44); [|done]. cbn [negb] in H.
  destruct (read_identity payload 0) as [[j o]|] eqn:E; [|done].
  destruct (Nat.eqb_spec o (length payload)) as [->|]; [|done].
  destruct (EdgeIdentity_Validate j) eqn:Hv; [|done]. inv_ok. subst.
  wire_inv. rewrite drop_0, (drop_ge payload), app_nil_r in Hdrop by done.
  done.
Qed.

(** The checksum test of the decoders is [checksummed]. *)
Lemma checksummed_read bytes :
  checksummed bytes ->
  ReadU32 bytes (length bytes - 4)
  = Some (crc32c (take (length bytes - 4) bytes), length bytes).
Proof.
  intros [Hl Hd].
  assert (suffix_at bytes (length bytes - 4)
            (be_bytes 4 (crc32c (take (length bytes - 4) bytes)))) as Hs
    by (split; [lia|done]).
  assert (uint 32 (crc32c (take (length bytes - 4) bytes)))
    by apply crc32c_uint.
  wire_step. do 2 f_equal. rewrite length_be_bytes. lia.
Qed.

Lemma read_checksummed bytes stored o :
  (4 <= length bytes)%nat ->
  ReadU32 bytes (length bytes - 4) = Some (stored, o) ->
  stored = crc32c (take (length bytes - 4) bytes) -> checksummed bytes.
Proof.
  intros Hl Hr ->. wire_inv. split; [done|].
  rewrite Hdrop, drop_ge by lia.
  apply app_nil_r.
Qed.

Lemma validated_event_Ok e e' :
  validated_event e = Ok e' <-> e' = e /\ FactEvent_Validate e = StatusOK.
Proof.
  unfold validated_event. destruct (FactEvent_Validate e); naive_solver.
Qed.

Lemma decode_event_payload e kind payload :
  FactEvent_Validate e = StatusOK -> payload_typed e ->
  event_payload e = Ok (kind, payload) ->
  decode_payload (event_ref e) (event_valid_from e) (event_commit_seq e)
    (event_operation e) (event_schema_epoch e) kind payload = Ok e.
Proof.
  intros Hv (_ & Hval & Hid) H.
  pose proof (proj1 (FactEvent_Validate_OK e) Hv) as (_ & _ & Hi).
  unfold event_payload in H. unfold decode_payload.
  destruct e as [r vf cs op ep v [i|]]; simpl in *; unfold identity_payload_ok in Hi;
    simpl in Hi.
  - inv_ok. unfold EncodeEdgeIdentityPayload in *. inv_ok. simplify_eq.
    rewrite DecodeEdgeIdentityPayload_bytes by done. simpl.
    destruct Hi as (? & ? & ? & ? & -> & ?). by apply validated_event_Ok.
  - destruct v as [v|]; inv_ok; simplify_eq; [|by apply validated_event_Ok].
    rewrite PhysicalType_of_to_value.
    rewrite (ValuePayload_roundtrip v) by done.
    destruct v; simpl; by apply validated_event_Ok.
Qed.

Lemma DecodeFactValue_Encode e bytes :
  payload_typed e -> EncodeFactValue e = Ok bytes ->
  DecodeFactValue (event_ref e) (event_valid_from e) (event_commit_seq e) bytes
  = Ok e.
Proof.
  intros Ht He. pose proof (EncodeFactValue_checksummed _ _ He) as Hc.
  apply EncodeFactValue_Ok in He as (Hv & kind & payload & Hp & Hb).
  pose proof (event_payload_Ok _ _ _ Hp) as [Hlen Hk].
  pose proof (wrap_small_length _ Hlen). pose proof Ht as [? _].
  pose proof (f_equal length Hb) as Hbl. unfold value_body in Hbl.
  autorewrite with cedar_len in Hbl.
  pose proof (suffix_at_0 bytes) as Hs. rewrite Hb in Hs at 2.
  unfold value_body in Hs. unfold DecodeFactValue.
  unfold kFactValueHeaderBytes, kFactValueChecksumBytes in *.
  rewrite (proj2 (Nat.ltb_ge _ _)) by lia.
  repeat wire_step. rewrite b2z_z2b_uint by done. simpl negb. cbv iota.
  repeat wire_step. autorewrite with cedar_len.
  apply Z.ltb_ge in Hlen as ->. rewrite (proj2 (Z.eqb_eq _ _)) by lia.
  cbn [negb orb]. rewrite (checksummed_read _ Hc).
  cbn beta iota delta [mbind StatusOr_bind from_option].
  rewrite Z.eqb_refl. cbn [negb]. autorewrite with cedar_len in Hs.
  assert (IsKnownOperation (event_operation e) = true) as Hop.
  { apply FactEvent_Validate_OK in Hv as (_ & Hm & _).
    by apply ValidateMutation_OK in Hm as (_ & ? & _). }
  rewrite Nat2Z.id, (suffix_at_take _ _ _ _ Hs).
  rewrite !b2z_z2b_uint by (done || by destruct (event_operation e)).
  rewrite FactOperation_of_to by done.
  by apply decode_event_payload.
Qed.

Lemma decode_payload_Ok r vf cs op epoch kind payload e :
  uint 32 epoch ->
  Z.of_nat (length payload) <= kMaxFactValuePayloadBytes ->
  decode_payload r vf cs op epoch kind payload = Ok e ->
  FactEvent_Validate e = StatusOK /\ event_ref e = r /\
  event_valid_from e = vf /\ event_commit_seq e = cs /\
  event_operation e = op /\ event_schema_epoch e = epoch /\
  payload_typed e /\ event_payload e = Ok (kind, payload).
Proof.
  intros He Hlen H. unfold decode_payload in H.
  destruct (Z.eqb_spec kind kEdgeIdentityValueKind) as [->|].
  - inv_ok. apply DecodeEdgeIdentityPayload_Ok in H0 as (? & Hv & ->).
    apply validated_event_Ok in H as [-> ?]. unfold payload_typed, event_payload.
    simpl. unfold EncodeEdgeIdentityPayload. by rewrite Hv.
  - inv_ok. apply validated_event_Ok in H as [-> ?].
    cut (value_typed x /\ event_payload (mkFactEvent r vf cs op epoch x None)
                          = Ok (kind, payload)).
    { intros [? ?]. unfold payload_typed. by split_and!. }
    unfold event_payload; simpl.
    destruct (Z.eqb_spec kind kNoValueKind) as [->|].
    + destruct payload; simpl in H0; inv_ok; subst. done.
    + destruct (IsPhysicalType kind) eqn:Hk; [|done]. simpl in H0.
      destruct (DecodeValuePayload _ _) as [v|] eqn:Hd; [|done].
      simpl in H0. inv_ok. subst.
      apply DecodeValuePayload_Ok in Hd as (? & Ht & ->); [|done].
      rewrite Ht, PhysicalType_to_of. done.
Qed.

Lemma DecodeFactValue_Ok r vf cs bytes e :
  DecodeFactValue r vf cs bytes = Ok e ->
  event_ref e = r /\ event_valid_from e = vf /\ event_commit_seq e = cs /\
  payload_typed e /\ EncodeFactValue e = Ok bytes.
Proof.
  unfold DecodeFactValue, kFactValueHeaderBytes, kFactValueChecksumBytes.
  intros H. destruct (Nat.ltb_spec (length bytes) (11 + 4)); [done|].
  destruct (Z.eqb_spec (byte_at bytes 0) kFactValueVersion) as [Hv|]; [|done].
  cbn [negb] in H. inv_ok. destruct (_ || _) eqn:Hn; [done|]. bool_to_prop.
  inv_ok. destruct (Z.eqb_spec z1 (crc32c (take (length bytes - 4) bytes)))
    as [Hc|]; [|done]. cbn [negb] in H.
  match goal with H : ReadU32 _ (_ - 4) = _ |- _ =>
    apply read_checksummed in H as Hsum; [clear H|lia|done] end.
  repeat wire_inv. autorewrite with cedar_len in *.
  assert (0 <= z0) by (unfold uint in *; lia).
  apply decode_payload_Ok in H as (? & ? & ? & ? & Hop & Hep & ? & ?); [|done|].
  2: { autorewrite with cedar_len. lia. }
  split_and!; try done. apply EncodeFactValue_Ok. split; [done|].
  eexists _, _. split; [done|]. destruct Hsum as [_ Hsum].
  rewrite <- (take_drop (length bytes - 4) bytes) at 1. rewrite Hsum.
  assert (take (length bytes - 4) bytes
          = value_body e (byte_at bytes n) (take (Z.to_nat z0) (drop n0 bytes)))
    as Hb; [|by rewrite Hb].
  apply (app_inj_2 _ _ (drop (length bytes - 4) bytes)
           (drop (length bytes - 4) bytes)); [done|].
  rewrite take_drop. unfold value_body. autorewrite with cedar_len.
  rewrite Hop, Hep, FactOperation_to_of, <- Hv.
  replace (Z.of_nat (Z.to_nat z0 `min` (length bytes - n0))) with z0 by lia.
  assert (drop n0 bytes = take (Z.to_nat z0) (drop n0 bytes)
                          ++ drop (length bytes - 4) bytes) as Ht.
  { rewrite <- (take_drop (Z.to_nat z0) (drop n0 bytes)) at 1.
    f_equal. rewrite drop_drop. f_equal. lia. }
  rewrite <- (drop_0 bytes) at 1.
  rewrite (drop_byte_at bytes 0), (drop_byte_at bytes 1) by lia.
  rewrite Hdrop, (drop_byte_at bytes n), Hdrop0, Ht at 1 by lia.
  cbn [app]. rewrite <- app_assoc. cbn [app]. by rewrite <- app_assoc.
Qed.

(** ** Properties *)

(** A byte string decodes to a fact key exactly when the key has a valid
    reference, fits its field widths, has a non-zero commit sequence and the
    bytes are its encoding: every key survives a round trip and no two byte
    strings denote the same key. *)
Theorem DecodeFactKey_spec k r vf cs :
  DecodeFactKey k = Ok (mkDecodedFactKey r vf cs) <->
  key_ok r vf cs /\ k = EncodeFactKey r vf cs.
Proof.
  split.
  - intros H. by apply DecodeFactKey_Ok in H.
  - intros [? ->]. by apply DecodeFactKey_Encode.
Qed.

(** C33: the bytewise order of encoded fact keys is the order on references
    followed by descending valid time and descending commit sequence: a forward
    scan of one reference meets the newest boundary first, and the newest
    correction of a boundary first. *)
Theorem EncodeFactKey_order a b :
  key_ok (key_ref a) (key_valid_from a) (key_commit_seq a) ->
  key_ok (key_ref b) (key_valid_from b) (key_commit_seq b) ->
  bytes_compare
    (EncodeFactKey (key_ref a) (key_valid_from a) (key_commit_seq a))
    (EncodeFactKey (key_ref b) (key_valid_from b) (key_commit_seq b))
  = version_compare a b.
Proof. apply EncodeFactKey_compare. Qed.

Lemma EncodeFactKey_order_witness :
  bytes_compare (EncodeFactKey (mkFactRef 3 kVertexProperty 7 42) 100 9)
    (EncodeFactKey (mkFactRef 3 kVertexProperty 7 42) 50 12) = Lt.
Proof.
  exact (EncodeFactKey_order
           (mkDecodedFactKey (mkFactRef 3 kVertexProperty 7 42) 100 9)
           (mkDecodedFactKey (mkFactRef 3 kVertexProperty 7 42) 50 12)
           ltac:(unfold key_ok, ref_typed, uint; simpl; split_and!; done)
           ltac:(unfold key_ok, ref_typed, uint; simpl; split_and!; done)).
Defined.

(** C35: a value record decodes under a key to an event exactly when the event
    has that key and the record is what the event encodes to; in particular
    decoding inverts encoding, an event that decodes is valid, and the encoding
    of an event is unique. *)
Theorem DecodeFactValue_spec r vf cs bytes e :
  DecodeFactValue r vf cs bytes = Ok e <->
  event_ref e = r /\ event_valid_from e = vf /\ event_commit_seq e = cs /\
  payload_typed e /\ EncodeFactValue e = Ok bytes.
Proof.
  split; [apply DecodeFactValue_Ok|].
  intros (<- & <- & <- & ? & ?). by apply DecodeFactValue_Encode.
Qed.

(** C34: a value record in which one byte was changed, whichever byte it is, is
    rejected under every key. *)
Theorem DecodeFactValue_one_byte e p b b' s r vf cs :
  EncodeFactValue e = Ok (p ++ b :: s) -> b <> b' ->
  is_ok (DecodeFactValue r vf cs (p ++ b' :: s)) = false.
Proof.
  intros He Hb. destruct (DecodeFactValue _ _ _ _) as [e'|] eqn:E; [|done].
  apply DecodeFactValue_Ok in E as (_ & _ & _ & _ & E).
  apply EncodeFactValue_checksummed in He, E.
  by apply (checksummed_one_byte _ _ b') in He.
Qed.

Lemma DecodeFactValue_one_byte_witness :
  is_ok (DecodeFactValue (event_ref sample_event) 5 8
           ([] ++ z2b 9 :: sample_tail)) = false.
Proof.
  apply (DecodeFactValue_one_byte sample_event [] (z2b 1) (z2b 9) sample_tail);
    [vm_compute; reflexivity|vm_compute; discriminate].
Defined.
