(* ===== verification/Frame.v ===== *)
(** * Frame: checksummed records and the contract of record codecs

    The metadata records ([src/storage/facts/meta_codec.cc]) and the records of
    prepared transactions ([src/storage/facts/prepared_commit_codec.cc]) share
    one framing: a version byte, a kind byte, a four-byte payload length, the
    payload and a CRC32C trailer.  [encode_frame] and [decode_frame] are the
    bodies of the two pairs of [EncodeRecord] and [DecodeRecord], which differ in
    their constants and messages only.

    [Frame] is the contract of such a pair, [RecordCodec] and [CanonicalCodec]
    are the contracts of a record encoder and decoder on top of it; the record
    kinds of both files are instances. *)

From S2P Require Import Prelude Status Crc32c Wire Value Fact FactCodec.

(** A string literal of the code. *)
Definition literal (s : string) : list byte := String.list_byte_of_string s.

Definition kFrameHeaderBytes : nat := 6.
Definition kFrameChecksumBytes : nat := 4.

Definition encode_frame (version kind max_payload : Z) (oversized : Status)
    (payload : list byte) : StatusOr (list byte) :=
  if max_payload <? Z.of_nat (length payload) then Fail oversized
  else
    let encoded := [z2b version; z2b kind] in
    let encoded := AppendU32 encoded (wrap 32 (Z.of_nat (length payload))) in
    let encoded := encoded ++ payload in
    Ok (AppendU32 encoded (crc32c encoded)).

Definition decode_frame (version kind max_payload : Z)
    (truncated bad_header mismatch : Status) (encoded : list byte)
  : StatusOr (list byte) :=
  if (length encoded <? kFrameHeaderBytes + kFrameChecksumBytes)%nat then
    Fail truncated
  else if negb (byte_at encoded 0 =? version)
          || negb (byte_at encoded 1 =? kind)
  then Fail bad_header
  else
    '(payload_length, offset) ← from_option (ReadU32 encoded 2) bad_header;
    if (max_payload <? payload_length)
       || negb (Z.of_nat (length encoded - offset)
                =? payload_length + Z.of_nat kFrameChecksumBytes)
    then Fail bad_header
    else
      let checksum_offset := (length encoded - kFrameChecksumBytes)%nat in
      '(stored_checksum, _) ←
         from_option (ReadU32 encoded checksum_offset) mismatch;
      if negb (stored_checksum =? crc32c (take checksum_offset encoded)) then
        Fail mismatch
      else Ok (take (Z.to_nat payload_length) (drop offset encoded)).

(** [const Status valid = record.Validate(); if (!valid.ok()) return
    Status::Corruption(what, valid.ToString()); return record;] *)
Definition validated {A} (what : string) (validate : A -> Status) (a : A)
  : StatusOr A :=
  match validate a with
  | StatusOK => Ok a
  | s => Fail (Corruption what (ToString s))
  end.

(** ** Contracts *)

(** A pair of framing functions. *)
Class Frame (enc : list byte -> StatusOr (list byte))
    (dec : list byte -> StatusOr (list byte)) := {
  frame_spec bytes payload : dec bytes = Ok payload <-> enc payload = Ok bytes;
  frame_checksummed payload bytes : enc payload = Ok bytes -> checksummed bytes
}.

(** The contract of an encoder and a decoder: what is encoded is decoded to the
    same record, and both only deal in byte strings that carry their checksum.
    [typed] states the field widths. *)
Class RecordCodec {A} (encode : A -> StatusOr (list byte))
    (decode : list byte -> StatusOr A) (typed : A -> Prop) := {
  codec_decode a bytes : typed a -> encode a = Ok bytes -> decode bytes = Ok a;
  codec_typed bytes a : decode bytes = Ok a -> typed a;
  codec_encode_checksummed a bytes : encode a = Ok bytes -> checksummed bytes;
  codec_decode_checksummed bytes a : decode bytes = Ok a -> checksummed bytes
}.

(** A decoder that accepts nothing but what the encoder writes. *)
Class CanonicalCodec {A} (encode : A -> StatusOr (list byte))
    (decode : list byte -> StatusOr A) := {
  codec_encode bytes a : decode bytes = Ok a -> encode a = Ok bytes
}.

(** The bytes of a record in front of its checksum. *)
Definition frame_body (version kind : Z) (payload : list byte) : list byte :=
  z2b version :: z2b kind ::
  be_bytes 4 (Z.of_nat (length payload)) ++ payload.

(** ** Framing *)

Section frame.

Context (version kind max_payload : Z)
  (oversized truncated bad_header mismatch : Status).
Context (Hversion : uint 8 version) (Hkind : uint 8 kind)
  (Hmax : max_payload < 2 ^ 32).

Lemma encode_frame_Ok payload bytes :
  encode_frame version kind max_payload oversized payload = Ok bytes <->
  Z.of_nat (length payload) <= max_payload /\
  bytes = frame_body version kind payload
          ++ be_bytes 4 (crc32c (frame_body version kind payload)).
Proof using Hmax.
  unfold encode_frame.
  destruct (Z.ltb_spec max_payload (Z.of_nat (length payload))).
  - split; [done|lia].
  - rewrite uint_wrap by (unfold uint; lia).
    unfold AppendU32. rewrite <- app_assoc. split.
    + intros [= <-]. done.
    + intros [_ ->]. done.
Qed.

Lemma encode_frame_checksummed payload bytes :
  encode_frame version kind max_payload oversized payload = Ok bytes ->
  checksummed bytes.
Proof using Hmax. intros [_ ->]%encode_frame_Ok. apply checksummed_app. Qed.

Lemma decode_frame_encode payload bytes :
  encode_frame version kind max_payload oversized payload = Ok bytes ->
  decode_frame version kind max_payload truncated bad_header mismatch bytes
  = Ok payload.
Proof using Hversion Hkind Hmax.
  intros He. pose proof (encode_frame_checksummed _ _ He) as Hc.
  apply encode_frame_Ok in He as [Hlen Hb].
  assert (uint 32 (Z.of_nat (length payload))) by (unfold uint; lia).
  pose proof (f_equal length Hb) as Hbl. unfold frame_body in Hbl.
  autorewrite with cedar_len in Hbl.
  pose proof (suffix_at_0 bytes) as Hs. rewrite Hb in Hs at 2.
  unfold frame_body in Hs. unfold decode_frame.
  unfold kFrameHeaderBytes, kFrameChecksumBytes in *.
  rewrite (proj2 (Nat.ltb_ge _ _)) by lia.
  repeat wire_step. rewrite !b2z_z2b_uint by done.
  rewrite !Z.eqb_refl. cbn [negb orb]. repeat wire_step.
  autorewrite with cedar_len. apply Z.ltb_ge in Hlen as ->.
  rewrite (proj2 (Z.eqb_eq _ _)) by lia. cbn [negb orb].
  rewrite (checksummed_read _ Hc).
  cbn beta iota delta [mbind StatusOr_bind from_option].
  rewrite Z.eqb_refl. cbn [negb]. autorewrite with cedar_len in Hs.
  by rewrite Nat2Z.id, (suffix_at_take _ _ _ _ Hs).
Qed.

Lemma decode_frame_Ok bytes payload :
  decode_frame version kind max_payload truncated bad_header mismatch bytes
  = Ok payload ->
  encode_frame version kind max_payload oversized payload = Ok bytes.
Proof using Hmax.
  unfold decode_frame, kFrameHeaderBytes, kFrameChecksumBytes. intros H.
  destruct (Nat.ltb_spec (length bytes) (6 + 4)); [done|].
  destruct (negb _ || negb _) eqn:Hh in H; [done|]. bool_to_prop.
  rename H1 into Hv, H2 into Hk. inv_ok.
  destruct (_ || _) eqn:Hn; [done|]. bool_to_prop.
  inv_ok. destruct (Z.eqb_spec z0 (crc32c (take (length bytes - 4) bytes)))
    as [Hc|]; [|done]. cbn [negb] in H. apply Ok_inj in H as <-.
  match goal with H : ReadU32 _ (_ - 4) = _ |- _ =>
    apply read_checksummed in H as Hsum; [clear H|lia|done] end.
  repeat wire_inv. autorewrite with cedar_len in *. unfold uint in *.
  apply encode_frame_Ok. autorewrite with cedar_len. split; [lia|].
  destruct Hsum as [_ Hsum]. rewrite <- (take_drop (length bytes - 4) bytes) at 1.
  rewrite Hsum.
  assert (take (length bytes - 4) bytes
          = frame_body version kind (take (Z.to_nat z) (drop n bytes)))
    as Hb; [|by rewrite Hb].
  apply (app_inj_2 _ _ (drop (length bytes - 4) bytes)
           (drop (length bytes - 4) bytes)); [done|].
  rewrite take_drop. unfold frame_body. autorewrite with cedar_len.
  replace (Z.of_nat (Z.to_nat z `min` (length bytes - n))) with z by lia.
  assert (drop n bytes = take (Z.to_nat z) (drop n bytes)
                          ++ drop (length bytes - 4) bytes) as Ht.
  { rewrite <- (take_drop (Z.to_nat z) (drop n bytes)) at 1.
    f_equal. rewrite drop_drop. f_equal. lia. }
  rewrite <- (drop_0 bytes) at 1.
  rewrite (drop_byte_at bytes 0), (drop_byte_at bytes 1) by lia.
  rewrite Hv, Hk, Hdrop, Ht at 1. cbn [app]. by rewrite <- app_assoc.
Qed.

Lemma frame_instance :
  Frame (encode_frame version kind max_payload oversized)
    (decode_frame version kind max_payload truncated bad_header mismatch).
Proof using Hversion Hkind Hmax.
  split.
  - intros bytes payload. split; [apply decode_frame_Ok|apply decode_frame_encode].
  - intros. by eapply encode_frame_checksummed.
Qed.

End frame.

Lemma validated_Ok {A} what (validate : A -> Status) a a' :
  validated what validate a = Ok a' <-> a' = a /\ validate a = StatusOK.
Proof. unfold validated. destruct (validate a); naive_solver. Qed.

(** ** Codecs on a frame *)

(** A codec whose payload is written by [body] and read by [parse]. *)
Lemma framed_codec {A} enc dec `{!Frame enc dec} (validate : A -> Status)
    (body : A -> list byte) (parse : list byte -> StatusOr A)
    (typed : A -> Prop) :
  (forall a, typed a -> validate a = StatusOK -> parse (body a) = Ok a) ->
  (forall payload a, parse payload = Ok a -> typed a) ->
  RecordCodec (fun a => _ ← check (validate a); enc (body a))
    (fun bytes => payload ← dec bytes; parse payload) typed.
Proof.
  intros Hb Hp. split.
  - intros a bytes Ht H. inv_ok. apply frame_spec in H. rewrite H. by apply Hb.
  - intros bytes a H. inv_ok. eauto.
  - intros a bytes H. inv_ok. by eapply frame_checksummed.
  - intros bytes a H. inv_ok.
    match goal with E : dec _ = _ |- _ => apply frame_spec in E end.
    by eapply frame_checksummed.
Qed.

Lemma framed_canonical {A} enc dec `{!Frame enc dec} (validate : A -> Status)
    (body : A -> list byte) (parse : list byte -> StatusOr A) :
  (forall payload a, parse payload = Ok a ->
     validate a = StatusOK /\ payload = body a) ->
  CanonicalCodec (fun a => _ ← check (validate a); enc (body a))
    (fun bytes => payload ← dec bytes; parse payload).
Proof.
  intros Hp. split. intros bytes a H. inv_ok. apply Hp in H as (Hv & ->).
  match goal with E : dec _ = _ |- _ => apply frame_spec in E end.
  by rewrite Hv.
Qed.

(** Normal form of a payload built by appending. *)
Ltac codec_apps :=
  unfold AppendU16, AppendU32, AppendU64;
  rewrite <- ?app_assoc; cbn [app].

Ltac codec_apps_in H :=
  unfold AppendU16, AppendU32, AppendU64 in H;
  rewrite <- ?app_assoc in H; cbn [app] in H.

(** Opens the payload [bytes] of an encoder for the readers. *)
Ltac codec_open bytes Hs Hl :=
  pose proof (suffix_at_0 bytes) as Hs; unfold bytes in Hs at 2;
  codec_apps_in Hs;
  pose proof (suffix_at_length _ _ _ Hs) as Hl;
  autorewrite with cedar_len in Hl; clearbody bytes.
