(* ===== verification/MetaCodec.v ===== *)
(** * MetaCodec: records and keys of the metadata column family

    Models [include/cedar/fact/meta_codec.h], [include/cedar/schema.h] and
    [src/storage/facts/meta_codec.cc].  Every record is a six-byte header
    (version, kind, payload length), a payload and a CRC32C trailer.
    [RecordCodec] is the contract of one pair of encoder and decoder; the
    record kinds are its instances, and the theorems on corruption are proved
    from the contract. *)

From S2P Require Import Prelude Status Crc32c Wire Value Fact FactCodec Frame.

Definition LegacyMetaSequenceFormatError (detail : string) : Status :=
  NotSupported "meta sequence"
    (detail +:+
     "; this Cedar release supports only meta sequence format 2 (v2); v1 sequence records are unsupported, and migration/downgrade is not supported. Delete and recreate the database, or restore a format-2 backup.").

Definition kMetaVersion : Z := 1.
Definition kMetaHeaderBytes : nat := 6.
Definition kMetaChecksumBytes : nat := 4.
Definition kMaxMetaPayloadBytes : Z := 16 * 1024 * 1024.
Definition kMaxPropertyNameBytes : Z := 4096.

Inductive MetaRecordKind :=
| kSystemIdentity
| kWatermark
| kPropertyDefinition
| kEdgeIdentityRecord
| kIdAllocator
| kTransactionOutcome
| kSequence
| kVacuumState
| kSequenceV2
| kSequenceFormat.

Definition MetaRecordKind_to_u8 (k : MetaRecordKind) : Z :=
  match k with
  | kSystemIdentity => 1
  | kWatermark => 2
  | kPropertyDefinition => 3
  | kEdgeIdentityRecord => 4
  | kIdAllocator => 5
  | kTransactionOutcome => 6
  | kSequence => 7
  | kVacuumState => 8
  | kSequenceV2 => 9
  | kSequenceFormat => 10
  end.

Definition kSequenceV2PayloadVersion : Z := 1.
Definition kSequenceV2HeaderBytes : nat := 22.
Definition kSequenceV2FactBytes : nat := 23.

(** [IdKind], [TransactionOutcome], [VacuumPhase] and [PropertyEntityKind]; a
    byte that is no enumerator stays such after the cast. *)
Inductive IdKind :=
| kVertexId | kEdgeId | kTransactionId | kUnknownIdKind (raw : Z).

Definition IdKind_to_u8 (k : IdKind) : Z :=
  match k with
  | kVertexId => 1 | kEdgeId => 2 | kTransactionId => 3
  | kUnknownIdKind raw => raw
  end.

Definition IdKind_of_u8 (z : Z) : IdKind :=
  if z =? 1 then kVertexId else if z =? 2 then kEdgeId
  else if z =? 3 then kTransactionId else kUnknownIdKind z.

Inductive TransactionOutcome :=
| kCommitted | kUnknownOutcome (raw : Z).

Definition TransactionOutcome_to_u8 (o : TransactionOutcome) : Z :=
  match o with kCommitted => 1 | kUnknownOutcome raw => raw end.

Definition TransactionOutcome_of_u8 (z : Z) : TransactionOutcome :=
  if z =? 1 then kCommitted else kUnknownOutcome z.

Inductive VacuumPhase :=
| kPrepared | kRunning | kUnknownPhase (raw : Z).

Definition VacuumPhase_to_u8 (p : VacuumPhase) : Z :=
  match p with kPrepared => 1 | kRunning => 2 | kUnknownPhase raw => raw end.

Definition VacuumPhase_of_u8 (z : Z) : VacuumPhase :=
  if z =? 1 then kPrepared else if z =? 2 then kRunning else kUnknownPhase z.

Inductive PropertyEntityKind :=
| kVertexEntity | kEdgeEntity | kUnknownEntityKind (raw : Z).

#[export] Instance PropertyEntityKind_eq_dec : EqDecision PropertyEntityKind.
Proof. solve_decision. Defined.

Definition PropertyEntityKind_to_u8 (k : PropertyEntityKind) : Z :=
  match k with
  | kVertexEntity => 1 | kEdgeEntity => 2 | kUnknownEntityKind raw => raw
  end.

Definition PropertyEntityKind_of_u8 (z : Z) : PropertyEntityKind :=
  if z =? 1 then kVertexEntity else if z =? 2 then kEdgeEntity
  else kUnknownEntityKind z.

(** ** Records *)

Record PropertyDefinition := mkPropertyDefinition {
  def_property_id : Z;
  def_schema_epoch : Z;
  def_name : list byte;
  def_entity_kind : PropertyEntityKind;
  def_physical_type : PhysicalType;
  def_blob_threshold_bytes : Z
}.

Record IdAllocatorState := mkIdAllocatorState {
  alloc_kind : IdKind;
  next_id : Z
}.

Record TransactionOutcomeRecord := mkTransactionOutcomeRecord {
  outcome_txn_id : Z;
  outcome_commit_seq : Z;
  outcome : TransactionOutcome
}.

Record SequenceRecord := mkSequenceRecord {
  seq_commit_seq : Z;
  seq_txn_id : Z;
  seq_system_hlc : Z;
  fact_keys : list (list byte)
}.

(** [identities] points into the buffer that the view owns. *)
Record SequenceRecordView := mkSequenceRecordView {
  view_commit_seq : Z;
  view_txn_id : Z;
  view_system_hlc : Z;
  view_fact_count : Z;
  view_identities : list byte
}.

Record VacuumState := mkVacuumState {
  vacuum_target : Z;
  vacuum_phase : VacuumPhase;
  vacuum_cursor : list byte
}.

Record SystemIdentity := mkSystemIdentity {
  system : list byte;
  system_format : Z;
  fact_key_format : list byte;
  facts_table_format : list byte;
  comparator_digest : list byte
}.

Definition IsKnownIdKind (k : IdKind) : bool :=
  match k with kUnknownIdKind _ => false | _ => true end.

Definition IsKnownPhase (p : VacuumPhase) : bool :=
  match p with kUnknownPhase _ => false | _ => true end.

Definition IsKnownEntityKind (k : PropertyEntityKind) : bool :=
  match k with kUnknownEntityKind _ => false | _ => true end.

Definition PropertyDefinition_Validate (d : PropertyDefinition) : Status :=
  if (def_property_id d =? 0) || (def_schema_epoch d =? 0)
     || (length (def_name d) =? 0)%nat
     || (kMaxPropertyNameBytes <? Z.of_nat (length (def_name d)))
     || (def_blob_threshold_bytes d =? 0)
     || negb (IsKnownEntityKind (def_entity_kind d))
     || negb (IsPhysicalType (PhysicalType_to_u8 (def_physical_type d)))
  then InvalidArgument "property definition" "invalid schema definition"
  else StatusOK.

Definition IdAllocatorState_Validate (s : IdAllocatorState) : Status :=
  if (next_id s =? 0) || negb (IsKnownIdKind (alloc_kind s)) then
    InvalidArgument "ID allocator" "invalid allocator state"
  else StatusOK.

Definition TransactionOutcomeRecord_Validate (r : TransactionOutcomeRecord)
  : Status :=
  if (outcome_txn_id r =? 0) || (outcome_commit_seq r =? 0)
     || negb (match outcome r with kCommitted => true | _ => false end)
  then InvalidArgument "transaction outcome" "invalid outcome record"
  else StatusOK.

(** One turn of the loop over the fact keys, with the keys met before. *)
Definition sequence_key_check (commit_seq : Z) (unique_keys : gset (list byte))
    (key : list byte) : StatusOr (gset (list byte)) :=
  match DecodeFactKey key with
  | Fail _ => Fail (InvalidArgument "sequence record" "invalid fact key")
  | Ok decoded =>
      if negb (key_commit_seq decoded =? commit_seq) then
        Fail (InvalidArgument "sequence record"
                "fact key commit sequence disagrees")
      else if bool_decide (key ∈ unique_keys) then
        Fail (InvalidArgument "sequence record" "duplicate fact key")
      else Ok ({[ key ]} ∪ unique_keys)
  end.

Fixpoint sequence_keys_check (commit_seq : Z) (unique_keys : gset (list byte))
    (keys : list (list byte)) : Status :=
  match keys with
  | [] => StatusOK
  | key :: keys' =>
      match sequence_key_check commit_seq unique_keys key with
      | Ok unique_keys' => sequence_keys_check commit_seq unique_keys' keys'
      | Fail s => s
      end
  end.

Definition SequenceRecord_Validate (r : SequenceRecord) : Status :=
  if (seq_commit_seq r =? 0) || (seq_txn_id r =? 0)
     || (length (fact_keys r) =? 0)%nat
     || (2 ^ 32 - 1 <? Z.of_nat (length (fact_keys r)))
  then InvalidArgument "sequence record" "invalid sequence metadata"
  else sequence_keys_check (seq_commit_seq r) ∅ (fact_keys r).

Definition VacuumState_Validate (s : VacuumState) : Status :=
  if (vacuum_target s =? 0) || negb (IsKnownPhase (vacuum_phase s))
     || (negb (length (vacuum_cursor s) =? 0)%nat
         && negb (length (vacuum_cursor s) =? kEncodedFactKeyBytes)%nat)
  then InvalidArgument "vacuum state" "zero vacuum target"
  else StatusOK.

Definition SystemIdentity_Validate (i : SystemIdentity) : Status :=
  if negb (bool_decide (system i = literal "cedar.authoritative-columnar"))
     || negb (system_format i =? 1)
     || negb (bool_decide (fact_key_format i = literal "part32.fact.v2"))
     || negb (bool_decide
                (facts_table_format i = literal "cedar.parquet.facts.v3"))
     || negb (bool_decide
                (comparator_digest i
                 = literal "cedar.v2.internal-key.bytewise.v1"))
  then InvalidArgument "system identity" "unsupported identity"
  else StatusOK.

(** ** Keys *)

Definition EncodeCurrentFormatKey : list byte := literal "format/current".

Definition EncodeSchemaMetaKey (property_id schema_epoch : Z)
  : StatusOr (list byte) :=
  if (property_id =? 0) || (schema_epoch =? 0) then
    Fail (InvalidArgument "schema key" "zero property ID or epoch")
  else
    Ok (AppendU32 (AppendU16 (literal "schema/") property_id ++ literal "/")
          schema_epoch).

Definition EncodeEdgeIdentityMetaKey (edge : EdgeRef) : StatusOr (list byte) :=
  if edge_ref_id edge =? 0 then
    Fail (InvalidArgument "edge key" "zero edge ID")
  else
    Ok (AppendU64 (AppendU32 (literal "edge/") (edge_home_part_id edge))
          (edge_ref_id edge)).

Definition EncodeAllocatorMetaKey (kind : IdKind) : list byte :=
  match kind with
  | kVertexId => literal "allocator/vertex_next"
  | kEdgeId => literal "allocator/edge_next"
  | kTransactionId => literal "allocator/transaction_next"
  | kUnknownIdKind _ => literal "allocator/invalid"
  end.

Definition EncodeTransactionMetaKey (txn : Z) : StatusOr (list byte) :=
  if txn =? 0 then
    Fail (InvalidArgument "transaction key" "zero transaction ID")
  else Ok (AppendU64 (literal "txn/") txn).

Definition EncodeSequenceMetaKey (commit_seq : Z) : StatusOr (list byte) :=
  if commit_seq =? 0 then
    Fail (InvalidArgument "sequence key" "zero commit sequence")
  else Ok (AppendU64 (literal "sequence/") commit_seq).

Definition EncodeVisibleWatermarkKey : list byte := literal "watermark/visible".

Definition EncodeOldestReadableWatermarkKey : list byte :=
  literal "watermark/oldest_readable".

Definition EncodeSequenceRetentionWatermarkKey : list byte :=
  literal "watermark/sequence-retention".

Definition EncodeVacuumStateKey : list byte := literal "vacuum/state".

Definition EncodeSequenceFormatKey : list byte :=
  literal "format/sequence-record-format".

(** ** Framing *)

Definition AppendString (out value : list byte) : list byte :=
  AppendU16 out (wrap 16 (Z.of_nat (length value))) ++ value.

Definition ReadString (input : list byte) (offset : nat)
  : option (list byte * nat) :=
  '(len, offset) ← ReadU16 input offset;
  if Z.of_nat (length input - offset) <? len then None
  else Some (take (Z.to_nat len) (drop offset input),
             (offset + Z.to_nat len)%nat).

Definition EncodeRecord (kind : MetaRecordKind) (payload : list byte)
  : StatusOr (list byte) :=
  encode_frame kMetaVersion (MetaRecordKind_to_u8 kind) kMaxMetaPayloadBytes
    (InvalidArgument "metadata" "payload exceeds size limit") payload.

Definition DecodeRecordView (expected_kind : MetaRecordKind)
    (encoded : list byte) : StatusOr (list byte) :=
  decode_frame kMetaVersion (MetaRecordKind_to_u8 expected_kind)
    kMaxMetaPayloadBytes (Corruption "metadata" "truncated record")
    (Corruption "metadata" "invalid record header")
    (Corruption "metadata" "CRC32C mismatch") encoded.

Definition DecodeRecord (expected_kind : MetaRecordKind) (encoded : list byte)
  : StatusOr (list byte) :=
  payload ← DecodeRecordView expected_kind encoded; Ok payload.

Definition PeekRecordKind (encoded : list byte) : StatusOr Z :=
  if (length encoded <? 2)%nat then
    Fail (Corruption "metadata" "truncated record")
  else Ok (byte_at encoded 1).

(** ** Record codecs, in the order of the code *)

Definition EncodeSequenceFormat (format : Z) : StatusOr (list byte) :=
  EncodeRecord kSequenceFormat (AppendU32 [] format).

Definition DecodeSequenceFormat (encoded : list byte) : StatusOr Z :=
  payload ← DecodeRecord kSequenceFormat encoded;
  let invalid := Corruption "sequence format"
                   "invalid sequence format marker record" in
  '(format, offset) ← from_option (ReadU32 payload 0) invalid;
  if negb (offset =? 4)%nat then Fail invalid else Ok format.

Definition EncodeSystemIdentity (i : SystemIdentity) : StatusOr (list byte) :=
  _ ← check (SystemIdentity_Validate i);
  let payload := AppendString [] (system i) in
  let payload := AppendU32 payload (system_format i) in
  let payload := AppendString payload (fact_key_format i) in
  let payload := AppendString payload (facts_table_format i) in
  let payload := AppendString payload (comparator_digest i) in
  EncodeRecord kSystemIdentity payload.

Definition DecodeSystemIdentity (encoded : list byte)
  : StatusOr SystemIdentity :=
  payload ← DecodeRecord kSystemIdentity encoded;
  let invalid := Corruption "system identity" "invalid identity record" in
  '(sys, offset) ← from_option (ReadString payload 0) invalid;
  '(format, offset) ← from_option (ReadU32 payload offset) invalid;
  '(key_format, offset) ← from_option (ReadString payload offset) invalid;
  '(table_format, offset) ← from_option (ReadString payload offset) invalid;
  '(digest, offset) ← from_option (ReadString payload offset) invalid;
  if negb (offset =? length payload)%nat then Fail invalid
  else validated "system identity" SystemIdentity_Validate
         (mkSystemIdentity sys format key_format table_format digest).

Definition EncodeWatermark (watermark : Z) : StatusOr (list byte) :=
  EncodeRecord kWatermark (AppendU64 [] watermark).

Definition DecodeWatermark (encoded : list byte) : StatusOr Z :=
  payload ← DecodeRecord kWatermark encoded;
  let invalid := Corruption "watermark" "invalid watermark record" in
  '(watermark, offset) ← from_option (ReadU64 payload 0) invalid;
  if negb (offset =? 8)%nat then Fail invalid else Ok watermark.

Definition EncodePropertyDefinition (d : PropertyDefinition)
  : StatusOr (list byte) :=
  _ ← check (PropertyDefinition_Validate d);
  let payload := AppendU16 [] (def_property_id d) in
  let payload := AppendU32 payload (def_schema_epoch d) in
  let payload := payload ++ [z2b (PropertyEntityKind_to_u8 (def_entity_kind d))]
  in
  let payload := payload ++ [z2b (PhysicalType_to_u8 (def_physical_type d))] in
  let payload := AppendU64 payload (def_blob_threshold_bytes d) in
  let payload := AppendU16 payload (wrap 16 (Z.of_nat (length (def_name d)))) in
  let payload := payload ++ def_name d in
  EncodeRecord kPropertyDefinition payload.

Definition DecodePropertyDefinition (encoded : list byte)
  : StatusOr PropertyDefinition :=
  bytes ← DecodeRecord kPropertyDefinition encoded;
  let truncated := Corruption "property definition" "truncated schema record" in
  let invalid := Corruption "property definition" "invalid schema record" in
  '(property_id, offset) ← from_option (ReadU16 bytes 0) truncated;
  '(schema_epoch, offset) ← from_option (ReadU32 bytes offset) truncated;
  if (length bytes <? offset + 2)%nat then Fail truncated
  else
    let entity_kind := byte_at bytes offset in
    let physical_type := byte_at bytes (S offset) in
    '(blob_threshold, offset) ←
       from_option (ReadU64 bytes (S (S offset))) invalid;
    '(name_length, offset) ← from_option (ReadU16 bytes offset) invalid;
    if negb (name_length =? Z.of_nat (length bytes - offset)) then Fail invalid
    else validated "property definition" PropertyDefinition_Validate
           (mkPropertyDefinition property_id schema_epoch (drop offset bytes)
              (PropertyEntityKind_of_u8 entity_kind)
              (PhysicalType_of_u8 physical_type) blob_threshold).

Definition EncodeEdgeIdentity (i : EdgeIdentity) : StatusOr (list byte) :=
  _ ← check (EdgeIdentity_Validate i);
  EncodeRecord kEdgeIdentityRecord (identity_bytes i).

Definition DecodeEdgeIdentity (encoded : list byte) : StatusOr EdgeIdentity :=
  bytes ← DecodeRecord kEdgeIdentityRecord encoded;
  let invalid := Corruption "edge identity" "invalid edge record" in
  '(identity, offset) ← from_option (read_identity bytes 0) invalid;
  if negb (offset =? length bytes)%nat then Fail invalid
  else validated "edge identity" EdgeIdentity_Validate identity.

Definition EncodeIdAllocatorState (s : IdAllocatorState)
  : StatusOr (list byte) :=
  _ ← check (IdAllocatorState_Validate s);
  EncodeRecord kIdAllocator
    (AppendU64 [z2b (IdKind_to_u8 (alloc_kind s))] (next_id s)).

Definition DecodeIdAllocatorState (encoded : list byte)
  : StatusOr IdAllocatorState :=
  bytes ← DecodeRecord kIdAllocator encoded;
  if negb (length bytes =? 9)%nat then
    Fail (Corruption "ID allocator" "invalid allocator record")
  else
    '(next, _) ← from_option (ReadU64 bytes 1)
                   (Corruption "ID allocator" "truncated allocator record");
    validated "ID allocator" IdAllocatorState_Validate
      (mkIdAllocatorState (IdKind_of_u8 (byte_at bytes 0)) next).

Definition EncodeTransactionOutcome (r : TransactionOutcomeRecord)
  : StatusOr (list byte) :=
  _ ← check (TransactionOutcomeRecord_Validate r);
  let payload := AppendU64 [] (outcome_txn_id r) in
  let payload := AppendU64 payload (outcome_commit_seq r) in
  let payload := payload ++ [z2b (TransactionOutcome_to_u8 (outcome r))] in
  EncodeRecord kTransactionOutcome payload.

Definition DecodeTransactionOutcome (encoded : list byte)
  : StatusOr TransactionOutcomeRecord :=
  bytes ← DecodeRecord kTransactionOutcome encoded;
  if negb (length bytes =? 17)%nat then
    Fail (Corruption "transaction outcome" "invalid outcome record")
  else
    let truncated := Corruption "transaction outcome" "truncated outcome record"
    in
    '(txn, offset) ← from_option (ReadU64 bytes 0) truncated;
    '(commit_seq, offset) ← from_option (ReadU64 bytes offset) truncated;
    validated "transaction outcome" TransactionOutcomeRecord_Validate
      (mkTransactionOutcomeRecord txn commit_seq
         (TransactionOutcome_of_u8 (byte_at bytes offset))).

Definition EncodeVacuumState (s : VacuumState) : StatusOr (list byte) :=
  _ ← check (VacuumState_Validate s);
  let payload := [z2b (VacuumPhase_to_u8 (vacuum_phase s))] in
  let payload := AppendU64 payload (vacuum_target s) in
  let payload :=
    AppendU32 payload (wrap 32 (Z.of_nat (length (vacuum_cursor s)))) in
  let payload := payload ++ vacuum_cursor s in
  EncodeRecord kVacuumState payload.

Definition DecodeVacuumState (encoded : list byte) : StatusOr VacuumState :=
  bytes ← DecodeRecord kVacuumState encoded;
  let invalid := Corruption "vacuum state" "invalid vacuum state record" in
  if (length bytes =? 0)%nat then Fail invalid
  else
    let phase := VacuumPhase_of_u8 (byte_at bytes 0) in
    '(target, offset) ← from_option (ReadU64 bytes 1) invalid;
    '(cursor_size, offset) ← from_option (ReadU32 bytes offset) invalid;
    if negb (cursor_size =? Z.of_nat (length bytes - offset)) then Fail invalid
    else validated "vacuum state" VacuumState_Validate
           (mkVacuumState target phase (drop offset bytes)).

(** ** Sequence records *)

Record SequenceV2Layout := mkSequenceV2Layout {
  layout_txn_id : Z;
  layout_system_hlc : Z;
  layout_fact_count : Z;
  facts_offset : nat
}.

Definition invalid_sequence : Status :=
  Corruption "sequence record" "invalid sequence record".

Definition ParseSequenceV2Payload (bytes : list byte)
  : StatusOr SequenceV2Layout :=
  if (length bytes <? kSequenceV2HeaderBytes)%nat then Fail invalid_sequence
  else if negb (byte_at bytes 0 =? kSequenceV2PayloadVersion) then
    Fail (Corruption "sequence record" "unsupported sequence payload version")
  else if negb (byte_at bytes 1 =? kFactKeyVersion) then
    Fail (Corruption "sequence record" "unsupported fact key version")
  else
    '(txn, offset) ← from_option (ReadU64 bytes 2) invalid_sequence;
    '(hlc, offset) ← from_option (ReadU64 bytes offset) invalid_sequence;
    '(fact_count, offset) ← from_option (ReadU32 bytes offset) invalid_sequence;
    if (fact_count =? 0)
       || (Z.of_nat (length bytes - offset) / Z.of_nat kSequenceV2FactBytes
           <? fact_count)
       || negb (Z.of_nat (length bytes - offset)
                =? fact_count * Z.of_nat kSequenceV2FactBytes)
    then Fail invalid_sequence
    else Ok (mkSequenceV2Layout txn hlc fact_count offset).

Record SequenceV2Fact := mkSequenceV2Fact {
  descriptor_ref : FactRef;
  descriptor_valid_from : Z
}.

Definition ReadSequenceV2Fact (bytes : list byte) (offset : nat)
  : StatusOr (SequenceV2Fact * nat) :=
  '(part_id, offset) ← from_option (ReadU32 bytes offset) invalid_sequence;
  if (length bytes <=? offset)%nat then Fail invalid_sequence
  else
    let family := byte_at bytes offset in
    '(property_id, offset) ←
       from_option (ReadU16 bytes (S offset)) invalid_sequence;
    '(entity_id, offset) ← from_option (ReadU64 bytes offset) invalid_sequence;
    '(valid_from_desc, offset) ←
       from_option (ReadU64 bytes offset) invalid_sequence;
    let ref := mkFactRef part_id (FactFamily_of_u8 family) property_id
                 entity_id in
    match FactRef_Validate ref with
    | StatusOK => Ok (mkSequenceV2Fact ref (bnot64 valid_from_desc), offset)
    | s => Fail (Corruption "sequence record" (ToString s))
    end.

Definition RebuildSequenceV2FactKey (bytes : list byte) (offset : nat)
    (commit_seq : Z) : StatusOr (list byte * nat) :=
  '(fact, offset) ← ReadSequenceV2Fact bytes offset;
  let key := EncodeFactKey (descriptor_ref fact) (descriptor_valid_from fact)
               commit_seq in
  if (length key =? 0)%nat then
    Fail (Corruption "sequence record" "invalid fact identity")
  else Ok (key, offset).

(** The loop of both decoders over the descriptors. *)
Fixpoint rebuild_keys (fact_count : nat) (bytes : list byte) (offset : nat)
    (commit_seq : Z) : StatusOr (list (list byte)) :=
  match fact_count with
  | O => Ok []
  | S fact_count' =>
      '(key, offset) ← RebuildSequenceV2FactKey bytes offset commit_seq;
      keys ← rebuild_keys fact_count' bytes offset commit_seq;
      Ok (key :: keys)
  end.

Definition missing_commit_seq : Status :=
  Corruption "sequence record"
    "v2 sequence record requires its commit sequence".

Definition DecodeSequenceRecordV2 (encoded : list byte) (commit_seq : Z)
  : StatusOr SequenceRecord :=
  if commit_seq =? 0 then Fail missing_commit_seq
  else
    bytes ← DecodeRecord kSequenceV2 encoded;
    header ← ParseSequenceV2Payload bytes;
    keys ← rebuild_keys (Z.to_nat (layout_fact_count header)) bytes
             (facts_offset header) commit_seq;
    validated "sequence record" SequenceRecord_Validate
      (mkSequenceRecord commit_seq (layout_txn_id header)
         (layout_system_hlc header) keys).

Definition DecodeSequenceRecordViewV2 (encoded : list byte) (commit_seq : Z)
  : StatusOr SequenceRecordView :=
  if commit_seq =? 0 then Fail missing_commit_seq
  else
    bytes ← DecodeRecordView kSequenceV2 encoded;
    header ← ParseSequenceV2Payload bytes;
    keys ← rebuild_keys (Z.to_nat (layout_fact_count header)) bytes
             (facts_offset header) commit_seq;
    Ok (mkSequenceRecordView commit_seq (layout_txn_id header)
          (layout_system_hlc header) (layout_fact_count header) (concat keys)).

Definition legacy_record : Status :=
  LegacyMetaSequenceFormatError
    "database contains a legacy v1 meta sequence record (on-disk kind 7)".

Definition DecodeSequenceRecord (encoded : list byte) (commit_seq : Z)
  : StatusOr SequenceRecord :=
  kind ← PeekRecordKind encoded;
  if kind =? MetaRecordKind_to_u8 kSequence then Fail legacy_record
  else DecodeSequenceRecordV2 encoded commit_seq.

Definition DecodeSequenceRecordView (encoded : list byte) (commit_seq : Z)
  : StatusOr SequenceRecordView :=
  kind ← PeekRecordKind encoded;
  if kind =? MetaRecordKind_to_u8 kSequence then Fail legacy_record
  else DecodeSequenceRecordViewV2 encoded commit_seq.

(** One turn of the encoder's loop: the descriptor of a fact key. *)
Definition sequence_descriptor (commit_seq : Z) (key : list byte)
  : StatusOr (list byte) :=
  fact ← DecodeFactKey key;
  let ref := key_ref fact in
  if negb (bool_decide
             (EncodeFactKey ref (key_valid_from fact) commit_seq = key)) then
    Fail (InvalidArgument "sequence record"
            "fact key is not representable in meta sequence v2")
  else
    let out := AppendU32 [] (ref_part_id ref) in
    let out := out ++ [z2b (FactFamily_to_u8 (ref_family ref))] in
    let out := AppendU16 out (ref_property_id ref) in
    let out := AppendU64 out (ref_entity_id ref) in
    Ok (AppendU64 out (bnot64 (key_valid_from fact))).

Definition EncodeSequenceRecordV2 (r : SequenceRecord)
  : StatusOr (list byte) :=
  _ ← check (SequenceRecord_Validate r);
  let payload := [z2b kSequenceV2PayloadVersion; z2b kFactKeyVersion] in
  let payload := AppendU64 payload (seq_txn_id r) in
  let payload := AppendU64 payload (seq_system_hlc r) in
  let payload :=
    AppendU32 payload (wrap 32 (Z.of_nat (length (fact_keys r)))) in
  descriptors ← mapM_status (sequence_descriptor (seq_commit_seq r))
                  (fact_keys r);
  EncodeRecord kSequenceV2 (payload ++ concat descriptors).

(** The keys that a view's buffer is cut into by [identities.substr]. *)
Fixpoint view_keys (fact_count : nat) (identities : list byte)
  : list (list byte) :=
  match fact_count with
  | O => []
  | S fact_count' =>
      take kEncodedFactKeyBytes identities
        :: view_keys fact_count' (drop kEncodedFactKeyBytes identities)
  end.

Definition SequenceRecordView_Validate (v : SequenceRecordView) : Status :=
  if (view_commit_seq v =? 0) || (view_txn_id v =? 0)
     || (view_fact_count v =? 0)
     || negb (Z.of_nat (length (view_identities v))
              =? view_fact_count v * Z.of_nat kEncodedFactKeyBytes)
  then InvalidArgument "sequence record" "invalid sequence metadata"
  else sequence_keys_check (view_commit_seq v) ∅
         (view_keys (Z.to_nat (view_fact_count v)) (view_identities v)).

(** ** Specification *)

Definition definition_typed (d : PropertyDefinition) : Prop :=
  uint 16 (def_property_id d) /\ uint 32 (def_schema_epoch d) /\
  uint 64 (def_blob_threshold_bytes d) /\
  PhysicalType_of_u8 (PhysicalType_to_u8 (def_physical_type d))
  = def_physical_type d.

Definition allocator_typed (s : IdAllocatorState) : Prop := uint 64 (next_id s).

Definition outcome_typed (r : TransactionOutcomeRecord) : Prop :=
  uint 64 (outcome_txn_id r) /\ uint 64 (outcome_commit_seq r).

Definition vacuum_typed (s : VacuumState) : Prop := uint 64 (vacuum_target s).

Definition system_typed (i : SystemIdentity) : Prop := uint 32 (system_format i).

Definition sequence_typed (r : SequenceRecord) : Prop :=
  uint 64 (seq_txn_id r) /\ uint 64 (seq_system_hlc r).

(** The record that a view stands for. *)
Definition record_of (v : SequenceRecordView) : SequenceRecord :=
  mkSequenceRecord (view_commit_seq v) (view_txn_id v) (view_system_hlc v)
    (view_keys (Z.to_nat (view_fact_count v)) (view_identities v)).

(** A fact key written under a commit sequence, and its descriptor. *)
Definition seq_key (commit_seq : Z) (key : list byte) : Prop :=
  exists r vf, key_ok r vf commit_seq /\ key = EncodeFactKey r vf commit_seq.

Definition descriptor_bytes (f : FactRef * Z) : list byte :=
  be_bytes 4 (ref_part_id f.1) ++ z2b (FactFamily_to_u8 (ref_family f.1)) ::
  be_bytes 2 (ref_property_id f.1) ++ be_bytes 8 (ref_entity_id f.1) ++
  be_bytes 8 (bnot64 f.2).

Definition fact_key (commit_seq : Z) (f : FactRef * Z) : list byte :=
  EncodeFactKey f.1 f.2 commit_seq.

Definition fact_ok (commit_seq : Z) (f : FactRef * Z) : Prop :=
  key_ok f.1 f.2 commit_seq.

(** The payload of a sequence record. *)
Definition sequence_payload (txn hlc : Z) (facts : list (FactRef * Z))
  : list byte :=
  z2b kSequenceV2PayloadVersion :: z2b kFactKeyVersion :: be_bytes 8 txn ++
  be_bytes 8 hlc ++ be_bytes 4 (Z.of_nat (length facts)) ++
  concat (descriptor_bytes <$> facts).

(** What both decoders do before they build their result. *)
Definition decode_core (encoded : list byte) (commit_seq : Z)
  : StatusOr (SequenceV2Layout * list (list byte)) :=
  bytes ← DecodeRecordView kSequenceV2 encoded;
  header ← ParseSequenceV2Payload bytes;
  keys ← rebuild_keys (Z.to_nat (layout_fact_count header)) bytes
           (facts_offset header) commit_seq;
  Ok (header, keys).

(** All keys of the metadata column family. *)
Inductive meta_key :=
| CurrentFormatKey
| SchemaKey (property_id schema_epoch : Z)
| EdgeKey (edge : EdgeRef)
| AllocatorKey (kind : IdKind)
| TransactionKey (txn : Z)
| SequenceKey (commit_seq : Z)
| VisibleWatermarkKey
| OldestReadableKey
| SequenceRetentionKey
| VacuumStateKey
| SequenceFormatKey.

Definition encode_meta_key (k : meta_key) : StatusOr (list byte) :=
  match k with
  | CurrentFormatKey => Ok EncodeCurrentFormatKey
  | SchemaKey p e => EncodeSchemaMetaKey p e
  | EdgeKey e => EncodeEdgeIdentityMetaKey e
  | AllocatorKey k => Ok (EncodeAllocatorMetaKey k)
  | TransactionKey t => EncodeTransactionMetaKey t
  | SequenceKey s => EncodeSequenceMetaKey s
  | VisibleWatermarkKey => Ok EncodeVisibleWatermarkKey
  | OldestReadableKey => Ok EncodeOldestReadableWatermarkKey
  | SequenceRetentionKey => Ok EncodeSequenceRetentionWatermarkKey
  | VacuumStateKey => Ok EncodeVacuumStateKey
  | SequenceFormatKey => Ok EncodeSequenceFormatKey
  end.

Definition meta_key_typed (k : meta_key) : Prop :=
  match k with
  | SchemaKey p e => uint 16 p /\ uint 32 e
  | EdgeKey e => uint 32 (edge_home_part_id e) /\ uint 64 (edge_ref_id e)
  | AllocatorKey k => IsKnownIdKind k = true
  | TransactionKey t => uint 64 t
  | SequenceKey s => uint 64 s
  | _ => True
  end.

(** Concrete records. *)
Definition sample_sequence : SequenceRecord :=
  mkSequenceRecord 9 4 100
    [EncodeFactKey (mkFactRef 1 kVertexProperty 2 3) 5 9;
     EncodeFactKey (mkFactRef 1 kVertexState 0 3) 6 9].

Definition or_empty (m : StatusOr (list byte)) : list byte :=
  match m with Ok bytes => bytes | Fail _ => [] end.

Definition sample_sequence_bytes : list byte :=
  or_empty (EncodeSequenceRecordV2 sample_sequence).

Definition sample_format_tail : list byte :=
  drop 10 (or_empty (EncodeSequenceFormat 2)).

Definition sample_long_watermark : list byte :=
  or_empty (EncodeRecord kWatermark (be_bytes 8 5 ++ [z2b 7])).

Definition identity_strings (i : SystemIdentity) : Prop :=
  system i = literal "cedar.authoritative-columnar" /\ system_format i = 1 /\
  fact_key_format i = literal "part32.fact.v2" /\
  facts_table_format i = literal "cedar.parquet.facts.v3" /\
  comparator_digest i = literal "cedar.v2.internal-key.bytewise.v1".

(** ** Framing *)

#[export] Instance Wire_string :
  Wire ReadString (fun s => be_bytes 2 (Z.of_nat (length s)) ++ s)
    (fun s => uint 16 (Z.of_nat (length s))).
Proof.
  split.
  - intros input offset s rest Hs H. unfold ReadString.
    rewrite <- app_assoc in H. wire_step.
    autorewrite with cedar_len in *.
    pose proof (suffix_at_length _ _ _ H) as Hl. autorewrite with cedar_len in Hl.
    rewrite (proj2 (Z.ltb_ge _ _)) by lia.
    rewrite Nat2Z.id, (suffix_at_take _ _ _ _ H). do 2 f_equal. lia.
  - intros input offset s offset' Hle H. unfold ReadString in H. repeat wire_inv.
    destruct (Z.ltb_spec (Z.of_nat (length input - n)) z); [done|].
    injection H as <- <-. unfold uint in Hwf.
    autorewrite with cedar_len.
    replace (Z.to_nat z `min` (length input - n))%nat with (Z.to_nat z) by lia.
    rewrite Z2Nat.id by lia. split; [done|]. split_and!; [lia|lia|].
    rewrite Hdrop, <- app_assoc. f_equal. rewrite <- drop_drop.
    by rewrite take_drop.
Qed.

Lemma MetaRecordKind_u8 k : uint 8 (MetaRecordKind_to_u8 k).
Proof. unfold uint. destruct k; simpl; lia. Qed.

#[export] Instance RecordView_frame kind :
  Frame (EncodeRecord kind) (DecodeRecordView kind).
Proof. apply frame_instance; [done|apply MetaRecordKind_u8|done]. Qed.

#[export] Instance Record_frame kind :
  Frame (EncodeRecord kind) (DecodeRecord kind).
Proof.
  split; [|apply frame_checksummed]. intros bytes payload. unfold DecodeRecord.
  rewrite <- frame_spec. by destruct (DecodeRecordView kind bytes).
Qed.

Ltac string_apps := unfold AppendString; codec_apps.

#[export] Instance SequenceFormat_codec :
  RecordCodec EncodeSequenceFormat DecodeSequenceFormat (uint 32).
Proof.
  apply (framed_codec (EncodeRecord kSequenceFormat) (DecodeRecord kSequenceFormat) (fun _ => StatusOK) (AppendU32 [])).
  - intros f Hf _. unfold AppendU32. rewrite app_nil_l.
    pose proof (suffix_at_0 (be_bytes 4 f)) as Hs. by wire_step.
  - intros p f H. inv_ok. wire_inv. subst n. cbn [negb Nat.eqb Nat.add] in H.
    by inv_ok; subst.
Qed.

#[export] Instance Watermark_codec :
  RecordCodec EncodeWatermark DecodeWatermark (uint 64).
Proof.
  apply (framed_codec (EncodeRecord kWatermark) (DecodeRecord kWatermark) (fun _ => StatusOK) (AppendU64 [])).
  - intros f Hf _. unfold AppendU64. rewrite app_nil_l.
    pose proof (suffix_at_0 (be_bytes 8 f)) as Hs. by wire_step.
  - intros p f H. inv_ok. wire_inv. subst n. cbn [negb Nat.eqb Nat.add] in H.
    by inv_ok; subst.
Qed.

Lemma IdKind_to_of z : IdKind_to_u8 (IdKind_of_u8 z) = z.
Proof. unfold IdKind_of_u8. repeat case_match; simpl; lia. Qed.

Lemma IdKind_of_to k : IsKnownIdKind k = true -> IdKind_of_u8 (IdKind_to_u8 k) = k.
Proof. by destruct k. Qed.

Lemma VacuumPhase_to_of z : VacuumPhase_to_u8 (VacuumPhase_of_u8 z) = z.
Proof. unfold VacuumPhase_of_u8. repeat case_match; simpl; lia. Qed.

Lemma VacuumPhase_of_to p :
  IsKnownPhase p = true -> VacuumPhase_of_u8 (VacuumPhase_to_u8 p) = p.
Proof. by destruct p. Qed.

Lemma PropertyEntityKind_to_of z :
  PropertyEntityKind_to_u8 (PropertyEntityKind_of_u8 z) = z.
Proof. unfold PropertyEntityKind_of_u8. repeat case_match; simpl; lia. Qed.

Lemma PropertyEntityKind_of_to k :
  IsKnownEntityKind k = true ->
  PropertyEntityKind_of_u8 (PropertyEntityKind_to_u8 k) = k.
Proof. by destruct k. Qed.

Lemma TransactionOutcome_to_of z :
  TransactionOutcome_to_u8 (TransactionOutcome_of_u8 z) = z.
Proof. unfold TransactionOutcome_of_u8. repeat case_match; simpl; lia. Qed.

#[export] Instance IdAllocatorState_codec :
  RecordCodec EncodeIdAllocatorState DecodeIdAllocatorState allocator_typed.
Proof.
  apply (framed_codec (EncodeRecord kIdAllocator) (DecodeRecord kIdAllocator) IdAllocatorState_Validate
    (fun s => AppendU64 [z2b (IdKind_to_u8 (alloc_kind s))] (next_id s)));
    unfold allocator_typed.
  - intros s Ht Hv. set (bytes := AppendU64 _ _). codec_open bytes Hs Hl.
    rewrite Hl. cbn [Nat.add Nat.eqb negb]. repeat wire_step. apply validated_Ok.
    unfold IdAllocatorState_Validate in *. destruct s as [[] n]; simpl in *;
      rewrite ?b2z_z2b_uint, ?orb_true_r in * by done; done.
  - intros p s H. destruct (Nat.eqb_spec (length p) 9); [|done].
    cbn [negb] in H. inv_ok. wire_inv. by apply validated_Ok in H as [-> _].
Qed.

#[export] Instance IdAllocatorState_canonical :
  CanonicalCodec EncodeIdAllocatorState DecodeIdAllocatorState.
Proof.
  apply (framed_canonical (EncodeRecord kIdAllocator) (DecodeRecord kIdAllocator) IdAllocatorState_Validate
    (fun s => AppendU64 [z2b (IdKind_to_u8 (alloc_kind s))] (next_id s))).
  intros p s H. destruct (Nat.eqb_spec (length p) 9); [|done]. cbn [negb] in H.
  inv_ok. wire_inv. apply validated_Ok in H as [-> Hv]. split; [done|].
  simpl. codec_apps. rewrite IdKind_to_of.
  rewrite <- (drop_0 p) at 1. rewrite drop_byte_at by lia. wire_subst.
  rewrite drop_ge by lia. by rewrite app_nil_r.
Qed.

#[export] Instance TransactionOutcome_codec :
  RecordCodec EncodeTransactionOutcome DecodeTransactionOutcome outcome_typed.
Proof.
  apply (framed_codec (EncodeRecord kTransactionOutcome) (DecodeRecord kTransactionOutcome) TransactionOutcomeRecord_Validate
    (fun r => AppendU64 (AppendU64 [] (outcome_txn_id r)) (outcome_commit_seq r)
              ++ [z2b (TransactionOutcome_to_u8 (outcome r))]));
    unfold outcome_typed.
  - intros r [? ?] Hv. set (bytes := _ ++ _). codec_open bytes Hs Hl.
    rewrite Hl. cbn [Nat.add Nat.eqb negb]. repeat wire_step. apply validated_Ok.
    unfold TransactionOutcomeRecord_Validate in *.
    destruct r as [t c []]; simpl in *;
      rewrite ?b2z_z2b_uint, ?orb_true_r in * by done; done.
  - intros p r H. destruct (Nat.eqb_spec (length p) 17); [|done].
    cbn [negb] in H. inv_ok. repeat wire_inv.
    by apply validated_Ok in H as [-> _].
Qed.

#[export] Instance TransactionOutcome_canonical :
  CanonicalCodec EncodeTransactionOutcome DecodeTransactionOutcome.
Proof.
  apply (framed_canonical (EncodeRecord kTransactionOutcome) (DecodeRecord kTransactionOutcome) TransactionOutcomeRecord_Validate
    (fun r => AppendU64 (AppendU64 [] (outcome_txn_id r)) (outcome_commit_seq r)
              ++ [z2b (TransactionOutcome_to_u8 (outcome r))])).
  intros p r H. destruct (Nat.eqb_spec (length p) 17); [|done].
  cbn [negb] in H. inv_ok. repeat wire_inv.
  apply validated_Ok in H as [-> Hv]. split; [done|].
  simpl. codec_apps. rewrite TransactionOutcome_to_of.
  rewrite <- (drop_0 p) at 1. wire_subst. rewrite drop_byte_at by lia.
  by rewrite drop_ge by lia.
Qed.

#[export] Instance EdgeIdentity_codec :
  RecordCodec EncodeEdgeIdentity DecodeEdgeIdentity identity_typed.
Proof.
  apply (framed_codec (EncodeRecord kEdgeIdentityRecord) (DecodeRecord kEdgeIdentityRecord) EdgeIdentity_Validate identity_bytes).
  - intros i Ht Hv. pose proof (suffix_at_0 (identity_bytes i)) as Hs. wire_step.
    rewrite length_identity_bytes. cbn [Nat.add Nat.eqb negb].
    by apply validated_Ok.
  - intros p i H. inv_ok. wire_inv. destruct (negb _); [done|].
    by apply validated_Ok in H as [-> _].
Qed.

#[export] Instance EdgeIdentity_canonical :
  CanonicalCodec EncodeEdgeIdentity DecodeEdgeIdentity.
Proof.
  apply (framed_canonical (EncodeRecord kEdgeIdentityRecord) (DecodeRecord kEdgeIdentityRecord) EdgeIdentity_Validate
           identity_bytes).
  intros p i H. inv_ok. wire_inv.
  destruct (Nat.eqb_spec n (length p)) as [->|]; [|done].
  apply validated_Ok in H as [-> ?]. split; [done|].
  by rewrite drop_0, (drop_ge p), app_nil_r in Hdrop by done.
Qed.

Lemma VacuumState_cursor s :
  VacuumState_Validate s = StatusOK ->
  IsKnownPhase (vacuum_phase s) = true /\
  (length (vacuum_cursor s) <= kEncodedFactKeyBytes)%nat.
Proof.
  unfold VacuumState_Validate. destruct (_ || _) eqn:E; [done|]. intros _.
  apply orb_false_iff in E as [[_ ?]%orb_false_iff E]. split.
  - by apply negb_false_iff.
  - apply andb_false_iff in E as [?|?]; bool_to_prop;
      unfold kEncodedFactKeyBytes in *; lia.
Qed.

#[export] Instance VacuumState_codec :
  RecordCodec EncodeVacuumState DecodeVacuumState vacuum_typed.
Proof.
  apply (framed_codec (EncodeRecord kVacuumState) (DecodeRecord kVacuumState) VacuumState_Validate
    (fun s => AppendU32 (AppendU64 [z2b (VacuumPhase_to_u8 (vacuum_phase s))]
                           (vacuum_target s))
                (wrap 32 (Z.of_nat (length (vacuum_cursor s))))
              ++ vacuum_cursor s)); unfold vacuum_typed.
  - intros s Ht Hv. pose proof (VacuumState_cursor _ Hv) as [Hk Hc].
    set (bytes := _ ++ _). codec_open bytes Hs Hl. rewrite Hl.
    cbn [Nat.add Nat.eqb]. unfold kEncodedFactKeyBytes in Hc.
    assert (uint 32 (Z.of_nat (length (vacuum_cursor s))))
      by (unfold uint; lia).
    rewrite uint_wrap in Hs by done.
    repeat wire_step. autorewrite with cedar_len in *.
    rewrite (proj2 (Z.eqb_eq _ _)) by lia. cbn [negb].
    destruct Hs as [_ ->]. apply validated_Ok.
    destruct s as [t [] c]; simpl in *; rewrite b2z_z2b_uint by done; done.
  - intros p s H. destruct (Nat.eqb_spec (length p) 0); [done|].
    cbv zeta in H. inv_ok.
    repeat wire_inv. destruct (negb _); [done|].
    by apply validated_Ok in H as [-> _].
Qed.

#[export] Instance VacuumState_canonical :
  CanonicalCodec EncodeVacuumState DecodeVacuumState.
Proof.
  apply (framed_canonical (EncodeRecord kVacuumState) (DecodeRecord kVacuumState) VacuumState_Validate
    (fun s => AppendU32 (AppendU64 [z2b (VacuumPhase_to_u8 (vacuum_phase s))]
                           (vacuum_target s))
                (wrap 32 (Z.of_nat (length (vacuum_cursor s))))
              ++ vacuum_cursor s)).
  intros p s H. destruct (Nat.eqb_spec (length p) 0); [done|].
    cbv zeta in H. inv_ok.
  repeat wire_inv. destruct (negb _) eqn:Hz in H; [done|]. bool_to_prop.
  apply validated_Ok in H as [-> ?]. split; [done|].
  simpl. codec_apps. rewrite VacuumPhase_to_of. autorewrite with cedar_len.
  rewrite uint_wrap by congruence.
  rewrite <- (drop_0 p) at 1. rewrite drop_byte_at by lia. wire_subst.
  congruence.
Qed.

Lemma PropertyDefinition_fields d :
  PropertyDefinition_Validate d = StatusOK ->
  IsKnownEntityKind (def_entity_kind d) = true /\
  IsPhysicalType (PhysicalType_to_u8 (def_physical_type d)) = true /\
  Z.of_nat (length (def_name d)) <= kMaxPropertyNameBytes.
Proof.
  unfold PropertyDefinition_Validate. destruct (_ || _) eqn:E; [done|].
  intros _. by bool_to_prop.
Qed.

Lemma PhysicalType_of_to_known t :
  IsPhysicalType (PhysicalType_to_u8 t) = true ->
  b2z (z2b (PhysicalType_to_u8 t)) = PhysicalType_to_u8 t.
Proof.
  unfold IsPhysicalType. intros H. bool_to_prop. apply b2z_z2b_uint.
  unfold uint. lia.
Qed.

#[export] Instance PropertyDefinition_codec :
  RecordCodec EncodePropertyDefinition DecodePropertyDefinition definition_typed.
Proof.
  apply (framed_codec (EncodeRecord kPropertyDefinition) (DecodeRecord kPropertyDefinition) PropertyDefinition_Validate
    (fun d => AppendU16 (AppendU64
       ((AppendU32 (AppendU16 [] (def_property_id d)) (def_schema_epoch d)
         ++ [z2b (PropertyEntityKind_to_u8 (def_entity_kind d))])
        ++ [z2b (PhysicalType_to_u8 (def_physical_type d))])
       (def_blob_threshold_bytes d)) (wrap 16 (Z.of_nat (length (def_name d))))
       ++ def_name d)); unfold definition_typed.
  - intros d (? & ? & ? & Hpt) Hv.
    pose proof (PropertyDefinition_fields _ Hv) as (Hk & Hp & Hn).
    set (bytes := _ ++ def_name d). codec_open bytes Hs Hl.
    unfold kMaxPropertyNameBytes in Hn.
    assert (uint 16 (Z.of_nat (length (def_name d)))) by (unfold uint; lia).
    rewrite uint_wrap in Hs by done.
    repeat wire_step. autorewrite with cedar_len in *.
    rewrite (proj2 (Nat.ltb_ge _ _)) by lia.
    repeat wire_step. autorewrite with cedar_len in *.
    rewrite (proj2 (Z.eqb_eq _ _)) by lia. cbn [negb].
    destruct Hs as [_ ->]. rewrite PhysicalType_of_to_known, Hpt by done.
    apply validated_Ok.
    destruct d as [p e n [] t b]; simpl in *; rewrite b2z_z2b_uint by done; done.
  - intros p s H. inv_ok. repeat wire_inv.
    destruct (Nat.ltb_spec (length p) (n0 + 2)); [done|]. cbv zeta in H.
    inv_ok. repeat wire_inv.
    destruct (negb _); [done|]. apply validated_Ok in H as [-> _]. simpl.
    by rewrite PhysicalType_to_of.
Qed.

#[export] Instance PropertyDefinition_canonical :
  CanonicalCodec EncodePropertyDefinition DecodePropertyDefinition.
Proof.
  apply (framed_canonical (EncodeRecord kPropertyDefinition) (DecodeRecord kPropertyDefinition) PropertyDefinition_Validate
    (fun d => AppendU16 (AppendU64
       ((AppendU32 (AppendU16 [] (def_property_id d)) (def_schema_epoch d)
         ++ [z2b (PropertyEntityKind_to_u8 (def_entity_kind d))])
        ++ [z2b (PhysicalType_to_u8 (def_physical_type d))])
       (def_blob_threshold_bytes d)) (wrap 16 (Z.of_nat (length (def_name d))))
       ++ def_name d)).
  intros p s H. inv_ok. repeat wire_inv.
  destruct (Nat.ltb_spec (length p) (n0 + 2)); [done|]. cbv zeta in H.
    inv_ok. repeat wire_inv.
  destruct (negb _) eqn:Hz in H; [done|]. bool_to_prop.
  apply validated_Ok in H as [-> ?]. split; [done|].
  simpl. codec_apps. rewrite PropertyEntityKind_to_of, PhysicalType_to_of.
  autorewrite with cedar_len. rewrite uint_wrap by congruence.
  rewrite <- (drop_0 p) at 1. wire_subst.
  rewrite (drop_byte_at p n0), (drop_byte_at p (S n0)) by lia.
  wire_subst. cbn [app]. congruence.
Qed.

Lemma SystemIdentity_Validate_OK i :
  SystemIdentity_Validate i = StatusOK <-> identity_strings i.
Proof.
  unfold SystemIdentity_Validate, identity_strings.
  destruct (_ || _) eqn:E.
  - split; [done|]. intros (E1 & E2 & E3 & E4 & E5).
    rewrite !bool_decide_true, E2 in E by done. done.
  - split; [intros _; by bool_to_prop|done].
Qed.

#[export] Instance SystemIdentity_codec :
  RecordCodec EncodeSystemIdentity DecodeSystemIdentity system_typed.
Proof.
  apply (framed_codec (EncodeRecord kSystemIdentity) (DecodeRecord kSystemIdentity) SystemIdentity_Validate
    (fun i => AppendString (AppendString (AppendString (AppendU32
       (AppendString [] (system i)) (system_format i)) (fact_key_format i))
       (facts_table_format i)) (comparator_digest i))); unfold system_typed.
  - intros i Ht Hv.
    pose proof (proj1 (SystemIdentity_Validate_OK i) Hv) as (E1 & E2 & E3 & E4 & E5).
    destruct i as [s f k t c]; simpl in *. subst. vm_compute. done.
  - intros p s H. inv_ok. repeat wire_inv. destruct (negb _); [done|].
    by apply validated_Ok in H as [-> _].
Qed.

#[export] Instance SystemIdentity_canonical :
  CanonicalCodec EncodeSystemIdentity DecodeSystemIdentity.
Proof.
  apply (framed_canonical (EncodeRecord kSystemIdentity) (DecodeRecord kSystemIdentity) SystemIdentity_Validate
    (fun i => AppendString (AppendString (AppendString (AppendU32
       (AppendString [] (system i)) (system_format i)) (fact_key_format i))
       (facts_table_format i)) (comparator_digest i))).
  intros p s H. inv_ok. repeat wire_inv.
  destruct (negb _) eqn:Hz in H; [done|]. bool_to_prop.
  apply validated_Ok in H as [-> ?]. split; [done|].
  simpl. string_apps. rewrite !uint_wrap by done.
  rewrite <- (drop_0 p) at 1. wire_subst. rewrite (drop_ge p) by lia.
  by rewrite app_nil_r.
Qed.

(** ** Sequence records *)

Lemma length_descriptor_bytes f : length (descriptor_bytes f) = 23%nat.
Proof. unfold descriptor_bytes. by autorewrite with cedar_len. Qed.

#[export] Hint Rewrite length_descriptor_bytes : cedar_len.

Lemma length_descriptors facts :
  length (concat (descriptor_bytes <$> facts)) = (23 * length facts)%nat.
Proof.
  induction facts as [|f facts IH]; [done|]. cbn [fmap list_fmap concat].
  autorewrite with cedar_len. change (map descriptor_bytes facts) with (descriptor_bytes <$> facts). lia.
Qed.

Lemma sequence_keys_check_OK cs seen keys :
  sequence_keys_check cs seen keys = StatusOK <->
  Forall (seq_key cs) keys /\ NoDup keys /\ Forall (fun k => k ∉ seen) keys.
Proof.
  revert seen. induction keys as [|k keys IH]; intros seen.
  - split; [intros _|done]. split_and!; constructor.
  - cbn [sequence_keys_check]. unfold sequence_key_check.
    rewrite !Forall_cons, NoDup_cons.
    destruct (DecodeFactKey k) as [[r vf cs']|] eqn:E.
    2: { split; [done|]. intros ((Hk & _) & _). destruct Hk as (? & ? & ? & ->).
         by rewrite DecodeFactKey_Encode in E. }
    apply DecodeFactKey_Ok in E as [Hok Hk]. simpl in *.
    destruct (Z.eqb_spec cs' cs) as [->|Hne]; simpl.
    2: { split; [done|]. intros ((Hk' & _) & _).
         destruct Hk' as (r' & vf' & Hok' & Hk').
         apply DecodeFactKey_Encode in Hok, Hok'. congruence. }
    destruct (decide (k ∈ seen)).
    { rewrite bool_decide_true by done. split; [done|]. tauto. }
    rewrite bool_decide_false by done. rewrite IH.
    assert (seq_key cs k) by (exists r, vf; done).
    rewrite !Forall_forall. set_solver.
Qed.

Lemma sequence_descriptor_key cs f :
  fact_ok cs f ->
  sequence_descriptor cs (fact_key cs f) = Ok (descriptor_bytes f).
Proof.
  destruct f as [r vf]. unfold fact_ok, fact_key. simpl. intros Hok.
  unfold sequence_descriptor. rewrite DecodeFactKey_Encode by done.
  cbn [mbind StatusOr_bind key_ref key_valid_from].
  rewrite bool_decide_true by done. cbn [negb]. unfold descriptor_bytes.
  codec_apps. done.
Qed.

Lemma RebuildSequenceV2FactKey_at bytes offset cs f rest :
  fact_ok cs f -> suffix_at bytes offset (descriptor_bytes f ++ rest) ->
  RebuildSequenceV2FactKey bytes offset cs
  = Ok (fact_key cs f, (offset + 23)%nat).
Proof.
  destruct f as [r vf]. unfold fact_ok, fact_key. simpl.
  intros ((? & ? & ? & ?) & Hv & ? & ? & ?) Hs.
  unfold descriptor_bytes in Hs. simpl in Hs.
  pose proof (suffix_at_length _ _ _ Hs) as Hl. autorewrite with cedar_len in Hl.
  assert (uint 64 (bnot64 vf)) by apply bnot64_uint.
  unfold RebuildSequenceV2FactKey, ReadSequenceV2Fact.
  repeat wire_step. autorewrite with cedar_len in *.
  rewrite (proj2 (Nat.leb_gt _ _)) by lia. repeat wire_step.
  rewrite b2z_z2b_uint, FactFamily_of_to, bnot64_involutive by
    (done || by apply FactRef_Validate_OK in Hv as [? _]).
  destruct r as [p fa pr en]; simpl in *. rewrite Hv.
  cbn [mbind StatusOr_bind descriptor_ref descriptor_valid_from].
  rewrite length_EncodeFactKey by done. cbn [kEncodedFactKeyBytes Nat.eqb].
  do 2 f_equal. autorewrite with cedar_len. lia.
Qed.

Lemma ReadSequenceV2Fact_Ok bytes offset fact offset' :
  (offset <= length bytes)%nat ->
  ReadSequenceV2Fact bytes offset = Ok (fact, offset') ->
  ref_typed (descriptor_ref fact) /\
  FactRef_Validate (descriptor_ref fact) = StatusOK /\
  uint 64 (descriptor_valid_from fact) /\ offset' = (offset + 23)%nat /\
  (offset' <= length bytes)%nat /\
  drop offset bytes
  = descriptor_bytes (descriptor_ref fact, descriptor_valid_from fact)
    ++ drop offset' bytes.
Proof.
  intros Hle H. unfold ReadSequenceV2Fact in H.
  apply bind_Ok in H as ([p o1] & H1 & H).
  destruct (Nat.leb_spec (length bytes) o1); [done|]. inv_ok.
  repeat wire_inv. destruct (FactRef_Validate _) eqn:Hv; [|done].
  apply Ok_inj, pair_eq in H as [<- <-]. simpl. split.
  { unfold ref_typed. simpl. rewrite FactFamily_to_of. auto with cedar. }
  split; [done|]. split; [apply bnot64_uint|]. split; [lia|]. split; [lia|].
  unfold descriptor_bytes. simpl. rewrite FactFamily_to_of.
  rewrite bnot64_involutive by done. wire_subst.
  rewrite (drop_byte_at bytes o1) by lia. wire_subst. cbn [app].
  by rewrite <- !app_assoc.
Qed.

Lemma RebuildSequenceV2FactKey_Ok bytes offset cs key offset' :
  uint 64 cs -> cs <> 0 -> (offset <= length bytes)%nat ->
  RebuildSequenceV2FactKey bytes offset cs = Ok (key, offset') ->
  exists f, fact_ok cs f /\ key = fact_key cs f /\
    offset' = (offset + 23)%nat /\ (offset' <= length bytes)%nat /\
    drop offset bytes = descriptor_bytes f ++ drop offset' bytes.
Proof.
  intros Hcs Hnz Hle H. unfold RebuildSequenceV2FactKey in H. inv_ok.
  case_match; [done|].
  apply Ok_inj, pair_eq in H as [<- <-].
  apply ReadSequenceV2Fact_Ok in H0 as (? & ? & ? & ? & ? & ?); [|done].
  eexists (_, _). unfold fact_ok, key_ok, fact_key. simpl. split_and!; done.
Qed.

Lemma rebuild_keys_at bytes offset cs facts rest :
  Forall (fact_ok cs) facts ->
  suffix_at bytes offset (concat (descriptor_bytes <$> facts) ++ rest) ->
  rebuild_keys (length facts) bytes offset cs = Ok (fact_key cs <$> facts).
Proof.
  intros Hf. revert offset. induction Hf as [|f facts Hok _ IH]; intros offset Hs.
  - done.
  - cbn [fmap list_fmap concat length rebuild_keys] in *.
    rewrite <- app_assoc in Hs.
    rewrite (RebuildSequenceV2FactKey_at _ _ _ _ _ Hok Hs).
    apply suffix_at_skip in Hs. rewrite length_descriptor_bytes in Hs.
    cbn [mbind StatusOr_bind]. by rewrite (IH _ Hs).
Qed.

Lemma rebuild_keys_Ok n bytes offset cs keys :
  uint 64 cs -> cs <> 0 -> (offset <= length bytes)%nat ->
  rebuild_keys n bytes offset cs = Ok keys ->
  exists facts, length facts = n /\ Forall (fact_ok cs) facts /\
    keys = fact_key cs <$> facts /\
    drop offset bytes = concat (descriptor_bytes <$> facts)
                        ++ drop (offset + 23 * n) bytes.
Proof.
  intros Hcs Hnz. revert offset keys. induction n as [|n IH]; intros offset keys Hle H.
  - cbn in H. inv_ok. subst. exists []. split_and!; try done.
    by rewrite Nat.mul_0_r, Nat.add_0_r.
  - cbn [rebuild_keys] in H. inv_ok. subst.
    apply RebuildSequenceV2FactKey_Ok in H0 as (f & ? & -> & -> & ? & Hd); try done.
    apply IH in H1 as (facts & <- & ? & -> & Hd'); [|done].
    exists (f :: facts). cbn [fmap list_fmap concat length]. split_and!; try done.
    + by constructor.
    + rewrite Hd, Hd', <- app_assoc. do 3 f_equal. lia.
Qed.

Lemma ParseSequenceV2Payload_payload txn hlc facts :
  uint 64 txn -> uint 64 hlc -> uint 32 (Z.of_nat (length facts)) ->
  facts <> [] ->
  ParseSequenceV2Payload (sequence_payload txn hlc facts)
  = Ok (mkSequenceV2Layout txn hlc (Z.of_nat (length facts)) 22).
Proof.
  intros Ht Hh Hc Hne. set (bytes := sequence_payload txn hlc facts).
  pose proof (suffix_at_0 bytes) as Hs. unfold bytes in Hs at 2.
  unfold sequence_payload in Hs. pose proof (suffix_at_length _ _ _ Hs) as Hl.
  autorewrite with cedar_len in Hl. rewrite length_descriptors in Hl.
  clearbody bytes. unfold ParseSequenceV2Payload.
  unfold kSequenceV2HeaderBytes, kSequenceV2FactBytes.
  rewrite (proj2 (Nat.ltb_ge _ _)) by lia.
  repeat wire_step. rewrite !b2z_z2b_uint by done. rewrite !Z.eqb_refl. cbn [negb].
  repeat wire_step. autorewrite with cedar_len.
  assert (length facts <> 0)%nat by (by destruct facts).
  rewrite (proj2 (Z.eqb_neq _ _)) by lia.
  replace (Z.of_nat (length bytes - (2 + 8 + 8 + 4)))
    with (Z.of_nat (length facts) * Z.of_nat 23) by lia.
  rewrite Z.div_mul by done. by rewrite Z.ltb_irrefl, Z.eqb_refl.
Qed.

Lemma ParseSequenceV2Payload_Ok bytes layout :
  ParseSequenceV2Payload bytes = Ok layout ->
  uint 64 (layout_txn_id layout) /\ uint 64 (layout_system_hlc layout) /\
  uint 32 (layout_fact_count layout) /\ layout_fact_count layout <> 0 /\
  facts_offset layout = 22%nat /\
  Z.of_nat (length bytes) = 22 + layout_fact_count layout * 23 /\
  bytes = z2b kSequenceV2PayloadVersion :: z2b kFactKeyVersion ::
    be_bytes 8 (layout_txn_id layout) ++ be_bytes 8 (layout_system_hlc layout) ++
    be_bytes 4 (layout_fact_count layout) ++ drop 22 bytes.
Proof.
  unfold ParseSequenceV2Payload, kSequenceV2HeaderBytes, kSequenceV2FactBytes.
  intros H. destruct (Nat.ltb_spec (length bytes) 22); [done|].
  destruct (Z.eqb_spec (byte_at bytes 0) kSequenceV2PayloadVersion) as [Hv0|]; [|done].
  destruct (Z.eqb_spec (byte_at bytes 1) kFactKeyVersion) as [Hv1|]; [|done].
  cbn [negb] in H. inv_ok. repeat wire_inv. destruct (_ || _) eqn:Hn; [done|].
  bool_to_prop. apply Ok_inj in H as <-. cbn [layout_txn_id layout_system_hlc
    layout_fact_count facts_offset]. subst n n0 n1. split_and?; try done; try lia.
  rewrite <- Hv0, <- Hv1, <- (drop_0 bytes) at 1.
  rewrite (drop_byte_at bytes 0), (drop_byte_at bytes 1) by lia. wire_subst. done.
Qed.

Lemma decode_core_encode bytes cs txn hlc facts :
  uint 64 txn -> uint 64 hlc -> uint 32 (Z.of_nat (length facts)) ->
  facts <> [] -> Forall (fact_ok cs) facts ->
  EncodeRecord kSequenceV2 (sequence_payload txn hlc facts) = Ok bytes ->
  decode_core bytes cs
  = Ok (mkSequenceV2Layout txn hlc (Z.of_nat (length facts)) 22,
        fact_key cs <$> facts).
Proof.
  intros Ht Hh Hc Hne Hf He. unfold decode_core.
  rewrite (proj2 (frame_spec _ _) He). cbn [mbind StatusOr_bind].
  rewrite ParseSequenceV2Payload_payload by done.
  cbn [mbind StatusOr_bind layout_fact_count facts_offset]. rewrite Nat2Z.id.
  rewrite (rebuild_keys_at _ _ _ _ [] Hf); [done|]. rewrite app_nil_r.
  pose proof (suffix_at_0 (sequence_payload txn hlc facts)) as Hs.
  unfold sequence_payload in Hs at 2.
  apply suffix_at_next, suffix_at_next, suffix_at_skip, suffix_at_skip,
    suffix_at_skip in Hs. by autorewrite with cedar_len in Hs.
Qed.

Lemma decode_core_Ok bytes cs header keys :
  uint 64 cs -> cs <> 0 -> decode_core bytes cs = Ok (header, keys) ->
  uint 64 (layout_txn_id header) /\ uint 64 (layout_system_hlc header) /\
  uint 32 (layout_fact_count header) /\
  exists facts, layout_fact_count header = Z.of_nat (length facts) /\
    facts <> [] /\ Forall (fact_ok cs) facts /\ keys = fact_key cs <$> facts /\
    EncodeRecord kSequenceV2
      (sequence_payload (layout_txn_id header) (layout_system_hlc header) facts)
    = Ok bytes.
Proof.
  intros Hcs Hnz H. unfold decode_core in H. inv_ok.
  apply pair_eq in H as [-> ->].
  apply ParseSequenceV2Payload_Ok in H1 as (? & ? & Hc & ? & Ho & Hl & Hp).
  rewrite Ho in H2. pose proof Hc as [? _].
  apply rebuild_keys_Ok in H2 as (facts & Hn & ? & -> & Hd); [|done|done|lia].
  assert (layout_fact_count header = Z.of_nat (length facts)) as Hf by lia.
  split_and!; try done. exists facts. split_and!; try done.
  { intros ->. simpl in *. lia. }
  apply frame_spec in H0. rewrite <- H0. f_equal.
  rewrite Hp, Hd, drop_ge, app_nil_r by lia. unfold sequence_payload.
  by rewrite Hf.
Qed.

Lemma SequenceRecord_Validate_OK r :
  SequenceRecord_Validate r = StatusOK <->
  seq_commit_seq r <> 0 /\ seq_txn_id r <> 0 /\ fact_keys r <> [] /\
  uint 32 (Z.of_nat (length (fact_keys r))) /\
  Forall (seq_key (seq_commit_seq r)) (fact_keys r) /\ NoDup (fact_keys r).
Proof.
  unfold SequenceRecord_Validate. destruct (_ || _) eqn:E.
  - split; [done|]. intros (? & ? & ? & [_ ?] & _).
    repeat apply orb_prop in E as [E|E]; bool_to_prop; try done; try lia.
    by destruct (fact_keys r).
  - bool_to_prop. rewrite sequence_keys_check_OK. split.
    + intros (? & ? & _). assert (uint 32 (Z.of_nat (length (fact_keys r)))) by (unfold uint; lia).
      split_and?; try done.
      intros Hn. by rewrite Hn in *.
    + intros (? & ? & ? & ? & ? & ?). split_and!; try done.
      apply Forall_forall. set_solver.
Qed.

Lemma seq_keys_facts cs keys :
  Forall (seq_key cs) keys ->
  exists facts, Forall (fact_ok cs) facts /\ keys = fact_key cs <$> facts.
Proof.
  induction 1 as [|k keys (r & vf & ? & ->) _ (facts & ? & ->)].
  - exists []. split; [constructor|done].
  - exists ((r, vf) :: facts). split; [by constructor|done].
Qed.

Lemma facts_seq_keys cs facts :
  Forall (fact_ok cs) facts -> Forall (seq_key cs) (fact_key cs <$> facts).
Proof.
  intros H. apply Forall_fmap. eapply Forall_impl; [exact H|].
  intros [r vf] ?. by exists r, vf.
Qed.

Lemma sequence_descriptors cs facts :
  Forall (fact_ok cs) facts ->
  mapM_status (sequence_descriptor cs) (fact_key cs <$> facts)
  = Ok (descriptor_bytes <$> facts).
Proof.
  intros H. apply mapM_status_Ok, Forall2_fmap, Forall2_same_length_lookup_2.
  - done.
  - intros i a b Ha Hb. simplify_eq. eapply Forall_lookup_1 in H; [|done].
    by apply sequence_descriptor_key.
Qed.

(** The encoder in terms of the facts of a record. *)
Lemma EncodeSequenceRecordV2_facts r facts :
  SequenceRecord_Validate r = StatusOK ->
  Forall (fact_ok (seq_commit_seq r)) facts ->
  fact_keys r = fact_key (seq_commit_seq r) <$> facts ->
  EncodeSequenceRecordV2 r
  = EncodeRecord kSequenceV2
      (sequence_payload (seq_txn_id r) (seq_system_hlc r) facts).
Proof.
  intros Hv Hf Hk. unfold EncodeSequenceRecordV2. rewrite Hv.
  cbn [check mbind StatusOr_bind]. rewrite Hk, sequence_descriptors by done.
  cbn [mbind StatusOr_bind].
  apply SequenceRecord_Validate_OK in Hv as (_ & _ & _ & Hu & _).
  rewrite Hk in Hu. rewrite uint_wrap by done. rewrite length_fmap.
  codec_apps. done.
Qed.

Lemma PeekRecordKind_Encode kind payload bytes :
  EncodeRecord kind payload = Ok bytes ->
  PeekRecordKind bytes = Ok (MetaRecordKind_to_u8 kind).
Proof.
  intros [_ ->]%encode_frame_Ok; [|done]. by destruct kind.
Qed.

Lemma DecodeSequenceRecordV2_core bytes cs r :
  DecodeSequenceRecordV2 bytes cs = Ok r <->
  cs <> 0 /\ exists header keys, decode_core bytes cs = Ok (header, keys) /\
    r = mkSequenceRecord cs (layout_txn_id header) (layout_system_hlc header)
          keys /\ SequenceRecord_Validate r = StatusOK.
Proof.
  unfold DecodeSequenceRecordV2, decode_core, DecodeRecord.
  destruct (Z.eqb_spec cs 0); [naive_solver|]. split.
  - intros H. inv_ok. subst. apply validated_Ok in H as [-> ?]. split; [done|].
    run_ok. by eexists _, _.
  - intros (_ & header & keys & H & -> & Hv). inv_ok. simplify_eq.
    run_ok. by apply validated_Ok.
Qed.

Lemma DecodeSequenceRecordViewV2_core bytes cs v :
  DecodeSequenceRecordViewV2 bytes cs = Ok v <->
  cs <> 0 /\ exists header keys, decode_core bytes cs = Ok (header, keys) /\
    v = mkSequenceRecordView cs (layout_txn_id header)
          (layout_system_hlc header) (layout_fact_count header) (concat keys).
Proof.
  unfold DecodeSequenceRecordViewV2, decode_core.
  destruct (Z.eqb_spec cs 0); [naive_solver|]. split.
  - intros H. inv_ok. split; [done|].
    run_ok. by eexists _, _.
  - intros (_ & header & keys & H & ->). inv_ok. simplify_eq.
    by run_ok.
Qed.

(** A version-2 record passes the test for a legacy record. *)
Lemma not_legacy bytes cs header keys :
  decode_core bytes cs = Ok (header, keys) ->
  PeekRecordKind bytes = Ok (MetaRecordKind_to_u8 kSequenceV2).
Proof.
  unfold decode_core. intros H. inv_ok. apply frame_spec in H0.
  by eapply PeekRecordKind_Encode.
Qed.

Lemma DecodeSequenceRecord_core bytes cs r :
  DecodeSequenceRecord bytes cs = Ok r <-> DecodeSequenceRecordV2 bytes cs = Ok r.
Proof.
  unfold DecodeSequenceRecord. split.
  - intros H. inv_ok. by destruct (_ =? _) in H.
  - intros H. pose proof H as H'.
    apply DecodeSequenceRecordV2_core in H' as (_ & ? & ? & Hc & _).
    by rewrite (not_legacy _ _ _ _ Hc).
Qed.

Lemma DecodeSequenceRecordView_core bytes cs v :
  DecodeSequenceRecordView bytes cs = Ok v <->
  DecodeSequenceRecordViewV2 bytes cs = Ok v.
Proof.
  unfold DecodeSequenceRecordView. split.
  - intros H. inv_ok. by destruct (_ =? _) in H.
  - intros H. pose proof H as H'.
    apply DecodeSequenceRecordViewV2_core in H' as (_ & ? & ? & Hc & _).
    by rewrite (not_legacy _ _ _ _ Hc).
Qed.

Lemma length_fact_key cs f :
  fact_ok cs f -> length (fact_key cs f) = kEncodedFactKeyBytes.
Proof. intros (_ & ? & _ & _ & ?). by apply length_EncodeFactKey. Qed.

Lemma view_keys_concat cs facts :
  Forall (fact_ok cs) facts ->
  view_keys (length facts) (concat (fact_key cs <$> facts))
  = fact_key cs <$> facts.
Proof.
  induction 1 as [|f facts Hf _ IH]; [done|].
  cbn [fmap list_fmap concat length view_keys]. apply length_fact_key in Hf.
  rewrite take_app_length', drop_app_length' by done. by f_equal.
Qed.

Lemma length_concat_keys cs facts :
  Forall (fact_ok cs) facts ->
  length (concat (fact_key cs <$> facts)) = (32 * length facts)%nat.
Proof.
  induction 1 as [|f facts Hf _ IH]; [done|].
  cbn [fmap list_fmap concat length]. apply length_fact_key in Hf.
  rewrite length_app, Hf. unfold kEncodedFactKeyBytes. simpl in *. lia.
Qed.

(** A record and the view over its keys are validated alike. *)
Lemma view_Validate cs txn hlc facts :
  cs <> 0 -> facts <> [] -> Forall (fact_ok cs) facts ->
  uint 32 (Z.of_nat (length facts)) ->
  SequenceRecordView_Validate
    (mkSequenceRecordView cs txn hlc (Z.of_nat (length facts))
       (concat (fact_key cs <$> facts)))
  = SequenceRecord_Validate (mkSequenceRecord cs txn hlc (fact_key cs <$> facts)).
Proof.
  intros Hcs Hne Hf Hu. unfold SequenceRecordView_Validate,
    SequenceRecord_Validate. cbn [view_commit_seq view_txn_id view_fact_count
    view_identities seq_commit_seq seq_txn_id fact_keys].
  rewrite Nat2Z.id, view_keys_concat, length_concat_keys, length_fmap by done.
  assert (length facts <> 0)%nat by by destruct facts.
  rewrite (proj2 (Z.eqb_neq (Z.of_nat (length facts)) 0)) by lia.
  rewrite (proj2 (Nat.eqb_neq (length facts) 0)) by done.
  rewrite (proj2 (Z.eqb_eq (Z.of_nat (32 * _)) _))
    by (unfold kEncodedFactKeyBytes; lia).
  rewrite (proj2 (Z.ltb_ge (2 ^ 32 - 1) _)) by (unfold uint in Hu; lia).
  done.
Qed.

Lemma DecodeSequenceRecord_OK bytes cs r :
  uint 64 cs ->
  DecodeSequenceRecord bytes cs = Ok r <->
  seq_commit_seq r = cs /\ sequence_typed r /\
  EncodeSequenceRecordV2 r = Ok bytes.
Proof.
  intros Hcs. rewrite DecodeSequenceRecord_core, DecodeSequenceRecordV2_core.
  split.
  - intros (? & header & keys & Hc & -> & Hv).
    apply decode_core_Ok in Hc as (? & ? & ? & facts & ? & ? & Hf & -> & He);
      [|done..].
    split_and!; try done. by rewrite (EncodeSequenceRecordV2_facts _ facts).
  - intros (<- & [? ?] & He).
    assert (SequenceRecord_Validate r = StatusOK) as Hv
      by (unfold EncodeSequenceRecordV2 in He; by inv_ok).
    pose proof (proj1 (SequenceRecord_Validate_OK r) Hv)
      as (? & ? & Hne & Hu & Hk & _).
    apply seq_keys_facts in Hk as (facts & Hf & Hk).
    rewrite (EncodeSequenceRecordV2_facts _ facts) in He by done.
    split; [done|]. eexists _, _. split.
    { apply (decode_core_encode bytes (seq_commit_seq r) (seq_txn_id r)
               (seq_system_hlc r) facts); try done.
      - by rewrite Hk, length_fmap in Hu.
      - intros ->. by rewrite Hk in Hne. }
    simpl. rewrite <- Hk. split; [by destruct r|done].
Qed.

Lemma meta_key_distinct k k' bytes :
  meta_key_typed k -> meta_key_typed k' ->
  encode_meta_key k = Ok bytes -> encode_meta_key k' = Ok bytes -> k = k'.
Proof.
  intros Ht Ht' E E'.
  destruct k, k'; cbn [encode_meta_key meta_key_typed] in *;
    unfold EncodeSchemaMetaKey, EncodeEdgeIdentityMetaKey,
      EncodeTransactionMetaKey, EncodeSequenceMetaKey in *;
    repeat match goal with
    | H : (if ?c then _ else _) = Ok _ |- _ => destruct c; [discriminate H|]
    end; inv_ok; rewrite <- E in E'; clear E; try done;
    repeat match goal with
    | k : IdKind |- _ => destruct k; try done
    end; try (cbn in E'; discriminate E'); codec_apps_in E';
    apply app_inv_head in E'.
  - destruct Ht, Ht'.
    apply app_inj_1 in E' as [E1 E']; [|by rewrite !length_be_bytes].
    apply app_inv_head in E'. apply be_bytes_inj in E1, E'; [|done..]. congruence.
  - destruct edge, edge0, Ht, Ht'. cbn in *.
    apply app_inj_1 in E' as [E1 E']; [|by rewrite !length_be_bytes].
    apply be_bytes_inj in E1, E'; [|done..]. congruence.
  - apply be_bytes_inj in E'; [|done..]. congruence.
  - apply be_bytes_inj in E'; [|done..]. congruence.
Qed.

(** ** Watermarks *)

Lemma length_EncodeWatermark w bytes : EncodeWatermark w = Ok bytes -> length bytes = 18%nat.
Proof.
  unfold EncodeWatermark. intros H.
  apply encode_frame_Ok in H as [_ ->]; [|unfold kMaxMetaPayloadBytes; lia].
  unfold frame_body, AppendU64. by autorewrite with cedar_len.
Qed.

Lemma EncodeWatermark_total w : exists bytes, EncodeWatermark w = Ok bytes.
Proof.
  eexists. unfold EncodeWatermark.
  apply encode_frame_Ok; [unfold kMaxMetaPayloadBytes; lia|]. split; [|done].
  unfold AppendU64. rewrite length_app, length_be_bytes. cbn.
  unfold kMaxMetaPayloadBytes. lia.
Qed.

(** ** Properties *)

(** A byte string decodes under a commit sequence to a sequence record
    exactly when the record carries that commit sequence and the byte string is
    its version-2 encoding.  The encoding drops the packed keys and the commit
    sequence; decoding rebuilds every 32-byte fact key exactly. *)
Theorem DecodeSequenceRecord_spec bytes cs r :
  uint 64 cs ->
  DecodeSequenceRecord bytes cs = Ok r <->
  seq_commit_seq r = cs /\ sequence_typed r /\
  EncodeSequenceRecordV2 r = Ok bytes.
Proof. apply DecodeSequenceRecord_OK. Qed.

Lemma DecodeSequenceRecord_spec_witness :
  DecodeSequenceRecord sample_sequence_bytes 9 = Ok sample_sequence.
Proof.
  apply (DecodeSequenceRecord_spec sample_sequence_bytes 9 sample_sequence).
  - split; [discriminate|reflexivity].
  - split; [reflexivity|]. split; [by split|]. vm_compute. reflexivity.
Defined.

(** Decoding a sequence record in place and validating the view gives the
    same verdict and the same record as the decoder that copies the keys. *)
Theorem DecodeSequenceRecordView_agrees bytes cs r :
  uint 64 cs ->
  DecodeSequenceRecord bytes cs = Ok r <->
  exists v, DecodeSequenceRecordView bytes cs = Ok v /\
    SequenceRecordView_Validate v = StatusOK /\ r = record_of v.
Proof.
  intros Hcs. rewrite DecodeSequenceRecord_core, DecodeSequenceRecordV2_core.
  setoid_rewrite DecodeSequenceRecordView_core.
  setoid_rewrite DecodeSequenceRecordViewV2_core. split.
  - intros (? & header & keys & Hc & -> & Hv). pose proof Hc as Hc'.
    apply decode_core_Ok in Hc' as (? & ? & Hu & facts & Hn & ? & Hf & -> & He);
      [|done..].
    eexists. split; [split; [done|by eexists _, _]|].
    rewrite Hn in *. rewrite view_Validate by done. split; [done|].
    unfold record_of. cbn. by rewrite Nat2Z.id, view_keys_concat.
  - intros (v & (? & header & keys & Hc & ->) & Hv & ->). pose proof Hc as Hc'.
    apply decode_core_Ok in Hc' as (? & ? & Hu & facts & Hn & ? & Hf & -> & He);
      [|done..].
    rewrite Hn in *. rewrite view_Validate in Hv by done.
    split; [done|]. exists header, (fact_key cs <$> facts).
    unfold record_of. cbn. rewrite Nat2Z.id, view_keys_concat by done. done.
Qed.

Lemma DecodeSequenceRecordView_agrees_witness :
  DecodeSequenceRecord sample_sequence_bytes 9 = Ok sample_sequence /\
  exists v, DecodeSequenceRecordView sample_sequence_bytes 9 = Ok v /\
    SequenceRecordView_Validate v = StatusOK /\ sample_sequence = record_of v.
Proof.
  assert (DecodeSequenceRecord sample_sequence_bytes 9 = Ok sample_sequence) as H
    by (vm_compute; reflexivity).
  assert (uint 64 9) as H9 by (split; [discriminate|reflexivity]).
  split; [exact H|].
  exact (proj1 (DecodeSequenceRecordView_agrees sample_sequence_bytes 9
                  sample_sequence H9) H).
Defined.

(** A metadata record in which one byte was changed, whichever byte it is,
    is rejected by its decoder; this holds of every record kind whose codec
    meets the codec contract. *)
Theorem meta_record_one_byte {A} (encode : A -> StatusOr (list byte))
    (decode : list byte -> StatusOr A) (typed : A -> Prop)
    `{!RecordCodec encode decode typed} a p b b' s :
  encode a = Ok (p ++ b :: s) -> b <> b' ->
  is_ok (decode (p ++ b' :: s)) = false.
Proof.
  intros He Hb. destruct (decode (p ++ b' :: s)) as [a'|] eqn:E; [|done].
  apply codec_encode_checksummed in He. apply codec_decode_checksummed in E.
  by apply (checksummed_one_byte _ _ b') in He.
Qed.

Lemma meta_record_one_byte_witness :
  is_ok (DecodeSequenceFormat
           ([z2b 1; z2b 10; z2b 0; z2b 0; z2b 0; z2b 4; z2b 0; z2b 0; z2b 0]
            ++ z2b 1 :: sample_format_tail)) = false.
Proof.
  apply (meta_record_one_byte EncodeSequenceFormat DecodeSequenceFormat (uint 32)
           2 [z2b 1; z2b 10; z2b 0; z2b 0; z2b 0; z2b 4; z2b 0; z2b 0; z2b 0]
           (z2b 2) (z2b 1) sample_format_tail);
    [vm_compute; reflexivity|vm_compute; discriminate].
Defined.

(** Every decoder of a metadata record inverts its encoder, and the records
    with a length-checked payload (property definitions, edge identities,
    allocator states, transaction outcomes, vacuum states and the system
    identity) have exactly one encoding. *)
Theorem meta_records_roundtrip :
  (forall w bytes, uint 64 w -> EncodeWatermark w = Ok bytes ->
     DecodeWatermark bytes = Ok w) /\
  (forall f bytes, uint 32 f -> EncodeSequenceFormat f = Ok bytes ->
     DecodeSequenceFormat bytes = Ok f) /\
  (forall d bytes, DecodePropertyDefinition bytes = Ok d <->
     definition_typed d /\ EncodePropertyDefinition d = Ok bytes) /\
  (forall i bytes, DecodeEdgeIdentity bytes = Ok i <->
     identity_typed i /\ EncodeEdgeIdentity i = Ok bytes) /\
  (forall s bytes, DecodeIdAllocatorState bytes = Ok s <->
     allocator_typed s /\ EncodeIdAllocatorState s = Ok bytes) /\
  (forall r bytes, DecodeTransactionOutcome bytes = Ok r <->
     outcome_typed r /\ EncodeTransactionOutcome r = Ok bytes) /\
  (forall s bytes, DecodeVacuumState bytes = Ok s <->
     vacuum_typed s /\ EncodeVacuumState s = Ok bytes) /\
  (forall i bytes, DecodeSystemIdentity bytes = Ok i <->
     system_typed i /\ EncodeSystemIdentity i = Ok bytes).
Proof.
  split_and!; [intros ???; by apply codec_decode..| | | | | |];
    intros a bytes; (split; [intros H; split; [by eapply codec_typed|
      by apply codec_encode]|intros [? ?]; by apply codec_decode]).
Qed.

(** No two keys of the metadata column family collide. *)
Theorem meta_key_inj k k' bytes :
  meta_key_typed k -> meta_key_typed k' ->
  encode_meta_key k = Ok bytes -> encode_meta_key k' = Ok bytes -> k = k'.
Proof. apply meta_key_distinct. Qed.

Lemma meta_key_inj_witness : SequenceKey 7 = SequenceKey 7.
Proof.
  by apply (meta_key_inj (SequenceKey 7) (SequenceKey 7)
              (AppendU64 (literal "sequence/") 7)).
Defined.

(** The keys of sequence records sort by commit sequence. *)
Theorem EncodeSequenceMetaKey_order s s' k k' :
  uint 64 s -> uint 64 s' ->
  EncodeSequenceMetaKey s = Ok k -> EncodeSequenceMetaKey s' = Ok k' ->
  bytes_compare k k' = (s ?= s').
Proof.
  unfold EncodeSequenceMetaKey. intros Hs Hs' H H'.
  destruct (s =? 0), (s' =? 0); inv_ok; try done. subst. unfold AppendU64.
  rewrite bytes_compare_app, bytes_compare_refl, bytes_compare_be by done. done.
Qed.

Lemma EncodeSequenceMetaKey_order_witness :
  bytes_compare (AppendU64 (literal "sequence/") 255)
    (AppendU64 (literal "sequence/") 256) = Lt.
Proof. by apply (EncodeSequenceMetaKey_order 255 256). Defined.

(** A watermark record may carry bytes behind its eight: the decoder tests
    the offset behind the number and not the length of the payload, so the
    encoding of a watermark is not unique. *)
Theorem DecodeWatermark_ignores_trailing w rest bytes :
  uint 64 w ->
  EncodeRecord kWatermark (be_bytes 8 w ++ rest) = Ok bytes ->
  DecodeWatermark bytes = Ok w.
Proof.
  intros Hw He. unfold DecodeWatermark.
  rewrite (proj2 (frame_spec _ _) He).
  cbn beta iota delta [mbind StatusOr_bind].
  pose proof (suffix_at_0 (be_bytes 8 w ++ rest)) as Hs. by wire_step.
Qed.

Lemma DecodeWatermark_ignores_trailing_witness :
  DecodeWatermark sample_long_watermark = Ok 5 /\
  EncodeWatermark 5 <> Ok sample_long_watermark.
Proof.
  split.
  - apply (DecodeWatermark_ignores_trailing 5 [z2b 7] sample_long_watermark);
      [done|vm_compute; reflexivity].
  - vm_compute. discriminate.
Defined.
