(* ===== verification/CommitBatch.v ===== *)
(** * CommitBatch: commit batches and their validation

    Models [SnapshotWriteDependency], [StrictReadDependency] and
    [StoreCommitBatch] of [src/storage/facts/fact_store.h] with their
    [Validate] functions in [src/storage/rocks/rocks_adapter.cc].  The hash sets
    of encoded keys are finite sets of byte strings; [loop] is a loop over a
    vector that carries a state and stops at the first error. *)

From S2P Require Import Prelude Status Crc32c Wire Value Fact FactCodec.

Record SnapshotWriteDependency := mkSnapshotWriteDependency {
  swd_ref : FactRef;
  swd_valid_from : Z;
  swd_predecessor : option Z;
  swd_successor : option Z;
  swd_snapshot_seq : Z
}.

Record StrictReadDependency := mkStrictReadDependency {
  srd_ref : FactRef;
  srd_valid_time : Z;
  srd_snapshot_seq : Z;
  srd_observed_event : option FactEvent;
  srd_predecessor : option Z;
  srd_successor : option Z
}.

Record StoreCommitBatch := mkStoreCommitBatch {
  txn_id : Z;
  system_hlc : Z;
  mutations : list PendingFactMutation;
  edge_identities : list EdgeIdentity;
  snapshot_write_dependencies : list SnapshotWriteDependency;
  strict_read_dependencies : list StrictReadDependency;
  fresh_transaction_id : bool
}.

#[export] Instance SnapshotWriteDependency_eq_dec :
  EqDecision SnapshotWriteDependency.
Proof. solve_decision. Defined.

#[export] Instance StrictReadDependency_eq_dec : EqDecision StrictReadDependency.
Proof. solve_decision. Defined.

#[export] Instance StoreCommitBatch_eq_dec : EqDecision StoreCommitBatch.
Proof. solve_decision. Defined.

(** [o.has_value()] and a test of the value. *)
Definition opt_test (o : option Z) (test : Z -> bool) : bool :=
  match o with Some z => test z | None => false end.

Definition SnapshotWriteDependency_Validate (d : SnapshotWriteDependency)
  : Status :=
  match FactRef_Validate (swd_ref d) with
  | StatusOK =>
      if opt_test (swd_predecessor d) (fun p => swd_valid_from d <=? p) then
        InvalidArgument "snapshot write dependency"
          "predecessor is not before mutation"
      else if opt_test (swd_successor d) (fun s => s <=? swd_valid_from d) then
        InvalidArgument "snapshot write dependency"
          "successor is not after mutation"
      else StatusOK
  | s => s
  end.

Definition StrictReadDependency_Validate (d : StrictReadDependency) : Status :=
  match FactRef_Validate (srd_ref d) with
  | StatusOK =>
      if opt_test (srd_predecessor d) (fun p => srd_valid_time d <? p) then
        InvalidArgument "strict read dependency" "predecessor is after read time"
      else if opt_test (srd_successor d) (fun s => s <=? srd_valid_time d) then
        InvalidArgument "strict read dependency"
          "successor is not after read time"
      else
        match srd_observed_event d with
        | Some e =>
            match FactEvent_Validate e with
            | StatusOK =>
                if negb (bool_decide (event_ref e = srd_ref d))
                   || (srd_valid_time d <? event_valid_from e)
                   || (srd_snapshot_seq d <? event_commit_seq e)
                   || opt_test (srd_predecessor d)
                        (fun p => srd_valid_time d <=? p)
                then InvalidArgument "strict read dependency"
                       "observed event disagrees with read identity"
                else StatusOK
            | s => s
            end
        | None =>
            if bool_decide (is_Some (srd_predecessor d)) then
              InvalidArgument "strict read dependency"
                "empty read has a predecessor fence"
            else StatusOK
        end
  | s => s
  end.

(** A loop that carries a state and leaves the function on an error. *)
Fixpoint loop {A S} (body : S -> A -> StatusOr S) (state : S) (l : list A)
  : StatusOr S :=
  match l with
  | [] => Ok state
  | a :: l' => state ← body state a; loop body state l'
  end.

(** [set.emplace(key).second]. *)
Definition emplace `{Countable A} (key : A) (set : gset A) : bool * gset A :=
  (bool_decide (key ∉ set), {[ key ]} ∪ set).

Definition add_fact (facts : gset (list byte)) (m : PendingFactMutation)
  : StatusOr (gset (list byte)) :=
  _ ← check (PendingFactMutation_Validate m);
  let key := EncodeFactKey (mutation_ref m) (mutation_valid_from m) 1 in
  let '(inserted, facts) := emplace key facts in
  _ ← require (negb (bool_decide (key = [])) && inserted)
        (InvalidArgument "commit batch" "duplicate fact mutation");
  Ok facts.

Definition add_dependency (facts dependencies : gset (list byte))
    (d : SnapshotWriteDependency) : StatusOr (gset (list byte)) :=
  _ ← check (SnapshotWriteDependency_Validate d);
  let key := EncodeFactKey (swd_ref d) (swd_valid_from d) 1 in
  let '(inserted, dependencies) := emplace key dependencies in
  _ ← require (bool_decide (key ∈ facts) && inserted)
        (InvalidArgument "commit batch" "invalid snapshot write dependency");
  Ok dependencies.

Definition add_strict_read (strict_reads : gset (list byte))
    (d : StrictReadDependency) : StatusOr (gset (list byte)) :=
  _ ← check (StrictReadDependency_Validate d);
  let key := EncodeFactKey (srd_ref d) 0 1 in
  _ ← require (negb (bool_decide (key = [])))
        (InvalidArgument "commit batch" "duplicate strict read dependency");
  let '(inserted, strict_reads) :=
    emplace (AppendU64 key (srd_valid_time d)) strict_reads in
  _ ← require inserted
        (InvalidArgument "commit batch" "duplicate strict read dependency");
  Ok strict_reads.

Definition add_edge_identity (edge_ids : gset (Z * Z)) (i : EdgeIdentity)
  : StatusOr (gset (Z * Z)) :=
  _ ← check (EdgeIdentity_Validate i);
  let '(inserted, edge_ids) := emplace (home_part_id i, edge_id i) edge_ids in
  _ ← require inserted
        (InvalidArgument "commit batch" "duplicate edge identity");
  Ok edge_ids.

Definition edge_state_assertions (ms : list PendingFactMutation)
  : gset (Z * Z) :=
  list_to_set
    (omap (fun m =>
       if bool_decide (ref_family (mutation_ref m) = kEdgeState)
          && bool_decide (mutation_operation m = kPut)
       then Some (ref_part_id (mutation_ref m), ref_entity_id (mutation_ref m))
       else None) ms).

Definition StoreCommitBatch_Validate_steps (b : StoreCommitBatch)
  : StatusOr unit :=
  _ ← require (negb (txn_id b =? 0) && negb (system_hlc b =? 0)
               && negb (bool_decide (mutations b = [])))
        (InvalidArgument "commit batch" "missing transaction, time, or facts");
  facts ← loop add_fact ∅ (mutations b);
  _ ← loop (add_dependency facts) ∅ (snapshot_write_dependencies b);
  _ ← loop add_strict_read ∅ (strict_read_dependencies b);
  edge_ids ← loop add_edge_identity ∅ (edge_identities b);
  require (bool_decide (edge_ids ⊆ edge_state_assertions (mutations b)))
    (InvalidArgument "commit batch" "edge identity lacks state assertion").

Definition StoreCommitBatch_Validate (b : StoreCommitBatch) : Status :=
  to_status (StoreCommitBatch_Validate_steps b).

(** ** Specification *)

Definition dependency_typed (d : SnapshotWriteDependency) : Prop :=
  ref_typed (swd_ref d) /\ uint 64 (swd_valid_from d) /\
  uint 64 (swd_snapshot_seq d).

Definition strict_read_typed (d : StrictReadDependency) : Prop :=
  ref_typed (srd_ref d) /\ uint 64 (srd_valid_time d) /\
  uint 64 (srd_snapshot_seq d).

Definition batch_typed (b : StoreCommitBatch) : Prop :=
  Forall mutation_typed (mutations b) /\
  Forall dependency_typed (snapshot_write_dependencies b) /\
  Forall strict_read_typed (strict_read_dependencies b).

(** What a validated batch promises to the components behind it. *)
Definition batch_ok (b : StoreCommitBatch) : Prop :=
  txn_id b <> 0 /\ system_hlc b <> 0 /\ mutations b <> [] /\
  Forall (fun m => PendingFactMutation_Validate m = StatusOK) (mutations b) /\
  NoDup ((fun m => (mutation_ref m, mutation_valid_from m)) <$> mutations b) /\
  Forall (fun d => SnapshotWriteDependency_Validate d = StatusOK /\
            (swd_ref d, swd_valid_from d)
            ∈ (fun m => (mutation_ref m, mutation_valid_from m)) <$> mutations b)
    (snapshot_write_dependencies b) /\
  NoDup ((fun d => (swd_ref d, swd_valid_from d))
           <$> snapshot_write_dependencies b) /\
  Forall (fun d => StrictReadDependency_Validate d = StatusOK)
    (strict_read_dependencies b) /\
  NoDup ((fun d => (srd_ref d, srd_valid_time d))
           <$> strict_read_dependencies b) /\
  Forall (fun i => EdgeIdentity_Validate i = StatusOK /\
            exists m, m ∈ mutations b /\
              mutation_ref m = EntityFact_Edge (edge_ref i) /\
              mutation_operation m = kPut) (edge_identities b) /\
  NoDup (edge_ref <$> edge_identities b).

(** The keys that the validation collects. *)
Definition mutation_key (m : PendingFactMutation) : list byte :=
  EncodeFactKey (mutation_ref m) (mutation_valid_from m) 1.

Definition dependency_key (d : SnapshotWriteDependency) : list byte :=
  EncodeFactKey (swd_ref d) (swd_valid_from d) 1.

Definition strict_read_key (d : StrictReadDependency) : list byte :=
  AppendU64 (EncodeFactKey (srd_ref d) 0 1) (srd_valid_time d).

Definition sample_batch : StoreCommitBatch :=
  mkStoreCommitBatch 5 77
    [mkPendingFactMutation (mkFactRef 1 kVertexProperty 2 3) 10 kPut 1
       (Some (VInt32 7));
     mkPendingFactMutation (mkFactRef 1 kEdgeState 0 8) 10 kPut 0 None]
    [mkEdgeIdentity 8 3 4 2 1 1 6]
    [mkSnapshotWriteDependency (mkFactRef 1 kVertexProperty 2 3) 10 None
       (Some 20) 4]
    [] true.

(** ** Loops that collect distinct keys *)

Lemma loop_unique {A} `{Countable K} (body : gset K -> A -> StatusOr (gset K))
    (P : A -> Prop) (key : A -> K) l :
  (forall s a s', a ∈ l -> body s a = Ok s' <->
     P a /\ key a ∉ s /\ s' = {[ key a ]} ∪ s) ->
  forall s s', loop body s l = Ok s' <->
    Forall P l /\ NoDup (key <$> l) /\ (forall a, a ∈ l -> key a ∉ s) /\
    s' = list_to_set (key <$> l) ∪ s.
Proof.
  intros Hbody. induction l as [|a l IH]; intros s s'; cbn [loop].
  - rewrite fmap_nil, list_to_set_nil, (left_id_L ∅ (∪)). split.
    + intros [= ->]. split_and!; [done|constructor| |done].
      by intros ? ?%not_elem_of_nil.
    + by intros (_ & _ & _ & ->).
  - rewrite bind_Ok, fmap_cons, Forall_cons, NoDup_cons, list_to_set_cons.
    assert (forall s a' s'', a' ∈ l -> body s a' = Ok s'' <->
              P a' /\ key a' ∉ s /\ s'' = {[ key a' ]} ∪ s) as Hb
      by (intros; apply Hbody; by right).
    specialize (Hbody s a). setoid_rewrite (IH Hb). clear IH Hb.
    assert (forall s : gset K, {[key a]} ∪ list_to_set (key <$> l) ∪ s
              = list_to_set (key <$> l) ∪ ({[key a]} ∪ s)) as ->
      by (intros; rewrite assoc_L, (comm_L (∪) {[key a]}); done || apply _).
    split.
    + intros (s1 & H1 & ? & ? & Hn & ->).
      apply Hbody in H1 as (? & ? & ->); [|by left].
      split_and!; try done.
      * intros (a' & Ha & Hin)%list_elem_of_fmap. apply (Hn a' Hin).
        rewrite <- Ha. by apply elem_of_union_l, elem_of_singleton.
      * intros a' [->|Hin]%elem_of_cons; [done|].
        intros ?. apply (Hn a' Hin). by apply elem_of_union_r.
    + intros ((? & ?) & (Hn & ?) & Hs & ->). eexists. split.
      * apply Hbody; [by left|]. split_and!; [done|by apply Hs; left|done].
      * split_and!; [done|done|..|done].
        intros a' Ha'. rewrite not_elem_of_union, not_elem_of_singleton.
        split; [|by apply Hs; right].
        intros E. apply Hn. rewrite <- E. by apply list_elem_of_fmap_2.
Qed.

Lemma NoDup_fmap_iff {A B C} (f : A -> B) (g : A -> C) l :
  (forall x y, x ∈ l -> y ∈ l -> f x = f y <-> g x = g y) ->
  NoDup (f <$> l) <-> NoDup (g <$> l).
Proof.
  induction l as [|a l IH]; intros H; [split; constructor|].
  rewrite !fmap_cons, !NoDup_cons, IH by (intros; apply H; set_solver).
  rewrite !list_elem_of_fmap.
  assert ((exists y, f a = f y /\ y ∈ l) <-> (exists y, g a = g y /\ y ∈ l))
    as ->; [|done].
  split; intros (y & ? & ?); exists y; (split; [|done]);
    apply H; set_solver.
Qed.

Lemma key_ok_mutation m :
  mutation_typed m -> PendingFactMutation_Validate m = StatusOK ->
  key_ok (mutation_ref m) (mutation_valid_from m) 1.
Proof.
  intros (? & ? & _) Hv. unfold PendingFactMutation_Validate in Hv.
  destruct (ValidateMutation _ _ _ _) eqn:Hm; [|done].
  apply ValidateMutation_OK in Hm as [? _]. unfold key_ok, uint. done.
Qed.

Lemma EncodeFactKey_nonempty r vf cs :
  key_ok r vf cs -> EncodeFactKey r vf cs <> [].
Proof.
  intros (_ & ? & _ & _ & ?) E.
  pose proof (length_EncodeFactKey r vf cs) as Hl. rewrite E in Hl.
  by specialize (Hl ltac:(done) ltac:(done)).
Qed.

Lemma add_fact_Ok s m s' :
  mutation_typed m ->
  add_fact s m = Ok s' <->
  PendingFactMutation_Validate m = StatusOK /\
  mutation_key m ∉ s /\
  s' = {[ mutation_key m ]} ∪ s.
Proof.
  intros Ht. unfold add_fact, emplace. fold (mutation_key m). split.
  - intros H. inv_ok. bool_to_prop. by subst.
  - intros (Hv & ? & ->). rewrite Hv. cbn beta iota delta [check mbind StatusOr_bind].
    rewrite bool_decide_false, bool_decide_true; [done..|].
    apply EncodeFactKey_nonempty. by apply key_ok_mutation.
Qed.

Lemma add_dependency_Ok facts s d s' :
  add_dependency facts s d = Ok s' <->
  (SnapshotWriteDependency_Validate d = StatusOK /\
   dependency_key d ∈ facts) /\
  dependency_key d ∉ s /\
  s' = {[ dependency_key d ]} ∪ s.
Proof.
  unfold add_dependency, emplace. fold (dependency_key d). split.
  - intros H. inv_ok. bool_to_prop. by subst.
  - intros ((Hv & ?) & ? & ->). rewrite Hv. cbn beta iota delta [check mbind StatusOr_bind].
    by rewrite !bool_decide_true.
Qed.

Lemma StrictReadDependency_Validate_ref d :
  StrictReadDependency_Validate d = StatusOK ->
  FactRef_Validate (srd_ref d) = StatusOK.
Proof.
  unfold StrictReadDependency_Validate. by destruct (FactRef_Validate _).
Qed.

Lemma SnapshotWriteDependency_Validate_ref d :
  SnapshotWriteDependency_Validate d = StatusOK ->
  FactRef_Validate (swd_ref d) = StatusOK.
Proof.
  unfold SnapshotWriteDependency_Validate. by destruct (FactRef_Validate _).
Qed.

Lemma add_strict_read_Ok s d s' :
  strict_read_typed d ->
  add_strict_read s d = Ok s' <->
  StrictReadDependency_Validate d = StatusOK /\
  strict_read_key d ∉ s /\
  s' = {[ strict_read_key d ]} ∪ s.
Proof.
  intros Ht. unfold add_strict_read, emplace. fold (strict_read_key d). split.
  - intros H. inv_ok. bool_to_prop. by subst.
  - intros (Hv & ? & ->). rewrite Hv. cbn beta iota delta [check mbind StatusOr_bind].
    rewrite (bool_decide_false (EncodeFactKey _ _ _ = [])).
    { cbn beta iota delta [require negb mbind StatusOr_bind].
      by rewrite bool_decide_true. }
    apply EncodeFactKey_nonempty. apply StrictReadDependency_Validate_ref in Hv.
    destruct Ht as (? & _). unfold key_ok, uint. done.
Qed.

Lemma add_edge_identity_Ok s i s' :
  add_edge_identity s i = Ok s' <->
  EdgeIdentity_Validate i = StatusOK /\
  (home_part_id i, edge_id i) ∉ s /\
  s' = {[ (home_part_id i, edge_id i) ]} ∪ s.
Proof.
  unfold add_edge_identity, emplace. split.
  - intros H. inv_ok. bool_to_prop. by subst.
  - intros (Hv & ? & ->). rewrite Hv. cbn beta iota delta [check mbind StatusOr_bind].
    by rewrite bool_decide_true.
Qed.

Lemma mutation_keys_NoDup ms :
  Forall mutation_typed ms ->
  Forall (fun m => PendingFactMutation_Validate m = StatusOK) ms ->
  NoDup (mutation_key <$> ms) <->
  NoDup ((fun m => (mutation_ref m, mutation_valid_from m)) <$> ms).
Proof.
  rewrite !Forall_forall. intros Ht Hv. apply NoDup_fmap_iff.
  intros m m' Hm Hm'. apply EncodeFactKey_inj; apply key_ok_mutation; auto.
Qed.

Lemma key_ok_dependency d :
  dependency_typed d -> SnapshotWriteDependency_Validate d = StatusOK ->
  key_ok (swd_ref d) (swd_valid_from d) 1.
Proof.
  intros (? & ? & _) ?%SnapshotWriteDependency_Validate_ref.
  unfold key_ok, uint. done.
Qed.

Lemma dependency_keys_NoDup ds :
  Forall dependency_typed ds ->
  Forall (fun d => SnapshotWriteDependency_Validate d = StatusOK) ds ->
  NoDup (dependency_key <$> ds) <->
  NoDup ((fun d => (swd_ref d, swd_valid_from d)) <$> ds).
Proof.
  rewrite !Forall_forall. intros Ht Hv. apply NoDup_fmap_iff.
  intros d d' Hd Hd'. apply EncodeFactKey_inj; apply key_ok_dependency; auto.
Qed.

Lemma dependency_key_in d ms :
  dependency_typed d -> SnapshotWriteDependency_Validate d = StatusOK ->
  Forall mutation_typed ms ->
  Forall (fun m => PendingFactMutation_Validate m = StatusOK) ms ->
  dependency_key d ∈ mutation_key <$> ms <->
  (swd_ref d, swd_valid_from d)
    ∈ (fun m => (mutation_ref m, mutation_valid_from m)) <$> ms.
Proof.
  rewrite !Forall_forall, !list_elem_of_fmap. intros Htd Hd Ht Hv.
  split; intros (m & E & Hm); exists m; (split; [|done]).
  - apply EncodeFactKey_inj in E; [done|by apply key_ok_dependency|].
    apply key_ok_mutation; auto.
  - apply EncodeFactKey_inj; [by apply key_ok_dependency| |done].
    apply key_ok_mutation; auto.
Qed.

Lemma strict_read_keys_NoDup ds :
  Forall strict_read_typed ds ->
  Forall (fun d => StrictReadDependency_Validate d = StatusOK) ds ->
  NoDup (strict_read_key <$> ds) <->
  NoDup ((fun d => (srd_ref d, srd_valid_time d)) <$> ds).
Proof.
  rewrite !Forall_forall. intros Ht Hv. apply NoDup_fmap_iff.
  assert (forall d, d ∈ ds -> key_ok (srd_ref d) 0 1 /\
            uint (8 * Z.of_nat 8) (srd_valid_time d)) as Hk.
  { intros d Hd. destruct (Ht d Hd) as (? & ? & _).
    specialize (Hv d Hd). apply StrictReadDependency_Validate_ref in Hv.
    unfold key_ok, uint in *. done. }
  intros d d' Hd Hd'. destruct (Hk d Hd), (Hk d' Hd').
  unfold strict_read_key, AppendU64. split; [|congruence].
  intros [E1 E2]%app_inj_2; [|by rewrite !length_be_bytes].
  apply EncodeFactKey_inj in E1; [|done..]. apply be_bytes_inj in E2; [|done..].
  congruence.
Qed.

Lemma edge_ids_NoDup is_ :
  NoDup ((fun i => (home_part_id i, edge_id i)) <$> is_) <->
  NoDup (edge_ref <$> is_).
Proof.
  apply NoDup_fmap_iff. intros i j _ _. unfold edge_ref.
  split; intros [= -> ->]; done.
Qed.

Lemma elem_of_edge_state_assertions p e ms :
  Forall (fun m => PendingFactMutation_Validate m = StatusOK) ms ->
  (p, e) ∈ edge_state_assertions ms <->
  exists m, m ∈ ms /\ mutation_ref m = EntityFact_Edge (mkEdgeRef p e) /\
            mutation_operation m = kPut.
Proof.
  rewrite Forall_forall. intros Hv. unfold edge_state_assertions.
  rewrite elem_of_list_to_set, list_elem_of_omap.
  split; intros (m & Hm & H); exists m; (split; [done|]).
  - destruct (bool_decide (_ = kEdgeState)) eqn:Hf,
      (bool_decide (_ = kPut)) eqn:Hp; simpl in H; simplify_eq.
    bool_to_prop. split; [|done]. specialize (Hv m Hm).
    unfold PendingFactMutation_Validate in Hv.
    destruct (ValidateMutation _ _ _ _) eqn:E; [|done].
    apply ValidateMutation_OK in E as [[_ [_ Hi]]%FactRef_Validate_OK _].
    destruct (mutation_ref m) as [? f q ?]. simpl in *. subst.
    unfold EntityFact_Edge. simpl. f_equal.
    destruct (Z.eq_dec q 0); [done|]. by apply Hi in n.
  - destruct H as [-> ->]. done.
Qed.

Lemma proper_loop {A S} (body : S -> A -> StatusOr S) l s :
  (forall s a, proper (body s a)) -> proper (loop body s l).
Proof.
  intros Hb. revert s. induction l; intros s; simpl; auto with cedar.
Qed.

#[export] Hint Resolve proper_loop : cedar.

Lemma StoreCommitBatch_Validate_proper b :
  proper (StoreCommitBatch_Validate_steps b).
Proof.
  unfold StoreCommitBatch_Validate_steps, InvalidArgument.
  repeat (apply proper_bind || intros); auto with cedar; apply proper_loop;
    intros; unfold add_fact, add_dependency, add_strict_read,
      add_edge_identity, emplace, InvalidArgument; auto with cedar.
Qed.

Lemma loop_mutations ms facts :
  Forall mutation_typed ms ->
  loop add_fact ∅ ms = Ok facts <->
  Forall (fun m => PendingFactMutation_Validate m = StatusOK) ms /\
  NoDup ((fun m => (mutation_ref m, mutation_valid_from m)) <$> ms) /\
  facts = list_to_set (mutation_key <$> ms).
Proof.
  intros Ht. rewrite (loop_unique _ (fun m => PendingFactMutation_Validate m = StatusOK) mutation_key).
  2: { intros ? m ? Hm. apply add_fact_Ok. by eapply Forall_forall in Ht. }
  rewrite (right_id_L ∅ (∪)). split.
  - intros (Hv & Hn & _ & ->). by rewrite mutation_keys_NoDup in Hn.
  - intros (Hv & Hn & ->). rewrite mutation_keys_NoDup by done.
    split_and!; [done..|set_solver|done].
Qed.

Lemma loop_dependencies ms ds :
  Forall mutation_typed ms -> Forall dependency_typed ds ->
  Forall (fun m => PendingFactMutation_Validate m = StatusOK) ms ->
  (exists s, loop (add_dependency (list_to_set (mutation_key <$> ms))) ∅ ds = Ok s)
  <->
  Forall (fun d => SnapshotWriteDependency_Validate d = StatusOK /\
            (swd_ref d, swd_valid_from d)
            ∈ (fun m => (mutation_ref m, mutation_valid_from m)) <$> ms) ds /\
  NoDup ((fun d => (swd_ref d, swd_valid_from d)) <$> ds).
Proof.
  intros Htm Htd Hv.
  pose proof (loop_unique (add_dependency (list_to_set (mutation_key <$> ms))) _
    dependency_key ds (fun s d s' _ => add_dependency_Ok _ s d s') ∅) as Hl.
  setoid_rewrite Hl. clear Hl.
  assert (Forall (fun d => SnapshotWriteDependency_Validate d = StatusOK /\
            dependency_key d ∈ (list_to_set (mutation_key <$> ms) : gset (list byte))) ds
          <-> Forall (fun d => SnapshotWriteDependency_Validate d = StatusOK /\
            (swd_ref d, swd_valid_from d)
            ∈ (fun m => (mutation_ref m, mutation_valid_from m)) <$> ms) ds) as Hf.
  { rewrite Forall_forall in Htd. rewrite !Forall_forall.
    split; intros H d Hd; destruct (H d Hd) as [? Hin]; (split; [done|]).
    - rewrite elem_of_list_to_set in Hin. by apply dependency_key_in in Hin; auto.
    - rewrite elem_of_list_to_set. apply dependency_key_in; auto. }
  split.
  - intros (s & H & Hn & _). rewrite Hf in H. split; [done|].
    rewrite dependency_keys_NoDup in Hn; try done.
    eapply Forall_impl; [exact H|]. tauto.
  - intros (H & Hn).
    assert (Forall (fun d => SnapshotWriteDependency_Validate d = StatusOK) ds)
      by (eapply Forall_impl; [exact H|tauto]).
    eexists. rewrite Hf, dependency_keys_NoDup by done.
    split_and!; [done..|set_solver|done].
Qed.

Lemma loop_strict_reads ds :
  Forall strict_read_typed ds ->
  (exists s, loop add_strict_read ∅ ds = Ok s) <->
  Forall (fun d => StrictReadDependency_Validate d = StatusOK) ds /\
  NoDup ((fun d => (srd_ref d, srd_valid_time d)) <$> ds).
Proof.
  intros Ht.
  pose proof (loop_unique add_strict_read _ strict_read_key ds
    (fun s d s' Hd => add_strict_read_Ok s d s' (proj1 (Forall_forall _ _) Ht d Hd))
    ∅) as Hl.
  setoid_rewrite Hl. clear Hl.
  split.
  - intros (s & Hv & Hn & _). by rewrite strict_read_keys_NoDup in Hn.
  - intros (Hv & Hn). eexists. rewrite strict_read_keys_NoDup by done.
    split_and!; [done..|set_solver|done].
Qed.

Lemma loop_edge_identities is_ s :
  loop add_edge_identity ∅ is_ = Ok s <->
  Forall (fun i => EdgeIdentity_Validate i = StatusOK) is_ /\
  NoDup (edge_ref <$> is_) /\
  s = list_to_set ((fun i => (home_part_id i, edge_id i)) <$> is_).
Proof.
  rewrite (loop_unique _ (fun i => EdgeIdentity_Validate i = StatusOK)
             (fun i => (home_part_id i, edge_id i))).
  2: { intros. apply add_edge_identity_Ok. }
  rewrite edge_ids_NoDup, (right_id_L ∅ (∪)). split.
  - tauto.
  - intros (? & ? & ->). split_and!; [done..|set_solver|done].
Qed.

Lemma edge_ids_asserted is_ ms :
  Forall (fun m => PendingFactMutation_Validate m = StatusOK) ms ->
  (list_to_set ((fun i => (home_part_id i, edge_id i)) <$> is_) : gset (Z * Z))
    ⊆ edge_state_assertions ms <->
  Forall (fun i => exists m, m ∈ ms /\
            mutation_ref m = EntityFact_Edge (edge_ref i) /\
            mutation_operation m = kPut) is_.
Proof.
  intros Hv. rewrite Forall_forall, elem_of_subseteq. split.
  - intros H i Hi. apply elem_of_edge_state_assertions; [done|].
    apply H, elem_of_list_to_set, list_elem_of_fmap. by exists i.
  - intros H [p e] Hin. rewrite elem_of_list_to_set, list_elem_of_fmap in Hin.
    destruct Hin as (i & [= -> ->] & Hi).
    apply elem_of_edge_state_assertions; [done|]. by apply H.
Qed.

Lemma StoreCommitBatch_Validate_OK b :
  batch_typed b ->
  StoreCommitBatch_Validate b = StatusOK <-> batch_ok b.
Proof.
  intros (Htm & Htd & Hts). unfold StoreCommitBatch_Validate.
  rewrite to_status_OK by apply StoreCommitBatch_Validate_proper.
  unfold StoreCommitBatch_Validate_steps, batch_ok. split.
  - intros [[] H]. inv_ok. bool_to_prop.
    match goal with K : loop add_fact _ _ = _ |- _ =>
      apply loop_mutations in K as (? & ? & ->); [|done] end.
    match goal with K : loop (add_dependency _) _ _ = _ |- _ =>
      destruct (proj1 (loop_dependencies _ _ Htm Htd ltac:(done))
                  (ex_intro _ _ K)) end.
    match goal with K : loop add_strict_read _ _ = _ |- _ =>
      destruct (proj1 (loop_strict_reads _ Hts) (ex_intro _ _ K)) end.
    match goal with K : loop add_edge_identity _ _ = _ |- _ =>
      apply loop_edge_identities in K as (? & ? & ->) end.
    rewrite edge_ids_asserted in H by done.
    split_and!; try done. by apply Forall_and.
  - intros (? & ? & ? & Hm & ? & Hd & ? & ? & ? & [? ?]%Forall_and & ?).
    exists tt. rewrite !(proj2 (Z.eqb_neq _ _)), bool_decide_false by done.
    cbn [negb andb require]. rewrite bind_Ok. exists tt. split; [done|].
    rewrite bind_Ok. eexists. split; [by apply loop_mutations|].
    destruct (proj2 (loop_dependencies (mutations b)
                (snapshot_write_dependencies b) Htm Htd Hm)) as [? ->]; [done|].
    destruct (proj2 (loop_strict_reads (strict_read_dependencies b) Hts))
      as [? ->]; [done|].
    cbn beta iota delta [mbind StatusOr_bind].
    rewrite (proj2 (loop_edge_identities (edge_identities b)
      (list_to_set ((fun i => (home_part_id i, edge_id i)) <$> edge_identities b))))
      by by split_and!.
    apply require_Ok, bool_decide_eq_true. by apply edge_ids_asserted.
Qed.

(** ** Properties *)

(** A batch with fields of the declared widths passes validation exactly
    when it names a transaction and a time, has mutations that are valid and
    hit distinct boundaries, has dependencies that are valid, distinct and each
    about one of the mutated boundaries, has valid and distinct strict reads,
    and has valid edge identities for distinct edges, each of which a mutation
    of the batch asserts. *)
Theorem StoreCommitBatch_Validate_spec b :
  batch_typed b ->
  StoreCommitBatch_Validate b = StatusOK <-> batch_ok b.
Proof. apply StoreCommitBatch_Validate_OK. Qed.

Lemma StoreCommitBatch_Validate_spec_witness : batch_ok sample_batch.
Proof.
  apply StoreCommitBatch_Validate_spec.
  - split_and!; repeat constructor; unfold uint; simpl; lia.
  - vm_compute. reflexivity.
Defined.
