(* ===== verification/PreparedCodec.v ===== *)
(** * PreparedCodec: records of prepared and decided transactions

    Models [src/storage/facts/prepared_commit_codec.cc].  A prepared transaction
    is the whole commit batch in one checksummed record; an abort terminal holds
    the transaction only; an external decision holds the outcome and its
    certificate.  Functions that append to an output string take it and return
    it extended. *)

From S2P Require Import Prelude Status Crc32c Wire Value Fact FactCodec Frame.
From S2P Require Import CommitBatch.

Definition kRecordVersion : Z := 1.
Definition kPreparedRecord : Z := 1.
Definition kAbortedRecord : Z := 2.
Definition kPreparedDecisionRecord : Z := 3.
Definition kMaxPayloadBytes : Z := 16 * 1024 * 1024.

Definition EncodeRecord (kind : Z) (payload : list byte)
  : StatusOr (list byte) :=
  encode_frame kRecordVersion kind kMaxPayloadBytes
    (InvalidArgument "async prepare" "payload exceeds size limit") payload.

Definition DecodeRecord (expected_kind : Z) (encoded : list byte)
  : StatusOr (list byte) :=
  decode_frame kRecordVersion expected_kind kMaxPayloadBytes
    (Corruption "async prepare" "truncated record")
    (Corruption "async prepare" "invalid record header")
    (Corruption "async prepare" "CRC32C mismatch") encoded.

Definition AppendMutation (payload : list byte) (m : PendingFactMutation)
  : StatusOr (list byte) :=
  let key := EncodeFactKey (mutation_ref m) (mutation_valid_from m) 1 in
  _ ← require (negb (length key =? 0)%nat)
        (InvalidArgument "async prepare" "invalid mutation");
  value ← EncodeFactValue
            (mkFactEvent (mutation_ref m) (mutation_valid_from m) 1
               (mutation_operation m) (mutation_schema_epoch m)
               (mutation_value m) None);
  Ok (AppendU32 (payload ++ key) (wrap 32 (Z.of_nat (length value))) ++ value).

Definition ReadMutation (payload : list byte) (offset : nat)
  : StatusOr (PendingFactMutation * nat) :=
  if (length payload - offset <? kEncodedFactKeyBytes)%nat then
    Fail (Corruption "async prepare" "truncated mutation key")
  else
    key ← DecodeFactKey (take kEncodedFactKeyBytes (drop offset payload));
    let offset := (offset + kEncodedFactKeyBytes)%nat in
    let invalid := Corruption "async prepare" "invalid mutation value length" in
    '(value_size, offset) ← from_option (ReadU32 payload offset) invalid;
    if Z.of_nat (length payload - offset) <? value_size then Fail invalid
    else
      event ← DecodeFactValue (key_ref key) (key_valid_from key) 1
                (take (Z.to_nat value_size) (drop offset payload));
      Ok (mkPendingFactMutation (event_ref event) (event_valid_from event)
            (event_operation event) (event_schema_epoch event)
            (event_value event), (offset + Z.to_nat value_size)%nat).

Definition AppendOptionalTime (payload : list byte) (value : option Z)
  : list byte :=
  match value with
  | Some v => AppendU64 (payload ++ [z2b 1]) v
  | None => payload ++ [z2b 0]
  end.

Definition ReadOptionalTime (payload : list byte) (offset : nat)
  : option (option Z * nat) :=
  if (offset =? length payload)%nat then None
  else
    let present := byte_at payload offset in
    if 1 <? present then None
    else if present =? 0 then Some (None, S offset)
    else '(time, offset) ← ReadU64 payload (S offset); Some (Some time, offset).

Definition AppendRef (payload : list byte) (ref : FactRef) : list byte :=
  AppendU64 (AppendU16
    (AppendU32 payload (ref_part_id ref)
     ++ [z2b (FactFamily_to_u8 (ref_family ref))])
    (ref_property_id ref)) (ref_entity_id ref).

Definition ReadRef (payload : list byte) (offset : nat)
  : option (FactRef * nat) :=
  if (length payload - offset <? 15)%nat then None
  else
    '(part_id, offset) ← ReadU32 payload offset;
    let family := byte_at payload offset in
    '(property_id, offset) ← ReadU16 payload (S offset);
    '(entity_id, offset) ← ReadU64 payload offset;
    let ref := mkFactRef part_id (FactFamily_of_u8 family) property_id
                 entity_id in
    if status_ok (FactRef_Validate ref) then Some (ref, offset) else None.

Definition PreparedCommitPrefix : list byte := literal "async/prepare/".

Definition EncodePreparedCommitKey (txn : Z) : StatusOr (list byte) :=
  if txn =? 0 then
    Fail (InvalidArgument "async prepare" "zero transaction ID")
  else Ok (AppendU64 PreparedCommitPrefix txn).

(** The bodies of the four loops of [EncodePreparedCommit]. *)
Definition AppendIdentity (payload : list byte) (i : EdgeIdentity) : list byte :=
  AppendU64 (AppendU64 (AppendU32 (AppendU64 (AppendU32 (AppendU64
    (AppendU32 payload (home_part_id i)) (edge_id i)) (source_part_id i))
    (source_vertex_id i)) (target_part_id i)) (target_vertex_id i))
    (edge_type i).

Definition AppendDependency (payload : list byte) (d : SnapshotWriteDependency)
  : list byte :=
  let payload := AppendRef payload (swd_ref d) in
  let payload := AppendU64 payload (swd_valid_from d) in
  let payload := AppendOptionalTime payload (swd_predecessor d) in
  let payload := AppendOptionalTime payload (swd_successor d) in
  AppendU64 payload (swd_snapshot_seq d).

Definition AppendObserved (payload : list byte) (observed : option FactEvent)
  : StatusOr (list byte) :=
  match observed with
  | None => Ok (payload ++ [z2b 0])
  | Some event =>
      let key := EncodeFactKey (event_ref event) (event_valid_from event)
                   (event_commit_seq event) in
      match EncodeFactValue event with
      | Ok value =>
          if (length key =? 0)%nat then
            Fail (InvalidArgument "async prepare" "invalid observed event")
          else
            Ok (AppendU32 ((payload ++ [z2b 1]) ++ key)
                  (wrap 32 (Z.of_nat (length value))) ++ value)
      | Fail _ =>
          Fail (InvalidArgument "async prepare" "invalid observed event")
      end
  end.

Definition AppendStrictRead (payload : list byte) (d : StrictReadDependency)
  : StatusOr (list byte) :=
  let payload := AppendRef payload (srd_ref d) in
  let payload := AppendU64 payload (srd_valid_time d) in
  let payload := AppendU64 payload (srd_snapshot_seq d) in
  payload ← AppendObserved payload (srd_observed_event d);
  let payload := AppendOptionalTime payload (srd_predecessor d) in
  Ok (AppendOptionalTime payload (srd_successor d)).

Definition AppendCount {A} (payload : list byte) (l : list A) : list byte :=
  AppendU32 payload (wrap 32 (Z.of_nat (length l))).

Definition EncodePreparedCommit (b : StoreCommitBatch)
  : StatusOr (list byte) :=
  _ ← check (StoreCommitBatch_Validate b);
  let payload := AppendU64 [] (txn_id b) in
  let payload := AppendU64 payload (system_hlc b) in
  let payload := AppendCount payload (mutations b) in
  payload ← loop AppendMutation payload (mutations b);
  let payload := AppendCount payload (edge_identities b) in
  let payload := fold_left AppendIdentity (edge_identities b) payload in
  let payload := AppendCount payload (snapshot_write_dependencies b) in
  let payload :=
    fold_left AppendDependency (snapshot_write_dependencies b) payload in
  let payload := AppendCount payload (strict_read_dependencies b) in
  payload ← loop AppendStrictRead payload (strict_read_dependencies b);
  EncodeRecord kPreparedRecord payload.

(** The bodies of the loops of [DecodePreparedCommit]. *)
Definition ReadIdentity (payload : list byte) (offset : nat)
  : StatusOr (EdgeIdentity * nat) :=
  from_option (read_identity payload offset)
    (Corruption "async prepare" "truncated edge identity").

Definition ReadDependency (payload : list byte) (offset : nat)
  : StatusOr (SnapshotWriteDependency * nat) :=
  let invalid := Corruption "async prepare" "invalid snapshot dependency" in
  '(ref, offset) ← from_option (ReadRef payload offset) invalid;
  '(valid_from, offset) ← from_option (ReadU64 payload offset) invalid;
  '(predecessor, offset) ← from_option (ReadOptionalTime payload offset) invalid;
  '(successor, offset) ← from_option (ReadOptionalTime payload offset) invalid;
  '(snapshot_seq, offset) ← from_option (ReadU64 payload offset) invalid;
  Ok (mkSnapshotWriteDependency ref valid_from predecessor successor
        snapshot_seq, offset).

Definition ReadObserved (payload : list byte) (offset : nat)
  : StatusOr (option FactEvent * nat) :=
  let observed := byte_at payload offset in
  let offset := S offset in
  if 1 <? observed then
    Fail (Corruption "async prepare" "invalid observed marker")
  else if observed =? 1 then
    if (length payload - offset <? kEncodedFactKeyBytes)%nat then
      Fail (Corruption "async prepare" "truncated observed key")
    else
      key ← DecodeFactKey (take kEncodedFactKeyBytes (drop offset payload));
      let offset := (offset + kEncodedFactKeyBytes)%nat in
      let invalid := Corruption "async prepare" "invalid observed value" in
      '(value_size, offset) ← from_option (ReadU32 payload offset) invalid;
      if Z.of_nat (length payload - offset) <? value_size then Fail invalid
      else
        event ← DecodeFactValue (key_ref key) (key_valid_from key)
                  (key_commit_seq key)
                  (take (Z.to_nat value_size) (drop offset payload));
        Ok (Some event, (offset + Z.to_nat value_size)%nat)
  else Ok (None, offset).

Definition ReadStrictRead (payload : list byte) (offset : nat)
  : StatusOr (StrictReadDependency * nat) :=
  let invalid := Corruption "async prepare" "invalid strict dependency" in
  let bad_fences := Corruption "async prepare" "invalid strict fences" in
  '(ref, offset) ← from_option (ReadRef payload offset) invalid;
  '(valid_time, offset) ← from_option (ReadU64 payload offset) invalid;
  '(snapshot_seq, offset) ← from_option (ReadU64 payload offset) invalid;
  if (offset =? length payload)%nat then Fail invalid
  else
    '(observed_event, offset) ← ReadObserved payload offset;
    '(predecessor, offset) ←
       from_option (ReadOptionalTime payload offset) bad_fences;
    '(successor, offset) ←
       from_option (ReadOptionalTime payload offset) bad_fences;
    Ok (mkStrictReadDependency ref valid_time snapshot_seq observed_event
          predecessor successor, offset).

(** [for (index = 0; index < count; ++index) push_back(Read(payload,
    &offset))]. *)
Fixpoint read_n {A} (read : list byte -> nat -> StatusOr (A * nat)) (count : nat)
    (payload : list byte) (offset : nat) : StatusOr (list A * nat) :=
  match count with
  | O => Ok ([], offset)
  | S count' =>
      '(a, offset) ← read payload offset;
      '(rest, offset) ← read_n read count' payload offset;
      Ok (a :: rest, offset)
  end.

(** Reads a count and that many elements. *)
Definition read_counted {A} (what : string)
    (read : list byte -> nat -> StatusOr (A * nat)) (payload : list byte)
    (offset : nat) : StatusOr (list A * nat) :=
  '(count, offset) ← from_option (ReadU32 payload offset)
                       (Corruption "async prepare" what);
  read_n read (Z.to_nat count) payload offset.

Definition DecodePreparedCommit (encoded : list byte)
  : StatusOr StoreCommitBatch :=
  payload ← DecodeRecord kPreparedRecord encoded;
  let truncated := Corruption "async prepare" "truncated batch header" in
  '(txn, offset) ← from_option (ReadU64 payload 0) truncated;
  '(hlc, offset) ← from_option (ReadU64 payload offset) truncated;
  '(ms, offset) ← read_counted "truncated batch header" ReadMutation payload
                    offset;
  '(ids, offset) ← read_counted "truncated edge count" ReadIdentity payload
                     offset;
  '(deps, offset) ← read_counted "truncated snapshot dependency count"
                      ReadDependency payload offset;
  '(reads, offset) ← read_counted "truncated strict dependency count"
                       ReadStrictRead payload offset;
  if negb (offset =? length payload)%nat then
    Fail (Corruption "async prepare" "trailing bytes")
  else validated "async prepare" StoreCommitBatch_Validate
         (mkStoreCommitBatch txn hlc ms ids deps reads false).

Definition AsyncTerminalPrefix : list byte := literal "async/terminal/".

Definition EncodeAsyncTerminalKey (txn : Z) : StatusOr (list byte) :=
  if txn =? 0 then
    Fail (InvalidArgument "async terminal" "zero transaction ID")
  else Ok (AppendU64 AsyncTerminalPrefix txn).

Definition valid_txn (txn : Z) : Status :=
  if txn =? 0 then InvalidArgument "async terminal" "zero transaction ID"
  else StatusOK.

Definition EncodeAsyncAbortTerminal (txn : Z) : StatusOr (list byte) :=
  _ ← check (valid_txn txn);
  EncodeRecord kAbortedRecord (AppendU64 [] txn).

Definition DecodeAsyncAbortTerminal (encoded : list byte) : StatusOr Z :=
  payload ← DecodeRecord kAbortedRecord encoded;
  let invalid := Corruption "async terminal" "invalid aborted record" in
  '(txn, offset) ← from_option (ReadU64 payload 0) invalid;
  if negb (offset =? length payload)%nat || (txn =? 0) then Fail invalid
  else Ok txn.

Inductive StorePreparedDecisionOutcome :=
| kCommit | kAbort | kUnknownDecision (raw : Z).

Definition DecisionOutcome_to_u8 (o : StorePreparedDecisionOutcome) : Z :=
  match o with kCommit => 1 | kAbort => 2 | kUnknownDecision raw => raw end.

Definition DecisionOutcome_of_u8 (z : Z) : StorePreparedDecisionOutcome :=
  if z =? 1 then kCommit else if z =? 2 then kAbort else kUnknownDecision z.

Definition IsKnownDecision (o : StorePreparedDecisionOutcome) : bool :=
  match o with kUnknownDecision _ => false | _ => true end.

Record StorePreparedDecision := mkStorePreparedDecision {
  decision_txn_id : Z;
  decision_outcome : StorePreparedDecisionOutcome;
  certificate : list byte
}.

Definition EncodePreparedDecisionKey (txn : Z) : StatusOr (list byte) :=
  if txn =? 0 then
    Fail (InvalidArgument "prepared decision" "zero transaction ID")
  else Ok (AppendU64 (literal "external/decision/") txn).

Definition decision_check (d : StorePreparedDecision) : Status :=
  if (decision_txn_id d =? 0) || (length (certificate d) =? 0)%nat
     || (kMaxPayloadBytes - 13 <? Z.of_nat (length (certificate d)))
     || negb (IsKnownDecision (decision_outcome d))
  then InvalidArgument "prepared decision" "invalid decision"
  else StatusOK.

Definition EncodePreparedDecision (d : StorePreparedDecision)
  : StatusOr (list byte) :=
  _ ← check (decision_check d);
  let payload := AppendU64 [] (decision_txn_id d) in
  let payload := payload ++ [z2b (DecisionOutcome_to_u8 (decision_outcome d))] in
  let payload :=
    AppendU32 payload (wrap 32 (Z.of_nat (length (certificate d)))) in
  let payload := payload ++ certificate d in
  EncodeRecord kPreparedDecisionRecord payload.

Definition DecodePreparedDecision (encoded : list byte)
  : StatusOr StorePreparedDecision :=
  payload ← DecodeRecord kPreparedDecisionRecord encoded;
  let truncated := Corruption "prepared decision" "truncated decision" in
  let invalid := Corruption "prepared decision" "invalid decision" in
  '(txn, offset) ← from_option (ReadU64 payload 0) truncated;
  if (offset =? length payload)%nat then Fail truncated
  else
    let outcome := DecisionOutcome_of_u8 (byte_at payload offset) in
    '(certificate_size, offset) ←
       from_option (ReadU32 payload (S offset)) invalid;
    if (certificate_size =? 0)
       || negb (certificate_size =? Z.of_nat (length payload - offset))
       || (txn =? 0) || negb (IsKnownDecision outcome)
    then Fail invalid
    else Ok (mkStorePreparedDecision txn outcome
               (take (Z.to_nat certificate_size) (drop offset payload))).

(** ** Specification *)

(** The reader [read] finds [a] where [chunk] lies. *)
Definition reads {A} (read : list byte -> nat -> StatusOr (A * nat)) (a : A)
    (chunk : list byte) : Prop :=
  forall payload offset rest, suffix_at payload offset (chunk ++ rest) ->
  read payload offset = Ok (a, (offset + length chunk)%nat).

(** What each append adds. *)
Definition optional_time_bytes (value : option Z) : list byte :=
  match value with Some v => z2b 1 :: be_bytes 8 v | None => [z2b 0] end.

Definition optional_time_typed (value : option Z) : Prop :=
  match value with Some v => uint 64 v | None => True end.

Definition ref_chunk (ref : FactRef) : list byte :=
  be_bytes 4 (ref_part_id ref) ++ z2b (FactFamily_to_u8 (ref_family ref)) ::
  be_bytes 2 (ref_property_id ref) ++ be_bytes 8 (ref_entity_id ref).

Definition ref_ok (r : FactRef) : Prop :=
  ref_typed r /\ FactRef_Validate r = StatusOK.

Definition keyed_value (key value : list byte) : list byte :=
  key ++ be_bytes 4 (Z.of_nat (length value)) ++ value.

Definition mutation_event (m : PendingFactMutation) : FactEvent :=
  mkFactEvent (mutation_ref m) (mutation_valid_from m) 1 (mutation_operation m)
    (mutation_schema_epoch m) (mutation_value m) None.

Definition mutation_chunk (m : PendingFactMutation) (chunk : list byte) : Prop :=
  exists value, EncodeFactValue (mutation_event m) = Ok value /\
    chunk = keyed_value (mutation_key m) value.

Definition dependency_chunk (d : SnapshotWriteDependency) : list byte :=
  ref_chunk (swd_ref d) ++ be_bytes 8 (swd_valid_from d) ++
  optional_time_bytes (swd_predecessor d) ++
  optional_time_bytes (swd_successor d) ++ be_bytes 8 (swd_snapshot_seq d).

Definition observed_chunk (o : option FactEvent) (chunk : list byte) : Prop :=
  match o with
  | None => chunk = [z2b 0]
  | Some e => exists value, EncodeFactValue e = Ok value /\
      chunk = z2b 1 :: keyed_value
        (EncodeFactKey (event_ref e) (event_valid_from e) (event_commit_seq e))
        value
  end.

Definition strict_chunk (d : StrictReadDependency) (chunk : list byte) : Prop :=
  exists observed, observed_chunk (srd_observed_event d) observed /\
    chunk = ref_chunk (srd_ref d) ++ be_bytes 8 (srd_valid_time d) ++
      be_bytes 8 (srd_snapshot_seq d) ++ observed ++
      optional_time_bytes (srd_predecessor d) ++
      optional_time_bytes (srd_successor d).

Definition dependency_full (d : SnapshotWriteDependency) : Prop :=
  dependency_typed d /\ optional_time_typed (swd_predecessor d) /\
  optional_time_typed (swd_successor d).

Definition strict_read_full (d : StrictReadDependency) : Prop :=
  strict_read_typed d /\ optional_time_typed (srd_predecessor d) /\
  optional_time_typed (srd_successor d) /\
  match srd_observed_event d with Some e => event_typed e | None => True end.

(** The field widths of everything a prepared record stores. *)
Definition prepared_typed (b : StoreCommitBatch) : Prop :=
  uint 64 (txn_id b) /\ uint 64 (system_hlc b) /\
  Forall mutation_typed (mutations b) /\
  Forall identity_typed (edge_identities b) /\
  Forall dependency_full (snapshot_write_dependencies b) /\
  Forall strict_read_full (strict_read_dependencies b).

(** The batch as recovery sees it: the transaction ID is no longer known to be
    fresh. *)
Definition recovered (b : StoreCommitBatch) : StoreCommitBatch :=
  mkStoreCommitBatch (txn_id b) (system_hlc b) (mutations b)
    (edge_identities b) (snapshot_write_dependencies b)
    (strict_read_dependencies b) false.

Definition decision_typed (d : StorePreparedDecision) : Prop :=
  uint 64 (decision_txn_id d).

Definition counted {A} (l : list A) (chunks : list (list byte)) : list byte :=
  be_bytes 4 (Z.of_nat (length l)) ++ concat chunks.

Definition sample_prepared : StoreCommitBatch :=
  mkStoreCommitBatch 5 77
    [mkPendingFactMutation (mkFactRef 1 kVertexProperty 2 3) 10 kPut 1
       (Some (VInt32 7));
     mkPendingFactMutation (mkFactRef 1 kEdgeState 0 8) 10 kPut 0 None]
    [mkEdgeIdentity 8 3 4 2 1 1 6]
    [mkSnapshotWriteDependency (mkFactRef 1 kVertexProperty 2 3) 10 None
       (Some 20) 4]
    [mkStrictReadDependency (mkFactRef 1 kVertexProperty 2 3) 9 8
       (Some sample_event) None (Some 10)] true.

Definition sample_prepared_bytes : list byte :=
  match EncodePreparedCommit sample_prepared with Ok b => b | Fail _ => [] end.

(** ** Readers and writers *)

#[export] Instance Prepared_frame :
  Frame (EncodeRecord kPreparedRecord) (DecodeRecord kPreparedRecord).
Proof. by apply frame_instance. Qed.

#[export] Instance Aborted_frame :
  Frame (EncodeRecord kAbortedRecord) (DecodeRecord kAbortedRecord).
Proof. by apply frame_instance. Qed.

#[export] Instance Decision_frame :
  Frame (EncodeRecord kPreparedDecisionRecord)
    (DecodeRecord kPreparedDecisionRecord).
Proof. by apply frame_instance. Qed.

#[export] Instance Wire_optional_time :
  Wire ReadOptionalTime optional_time_bytes optional_time_typed.
Proof.
  split.
  - intros input offset [v|] rest Ht Hs; simpl in *; unfold ReadOptionalTime;
      pose proof (suffix_at_length _ _ _ Hs) as Hl;
      autorewrite with cedar_len in Hl;
      rewrite (proj2 (Nat.eqb_neq _ _)) by lia; repeat wire_step;
      rewrite b2z_z2b_uint by done; simpl Z.ltb; simpl Z.eqb; cbv iota.
    + repeat wire_step. do 2 f_equal. autorewrite with cedar_len. lia.
    + do 2 f_equal. lia.
  - intros input offset v offset' Hle H. unfold ReadOptionalTime in H.
    destruct (Nat.eqb_spec offset (length input)); [done|].
    pose proof (byte_at_uint input offset) as Hb.
    destruct (Z.ltb_spec 1 (byte_at input offset)); [done|].
    rewrite (drop_byte_at input offset) by lia.
    destruct (Z.eqb_spec (byte_at input offset) 0) as [->|].
    + simplify_eq. simpl. split_and!; try done; lia.
    + wire_inv. wire_inv. simplify_eq. simpl.
      replace (byte_at input offset) with 1 by (unfold uint in Hb; lia).
      wire_subst. autorewrite with cedar_len.
      split; [done|]. split_and!; [lia|lia|done].
Qed.

Lemma length_ref_chunk r : length (ref_chunk r) = 15%nat.
Proof. unfold ref_chunk. by autorewrite with cedar_len. Qed.

#[export] Hint Rewrite length_ref_chunk : cedar_len.

#[export] Instance Wire_ref : Wire ReadRef ref_chunk ref_ok.
Proof.
  split.
  - intros input offset r rest [(? & ? & ? & ?) Hv] Hs.
    pose proof (suffix_at_length _ _ _ Hs) as Hl. autorewrite with cedar_len in *.
    unfold ref_chunk in Hs. unfold ReadRef.
    rewrite (proj2 (Nat.ltb_ge _ _)) by lia. repeat wire_step.
    rewrite b2z_z2b_uint, FactFamily_of_to by
      (done || by apply FactRef_Validate_OK in Hv as [? _]).
    destruct r; simpl in *. rewrite Hv. simpl.
    do 2 f_equal. autorewrite with cedar_len. lia.
  - intros input offset r offset' Hle H. unfold ReadRef in H.
    destruct (Nat.ltb_spec (length input - offset) 15); [done|].
    apply bind_Some in H as ([p o1] & Hr1 & H). wire_inv. cbv zeta in H.
    repeat wire_inv.
    destruct (status_ok _) eqn:Hok; [|done]. apply status_ok_spec in Hok.
    injection H as <- <-. autorewrite with cedar_len. split; [split|].
    + unfold ref_typed. simpl. rewrite FactFamily_to_of. auto with cedar.
    + done.
    + split_and!; [lia|lia|]. unfold ref_chunk. simpl. rewrite FactFamily_to_of.
      wire_subst. rewrite (drop_byte_at input o1) by lia. wire_subst.
      cbn [app]. by rewrite <- !app_assoc.
Qed.

Lemma EncodeFactValue_size e value :
  EncodeFactValue e = Ok value -> uint 32 (Z.of_nat (length value)).
Proof.
  intros (_ & kind & payload & Hp & ->)%EncodeFactValue_Ok.
  apply event_payload_Ok in Hp as [Hl _].
  unfold value_body, kMaxFactValuePayloadBytes in *. unfold uint.
  autorewrite with cedar_len. lia.
Qed.

(** Where a key and its value lie, the length checks pass and the two pieces
    are cut out. *)
Lemma keyed_value_at payload offset key value rest :
  length key = kEncodedFactKeyBytes -> uint 32 (Z.of_nat (length value)) ->
  suffix_at payload offset (keyed_value key value ++ rest) ->
  (length payload - offset <? kEncodedFactKeyBytes)%nat = false /\
  take kEncodedFactKeyBytes (drop offset payload) = key /\
  ReadU32 payload (offset + kEncodedFactKeyBytes)
  = Some (Z.of_nat (length value), (offset + kEncodedFactKeyBytes + 4)%nat) /\
  (Z.of_nat (length payload - (offset + kEncodedFactKeyBytes + 4))
   <? Z.of_nat (length value)) = false /\
  take (length value) (drop (offset + kEncodedFactKeyBytes + 4) payload) = value.
Proof.
  intros Hk Hv Hs. unfold keyed_value in Hs. rewrite <- !app_assoc in Hs.
  pose proof (suffix_at_length _ _ _ Hs) as Hl. autorewrite with cedar_len in Hl.
  rewrite Hk in Hl. split; [apply Nat.ltb_ge; lia|].
  pose proof (suffix_at_take _ _ _ _ Hs) as Ht. rewrite Hk in Ht.
  split; [done|]. apply suffix_at_skip in Hs. rewrite Hk in Hs.
  wire_step. autorewrite with cedar_len in *. split; [done|].
  split; [apply Z.ltb_ge; lia|]. by apply suffix_at_take in Hs.
Qed.

Lemma length_keyed_value key value :
  length (keyed_value key value) = (length key + 4 + length value)%nat.
Proof. unfold keyed_value. autorewrite with cedar_len. lia. Qed.

Lemma mutation_event_typed m : mutation_typed m -> payload_typed (mutation_event m).
Proof. intros (_ & _ & ? & ?). by unfold payload_typed. Qed.

Lemma reads_mutation m chunk :
  mutation_typed m -> PendingFactMutation_Validate m = StatusOK ->
  mutation_chunk m chunk -> reads ReadMutation m chunk.
Proof.
  intros Ht Hv (value & He & ->) payload offset rest Hs.
  pose proof (key_ok_mutation m Ht Hv) as Hk.
  pose proof Hk as (_ & ? & _ & _ & ?).
  assert (length (mutation_key m) = kEncodedFactKeyBytes) as Hlk
    by by apply length_EncodeFactKey.
  destruct (keyed_value_at _ _ _ _ _ Hlk (EncodeFactValue_size _ _ He) Hs)
    as (H1 & H2 & H3 & H4 & H5).
  unfold ReadMutation. rewrite H1, H2. unfold mutation_key.
  rewrite DecodeFactKey_Encode by done. cbn [mbind StatusOr_bind]. cbv zeta.
  rewrite H3. cbn [mbind StatusOr_bind from_option]. rewrite H4, Nat2Z.id, H5.
  cbn [key_ref key_valid_from].
  pose proof (DecodeFactValue_Encode _ _ (mutation_event_typed m Ht) He) as E.
  cbn [mutation_event event_ref event_valid_from event_commit_seq] in E.
  rewrite E. cbn [mbind StatusOr_bind mutation_event event_ref event_valid_from
    event_operation event_schema_epoch event_value].
  rewrite length_keyed_value. fold (mutation_key m). rewrite Hlk.
  rewrite !Nat.add_assoc. by destruct m.
Qed.

Lemma reads_identity i :
  identity_typed i -> reads ReadIdentity i (identity_bytes i).
Proof.
  intros Ht payload offset rest Hs. unfold ReadIdentity. by wire_step.
Qed.

Lemma reads_dependency d :
  dependency_full d -> FactRef_Validate (swd_ref d) = StatusOK ->
  reads ReadDependency d (dependency_chunk d).
Proof.
  intros ((? & ? & ?) & ? & ?) Hv payload offset rest Hs.
  assert (ref_ok (swd_ref d)) by by split.
  unfold dependency_chunk in *. unfold ReadDependency. repeat wire_step.
  destruct d. simpl. do 2 f_equal. autorewrite with cedar_len. lia.
Qed.

Lemma reads_observed o chunk :
  match o with Some e => event_typed e | None => True end ->
  observed_chunk o chunk -> reads ReadObserved o chunk.
Proof.
  intros Ht Hc payload offset rest Hs. unfold ReadObserved.
  destruct o as [e|]; simpl in Hc.
  - destruct Hc as (value & He & ->). destruct Ht as (? & ? & ? & ? & ? & ?).
    pose proof (proj1 (EncodeFactValue_Ok _ _) He) as [Hv _].
    assert (key_ok (event_ref e) (event_valid_from e) (event_commit_seq e)) as Hk.
    { pose proof (FactEvent_Validate_ref _ Hv).
      apply FactEvent_Validate_OK in Hv as (? & _). by unfold key_ok. }
    set (key := EncodeFactKey _ _ _) in *.
    assert (length key = kEncodedFactKeyBytes) as Hlk.
    { destruct Hk as (_ & ? & _ & _ & ?). by apply length_EncodeFactKey. }
    cbn [app] in Hs. wire_step. rewrite b2z_z2b_uint by done.
    simpl Z.ltb. simpl Z.eqb. cbv iota.
    destruct (keyed_value_at _ _ _ _ _ Hlk (EncodeFactValue_size _ _ He) Hs)
      as (H1' & H2' & H3' & H4' & H5').
    rewrite H1', H2'. unfold key. rewrite DecodeFactKey_Encode by done.
    cbn [mbind StatusOr_bind]. cbv zeta. rewrite H3'.
    cbn [mbind StatusOr_bind from_option]. rewrite H4', Nat2Z.id, H5'.
    cbn [key_ref key_valid_from key_commit_seq].
    rewrite (DecodeFactValue_Encode e value) by (done || by unfold payload_typed).
    cbn [mbind StatusOr_bind]. rewrite length_cons, length_keyed_value.
    fold key. rewrite Hlk. do 2 f_equal. unfold kEncodedFactKeyBytes. lia.
  - subst chunk. cbn [app] in Hs. wire_step. rewrite b2z_z2b_uint by done.
    simpl. do 2 f_equal. lia.
Qed.

Lemma observed_chunk_nonempty o chunk : observed_chunk o chunk -> chunk <> [].
Proof. destruct o; simpl; [by intros (? & _ & ->)|by intros ->]. Qed.

Lemma reads_strict d chunk :
  strict_read_full d -> FactRef_Validate (srd_ref d) = StatusOK ->
  strict_chunk d chunk -> reads ReadStrictRead d chunk.
Proof.
  intros ((? & ? & ?) & ? & ? & Ho) Hv (obs & Hobs & ->) payload offset rest Hs.
  assert (ref_ok (srd_ref d)) by by split.
  pose proof (observed_chunk_nonempty _ _ Hobs) as Hne.
  unfold ReadStrictRead. do 6 wire_step.
  pose proof (suffix_at_length _ _ _ Hs) as Hl. rewrite !length_app in Hl.
  assert (length obs <> 0)%nat by (by destruct obs).
  rewrite (proj2 (Nat.eqb_neq _ _)) by lia. rewrite <- !app_assoc in Hs.
  rewrite (reads_observed _ _ Ho Hobs _ _ _ Hs). apply suffix_at_skip in Hs.
  cbn [mbind StatusOr_bind]. repeat wire_step.
  destruct d. simpl. do 2 f_equal. autorewrite with cedar_len. lia.
Qed.

Lemma reads_n {A} (read : list byte -> nat -> StatusOr (A * nat)) l chunks :
  Forall2 (reads read) l chunks ->
  reads (read_n read (length l)) l (concat chunks).
Proof.
  induction 1 as [|a c l chunks Ha _ IH]; intros payload offset rest Hs.
  - simpl. by rewrite Nat.add_0_r.
  - cbn [concat length read_n] in *. rewrite <- app_assoc in Hs.
    rewrite (Ha _ _ _ Hs). apply suffix_at_skip in Hs.
    cbn [mbind StatusOr_bind]. rewrite (IH _ _ _ Hs).
    cbn [mbind StatusOr_bind]. rewrite length_app. do 2 f_equal. lia.
Qed.

Lemma reads_counted {A} what (read : list byte -> nat -> StatusOr (A * nat))
    l chunks :
  uint 32 (Z.of_nat (length l)) -> Forall2 (reads read) l chunks ->
  reads (read_counted what read) l (counted l chunks).
Proof.
  intros Hu Hc payload offset rest Hs. unfold counted in *. unfold read_counted.
  rewrite <- app_assoc in Hs. wire_step. rewrite Nat2Z.id.
  rewrite (reads_n _ _ _ Hc _ _ _ Hs). do 2 f_equal.
  autorewrite with cedar_len. lia.
Qed.

(** ** What the encoder writes *)

Lemma loop_append {A} (f : list byte -> A -> StatusOr (list byte))
    (chunk : A -> list byte -> Prop) :
  (forall p a q, f p a = Ok q -> exists c, chunk a c /\ q = p ++ c) ->
  forall l p q, loop f p l = Ok q ->
  exists chunks, Forall2 chunk l chunks /\ q = p ++ concat chunks.
Proof.
  intros Hf l. induction l as [|a l IH]; intros p q H; cbn [loop] in H.
  - apply Ok_inj in H as <-. exists []. by rewrite app_nil_r.
  - apply bind_Ok in H as (q' & Hq & H). apply Hf in Hq as (c & ? & ->).
    apply IH in H as (chunks & ? & ->). exists (c :: chunks).
    split; [by constructor|]. cbn [concat]. by rewrite app_assoc.
Qed.

Lemma fold_append {A} (f : list byte -> A -> list byte) (g : A -> list byte) :
  (forall p a, f p a = p ++ g a) ->
  forall l p, fold_left f l p = p ++ concat (g <$> l).
Proof.
  intros Hf l. induction l as [|a l IH]; intros p; cbn [fold_left].
  - by rewrite app_nil_r.
  - rewrite IH, Hf, <- app_assoc. done.
Qed.

Lemma AppendMutation_chunk p m q :
  AppendMutation p m = Ok q -> exists c, mutation_chunk m c /\ q = p ++ c.
Proof.
  unfold AppendMutation. intros H. inv_ok. subst q.
  match goal with E : EncodeFactValue _ = Ok ?v |- _ =>
    exists (keyed_value (mutation_key m) v); split; [by exists v|];
    apply EncodeFactValue_size in E end.
  rewrite uint_wrap by done. unfold AppendU32, keyed_value.
  by rewrite <- !app_assoc.
Qed.

Lemma AppendOptionalTime_eq p v :
  AppendOptionalTime p v = p ++ optional_time_bytes v.
Proof.
  destruct v; simpl; unfold AppendU64; by rewrite <- ?app_assoc.
Qed.

Lemma AppendRef_eq p r : AppendRef p r = p ++ ref_chunk r.
Proof.
  unfold AppendRef, AppendU64, AppendU32, AppendU16, ref_chunk.
  by rewrite <- !app_assoc.
Qed.

Lemma AppendIdentity_eq p i : AppendIdentity p i = p ++ identity_bytes i.
Proof.
  rewrite identity_bytes_eq. unfold AppendIdentity, AppendU64, AppendU32.
  by rewrite <- !app_assoc.
Qed.

Lemma AppendDependency_eq p d : AppendDependency p d = p ++ dependency_chunk d.
Proof.
  unfold AppendDependency, dependency_chunk, AppendU64.
  rewrite !AppendOptionalTime_eq, AppendRef_eq. by rewrite <- !app_assoc.
Qed.

Lemma AppendObserved_chunk p o q :
  AppendObserved p o = Ok q -> exists c, observed_chunk o c /\ q = p ++ c.
Proof.
  destruct o as [e|]; simpl; [|intros [= <-]; by eexists].
  destruct (EncodeFactValue e) as [v|] eqn:E; [|done].
  destruct (_ =? _)%nat; [done|]. intros [= <-].
  apply EncodeFactValue_size in E as Hu. rewrite uint_wrap by done.
  eexists. split; [by exists v|]. unfold AppendU32, keyed_value.
  by rewrite <- !app_assoc.
Qed.

Lemma AppendStrictRead_chunk p d q :
  AppendStrictRead p d = Ok q -> exists c, strict_chunk d c /\ q = p ++ c.
Proof.
  unfold AppendStrictRead. intros H. cbv zeta in H.
  apply bind_Ok in H as (q' & Hq & H).
  apply AppendObserved_chunk in Hq as (obs & ? & ->).
  apply Ok_inj in H as <-. eexists. split; [by exists obs|].
  rewrite !AppendOptionalTime_eq, AppendRef_eq. unfold AppendU64.
  by rewrite <- !app_assoc.
Qed.

Lemma length_concat_ge {A} (chunk : A -> list byte -> Prop) l chunks :
  (forall a c, chunk a c -> (1 <= length c)%nat) -> Forall2 chunk l chunks ->
  (length l <= length (concat chunks))%nat.
Proof.
  intros Hc. induction 1 as [|a c l chunks Ha _ IH]; [done|].
  cbn [length concat]. rewrite length_app. apply Hc in Ha. lia.
Qed.

Lemma Forall2_fmap_eq {A B} (g : A -> B) l :
  Forall2 (fun a c => c = g a) l (g <$> l).
Proof. induction l; by constructor. Qed.

Lemma mutation_chunk_length m c : mutation_chunk m c -> (1 <= length c)%nat.
Proof. intros (v & _ & ->). rewrite length_keyed_value. lia. Qed.

Lemma strict_chunk_length d c : strict_chunk d c -> (1 <= length c)%nat.
Proof. intros (o & _ & ->). autorewrite with cedar_len. lia. Qed.

Lemma identity_chunk_length i c : c = identity_bytes i -> (1 <= length c)%nat.
Proof. intros ->. autorewrite with cedar_len. lia. Qed.

Lemma dependency_chunk_length d c :
  c = dependency_chunk d -> (1 <= length c)%nat.
Proof.
  intros ->. unfold dependency_chunk. autorewrite with cedar_len. lia.
Qed.

Lemma EncodePreparedCommit_Ok b bytes :
  EncodePreparedCommit b = Ok bytes ->
  StoreCommitBatch_Validate b = StatusOK /\
  exists c1 c4, Forall2 mutation_chunk (mutations b) c1 /\
    Forall2 strict_chunk (strict_read_dependencies b) c4 /\
    uint 32 (Z.of_nat (length (mutations b))) /\
    uint 32 (Z.of_nat (length (edge_identities b))) /\
    uint 32 (Z.of_nat (length (snapshot_write_dependencies b))) /\
    uint 32 (Z.of_nat (length (strict_read_dependencies b))) /\
    EncodeRecord kPreparedRecord
      (be_bytes 8 (txn_id b) ++ be_bytes 8 (system_hlc b) ++
       counted (mutations b) c1 ++
       counted (edge_identities b) (identity_bytes <$> edge_identities b) ++
       counted (snapshot_write_dependencies b)
         (dependency_chunk <$> snapshot_write_dependencies b) ++
       counted (strict_read_dependencies b) c4) = Ok bytes.
Proof.
  unfold EncodePreparedCommit. intros H. cbv zeta in H. inv_ok. split; [done|].
  apply (loop_append _ _ AppendMutation_chunk) in H1 as (c1 & Hc1 & ->).
  apply (loop_append _ _ AppendStrictRead_chunk) in H2 as (c4 & Hc4 & ->).
  exists c1, c4.
  rewrite (fold_append _ _ AppendDependency_eq) in H.
  rewrite (fold_append _ _ AppendIdentity_eq) in H.
  unfold AppendCount, AppendU32, AppendU64 in H. rewrite <- !app_assoc in H.
  pose proof (proj1 (encode_frame_Ok kRecordVersion kPreparedRecord
                kMaxPayloadBytes _ ltac:(done) _ _) H) as [Hl _].
  pose proof (length_concat_ge _ _ _ mutation_chunk_length Hc1).
  pose proof (length_concat_ge _ _ _ strict_chunk_length Hc4).
  pose proof (length_concat_ge _ _ _ identity_chunk_length
                (Forall2_fmap_eq identity_bytes (edge_identities b))).
  pose proof (length_concat_ge _ _ _ dependency_chunk_length
    (Forall2_fmap_eq dependency_chunk (snapshot_write_dependencies b))).
  autorewrite with cedar_len in Hl. unfold kMaxPayloadBytes in Hl.
  assert (uint 32 (Z.of_nat (length (mutations b))) /\
    uint 32 (Z.of_nat (length (edge_identities b))) /\
    uint 32 (Z.of_nat (length (snapshot_write_dependencies b))) /\
    uint 32 (Z.of_nat (length (strict_read_dependencies b)))) as (? & ? & ? & ?)
    by (unfold uint; lia).
  split_and?; try done. rewrite <- H. unfold counted.
  rewrite <- !app_assoc. rewrite !uint_wrap by done. done.
Qed.

(** What is left of a typed and valid batch for the readers. *)
Lemma StoreCommitBatch_elements b :
  prepared_typed b -> StoreCommitBatch_Validate b = StatusOK ->
  Forall (fun m => PendingFactMutation_Validate m = StatusOK) (mutations b) /\
  Forall (fun d => FactRef_Validate (swd_ref d) = StatusOK)
    (snapshot_write_dependencies b) /\
  Forall (fun d => FactRef_Validate (srd_ref d) = StatusOK)
    (strict_read_dependencies b).
Proof.
  intros (_ & _ & ? & _ & Hd & Hs) Hv.
  apply StoreCommitBatch_Validate_OK in Hv
    as (_ & _ & _ & ? & _ & Hdv & _ & Hsv & _).
  - split; [done|]. split; (eapply Forall_impl; [eassumption|]; cbn beta).
    + intros d [? _]. by apply SnapshotWriteDependency_Validate_ref.
    + apply StrictReadDependency_Validate_ref.
  - split; [done|]. split; (eapply Forall_impl; [eassumption|]).
    + by intros d [? _].
    + by intros d [? _].
Qed.

Lemma Forall2_reads {A} (P : A -> Prop) (chunk : A -> list byte -> Prop) read
    l chunks :
  (forall a c, P a -> chunk a c -> reads read a c) ->
  Forall P l -> Forall2 chunk l chunks -> Forall2 (reads read) l chunks.
Proof.
  intros H HP. induction 1; [constructor|].
  apply Forall_cons in HP as [? ?]. constructor; auto.
Qed.

Lemma DecodePreparedCommit_encode b bytes :
  prepared_typed b -> EncodePreparedCommit b = Ok bytes ->
  DecodePreparedCommit bytes = Ok (recovered b).
Proof.
  intros Ht He. pose proof Ht as (Htx & Hh & Hm & Hi & Hd & Hs).
  apply EncodePreparedCommit_Ok in He
    as (Hv & c1 & c4 & Hc1 & Hc4 & Hu1 & Hu2 & Hu3 & Hu4 & He).
  destruct (StoreCommitBatch_elements b Ht Hv) as (Hmv & Hdv & Hsv).
  apply frame_spec in He. unfold DecodePreparedCommit. rewrite He.
  cbn [mbind StatusOr_bind]. clear He.
  set (payload := be_bytes 8 (txn_id b) ++ _).
  pose proof (suffix_at_0 payload) as Hp. unfold payload in Hp at 2.
  clearbody payload. cbv zeta. do 2 wire_step.
  assert (Forall2 (reads ReadMutation) (mutations b) c1) as R1.
  { eapply (Forall2_reads (fun m => mutation_typed m /\
      PendingFactMutation_Validate m = StatusOK)), Hc1; [|by apply Forall_and].
    intros a c [? ?]. by apply reads_mutation. }
  rewrite (reads_counted _ _ _ _ Hu1 R1 _ _ _ Hp). apply suffix_at_skip in Hp.
  cbn [mbind StatusOr_bind].
  assert (Forall2 (reads ReadIdentity) (edge_identities b)
            (identity_bytes <$> edge_identities b)) as R2.
  { eapply Forall2_reads, Forall2_fmap_eq; [|exact Hi].
    intros a c ? ->. by apply reads_identity. }
  rewrite (reads_counted _ _ _ _ Hu2 R2 _ _ _ Hp). apply suffix_at_skip in Hp.
  cbn [mbind StatusOr_bind].
  assert (Forall2 (reads ReadDependency) (snapshot_write_dependencies b)
            (dependency_chunk <$> snapshot_write_dependencies b)) as R3.
  { eapply (Forall2_reads (fun d => dependency_full d /\
      FactRef_Validate (swd_ref d) = StatusOK)), Forall2_fmap_eq;
      [|by apply Forall_and].
    intros a c [? ?] ->. by apply reads_dependency. }
  rewrite (reads_counted _ _ _ _ Hu3 R3 _ _ _ Hp). apply suffix_at_skip in Hp.
  cbn [mbind StatusOr_bind].
  assert (Forall2 (reads ReadStrictRead) (strict_read_dependencies b) c4) as R4.
  { eapply (Forall2_reads (fun d => strict_read_full d /\
      FactRef_Validate (srd_ref d) = StatusOK)), Hc4; [|by apply Forall_and].
    intros a c [? ?]. by apply reads_strict. }
  apply suffix_at_nil_r in Hp.
  rewrite (reads_counted _ _ _ _ Hu4 R4 _ _ _ Hp). apply suffix_at_skip in Hp.
  cbn [mbind StatusOr_bind]. apply suffix_at_length in Hp.
  change (length (@nil byte)) with 0%nat in Hp. rewrite Nat.add_0_r in Hp.
  rewrite <- Hp, Nat.eqb_refl. cbn [negb]. by apply validated_Ok.
Qed.

Lemma DecodePreparedCommit_checksummed bytes b :
  DecodePreparedCommit bytes = Ok b -> checksummed bytes.
Proof.
  unfold DecodePreparedCommit. intros H. apply bind_Ok in H as (p & Hp & _).
  apply frame_spec in Hp.
  by apply (frame_checksummed (dec := DecodeRecord kPreparedRecord) p).
Qed.

Lemma EncodePreparedCommit_checksummed b bytes :
  EncodePreparedCommit b = Ok bytes -> checksummed bytes.
Proof.
  intros (_ & c1 & c4 & _ & _ & _ & _ & _ & _ & He)%EncodePreparedCommit_Ok.
  by apply (frame_checksummed (dec := DecodeRecord kPreparedRecord)) in He.
Qed.

(** ** Terminals and decisions *)

Lemma valid_txn_OK txn : valid_txn txn = StatusOK <-> txn <> 0.
Proof. unfold valid_txn. destruct (Z.eqb_spec txn 0); naive_solver. Qed.

#[export] Instance AsyncAbortTerminal_codec :
  RecordCodec EncodeAsyncAbortTerminal DecodeAsyncAbortTerminal (uint 64).
Proof.
  apply (framed_codec (EncodeRecord kAbortedRecord) (DecodeRecord kAbortedRecord)
           valid_txn (AppendU64 [])).
  - intros t Ht Hv%valid_txn_OK. set (bytes := AppendU64 [] t).
    codec_open bytes Hs Hl. repeat wire_step. autorewrite with cedar_len.
    rewrite Hl. by apply Z.eqb_neq in Hv as ->.
  - intros p t H. inv_ok. wire_inv. destruct (_ || _); [done|]. inv_ok. congruence.
Qed.

#[export] Instance AsyncAbortTerminal_canonical :
  CanonicalCodec EncodeAsyncAbortTerminal DecodeAsyncAbortTerminal.
Proof.
  apply (framed_canonical (EncodeRecord kAbortedRecord)
           (DecodeRecord kAbortedRecord) valid_txn (AppendU64 [])).
  intros p t H. inv_ok. wire_inv. destruct (_ || _) eqn:E; [done|].
  bool_to_prop. inv_ok. subst. split; [by apply valid_txn_OK|].
  unfold AppendU64. rewrite app_nil_l.
  by rewrite drop_0, drop_ge, app_nil_r in Hdrop by lia.
Qed.

Lemma DecisionOutcome_to_of z :
  DecisionOutcome_to_u8 (DecisionOutcome_of_u8 z) = z.
Proof. unfold DecisionOutcome_of_u8. repeat case_match; simpl; lia. Qed.

Lemma decision_check_OK d :
  decision_check d = StatusOK <->
  decision_txn_id d <> 0 /\ certificate d <> [] /\
  Z.of_nat (length (certificate d)) <= kMaxPayloadBytes - 13 /\
  IsKnownDecision (decision_outcome d) = true.
Proof.
  unfold decision_check. destruct (_ || _) eqn:E.
  - split; [done|]. intros (? & ? & ? & ?).
    repeat apply orb_prop in E as [E|E]; bool_to_prop; try done; try lia; try congruence.
    by destruct (certificate d).
  - bool_to_prop. split; [|done]. intros _. split_and!; try done.
    intros Hn. by rewrite Hn in *.
Qed.

#[export] Instance PreparedDecision_codec :
  RecordCodec EncodePreparedDecision DecodePreparedDecision decision_typed.
Proof.
  apply (framed_codec (EncodeRecord kPreparedDecisionRecord)
    (DecodeRecord kPreparedDecisionRecord) decision_check
    (fun d => AppendU32 (AppendU64 [] (decision_txn_id d)
       ++ [z2b (DecisionOutcome_to_u8 (decision_outcome d))])
       (wrap 32 (Z.of_nat (length (certificate d)))) ++ certificate d)).
  - unfold decision_typed. intros d Ht (Hx & Hc & Hl & Hk)%decision_check_OK.
    set (bytes := _ ++ certificate d). codec_open bytes Hs Hb.
    unfold kMaxPayloadBytes in Hl.
    assert (uint 32 (Z.of_nat (length (certificate d)))) by (unfold uint; lia).
    assert (length (certificate d) <> 0)%nat by (by destruct (certificate d)).
    rewrite uint_wrap in Hs by done.
    repeat wire_step. autorewrite with cedar_len in *.
    rewrite (proj2 (Nat.eqb_neq _ _)) by lia.
    repeat wire_step. autorewrite with cedar_len in *.
    destruct Hs as [_ Hs]. rewrite Hs.
    rewrite (proj2 (Z.eqb_neq (Z.of_nat _) 0)) by lia.
    rewrite (proj2 (Z.eqb_eq (Z.of_nat _) (Z.of_nat _))) by lia.
    rewrite (proj2 (Z.eqb_neq (decision_txn_id d) 0)) by done.
    rewrite Nat2Z.id, take_ge by done.
    destruct d as [t [] c]; simpl in *; rewrite ?b2z_z2b_uint by done; done.
  - intros p d H. inv_ok. wire_inv. destruct (_ =? _)%nat; [done|]. inv_ok.
    destruct (_ || _); [done|]. inv_ok. by subst.
Qed.

#[export] Instance PreparedDecision_canonical :
  CanonicalCodec EncodePreparedDecision DecodePreparedDecision.
Proof.
  split. intros bytes d H. unfold DecodePreparedDecision in H.
  apply bind_Ok in H as (p & Hp & H). apply frame_spec in Hp.
  pose proof (proj1 (encode_frame_Ok kRecordVersion kPreparedDecisionRecord
                kMaxPayloadBytes _ ltac:(done) _ _) Hp) as [Hmax _].
  cbv zeta in H. inv_ok. wire_inv.
  destruct (Nat.eqb_spec n (length p)); [done|]. inv_ok. wire_inv.
  destruct (_ || _) eqn:E; [done|]. bool_to_prop. inv_ok. subst d.
  unfold EncodePreparedDecision.
  rewrite (proj2 (decision_check_OK _)).
  2: { simpl. unfold uint in *. split_and!; try done.
       - apply (f_equal length) in Hdrop0. autorewrite with cedar_len in *.
         intros Hn. apply (f_equal length) in Hn. autorewrite with cedar_len in Hn.
         lia.
       - autorewrite with cedar_len. lia. }
  cbn [check mbind StatusOr_bind]. simpl. codec_apps. rewrite DecisionOutcome_to_of.
  autorewrite with cedar_len. unfold uint in *. rewrite <- Hp. f_equal.
  replace (Z.of_nat (Z.to_nat z0 `min` (length p - n1))) with z0 by lia.
  rewrite uint_wrap by done.
  rewrite take_ge by (rewrite length_drop; lia). symmetry.
  rewrite <- (drop_0 p) at 1. wire_subst. rewrite (drop_byte_at p n) by lia.
  by wire_subst.
Qed.

(** ** Properties *)

(** C36: recovery decodes a prepared transaction to the batch that was prepared:
    every mutation, edge identity, write dependency and strict read with its
    observed event; only the process-local mark of a fresh transaction ID is
    dropped, so the outcome lookup is not skipped after a restart. *)
Theorem PreparedCommit_roundtrip b bytes :
  prepared_typed b -> EncodePreparedCommit b = Ok bytes ->
  DecodePreparedCommit bytes = Ok (recovered b).
Proof. apply DecodePreparedCommit_encode. Qed.

Lemma PreparedCommit_roundtrip_witness :
  DecodePreparedCommit sample_prepared_bytes = Ok (recovered sample_prepared).
Proof.
  apply (PreparedCommit_roundtrip sample_prepared sample_prepared_bytes).
  - split_and!; repeat constructor; unfold uint; simpl; lia.
  - vm_compute. reflexivity.
Defined.

(** A batch that recovery decodes has passed the validation of commit
    batches, whatever bytes it came from. *)
Theorem DecodePreparedCommit_valid bytes b :
  DecodePreparedCommit bytes = Ok b ->
  StoreCommitBatch_Validate b = StatusOK /\ fresh_transaction_id b = false.
Proof.
  unfold DecodePreparedCommit. intros H. inv_ok. destruct (negb _); [done|].
  apply validated_Ok in H as [-> Hv]. done.
Qed.

Lemma DecodePreparedCommit_valid_witness :
  StoreCommitBatch_Validate (recovered sample_prepared) = StatusOK /\
  fresh_transaction_id (recovered sample_prepared) = false.
Proof.
  apply (DecodePreparedCommit_valid sample_prepared_bytes
           (recovered sample_prepared)).
  vm_compute. reflexivity.
Defined.

(** A prepared record in which one byte was changed is rejected. *)
Theorem PreparedCommit_one_byte b p x y s :
  EncodePreparedCommit b = Ok (p ++ x :: s) -> x <> y ->
  is_ok (DecodePreparedCommit (p ++ y :: s)) = false.
Proof.
  intros He Hb. destruct (DecodePreparedCommit (p ++ y :: s)) eqn:E; [|done].
  apply EncodePreparedCommit_checksummed in He.
  apply DecodePreparedCommit_checksummed in E.
  by apply (checksummed_one_byte _ _ y) in He.
Qed.

Lemma PreparedCommit_one_byte_witness :
  is_ok (DecodePreparedCommit ([] ++ z2b 2 :: drop 1 sample_prepared_bytes))
  = false.
Proof.
  apply (PreparedCommit_one_byte sample_prepared [] (z2b 1) (z2b 2)
           (drop 1 sample_prepared_bytes));
    [vm_compute; reflexivity|vm_compute; discriminate].
Defined.

(** The abort terminal and the external decision of a transaction have
    exactly one encoding each, which decodes to the same record. *)
Theorem terminal_records_roundtrip :
  (forall t bytes, DecodeAsyncAbortTerminal bytes = Ok t <->
     uint 64 t /\ EncodeAsyncAbortTerminal t = Ok bytes) /\
  (forall d bytes, DecodePreparedDecision bytes = Ok d <->
     decision_typed d /\ EncodePreparedDecision d = Ok bytes).
Proof.
  split; intros a bytes; (split; [intros H; split; [by eapply codec_typed|
    by apply codec_encode]|intros [? ?]; by apply codec_decode]).
Qed.
