(* ===== verification/GroupCommit.v ===== *)
(** * GroupCommit: footprints, conflict detection and size estimates

    Models [src/storage/facts/group_commit_planner.cc] and
    [src/storage/facts/pending_version_overlay.cc].  A [std::set] is the strictly
    ascending list of its elements under [operator<], which [Less] provides; a
    [std::unordered_set] is a finite set.  Sizes are [size_t], kept at 64 bits
    with the saturation of the code. *)

From S2P Require Import Prelude Status Crc32c Wire Value Fact FactCodec Frame.
From S2P Require Import CommitBatch.

(** [operator<] of the element types: integers, pairs and tuples. *)
Class Less A := less : A -> A -> bool.

#[export] Instance Z_less : Less Z := Z.ltb.

(** The lexicographic order of [std::pair] and [std::tuple]. *)
#[export] Instance prod_less `{Less A, Less B} : Less (A * B) := fun a b =>
  less a.1 b.1 || (negb (less b.1 a.1) && less a.2 b.2).

(** A tuple of partition, family, property and entity. *)
Abbreviation FactIdentity := (Z * (Z * (Z * Z)))%type.
Abbreviation EdgeIdentityKey := (Z * Z)%type.

Definition IdentityOf (ref : FactRef) : FactIdentity :=
  (ref_part_id ref, (FactFamily_to_u8 (ref_family ref),
    (ref_property_id ref, ref_entity_id ref))).

(** [set.insert(x)]. *)
Fixpoint set_insert `{Less A} (x : A) (set : list A) : list A :=
  match set with
  | [] => [x]
  | y :: set' =>
      if less x y then x :: set
      else if less y x then y :: set_insert x set'
      else set
  end.

(** The two-pointer walk of [Disjoint]. *)
Fixpoint Disjoint `{Less A} (left : list A) : list A -> bool :=
  fix walk (right : list A) : bool :=
    match left, right with
    | x :: left', y :: right' =>
        if less x y then Disjoint left' right
        else if less y x then walk right'
        else false
    | _, _ => true
    end.

Record CommitFootprint := mkCommitFootprint {
  txn_ids : list Z;
  writes : list FactIdentity;
  strict_reads : list FactIdentity;
  edge_ids : list EdgeIdentityKey
}.

Definition BuildCommitFootprint (b : StoreCommitBatch) : CommitFootprint :=
  mkCommitFootprint (set_insert (txn_id b) [])
    (fold_left (fun s m => set_insert (IdentityOf (mutation_ref m)) s)
       (mutations b) [])
    (fold_left (fun s d => set_insert (IdentityOf (srd_ref d)) s)
       (strict_read_dependencies b) [])
    (fold_left (fun s i => set_insert (home_part_id i, edge_id i) s)
       (edge_identities b) []).

Definition CanSharePhysicalWrite (l r : CommitFootprint) : bool :=
  Disjoint (txn_ids l) (txn_ids r) && Disjoint (writes l) (writes r)
  && Disjoint (writes l) (strict_reads r)
  && Disjoint (strict_reads l) (writes r)
  && Disjoint (edge_ids l) (edge_ids r).

(** ** The hashes of the unordered sets and filters *)

Definition Mix (value : Z) : Z :=
  let value := wrap 64 (value + 0x9e3779b97f4a7c15) in
  let value := wrap 64 (Z.lxor value (Z.shiftr value 30) * 0xbf58476d1ce4e5b9) in
  let value := wrap 64 (Z.lxor value (Z.shiftr value 27) * 0x94d049bb133111eb) in
  Z.lxor value (Z.shiftr value 31).

Definition FactIdentityHash (identity : FactIdentity) : Z :=
  let '(part_id, (family, (property, entity))) := identity in
  let family_property :=
    Z.lor (Z.lor (wrap 64 (Z.shiftl part_id 32)) (Z.shiftl family 16)) property in
  Z.lxor (Mix entity) (Mix family_property).

Definition EdgeIdentityKeyHash (identity : EdgeIdentityKey) : Z :=
  Z.lxor (Mix identity.2) (Mix identity.1).

(** ** The conflict index of an epoch *)

Record CommitConflictIndex := mkCommitConflictIndex {
  index_txn_ids : gset Z;
  index_writes : gset FactIdentity;
  index_strict_reads : gset FactIdentity;
  index_edge_ids : gset EdgeIdentityKey
}.

Definition empty_index : CommitConflictIndex := mkCommitConflictIndex ∅ ∅ ∅ ∅.

Definition ContainsAny `{Countable A} (values : list A) (index : gset A) : bool :=
  existsb (fun value => bool_decide (value ∈ index)) values.

Definition CanInsert (index : CommitConflictIndex) (candidate : CommitFootprint)
  : bool :=
  negb (ContainsAny (txn_ids candidate) (index_txn_ids index))
  && negb (ContainsAny (writes candidate) (index_writes index))
  && negb (ContainsAny (writes candidate) (index_strict_reads index))
  && negb (ContainsAny (strict_reads candidate) (index_writes index))
  && negb (ContainsAny (edge_ids candidate) (index_edge_ids index)).

(** [Insert] returns whether it inserted, and the index afterwards. *)
Definition Insert (index : CommitConflictIndex) (candidate : CommitFootprint)
  : bool * CommitConflictIndex :=
  if CanInsert index candidate then
    (true,
     mkCommitConflictIndex
       (index_txn_ids index ∪ list_to_set (txn_ids candidate))
       (index_writes index ∪ list_to_set (writes candidate))
       (index_strict_reads index ∪ list_to_set (strict_reads candidate))
       (index_edge_ids index ∪ list_to_set (edge_ids candidate)))
  else (false, index).

(** The selection loop of [FactStore::CommitGrouped] over the queued requests,
    each with its durability mode: the number of requests taken before the
    first one that is not compatible. *)
Fixpoint select_group (index : CommitConflictIndex) (selected_count max : nat)
    (sync : bool) (requests : list (bool * StoreCommitBatch)) : nat :=
  match requests with
  | [] => selected_count
  | (candidate_sync, batch) :: requests' =>
      let footprint := BuildCommitFootprint batch in
      if Bool.eqb candidate_sync sync && (selected_count <? max)%nat then
        let '(inserted, index) := Insert index footprint in
        if inserted then
          select_group index (S selected_count) max sync requests'
        else selected_count
      else selected_count
  end.

Definition CanUseAppendFastPath (b : StoreCommitBatch) : bool :=
  if bool_decide (mutations b = []) || negb (bool_decide (edge_identities b = []))
     || negb (bool_decide (strict_read_dependencies b = []))
  then false
  else
    forallb (fun m =>
      negb (negb (bool_decide (mutation_operation m = kPut))
            || bool_decide (ref_family (mutation_ref m) = kEdgeState)))
      (mutations b)
    && forallb (fun d =>
         negb (bool_decide (is_Some (swd_predecessor d))
               || bool_decide (is_Some (swd_successor d))))
         (snapshot_write_dependencies b).

(** ** The overlay of pending writes *)

Record OverlayEntry := mkOverlayEntry {
  entry_identity : FactIdentity;
  entry_valid_from : Z;
  entry_operation : FactOperation;
  entry_schema_epoch : Z;
  entry_value_type : option PhysicalType
}.

Record PendingVersionOverlay := mkPendingVersionOverlay {
  overlay_writes : gset FactIdentity;
  overlay_strict_reads : gset FactIdentity;
  overlay_edge_ids : gset EdgeIdentityKey;
  overlay_txn_ids : gset Z;
  overlay_entries : list OverlayEntry
}.

Definition Intersects `{Countable A} (accumulated : gset A) (candidate : list A)
  : bool :=
  existsb (fun value => bool_decide (value ∈ accumulated)) candidate.

Definition overlay_entry (m : PendingFactMutation) : OverlayEntry :=
  mkOverlayEntry (IdentityOf (mutation_ref m)) (mutation_valid_from m)
    (mutation_operation m) (mutation_schema_epoch m)
    (value_type <$> mutation_value m).

Definition overlay_add (overlay : PendingVersionOverlay)
    (batch : option StoreCommitBatch) : PendingVersionOverlay :=
  match batch with
  | None => overlay
  | Some b =>
      let footprint := BuildCommitFootprint b in
      mkPendingVersionOverlay
        (overlay_writes overlay ∪ list_to_set (writes footprint))
        (overlay_strict_reads overlay ∪ list_to_set (strict_reads footprint))
        (overlay_edge_ids overlay ∪ list_to_set (edge_ids footprint))
        (overlay_txn_ids overlay ∪ list_to_set (txn_ids footprint))
        (overlay_entries overlay ++ (overlay_entry <$> mutations b))
  end.

Definition empty_overlay : PendingVersionOverlay :=
  mkPendingVersionOverlay ∅ ∅ ∅ ∅ [].

(** The batches are pointers, of which null ones are skipped. *)
Definition FromBatches (batches : list (option StoreCommitBatch))
  : PendingVersionOverlay := fold_left overlay_add batches empty_overlay.

Definition Conflicts (overlay : PendingVersionOverlay)
    (candidate : CommitFootprint) : bool :=
  Intersects (overlay_txn_ids overlay) (txn_ids candidate)
  || Intersects (overlay_writes overlay) (writes candidate)
  || Intersects (overlay_writes overlay) (strict_reads candidate)
  || Intersects (overlay_strict_reads overlay) (writes candidate)
  || Intersects (overlay_edge_ids overlay) (edge_ids candidate).

(** ** Size estimates *)

Definition SIZE_MAX : Z := 2 ^ 64 - 1.

Definition kWriteBatchHeaderBytes : Z := 12.
Definition kMetaRecordHeaderBytes : Z := 6.
Definition kMetaRecordChecksumBytes : Z := 4.
Definition kEdgeIdentityPayloadBytes : Z := 44.
Definition kTransactionOutcomePayloadBytes : Z := 17.
Definition kSequenceV2FixedPayloadBytes : Z := 22.
Definition kSequenceV2DescriptorBytes : Z := 23.
Definition kVisibleWatermarkPayloadBytes : Z := 8.
Definition kTransactionMetaKeyBytes : Z := 4 + 8.
Definition kSequenceMetaKeyBytes : Z := 9 + 8.
Definition kEdgeIdentityMetaKeyBytes : Z := 5 + 4 + 8.
Definition kVisibleWatermarkKeyBytes : Z := 10 + 7.

Definition SaturatingAdd (amount total : Z) : Z :=
  if SIZE_MAX - total <? amount then SIZE_MAX else total + amount.

Definition SaturatingAddProduct (amount count total : Z) : Z :=
  if negb (amount =? 0) && (SIZE_MAX / amount <? count) then SIZE_MAX
  else SaturatingAdd (amount * count) total.

Definition Varint32Bytes (value : Z) : Z :=
  if value <? Z.shiftl 1 7 then 1
  else if value <? Z.shiftl 1 14 then 2
  else if value <? Z.shiftl 1 21 then 3
  else if value <? Z.shiftl 1 28 then 4
  else 5.

Definition WriteBatchPutBytes (key_bytes value_bytes : Z) : Z :=
  let total := 2 in
  let total := SaturatingAdd (Varint32Bytes key_bytes) total in
  let total := SaturatingAdd key_bytes total in
  let total := SaturatingAdd (Varint32Bytes value_bytes) total in
  SaturatingAdd value_bytes total.

Definition EncodedFactValueBytes (payload_bytes : Z) : Z :=
  wrap 64 (Z.of_nat kFactValueHeaderBytes + payload_bytes
           + Z.of_nat kFactValueChecksumBytes).

Definition EncodedMetaRecordValueBytes (payload_bytes : Z) : Z :=
  wrap 64 (kMetaRecordHeaderBytes + payload_bytes + kMetaRecordChecksumBytes).

Definition ValuePayloadBytes (value : Value) : Z :=
  match value with
  | VBool _ => 1
  | VInt32 _ | VFloat32 _ => 4
  | VInt64 _ | VFloat64 _ | VTimestamp _ => 8
  | VString s | VBinary s => Z.of_nat (length s)
  end.

Definition AddFactEventBytes (e : FactEvent) (total : Z) : Z :=
  let total := SaturatingAdd 64 total in
  match event_value e with
  | Some v => SaturatingAdd (ValuePayloadBytes v) total
  | None => total
  end.

Definition EstimateSequenceRecordBytes (fact_key_count : Z) : Z :=
  let value_bytes := kMetaRecordHeaderBytes in
  let value_bytes := SaturatingAdd kSequenceV2FixedPayloadBytes value_bytes in
  let value_bytes :=
    SaturatingAddProduct kSequenceV2DescriptorBytes fact_key_count value_bytes in
  SaturatingAdd kMetaRecordChecksumBytes value_bytes.

(** The bodies of the three loops of [EstimateCommitBatchBytes]. *)
Definition estimate_mutation (total : Z) (m : PendingFactMutation) : Z :=
  let payload_bytes :=
    match mutation_value m with Some v => ValuePayloadBytes v | None => 0 end in
  SaturatingAdd
    (WriteBatchPutBytes (Z.of_nat kEncodedFactKeyBytes)
       (EncodedFactValueBytes payload_bytes)) total.

Definition estimate_identity (total : Z) (_ : EdgeIdentity) : Z :=
  let total :=
    SaturatingAdd
      (WriteBatchPutBytes (Z.of_nat kEncodedFactKeyBytes)
         (EncodedFactValueBytes kEdgeIdentityPayloadBytes)) total in
  SaturatingAdd
    (WriteBatchPutBytes kEdgeIdentityMetaKeyBytes
       (EncodedMetaRecordValueBytes kEdgeIdentityPayloadBytes)) total.

Definition estimate_strict_read (total : Z) (d : StrictReadDependency) : Z :=
  let total := SaturatingAdd 128 total in
  match srd_observed_event d with
  | Some e => AddFactEventBytes e total
  | None => total
  end.

Definition EstimateCommitBatchBytes (b : StoreCommitBatch) : Z :=
  let fact_key_count :=
    wrap 64 (Z.of_nat (length (mutations b))
             + Z.of_nat (length (edge_identities b))) in
  let total := kWriteBatchHeaderBytes in
  let total :=
    SaturatingAdd
      (WriteBatchPutBytes kTransactionMetaKeyBytes
         (EncodedMetaRecordValueBytes kTransactionOutcomePayloadBytes)) total in
  let sequence_value_bytes := EstimateSequenceRecordBytes fact_key_count in
  let total :=
    SaturatingAdd
      (WriteBatchPutBytes kSequenceMetaKeyBytes sequence_value_bytes) total in
  let total :=
    SaturatingAdd
      (WriteBatchPutBytes kVisibleWatermarkKeyBytes
         (EncodedMetaRecordValueBytes kVisibleWatermarkPayloadBytes)) total in
  let total := fold_left estimate_mutation (mutations b) total in
  let total := fold_left estimate_identity (edge_identities b) total in
  let total := fold_left estimate_strict_read (strict_read_dependencies b) total
  in
  let margin := total / 256 in
  let margin := SaturatingAdd 256 margin in
  SaturatingAdd margin total.

(** ** Specification *)

(** [operator<] is a strict total order. *)
Class LessLaws A `{Less A} := {
  less_irrefl a : less a a = false;
  less_trans a b c : less a b = true -> less b c = true -> less a c = true;
  less_total a b : less a b = false -> less b a = false -> a = b
}.

(** The elements are in strictly ascending order. *)
Definition ascending `{Less A} (l : list A) : Prop :=
  StronglySorted (fun a b => less a b = true) l.

Definition footprint_ok (f : CommitFootprint) : Prop :=
  ascending (txn_ids f) /\ ascending (writes f) /\
  ascending (strict_reads f) /\ ascending (edge_ids f).

(** Two lists have no element in common. *)
Definition apart {A} (l r : list A) : Prop := forall x, x ∈ l -> x ∉ r.

(** What may share a physical write: different transactions that neither write
    the same fact nor create the same edge, and of which none writes what the
    other read strictly. *)
Definition shareable (a b : StoreCommitBatch) : Prop :=
  txn_id a <> txn_id b /\
  apart (mutation_ref <$> mutations a) (mutation_ref <$> mutations b) /\
  apart (mutation_ref <$> mutations a) (srd_ref <$> strict_read_dependencies b) /\
  apart (srd_ref <$> strict_read_dependencies a) (mutation_ref <$> mutations b) /\
  apart (edge_ref <$> edge_identities a) (edge_ref <$> edge_identities b).

(** The same on footprints. *)
Definition footprint_apart (l r : CommitFootprint) : Prop :=
  apart (txn_ids l) (txn_ids r) /\ apart (writes l) (writes r) /\
  apart (writes l) (strict_reads r) /\ apart (strict_reads l) (writes r) /\
  apart (edge_ids l) (edge_ids r).

(** [k] is where the longest admissible prefix of [reqs] behind [chosen] ends:
    at most [max] requests with the leader's durability mode that may share one
    physical write, and the next request does not qualify. *)
Definition good_prefix (max : nat) (sync : bool)
    (chosen : list StoreCommitBatch) (reqs : list (bool * StoreCommitBatch))
    (k : nat) : Prop :=
  (k <= length reqs)%nat /\ (length chosen + k <= max)%nat /\
  Forall (fun r => r.1 = sync) (take k reqs) /\
  ForallOrdPairs shareable (chosen ++ (snd <$> take k reqs)) /\
  forall r, reqs !! k = Some r ->
    (length chosen + k)%nat = max \/ r.1 <> sync \/
    exists b, b ∈ chosen ++ (snd <$> take k reqs) /\ ~ shareable b r.2.

(** The index holds exactly the entries of the given footprints. *)
Definition index_covers (index : CommitConflictIndex) (fs : list CommitFootprint)
  : Prop :=
  (forall x, x ∈ index_txn_ids index <-> exists f, f ∈ fs /\ x ∈ txn_ids f) /\
  (forall x, x ∈ index_writes index <-> exists f, f ∈ fs /\ x ∈ writes f) /\
  (forall x, x ∈ index_strict_reads index
             <-> exists f, f ∈ fs /\ x ∈ strict_reads f) /\
  (forall x, x ∈ index_edge_ids index <-> exists f, f ∈ fs /\ x ∈ edge_ids f).

(** A batch whose fields fit their widths, which makes a reference and its
    identity tuple the same thing. *)
Definition refs_known (b : StoreCommitBatch) : Prop :=
  Forall (fun m => IsKnownFamily (ref_family (mutation_ref m)) = true)
    (mutations b) /\
  Forall (fun d => IsKnownFamily (ref_family (srd_ref d)) = true)
    (strict_read_dependencies b).

(** ** Ordered sets *)

#[export] Instance Z_less_laws : LessLaws Z.
Proof. split; unfold less, Z_less; intros; lia. Qed.

#[export] Instance prod_less_laws `{LessLaws A, LessLaws B} : LessLaws (A * B).
Proof.
  split; unfold less, prod_less.
  - intros [a b]. simpl. by rewrite !less_irrefl.
  - intros [a1 b1] [a2 b2] [a3 b3]; simpl. intros H12 H23.
    apply orb_true_iff in H12 as [H12|[H12 K12]%andb_true_iff],
      H23 as [H23|[H23 K23]%andb_true_iff]; apply orb_true_iff.
    + left. by eapply less_trans.
    + left. destruct (less a2 a3) eqn:E; [by eapply less_trans|].
      apply negb_true_iff in H23. by rewrite <- (less_total _ _ E H23).
    + left. destruct (less a1 a2) eqn:E; [by eapply less_trans|].
      apply negb_true_iff in H12. by rewrite (less_total _ _ E H12).
    + destruct (less a1 a3) eqn:E; [by left|]. right. apply andb_true_iff.
      apply negb_true_iff in H12, H23. split; [|by eapply less_trans].
      apply negb_true_iff. destruct (less a3 a1) eqn:E'; [|done].
      destruct (less a1 a2) eqn:E12.
      * rewrite (less_trans a3 a1 a2) in H23; done.
      * rewrite <- (less_total _ _ E12 H12) in H23. congruence.
  - intros [a1 b1] [a2 b2]; simpl.
    intros [E1 K1]%orb_false_iff [E2 K2]%orb_false_iff.
    rewrite E1, E2 in *. simpl in *. f_equal; by apply less_total.
Qed.

Section sets.

Context `{LessLaws A}.
Implicit Types (l r : list A) (x y : A).

Lemma less_asym x y : less x y = true -> less y x = false.
Proof.
  intros Hxy. destruct (less y x) eqn:E; [|done].
  pose proof (less_trans _ _ _ Hxy E) as Hx. by rewrite less_irrefl in Hx.
Qed.

Lemma less_not_elem x y l :
  less x y = true -> ascending (y :: l) -> x ∉ y :: l.
Proof.
  intros Hxy [_ Hl]%StronglySorted_inv [->|Hin]%elem_of_cons.
  - by rewrite less_irrefl in Hxy.
  - rewrite Forall_forall in Hl. apply Hl in Hin.
    pose proof (less_trans _ _ _ Hxy Hin) as Hx. by rewrite less_irrefl in Hx.
Qed.

Lemma Disjoint_nil_r l : Disjoint l [] = true.
Proof. by destruct l. Qed.

Lemma Disjoint_apart l r :
  ascending l -> ascending r -> Disjoint l r = true <-> apart l r.
Proof.
  intros Hl. revert r. induction l as [|x l IHl]; intros r Hr.
  { split; [by intros _ ? ?%not_elem_of_nil|by destruct r]. }
  induction r as [|y r IHr].
  { split; [by intros _ ? _ ?%not_elem_of_nil|done]. }
  pose proof (StronglySorted_inv Hl) as [Hl' _].
  pose proof (StronglySorted_inv Hr) as [Hr' _].
  cbn [Disjoint]. destruct (less x y) eqn:Hxy.
  - rewrite (IHl Hl') by done. pose proof (less_not_elem _ _ _ Hxy Hr).
    unfold apart. setoid_rewrite elem_of_cons at 2. naive_solver.
  - destruct (less y x) eqn:Hyx.
    + change ((fix walk (right : list A) : bool :=
                 match right with
                 | [] => true
                 | y :: right' =>
                     if less x y then Disjoint l right
                     else if less y x then walk right' else false
                 end) r) with (Disjoint (x :: l) r).
      rewrite (IHr Hr'). pose proof (less_not_elem _ _ _ Hyx Hl).
      unfold apart. setoid_rewrite (elem_of_cons r). naive_solver.
    + split; [done|]. intros Hap. exfalso.
      rewrite (less_total x y) in Hap by done. apply (Hap y); left.
Qed.

Lemma elem_of_set_insert x y l : y ∈ set_insert x l <-> y = x \/ y ∈ l.
Proof.
  induction l as [|z l IH]; cbn [set_insert]; [set_solver|].
  destruct (less x z) eqn:Hxz; [set_solver|].
  destruct (less z x) eqn:Hzx; [set_solver|].
  rewrite (less_total x z) by done. set_solver.
Qed.

Lemma set_insert_ascending x l : ascending l -> ascending (set_insert x l).
Proof.
  induction l as [|z l IH]; intros Hl; cbn [set_insert].
  { repeat constructor. }
  pose proof (StronglySorted_inv Hl) as [Hl' Hz].
  destruct (less x z) eqn:Hxz.
  { constructor; [done|]. constructor; [done|].
    eapply Forall_impl; [exact Hz|]. intros y Hy. by eapply less_trans. }
  destruct (less z x) eqn:Hzx; [|done].
  constructor; [by apply IH|]. rewrite Forall_forall in *.
  intros y [->|Hy]%elem_of_set_insert; auto.
Qed.

End sets.

(** The set built by inserting [f] of every element. *)
Lemma fold_insert {A B} `{LessLaws A} (f : B -> A) l s :
  ascending s ->
  ascending (fold_left (fun s b => set_insert (f b) s) l s) /\
  forall y, y ∈ fold_left (fun s b => set_insert (f b) s) l s
            <-> y ∈ f <$> l \/ y ∈ s.
Proof.
  revert s. induction l as [|b l IH]; intros s Hs; cbn [fold_left].
  - split; [done|]. set_solver.
  - destruct (IH (set_insert (f b) s)) as [? Hy];
      [by apply set_insert_ascending|].
    split; [done|]. intros y. rewrite Hy, elem_of_set_insert. set_solver.
Qed.

Lemma BuildCommitFootprint_ok b : footprint_ok (BuildCommitFootprint b).
Proof.
  unfold footprint_ok, BuildCommitFootprint. cbn [txn_ids writes strict_reads
    edge_ids]. split_and!.
  - repeat constructor.
  - apply (fold_insert (fun m => IdentityOf (mutation_ref m))). constructor.
  - apply (fold_insert (fun d => IdentityOf (srd_ref d))). constructor.
  - apply (fold_insert (fun i => (home_part_id i, edge_id i))). constructor.
Qed.

Lemma elem_of_footprint b :
  (forall t, t ∈ txn_ids (BuildCommitFootprint b) <-> t = txn_id b) /\
  (forall w, w ∈ writes (BuildCommitFootprint b)
             <-> w ∈ (fun m => IdentityOf (mutation_ref m)) <$> mutations b) /\
  (forall w, w ∈ strict_reads (BuildCommitFootprint b)
             <-> w ∈ (fun d => IdentityOf (srd_ref d))
                       <$> strict_read_dependencies b) /\
  (forall i, i ∈ edge_ids (BuildCommitFootprint b)
             <-> i ∈ (fun i => (home_part_id i, edge_id i))
                       <$> edge_identities b).
Proof.
  unfold BuildCommitFootprint. cbn [txn_ids writes strict_reads edge_ids].
  split_and!.
  - intros t. cbn. set_solver.
  - intros w. rewrite (proj2 (fold_insert (fun m => IdentityOf (mutation_ref m))
      (mutations b) [] ltac:(constructor))). set_solver.
  - intros w. rewrite (proj2 (fold_insert (fun d => IdentityOf (srd_ref d))
      (strict_read_dependencies b) [] ltac:(constructor))). set_solver.
  - intros i. rewrite (proj2 (fold_insert
      (fun i => (home_part_id i, edge_id i)) (edge_identities b) []
      ltac:(constructor))). set_solver.
Qed.

(** ** Footprints and batches *)

Lemma apart_sym {A} (l r : list A) : apart l r <-> apart r l.
Proof. unfold apart. naive_solver. Qed.

Lemma footprint_apart_sym l r : footprint_apart l r <-> footprint_apart r l.
Proof.
  unfold footprint_apart. rewrite (apart_sym (txn_ids l)),
    (apart_sym (writes l) (writes r)), (apart_sym (writes l) (strict_reads r)),
    (apart_sym (strict_reads l)), (apart_sym (edge_ids l)). tauto.
Qed.

Lemma CanSharePhysicalWrite_apart l r :
  footprint_ok l -> footprint_ok r ->
  CanSharePhysicalWrite l r = true <-> footprint_apart l r.
Proof.
  intros (? & ? & ? & ?) (? & ? & ? & ?).
  unfold CanSharePhysicalWrite, footprint_apart.
  rewrite !andb_true_iff, !Disjoint_apart by done. tauto.
Qed.

Lemma FactFamily_to_u8_inj f g :
  IsKnownFamily f = true -> IsKnownFamily g = true ->
  FactFamily_to_u8 f = FactFamily_to_u8 g -> f = g.
Proof. intros Hf Hg E. rewrite <- (FactFamily_of_to f), E by done. by apply FactFamily_of_to. Qed.

Lemma IdentityOf_inj a b :
  IsKnownFamily (ref_family a) = true -> IsKnownFamily (ref_family b) = true ->
  IdentityOf a = IdentityOf b -> a = b.
Proof.
  destruct a, b. unfold IdentityOf. simpl. intros ? ? E. simplify_eq.
  f_equal. by apply FactFamily_to_u8_inj.
Qed.

(** Apartness does not depend on whether references or identities are
    compared. *)
Lemma apart_inj {A B C D} (f : A -> C) (g : B -> C) (f' : A -> D) (g' : B -> D)
    l r :
  (forall a b, a ∈ l -> b ∈ r -> f a = g b <-> f' a = g' b) ->
  apart (f <$> l) (g <$> r) <-> apart (f' <$> l) (g' <$> r).
Proof.
  intros Hfg. unfold apart. setoid_rewrite list_elem_of_fmap.
  split; intros H x (a & -> & Ha) (b & Hb & Hin).
  - apply (H (f a)); [by eauto|]. exists b. split; [|done]. by apply Hfg.
  - apply (H (f' a)); [by eauto|]. exists b. split; [|done]. by apply Hfg.
Qed.

Lemma apart_proper {A} (l l' r r' : list A) :
  (forall x, x ∈ l <-> x ∈ l') -> (forall x, x ∈ r <-> x ∈ r') ->
  apart l r <-> apart l' r'.
Proof. unfold apart. naive_solver. Qed.

Lemma footprint_apart_shareable a b :
  refs_known a -> refs_known b ->
  footprint_apart (BuildCommitFootprint a) (BuildCommitFootprint b)
  <-> shareable a b.
Proof.
  intros [Hma Hsa] [Hmb Hsb]. rewrite !Forall_forall in *.
  destruct (elem_of_footprint a) as (Ta & Wa & Sa & Ea).
  destruct (elem_of_footprint b) as (Tb & Wb & Sb & Eb).
  unfold footprint_apart, shareable.
  rewrite (apart_proper _ _ _ _ Wa Wb), (apart_proper _ _ _ _ Wa Sb),
    (apart_proper _ _ _ _ Sa Wb), (apart_proper _ _ _ _ Ea Eb).
  rewrite (apart_inj (fun m => IdentityOf (mutation_ref m))
    (fun m => IdentityOf (mutation_ref m)) mutation_ref mutation_ref).
  2: { intros. split; [by apply IdentityOf_inj; auto|congruence]. }
  rewrite (apart_inj (fun m => IdentityOf (mutation_ref m))
    (fun d => IdentityOf (srd_ref d)) mutation_ref srd_ref).
  2: { intros. split; [by apply IdentityOf_inj; auto|congruence]. }
  rewrite (apart_inj (fun d => IdentityOf (srd_ref d))
    (fun m => IdentityOf (mutation_ref m)) srd_ref mutation_ref).
  2: { intros. split; [by apply IdentityOf_inj; auto|congruence]. }
  rewrite (apart_inj (fun i => (home_part_id i, edge_id i))
    (fun i => (home_part_id i, edge_id i)) edge_ref edge_ref).
  2: { intros i j _ _. unfold edge_ref. split; congruence. }
  assert (apart (txn_ids (BuildCommitFootprint a))
            (txn_ids (BuildCommitFootprint b)) <-> txn_id a <> txn_id b) as ->.
  { unfold apart. setoid_rewrite Ta. setoid_rewrite Tb. naive_solver. }
  done.
Qed.

(** ** The index *)

Lemma ContainsAny_false `{Countable A} (l : list A) (s : gset A) :
  negb (ContainsAny l s) = true <-> forall x, x ∈ l -> x ∉ s.
Proof.
  rewrite negb_true_iff. unfold ContainsAny. split.
  - intros He x Hx Hs. apply not_true_iff_false in He. apply He.
    apply existsb_exists. exists x. rewrite <- list_elem_of_In.
    split; [done|by apply bool_decide_eq_true].
  - intros Hl. apply not_true_iff_false. intros (x & Hx & Hs)%existsb_exists.
    rewrite <- list_elem_of_In in Hx. apply bool_decide_eq_true in Hs.
    by apply (Hl x).
Qed.

Lemma empty_index_covers : index_covers empty_index [].
Proof. unfold index_covers. cbn. set_solver. Qed.

Lemma CanInsert_covers index fs c :
  index_covers index fs ->
  CanInsert index c = true <-> Forall (fun f => footprint_apart f c) fs.
Proof.
  intros (Ht & Hw & Hs & He). unfold CanInsert.
  rewrite !andb_true_iff, !ContainsAny_false.
  setoid_rewrite Ht. setoid_rewrite Hw. setoid_rewrite Hs. setoid_rewrite He.
  rewrite Forall_forall. unfold footprint_apart, apart. split.
  - intros ((((H1 & H2) & H3) & H4) & H5) f Hf. split_and!; intros x Hx Hc.
    + by apply (H1 x Hc); eauto.
    + by apply (H2 x Hc); eauto.
    + by apply (H4 x Hc); eauto.
    + by apply (H3 x Hc); eauto.
    + by apply (H5 x Hc); eauto.
  - intros H. split_and!; intros x Hx (f & Hf & Hin);
      destruct (H f Hf) as (H1 & H2 & H3 & H4 & H5); naive_solver.
Qed.

Lemma Insert_covers index fs c :
  index_covers index fs -> CanInsert index c = true ->
  exists index', Insert index c = (true, index') /\ index_covers index' (fs ++ [c]).
Proof.
  intros (Ht & Hw & Hs & He) Hc. unfold Insert. rewrite Hc. eexists.
  split; [done|]. unfold index_covers. cbn.
  split_and!; intros x; rewrite elem_of_union, elem_of_list_to_set;
    rewrite ?Ht, ?Hw, ?Hs, ?He; set_solver.
Qed.

Lemma good_prefix_stop max sync chosen r reqs :
  (length chosen <= max)%nat -> ForallOrdPairs shareable chosen ->
  length chosen = max \/ r.1 <> sync \/
  (exists b, b ∈ chosen /\ ~ shareable b r.2) ->
  good_prefix max sync chosen (r :: reqs) 0.
Proof.
  intros ? ? Hwhy. unfold good_prefix. cbn. rewrite app_nil_r, Nat.add_0_r.
  split_and!; [lia|done|constructor|done|]. by intros ? [= <-].
Qed.

Lemma good_prefix_next max sync chosen b reqs k :
  good_prefix max sync (chosen ++ [b]) reqs k ->
  good_prefix max sync chosen ((sync, b) :: reqs) (S k).
Proof.
  unfold good_prefix. cbn. rewrite <- !app_assoc, length_app. cbn.
  intros (? & ? & ? & ? & Hr). split_and!; [lia|lia|by constructor|done|].
  intros r Hk. destruct (Hr r Hk) as [?|?]; [left; lia|by right].
Qed.

Lemma ForallOrdPairs_snoc {A} (R : A -> A -> Prop) l x :
  ForallOrdPairs R l -> Forall (fun a => R a x) l ->
  ForallOrdPairs R (l ++ [x]).
Proof.
  induction 1 as [|a l Ha _ IH]; intros Hx; cbn.
  - repeat constructor.
  - apply Forall_cons in Hx as [? ?]. constructor; [|by apply IH].
    apply Forall_app. by split; [|constructor].
Qed.

Lemma Forall_not_exists {A} (P : A -> Prop) l :
  (forall a, P a \/ ~ P a) -> ~ Forall P l -> exists a, a ∈ l /\ ~ P a.
Proof.
  intros Hdec. induction l as [|a l IH]; intros H; [by destruct H|].
  destruct (Hdec a) as [Ha|]; [|exists a; by split; [left|]].
  destruct IH as (b & ? & ?); [|exists b; by split; [right|]].
  intros ?. apply H. by constructor.
Qed.

Lemma CanInsert_shareable index chosen b :
  index_covers index (BuildCommitFootprint <$> chosen) ->
  Forall refs_known chosen -> refs_known b ->
  CanInsert index (BuildCommitFootprint b) = true
  <-> Forall (fun a => shareable a b) chosen.
Proof.
  intros Hi Hk Hb. rewrite (CanInsert_covers _ _ _ Hi), Forall_fmap.
  rewrite !Forall_forall in *. split; intros H a Ha.
  - apply footprint_apart_shareable; auto. by apply (H a).
  - apply footprint_apart_shareable; auto.
Qed.

Lemma shareable_dec a b : shareable a b \/ ~ shareable a b.
Proof.
  unfold shareable.
  assert (forall {A} `{EqDecision A} (l r : list A), apart l r \/ ~ apart l r)
    as Hap.
  { intros A ? l r. destruct (decide (Forall (fun x => x ∉ r) l)) as [H|H];
      rewrite Forall_forall in H; [by left|by right]. }
  destruct (decide (txn_id a = txn_id b)); [tauto|].
  destruct (Hap _ _ (mutation_ref <$> mutations a) (mutation_ref <$> mutations b)),
    (Hap _ _ (mutation_ref <$> mutations a) (srd_ref <$> strict_read_dependencies b)),
    (Hap _ _ (srd_ref <$> strict_read_dependencies a) (mutation_ref <$> mutations b)),
    (Hap _ _ (edge_ref <$> edge_identities a) (edge_ref <$> edge_identities b));
    tauto.
Qed.

Lemma select_group_from index chosen max sync reqs :
  index_covers index (BuildCommitFootprint <$> chosen) ->
  Forall refs_known chosen -> Forall (fun r => refs_known r.2) reqs ->
  (length chosen <= max)%nat -> ForallOrdPairs shareable chosen ->
  exists k, select_group index (length chosen) max sync reqs
            = (length chosen + k)%nat /\ good_prefix max sync chosen reqs k.
Proof.
  revert index chosen.
  induction reqs as [|[sy b] reqs IH]; intros index chosen Hi Hk Hr Hmax Hp.
  { exists 0%nat. unfold good_prefix. cbn. rewrite app_nil_r.
    split_and!; try done; lia. }
  apply Forall_cons in Hr as [Hb Hr]. simpl in Hb. cbn [select_group].
  assert (length chosen = max \/ sy <> sync \/
            (exists b', b' ∈ chosen /\ ~ shareable b' b) ->
          exists k, length chosen = (length chosen + k)%nat /\
            good_prefix max sync chosen ((sy, b) :: reqs) k) as Hstop.
  { intros. exists 0%nat. split; [lia|]. by apply good_prefix_stop. }
  destruct (Bool.eqb_spec sy sync) as [->|]; [|apply Hstop; tauto].
  cbn [andb]. destruct (Nat.ltb_spec (length chosen) max);
    [|apply Hstop; left; lia].
  pose proof (CanInsert_shareable _ _ _ Hi Hk Hb) as Hc.
  destruct (CanInsert index (BuildCommitFootprint b)) eqn:Hins.
  - destruct (Insert_covers _ _ _ Hi Hins) as (index' & -> & Hi').
    destruct (IH index' (chosen ++ [b])) as (k & Hs & Hg); try done.
    + by rewrite fmap_app.
    + apply Forall_app. by split; [|constructor].
    + rewrite length_app. simpl. lia.
    + apply ForallOrdPairs_snoc; [done|]. by apply Hc.
    + exists (S k). split; [|by apply good_prefix_next].
      rewrite length_app in Hs. cbn [length] in Hs.
      rewrite Nat.add_1_r in Hs. rewrite Hs. lia.
  - unfold Insert. rewrite Hins. apply Hstop. right; right.
    apply (Forall_not_exists (fun a => shareable a b));
      [intros; apply shareable_dec|]. intros ?%Hc. done.
Qed.

(** ** The overlay *)

Lemma Intersects_false `{Countable A} (s : gset A) (l : list A) :
  Intersects s l = false <-> forall x, x ∈ l -> x ∉ s.
Proof. rewrite <- ContainsAny_false, negb_true_iff. done. Qed.

Lemma overlay_sets batches overlay fs :
  index_covers (mkCommitConflictIndex (overlay_txn_ids overlay)
    (overlay_writes overlay) (overlay_strict_reads overlay)
    (overlay_edge_ids overlay)) fs ->
  let o := fold_left overlay_add batches overlay in
  index_covers (mkCommitConflictIndex (overlay_txn_ids o)
    (overlay_writes o) (overlay_strict_reads o) (overlay_edge_ids o))
    (fs ++ (BuildCommitFootprint <$> omap id batches)).
Proof.
  revert overlay fs. induction batches as [|[b|] batches IH]; intros overlay fs Hi.
  - by rewrite app_nil_r.
  - cbn [fold_left omap list_omap id fmap list_fmap].
    pose proof (IH (overlay_add overlay (Some b))
                  (fs ++ [BuildCommitFootprint b])) as IHb.
    rewrite <- app_assoc in IHb. apply IHb. clear IH IHb.
    destruct Hi as (Ht & Hw & Hs & He). unfold index_covers, overlay_add in *.
    generalize (BuildCommitFootprint b). intros f. cbn in *.
    split_and!; intros x; rewrite elem_of_union, elem_of_list_to_set;
      rewrite ?Ht, ?Hw, ?Hs, ?He; set_solver.
  - cbn [fold_left omap list_omap id]. by apply IH.
Qed.

(** ** Properties *)

(** The two-pointer walk over two footprints decides whether two batches
    may share a physical write: different transactions, no fact written by
    both, none read strictly by one and written by the other, and no edge
    created by both. *)
Theorem CanSharePhysicalWrite_spec a b :
  refs_known a -> refs_known b ->
  CanSharePhysicalWrite (BuildCommitFootprint a) (BuildCommitFootprint b) = true
  <-> shareable a b.
Proof.
  intros Ha Hb. rewrite CanSharePhysicalWrite_apart
    by apply BuildCommitFootprint_ok.
  by apply footprint_apart_shareable.
Qed.

Lemma CanSharePhysicalWrite_spec_witness :
  ~ shareable sample_batch sample_batch /\ refs_known sample_batch.
Proof.
  assert (refs_known sample_batch) as H by (split; repeat constructor).
  split; [|exact H]. intros Hs.
  apply (CanSharePhysicalWrite_spec sample_batch sample_batch H H) in Hs.
  vm_compute in Hs. discriminate.
Defined.

(** The linear-time conflict index selects from the queue of commit
    requests exactly the longest prefix, up to the size limit, of requests with
    the leader's durability mode whose batches may pairwise share one physical
    write. *)
Theorem select_group_spec max sync reqs :
  Forall (fun r => refs_known r.2) reqs ->
  good_prefix max sync [] reqs (select_group empty_index 0 max sync reqs).
Proof.
  intros Hr.
  destruct (select_group_from empty_index [] max sync reqs)
    as (k & Hk & Hg); [exact empty_index_covers|constructor|done|cbn; lia|
                       constructor|].
  cbn [length Nat.add] in Hk. by rewrite Hk.
Qed.

Lemma select_group_spec_witness :
  select_group empty_index 0 4 true [(true, sample_batch); (true, sample_batch)]
  = 1%nat /\
  good_prefix 4 true [] [(true, sample_batch); (true, sample_batch)]
    (select_group empty_index 0 4 true
       [(true, sample_batch); (true, sample_batch)]).
Proof.
  split; [vm_compute; reflexivity|].
  apply (select_group_spec 4 true [(true, sample_batch); (true, sample_batch)]).
  repeat constructor.
Defined.

(** A candidate conflicts with the overlay of the batches in flight exactly
    when one of them may not share a physical write with it. *)
Theorem Conflicts_spec batches c :
  Forall refs_known (omap id batches) -> refs_known c ->
  Conflicts (FromBatches batches) (BuildCommitFootprint c) = false
  <-> Forall (fun b => shareable b c) (omap id batches).
Proof.
  intros Hb Hc.
  pose proof (overlay_sets batches empty_overlay [] empty_index_covers) as Hi.
  cbn [app] in Hi. rewrite <- (CanInsert_shareable _ _ _ Hi Hb Hc).
  unfold Conflicts, CanInsert, FromBatches. cbn [index_txn_ids index_writes
    index_strict_reads index_edge_ids].
  rewrite !orb_false_iff, !Intersects_false, !andb_true_iff, !ContainsAny_false.
  tauto.
Qed.

Lemma Conflicts_spec_witness :
  Conflicts (FromBatches [Some sample_batch; None])
    (BuildCommitFootprint sample_batch) = true /\
  ~ Forall (fun b => shareable b sample_batch) [sample_batch].
Proof.
  assert (refs_known sample_batch) as H by (split; repeat constructor).
  split; [vm_compute; reflexivity|]. intros Hs.
  apply (Conflicts_spec [Some sample_batch; None] sample_batch) in Hs;
    [vm_compute in Hs; discriminate|repeat constructor|exact H].
Defined.
