(* ===== verification/Bloom.v ===== *)
(** * Bloom: bit sets over 64-bit words and the identity history

    Models the Bloom filter that [src/storage/facts/recent_fact_write_index.cc]
    and [src/storage/facts/fact_identity_history.cc] share in form: three probes
    of a power-of-two bit array, found by double hashing.  The second half is
    [FactIdentityHistory] itself.  Words are [uint64_t]; the relaxed atomic
    operations on them are modelled one at a time. *)

From S2P Require Import Prelude Status Value Fact GroupCommit.

(** [while (size <= limit / 2) size <<= 1;]  Sixty-four rounds are enough for
    any [size_t] limit ([grow_spec]). *)
Fixpoint grow (fuel : nat) (size limit : Z) : Z :=
  match fuel with
  | O => size
  | S fuel' =>
      if size <=? limit / 2 then grow fuel' (wrap 64 (Z.shiftl size 1)) limit
      else size
  end.

(** [words[bit >> 6]]. *)
Definition word_index (bit : Z) : nat := Z.to_nat (Z.shiftr bit 6).

(** [words[bit >> 6] |= 1 << (bit & 63)]. *)
Definition set_bit (words : list Z) (bit : Z) : list Z :=
  match words !! word_index bit with
  | Some w => <[word_index bit := Z.lor w (Z.shiftl 1 (Z.land bit 63))]> words
  | None => words
  end.

(** [(words[bit >> 6] & (1 << (bit & 63))) != 0]. *)
Definition test_bit (words : list Z) (bit : Z) : bool :=
  match words !! word_index bit with
  | Some w => negb (Z.land w (Z.shiftl 1 (Z.land bit 63)) =? 0)
  | None => false
  end.

(** The three probed bits [(base + probe * step) & mask]. *)
Definition probe_bits (mask base step : Z) : list Z :=
  (fun probe => Z.land (wrap 64 (base + wrap 64 (probe * step))) mask)
    <$> [0; 1; 2].

(** The finalizer [Mix] of both files. *)
Definition MixHash (value : Z) : Z :=
  let value := Z.lxor value (Z.shiftr value 30) in
  let value := wrap 64 (value * 0xbf58476d1ce4e5b9) in
  let value := Z.lxor value (Z.shiftr value 27) in
  let value := wrap 64 (value * 0x94d049bb133111eb) in
  Z.lxor value (Z.shiftr value 31).

Definition probe_step (base : Z) : Z :=
  Z.lor (MixHash (Z.lxor base 0x9e3779b97f4a7c15)) 1.

Definition word_mask (words : list Z) : Z :=
  wrap 64 (wrap 64 (Z.of_nat (length words) * 64) - 1).

Definition bloom_add (words : list Z) (base : Z) : list Z :=
  fold_left set_bit (probe_bits (word_mask words) base (probe_step base)) words.

Definition bloom_test (words : list Z) (base : Z) : bool :=
  forallb (test_bit words) (probe_bits (word_mask words) base (probe_step base)).

(** ** FactIdentityHistory *)

Definition kUsefulBitsPerIdentity : Z := 8.

Definition WordCountForBytes (max_bytes : Z) : Z :=
  let words := Z.max 1 (max_bytes / 8) in
  grow 64 1 words.

(** The words; none once the filter is disabled. *)
Record FactIdentityHistory := mkFactIdentityHistory {
  history_words : list Z
}.

Definition new_history (max_bytes : Z) : FactIdentityHistory :=
  mkFactIdentityHistory (replicate (Z.to_nat (WordCountForBytes max_bytes)) 0).

Definition CanRepresent (max_bytes estimated_identities : Z) : bool :=
  let bits := wrap 64 (WordCountForBytes max_bytes * 64) in
  estimated_identities <=? bits / kUsefulBitsPerIdentity.

Definition Disable (_ : FactIdentityHistory) : FactIdentityHistory :=
  mkFactIdentityHistory [].

Definition IdentityHash (ref : FactRef) : Z :=
  let hash := wrap 64 (ref_part_id ref * 0x9E3779B97F4A7C15) in
  let hash := Z.lxor hash
                (wrap 64 (Z.shiftl (FactFamily_to_u8 (ref_family ref)) 56)) in
  let hash := Z.lxor hash (wrap 64 (Z.shiftl (ref_property_id ref) 40)) in
  let hash := Z.lxor hash (MixHash (ref_entity_id ref)) in
  MixHash hash.

Definition history_Publish (h : FactIdentityHistory) (ref : FactRef)
  : FactIdentityHistory :=
  if (length (history_words h) =? 0)%nat
     || negb (status_ok (FactRef_Validate ref)) then h
  else mkFactIdentityHistory (bloom_add (history_words h) (IdentityHash ref)).

Definition history_MightContain (h : FactIdentityHistory) (ref : FactRef)
  : bool :=
  if (length (history_words h) =? 0)%nat then true
  else if negb (status_ok (FactRef_Validate ref)) then true
  else bloom_test (history_words h) (IdentityHash ref).

(** ** Specification *)

(** The number of words is such that every masked probe is in range. *)
Definition words_ok (words : list Z) : Prop :=
  (1 <= length words)%nat /\ Z.of_nat (length words) * 64 < 2 ^ 64.

(** What the store may do to the filter after it was built or disabled. *)
Definition publish_all (h : FactIdentityHistory) (refs : list FactRef)
  : FactIdentityHistory := fold_left history_Publish refs h.

(** ** Growing to a power of two *)

Lemma grow_spec fuel size limit :
  1 <= size -> size <= limit -> limit < 2 ^ 64 -> limit < size * 2 ^ Z.of_nat fuel ->
  exists k, 0 <= k /\ grow fuel size limit = size * 2 ^ k /\
            size * 2 ^ k <= limit < 2 * (size * 2 ^ k).
Proof.
  revert size. induction fuel as [|fuel IH]; intros size H1 Hle Hu Hf.
  { rewrite Z.pow_0_r in Hf. lia. }
  cbn [grow]. destruct (Z.leb_spec size (limit / 2)) as [Hs|Hs].
  - rewrite Z.shiftl_mul_pow2 by lia. change (2 ^ 1) with 2.
    assert (2 * (limit / 2) <= limit) by (apply Z.mul_div_le; lia).
    rewrite uint_wrap by (unfold uint; lia).
    rewrite Nat2Z.inj_succ, Z.pow_succ_r in Hf by lia.
    destruct (IH (size * 2)) as (k & ? & -> & ?); [lia|lia|lia|lia|].
    exists (Z.succ k). rewrite Z.pow_succ_r by lia.
    replace (size * (2 * 2 ^ k)) with (size * 2 * 2 ^ k) by ring.
    split_and!; lia.
  - exists 0. rewrite Z.pow_0_r.
    pose proof (Z.mul_succ_div_gt limit 2 ltac:(lia)). split_and!; lia.
Qed.

Lemma WordCountForBytes_spec max_bytes :
  0 <= max_bytes < 2 ^ 64 ->
  exists k, 0 <= k /\ WordCountForBytes max_bytes = 2 ^ k /\
            2 ^ k <= Z.max 1 (max_bytes / 8) < 2 * 2 ^ k.
Proof.
  intros H. unfold WordCountForBytes.
  assert (0 <= max_bytes / 8 < 2 ^ 61).
  { split; [apply Z.div_pos; lia|]. apply Z.div_lt_upper_bound; lia. }
  destruct (grow_spec 64 1 (Z.max 1 (max_bytes / 8))) as (k & ? & -> & Hk);
    [lia..|].
  exists k. rewrite Z.mul_1_l in *. done.
Qed.

(** ** Bits *)

Lemma land_mask a m : 0 <= m -> 0 <= Z.land a m <= m.
Proof.
  intros Hm. split; [apply Z.land_nonneg; by right|].
  assert (Z.ldiff (Z.land a m) m = 0) as E.
  { apply Z.bits_inj'. intros n Hn. rewrite Z.ldiff_spec, Z.land_spec, Z.bits_0.
    by destruct (Z.testbit a n), (Z.testbit m n). }
  pose proof (Z.sub_nocarry_ldiff m (Z.land a m) E) as Hs.
  assert (0 <= Z.ldiff m (Z.land a m)) by (apply Z.ldiff_nonneg; by left). lia.
Qed.

Lemma land_pow2 w k :
  0 <= k -> negb (Z.land w (Z.shiftl 1 k) =? 0) = Z.testbit w k.
Proof.
  intros Hk. rewrite Z.shiftl_1_l.
  destruct (Z.testbit w k) eqn:Hb.
  - apply negb_true_iff, Z.eqb_neq. intros E.
    apply (f_equal (fun z => Z.testbit z k)) in E.
    rewrite Z.land_spec, Hb, Z.pow2_bits_true, Z.bits_0 in E by lia. done.
  - apply negb_false_iff, Z.eqb_eq, Z.bits_inj'. intros n Hn.
    rewrite Z.land_spec, Z.bits_0, Z.pow2_bits_eqb by lia.
    destruct (Z.eqb_spec k n) as [<-|]; [by rewrite Hb|apply andb_false_r].
Qed.

Lemma length_set_bit words bit : length (set_bit words bit) = length words.
Proof. unfold set_bit. case_match; [apply length_insert|done]. Qed.

#[export] Hint Rewrite length_set_bit : cedar_len.

(** A bit stays set. *)
Lemma test_set_bit_mono words bit b :
  test_bit words b = true -> test_bit (set_bit words bit) b = true.
Proof.
  unfold test_bit, set_bit. destruct (words !! word_index bit) as [w|] eqn:Hw;
    [|done].
  rewrite list_lookup_insert. case_decide as Hd; [|done].
  destruct Hd as [<- _]. rewrite Hw.
  assert (0 <= Z.land b 63) by (apply Z.land_nonneg; right; lia).
  rewrite !land_pow2, Z.lor_spec by done. by intros ->.
Qed.

Lemma test_set_bit_eq words bit :
  (word_index bit < length words)%nat ->
  test_bit (set_bit words bit) bit = true.
Proof.
  intros H. apply lookup_lt_is_Some in H as [w Hw]. unfold test_bit, set_bit.
  rewrite Hw, list_lookup_insert_eq by by eapply lookup_lt_Some.
  assert (0 <= Z.land bit 63) by (apply Z.land_nonneg; right; lia).
  rewrite land_pow2, Z.lor_spec, Z.shiftl_1_l, Z.pow2_bits_true by done.
  apply orb_true_r.
Qed.

Lemma fold_set_bit_mono bits words b :
  test_bit words b = true -> test_bit (fold_left set_bit bits words) b = true.
Proof.
  revert words. induction bits as [|x bits IH]; intros words H; [done|].
  by apply IH, test_set_bit_mono.
Qed.

Lemma length_fold_set_bit bits words :
  length (fold_left set_bit bits words) = length words.
Proof.
  revert words. induction bits as [|x bits IH]; intros words; [done|].
  cbn. by rewrite IH, length_set_bit.
Qed.

Lemma fold_set_bit_eq bits words b :
  Forall (fun b => (word_index b < length words)%nat) bits -> b ∈ bits ->
  test_bit (fold_left set_bit bits words) b = true.
Proof.
  revert words. induction bits as [|x bits IH]; intros words Hb Hin.
  - by apply not_elem_of_nil in Hin.
  - apply Forall_cons in Hb as [? ?]. cbn.
    apply elem_of_cons in Hin as [->|Hin].
    + by apply fold_set_bit_mono, test_set_bit_eq.
    + apply IH; [|done]. by rewrite length_set_bit.
Qed.

Lemma word_mask_eq words :
  words_ok words -> word_mask words = Z.of_nat (length words) * 64 - 1.
Proof.
  intros [? ?]. unfold word_mask. rewrite (uint_wrap _ (_ * _)) by (unfold uint; lia).
  apply uint_wrap. unfold uint. lia.
Qed.

Lemma probe_bits_range words base step :
  words_ok words ->
  Forall (fun b => (word_index b < length words)%nat)
    (probe_bits (word_mask words) base step).
Proof.
  intros Hw. rewrite word_mask_eq by done. destruct Hw. unfold probe_bits.
  apply Forall_fmap, Forall_forall. intros probe _. unfold word_index.
  cbn [compose]. set (v := wrap 64 _).
  pose proof (land_mask v (Z.of_nat (length words) * 64 - 1) ltac:(lia)) as Hm.
  change (wrap 64 (base + wrap 64 (probe * step))) with v.
  rewrite Z.shiftr_div_pow2 by lia. change (2 ^ 6) with 64.
  assert (Z.land v (Z.of_nat (length words) * 64 - 1) / 64
          < Z.of_nat (length words)) by (apply Z.div_lt_upper_bound; lia).
  assert (0 <= Z.land v (Z.of_nat (length words) * 64 - 1) / 64)
    by (apply Z.div_pos; lia).
  lia.
Qed.

Lemma length_bloom_add words base : length (bloom_add words base) = length words.
Proof. apply length_fold_set_bit. Qed.

#[export] Hint Rewrite length_bloom_add : cedar_len.

Lemma word_mask_add words base : word_mask (bloom_add words base) = word_mask words.
Proof. unfold word_mask. by rewrite length_bloom_add. Qed.

(** What was added is found, and stays found. *)
Lemma bloom_test_add words base :
  words_ok words -> bloom_test (bloom_add words base) base = true.
Proof.
  intros Hw. unfold bloom_test. rewrite word_mask_add. apply forallb_forall.
  intros b Hb. apply fold_set_bit_eq; [by apply probe_bits_range|].
  by apply list_elem_of_In.
Qed.

Lemma bloom_test_mono words base other :
  bloom_test words other = true -> bloom_test (bloom_add words base) other = true.
Proof.
  unfold bloom_test. rewrite word_mask_add, !forallb_forall.
  intros H b Hb. by apply fold_set_bit_mono, H.
Qed.

Lemma words_ok_add words base : words_ok words -> words_ok (bloom_add words base).
Proof. unfold words_ok. by rewrite length_bloom_add. Qed.

#[export] Hint Resolve words_ok_add bloom_test_mono bloom_test_add : cedar.

(** ** The history *)

Lemma new_history_ok max_bytes :
  0 <= max_bytes < 2 ^ 60 -> words_ok (history_words (new_history max_bytes)).
Proof.
  intros H. destruct (WordCountForBytes_spec max_bytes) as (k & ? & Hk & ?); [lia|].
  assert (0 <= max_bytes / 8 < 2 ^ 57).
  { split; [apply Z.div_pos; lia|]. apply Z.div_lt_upper_bound; lia. }
  pose proof (Z.pow_pos_nonneg 2 k ltac:(lia) ltac:(lia)).
  unfold words_ok, new_history. cbn [history_words].
  rewrite length_replicate, Hk. lia.
Qed.

Lemma history_Publish_words h ref :
  words_ok (history_words h) -> words_ok (history_words (history_Publish h ref)).
Proof.
  intros Hw. unfold history_Publish. case_match; [done|]. cbn [history_words]. by apply words_ok_add.
Qed.

Lemma history_Publish_mono h ref other :
  history_MightContain h other = true ->
  history_MightContain (history_Publish h ref) other = true.
Proof.
  unfold history_MightContain, history_Publish.
  destruct (Nat.eqb_spec (length (history_words h)) 0) as [E|E]; cbn [orb].
  - by rewrite E.
  - destruct (negb (status_ok (FactRef_Validate ref))); cbn [history_words].
    + by rewrite (proj2 (Nat.eqb_neq _ _)) by done.
    + rewrite length_bloom_add, (proj2 (Nat.eqb_neq _ _)) by done.
      case_match; [done|]. auto with cedar.
Qed.

Lemma history_Publish_eq h ref :
  words_ok (history_words h) \/ history_words h = [] ->
  history_MightContain (history_Publish h ref) ref = true.
Proof.
  unfold history_MightContain, history_Publish. intros [Hw|E].
  - pose proof Hw as [? _]. rewrite !(proj2 (Nat.eqb_neq (length (history_words h)) _)) by lia.
    destruct (status_ok (FactRef_Validate ref)) eqn:Hv; cbn [negb orb history_words].
    + rewrite length_bloom_add, (proj2 (Nat.eqb_neq _ _)) by lia.
      auto with cedar.
    + by rewrite (proj2 (Nat.eqb_neq _ _)) by lia.
  - rewrite E. cbn [length Nat.eqb orb]. by rewrite E.
Qed.

Lemma publish_all_mono h refs ref :
  history_MightContain h ref = true ->
  history_MightContain (publish_all h refs) ref = true.
Proof.
  revert h. induction refs as [|r refs IH]; intros h H; [done|].
  by apply IH, history_Publish_mono.
Qed.

Lemma publish_all_contains h refs ref :
  words_ok (history_words h) \/ history_words h = [] -> ref ∈ refs ->
  history_MightContain (publish_all h refs) ref = true.
Proof.
  revert h. induction refs as [|r refs IH]; intros h Hw Hin;
    [by apply not_elem_of_nil in Hin|].
  cbn. apply elem_of_cons in Hin as [->|Hin].
  - by apply publish_all_mono, history_Publish_eq.
  - apply IH; [|done]. destruct Hw as [Hw|E]; [left; by apply history_Publish_words|].
    right. unfold history_Publish. by rewrite E.
Qed.

(** ** Properties *)

(** The identity history has no false negatives: once an identity was
    published it is reported as possibly present forever, for every filter
    built from a memory budget, and a disabled filter reports everything. *)
Theorem history_no_false_negative max_bytes refs ref :
  0 <= max_bytes < 2 ^ 60 -> ref ∈ refs ->
  history_MightContain (publish_all (new_history max_bytes) refs) ref = true /\
  history_MightContain (publish_all (Disable (new_history max_bytes)) refs) ref
  = true.
Proof.
  intros H Hin. split; apply publish_all_contains; try done.
  - left. by apply new_history_ok.
  - by right.
Qed.

Lemma history_no_false_negative_witness :
  history_MightContain
    (publish_all (new_history 64) [mkFactRef 1 kVertexState 0 7])
    (mkFactRef 1 kVertexState 0 7) = true /\
  history_MightContain
    (publish_all (Disable (new_history 64)) [mkFactRef 1 kVertexState 0 7])
    (mkFactRef 1 kVertexState 0 7) = true.
Proof.
  apply (history_no_false_negative 64 [mkFactRef 1 kVertexState 0 7]
           (mkFactRef 1 kVertexState 0 7)); [lia|by left].
Defined.

(** The number of words of the filter is the largest power of two whose
    bytes fit the budget (one word at least), so the mask [64 * words - 1] of the
    probes selects existing bits only. *)
Theorem WordCountForBytes_power_of_two max_bytes :
  0 <= max_bytes < 2 ^ 64 ->
  exists k, 0 <= k /\ WordCountForBytes max_bytes = 2 ^ k /\
            2 ^ k <= Z.max 1 (max_bytes / 8) < 2 * 2 ^ k.
Proof. apply WordCountForBytes_spec. Qed.

Lemma WordCountForBytes_power_of_two_witness :
  exists k, 0 <= k /\ WordCountForBytes 100 = 2 ^ k /\
            2 ^ k <= Z.max 1 (100 / 8) < 2 * 2 ^ k.
Proof. apply (WordCountForBytes_power_of_two 100). lia. Defined.
