(* ===== verification/RecentWrites.v ===== *)
(** * RecentWrites: the recent fact write index

    Models [src/storage/facts/recent_fact_write_index.{h,cc}]: a bounded table of
    exact last-write sequences and four rolling Bloom windows, which the writer
    asks whether a fact is provably unchanged since a snapshot.  A [Filter*] is
    the index of the filter in [filters_].  The metrics counters are left out:
    nothing reads them but the metrics accessor. *)

From S2P Require Import Prelude Status Value Fact GroupCommit Bloom.

Record ExactSlot := mkExactSlot {
  slot_identity : FactIdentity;
  latest_sequence : Z;
  occupied : bool
}.

Record ExactBucket := mkExactBucket {
  slots : list ExactSlot;
  next_replace : Z
}.

Record Filter := mkFilter {
  first_sequence : Z;
  last_sequence : Z;
  published_through : Z;
  identities : Z;
  active : bool;
  words : list Z
}.

Record RecentFactWriteIndex := mkRecentFactWriteIndex {
  filters_ : list Filter;
  max_identities_per_filter_ : Z;
  window_sequences_ : Z;
  window_anchor_sequence_ : Z;
  resident_bytes_ : Z;
  exact_buckets_ : list ExactBucket;
  exact_coverage_start_seq_ : Z;
  coverage_start_seq_ : Z;
  latest_published_seq_ : Z
}.

Definition kFilterCount : Z := 4.

Definition empty_slot : ExactSlot := mkExactSlot (0, (0, (0, 0))) 0 false.

Definition empty_bucket : ExactBucket := mkExactBucket (replicate 4 empty_slot) 0.

Definition with_filters (filters : list Filter) (coverage : Z)
    (st : RecentFactWriteIndex) : RecentFactWriteIndex :=
  mkRecentFactWriteIndex filters (max_identities_per_filter_ st)
    (window_sequences_ st) (window_anchor_sequence_ st) (resident_bytes_ st)
    (exact_buckets_ st) (exact_coverage_start_seq_ st) coverage
    (latest_published_seq_ st).

Definition with_exact (buckets : list ExactBucket) (coverage : Z)
    (st : RecentFactWriteIndex) : RecentFactWriteIndex :=
  mkRecentFactWriteIndex (filters_ st) (max_identities_per_filter_ st)
    (window_sequences_ st) (window_anchor_sequence_ st) (resident_bytes_ st)
    buckets coverage (coverage_start_seq_ st) (latest_published_seq_ st).

Definition with_latest (latest : Z) (st : RecentFactWriteIndex)
  : RecentFactWriteIndex :=
  mkRecentFactWriteIndex (filters_ st) (max_identities_per_filter_ st)
    (window_sequences_ st) (window_anchor_sequence_ st) (resident_bytes_ st)
    (exact_buckets_ st) (exact_coverage_start_seq_ st) (coverage_start_seq_ st)
    latest.

(** ** Construction *)

Definition WordsPerFilter (max_bytes : Z) : Z :=
  let raw_words := max_bytes / kFilterCount / 8 in
  if raw_words =? 0 then 0 else grow 64 1 raw_words.

(** [sizeof(ExactBucket)] and [sizeof(Filter)] are fixed by the compiler's
    layout and are arguments. *)
Definition new_index (sizeof_ExactBucket sizeof_Filter : Z)
    (max_bytes coverage_start_seq window_sequences : Z) : RecentFactWriteIndex :=
  let anchor := if coverage_start_seq =? U64_MAX then coverage_start_seq
                else coverage_start_seq + 1 in
  let exact_count := (max_bytes / 2) / sizeof_ExactBucket in
  let resident := exact_count * sizeof_ExactBucket in
  let remaining := max_bytes - resident in
  let filter_headers := kFilterCount * sizeof_Filter in
  let words := if filter_headers <=? remaining
               then WordsPerFilter (remaining - filter_headers) else 0 in
  let buckets := replicate (Z.to_nat exact_count) empty_bucket in
  let window := Z.max 1 window_sequences in
  if words =? 0 then
    mkRecentFactWriteIndex [] 0 window anchor resident buckets
      coverage_start_seq coverage_start_seq coverage_start_seq
  else
    mkRecentFactWriteIndex
      (replicate (Z.to_nat kFilterCount)
         (mkFilter 0 0 0 0 false (replicate (Z.to_nat words) 0)))
      (wrap 64 (words * 4)) window anchor
      (resident + (filter_headers + words * kFilterCount * 8)) buckets
      coverage_start_seq coverage_start_seq coverage_start_seq.

(** ** Exact entries *)

Definition ExactBucketFor (buckets : list ExactBucket) (identity : FactIdentity)
  : option nat :=
  if (length buckets =? 0)%nat then None
  else Some (Z.to_nat (MixHash (FactIdentityHash identity)
                         mod Z.of_nat (length buckets))).

(** The loop of [PublishExact]: the slot of the identity, or else the first
    empty slot. *)
Fixpoint exact_scan (slots : list ExactSlot) (identity : FactIdentity)
    (i : nat) (empty : option nat) : nat + option nat :=
  match slots with
  | [] => inr empty
  | slot :: rest =>
      if occupied slot && bool_decide (slot_identity slot = identity) then inl i
      else
        exact_scan rest identity (S i)
          (if negb (occupied slot) && bool_decide (empty = None)
           then Some i else empty)
  end.

Definition publish_slot (bucket : ExactBucket) (identity : FactIdentity)
    (sequence : Z) : ExactBucket :=
  match exact_scan (slots bucket) identity 0 None with
  | inl i =>
      mkExactBucket
        (alter (fun slot => mkExactSlot (slot_identity slot)
                              (Z.max (latest_sequence slot) sequence)
                              (occupied slot)) i (slots bucket))
        (next_replace bucket)
  | inr (Some i) =>
      mkExactBucket (<[i := mkExactSlot identity sequence true]> (slots bucket))
        (next_replace bucket)
  | inr None =>
      mkExactBucket
        (<[Z.to_nat (next_replace bucket) :=
             mkExactSlot identity sequence true]> (slots bucket))
        ((next_replace bucket + 1) mod 4)
  end.

Definition PublishExact (identity : FactIdentity) (sequence : Z)
    (st : RecentFactWriteIndex) : RecentFactWriteIndex :=
  match ExactBucketFor (exact_buckets_ st) identity with
  | None => st
  | Some i =>
      with_exact (alter (fun b => publish_slot b identity sequence) i
                    (exact_buckets_ st)) (exact_coverage_start_seq_ st) st
  end.

(** ** Bloom windows *)

Definition WindowStart (st : RecentFactWriteIndex) (sequence : Z) : Z :=
  let anchor := window_anchor_sequence_ st in
  if sequence <=? anchor then anchor
  else
    let offset := sequence - anchor in
    let quotient := offset / window_sequences_ st in
    if (U64_MAX - anchor) / window_sequences_ st <? quotient then U64_MAX
    else anchor + quotient * window_sequences_ st.

Definition in_window (sequence : Z) (f : Filter) : bool :=
  active f && (first_sequence f <=? sequence) && (sequence <=? last_sequence f).

Definition FindFilter (filters : list Filter) (sequence : Z) : option nat :=
  fst <$> list_find (fun f => in_window sequence f = true) filters.

Definition Clear (window_sequences : Z) (first : Z) (f : Filter) : Filter :=
  let remaining := U64_MAX - first in
  mkFilter first
    (if remaining <? window_sequences - 1 then U64_MAX
     else first + window_sequences - 1)
    (if first =? 0 then 0 else first - 1)
    0 true (replicate (length (words f)) 0).

(** [std::min_element] by [first_sequence]: the first of the least. *)
Fixpoint min_element (filters : list Filter) (i best : nat) (least : Z) : nat :=
  match filters with
  | [] => best
  | f :: rest =>
      if first_sequence f <? least
      then min_element rest (S i) i (first_sequence f)
      else min_element rest (S i) best least
  end.

Definition oldest_filter (filters : list Filter) : nat :=
  match filters with
  | [] => 0%nat
  | f :: rest => min_element rest 1 0 (first_sequence f)
  end.

Definition ActivateFilter (first : Z) (st : RecentFactWriteIndex)
  : nat * RecentFactWriteIndex :=
  let clear := Clear (window_sequences_ st) first in
  match list_find (fun f => active f = false) (filters_ st) with
  | Some (i, _) =>
      (i, with_filters (alter clear i (filters_ st)) (coverage_start_seq_ st) st)
  | None =>
      let i := oldest_filter (filters_ st) in
      let coverage :=
        match filters_ st !! i with
        | Some oldest => Z.max (coverage_start_seq_ st)
                           (Z.max (last_sequence oldest) (published_through oldest))
        | None => coverage_start_seq_ st
        end in
      (i, with_filters (alter clear i (filters_ st)) coverage st)
  end.

Definition filter_MightContain (f : Filter) (identity : FactIdentity) : bool :=
  if (length (words f) =? 0)%nat then true
  else bloom_test (words f) (MixHash (FactIdentityHash identity)).

(** [Add], then [++identities] and the new [published_through]. *)
Definition filter_Add (identity : FactIdentity) (sequence : Z) (f : Filter)
  : Filter :=
  mkFilter (first_sequence f) (last_sequence f)
    (Z.max (published_through f) sequence) (wrap 64 (identities f + 1)) (active f)
    (bloom_add (words f) (MixHash (FactIdentityHash identity))).

(** ** Queries and publication *)

Definition find_slot (slots : list ExactSlot) (identity : FactIdentity)
  : option ExactSlot :=
  snd <$> list_find (fun s => occupied s = true /\ slot_identity s = identity)
            slots.

(** The answer of the exact table, if it has one. *)
Definition exact_answer (st : RecentFactWriteIndex) (identity : FactIdentity)
    (snapshot_seq : Z) : option bool :=
  if exact_coverage_start_seq_ st <=? snapshot_seq then
    i ← ExactBucketFor (exact_buckets_ st) identity;
    bucket ← exact_buckets_ st !! i;
    slot ← find_slot (slots bucket) identity;
    Some (latest_sequence slot <=? snapshot_seq)
  else None.

Definition CanProveUnchanged (st : RecentFactWriteIndex) (ref : FactRef)
    (snapshot_seq : Z) : bool :=
  if negb (status_ok (FactRef_Validate ref)) then false
  else
    let identity := IdentityOf ref in
    match exact_answer st identity snapshot_seq with
    | Some answer => answer
    | None =>
        if (length (filters_ st) =? 0)%nat
           || (snapshot_seq <? coverage_start_seq_ st) then false
        else
          forallb (fun f =>
                     negb (active f) || (published_through f <=? snapshot_seq)
                     || negb (filter_MightContain f identity)) (filters_ st)
    end.

Definition RollFilter (i : nat) (sequence : Z) (st : RecentFactWriteIndex)
  : RecentFactWriteIndex :=
  match filters_ st !! i with
  | None => st
  | Some f =>
      let st :=
        if first_sequence f <? sequence then
          with_filters
            (alter (fun f => mkFilter (first_sequence f) (sequence - 1)
                               (published_through f) (identities f) (active f)
                               (words f)) i (filters_ st))
            (coverage_start_seq_ st) st
        else
          with_filters (filters_ st) (Z.max (coverage_start_seq_ st) sequence) st
      in snd (ActivateFilter sequence st)
  end.

Definition drop_filter (f : Filter) : Filter :=
  mkFilter (first_sequence f) (last_sequence f) (published_through f)
    (identities f) false (replicate (length (words f)) 0).

(** The first half of [Publish]: the exact table. *)
Definition publish_exact_part (identity : FactIdentity) (commit_seq : Z)
    (st : RecentFactWriteIndex) : RecentFactWriteIndex :=
  if commit_seq <? latest_published_seq_ st then
    with_exact ((fun _ => empty_bucket) <$> exact_buckets_ st) (latest_published_seq_ st) st
  else PublishExact identity commit_seq st.

(** The second half: the window of the sequence, made if there is none. *)
Definition publish_filter_part (identity : FactIdentity) (commit_seq : Z)
    (st : RecentFactWriteIndex) : RecentFactWriteIndex :=
  let st := if commit_seq <? coverage_start_seq_ st
            then with_filters (drop_filter <$> filters_ st)
                   (latest_published_seq_ st) st
            else st in
  let '(i, st) := match FindFilter (filters_ st) commit_seq with
                  | Some i => (i, st)
                  | None => ActivateFilter (WindowStart st commit_seq) st
                  end in
  let st := with_filters (alter (filter_Add identity commit_seq) i (filters_ st))
              (coverage_start_seq_ st) st in
  let st := with_latest (Z.max (latest_published_seq_ st) commit_seq) st in
  match filters_ st !! i with
  | Some f =>
      if negb (max_identities_per_filter_ st =? 0)
         && (max_identities_per_filter_ st <=? identities f)
      then RollFilter i commit_seq st else st
  | None => st
  end.

Definition Publish (ref : FactRef) (commit_seq : Z) (st : RecentFactWriteIndex)
  : RecentFactWriteIndex :=
  if (commit_seq =? 0) || negb (status_ok (FactRef_Validate ref)) then st
  else
    let st := publish_exact_part (IdentityOf ref) commit_seq st in
    if (length (filters_ st) =? 0)%nat then
      with_latest (Z.max (latest_published_seq_ st) commit_seq) st
    else publish_filter_part (IdentityOf ref) commit_seq st.

(** ** Specification *)

(** A write the index was told about, or one before it was built. *)
Abbreviation write_log := (list (FactIdentity * Z)).

(** Four slots, a replacement cursor among them, and no identity twice. *)
Definition bucket_ok (b : ExactBucket) : Prop :=
  length (slots b) = 4%nat /\ 0 <= next_replace b < 4 /\
  forall i j x y, slots b !! i = Some x -> slots b !! j = Some y ->
    occupied x = true -> occupied y = true ->
    slot_identity x = slot_identity y -> i = j.

(** A resident entry is not older than any write of its identity, except the
    writes before the exact coverage. *)
Definition exact_ok (log : write_log) (buckets : list ExactBucket)
    (coverage : Z) : Prop :=
  Forall bucket_ok buckets /\
  forall id s i b x, (id, s) ∈ log -> ExactBucketFor buckets id = Some i ->
    buckets !! i = Some b -> x ∈ slots b -> occupied x = true ->
    slot_identity x = id -> s <= Z.max coverage (latest_sequence x).

(** Some live window holds the identity and reaches the sequence. *)
Definition seen (filters : list Filter) (id : FactIdentity) (s : Z) : Prop :=
  exists i f, filters !! i = Some f /\ active f = true /\
    s <= published_through f /\
    bloom_test (words f) (MixHash (FactIdentityHash id)) = true.

Definition bloom_ok (log : write_log) (filters : list Filter) (coverage : Z)
  : Prop :=
  Forall (fun f => words_ok (words f)) filters /\
  (filters <> [] ->
   forall id s, (id, s) ∈ log -> s <= coverage \/ seen filters id s).

Definition index_ok (log : write_log) (st : RecentFactWriteIndex) : Prop :=
  (forall id s, (id, s) ∈ log -> s <= latest_published_seq_ st) /\
  exact_ok log (exact_buckets_ st) (exact_coverage_start_seq_ st) /\
  bloom_ok log (filters_ st) (coverage_start_seq_ st).

(** The two states differ in the windows and their coverage only. *)
Definition same_but_filters (st st' : RecentFactWriteIndex) : Prop :=
  exists filters coverage,
    filters <> [] /\ st' = with_filters filters coverage st.

(** A run of publications. *)
Definition publish_run (calls : list (FactRef * Z)) (st : RecentFactWriteIndex)
  : RecentFactWriteIndex :=
  fold_left (fun st call => Publish call.1 call.2 st) calls st.

(** ** The exact table *)

Lemma exact_scan_spec slots id i empty :
  match exact_scan slots id i empty with
  | inl k => exists x, (i <= k)%nat /\ slots !! (k - i)%nat = Some x /\
                       occupied x = true /\ slot_identity x = id
  | inr e =>
      (forall x, x ∈ slots -> occupied x = true -> slot_identity x <> id) /\
      (e = empty \/ exists k x, e = Some k /\ (i <= k)%nat /\
                              slots !! (k - i)%nat = Some x /\ occupied x = false)
  end.
Proof.
  revert i empty. induction slots as [|x slots IH]; intros i empty; cbn.
  { split; [intros x Hx; by apply not_elem_of_nil in Hx|by left]. }
  destruct (occupied x && bool_decide (slot_identity x = id)) eqn:Hm.
  { apply andb_true_iff in Hm as [? ?%bool_decide_eq_true_1].
    exists x. by rewrite Nat.sub_diag. }
  specialize (IH (S i) (if negb (occupied x) && bool_decide (empty = None)
                        then Some i else empty)).
  assert (forall k, (S i <= k)%nat -> (x :: slots) !! (k - i)%nat
                                      = slots !! (k - S i)%nat) as Hl.
  { intros k Hk. by replace (k - i)%nat with (S (k - S i)) by lia. }
  case_match.
  - destruct IH as (y & ? & ? & ? & ?). exists y. rewrite Hl by done.
    split_and!; [lia|done..].
  - destruct IH as [Hno He]. split.
    + intros y [->|Hy]%elem_of_cons Ho; [|by apply Hno].
      rewrite Ho in Hm. cbn in Hm. by apply bool_decide_eq_false_1 in Hm.
    + destruct He as [He|(k & y & ? & ? & ? & ?)].
      * destruct (negb (occupied x) && _) eqn:Hn; [|by left]. right.
        exists i, x. rewrite Nat.sub_diag. apply andb_true_iff in Hn as [Hn _].
        split_and!; [done|lia|done|by apply negb_true_iff].
      * right. exists k, y. rewrite Hl by done. split_and!; [done|lia|done..].
Qed.

(** Writing slot [k] with the identity, where no other slot has it. *)
Lemma bucket_ok_insert b id s k n :
  bucket_ok b -> 0 <= n < 4 -> (k < 4)%nat ->
  (forall j x, j <> k -> slots b !! j = Some x -> occupied x = true ->
               slot_identity x <> id) ->
  bucket_ok (mkExactBucket (<[k := mkExactSlot id s true]> (slots b)) n).
Proof.
  intros (Hlen & _ & Hu) Hn Hk Hother.
  split_and!; cbn [slots next_replace]; [by rewrite length_insert|lia..|].
  intros i j x y Hi Hj Hx Hy E. rewrite list_lookup_insert in Hi, Hj.
  case_decide as Di; case_decide as Dj; simplify_eq; [lia| | |by eapply Hu].
  all: exfalso; first [eapply (Hother i); [intros ->; lia|done..]
                      |eapply (Hother j); [intros ->; lia|done..]].
Qed.

(** After publication the bucket holds the identity with the new sequence at
    least, and of the other identities only what it held. *)
Lemma publish_slot_spec b id s :
  bucket_ok b ->
  bucket_ok (publish_slot b id s) /\
  forall x, x ∈ slots (publish_slot b id s) -> occupied x = true ->
    (slot_identity x = id /\ s <= latest_sequence x) \/
    (slot_identity x <> id /\ x ∈ slots b).
Proof.
  intros Hb. pose proof Hb as (Hlen & Hn & Hu). unfold publish_slot.
  pose proof (exact_scan_spec (slots b) id 0 None) as Hscan.
  assert (forall k n, 0 <= n < 4 -> (k < 4)%nat ->
    (forall j x, j <> k -> slots b !! j = Some x -> occupied x = true ->
               slot_identity x <> id) -> forall s', s <= s' ->
    let b' := mkExactBucket (<[k := mkExactSlot id s' true]> (slots b)) n in
    bucket_ok b' /\ forall x, x ∈ slots b' -> occupied x = true ->
    (slot_identity x = id /\ s <= latest_sequence x) \/
    (slot_identity x <> id /\ x ∈ slots b)) as Hins.
  { intros k n Hn' Hk Hother s' Hs. split; [by apply bucket_ok_insert|].
    intros x [j Hj]%list_elem_of_lookup Ho. cbn [slots] in Hj.
    rewrite list_lookup_insert in Hj. case_decide; simplify_eq; [by left|].
    right. split; [|by eapply list_elem_of_lookup_2].
    eapply Hother; [|done..]. intros ->. lia. }
  destruct (exact_scan (slots b) id 0 None) as [k|e].
  - destruct Hscan as (x & _ & Hx & Ho & Hid). rewrite Nat.sub_0_r in Hx.
    rewrite list_alter_insert, Hx. cbn [option_fmap option_map].
    pose proof (lookup_lt_Some _ _ _ Hx).
    rewrite <- Hid, Ho. rewrite Hid.
    apply Hins; [lia|lia| |lia].
    intros j y Hj Hy Hoy E. apply Hj. eapply Hu; [done..|congruence].
  - destruct Hscan as [Hno He].
    assert (forall j x, slots b !! j = Some x -> occupied x = true ->
                        slot_identity x <> id)
      by (intros; eapply Hno; [by eapply list_elem_of_lookup_2|done]).
    destruct He as [->|(k & x & -> & _ & Hx & _)].
    + apply Hins; [apply Z.mod_pos_bound; lia|lia|naive_solver|lia].
    + rewrite Nat.sub_0_r in Hx. pose proof (lookup_lt_Some _ _ _ Hx).
      apply Hins; [lia|lia|naive_solver|lia].
Qed.

Lemma ExactBucketFor_alter f i buckets id :
  ExactBucketFor (alter f i buckets) id = ExactBucketFor buckets id.
Proof. unfold ExactBucketFor. by rewrite length_alter. Qed.

Lemma ExactBucketFor_range buckets id i :
  ExactBucketFor buckets id = Some i -> (i < length buckets)%nat.
Proof.
  unfold ExactBucketFor. destruct (Nat.eqb_spec (length buckets) 0); [done|].
  intros [= <-].
  pose proof (Z.mod_pos_bound (MixHash (FactIdentityHash id))
                (Z.of_nat (length buckets)) ltac:(lia)). lia.
Qed.

(** The write log grows by the published write, which is not older than any
    write before it. *)
Lemma PublishExact_ok log st id s :
  (forall id' s', (id', s') ∈ log -> s' <= s) ->
  exact_ok log (exact_buckets_ st) (exact_coverage_start_seq_ st) ->
  exact_ok ((id, s) :: log) (exact_buckets_ (PublishExact id s st))
    (exact_coverage_start_seq_ (PublishExact id s st)).
Proof.
  intros Hlast [Hb He]. unfold PublishExact.
  destruct (ExactBucketFor (exact_buckets_ st) id) as [k|] eqn:Hk.
  - cbn [with_exact exact_buckets_ exact_coverage_start_seq_].
    pose proof (ExactBucketFor_range _ _ _ Hk) as [b Hkb]%lookup_lt_is_Some.
    rewrite list_alter_insert, Hkb.
    pose proof (Forall_lookup_1 _ _ _ _ Hb Hkb) as Hbk.
    destruct (publish_slot_spec b id s Hbk) as [Hok Hx]. split.
    { apply Forall_insert; done. }
    intros id' s' i b' x Hin Hi Hb' Hxin Ho Hid.
    replace (ExactBucketFor _ id') with (ExactBucketFor (exact_buckets_ st) id')
      in Hi by (unfold ExactBucketFor; by rewrite length_insert).
    assert (s' <= s) as Hs' by (apply elem_of_cons in Hin as [[= -> ->]|Hin];
                                [lia|by eapply Hlast]).
    rewrite list_lookup_insert in Hb'. case_decide as D; simplify_eq.
    + destruct D as [<- _].
      destruct (Hx x Hxin Ho) as [[_ ?]|[Hne Hold]]; [lia|].
      apply elem_of_cons in Hin as [[= ? ->]|Hin]; [congruence|].
      by eapply He.
    + apply elem_of_cons in Hin as [[= Hid' ->]|Hin]; [|by eapply He].
      exfalso. apply D. split; [congruence|by eapply lookup_lt_Some].
  - split; [done|]. intros id' s' i b x Hin Hi.
    apply elem_of_cons in Hin as [[= -> ->]|Hin]; [congruence|].
    by eapply He.
Qed.

(** An older write empties the table, which then covers later snapshots only. *)
Lemma empty_exact_ok log (buckets : list ExactBucket) latest :
  (forall id s, (id, s) ∈ log -> s <= latest) ->
  exact_ok log ((fun _ => empty_bucket) <$> buckets) latest.
Proof.
  intros Hl. split.
  - apply Forall_fmap, Forall_true. intros b. split_and!; [done..|].
    cbn [compose empty_bucket slots]. intros i j x y Hx _ Ho.
    apply lookup_replicate in Hx as [-> _]. done.
  - intros id s i b x Hin _ _ _ _ _. apply Hl in Hin. lia.
Qed.

Lemma publish_exact_part_ok log st id s :
  (forall id' s', (id', s') ∈ log -> s' <= latest_published_seq_ st) ->
  exact_ok log (exact_buckets_ st) (exact_coverage_start_seq_ st) ->
  let st' := publish_exact_part id s st in
  exact_ok ((id, s) :: log) (exact_buckets_ st') (exact_coverage_start_seq_ st') /\
  filters_ st' = filters_ st /\ coverage_start_seq_ st' = coverage_start_seq_ st /\
  latest_published_seq_ st' = latest_published_seq_ st.
Proof.
  intros Hl He. cbv zeta. unfold publish_exact_part.
  destruct (Z.ltb_spec s (latest_published_seq_ st)).
  - split; [|done]. apply empty_exact_ok.
    cbn [with_exact exact_coverage_start_seq_].
    intros id' s' [[= -> ->]|Hin]%elem_of_cons; [lia|by eapply Hl].
  - split.
    + apply PublishExact_ok; [|done]. intros ? ? Hin%Hl. lia.
    + unfold PublishExact. by case_match.
Qed.

(** ** The windows *)

Lemma min_element_range filters i best least :
  (best < i)%nat ->
  (min_element filters i best least < i + length filters)%nat.
Proof.
  revert i best least. induction filters as [|f filters IH]; intros i best least Hb;
    cbn; [lia|]. case_match.
  - specialize (IH (S i) i (first_sequence f) ltac:(lia)). lia.
  - specialize (IH (S i) best least ltac:(lia)). lia.
Qed.

Lemma oldest_filter_range filters :
  filters <> [] -> (oldest_filter filters < length filters)%nat.
Proof.
  destruct filters as [|f filters]; [done|intros _]. cbn.
  pose proof (min_element_range filters 1 0 (first_sequence f) ltac:(lia)). lia.
Qed.

Lemma words_ok_Clear w first f : words_ok (words f) -> words_ok (words (Clear w first f)).
Proof. unfold words_ok. cbn [Clear words]. by rewrite length_replicate. Qed.

(** Replacing one filter keeps a write seen when the replacement keeps the
    filter's own writes. *)
Lemma seen_alter filters i g id s :
  seen filters id s ->
  (forall f, filters !! i = Some f -> active f = true -> s <= published_through f ->
     bloom_test (words f) (MixHash (FactIdentityHash id)) = true ->
     active (g f) = true /\ s <= published_through (g f) /\
     bloom_test (words (g f)) (MixHash (FactIdentityHash id)) = true) ->
  seen (alter g i filters) id s.
Proof.
  intros (j & f & Hj & Ha & Hs & Ht) Hg. unfold seen.
  destruct (decide (i = j)) as [<-|Hne].
  - exists i, (g f). rewrite list_lookup_alter_eq, Hj.
    destruct (Hg f Hj Ha Hs Ht) as (? & ? & ?). done.
  - exists j, f. by rewrite list_lookup_alter_ne.
Qed.

(** Activation returns an active filter; a write it forgets is not after the
    new start of the coverage. *)
Lemma ActivateFilter_ok log st first i st' :
  filters_ st <> [] -> ActivateFilter first st = (i, st') ->
  bloom_ok log (filters_ st) (coverage_start_seq_ st) ->
  bloom_ok log (filters_ st') (coverage_start_seq_ st') /\
  (exists f, filters_ st' !! i = Some f /\ active f = true) /\
  same_but_filters st st'.
Proof.
  intros Hne Hact [Hw Hc].
  assert (forall i f c, filters_ st !! i = Some f ->
    (active f = true -> coverage_start_seq_ st <= c /\ published_through f <= c) ->
    coverage_start_seq_ st <= c ->
    let filters := alter (Clear (window_sequences_ st) first) i (filters_ st) in
    bloom_ok log filters c /\
    (exists f, filters !! i = Some f /\ active f = true) /\ filters <> []) as Hclear.
  { intros k f c Hk Hf Hcov. cbv zeta. split_and!.
    - split; [apply Forall_alter; [done|]; intros; by apply words_ok_Clear|].
      intros _ id s Hin. destruct (Hc Hne id s Hin) as [?|Hs]; [left; lia|].
      destruct (decide (s <= c)); [by left|right].
      eapply seen_alter; [done|]. intros f' Hf' Ha Hp _. simplify_eq.
      apply Hf in Ha as [? ?]. lia.
    - exists (Clear (window_sequences_ st) first f).
      by rewrite list_lookup_alter_eq, Hk.
    - intros E. apply (f_equal length) in E. rewrite length_alter in E.
      apply lookup_lt_Some in Hk. cbn in E. lia. }
  unfold ActivateFilter in Hact.
  destruct (list_find _ (filters_ st)) as [[k f]|] eqn:Hfind.
  - apply list_find_Some in Hfind as (Hk & Hina & _). injection Hact as <- <-.
    destruct (Hclear k f (coverage_start_seq_ st) Hk) as (? & ? & ?);
      [congruence|lia|].
    split_and!; [done|done|]. by do 2 eexists.
  - injection Hact as <- <-.
    destruct (lookup_lt_is_Some_2 (filters_ st) _ (oldest_filter_range _ Hne))
      as [f Hk]. rewrite Hk.
    destruct (Hclear _ f (Z.max (coverage_start_seq_ st)
                (Z.max (last_sequence f) (published_through f))) Hk)
      as (? & ? & ?); [lia|lia|].
    split_and!; [done|done|]. by do 2 eexists.
Qed.

Lemma same_but_filters_refl st : filters_ st <> [] -> same_but_filters st st.
Proof. intros H. exists (filters_ st), (coverage_start_seq_ st). by destruct st. Qed.

Lemma same_but_filters_trans a b c :
  same_but_filters a b -> same_but_filters b c -> same_but_filters a c.
Proof. intros (? & ? & _ & ->) (? & ? & ? & ->). by do 2 eexists. Qed.

Lemma alter_not_nil {A} (g : A -> A) i l : l <> [] -> alter g i l <> [].
Proof.
  intros H E. apply (f_equal length) in E. rewrite length_alter in E. by destruct l.
Qed.

(** Closing a window, or giving its sequence up, and opening the next one. *)
Lemma RollFilter_ok log st i s :
  filters_ st <> [] -> bloom_ok log (filters_ st) (coverage_start_seq_ st) ->
  bloom_ok log (filters_ (RollFilter i s st))
    (coverage_start_seq_ (RollFilter i s st)) /\
  same_but_filters st (RollFilter i s st).
Proof.
  intros Hne Hb. unfold RollFilter.
  destruct (filters_ st !! i) as [f|] eqn:Hi;
    [|split; [done|by apply same_but_filters_refl]].
  set (st1 := if first_sequence f <? s then _ else _).
  assert (bloom_ok log (filters_ st1) (coverage_start_seq_ st1) /\
          same_but_filters st st1) as [Hb1 H1].
  { destruct Hb as [Hw Hc]. subst st1. case_match.
    - split; [|do 2 eexists; split; [|done]; by apply alter_not_nil].
      cbn [with_filters filters_ coverage_start_seq_]. split.
      + by apply Forall_alter.
      + intros _ id s' [?|Hs]%(Hc Hne id); [by left|right].
        apply seen_alter; done.
    - split; [|by do 2 eexists]. split; [done|].
      cbn [with_filters filters_ coverage_start_seq_].
      intros _ id s' [?|Hs]%(Hc Hne id); [left; lia|by right]. }
  clearbody st1. destruct (ActivateFilter s st1) as [k st2] eqn:Ha.
  assert (filters_ st1 <> []) as Hne1 by (by destruct H1 as (? & ? & ? & ->)).
  destruct (ActivateFilter_ok log st1 s k st2 Hne1 Ha Hb1) as (? & _ & ?).
  split; [done|]. by eapply same_but_filters_trans.
Qed.

(** The filter of a sequence: found or activated. *)
Lemma window_ok log st s i st' :
  filters_ st <> [] -> bloom_ok log (filters_ st) (coverage_start_seq_ st) ->
  match FindFilter (filters_ st) s with
  | Some i => (i, st)
  | None => ActivateFilter (WindowStart st s) st
  end = (i, st') ->
  bloom_ok log (filters_ st') (coverage_start_seq_ st') /\
  (exists f, filters_ st' !! i = Some f /\ active f = true) /\
  same_but_filters st st'.
Proof.
  intros Hne Hb H. unfold FindFilter in H.
  destruct (list_find _ (filters_ st)) as [[k f]|] eqn:Hfind; cbn in H.
  - injection H as <- <-. apply list_find_Some in Hfind as (Hk & Hin & _).
    split_and!; [done| |by apply same_but_filters_refl].
    exists f. split; [done|]. unfold in_window in Hin.
    by do 2 apply andb_true_iff in Hin as [Hin _].
  - by eapply ActivateFilter_ok.
Qed.

(** Adding the write to an active filter. *)
Lemma filter_Add_ok log filters coverage i f id s :
  bloom_ok log filters coverage -> filters !! i = Some f -> active f = true ->
  bloom_ok ((id, s) :: log) (alter (filter_Add id s) i filters) coverage.
Proof.
  intros [Hw Hc] Hi Ha. split.
  { apply Forall_alter; [done|]. intros f' _ ?. by apply words_ok_add. }
  intros _ id' s' [[= -> ->]|Hin]%elem_of_cons.
  - right. exists i, (filter_Add id s f). rewrite list_lookup_alter_eq, Hi.
    split_and!; [done|done|cbn; lia|].
    apply bloom_test_add. by eapply (Forall_lookup_1 _ _ _ _ Hw).
  - destruct (Hc ltac:(by intros ->) id' s' Hin) as [?|Hs]; [by left|right].
    apply seen_alter; [done|]. intros f' _ ? ? ?.
    split_and!; [done|cbn; lia|by apply bloom_test_mono].
Qed.

(** Dropping all windows. *)
Lemma drop_ok log st s :
  (forall id s, (id, s) ∈ log -> s <= latest_published_seq_ st) ->
  filters_ st <> [] -> bloom_ok log (filters_ st) (coverage_start_seq_ st) ->
  let st' := if s <? coverage_start_seq_ st
             then with_filters (drop_filter <$> filters_ st)
                    (latest_published_seq_ st) st
             else st in
  bloom_ok log (filters_ st') (coverage_start_seq_ st') /\ same_but_filters st st'.
Proof.
  intros Hl Hne [Hw Hc]. cbv zeta. case_match;
    [|split; [done|by apply same_but_filters_refl]].
  split.
  - cbn [with_filters filters_ coverage_start_seq_]. split.
    + apply Forall_fmap. eapply Forall_impl; [exact Hw|]. intros f Hf.
      unfold words_ok in *. cbn [compose drop_filter words].
      by rewrite length_replicate.
    + intros _ id s' Hin. left. by eapply Hl.
  - do 2 eexists. split; [|done]. by destruct (filters_ st).
Qed.

Lemma publish_filter_part_ok log st id s :
  (forall id' s', (id', s') ∈ log -> s' <= latest_published_seq_ st) ->
  filters_ st <> [] -> bloom_ok log (filters_ st) (coverage_start_seq_ st) ->
  let st' := publish_filter_part id s st in
  bloom_ok ((id, s) :: log) (filters_ st') (coverage_start_seq_ st') /\
  same_but_filters (with_latest (Z.max (latest_published_seq_ st) s) st) st'.
Proof.
  intros Hl Hne Hb. cbv zeta. unfold publish_filter_part. cbv zeta.
  destruct (drop_ok log st s Hl Hne Hb) as [Hb1 H1]. cbv zeta in Hb1, H1.
  set (st1 := if s <? coverage_start_seq_ st then _ else _) in *. clearbody st1.
  assert (filters_ st1 <> []) as Hne1 by (by destruct H1 as (? & ? & ? & ->)).
  destruct (match FindFilter (filters_ st1) s with
            | Some i => (i, st1)
            | None => ActivateFilter (WindowStart st1 s) st1
            end) as [i st2] eqn:H2.
  destruct (window_ok log st1 s i st2 Hne1 Hb1 H2) as (Hb2 & (f & Hf & Ha) & S2).
  pose proof (filter_Add_ok log _ _ i f id s Hb2 Hf Ha) as Hb3.
  set (st3 := with_latest _ _).
  assert (same_but_filters (with_latest (Z.max (latest_published_seq_ st) s) st) st3)
    as S3.
  { destruct H1 as (? & ? & _ & ->), S2 as (? & ? & Hne2 & ->).
    do 2 eexists. split; [|done]. by apply alter_not_nil. }
  assert (filters_ st3 <> []) as Hne3 by (by destruct S3 as (? & ? & ? & ->)).
  change (bloom_ok ((id, s) :: log) (filters_ st3) (coverage_start_seq_ st3)) in Hb3.
  clearbody st3.
  destruct (filters_ st3 !! i) as [f3|]; [|done].
  destruct (negb _ && _); [|done].
  destruct (RollFilter_ok _ st3 i s Hne3 Hb3) as [? ?].
  split; [done|]. by eapply same_but_filters_trans.
Qed.

(** ** The invariant of a run *)

Lemma Publish_ok log st ref s :
  index_ok log st ->
  index_ok (if (s =? 0) || negb (status_ok (FactRef_Validate ref)) then log
            else (IdentityOf ref, s) :: log) (Publish ref s st).
Proof.
  intros (Hl & He & Hb). unfold Publish. case_match; [done|].
  destruct (publish_exact_part_ok log st (IdentityOf ref) s Hl He)
    as (He1 & Ef & Ec & El). cbv zeta in *.
  set (st1 := publish_exact_part _ _ st) in *. clearbody st1.
  rewrite <- Ef, <- Ec in Hb.
  assert (forall id' s', (id', s') ∈ (IdentityOf ref, s) :: log ->
            s' <= Z.max (latest_published_seq_ st) s) as Hl'.
  { intros id' s' [[= -> ->]|Hin%Hl]%elem_of_cons; lia. }
  destruct (Nat.eqb_spec (length (filters_ st1)) 0) as [E|E].
  - apply nil_length_inv in E. unfold index_ok. cbn. rewrite El, E.
    split_and!; [done|done|]. split; [by apply Forall_nil|done].
  - assert (filters_ st1 <> []) as Hne by (intros E0; by rewrite E0 in E).
    destruct (publish_filter_part_ok log st1 (IdentityOf ref) s) as [Hb' S'];
      [by rewrite El|done|done|]. cbv zeta in *.
    destruct S' as (fs & c & _ & ES). rewrite ES in *.
    unfold index_ok. cbn in *. by rewrite El.
Qed.

(** The calls that [Publish] does not ignore. *)
Lemma publish_run_ok calls log st :
  index_ok log st ->
  exists log', index_ok log' (publish_run calls st) /\
    (forall p, p ∈ log -> p ∈ log') /\
    forall ref s, (ref, s) ∈ calls -> s <> 0 -> FactRef_Validate ref = StatusOK ->
      (IdentityOf ref, s) ∈ log'.
Proof.
  revert log st. induction calls as [|[ref s] calls IH]; intros log st Hok.
  - exists log. split_and!; [done|done|]. intros ? ? H. by apply not_elem_of_nil in H.
  - destruct (IH _ _ (Publish_ok log st ref s Hok)) as (log' & ? & Hin & Hc).
    exists log'. split_and!; [done| |].
    + intros p Hp. apply Hin. case_match; [done|by right].
    + intros ref' s' [[= -> ->]|Hin']%elem_of_cons Hs Hv; [|by apply Hc].
      apply Hin. rewrite Hv, (proj2 (Z.eqb_neq s 0)) by done. cbn. by left.
Qed.

Lemma find_slot_Some slots id x :
  find_slot slots id = Some x ->
  x ∈ slots /\ occupied x = true /\ slot_identity x = id.
Proof.
  unfold find_slot. destruct (list_find _ slots) as [[i y]|] eqn:Hf; [|done].
  intros [= <-]. apply list_find_Some in Hf as (Hi & [? ?] & _).
  split; [by eapply list_elem_of_lookup_2|done].
Qed.

(** A proof of absence is right for every write of the log. *)
Lemma CanProveUnchanged_ok log st ref snapshot s :
  index_ok log st -> CanProveUnchanged st ref snapshot = true ->
  (IdentityOf ref, s) ∈ log -> s <= snapshot.
Proof.
  intros (Hl & [_ He] & [Hw Hc]) H Hin. unfold CanProveUnchanged in H.
  destruct (status_ok (FactRef_Validate ref)); [|done]. cbn [negb] in H.
  destruct (exact_answer st (IdentityOf ref) snapshot) as [a|] eqn:Ha.
  - subst a. unfold exact_answer in Ha.
    destruct (Z.leb_spec (exact_coverage_start_seq_ st) snapshot); [|done].
    apply bind_Some in Ha as (i & Hi & Ha).
    apply bind_Some in Ha as (b & Hb & Ha).
    apply bind_Some in Ha as (x & Hx & [= Ha%Z.leb_le]).
    apply find_slot_Some in Hx as (Hxb & Ho & Hid).
    specialize (He _ s i b x Hin Hi Hb Hxb Ho Hid). lia.
  - destruct (Nat.eqb_spec (length (filters_ st)) 0) as [|Hn]; [done|].
    destruct (Z.ltb_spec snapshot (coverage_start_seq_ st)); [done|].
    cbn [orb] in H. rewrite forallb_forall in H.
    destruct (Hc ltac:(by intros E; rewrite E in Hn) _ s Hin)
      as [?|(i & f & Hi & Hact & Hs & Ht)]; [lia|].
    specialize (H f ltac:(by eapply list_elem_of_In, list_elem_of_lookup_2)).
    rewrite Hact in H. destruct (Z.leb_spec (published_through f) snapshot); [lia|].
    cbn [negb orb] in H. unfold filter_MightContain in H.
    pose proof (Forall_lookup_1 _ _ _ _ Hw Hi) as [? _].
    rewrite (proj2 (Nat.eqb_neq (length (words f)) 0)), Ht in H by lia. done.
Qed.

Lemma WordsPerFilter_ok max_bytes :
  0 <= max_bytes < 2 ^ 60 -> WordsPerFilter max_bytes <> 0 ->
  words_ok (replicate (Z.to_nat (WordsPerFilter max_bytes)) 0).
Proof.
  intros Hm. unfold WordsPerFilter, kFilterCount.
  rewrite Z.div_div by lia. change (4 * 8) with 32.
  assert (0 <= max_bytes / 32 < 2 ^ 55).
  { split; [apply Z.div_pos; lia|]. apply Z.div_lt_upper_bound; lia. }
  destruct (Z.eqb_spec (max_bytes / 32) 0); [done|].
  destruct (grow_spec 64 1 (max_bytes / 32)) as (k & ? & -> & ?); [lia..|].
  intros _. unfold words_ok. rewrite length_replicate. lia.
Qed.

(** A new index covers every write up to its starting sequence. *)
Lemma new_index_ok eb fl max_bytes start window log :
  0 < eb -> 0 < fl -> 0 <= max_bytes < 2 ^ 60 ->
  (forall id s, (id, s) ∈ log -> s <= start) ->
  index_ok log (new_index eb fl max_bytes start window).
Proof.
  intros He Hf Hm Hl. unfold new_index. cbv zeta.
  set (count := max_bytes / 2 / eb).
  assert (exact_ok log (replicate (Z.to_nat count) empty_bucket) start) as Hx.
  { rewrite <- (fmap_replicate (fun _ => empty_bucket) _ empty_bucket).
    by apply empty_exact_ok. }
  assert (0 <= count * eb <= max_bytes).
  { subst count. rewrite Z.div_div, (Z.mul_comm _ eb) by lia.
    assert (0 <= max_bytes / (2 * eb)) by (apply Z.div_pos; lia).
    pose proof (Z.mul_div_le max_bytes (2 * eb) ltac:(lia)). nia. }
  set (words := if kFilterCount * fl <=? max_bytes - count * eb then _ else 0).
  destruct (Z.eqb_spec words 0) as [|Hw]; unfold index_ok; cbn [filters_ exact_buckets_ latest_published_seq_
      exact_coverage_start_seq_ coverage_start_seq_]; split_and!; try done.
  subst words. destruct (Z.leb_spec (kFilterCount * fl) (max_bytes - count * eb)); [|done].
  unfold kFilterCount in *. split.
  - apply Forall_replicate. apply WordsPerFilter_ok; [lia|done].
  - intros _ id s Hin. left. by eapply Hl.
Qed.

(** ** Properties *)

(** C20: the recent-write index never proves a changed fact unchanged: for an
    index built at a sequence [start], after any sequence of publications, in
    any order of commit sequences, with any window and memory budget, a fact that
    [CanProveUnchanged] clears since a snapshot has no published write after that
    snapshot, and neither has it one among the writes up to [start]. *)
Theorem CanProveUnchanged_sound eb fl max_bytes start window calls old ref
    snapshot s :
  0 < eb -> 0 < fl -> 0 <= max_bytes < 2 ^ 60 -> 0 <= snapshot ->
  (forall ref s, (ref, s) ∈ old -> s <= start) ->
  CanProveUnchanged (publish_run calls (new_index eb fl max_bytes start window))
    ref snapshot = true ->
  (ref, s) ∈ old ++ calls -> s <= snapshot.
Proof.
  intros He Hf Hm Hsnap Hold Hprove Hin.
  destruct (publish_run_ok calls (prod_map IdentityOf id <$> old)
              (new_index eb fl max_bytes start window)) as (log & Hok & Hlog & Hc).
  { apply new_index_ok; [done..|]. intros i s'.
    rewrite list_elem_of_fmap. intros ([r t] & [= -> ->] & Hr). by eapply Hold. }
  assert (FactRef_Validate ref = StatusOK) as Hv.
  { unfold CanProveUnchanged in Hprove. by destruct (FactRef_Validate ref). }
  destruct (decide (s = 0)) as [->|Hs0]; [done|].
  eapply CanProveUnchanged_ok; [exact Hok|exact Hprove|].
  apply elem_of_app in Hin as [Hin|Hin]; [|by apply Hc].
  apply Hlog, list_elem_of_fmap. by exists (ref, s).
Qed.

Lemma CanProveUnchanged_sound_witness :
  CanProveUnchanged
    (publish_run [(mkFactRef 1 kVertexState 0 7, 11)] (new_index 40 64 4096 10 16))
    (mkFactRef 1 kVertexState 0 7) 12 = true /\ 11 <= 12.
Proof.
  split; [vm_compute; reflexivity|].
  apply (CanProveUnchanged_sound 40 64 4096 10 16
           [(mkFactRef 1 kVertexState 0 7, 11)] [] (mkFactRef 1 kVertexState 0 7)
           12 11); [lia|lia|lia|lia| |vm_compute; reflexivity|by left].
  intros r t H. by apply not_elem_of_nil in H.
Defined.
