(* ===== verification/ValidationCache.v ===== *)
(** * ValidationCache: the version validation cache

    Models [src/storage/facts/version_validation_cache.{h,cc}]: a four-way
    set-associative cache of the newest commit per valid-time boundary of a fact
    chain.  A [Slot*] is the index of the slot; the array and the size of a
    [Chain] are one list.  The mutex makes every operation one step; the
    publication generation is read and bumped outside of it, so the interleaving
    of writers, scans and the publisher is the step relation at the end.  The
    hit counters are left out. *)

From S2P Require Import Prelude Status Value Fact CommitBatch GroupCommit Bloom.

Record ValidationBoundary := mkValidationBoundary {
  vb_valid_from : Z;
  vb_commit_seq : Z
}.

Definition kMaxBoundariesPerChain : nat := 8.
Definition kSetWays : nat := 4.

Abbreviation Chain := (list ValidationBoundary).

Record Slot := mkSlot {
  slot_key : FactIdentity;
  slot_chain : Chain;
  last_touch : Z;
  slot_occupied : bool
}.

Record VersionValidationCache := mkVersionValidationCache {
  slots_ : list Slot;
  touch_clock_ : Z;
  resident_chains_ : Z;
  publish_generation_ : Z
}.

Definition SlotCapacityForBytes (sizeof_Slot max_bytes : Z) : Z :=
  let raw_slots := max_bytes / sizeof_Slot in
  if raw_slots <? Z.of_nat kSetWays then 0
  else grow 64 (Z.of_nat kSetWays) raw_slots.

Definition new_cache (sizeof_Slot max_bytes : Z) : VersionValidationCache :=
  mkVersionValidationCache
    (replicate (Z.to_nat (SlotCapacityForBytes sizeof_Slot max_bytes))
       (mkSlot (0, (0, (0, 0))) [] 0 false)) 0 0 0.

(** ** Chains *)

(** The loop that finds the first boundary not after the given valid time. *)
Fixpoint boundary_position (chain : Chain) (valid_from : Z) : nat :=
  match chain with
  | [] => 0
  | b :: rest =>
      if valid_from <? vb_valid_from b then S (boundary_position rest valid_from)
      else 0
  end.

(** [None] where the code returns [false]: the chain is full. *)
Definition InsertBoundary (chain : Chain) (boundary : ValidationBoundary)
  : option Chain :=
  let position := boundary_position chain (vb_valid_from boundary) in
  let insert :=
    if (length chain =? kMaxBoundariesPerChain)%nat then None
    else Some (take position chain ++ boundary :: drop position chain) in
  match chain !! position with
  | Some existing =>
      if vb_valid_from existing =? vb_valid_from boundary then
        Some (<[position :=
                  mkValidationBoundary (vb_valid_from existing)
                    (Z.max (vb_commit_seq existing) (vb_commit_seq boundary))]>
                chain)
      else insert
  | None => insert
  end.

(** ** Slots *)

Definition SetOffset (slots : list Slot) (key : FactIdentity) : nat :=
  let sets := Z.of_nat (length slots / kSetWays) in
  (Z.to_nat (Z.land (FactIdentityHash key) (wrap 64 (sets - 1))) * kSetWays)%nat.

Definition slot_matches (key : FactIdentity) (slot : Slot) : bool :=
  slot_occupied slot && bool_decide (slot_key slot = key).

(** The four slots of a set from index [offset] on. *)
Definition set_of (slots : list Slot) (offset : nat) : list Slot :=
  take kSetWays (drop offset slots).

Definition FindLocked (slots : list Slot) (key : FactIdentity) : option nat :=
  if (length slots =? 0)%nat then None
  else
    let offset := SetOffset slots key in
    (fun found => offset + found.1)%nat <$>
      list_find (fun slot => slot_matches key slot = true) (set_of slots offset).

(** The loop of [SelectForPrimeLocked] over the rest of the set. *)
Fixpoint select_loop (set : list Slot) (index oldest : nat) (oldest_touch : Z)
  : nat :=
  match set with
  | [] => oldest
  | slot :: rest =>
      if negb (slot_occupied slot) then index
      else if last_touch slot <? oldest_touch
           then select_loop rest (S index) index (last_touch slot)
           else select_loop rest (S index) oldest oldest_touch
  end.

Definition SelectForPrimeLocked (slots : list Slot) (key : FactIdentity) : nat :=
  let offset := SetOffset slots key in
  match set_of slots offset with
  | [] => offset
  | first :: _ =>
      select_loop (set_of slots offset) offset offset (last_touch first)
  end.

(** ** Operations *)

(** [TouchLocked]: the clock after the touch, which is also the slot's stamp. *)
Definition touch (c : VersionValidationCache) : Z := wrap 64 (touch_clock_ c + 1).

Definition write_slot (i : nat) (slot : Slot) (clock resident : Z)
    (c : VersionValidationCache) : VersionValidationCache :=
  mkVersionValidationCache (<[i := slot]> (slots_ c)) clock resident
    (publish_generation_ c).

Definition Lookup (ref : FactRef) (c : VersionValidationCache)
  : option Chain * VersionValidationCache :=
  if negb (status_ok (FactRef_Validate ref)) then (None, c)
  else
    match i ← FindLocked (slots_ c) (IdentityOf ref); s ← slots_ c !! i; Some (i, s)
    with
    | None => (None, c)
    | Some (i, slot) =>
        (Some (slot_chain slot),
         write_slot i (mkSlot (slot_key slot) (slot_chain slot) (touch c)
                         (slot_occupied slot)) (touch c) (resident_chains_ c) c)
    end.

(** Dropping a slot whose chain outgrew the array. *)
Definition drop_slot (i : nat) (slot : Slot) (c : VersionValidationCache)
  : VersionValidationCache :=
  write_slot i (mkSlot (slot_key slot) (slot_chain slot) (last_touch slot) false)
    (touch_clock_ c) (resident_chains_ c - 1) c.

(** The chain built from scanned boundaries; [None] when it does not fit. *)
Fixpoint prime_chain (chain : Chain) (boundaries : list ValidationBoundary)
  : option Chain :=
  match boundaries with
  | [] => Some chain
  | b :: rest =>
      if vb_commit_seq b =? 0 then prime_chain chain rest
      else
        match InsertBoundary chain b with
        | Some chain' => prime_chain chain' rest
        | None => None
        end
  end.

Definition Prime (ref : FactRef) (boundaries : list ValidationBoundary)
    (observed_publish_generation : Z) (c : VersionValidationCache)
  : VersionValidationCache :=
  let key := IdentityOf ref in
  if (length (slots_ c) =? 0)%nat || negb (status_ok (FactRef_Validate ref)) then c
  else
    match prime_chain [] boundaries with
    | None =>
        match i ← FindLocked (slots_ c) key; s ← slots_ c !! i; Some (i, s) with
        | Some (i, slot) => drop_slot i slot c
        | None => c
        end
    | Some chain =>
        if negb (publish_generation_ c =? observed_publish_generation) then c
        else
          let '(i, resident) :=
            match FindLocked (slots_ c) key with
            | Some i => (i, resident_chains_ c)
            | None =>
                let i := SelectForPrimeLocked (slots_ c) key in
                (i, match slots_ c !! i with
                    | Some slot => if negb (slot_occupied slot)
                                   then resident_chains_ c + 1
                                   else resident_chains_ c
                    | None => resident_chains_ c
                    end)
            end in
          write_slot i (mkSlot key chain (touch c) true) (touch c) resident c
    end.

(** The bump of the generation, before the lock is taken. *)
Definition bump_generation (c : VersionValidationCache) : VersionValidationCache :=
  mkVersionValidationCache (slots_ c) (touch_clock_ c) (resident_chains_ c)
    (wrap 64 (publish_generation_ c + 1)).

(** The part of [Publish] under the lock. *)
Definition publish_locked (ref : FactRef) (boundary : ValidationBoundary)
    (c : VersionValidationCache) : VersionValidationCache :=
  match i ← FindLocked (slots_ c) (IdentityOf ref); s ← slots_ c !! i; Some (i, s)
  with
  | None => c
  | Some (i, slot) =>
      match InsertBoundary (slot_chain slot) boundary with
      | None => drop_slot i slot c
      | Some chain =>
          write_slot i (mkSlot (slot_key slot) chain (touch c)
                          (slot_occupied slot)) (touch c) (resident_chains_ c) c
      end
  end.

Definition cache_Publish (mutation : PendingFactMutation) (commit_seq : Z)
    (c : VersionValidationCache) : VersionValidationCache :=
  if (commit_seq =? 0) || negb (status_ok (FactRef_Validate (mutation_ref mutation)))
  then c
  else
    publish_locked (mutation_ref mutation)
      (mkValidationBoundary (mutation_valid_from mutation) commit_seq)
      (bump_generation c).

(** ** Specification *)

(** The commit sequence a chain holds for a boundary. *)
Fixpoint chain_at (chain : Chain) (valid_from : Z) : option Z :=
  match chain with
  | [] => None
  | b :: rest =>
      if vb_valid_from b =? valid_from then Some (vb_commit_seq b)
      else chain_at rest valid_from
  end.

(** Newest boundary first, each valid time once, and within the array. *)
Definition chain_ok (chain : Chain) : Prop :=
  StronglySorted (fun a b => vb_valid_from b < vb_valid_from a) chain /\
  (length chain <= kMaxBoundariesPerChain)%nat.

(** Insertion by structural recursion. *)
Fixpoint insert_desc (chain : Chain) (b : ValidationBoundary) : Chain :=
  match chain with
  | [] => [b]
  | x :: rest =>
      if vb_valid_from b <? vb_valid_from x then x :: insert_desc rest b
      else if vb_valid_from x =? vb_valid_from b then
        mkValidationBoundary (vb_valid_from x)
          (Z.max (vb_commit_seq x) (vb_commit_seq b)) :: rest
      else b :: x :: rest
  end.

(** Writes are pairs of a valid time and a commit sequence: the chain has an
    entry not older than any of [lo], and only entries of [hi]. *)
Definition chain_between (lo hi : Z -> Z -> Prop) (chain : Chain) : Prop :=
  (forall v s, lo v s -> exists s', chain_at chain v = Some s' /\ s <= s') /\
  (forall v s, chain_at chain v = Some s -> hi v s).

(** Every occupied slot is in the set of its key, no key is resident twice, the
    chains are well-formed, and the residency counter counts. *)
Definition slots_ok (slots : list Slot) : Prop :=
  (exists k, 0 <= k < 60 /\ Z.of_nat (length slots) = 4 * 2 ^ k) /\
  (forall i slot, slots !! i = Some slot -> slot_occupied slot = true ->
     (SetOffset slots (slot_key slot) <= i
      < SetOffset slots (slot_key slot) + kSetWays)%nat /\
     chain_ok (slot_chain slot)) /\
  (forall i j a b, slots !! i = Some a -> slots !! j = Some b ->
     slot_occupied a = true -> slot_occupied b = true ->
     slot_key a = slot_key b -> i = j).

Definition occupied_slots (slots : list Slot) : nat :=
  length (filter (fun slot => slot_occupied slot = true) slots).

Definition cache_ok (c : VersionValidationCache) : Prop :=
  (slots_ c = [] \/ slots_ok (slots_ c)) /\
  resident_chains_ c = Z.of_nat (occupied_slots (slots_ c)).

(** Every resident chain lies between the bounds of its identity. *)
Definition cache_between (lo hi : FactIdentity -> Z -> Z -> Prop)
    (c : VersionValidationCache) : Prop :=
  forall i slot, slots_ c !! i = Some slot -> slot_occupied slot = true ->
    chain_between (lo (slot_key slot)) (hi (slot_key slot)) (slot_chain slot).

Definition cache_inv (lo hi : FactIdentity -> Z -> Z -> Prop)
    (c : VersionValidationCache) : Prop :=
  cache_ok c /\ cache_between lo hi c.

(** A bound with one more write. *)
Definition with_write (key : FactIdentity) (b : ValidationBoundary)
    (bound : FactIdentity -> Z -> Z -> Prop) (key' : FactIdentity) (v s : Z) : Prop :=
  bound key' v s \/ (key' = key /\ v = vb_valid_from b /\ s = vb_commit_seq b).

(** A scan of the chain: it has every write of the lower bound, a newer one
    perhaps in its place, and only writes of the upper bound. *)
Definition scan_between (lo hi : Z -> Z -> Prop) (bs : list ValidationBoundary)
  : Prop :=
  (forall v s, lo v s -> exists b, b ∈ bs /\ vb_valid_from b = v /\
                                 s <= vb_commit_seq b /\ vb_commit_seq b <> 0) /\
  (forall b, b ∈ bs -> hi (vb_valid_from b) (vb_commit_seq b)).

(** ** Writers, scans and the publisher

    A write reaches the store first; the publisher then bumps the generation and
    enters the write into the cache, each under its own synchronization.  A scan
    notes the generation, later reads the store, and later still primes the
    cache with what it read. *)

Abbreviation logged_write := (FactRef * ValidationBoundary)%type.

Record Scan := mkScan {
  scan_ref : FactRef;
  scan_generation : Z;
  scan_result : option (list ValidationBoundary)
}.

Record system := mkSystem {
  sys_cache : VersionValidationCache;
  written : list logged_write;
  unpublished : list logged_write;
  bumped : list logged_write;
  published : list logged_write;
  scans : list Scan
}.

Definition writes_of (log : list logged_write) (key : FactIdentity) (v s : Z) : Prop :=
  exists ref, (ref, mkValidationBoundary v s) ∈ log /\ IdentityOf ref = key.

(** The newest write of an identity at a valid time. *)
Definition newest (log : list logged_write) (key : FactIdentity) (v s : Z) : Prop :=
  writes_of log key v s /\ forall s', writes_of log key v s' -> s' <= s.

Inductive step : system -> system -> Prop :=
| step_write st ws :
    step st (mkSystem (sys_cache st) (ws ++ written st) (ws ++ unpublished st)
               (bumped st) (published st) (scans st))
| step_bump st before w after :
    unpublished st = before ++ w :: after ->
    publish_generation_ (sys_cache st) < U64_MAX ->
    step st (mkSystem (bump_generation (sys_cache st)) (written st)
               (before ++ after) (w :: bumped st) (published st) (scans st))
| step_publish st before w after :
    bumped st = before ++ w :: after ->
    step st (mkSystem (publish_locked w.1 w.2 (sys_cache st)) (written st)
               (unpublished st) (before ++ after) (w :: published st) (scans st))
| step_scan_start st ref :
    step st (mkSystem (sys_cache st) (written st) (unpublished st) (bumped st)
               (published st)
               (mkScan ref (publish_generation_ (sys_cache st)) None :: scans st))
| step_scan_read st before ref g after bs :
    scans st = before ++ mkScan ref g None :: after ->
    scan_between (writes_of (written st) (IdentityOf ref))
      (writes_of (written st) (IdentityOf ref)) bs ->
    step st (mkSystem (sys_cache st) (written st) (unpublished st) (bumped st)
               (published st) (before ++ mkScan ref g (Some bs) :: after))
| step_prime st before ref g bs after :
    scans st = before ++ mkScan ref g (Some bs) :: after ->
    step st (mkSystem (Prime ref bs g (sys_cache st)) (written st) (unpublished st)
               (bumped st) (published st) (before ++ after))
| step_lookup st ref :
    step st (mkSystem (Lookup ref (sys_cache st)).2 (written st) (unpublished st)
               (bumped st) (published st) (scans st)).

Definition initial (sizeof_Slot max_bytes : Z) : system :=
  mkSystem (new_cache sizeof_Slot max_bytes) [] [] [] [] [].

Definition system_inv (st : system) : Prop :=
  cache_inv (writes_of (published st)) (writes_of (written st)) (sys_cache st) /\
  0 <= publish_generation_ (sys_cache st) <= U64_MAX /\
  (forall w, w ∈ written st <->
     w ∈ unpublished st \/ w ∈ bumped st \/ w ∈ published st) /\
  Forall (fun scan =>
    scan_generation scan <= publish_generation_ (sys_cache st) /\
    (scan_generation scan = publish_generation_ (sys_cache st) ->
     forall bs, scan_result scan = Some bs ->
       scan_between
         (writes_of (bumped st ++ published st) (IdentityOf (scan_ref scan)))
         (writes_of (written st) (IdentityOf (scan_ref scan))) bs)) (scans st).

(** ** Chains *)

Lemma boundary_position_le chain v : (boundary_position chain v <= length chain)%nat.
Proof. induction chain as [|b chain IH]; cbn; [lia|]. case_match; lia. Qed.

Lemma InsertBoundary_desc chain b chain' :
  InsertBoundary chain b = Some chain' ->
  chain' = insert_desc chain b /\
  ((length chain <= kMaxBoundariesPerChain)%nat ->
   (length chain' <= kMaxBoundariesPerChain)%nat).
Proof.
  unfold InsertBoundary. cbv zeta.
  assert (forall chain, match chain !! boundary_position chain (vb_valid_from b) with
    | Some x => if vb_valid_from x =? vb_valid_from b then
        <[boundary_position chain (vb_valid_from b) :=
            mkValidationBoundary (vb_valid_from x)
              (Z.max (vb_commit_seq x) (vb_commit_seq b))]> chain
        else take (boundary_position chain (vb_valid_from b)) chain
             ++ b :: drop (boundary_position chain (vb_valid_from b)) chain
    | None => take (boundary_position chain (vb_valid_from b)) chain
              ++ b :: drop (boundary_position chain (vb_valid_from b)) chain
    end = insert_desc chain b) as Hraw.
  { clear. induction chain as [|x chain IH]; cbn; [done|].
    destruct (Z.ltb_spec (vb_valid_from b) (vb_valid_from x)); cbn; [|by case_match].
    rewrite <- IH. destruct (chain !! _) as [y|]; [|done].
    by destruct (vb_valid_from y =? vb_valid_from b). }
  specialize (Hraw chain). intros H.
  pose proof (boundary_position_le chain (vb_valid_from b)).
  destruct (chain !! _) as [x|] eqn:Hx; [destruct (_ =? _)|];
    [|destruct (Nat.eqb_spec (length chain) kMaxBoundariesPerChain); [done|]..];
    injection H as <-; (split; [done|]); intros Hl.
  - by rewrite length_insert.
  - rewrite length_app, length_take, length_cons, length_drop. lia.
  - rewrite length_app, length_take, length_cons, length_drop. lia.
Qed.

Lemma insert_desc_other chain b v :
  vb_valid_from b <> v -> chain_at (insert_desc chain b) v = chain_at chain v.
Proof.
  intros Hv. apply Z.eqb_neq in Hv as Hv'. induction chain as [|x chain IH]; cbn.
  - by rewrite Hv'.
  - destruct (vb_valid_from b <? vb_valid_from x); cbn; [by rewrite IH|].
    destruct (Z.eqb_spec (vb_valid_from x) (vb_valid_from b)) as [E|]; cbn.
    + by rewrite E, Hv'.
    + by rewrite Hv'.
Qed.

Lemma chain_at_below chain v :
  Forall (fun b => vb_valid_from b < v) chain -> chain_at chain v = None.
Proof.
  induction 1 as [|b chain Hb _ IH]; [done|]. cbn.
  by rewrite (proj2 (Z.eqb_neq (vb_valid_from b) v)) by lia.
Qed.

Lemma insert_desc_new chain b :
  StronglySorted (fun a b => vb_valid_from b < vb_valid_from a) chain ->
  chain_at (insert_desc chain b) (vb_valid_from b) =
  Some (match chain_at chain (vb_valid_from b) with
        | Some s => Z.max s (vb_commit_seq b) | None => vb_commit_seq b end).
Proof.
  induction 1 as [|x chain _ IH Hall]; cbn; [by rewrite Z.eqb_refl|].
  destruct (Z.ltb_spec (vb_valid_from b) (vb_valid_from x)); cbn.
  - rewrite !(proj2 (Z.eqb_neq (vb_valid_from x) _)) by lia. done.
  - destruct (Z.eqb_spec (vb_valid_from x) (vb_valid_from b)) as [E|]; cbn.
    + by rewrite E, Z.eqb_refl.
    + rewrite Z.eqb_refl, chain_at_below; [done|].
      eapply Forall_impl; [exact Hall|]. cbn. intros; lia.
Qed.

Lemma insert_desc_sorted chain b :
  StronglySorted (fun a b => vb_valid_from b < vb_valid_from a) chain ->
  StronglySorted (fun a b => vb_valid_from b < vb_valid_from a)
    (insert_desc chain b).
Proof.
  induction 1 as [|x chain Hs IH Hall]; cbn; [repeat constructor|].
  destruct (Z.ltb_spec (vb_valid_from b) (vb_valid_from x)).
  - constructor; [done|]. clear IH Hs.
    induction Hall as [|y chain Hy Hall IH]; cbn; [by repeat constructor|].
    case_match; [by constructor|]. case_match; by repeat constructor.
  - destruct (Z.eqb_spec (vb_valid_from x) (vb_valid_from b)).
    + by constructor.
    + constructor; [by constructor|]. constructor; [lia|].
      eapply Forall_impl; [exact Hall|]. cbn. intros; lia.
Qed.

(** Insertion keeps the chain well-formed and takes the newer commit at the
    boundary; elsewhere nothing changes. *)
Lemma InsertBoundary_spec chain b chain' :
  chain_ok chain -> InsertBoundary chain b = Some chain' ->
  chain_ok chain' /\
  forall v, chain_at chain' v =
    if vb_valid_from b =? v then
      Some (match chain_at chain v with
            | Some s => Z.max s (vb_commit_seq b) | None => vb_commit_seq b end)
    else chain_at chain v.
Proof.
  intros [Hs Hl] H. apply InsertBoundary_desc in H as [-> Hlen].
  split; [split; [by apply insert_desc_sorted|by apply Hlen]|].
  intros v. destruct (Z.eqb_spec (vb_valid_from b) v) as [<-|].
  - by apply insert_desc_new.
  - by apply insert_desc_other.
Qed.

(** A chain refuses a boundary only when it is full. *)
Lemma InsertBoundary_None chain b :
  InsertBoundary chain b = None -> length chain = kMaxBoundariesPerChain.
Proof.
  unfold InsertBoundary. cbv zeta.
  destruct (Nat.eqb_spec (length chain) kMaxBoundariesPerChain); [done|].
  case_match; [case_match|]; done.
Qed.

Lemma chain_between_insert lo hi chain b chain' :
  chain_ok chain -> InsertBoundary chain b = Some chain' ->
  chain_between lo hi chain ->
  chain_between
    (fun v s => lo v s \/ (v = vb_valid_from b /\ s <= vb_commit_seq b))
    (fun v s => hi v s \/ (v = vb_valid_from b /\ s = vb_commit_seq b)) chain'.
Proof.
  intros Hok H [Hlo Hhi]. destruct (InsertBoundary_spec _ _ _ Hok H) as [_ Hat].
  split.
  - intros v s Hv. rewrite Hat.
    destruct (Z.eqb_spec (vb_valid_from b) v) as [E|E].
    + eexists. split; [done|]. destruct Hv as [Hv|[_ Hv]].
      * apply Hlo in Hv as (s' & -> & ?). lia.
      * case_match; lia.
    + destruct Hv as [Hv|[-> _]]; [by apply Hlo|done].
  - intros v s. rewrite Hat. destruct (Z.eqb_spec (vb_valid_from b) v) as [<-|E].
    + intros [= <-]. destruct (chain_at chain (vb_valid_from b)) as [s'|] eqn:Hs'.
      * apply Hhi in Hs'. destruct (Z.max_spec s' (vb_commit_seq b)) as [[_ ->]|[_ ->]];
          [by right|by left].
      * by right.
    + intros Hv. left. by apply Hhi.
Qed.

Lemma chain_between_weaken (lo lo' hi hi' : Z -> Z -> Prop) chain :
  (forall v s, lo' v s -> lo v s) -> (forall v s, hi v s -> hi' v s) ->
  chain_between lo hi chain -> chain_between lo' hi' chain.
Proof. intros Hlo Hhi [H1 H2]. split; eauto. Qed.

(** What a chain built from scanned boundaries holds. *)
Lemma prime_chain_spec bs chain chain' lo hi :
  chain_ok chain -> prime_chain chain bs = Some chain' -> chain_between lo hi chain ->
  chain_ok chain' /\
  chain_between
    (fun v s => lo v s \/ exists b, b ∈ bs /\ vb_valid_from b = v /\
                                   s <= vb_commit_seq b /\ vb_commit_seq b <> 0)
    (fun v s => hi v s \/ exists b, b ∈ bs /\ vb_valid_from b = v /\
                                   s = vb_commit_seq b) chain'.
Proof.
  revert chain lo hi. induction bs as [|b bs IH]; intros chain lo hi Hok H Hb; cbn in H.
  - injection H as <-. split; [done|]. eapply chain_between_weaken; [|by left|done].
    intros v s [?|(b & Hin & _)]; [done|by apply not_elem_of_nil in Hin].
  - destruct (Z.eqb_spec (vb_commit_seq b) 0) as [E|E].
    + destruct (IH chain lo hi Hok H Hb) as [? Hb']. split; [done|].
      eapply chain_between_weaken; [| |exact Hb']; cbn.
      * intros v s [?|(x & [->|Hin]%elem_of_cons & ? & ? & ?)]; [by left|done|].
        right. by exists x.
      * intros v s [?|(x & Hin & ? & ?)]; [by left|]. right. exists x.
        by split; [right|].
    + destruct (InsertBoundary chain b) as [chain1|] eqn:H1; [|done].
      destruct (InsertBoundary_spec _ _ _ Hok H1) as [Hok1 _].
      pose proof (chain_between_insert _ _ _ _ _ Hok H1 Hb) as Hb1.
      destruct (IH chain1 _ _ Hok1 H Hb1) as [? Hb']. split; [done|].
      eapply chain_between_weaken; [| |exact Hb']; cbn.
      * intros v s [?|(x & [->|Hin]%elem_of_cons & ? & ? & ?)]; [by left; left| |].
        -- left. right. by split; [symmetry|].
        -- right. by exists x.
      * intros v s [[?|[-> ->]]|(x & Hin & ? & ?)]; [by left| |].
        -- right. exists b. by split; [left|].
        -- right. exists x. by split; [right|].
Qed.

(** ** Slots *)

Lemma SetOffset_insert slots i slot key :
  SetOffset (<[i := slot]> slots) key = SetOffset slots key.
Proof. unfold SetOffset. by rewrite length_insert. Qed.

Lemma SetOffset_range slots key :
  (exists k, 0 <= k < 60 /\ Z.of_nat (length slots) = 4 * 2 ^ k) ->
  (SetOffset slots key + kSetWays <= length slots)%nat.
Proof.
  intros (k & Hk & Hlen). unfold SetOffset, kSetWays.
  assert (Z.of_nat (length slots / 4) = 2 ^ k) as ->.
  { rewrite Nat2Z.inj_div, Hlen. change (Z.of_nat 4) with 4.
    rewrite Z.mul_comm. by apply Z.div_mul. }
  pose proof (Z.pow_pos_nonneg 2 k ltac:(lia) ltac:(lia)).
  assert (2 ^ k <= 2 ^ 60) by (apply Z.pow_le_mono_r; lia).
  rewrite uint_wrap by (unfold uint; lia).
  pose proof (land_mask (FactIdentityHash key) (2 ^ k - 1) ltac:(lia)). lia.
Qed.

Lemma slot_matches_true key slot :
  slot_matches key slot = true <-> slot_occupied slot = true /\ slot_key slot = key.
Proof.
  unfold slot_matches. rewrite andb_true_iff, bool_decide_eq_true. done.
Qed.

Lemma lookup_set_of slots offset i slot :
  set_of slots offset !! i = Some slot <->
  (i < kSetWays)%nat /\ slots !! (offset + i)%nat = Some slot.
Proof.
  unfold set_of. rewrite lookup_take, lookup_drop. case_decide; naive_solver.
Qed.

Lemma FindLocked_Some slots key i :
  FindLocked slots key = Some i ->
  exists slot, slots !! i = Some slot /\ slot_occupied slot = true /\
    slot_key slot = key /\
    (SetOffset slots key <= i < SetOffset slots key + kSetWays)%nat.
Proof.
  unfold FindLocked. case_match; [done|]. intros Hf.
  apply fmap_Some in Hf as ([n slot] & Hf & ->).
  apply list_find_Some in Hf as (Hn & [? ?]%slot_matches_true & _).
  apply lookup_set_of in Hn as [? ?]. exists slot. cbn. split_and!; try done; lia.
Qed.

Lemma FindLocked_None slots key i slot :
  slots_ok slots -> FindLocked slots key = None ->
  slots !! i = Some slot -> slot_occupied slot = true -> slot_key slot <> key.
Proof.
  intros (_ & Hplace & _) Hf Hi Ho Hkey. unfold FindLocked in Hf.
  destruct (Nat.eqb_spec (length slots) 0) as [E|_].
  { apply nil_length_inv in E. by subst slots. }
  apply fmap_None, list_find_None in Hf. rewrite Forall_forall in Hf.
  destruct (Hplace i slot Hi Ho) as [Hr _]. rewrite Hkey in Hr.
  apply (Hf slot); [|by apply slot_matches_true].
  apply (list_elem_of_lookup_2 _ (i - SetOffset slots key)), lookup_set_of.
  split; [lia|]. by replace (_ + (_ - _))%nat with i by lia.
Qed.

Lemma select_loop_range set index oldest t n :
  (n <= oldest < index + length set)%nat -> (n <= index)%nat ->
  (n <= select_loop set index oldest t < index + length set)%nat.
Proof.
  revert index oldest t. induction set as [|slot set IH]; intros index oldest t Ho Hn;
    cbn in *; [lia|].
  case_match; [lia|]. case_match.
  - specialize (IH (S index) index (last_touch slot) ltac:(lia) ltac:(lia)). lia.
  - destruct (decide (oldest < S index + length set)%nat); [|lia].
    specialize (IH (S index) oldest t ltac:(lia) ltac:(lia)). lia.
Qed.

Lemma SelectForPrimeLocked_range slots key :
  (exists k, 0 <= k < 60 /\ Z.of_nat (length slots) = 4 * 2 ^ k) ->
  (SetOffset slots key <= SelectForPrimeLocked slots key
   < SetOffset slots key + kSetWays)%nat.
Proof.
  intros Hshape. pose proof (SetOffset_range slots key Hshape) as Hr.
  unfold SelectForPrimeLocked.
  assert (length (set_of slots (SetOffset slots key)) = kSetWays) as Hlen.
  { unfold set_of. rewrite length_take, length_drop. lia. }
  destruct (set_of slots (SetOffset slots key)) as [|first rest] eqn:Hset;
    [done|]. rewrite <- Hlen.
  apply select_loop_range; cbn; lia.
Qed.

(** Writing one slot: the key is in its set and nowhere else. *)
Lemma slots_ok_insert slots i slot :
  slots_ok slots ->
  (slot_occupied slot = true ->
   (SetOffset slots (slot_key slot) <= i
    < SetOffset slots (slot_key slot) + kSetWays)%nat /\
   chain_ok (slot_chain slot) /\
   forall j a, j <> i -> slots !! j = Some a -> slot_occupied a = true ->
     slot_key a <> slot_key slot) ->
  slots_ok (<[i := slot]> slots).
Proof.
  intros (Hshape & Hplace & Hu) Hnew. split_and!.
  - by rewrite length_insert.
  - intros j a Hj Ho. rewrite SetOffset_insert. rewrite list_lookup_insert in Hj.
    case_decide as D; [|by eapply Hplace]. destruct D as [<- _]. injection Hj as <-.
    by destruct (Hnew Ho) as (? & ? & _).
  - intros j k a b Hj Hk Ha Hb E.
    assert (forall n x, <[i := slot]> slots !! n = Some x ->
              (n = i /\ x = slot) \/ (n <> i /\ slots !! n = Some x)) as Hins.
    { intros n x Hn. rewrite list_lookup_insert in Hn. case_decide as D.
      - left. destruct D as [<- _]. by injection Hn.
      - right. split; [|done]. intros ->. apply D. split; [done|].
        by eapply lookup_lt_Some. }
    destruct (Hins j a Hj) as [[-> ->]|[Hji Hj']], (Hins k b Hk) as [[-> ->]|[Hki Hk']].
    + done.
    + destruct (Hnew Ha) as (_ & _ & Hne). by exfalso; eapply (Hne k).
    + destruct (Hnew Hb) as (_ & _ & Hne). by exfalso; eapply (Hne j).
    + by eapply Hu.
Qed.

Lemma occupied_insert slots i old slot :
  slots !! i = Some old ->
  Z.of_nat (occupied_slots (<[i := slot]> slots)) =
  Z.of_nat (occupied_slots slots) - (if slot_occupied old then 1 else 0)
  + (if slot_occupied slot then 1 else 0).
Proof.
  unfold occupied_slots. revert i.
  induction slots as [|a slots IH]; intros i Hi; [done|].
  destruct i as [|i]; cbn in Hi.
  - injection Hi as ->. cbn [insert list_insert]. rewrite !filter_cons.
    destruct (slot_occupied old), (slot_occupied slot);
      repeat (case_decide; try done); cbn [length]; lia.
  - change (<[S i := slot]> (a :: slots)) with (a :: <[i := slot]> slots).
    rewrite !filter_cons. specialize (IH i Hi). case_decide; cbn [length]; lia.
Qed.

(** ** The operations keep the invariant *)

Lemma write_slot_inv lo hi c i old slot clock resident :
  cache_ok c ->
  (forall j a, j <> i -> slots_ c !! j = Some a -> slot_occupied a = true ->
     chain_between (lo (slot_key a)) (hi (slot_key a)) (slot_chain a)) ->
  slots_ c !! i = Some old ->
  (slot_occupied slot = true ->
   (SetOffset (slots_ c) (slot_key slot) <= i
    < SetOffset (slots_ c) (slot_key slot) + kSetWays)%nat /\
   chain_ok (slot_chain slot) /\
   (forall j a, j <> i -> slots_ c !! j = Some a -> slot_occupied a = true ->
     slot_key a <> slot_key slot) /\
   chain_between (lo (slot_key slot)) (hi (slot_key slot)) (slot_chain slot)) ->
  resident = resident_chains_ c - (if slot_occupied old then 1 else 0)
             + (if slot_occupied slot then 1 else 0) ->
  cache_inv lo hi (write_slot i slot clock resident c).
Proof.
  intros [Hs Hr] Hb Hi Hnew Hres. unfold cache_inv, cache_ok.
  cbn [write_slot slots_ resident_chains_]. split.
  - rewrite (occupied_insert _ _ old) by done. split; [|lia]. right.
    destruct Hs as [E|Hs]; [by rewrite E in Hi|].
    apply slots_ok_insert; [done|]. intros Ho. by destruct (Hnew Ho) as (? & ? & ? & _).
  - intros j a Hj Ho. cbn [write_slot slots_] in Hj.
    rewrite list_lookup_insert in Hj.
    case_decide as D.
    + injection Hj as <-. by destruct (Hnew Ho) as (_ & _ & _ & ?).
    + eapply Hb; [|done..]. intros ->. apply D. split; [done|].
      by eapply lookup_lt_Some.
Qed.

(** The slot of a key, with what the invariant says of it. *)
Lemma find_inv lo hi c key i slot :
  cache_inv lo hi c ->
  (i ← FindLocked (slots_ c) key; s ← slots_ c !! i; Some (i, s)) = Some (i, slot) ->
  slots_ c !! i = Some slot /\ slot_occupied slot = true /\ slot_key slot = key /\
  (SetOffset (slots_ c) key <= i < SetOffset (slots_ c) key + kSetWays)%nat /\
  chain_ok (slot_chain slot) /\
  (forall j a, j <> i -> slots_ c !! j = Some a -> slot_occupied a = true ->
     slot_key a <> key) /\
  chain_between (lo key) (hi key) (slot_chain slot).
Proof.
  intros [[Hs _] Hb] H. apply bind_Some in H as (i' & Hf & H).
  apply bind_Some in H as (s & Hi & E). injection E as -> ->.
  apply FindLocked_Some in Hf as (s' & Hi' & Ho & <- & Hr).
  rewrite Hi in Hi'. injection Hi' as <-.
  destruct Hs as [E|(_ & Hplace & Hu)]; [by rewrite E in Hi|].
  destruct (Hplace i slot Hi Ho) as [_ Hok].
  split_and!; try done; try lia.
  - intros j a Hne Hj Ha E. apply Hne. by eapply Hu.
  - by eapply Hb.
Qed.

Lemma find_none lo hi c key :
  cache_inv lo hi c ->
  (i ← FindLocked (slots_ c) key; s ← slots_ c !! i; Some (i, s)) = None ->
  FindLocked (slots_ c) key = None.
Proof.
  intros _ H. destruct (FindLocked (slots_ c) key) as [i|] eqn:Hf; [|done].
  apply FindLocked_Some in Hf as (s & Hi & _). cbn in H. by rewrite Hi in H.
Qed.

Lemma drop_slot_inv lo hi c i slot :
  cache_inv lo hi c -> slots_ c !! i = Some slot -> slot_occupied slot = true ->
  cache_inv lo hi (drop_slot i slot c).
Proof.
  intros [? Hb] Hi Ho. eapply write_slot_inv; [done|eauto|done|done|].
  cbn. rewrite Ho. lia.
Qed.

(** A hit returns a chain between the bounds; a lookup changes stamps only. *)
Lemma Lookup_inv lo hi c ref r c' :
  cache_inv lo hi c -> Lookup ref c = (r, c') ->
  cache_inv lo hi c' /\ publish_generation_ c' = publish_generation_ c /\
  (forall chain, r = Some chain ->
     chain_ok chain /\ chain_between (lo (IdentityOf ref)) (hi (IdentityOf ref)) chain).
Proof.
  intros Hc H. unfold Lookup in H. case_match; [by simplify_eq|].
  destruct (i ← FindLocked _ _; _) as [[i slot]|] eqn:Hf in H; [|by simplify_eq].
  apply (find_inv lo hi) in Hf as (Hi & Ho & Hk & Hr & Hok & Hu & Hb); [|done].
  injection H as <- <-. split_and!; [|done|by intros chain [= <-]].
  destruct Hc as [? Hc].
  eapply write_slot_inv; [done|eauto|done| |cbn; rewrite Ho; lia].
  intros _. cbn. rewrite Hk. done.
Qed.

Lemma cache_inv_weaken (lo lo' hi hi' : FactIdentity -> Z -> Z -> Prop) c :
  (forall k v s, lo' k v s -> lo k v s) -> (forall k v s, hi k v s -> hi' k v s) ->
  cache_inv lo hi c -> cache_inv lo' hi' c.
Proof.
  intros Hlo Hhi [? Hb]. split; [done|]. intros i slot Hi Ho.
  eapply chain_between_weaken; [by apply Hlo|by apply Hhi|]. by eapply Hb.
Qed.

(** Publication adds the boundary to both bounds of its identity. *)
Lemma publish_locked_inv lo hi c ref b :
  cache_inv lo hi c ->
  cache_inv (with_write (IdentityOf ref) b lo) (with_write (IdentityOf ref) b hi)
    (publish_locked ref b c).
Proof.
  intros Hc. set (key := IdentityOf ref).
  assert (forall slot, slot_key slot <> key ->
    chain_between (lo (slot_key slot)) (hi (slot_key slot)) (slot_chain slot) ->
    chain_between (with_write key b lo (slot_key slot))
      (with_write key b hi (slot_key slot)) (slot_chain slot)) as Hother.
  { intros slot Hne. apply chain_between_weaken; unfold with_write; naive_solver. }
  unfold publish_locked. fold key.
  destruct (i ← FindLocked _ key; _) as [[i slot]|] eqn:Hf.
  - apply (find_inv lo hi) in Hf as (Hi & Ho & Hk & Hr & Hok & Hu & Hb); [|done].
    destruct Hc as [Hc Hbs].
    destruct (InsertBoundary (slot_chain slot) b) as [chain|] eqn:Hins.
    + pose proof (InsertBoundary_spec _ _ _ Hok Hins) as [Hok' _].
      pose proof (chain_between_insert _ _ _ _ _ Hok Hins Hb) as Hb'.
      eapply write_slot_inv; [done|eauto 6|done| |cbn; rewrite Ho; lia].
      intros _. cbn. rewrite Hk. split_and!; try done; try lia.
      eapply chain_between_weaken; [| |exact Hb']; unfold with_write;
        naive_solver lia.
    + eapply write_slot_inv; [done|eauto 6|done|done|cbn; rewrite Ho; lia].
  - apply (find_none lo hi) in Hf; [|done]. destruct Hc as [Hc Hbs].
    split; [done|]. intros i slot Hi Ho. apply Hother; [|by eapply Hbs].
    destruct Hc as [[E|Hs] _]; [by rewrite E in Hi|]. by eapply FindLocked_None.
Qed.

Lemma Prime_inv lo hi c ref bs observed :
  cache_inv lo hi c ->
  (publish_generation_ c = observed ->
   scan_between (lo (IdentityOf ref)) (hi (IdentityOf ref)) bs) ->
  cache_inv lo hi (Prime ref bs observed c).
Proof.
  intros Hc Hscan. unfold Prime. set (key := IdentityOf ref) in *.
  destruct (Nat.eqb_spec (length (slots_ c)) 0) as [|Hne]; [done|].
  destruct (negb (status_ok (FactRef_Validate ref))); [done|]. cbn [orb].
  destruct (prime_chain [] bs) as [chain|] eqn:Hchain.
  2: { destruct (i ← FindLocked _ key; _) as [[i slot]|] eqn:Hf; [|done].
       apply (find_inv lo hi) in Hf as (? & ? & _); [|done].
       by apply drop_slot_inv. }
  destruct (Z.eqb_spec (publish_generation_ c) observed) as [Hg|]; [|done].
  cbn [negb]. destruct (Hscan Hg) as [Hlo Hhi].
  destruct (prime_chain_spec bs [] chain (fun _ _ => False) (fun _ _ => False))
    as [Hok Hb]; [by split; [constructor|cbn; lia]|done|by split|].
  assert (chain_between (lo key) (hi key) chain) as Hb'.
  { eapply chain_between_weaken; [| |exact Hb]; cbn.
    - intros v s Hv. right. by apply Hlo.
    - intros v s [[]|(b & Hin & <- & ->)]. by apply Hhi. }
  pose proof Hc as [Hc0 Hbs].
  destruct (FindLocked (slots_ c) key) as [i|] eqn:Hf.
  - destruct (FindLocked_Some _ _ _ Hf) as (slot & Hi & _).
    assert ((i ← FindLocked (slots_ c) key; s ← slots_ c !! i; Some (i, s))
            = Some (i, slot)) as Hf' by (rewrite Hf; cbn; by rewrite Hi).
    apply (find_inv lo hi) in Hf' as (_ & Ho & Hk & Hr & _ & Hu & _); [|done].
    eapply write_slot_inv; [done|eauto|done| |cbn; rewrite Ho; lia].
    intros _. cbn. split_and!; try done; lia.
  - destruct Hc0 as [[E|Hs] Hres]; [by rewrite E in Hne|].
    pose proof (SelectForPrimeLocked_range (slots_ c) key (proj1 Hs)) as Hr.
    pose proof (SetOffset_range (slots_ c) key (proj1 Hs)) as Hr'.
    destruct (lookup_lt_is_Some_2 (slots_ c) (SelectForPrimeLocked (slots_ c) key))
      as [slot Hi]; [lia|]. rewrite Hi.
    eapply write_slot_inv; [by split; [right|]|eauto|done| |].
    + intros _. cbn. split_and!; try done; try lia.
      intros j a _ Hj Ha. by eapply FindLocked_None.
    + cbn. destruct (slot_occupied slot); cbn; lia.
Qed.

(** ** Interleavings *)

Lemma writes_of_mono (log log' : list logged_write) key v s :
  (forall w, w ∈ log -> w ∈ log') -> writes_of log key v s -> writes_of log' key v s.
Proof. intros H (ref & Hin & <-). exists ref. auto. Qed.

Lemma writes_of_cons w log key v s :
  writes_of (w :: log) key v s <->
  writes_of log key v s \/
  (key = IdentityOf w.1 /\ v = vb_valid_from w.2 /\ s = vb_commit_seq w.2).
Proof.
  destruct w as [ref [v' s']]. split.
  - intros (r & [[= -> -> ->]|Hin]%elem_of_cons & <-); [by right|left; by exists r].
  - intros [(r & Hin & <-)|(-> & -> & ->)]; [exists r|exists ref];
      (split; [|done]); [by right|by left].
Qed.

Lemma scan_between_weaken (lo lo' hi hi' : Z -> Z -> Prop) bs :
  (forall v s, lo' v s -> lo v s) -> (forall v s, hi v s -> hi' v s) ->
  scan_between lo hi bs -> scan_between lo' hi' bs.
Proof. intros Hlo Hhi [H1 H2]. split; eauto. Qed.

Lemma Prime_generation ref bs g c :
  publish_generation_ (Prime ref bs g c) = publish_generation_ c.
Proof. unfold Prime, drop_slot. by repeat case_match. Qed.

Lemma publish_locked_generation ref b c :
  publish_generation_ (publish_locked ref b c) = publish_generation_ c.
Proof. unfold publish_locked, drop_slot. by repeat case_match. Qed.

(** The scans survive a step that keeps the generation, the entered writes and
    every written one. *)
Lemma scans_keep gen (old new writes writes' : list logged_write) (ss : list Scan) :
  (forall w, w ∈ new -> w ∈ old) -> (forall w, w ∈ writes -> w ∈ writes') ->
  Forall (fun scan => scan_generation scan <= gen /\
    (scan_generation scan = gen -> forall bs, scan_result scan = Some bs ->
       scan_between (writes_of old (IdentityOf (scan_ref scan)))
         (writes_of writes (IdentityOf (scan_ref scan))) bs)) ss ->
  Forall (fun scan => scan_generation scan <= gen /\
    (scan_generation scan = gen -> forall bs, scan_result scan = Some bs ->
       scan_between (writes_of new (IdentityOf (scan_ref scan)))
         (writes_of writes' (IdentityOf (scan_ref scan))) bs)) ss.
Proof.
  intros Hold Hw H. eapply Forall_impl; [exact H|]. intros scan [? Hs].
  split; [done|]. intros E bs Hr.
  eapply scan_between_weaken; [| |by apply Hs]; intros v s; by apply writes_of_mono.
Qed.

Lemma cache_step_inv st st' : step st st' -> system_inv st -> system_inv st'.
Proof.
  intros Hstep (Hc & Hg & Hw & Hs).
  destruct Hstep as [st ws|st before w after Hu Hmax|st before w after Hb|st ref
    |st before ref g after bs Hsc Hbs|st before ref g bs after Hsc|st ref];
    unfold system_inv; cbn [sys_cache written unpublished bumped published scans].
  - split_and!; [|lia..| |].
    + eapply cache_inv_weaken; [done| |exact Hc]. intros k v s.
      apply writes_of_mono. set_solver.
    + set_solver.
    + eapply scans_keep; [done| |exact Hs]. set_solver.
  - assert (publish_generation_ (bump_generation (sys_cache st))
            = publish_generation_ (sys_cache st) + 1) as Egen.
    { cbn. apply uint_wrap. unfold uint, U64_MAX in *. lia. }
    split_and!; [done|rewrite Egen; lia..| |].
    + intros w'. rewrite Hw, Hu. set_solver.
    + eapply Forall_impl; [exact Hs|]. intros scan [? _]. rewrite Egen. split; lia.
  - rewrite publish_locked_generation. split_and!; [|lia..| |].
    + eapply cache_inv_weaken; [| |by apply publish_locked_inv]; unfold with_write.
      * intros k v s Hv%writes_of_cons. done.
      * intros k v s [Hv|(-> & -> & ->)]; [done|]. exists w.1.
        destruct w as [ref [v s]]. split; [|done]. apply Hw. rewrite Hb. set_solver.
    + intros w'. rewrite Hw, Hb. set_solver.
    + eapply scans_keep; [|done|exact Hs]. rewrite Hb. set_solver.
  - split_and!; [done|lia..|done|]. constructor; [|done]. cbn. split; [lia|done].
  - split_and!; [done|lia..|done|]. rewrite Hsc in Hs.
    apply Forall_app in Hs as [Hs1 [Hs2 Hs3]%Forall_cons].
    apply Forall_app. split; [done|]. constructor; [|done]. cbn in *.
    split; [lia|]. intros _ bs' [= <-].
    eapply scan_between_weaken; [|done|exact Hbs]. intros v s.
    apply writes_of_mono. intros w. rewrite Hw. set_solver.
  - rewrite Prime_generation. rewrite Hsc in Hs.
    apply Forall_app in Hs as [Hs1 [Hs2 Hs3]%Forall_cons].
    split_and!; [|lia..|done|by apply Forall_app].
    apply Prime_inv; [done|]. intros E. cbn in Hs2. destruct Hs2 as [_ Hs2].
    eapply scan_between_weaken; [|done|by apply Hs2]. intros v s.
    apply writes_of_mono. set_solver.
  - destruct (Lookup ref (sys_cache st)) as [r c'] eqn:Hl.
    destruct (Lookup_inv _ _ _ _ _ _ Hc Hl) as (? & Egen & _). cbn [snd].
    rewrite Egen. done.
Qed.

Lemma new_cache_inv lo hi sizeof max_bytes :
  0 < sizeof -> 0 <= max_bytes < 2 ^ 60 ->
  cache_inv lo hi (new_cache sizeof max_bytes).
Proof.
  intros Hz Hm. unfold new_cache, SlotCapacityForBytes, kSetWays.
  set (empty := mkSlot _ _ _ _).
  assert (forall n i slot, replicate n empty !! i = Some slot ->
            slot_occupied slot = false) as Hempty.
  { intros n i slot [-> _]%lookup_replicate. done. }
  assert (0 <= max_bytes / sizeof < 2 ^ 60).
  { split; [apply Z.div_pos; lia|]. apply Z.div_lt_upper_bound; nia. }
  split; [split|intros i slot Hi Ho; apply Hempty in Hi; congruence].
  - cbn [slots_]. destruct (Z.ltb_spec (max_bytes / sizeof) (Z.of_nat 4));
      [by left|right].
    destruct (grow_spec 64 4 (max_bytes / sizeof)) as (k & ? & Hk & Hr); [lia..|].
    assert (k < 60).
    { apply (Z.pow_lt_mono_r_iff 2); lia. }
    pose proof (Z.pow_pos_nonneg 2 k ltac:(lia) ltac:(lia)).
    split_and!.
    + exists k. rewrite length_replicate. change (Z.of_nat 4) with 4. lia.
    + intros i slot Hi Ho. apply Hempty in Hi. congruence.
    + intros i j a b Hi _ Ho. apply Hempty in Hi. congruence.
  - cbn [slots_ resident_chains_]. unfold occupied_slots.
    rewrite filter_none; [done|]. apply Forall_replicate. done.
Qed.

Lemma initial_inv sizeof max_bytes :
  0 < sizeof -> 0 <= max_bytes < 2 ^ 60 -> system_inv (initial sizeof max_bytes).
Proof.
  intros Hz Hm. split_and!; cbn.
  - by apply new_cache_inv.
  - done.
  - done.
  - intros w. set_solver.
  - done.
Qed.

Lemma reachable_inv sizeof max_bytes st :
  0 < sizeof -> 0 <= max_bytes < 2 ^ 60 ->
  rtc step (initial sizeof max_bytes) st -> system_inv st.
Proof.
  intros Hz Hm Hr. pose proof (initial_inv sizeof max_bytes Hz Hm) as Hi.
  induction Hr as [|x y z Hxy _ IH]; [done|]. apply IH. by eapply cache_step_inv.
Qed.

(** ** Properties *)

(** C22: under every interleaving of writes to the store, publications and
    validation scans, with any evictions, a cache hit is a chain in descending
    valid-time order of at most eight boundaries that reflects every published
    write of the fact and invents none: at each boundary it has a commit that was
    written and is not older than any published one there.  Once no write waits
    for its publication, the chain gives at each valid time exactly the newest
    write. *)
Theorem Lookup_interleaved sizeof max_bytes st ref chain c' :
  0 < sizeof -> 0 <= max_bytes < 2 ^ 60 ->
  rtc step (initial sizeof max_bytes) st ->
  Lookup ref (sys_cache st) = (Some chain, c') ->
  chain_ok chain /\
  (forall v s, writes_of (published st) (IdentityOf ref) v s ->
     exists s', chain_at chain v = Some s' /\ s <= s') /\
  (forall v s, chain_at chain v = Some s ->
     writes_of (written st) (IdentityOf ref) v s) /\
  (unpublished st = [] -> bumped st = [] -> forall v s,
     chain_at chain v = Some s <-> newest (written st) (IdentityOf ref) v s).
Proof.
  intros Hz Hm Hr Hl.
  destruct (reachable_inv _ _ _ Hz Hm Hr) as (Hc & _ & Hw & _).
  destruct (Lookup_inv _ _ _ _ _ _ Hc Hl) as (_ & _ & Hhit).
  destruct (Hhit chain eq_refl) as (Hok & Hlo & Hhi).
  split_and!; [done..|]. intros Hu Hb v s.
  assert (forall v s, writes_of (written st) (IdentityOf ref) v s ->
            writes_of (published st) (IdentityOf ref) v s) as Hall.
  { intros v' s'. apply writes_of_mono. intros w. rewrite Hw, Hu, Hb. set_solver. }
  split.
  - intros Hv. split; [by apply Hhi|]. intros s' Hs'.
    destruct (Hlo v s' (Hall _ _ Hs')) as (s'' & E & ?). congruence.
  - intros [Hv Hmax]. destruct (Hlo v s (Hall _ _ Hv)) as (s' & E & ?).
    specialize (Hmax s' (Hhi _ _ E)). rewrite E. f_equal. lia.
Qed.

(** A write that is scanned, primed and looked up. *)
Lemma Lookup_interleaved_witness :
  exists st chain c',
    rtc step (initial 200 1000) st /\
    Lookup (mkFactRef 1 kVertexState 0 7) (sys_cache st) = (Some chain, c') /\
    chain_ok chain.
Proof.
  set (ref := mkFactRef 1 kVertexState 0 7).
  set (b := mkValidationBoundary 5 3).
  set (st1 := mkSystem (new_cache 200 1000) [(ref, b)] [(ref, b)] [] [] []).
  set (st2 := mkSystem (new_cache 200 1000) [(ref, b)] [(ref, b)] [] []
                [mkScan ref 0 None]).
  set (st3 := mkSystem (new_cache 200 1000) [(ref, b)] [(ref, b)] [] []
                [mkScan ref 0 (Some [b])]).
  set (st4 := mkSystem (Prime ref [b] 0 (new_cache 200 1000)) [(ref, b)] [(ref, b)]
                [] [] []).
  assert (rtc step (initial 200 1000) st4) as Hrun.
  { apply (rtc_l _ _ st1); [apply (step_write (initial 200 1000) [(ref, b)])|].
    apply (rtc_l _ _ st2); [apply (step_scan_start st1 ref)|].
    apply (rtc_l _ _ st3).
    { apply (step_scan_read st2 [] ref 0 [] [b]); [done|]. split.
      - intros v s (r & Hin & _). apply list_elem_of_singleton in Hin.
        injection Hin as -> -> ->. exists b. cbn. split_and!; try done. by left.
      - intros x ->%list_elem_of_singleton. exists ref. split; [by left|done]. }
    apply (rtc_l _ _ st4); [apply (step_prime st3 [] ref 0 [b] []); done|].
    apply rtc_refl. }
  exists st4, [b], (Lookup ref (sys_cache st4)).2.
  assert (Lookup ref (sys_cache st4) = (Some [b], (Lookup ref (sys_cache st4)).2))
    as Hl by (vm_compute; reflexivity).
  split; [exact Hrun|]. split; [exact Hl|].
  refine (proj1 (Lookup_interleaved 200 1000 st4 ref [b] _ _ _ Hrun Hl)); lia.
Defined.
