(* ===== verification/Accelerators.v ===== *)
(** * Accelerators: what the write path may assume of its derived state

    Three structures speed up commit validation and none of them is
    authoritative: [RecentFactWriteIndex], [FactIdentityHistory] and
    [VersionValidationCache].  The class states their common contract: a
    structure reflects a set of stored events, and publishing a committed
    mutation makes it reflect one event more.  The clients in Conflict and Commit
    are proved against the class; the instances discharge it. *)

From S2P Require Import Prelude Status Value Fact FactCodec CommitBatch GroupCommit.
From S2P Require Import Bloom RecentWrites ValidationCache.

(** The write of a stored event. *)
Definition event_writes (events : list FactEvent) (key : FactIdentity) (v s : Z)
  : Prop :=
  exists e, e ∈ events /\ IdentityOf (event_ref e) = key /\
            event_valid_from e = v /\ event_commit_seq e = s.

(** The mutation became the event at the commit sequence. *)
Definition committed_as (m : PendingFactMutation) (commit_seq : Z) (e : FactEvent)
  : Prop :=
  event_ref e = mutation_ref m /\ event_valid_from e = mutation_valid_from m /\
  event_commit_seq e = commit_seq.

Class Accelerator (A : Type) := {
  reflects : list FactEvent -> A -> Prop;
  publish : PendingFactMutation -> Z -> A -> A;
  publish_reflects : forall events a m commit_seq e,
    commit_seq <> 0 -> FactRef_Validate (mutation_ref m) = StatusOK ->
    committed_as m commit_seq e -> reflects events a ->
    reflects (e :: events) (publish m commit_seq a);
  reflects_same : forall events events' a,
    (forall e, e ∈ events <-> e ∈ events') -> reflects events a -> reflects events' a
}.

(** A structure that may be absent ([nullptr]). *)
Definition reflects_opt `{Accelerator A} (events : list FactEvent) (o : option A)
  : Prop :=
  match o with Some a => reflects events a | None => True end.

(** ** Instances *)

Definition recent_reflects (events : list FactEvent) (index : RecentFactWriteIndex)
  : Prop :=
  exists log, index_ok log index /\
    forall e, e ∈ events -> (IdentityOf (event_ref e), event_commit_seq e) ∈ log.

Definition history_reflects (events : list FactEvent) (h : FactIdentityHistory)
  : Prop :=
  (words_ok (history_words h) \/ history_words h = []) /\
  forall e, e ∈ events -> history_MightContain h (event_ref e) = true.

Definition cache_reflects (events : list FactEvent) (c : VersionValidationCache)
  : Prop := cache_inv (event_writes events) (event_writes events) c.

Lemma recent_publish_reflects events index m commit_seq e :
  commit_seq <> 0 -> FactRef_Validate (mutation_ref m) = StatusOK ->
  committed_as m commit_seq e -> recent_reflects events index ->
  recent_reflects (e :: events) (Publish (mutation_ref m) commit_seq index).
Proof.
  intros Hs Hv (Er & _ & Es) (log & Hok & Hin).
  pose proof (Publish_ok log index (mutation_ref m) commit_seq Hok) as Hok'.
  rewrite Hv, (proj2 (Z.eqb_neq _ _) Hs) in Hok'. cbn in Hok'.
  eexists. split; [exact Hok'|]. intros e' [->|He']%elem_of_cons.
  - rewrite Er, Es. by left.
  - right. by apply Hin.
Qed.

Lemma history_publish_reflects events h m commit_seq e :
  commit_seq <> 0 -> FactRef_Validate (mutation_ref m) = StatusOK ->
  committed_as m commit_seq e -> history_reflects events h ->
  history_reflects (e :: events) (history_Publish h (mutation_ref m)).
Proof.
  intros _ Hv (Er & _ & _) [Hw Hin]. split.
  - destruct Hw as [Hw|E]; [left; by apply history_Publish_words|right].
    unfold history_Publish. by rewrite E.
  - intros e' [->|He']%elem_of_cons.
    + rewrite Er. by apply history_Publish_eq.
    + by apply history_Publish_mono, Hin.
Qed.

Lemma event_writes_cons e events key v s :
  event_writes (e :: events) key v s <->
  event_writes events key v s \/
  (key = IdentityOf (event_ref e) /\ v = event_valid_from e /\
   s = event_commit_seq e).
Proof.
  unfold event_writes. setoid_rewrite elem_of_cons. split.
  - intros (e' & [->|Hin] & <- & <- & <-); [by right|left]. by exists e'.
  - intros [(e' & Hin & <- & <- & <-)|(-> & -> & ->)]; [exists e'|exists e]; auto.
Qed.

Lemma cache_publish_reflects events c m commit_seq e :
  commit_seq <> 0 -> FactRef_Validate (mutation_ref m) = StatusOK ->
  committed_as m commit_seq e -> cache_reflects events c ->
  cache_reflects (e :: events) (cache_Publish m commit_seq c).
Proof.
  intros Hs Hv (Er & Ev & Es) Hc. unfold cache_Publish, cache_reflects.
  rewrite Hv, (proj2 (Z.eqb_neq _ _) Hs). cbn [status_ok negb orb].
  eapply cache_inv_weaken; [| |by apply publish_locked_inv];
    unfold with_write; intros k v s; rewrite event_writes_cons, Er, Ev, Es;
    naive_solver.
Qed.

Lemma event_writes_same events events' key v s :
  (forall e, e ∈ events <-> e ∈ events') ->
  event_writes events key v s -> event_writes events' key v s.
Proof. intros H (e & Hin & ?). exists e. by rewrite <- H. Qed.

#[export] Program Instance recent_accelerator : Accelerator RecentFactWriteIndex := {|
  reflects := recent_reflects;
  publish m commit_seq := Publish (mutation_ref m) commit_seq;
  publish_reflects := recent_publish_reflects
|}.
Next Obligation.
  intros events events' index H (log & Hok & Hin). exists log.
  split; [done|]. intros e He. by apply Hin, H.
Qed.

#[export] Program Instance history_accelerator : Accelerator FactIdentityHistory := {|
  reflects := history_reflects;
  publish m _ h := history_Publish h (mutation_ref m);
  publish_reflects := history_publish_reflects
|}.
Next Obligation.
  intros events events' h H [Hw Hin]. split; [done|]. intros e He. by apply Hin, H.
Qed.

#[export] Program Instance cache_accelerator : Accelerator VersionValidationCache := {|
  reflects := cache_reflects;
  publish := cache_Publish;
  publish_reflects := cache_publish_reflects
|}.
Next Obligation.
  intros events events' c H Hc. eapply cache_inv_weaken; [| |exact Hc];
    intros k v s; apply event_writes_same; [|done]. intros e. by rewrite H.
Qed.

(** ** Derived operations *)

(** Publishing the facts of a commit one after the other. *)
Lemma publish_all_reflects `{Accelerator A} events a ms commit_seq es :
  commit_seq <> 0 ->
  Forall (fun m => FactRef_Validate (mutation_ref m) = StatusOK) ms ->
  Forall2 (fun m e => committed_as m commit_seq e) ms es ->
  reflects events a ->
  reflects (es ++ events) (fold_left (fun a m => publish m commit_seq a) ms a).
Proof.
  intros Hs Hv Hc. revert events a. induction Hc as [|m e ms es Hm Hc IH];
    intros events a Ha; [done|]. apply Forall_cons in Hv as [Hvm Hv]. cbn.
  eapply reflects_same; [|apply IH; [done|]; by eapply publish_reflects].
  intros e'. rewrite !elem_of_app, !elem_of_cons, elem_of_app. tauto.
Qed.
