(* ===== verification/Temporal.v ===== *)
(** * Temporal: valid-time intervals and corrected fact chains

    Models [src/query/temporal/interval.cc], [src/query/temporal/corrected_chain.cc]
    and [ValidTimeInterval] of [query/types].  A fact's history is a set of
    events; the newest commit of each valid time is its corrected boundary, and
    the boundaries in order of valid time cut time into intervals of constant
    state.

    [effective] is the specification of the whole chain: the event that decides
    the state at one valid time under one snapshot. *)

From S2P Require Import Prelude Status Value Fact.

Record ValidTimeInterval := mkInterval {
  from : Z;
  to : option Z
}.

#[export] Instance ValidTimeInterval_eq_dec : EqDecision ValidTimeInterval.
Proof. solve_decision. Defined.

Definition ValidTimeInterval_Validate (i : ValidTimeInterval) : Status :=
  match to i with
  | Some t => if t <=? from i then
                InvalidArgument "valid time interval must satisfy from < to" ""
              else StatusOK
  | None => StatusOK
  end.

Record StateInterval := mkStateInterval {
  interval : ValidTimeInterval;
  state_value : option Value
}.

(** ** interval.cc *)

Definition Before (left right : Z) : bool := left <? right.

Definition EarlierEnd (left right : option Z) : option Z :=
  match left, right with
  | None, _ => right
  | _, None => left
  | Some l, Some r => if Before l r then left else right
  end.

Definition EndsAt (left right : StateInterval) : bool :=
  match to (interval left) with
  | Some t => t =? from (interval right)
  | None => false
  end.

Definition Intersect (left right : ValidTimeInterval)
  : option ValidTimeInterval :=
  let f := if Before (from left) (from right) then from right else from left in
  let t := EarlierEnd (to left) (to right) in
  match t with
  | Some end_ => if negb (Before f end_) then None else Some (mkInterval f t)
  | None => Some (mkInterval f t)
  end.

Definition Clip (i bounds : ValidTimeInterval) := Intersect i bounds.

(** One round of the loop of [Coalesce]; the result vector is kept with its
    back at the head. *)
Definition coalesce_step (result : list StateInterval) (i : StateInterval)
  : list StateInterval :=
  match result with
  | back :: rest =>
      if option_Value_eqb (state_value back) (state_value i) && EndsAt back i
      then mkStateInterval
             (mkInterval (from (interval back)) (to (interval i)))
             (state_value back) :: rest
      else i :: result
  | [] => [i]
  end.

Definition Coalesce (intervals : list StateInterval) : list StateInterval :=
  rev (fold_left coalesce_step intervals []).

(** ** corrected_chain.cc *)

Record CorrectedBoundary := mkCorrectedBoundary {
  boundary_valid_from : Z;
  boundary_commit_seq : Z;
  boundary_operation : FactOperation;
  boundary_schema_epoch : Z;
  boundary_value : option Value;
  boundary_edge_identity : option EdgeIdentity
}.

Definition ToBoundary (e : FactEvent) : CorrectedBoundary :=
  mkCorrectedBoundary (event_valid_from e) (event_commit_seq e)
    (event_operation e) (event_schema_epoch e) (event_value e)
    (event_edge_identity e).

Definition Apply (b : CorrectedBoundary) (value : option Value)
  : option Value :=
  if bool_decide (boundary_operation b = kPut) then boundary_value b else None.

(** The first loop of [ResolveCorrectedBoundaries]: the visible events, which
    must be valid and share one reference. *)
Fixpoint collect_visible (snapshot_seq : Z) (ref : option FactRef)
    (events : list FactEvent) : StatusOr (list FactEvent) :=
  match events with
  | [] => Ok []
  | e :: events' =>
      if snapshot_seq <? event_commit_seq e then
        collect_visible snapshot_seq ref events'
      else
        _ ← check (FactEvent_Validate e);
        _ ← require (match ref with
                     | None => true
                     | Some r => bool_decide (r = event_ref e)
                     end)
              (InvalidArgument "corrected fact chain" "mixed fact references");
        visible ← collect_visible snapshot_seq (Some (event_ref e)) events';
        Ok (e :: visible)
  end.

(** The comparator of [std::is_sorted] and [std::sort], and the order it
    induces: [event_le a b] is [!comp(b, a)]. *)
Definition event_before (left right : FactEvent) : bool :=
  if negb (event_valid_from left =? event_valid_from right) then
    event_valid_from left <? event_valid_from right
  else event_commit_seq left <? event_commit_seq right.

Definition event_le (a b : FactEvent) : Prop := event_before b a = false.

#[export] Instance event_le_dec a b : Decision (event_le a b).
Proof. unfold event_le. apply _. Defined.

Fixpoint is_sorted (events : list FactEvent) : bool :=
  match events with
  | a :: (b :: _) as rest => negb (event_before b a) && is_sorted rest
  | _ => true
  end.

(** [std::sort] on the vector unless it is sorted.  The order in which
    [std::sort] leaves events of equal valid time and equal commit sequence is
    not specified; [sort_events_unique] shows that nothing else is left open. *)
Definition sort_events (visible : list FactEvent) : list FactEvent :=
  if is_sorted visible then visible else merge_sort event_le visible.

(** The grouping loop: of each run of equal valid times the last event. *)
Fixpoint group_boundaries (visible : list FactEvent)
  : list CorrectedBoundary :=
  match visible with
  | [] => []
  | e :: rest =>
      match rest with
      | next :: _ =>
          if event_valid_from next =? event_valid_from e then
            group_boundaries rest
          else ToBoundary e :: group_boundaries rest
      | [] => [ToBoundary e]
      end
  end.

Definition ResolveCorrectedBoundaries (events : list FactEvent)
    (snapshot_seq : Z) : StatusOr (list CorrectedBoundary) :=
  visible ← collect_visible snapshot_seq None events;
  Ok (group_boundaries (sort_events visible)).

(** The loop of [MaterializePresentState], with the carried [value]. *)
Fixpoint present_loop (value : option Value)
    (boundaries : list CorrectedBoundary) : list StateInterval :=
  match boundaries with
  | [] => []
  | b :: rest =>
      let is_present := bool_decide (boundary_operation b = kPut) in
      let value := Apply b value in
      let to := match rest with
                | [] => None
                | next :: _ => Some (boundary_valid_from next)
                end in
      if is_present then
        mkStateInterval (mkInterval (boundary_valid_from b) to) value
          :: present_loop value rest
      else present_loop value rest
  end.

Definition MaterializePresentState (boundaries : list CorrectedBoundary)
  : list StateInterval := Coalesce (present_loop None boundaries).

(** The first loop of [MaterializeMissingState]: the value at the start of the
    enclosing interval and the boundaries behind it. *)
Fixpoint missing_skip (start : Z) (value : option Value)
    (boundaries : list CorrectedBoundary)
  : option Value * list CorrectedBoundary :=
  match boundaries with
  | b :: rest =>
      if boundary_valid_from b <=? start then
        missing_skip start (Apply b value) rest
      else (value, boundaries)
  | [] => (value, [])
  end.

(** The interval pushed after the second loop. *)
Definition missing_final (end_ : option Z) (cursor : Z) (value : option Value)
  : list StateInterval :=
  if bool_decide (value = None)
     && match end_ with None => true | Some t => cursor <? t end
  then [mkStateInterval (mkInterval cursor end_) None] else [].

(** The second loop, from [cursor], with what is pushed after it. *)
Fixpoint missing_loop (end_ : option Z) (cursor : Z) (value : option Value)
    (boundaries : list CorrectedBoundary) : list StateInterval :=
  match boundaries with
  | [] => missing_final end_ cursor value
  | b :: rest =>
      let next := boundary_valid_from b in
      if match end_ with Some t => negb (next <? t) | None => false end then
        missing_final end_ cursor value
      else
        (if bool_decide (value = None) && (cursor <? next)
         then [mkStateInterval (mkInterval cursor (Some next)) None] else [])
        ++ missing_loop end_ next (Apply b value) rest
  end.

Definition MaterializeMissingState (boundaries : list CorrectedBoundary)
    (enclosing : ValidTimeInterval) : list StateInterval :=
  if negb (status_ok (ValidTimeInterval_Validate enclosing)) then []
  else
    let '(value, rest) := missing_skip (from enclosing) None boundaries in
    Coalesce (missing_loop (to enclosing) (from enclosing) value rest).

(** ** Specification *)

(** [t] lies in a half-open interval. *)
Definition Contains (i : ValidTimeInterval) (t : Z) : bool :=
  (from i <=? t) && match to i with Some e => t <? e | None => true end.

(** The event that decides the state at valid time [t] under a snapshot: the
    greatest by valid time, then commit sequence, among those committed by the
    snapshot that start no later than [t]. *)
Definition applies (snapshot t : Z) (e : FactEvent) : bool :=
  (event_commit_seq e <=? snapshot) && (event_valid_from e <=? t).

Definition effective_step (snapshot t : Z) (best : option FactEvent)
    (e : FactEvent) : option FactEvent :=
  if applies snapshot t e then
    match best with
    | Some b => if event_before b e then Some e else best
    | None => Some e
    end
  else best.

Definition effective (events : list FactEvent) (snapshot t : Z)
  : option FactEvent := fold_left (effective_step snapshot t) events None.

(** The last boundary at or before [t], and the value it leaves, given the
    value in front of the first one. *)
Fixpoint boundary_at (boundaries : list CorrectedBoundary) (t : Z)
  : option CorrectedBoundary :=
  match boundaries with
  | [] => None
  | b :: rest =>
      match boundary_at rest t with
      | Some b' => Some b'
      | None => if boundary_valid_from b <=? t then Some b else None
      end
  end.

Definition value_from (value : option Value)
    (boundaries : list CorrectedBoundary) (t : Z) : option Value :=
  match boundary_at boundaries t with
  | Some b => if bool_decide (boundary_operation b = kPut)
              then boundary_value b else None
  | None => value
  end.

Definition value_at := value_from None.

(** The events that a snapshot sees. *)
Definition visible_events (snapshot : Z) (events : list FactEvent)
  : list FactEvent :=
  filter (fun e => event_commit_seq e <= snapshot) events.

(** Values that the code does not tell apart: equal, or [==] (the two zeros of
    a floating-point type). *)
Definition same_value (a b : option Value) : Prop :=
  a = b \/ option_Value_eqb a b = true.

(** Some interval of the list holds [t] with a value like [v]. *)
Definition state_holds (l : list StateInterval) (t : Z) (v : option Value)
  : Prop :=
  exists s, s ∈ l /\ Contains (interval s) t = true /\
            same_value (state_value s) v.

(** Consecutive intervals of a list of states: the first ends no later than the
    second starts, and they would not have been coalesced. *)
Definition interval_before (a b : StateInterval) : Prop :=
  match to (interval a) with
  | Some e => e <= from (interval b)
  | None => False
  end.

Definition mergeable (a b : StateInterval) : bool :=
  option_Value_eqb (state_value a) (state_value b) && EndsAt a b.

Definition separate (a b : StateInterval) : Prop :=
  interval_before a b /\ mergeable a b = false.

Definition boundary_lt (a b : CorrectedBoundary) : Prop :=
  boundary_valid_from a < boundary_valid_from b.

(** No two events of the list are the same version of the fact. *)
Definition distinct_versions (events : list FactEvent) : Prop :=
  forall a b, a ∈ events -> b ∈ events ->
    event_valid_from a = event_valid_from b ->
    event_commit_seq a = event_commit_seq b -> a = b.

Definition sample_intervals : list StateInterval :=
  [mkStateInterval (mkInterval 0 (Some 5)) (Some (VInt32 1));
   mkStateInterval (mkInterval 5 (Some 9)) (Some (VInt32 1));
   mkStateInterval (mkInterval 9 None) (Some (VInt32 2))].

Definition sample_ref : FactRef := mkFactRef 1 kVertexProperty 4 9.

Definition sample_version (valid_from commit_seq : Z) (v : option Value)
  : FactEvent :=
  mkFactEvent sample_ref valid_from commit_seq
    (match v with Some _ => kPut | None => kDelete end) 1 v None.

(** A chain with a correction of an old boundary and a later delete. *)
Definition sample_chain : list FactEvent :=
  [sample_version 30 3 None; sample_version 10 4 (Some (VInt32 7));
   sample_version 10 2 (Some (VInt32 5)); sample_version 20 6 None].

(** ** Intervals *)

Lemma Validate_interval_OK i :
  ValidTimeInterval_Validate i = StatusOK <->
  match to i with Some t => from i < t | None => True end.
Proof.
  unfold ValidTimeInterval_Validate. destruct (to i) as [t|]; [|done].
  destruct (Z.leb_spec t (from i)); split; done || lia.
Qed.

Lemma Contains_true i t :
  Contains i t = true <->
  from i <= t /\ match to i with Some e => t < e | None => True end.
Proof.
  unfold Contains. destruct (to i); rewrite andb_true_iff, Z.leb_le;
    [by rewrite Z.ltb_lt|naive_solver].
Qed.

#[export] Instance same_value_equivalence : Equivalence same_value.
Proof.
  split.
  - by left.
  - intros a b [->|H]; [by left|right]. by rewrite option_Value_eqb_sym.
  - intros a b c [->|H] [->|K]; try by (left + right).
    right. by eapply option_Value_eqb_trans.
Qed.

(** ** Coalescing *)

Lemma state_holds_cons s l t v :
  state_holds (s :: l) t v <->
  (Contains (interval s) t = true /\ same_value (state_value s) v)
  \/ state_holds l t v.
Proof.
  unfold state_holds. setoid_rewrite elem_of_cons. naive_solver.
Qed.

Lemma state_holds_nil t v : state_holds [] t v <-> False.
Proof. unfold state_holds. set_solver. Qed.

Lemma state_holds_app l k t v :
  state_holds (l ++ k) t v <-> state_holds l t v \/ state_holds k t v.
Proof.
  unfold state_holds. setoid_rewrite elem_of_app. naive_solver.
Qed.

Lemma state_holds_rev l t v : state_holds (rev l) t v <-> state_holds l t v.
Proof.
  induction l as [|s l IH]; [done|]. simpl.
  rewrite state_holds_app, IH, !state_holds_cons, state_holds_nil. tauto.
Qed.

Abbreviation interval_ok s :=
  (ValidTimeInterval_Validate (interval s) = StatusOK) (only parsing).

Lemma coalesce_step_spec result i t v :
  Forall (fun s => interval_ok s) result -> interval_ok i ->
  Forall (fun s => interval_ok s) (coalesce_step result i) /\
  (state_holds (coalesce_step result i) t v <->
   state_holds result t v \/
   (Contains (interval i) t = true /\ same_value (state_value i) v)).
Proof.
  intros Hres Hi. destruct result as [|back rest]; simpl.
  - split; [by constructor|]. rewrite state_holds_cons. tauto.
  - destruct (option_Value_eqb _ _ && _) eqn:E.
    2: { split; [by constructor|]. rewrite !state_holds_cons. tauto. }
    bool_to_prop. inversion_clear Hres as [|? ? Hb Hr].
    rewrite !Validate_interval_OK in *. unfold EndsAt in *.
    destruct (to (interval back)) as [tb|] eqn:Htb; [|done].
    bool_to_prop. subst. split.
    + constructor; [|done]. simpl. apply Validate_interval_OK. simpl.
      destruct (to (interval i)); [lia|done].
    + rewrite !state_holds_cons. simpl.
      assert (same_value (state_value back) (state_value i)) as Hs by by right.
      rewrite !Contains_true. simpl. rewrite Htb.
      assert (same_value (state_value i) v <-> same_value (state_value back) v)
        as -> by by rewrite Hs.
      destruct (Z.lt_ge_cases t (from (interval i))), (to (interval i));
        intuition lia.
Qed.

Lemma coalesce_fold intervals result t v :
  Forall (fun s => interval_ok s) result ->
  Forall (fun s => interval_ok s) intervals ->
  Forall (fun s => interval_ok s) (fold_left coalesce_step intervals result) /\
  (state_holds (fold_left coalesce_step intervals result) t v <->
   state_holds result t v \/ state_holds intervals t v).
Proof.
  revert result. induction intervals as [|i l IH]; intros result Hr Hi; simpl.
  - rewrite state_holds_nil. tauto.
  - inversion_clear Hi.
    destruct (coalesce_step_spec result i t v) as [Hok Hst]; [done..|].
    destruct (IH (coalesce_step result i)) as [? ->]; [done..|].
    rewrite Hst, state_holds_cons. split; [done|tauto].
Qed.

Lemma Coalesce_holds intervals t v :
  Forall (fun s => interval_ok s) intervals ->
  (state_holds (Coalesce intervals) t v <-> state_holds intervals t v).
Proof.
  intros Hi. unfold Coalesce. rewrite state_holds_rev.
  destruct (coalesce_fold intervals [] t v) as [_ ->]; [done..|].
  rewrite state_holds_nil. tauto.
Qed.

Lemma HdRel_snoc {A} (R : A -> A -> Prop) x l y :
  HdRel R x l -> (l = [] -> R x y) -> HdRel R x (l ++ [y]).
Proof. intros Hx Hy. destruct Hx; constructor; auto. Qed.

Lemma Sorted_snoc {A} (R : A -> A -> Prop) l x :
  Sorted R l -> (forall y, last l = Some y -> R y x) -> Sorted R (l ++ [x]).
Proof.
  induction 1 as [|a l Hs IH Hh]; intros H; simpl; [by repeat constructor|].
  constructor.
  - apply IH. intros y Hy. apply H. destruct l; [done|by rewrite last_cons, Hy].
  - apply HdRel_snoc; [done|]. intros ->. by apply H.
Qed.

Lemma last_rev {A} (l : list A) : last (rev l) = head l.
Proof.
  destruct l as [|a l]; [done|]. simpl. by rewrite last_snoc.
Qed.

Lemma Sorted_rev {A} (R : A -> A -> Prop) l :
  Sorted (flip R) l -> Sorted R (rev l).
Proof.
  induction 1 as [|a l Hs IH Hh]; simpl; [done|].
  apply Sorted_snoc; [done|]. intros y. rewrite last_rev.
  destruct Hh; simpl; [done|]. by intros [= ->].
Qed.

Lemma coalesce_step_sorted result i :
  Sorted (flip separate) result ->
  (forall b, head result = Some b -> interval_before b i) ->
  Sorted (flip separate) (coalesce_step result i) /\
  exists b, head (coalesce_step result i) = Some b /\
            to (interval b) = to (interval i).
Proof.
  intros Hs Hb. destruct result as [|back rest]; simpl.
  { split; [by repeat constructor|eauto]. }
  fold (mergeable back i). destruct (mergeable back i) eqn:E; simpl.
  - split; [|eauto]. inversion_clear Hs as [|? ? Hr Hh].
    constructor; [done|]. destruct Hh as [|prev rest Hp]; constructor.
    exact Hp.
  - split; [|eauto]. constructor; [done|]. constructor. split; auto.
Qed.

Lemma coalesce_fold_sorted intervals result :
  Sorted (flip separate) result -> Sorted interval_before intervals ->
  (forall b i, head result = Some b -> head intervals = Some i ->
     interval_before b i) ->
  Sorted (flip separate) (fold_left coalesce_step intervals result).
Proof.
  revert result. induction intervals as [|i l IH]; intros result Hr Hi Hh;
    simpl; [done|].
  destruct (coalesce_step_sorted result i) as (Hs & b & Hb & Hto);
    [done|by eauto|]. inversion_clear Hi as [|? ? Hl Hhd].
  apply IH; [done..|]. intros b' j Hb' Hj. rewrite Hb in Hb'.
  injection Hb' as <-. destruct Hhd as [|j' ? Hij]; [done|].
  injection Hj as <-. unfold interval_before in *. by rewrite Hto.
Qed.

Lemma Coalesce_separate intervals :
  Sorted interval_before intervals -> Sorted separate (Coalesce intervals).
Proof.
  intros H. apply Sorted_rev, coalesce_fold_sorted; [constructor|done..].
Qed.

(** ** The order of versions *)

Lemma event_before_spec a b :
  event_before a b = true <->
  event_valid_from a < event_valid_from b \/
  (event_valid_from a = event_valid_from b /\
   event_commit_seq a < event_commit_seq b).
Proof.
  unfold event_before.
  destruct (Z.eqb_spec (event_valid_from a) (event_valid_from b)); simpl;
    rewrite Z.ltb_lt; lia.
Qed.

Lemma event_le_spec a b :
  event_le a b <->
  event_valid_from a < event_valid_from b \/
  (event_valid_from a = event_valid_from b /\
   event_commit_seq a <= event_commit_seq b).
Proof.
  unfold event_le. rewrite <- not_true_iff_false, event_before_spec. lia.
Qed.

#[export] Instance event_le_total : Total event_le.
Proof. intros a b. rewrite !event_le_spec. lia. Qed.

#[export] Instance event_le_trans : Transitive event_le.
Proof. intros a b c. rewrite !event_le_spec. lia. Qed.

Lemma event_le_antisym events a b :
  distinct_versions events -> a ∈ events -> b ∈ events ->
  event_le a b -> event_le b a -> a = b.
Proof.
  intros Hd Ha Hb. rewrite !event_le_spec. intros. apply Hd; auto; lia.
Qed.

Lemma is_sorted_Sorted events :
  is_sorted events = true <-> Sorted event_le events.
Proof.
  induction events as [|a [|b rest] IH]; [done|by repeat constructor|].
  cbn [is_sorted]. rewrite andb_true_iff, negb_true_iff, IH. split.
  - intros [? ?]. constructor; [done|]. by constructor.
  - inversion_clear 1 as [|? ? ? Hh]. by inversion_clear Hh.
Qed.

Lemma sort_events_sorted events : StronglySorted event_le (sort_events events).
Proof.
  unfold sort_events. destruct (is_sorted events) eqn:E.
  - apply Sorted_StronglySorted; [apply _|]. by apply is_sorted_Sorted.
  - apply StronglySorted_merge_sort; apply _.
Qed.

Lemma sort_events_perm events : sort_events events ≡ₚ events.
Proof.
  unfold sort_events. case_match; [done|]. apply merge_sort_Permutation.
Qed.

(** Whatever permutation [std::sort] leaves, it is this one when the versions
    are distinct. *)
Lemma sort_events_unique events sorted :
  distinct_versions events -> Sorted event_le sorted -> sorted ≡ₚ events ->
  sorted = sort_events events.
Proof.
  intros Hd Hs Hp. apply (StronglySorted_unique_strong event_le).
  - intros a b Ha Hb. apply (event_le_antisym events); [done|..].
    + by rewrite <- Hp.
    + by rewrite <- (sort_events_perm events).
  - by apply Sorted_StronglySorted; [apply _|].
  - apply sort_events_sorted.
  - by rewrite sort_events_perm.
Qed.

(** ** The effective event *)

Lemma effective_fold events snapshot t best :
  (forall b, best = Some b -> applies snapshot t b = true) ->
  match fold_left (effective_step snapshot t) events best with
  | Some e => (e ∈ events \/ best = Some e) /\ applies snapshot t e = true /\
              (forall e', e' ∈ events -> applies snapshot t e' = true ->
                 event_le e' e) /\
              (forall b, best = Some b -> event_le b e)
  | None => best = None /\
            forall e', e' ∈ events -> applies snapshot t e' = false
  end.
Proof.
  revert best. induction events as [|a events IH]; intros best Hbest.
  { simpl. destruct best as [b|]; [|split; [done|set_solver]].
    split_and!; [by right|by apply Hbest|set_solver|].
    intros ? [= <-]. apply event_le_spec. lia. }
  cbn [fold_left]. unfold effective_step at 2.
  destruct (applies snapshot t a) eqn:Ha.
  - set (best' := match best with
                  | Some b => if event_before b a then Some a else best
                  | None => Some a
                  end).
    assert (exists b', best' = Some b' /\ (b' = a \/ best = Some b') /\
              event_le a b' /\ (forall b, best = Some b -> event_le b b'))
      as (b' & Hb' & Hor & Hle & Hold).
    { subst best'. destruct best as [b|].
      - destruct (event_before b a) eqn:E.
        + exists a. apply event_before_spec in E. split_and!; auto.
          * apply event_le_spec. lia.
          * intros ? [= <-]. apply event_le_spec. lia.
        + exists b. split_and!; auto. intros ? [= <-]. apply event_le_spec. lia.
      - exists a. split_and!; auto; [apply event_le_spec; lia|done]. }
    specialize (IH best'). rewrite Hb' in *.
    destruct (fold_left _ _ _) as [e|].
    + destruct IH as (Hin & He & Hall & Hb).
      { intros ? [= <-]. destruct Hor as [->|]; auto. }
      specialize (Hb b' eq_refl). split_and!; [|done|..].
      * destruct Hin as [|[= ->]]; [left; set_solver|].
        destruct Hor as [->|]; [left; set_solver|by right].
      * intros e' [->|?]%elem_of_cons Hap; [by etrans|by apply Hall].
      * intros b Hbb. etrans; [by apply Hold|done].
    + destruct IH as [? _]; [|done].
      intros ? [= <-]. destruct Hor as [->|]; auto.
  - specialize (IH best Hbest). destruct (fold_left _ _ _) as [e|].
    + destruct IH as (Hin & He & Hall & Hb). split_and!; [set_solver|done|..|done].
      intros e' [->|?]%elem_of_cons Hap; [congruence|by apply Hall].
    + destruct IH as [? Hall]. split; [done|].
      intros e' [->|?]%elem_of_cons; [done|by apply Hall].
Qed.

Lemma effective_Some events snapshot t e :
  effective events snapshot t = Some e ->
  e ∈ events /\ applies snapshot t e = true /\
  forall e', e' ∈ events -> applies snapshot t e' = true -> event_le e' e.
Proof.
  intros H. pose proof (effective_fold events snapshot t None) as K.
  unfold effective in H. rewrite H in K.
  destruct K as ([?|?] & ? & ? & _); [done|done..].
Qed.

Lemma effective_None events snapshot t :
  effective events snapshot t = None <->
  forall e, e ∈ events -> applies snapshot t e = false.
Proof.
  pose proof (effective_fold events snapshot t None ltac:(done)) as K.
  unfold effective. destruct (fold_left _ _ _) as [e|].
  - split; [done|]. intros H. destruct K as ([?|?] & K & _); [|done].
    rewrite H in K; done.
  - by destruct K.
Qed.

(** The specification determines the event when versions are distinct. *)
Lemma effective_unique events snapshot t e :
  distinct_versions events ->
  e ∈ events -> applies snapshot t e = true ->
  (forall e', e' ∈ events -> applies snapshot t e' = true -> event_le e' e) ->
  effective events snapshot t = Some e.
Proof.
  intros Hd He Ha Hall. destruct (effective events snapshot t) as [e'|] eqn:E.
  - apply effective_Some in E as (? & ? & Hall').
    f_equal. apply (event_le_antisym events); auto.
  - rewrite effective_None in E. by rewrite E in Ha.
Qed.

(** ** Resolution *)

Lemma elem_of_visible snapshot events e :
  e ∈ visible_events snapshot events <->
  e ∈ events /\ event_commit_seq e <= snapshot.
Proof. unfold visible_events. rewrite list_elem_of_filter. tauto. Qed.

Lemma collect_visible_Ok snapshot ref events visible :
  collect_visible snapshot ref events = Ok visible <->
  visible = visible_events snapshot events /\
  Forall (fun e => FactEvent_Validate e = StatusOK) visible /\
  exists r, (forall r0, ref = Some r0 -> r0 = r) /\
            Forall (fun e => event_ref e = r) visible.
Proof.
  revert ref visible. induction events as [|e events IH]; intros ref visible.
  { simpl. split.
    - intros [= <-]. split_and!; [done|constructor|].
      destruct ref as [r|]; [|exists (mkFactRef 0 kVertexState 0 0)];
        [exists r|]; split; try constructor; naive_solver.
    - intros (-> & _). done. }
  simpl. unfold visible_events. rewrite filter_cons.
  destruct (Z.ltb_spec snapshot (event_commit_seq e)) as [Hlt|Hle].
  { rewrite decide_False by lia. apply IH. }
  rewrite decide_True by lia. fold (visible_events snapshot events). split.
  - intros H. inv_ok. apply IH in H2 as (-> & ? & r & Hr & ?).
    specialize (Hr _ eq_refl) as <-. subst. split_and!; [done|by constructor|].
    exists (event_ref e). split; [|by constructor].
    intros r0 ->. by apply bool_decide_eq_true in H1.
  - intros (-> & Hv & r & Hr & Hall). apply Forall_cons in Hv as [Hv Hvs].
    apply Forall_cons in Hall as [He Hall]. rewrite Hv. simpl.
    assert (match ref with
            | Some r0 => bool_decide (r0 = event_ref e) | None => true end = true)
      as ->.
    { destruct ref as [r0|]; [|done]. apply bool_decide_eq_true.
      rewrite He. by apply Hr. }
    simpl. rewrite (proj2 (IH _ (visible_events snapshot events))); [done|]. split_and!; [done..|].
    exists r. split; [by intros ? [= <-]|done].
Qed.

Lemma group_boundaries_head e rest :
  StronglySorted event_le (e :: rest) ->
  Forall (fun b => event_valid_from e <= boundary_valid_from b)
    (group_boundaries (e :: rest)).
Proof.
  revert e. induction rest as [|n rest IH]; intros e Hs.
  - repeat constructor. simpl. lia.
  - inversion_clear Hs as [|? ? Hs' Hall]. specialize (IH n Hs').
    apply Forall_cons in Hall as [Hn _]. apply event_le_spec in Hn.
    assert (Forall (fun b => event_valid_from e <= boundary_valid_from b)
              (group_boundaries (n :: rest))).
    { eapply Forall_impl; [exact IH|]. simpl. lia. }
    cbn [group_boundaries] in *.
    destruct (Z.eqb_spec (event_valid_from n) (event_valid_from e)); [done|].
    constructor; [simpl; lia|done].
Qed.

Lemma group_boundaries_sorted events :
  StronglySorted event_le events ->
  StronglySorted boundary_lt (group_boundaries events).
Proof.
  induction events as [|e [|n rest] IH]; intros Hs;
    [constructor|by repeat constructor|].
  inversion_clear Hs as [|? ? Hs' Hall]. specialize (IH Hs').
  pose proof (group_boundaries_head n rest Hs') as Hh.
  apply Forall_cons in Hall as [Hn _]. apply event_le_spec in Hn.
  cbn [group_boundaries] in *.
  destruct (Z.eqb_spec (event_valid_from n) (event_valid_from e)); [done|].
  constructor; [done|]. eapply Forall_impl; [exact Hh|].
  unfold boundary_lt. simpl. lia.
Qed.

(** The boundary in force at [t] comes from the greatest version that starts no
    later than [t]. *)
Lemma group_boundaries_at events t :
  StronglySorted event_le events ->
  match boundary_at (group_boundaries events) t with
  | Some b => exists e, e ∈ events /\ b = ToBoundary e /\
      event_valid_from e <= t /\
      forall e', e' ∈ events -> event_valid_from e' <= t -> event_le e' e
  | None => forall e, e ∈ events -> t < event_valid_from e
  end.
Proof.
  induction events as [|e rest IH]; intros Hs; [simpl; set_solver|].
  inversion_clear Hs as [|? ? Hs' Hall]. specialize (IH Hs').
  rewrite Forall_forall in Hall. destruct rest as [|n rest].
  { simpl. destruct (Z.leb_spec (event_valid_from e) t).
    - exists e. split_and!; [set_solver|done|done|].
      intros e' ->%list_elem_of_singleton _. apply event_le_spec. lia.
    - intros e' ->%list_elem_of_singleton. done. }
  assert (event_le e n) as Hen by (apply Hall; set_solver).
  apply event_le_spec in Hen. cbn [group_boundaries] in *.
  destruct (Z.eqb_spec (event_valid_from n) (event_valid_from e));
    cbn [boundary_at]; destruct (boundary_at _ t) as [b|].
  - destruct IH as (ev & ? & ? & ? & Hmax). exists ev.
    split_and!; [set_solver|done|done|].
    intros e' [->|?]%elem_of_cons ?; [by apply Hall|by apply Hmax].
  - intros e' [->|?]%elem_of_cons; [|by apply IH].
    specialize (IH n ltac:(set_solver)). lia.
  - destruct IH as (ev & ? & ? & ? & Hmax). exists ev.
    split_and!; [set_solver|done|done|].
    intros e' [->|?]%elem_of_cons ?; [by apply Hall|by apply Hmax].
  - simpl. destruct (Z.leb_spec (event_valid_from e) t).
    + exists e. split_and!; [set_solver|done|done|].
      intros e' [->|Hin]%elem_of_cons Hle; [apply event_le_spec; lia|].
      specialize (IH e' Hin). lia.
    + intros e' [->|?]%elem_of_cons; [done|by apply IH].
Qed.

Lemma ResolveCorrectedBoundaries_Ok events snapshot bs :
  ResolveCorrectedBoundaries events snapshot = Ok bs <->
  bs = group_boundaries (sort_events (visible_events snapshot events)) /\
  Forall (fun e => FactEvent_Validate e = StatusOK)
    (visible_events snapshot events) /\
  exists r, Forall (fun e => event_ref e = r) (visible_events snapshot events).
Proof.
  unfold ResolveCorrectedBoundaries. rewrite bind_Ok. split.
  - intros (visible & (-> & ? & r & _ & ?)%collect_visible_Ok & [= <-]).
    split_and!; eauto.
  - intros (-> & ? & r & ?). eexists. split; [|done].
    apply collect_visible_Ok. split_and!; [done..|]. by exists r.
Qed.

(** The boundary in force is the effective event's. *)
Lemma Resolve_boundary_at events snapshot bs t :
  distinct_versions events ->
  ResolveCorrectedBoundaries events snapshot = Ok bs ->
  boundary_at bs t = ToBoundary <$> effective events snapshot t.
Proof.
  intros Hd (-> & _)%ResolveCorrectedBoundaries_Ok.
  set (sorted := sort_events (visible_events snapshot events)).
  assert (forall e, e ∈ sorted <-> e ∈ events /\ event_commit_seq e <= snapshot)
    as Hin.
  { intros e. subst sorted. rewrite (sort_events_perm _).
    apply elem_of_visible. }
  pose proof (group_boundaries_at sorted t (sort_events_sorted _)) as H.
  destruct (boundary_at _ t) as [b|].
  - destruct H as (e & [He Hsn]%Hin & -> & Ht & Hmax).
    rewrite (effective_unique events snapshot t e); try done.
    + unfold applies. rewrite andb_true_iff, !Z.leb_le. done.
    + intros e' He' [? ?]%andb_true_iff. bool_to_prop.
      apply Hmax; [by apply Hin|done].
  - rewrite (proj2 (effective_None events snapshot t)); [done|].
    intros e He. unfold applies.
    destruct (Z.leb_spec (event_commit_seq e) snapshot); [|done].
    apply Z.leb_gt, H, Hin. done.
Qed.

(** ** Present state *)

Lemma boundary_at_unfold b rest t :
  boundary_at (b :: rest) t
  = match boundary_at rest t with
    | Some b' => Some b'
    | None => if boundary_valid_from b <=? t then Some b else None
    end.
Proof. done. Qed.

Lemma boundary_at_sorted_None b rest t :
  StronglySorted boundary_lt (b :: rest) -> t < boundary_valid_from b ->
  boundary_at (b :: rest) t = None.
Proof.
  revert b. induction rest as [|n rest IH]; intros b Hs Ht;
    rewrite boundary_at_unfold.
  - cbn [boundary_at]. by rewrite (proj2 (Z.leb_gt _ _)).
  - inversion_clear Hs as [|? ? Hs' Hall].
    apply Forall_cons in Hall as [Hn _]. unfold boundary_lt in Hn.
    rewrite (IH n Hs') by lia. by rewrite (proj2 (Z.leb_gt _ _)).
Qed.

(** With boundaries in order, [boundary_at] finds the segment holding [t]. *)
Lemma boundary_at_cons b rest t :
  StronglySorted boundary_lt (b :: rest) ->
  boundary_at (b :: rest) t
  = if t <? boundary_valid_from b then None
    else match rest with
         | [] => Some b
         | n :: _ => if t <? boundary_valid_from n then Some b
                     else boundary_at rest t
         end.
Proof.
  intros Hs. destruct (Z.ltb_spec t (boundary_valid_from b)).
  { by apply boundary_at_sorted_None. }
  inversion_clear Hs as [|? ? Hs' Hall]. destruct rest as [|n rest].
  { cbn [boundary_at]. by rewrite (proj2 (Z.leb_le _ _)). }
  destruct (Z.ltb_spec t (boundary_valid_from n)) as [|Hn].
  - rewrite boundary_at_unfold, (boundary_at_sorted_None n rest t) by done.
    by rewrite (proj2 (Z.leb_le _ _)).
  - cbn [boundary_at]. destruct (boundary_at rest t); [done|].
    by rewrite (proj2 (Z.leb_le _ _) Hn).
Qed.

Lemma Apply_put b value :
  boundary_operation b = kPut -> Apply b value = boundary_value b.
Proof. intros. unfold Apply. by rewrite bool_decide_true. Qed.

Lemma present_loop_ok value bs :
  StronglySorted boundary_lt bs ->
  Forall (fun s => interval_ok s) (present_loop value bs).
Proof.
  revert value. induction bs as [|b rest IH]; intros value Hs; simpl; [done|].
  inversion_clear Hs as [|? ? Hs' Hall].
  case_match; [constructor; [|by apply IH]|by apply IH].
  apply Validate_interval_OK. simpl. destruct rest; [done|].
  by apply Forall_cons in Hall as [? _].
Qed.

Lemma present_loop_from value b rest s :
  StronglySorted boundary_lt (b :: rest) ->
  s ∈ present_loop value (b :: rest) ->
  boundary_valid_from b <= from (interval s).
Proof.
  revert value b. induction rest as [|n rest IH]; intros value b Hs;
    cbn [present_loop]; inversion_clear Hs as [|? ? Hs' Hall].
  - case_match; [intros ->%list_elem_of_singleton; simpl; lia|set_solver].
  - apply Forall_cons in Hall as [Hn _]. unfold boundary_lt in Hn.
    case_match; [intros [->|Hin]%elem_of_cons; [simpl; lia|]|intros Hin];
      apply IH in Hin; auto; lia.
Qed.

Lemma present_loop_sorted value bs :
  StronglySorted boundary_lt bs ->
  Sorted interval_before (present_loop value bs).
Proof.
  revert value. induction bs as [|b rest IH]; intros value Hs; simpl; [constructor|].
  inversion_clear Hs as [|? ? Hs' Hall]. case_match; [|by apply IH].
  constructor; [by apply IH|]. destruct rest as [|n rest]; [constructor|].
  destruct (present_loop (Apply b value) (n :: rest)) as [|s l] eqn:E;
    constructor. unfold interval_before. simpl.
  apply (present_loop_from (Apply b value) n rest); [done|].
  rewrite E. set_solver.
Qed.

Lemma present_loop_holds value bs t v :
  StronglySorted boundary_lt bs ->
  state_holds (present_loop value bs) t v <->
  exists b, boundary_at bs t = Some b /\ boundary_operation b = kPut /\
            same_value (boundary_value b) v.
Proof.
  revert value. induction bs as [|b rest IH]; intros value Hs.
  { simpl. rewrite state_holds_nil. naive_solver. }
  rewrite boundary_at_cons by done. cbn [present_loop].
  inversion_clear Hs as [|? ? Hs' Hall]. specialize (IH (Apply b value) Hs').
  assert (state_holds (present_loop (Apply b value) rest) t v ->
          match rest with
          | [] => False
          | n :: _ => boundary_valid_from b < boundary_valid_from n <= t
          end) as Hrest.
  { intros (s & Hin & Hc & _). destruct rest as [|n rest]; [set_solver|].
    apply Forall_cons in Hall as [Hn _].
    apply present_loop_from in Hin; [|done]. apply Contains_true in Hc.
    unfold boundary_lt in Hn. lia. }
  assert (state_holds
            (if bool_decide (boundary_operation b = kPut) then
               mkStateInterval (mkInterval (boundary_valid_from b)
                 match rest with [] => None | n :: _ => Some (boundary_valid_from n) end)
                 (Apply b value) :: present_loop (Apply b value) rest
             else present_loop (Apply b value) rest) t v <->
          (boundary_operation b = kPut /\ same_value (boundary_value b) v /\
           boundary_valid_from b <= t /\
           match rest with [] => True | n :: _ => t < boundary_valid_from n end)
          \/ state_holds (present_loop (Apply b value) rest) t v) as ->.
  { case_bool_decide as Hp; [|naive_solver].
    rewrite state_holds_cons, Contains_true. cbn [interval from to state_value].
    rewrite (Apply_put b value Hp) at 1. destruct rest; naive_solver. }
  destruct (Z.ltb_spec t (boundary_valid_from b)), rest as [|n rest].
  - split; [intros [?|?%Hrest]; lia || done|naive_solver].
  - split; [intros [?|?%Hrest]; lia|naive_solver].
  - rewrite IH. naive_solver.
  - destruct (Z.ltb_spec t (boundary_valid_from n)).
    + split; [intros [?|?%Hrest]; [|lia]|]; naive_solver.
    + rewrite IH. split; [intros [?|?]; [lia|done]|by right].
Qed.

(** ** Missing state *)

Lemma value_from_before value b rest t :
  StronglySorted boundary_lt (b :: rest) -> t < boundary_valid_from b ->
  value_from value (b :: rest) t = value.
Proof.
  intros. unfold value_from. by rewrite boundary_at_sorted_None.
Qed.

Lemma value_from_after value b rest t :
  boundary_valid_from b <= t ->
  value_from value (b :: rest) t = value_from (Apply b value) rest t.
Proof.
  intros H. unfold value_from. rewrite boundary_at_unfold.
  destruct (boundary_at rest t); [done|].
  by rewrite (proj2 (Z.leb_le _ _) H).
Qed.

Lemma missing_skip_spec start value bs :
  StronglySorted boundary_lt bs ->
  let '(value', rest) := missing_skip start value bs in
  StronglySorted boundary_lt rest /\
  Forall (fun b => start < boundary_valid_from b) rest /\
  forall t, start <= t -> value_from value bs t = value_from value' rest t.
Proof.
  revert value. induction bs as [|b rest IH]; intros value Hs; simpl; [done|].
  inversion_clear Hs as [|? ? Hs' Hall].
  destruct (Z.leb_spec (boundary_valid_from b) start).
  - specialize (IH (Apply b value) Hs'). destruct (missing_skip _ _ _) as [v r].
    destruct IH as (? & ? & IH). split_and!; [done..|].
    intros t Ht. rewrite <- IH by done. apply value_from_after. lia.
  - split_and!; [by constructor| |done]. constructor; [done|].
    eapply Forall_impl; [exact Hall|]. unfold boundary_lt. lia.
Qed.

Lemma missing_loop_ok end_ cursor value bs :
  Forall (fun s => interval_ok s /\ state_value s = None)
    (missing_loop end_ cursor value bs).
Proof.
  assert (forall cursor value,
    Forall (fun s => interval_ok s /\ state_value s = None)
      (missing_final end_ cursor value)) as Hfin.
  { intros c v. unfold missing_final. case_match; [|done]. bool_to_prop.
    repeat constructor. apply Validate_interval_OK. simpl.
    case_match; [lia|done]. }
  revert cursor value. induction bs as [|b rest IH]; intros cursor value; simpl;
    [apply Hfin|].
  case_match; [apply Hfin|]. apply Forall_app. split; [|apply IH].
  destruct (_ && _) eqn:E; [|done]. bool_to_prop. repeat constructor.
  apply Validate_interval_OK. simpl. lia.
Qed.

Lemma missing_final_holds end_ cursor value t :
  state_holds (missing_final end_ cursor value) t None <->
  Contains (mkInterval cursor end_) t = true /\ value = None.
Proof.
  unfold missing_final.
  case_bool_decide as Hv; simpl; [|rewrite state_holds_nil; tauto].
  assert (same_value None None) by by left.
  destruct end_ as [e|]; [destruct (Z.ltb_spec cursor e)|];
    rewrite ?state_holds_cons, ?state_holds_nil, ?Contains_true; simpl;
    intuition lia.
Qed.

Lemma missing_loop_holds end_ cursor value bs t :
  StronglySorted boundary_lt bs ->
  Forall (fun b => cursor < boundary_valid_from b) bs ->
  state_holds (missing_loop end_ cursor value bs) t None <->
  Contains (mkInterval cursor end_) t = true /\ value_from value bs t = None.
Proof.
  revert cursor value. induction bs as [|b rest IH]; intros cursor value Hs Hc.
  { apply missing_final_holds. }
  cbn [missing_loop]. apply Forall_cons in Hc as [Hb Hc].
  pose proof Hs as Hs'. inversion_clear Hs' as [|? ? Hsr Hall].
  destruct (match end_ with Some e => negb (boundary_valid_from b <? e)
                          | None => false end) eqn:Hend.
  { rewrite missing_final_holds, !Contains_true. simpl.
    destruct end_ as [e|]; [|done]. bool_to_prop.
    split; intros [? H]; (split; [done|]);
      rewrite value_from_before in * by (done || lia); done. }
  assert (Forall (fun n => boundary_valid_from b < boundary_valid_from n) rest)
    as Hnext by exact Hall.
  rewrite state_holds_app, IH, (proj2 (Z.ltb_lt _ _) Hb) by done.
  rewrite andb_true_r, !Contains_true. simpl.
  assert (same_value None None) by by left.
  destruct (Z.lt_ge_cases t (boundary_valid_from b)) as [Ht|Ht].
  - rewrite value_from_before by done. case_bool_decide;
      rewrite ?state_holds_cons, ?state_holds_nil, ?Contains_true; simpl;
      destruct end_; simpl in Hend; bool_to_prop; intuition lia.
  - rewrite value_from_after by done. case_bool_decide;
      rewrite ?state_holds_cons, ?state_holds_nil, ?Contains_true; simpl;
      intuition lia.
Qed.

(** ** Resolved chains *)

Lemma Resolve_sorted events snapshot bs :
  ResolveCorrectedBoundaries events snapshot = Ok bs ->
  StronglySorted boundary_lt bs.
Proof.
  intros (-> & _)%ResolveCorrectedBoundaries_Ok.
  apply group_boundaries_sorted, sort_events_sorted.
Qed.

Lemma Resolve_at events snapshot bs t :
  ResolveCorrectedBoundaries events snapshot = Ok bs ->
  match boundary_at bs t with
  | Some b => exists e, e ∈ events /\ event_commit_seq e <= snapshot /\
      b = ToBoundary e /\ event_valid_from e <= t /\
      forall e', e' ∈ events -> event_commit_seq e' <= snapshot ->
        event_valid_from e' <= t -> event_le e' e
  | None => forall e, e ∈ events -> event_commit_seq e <= snapshot ->
              t < event_valid_from e
  end.
Proof.
  intros (-> & _)%ResolveCorrectedBoundaries_Ok.
  pose proof (group_boundaries_at _ t
                (sort_events_sorted (visible_events snapshot events))) as H.
  set (sorted := sort_events (visible_events snapshot events)) in *.
  assert (forall e, e ∈ sorted <-> e ∈ events /\ event_commit_seq e <= snapshot)
    as Hin.
  { intros e. subst sorted. rewrite (sort_events_perm _).
    apply elem_of_visible. }
  destruct (boundary_at _ t) as [b|].
  - destruct H as (e & [? ?]%Hin & ? & ? & Hmax). exists e.
    split_and!; try done. intros e' ? ?. apply Hmax. by apply Hin.
  - intros e ? ?. apply H. by apply Hin.
Qed.

Lemma boundary_at_elem bs t b : boundary_at bs t = Some b -> b ∈ bs.
Proof.
  induction bs as [|a bs IH]; [done|]. rewrite boundary_at_unfold.
  destruct (boundary_at bs t); [set_solver|].
  case_match; [|done]. intros [= ->]. set_solver.
Qed.

Lemma boundary_at_self bs b :
  StronglySorted boundary_lt bs -> b ∈ bs ->
  boundary_at bs (boundary_valid_from b) = Some b.
Proof.
  induction 1 as [|a bs Hs IH Hall]; [set_solver|].
  rewrite boundary_at_unfold. intros [->|Hin]%elem_of_cons.
  - destruct bs as [|n bs]; [|apply Forall_cons in Hall as [Hn _];
      rewrite boundary_at_sorted_None by done];
      cbn [boundary_at]; by rewrite Z.leb_refl.
  - by rewrite IH.
Qed.

Lemma MaterializePresentState_at bs t v :
  StronglySorted boundary_lt bs ->
  state_holds (MaterializePresentState bs) t v <->
  exists b, boundary_at bs t = Some b /\ boundary_operation b = kPut /\
            same_value (boundary_value b) v.
Proof.
  intros Hs. unfold MaterializePresentState.
  rewrite Coalesce_holds by by apply present_loop_ok.
  by apply present_loop_holds.
Qed.

(** Intervals in order do not share a time. *)
Lemma intervals_disjoint l t :
  Sorted interval_before l -> Forall (fun s => interval_ok s) l ->
  (length (filter (fun s => Contains (interval s) t = true) l) <= 1)%nat.
Proof.
  intros Hs Hok.
  set (R a b := interval_before a b /\ interval_ok b).
  assert (Sorted R l) as Hr.
  { clear t. induction Hs as [|a l Hs IH Hh]; [constructor|]. inversion_clear Hok as [|? ? _ Hl].
    constructor; [by apply IH|]. destruct Hh; constructor. inversion_clear Hl. by split. }
  apply Sorted_StronglySorted in Hr.
  2: { intros a b c [Hab Hb] [Hbc Hc]. split; [|done]. unfold interval_before in *.
       apply Validate_interval_OK in Hb. destruct (to (interval a)), (to (interval b)); try done. lia. }
  clear Hs Hok. induction Hr as [|a l Hr IH Hall]; [cbn; lia|]. rewrite filter_cons.
  case_decide as Ha; [|done]. rewrite filter_none; [cbn; lia|].
  eapply Forall_impl; [exact Hall|]. intros b [Hab _] Hb. unfold interval_before in Hab.
  apply Contains_true in Ha as [_ Ha], Hb as [Hb _]. destruct (to (interval a)); [lia|done].
Qed.

(** The present state at a time is one interval or none. *)
Lemma present_at bs t :
  StronglySorted boundary_lt bs ->
  match filter (fun s => Contains (interval s) t = true) (MaterializePresentState bs) with
  | [] => forall b, boundary_at bs t = Some b -> boundary_operation b <> kPut
  | [s] => exists b, boundary_at bs t = Some b /\ boundary_operation b = kPut /\
                     same_value (boundary_value b) (state_value s)
  | _ => False
  end.
Proof.
  intros Hs.
  pose proof (present_loop_ok None bs Hs) as Hok.
  destruct (coalesce_fold (present_loop None bs) [] t None ltac:(done) Hok) as [Hok' _].
  pose proof (intervals_disjoint (MaterializePresentState bs) t) as Hone.
  assert (Sorted interval_before (MaterializePresentState bs)) as Hsorted.
  { pose proof (Coalesce_separate _ (present_loop_sorted None bs Hs)) as H.
    unfold MaterializePresentState. clear -H. revert H. generalize (Coalesce (present_loop None bs)).
    induction 1 as [|a l _ IH Hh]; constructor; [done|]. destruct Hh; constructor.
    by match goal with H : separate _ _ |- _ => destruct H end. }
  specialize (Hone Hsorted).
  assert (Forall (fun s => interval_ok s) (MaterializePresentState bs)) as Hok2.
  { unfold MaterializePresentState, Coalesce. apply Forall_rev, Hok'. }
  specialize (Hone Hok2).
  destruct (filter _ _) as [|s [|s' l]] eqn:E; [| |cbn in Hone; lia].
  - intros b Hb Hp.
    destruct (proj2 (MaterializePresentState_at bs t (boundary_value b) Hs)) as (s & Hin & Hc & _).
    { exists b. by split_and!. }
    assert (s ∈ filter (fun s => Contains (interval s) t = true) (MaterializePresentState bs)) as Hf
      by by apply list_elem_of_filter.
    rewrite E in Hf. by apply not_elem_of_nil in Hf.
  - assert (s ∈ filter (fun s => Contains (interval s) t = true) (MaterializePresentState bs))
      as [Hc Hin]%list_elem_of_filter by (rewrite E; by left).
    apply MaterializePresentState_at; [done|]. by exists s.
Qed.

(** ** Properties *)

(** The intersection of two intervals holds exactly the times that both
    hold, it is absent exactly when they share none, and it is a valid
    interval. *)
Theorem Intersect_spec left right :
  match Intersect left right with
  | Some i => ValidTimeInterval_Validate i = StatusOK /\
              forall t, Contains i t = Contains left t && Contains right t
  | None => forall t, Contains left t && Contains right t = false
  end.
Proof.
  destruct left as [a ta], right as [b tb]. unfold Intersect, Before. simpl.
  assert (forall f e t, (a <= f /\ b <= f /\ (f = a \/ f = b)) ->
    e = EarlierEnd ta tb ->
    Contains (mkInterval f e) t
    = Contains (mkInterval a ta) t && Contains (mkInterval b tb) t) as H.
  { intros f e t Hf ->. apply eq_true_iff_eq.
    rewrite andb_true_iff, !Contains_true. simpl.
    destruct ta as [x|], tb as [y|]; simpl; unfold Before;
      try destruct (Z.ltb_spec x y); simpl; lia. }
  set (f := if a <? b then b else a).
  assert (a <= f /\ b <= f /\ (f = a \/ f = b)) as Hf
    by (subst f; destruct (Z.ltb_spec a b); lia).
  specialize (H f (EarlierEnd ta tb)). clearbody f.
  destruct (EarlierEnd ta tb) as [e|].
  - destruct (Z.ltb_spec f e); simpl.
    + split; [by apply Validate_interval_OK|auto].
    + intros t. rewrite <- H by done. apply not_true_iff_false.
      rewrite Contains_true. simpl. lia.
  - split; [done|auto].
Qed.

(** Coalescing valid intervals in time order keeps the state of every
    instant, and no two neighbours of the result could be coalesced further. *)
Theorem Coalesce_spec intervals :
  Forall (fun s => interval_ok s) intervals ->
  Sorted interval_before intervals ->
  (forall t v, state_holds (Coalesce intervals) t v <->
               state_holds intervals t v) /\
  Sorted separate (Coalesce intervals).
Proof.
  intros. split; [intros; by apply Coalesce_holds|by apply Coalesce_separate].
Qed.

Lemma Coalesce_spec_witness :
  Coalesce sample_intervals
  = [mkStateInterval (mkInterval 0 (Some 9)) (Some (VInt32 1));
     mkStateInterval (mkInterval 9 None) (Some (VInt32 2))] /\
  Sorted separate (Coalesce sample_intervals).
Proof.
  split; [vm_compute; reflexivity|].
  apply (Coalesce_spec sample_intervals).
  - repeat constructor.
  - repeat (constructor; unfold interval_before; simpl; try lia).
Defined.

(** A resolved chain has one boundary for every valid time that a visible
    event starts at, in strictly increasing order; each is a visible event that
    no other visible event of that valid time is newer than. *)
Theorem ResolveCorrectedBoundaries_spec events snapshot bs :
  ResolveCorrectedBoundaries events snapshot = Ok bs ->
  StronglySorted boundary_lt bs /\
  (forall e, e ∈ events -> event_commit_seq e <= snapshot ->
     exists b, b ∈ bs /\ boundary_valid_from b = event_valid_from e) /\
  (forall b, b ∈ bs -> exists e, e ∈ events /\ event_commit_seq e <= snapshot /\
     b = ToBoundary e /\
     forall e', e' ∈ events -> event_commit_seq e' <= snapshot ->
       event_valid_from e' = event_valid_from e ->
       event_commit_seq e' <= event_commit_seq e).
Proof.
  intros H. pose proof (Resolve_sorted _ _ _ H) as Hs. split_and!; [done|..].
  - intros e He Hle. pose proof (Resolve_at _ _ _ (event_valid_from e) H) as K.
    destruct (boundary_at _ _) as [b|] eqn:E.
    + destruct K as (e' & ? & ? & -> & ? & Hmax).
      exists (ToBoundary e'). split; [by eapply boundary_at_elem|]. simpl.
      specialize (Hmax e He Hle ltac:(lia)). apply event_le_spec in Hmax. lia.
    + specialize (K e He Hle). lia.
  - intros b Hb. pose proof (Resolve_at _ _ _ (boundary_valid_from b) H) as K.
    rewrite boundary_at_self in K by done.
    destruct K as (e & ? & ? & -> & ? & Hmax). exists e. split_and!; [done..|].
    intros e' ? ? ?. specialize (Hmax e' ltac:(done) ltac:(done)).
    simpl in Hmax. rewrite event_le_spec in Hmax. lia.
Qed.

Lemma ResolveCorrectedBoundaries_spec_witness :
  exists b, b ∈ [ToBoundary (sample_version 10 4 (Some (VInt32 7)));
                 ToBoundary (sample_version 30 3 None)]
            /\ boundary_valid_from b = 10.
Proof.
  destruct (ResolveCorrectedBoundaries_spec sample_chain 5
              [ToBoundary (sample_version 10 4 (Some (VInt32 7)));
               ToBoundary (sample_version 30 3 None)]
              ltac:(vm_compute; reflexivity)) as (_ & H & _).
  apply (H (sample_version 10 2 (Some (VInt32 5)))); [set_solver|].
  simpl. lia.
Defined.

(** At every valid time the present state that is materialized from a
    resolved chain is the one that the effective event of the snapshot leaves:
    a value is present exactly when that event is a PUT with this value. *)
Theorem MaterializePresentState_effective events snapshot bs t v :
  distinct_versions events ->
  ResolveCorrectedBoundaries events snapshot = Ok bs ->
  state_holds (MaterializePresentState bs) t v <->
  exists e, effective events snapshot t = Some e /\ event_operation e = kPut /\
            same_value (event_value e) v.
Proof.
  intros Hd H. rewrite MaterializePresentState_at by by eapply Resolve_sorted.
  rewrite (Resolve_boundary_at events snapshot bs t) by done.
  destruct (effective events snapshot t) as [e|]; naive_solver.
Qed.

Lemma MaterializePresentState_effective_witness :
  state_holds
    (MaterializePresentState
       [ToBoundary (sample_version 10 4 (Some (VInt32 7)));
        ToBoundary (sample_version 30 3 None)]) 12 (Some (VInt32 7)).
Proof.
  apply (MaterializePresentState_effective sample_chain 5).
  - intros a b Ha Hb. repeat setoid_rewrite elem_of_cons in Ha.
    repeat setoid_rewrite elem_of_cons in Hb.
    destruct Ha as [->|[->|[->|[->|?%not_elem_of_nil]]]],
      Hb as [->|[->|[->|[->|?%not_elem_of_nil]]]]; simpl; done.
  - vm_compute. reflexivity.
  - exists (sample_version 10 4 (Some (VInt32 7))).
    split; [vm_compute; reflexivity|]. split; [done|by left].
Defined.

(** The present state of a chain in order is a list of disjoint intervals
    in time order in which no neighbours could be joined. *)
Theorem MaterializePresentState_separate bs :
  StronglySorted boundary_lt bs ->
  Sorted separate (MaterializePresentState bs).
Proof.
  intros Hs. apply Coalesce_separate. by apply present_loop_sorted.
Qed.

Lemma MaterializePresentState_separate_witness :
  Sorted separate
    (MaterializePresentState
       [ToBoundary (sample_version 10 4 (Some (VInt32 7)));
        ToBoundary (sample_version 20 6 (Some (VInt32 7)));
        ToBoundary (sample_version 30 3 None)]).
Proof.
  apply MaterializePresentState_separate.
  repeat constructor; unfold boundary_lt; simpl; lia.
Defined.

(** Inside a valid enclosing interval the missing state covers exactly the
    times at which the chain holds no value; it never leaves the interval. *)
Theorem MaterializeMissingState_spec bs enclosing t :
  StronglySorted boundary_lt bs ->
  ValidTimeInterval_Validate enclosing = StatusOK ->
  state_holds (MaterializeMissingState bs enclosing) t None <->
  Contains enclosing t = true /\ value_at bs t = None.
Proof.
  intros Hs Hv. unfold MaterializeMissingState. rewrite Hv. cbn [status_ok negb].
  pose proof (missing_skip_spec (from enclosing) None bs Hs) as H.
  destruct (missing_skip _ _ _) as [value rest]. destruct H as (? & ? & Hval).
  rewrite Coalesce_holds.
  2: { eapply Forall_impl; [apply missing_loop_ok|]. by intros ? [? _]. }
  rewrite missing_loop_holds by done. destruct enclosing as [f e]. simpl in *.
  unfold value_at. split; intros [Hc ?]; (split; [done|]);
    apply Contains_true in Hc as [? _]; simpl in *; rewrite Hval in * by done;
    done.
Qed.

Lemma MaterializeMissingState_spec_witness :
  state_holds
    (MaterializeMissingState
       [ToBoundary (sample_version 10 4 (Some (VInt32 7)));
        ToBoundary (sample_version 30 3 None)] (mkInterval 0 (Some 50)))
    40 None.
Proof.
  apply MaterializeMissingState_spec.
  - repeat constructor; unfold boundary_lt; simpl; lia.
  - reflexivity.
  - split; vm_compute; reflexivity.
Defined.
