(* ===== verification/FactStore.v ===== *)
(** * FactStore: reads of the facts column family

    Models the readers of [src/storage/rocks/rocks_adapter.cc]:
    [FactStore::Read], [ReadTemporalNeighborhoodWithIterator],
    [ScanCurrentFactIntervals] and [ReadLatestEdgeIdentity].

    The column family is what a RocksDB iterator shows of it: key/value pairs in
    ascending bytewise order of their keys.  [Seek], [SeekForPrev] and the
    [Valid]/[Next]/[Prev] loops are the documented operations of that iterator;
    I/O errors of the engine are not modelled.  A read without a memory budget
    ([read_memory] null) is modelled, so the reservations always succeed.

    [represents] relates a column family to the set of events it stores; the
    readers are specified on the events. *)

From S2P Require Import Prelude Status Crc32c Wire Value Fact FactCodec Temporal.

Abbreviation column_family := (list (list byte * list byte)).

(** The iterator contract: keys are strictly ascending. *)
Definition cf_sorted (cf : column_family) : Prop :=
  StronglySorted (fun a b => bytes_lt (fst a) (fst b)) cf.

(** [iterator->Seek(target)]: the pairs from the first key at or after the
    target on. *)
Fixpoint Seek (target : list byte) (cf : column_family) : column_family :=
  match cf with
  | [] => []
  | (k, v) :: cf' =>
      match bytes_compare k target with
      | Lt => Seek target cf'
      | _ => cf
      end
  end.

(** [iterator->SeekForPrev(target)] followed by [Prev]: the pairs from the last
    key at or before the target on, backwards. *)
Fixpoint seek_for_prev (target : list byte) (cf acc : column_family)
  : column_family :=
  match cf with
  | [] => acc
  | (k, v) :: cf' =>
      match bytes_compare k target with
      | Gt => acc
      | _ => seek_for_prev target cf' ((k, v) :: acc)
      end
  end.

Definition SeekForPrev (target : list byte) (cf : column_family) :=
  seek_for_prev target cf [].

Definition StartsWith (value prefix : list byte) : bool :=
  (length prefix <=? length value)%nat
  && bool_decide (take (length prefix) value = prefix).

(** [Valid() && StartsWith(key(), prefix)] as the loop condition. *)
Fixpoint while_prefix (prefix : list byte) (cf : column_family)
  : column_family :=
  match cf with
  | [] => []
  | (k, v) :: cf' =>
      if StartsWith k prefix then (k, v) :: while_prefix prefix cf' else []
  end.

Definition kFactIdentityPrefixBytes : nat := 16.

Definition EncodeFactIdentityPrefix (part_id : Z) (family : FactFamily)
    (property_id : Z) (entity_id : option Z) : list byte :=
  let prefix := [z2b 2] in
  let prefix := AppendU32 prefix part_id in
  let prefix := prefix ++ [z2b (FactFamily_to_u8 family)] in
  let prefix := AppendU16 prefix property_id in
  match entity_id with Some e => AppendU64 prefix e | None => prefix end.

(** A snapshot handle: whether it belongs to this store and is pinned, its
    commit sequence, and the column family as its engine snapshot shows it. *)
Record StoreSnapshot := mkStoreSnapshot {
  snapshot_owned : bool;
  snapshot_commit_seq : Z;
  snapshot_facts : column_family
}.

(** ** Point reads *)

Fixpoint read_loop (snapshot_seq : Z) (entries : column_family)
  : StatusOr (option FactEvent) :=
  match entries with
  | [] => Ok None
  | (k, v) :: entries' =>
      key ← DecodeFactKey k;
      if snapshot_seq <? key_commit_seq key then read_loop snapshot_seq entries'
      else if kMaxFactValuePayloadBytes + 64 <? Z.of_nat (length v) then
        Fail (Corruption "fact read" "oversized fact value")
      else
        e ← DecodeFactValue (key_ref key) (key_valid_from key)
              (key_commit_seq key) v;
        if bool_decide (event_operation e = kDelete) then Ok None
        else Ok (Some e)
  end.

Definition Read (snapshot : StoreSnapshot) (ref : FactRef) (valid_time : Z)
  : StatusOr (option FactEvent) :=
  if negb (snapshot_owned snapshot) then
    Fail (InvalidArgument "fact read" "snapshot belongs to another store")
  else
    _ ← check (FactRef_Validate ref);
    let seek := EncodeFactKey ref valid_time U64_MAX in
    if bool_decide (seek = []) then
      Fail (InvalidArgument "fact read" "invalid fact key")
    else
      read_loop (snapshot_commit_seq snapshot)
        (while_prefix (take kFactIdentityPrefixBytes seek)
           (Seek seek (snapshot_facts snapshot))).

(** ** Temporal neighborhoods *)

Record TemporalNeighborhood := mkTemporalNeighborhood {
  observed : option FactEvent;
  predecessor : option Z;
  successor : option Z
}.

(** The forward loop: [current_boundary], [current_boundary_visible] and the
    event observed so far; returns [observed] and [predecessor]. *)
Fixpoint forward_loop (valid_time commit_limit : Z)
    (current_boundary : option Z) (visible : bool) (found : option FactEvent)
    (entries : column_family) : StatusOr (option FactEvent * option Z) :=
  match entries with
  | [] => Ok (found, None)
  | (k, v) :: entries' =>
      key ← DecodeFactKey k;
      if commit_limit <? key_commit_seq key then
        forward_loop valid_time commit_limit current_boundary visible found
          entries'
      else
        let '(current_boundary, visible) :=
          if bool_decide (current_boundary = Some (key_valid_from key))
          then (current_boundary, visible)
          else (Some (key_valid_from key), false) in
        if visible then
          forward_loop valid_time commit_limit current_boundary visible found
            entries'
        else
          e ← DecodeFactValue (key_ref key) (key_valid_from key)
                (key_commit_seq key) v;
          match found with
          | None =>
              if key_valid_from key <? valid_time then
                Ok (Some e, Some (key_valid_from key))
              else
                forward_loop valid_time commit_limit current_boundary true
                  (Some e) entries'
          | Some _ => Ok (found, Some (key_valid_from key))
          end
  end.

(** The backward loop with the assignment behind it; returns [successor]. *)
Fixpoint backward_loop (commit_limit : Z) (boundary : option Z)
    (visible : bool) (entries : column_family) : StatusOr (option Z) :=
  match entries with
  | [] => Ok (if visible then boundary else None)
  | (k, v) :: entries' =>
      key ← DecodeFactKey k;
      if bool_decide (boundary = Some (key_valid_from key)) then
        backward_loop commit_limit boundary
          (visible || (key_commit_seq key <=? commit_limit)) entries'
      else if visible then Ok boundary
      else
        backward_loop commit_limit (Some (key_valid_from key))
          (key_commit_seq key <=? commit_limit) entries'
  end.

(** [might_contain] is the identity-history filter, absent when the store has
    none. *)
Definition ReadTemporalNeighborhood
    (might_contain : option (FactRef -> bool)) (cf : column_family)
    (ref : FactRef) (valid_time commit_limit : Z)
  : StatusOr TemporalNeighborhood :=
  _ ← check (FactRef_Validate ref);
  if match might_contain with Some f => negb (f ref) | None => false end then
    Ok (mkTemporalNeighborhood None None None)
  else
    let seek := EncodeFactKey ref valid_time U64_MAX in
    if bool_decide (seek = []) then
      Fail (InvalidArgument "temporal neighborhood" "invalid fact key")
    else
      let prefix := take kFactIdentityPrefixBytes seek in
      '(found, before) ←
         forward_loop valid_time commit_limit None false None
           (while_prefix prefix (Seek seek cf));
      after ← backward_loop commit_limit None false
                (while_prefix prefix (SeekForPrev seek cf));
      Ok (mkTemporalNeighborhood found before after).

(** ** The current chain of a fact *)

Record CurrentFactInterval := mkCurrentFactInterval {
  cfi_valid_from : Z;
  cfi_valid_to : option Z;
  cfi_commit_seq : Z
}.

Fixpoint scan_intervals_loop (previous_boundary : option Z)
    (entries : column_family) : StatusOr (list CurrentFactInterval) :=
  match entries with
  | [] => Ok []
  | (k, v) :: entries' =>
      key ← DecodeFactKey k;
      if bool_decide (previous_boundary = Some (key_valid_from key)) then
        scan_intervals_loop previous_boundary entries'
      else
        rest ← scan_intervals_loop (Some (key_valid_from key)) entries';
        Ok (mkCurrentFactInterval (key_valid_from key) previous_boundary
              (key_commit_seq key) :: rest)
  end.

Definition ScanCurrentFactIntervals (cf : column_family) (ref : FactRef)
  : StatusOr (list CurrentFactInterval) :=
  let prefix := EncodeFactIdentityPrefix (ref_part_id ref) (ref_family ref)
                  (ref_property_id ref) (Some (ref_entity_id ref)) in
  scan_intervals_loop None (while_prefix prefix (Seek prefix cf)).

(** ** Edge identities *)

Definition ReadLatestEdgeIdentity (cf : column_family) (edge : EdgeRef)
  : StatusOr (option EdgeIdentity) :=
  let ref := mkFactRef (edge_home_part_id edge) kEdgeIdentity 0
               (edge_ref_id edge) in
  let seek := EncodeFactKey ref 0 U64_MAX in
  if bool_decide (seek = []) then
    Fail (InvalidArgument "edge identity" "invalid edge key")
  else
    match while_prefix (take kFactIdentityPrefixBytes seek) (Seek seek cf) with
    | [] => Ok None
    | (k, v) :: _ =>
        key ← DecodeFactKey k;
        e ← DecodeFactValue (key_ref key) (key_valid_from key)
              (key_commit_seq key) v;
        if bool_decide (event_operation e = kDelete) then Ok None
        else
          match event_edge_identity e with
          | None => Fail (Corruption "edge identity"
                            "identity fact lacks identity payload")
          | Some i => Ok (Some i)
          end
    end.

(** ** Specification *)

(** The key and the value under which an event is stored. *)
Definition event_key (e : FactEvent) : list byte :=
  EncodeFactKey (event_ref e) (event_valid_from e) (event_commit_seq e).

Definition entry_of (e : FactEvent) (kv : list byte * list byte) : Prop :=
  event_typed e /\ fst kv = event_key e /\ EncodeFactValue e = Ok (snd kv).

(** The column family stores exactly these events. *)
Definition represents (cf : column_family) (events : list FactEvent) : Prop :=
  cf_sorted cf /\
  (forall kv, kv ∈ cf -> exists e, e ∈ events /\ entry_of e kv) /\
  (forall e, e ∈ events -> exists kv, kv ∈ cf /\ entry_of e kv).

(** The history of one fact. *)
Definition history (events : list FactEvent) (ref : FactRef)
  : list FactEvent := filter (fun e => event_ref e = ref) events.

(** What a point read returns of the effective event. *)
Definition present (o : option FactEvent) : option FactEvent :=
  match o with
  | Some e => if bool_decide (event_operation e = kDelete) then None else Some e
  | None => None
  end.

(** The nearest visible boundary before and after a valid time. *)
Definition nearest_before (events : list FactEvent) (limit t : Z)
    (o : option Z) : Prop :=
  match o with
  | Some p =>
      p < t /\
      (exists e, e ∈ events /\ event_commit_seq e <= limit /\
                 event_valid_from e = p) /\
      forall e, e ∈ events -> event_commit_seq e <= limit ->
        event_valid_from e < t -> event_valid_from e <= p
  | None => forall e, e ∈ events -> event_commit_seq e <= limit ->
              t <= event_valid_from e
  end.

Definition nearest_after (events : list FactEvent) (limit t : Z)
    (o : option Z) : Prop :=
  match o with
  | Some s =>
      t < s /\
      (exists e, e ∈ events /\ event_commit_seq e <= limit /\
                 event_valid_from e = s) /\
      forall e, e ∈ events -> event_commit_seq e <= limit ->
        t < event_valid_from e -> s <= event_valid_from e
  | None => forall e, e ∈ events -> event_commit_seq e <= limit ->
              event_valid_from e <= t
  end.

(** The events of a list from the newest version down. *)
Definition newest_first (events : list FactEvent) : Prop :=
  StronglySorted (fun a b => event_before b a = true) events.

(** The intervals of a chain listed from the newest version down. *)
Fixpoint intervals_of (previous_boundary : option Z) (events : list FactEvent)
  : list CurrentFactInterval :=
  match events with
  | [] => []
  | e :: rest =>
      if bool_decide (previous_boundary = Some (event_valid_from e)) then
        intervals_of previous_boundary rest
      else mkCurrentFactInterval (event_valid_from e) previous_boundary
             (event_commit_seq e)
           :: intervals_of (Some (event_valid_from e)) rest
  end.

(** The latest identity of an edge: the newest identity fact at valid time 0. *)
Definition latest_identity (events : list FactEvent) (edge : EdgeRef)
  : option FactEvent :=
  effective (history events
    (mkFactRef (edge_home_part_id edge) kEdgeIdentity 0 (edge_ref_id edge)))
    U64_MAX 0.

(** A filter without false negatives for the stored facts. *)
Definition filter_sound (might_contain : option (FactRef -> bool))
    (events : list FactEvent) : Prop :=
  forall f e, might_contain = Some f -> e ∈ events -> f (event_ref e) = true.

(** The column family of events listed in key order. *)
Definition encoded_cf (events : list FactEvent) : column_family :=
  (fun e => (event_key e,
             match EncodeFactValue e with Ok v => v | Fail _ => [] end)) <$> events.

(** Two corrections of a boundary and a later boundary, with the column family
    that stores them. *)
Definition sample_events : list FactEvent :=
  [sample_version 20 6 (Some (VInt32 9)); sample_version 10 4 (Some (VInt32 7));
   sample_version 10 2 (Some (VInt32 5))].

Definition sample_cf : column_family := encoded_cf sample_events.

(** Keys from the greatest down. *)
Definition cf_sorted_desc (cf : column_family) : Prop :=
  StronglySorted (fun a b => bytes_lt (fst b) (fst a)) cf.

(** ** Blocks of keys with a common prefix *)

Lemma StartsWith_app p s : StartsWith (p ++ s) p = true.
Proof.
  unfold StartsWith. rewrite length_app, take_app_length.
  rewrite bool_decide_true by done. rewrite andb_true_r.
  apply Nat.leb_le. lia.
Qed.

Lemma StartsWith_true k p : StartsWith k p = true <-> exists s, k = p ++ s.
Proof.
  split.
  - unfold StartsWith. intros [_ H]%andb_true_iff. bool_to_prop.
    exists (drop (length p) k). by rewrite <- H at 1; rewrite take_drop.
  - intros [s ->]. apply StartsWith_app.
Qed.

(** A key between two keys with a prefix has the prefix. *)
Lemma StartsWith_between p s u k :
  bytes_compare (p ++ s) k <> Gt -> bytes_compare k (p ++ u) <> Gt ->
  StartsWith k p = true.
Proof.
  intros H1 H2. apply StartsWith_true. revert k H1 H2.
  induction p as [|b p IH]; intros k H1 H2; [by exists k|].
  destruct k as [|c k]; [done|]. simpl in *.
  destruct (Z.compare_spec (b2z b) (b2z c)) as [E|E|E];
    destruct (Z.compare_spec (b2z c) (b2z b)) as [F|F|F]; try done; try lia.
  destruct (IH k H1 H2) as [v ->]. exists v. f_equal. by apply b2z_inj.
Qed.

Lemma bytes_lt_trans_r a b c :
  bytes_compare a b <> Lt -> bytes_lt a c -> bytes_compare c b <> Lt.
Proof.
  unfold bytes_lt. intros H1 H2 H3. apply H1.
  by eapply bytes_compare_lt_trans.
Qed.

Lemma Seek_filter target cf :
  cf_sorted cf ->
  Seek target cf = filter (fun kv => bytes_compare (fst kv) target <> Lt) cf.
Proof.
  induction 1 as [|[k v] cf Hs IH Hall]; [done|]. cbn [Seek].
  rewrite filter_cons. cbn [fst].
  assert (bytes_compare k target <> Lt ->
          (k, v) :: cf = (k, v) :: filter (fun kv : list byte * list byte =>
             bytes_compare (fst kv) target <> Lt) cf) as Hge.
  { intros H. f_equal. symmetry. apply filter_all.
    eapply Forall_impl; [exact Hall|]. intros [k' v'] Hlt. simpl in *.
    by eapply bytes_lt_trans_r. }
  destruct (bytes_compare k target) eqn:E;
    [rewrite decide_True by done; by apply Hge|by rewrite decide_False by auto|].
  rewrite decide_True by done. by apply Hge.
Qed.

Lemma while_prefix_filter p cf :
  cf_sorted cf ->
  (forall kv, kv ∈ cf -> bytes_compare p (fst kv) <> Gt) ->
  while_prefix p cf = filter (fun kv => StartsWith (fst kv) p = true) cf.
Proof.
  induction 1 as [|[k v] cf Hs IH Hall]; intros Hge; [done|].
  cbn [while_prefix]. rewrite filter_cons. cbn [fst].
  destruct (StartsWith k p) eqn:E.
  - rewrite decide_True by done. f_equal. apply IH.
    intros kv Hkv. apply Hge. by right.
  - rewrite decide_False by done. symmetry. apply filter_none.
    rewrite Forall_forall in Hall. apply Forall_forall.
    intros [k' v'] Hin K. specialize (Hall _ Hin). simpl in *.
    apply not_true_iff_false in E. apply E.
    apply StartsWith_true in K as [s ->].
    apply (StartsWith_between p [] s); [rewrite app_nil_r|].
    + apply (Hge (k, v)). by left.
    + unfold bytes_lt in Hall. by rewrite Hall.
Qed.

Lemma bytes_compare_prefix p s : bytes_compare p (p ++ s) <> Gt.
Proof.
  induction p as [|b p IH]; simpl; [by destruct s|].
  by rewrite Z.compare_refl.
Qed.

Lemma cf_sorted_filter (P : list byte * list byte -> Prop)
    `{!forall kv, Decision (P kv)} cf :
  cf_sorted cf -> cf_sorted (filter P cf).
Proof.
  induction 1 as [|kv cf Hs IH Hall]; [constructor|]. rewrite filter_cons.
  case_decide; [|done]. constructor; [done|].
  rewrite Forall_forall in *. intros kv' [_ ?]%list_elem_of_filter. auto.
Qed.

(** The forward loop of a prefix from a target inside it. *)
Lemma forward_block p s cf :
  cf_sorted cf ->
  while_prefix p (Seek (p ++ s) cf)
  = filter (fun kv => StartsWith (fst kv) p = true /\
                      bytes_compare (fst kv) (p ++ s) <> Lt) cf.
Proof.
  intros Hs. rewrite Seek_filter by done.
  rewrite while_prefix_filter, list_filter_filter.
  - done.
  - by apply cf_sorted_filter.
  - intros [k v] [H _]%list_elem_of_filter. simpl in *.
    intros K. apply H.
    apply bytes_compare_lt_trans with p.
    + rewrite bytes_compare_antisym, K. done.
    + destruct (bytes_compare p (p ++ s)) eqn:E; [|done|].
      * apply bytes_compare_eq in E. rewrite <- E in H.
        rewrite bytes_compare_antisym, K in H. done.
      * by apply bytes_compare_prefix in E.
Qed.

Lemma seek_for_prev_filter target cf acc :
  cf_sorted cf ->
  seek_for_prev target cf acc
  = rev (filter (fun kv => bytes_compare (fst kv) target <> Gt) cf) ++ acc.
Proof.
  intros Hs. revert acc. induction Hs as [|[k v] cf Hs IH Hall]; intros acc;
    [done|]. cbn [seek_for_prev]. rewrite filter_cons. cbn [fst].
  destruct (bytes_compare k target) eqn:E;
    [rewrite decide_True by done; rewrite IH; cbn [rev]; by rewrite <- app_assoc
    |rewrite decide_True by done; rewrite IH; cbn [rev]; by rewrite <- app_assoc|].
  rewrite decide_False by auto. rewrite filter_none; [done|].
  eapply Forall_impl; [exact Hall|]. intros [k' v'] Hlt K. simpl in *. apply K.
  rewrite bytes_compare_antisym. unfold bytes_lt in Hlt.
  rewrite (bytes_compare_lt_trans target k k'); [done|..|done].
  by rewrite bytes_compare_antisym, E.
Qed.

Lemma cf_sorted_rev cf : cf_sorted cf -> cf_sorted_desc (rev cf).
Proof.
  intros Hs. apply Sorted_StronglySorted.
  - intros a b c ? ?. by etrans.
  - apply Sorted_rev. unfold flip. by apply StronglySorted_Sorted.
Qed.

Lemma while_prefix_desc p s cf :
  cf_sorted_desc cf ->
  (forall kv, kv ∈ cf -> bytes_compare (fst kv) (p ++ s) <> Gt) ->
  while_prefix p cf = filter (fun kv => StartsWith (fst kv) p = true) cf.
Proof.
  induction 1 as [|[k v] cf Hs IH Hall]; intros Hle; [done|].
  cbn [while_prefix]. rewrite filter_cons. cbn [fst].
  destruct (StartsWith k p) eqn:E.
  - rewrite decide_True by done. f_equal. apply IH.
    intros kv Hkv. apply Hle. by right.
  - rewrite decide_False by done. symmetry. apply filter_none.
    rewrite Forall_forall in Hall. apply Forall_forall.
    intros [k' v'] Hin K. specialize (Hall _ Hin). simpl in *.
    apply not_true_iff_false in E. apply E.
    apply StartsWith_true in K as [u ->].
    apply (StartsWith_between p u s).
    + unfold bytes_lt in Hall. by rewrite Hall.
    + apply (Hle (k, v)). by left.
Qed.

(** The backward loop of a prefix from a target inside it. *)
Lemma backward_block p s cf :
  cf_sorted cf ->
  while_prefix p (SeekForPrev (p ++ s) cf)
  = rev (filter (fun kv => StartsWith (fst kv) p = true /\
                           bytes_compare (fst kv) (p ++ s) <> Gt) cf).
Proof.
  intros Hs. unfold SeekForPrev. rewrite seek_for_prev_filter by done.
  rewrite app_nil_r, (while_prefix_desc p s).
  - by rewrite filter_rev, list_filter_filter.
  - by apply cf_sorted_rev, cf_sorted_filter.
  - intros kv Hkv. rewrite list_elem_of_In, <- in_rev, <- list_elem_of_In in Hkv.
    by apply list_elem_of_filter in Hkv as [? _].
Qed.

(** ** Stored events *)

Lemma event_typed_key e :
  event_typed e -> FactEvent_Validate e = StatusOK ->
  key_ok (event_ref e) (event_valid_from e) (event_commit_seq e).
Proof.
  intros (? & ? & ? & _) Hv. pose proof (FactEvent_Validate_ref _ Hv).
  apply FactEvent_Validate_OK in Hv as [? _]. done.
Qed.

Lemma event_typed_payload e : event_typed e -> payload_typed e.
Proof. intros (_ & _ & _ & ? & ? & ?). done. Qed.

Lemma entry_key_ok e kv :
  entry_of e kv ->
  key_ok (event_ref e) (event_valid_from e) (event_commit_seq e).
Proof.
  intros (Ht & _ & He). apply EncodeFactValue_Ok in He as [Hv _].
  by apply event_typed_key.
Qed.

Lemma entry_decode_key e kv :
  entry_of e kv ->
  DecodeFactKey (fst kv)
  = Ok (mkDecodedFactKey (event_ref e) (event_valid_from e) (event_commit_seq e)).
Proof.
  intros H. pose proof (entry_key_ok _ _ H). destruct H as (_ & -> & _).
  by apply DecodeFactKey_Encode.
Qed.

Lemma entry_decode_value e kv :
  entry_of e kv ->
  DecodeFactValue (event_ref e) (event_valid_from e) (event_commit_seq e) (snd kv)
  = Ok e.
Proof.
  intros (Ht & _ & He). apply DecodeFactValue_Encode; [|done].
  by apply event_typed_payload.
Qed.

Lemma entry_value_size e kv :
  entry_of e kv -> Z.of_nat (length (snd kv)) <= kMaxFactValuePayloadBytes + 64.
Proof.
  intros (_ & _ & He).
  apply EncodeFactValue_Ok in He as (_ & kind & payload & Hp & ->).
  apply event_payload_Ok in Hp as [Hl _].
  unfold value_body. autorewrite with cedar_len. lia.
Qed.

Lemma entry_StartsWith e kv r :
  entry_of e kv -> ref_typed r -> FactRef_Validate r = StatusOK ->
  StartsWith (fst kv) (ref_bytes r) = true <-> event_ref e = r.
Proof.
  intros H Hr Hvr. pose proof (entry_key_ok _ _ H) as (Ht & Hv & _ & _ & Hc).
  destruct H as (_ & -> & _). unfold event_key. rewrite EncodeFactKey_eq by done.
  split; [|intros <-; apply StartsWith_app].
  intros [s E]%StartsWith_true. apply app_inj_1 in E as [E _].
  - by apply ref_bytes_inj.
  - by rewrite !length_ref_bytes.
Qed.

(** Where a stored version of a fact lies relative to the seek target of a
    valid time. *)
Lemma entry_compare_seek e kv t :
  entry_of e kv -> uint 64 t ->
  bytes_compare (fst kv) (EncodeFactKey (event_ref e) t U64_MAX)
  = then_compare (t ?= event_valid_from e) (U64_MAX ?= event_commit_seq e).
Proof.
  intros H Ht. pose proof (entry_key_ok _ _ H) as Hk. destruct H as (_ & -> & _).
  pose proof (EncodeFactKey_compare
    (mkDecodedFactKey (event_ref e) (event_valid_from e) (event_commit_seq e))
    (mkDecodedFactKey (event_ref e) t U64_MAX)) as E. simpl in E.
  unfold event_key. rewrite E; [|done|].
  - unfold version_compare, ref_compare. simpl. rewrite !Z.compare_refl. done.
  - destruct Hk as (? & ? & _). unfold key_ok, uint, U64_MAX. done.
Qed.

Lemma entry_at_or_before e kv t :
  entry_of e kv -> uint 64 t ->
  bytes_compare (fst kv) (EncodeFactKey (event_ref e) t U64_MAX) <> Lt <->
  event_valid_from e <= t.
Proof.
  intros H Ht. rewrite (entry_compare_seek _ _ _ H Ht).
  destruct (entry_key_ok _ _ H) as (_ & _ & _ & [_ Hcs] & _).
  destruct (Z.compare_spec t (event_valid_from e)); cbn [then_compare];
    [|split; intros; congruence || lia..].
  destruct (Z.compare_spec U64_MAX (event_commit_seq e));
    unfold U64_MAX in *; split; intros; congruence || lia.
Qed.

Lemma entry_after e kv t :
  entry_of e kv -> uint 64 t ->
  bytes_compare (fst kv) (EncodeFactKey (event_ref e) t U64_MAX) <> Gt <->
  t < event_valid_from e \/
  (t = event_valid_from e /\ event_commit_seq e = U64_MAX).
Proof.
  intros H Ht. rewrite (entry_compare_seek _ _ _ H Ht).
  destruct (entry_key_ok _ _ H) as (_ & _ & _ & [_ Hcs] & _).
  destruct (Z.compare_spec t (event_valid_from e)); cbn [then_compare];
    [|split; intros; congruence || lia..].
  destruct (Z.compare_spec U64_MAX (event_commit_seq e));
    unfold U64_MAX in *; split; intros; congruence || lia.
Qed.

Lemma entry_inj e e' kv : entry_of e kv -> entry_of e' kv -> e = e'.
Proof.
  intros H H'. pose proof (entry_decode_key _ _ H) as K.
  rewrite (entry_decode_key _ _ H') in K. injection K as E1 E2 E3.
  pose proof (entry_decode_value _ _ H) as V. rewrite <- E1, <- E2, <- E3 in V.
  rewrite (entry_decode_value _ _ H') in V. congruence.
Qed.

(** The events behind the entries of a column family, in its order. *)
Lemma represents_events cf events :
  represents cf events ->
  exists evs, Forall2 entry_of evs cf /\ forall e, e ∈ evs <-> e ∈ events.
Proof.
  intros (Hs & H1 & H2).
  assert (exists evs, Forall2 entry_of evs cf /\ forall e, e ∈ evs -> e ∈ events)
    as (evs & Hf & Hin).
  { clear Hs H2. induction cf as [|kv cf IH].
    { exists []. split; [constructor|]. by intros e ?%not_elem_of_nil. }
    destruct (H1 kv (list_elem_of_here _ _)) as (e & He & Hkv).
    destruct IH as (evs & Hf & Hin); [intros; apply H1; by right|].
    exists (e :: evs). split; [by constructor|].
    intros e' [->|?]%elem_of_cons; auto. }
  exists evs. split; [done|]. intros e. split; [apply Hin|].
  intros (kv & Hkv & He)%H2. apply list_elem_of_lookup in Hkv as [i Hi].
  destruct (Forall2_lookup_r _ _ _ _ _ Hf Hi) as (e' & Hi' & He').
  rewrite (entry_inj _ _ _ He He'). by eapply list_elem_of_lookup_2.
Qed.

Lemma entry_before a b kva kvb :
  entry_of a kva -> entry_of b kvb -> event_ref a = event_ref b ->
  bytes_lt (fst kva) (fst kvb) <-> event_before b a = true.
Proof.
  intros Ha Hb Hr. pose proof (entry_key_ok _ _ Ha) as Ka.
  pose proof (entry_key_ok _ _ Hb) as Kb.
  destruct Ha as (_ & -> & _), Hb as (_ & -> & _). unfold event_key, bytes_lt.
  pose proof (EncodeFactKey_compare
    (mkDecodedFactKey (event_ref a) (event_valid_from a) (event_commit_seq a))
    (mkDecodedFactKey (event_ref b) (event_valid_from b) (event_commit_seq b))
    Ka Kb) as E. simpl in E. rewrite E. unfold version_compare, ref_compare. simpl.
  rewrite Hr, !Z.compare_refl. simpl. rewrite event_before_spec.
  destruct (Z.compare_spec (event_valid_from b) (event_valid_from a)); simpl;
    [rewrite Z.compare_lt_iff|..]; split; intros; congruence || lia.
Qed.

Lemma Forall2_filter {A B} (R : A -> B -> Prop) (P : A -> Prop) (Q : B -> Prop)
    `{!forall a, Decision (P a)} `{!forall b, Decision (Q b)} l k :
  (forall a b, a ∈ l -> b ∈ k -> R a b -> P a <-> Q b) ->
  Forall2 R l k -> Forall2 R (filter P l) (filter Q k).
Proof.
  intros HPQ Hf. induction Hf as [|a b l k Hab Hf IH]; [constructor|].
  rewrite !filter_cons. specialize (HPQ a b) as Hab'.
  destruct (decide (P a)), (decide (Q b)); [constructor; [done|]|..|];
    try (apply IH; intros; apply HPQ; try done; by right).
  - exfalso. naive_solver (by left).
  - exfalso. naive_solver (by left).
Qed.

(** ** The blocks that the readers visit *)

Section blocks.

Context (cf : column_family) (evs : list FactEvent) (r : FactRef) (t : Z).
Hypothesis Hsorted : cf_sorted cf.
Hypothesis Hentries : Forall2 entry_of evs cf.
Hypothesis Hkey : key_ok r t U64_MAX.

Let seek := EncodeFactKey r t U64_MAX.

Lemma seek_eq :
  seek = ref_bytes r ++ be_bytes 8 (bnot64 t) ++ be_bytes 8 (bnot64 U64_MAX).
Proof. destruct Hkey as (_ & ? & _ & _ & ?). by apply EncodeFactKey_eq. Qed.

Lemma seek_prefix : take kFactIdentityPrefixBytes seek = ref_bytes r.
Proof.
  rewrite seek_eq. unfold kFactIdentityPrefixBytes.
  rewrite <- (length_ref_bytes r). apply take_app_length.
Qed.

Lemma seek_nonempty : seek <> [].
Proof. rewrite seek_eq. done. Qed.

Lemma forward_events :
  Forall2 entry_of
    (filter (fun e => event_ref e = r /\ event_valid_from e <= t) evs)
    (while_prefix (take kFactIdentityPrefixBytes seek) (Seek seek cf)).
Proof.
  rewrite seek_prefix, seek_eq, forward_block, <- seek_eq by done.
  destruct Hkey as (? & ? & ? & _ & _).
  apply Forall2_filter; [|done]. intros e kv _ _ He.
  rewrite (entry_StartsWith e kv r) by done.
  split; intros [<- ?]; (split; [done|]); unfold seek in *;
    pose proof (entry_at_or_before e kv t He ltac:(done)); tauto.
Qed.

Lemma backward_events :
  Forall2 entry_of
    (rev (filter (fun e => event_ref e = r /\
       (t < event_valid_from e \/
        (t = event_valid_from e /\ event_commit_seq e = U64_MAX))) evs))
    (while_prefix (take kFactIdentityPrefixBytes seek) (SeekForPrev seek cf)).
Proof.
  rewrite seek_prefix, seek_eq, backward_block, <- seek_eq by done.
  destruct Hkey as (? & ? & ? & _ & _).
  rewrite !rev_alt. apply Forall2_reverse.
  apply Forall2_filter; [|done]. intros e kv _ _ He.
  rewrite (entry_StartsWith e kv r) by done.
  split; intros [<- ?]; (split; [done|]); unfold seek in *;
    pose proof (entry_after e kv t He ltac:(done)); tauto.
Qed.

Lemma all_events :
  Forall2 entry_of (filter (fun e => event_ref e = r) evs)
    (while_prefix (ref_bytes r) (Seek (ref_bytes r) cf)).
Proof.
  rewrite <- (app_nil_r (ref_bytes r)) at 2. rewrite forward_block by done.
  destruct Hkey as (? & ? & _). apply Forall2_filter; [|done].
  intros e kv _ _ He. rewrite app_nil_r, (entry_StartsWith e kv r) by done.
  split; [|tauto]. intros <-. split; [done|].
  apply (entry_StartsWith e kv (event_ref e)) in He as [_ He]; [|done..].
  specialize (He eq_refl). apply StartsWith_true in He as [s ->].
  rewrite bytes_compare_antisym.
  pose proof (bytes_compare_prefix (ref_bytes (event_ref e)) s).
  by destruct (bytes_compare (ref_bytes (event_ref e)) _).
Qed.

End blocks.

(** ** The loops on events *)

Lemma read_loop_events snapshot evs entries :
  Forall2 entry_of evs entries ->
  read_loop snapshot entries
  = Ok (present (head (filter (fun e => event_commit_seq e <= snapshot) evs))).
Proof.
  induction 1 as [|e [k v] evs entries He Hf IH]; [done|]. cbn [read_loop].
  pose proof (entry_decode_key _ _ He) as Hk. simpl in Hk. rewrite Hk.
  cbn beta iota delta [mbind StatusOr_bind]. cbn [key_commit_seq key_ref key_valid_from].
  rewrite filter_cons. destruct (Z.ltb_spec snapshot (event_commit_seq e)).
  - rewrite decide_False by lia. apply IH.
  - rewrite decide_True by lia. pose proof (entry_value_size _ _ He) as Hl.
    simpl in Hl. rewrite (proj2 (Z.ltb_ge _ _) Hl).
    pose proof (entry_decode_value _ _ He) as Hv. simpl in Hv. rewrite Hv.
    cbn beta iota delta [mbind StatusOr_bind]. simpl. by case_bool_decide.
Qed.

Lemma newest_first_filter (P : FactEvent -> Prop) `{!forall e, Decision (P e)} evs :
  newest_first evs -> newest_first (filter P evs).
Proof.
  induction 1 as [|e evs Hs IH Hall]; [constructor|]. rewrite filter_cons.
  case_decide; [|done]. constructor; [done|]. rewrite Forall_forall in *.
  intros e' [_ ?]%list_elem_of_filter. auto.
Qed.

Lemma newest_first_head evs e :
  newest_first evs -> head evs = Some e ->
  e ∈ evs /\ forall e', e' ∈ evs -> event_le e' e.
Proof.
  intros Hs. destruct Hs as [|a evs Hs Hall]; [done|]. intros [= ->].
  split; [by left|]. rewrite Forall_forall in Hall.
  intros e' [->|Hin]%elem_of_cons; [apply event_le_spec; lia|].
  specialize (Hall e' Hin). apply event_before_spec in Hall.
  apply event_le_spec. lia.
Qed.

Lemma newest_first_distinct evs : newest_first evs -> distinct_versions evs.
Proof.
  induction 1 as [|e evs Hs IH Hall]; [by intros ? ? ?%not_elem_of_nil|].
  rewrite Forall_forall in Hall.
  intros a b [->|Ha]%elem_of_cons [->|Hb]%elem_of_cons Hv Hc; auto.
  - specialize (Hall b Hb). apply event_before_spec in Hall. lia.
  - specialize (Hall a Ha). apply event_before_spec in Hall. lia.
Qed.

Lemma distinct_versions_same (l k : list FactEvent) :
  (forall e, e ∈ l <-> e ∈ k) -> distinct_versions l -> distinct_versions k.
Proof. intros H Hd a b Ha Hb. apply Hd; by apply H. Qed.

Lemma head_None_nil {A} (l : list A) : head l = None -> l = [].
Proof. by destruct l. Qed.

(** The first visible event of a block is the effective one. *)
Lemma effective_head chain evs limit t :
  newest_first chain -> distinct_versions evs ->
  (forall e, e ∈ chain <-> e ∈ evs /\ event_valid_from e <= t) ->
  head (filter (fun e => event_commit_seq e <= limit) chain)
  = effective evs limit t.
Proof.
  intros Hs Hd Hin.
  assert (forall e, e ∈ filter (fun e => event_commit_seq e <= limit) chain <->
            e ∈ evs /\ applies limit t e = true) as Hf.
  { intros e. rewrite list_elem_of_filter, Hin. unfold applies.
    rewrite andb_true_iff, !Z.leb_le. tauto. }
  apply (newest_first_filter (fun e => event_commit_seq e <= limit)) in Hs.
  destruct (head (filter _ chain)) as [e|] eqn:E.
  - apply newest_first_head in E as [[He Ha]%Hf Hmax]; [|done].
    symmetry. apply effective_unique; [done..|].
    intros e' ? ?. apply Hmax. by apply Hf.
  - apply head_None_nil in E. symmetry. apply effective_None.
    intros e He. apply not_true_iff_false. intros Ha.
    apply (not_elem_of_nil e). rewrite <- E. by apply Hf.
Qed.

Lemma elem_of_history events r e :
  e ∈ history events r <-> e ∈ events /\ event_ref e = r.
Proof. unfold history. rewrite list_elem_of_filter. tauto. Qed.

(** The history of a stored fact in the order of the column family. *)
Lemma history_chain cf evs events r :
  cf_sorted cf -> Forall2 entry_of evs cf -> (forall e, e ∈ evs <-> e ∈ events) ->
  newest_first (filter (fun e => event_ref e = r) evs) /\
  (forall e, e ∈ filter (fun e => event_ref e = r) evs <-> e ∈ history events r).
Proof.
  intros Hs Hf Hin. split.
  - clear Hin. induction Hf as [|e kv evs cf He Hf IH]; [constructor|].
    inversion_clear Hs as [|? ? Hs' Hall]. rewrite filter_cons.
    case_decide as Hr; [|by apply IH]. constructor; [by apply IH|].
    apply Forall_forall. intros e' [Hr' Hin']%list_elem_of_filter.
    apply list_elem_of_lookup in Hin' as [i Hi].
    destruct (Forall2_lookup_l _ _ _ _ _ Hf Hi) as (kv' & Hi' & He').
    apply (entry_before e e' kv kv'); try done; [congruence|].
    rewrite Forall_forall in Hall. apply Hall. by eapply list_elem_of_lookup_2.
  - intros e. rewrite list_elem_of_filter, elem_of_history, Hin. tauto.
Qed.

Lemma history_distinct cf events r :
  represents cf events -> distinct_versions (history events r).
Proof.
  intros H. pose proof H as (Hs & _).
  destruct (represents_events _ _ H) as (evs & Hf & Hin).
  destruct (history_chain cf evs events r Hs Hf Hin) as [Hn He].
  eapply distinct_versions_same; [exact He|]. by apply newest_first_distinct.
Qed.

(** ** Neighborhood loops *)

Lemma forward_loop_found t limit e evs entries :
  event_valid_from e = t ->
  Forall2 entry_of evs entries ->
  Forall (fun e' => event_valid_from e' <= t) evs ->
  forward_loop t limit (Some t) true (Some e) entries
  = Ok (Some e, event_valid_from <$>
          head (filter (fun e' => event_valid_from e' < t)
                  (filter (fun e' => event_commit_seq e' <= limit) evs))).
Proof.
  intros He Hf. induction Hf as [|e' [k v] evs entries He' Hf IH]; intros Hle;
    [done|]. apply Forall_cons in Hle as [Hle Hall]. specialize (IH Hall).
  cbn [forward_loop]. pose proof (entry_decode_key _ _ He') as Hk.
  simpl in Hk. rewrite Hk. cbn beta iota delta [mbind StatusOr_bind].
  cbn [key_commit_seq key_ref key_valid_from]. rewrite filter_cons.
  destruct (Z.ltb_spec limit (event_commit_seq e')).
  - rewrite decide_False by lia. done.
  - rewrite decide_True by lia. rewrite filter_cons.
    destruct (decide (event_valid_from e' < t)).
    + rewrite bool_decide_false by (intros [= ?]; lia).
      pose proof (entry_decode_value _ _ He') as Hv. simpl in Hv. rewrite Hv.
      done.
    + rewrite bool_decide_true by (f_equal; lia). done.
Qed.

Lemma forward_loop_events t limit evs entries :
  Forall2 entry_of evs entries ->
  Forall (fun e' => event_valid_from e' <= t) evs ->
  forward_loop t limit None false None entries
  = Ok (head (filter (fun e' => event_commit_seq e' <= limit) evs),
        event_valid_from <$>
          head (filter (fun e' => event_valid_from e' < t)
                  (filter (fun e' => event_commit_seq e' <= limit) evs))).
Proof.
  intros Hf. induction Hf as [|e' [k v] evs entries He' Hf IH]; intros Hle;
    [done|]. apply Forall_cons in Hle as [Hle Hall]. specialize (IH Hall).
  cbn [forward_loop]. pose proof (entry_decode_key _ _ He') as Hk.
  simpl in Hk. rewrite Hk. cbn beta iota delta [mbind StatusOr_bind].
  cbn [key_commit_seq key_ref key_valid_from]. rewrite filter_cons.
  destruct (Z.ltb_spec limit (event_commit_seq e')).
  - rewrite decide_False by lia. done.
  - rewrite decide_True by lia. rewrite filter_cons.
    rewrite bool_decide_false by done.
    pose proof (entry_decode_value _ _ He') as Hv. simpl in Hv. rewrite Hv.
    cbn beta iota delta [mbind StatusOr_bind].
    destruct (Z.ltb_spec (event_valid_from e') t).
    + by rewrite decide_True by lia.
    + rewrite decide_False by lia.
      replace (event_valid_from e') with t by lia.
      rewrite (forward_loop_found t limit e' evs) by (done || lia). done.
Qed.

Lemma backward_loop_found limit b evs entries :
  Forall2 entry_of evs entries ->
  backward_loop limit (Some b) true entries = Ok (Some b).
Proof.
  induction 1 as [|e' [k v] evs entries He' Hf IH]; [done|].
  cbn [backward_loop]. pose proof (entry_decode_key _ _ He') as Hk.
  simpl in Hk. rewrite Hk. cbn beta iota delta [mbind StatusOr_bind].
  case_bool_decide; [done|done].
Qed.

Lemma backward_loop_events limit b evs entries :
  Forall2 entry_of evs entries ->
  backward_loop limit b false entries
  = Ok (event_valid_from <$>
          head (filter (fun e => event_commit_seq e <= limit) evs)).
Proof.
  intros Hf. revert b. induction Hf as [|e' [k v] evs entries He' Hf IH];
    intros b; [done|].
  cbn [backward_loop]. pose proof (entry_decode_key _ _ He') as Hk.
  simpl in Hk. rewrite Hk. cbn beta iota delta [mbind StatusOr_bind].
  cbn [key_commit_seq key_ref key_valid_from orb]. rewrite filter_cons.
  assert (forall b', (b' = Some (event_valid_from e')) ->
    backward_loop limit b' (event_commit_seq e' <=? limit) entries
    = Ok (event_valid_from <$>
            head (if decide (event_commit_seq e' <= limit)
                  then e' :: filter (fun e => event_commit_seq e <= limit) evs
                  else filter (fun e => event_commit_seq e <= limit) evs))) as K.
  { intros b' ->. destruct (Z.leb_spec (event_commit_seq e') limit).
    - rewrite decide_True by lia. by apply (backward_loop_found _ _ evs).
    - rewrite decide_False by lia. apply IH. }
  case_bool_decide; by apply K.
Qed.

Lemma nearest_before_head chain evs limit t :
  newest_first chain ->
  (forall e, e ∈ chain <-> e ∈ evs /\ event_valid_from e <= t) ->
  nearest_before evs limit t
    (event_valid_from <$>
       head (filter (fun e => event_valid_from e < t)
               (filter (fun e => event_commit_seq e <= limit) chain))).
Proof.
  intros Hs Hin.
  assert (forall e, e ∈ filter (fun e => event_valid_from e < t)
            (filter (fun e => event_commit_seq e <= limit) chain) <->
            e ∈ evs /\ event_commit_seq e <= limit /\ event_valid_from e < t) as Hf.
  { intros e. rewrite !list_elem_of_filter, Hin. intuition lia. }
  apply (newest_first_filter (fun e => event_commit_seq e <= limit)),
    (newest_first_filter (fun e => event_valid_from e < t)) in Hs.
  destruct (head (filter (fun e => event_valid_from e < t) _)) as [e|] eqn:E; simpl.
  - apply newest_first_head in E as [(He & Hc & Hv)%Hf Hmax]; [|done].
    split_and!; [done|eauto|]. intros e' He' Hc' Hv'.
    specialize (Hmax e' (proj2 (Hf e') (conj He' (conj Hc' Hv')))).
    apply event_le_spec in Hmax. lia.
  - apply head_None_nil in E. intros e He Hc.
    destruct (Z.lt_ge_cases (event_valid_from e) t) as [Hv|]; [|done].
    assert (e ∈ ([] : list FactEvent)) as []%not_elem_of_nil.
    rewrite <- E. by apply Hf.
Qed.

Lemma newest_first_last evs e :
  newest_first evs -> last evs = Some e ->
  e ∈ evs /\ forall e', e' ∈ evs -> event_le e e'.
Proof.
  induction 1 as [|a evs Hs IH Hall]; [done|]. destruct evs as [|b evs].
  { intros [= ->]. split; [by left|].
    intros e' ->%list_elem_of_singleton. apply event_le_spec. lia. }
  intros Hl. destruct (IH Hl) as [Hin Hmin]. split; [by right|].
  intros e' [->|He']%elem_of_cons; [|by apply Hmin].
  rewrite Forall_forall in Hall. specialize (Hall e Hin).
  apply event_before_spec in Hall. apply event_le_spec. lia.
Qed.

Lemma head_rev {A} (l : list A) : head (rev l) = last l.
Proof. rewrite <- (rev_involutive l) at 2. by rewrite last_rev. Qed.

Lemma nearest_after_head chain evs limit t :
  limit < U64_MAX -> newest_first chain ->
  (forall e, e ∈ chain <-> e ∈ evs /\
     (t < event_valid_from e \/
      (t = event_valid_from e /\ event_commit_seq e = U64_MAX))) ->
  nearest_after evs limit t
    (event_valid_from <$>
       head (filter (fun e => event_commit_seq e <= limit) (rev chain))).
Proof.
  intros Hlimit Hs Hin. rewrite filter_rev, head_rev.
  assert (forall e, e ∈ filter (fun e => event_commit_seq e <= limit) chain <->
            e ∈ evs /\ event_commit_seq e <= limit /\ t < event_valid_from e) as Hf.
  { intros e. rewrite !list_elem_of_filter, Hin. intuition lia. }
  apply (newest_first_filter (fun e => event_commit_seq e <= limit)) in Hs.
  destruct (last _) as [e|] eqn:E; simpl.
  - apply newest_first_last in E as [(He & Hc & Hv)%Hf Hmin]; [|done].
    split_and!; [done|eauto|]. intros e' He' Hc' Hv'.
    specialize (Hmin e' (proj2 (Hf e') (conj He' (conj Hc' Hv')))).
    apply event_le_spec in Hmin. lia.
  - apply last_None in E. intros e He Hc.
    destruct (Z.lt_ge_cases t (event_valid_from e)) as [Hv|]; [|lia].
    assert (e ∈ ([] : list FactEvent)) as []%not_elem_of_nil.
    rewrite <- E. by apply Hf.
Qed.

(** ** Properties of the readers *)

Section readers.

Context (cf : column_family) (events : list FactEvent) (r : FactRef) (t : Z).
Hypothesis Hrep : represents cf events.
Hypothesis Hkey : key_ok r t U64_MAX.

(** The block of versions at or before a valid time. *)
Lemma forward_chain :
  exists chain,
    Forall2 entry_of chain
      (while_prefix
         (take kFactIdentityPrefixBytes (EncodeFactKey r t U64_MAX))
         (Seek (EncodeFactKey r t U64_MAX) cf)) /\
    newest_first chain /\
    forall e, e ∈ chain <-> e ∈ history events r /\ event_valid_from e <= t.
Proof.
  pose proof Hrep as (Hs & _).
  destruct (represents_events _ _ Hrep) as (evs & Hf & Hin).
  destruct (history_chain cf evs events r Hs Hf Hin) as [Hn He].
  exists (filter (fun e => event_valid_from e <= t)
            (filter (fun e => event_ref e = r) evs)). split_and!.
  - rewrite list_filter_filter.
    pose proof (forward_events cf evs r t Hs Hf Hkey) as H.
    erewrite list_filter_iff; [exact H|]. intros. simpl. tauto.
  - by apply newest_first_filter.
  - intros e. rewrite list_elem_of_filter, He. tauto.
Qed.

Lemma backward_chain :
  exists chain,
    Forall2 entry_of (rev chain)
      (while_prefix
         (take kFactIdentityPrefixBytes (EncodeFactKey r t U64_MAX))
         (SeekForPrev (EncodeFactKey r t U64_MAX) cf)) /\
    newest_first chain /\
    forall e, e ∈ chain <-> e ∈ history events r /\
      (t < event_valid_from e \/
       (t = event_valid_from e /\ event_commit_seq e = U64_MAX)).
Proof.
  pose proof Hrep as (Hs & _).
  destruct (represents_events _ _ Hrep) as (evs & Hf & Hin).
  destruct (history_chain cf evs events r Hs Hf Hin) as [Hn He].
  exists (filter (fun e => t < event_valid_from e \/
       (t = event_valid_from e /\ event_commit_seq e = U64_MAX))
            (filter (fun e => event_ref e = r) evs)). split_and!.
  - rewrite list_filter_filter.
    pose proof (backward_events cf evs r t Hs Hf Hkey) as H.
    erewrite list_filter_iff; [exact H|]. intros. simpl. tauto.
  - by apply newest_first_filter.
  - intros e. rewrite list_elem_of_filter, He. tauto.
Qed.

End readers.

Lemma Read_events snapshot events r t :
  represents (snapshot_facts snapshot) events -> key_ok r t U64_MAX ->
  snapshot_owned snapshot = true ->
  Read snapshot r t
  = Ok (present (effective (history events r) (snapshot_commit_seq snapshot) t)).
Proof.
  intros Hrep Hkey Howned. unfold Read. rewrite Howned. cbn [negb].
  pose proof Hkey as (_ & Hv & _). rewrite Hv.
  cbn beta iota delta [check mbind StatusOr_bind].
  rewrite bool_decide_false by by apply seek_nonempty.
  destruct (forward_chain _ _ r t Hrep Hkey) as (chain & Hf & Hn & Hin).
  rewrite (read_loop_events _ chain) by done.
  rewrite (effective_head chain (history events r) _ t); try done.
  by eapply history_distinct.
Qed.

(** ** The current chain *)

Lemma identity_prefix_eq r :
  EncodeFactIdentityPrefix (ref_part_id r) (ref_family r) (ref_property_id r)
    (Some (ref_entity_id r)) = ref_bytes r.
Proof.
  unfold EncodeFactIdentityPrefix, AppendU16, AppendU32, AppendU64, ref_bytes.
  by rewrite <- !app_assoc.
Qed.

Lemma scan_intervals_events prev evs entries :
  Forall2 entry_of evs entries ->
  scan_intervals_loop prev entries = Ok (intervals_of prev evs).
Proof.
  intros H. revert prev. induction H as [|e [k v] evs entries He Hf IH];
    intros prev; [done|]. cbn [scan_intervals_loop intervals_of].
  pose proof (entry_decode_key _ _ He) as Hk. simpl in Hk. rewrite Hk.
  cbn beta iota delta [mbind StatusOr_bind key_valid_from key_commit_seq].
  case_bool_decide; [by rewrite IH|]. by rewrite IH.
Qed.

Lemma scan_chain cf events r t :
  represents cf events -> key_ok r t U64_MAX ->
  exists chain, newest_first chain /\ (forall e, e ∈ chain <-> e ∈ history events r) /\
    ScanCurrentFactIntervals cf r = Ok (intervals_of None chain).
Proof.
  intros Hrep Hkey. pose proof Hrep as (Hs & _).
  destruct (represents_events _ _ Hrep) as (evs & Hf & Hin).
  destruct (history_chain cf evs events r Hs Hf Hin) as [Hn He].
  exists (filter (fun e => event_ref e = r) evs). split_and!; [done|done|].
  unfold ScanCurrentFactIntervals. rewrite identity_prefix_eq.
  apply scan_intervals_events. by eapply all_events.
Qed.

Lemma represents_encoded events :
  cf_sorted (encoded_cf events) ->
  Forall (fun e => event_typed e /\ exists v, EncodeFactValue e = Ok v) events ->
  represents (encoded_cf events) events.
Proof.
  intros Hs H. assert (Forall2 entry_of events (encoded_cf events)) as Hf.
  { unfold encoded_cf. rewrite Forall2_fmap_r.
    clear Hs. induction H as [|e l [? [v Hv]] _ IH]; constructor; [|done].
    split_and!; [done..|]. simpl. by rewrite Hv. }
  split_and!; [done| |].
  - intros kv [i Hi]%list_elem_of_lookup.
    destruct (Forall2_lookup_r _ _ _ _ _ Hf Hi) as (e & He & ?).
    exists e. split; [by eapply list_elem_of_lookup_2|done].
  - intros e [i Hi]%list_elem_of_lookup.
    destruct (Forall2_lookup_l _ _ _ _ _ Hf Hi) as (kv & He & ?).
    exists kv. split; [by eapply list_elem_of_lookup_2|done].
Qed.

(** Discharges the two premises for concrete events. *)
Ltac represents_concrete :=
  apply represents_encoded;
  [repeat constructor; vm_compute; reflexivity
  |repeat constructor; try (unfold uint, sint; simpl; lia);
   eexists; vm_compute; reflexivity].

Lemma sample_represents : represents sample_cf sample_events.
Proof. represents_concrete. Qed.

Lemma ReadTemporalNeighborhood_OK might_contain cf events r t limit :
  represents cf events -> filter_sound might_contain events ->
  key_ok r t U64_MAX -> limit < U64_MAX ->
  exists n, ReadTemporalNeighborhood might_contain cf r t limit = Ok n /\
    observed n = effective (history events r) limit t /\
    nearest_before (history events r) limit t (predecessor n) /\
    nearest_after (history events r) limit t (successor n).
Proof.
  intros Hrep Hflt Hkey Hlimit. unfold ReadTemporalNeighborhood.
  pose proof Hkey as (_ & Hv & _). rewrite Hv.
  cbn beta iota delta [check mbind StatusOr_bind].
  destruct (match might_contain with Some f => negb (f r) | None => false end)
    eqn:Hskip.
  { eexists. split; [done|]. simpl.
    assert (forall e, ~ e ∈ history events r) as Hnone.
    { intros e [He <-]%elem_of_history. destruct might_contain as [f|]; [|done].
      by rewrite (Hflt f e eq_refl He) in Hskip. }
    split_and!.
    - symmetry. apply effective_None. intros e []%Hnone.
    - intros e []%Hnone.
    - intros e []%Hnone. }
  rewrite bool_decide_false by by apply seek_nonempty.
  destruct (forward_chain _ _ r t Hrep Hkey) as (chain & Hf & Hn & Hin).
  destruct (backward_chain _ _ r t Hrep Hkey) as (back & Hfb & Hnb & Hinb).
  rewrite (forward_loop_events t limit chain); [|done|].
  2: { apply Forall_forall. intros e [_ ?]%Hin. done. }
  cbn beta iota delta [mbind StatusOr_bind].
  rewrite (backward_loop_events limit None (rev back)) by done.
  cbn beta iota delta [mbind StatusOr_bind]. eexists. split; [done|]. simpl.
  split_and!.
  - apply effective_head; [done| |done]. by eapply history_distinct.
  - by apply nearest_before_head.
  - by apply nearest_after_head.
Qed.

(** The latest identity fact of an edge, unless it is a delete. *)
Lemma ReadLatestEdgeIdentity_OK cf events edge :
  represents cf events ->
  key_ok (mkFactRef (edge_home_part_id edge) kEdgeIdentity 0 (edge_ref_id edge)) 0
    U64_MAX ->
  ReadLatestEdgeIdentity cf edge =
  match present (latest_identity events edge) with
  | None => Ok None
  | Some e =>
      match event_edge_identity e with
      | Some i => Ok (Some i)
      | None => Fail (Corruption "edge identity"
                        "identity fact lacks identity payload")
      end
  end.
Proof.
  intros Hrep Hkey. unfold ReadLatestEdgeIdentity, latest_identity.
  set (r := mkFactRef _ _ _ _) in *.
  rewrite bool_decide_false by by apply seek_nonempty.
  destruct (forward_chain _ _ r 0 Hrep Hkey) as (chain & Hf & Hn & Hin).
  rewrite <- (effective_head chain (history events r) U64_MAX 0);
    [|done|by eapply history_distinct|done].
  rewrite filter_all.
  2: { apply Forall_forall. intros e [He _]%Hin. apply elem_of_history in He as [He _].
       destruct Hrep as (_ & _ & H2). destruct (H2 e He) as (kv & _ & Ht & _).
       destruct Ht as (? & ? & Hc & _). unfold uint, U64_MAX in *. lia. }
  destruct Hf as [|e [k v] chain entries He Hf]; [done|]. cbn [head].
  pose proof (entry_decode_key _ _ He) as Hk. simpl in Hk. rewrite Hk.
  pose proof (entry_decode_value _ _ He) as Hv. simpl in Hv.
  cbn beta iota delta [mbind StatusOr_bind key_ref key_valid_from key_commit_seq].
  rewrite Hv. cbn beta iota delta [mbind StatusOr_bind present].
  by case_bool_decide.
Qed.

(** C19: a point read of a fact at a valid time through a snapshot returns the
    effective event of the stored history, the newest correction of the latest
    boundary at or before that time among the commits of the snapshot, or
    nothing when there is none or it is a delete. *)
Theorem Read_effective snapshot events r t :
  represents (snapshot_facts snapshot) events -> key_ok r t U64_MAX ->
  snapshot_owned snapshot = true ->
  Read snapshot r t
  = Ok (present (effective (history events r) (snapshot_commit_seq snapshot) t)).
Proof. apply Read_events. Qed.

Lemma Read_effective_witness :
  Read (mkStoreSnapshot true 5 sample_cf) sample_ref 15
  = Ok (Some (sample_version 10 4 (Some (VInt32 7)))).
Proof.
  apply (Read_effective (mkStoreSnapshot true 5 sample_cf) sample_events).
  - exact sample_represents.
  - unfold key_ok, ref_typed, uint. split_and!; done.
  - reflexivity.
Defined.

(** The point read and the history reader agree: a read returns an event
    with a given value exactly when the present state materialized from the
    resolved history of the fact holds that value at that time. *)
Theorem Read_matches_history snapshot events r t bs v :
  represents (snapshot_facts snapshot) events -> key_ok r t U64_MAX ->
  snapshot_owned snapshot = true ->
  ResolveCorrectedBoundaries (history events r) (snapshot_commit_seq snapshot)
  = Ok bs ->
  (exists e, Read snapshot r t = Ok (Some e) /\ same_value (event_value e) v) <->
  state_holds (MaterializePresentState bs) t v.
Proof.
  intros Hrep Hkey Howned Hbs. rewrite (Read_events _ events) by done.
  pose proof (history_distinct _ _ r Hrep) as Hd.
  rewrite MaterializePresentState_at by by eapply Resolve_sorted.
  rewrite (Resolve_boundary_at _ _ _ t Hd Hbs).
  pose proof (proj1 (ResolveCorrectedBoundaries_Ok _ _ _) Hbs) as (_ & Hval & _).
  destruct (effective _ _ t) as [e|] eqn:E; simpl; [|naive_solver].
  apply effective_Some in E as (He & Ha & _).
  assert (FactEvent_Validate e = StatusOK) as Hve.
  { rewrite Forall_forall in Hval. apply Hval, elem_of_visible. split; [done|].
    unfold applies in Ha. bool_to_prop. done. }
  apply FactEvent_Validate_OK in Hve as (_ & Hm & _).
  apply ValidateMutation_OK in Hm as (_ & Ho & _).
  unfold present. destruct (event_operation e) eqn:Hop; [..|done].
  - rewrite bool_decide_false by done. split.
    + intros (e' & [= <-] & ?). by exists (ToBoundary e).
    + intros (b & [= <-] & _ & ?). by exists e.
  - rewrite bool_decide_true by done. split.
    + by intros (e' & ? & _).
    + intros (b & [= <-] & K & _). simpl in K. congruence.
Qed.

Lemma Read_matches_history_witness :
  state_holds
    (MaterializePresentState
       [ToBoundary (sample_version 10 4 (Some (VInt32 7)))]) 15
    (Some (VInt32 7)).
Proof.
  apply (Read_matches_history (mkStoreSnapshot true 5 sample_cf) sample_events
           sample_ref 15).
  - exact sample_represents.
  - unfold key_ok, ref_typed, uint. split_and!; done.
  - reflexivity.
  - vm_compute. reflexivity.
  - exists (sample_version 10 4 (Some (VInt32 7))).
    split; [vm_compute; reflexivity|by left].
Defined.

(** The neighborhood of a valid time is the effective event with the nearest
    visible boundary before it and the nearest visible boundary after it; an
    identity filter without false negatives does not change it. *)
Theorem ReadTemporalNeighborhood_spec might_contain cf events r t limit :
  represents cf events -> filter_sound might_contain events ->
  key_ok r t U64_MAX -> limit < U64_MAX ->
  exists n, ReadTemporalNeighborhood might_contain cf r t limit = Ok n /\
    observed n = effective (history events r) limit t /\
    nearest_before (history events r) limit t (predecessor n) /\
    nearest_after (history events r) limit t (successor n).
Proof. apply ReadTemporalNeighborhood_OK. Qed.

Lemma ReadTemporalNeighborhood_spec_witness :
  exists n, ReadTemporalNeighborhood (Some (fun _ => true)) sample_cf sample_ref
              15 6 = Ok n /\
    observed n = effective (history sample_events sample_ref) 6 15 /\
    nearest_before (history sample_events sample_ref) 6 15 (predecessor n) /\
    nearest_after (history sample_events sample_ref) 6 15 (successor n).
Proof.
  apply (ReadTemporalNeighborhood_spec _ sample_cf sample_events).
  - exact sample_represents.
  - by intros f e [= <-] _.
  - unfold key_ok, ref_typed, uint. split_and!; done.
  - unfold U64_MAX. lia.
Defined.
