(* ===== verification/Conflict.v ===== *)
(** * Conflict: validation of a commit against the store

    Models the validations that [CommitDirect] and [CommitGrouped] of
    [src/storage/rocks/rocks_adapter.cc] run under the publisher lock:
    [ValidateSnapshotWriteDependencies] with the cached and the scanned fact
    intervals, [ValidateStrictReadDependencies] and
    [ValidateEdgeIdentitiesForCommit].  A validation may touch and prime the
    validation cache, so it returns the store with its status.  The three derived
    structures are used through their contract in Accelerators. *)

From S2P Require Import Prelude Status Crc32c Wire Value Fact FactCodec CommitBatch.
From S2P Require Import GroupCommit Bloom RecentWrites ValidationCache Accelerators.
From S2P Require Import Temporal FactStore.

(** The members of [FactStoreImpl] that validation reads. *)
Record FactStoreImpl := mkFactStoreImpl {
  facts_cf : column_family;
  visible_seq : Z;
  recent_fact_write_index : option RecentFactWriteIndex;
  identity_history : option FactIdentityHistory;
  version_validation_cache : option VersionValidationCache
}.

Definition with_cache (c : option VersionValidationCache) (st : FactStoreImpl)
  : FactStoreImpl :=
  mkFactStoreImpl (facts_cf st) (visible_seq st) (recent_fact_write_index st)
    (identity_history st) c.

(** ** Fact intervals *)

(** [intervals[i].valid_to = intervals[i - 1].valid_from]. *)
Fixpoint link_intervals (previous : option Z) (chain : Chain)
  : list CurrentFactInterval :=
  match chain with
  | [] => []
  | b :: rest =>
      mkCurrentFactInterval (vb_valid_from b) previous (vb_commit_seq b)
      :: link_intervals (Some (vb_valid_from b)) rest
  end.

Definition CachedFactIntervals (st : FactStoreImpl) (ref : FactRef)
  : option (list CurrentFactInterval) * FactStoreImpl :=
  match version_validation_cache st with
  | None => (None, st)
  | Some c =>
      let '(cached, c') := Lookup ref c in
      (link_intervals None <$> cached, with_cache (Some c') st)
  end.

(** The end of [ScanCurrentFactIntervals]: what was scanned primes the cache. *)
Definition scan_and_prime (st : FactStoreImpl) (ref : FactRef)
    (observed_publish_generation : Z)
  : StatusOr (list CurrentFactInterval) * FactStoreImpl :=
  match ScanCurrentFactIntervals (facts_cf st) ref with
  | Fail s => (Fail s, st)
  | Ok intervals =>
      (Ok intervals,
       match version_validation_cache st with
       | None => st
       | Some c =>
           let boundaries :=
             (fun i => mkValidationBoundary (cfi_valid_from i) (cfi_commit_seq i))
               <$> intervals in
           with_cache (Some (Prime ref boundaries observed_publish_generation c)) st
       end)
  end.

Definition observed_generation (st : FactStoreImpl) : Z :=
  match version_validation_cache st with
  | Some c => publish_generation_ c
  | None => 0
  end.

(** The intervals of a fact: cached, or scanned and primed. *)
Definition fact_intervals (st : FactStoreImpl) (ref : FactRef) (observed : Z)
  : StatusOr (list CurrentFactInterval) * FactStoreImpl :=
  let '(cached, st) := CachedFactIntervals st ref in
  match cached with
  | Some intervals => (Ok intervals, st)
  | None => scan_and_prime st ref observed
  end.

(** [CurrentFactIntervals], which captures the generation itself. *)
Definition CurrentFactIntervals (st : FactStoreImpl) (ref : FactRef)
  : StatusOr (list CurrentFactInterval) * FactStoreImpl :=
  let '(cached, st) := CachedFactIntervals st ref in
  match cached with
  | Some intervals => (Ok intervals, st)
  | None => scan_and_prime st ref (observed_generation st)
  end.

(** ** Snapshot write dependencies *)

Definition exceeds_visible : Status :=
  InvalidArgument "commit" "snapshot dependency exceeds visible watermark".

Definition write_conflict : Status :=
  Conflict "commit" "snapshot write conflicts with a later overlapping event".

(** The body of the inner loop: [false] where the code continues. *)
Definition interval_conflicts (d : SnapshotWriteDependency)
    (interval : CurrentFactInterval) : bool :=
  if cfi_commit_seq interval <=? swd_snapshot_seq d then false
  else if cfi_valid_from interval <? swd_valid_from d then
    match cfi_valid_to interval with
    | None => false
    | Some valid_to => negb (valid_to <=? swd_valid_from d)
    end
  else
    match swd_successor d with
    | Some s => negb (s <=? cfi_valid_from interval)
    | None => true
    end.

(** The first loop: the dependencies that no accelerator clears. *)
Fixpoint select_pending (st : FactStoreImpl)
    (dependencies : list SnapshotWriteDependency)
  : StatusOr (list SnapshotWriteDependency) :=
  match dependencies with
  | [] => Ok []
  | d :: rest =>
      if visible_seq st <? swd_snapshot_seq d then Fail exceeds_visible
      else
        let unchanged :=
          match recent_fact_write_index st with
          | Some index => CanProveUnchanged index (swd_ref d) (swd_snapshot_seq d)
          | None => false
          end in
        let never_written :=
          match identity_history st with
          | Some h => negb (history_MightContain h (swd_ref d))
          | None => false
          end in
        pending ← select_pending st rest;
        Ok (if unchanged || never_written then pending else d :: pending)
  end.

(** [ref_less]; [std::sort] leaves the order of equal references open, and
    [check_pending_ok] with [sort_pending_perm] shows that it does not matter. *)
Definition ref_le (a b : SnapshotWriteDependency) : Prop :=
  less (IdentityOf (swd_ref b)) (IdentityOf (swd_ref a)) = false.

#[export] Instance ref_le_dec : RelDecision ref_le.
Proof. intros a b. unfold ref_le. apply _. Defined.

Definition sort_pending (pending : list SnapshotWriteDependency)
  : list SnapshotWriteDependency := merge_sort ref_le pending.

(** The second loop: a new reference starts a group and fetches its intervals,
    the dependencies of the group are checked against them. *)
Fixpoint check_pending (observed : Z)
    (group : option (FactRef * list CurrentFactInterval))
    (pending : list SnapshotWriteDependency) (st : FactStoreImpl)
  : Status * FactStoreImpl :=
  match pending with
  | [] => (StatusOK, st)
  | d :: rest =>
      let check intervals st :=
        if existsb (interval_conflicts d) intervals then (write_conflict, st)
        else check_pending observed (Some (swd_ref d, intervals)) rest st in
      let fetch :=
        match fact_intervals st (swd_ref d) observed with
        | (Fail s, st) => (s, st)
        | (Ok intervals, st) => check intervals st
        end in
      match group with
      | Some (ref, intervals) =>
          if bool_decide (swd_ref d = ref) then check intervals st else fetch
      | None => fetch
      end
  end.

Definition ValidateSnapshotWriteDependencies (st : FactStoreImpl)
    (dependencies : list SnapshotWriteDependency) : Status * FactStoreImpl :=
  match select_pending st dependencies with
  | Fail s => (s, st)
  | Ok pending =>
      check_pending (observed_generation st) None (sort_pending pending) st
  end.

(** ** Strict reads *)

Definition SameFactEvent (l r : FactEvent) : bool :=
  bool_decide (event_ref l = event_ref r)
  && (event_valid_from l =? event_valid_from r)
  && (event_commit_seq l =? event_commit_seq r)
  && bool_decide (event_operation l = event_operation r)
  && (event_schema_epoch l =? event_schema_epoch r)
  && option_Value_eqb (event_value l) (event_value r).

(** The overload for [std::optional]. *)
Definition SameOptFactEvent (l r : option FactEvent) : bool :=
  match l, r with
  | Some l, Some r => SameFactEvent l r
  | None, None => true
  | _, _ => false
  end.

(** [StrictReadIdentity] has the three fields of [TemporalNeighborhood]. *)
Definition SameStrictReadIdentity (l r : TemporalNeighborhood) : bool :=
  SameOptFactEvent (observed l) (observed r)
  && bool_decide (predecessor l = predecessor r)
  && bool_decide (successor l = successor r).

Definition MatchesStrictReadDependency (identity : TemporalNeighborhood)
    (d : StrictReadDependency) : bool :=
  SameOptFactEvent (observed identity) (srd_observed_event d)
  && bool_decide (predecessor identity = srd_predecessor d)
  && bool_decide (successor identity = srd_successor d).

Definition CurrentStrictReadIdentity (st : FactStoreImpl) (ref : FactRef)
    (valid_time commit_limit : Z) : StatusOr TemporalNeighborhood :=
  ReadTemporalNeighborhood (history_MightContain <$> identity_history st)
    (facts_cf st) ref valid_time commit_limit.

Definition strict_exceeds_visible : Status :=
  InvalidArgument "commit" "strict dependency exceeds visible watermark".
Definition strict_mismatch : Status :=
  Conflict "commit" "strict read identity does not match its snapshot".
Definition strict_changed : Status :=
  Conflict "commit" "strict read was changed after its snapshot".

Definition validate_strict_read (st : FactStoreImpl) (d : StrictReadDependency)
  : StatusOr unit :=
  if visible_seq st <? srd_snapshot_seq d then Fail strict_exceeds_visible
  else
    at_snapshot ← CurrentStrictReadIdentity st (srd_ref d) (srd_valid_time d)
                    (srd_snapshot_seq d);
    if negb (MatchesStrictReadDependency at_snapshot d) then Fail strict_mismatch
    else
      current ← CurrentStrictReadIdentity st (srd_ref d) (srd_valid_time d)
                  (visible_seq st);
      if negb (SameStrictReadIdentity at_snapshot current) then Fail strict_changed
      else Ok tt.

Definition ValidateStrictReadDependencies (st : FactStoreImpl)
    (dependencies : list StrictReadDependency) : Status :=
  to_status (loop (fun _ d => validate_strict_read st d) tt dependencies).

(** ** Edge identities *)

Definition identity_required : Status :=
  InvalidArgument "commit" "first edge assertion requires identity".
Definition identity_differs : Status :=
  IdentityConflict "commit" "edge ID has a different identity".

Definition edge_of (m : PendingFactMutation) : EdgeRef :=
  mkEdgeRef (ref_part_id (mutation_ref m)) (ref_entity_id (mutation_ref m)).

Definition validate_assertion (st : FactStoreImpl) (b : StoreCommitBatch)
    (m : PendingFactMutation) : StatusOr unit :=
  if negb (bool_decide (ref_family (mutation_ref m) = kEdgeState))
     || negb (bool_decide (mutation_operation m = kPut)) then Ok tt
  else
    existing ← ReadLatestEdgeIdentity (facts_cf st) (edge_of m);
    if bool_decide (existing = None)
       && negb (existsb (fun i => (home_part_id i =? ref_part_id (mutation_ref m))
                                  && (edge_id i =? ref_entity_id (mutation_ref m)))
                  (edge_identities b))
    then Fail identity_required else Ok tt.

Definition validate_identity (st : FactStoreImpl) (i : EdgeIdentity)
  : StatusOr unit :=
  existing ← ReadLatestEdgeIdentity (facts_cf st) (edge_ref i);
  match existing with
  | Some e => if bool_decide (e = i) then Ok tt else Fail identity_differs
  | None => Ok tt
  end.

Definition ValidateEdgeIdentitiesForCommit (st : FactStoreImpl)
    (b : StoreCommitBatch) : Status :=
  to_status
    (_ ← loop (fun _ m => validate_assertion st b m) tt (mutations b);
     loop (fun _ i => validate_identity st i) tt (edge_identities b)).

(** ** Specification *)

(** The store as the write path keeps it: the column family stores the events,
    all of them visible, and the derived structures reflect them. *)
Definition store_ok (events : list FactEvent) (st : FactStoreImpl) : Prop :=
  represents (facts_cf st) events /\
  (forall e, e ∈ events -> event_commit_seq e <= visible_seq st) /\
  reflects_opt events (recent_fact_write_index st) /\
  reflects_opt events (identity_history st) /\
  reflects_opt events (version_validation_cache st).

(** The newest commit at a boundary. *)
Definition newest_at (events : list FactEvent) (v s : Z) : Prop :=
  (exists e, e ∈ events /\ event_valid_from e = v /\ event_commit_seq e = s) /\
  forall e, e ∈ events -> event_valid_from e = v -> event_commit_seq e <= s.

(** The boundaries of a chain listed from the newest version down. *)
Fixpoint boundaries_of (previous : option Z) (chain : list FactEvent) : Chain :=
  match chain with
  | [] => []
  | e :: rest =>
      if bool_decide (previous = Some (event_valid_from e)) then
        boundaries_of previous rest
      else mkValidationBoundary (event_valid_from e) (event_commit_seq e)
           :: boundaries_of (Some (event_valid_from e)) rest
  end.

(** A stored event overlaps the interval a write observed: it was committed
    after the snapshot, and either its boundary lies in the interval from the
    written valid time to the captured successor, or it is the version in effect
    just before the written time and is bounded by a later boundary. *)
Definition overlaps (chain : list FactEvent) (d : SnapshotWriteDependency)
    (e : FactEvent) : Prop :=
  swd_snapshot_seq d < event_commit_seq e /\
  ((swd_valid_from d <= event_valid_from e /\
    forall s, swd_successor d = Some s -> event_valid_from e < s) \/
   (event_valid_from e < swd_valid_from d /\
    (exists n, n ∈ chain /\ swd_valid_from d < event_valid_from n) /\
    forall n, n ∈ chain -> event_valid_from e < event_valid_from n ->
      swd_valid_from d < event_valid_from n)).

Definition conflicting (events : list FactEvent) (d : SnapshotWriteDependency)
  : Prop :=
  exists e, e ∈ history events (swd_ref d) /\
            overlaps (history events (swd_ref d)) d e.

(** A stored event ends exactly where a write begins: it was committed after the
    snapshot and is the version in effect just before the written time, at which the next
    boundary lies. *)
Definition touching (events : list FactEvent) (d : SnapshotWriteDependency) : Prop :=
  exists e n : FactEvent, e ∈ history events (swd_ref d) /\ n ∈ history events (swd_ref d) /\
    swd_snapshot_seq d < event_commit_seq e /\
    event_valid_from e < swd_valid_from d /\ event_valid_from n = swd_valid_from d /\
    forall n', n' ∈ history events (swd_ref d) -> event_valid_from e < event_valid_from n' ->
      swd_valid_from d <= event_valid_from n'.

(** The result of checking pending dependencies: only the cache changes. *)
Definition pending_verdict (events : list FactEvent)
    (pending : list SnapshotWriteDependency) (st : FactStoreImpl)
    (result : Status * FactStoreImpl) : Prop :=
  exists c, store_ok events (with_cache c st) /\
    ((result = (write_conflict, with_cache c st) /\
      exists d, d ∈ pending /\ conflicting events d) \/
     (result = (StatusOK, with_cache c st) /\
      forall d, d ∈ pending -> ~ conflicting events d)).

(** The verdict on a list of dependencies, by the stored events alone. *)
Inductive write_verdict (events : list FactEvent) (visible : Z)
    (deps : list SnapshotWriteDependency) : Status -> Prop :=
| verdict_exceeds d :
    d ∈ deps -> visible < swd_snapshot_seq d ->
    write_verdict events visible deps exceeds_visible
| verdict_conflict d :
    (forall d, d ∈ deps -> swd_snapshot_seq d <= visible) ->
    d ∈ deps -> conflicting events d ->
    write_verdict events visible deps write_conflict
| verdict_ok :
    (forall d, d ∈ deps -> swd_snapshot_seq d <= visible) ->
    (forall d, d ∈ deps -> ~ conflicting events d) ->
    write_verdict events visible deps StatusOK.

Definition dependency_ok (d : SnapshotWriteDependency) : Prop :=
  key_ok (swd_ref d) (swd_valid_from d) U64_MAX /\ 0 <= swd_snapshot_seq d.

(** What a strict read sees at a commit sequence. *)
Definition strict_view (events : list FactEvent) (d : StrictReadDependency)
    (limit : Z) (n : TemporalNeighborhood) : Prop :=
  let chain := history events (srd_ref d) in
  observed n = effective chain limit (srd_valid_time d) /\
  nearest_before chain limit (srd_valid_time d) (predecessor n) /\
  nearest_after chain limit (srd_valid_time d) (successor n).

(** The read was recorded as it stands in its snapshot and stands unchanged; the
    observed value equals itself, which a NaN does not. *)
Definition strict_read_holds (events : list FactEvent) (visible : Z)
    (d : StrictReadDependency) : Prop :=
  srd_snapshot_seq d <= visible /\
  exists n, strict_view events d (srd_snapshot_seq d) n /\
    strict_view events d visible n /\
    MatchesStrictReadDependency n d = true /\
    SameOptFactEvent (observed n) (observed n) = true.

Definition strict_read_ok (d : StrictReadDependency) : Prop :=
  key_ok (srd_ref d) (srd_valid_time d) U64_MAX.

Definition edge_key_ok (edge : EdgeRef) : Prop :=
  uint 32 (edge_home_part_id edge) /\ uint 64 (edge_ref_id edge) /\
  edge_ref_id edge <> 0.

(** The identity an edge has in the store. *)
Definition stored_identity (events : list FactEvent) (edge : EdgeRef)
  : option EdgeIdentity :=
  e ← present (latest_identity events edge); event_edge_identity e.

(** What the edge identities of a batch need of the store. *)
Definition edges_hold (events : list FactEvent) (b : StoreCommitBatch) : Prop :=
  (forall m, m ∈ mutations b -> ref_family (mutation_ref m) = kEdgeState ->
     mutation_operation m = kPut ->
     is_Some (stored_identity events (edge_of m)) \/
     exists i, i ∈ edge_identities b /\ edge_ref i = edge_of m) /\
  (forall i, i ∈ edge_identities b ->
     stored_identity events (edge_ref i) = None \/
     stored_identity events (edge_ref i) = Some i).

Definition edge_batch_ok (b : StoreCommitBatch) : Prop :=
  (forall m, m ∈ mutations b -> edge_key_ok (edge_of m)) /\
  (forall i, i ∈ edge_identities b -> edge_key_ok (edge_ref i)).

(** The sample store with all its derived structures. *)
Definition sample_store : FactStoreImpl :=
  mkFactStoreImpl sample_cf 6 (Some (new_index 40 64 4096 6 16))
    (Some (publish_all (new_history 64) (event_ref <$> sample_events)))
    (Some (new_cache 200 1000)).

(** A store with one version whose value is a NaN. *)
Definition nan_events : list FactEvent :=
  [sample_version 10 4 (Some (VFloat64 0x7ff8000000000000))].

Definition nan_store : FactStoreImpl :=
  mkFactStoreImpl (encoded_cf nan_events) 6 None None None.

(** ** Chains of boundaries *)

Abbreviation descending := (StronglySorted (fun a b : ValidationBoundary =>
  vb_valid_from b < vb_valid_from a)).

Lemma intervals_link prev chain :
  intervals_of prev chain = link_intervals prev (boundaries_of prev chain).
Proof.
  revert prev. induction chain as [|e chain IH]; intros prev; [done|]. cbn.
  case_bool_decide; [done|]. cbn. by rewrite IH.
Qed.

Lemma boundaries_below prev p chain :
  newest_first chain -> prev = Some p ->
  (forall e, e ∈ chain -> event_valid_from e <= p) ->
  Forall (fun b => vb_valid_from b < p) (boundaries_of prev chain).
Proof.
  intros Hs. revert prev p. induction Hs as [|e chain Hs IH Hall];
    intros prev p -> Hp; [constructor|]. cbn.
  case_bool_decide as E; [apply (IH _ p); [done|set_solver]|].
  assert (event_valid_from e < p) as He.
  { specialize (Hp e ltac:(by left)). assert (p <> event_valid_from e) by congruence.
    lia. }
  constructor; [done|].
  eapply Forall_impl; [apply (IH _ (event_valid_from e)); [done|]|cbn; intros; lia].
  intros e' Hin. rewrite Forall_forall in Hall.
  specialize (Hall e' Hin). apply event_before_spec in Hall. lia.
Qed.

Lemma boundaries_descending prev chain :
  newest_first chain -> descending (boundaries_of prev chain).
Proof.
  intros Hs. revert prev. induction Hs as [|e chain Hs IH Hall]; intros prev;
    [constructor|]. cbn. case_bool_decide; [done|]. constructor; [done|].
  apply boundaries_below; [done|done|]. intros e' Hin. rewrite Forall_forall in Hall.
  specialize (Hall e' Hin). apply event_before_spec in Hall. cbn [vb_valid_from]. lia.
Qed.

(** A chain lists at each of its valid times the newest commit. *)
Lemma elem_of_boundaries prev chain b :
  newest_first chain ->
  (forall p e, prev = Some p -> e ∈ chain -> event_valid_from e <= p) ->
  b ∈ boundaries_of prev chain <->
  prev <> Some (vb_valid_from b) /\
  newest_at chain (vb_valid_from b) (vb_commit_seq b).
Proof.
  intros Hs. revert prev. induction Hs as [|e chain Hs IH Hall]; intros prev Hp.
  { cbn. unfold newest_at. split; [by intros ?%not_elem_of_nil|].
    intros (_ & (e & He & _) & _). by apply not_elem_of_nil in He. }
  rewrite Forall_forall in Hall.
  assert (forall e', e' ∈ chain -> event_valid_from e' < event_valid_from e \/
    (event_valid_from e' = event_valid_from e /\
     event_commit_seq e' < event_commit_seq e)) as Hbelow.
  { intros e' Hin. by apply event_before_spec, Hall. }
  assert (forall v s, v <> event_valid_from e ->
            newest_at (e :: chain) v s <-> newest_at chain v s) as Htail.
  { intros v s Hv. unfold newest_at. setoid_rewrite elem_of_cons. naive_solver. }
  cbn. case_bool_decide as E.
  - rewrite IH by (intros; eapply Hp; [done|by right]). subst prev.
    split; intros [Hne Hn]; (split; [done|]); apply Htail; congruence.
  - rewrite elem_of_cons, IH.
    2: { intros p e' [= <-] Hin. specialize (Hbelow e' Hin). lia. }
    split.
    + intros [->|[Hne Hn]]; cbn.
      * split; [done|]. split; [exists e; split; [by left|done]|].
        intros e' [->|Hin]%elem_of_cons Hv; [lia|].
        specialize (Hbelow e' Hin). lia.
      * split; [|apply Htail; congruence]. intros ->.
        destruct Hn as [(e' & Hin & Hv & _) _].
        specialize (Hp _ e eq_refl ltac:(by left)). specialize (Hbelow e' Hin).
        assert (vb_valid_from b <> event_valid_from e) by congruence. lia.
    + intros [Hne Hn]. destruct (decide (vb_valid_from b = event_valid_from e)) as [Ev|Ev].
      * left. destruct b as [v s]. cbn in *. subst v. f_equal.
        destruct Hn as [(e' & Hin & Hv & <-) Hmax].
        specialize (Hmax e ltac:(by left) eq_refl).
        apply elem_of_cons in Hin as [->|Hin]; [done|].
        specialize (Hbelow e' Hin). lia.
      * right. split; [congruence|]. by apply Htail.
Qed.

Lemma chain_at_elem chain v s :
  descending chain ->
  chain_at chain v = Some s <-> mkValidationBoundary v s ∈ chain.
Proof.
  induction 1 as [|b chain Hs IH Hall]; cbn.
  - split; [done|by intros ?%not_elem_of_nil].
  - rewrite Forall_forall in Hall. rewrite elem_of_cons.
    destruct (Z.eqb_spec (vb_valid_from b) v) as [E|E].
    + destruct b as [v' s']. cbn in *. subst v'. split; [by intros [= ->]; left|].
      intros [[= ->]|Hin]; [done|]. specialize (Hall _ Hin). cbn in Hall. lia.
    + rewrite IH. split; [by right|]. intros [<-|?]; done.
Qed.

(** A chain in order is determined by what it holds. *)
Lemma descending_unique c1 c2 :
  descending c1 -> descending c2 -> (forall b, b ∈ c1 <-> b ∈ c2) -> c1 = c2.
Proof.
  intros H1. revert c2. induction H1 as [|a c1 H1 IH Ha]; intros c2 H2 Hin.
  - destruct c2 as [|b c2]; [done|]. exfalso.
    by apply (not_elem_of_nil b), Hin; left.
  - destruct H2 as [|b c2 H2 Hb].
    { exfalso. by apply (not_elem_of_nil a), Hin; left. }
    rewrite Forall_forall in Ha, Hb.
    assert (a = b) as <-.
    { pose proof (proj1 (Hin a) ltac:(by left)) as [|Ha']%elem_of_cons; [done|].
      pose proof (proj2 (Hin b) ltac:(by left)) as [|Hb']%elem_of_cons; [done|].
      specialize (Ha b Hb'). specialize (Hb a Ha'). lia. }
    f_equal. apply IH; [done|]. intros x. specialize (Hin x).
    rewrite !elem_of_cons in Hin. split; intros Hx.
    + destruct (proj1 Hin (or_intror Hx)) as [->|]; [|done].
      specialize (Ha a Hx). lia.
    + destruct (proj2 Hin (or_intror Hx)) as [->|]; [|done].
      specialize (Hb a Hx). lia.
Qed.

(** The end of a linked interval: the next boundary above, or what was given. *)
Lemma elem_of_link prev chain i :
  descending chain -> (forall p b, prev = Some p -> b ∈ chain -> vb_valid_from b < p) ->
  i ∈ link_intervals prev chain ->
  mkValidationBoundary (cfi_valid_from i) (cfi_commit_seq i) ∈ chain /\
  ((exists b, b ∈ chain /\ cfi_valid_to i = Some (vb_valid_from b) /\
      cfi_valid_from i < vb_valid_from b /\
      forall b', b' ∈ chain -> cfi_valid_from i < vb_valid_from b' ->
        vb_valid_from b <= vb_valid_from b') \/
   (cfi_valid_to i = prev /\
    forall b', b' ∈ chain -> vb_valid_from b' <= cfi_valid_from i)).
Proof.
  intros Hs. revert prev. induction Hs as [|a chain Hs IH Ha]; intros prev Hp;
    [by intros ?%not_elem_of_nil|]. rewrite Forall_forall in Ha.
  cbn. intros [->|Hi]%elem_of_cons; cbn.
  - destruct a as [v s]. split; [by left|]. right. split; [done|].
    intros b' [->|Hb]%elem_of_cons; [done|]. specialize (Ha b' Hb). cbn in *. lia.
  - destruct (IH (Some (vb_valid_from a))) as [Hin Hto]; [|done|].
    { intros p b [= <-] Hb. by apply Ha. }
    split; [by right|]. left. specialize (Ha _ Hin) as Hai. cbn in Hai.
    destruct Hto as [(b & Hb & Ht & Hlt & Hmin)|[Ht Hmax]].
    + exists b. split_and!; [by right|done|done|].
      intros b' [->|Hb']%elem_of_cons Hl; [specialize (Ha b Hb); lia|by apply Hmin].
    + exists a. split_and!; [by left|done|done|].
      intros b' [->|Hb']%elem_of_cons Hl; [done|]. specialize (Hmax b' Hb'). lia.
Qed.

Lemma link_elem prev chain b :
  b ∈ chain -> exists i, i ∈ link_intervals prev chain /\
    cfi_valid_from i = vb_valid_from b /\ cfi_commit_seq i = vb_commit_seq b.
Proof.
  revert prev. induction chain as [|a chain IH]; intros prev;
    [by intros ?%not_elem_of_nil|]. intros [->|Hb]%elem_of_cons; cbn.
  - eexists. split; [by left|done].
  - destruct (IH (Some (vb_valid_from a)) Hb) as (i & ? & ? & ?). exists i.
    split; [by right|done].
Qed.

Lemma newest_exists chain e :
  newest_first chain -> e ∈ chain ->
  exists s, newest_at chain (event_valid_from e) s /\ event_commit_seq e <= s.
Proof.
  intros Hs He. induction Hs as [|a chain Hs IH Hall];
    [by apply not_elem_of_nil in He|]. rewrite Forall_forall in Hall.
  setoid_rewrite event_before_spec in Hall.
  destruct (decide (event_valid_from a = event_valid_from e)) as [Ea|Ea].
  - exists (event_commit_seq a). rewrite <- Ea. split; [split|].
    + exists a. by split; [left|].
    + intros x [->|Hx]%elem_of_cons Hv; [done|]. specialize (Hall x Hx). lia.
    + apply elem_of_cons in He as [->|He]; [done|]. specialize (Hall e He). lia.
  - apply elem_of_cons in He as [->|He]; [done|].
    destruct (IH He) as (s & [(x & Hx & Hv & Es) Hmax] & Hle). exists s.
    split; [split|done].
    + exists x. by split; [right|].
    + intros y [->|Hy]%elem_of_cons Hv'; [done|]. by apply Hmax.
Qed.

(** ** Conflicts of a chain *)

Lemma interval_conflicts_spec d i :
  interval_conflicts d i = true <->
  swd_snapshot_seq d < cfi_commit_seq i /\
  ((swd_valid_from d <= cfi_valid_from i /\
    forall s, swd_successor d = Some s -> cfi_valid_from i < s) \/
   (cfi_valid_from i < swd_valid_from d /\
    exists n, cfi_valid_to i = Some n /\ swd_valid_from d < n)).
Proof.
  unfold interval_conflicts.
  destruct (Z.leb_spec (cfi_commit_seq i) (swd_snapshot_seq d)); [split; [done|lia]|].
  destruct (Z.ltb_spec (cfi_valid_from i) (swd_valid_from d)).
  - destruct (cfi_valid_to i) as [n|].
    + rewrite negb_true_iff, Z.leb_gt. naive_solver lia.
    + naive_solver lia.
  - destruct (swd_successor d) as [s|].
    + rewrite negb_true_iff, Z.leb_gt. naive_solver lia.
    + naive_solver lia.
Qed.

(** The intervals of a chain conflict with a write exactly when one of its events
    overlaps what the write observed. *)
Lemma conflict_intervals chain d :
  newest_first chain ->
  existsb (interval_conflicts d) (intervals_of None chain) = true <->
  exists e, e ∈ chain /\ overlaps chain d e.
Proof.
  intros Hs. rewrite intervals_link, existsb_exists.
  setoid_rewrite <- list_elem_of_In.
  pose proof (boundaries_descending None chain Hs) as Hd.
  assert (forall b, b ∈ boundaries_of None chain <->
            newest_at chain (vb_valid_from b) (vb_commit_seq b)) as Hb.
  { intros b. rewrite elem_of_boundaries by done. intuition done. }
  assert (forall e, e ∈ chain -> exists b, b ∈ boundaries_of None chain /\
            vb_valid_from b = event_valid_from e /\
            event_commit_seq e <= vb_commit_seq b) as Hbe.
  { intros e He. destruct (newest_exists chain e Hs He) as (s & Hn & Hle).
    exists (mkValidationBoundary (event_valid_from e) s). by rewrite Hb. }
  split.
  - intros (i & Hi & [Hsnap Hc]%interval_conflicts_spec).
    apply elem_of_link in Hi as [Hin Hto]; [|done..].
    apply Hb in Hin as [(e & He & Hv & Es) _]. cbn in Hv, Es.
    exists e. split; [done|]. split; [lia|]. rewrite Hv.
    destruct Hc as [?|(Hlt & n & Hn & Hn')]; [by left|right]. split; [done|].
    destruct Hto as [(b & Hbin & Et & Hl & Hmin)|[Et _]]; [|congruence].
    rewrite Et in Hn. injection Hn as <-. split.
    + apply Hb in Hbin as [(x & Hx & Ex & _) _]. exists x. split; [done|lia].
    + intros x Hx Hvx. destruct (Hbe x Hx) as (bx & Hbx & Ebx & _).
      specialize (Hmin bx Hbx). lia.
  - intros (e & He & Hsnap & Hc). destruct (Hbe e He) as (b & Hbin & Ev & Hle).
    destruct (link_elem None _ b Hbin) as (i & Hi & Evi & Esi).
    exists i. split; [done|]. apply interval_conflicts_spec. split; [lia|].
    rewrite Evi, Ev. destruct Hc as [?|(Hlt & (n & Hn & Hnl) & Hmin)]; [by left|].
    right. split; [done|].
    apply elem_of_link in Hi as [_ Hto]; [|done..]. rewrite Evi, Ev in Hto.
    destruct (Hbe n Hn) as (bn & Hbn & Ebn & _).
    destruct Hto as [(b' & Hb' & -> & Hl & _)|[_ Hmax]].
    + exists (vb_valid_from b'). split; [done|].
      apply Hb in Hb' as [(x & Hx & Ex & _) _]. rewrite <- Ex. apply Hmin; [done|lia].
    + specialize (Hmax bn Hbn). lia.
Qed.

(** ** Cached and scanned intervals *)

Lemma link_boundaries prev chain :
  (fun i => mkValidationBoundary (cfi_valid_from i) (cfi_commit_seq i))
    <$> link_intervals prev chain = chain.
Proof.
  revert prev. induction chain as [|[v s] chain IH]; intros prev; [done|].
  cbn. by rewrite IH.
Qed.

Lemma stored_event_key cf events e :
  represents cf events -> e ∈ events ->
  key_ok (event_ref e) (event_valid_from e) (event_commit_seq e).
Proof.
  intros (_ & _ & H) He. destruct (H e He) as (kv & _ & Hkv). by eapply entry_key_ok.
Qed.

(** The writes of an identity are the versions of its history. *)
Lemma event_writes_history cf events ref v s :
  represents cf events -> FactRef_Validate ref = StatusOK ->
  event_writes events (IdentityOf ref) v s <->
  exists e, e ∈ history events ref /\ event_valid_from e = v /\ event_commit_seq e = s.
Proof.
  intros Hrep Hv. unfold event_writes. setoid_rewrite elem_of_history. split.
  - intros (e & He & Hid & ? & ?). exists e. split_and!; try done.
    pose proof (stored_event_key _ _ _ Hrep He) as (_ & Hve & _).
    apply FactRef_Validate_OK in Hve as [? _], Hv as [? _].
    by apply IdentityOf_inj.
  - intros (e & [He <-] & ? & ?). by exists e.
Qed.

Section store.
Context (events : list FactEvent) (st : FactStoreImpl) (ref : FactRef) (t : Z).
Context (chain : list FactEvent).
Hypothesis Hst : store_ok events st.
Hypothesis Hkey : key_ok ref t U64_MAX.
Hypothesis Hfirst : newest_first chain.
Hypothesis Hchain : forall e, e ∈ chain <-> e ∈ history events ref.

Let Hrep : represents (facts_cf st) events := proj1 Hst.

Lemma chain_writes v s :
  event_writes events (IdentityOf ref) v s <->
  exists e, e ∈ chain /\ event_valid_from e = v /\ event_commit_seq e = s.
Proof.
  destruct Hkey as (_ & Hv & _). rewrite (event_writes_history _ _ _ _ _ Hrep Hv).
  by setoid_rewrite Hchain.
Qed.

(** A hit holds the boundaries of the chain. *)
Lemma cached_chain c :
  chain_ok c ->
  chain_between (event_writes events (IdentityOf ref))
    (event_writes events (IdentityOf ref)) c ->
  link_intervals None c = intervals_of None chain.
Proof.
  intros [Hd _] [Hlo Hhi]. rewrite intervals_link. f_equal.
  apply descending_unique; [done|by apply boundaries_descending|].
  intros [v s]. rewrite elem_of_boundaries by done. rewrite <- chain_at_elem by done.
  cbn. unfold newest_at. rewrite <- chain_writes. split.
  - intros Hat. split; [done|]. split; [by apply Hhi|]. intros e He Hv.
    destruct (Hlo v (event_commit_seq e)) as (s' & E & ?).
    { apply chain_writes. by exists e. }
    congruence.
  - intros (_ & Hw & Hmax). destruct (Hlo v s Hw) as (s' & E & ?).
    apply Hhi in E as Hw'. apply chain_writes in Hw' as (e & He & Hv & <-).
    specialize (Hmax e He Hv). rewrite E. f_equal. lia.
Qed.

(** A scan is what the cache wants to be primed with. *)
Lemma scanned_chain :
  scan_between (event_writes events (IdentityOf ref))
    (event_writes events (IdentityOf ref)) (boundaries_of None chain).
Proof.
  assert (forall e, e ∈ chain -> 0 < event_commit_seq e) as Hpos.
  { intros e [He _]%Hchain%elem_of_history.
    pose proof (stored_event_key _ _ _ Hrep He) as (_ & _ & _ & [? _] & ?). lia. }
  split.
  - intros v s (e & He & <- & <-)%chain_writes.
    destruct (newest_exists chain e Hfirst He) as (s & Hn & Hle).
    exists (mkValidationBoundary (event_valid_from e) s).
    rewrite elem_of_boundaries by done. cbn. split_and!; try done.
    specialize (Hpos e He). lia.
  - intros b [_ [Hn _]]%elem_of_boundaries; [|done..]. by apply chain_writes.
Qed.

End store.

Lemma store_ok_with_cache events st c :
  store_ok events st -> reflects_opt events c -> store_ok events (with_cache c st).
Proof. intros (? & ? & ? & ? & _) ?. done. Qed.

Lemma with_cache_id st : with_cache (version_validation_cache st) st = st.
Proof. by destruct st. Qed.

Lemma fact_intervals_ok events st ref t observed :
  store_ok events st -> key_ok ref t U64_MAX ->
  exists chain c, newest_first chain /\
    (forall e, e ∈ chain <-> e ∈ history events ref) /\
    fact_intervals st ref observed
    = (Ok (intervals_of None chain), with_cache c st) /\
    store_ok events (with_cache c st).
Proof.
  intros Hst Hkey. pose proof Hst as (Hrep & _ & _ & _ & Hcache).
  destruct (scan_chain _ _ ref t Hrep Hkey) as (chain & Hfirst & Hchain & Hscan).
  exists chain. unfold fact_intervals, CachedFactIntervals, scan_and_prime.
  destruct (version_validation_cache st) as [c|] eqn:Ec.
  2: { exists None. rewrite Hscan, Ec, <- Ec, with_cache_id. done. }
  destruct (Lookup ref c) as [r c'] eqn:Hl.
  destruct (Lookup_inv _ _ _ _ _ _ Hcache Hl) as (Hc' & _ & Hhit).
  destruct r as [hit|]; cbn [fmap option_fmap option_map].
  - exists (Some c'). destruct (Hhit hit eq_refl) as [Hok Hb].
    rewrite (cached_chain events st ref t chain) by done.
    split_and!; try done. by apply store_ok_with_cache.
  - cbn [facts_cf with_cache version_validation_cache]. rewrite Hscan.
    eexists (Some _). split_and!; [done|done|done|].
    apply store_ok_with_cache; [done|]. cbn.
    apply Prime_inv; [done|]. intros _. rewrite intervals_link, link_boundaries.
    by eapply scanned_chain.
Qed.

(** ** The verdict *)

(** A dependency that an accelerator clears has no conflict. *)
Lemma unchanged_no_conflict events st index d :
  store_ok events st -> recent_fact_write_index st = Some index ->
  CanProveUnchanged index (swd_ref d) (swd_snapshot_seq d) = true ->
  ~ conflicting events d.
Proof.
  intros (_ & _ & Hr & _) E Hc (e & He & Hs & _). rewrite E in Hr.
  destruct Hr as (log & Hok & Hin). apply elem_of_history in He as [He Hre].
  specialize (Hin e He). rewrite Hre in Hin.
  pose proof (CanProveUnchanged_ok _ _ _ _ _ Hok Hc Hin). lia.
Qed.

Lemma never_written_no_conflict events st h d :
  store_ok events st -> identity_history st = Some h ->
  history_MightContain h (swd_ref d) = false -> ~ conflicting events d.
Proof.
  intros (_ & _ & _ & Hh & _) E Hc (e & He & _). rewrite E in Hh.
  destruct Hh as [_ Hin]. apply elem_of_history in He as [He Hre].
  specialize (Hin e He). congruence.
Qed.

Lemma select_pending_ok events st deps :
  store_ok events st ->
  (exists d, d ∈ deps /\ visible_seq st < swd_snapshot_seq d /\
     select_pending st deps = Fail exceeds_visible) \/
  (exists pending, (forall d, d ∈ deps -> swd_snapshot_seq d <= visible_seq st) /\
     select_pending st deps = Ok pending /\
     (forall d, d ∈ pending -> d ∈ deps) /\
     forall d, d ∈ deps -> d ∈ pending \/ ~ conflicting events d).
Proof.
  intros Hst. induction deps as [|d deps IH].
  { right. exists []. split_and!; try done; intros d Hd; by apply not_elem_of_nil in Hd. }
  cbn. destruct (Z.ltb_spec (visible_seq st) (swd_snapshot_seq d)) as [Hx|Hx].
  { left. exists d. by split; [left|]. }
  destruct IH as [(x & ? & ? & E)|(pending & Hv & E & Hsub & Hcov)]; rewrite E.
  { left. exists x. by split; [right|]. }
  cbn beta iota delta [mbind StatusOr_bind].
  right. eexists. split_and!; [|done| |].
  - intros x [->|?]%elem_of_cons; auto.
  - intros x Hxp. case_match; [right; by apply Hsub|].
    apply elem_of_cons in Hxp as [->|?]; [by left|right; by apply Hsub].
  - intros x [->|Hxd]%elem_of_cons.
    2: { destruct (Hcov x Hxd); [left|by right]. case_match; [done|by right]. }
    destruct (_ || _) eqn:Hskip; [right|left; by left].
    apply orb_true_iff in Hskip as [Hs|Hs].
    + destruct (recent_fact_write_index st) as [index|] eqn:Er; [|done].
      by eapply unchanged_no_conflict.
    + destruct (identity_history st) as [h|] eqn:Eh; [|done].
      apply negb_true_iff in Hs. by eapply never_written_no_conflict.
Qed.

(** The checks of one group of dependencies with the intervals of their fact. *)
Lemma check_intervals_ok events d pending chain st' result :
  newest_first chain -> (forall e, e ∈ chain <-> e ∈ history events (swd_ref d)) ->
  store_ok events st' -> pending_verdict events pending st' result ->
  pending_verdict events (d :: pending) st'
    (if existsb (interval_conflicts d) (intervals_of None chain)
     then (write_conflict, st') else result).
Proof.
  intros Hfirst Hchain Hst' (c & Hst'' & Hres).
  pose proof (conflict_intervals chain d Hfirst) as Hconf.
  assert ((exists e, e ∈ chain /\ overlaps chain d e) <-> conflicting events d) as Hc.
  { unfold conflicting, overlaps. by setoid_rewrite Hchain. }
  rewrite Hc in Hconf. destruct (existsb _ _).
  - exists (version_validation_cache st'). rewrite with_cache_id. split; [done|].
    left. split; [done|]. exists d. split; [by left|by apply Hconf].
  - exists c. split; [done|].
    destruct Hres as [[E (d' & ? & ?)]|[E Hno]]; [left|right]; (split; [done|]).
    + exists d'. by split; [right|].
    + intros d' [->|Hd']%elem_of_cons; [|by apply Hno]. intros H%Hconf. done.
Qed.

(** The pending dependencies are checked in any order. *)
Lemma check_pending_ok events pending observed group st :
  store_ok events st -> (forall d, d ∈ pending -> dependency_ok d) ->
  (forall ref intervals, group = Some (ref, intervals) ->
     exists chain, newest_first chain /\
       (forall e, e ∈ chain <-> e ∈ history events ref) /\
       intervals = intervals_of None chain) ->
  pending_verdict events pending st (check_pending observed group pending st).
Proof.
  revert group st. induction pending as [|d pending IH]; intros group st Hst Hdep Hgroup.
  { exists (version_validation_cache st). rewrite with_cache_id. split; [done|].
    right. split; [done|]. intros d Hd. by apply not_elem_of_nil in Hd. }
  assert (forall chain st', newest_first chain ->
    (forall e, e ∈ chain <-> e ∈ history events (swd_ref d)) -> store_ok events st' ->
    pending_verdict events (d :: pending) st'
      (if existsb (interval_conflicts d) (intervals_of None chain)
       then (write_conflict, st')
       else check_pending observed (Some (swd_ref d, intervals_of None chain)) pending st'))
    as Hcheck.
  { intros chain st' Hfirst Hchain Hst'. apply check_intervals_ok; try done.
    apply IH; [done|set_solver|by intros ? ? [= <- <-]; exists chain]. }
  destruct (Hdep d ltac:(by left)) as [Hkey _].
  destruct (fact_intervals_ok events st (swd_ref d) _ observed Hst Hkey)
    as (chain & c & Hfirst & Hchain & E & Hst').
  assert (pending_verdict events (d :: pending) st
    match fact_intervals st (swd_ref d) observed with
    | (Fail s, st) => (s, st)
    | (Ok intervals, st) =>
        if existsb (interval_conflicts d) intervals then (write_conflict, st)
        else check_pending observed (Some (swd_ref d, intervals)) pending st
    end) as Hfetch.
  { rewrite E. destruct (Hcheck chain _ Hfirst Hchain Hst') as (c' & ? & ?). by exists c'. }
  cbn. destruct group as [[r intervals]|]; [|exact Hfetch].
  case_bool_decide as Er; [|exact Hfetch]. subst r.
  destruct (Hgroup _ _ eq_refl) as (chain' & Hfirst' & Hchain' & ->). by apply Hcheck.
Qed.

Lemma sort_pending_perm pending : sort_pending pending ≡ₚ pending.
Proof. apply merge_sort_Permutation. Qed.

(** The validation in full: whatever the derived structures hold, the verdict is
    that of the stored events. *)
Lemma ValidateSnapshotWriteDependencies_OK events st deps :
  store_ok events st -> Forall dependency_ok deps ->
  exists status c,
    ValidateSnapshotWriteDependencies st deps = (status, with_cache c st) /\
    store_ok events (with_cache c st) /\
    write_verdict events (visible_seq st) deps status.
Proof.
  intros Hst Hdep. rewrite Forall_forall in Hdep.
  unfold ValidateSnapshotWriteDependencies.
  destruct (select_pending_ok events st deps Hst)
    as [(d & Hd & Hx & E)|(pending & Hv & E & Hsub & Hcov)]; rewrite E.
  - exists exceeds_visible, (version_validation_cache st). rewrite with_cache_id.
    split_and!; try done. by econstructor.
  - destruct (check_pending_ok events (sort_pending pending) (observed_generation st)
                None st Hst) as (c & Hst' & Hres); [|done|].
    { intros d. rewrite sort_pending_perm. auto. }
    destruct Hres as [[-> (d & Hd & Hc)]|[-> Hno]]; eexists _, c;
      split_and!; try done.
    + rewrite sort_pending_perm in Hd. econstructor 2; eauto.
    + econstructor 3; [done|]. intros d Hd.
      destruct (Hcov d Hd); [|done]. apply Hno. by rewrite sort_pending_perm.
Qed.

(** ** Strict reads *)

Lemma loop_unit_Ok {A} (f : A -> StatusOr unit) l :
  loop (fun _ a => f a) tt l = Ok tt <-> forall a, a ∈ l -> f a = Ok tt.
Proof.
  induction l as [|a l IH]; cbn.
  - split; [|done]. intros _ a Ha. by apply not_elem_of_nil in Ha.
  - setoid_rewrite elem_of_cons. destruct (f a) as [[]|s] eqn:Ea; cbn.
    + rewrite IH. naive_solver.
    + split; [done|]. intros H. specialize (H a (or_introl eq_refl)). congruence.
Qed.

Lemma loop_unit_proper {A} (f : A -> StatusOr unit) l :
  (forall a, a ∈ l -> f a <> Fail StatusOK) ->
  loop (fun _ a => f a) tt l <> Fail StatusOK.
Proof.
  intros Hf. induction l as [|a l IH]; cbn; [done|].
  destruct (f a) as [[]|s] eqn:Ea; cbn.
  - apply IH. intros; apply Hf; by right.
  - rewrite <- Ea. apply Hf. by left.
Qed.

Lemma to_status_unit (m : StatusOr unit) :
  m <> Fail StatusOK -> to_status m = StatusOK <-> m = Ok tt.
Proof. destruct m as [[]|s]; cbn; [done|]. intros H. split; congruence. Qed.

Lemma store_filter_sound events st :
  store_ok events st ->
  filter_sound (history_MightContain <$> identity_history st) events.
Proof.
  intros (_ & _ & _ & Hh & _) f e Hf He.
  destruct (identity_history st) as [h|]; [|done]. injection Hf as <-.
  by apply (proj2 Hh).
Qed.

Lemma CurrentStrictReadIdentity_ok events st d limit :
  store_ok events st -> strict_read_ok d -> limit < U64_MAX ->
  exists n, CurrentStrictReadIdentity st (srd_ref d) (srd_valid_time d) limit = Ok n /\
    strict_view events d limit n.
Proof.
  intros Hst Hd Hl.
  apply ReadTemporalNeighborhood_OK; [apply Hst|by apply store_filter_sound|done..].
Qed.

Lemma nearest_before_unique chain limit t a b :
  nearest_before chain limit t a -> nearest_before chain limit t b -> a = b.
Proof.
  destruct a as [a|], b as [b|]; cbn; [| | |done].
  - intros (? & (x & Hx & Cx & <-) & Ha) (? & (y & Hy & Cy & <-) & Hb). f_equal.
    specialize (Ha y Hy Cy). specialize (Hb x Hx Cx). lia.
  - intros (? & (x & Hx & Cx & <-) & _) Hb. specialize (Hb x Hx Cx). lia.
  - intros Ha (? & (x & Hx & Cx & <-) & _). specialize (Ha x Hx Cx). lia.
Qed.

Lemma nearest_after_unique chain limit t a b :
  nearest_after chain limit t a -> nearest_after chain limit t b -> a = b.
Proof.
  destruct a as [a|], b as [b|]; cbn; [| | |done].
  - intros (? & (x & Hx & Cx & <-) & Ha) (? & (y & Hy & Cy & <-) & Hb). f_equal.
    specialize (Ha y Hy Cy). specialize (Hb x Hx Cx). lia.
  - intros (? & (x & Hx & Cx & <-) & _) Hb. specialize (Hb x Hx Cx). lia.
  - intros Ha (? & (x & Hx & Cx & <-) & _). specialize (Ha x Hx Cx). lia.
Qed.

(** A limit above all events of a chain sees what any later one sees. *)
Lemma effective_raise chain s limit t :
  (forall e, e ∈ chain -> event_commit_seq e <= s) -> s <= limit ->
  effective chain limit t = effective chain s t.
Proof.
  intros H Hs. unfold effective. generalize (None : option FactEvent).
  induction chain as [|e chain IH]; intros best; [done|]. cbn.
  assert (applies limit t e = applies s t e) as E.
  { unfold applies. specialize (H e ltac:(by left)).
    by rewrite !(proj2 (Z.leb_le (event_commit_seq e) _)) by lia. }
  unfold effective_step at 2 4. rewrite E. apply IH. intros e' He'. apply H. by right.
Qed.

Lemma strict_view_raise events d s limit n :
  (forall e, e ∈ history events (srd_ref d) -> event_commit_seq e <= s) -> s <= limit ->
  strict_view events d s n -> strict_view events d limit n.
Proof.
  intros Hle Hs (Ho & Hp & Ha). unfold strict_view.
  rewrite (effective_raise _ s) by done. split_and!; [done|..].
  - destruct (predecessor n); cbn in *.
    + destruct Hp as (? & (e & He & ? & ?) & Hall). split_and!; [done|..].
      * exists e. split_and!; [done|lia|done].
      * intros e' He' _. by apply Hall, Hle.
    + intros e He _. by apply Hp, Hle.
  - destruct (successor n); cbn in *.
    + destruct Ha as (? & (e & He & ? & ?) & Hall). split_and!; [done|..].
      * exists e. split_and!; [done|lia|done].
      * intros e' He' _. by apply Hall, Hle.
    + intros e He _. by apply Ha, Hle.
Qed.

Lemma strict_view_unique events d limit n n' :
  strict_view events d limit n -> strict_view events d limit n' -> n = n'.
Proof.
  destruct n as [o p s], n' as [o' p' s']. intros (? & Hp & Hs) (? & Hp' & Hs').
  cbn in *. f_equal; [congruence| |].
  - by eapply nearest_before_unique.
  - by eapply nearest_after_unique.
Qed.

(** Two stored versions that compare equal are the same event. *)
Lemma SameFactEvent_stored chain a b :
  distinct_versions chain -> a ∈ chain -> b ∈ chain -> SameFactEvent a b = true -> a = b.
Proof.
  intros Hd Ha Hb H. unfold SameFactEvent in H.
  repeat (apply andb_true_iff in H as [H ?]). apply Hd; [done|done|lia|lia].
Qed.

Lemma same_views cf events d limit limit' n n' :
  represents cf events -> strict_view events d limit n -> strict_view events d limit' n' ->
  SameStrictReadIdentity n n' = true ->
  n = n' /\ SameOptFactEvent (observed n) (observed n) = true.
Proof.
  intros Hrep (Ho & _) (Ho' & _) H. unfold SameStrictReadIdentity in H.
  apply andb_true_iff in H as [[Hobs ?%bool_decide_eq_true_1]%andb_true_iff
    ?%bool_decide_eq_true_1].
  assert (observed n = observed n') as E.
  { pose proof (history_distinct _ _ (srd_ref d) Hrep) as Hd.
    destruct (observed n) as [a|], (observed n') as [b|]; try done.
    symmetry in Ho, Ho'. apply effective_Some in Ho as [? _], Ho' as [? _].
    f_equal. by eapply SameFactEvent_stored. }
  split; [destruct n, n'; cbn in *; congruence|]. by rewrite <- E in Hobs.
Qed.

Lemma validate_strict_read_ok events st d :
  store_ok events st -> strict_read_ok d -> visible_seq st < U64_MAX ->
  validate_strict_read st d = Ok tt <-> strict_read_holds events (visible_seq st) d.
Proof.
  intros Hst Hd Hmax. unfold validate_strict_read, strict_read_holds.
  destruct (Z.ltb_spec (visible_seq st) (srd_snapshot_seq d)); [split; [done|lia]|].
  destruct (CurrentStrictReadIdentity_ok events st d (srd_snapshot_seq d))
    as (n & E & Hn); [done|done|lia|].
  destruct (CurrentStrictReadIdentity_ok events st d (visible_seq st))
    as (n' & E' & Hn'); [done|done|lia|].
  rewrite E. cbn beta iota delta [mbind StatusOr_bind].
  destruct (MatchesStrictReadDependency n d) eqn:Hm; cbn [negb].
  2: { split; [done|]. intros (_ & x & Hx & _ & Hmx & _).
       rewrite (strict_view_unique _ _ _ _ _ Hx Hn) in Hmx. congruence. }
  rewrite E'. cbn beta iota delta [mbind StatusOr_bind].
  destruct (SameStrictReadIdentity n n') eqn:Hs; cbn [negb].
  - split; [intros _; split; [lia|]|done]. exists n.
    destruct (same_views _ _ _ _ _ _ _ (proj1 Hst) Hn Hn' Hs) as [<- ?]. done.
  - split; [done|]. intros (_ & x & Hx & Hx' & _ & Ho).
    rewrite (strict_view_unique _ _ _ _ _ Hx Hn) in *.
    rewrite (strict_view_unique _ _ _ _ _ Hx' Hn') in *.
    unfold SameStrictReadIdentity in Hs. rewrite Ho in Hs.
    by rewrite !bool_decide_true in Hs.
Qed.

Lemma validate_strict_read_proper events st d :
  store_ok events st -> strict_read_ok d -> visible_seq st < U64_MAX ->
  validate_strict_read st d <> Fail StatusOK.
Proof.
  intros Hst Hd Hmax. unfold validate_strict_read. case_match eqn:Hv; [done|].
  apply Z.ltb_ge in Hv.
  destruct (CurrentStrictReadIdentity_ok events st d (srd_snapshot_seq d))
    as (n & E & _); [done|done|lia|].
  destruct (CurrentStrictReadIdentity_ok events st d (visible_seq st))
    as (n' & E' & _); [done|done|lia|].
  rewrite E. cbn beta iota delta [mbind StatusOr_bind]. case_match; [done|].
  rewrite E'. cbn beta iota delta [mbind StatusOr_bind]. by case_match.
Qed.

Lemma ValidateStrictReadDependencies_OK events st deps :
  store_ok events st -> Forall strict_read_ok deps -> visible_seq st < U64_MAX ->
  ValidateStrictReadDependencies st deps = StatusOK <->
  forall d, d ∈ deps -> strict_read_holds events (visible_seq st) d.
Proof.
  intros Hst Hdep Hmax. rewrite Forall_forall in Hdep.
  unfold ValidateStrictReadDependencies. rewrite to_status_unit, loop_unit_Ok.
  - split; intros H d Hd; specialize (H d Hd);
      by apply (validate_strict_read_ok events) in H; auto.
  - apply loop_unit_proper. intros d Hd. by eapply validate_strict_read_proper; auto.
Qed.

(** ** Edge identities *)

Lemma ReadLatestEdgeIdentity_stored events st edge :
  store_ok events st -> edge_key_ok edge ->
  ReadLatestEdgeIdentity (facts_cf st) edge = Ok (stored_identity events edge).
Proof.
  intros (Hrep & _) (Hp & He & Hne).
  rewrite (ReadLatestEdgeIdentity_OK _ events) by first
    [done|unfold key_ok, ref_typed, U64_MAX, uint in *; cbn in *;
     unfold FactRef_Validate; cbn;
     rewrite (proj2 (Z.eqb_neq _ _) Hne); split_and!; try done; lia].
  unfold stored_identity.
  destruct (present _) as [e|] eqn:Hpr; [cbn|done].
  unfold latest_identity, present in Hpr.
  destruct (effective _ _ 0) as [e'|] eqn:Heff; [|done].
  destruct (bool_decide _); [done|]. injection Hpr as ->.
  apply effective_Some in Heff as (Hin & _).
  apply elem_of_history in Hin as [Hin Hr].
  destruct Hrep as (_ & _ & H). destruct (H e Hin) as (kv & _ & _ & _ & Henc).
  apply EncodeFactValue_Ok in Henc as [Hv _].
  apply FactEvent_Validate_OK in Hv as (_ & _ & Hid).
  unfold identity_payload_ok in Hid. rewrite Hr in Hid. cbn in Hid.
  by destruct (event_edge_identity e).
Qed.

Lemma validate_assertion_ok events st b m :
  store_ok events st -> edge_key_ok (edge_of m) ->
  validate_assertion st b m <> Fail StatusOK /\
  (validate_assertion st b m = Ok tt <->
   (ref_family (mutation_ref m) = kEdgeState -> mutation_operation m = kPut ->
    is_Some (stored_identity events (edge_of m)) \/
    exists i, i ∈ edge_identities b /\ edge_ref i = edge_of m)).
Proof.
  intros Hst Hk. unfold validate_assertion.
  case_bool_decide as Hf; [|cbn; naive_solver].
  case_bool_decide as Ho; [|cbn; naive_solver]. cbn [negb orb].
  rewrite (ReadLatestEdgeIdentity_stored events) by done.
  cbn beta iota delta [mbind StatusOr_bind].
  assert (existsb (fun i => (home_part_id i =? ref_part_id (mutation_ref m))
            && (edge_id i =? ref_entity_id (mutation_ref m))) (edge_identities b) = true
          <-> exists i, i ∈ edge_identities b /\ edge_ref i = edge_of m) as Hex.
  { rewrite existsb_exists. setoid_rewrite <- list_elem_of_In.
    unfold edge_ref, edge_of. split.
    - intros (i & Hi & [?%Z.eqb_eq ?%Z.eqb_eq]%andb_true_iff). exists i.
      split; [done|congruence].
    - intros (i & Hi & [= E1 E2]). exists i. by rewrite E1, E2, !Z.eqb_refl. }
  destruct (stored_identity events (edge_of m)) as [i|].
  - rewrite bool_decide_false by done. cbn. naive_solver.
  - rewrite bool_decide_true by done. destruct (existsb _ _); cbn [negb andb].
    + split; [done|]. split; [|done]. intros _ _ _. right. by apply Hex.
    + split; [done|]. split; [done|]. intros H.
      destruct (H Hf Ho) as [[? ?]|?%Hex]; done.
Qed.

Lemma validate_identity_ok events st i :
  store_ok events st -> edge_key_ok (edge_ref i) ->
  validate_identity st i <> Fail StatusOK /\
  (validate_identity st i = Ok tt <->
   stored_identity events (edge_ref i) = None \/
   stored_identity events (edge_ref i) = Some i).
Proof.
  intros Hst Hk. unfold validate_identity.
  rewrite (ReadLatestEdgeIdentity_stored events) by done.
  cbn beta iota delta [mbind StatusOr_bind].
  destruct (stored_identity _ _) as [e|]; [|naive_solver].
  case_bool_decide; naive_solver.
Qed.

Lemma ValidateEdgeIdentitiesForCommit_OK events st b :
  store_ok events st -> edge_batch_ok b ->
  ValidateEdgeIdentitiesForCommit st b = StatusOK <-> edges_hold events b.
Proof.
  intros Hst [Hm Hi]. unfold ValidateEdgeIdentitiesForCommit, edges_hold.
  pose proof (fun m H => validate_assertion_ok events st b m Hst (Hm m H)) as Ha.
  pose proof (fun i H => validate_identity_ok events st i Hst (Hi i H)) as Hv.
  pose proof (loop_unit_Ok (validate_assertion st b) (mutations b)) as H1.
  pose proof (loop_unit_proper (validate_assertion st b) (mutations b)
                (fun m H => proj1 (Ha m H))) as P1.
  destruct (loop _ tt (mutations b)) as [[]|s]; cbn.
  - rewrite to_status_unit, loop_unit_Ok.
    2: { apply loop_unit_proper. intros i Hin. by apply Hv. }
    split.
    + intros H. split; [intros m Hin; apply Ha; [done|by apply H1]|].
      intros i Hin. apply Hv; auto.
    + intros [_ H] i Hin. apply Hv; auto.
  - split; [congruence|]. intros [H _]. exfalso.
    assert (Fail s = Ok tt) by (apply H1; intros m Hin; apply Ha; auto). done.
Qed.

(** ** The sample store *)

Lemma sample_store_ok : store_ok sample_events sample_store.
Proof.
  split_and!.
  - exact sample_represents.
  - intros e He. cbn. repeat (apply elem_of_cons in He as [->|He]; [cbn; lia|]).
    by apply not_elem_of_nil in He.
  - exists ((fun e => (IdentityOf (event_ref e), event_commit_seq e)) <$> sample_events).
    split.
    + apply new_index_ok; [lia|lia|lia|]. intros id s Hin.
      apply list_elem_of_fmap in Hin as (e & [= -> ->] & He).
      repeat (apply elem_of_cons in He as [->|He]; [cbn; lia|]).
      by apply not_elem_of_nil in He.
    + intros e He. apply list_elem_of_fmap. by exists e.
  - split.
    + left. vm_compute. split; [lia|done].
    + intros e He. apply publish_all_contains; [left; by apply new_history_ok|].
      apply list_elem_of_fmap. by exists e.
  - apply new_cache_inv; lia.
Qed.

(** ** Properties *)

(** C21: the validation of snapshot writes depends on the stored events alone.
    Whatever the recent-write index, the identity history and the validation cache
    hold, as long as they reflect the store, it reports a snapshot above the visible
    watermark if there is one; otherwise a conflict if an event that was committed after
    the snapshot of a write has its boundary in the interval the write observed, or is
    the version before it and is bounded across the written time; and otherwise success,
    if no such preceding version is bounded exactly at the written time.  That last case
    is left open: the code and its comment disagree about it.  The store stays as it was
    but for the cache, which still reflects it. *)
Theorem ValidateSnapshotWriteDependencies_spec events st deps :
  store_ok events st -> Forall dependency_ok deps ->
  exists status c,
    ValidateSnapshotWriteDependencies st deps = (status, with_cache c st) /\
    store_ok events (with_cache c st) /\
    ((exists d, d ∈ deps /\ visible_seq st < swd_snapshot_seq d) -> status = exceeds_visible) /\
    ((forall d, d ∈ deps -> swd_snapshot_seq d <= visible_seq st) ->
     (exists d, d ∈ deps /\ conflicting events d) -> status = write_conflict) /\
    ((forall d, d ∈ deps -> swd_snapshot_seq d <= visible_seq st /\
                            ~ conflicting events d /\ ~ touching events d) ->
     status = StatusOK).
Proof.
  intros Hst Hd. destruct (ValidateSnapshotWriteDependencies_OK events st deps Hst Hd)
    as (status & c & E & Hst' & Hv).
  exists status, c. split; [exact E|]. split; [exact Hst'|].
  destruct Hv as [d Hin Hx|d Hle Hin Hc|Hle Hno].
  - split; [done|]. split; intros H; specialize (H d Hin); lia.
  - split; [intros (d' & Hin' & ?); specialize (Hle d' Hin'); lia|]. split; [done|].
    intros H. by destruct (H d Hin) as (_ & ? & _).
  - split; [intros (d' & Hin' & ?); specialize (Hle d' Hin'); lia|]. split; [|done].
    intros _ (d & Hin & Hc). by destruct (Hno d Hin).
Qed.

Lemma ValidateSnapshotWriteDependencies_spec_witness :
  exists status c,
    ValidateSnapshotWriteDependencies sample_store
      [mkSnapshotWriteDependency sample_ref 15 None (Some 20) 5]
    = (status, with_cache c sample_store) /\
    store_ok sample_events (with_cache c sample_store).
Proof.
  destruct (ValidateSnapshotWriteDependencies_spec sample_events sample_store
    [mkSnapshotWriteDependency sample_ref 15 None (Some 20) 5]) as (status & c & E & Hst & _).
  - exact sample_store_ok.
  - constructor; [|constructor]. split; [|cbn; lia].
    unfold key_ok, ref_typed, uint. split_and!; done.
  - exists status, c. split; [exact E|exact Hst].
Defined.

(** The strict reads of a transaction pass validation exactly when each was
    recorded as it stands in its snapshot, and what it observed and both
    neighbouring boundaries stand unchanged at the visible watermark; the observed
    value must equal itself. *)
Theorem ValidateStrictReadDependencies_spec events st deps :
  store_ok events st -> Forall strict_read_ok deps -> visible_seq st < U64_MAX ->
  ValidateStrictReadDependencies st deps = StatusOK <->
  forall d, d ∈ deps -> strict_read_holds events (visible_seq st) d.
Proof. apply ValidateStrictReadDependencies_OK. Qed.

Lemma ValidateStrictReadDependencies_spec_witness :
  ValidateStrictReadDependencies sample_store
    [mkStrictReadDependency sample_ref 15 5
       (Some (sample_version 10 4 (Some (VInt32 7)))) None None] = StatusOK <->
  forall d, d ∈ [mkStrictReadDependency sample_ref 15 5
       (Some (sample_version 10 4 (Some (VInt32 7)))) None None] ->
    strict_read_holds sample_events 6 d.
Proof.
  apply (ValidateStrictReadDependencies_spec sample_events sample_store).
  - exact sample_store_ok.
  - constructor; [|constructor]. unfold strict_read_ok, key_ok, ref_typed, uint.
    split_and!; done.
  - unfold U64_MAX. cbn. lia.
Defined.

(** The edge identities of a batch pass validation exactly when every
    asserted edge has an identity in the store or in the batch, and no identity of
    the batch differs from the stored one. *)
Theorem ValidateEdgeIdentitiesForCommit_spec events st b :
  store_ok events st -> edge_batch_ok b ->
  ValidateEdgeIdentitiesForCommit st b = StatusOK <-> edges_hold events b.
Proof. apply ValidateEdgeIdentitiesForCommit_OK. Qed.

Lemma ValidateEdgeIdentitiesForCommit_spec_witness :
  ValidateEdgeIdentitiesForCommit sample_store sample_batch = StatusOK <->
  edges_hold sample_events sample_batch.
Proof.
  apply (ValidateEdgeIdentitiesForCommit_spec sample_events sample_store).
  - exact sample_store_ok.
  - split; intros x Hx; cbn in Hx;
      repeat (apply elem_of_cons in Hx as [->|Hx]; [vm_compute; done|]);
      by apply not_elem_of_nil in Hx.
Defined.

(** A strict read that observed a NaN never passes validation, even when
    nothing was written since its snapshot: events are compared with [==] on their
    values. *)
Theorem strict_read_of_nan_rejected events st deps d n e v :
  store_ok events st -> Forall strict_read_ok deps -> visible_seq st < U64_MAX ->
  d ∈ deps -> strict_view events d (srd_snapshot_seq d) n -> observed n = Some e ->
  event_value e = Some v -> Value_eqb v v = false ->
  ValidateStrictReadDependencies st deps <> StatusOK.
Proof.
  intros Hst Hdep Hmax Hd Hn He Hv Hnan H.
  pose proof (proj1 (ValidateStrictReadDependencies_OK events st deps Hst Hdep Hmax) H)
    as Hok. destruct (Hok d Hd) as (_ & n' & Hn' & _ & _ & Ho).
  rewrite (strict_view_unique _ _ _ _ _ Hn' Hn), He in Ho. cbn in Ho.
  unfold SameFactEvent in Ho. rewrite Hv in Ho. cbn in Ho.
  by rewrite Hnan, andb_false_r in Ho.
Qed.

Lemma strict_read_of_nan_rejected_witness :
  ValidateStrictReadDependencies nan_store
    [mkStrictReadDependency sample_ref 15 5
       (Some (sample_version 10 4 (Some (VFloat64 0x7ff8000000000000)))) None None]
  <> StatusOK.
Proof.
  apply (strict_read_of_nan_rejected nan_events nan_store _
    (mkStrictReadDependency sample_ref 15 5
       (Some (sample_version 10 4 (Some (VFloat64 0x7ff8000000000000)))) None None)
    (mkTemporalNeighborhood
       (Some (sample_version 10 4 (Some (VFloat64 0x7ff8000000000000)))) (Some 10) None)
    (sample_version 10 4 (Some (VFloat64 0x7ff8000000000000)))
    (VFloat64 0x7ff8000000000000)).
  - split_and!; [|cbn; intros x ->%list_elem_of_singleton; cbn; lia|done..].
    represents_concrete.
  - constructor; [|constructor]. unfold strict_read_ok, key_ok, ref_typed, uint.
    split_and!; done.
  - unfold U64_MAX. cbn. lia.
  - by left.
  - split_and!; [vm_compute; reflexivity| |].
    + cbn. split_and!; [lia| |].
      * eexists. split; [by left|cbn; lia].
      * intros x ->%list_elem_of_singleton. cbn. lia.
    + intros x ->%list_elem_of_singleton. cbn. lia.
  - reflexivity.
  - reflexivity.
  - vm_compute. reflexivity.
Defined.

(** A preceding version bounded exactly at the written boundary passes: only one
    bounded across it conflicts. *)
Lemma bounded_at_boundary_passes d i :
  cfi_valid_from i < swd_valid_from d ->
  cfi_valid_to i = Some (swd_valid_from d) -> interval_conflicts d i = false.
Proof.
  intros Hlt Hto. apply not_true_iff_false. rewrite interval_conflicts_spec, Hto.
  intros [_ [[? _]|[_ (n & [= <-] & ?)]]]; lia.
Qed.
