(* ===== verification/Scan.v ===== *)
(** * Scan: scans and lookups over a snapshot

    Models further readers of [src/storage/rocks/rocks_adapter.cc]: the scan of a
    prefix with bounds on the entity, the scan of one family over all partitions,
    batched temporal neighborhoods, and the lookups of edge identities and property
    definitions.  A visitor is a function on the state it collects into; what it did
    before it returned an error stays done, so a scan gives the state with the status.
    Reads without a memory budget are modelled, as in [FactStore]. *)

From S2P Require Import Prelude Status Crc32c Wire Value Fact FactCodec MetaCodec.
From S2P Require Import Temporal FactStore CommitBatch PreparedCodec GroupCommit Bloom.
From S2P Require Import RecentWrites ValidationCache Accelerators Conflict.

(** ** Prefixes and bounds *)

Record FactPrefix := mkFactPrefix {
  prefix_part_id : Z;
  prefix_family : FactFamily;
  prefix_property_id : Z;
  prefix_entity_id : option Z
}.

Definition FactPrefix_Exact (ref : FactRef) : FactPrefix :=
  mkFactPrefix (ref_part_id ref) (ref_family ref) (ref_property_id ref)
    (Some (ref_entity_id ref)).

Definition FactPrefix_Family (part_id : Z) (family : FactFamily) (property_id : Z)
  : FactPrefix := mkFactPrefix part_id family property_id None.

Definition FactPrefix_Validate (p : FactPrefix) : Status :=
  let representative :=
    mkFactRef (prefix_part_id p) (prefix_family p) (prefix_property_id p)
      (match prefix_entity_id p with Some e => e | None => 1 end) in
  if negb (status_ok (FactRef_Validate representative)) then
    InvalidArgument "fact prefix" "invalid family or property ID"
  else if opt_test (prefix_entity_id p) (fun e => e =? 0) then
    InvalidArgument "fact prefix" "zero entity ID"
  else StatusOK.

Record FactScanBounds := mkFactScanBounds {
  entity_id_min : option Z;
  entity_id_max : option Z
}.

Definition no_bounds : FactScanBounds := mkFactScanBounds None None.

(** ** Visitors *)

Definition Visitor (St A : Type) : Type := St -> A -> St * Status.

(** Goes on when all went well so far. *)
Definition and_then {St} (r : St * Status) (k : St -> St * Status) : St * Status :=
  match r with
  | (state, StatusOK) => k state
  | (state, s) => (state, s)
  end.

(** A call of the visitor per element, until one fails. *)
Fixpoint visit {St A} (visitor : Visitor St A) (state : St) (l : list A) : St * Status :=
  match l with
  | [] => (state, StatusOK)
  | a :: l' => and_then (visitor state a) (fun state => visit visitor state l')
  end.

(** The value of a call that may fail with the state as it is. *)
Definition with_value {St A} (state : St) (r : StatusOr A) (k : A -> St * Status)
  : St * Status :=
  match r with Ok a => k a | Fail s => (state, s) end.

(** ** The scan of a prefix *)

Section scan.

Context {St : Type} (visitor : Visitor St FactEvent) (snapshot_seq : Z).

(** A version that the snapshot sees is decoded and visited. *)
Definition visit_entry (state : St) (key : DecodedFactKey) (value : list byte)
  : St * Status :=
  if kMaxFactValuePayloadBytes + 64 <? Z.of_nat (length value) then
    (state, Corruption "fact scan" "oversized fact value")
  else
    with_value state
      (DecodeFactValue (key_ref key) (key_valid_from key) (key_commit_seq key) value)
      (visitor state).

Fixpoint scan_loop (bounds : FactScanBounds) (state : St) (entries : column_family)
  : St * Status :=
  match entries with
  | [] => (state, StatusOK)
  | (k, v) :: entries' =>
      with_value state (DecodeFactKey k) (fun key =>
        let entity := ref_entity_id (key_ref key) in
        if opt_test (entity_id_min bounds) (fun m => entity <? m) then
          scan_loop bounds state entries'
        else if opt_test (entity_id_max bounds) (fun m => m <? entity) then (state, StatusOK)
        else if snapshot_seq <? key_commit_seq key then scan_loop bounds state entries'
        else and_then (visit_entry state key v) (fun state => scan_loop bounds state entries'))
  end.

(** The rows of one family in one partition. *)
Fixpoint family_rows (state : St) (entries : column_family) : St * Status :=
  match entries with
  | [] => (state, StatusOK)
  | (k, v) :: entries' =>
      with_value state (DecodeFactKey k) (fun key =>
        if key_commit_seq key <=? snapshot_seq then
          and_then (visit_entry state key v) (fun state => family_rows state entries')
        else family_rows state entries')
  end.

End scan.

Definition Scan {St} (snapshot : StoreSnapshot) (prefix : FactPrefix)
    (bounds : FactScanBounds) (visitor : Visitor St FactEvent) (state : St)
  : St * Status :=
  if negb (snapshot_owned snapshot) then
    (state, InvalidArgument "fact scan" "snapshot belongs to another store")
  else
    and_then (state, FactPrefix_Validate prefix) (fun state =>
    if match entity_id_min bounds, entity_id_max bounds with
       | Some lo, Some hi => hi <? lo
       | _, _ => false
       end
    then (state, InvalidArgument "fact scan" "invalid entity range")
    else if match prefix_entity_id prefix with
            | Some e => opt_test (entity_id_min bounds) (fun m => e <? m)
                        || opt_test (entity_id_max bounds) (fun m => m <? e)
            | None => false
            end
    then (state, StatusOK)
    else
      let seek_entity :=
        match prefix_entity_id prefix with
        | Some e => Some e
        | None => entity_id_min bounds
        end in
      let encode := EncodeFactIdentityPrefix (prefix_part_id prefix)
                      (prefix_family prefix) (prefix_property_id prefix) in
      scan_loop visitor (snapshot_commit_seq snapshot) bounds state
        (while_prefix (encode (prefix_entity_id prefix))
           (Seek (encode seek_entity) (snapshot_facts snapshot)))).

(** ** The scan of a family *)

(** [encoded.resize(kEncodedFactKeyBytes, '\0')] before the seek. *)
Definition pad_key (prefix : list byte) : list byte :=
  take kEncodedFactKeyBytes (prefix ++ replicate (kEncodedFactKeyBytes - length prefix) (z2b 0)).

Definition seek_prefix_at (prefix : list byte) (cf : column_family)
  : StatusOr column_family :=
  if bool_decide (prefix = []) || (kEncodedFactKeyBytes <? length prefix)%nat then
    Fail (Corruption "fact scan" "invalid family scan prefix")
  else Ok (Seek (pad_key prefix) cf).

Definition read_part (key : list byte) : Z := be_value 4 (take 4 (drop 1 key)).

Definition append_part (prefix : list byte) (part : Z) : list byte :=
  prefix ++ be_bytes 4 part.

(** One partition per round; the iterator is where it was sought last. *)
Fixpoint scan_parts {St} (fuel : nat) (visitor : Visitor St FactEvent)
    (snapshot_seq : Z) (family : FactFamily) (cf : column_family) (state : St)
    (entries : column_family) : option (St * Status) :=
  match fuel, entries with
  | _, [] => Some (state, StatusOK)
  | O, _ => None
  | S fuel', (k, _) :: _ =>
      if (length k <? kEncodedFactKeyBytes)%nat then
        Some (state, Corruption "fact scan" "invalid fact key")
      else
        let version := take 1 k in
        let part := read_part k in
        let family_prefix := append_part version part ++ [z2b (FactFamily_to_u8 family)] in
        match
          with_value state (seek_prefix_at family_prefix cf) (fun rows =>
            family_rows visitor snapshot_seq state (while_prefix family_prefix rows))
        with
        | (state, StatusOK) =>
            if part =? 2 ^ 32 - 1 then Some (state, StatusOK)
            else
              match seek_prefix_at (append_part version (part + 1)) cf with
              | Fail s => Some (state, s)
              | Ok entries =>
                  scan_parts fuel' visitor snapshot_seq family cf state entries
              end
        | (state, s) => Some (state, s)
        end
  end.

Definition ScanFamily {St} (snapshot : StoreSnapshot) (family : FactFamily)
    (visitor : Visitor St FactEvent) (state : St) : option (St * Status) :=
  if negb (snapshot_owned snapshot) then
    Some (state, InvalidArgument "fact scan" "snapshot belongs to another store")
  else
    let cf := snapshot_facts snapshot in
    scan_parts (S (length cf)) visitor (snapshot_commit_seq snapshot) family cf state cf.

(** ** Batched neighborhoods *)

Record TemporalNeighborhoodQuery := mkTemporalNeighborhoodQuery {
  query_ref : FactRef;
  query_valid_time : Z
}.

(** The order of the queries: by part, family, property and entity. *)
Definition query_key (q : TemporalNeighborhoodQuery) : Z * Z * Z * Z :=
  let r := query_ref q in
  (ref_part_id r, FactFamily_to_u8 (ref_family r), ref_property_id r, ref_entity_id r).

Definition tuple4_less (a b : Z * Z * Z * Z) : bool :=
  let '(a1, a2, a3, a4) := a in
  let '(b1, b2, b3, b4) := b in
  if a1 =? b1 then
    if a2 =? b2 then
      if a3 =? b3 then a4 <? b4 else a3 <? b3
    else a2 <? b2
  else a1 <? b1.

Definition ReadTemporalNeighborhoods (might_contain : option (FactRef -> bool))
    (snapshot : StoreSnapshot) (queries : list TemporalNeighborhoodQuery)
  : StatusOr (list TemporalNeighborhood) :=
  match queries with
  | [] => Ok []
  | _ =>
      if negb (snapshot_owned snapshot) then
        Fail (InvalidArgument "temporal neighborhood" "snapshot belongs to another store")
      else
        _ ← loop (fun _ q => check (FactRef_Validate (query_ref q))) tt queries;
        let order := stable_sort
          (fun a b => tuple4_less (query_key a.2) (query_key b.2))
          (zip (seq 0 (length queries)) queries) in
        loop (fun neighborhoods '(index, q) =>
                n ← ReadTemporalNeighborhood might_contain (snapshot_facts snapshot)
                      (query_ref q) (query_valid_time q) (snapshot_commit_seq snapshot);
                Ok (<[index := n]> neighborhoods))
             (replicate (length queries) (mkTemporalNeighborhood None None None)) order
  end.

(** ** Lookups *)

Definition ReadEdgeIdentity (snapshot : StoreSnapshot) (edge : EdgeRef)
  : StatusOr (option EdgeIdentity) :=
  fact ← Read snapshot (mkFactRef (edge_home_part_id edge) kEdgeIdentity 0
                          (edge_ref_id edge)) 0;
  match e ← fact; event_edge_identity e with
  | None => Fail (Corruption "edge identity"
                    "edge state lacks an authoritative identity fact")
  | Some i =>
      if bool_decide (edge_ref i = edge) then Ok (Some i)
      else Fail (Corruption "edge identity" "identity fact disagrees with key")
  end.

Definition LookupEdgeIdentity (snapshot : StoreSnapshot) (edge : EdgeRef)
  : StatusOr (option EdgeIdentity) :=
  if edge_ref_id edge =? 0 then Fail (InvalidArgument "edge identity" "zero edge ID")
  else
    let '(has_visible_edge_state, scanned) :=
      Scan snapshot (FactPrefix_Exact (EntityFact_Edge edge)) no_bounds
        (fun _ _ => (true, StatusOK)) false in
    _ ← check scanned;
    if negb has_visible_edge_state then Ok None else ReadEdgeIdentity snapshot edge.

(** The overload for a caller that has read the state of the edge already. *)
Definition LookupEdgeIdentity_observed (snapshot : StoreSnapshot) (edge : EdgeRef)
    (observed_edge_state : FactEvent) : StatusOr (option EdgeIdentity) :=
  if edge_ref_id edge =? 0 then Fail (InvalidArgument "edge identity" "zero edge ID")
  else if negb (bool_decide (event_ref observed_edge_state = EntityFact_Edge edge))
          || bool_decide (event_operation observed_edge_state = kDelete) then
    Fail (InvalidArgument "edge identity"
            "observed edge state does not match the lookup key")
  else if snapshot_commit_seq snapshot <? event_commit_seq observed_edge_state then
    Fail (InvalidArgument "edge identity" "observed edge state is newer than the snapshot")
  else ReadEdgeIdentity snapshot edge.

(** The catalog: the definitions of a property by their epochs, from 1. *)
Definition PropertySchemas : Type := gmap Z (list PropertyDefinition).

Definition LookupPropertyInSchemas (schemas : PropertySchemas) (property_id schema_epoch : Z)
  : StatusOr (option PropertyDefinition) :=
  if property_id =? 0 then
    Fail (InvalidArgument "property definition" "zero property ID")
  else
    match schemas !! property_id with
    | None | Some [] => Ok None
    | Some epochs =>
        if Z.of_nat (length epochs) <? schema_epoch then Ok None
        else if schema_epoch =? 0 then Ok (last epochs)
        else Ok (epochs !! Z.to_nat (schema_epoch - 1))
    end.

(** [catalog] is the one the epoch of the snapshot points to, null when absent. *)
Definition LookupProperty (snapshot : StoreSnapshot) (catalog : option PropertySchemas)
    (property_id schema_epoch : Z) : StatusOr (option PropertyDefinition) :=
  if negb (snapshot_owned snapshot) then
    Fail (InvalidArgument "property definition" "snapshot belongs to another store")
  else
    match catalog with
    | None => Fail (InvalidArgument "property definition"
                      "snapshot schema catalog is unavailable")
    | Some schemas => LookupPropertyInSchemas schemas property_id schema_epoch
    end.

(** ** Specification *)

(** The events a prefix scan is asked for. *)
Definition in_prefix (p : FactPrefix) (r : FactRef) : Prop :=
  ref_part_id r = prefix_part_id p /\ ref_family r = prefix_family p /\
  ref_property_id r = prefix_property_id p /\
  match prefix_entity_id p with Some e => ref_entity_id r = e | None => True end.

Definition at_least (lo : option Z) (entity : Z) : Prop :=
  match lo with Some lo => lo <= entity | None => True end.

Definition in_bounds (b : FactScanBounds) (entity : Z) : Prop :=
  at_least (entity_id_min b) entity /\
  match entity_id_max b with Some hi => entity <= hi | None => True end.

#[export] Instance in_prefix_dec p r : Decision (in_prefix p r).
Proof. unfold in_prefix. destruct (prefix_entity_id p); apply _. Defined.

#[export] Instance at_least_dec lo entity : Decision (at_least lo entity).
Proof. unfold at_least. destruct lo; apply _. Defined.

#[export] Instance in_bounds_dec b entity : Decision (in_bounds b entity).
Proof. unfold in_bounds. destruct (entity_id_max b); apply _. Defined.

Definition prefix_typed (p : FactPrefix) : Prop :=
  uint 32 (prefix_part_id p) /\ uint 16 (prefix_property_id p) /\
  match prefix_entity_id p with Some e => uint 64 e | None => True end.

Definition bounds_typed (b : FactScanBounds) : Prop :=
  match entity_id_min b with Some lo => uint 64 lo | None => True end /\
  match entity_id_max b with Some hi => uint 64 hi | None => True end.

(** The first bytes of the keys of a family in a partition. *)
Definition family_bytes (part : Z) (family : FactFamily) : list byte :=
  z2b kFactKeyVersion :: be_bytes 4 part ++ [z2b (FactFamily_to_u8 family)].

(** The events of a column family in the order of their keys. *)
Definition stored_in_order (cf : column_family) (evs : list FactEvent) : Prop :=
  cf_sorted cf /\ Forall2 entry_of evs cf.

(** Facts of two families in two partitions. *)
Definition spread_events : list FactEvent :=
  [mkFactEvent (mkFactRef 1 kVertexState 0 9) 10 2 kPut 0 None None;
   sample_version 10 4 (Some (VInt32 7)); sample_version 10 2 (Some (VInt32 5));
   mkFactEvent (mkFactRef 3 kVertexProperty 4 9) 10 5 kPut 1 (Some (VInt32 3)) None;
   mkFactEvent (mkFactRef 3 kEdgeState 0 8) 10 6 kDelete 0 None None].

Definition spread_cf : column_family := encoded_cf spread_events.

(** ** Loops on events *)

Section visits.

Context {St : Type} (visitor : Visitor St FactEvent) (snapshot_seq : Z).

Lemma visit_entry_event state e k v :
  entry_of e (k, v) ->
  visit_entry visitor state
    (mkDecodedFactKey (event_ref e) (event_valid_from e) (event_commit_seq e)) v
  = visitor state e.
Proof.
  intros He. unfold visit_entry. pose proof (entry_value_size _ _ He) as Hl. cbn [snd] in Hl.
  rewrite (proj2 (Z.ltb_ge _ _) Hl).
  cbn [key_ref key_valid_from key_commit_seq].
  by rewrite (entry_decode_value _ _ He : DecodeFactValue _ _ _ v = _).
Qed.

Lemma visit_app {A} (body : Visitor St A) state l k :
  visit body state (l ++ k) = and_then (visit body state l) (fun state => visit body state k).
Proof.
  revert state. induction l as [|a l IH]; intros state; [done|]. cbn [visit app].
  destruct (body state a) as [state' []]; [apply IH|done].
Qed.

Lemma family_rows_events state evs entries :
  Forall2 entry_of evs entries ->
  family_rows visitor snapshot_seq state entries
  = visit visitor state (filter (fun e => event_commit_seq e <= snapshot_seq) evs).
Proof.
  intros H. revert state. induction H as [|e [k v] evs entries He Hf IH]; intros state; [done|].
  cbn [family_rows]. rewrite (entry_decode_key _ _ He : DecodeFactKey k = _).
  cbn [with_value key_commit_seq]. rewrite filter_cons.
  destruct (Z.leb_spec (event_commit_seq e) snapshot_seq).
  - rewrite decide_True by lia. rewrite (visit_entry_event state e k v He). cbn [visit].
    destruct (visitor state e) as [state' []]; [apply IH|done].
  - rewrite decide_False by lia. apply IH.
Qed.

(** The entities ascend within a prefix, so the upper bound may end the loop. *)
Lemma scan_loop_events bounds state evs entries :
  StronglySorted (fun a b => ref_entity_id (event_ref a) <= ref_entity_id (event_ref b)) evs ->
  Forall2 entry_of evs entries ->
  scan_loop visitor snapshot_seq bounds state entries
  = visit visitor state (filter (fun e => in_bounds bounds (ref_entity_id (event_ref e)) /\
                                         event_commit_seq e <= snapshot_seq) evs).
Proof.
  intros Hs H. revert state Hs. induction H as [|e [k v] evs entries He Hf IH];
    intros state Hs; [done|]. inversion_clear Hs as [|? ? Hs' Hle].
  cbn [scan_loop]. rewrite (entry_decode_key _ _ He : DecodeFactKey k = _).
  cbn [with_value key_commit_seq key_ref]. rewrite filter_cons. unfold opt_test.
  assert (forall hi, entity_id_max bounds = Some hi -> hi < ref_entity_id (event_ref e) ->
    filter (fun e => in_bounds bounds (ref_entity_id (event_ref e)) /\
                     event_commit_seq e <= snapshot_seq) evs = []) as Hend.
  { intros hi Ehi Hlt. apply filter_none. eapply Forall_impl; [exact Hle|].
    cbn. intros x Hx [[_ Hb] _]. rewrite Ehi in Hb. lia. }
  destruct (match entity_id_min bounds with Some m => _ <? m | None => false end) eqn:Emin.
  { rewrite decide_False; [by apply IH|]. intros [[Hb _] _]. unfold at_least in Hb.
    destruct (entity_id_min bounds); [|done]. bool_to_prop. lia. }
  destruct (match entity_id_max bounds with Some m => m <? _ | None => false end) eqn:Emax.
  { destruct (entity_id_max bounds) as [hi|] eqn:Ehi; [|done]. bool_to_prop.
    rewrite (Hend hi) by done. rewrite decide_False; [done|].
    intros [[_ Hb] _]. rewrite Ehi in Hb. lia. }
  assert (in_bounds bounds (ref_entity_id (event_ref e))) as Hin.
  { unfold in_bounds, at_least. split; [destruct (entity_id_min bounds)|destruct (entity_id_max bounds)]; try done;
      bool_to_prop; lia. }
  destruct (Z.ltb_spec snapshot_seq (event_commit_seq e)).
  - rewrite decide_False by (intros [_ ?]; lia). by apply IH.
  - rewrite decide_True by (split; [done|lia]). rewrite (visit_entry_event state e k v He).
    cbn [visit]. destruct (visitor state e) as [state' []]; [by apply IH|done].
Qed.

End visits.

(** ** Prefixes of stored keys *)

Lemma family_byte_inj f g :
  IsKnownFamily f = true -> IsKnownFamily g = true ->
  z2b (FactFamily_to_u8 f) = z2b (FactFamily_to_u8 g) -> f = g.
Proof. by destruct f, g. Qed.

Lemma entry_key_eq e kv :
  entry_of e kv ->
  fst kv = z2b kFactKeyVersion :: be_bytes 4 (ref_part_id (event_ref e)) ++
           z2b (FactFamily_to_u8 (ref_family (event_ref e))) ::
           be_bytes 2 (ref_property_id (event_ref e)) ++
           be_bytes 8 (ref_entity_id (event_ref e)) ++
           be_bytes 8 (bnot64 (event_valid_from e)) ++ be_bytes 8 (bnot64 (event_commit_seq e)).
Proof.
  intros H. pose proof (entry_key_ok _ _ H) as (_ & Hv & _ & _ & Hc).
  destruct H as (_ & -> & _). unfold event_key. rewrite EncodeFactKey_eq by done.
  unfold ref_bytes. by rewrite <- !app_comm_cons, <- !app_assoc, <- !app_comm_cons, <- !app_assoc.
Qed.

Lemma entry_in_family e kv part family :
  entry_of e kv -> uint 32 part -> IsKnownFamily family = true ->
  StartsWith (fst kv) (family_bytes part family) = true <->
  ref_part_id (event_ref e) = part /\ ref_family (event_ref e) = family.
Proof.
  intros H Hp Hf. pose proof (entry_key_ok _ _ H) as ((Hpe & _) & Hv & _).
  apply FactRef_Validate_OK in Hv as (Hfe & _). rewrite (entry_key_eq _ _ H).
  unfold family_bytes. split.
  - intros [s E]%StartsWith_true. rewrite <- app_comm_cons, <- app_assoc in E.
    apply (inj2 cons) in E as [_ E]. apply app_inj_1 in E as [E1 E2]; [|by rewrite !length_be_bytes].
    apply be_bytes_inj in E1; [|done..]. rewrite <- app_comm_cons in E2.
    apply (inj2 cons) in E2 as [E2 _]. split; [done|].
    by apply family_byte_inj.
  - intros [<- <-]. apply StartsWith_true. eexists.
    by rewrite <- app_comm_cons, <- app_assoc.
Qed.

(** ** The order of stored events *)

Lemma stored_sorted (R : FactEvent -> FactEvent -> Prop) cf evs :
  (forall a b kva kvb, entry_of a kva -> entry_of b kvb -> bytes_lt (fst kva) (fst kvb) -> R a b) ->
  stored_in_order cf evs -> StronglySorted R evs.
Proof.
  intros HR [Hs Hf]. induction Hf as [|e kv evs cf He Hf IH]; [constructor|].
  inversion_clear Hs as [|? ? Hs' Hall]. constructor; [by apply IH|].
  apply Forall_forall. intros x Hx. apply list_elem_of_lookup in Hx as [i Hi].
  destruct (Forall2_lookup_l _ _ _ _ _ Hf Hi) as (kvx & Hkx & Hxe).
  apply (HR e x kv kvx He Hxe). rewrite Forall_forall in Hall.
  apply Hall. by eapply list_elem_of_lookup_2.
Qed.

Lemma entry_lt_compare a b kva kvb :
  entry_of a kva -> entry_of b kvb -> bytes_lt (fst kva) (fst kvb) ->
  version_compare (mkDecodedFactKey (event_ref a) (event_valid_from a) (event_commit_seq a))
    (mkDecodedFactKey (event_ref b) (event_valid_from b) (event_commit_seq b)) = Lt.
Proof.
  intros Ha Hb. pose proof (entry_key_ok _ _ Ha) as Ka. pose proof (entry_key_ok _ _ Hb) as Kb.
  destruct Ha as (_ & -> & _), Hb as (_ & -> & _). unfold bytes_lt, event_key.
  intros <-. symmetry. by apply (EncodeFactKey_compare
    (mkDecodedFactKey (event_ref a) (event_valid_from a) (event_commit_seq a))
    (mkDecodedFactKey (event_ref b) (event_valid_from b) (event_commit_seq b))).
Qed.

Lemma stored_parts cf evs :
  stored_in_order cf evs ->
  StronglySorted (fun a b => ref_part_id (event_ref a) <= ref_part_id (event_ref b)) evs.
Proof.
  apply stored_sorted. intros a b kva kvb Ha Hb Hlt.
  pose proof (entry_lt_compare a b kva kvb Ha Hb Hlt) as H.
  unfold version_compare, ref_compare in H. cbn [key_ref] in H.
  destruct (Z.compare_spec (ref_part_id (event_ref a)) (ref_part_id (event_ref b))); [lia..|done].
Qed.

Lemma sorted_filter_impl {A} (R R' : A -> A -> Prop) (P : A -> Prop)
    `{!forall x, Decision (P x)} l :
  (forall a b, P a -> P b -> R a b -> R' a b) ->
  StronglySorted R l -> StronglySorted R' (filter P l).
Proof.
  intros HR. induction 1 as [|a l Hs IH Hall]; [constructor|]. rewrite filter_cons.
  case_decide as Ha; [|done]. constructor; [done|]. rewrite Forall_forall in *.
  intros b [Hb ?]%list_elem_of_filter. auto.
Qed.

(** The entities ascend within a prefix. *)
Lemma stored_in_prefix cf evs p :
  stored_in_order cf evs ->
  StronglySorted (fun a b => in_prefix p (event_ref a) -> in_prefix p (event_ref b) ->
    ref_entity_id (event_ref a) <= ref_entity_id (event_ref b)) evs.
Proof.
  apply stored_sorted. intros a b kva kvb Ha Hb Hlt (P1 & P2 & P3 & _) (Q1 & Q2 & Q3 & _).
  pose proof (entry_lt_compare a b kva kvb Ha Hb Hlt) as H.
  unfold version_compare, ref_compare in H. cbn [key_ref] in H.
  rewrite P1, P2, P3, Q1, Q2, Q3, !Z.compare_refl in H. cbn [then_compare] in H.
  destruct (Z.compare_spec (ref_entity_id (event_ref a)) (ref_entity_id (event_ref b)));
    [lia..|done].
Qed.

(** ** The partitions of a family scan *)

Lemma zeros_least n s : length s = n -> bytes_compare s (replicate n (z2b 0)) <> Lt.
Proof.
  revert n. induction s as [|b s IH]; intros n <-; [done|]. cbn [length replicate bytes_compare].
  rewrite b2z_z2b. pose proof (b2z_range b). change (0 mod 256) with 0.
  destruct (Z.compare_spec (b2z b) 0); [by apply IH|lia|done].
Qed.

Lemma pad_key_eq prefix :
  (length prefix <= kEncodedFactKeyBytes)%nat ->
  pad_key prefix = prefix ++ replicate (kEncodedFactKeyBytes - length prefix) (z2b 0).
Proof. intros Hl. unfold pad_key. apply take_ge. rewrite length_app, length_replicate. lia. Qed.

Lemma seek_prefix_at_Ok prefix cf :
  prefix <> [] -> (length prefix <= kEncodedFactKeyBytes)%nat ->
  seek_prefix_at prefix cf
  = Ok (Seek (prefix ++ replicate (kEncodedFactKeyBytes - length prefix) (z2b 0)) cf).
Proof.
  intros Hn Hl. unfold seek_prefix_at. rewrite bool_decide_false by done.
  rewrite (proj2 (Nat.ltb_ge _ _)) by done. cbn [orb]. by rewrite pad_key_eq.
Qed.

Lemma entry_key_length e kv : entry_of e kv -> length (fst kv) = kEncodedFactKeyBytes.
Proof.
  intros H. rewrite (entry_key_eq _ _ H). cbn [length]. rewrite !length_app, !length_be_bytes.
  cbn [length]. by rewrite !length_app, !length_be_bytes.
Qed.

Lemma family_block cf evs part family :
  stored_in_order cf evs -> uint 32 part -> IsKnownFamily family = true ->
  exists rows, seek_prefix_at (family_bytes part family) cf = Ok rows /\
    Forall2 entry_of
      (filter (fun e => ref_part_id (event_ref e) = part /\ ref_family (event_ref e) = family) evs)
      (while_prefix (family_bytes part family) rows).
Proof.
  intros [Hs Hf] Hp Hfam.
  assert (length (family_bytes part family) = 6%nat) as Hl
    by (unfold family_bytes; cbn [length]; by rewrite length_app, length_be_bytes).
  eexists. split; [apply seek_prefix_at_Ok; [done|rewrite Hl; unfold kEncodedFactKeyBytes; lia]|].
  rewrite forward_block, Hl by done. apply Forall2_filter; [|done]. intros e kv _ _ He.
  rewrite <- (entry_in_family e kv part family) by done.
  split; [|tauto]. intros Hw. split; [done|]. pose proof (entry_key_length _ _ He) as Hk.
  apply StartsWith_true in Hw as [s Es]. rewrite Es in Hk |- *.
  rewrite bytes_compare_app, bytes_compare_refl by done. cbn [then_compare].
  apply zeros_least. rewrite length_app, Hl in Hk. unfold kEncodedFactKeyBytes in *. lia.
Qed.

Lemma part_block cf evs part :
  stored_in_order cf evs -> uint 32 part ->
  exists entries, seek_prefix_at (append_part [z2b kFactKeyVersion] part) cf = Ok entries /\
    Forall2 entry_of (filter (fun e => part <= ref_part_id (event_ref e)) evs) entries.
Proof.
  intros [Hs Hf] Hp. unfold append_part.
  assert (length ([z2b kFactKeyVersion] ++ be_bytes 4 part) = 5%nat) as Hl
    by by rewrite length_app, length_be_bytes.
  eexists. split; [apply seek_prefix_at_Ok; [done|rewrite Hl; unfold kEncodedFactKeyBytes; lia]|].
  rewrite Seek_filter, Hl by done. apply Forall2_filter; [|done]. intros e kv _ _ He.
  pose proof (entry_key_ok _ _ He) as ((Hpe & _) & _). pose proof (entry_key_length _ _ He) as Hk.
  rewrite (entry_key_eq _ _ He) in Hk |- *. rewrite <- app_assoc.
  cbn [app]. cbn [bytes_compare]. rewrite Z.compare_refl.
  rewrite bytes_compare_app, bytes_compare_be by (by rewrite ?length_be_bytes).
  cbn [length] in Hk. rewrite length_app, length_be_bytes in Hk.
  destruct (Z.compare_spec (ref_part_id (event_ref e)) part); cbn [then_compare].
  - split; [|lia]. intros _. apply zeros_least. unfold kEncodedFactKeyBytes in *. lia.
  - split; [lia|done].
  - split; [done|lia].
Qed.

Lemma filter_sorted_split {A} (P : A -> Prop) `{!forall x, Decision (P x)} (m : A -> Z) p q l :
  StronglySorted (fun a b => m a <= m b) l -> p <= q ->
  (forall x, x ∈ l -> p <= m x -> q <= m x) ->
  filter (fun x => P x /\ p <= m x) l
  = filter (fun x => P x /\ m x = q) l ++ filter (fun x => P x /\ q + 1 <= m x) l.
Proof.
  intros Hs Hpq. induction Hs as [|a l Hs IH Hall]; intros Hgap; [done|].
  assert (filter (fun x => P x /\ p <= m x) l
    = filter (fun x => P x /\ m x = q) l ++ filter (fun x => P x /\ q + 1 <= m x) l) as IH'
    by (apply IH; intros; apply Hgap; [by right|done]).
  pose proof (Hgap a (list_elem_of_here _ _)) as Ha. rewrite !filter_cons.
  destruct (decide (P a)) as [HP|HP].
  2: { rewrite !decide_False by tauto. done. }
  destruct (Z.lt_trichotomy (m a) q) as [Hlt|[Heq|Hgt]].
  - rewrite !decide_False by (intros [_ ?]; specialize (Ha ltac:(done)) || idtac; lia). done.
  - rewrite (decide_True _ _ (P := P a /\ p <= m a)), (decide_True _ _ (P := P a /\ m a = q)),
      (decide_False _ _ (P := P a /\ q + 1 <= m a)) by (try split; try tauto; lia).
    by rewrite IH'.
  - rewrite (decide_True _ _ (P := P a /\ p <= m a)), (decide_False _ _ (P := P a /\ m a = q)),
      (decide_True _ _ (P := P a /\ q + 1 <= m a)) by (try split; try tauto; lia).
    rewrite IH', (filter_none _ l); [done|]. eapply Forall_impl; [exact Hall|].
    cbn. intros x Hx [_ ?]. lia.
Qed.

Lemma read_part_key e kv :
  entry_of e kv -> read_part (fst kv) = ref_part_id (event_ref e) /\
  take 1 (fst kv) = [z2b kFactKeyVersion].
Proof.
  intros H. pose proof (entry_key_ok _ _ H) as ((Hp & _) & _). unfold read_part.
  rewrite (entry_key_eq _ _ H). split; [|done].
  match goal with |- context [drop 1 (?b :: ?l)] => change (drop 1 (b :: l)) with l end.
  rewrite (take_app_length' (be_bytes 4 _)) by by rewrite length_be_bytes.
  rewrite be_value_num, be_num_bytes by by rewrite length_be_bytes. by apply Z.mod_small.
Qed.

Section family.

Context {St : Type} (visitor : Visitor St FactEvent) (snapshot_seq : Z).
Context (family : FactFamily) (cf : column_family) (evs : list FactEvent).
Hypothesis Hst : stored_in_order cf evs.
Hypothesis Hfamily : IsKnownFamily family = true.

Let wanted (e : FactEvent) : Prop :=
  ref_family (event_ref e) = family /\ event_commit_seq e <= snapshot_seq.

(** The first event that is left is of the least partition that is left. *)
Lemma first_part_least p e0 rest x :
  filter (fun e => p <= ref_part_id (event_ref e)) evs = e0 :: rest ->
  x ∈ evs -> p <= ref_part_id (event_ref x) ->
  ref_part_id (event_ref e0) <= ref_part_id (event_ref x).
Proof.
  intros Efilter Hx Hpx.
  assert (x ∈ filter (fun e => p <= ref_part_id (event_ref e)) evs) as Hxf
    by by apply list_elem_of_filter.
  assert (StronglySorted (fun a b => ref_part_id (event_ref a) <= ref_part_id (event_ref b))
            (filter (fun e => p <= ref_part_id (event_ref e)) evs)) as Hsf
    by (eapply sorted_filter_impl; [|by eapply stored_parts]; auto).
  rewrite Efilter in Hxf, Hsf. inversion_clear Hsf as [|? ? _ Hall].
  apply elem_of_cons in Hxf as [->|Hxf]; [done|]. rewrite Forall_forall in Hall. by apply Hall.
Qed.

Lemma left_parts_shorter p e0 rest :
  filter (fun e => p <= ref_part_id (event_ref e)) evs = e0 :: rest ->
  (length (filter (fun e => (ref_part_id (event_ref e0) + 1 <= ref_part_id (event_ref e))%Z) evs)
   <= length rest)%nat.
Proof.
  intros Efilter.
  assert (e0 ∈ filter (fun e => p <= ref_part_id (event_ref e)) evs) as [Hp0 _]%list_elem_of_filter
    by (rewrite Efilter; by left).
  assert (filter (fun e => ref_part_id (event_ref e0) + 1 <= ref_part_id (event_ref e)) evs
          = filter (fun e => ref_part_id (event_ref e0) + 1 <= ref_part_id (event_ref e)) rest) as ->.
  { transitivity (filter (fun e => ref_part_id (event_ref e0) + 1 <= ref_part_id (event_ref e))
                    (filter (fun e => p <= ref_part_id (event_ref e)) evs)).
    - rewrite list_filter_filter. apply filter_ext_on. intros; lia.
    - rewrite Efilter, filter_cons, decide_False by lia. done. }
  apply length_filter.
Qed.

(** A round from the first partition that is left. *)
Lemma scan_parts_events fuel p state entries :
  Forall2 entry_of (filter (fun e => p <= ref_part_id (event_ref e)) evs) entries ->
  (length entries <= fuel)%nat ->
  scan_parts fuel visitor snapshot_seq family cf state entries
  = Some (visit visitor state
            (filter (fun e => wanted e /\ p <= ref_part_id (event_ref e)) evs)).
Proof.
  revert p state entries. induction fuel as [|fuel IH]; intros p state entries Hent Hlen.
  all: rewrite <- (list_filter_filter wanted (fun e => p <= ref_part_id (event_ref e))).
  { destruct entries; [|cbn in Hlen; lia]. by apply Forall2_nil_inv_r in Hent as ->. }
  destruct entries as [|[k v] entries]; [by apply Forall2_nil_inv_r in Hent as ->|].
  pose proof Hent as Hent'. apply Forall2_cons_inv_r in Hent as (e0 & rest & He0 & _ & Efilter).
  assert (e0 ∈ filter (fun e => p <= ref_part_id (event_ref e)) evs) as Hin0
    by (rewrite Efilter; by left).
  apply list_elem_of_filter in Hin0 as [Hp0 Hin0].
  pose proof (entry_key_ok _ _ He0) as ((Hq & _) & _).
  destruct (read_part_key _ _ He0) as [Ep Ev]. cbn [fst] in Ep, Ev.
  pose proof (entry_key_length _ _ He0) as Hk. cbn [fst] in Hk.
  set (q := ref_part_id (event_ref e0)) in *.
  pose proof (stored_parts cf evs Hst) as Hsorted.
  pose proof (fun x => first_part_least p e0 rest x Efilter) as Hgap. fold q in Hgap.
  cbn [scan_parts]. rewrite Hk, Nat.ltb_irrefl, Ev, Ep.
  destruct (family_block cf evs q family Hst Hq Hfamily) as (rows & Er & Hrows).
  change (append_part [z2b kFactKeyVersion] q ++ [z2b (FactFamily_to_u8 family)])
    with (family_bytes q family).
  rewrite Er. cbn [with_value]. rewrite (family_rows_events _ _ _ _ _ Hrows).
  rewrite !list_filter_filter, (filter_sorted_split wanted _ p q evs Hsorted Hp0 Hgap), visit_app.
  rewrite (filter_ext_on (fun x => wanted x /\ ref_part_id (event_ref x) = q)
             (fun x => event_commit_seq x <= snapshot_seq /\
                ref_part_id (event_ref x) = q /\ ref_family (event_ref x) = family))
    by (unfold wanted; tauto).
  destruct (visit visitor state _) as [state' []]; cbn [and_then]; [|done].
  destruct (Z.eqb_spec q (2 ^ 32 - 1)) as [Hmax|Hmax].
  { rewrite filter_none; [done|]. apply Forall_forall. intros x Hx [_ Hge].
    destruct Hst as [_ Hf]. apply list_elem_of_lookup in Hx as [i Hi].
    destruct (Forall2_lookup_l _ _ _ _ _ Hf Hi) as (kv & _ & Hxe).
    pose proof (entry_key_ok _ _ Hxe) as ((Hpx & _) & _). unfold uint in Hpx. lia. }
  destruct (part_block cf evs (q + 1) Hst) as (entries1 & E1 & Hent1); [unfold uint in *; lia|].
  rewrite E1. apply IH; [done|].
  pose proof (left_parts_shorter p e0 rest Efilter). fold q in H.
  apply Forall2_length in Hent1. apply Forall2_length in Hent'. rewrite <- Hent1.
  rewrite Efilter in Hent'. cbn [length] in Hent', Hlen. lia.
Qed.

End family.

(** A family scan is the scan of all facts, restricted to the family. *)
Lemma ScanFamily_OK {St} snapshot family (visitor : Visitor St FactEvent) state evs :
  stored_in_order (snapshot_facts snapshot) evs -> IsKnownFamily family = true ->
  snapshot_owned snapshot = true ->
  ScanFamily snapshot family visitor state
  = Some (visit visitor state
      (filter (fun e => ref_family (event_ref e) = family /\
                        event_commit_seq e <= snapshot_commit_seq snapshot) evs)).
Proof.
  intros Hst Hf Ho. unfold ScanFamily. rewrite Ho. cbn [negb].
  assert (forall x, x ∈ evs -> 0 <= ref_part_id (event_ref x)) as Hpos.
  { intros x Hx. destruct Hst as [_ Hall]. apply list_elem_of_lookup in Hx as [i Hi].
    destruct (Forall2_lookup_l _ _ _ _ _ Hall Hi) as (kv & _ & Hxe).
    pose proof (entry_key_ok _ _ Hxe) as ((Hpx & _) & _). apply Hpx. }
  rewrite (scan_parts_events visitor _ family _ evs Hst Hf _ 0).
  - do 2 f_equal. apply filter_ext_on. intros x Hx. specialize (Hpos x Hx). tauto.
  - rewrite filter_all; [apply Hst|]. by apply Forall_forall.
  - lia.
Qed.

(** ** The scan of a prefix *)

Lemma prefix_bytes_eq p o :
  EncodeFactIdentityPrefix (prefix_part_id p) (prefix_family p) (prefix_property_id p) o
  = (family_bytes (prefix_part_id p) (prefix_family p) ++ be_bytes 2 (prefix_property_id p))
    ++ match o with Some e => be_bytes 8 e | None => [] end.
Proof.
  unfold EncodeFactIdentityPrefix, AppendU16, AppendU32, AppendU64, family_bytes.
  destruct o; by rewrite <- ?app_comm_cons, <- ?app_assoc, ?app_nil_r.
Qed.

Lemma prefix_validate_OK p :
  FactPrefix_Validate p = StatusOK -> IsKnownFamily (prefix_family p) = true.
Proof.
  unfold FactPrefix_Validate. destruct (FactRef_Validate _) eqn:E; [|done]. intros _.
  by apply FactRef_Validate_OK in E as [? _].
Qed.

(** Where the key of an event lies relative to the bytes of a prefix. *)
Lemma entry_prefix_split e kv :
  entry_of e kv ->
  exists tail, fst kv = (family_bytes (ref_part_id (event_ref e)) (ref_family (event_ref e))
                          ++ be_bytes 2 (ref_property_id (event_ref e)))
                        ++ be_bytes 8 (ref_entity_id (event_ref e)) ++ tail.
Proof.
  intros H. rewrite (entry_key_eq _ _ H). eexists. unfold family_bytes.
  by rewrite <- ?app_comm_cons, <- ?app_assoc, <- ?app_comm_cons, <- ?app_assoc.
Qed.

Lemma family_bytes_inj a f b g :
  uint 32 a -> uint 32 b -> IsKnownFamily f = true -> IsKnownFamily g = true ->
  family_bytes a f = family_bytes b g -> a = b /\ f = g.
Proof.
  intros Ha Hb Hf Hg E. unfold family_bytes in E. apply (inj2 cons) in E as [_ E].
  apply app_inj_1 in E as [E1 E2]; [|by rewrite !length_be_bytes].
  apply be_bytes_inj in E1; [|done..]. apply (inj2 cons) in E2 as [E2 _].
  split; [done|by apply family_byte_inj].
Qed.

Lemma length_family_bytes a f : length (family_bytes a f) = 6%nat.
Proof. unfold family_bytes. cbn [length]. by rewrite length_app, length_be_bytes. Qed.

Lemma entry_in_prefix e kv p :
  entry_of e kv -> prefix_typed p -> FactPrefix_Validate p = StatusOK ->
  StartsWith (fst kv) (EncodeFactIdentityPrefix (prefix_part_id p) (prefix_family p)
                         (prefix_property_id p) (prefix_entity_id p)) = true
  <-> in_prefix p (event_ref e).
Proof.
  intros H (Hp & Hq & Hent) Hv. apply prefix_validate_OK in Hv.
  destruct (entry_prefix_split _ _ H) as [tail ->].
  pose proof (entry_key_ok _ _ H) as ((Hpe & _ & Hqe & Hee) & Hve & _).
  apply FactRef_Validate_OK in Hve as (Hfe & _). rewrite prefix_bytes_eq. unfold in_prefix. split.
  - intros [s E]%StartsWith_true. rewrite <- (app_assoc (_ ++ _)) in E.
    apply app_inj_1 in E as [E1 E2].
    2: { by rewrite !length_app, !length_family_bytes, !length_be_bytes. }
    apply app_inj_1 in E1 as [E1 E3]; [|by rewrite !length_family_bytes].
    apply family_bytes_inj in E1 as [? ?]; [|done..]. apply be_bytes_inj in E3; [|done..].
    split_and!; [done..|]. destruct (prefix_entity_id p) as [n|]; [|done].
    apply app_inj_1 in E2 as [E2 _]; [|by rewrite !length_be_bytes].
    by apply be_bytes_inj in E2.
  - intros (-> & -> & -> & E). apply StartsWith_true.
    destruct (prefix_entity_id p) as [n|]; [rewrite E; exists tail|exists (be_bytes 8 (ref_entity_id (event_ref e)) ++ tail)];
      by rewrite <- !app_assoc.
Qed.

Lemma and_iff_on (P Q R : Prop) : (P -> Q <-> R) -> P /\ Q <-> P /\ R.
Proof. tauto. Qed.

(** The entries a prefix scan walks over: those of the prefix from the lower bound. *)
Lemma prefix_block cf evs p lo :
  stored_in_order cf evs -> prefix_typed p -> FactPrefix_Validate p = StatusOK ->
  match lo with Some n => uint 64 n | None => True end ->
  (prefix_entity_id p = None \/ lo = None) ->
  let encode := EncodeFactIdentityPrefix (prefix_part_id p) (prefix_family p)
                  (prefix_property_id p) in
  Forall2 entry_of
    (filter (fun e => in_prefix p (event_ref e) /\ at_least lo (ref_entity_id (event_ref e))) evs)
    (while_prefix (encode (prefix_entity_id p))
       (Seek (encode (match prefix_entity_id p with Some e => Some e | None => lo end)) cf)).
Proof.
  intros [Hs Hf] Hp Hv Hlo Hor encode.
  assert (exists s, encode (match prefix_entity_id p with Some e => Some e | None => lo end)
    = encode (prefix_entity_id p) ++ s /\
    s = match lo with Some n => be_bytes 8 n | None => [] end) as (s & -> & Es).
  { unfold encode. rewrite !prefix_bytes_eq. destruct (prefix_entity_id p); destruct Hor; subst;
      try done; eexists; (split; [|reflexivity]); by rewrite ?app_nil_r. }
  rewrite forward_block by done. apply Forall2_filter; [|done]. intros e kv _ _ He.
  unfold encode at 1. rewrite (entry_in_prefix e kv p) by done. apply and_iff_on. intros Hin.
  pose proof (proj2 (entry_in_prefix e kv p He Hp Hv) Hin) as [tail Ek]%StartsWith_true.
  fold encode in Ek. rewrite Ek, bytes_compare_app, bytes_compare_refl by done. cbn [then_compare].
  subst s. unfold at_least. destruct lo as [n|]; [|by destruct tail].
  destruct Hor as [Hor|]; [|done]. unfold encode in Ek. rewrite Hor, prefix_bytes_eq, app_nil_r in Ek.
  destruct (entry_prefix_split _ _ He) as [tail' Et]. destruct Hin as (P1 & P2 & P3 & _).
  rewrite P1, P2, P3, Ek in Et. apply app_inv_head in Et as ->.
  pose proof (entry_key_ok _ _ He) as ((_ & _ & _ & Hee) & _).
  rewrite <- (app_nil_r (be_bytes 8 n)), bytes_compare_app, bytes_compare_be
    by (by rewrite ?length_be_bytes).
  destruct (Z.compare_spec (ref_entity_id (event_ref e)) n); cbn [then_compare].
  - split; [by destruct tail'|lia].
  - split; [lia|done].
  - split; [done|lia].
Qed.

(** A prefix scan visits the visible events of the prefix within the bounds. *)
Lemma Scan_OK {St} snapshot p bounds (visitor : Visitor St FactEvent) state evs :
  stored_in_order (snapshot_facts snapshot) evs -> snapshot_owned snapshot = true ->
  prefix_typed p -> bounds_typed bounds -> FactPrefix_Validate p = StatusOK ->
  match entity_id_min bounds, entity_id_max bounds with
  | Some lo, Some hi => lo <= hi | _, _ => True end ->
  Scan snapshot p bounds visitor state
  = visit visitor state
      (filter (fun e => in_prefix p (event_ref e) /\
                        in_bounds bounds (ref_entity_id (event_ref e)) /\
                        event_commit_seq e <= snapshot_commit_seq snapshot) evs).
Proof.
  intros Hst Ho Hp [Hlo Hhi] Hv Hrange. unfold Scan. rewrite Ho, Hv.
  cbn [negb and_then].
  replace (match entity_id_min bounds with Some _ => _ | None => false end) with false
    by (destruct (entity_id_min bounds), (entity_id_max bounds); try done; symmetry; by apply Z.ltb_ge).
  destruct (match prefix_entity_id p with Some _ => _ | None => false end) eqn:Eout.
  { rewrite filter_none; [done|]. apply Forall_forall. intros x Hx ((_ & _ & _ & He) & [H1 H2] & _).
    destruct (prefix_entity_id p) as [n|]; [|done]. rewrite He in H1, H2. unfold at_least, opt_test in *.
    apply orb_true_iff in Eout as [E|E]; [destruct (entity_id_min bounds)|destruct (entity_id_max bounds)];
      try done; apply Z.ltb_lt in E; lia. }
  set (lo := match prefix_entity_id p with Some _ => None | None => entity_id_min bounds end).
  pose proof (prefix_block (snapshot_facts snapshot) evs p lo Hst Hp Hv) as Hblock.
  replace (match prefix_entity_id p with Some e => Some e | None => lo end)
    with (match prefix_entity_id p with Some e => Some e | None => entity_id_min bounds end)
    in Hblock by (unfold lo; by destruct (prefix_entity_id p)).
  rewrite (scan_loop_events visitor _ bounds state
    (filter (fun e => in_prefix p (event_ref e) /\ at_least lo (ref_entity_id (event_ref e))) evs)).
  - rewrite list_filter_filter. f_equal. apply filter_ext_on. intros x _.
    unfold in_bounds, lo. destruct (prefix_entity_id p); unfold at_least; tauto.
  - eapply (sorted_filter_impl (fun a b => in_prefix p (event_ref a) -> in_prefix p (event_ref b) ->
      ref_entity_id (event_ref a) <= ref_entity_id (event_ref b))); [tauto|].
    by apply (stored_in_prefix _ _ p Hst).
  - apply Hblock; unfold lo; destruct (prefix_entity_id p); auto.
Qed.

Lemma visit_Ok_fold {A B} (body : Visitor B A) (f : B -> A -> B) l state :
  (forall state a, a ∈ l -> body state a = (f state a, StatusOK)) ->
  visit body state l = (fold_left f l state, StatusOK).
Proof.
  revert state. induction l as [|a l IH]; intros state Hbody; [done|]. cbn [visit fold_left].
  rewrite Hbody by by left. cbn [and_then]. apply IH. intros. apply Hbody. by right.
Qed.

(** ** Batched neighborhoods *)

Lemma loop_Ok_fold {A B} (body : B -> A -> StatusOr B) (f : B -> A -> B) l state :
  (forall state a, a ∈ l -> body state a = Ok (f state a)) ->
  loop body state l = Ok (fold_left f l state).
Proof.
  revert state. induction l as [|a l IH]; intros state Hbody; [done|]. cbn [loop fold_left].
  rewrite Hbody by by left. cbn [mbind StatusOr_bind]. apply IH. intros. apply Hbody. by right.
Qed.

(** Writing every index once leaves at each what was written there. *)
Lemma fold_insert_lookup {A B} (f : A -> B) (l : list (nat * A)) (init : list B) i :
  NoDup (fst <$> l) -> (forall j a, (j, a) ∈ l -> (j < length init)%nat) ->
  fold_left (fun ns '(j, a) => <[j := f a]> ns) l init !! i
  = match list_find (fun p => fst p = i) l with
    | Some (_, (_, a)) => Some (f a)
    | None => init !! i
    end.
Proof.
  revert init. induction l as [|[j a] l IH]; intros init Hnd Hlen; [done|].
  cbn [fold_left]. inversion_clear Hnd as [|? ? Hnin Hnd'].
  rewrite IH; [|done|intros k b Hk; rewrite length_insert; apply (Hlen k b); by right].
  cbn [list_find fst]. destruct (decide (j = i)) as [->|Hne].
  - destruct (list_find _ l) as [[n [k b]]|] eqn:E.
    + apply list_find_Some in E as (Hk & Ek & _). cbn in Ek. subst k. destruct Hnin.
      apply list_elem_of_fmap. exists (i, b). split; [done|]. by eapply list_elem_of_lookup_2.
    + rewrite list_lookup_insert_eq; [done|]. apply (Hlen i a). by left.
  - destruct (list_find _ l) as [[n [k b]]|]; [done|].
    cbn. by rewrite list_lookup_insert_ne.
Qed.

Lemma list_find_index {A} (order : list (nat * A)) i a :
  NoDup (fst <$> order) -> (i, a) ∈ order ->
  exists n, list_find (fun p => fst p = i) order = Some (n, (i, a)).
Proof.
  intros Hnd Hin. destruct (list_find _ order) as [[n [j b]]|] eqn:E.
  - pose proof E as (Hn & Ej & _)%list_find_Some. cbn in Ej. subst j. exists n.
    apply list_elem_of_lookup in Hin as [m Hm].
    assert (n = m) as <-.
    { eapply NoDup_lookup; [exact Hnd| |]; by rewrite list_lookup_fmap, ?Hn, ?Hm. }
    congruence.
  - exfalso. eapply (list_find_None _ _) in E. rewrite Forall_forall in E. by apply (E (i, a)).
Qed.

Lemma ReadTemporalNeighborhoods_OK might_contain snapshot queries
    (f : TemporalNeighborhoodQuery -> TemporalNeighborhood) :
  snapshot_owned snapshot = true ->
  (forall q, q ∈ queries -> FactRef_Validate (query_ref q) = StatusOK /\
     ReadTemporalNeighborhood might_contain (snapshot_facts snapshot) (query_ref q)
       (query_valid_time q) (snapshot_commit_seq snapshot) = Ok (f q)) ->
  ReadTemporalNeighborhoods might_contain snapshot queries = Ok (f <$> queries).
Proof.
  intros Ho Hq. unfold ReadTemporalNeighborhoods. destruct queries as [|q0 queries0]; [done|].
  set (queries := q0 :: queries0) in *. rewrite Ho. cbn [negb].
  rewrite (loop_Ok_fold _ (fun _ _ => tt)); [|by intros [] q [Hv _]%Hq; rewrite Hv].
  cbn [mbind StatusOr_bind].
  match goal with |- context [stable_sort ?less ?l] =>
    pose proof (stable_sort_perm less l) as Hperm; set (order := stable_sort less l) in * end.
  clearbody order.
  assert (forall i q, (i, q) ∈ order <-> queries !! i = Some q) as Hin.
  { intros i q. rewrite Hperm, list_elem_of_lookup. split.
    - intros [n Hn]. apply lookup_zip_with_Some in Hn as (j & q' & [= -> ->] & Hj & Hq').
      apply lookup_seq in Hj as [-> _]. done.
    - intros Hi. exists i. apply lookup_zip_with_Some. exists i, q. split_and!; try done.
      apply lookup_seq. split; [done|]. by eapply lookup_lt_Some. }
  assert (NoDup (fst <$> order)) as Hnd.
  { rewrite Hperm, fst_zip by by rewrite length_seq. apply NoDup_seq. }
  rewrite (loop_Ok_fold _ (fun ns '(i, q) => <[i := f q]> ns)).
  2: { intros ns [i q] Hiq. destruct (Hq q) as [_ ->]; [|done].
       apply Hin in Hiq. by eapply list_elem_of_lookup_2. }
  f_equal. apply list_eq. intros i. rewrite fold_insert_lookup, list_lookup_fmap; [|done|].
  2: { intros j q Hjq. rewrite length_replicate. apply Hin in Hjq. by eapply lookup_lt_Some. }
  destruct (queries !! i) as [q|] eqn:Ei.
  - apply Hin in Ei. by destruct (list_find_index order i q Hnd Ei) as [n ->].
  - destruct (list_find _ order) as [[n [j q]]|] eqn:E.
    + apply list_find_Some in E as (Hn & Ej & _). cbn in Ej. subst j.
      apply list_elem_of_lookup_2, Hin in Hn. congruence.
    + apply lookup_replicate_None. by apply lookup_ge_None in Ei.
Qed.

(** ** Edge identities *)

(** The lookup answers from the identity fact once some event of the edge's state is
    visible. *)
Lemma LookupEdgeIdentity_OK snapshot events edge :
  represents (snapshot_facts snapshot) events -> snapshot_owned snapshot = true ->
  edge_key_ok edge ->
  LookupEdgeIdentity snapshot edge
  = if decide (Exists (fun e => event_ref e = EntityFact_Edge edge /\
                 event_commit_seq e <= snapshot_commit_seq snapshot) events)
    then ReadEdgeIdentity snapshot edge else Ok None.
Proof.
  intros Hrep Ho (Hp & Hid & Hnz). unfold LookupEdgeIdentity.
  rewrite (proj2 (Z.eqb_neq _ _)) by done.
  destruct (represents_events _ _ Hrep) as (evs & Hf & Hin).
  rewrite (Scan_OK snapshot _ _ _ _ evs); [|by split; [apply Hrep|]|done|..]; try done.
  2: { unfold FactPrefix_Validate. cbn. by rewrite (proj2 (Z.eqb_neq _ _)). }
  rewrite (visit_Ok_fold _ (fun _ _ => true)) by done. cbn [check mbind StatusOr_bind].
  match goal with |- context [filter ?Q evs] => set (P := Q) end.
  assert (fold_left (fun _ _ => true) (filter P evs) false = true <-> exists e, e ∈ filter P evs)
    as Hfold.
  { clear. destruct (filter P evs) as [|a l]; [split; [done|]; by intros [e ?%not_elem_of_nil]|].
    split; [intros _; exists a; by left|intros _]. cbn. by induction l. }
  assert ((exists e, e ∈ filter P evs) <-> Exists (fun e => event_ref e = EntityFact_Edge edge /\
    event_commit_seq e <= snapshot_commit_seq snapshot) events) as Hex.
  { rewrite Exists_exists. split.
    - intros (e & [((E1 & E2 & E3 & E4) & _ & Hseq) He]%list_elem_of_filter). exists e.
      split; [by apply Hin|]. split; [|done]. destruct (event_ref e). cbn in *. by subst.
    - intros (e & He & Er & Hseq). exists e. apply list_elem_of_filter. split; [|by apply Hin].
      unfold P. rewrite Er. by split_and!. }
  rewrite Hex in Hfold. case_decide as D; destruct (fold_left _ _ _); naive_solver.
Qed.

(** The state that a read observed spares the scan. *)
Lemma LookupEdgeIdentity_agree snapshot events edge t e :
  represents (snapshot_facts snapshot) events -> edge_key_ok edge -> uint 64 t ->
  Read snapshot (EntityFact_Edge edge) t = Ok (Some e) ->
  LookupEdgeIdentity_observed snapshot edge e = ReadEdgeIdentity snapshot edge /\
  LookupEdgeIdentity snapshot edge = ReadEdgeIdentity snapshot edge.
Proof.
  intros Hrep Hk Ht. pose proof Hk as (Hp & Hid & Hnz).
  destruct (snapshot_owned snapshot) eqn:Ho; [|by unfold Read; rewrite Ho].
  rewrite (Read_events _ events); [|done| |done].
  2: { unfold key_ok, ref_typed, uint, EntityFact_Edge, U64_MAX in *. cbn. split_and!; try lia.
       unfold FactRef_Validate. cbn. by rewrite (proj2 (Z.eqb_neq _ _)). }
  intros [= E]. unfold present in E.
  destruct (effective _ _ t) as [e'|] eqn:Ee; [|done].
  case_bool_decide as Hdel; [done|]. injection E as ->.
  apply effective_Some in Ee as ([Hr He]%list_elem_of_filter & Ha & _).
  unfold applies in Ha. apply andb_true_iff in Ha as [Hseq _]. apply Z.leb_le in Hseq.
  split.
  - unfold LookupEdgeIdentity_observed.
    rewrite (proj2 (Z.eqb_neq _ _)), bool_decide_true, bool_decide_false by done. cbn.
    by rewrite (proj2 (Z.ltb_ge _ _)).
  - rewrite (LookupEdgeIdentity_OK _ events) by done. rewrite decide_True; [done|].
    apply Exists_exists. by exists e.
Qed.

Lemma spread_represents : represents spread_cf spread_events.
Proof. represents_concrete. Qed.

(** ** Properties *)

(** C26: the scan of a family ends, whatever the visitor does, and visits the versions
    that the snapshot sees of that family, in the order of their keys, until the
    visitor fails: the seeks from one partition to the next skip nothing of the family
    and visit nothing else. *)
Theorem ScanFamily_spec {St} snapshot family (visitor : Visitor St FactEvent) state events :
  represents (snapshot_facts snapshot) events -> IsKnownFamily family = true ->
  snapshot_owned snapshot = true ->
  exists evs, ScanFamily snapshot family visitor state = Some (visit visitor state evs) /\
    StronglySorted (fun a b => bytes_lt (event_key a) (event_key b)) evs /\
    forall e, e ∈ evs <-> e ∈ events /\ ref_family (event_ref e) = family /\
                          event_commit_seq e <= snapshot_commit_seq snapshot.
Proof.
  intros Hrep Hf Ho. pose proof Hrep as (Hs & _).
  destruct (represents_events _ _ Hrep) as (evs & Hall & Hin).
  eexists. split; [by apply ScanFamily_OK|]. split.
  - apply (sorted_filter_impl (fun a b => bytes_lt (event_key a) (event_key b))); [auto|].
    eapply stored_sorted; [|by split]. intros a b kva kvb (_ & Ea & _) (_ & Eb & _).
    by rewrite Ea, Eb.
  - intros e. rewrite list_elem_of_filter, Hin. tauto.
Qed.

Lemma ScanFamily_spec_witness :
  exists evs, ScanFamily (mkStoreSnapshot true 5 spread_cf) kVertexProperty
                (fun seen e => (seen ++ [e], StatusOK)) []
              = Some (visit (fun seen e => (seen ++ [e], StatusOK)) [] evs) /\
    forall e, e ∈ evs <-> e ∈ spread_events /\ ref_family (event_ref e) = kVertexProperty /\
                          event_commit_seq e <= 5.
Proof.
  destruct (ScanFamily_spec (mkStoreSnapshot true 5 spread_cf) kVertexProperty
              (fun seen e => (seen ++ [e], StatusOK)) [] spread_events) as (evs & E & _ & H).
  - exact spread_represents.
  - reflexivity.
  - reflexivity.
  - exists evs. split; [exact E|exact H].
Defined.

(** An edge that was retracted and never asserted: the lookup takes the retraction for
    a visible state and reports its missing identity as corruption. *)
Lemma lookup_of_retracted_edge :
  LookupEdgeIdentity (mkStoreSnapshot true 6 spread_cf) (mkEdgeRef 3 8)
  = Fail (Corruption "edge identity" "edge state lacks an authoritative identity fact").
Proof. vm_compute. reflexivity. Qed.
