(* ===== verification/WriteBatch.v ===== *)
(** * WriteBatch: atomic writes to the column families

    Models what the store uses of the vendored engine
    ([src/engine/rocksdb/db/write_batch.cc], [util/coding.{h,cc}]): the
    serialized form of a write batch, whose size the store limits, and the effect
    of an atomic write on the facts and the metadata column family.  A column
    family is a list of key/value pairs in ascending key order. *)

From S2P Require Import Prelude Status Crc32c Value Fact FactCodec Temporal FactStore.

Inductive ColumnFamily := kFactsCf | kMetaCf.

#[export] Instance ColumnFamily_eq_dec : EqDecision ColumnFamily.
Proof. solve_decision. Defined.

Inductive WriteOp :=
| Put (cf : ColumnFamily) (key value : list byte)
| Delete (cf : ColumnFamily) (key : list byte).

(** ** Serialized form *)

(** [EncodeVarint32]; the assignments to [unsigned char] keep the low byte. *)
Definition EncodeVarint32 (v : Z) : list byte :=
  let more s := z2b (Z.lor (Z.shiftr v s) 128) in
  let last s := z2b (Z.shiftr v s) in
  if v <? Z.shiftl 1 7 then [last 0]
  else if v <? Z.shiftl 1 14 then [more 0; last 7]
  else if v <? Z.shiftl 1 21 then [more 0; more 7; last 14]
  else if v <? Z.shiftl 1 28 then [more 0; more 7; more 14; last 21]
  else [more 0; more 7; more 14; more 21; last 28].

Definition PutLengthPrefixedSlice (value : list byte) : list byte :=
  EncodeVarint32 (wrap 32 (Z.of_nat (length value))) ++ value.

Definition kHeader : nat := 12.
Definition kTypeDeletion : Z := 0.
Definition kTypeValue : Z := 1.
Definition kTypeColumnFamilyDeletion : Z := 4.
Definition kTypeColumnFamilyValue : Z := 5.

Section rep.

(** The identifiers the engine gave to the two column families. *)
Context (cf_id : ColumnFamily -> Z).

(** Only families other than the default one, number zero, are named. *)
Definition op_tag (plain in_family : Z) (cf : ColumnFamily) : list byte :=
  if cf_id cf =? 0 then [z2b plain] else z2b in_family :: EncodeVarint32 (cf_id cf).

Definition put_rep (cf : ColumnFamily) (key value : list byte) : list byte :=
  op_tag kTypeValue kTypeColumnFamilyValue cf
  ++ PutLengthPrefixedSlice key ++ PutLengthPrefixedSlice value.

Definition delete_rep (cf : ColumnFamily) (key : list byte) : list byte :=
  op_tag kTypeDeletion kTypeColumnFamilyDeletion cf ++ PutLengthPrefixedSlice key.

Definition op_rep (op : WriteOp) : list byte :=
  match op with
  | Put cf key value => put_rep cf key value
  | Delete cf key => delete_rep cf key
  end.

(** The header holds the sequence, zero until the write, and the count. *)
Definition batch_rep (ops : list WriteOp) : list byte :=
  le_bytes 8 0 ++ le_bytes 4 (wrap 32 (Z.of_nat (length ops)))
  ++ concat (op_rep <$> ops).

Definition GetDataSize (ops : list WriteOp) : Z :=
  Z.of_nat (length (batch_rep ops)).

End rep.

(** ** Effect *)

Fixpoint cf_put (key value : list byte) (cf : column_family) : column_family :=
  match cf with
  | [] => [(key, value)]
  | (k, v) :: rest =>
      match bytes_compare key k with
      | Lt => (key, value) :: cf
      | Eq => (key, value) :: rest
      | Gt => (k, v) :: cf_put key value rest
      end
  end.

Fixpoint cf_delete (key : list byte) (cf : column_family) : column_family :=
  match cf with
  | [] => []
  | (k, v) :: rest =>
      match bytes_compare key k with
      | Lt => cf
      | Eq => rest
      | Gt => (k, v) :: cf_delete key rest
      end
  end.

Fixpoint cf_get (key : list byte) (cf : column_family) : option (list byte) :=
  match cf with
  | [] => None
  | (k, v) :: rest =>
      if bool_decide (k = key) then Some v else cf_get key rest
  end.

Record Database := mkDatabase {
  db_facts : column_family;
  db_meta : column_family
}.

Definition on_cf (cf : ColumnFamily) (f : column_family -> column_family)
    (db : Database) : Database :=
  match cf with
  | kFactsCf => mkDatabase (f (db_facts db)) (db_meta db)
  | kMetaCf => mkDatabase (db_facts db) (f (db_meta db))
  end.

Definition apply_op (db : Database) (op : WriteOp) : Database :=
  match op with
  | Put cf key value => on_cf cf (cf_put key value) db
  | Delete cf key => on_cf cf (cf_delete key) db
  end.

(** An atomic write applies the operations in order. *)
Definition db_write (db : Database) (ops : list WriteOp) : Database :=
  fold_left apply_op ops db.

(** ** Specification *)

Definition db_sorted (db : Database) : Prop :=
  cf_sorted (db_facts db) /\ cf_sorted (db_meta db).

Definition db_cf (cf : ColumnFamily) (db : Database) : column_family :=
  match cf with kFactsCf => db_facts db | kMetaCf => db_meta db end.

(** The value an operation leaves under a key, if it touches the key. *)
Definition op_value (cf : ColumnFamily) (key : list byte) (op : WriteOp)
  : option (option (list byte)) :=
  match op with
  | Put cf' k v =>
      if bool_decide (cf' = cf /\ k = key) then Some (Some v) else None
  | Delete cf' k => if bool_decide (cf' = cf /\ k = key) then Some None else None
  end.

(** The last operation on the key decides. *)
Fixpoint ops_value (cf : ColumnFamily) (key : list byte) (ops : list WriteOp)
    (old : option (list byte)) : option (list byte) :=
  match ops with
  | [] => old
  | op :: rest =>
      ops_value cf key rest (match op_value cf key op with Some o => o | None => old end)
  end.

(** ** Column families *)

Lemma bytes_compare_spec (a b : list byte) :
  match bytes_compare a b with
  | Eq => a = b
  | Lt => bytes_lt a b
  | Gt => bytes_lt b a
  end.
Proof.
  unfold bytes_lt. destruct (bytes_compare a b) eqn:E; [by apply bytes_compare_eq|done|].
  by rewrite bytes_compare_antisym, E.
Qed.

Lemma bytes_lt_irrefl a : ~ bytes_lt a a.
Proof. unfold bytes_lt. by rewrite bytes_compare_refl. Qed.

Lemma bytes_lt_trans a b c : bytes_lt a b -> bytes_lt b c -> bytes_lt a c.
Proof. apply bytes_compare_lt_trans. Qed.

Lemma cf_put_bound (k0 key value : list byte) cf :
  bytes_lt k0 key -> Forall (fun kv => bytes_lt k0 kv.1) cf ->
  Forall (fun kv => bytes_lt k0 kv.1) (cf_put key value cf).
Proof.
  intros Hk H. induction H as [|[k v] cf Hkv H IH]; cbn; [by repeat constructor|].
  pose proof (bytes_compare_spec key k). destruct (bytes_compare key k);
    by repeat constructor.
Qed.

Lemma cf_put_sorted key value cf : cf_sorted cf -> cf_sorted (cf_put key value cf).
Proof.
  unfold cf_sorted. induction 1 as [|[k v] cf Hs IH Hall]; cbn; [by repeat constructor|].
  pose proof (bytes_compare_spec key k) as Hc. destruct (bytes_compare key k).
  - subst k. by constructor.
  - constructor; [by constructor|]. constructor; [done|].
    eapply Forall_impl; [exact Hall|]. intros kv ?. by eapply bytes_lt_trans.
  - constructor; [done|]. by apply cf_put_bound.
Qed.

Lemma cf_delete_sorted key cf : cf_sorted cf -> cf_sorted (cf_delete key cf).
Proof.
  unfold cf_sorted. induction 1 as [|[k v] cf Hs IH Hall]; cbn; [constructor|].
  destruct (bytes_compare key k); [done|by constructor|]. constructor; [done|].
  clear IH Hs. induction Hall as [|[k' v'] cf Hk Hall IH]; cbn; [constructor|].
  destruct (bytes_compare key k'); [done|by constructor|by constructor].
Qed.

Lemma cf_get_below key cf :
  Forall (fun kv => bytes_lt key kv.1) cf -> cf_get key cf = None.
Proof.
  induction 1 as [|[k v] cf Hk _ IH]; cbn; [done|].
  case_bool_decide; [|done]. subst k. by apply bytes_lt_irrefl in Hk.
Qed.

Lemma cf_get_put key value cf key' :
  cf_get key' (cf_put key value cf)
  = if bool_decide (key = key') then Some value else cf_get key' cf.
Proof.
  induction cf as [|[k v] cf IH]; cbn; [done|].
  pose proof (bytes_compare_spec key k) as Hc. destruct (bytes_compare key k); cbn.
  - subst k. by case_bool_decide.
  - by case_bool_decide.
  - rewrite IH. repeat case_bool_decide; try done. subst.
    by apply bytes_lt_irrefl in Hc.
Qed.

Lemma cf_get_delete key cf key' :
  cf_sorted cf ->
  cf_get key' (cf_delete key cf)
  = if bool_decide (key = key') then None else cf_get key' cf.
Proof.
  unfold cf_sorted. induction 1 as [|[k v] cf Hs IH Hall]; cbn; [by case_bool_decide|].
  pose proof (bytes_compare_spec key k) as Hc. destruct (bytes_compare key k); cbn.
  - subst k. case_bool_decide; [subst key'; by apply cf_get_below|done].
  - case_bool_decide as E; [subst key'|done].
    rewrite bool_decide_false by (intros ->; by apply bytes_lt_irrefl in Hc).
    apply cf_get_below. eapply Forall_impl; [exact Hall|].
    intros kv ?. by eapply bytes_lt_trans.
  - rewrite IH. repeat case_bool_decide; try done. subst.
    by apply bytes_lt_irrefl in Hc.
Qed.

(** In a sorted column family the pairs are the lookups. *)
Lemma elem_of_cf key value cf :
  cf_sorted cf -> (key, value) ∈ cf <-> cf_get key cf = Some value.
Proof.
  unfold cf_sorted. induction 1 as [|[k v] cf Hs IH Hall]; cbn.
  - split; [by intros ?%not_elem_of_nil|done].
  - rewrite elem_of_cons. case_bool_decide as E; [subst k|].
    + split; [intros [[= ->]|Hin]; [done|]|intros [= ->]; by left].
      rewrite Forall_forall in Hall. apply Hall in Hin. by apply bytes_lt_irrefl in Hin.
    + rewrite <- IH. split; [intros [[= ? ?]|?]; [congruence|done]|by right].
Qed.

Lemma cf_ext cf cf' :
  cf_sorted cf -> cf_sorted cf' -> (forall k, cf_get k cf = cf_get k cf') -> cf = cf'.
Proof.
  intros Hs Hs' H.
  assert (forall kv, kv ∈ cf <-> kv ∈ cf') as Hin.
  { intros [k v]. by rewrite !elem_of_cf, H. }
  clear H. revert cf' Hs' Hin. induction Hs as [|a cf Hs IH Ha]; intros cf' Hs' Hin.
  - destruct cf' as [|b cf']; [done|]. exfalso. by apply (not_elem_of_nil b), Hin; left.
  - destruct Hs' as [|b cf' Hs' Hb].
    { exfalso. by apply (not_elem_of_nil a), Hin; left. }
    rewrite Forall_forall in Ha, Hb.
    assert (a = b) as <-.
    { pose proof (proj1 (Hin a) ltac:(by left)) as [|Ha']%elem_of_cons; [done|].
      pose proof (proj2 (Hin b) ltac:(by left)) as [|Hb']%elem_of_cons; [done|].
      destruct (bytes_lt_irrefl a.1). eapply bytes_lt_trans; [by apply Ha|by apply Hb]. }
    f_equal. apply IH; [done|]. intros x. specialize (Hin x).
    rewrite !elem_of_cons in Hin. split; intros Hx.
    + destruct (proj1 Hin (or_intror Hx)) as [->|]; [|done].
      destruct (bytes_lt_irrefl a.1). exact (Ha a Hx).
    + destruct (proj2 Hin (or_intror Hx)) as [->|]; [|done].
      destruct (bytes_lt_irrefl a.1). exact (Hb a Hx).
Qed.

(** ** Atomic writes *)

Lemma apply_op_sorted db op : db_sorted db -> db_sorted (apply_op db op).
Proof.
  intros [? ?]. destruct op as [[] k v|[] k]; split; cbn;
    auto using cf_put_sorted, cf_delete_sorted.
Qed.

Lemma db_write_sorted db ops : db_sorted db -> db_sorted (db_write db ops).
Proof.
  revert db. induction ops as [|op ops IH]; intros db H; [done|].
  by apply IH, apply_op_sorted.
Qed.

Lemma apply_op_get cf key db op :
  db_sorted db ->
  cf_get key (db_cf cf (apply_op db op)) =
  match op_value cf key op with Some o => o | None => cf_get key (db_cf cf db) end.
Proof.
  intros [Hf Hm]. destruct op as [cf' k v|cf' k], cf, cf'; cbn;
    rewrite ?cf_get_put, ?cf_get_delete by done; repeat case_bool_decide; naive_solver.
Qed.

(** What a key holds after a write: what the last operation on it left. *)
Lemma db_write_get cf key db ops :
  db_sorted db ->
  cf_get key (db_cf cf (db_write db ops))
  = ops_value cf key ops (cf_get key (db_cf cf db)).
Proof.
  revert db. induction ops as [|op ops IH]; intros db H; [done|].
  change (db_write db (op :: ops)) with (db_write (apply_op db op) ops).
  rewrite IH by by apply apply_op_sorted. by rewrite apply_op_get.
Qed.

Lemma db_ext db db' :
  db_sorted db -> db_sorted db' ->
  (forall cf k, cf_get k (db_cf cf db) = cf_get k (db_cf cf db')) -> db = db'.
Proof.
  intros [Hf Hm] [Hf' Hm'] H. destruct db as [f m], db' as [f' m']. f_equal.
  - by apply cf_ext; [| |apply (H kFactsCf)].
  - by apply cf_ext; [| |apply (H kMetaCf)].
Qed.

Lemma db_write_app db ops ops' : db_write db (ops ++ ops') = db_write (db_write db ops) ops'.
Proof. apply fold_left_app. Qed.

Lemma ops_value_app cf key ops ops' old :
  ops_value cf key (ops ++ ops') old = ops_value cf key ops' (ops_value cf key ops old).
Proof. revert old. induction ops as [|op ops IH]; intros old; cbn; auto. Qed.

(** Operations that do not touch the key leave its value. *)
Lemma ops_value_untouched cf key ops old :
  (forall op, op ∈ ops -> op_value cf key op = None) ->
  ops_value cf key ops old = old.
Proof.
  revert old. induction ops as [|op ops IH]; intros old H; [done|]. cbn.
  rewrite (H op) by by left. apply IH. intros op' Hop. apply H. by right.
Qed.

(** ** Sizes *)

Lemma batch_rep_length cf_id ops :
  Z.of_nat (length (batch_rep cf_id ops))
  = 12 + fold_right (fun op n => Z.of_nat (length (op_rep cf_id op)) + n) 0 ops.
Proof.
  unfold batch_rep. rewrite !length_app, !length_le_bytes.
  assert (Z.of_nat (length (concat (op_rep cf_id <$> ops)))
          = fold_right (fun op n => Z.of_nat (length (op_rep cf_id op)) + n) 0 ops) as <-.
  { induction ops as [|op ops IH]; [done|].
    rewrite fmap_cons. cbn [concat fold_right]. rewrite length_app. lia. }
  lia.
Qed.
