(* ===== verification/Commit.v ===== *)
(** * Commit: publishing commit batches

    Models [src/storage/rocks/commit_publisher.{h,cc}] and
    [FactStore::CommitDirect] of [src/storage/rocks/rocks_adapter.cc]: the write
    batch of a transaction, its size check, the validations, the atomic write, the
    publication to the derived structures and the retry of a committed
    transaction.

    The model is one call under the publisher lock of an open store.  The outcome
    of the engine's write is an argument; reads of the engine find the key or do
    not.  [sync] only tells the engine when to sync its log and has no part in the
    model.  Test observers and fault injectors are not set. *)

From S2P Require Import Prelude Status Crc32c Wire Value Fact FactCodec CommitBatch.
From S2P Require Import Frame MetaCodec PreparedCodec GroupCommit Bloom RecentWrites.
From S2P Require Import ValidationCache Accelerators Temporal FactStore Conflict.
From S2P Require Import WriteBatch.

(** ** The facts of a commit *)

(** The fact the writer synthesizes for an edge identity. *)
Definition identity_mutation (i : EdgeIdentity) : PendingFactMutation :=
  mkPendingFactMutation (mkFactRef (home_part_id i) kEdgeIdentity 0 (edge_id i))
    0 kPut 0 None.

(** The calls of the visitor of [VisitCommitFacts], in order. *)
Definition VisitCommitFacts (b : StoreCommitBatch)
  : list (PendingFactMutation * option EdgeIdentity) :=
  ((fun m => (m, None)) <$> mutations b)
  ++ ((fun i => (identity_mutation i, Some i)) <$> edge_identities b).

(** The event of a visited fact at a commit sequence. *)
Definition committed_event (commit_seq : Z)
    (fact : PendingFactMutation * option EdgeIdentity) : FactEvent :=
  let '(m, identity) := fact in
  mkFactEvent (mutation_ref m) (mutation_valid_from m) commit_seq
    (mutation_operation m) (mutation_schema_epoch m) (mutation_value m) identity.

Record CandidateCommit := mkCandidateCommit {
  candidate_batch : StoreCommitBatch;
  candidate_seq : Z;
  candidate_keys : list (list byte)
}.

Definition publisher_error (detail : string) : Status :=
  InvalidArgument "commit publisher" detail.

Definition check_fact_key (commit_seq : Z) (mutation_keys : gset (list byte))
    (fact_key : list byte) : StatusOr (gset (list byte)) :=
  _ ← require (length fact_key =? kEncodedFactKeyBytes)%nat
        (publisher_error "invalid fact key");
  _ ← require match DecodeFactKey fact_key with
              | Ok key => key_commit_seq key =? commit_seq
              | Fail _ => false
              end (publisher_error "fact key commit sequence disagrees");
  let '(inserted, mutation_keys) := emplace fact_key mutation_keys in
  _ ← require inserted (publisher_error "duplicate fact key");
  Ok mutation_keys.

Definition check_identity_key (commit_seq : Z) (mutation_keys : gset (list byte))
    (identity_keys : gset (list byte)) (i : EdgeIdentity)
  : StatusOr (gset (list byte)) :=
  let key := EncodeFactKey (mutation_ref (identity_mutation i)) 0 commit_seq in
  _ ← require (negb (bool_decide (key = [])))
        (publisher_error "invalid edge identity fact key");
  let '(inserted, identity_keys) := emplace key identity_keys in
  _ ← require (negb (bool_decide (key ∈ mutation_keys)) && inserted)
        (publisher_error "duplicate fact key");
  Ok identity_keys.

(** The facts are written under the candidate's keys, the identity facts under
    keys that also extend the sequence record. *)
Fixpoint put_facts (commit_seq : Z) (keys : list (list byte))
    (facts : list (PendingFactMutation * option EdgeIdentity))
  : StatusOr (list WriteOp * list (list byte)) :=
  match facts with
  | [] => Ok ([], [])
  | (m, identity) :: facts' =>
      value ← EncodeFactValue (committed_event commit_seq (m, identity));
      match identity, keys with
      | None, key :: keys' =>
          '(ops, sequence_keys) ← put_facts commit_seq keys' facts';
          Ok (Put kFactsCf key value :: ops, sequence_keys)
      | None, [] => Fail (publisher_error "fact key count differs from mutations")
      | Some _, _ =>
          let key := EncodeFactKey (mutation_ref m) (mutation_valid_from m)
                       commit_seq in
          '(ops, sequence_keys) ← put_facts commit_seq keys facts';
          Ok (Put kFactsCf key value :: ops, key :: sequence_keys)
      end
  end.

Definition put_identity (ops : list WriteOp) (i : EdgeIdentity)
  : StatusOr (list WriteOp) :=
  key ← EncodeEdgeIdentityMetaKey (edge_ref i);
  value ← EncodeEdgeIdentity i;
  Ok (ops ++ [Put kMetaCf key value]).

(** The operations that are appended to the write batch. *)
Definition AppendCandidateToWriteBatch (candidate : CandidateCommit)
  : StatusOr (list WriteOp) :=
  let b := candidate_batch candidate in
  let commit_seq := candidate_seq candidate in
  _ ← require (length (candidate_keys candidate) =? length (mutations b))%nat
        (publisher_error "fact key count differs from mutations");
  mutation_keys ← loop (check_fact_key commit_seq) ∅ (candidate_keys candidate);
  _ ← loop (check_identity_key commit_seq mutation_keys) ∅ (edge_identities b);
  '(fact_ops, identity_keys) ←
     put_facts commit_seq (candidate_keys candidate) (VisitCommitFacts b);
  identity_ops ← loop put_identity [] (edge_identities b);
  transaction_key ← EncodeTransactionMetaKey (txn_id b);
  sequence_key ← EncodeSequenceMetaKey commit_seq;
  outcome ← EncodeTransactionOutcome
              (mkTransactionOutcomeRecord (txn_id b) commit_seq kCommitted);
  sequence ← EncodeSequenceRecordV2
               (mkSequenceRecord commit_seq (txn_id b) (system_hlc b)
                  (candidate_keys candidate ++ identity_keys));
  Ok (fact_ops ++ identity_ops
      ++ [Put kMetaCf transaction_key outcome; Put kMetaCf sequence_key sequence]).

Definition batch_too_large : Status :=
  ResourceExhausted "commit" "encoded batch exceeds hard byte limit".

(** ** The engine *)

(** The classes of [rocksdb::Status] that the store tells apart. *)
Inductive RocksStatus :=
| rocks_ok
| rocks_not_found (message : string)
| rocks_corruption (message : string)
| rocks_invalid_argument (message : string)
| rocks_not_supported (message : string)
| rocks_memory_limit (message : string)
| rocks_other (message : string).

Definition rocks_message (s : RocksStatus) : string :=
  match s with
  | rocks_ok => "OK"
  | rocks_not_found m | rocks_corruption m | rocks_invalid_argument m
  | rocks_not_supported m | rocks_memory_limit m | rocks_other m => m
  end.

Definition FromRocksDb (s : RocksStatus) (context : string) : Status :=
  match s with
  | rocks_ok => StatusOK
  | rocks_not_found m => NotFound context m
  | rocks_corruption m => Corruption context m
  | rocks_invalid_argument m => InvalidArgument context m
  | rocks_not_supported m => NotSupported context m
  | rocks_memory_limit m => ResourceExhausted context m
  | rocks_other m => IOError context m
  end.

Definition FromCommitWriteFailure (s : RocksStatus) : Status :=
  match s with
  | rocks_invalid_argument _ | rocks_not_supported _ =>
      FromRocksDb s "commit fact store batch"
  | _ => Indeterminate "commit fact store batch" (rocks_message s)
  end.

(** The outcome of [db->Write]: its status, and whether a write that failed
    reached the disk all the same. *)
Record WriteOutcome := mkWriteOutcome {
  write_status : RocksStatus;
  write_applied : bool
}.

Record StoreCommitResult := mkStoreCommitResult {
  result_commit_seq : Z;
  result_system_hlc : Z
}.

(** The store with its metadata column family and the flags of the commit path;
    [group_commit_max_batch_bytes] is an option of the store. *)
Record CommitStore := mkCommitStore {
  cs_impl : FactStoreImpl;
  meta_cf : column_family;
  recovery_required : bool;
  sequence_retention_watermark : Z;
  group_commit_max_batch_bytes : Z
}.

Definition with_impl (impl : FactStoreImpl) (cs : CommitStore) : CommitStore :=
  mkCommitStore impl (meta_cf cs) (recovery_required cs)
    (sequence_retention_watermark cs) (group_commit_max_batch_bytes cs).

Definition cs_db (cs : CommitStore) : Database :=
  mkDatabase (facts_cf (cs_impl cs)) (meta_cf cs).

Definition with_db (db : Database) (cs : CommitStore) : CommitStore :=
  mkCommitStore
    (mkFactStoreImpl (db_facts db) (visible_seq (cs_impl cs))
       (recent_fact_write_index (cs_impl cs)) (identity_history (cs_impl cs))
       (version_validation_cache (cs_impl cs)))
    (db_meta db) (recovery_required cs) (sequence_retention_watermark cs)
    (group_commit_max_batch_bytes cs).

Definition require_recovery (cs : CommitStore) : CommitStore :=
  mkCommitStore (cs_impl cs) (meta_cf cs) true (sequence_retention_watermark cs)
    (group_commit_max_batch_bytes cs).

(** ** Publication *)

Definition commit_mutations (b : StoreCommitBatch) : list PendingFactMutation :=
  fst <$> VisitCommitFacts b.

Definition publish_to `{Accelerator A} (b : StoreCommitBatch) (commit_seq : Z)
    (o : option A) : option A :=
  (fun a => fold_left (fun a m => publish m commit_seq a) (commit_mutations b) a)
    <$> o.

Definition PublishRecentFactWriteIndex (b : StoreCommitBatch) (commit_seq : Z)
    (st : FactStoreImpl) : FactStoreImpl :=
  mkFactStoreImpl (facts_cf st) (visible_seq st)
    (publish_to b commit_seq (recent_fact_write_index st))
    (publish_to b commit_seq (identity_history st)) (version_validation_cache st).

Definition PublishValidationCache (b : StoreCommitBatch) (commit_seq : Z)
    (st : FactStoreImpl) : FactStoreImpl :=
  with_cache (publish_to b commit_seq (version_validation_cache st)) st.

Definition PublishVisible (sequence : Z) (st : FactStoreImpl) : FactStoreImpl :=
  mkFactStoreImpl (facts_cf st) sequence (recent_fact_write_index st)
    (identity_history st) (version_validation_cache st).

(** ** The checks before the write *)

Definition CheckCommittedBatchSize (cf_id : ColumnFamily -> Z) (ops : list WriteOp)
    (max_bytes : Z) : StatusOr unit :=
  require (GetDataSize cf_id ops <=? max_bytes) batch_too_large.

Definition prepare_missing : Status :=
  NotFound "async prepare" "prepared transaction is missing".
Definition prepare_differs : Status :=
  Conflict "async prepare" "prepared transaction differs from final batch".

(** The prepared record of a final batch, in [CommitDirect]. *)
Definition check_prepared (cs : CommitStore) (b : StoreCommitBatch)
    (prepared_key : option (list byte)) : StatusOr unit :=
  match prepared_key with
  | None => Ok tt
  | Some key =>
      encoded_prepare ← from_option (cf_get key (meta_cf cs)) prepare_missing;
      _ ← DecodePreparedCommit encoded_prepare;
      expected_prepare ← EncodePreparedCommit b;
      require (bool_decide (encoded_prepare = expected_prepare)) prepare_differs
  end.

Definition different_batch : Status :=
  Conflict "commit" "transaction ID belongs to a different batch".

(** The retry of a transaction that has an outcome. *)
Definition retry_identity (cs : CommitStore) (committed_edge_ids : gset (Z * Z))
    (i : EdgeIdentity) : StatusOr unit :=
  _ ← require (bool_decide ((home_part_id i, edge_id i) ∈ committed_edge_ids))
        different_batch;
  committed ← ReadLatestEdgeIdentity (facts_cf (cs_impl cs)) (edge_ref i);
  match committed with
  | None => Fail (Corruption "commit"
                    "committed edge lacks an authoritative identity fact")
  | Some identity => require (bool_decide (identity = i)) different_batch
  end.

Definition retry_mutation (cs : CommitStore) (commit_seq : Z)
    (m : PendingFactMutation) (fact_key : list byte) : StatusOr unit :=
  let expected_key := EncodeFactKey (mutation_ref m) (mutation_valid_from m)
                        commit_seq in
  _ ← require (bool_decide (expected_key = fact_key)) different_batch;
  encoded_fact ← from_option (cf_get expected_key (facts_cf (cs_impl cs)))
                   (NotFound "read committed fact" "NotFound: ");
  actual ← DecodeFactValue (mutation_ref m) (mutation_valid_from m) commit_seq
             encoded_fact;
  require (bool_decide (event_operation actual = mutation_operation m)
           && (event_schema_epoch actual =? mutation_schema_epoch m)
           && option_Value_eqb (event_value actual) (mutation_value m))
    different_batch.

Fixpoint retry_mutations (cs : CommitStore) (commit_seq : Z)
    (ms : list PendingFactMutation) (keys : list (list byte)) : StatusOr unit :=
  match ms, keys with
  | m :: ms', key :: keys' =>
      _ ← retry_mutation cs commit_seq m key;
      retry_mutations cs commit_seq ms' keys'
  | _, _ => Ok tt
  end.

Definition committed_edge_id (ids : gset (Z * Z)) (fact_key : list byte)
  : StatusOr (gset (Z * Z)) :=
  key ← DecodeFactKey fact_key;
  Ok (if bool_decide (ref_family (key_ref key) = kEdgeIdentity)
      then {[ (ref_part_id (key_ref key), ref_entity_id (key_ref key)) ]} ∪ ids
      else ids).

Definition retry_commit (cs : CommitStore) (b : StoreCommitBatch)
    (encoded_outcome : list byte) : StatusOr StoreCommitResult :=
  outcome ← DecodeTransactionOutcome encoded_outcome;
  let commit_seq := outcome_commit_seq outcome in
  _ ← require (sequence_retention_watermark cs <=? commit_seq)
        (SnapshotExpired "commit"
           "sequence record was pruned below the sequence retention watermark");
  sequence_key ← EncodeSequenceMetaKey commit_seq;
  encoded_sequence ← from_option (cf_get sequence_key (meta_cf cs))
                       (Corruption "commit" "outcome is missing sequence record");
  sequence ← DecodeSequenceRecord encoded_sequence commit_seq;
  _ ← require ((seq_txn_id sequence =? txn_id b)
               && (seq_system_hlc sequence =? system_hlc b)
               && (length (fact_keys sequence)
                   =? length (mutations b) + length (edge_identities b))%nat)
        different_batch;
  committed_edge_ids ← loop committed_edge_id ∅ (fact_keys sequence);
  _ ← require (size committed_edge_ids =? length (edge_identities b))%nat
        different_batch;
  _ ← loop (fun _ i => retry_identity cs committed_edge_ids i) tt (edge_identities b);
  _ ← retry_mutations cs commit_seq (mutations b) (fact_keys sequence);
  Ok (mkStoreCommitResult commit_seq (seq_system_hlc sequence)).

(** ** The commit *)

Definition reopen_required : Status :=
  RecoveryRequired "commit" "reopen required after indeterminate write".
Definition sequence_exhausted : Status :=
  ResourceExhausted "commit" "commit sequence exhausted".

(** The three validations against the store; the first one primes the validation
    cache. *)
Definition validate_dependencies (st : FactStoreImpl) (b : StoreCommitBatch)
  : StatusOr unit * FactStoreImpl :=
  let '(snapshot_dependencies, st) :=
    ValidateSnapshotWriteDependencies st (snapshot_write_dependencies b) in
  (_ ← check snapshot_dependencies;
   _ ← check (ValidateStrictReadDependencies st (strict_read_dependencies b));
   check (ValidateEdgeIdentitiesForCommit st b), st).

Definition candidate_fact_keys (commit_seq : Z) (keys : list (list byte))
    (m : PendingFactMutation) : StatusOr (list (list byte)) :=
  let key := EncodeFactKey (mutation_ref m) (mutation_valid_from m) commit_seq in
  _ ← require (negb (bool_decide (key = [])))
        (InvalidArgument "commit" "invalid fact key");
  Ok (keys ++ [key]).

Definition delete_prepared (prepared_key : option (list byte)) : list WriteOp :=
  match prepared_key with Some key => [Delete kMetaCf key] | None => [] end.

(** The physical batch of a commit at a sequence. *)
Definition commit_ops (b : StoreCommitBatch) (prepared_key : option (list byte))
    (commit_seq : Z) : StatusOr (list WriteOp) :=
  fact_keys ← loop (candidate_fact_keys commit_seq) [] (mutations b);
  encoded_watermark ← EncodeWatermark commit_seq;
  ops ← AppendCandidateToWriteBatch (mkCandidateCommit b commit_seq fact_keys);
  Ok (ops ++ [Put kMetaCf EncodeVisibleWatermarkKey encoded_watermark]
      ++ delete_prepared prepared_key).

(** [db->Write] and what follows it; [published] is what a successful write
    publishes. *)
Definition write_and_publish (ops : list WriteOp) (outcome : WriteOutcome)
    (published : FactStoreImpl -> FactStoreImpl) (cs : CommitStore)
  : Status * CommitStore :=
  let written := with_db (db_write (cs_db cs) ops) cs in
  match write_status outcome with
  | rocks_ok => (StatusOK, with_impl (published (cs_impl written)) written)
  | failure =>
      let status := FromCommitWriteFailure failure in
      let cs := if write_applied outcome then written else cs in
      (status, if IsIndeterminate status then require_recovery cs else cs)
  end.

Definition publish_commit (b : StoreCommitBatch) (commit_seq : Z)
    (st : FactStoreImpl) : FactStoreImpl :=
  PublishValidationCache b commit_seq (PublishRecentFactWriteIndex b commit_seq st).

(** What [CommitDirect] checks before it looks at the store. *)
Definition accept_batch (cs : CommitStore) (b : StoreCommitBatch) : StatusOr unit :=
  _ ← check (StoreCommitBatch_Validate b);
  require (EstimateCommitBatchBytes b <=? group_commit_max_batch_bytes cs)
    batch_too_large.

(** The commit of a transaction that has no outcome yet. *)
Definition commit_fresh (cf_id : ColumnFamily -> Z) (outcome : WriteOutcome)
    (b : StoreCommitBatch) (prepared_key : option (list byte)) (cs : CommitStore)
  : StatusOr StoreCommitResult * CommitStore :=
  let '(valid, st) := validate_dependencies (cs_impl cs) b in
  let cs := with_impl st cs in
  let commit_seq := visible_seq st + 1 in
  match
    _ ← valid;
    _ ← require (negb (visible_seq st =? U64_MAX)) sequence_exhausted;
    ops ← commit_ops b prepared_key commit_seq;
    _ ← CheckCommittedBatchSize cf_id ops (group_commit_max_batch_bytes cs);
    Ok ops
  with
  | Fail s => (Fail s, cs)
  | Ok ops =>
      let '(status, cs) :=
        write_and_publish ops outcome
          (fun st => PublishVisible commit_seq (publish_commit b commit_seq st)) cs in
      (_ ← check status; Ok (mkStoreCommitResult commit_seq (system_hlc b)), cs)
  end.

Definition CommitDirect (cf_id : ColumnFamily -> Z) (outcome : WriteOutcome)
    (b : StoreCommitBatch) (prepared_key : option (list byte)) (cs : CommitStore)
  : StatusOr StoreCommitResult * CommitStore :=
  match
    _ ← accept_batch cs b;
    _ ← require (negb (recovery_required cs)) reopen_required;
    _ ← check_prepared cs b prepared_key;
    transaction_key ← EncodeTransactionMetaKey (txn_id b);
    Ok (if fresh_transaction_id b then None else cf_get transaction_key (meta_cf cs))
  with
  | Fail s => (Fail s, cs)
  | Ok (Some encoded_outcome) => (retry_commit cs b encoded_outcome, cs)
  | Ok None => commit_fresh cf_id outcome b prepared_key cs
  end.

(** ** Specification *)

(** The events of a batch committed at a sequence. *)
Definition batch_events (commit_seq : Z) (b : StoreCommitBatch) : list FactEvent :=
  committed_event commit_seq <$> VisitCommitFacts b.

(** The metadata of a committed batch. *)
Definition recorded (meta : column_family) (commit_seq : Z) (b : StoreCommitBatch)
  : Prop :=
  (exists k v, EncodeTransactionMetaKey (txn_id b) = Ok k /\ cf_get k meta = Some v /\
     DecodeTransactionOutcome v
     = Ok (mkTransactionOutcomeRecord (txn_id b) commit_seq kCommitted)) /\
  (exists k v, EncodeSequenceMetaKey commit_seq = Ok k /\ cf_get k meta = Some v /\
     DecodeSequenceRecord v commit_seq
     = Ok (mkSequenceRecord commit_seq (txn_id b) (system_hlc b)
             (event_key <$> batch_events commit_seq b))).

Definition watermark_is (meta : column_family) (commit_seq : Z) : Prop :=
  exists v, cf_get EncodeVisibleWatermarkKey meta = Some v /\
            DecodeWatermark v = Ok commit_seq.

(** A committed batch stays what it was: its records, its facts and the identities
    of its edges. *)
Definition ledger_entry (events : list FactEvent) (meta : column_family)
    (visible commit_seq : Z) (b : StoreCommitBatch) : Prop :=
  0 < commit_seq <= visible /\ prepared_typed b /\
  StoreCommitBatch_Validate b = StatusOK /\ recorded meta commit_seq b /\
  batch_events commit_seq b ⊆ events /\
  forall i, i ∈ edge_identities b -> stored_identity events (edge_ref i) = Some i.

(** The invariant of a store that runs: [ledger] holds the committed transactions
    with their sequences, [events] the stored facts. *)
Record commit_inv (ledger : list (Z * StoreCommitBatch)) (events : list FactEvent)
    (cs : CommitStore) : Prop := {
  inv_store : store_ok events (cs_impl cs);
  inv_meta : cf_sorted (meta_cf cs);
  inv_visible : uint 64 (visible_seq (cs_impl cs));
  inv_running : recovery_required cs = false;
  inv_entries : forall s b, (s, b) ∈ ledger ->
    ledger_entry events (meta_cf cs) (visible_seq (cs_impl cs)) s b;
  inv_outcomes : forall txn k, uint 64 txn -> EncodeTransactionMetaKey txn = Ok k ->
    is_Some (cf_get k (meta_cf cs)) -> exists s b, (s, b) ∈ ledger /\ txn_id b = txn
}.

(** The keys of prepared records are those of their transactions. *)
Definition prepared_key_ok (b : StoreCommitBatch) (prepared_key : option (list byte))
  : Prop :=
  forall k, prepared_key = Some k -> EncodePreparedCommitKey (txn_id b) = Ok k.

(** The keys of the metadata column family, prepared records included. *)
Inductive store_key := MetaKey (k : meta_key) | PreparedKey (txn : Z).

Definition encode_store_key (key : store_key) : StatusOr (list byte) :=
  match key with
  | MetaKey k => encode_meta_key k
  | PreparedKey txn => EncodePreparedCommitKey txn
  end.

Definition store_key_typed (key : store_key) : Prop :=
  match key with MetaKey k => meta_key_typed k | PreparedKey txn => uint 64 txn end.

(** The keys that the records of a batch are stored under. *)
Definition touches (commit_seq : Z) (b : StoreCommitBatch) (key : store_key) : Prop :=
  match key with
  | MetaKey (TransactionKey txn) => txn = txn_id b
  | MetaKey (SequenceKey s) => s = commit_seq
  | MetaKey (EdgeKey edge) => edge ∈ edge_ref <$> edge_identities b
  | _ => False
  end.

(** The keys that a commit leaves alone. *)
Definition untouched (commit_seq : Z) (b : StoreCommitBatch) (key : store_key) : Prop :=
  store_key_typed key /\ ~ touches commit_seq b key /\
  key <> MetaKey VisibleWatermarkKey /\ key <> PreparedKey (txn_id b).

(** The keys of the metadata that a commit writes or deletes, as bytes. *)
Definition commit_writes (commit_seq : Z) (b : StoreCommitBatch)
    (prepared_key : option (list byte)) (k : list byte) : Prop :=
  EncodeTransactionMetaKey (txn_id b) = Ok k \/ EncodeSequenceMetaKey commit_seq = Ok k \/
  k = EncodeVisibleWatermarkKey \/ prepared_key = Some k \/
  exists i, i ∈ edge_identities b /\ EncodeEdgeIdentityMetaKey (edge_ref i) = Ok k.

(** What a commit makes of the metadata: the records of the transaction and of its
    sequence, a record for each edge, the watermark, no prepared record any more, and
    every other key as it was. *)
Record meta_committed (meta meta' : column_family) (commit_seq : Z) (b : StoreCommitBatch)
    (prepared_key : option (list byte)) : Prop := {
  meta_recorded : recorded meta' commit_seq b;
  meta_edges : forall i, i ∈ edge_identities b ->
    exists k v, EncodeEdgeIdentityMetaKey (edge_ref i) = Ok k /\
      cf_get k meta' = Some v /\ DecodeEdgeIdentity v = Ok i;
  meta_watermark : watermark_is meta' commit_seq;
  meta_unprepared : forall k, prepared_key = Some k -> cf_get k meta' = None;
  meta_frame : forall k, ~ commit_writes commit_seq b prepared_key k ->
    cf_get k meta' = cf_get k meta
}.

(** The state that a successful write leaves. *)
Definition committed_store (ops : list WriteOp) (commit_seq : Z) (b : StoreCommitBatch)
    (cs : CommitStore) : CommitStore :=
  let written := with_db (db_write (cs_db cs) ops) cs in
  with_impl (PublishVisible commit_seq
               (publish_commit b commit_seq (cs_impl written))) written.

(** The comparisons of a retry: the stored mutation is compared with the one of the
    batch by the [==] of values. *)
Definition same_mutation (m stored : PendingFactMutation) : Prop :=
  mutation_ref m = mutation_ref stored /\
  mutation_valid_from m = mutation_valid_from stored /\
  mutation_operation m = mutation_operation stored /\
  mutation_schema_epoch m = mutation_schema_epoch stored /\
  option_Value_eqb (mutation_value stored) (mutation_value m) = true.

Definition same_batch (b stored : StoreCommitBatch) : Prop :=
  txn_id b = txn_id stored /\ system_hlc b = system_hlc stored /\
  edge_identities b ≡ₚ edge_identities stored /\
  Forall2 same_mutation (mutations b) (mutations stored).

(** A batch that is marked fresh has an identifier without an outcome record, as an
    identifier that the store's allocator has just given out. *)
Definition fresh_unrecorded (meta : column_family) (b : StoreCommitBatch) : Prop :=
  fresh_transaction_id b = true ->
  forall k, EncodeTransactionMetaKey (txn_id b) = Ok k -> cf_get k meta = None.

(** What a retry of a retained transaction answers: success, or that the identifier
    belongs to another batch. *)
Definition answered {A} (r : StatusOr A) : Prop :=
  (exists a, r = Ok a) \/ r = Fail different_batch.

Definition edge_key (i : EdgeIdentity) : Z * Z := (home_part_id i, edge_id i).

(** A write that the engine rejects changes nothing. *)
Definition outcome_ok (outcome : WriteOutcome) : Prop :=
  match write_status outcome with
  | rocks_invalid_argument _ | rocks_not_supported _ => write_applied outcome = false
  | _ => True
  end.

(** What a batch needs of the store to be committed. *)
Definition admissible (events : list FactEvent) (visible : Z) (b : StoreCommitBatch)
  : Prop :=
  write_verdict events visible (snapshot_write_dependencies b) StatusOK /\
  Forall (strict_read_holds events visible) (strict_read_dependencies b) /\
  edges_hold events b.

(** What a commit can come to: [ledger] and [events] describe the store before. *)
Inductive commit_verdict (ledger : list (Z * StoreCommitBatch))
    (events : list FactEvent) (cs : CommitStore) (b : StoreCommitBatch)
    (prepared_key : option (list byte))
  : StatusOr StoreCommitResult -> CommitStore -> Prop :=
| verdict_commits cs' :
    let commit_seq := visible_seq (cs_impl cs) + 1 in
    admissible events (visible_seq (cs_impl cs)) b ->
    (forall s b', (s, b') ∈ ledger -> txn_id b' <> txn_id b) ->
    commit_inv ((commit_seq, b) :: ledger) (batch_events commit_seq b ++ events) cs' ->
    visible_seq (cs_impl cs') = commit_seq ->
    meta_committed (meta_cf cs) (meta_cf cs') commit_seq b prepared_key ->
    sequence_retention_watermark cs' = sequence_retention_watermark cs ->
    group_commit_max_batch_bytes cs' = group_commit_max_batch_bytes cs ->
    commit_verdict ledger events cs b prepared_key
      (Ok (mkStoreCommitResult commit_seq (system_hlc b))) cs'
| verdict_retries s stored :
    (s, stored) ∈ ledger -> same_batch b stored ->
    commit_verdict ledger events cs b prepared_key
      (Ok (mkStoreCommitResult s (system_hlc b))) cs
| verdict_refuses status cs' :
    commit_inv ledger events cs' -> cs_db cs' = cs_db cs ->
    visible_seq (cs_impl cs') = visible_seq (cs_impl cs) ->
    commit_verdict ledger events cs b prepared_key (Fail status) cs'
| verdict_unknown status cs' :
    IsIndeterminate status = true -> recovery_required cs' = true ->
    visible_seq (cs_impl cs') = visible_seq (cs_impl cs) ->
    cs_db cs' = cs_db cs \/
    (let commit_seq := visible_seq (cs_impl cs) + 1 in
     visible_seq (cs_impl cs) < U64_MAX /\
     represents (facts_cf (cs_impl cs')) (batch_events commit_seq b ++ events) /\
     meta_committed (meta_cf cs) (meta_cf cs') commit_seq b prepared_key) ->
    commit_verdict ledger events cs b prepared_key (Fail status) cs'.

(** What a commit does to the database, whatever it reports: nothing, or the whole
    batch; [written] is a store that has published the batch. *)
Inductive commit_effect (ledger : list (Z * StoreCommitBatch))
    (events : list FactEvent) (cs : CommitStore) (b : StoreCommitBatch)
    (prepared_key : option (list byte)) (r : StatusOr StoreCommitResult)
    (cs' : CommitStore) : Prop :=
| effect_none :
    cs_db cs' = cs_db cs ->
    (recovery_required cs' = false -> commit_inv ledger events cs') ->
    (forall x, r = Ok x -> exists s stored, (s, stored) ∈ ledger /\
       same_batch b stored /\ x = mkStoreCommitResult s (system_hlc b)) ->
    visible_seq (cs_impl cs') = visible_seq (cs_impl cs) ->
    commit_effect ledger events cs b prepared_key r cs'
| effect_written ops written :
    let commit_seq := visible_seq (cs_impl cs) + 1 in
    commit_ops b prepared_key commit_seq = Ok ops ->
    cs_db cs' = db_write (cs_db cs) ops -> cs_db written = cs_db cs' ->
    commit_inv ((commit_seq, b) :: ledger) (batch_events commit_seq b ++ events) written ->
    (forall s b', (s, b') ∈ ledger -> txn_id b' <> txn_id b) ->
    uint 64 commit_seq ->
    (recovery_required cs' = false ->
     cs' = written /\ r = Ok (mkStoreCommitResult commit_seq (system_hlc b))) ->
    (forall x, r = Ok x -> x = mkStoreCommitResult commit_seq (system_hlc b)) ->
    visible_seq (cs_impl written) = commit_seq ->
    commit_effect ledger events cs b prepared_key r cs'.

(** A store with the sample events and no transactions of its own, and a batch. *)
Definition sample_commit_store : CommitStore :=
  mkCommitStore sample_store [] false 0 4096.

Definition sample_write : StoreCommitBatch :=
  mkStoreCommitBatch 41 1000
    [mkPendingFactMutation (mkFactRef 1 kVertexProperty 2 77) 30 kPut 1
       (Some (VInt32 5));
     mkPendingFactMutation (mkFactRef 1 kEdgeState 0 88) 30 kPut 0 None]
    [mkEdgeIdentity 88 3 4 2 1 1 6]
    [mkSnapshotWriteDependency (mkFactRef 1 kVertexProperty 2 77) 30 None None 6]
    [] false.

Definition sample_cf_id (cf : ColumnFamily) : Z :=
  match cf with kFactsCf => 1 | kMetaCf => 2 end.

Definition sample_written : WriteOutcome := mkWriteOutcome rocks_ok true.

(** The operations on the metadata. *)
Definition meta_op (op : WriteOp) : Prop :=
  match op with Put cf _ _ | Delete cf _ => cf = kMetaCf end.

(** ** Facts of a batch *)

Lemma put_mutations commit_seq ms facts ops sequence_keys :
  put_facts commit_seq
    ((fun m => EncodeFactKey (mutation_ref m) (mutation_valid_from m) commit_seq) <$> ms)
    (((fun m => (m, None)) <$> ms) ++ facts) = Ok (ops, sequence_keys) ->
  exists ops1 ops2, ops = ops1 ++ ops2 /\
    put_facts commit_seq [] facts = Ok (ops2, sequence_keys) /\
    Forall2 (fun e op => exists v, EncodeFactValue e = Ok v /\
                           op = Put kFactsCf (event_key e) v)
      (committed_event commit_seq <$> ((fun m => (m, None)) <$> ms)) ops1.
Proof.
  revert ops sequence_keys. induction ms as [|m ms IH]; intros ops sequence_keys H.
  { exists [], ops. split_and!; [done|done|constructor]. }
  rewrite !fmap_cons in *. cbn [app put_facts] in H. inv_ok.
  injection H as <- <-.
  destruct (IH _ _ H1) as (ops1 & ops2 & -> & ? & ?).
  eexists (_ :: ops1), ops2. split_and!; [done|done|]. constructor; [|done].
  by eexists.
Qed.

Lemma put_identities commit_seq ids ops sequence_keys :
  put_facts commit_seq [] ((fun i => (identity_mutation i, Some i)) <$> ids)
  = Ok (ops, sequence_keys) ->
  let events := committed_event commit_seq
                  <$> ((fun i => (identity_mutation i, Some i)) <$> ids) in
  sequence_keys = event_key <$> events /\
  Forall2 (fun e op => exists v, EncodeFactValue e = Ok v /\
                         op = Put kFactsCf (event_key e) v) events ops.
Proof.
  revert ops sequence_keys. induction ids as [|i ids IH]; intros ops sequence_keys H.
  { cbn in H. inv_ok. injection H as <- <-. split; [done|constructor]. }
  rewrite !fmap_cons in *. cbn [put_facts] in H. inv_ok. injection H as <- <-.
  destruct (IH _ _ H1) as [-> ?]. split; [done|]. constructor; [|done]. by eexists.
Qed.

Lemma candidate_keys_Ok commit_seq ms keys keys' :
  loop (candidate_fact_keys commit_seq) keys ms = Ok keys' ->
  keys' = keys
    ++ ((fun m => EncodeFactKey (mutation_ref m) (mutation_valid_from m) commit_seq)
          <$> ms).
Proof.
  revert keys. induction ms as [|m ms IH]; intros keys H; cbn [loop] in H.
  - inv_ok. subst. by rewrite app_nil_r.
  - inv_ok. unfold candidate_fact_keys in H0. inv_ok. subst.
    apply IH in H. rewrite H. by rewrite <- app_assoc.
Qed.

Lemma put_identity_records ids ops ops' :
  loop put_identity ops ids = Ok ops' ->
  exists records, ops' = ops ++ records /\
    Forall2 (fun i op => exists k v, EncodeEdgeIdentityMetaKey (edge_ref i) = Ok k /\
               EncodeEdgeIdentity i = Ok v /\ op = Put kMetaCf k v) ids records.
Proof.
  revert ops. induction ids as [|i ids IH]; intros ops H; cbn [loop] in H.
  - inv_ok. subst. exists []. rewrite app_nil_r. split; [done|constructor].
  - inv_ok. unfold put_identity in H0. inv_ok. subst.
    apply IH in H as (records & -> & Hr). eexists (_ :: records).
    rewrite <- app_assoc. split; [done|]. constructor; [|done]. by eexists _, _.
Qed.

(** The operations of a candidate: the facts, the edge records, and the two records
    of the transaction. *)
Lemma AppendCandidate_Ok b commit_seq ops :
  AppendCandidateToWriteBatch
    (mkCandidateCommit b commit_seq
       ((fun m => EncodeFactKey (mutation_ref m) (mutation_valid_from m) commit_seq)
          <$> mutations b)) = Ok ops ->
  exists facts records txn_key seq_key outcome sequence,
    ops = facts ++ records
          ++ [Put kMetaCf txn_key outcome; Put kMetaCf seq_key sequence] /\
    Forall2 (fun e op => exists v, EncodeFactValue e = Ok v /\
                           op = Put kFactsCf (event_key e) v)
      (batch_events commit_seq b) facts /\
    Forall2 (fun i op => exists k v, EncodeEdgeIdentityMetaKey (edge_ref i) = Ok k /\
               EncodeEdgeIdentity i = Ok v /\ op = Put kMetaCf k v)
      (edge_identities b) records /\
    EncodeTransactionMetaKey (txn_id b) = Ok txn_key /\
    EncodeSequenceMetaKey commit_seq = Ok seq_key /\
    EncodeTransactionOutcome
      (mkTransactionOutcomeRecord (txn_id b) commit_seq kCommitted) = Ok outcome /\
    EncodeSequenceRecordV2
      (mkSequenceRecord commit_seq (txn_id b) (system_hlc b)
         (event_key <$> batch_events commit_seq b)) = Ok sequence.
Proof.
  unfold AppendCandidateToWriteBatch. cbn [candidate_batch candidate_seq candidate_keys].
  intros H. apply bind_Ok in H as (? & _ & H). apply bind_Ok in H as (? & _ & H).
  apply bind_Ok in H as (? & _ & H). inv_ok. rename l into facts. subst ops.
  apply put_mutations in H0 as (ops1 & ops2 & -> & Hi & Hm).
  apply put_identities in Hi as [Ek Hi].
  apply put_identity_records in H1 as (records & -> & Hr).
  assert (((fun m => EncodeFactKey (mutation_ref m) (mutation_valid_from m) commit_seq)
             <$> mutations b) ++ l0 = event_key <$> batch_events commit_seq b) as Ekeys.
  { unfold batch_events, VisitCommitFacts. rewrite !fmap_app, Ek.
    rewrite <- !list_fmap_compose. done. }
  rewrite Ekeys in H5. eexists (ops1 ++ ops2), records, _, _, _, _.
  split_and!; try done. unfold batch_events, VisitCommitFacts. rewrite fmap_app.
  by apply Forall2_app.
Qed.

(** ** The physical write *)

Lemma store_key_distinct key key' k :
  store_key_typed key -> store_key_typed key' ->
  encode_store_key key = Ok k -> encode_store_key key' = Ok k -> key = key'.
Proof.
  assert (forall mk txn, encode_meta_key mk = Ok k ->
            EncodePreparedCommitKey txn = Ok k -> False) as Hmp.
  { intros mk txn E E'. unfold EncodePreparedCommitKey in E'.
    destruct (txn =? 0); inv_ok. subst k.
    destruct mk; cbn [encode_meta_key] in E;
      unfold EncodeSchemaMetaKey, EncodeEdgeIdentityMetaKey,
        EncodeTransactionMetaKey, EncodeSequenceMetaKey in E;
      repeat match type of E with
      | (if ?c then _ else _) = Ok _ => destruct c; [discriminate E|]
      end; inv_ok; try (destruct kind); cbn in E; discriminate E. }
  intros Ht Ht' E E'. destruct key as [mk|txn], key' as [mk'|txn']; cbn in *.
  - f_equal. by eapply meta_key_distinct.
  - by destruct (Hmp mk txn').
  - by destruct (Hmp mk' txn).
  - unfold EncodePreparedCommitKey in E, E'.
    destruct (txn =? 0), (txn' =? 0); inv_ok; try done. subst k.
    unfold AppendU64 in E'. apply app_inv_head in E'.
    apply be_bytes_inj in E'; [by subst|done..].
Qed.

Lemma represents_same cf events events' :
  (forall e, e ∈ events <-> e ∈ events') -> represents cf events -> represents cf events'.
Proof.
  intros H (Hs & H1 & H2). split_and!; [done| |].
  - intros kv Hkv. destruct (H1 kv Hkv) as (e & He & ?). exists e. by rewrite <- H.
  - intros e He. apply H2. by rewrite H.
Qed.

Lemma represents_put cf events e v :
  represents cf events -> event_typed e -> EncodeFactValue e = Ok v ->
  event_key e ∉ event_key <$> events ->
  represents (cf_put (event_key e) v cf) (e :: events).
Proof.
  intros (Hs & H1 & H2) Ht Hv Hk. split_and!; [by apply cf_put_sorted| |].
  - intros [k w] Hin. rewrite elem_of_cf, cf_get_put in Hin by by apply cf_put_sorted.
    case_bool_decide as E; [injection Hin as <-; exists e; split; [by left|done]|].
    apply elem_of_cf in Hin; [|done]. destruct (H1 _ Hin) as (e' & ? & ?).
    exists e'. by split; [right|].
  - intros e' [->|He']%elem_of_cons.
    + exists (event_key e, v). split; [|done].
      rewrite elem_of_cf, cf_get_put, bool_decide_true by first
        [done|by apply cf_put_sorted]. done.
    + destruct (H2 e' He') as ([k w] & Hin & Hen). exists (k, w). split; [|done].
      rewrite elem_of_cf, cf_get_put by by apply cf_put_sorted.
      rewrite bool_decide_false; [by apply elem_of_cf|]. intros E. apply Hk.
      rewrite E. destruct Hen as (_ & Ek & _). cbn in Ek. rewrite Ek.
      by apply list_elem_of_fmap_2.
Qed.

Lemma write_facts db events new ops :
  represents (db_facts db) events -> Forall event_typed new ->
  NoDup (event_key <$> new) ->
  (forall e, e ∈ new -> event_key e ∉ event_key <$> events) ->
  Forall2 (fun e op => exists v, EncodeFactValue e = Ok v /\
                         op = Put kFactsCf (event_key e) v) new ops ->
  represents (db_facts (db_write db ops)) (new ++ events) /\
  db_meta (db_write db ops) = db_meta db.
Proof.
  intros Hrep Ht Hnd Hfresh Hops. revert db events Hrep Ht Hnd Hfresh.
  induction Hops as [|e op new ops (v & Hv & ->) Hops IH];
    intros db events Hrep Ht Hnd Hfresh; [done|].
  apply Forall_cons in Ht as [Hte Ht]. rewrite fmap_cons, NoDup_cons in Hnd.
  destruct Hnd as [Hne Hnd]. destruct (IH (apply_op db (Put kFactsCf (event_key e) v))
    (e :: events)) as [Hr Hm]; [|done|done| |].
  - apply represents_put; [done..|]. apply Hfresh. by left.
  - intros e' He' [E|Hin]%elem_of_cons; [|by apply (Hfresh e'); [right|]].
    apply Hne. fold (event_key e) in E. rewrite <- E. by apply list_elem_of_fmap_2.
  - split; [|done]. eapply represents_same; [|exact Hr].
    intros e'. cbn [app]. rewrite elem_of_cons, !elem_of_app, elem_of_cons. tauto.
Qed.

(** Operations on the metadata leave the facts. *)
Lemma write_meta db ops :
  Forall meta_op ops -> db_facts (db_write db ops) = db_facts db.
Proof.
  intros H. revert db. induction H as [|op ops Hop H IH]; intros db; [done|].
  change (db_write db (op :: ops)) with (db_write (apply_op db op) ops).
  rewrite IH. by destruct op as [[] k v|[] k].
Qed.

Lemma batch_events_typed commit_seq b :
  prepared_typed b -> uint 64 commit_seq -> Forall event_typed (batch_events commit_seq b).
Proof.
  intros (_ & _ & Hm & Hi & _) Hs. unfold batch_events, VisitCommitFacts.
  rewrite fmap_app, Forall_app, <- !list_fmap_compose, !Forall_fmap. split.
  - eapply Forall_impl; [exact Hm|]. intros m (? & ? & ? & ?). by unfold event_typed.
  - eapply Forall_impl; [exact Hi|]. intros i Hti.
    unfold event_typed, ref_typed. cbn. destruct Hti as (? & ? & ? & ? & ? & ? & ?).
    unfold uint in *. split_and!; try done; lia.
Qed.

Lemma batch_events_seq commit_seq b e :
  e ∈ batch_events commit_seq b -> event_commit_seq e = commit_seq.
Proof. intros ([m o] & -> & _)%list_elem_of_fmap. done. Qed.

(** The effect of the operations of a candidate. *)
Lemma ops_value_last cf k v pre post old :
  (forall op, op ∈ post -> op_value cf k op = None) ->
  ops_value cf k (pre ++ Put cf k v :: post) old = Some v.
Proof.
  intros H. rewrite ops_value_app. cbn. rewrite bool_decide_true by done.
  by apply ops_value_untouched.
Qed.

Lemma op_value_other cf k k' v :
  k' <> k -> op_value cf k (Put cf k' v) = None.
Proof. intros H. cbn. rewrite bool_decide_false; [done|]. by intros [_ ?]. Qed.

Lemma EncodeSequenceRecordV2_NoDup r bytes :
  EncodeSequenceRecordV2 r = Ok bytes -> NoDup (fact_keys r) /\ seq_commit_seq r <> 0.
Proof.
  unfold EncodeSequenceRecordV2. intros H. inv_ok.
  apply SequenceRecord_Validate_OK in H0. naive_solver.
Qed.

Lemma app_assoc_cons2 {A} (l : list A) a c : l ++ [a; c] = (l ++ [a]) ++ [c].
Proof. by rewrite <- app_assoc. Qed.

Lemma NoDup_fmap_inj_on {A B} (f : A -> B) l x y :
  NoDup (f <$> l) -> x ∈ l -> y ∈ l -> f x = f y -> x = y.
Proof.
  induction l as [|a l IH]; [by intros _ ?%not_elem_of_nil|].
  rewrite fmap_cons, NoDup_cons. intros [Ha Hnd] [->|Hx]%elem_of_cons
    [->|Hy]%elem_of_cons E; [done| | |by apply IH].
  - destruct Ha. rewrite E. by apply list_elem_of_fmap_2.
  - destruct Ha. rewrite <- E. by apply list_elem_of_fmap_2.
Qed.

Lemma ops_value_agree cf k v ops old :
  (exists op, op ∈ ops /\ op_value cf k op = Some (Some v)) ->
  (forall op, op ∈ ops -> op_value cf k op = None \/ op_value cf k op = Some (Some v)) ->
  ops_value cf k ops old = Some v.
Proof.
  intros Hex Hall.
  assert (old = Some v \/ exists op, op ∈ ops /\ op_value cf k op = Some (Some v)) as H
    by by right.
  clear Hex. revert old H. induction ops as [|op ops IH]; intros old H; cbn [ops_value].
  - destruct H as [H|(op & Hop & _)]; [done|by apply not_elem_of_nil in Hop].
  - apply IH; [intros op' Hop'; apply Hall; by right|].
    destruct H as [->|(op' & [->|Hop']%elem_of_cons & E)].
    + left. by destruct (Hall op (list_elem_of_here _ _)) as [-> | ->].
    + left. by rewrite E.
    + right. by exists op'.
Qed.

Section candidate.

Context (b : StoreCommitBatch) (commit_seq : Z) (ops : list WriteOp) (db : Database).
Context (events : list FactEvent).
Hypothesis Hb : prepared_typed b.
Hypothesis Hseq : uint 64 commit_seq.
Hypothesis Hdb : db_sorted db.
Hypothesis Hrep : represents (db_facts db) events.
Hypothesis Hnew : forall e, e ∈ events -> event_commit_seq e < commit_seq.
Hypothesis Hops : AppendCandidateToWriteBatch
  (mkCandidateCommit b commit_seq
     ((fun m => EncodeFactKey (mutation_ref m) (mutation_valid_from m) commit_seq)
        <$> mutations b)) = Ok ops.

Lemma new_key_fresh e :
  e ∈ batch_events commit_seq b -> (exists v, EncodeFactValue e = Ok v) ->
  event_key e ∉ event_key <$> events.
Proof.
  intros He [v Hv] (e' & E & He')%list_elem_of_fmap.
  pose proof (batch_events_typed _ _ Hb Hseq) as Ht. rewrite Forall_forall in Ht.
  destruct Hrep as (_ & _ & Hr). destruct (Hr e' He') as (kv & _ & Hkv).
  assert (entry_of e (event_key e, v)) as Hen by (split_and!; auto).
  pose proof (entry_decode_key _ _ Hen) as D. pose proof (entry_decode_key _ _ Hkv) as D'.
  destruct Hkv as (_ & Ek & _). cbn in D. rewrite E, <- Ek, D' in D.
  injection D as _ _ Es. specialize (Hnew e' He').
  rewrite (batch_events_seq _ _ _ He) in Es. lia.
Qed.

(** The operations write the facts and keys of the batch's own records. *)
Lemma candidate_keys_touched op k :
  op ∈ ops -> op_value kMetaCf k op <> None ->
  exists key, encode_store_key key = Ok k /\ store_key_typed key /\
              touches commit_seq b key.
Proof.
  destruct (AppendCandidate_Ok _ _ _ Hops)
    as (facts & records & tk & sk & out & sq & -> & Hf & Hr & Ht & Hs & _).
  destruct Hb as (Htxn & _ & _ & Hi & _). intros [Hin|[Hin|Hin]%elem_of_app]%elem_of_app.
  - apply list_elem_of_lookup in Hin as [n Hn].
    destruct (Forall2_lookup_r _ _ _ _ _ Hf Hn) as (e & _ & v & _ & ->). done.
  - apply list_elem_of_lookup in Hin as [n Hn].
    destruct (Forall2_lookup_r _ _ _ _ _ Hr Hn) as (i & Hli & k' & v & Hk & _ & ->).
    apply list_elem_of_lookup_2 in Hli. rewrite Forall_forall in Hi.
    pose proof (Hi i Hli) as (? & _ & _ & _ & ? & _). cbn. case_bool_decide as E; [|done].
    destruct E as [_ ->]. intros _. exists (MetaKey (EdgeKey (edge_ref i))).
    split_and!; [done|done|]. by apply list_elem_of_fmap_2.
  - rewrite !elem_of_cons, elem_of_nil in Hin.
    destruct Hin as [->|[->|[]]]; cbn; case_bool_decide as E; try done;
      destruct E as [_ ->]; intros _.
    + by exists (MetaKey (TransactionKey (txn_id b))).
    + by exists (MetaKey (SequenceKey commit_seq)).
Qed.

Lemma candidate_frame key k :
  store_key_typed key -> encode_store_key key = Ok k -> ~ touches commit_seq b key ->
  cf_get k (db_meta (db_write db ops)) = cf_get k (db_meta db).
Proof.
  intros Ht Hk Hn. change (db_meta ?d) with (db_cf kMetaCf d).
  rewrite db_write_get by done. apply ops_value_untouched. intros op Hop.
  destruct (op_value kMetaCf k op) eqn:E; [|done]. exfalso.
  destruct (candidate_keys_touched op k Hop) as (key' & Hk' & Ht' & Hto);
    [by rewrite E|]. apply Hn. by rewrite (store_key_distinct key key' k).
Qed.

Lemma candidate_recorded : recorded (db_meta (db_write db ops)) commit_seq b.
Proof.
  destruct (AppendCandidate_Ok _ _ _ Hops)
    as (facts & records & tk & sk & out & sq & E & _ & _ & Ht & Hs & Ho & Hq).
  destruct Hb as (Htxn & Hhlc & _).
  assert (tk <> sk) as Hne.
  { intros <-. by discriminate (meta_key_distinct (TransactionKey (txn_id b))
                                (SequenceKey commit_seq) tk). }
  split; [exists tk, out|exists sk, sq]; change (db_meta ?d) with (db_cf kMetaCf d);
    rewrite db_write_get by done; rewrite E; (split; [done|split]).
  - rewrite (app_assoc facts). apply ops_value_last.
    intros op ->%list_elem_of_singleton. by apply op_value_other.
  - by apply (codec_decode (typed := outcome_typed)).
  - rewrite (app_assoc facts), app_assoc_cons2. apply ops_value_last.
    by intros op ?%not_elem_of_nil.
  - by apply DecodeSequenceRecord_OK.
Qed.

(** The record of each edge is stored: no two edges of a batch have the same key. *)
Lemma candidate_edges i :
  NoDup (edge_ref <$> edge_identities b) -> i ∈ edge_identities b ->
  exists k v, EncodeEdgeIdentityMetaKey (edge_ref i) = Ok k /\
    cf_get k (db_meta (db_write db ops)) = Some v /\ DecodeEdgeIdentity v = Ok i.
Proof.
  intros Hnd Hi. destruct (AppendCandidate_Ok _ _ _ Hops)
    as (facts & records & tk & sk & out & sq & E & Hf & Hr & Ht & Hs & _).
  destruct Hb as (Htxn & _ & _ & Hti & _). rewrite Forall_forall in Hti.
  apply list_elem_of_lookup in Hi as Hn. destruct Hn as [n Hn].
  destruct (Forall2_lookup_l _ _ _ _ _ Hr Hn) as (op & Hop & k & v & Hk & Hv & ->).
  exists k, v. split_and!; [done| |by apply (codec_decode (typed := identity_typed)); auto].
  change (db_meta ?d) with (db_cf kMetaCf d). rewrite db_write_get by done.
  assert (forall i, i ∈ edge_identities b -> meta_key_typed (EdgeKey (edge_ref i))) as Hty.
  { intros i' Hi'. pose proof (Hti i' Hi') as (? & _ & _ & _ & ? & _). done. }
  apply ops_value_agree.
  - exists (Put kMetaCf k v). split; [|cbn; by rewrite bool_decide_true].
    rewrite E, !elem_of_app. right. left. by eapply list_elem_of_lookup_2.
  - rewrite E. intros op [Hin|[Hin|Hin]%elem_of_app]%elem_of_app.
    + left. apply list_elem_of_lookup in Hin as [j Hj].
      by destruct (Forall2_lookup_r _ _ _ _ _ Hf Hj) as (e & _ & v' & _ & ->).
    + apply list_elem_of_lookup in Hin as [j Hj].
      destruct (Forall2_lookup_r _ _ _ _ _ Hr Hj) as (i' & Hi' & k' & v' & Hk' & Hv' & ->).
      apply list_elem_of_lookup_2 in Hi'. cbn. case_bool_decide as Ek; [right|by left].
      destruct Ek as [_ ->].
      pose proof (meta_key_distinct (EdgeKey (edge_ref i)) (EdgeKey (edge_ref i')) k
        (Hty i Hi) (Hty i' Hi') Hk Hk') as Ed.
      assert (edge_ref i = edge_ref i') as Er by exact (f_equal (fun k => match k with EdgeKey e => e | _ => edge_ref i end) Ed).
      rewrite (NoDup_fmap_inj_on edge_ref _ i i' Hnd Hi Hi' Er) in Hv. congruence.
    + left. rewrite !elem_of_cons, elem_of_nil in Hin.
      destruct Hin as [->|[->|[]]]; apply op_value_other; intros ->.
      * by discriminate (meta_key_distinct (EdgeKey (edge_ref i))
          (TransactionKey (txn_id b)) k (Hty i Hi) Htxn Hk Ht).
      * by discriminate (meta_key_distinct (EdgeKey (edge_ref i))
          (SequenceKey commit_seq) k (Hty i Hi) Hseq Hk Hs).
Qed.

Lemma candidate_facts :
  represents (db_facts (db_write db ops)) (batch_events commit_seq b ++ events).
Proof.
  destruct (AppendCandidate_Ok _ _ _ Hops)
    as (facts & records & tk & sk & out & sq & E & Hf & Hr & _ & _ & _ & Hq).
  apply EncodeSequenceRecordV2_NoDup in Hq as [Hnd _]. cbn in Hnd.
  rewrite E, db_write_app, write_meta.
  - apply write_facts; try done; [by apply batch_events_typed|].
    intros e He. apply new_key_fresh; [done|]. apply list_elem_of_lookup in He as [n Hn].
    destruct (Forall2_lookup_l _ _ _ _ _ Hf Hn) as (op & _ & v & ? & _). by exists v.
  - apply Forall_app. split; [|by repeat constructor].
    clear -Hr. induction Hr as [|i op ids records (k & v & _ & _ & ->) Hr IH];
      by constructor.
Qed.

End candidate.

(** ** Publication *)

Lemma prepared_batch_typed b : prepared_typed b -> batch_typed b.
Proof.
  intros (_ & _ & Hm & _ & Hd & Hs). split_and!; [done| |].
  - eapply Forall_impl; [exact Hd|]. by intros d [? _].
  - eapply Forall_impl; [exact Hs|]. by intros d [? _].
Qed.

Lemma mutation_family m :
  PendingFactMutation_Validate m = StatusOK ->
  FactRef_Validate (mutation_ref m) = StatusOK /\
  ref_family (mutation_ref m) <> kEdgeIdentity.
Proof.
  unfold PendingFactMutation_Validate. destruct (ValidateMutation _ _ _ _) eqn:E; [|done].
  apply ValidateMutation_OK in E as [? _]. by case_bool_decide.
Qed.

Lemma batch_ok_refs b :
  batch_ok b ->
  Forall (fun m => FactRef_Validate (mutation_ref m) = StatusOK) (commit_mutations b).
Proof.
  intros (_ & _ & _ & Hm & _ & _ & _ & _ & _ & Hi & _).
  unfold commit_mutations, VisitCommitFacts.
  rewrite fmap_app, Forall_app, <- !list_fmap_compose, !Forall_fmap. split.
  - eapply Forall_impl; [exact Hm|]. by intros m [? _]%mutation_family.
  - eapply Forall_impl; [exact Hi|]. intros i [(Hne & _)%EdgeIdentity_Validate_OK _].
    unfold FactRef_Validate. cbn. by rewrite (proj2 (Z.eqb_neq _ _) Hne).
Qed.

Lemma publish_to_reflects `{Accelerator A} events b commit_seq (o : option A) :
  batch_ok b -> commit_seq <> 0 -> reflects_opt events o ->
  reflects_opt (batch_events commit_seq b ++ events) (publish_to b commit_seq o).
Proof.
  intros Hb Hs. destruct o as [a|]; [cbn|done]. intros Ha.
  apply publish_all_reflects; [done|by apply batch_ok_refs| |done].
  unfold commit_mutations, batch_events. rewrite Forall2_fmap.
  apply Forall_Forall2_diag, Forall_forall. by intros [m i] _.
Qed.

(** ** Edge identities *)

Lemma identity_event commit_seq b i :
  i ∈ edge_identities b ->
  committed_event commit_seq (identity_mutation i, Some i) ∈ batch_events commit_seq b.
Proof.
  intros Hi. apply list_elem_of_fmap_2, elem_of_app. right.
  by apply (list_elem_of_fmap_2 (fun i => (identity_mutation i, Some i))).
Qed.

Lemma batch_identity_events commit_seq b e :
  batch_ok b -> e ∈ batch_events commit_seq b -> ref_family (event_ref e) = kEdgeIdentity ->
  exists i, i ∈ edge_identities b /\
            e = committed_event commit_seq (identity_mutation i, Some i).
Proof.
  intros Hb (f & -> & Hf)%list_elem_of_fmap Hfam.
  unfold VisitCommitFacts in Hf.
  apply elem_of_app in Hf as [Hm|Hi];
    [apply list_elem_of_fmap in Hm as (m & -> & Hm)
    |apply list_elem_of_fmap in Hi as (i & -> & Hi)]; [|by exists i].
  destruct Hb as (_ & _ & _ & Hv & _). rewrite Forall_forall in Hv.
  by destruct (mutation_family m (Hv m Hm)).
Qed.

(** What a commit leaves as the identity of an edge: that of the batch, or the
    stored one. *)
Lemma stored_identity_new events commit_seq b i :
  batch_ok b -> uint 64 commit_seq -> i ∈ edge_identities b ->
  (forall e, e ∈ events -> event_commit_seq e < commit_seq /\ 0 <= event_valid_from e) ->
  stored_identity (batch_events commit_seq b ++ events) (edge_ref i) = Some i.
Proof.
  intros Hb Hs Hi Hev. unfold stored_identity, latest_identity.
  set (ref := mkFactRef _ _ _ _).
  set (e := committed_event commit_seq (identity_mutation i, Some i)).
  assert (e ∈ history (batch_events commit_seq b ++ events) ref) as He.
  { apply elem_of_history. split; [|done]. apply elem_of_app. left. by apply identity_event. }
  assert (applies U64_MAX 0 e = true) as Ha.
  { unfold applies, U64_MAX, uint in *. cbn. apply andb_true_iff. lia. }
  destruct (effective _ _ _) as [e'|] eqn:Eff.
  2: { pose proof (proj1 (effective_None _ _ _) Eff e He). congruence. }
  apply effective_Some in Eff as (Hin & Ha' & Hmax). specialize (Hmax e He Ha).
  apply elem_of_history in Hin as [Hin Hr]. apply elem_of_app in Hin as [Hin|Hin].
  - apply batch_identity_events in Hin as (i' & Hi' & ->); [|done|by rewrite Hr].
    cbn. assert (i' = i) as ->; [|done].
    destruct Hb as (_ & _ & _ & _ & _ & _ & _ & _ & _ & _ & Hnd).
    eapply (NoDup_fmap_inj_on edge_ref); [exact Hnd|done|done|].
    unfold ref in Hr. cbn in Hr. unfold edge_ref. congruence.
  - destruct (Hev _ Hin). unfold event_le, event_before in Hmax.
    unfold applies in Ha'. apply andb_true_iff in Ha' as [_ Ht%Z.leb_le]. cbn in Hmax.
    rewrite (proj2 (Z.eqb_eq (event_valid_from e') 0)) in Hmax by lia. cbn in Hmax. lia.
Qed.

Lemma history_other events new ref :
  (forall e, e ∈ new -> event_ref e <> ref) ->
  history (new ++ events) ref = history events ref.
Proof.
  intros H. unfold history. rewrite filter_app, filter_none; [done|].
  by apply Forall_forall.
Qed.

Lemma stored_identity_old events commit_seq b edge :
  batch_ok b -> edge ∉ edge_ref <$> edge_identities b ->
  stored_identity (batch_events commit_seq b ++ events) edge = stored_identity events edge.
Proof.
  intros Hb He. unfold stored_identity, latest_identity. rewrite history_other; [done|].
  intros e Hin Hr. apply batch_identity_events in Hin as (i & Hi & ->);
    [|done|by rewrite Hr]. apply He. cbn in Hr. injection Hr as E1 E2.
  destruct edge as [p n]. cbn in *. subst.
  by apply (list_elem_of_fmap_2 edge_ref).
Qed.

(** ** The write of a commit *)

Lemma commit_ops_Ok b prepared_key commit_seq ops :
  commit_ops b prepared_key commit_seq = Ok ops ->
  exists core watermark,
    AppendCandidateToWriteBatch
      (mkCandidateCommit b commit_seq
         ((fun m => EncodeFactKey (mutation_ref m) (mutation_valid_from m) commit_seq)
            <$> mutations b)) = Ok core /\
    EncodeWatermark commit_seq = Ok watermark /\
    ops = core ++ Put kMetaCf EncodeVisibleWatermarkKey watermark
                  :: delete_prepared prepared_key.
Proof.
  unfold commit_ops. intros H. apply bind_Ok in H as (keys & Hk & H).
  apply candidate_keys_Ok in Hk as ->. inv_ok. subst. by eexists _, _.
Qed.

Lemma recorded_frame meta meta' commit_seq b :
  (forall key k, key = MetaKey (TransactionKey (txn_id b)) \/
                 key = MetaKey (SequenceKey commit_seq) ->
     encode_store_key key = Ok k -> cf_get k meta' = cf_get k meta) ->
  recorded meta commit_seq b -> recorded meta' commit_seq b.
Proof.
  intros H [(k & v & Hk & Hv & ?) (k' & v' & Hk' & Hv' & ?)]. split.
  - exists k, v. rewrite (H _ k (or_introl eq_refl) Hk). done.
  - exists k', v'. rewrite (H _ k' (or_intror eq_refl) Hk'). done.
Qed.

(** A last operation on one key of the metadata. *)
Lemma tail_frame db key key' op k k' :
  db_sorted db -> store_key_typed key -> store_key_typed key' -> key <> key' ->
  encode_store_key key = Ok k -> encode_store_key key' = Ok k' ->
  (exists v, op = Put kMetaCf k' v) \/ op = Delete kMetaCf k' ->
  cf_get k (db_meta (apply_op db op)) = cf_get k (db_meta db).
Proof.
  intros [_ Hm] Ht Ht' Hne Hk Hk' Hop.
  assert (k' <> k) by (intros ->; by apply Hne, (store_key_distinct key key' k)).
  destruct Hop as [[v ->]| ->]; cbn; rewrite ?cf_get_put, ?cf_get_delete by done;
    by rewrite bool_decide_false.
Qed.

Lemma commit_tail db b prepared_key watermark key k :
  db_sorted db -> uint 64 (txn_id b) -> prepared_key_ok b prepared_key ->
  store_key_typed key -> key <> MetaKey VisibleWatermarkKey ->
  key <> PreparedKey (txn_id b) -> encode_store_key key = Ok k ->
  cf_get k (db_meta (db_write db
    (Put kMetaCf EncodeVisibleWatermarkKey watermark :: delete_prepared prepared_key)))
  = cf_get k (db_meta db).
Proof.
  intros Hdb Htxn Hpk Ht Hw Hp Hk.
  change (db_write db (?op :: ?l)) with (db_write (apply_op db op) l).
  transitivity (cf_get k (db_meta
    (apply_op db (Put kMetaCf EncodeVisibleWatermarkKey watermark)))).
  - destruct prepared_key as [pk|]; [|done]. cbn [delete_prepared db_write fold_left].
    eapply (tail_frame _ key (PreparedKey (txn_id b))); try done;
      [by apply apply_op_sorted|by apply Hpk|by right].
  - eapply (tail_frame _ key (MetaKey VisibleWatermarkKey)); try done. left. by eexists.
Qed.

Section commit_write.

Context (b : StoreCommitBatch) (prepared_key : option (list byte)) (commit_seq : Z).
Context (ops : list WriteOp) (db : Database) (events : list FactEvent).
Hypothesis Hb : prepared_typed b.
Hypothesis Hseq : uint 64 commit_seq.
Hypothesis Hkey : prepared_key_ok b prepared_key.
Hypothesis Hdb : db_sorted db.
Hypothesis Hrep : represents (db_facts db) events.
Hypothesis Hnew : forall e, e ∈ events -> event_commit_seq e < commit_seq.
Hypothesis Hops : commit_ops b prepared_key commit_seq = Ok ops.

Lemma commit_facts :
  represents (db_facts (db_write db ops)) (batch_events commit_seq b ++ events).
Proof.
  destruct (commit_ops_Ok _ _ _ _ Hops) as (core & w & Hc & _ & ->).
  rewrite db_write_app, write_meta; [by eapply candidate_facts|].
  destruct prepared_key; by repeat constructor.
Qed.

Lemma commit_frame key k :
  untouched commit_seq b key -> encode_store_key key = Ok k ->
  cf_get k (db_meta (db_write db ops)) = cf_get k (db_meta db).
Proof.
  intros (Ht & Hn & Hw & Hp) Hk.
  destruct (commit_ops_Ok _ _ _ _ Hops) as (core & w & Hc & _ & ->).
  rewrite db_write_app, (commit_tail _ b _ _ key); try done;
    [by eapply candidate_frame|by apply db_write_sorted|by apply Hb].
Qed.

Lemma commit_recorded : recorded (db_meta (db_write db ops)) commit_seq b.
Proof.
  destruct (commit_ops_Ok _ _ _ _ Hops) as (core & w & Hc & _ & ->).
  rewrite db_write_app. eapply recorded_frame; [|by eapply candidate_recorded].
  intros key k Hcase Hk. apply (commit_tail _ b _ _ key); try done;
    [by apply db_write_sorted|by apply Hb|..]; destruct Hcase as [-> | ->]; try done.
  apply Hb.
Qed.

Lemma commit_watermark : watermark_is (db_meta (db_write db ops)) commit_seq.
Proof.
  destruct (commit_ops_Ok _ _ _ _ Hops) as (core & w & _ & Hw & ->).
  exists w. split; [|by apply (codec_decode (typed := uint 64))].
  change (db_meta ?d) with (db_cf kMetaCf d). rewrite db_write_get by done.
  apply ops_value_last. intros op Hop. destruct prepared_key as [pk|];
    [|by apply not_elem_of_nil in Hop].
  apply list_elem_of_singleton in Hop as ->. cbn. rewrite bool_decide_false; [done|].
  intros [_ E]. specialize (Hkey pk eq_refl).
  by discriminate (store_key_distinct (PreparedKey (txn_id b))
                     (MetaKey VisibleWatermarkKey) pk (proj1 Hb) I Hkey (f_equal Ok (eq_sym E))).
Qed.

Lemma commit_deletes_prepared k :
  prepared_key = Some k -> cf_get k (db_meta (db_write db ops)) = None.
Proof.
  destruct (commit_ops_Ok _ _ _ _ Hops) as (core & w & _ & _ & ->). intros ->.
  change (db_meta ?d) with (db_cf kMetaCf d). rewrite db_write_get by done.
  rewrite ops_value_app. cbn. by rewrite (bool_decide_true (_ = _ /\ k = k)).
Qed.

(** An operation of a commit on the metadata has one of the keys of the commit. *)
Lemma commit_ops_written op k :
  op ∈ ops -> op_value kMetaCf k op <> None -> commit_writes commit_seq b prepared_key k.
Proof.
  destruct (commit_ops_Ok _ _ _ _ Hops) as (core & w & Hc & _ & ->).
  intros [Hop|Hop]%elem_of_app Hv.
  - destruct (candidate_keys_touched b commit_seq core Hb Hseq Hc op k Hop Hv)
      as (key & Hk & _ & Ht). unfold commit_writes.
    destruct key as [[]|]; cbn in Ht, Hk; try done; subst; eauto.
    apply list_elem_of_fmap in Ht as (i & -> & Hi). eauto 10.
  - apply elem_of_cons in Hop as [->|Hop].
    + cbn in Hv. case_bool_decide as E; [|done]. destruct E as [_ <-]. right. right. by left.
    + destruct prepared_key as [pk|]; [|by apply not_elem_of_nil in Hop].
      apply list_elem_of_singleton in Hop as ->. cbn in Hv. case_bool_decide as E; [|done].
      destruct E as [_ <-]. do 3 right. by left.
Qed.

(** A commit writes no key of an edge of the batch after its record. *)
Lemma commit_edges i :
  batch_ok b -> i ∈ edge_identities b ->
  exists k v, EncodeEdgeIdentityMetaKey (edge_ref i) = Ok k /\
    cf_get k (db_meta (db_write db ops)) = Some v /\ DecodeEdgeIdentity v = Ok i.
Proof.
  intros Hbok Hi. destruct (commit_ops_Ok _ _ _ _ Hops) as (core & w & Hc & _ & ->).
  destruct (candidate_edges b commit_seq core db Hb Hseq Hdb Hc i)
    as (k & v & Hk & Hv & Hd); [apply Hbok|done|].
  exists k, v. split_and!; try done. rewrite db_write_app, <- Hv.
  apply (commit_tail _ b _ _ (MetaKey (EdgeKey (edge_ref i)))); try done;
    [by apply db_write_sorted|apply Hb|].
  destruct Hb as (_ & _ & _ & Hti & _). rewrite Forall_forall in Hti.
  pose proof (Hti i Hi) as (? & _ & _ & _ & ? & _). done.
Qed.

Lemma commit_meta :
  batch_ok b ->
  meta_committed (db_meta db) (db_meta (db_write db ops)) commit_seq b prepared_key.
Proof.
  intros Hbok. split.
  - exact commit_recorded.
  - intros i. by apply commit_edges.
  - exact commit_watermark.
  - exact commit_deletes_prepared.
  - intros k Hn. change (db_meta ?d) with (db_cf kMetaCf d). rewrite db_write_get by done.
    apply ops_value_untouched. intros op Hop.
    destruct (op_value kMetaCf k op) eqn:E; [|done]. destruct Hn.
    apply (commit_ops_written op k Hop). by rewrite E.
Qed.

End commit_write.

(** ** One commit *)

Section step.

Context (ledger : list (Z * StoreCommitBatch)) (events : list FactEvent).
Context (cs : CommitStore) (b : StoreCommitBatch) (prepared_key : option (list byte)).
Context (ops : list WriteOp).
Let commit_seq := visible_seq (cs_impl cs) + 1.
Hypothesis Hinv : commit_inv ledger events cs.
Hypothesis Hb : prepared_typed b.
Hypothesis Hvalid : StoreCommitBatch_Validate b = StatusOK.
Hypothesis Hedges : edges_hold events b.
Hypothesis Hkey : prepared_key_ok b prepared_key.
Hypothesis Htxn : forall s b', (s, b') ∈ ledger -> txn_id b' <> txn_id b.
Hypothesis Hmax : visible_seq (cs_impl cs) <> U64_MAX.
Hypothesis Hops : commit_ops b prepared_key commit_seq = Ok ops.

Lemma step_batch_ok : batch_ok b.
Proof.
  by apply StoreCommitBatch_Validate_OK; [apply prepared_batch_typed|].
Qed.

Lemma step_seq : uint 64 commit_seq /\ 0 < commit_seq.
Proof.
  pose proof (inv_visible _ _ _ Hinv). unfold commit_seq, uint, U64_MAX in *. lia.
Qed.

Lemma step_new e : e ∈ events -> event_commit_seq e < commit_seq.
Proof.
  intros He. destruct (inv_store _ _ _ Hinv) as (_ & H & _). specialize (H e He).
  unfold commit_seq. lia.
Qed.

Lemma step_sorted : db_sorted (cs_db cs).
Proof. split; [apply (inv_store _ _ _ Hinv)|apply (inv_meta _ _ _ Hinv)]. Qed.

Lemma step_store :
  store_ok (batch_events commit_seq b ++ events)
    (cs_impl (committed_store ops commit_seq b cs)).
Proof.
  destruct (inv_store _ _ _ Hinv) as (Hrep & Hvis & Hr & Hh & Hc).
  pose proof step_batch_ok. pose proof step_seq as [? ?].
  split_and!; try (apply publish_to_reflects; [done|lia|done]).
  - apply (commit_facts b prepared_key); try done. apply step_new.
  - intros e [He|He]%elem_of_app; cbn.
    + by rewrite (batch_events_seq _ _ _ He).
    + specialize (step_new e He). lia.
Qed.

Lemma step_entry s b' :
  (s, b') ∈ ledger ->
  ledger_entry (batch_events commit_seq b ++ events)
    (meta_cf (committed_store ops commit_seq b cs)) commit_seq s b'.
Proof.
  intros Hin. destruct (inv_entries _ _ _ Hinv s b' Hin)
    as (Hs & Hb' & Hv' & Hrec & Hsub & Hid).
  pose proof step_seq as [? ?]. pose proof step_batch_ok as Hbok.
  split_and!; [lia|unfold commit_seq; lia|done|done| | |].
  - eapply recorded_frame; [|exact Hrec]. intros key k Hcase Hk.
    eapply (commit_frame b prepared_key); try done; [apply step_sorted|].
    destruct Hb'. pose proof (Htxn s b' Hin).
    destruct Hcase as [-> | ->]; split_and!; try done; cbn; unfold commit_seq, uint in *; lia.
  - intros e He. apply elem_of_app. right. by apply Hsub.
  - intros i Hi. specialize (Hid i Hi).
    destruct (decide (edge_ref i ∈ edge_ref <$> edge_identities b)) as [He|He].
    + apply list_elem_of_fmap in He as (i' & E & Hi'). rewrite E.
      rewrite (stored_identity_new events commit_seq b i'); try done.
      * destruct (proj2 Hedges i' Hi') as [Hn|Hn]; rewrite <- E in Hn; congruence.
      * intros e He. split; [by apply step_new|].
        destruct (inv_store _ _ _ Hinv) as ((_ & _ & Hrep) & _).
        destruct (Hrep e He) as (kv & _ & (_ & [? _] & _) & _). lia.
    + by rewrite stored_identity_old.
Qed.

Lemma step_own_entry :
  ledger_entry (batch_events commit_seq b ++ events)
    (meta_cf (committed_store ops commit_seq b cs)) commit_seq commit_seq b.
Proof.
  pose proof step_seq as [? ?]. split_and!; try done.
  - apply (commit_recorded b prepared_key); try done. apply step_sorted.
  - intros e He. apply elem_of_app. by left.
  - intros i Hi. apply stored_identity_new; try done; [apply step_batch_ok|].
    intros e He. split; [by apply step_new|].
    destruct (inv_store _ _ _ Hinv) as ((_ & _ & Hrep) & _).
    destruct (Hrep e He) as (kv & _ & (_ & [? _] & _) & _). lia.
Qed.

Lemma step_outcomes txn k :
  uint 64 txn -> EncodeTransactionMetaKey txn = Ok k ->
  is_Some (cf_get k (meta_cf (committed_store ops commit_seq b cs))) ->
  exists s b', (s, b') ∈ (commit_seq, b) :: ledger /\ txn_id b' = txn.
Proof.
  intros Ht Hk Hg. destruct (decide (txn = txn_id b)) as [->|Hne].
  { exists commit_seq, b. split; [by left|done]. }
  cbn in Hg. rewrite (commit_frame b prepared_key commit_seq ops (cs_db cs) Hb
    (proj1 step_seq) Hkey step_sorted Hops (MetaKey (TransactionKey txn))) in Hg by done.
  destruct (inv_outcomes _ _ _ Hinv txn k Ht Hk Hg) as (s & b' & ? & ?).
  exists s, b'. split; [by right|done].
Qed.

Lemma step_inv :
  commit_inv ((commit_seq, b) :: ledger) (batch_events commit_seq b ++ events)
    (committed_store ops commit_seq b cs).
Proof.
  split.
  - apply step_store.
  - cbn. apply (db_write_sorted (cs_db cs) ops step_sorted).
  - apply step_seq.
  - apply (inv_running _ _ _ Hinv).
  - intros s b' [[= -> ->]|Hin]%elem_of_cons; [apply step_own_entry|by apply step_entry].
  - exact step_outcomes.
Qed.

End step.

Lemma commit_inv_cache ledger events cs c :
  commit_inv ledger events cs -> store_ok events (with_cache c (cs_impl cs)) ->
  commit_inv ledger events (with_impl (with_cache c (cs_impl cs)) cs).
Proof. intros [] Hst. by split. Qed.

Lemma dependencies_ok b :
  prepared_typed b -> batch_ok b -> Forall dependency_ok (snapshot_write_dependencies b).
Proof.
  intros (_ & _ & _ & _ & Hd & _) (_ & _ & _ & _ & _ & Hv & _).
  rewrite Forall_forall in *. intros d Hin.
  destruct (Hd d Hin) as ((? & ? & [? ?]) & _). destruct (Hv d Hin) as [Hval _].
  unfold SnapshotWriteDependency_Validate in Hval.
  unfold uint in *. split; [|done]. unfold key_ok, uint, U64_MAX.
  split_and!; try done; try lia. by destruct (FactRef_Validate (swd_ref d)).
Qed.

Lemma edge_batch_ok_batch b : prepared_typed b -> batch_ok b -> edge_batch_ok b.
Proof.
  intros (_ & _ & Hm & Hi & _) (_ & _ & _ & Hv & _ & _ & _ & _ & _ & Hiv & _).
  rewrite Forall_forall in Hm. rewrite Forall_forall in Hi.
  rewrite Forall_forall in Hv. rewrite Forall_forall in Hiv. split.
  - intros m Hin. destruct (Hm m Hin) as ((? & _ & _ & ?) & _).
    destruct (mutation_family m (Hv m Hin)) as [Hr _].
    split_and!; [done|done|]. unfold FactRef_Validate in Hr. cbn. intros E.
    rewrite E in Hr. by destruct (negb _).
  - intros i Hin. destruct (Hi i Hin) as (? & _ & _ & _ & ? & _).
    destruct (Hiv i Hin) as [(? & _)%EdgeIdentity_Validate_OK _]. done.
Qed.

(** The validations leave the store as it was, but for the cache. *)
Lemma validate_dependencies_ok events st b :
  store_ok events st -> prepared_typed b -> batch_ok b ->
  exists valid c, validate_dependencies st b = (valid, with_cache c st) /\
    store_ok events (with_cache c st) /\
    (valid = Ok tt -> edges_hold events b /\
       write_verdict events (visible_seq st) (snapshot_write_dependencies b) StatusOK /\
       ValidateStrictReadDependencies st (strict_read_dependencies b) = StatusOK).
Proof.
  intros Hst Hb Hbok. unfold validate_dependencies.
  destruct (ValidateSnapshotWriteDependencies_OK events st
              (snapshot_write_dependencies b)) as (status & c & -> & Hst' & Hv);
    [done|by apply dependencies_ok|].
  eexists _, c. split; [done|]. split; [done|]. intros H. inv_ok. subst. split_and!.
  - eapply ValidateEdgeIdentitiesForCommit_OK; [exact Hst'|by apply edge_batch_ok_batch|done].
  - done.
  - done.
Qed.

(** ** Retries *)

Lemma committed_edge_ids_loop commit_seq facts ids :
  Forall (fun f => key_ok (mutation_ref f.1) (mutation_valid_from f.1) commit_seq) facts ->
  loop committed_edge_id ids (event_key <$> (committed_event commit_seq <$> facts))
  = Ok (list_to_set
          (omap (fun f => if bool_decide (ref_family (mutation_ref f.1) = kEdgeIdentity)
                          then Some (ref_part_id (mutation_ref f.1),
                                     ref_entity_id (mutation_ref f.1))
                          else None) facts) ∪ ids).
Proof.
  intros H. revert ids. induction H as [|[m o] facts Hk H IH]; intros ids.
  { cbn. f_equal. set_solver. }
  rewrite !fmap_cons. cbn [loop].
  assert (DecodeFactKey (event_key (committed_event commit_seq (m, o)))
          = Ok (mkDecodedFactKey (mutation_ref m) (mutation_valid_from m) commit_seq)) as D
    by by apply DecodeFactKey_Encode.
  unfold committed_edge_id at 2. rewrite D.
  cbn beta iota delta [mbind StatusOr_bind key_ref]. rewrite IH. cbn.
  case_bool_decide; f_equal; set_solver.
Qed.

Lemma batch_edge_ids b :
  batch_ok b ->
  omap (fun f : PendingFactMutation * option EdgeIdentity =>
          if bool_decide (ref_family (mutation_ref f.1) = kEdgeIdentity)
          then Some (ref_part_id (mutation_ref f.1), ref_entity_id (mutation_ref f.1))
          else None) (VisitCommitFacts b) = edge_key <$> edge_identities b.
Proof.
  intros (_ & _ & _ & Hm & _). unfold VisitCommitFacts. rewrite omap_app.
  assert (forall l r : list (Z * Z), l = [] -> l ++ r = r) as Hnil by by intros ? ? ->.
  rewrite Hnil.
  - induction (edge_identities b) as [|i ids IH]; [done|]. cbn in *. by f_equal.
  - induction Hm as [|m ms Hv Hm IH]; [done|]. cbn in *.
    rewrite bool_decide_false by by apply mutation_family. done.
Qed.

Lemma size_edge_keys ids :
  NoDup (edge_ref <$> ids) ->
  size (list_to_set (edge_key <$> ids) : gset (Z * Z)) = length ids.
Proof.
  intros H. rewrite size_list_to_set; [by rewrite length_fmap|].
  eapply NoDup_fmap_iff; [|exact H]. intros i j _ _. unfold edge_key, edge_ref.
  split; congruence.
Qed.

(** A retry that is answered: it is accepted, or it is another batch. *)
Lemma answered_bind {A B} (r : StatusOr A) (f : A -> StatusOr B) :
  answered r -> (forall a, r = Ok a -> answered (f a)) -> answered (r ≫= f).
Proof. intros [[a ->]| ->] H; [by apply H|by right]. Qed.

Lemma answered_require c : answered (require c different_batch).
Proof. destruct c; [left; by eexists|by right]. Qed.

Lemma answered_loop {A} (f : A -> StatusOr unit) l :
  (forall x, x ∈ l -> answered (f x)) -> answered (loop (fun _ x => f x) tt l).
Proof.
  induction l as [|x l IH]; intros H; [left; by eexists|]. cbn [loop].
  apply answered_bind; [apply H; by left|]. intros [] _. apply IH. intros y Hy.
  apply H. by right.
Qed.

Section retry.

Context (ledger : list (Z * StoreCommitBatch)) (events : list FactEvent).
Context (cs : CommitStore) (s : Z) (stored : StoreCommitBatch).
Hypothesis Hinv : commit_inv ledger events cs.
Hypothesis Hin : (s, stored) ∈ ledger.

Lemma retry_stored_ok :
  prepared_typed stored /\ batch_ok stored /\ uint 64 s /\ s <> 0.
Proof.
  destruct (inv_entries _ _ _ Hinv s stored Hin) as (Hs & Ht & Hv & _).
  pose proof (inv_visible _ _ _ Hinv). unfold uint in *.
  split_and!; try done; try lia.
  by apply StoreCommitBatch_Validate_OK; [apply prepared_batch_typed|].
Qed.

Lemma stored_fact e :
  e ∈ batch_events s stored ->
  exists v, cf_get (event_key e) (facts_cf (cs_impl cs)) = Some v /\
    DecodeFactValue (event_ref e) (event_valid_from e) s v = Ok e /\
    key_ok (event_ref e) (event_valid_from e) s.
Proof.
  intros He. destruct (inv_entries _ _ _ Hinv s stored Hin) as (_ & _ & _ & _ & Hsub & _).
  destruct (inv_store _ _ _ Hinv) as ((Hs & _ & Hr) & _).
  destruct (Hr e (Hsub e He)) as ([k v] & Hkv & Hen). exists v.
  pose proof (entry_decode_value _ _ Hen) as D. pose proof (entry_key_ok _ _ Hen) as K.
  destruct Hen as (_ & Ek & _). cbn in *. subst k.
  rewrite (batch_events_seq _ _ _ He) in D, K.
  split_and!; [by apply elem_of_cf|done|done].
Qed.

Lemma retry_mutation_ok m m0 :
  mutation_typed m -> PendingFactMutation_Validate m = StatusOK -> m0 ∈ mutations stored ->
  retry_mutation cs s m (event_key (committed_event s (m0, None))) = Ok tt <->
  same_mutation m m0.
Proof.
  intros Ht Hv Hm0. destruct retry_stored_ok as (_ & _ & Hs & Hs0).
  assert (committed_event s (m0, None) ∈ batch_events s stored) as He.
  { apply list_elem_of_fmap_2, elem_of_app. left.
    by apply (list_elem_of_fmap_2 (fun m => (m, None))). }
  destruct (stored_fact _ He) as (v & Hg & Hd & Hk0). cbn in Hd, Hk0.
  assert (key_ok (mutation_ref m) (mutation_valid_from m) s) as Hk.
  { destruct (mutation_family m Hv) as [? _]. destruct Ht as (? & ? & _).
    unfold key_ok. by split_and?. }
  unfold retry_mutation, event_key in *. cbn [committed_event event_ref
    event_valid_from event_commit_seq] in *. split.
  - intros H. inv_ok. bool_to_prop.
    match goal with H : EncodeFactKey _ _ _ = EncodeFactKey _ _ _ |- _ =>
      apply (EncodeFactKey_inj _ _ _ _ s Hk Hk0) in H; injection H as Er Ev end.
    rewrite Er, Ev, Hg in *. simplify_eq. unfold same_mutation.
    match goal with H : DecodeFactValue _ _ _ _ = Ok _ |- _ =>
      rewrite Hd in H; injection H as <- end. by cbn in *.
  - intros (Er & Ev & Eo & Ee & Eq). rewrite Er, Ev, Eo, Ee.
    rewrite bool_decide_true by done. cbn [require mbind StatusOr_bind].
    rewrite Hg. cbn [from_option mbind StatusOr_bind]. rewrite Hd. cbn.
    by rewrite bool_decide_true, Z.eqb_refl, Eq.
Qed.

Lemma retry_mutations_ok ms ms0 rest :
  Forall mutation_typed ms ->
  Forall (fun m => PendingFactMutation_Validate m = StatusOK) ms ->
  Forall (fun m => m ∈ mutations stored) ms0 -> length ms = length ms0 ->
  retry_mutations cs s ms
    ((event_key <$> (committed_event s <$> ((fun m => (m, None)) <$> ms0))) ++ rest) = Ok tt
  <-> Forall2 same_mutation ms ms0.
Proof.
  intros Ht. revert ms0. induction Ht as [|m ms Htm Ht IH]; intros [|m0 ms0] Hv Hs Hlen;
    try done.
  apply Forall_cons in Hv as [Hvm Hv], Hs as [Hm0 Hs]. injection Hlen as Hlen.
  rewrite !fmap_cons, Forall2_cons. cbn [app retry_mutations].
  rewrite <- (IH ms0 Hv Hs Hlen), <- (retry_mutation_ok m m0 Htm Hvm Hm0).
  destruct (retry_mutation _ _ _ _) as [[]|]; cbn; naive_solver.
Qed.

Lemma retry_identity_ok i :
  edge_key_ok (edge_ref i) ->
  retry_identity cs (list_to_set (edge_key <$> edge_identities stored)) i = Ok tt <->
  i ∈ edge_identities stored.
Proof.
  intros Hk. destruct (inv_entries _ _ _ Hinv s stored Hin) as (_ & _ & _ & _ & _ & Hid).
  unfold retry_identity.
  rewrite (ReadLatestEdgeIdentity_stored events) by first [apply Hinv|done]. split.
  - intros H. inv_ok. bool_to_prop.
    match goal with H : _ ∈ list_to_set _ |- _ =>
      apply elem_of_list_to_set, list_elem_of_fmap in H as (i' & E & Hi') end.
    assert (edge_ref i = edge_ref i') as E' by (unfold edge_ref; unfold edge_key in E; congruence).
    rewrite E', (Hid i' Hi') in *. inv_ok. subst. inv_ok. bool_to_prop. by subst.
  - intros Hi. rewrite bool_decide_true.
    2: { by apply elem_of_list_to_set, (list_elem_of_fmap_2 edge_key). }
    cbn. rewrite (Hid i Hi). by rewrite bool_decide_true.
Qed.

(** The edges that the retained record names. *)
Lemma retry_edge_ids :
  loop committed_edge_id ∅ (event_key <$> batch_events s stored)
  = Ok (list_to_set (edge_key <$> edge_identities stored)).
Proof.
  destruct retry_stored_ok as (_ & Hbs & _). unfold batch_events.
  rewrite committed_edge_ids_loop.
  - rewrite batch_edge_ids by done. f_equal. set_solver.
  - apply Forall_forall. intros f Hf.
    destruct (stored_fact (committed_event s f)) as (_ & _ & _ & Hk);
      [by apply list_elem_of_fmap_2|]. by destruct f.
Qed.

(** The checks behind the sequence record. *)
Lemma retry_checks_ok b :
  prepared_typed b -> batch_ok b ->
  (length (mutations b) + length (edge_identities b)
   = length (mutations stored) + length (edge_identities stored))%nat ->
  (exists ids, loop committed_edge_id ∅ (event_key <$> batch_events s stored) = Ok ids /\
     size ids = length (edge_identities b) /\
     loop (fun _ i => retry_identity cs ids i) tt (edge_identities b) = Ok tt /\
     retry_mutations cs s (mutations b) (event_key <$> batch_events s stored) = Ok tt)
  <-> edge_identities b ≡ₚ edge_identities stored /\
      Forall2 same_mutation (mutations b) (mutations stored).
Proof.
  intros Ht Hb Hlen. pose proof retry_stored_ok as (Hts & Hbs & Hs & Hs0).
  pose proof retry_edge_ids as Hloop.
  pose proof Hb as (_ & _ & _ & Hv & _ & _ & _ & _ & _ & _ & Hnd).
  pose proof Hbs as (_ & _ & _ & _ & _ & _ & _ & _ & _ & _ & Hnds).
  pose proof (edge_batch_ok_batch b Ht Hb) as [_ Hek].
  assert (length (mutations b) = length (mutations stored) ->
    retry_mutations cs s (mutations b) (event_key <$> batch_events s stored) = Ok tt
    <-> Forall2 same_mutation (mutations b) (mutations stored)) as Hmut.
  { intros E. unfold batch_events, VisitCommitFacts. rewrite !fmap_app.
    apply retry_mutations_ok; try done; [apply Ht|by apply Forall_forall]. }
  split.
  - intros (ids & E & Hsz & Hid & Hm). rewrite Hloop in E. injection E as <-.
    rewrite size_edge_keys in Hsz by done. rewrite Hmut in Hm by lia.
    split; [|done]. apply submseteq_length_Permutation; [|lia].
    apply NoDup_submseteq; [by eapply NoDup_fmap_1|]. intros i Hi.
    apply retry_identity_ok; [by apply Hek|]. rewrite loop_unit_Ok in Hid. by apply Hid.
  - intros [Hp Hm]. eexists. split; [exact Hloop|].
    rewrite size_edge_keys, loop_unit_Ok by done. split_and!.
    + by rewrite Hp.
    + intros i Hi. apply retry_identity_ok; [by apply Hek|]. by rewrite <- Hp.
    + apply Hmut; [|done]. by eapply Forall2_length.
Qed.

Lemma retry_commit_OK b k v r :
  txn_id b = txn_id stored -> prepared_typed b -> batch_ok b ->
  EncodeTransactionMetaKey (txn_id b) = Ok k -> cf_get k (meta_cf cs) = Some v ->
  retry_commit cs b v = Ok r <->
  sequence_retention_watermark cs <= s /\ same_batch b stored /\
  r = mkStoreCommitResult s (system_hlc b).
Proof.
  intros Etxn Ht Hb Hk Hv.
  destruct (inv_entries _ _ _ Hinv s stored Hin) as (_ & _ & _ & Hrec & _).
  destruct Hrec as [(k0 & v0 & Hk0 & Hv0 & Hout) (k1 & v1 & Hk1 & Hv1 & Hseq)].
  rewrite <- Etxn, Hk in Hk0. injection Hk0 as <-. rewrite Hv in Hv0. injection Hv0 as <-.
  assert (length (event_key <$> batch_events s stored)
          = length (mutations stored) + length (edge_identities stored))%nat as Hlk.
  { unfold batch_events, VisitCommitFacts. rewrite !length_fmap, length_app, !length_fmap.
    done. }
  unfold retry_commit. rewrite Hout. cbn [outcome_commit_seq mbind StatusOr_bind].
  rewrite Hk1. cbn [mbind StatusOr_bind]. rewrite Hv1. cbn [from_option mbind StatusOr_bind].
  rewrite Hseq. cbn [seq_txn_id seq_system_hlc fact_keys mbind StatusOr_bind]. rewrite Hlk.
  unfold same_batch. split.
  - intros H. inv_ok. bool_to_prop. subst r.
    assert (edge_identities b ≡ₚ edge_identities stored /\
            Forall2 same_mutation (mutations b) (mutations stored)) as [? ?].
    { apply retry_checks_ok; [done|done|lia|]. eexists. split_and!; try done.
      all: match goal with u : unit |- _ => by destruct u end. }
    split_and!; try done. f_equal. done.
  - intros (Hret & (_ & Eh & Hp & Hm) & ->).
    pose proof (conj Hp Hm) as Hc. apply retry_checks_ok in Hc as (ids & E1 & E2 & E3 & E4);
      [|done|done|by rewrite (Permutation_length Hp), (Forall2_length _ _ _ Hm)].
    rewrite (proj2 (Z.leb_le _ _) Hret). cbn [require mbind StatusOr_bind].
    rewrite Etxn, Eh, !Z.eqb_refl, (Permutation_length Hp), (Forall2_length _ _ _ Hm),
      Nat.eqb_refl. cbn [andb require mbind StatusOr_bind].
    rewrite E1. cbn [mbind StatusOr_bind].
    rewrite <- (Permutation_length Hp), E2, Nat.eqb_refl. cbn [require mbind StatusOr_bind].
    rewrite E3. cbn [mbind StatusOr_bind]. by rewrite E4.
Qed.

(** The retry of a retained transaction fails in one way only. *)
Lemma retry_mutation_answered m m0 :
  mutation_typed m -> PendingFactMutation_Validate m = StatusOK -> m0 ∈ mutations stored ->
  answered (retry_mutation cs s m (event_key (committed_event s (m0, None)))).
Proof.
  intros Ht Hv Hm0. destruct retry_stored_ok as (_ & _ & Hs & Hs0).
  assert (committed_event s (m0, None) ∈ batch_events s stored) as He.
  { apply list_elem_of_fmap_2, elem_of_app. left.
    by apply (list_elem_of_fmap_2 (fun m => (m, None))). }
  destruct (stored_fact _ He) as (v & Hg & Hd & Hk0). cbn in Hd, Hk0.
  assert (key_ok (mutation_ref m) (mutation_valid_from m) s) as Hk.
  { destruct (mutation_family m Hv) as [? _]. destruct Ht as (? & ? & _).
    unfold key_ok. by split_and?. }
  unfold retry_mutation, event_key in *. cbn [committed_event event_ref
    event_valid_from event_commit_seq] in *.
  apply answered_bind; [apply answered_require|]. intros [] E. inv_ok. bool_to_prop.
  rename E into Ek. apply (EncodeFactKey_inj _ _ _ _ s Hk Hk0) in Ek.
  injection Ek as Er Ev. rewrite Er, Ev, Hg. cbn [from_option mbind StatusOr_bind].
  rewrite Hd. apply answered_require.
Qed.

Lemma retry_mutations_answered ms ms0 rest :
  Forall mutation_typed ms ->
  Forall (fun m => PendingFactMutation_Validate m = StatusOK) ms ->
  Forall (fun m => m ∈ mutations stored) ms0 -> length ms = length ms0 ->
  answered (retry_mutations cs s ms
    ((event_key <$> (committed_event s <$> ((fun m => (m, None)) <$> ms0))) ++ rest)).
Proof.
  intros Ht. revert ms0. induction Ht as [|m ms Htm Ht IH]; intros [|m0 ms0] Hv Hs Hlen;
    try done; [left; by eexists|].
  apply Forall_cons in Hv as [Hvm Hv], Hs as [Hm0 Hs]. injection Hlen as Hlen.
  apply answered_bind; [by apply retry_mutation_answered|]. intros _ _. by apply IH.
Qed.

Lemma retry_identity_answered i :
  edge_key_ok (edge_ref i) ->
  answered (retry_identity cs (list_to_set (edge_key <$> edge_identities stored)) i).
Proof.
  intros Hk. destruct (inv_entries _ _ _ Hinv s stored Hin) as (_ & _ & _ & _ & _ & Hid).
  apply answered_bind; [apply answered_require|]. intros [] E. inv_ok. bool_to_prop.
  apply elem_of_list_to_set, list_elem_of_fmap in E as (i' & E & Hi').
  rewrite (ReadLatestEdgeIdentity_stored events) by first [apply Hinv|done].
  assert (edge_ref i = edge_ref i') as -> by (unfold edge_ref; unfold edge_key in E; congruence).
  rewrite (Hid i' Hi'). apply answered_require.
Qed.

Lemma retry_commit_answered b k v :
  sequence_retention_watermark cs <= s ->
  txn_id b = txn_id stored -> prepared_typed b -> batch_ok b ->
  EncodeTransactionMetaKey (txn_id b) = Ok k -> cf_get k (meta_cf cs) = Some v ->
  answered (retry_commit cs b v).
Proof.
  intros Hret Etxn Ht Hb Hk Hv. pose proof retry_stored_ok as (_ & Hbs & _).
  destruct (inv_entries _ _ _ Hinv s stored Hin) as (_ & _ & _ & Hrec & _).
  destruct Hrec as [(k0 & v0 & Hk0 & Hv0 & Hout) (k1 & v1 & Hk1 & Hv1 & Hseq)].
  rewrite <- Etxn, Hk in Hk0. injection Hk0 as <-. rewrite Hv in Hv0. injection Hv0 as <-.
  unfold retry_commit. rewrite Hout. cbn [outcome_commit_seq mbind StatusOr_bind].
  rewrite (proj2 (Z.leb_le _ _) Hret). cbn [require mbind StatusOr_bind].
  rewrite Hk1. cbn [mbind StatusOr_bind]. rewrite Hv1. cbn [from_option mbind StatusOr_bind].
  rewrite Hseq. cbn [seq_txn_id seq_system_hlc fact_keys mbind StatusOr_bind].
  apply answered_bind; [apply answered_require|]. intros [] E1.
  rewrite retry_edge_ids. cbn [mbind StatusOr_bind].
  apply answered_bind; [apply answered_require|]. intros [] E2.
  rewrite size_edge_keys in E2 by apply Hbs. inv_ok. bool_to_prop.
  pose proof (edge_batch_ok_batch b Ht Hb) as [_ Hek].
  apply answered_bind; [apply answered_loop; intros i Hi;
                        by apply retry_identity_answered, Hek|]. intros [] _.
  apply answered_bind; [|intros; left; by eexists].
  unfold batch_events, VisitCommitFacts in *. rewrite !fmap_app in *.
  apply retry_mutations_answered; [apply Ht|apply Hb|by apply Forall_forall|].
  rewrite length_app, !length_fmap in *. lia.
Qed.

End retry.

(** ** The whole commit *)

Lemma fresh_not_committed (ledger : list (Z * StoreCommitBatch)) meta b :
  (forall s b', (s, b') ∈ ledger -> recorded meta s b') -> fresh_unrecorded meta b ->
  fresh_transaction_id b = true ->
  forall s b', (s, b') ∈ ledger -> txn_id b' <> txn_id b.
Proof.
  intros Hrec Hun Hf s b' Hin Et. destruct (Hrec s b' Hin) as [(k & v & Hk & Hg & _) _].
  rewrite Et in Hk. specialize (Hun Hf k Hk). congruence.
Qed.

Lemma strict_reads_ok b :
  prepared_typed b -> batch_ok b -> Forall strict_read_ok (strict_read_dependencies b).
Proof.
  intros (_ & _ & _ & _ & _ & Hd) (_ & _ & _ & _ & _ & _ & _ & Hv & _).
  rewrite Forall_forall in Hd. rewrite Forall_forall in Hv.
  apply Forall_forall. intros d Hin. destruct (Hd d Hin) as ((? & ? & ?) & _).
  pose proof (StrictReadDependency_Validate_ref d (Hv d Hin)).
  unfold strict_read_ok, key_ok. split_and?; done.
Qed.

Lemma validate_dependencies_admissible events st b :
  store_ok events st -> prepared_typed b -> batch_ok b ->
  exists valid c, validate_dependencies st b = (valid, with_cache c st) /\
    store_ok events (with_cache c st) /\
    (valid = Ok tt -> visible_seq st < U64_MAX -> admissible events (visible_seq st) b).
Proof.
  intros Hst Hb Hbok. destruct (validate_dependencies_ok events st b Hst Hb Hbok)
    as (valid & c & E & Hst' & H). exists valid, c. split_and!; try done.
  intros Hv Hmax. destruct (H Hv) as (? & ? & Hs). split_and!; try done.
  apply Forall_forall, (ValidateStrictReadDependencies_OK events st); try done.
  by apply strict_reads_ok.
Qed.

Lemma write_and_publish_spec ops outcome published cs status cs' :
  outcome_ok outcome -> write_and_publish ops outcome published cs = (status, cs') ->
  (status = StatusOK /\ write_status outcome = rocks_ok /\
   cs' = with_impl (published (cs_impl (with_db (db_write (cs_db cs) ops) cs)))
           (with_db (db_write (cs_db cs) ops) cs)) \/
  (status <> StatusOK /\ IsIndeterminate status = false /\ cs' = cs) \/
  (IsIndeterminate status = true /\ recovery_required cs' = true /\
   visible_seq (cs_impl cs') = visible_seq (cs_impl cs) /\
   (cs_db cs' = cs_db cs \/ cs_db cs' = db_write (cs_db cs) ops)).
Proof.
  unfold outcome_ok, write_and_publish. intros Ho H.
  destruct (write_status outcome) eqn:E; cbn in H;
    try rewrite Ho in H; injection H as <- <-; [left; done|..];
    try (right; left; done); right; right; split_and!; try done;
    destruct (write_applied outcome); try done; cbn; try (by left);
    right; by destruct (db_write _ _).
Qed.

Lemma committed_store_db ops commit_seq b cs :
  cs_db (committed_store ops commit_seq b cs) = db_write (cs_db cs) ops.
Proof. unfold committed_store, cs_db. cbn. by destruct (db_write _ _). Qed.

Section direct.

Context (cf_id : ColumnFamily -> Z) (outcome : WriteOutcome).
Context (ledger : list (Z * StoreCommitBatch)) (events : list FactEvent).
Context (cs : CommitStore) (b : StoreCommitBatch) (prepared_key : option (list byte)).
Hypothesis Hinv : commit_inv ledger events cs.
Hypothesis Hb : prepared_typed b.
Hypothesis Hkey : prepared_key_ok b prepared_key.
Hypothesis Hout : outcome_ok outcome.

Lemma commit_fresh_spec r cs' :
  StoreCommitBatch_Validate b = StatusOK ->
  (forall s b', (s, b') ∈ ledger -> txn_id b' <> txn_id b) ->
  commit_fresh cf_id outcome b prepared_key cs = (r, cs') ->
  commit_verdict ledger events cs b prepared_key r cs'.
Proof.
  intros Hv Htxn H. unfold commit_fresh in H.
  assert (batch_ok b) as Hbok
    by by apply StoreCommitBatch_Validate_OK; [apply prepared_batch_typed|].
  destruct (validate_dependencies_admissible events (cs_impl cs) b)
    as (valid & c & E & Hst & Hadm); [apply Hinv|done..|]. rewrite E in H.
  pose proof (commit_inv_cache _ _ _ c Hinv Hst) as Hinv'.
  set (cs1 := with_impl (with_cache c (cs_impl cs)) cs) in *.
  destruct (valid ≫= _) as [ops|s] eqn:Eops.
  2: { injection H as <- <-. by apply verdict_refuses. }
  inv_ok. bool_to_prop. subst x1.
  assert (visible_seq (cs_impl cs) < U64_MAX) as Hmax.
  { pose proof (inv_visible _ _ _ Hinv) as [_ ?]. unfold U64_MAX in *. cbn in *. lia. }
  assert (admissible events (visible_seq (cs_impl cs)) b) as Ha
    by (apply Hadm; [by destruct x|done]).
  assert (uint 64 (visible_seq (cs_impl cs) + 1)) as Hseq
    by by apply (step_seq ledger events cs1).
  assert (db_sorted (cs_db cs)) as Hsorted by by apply (step_sorted ledger events).
  assert (meta_committed (meta_cf cs) (db_meta (db_write (cs_db cs) ops))
            (visible_seq (cs_impl cs) + 1) b prepared_key) as Hmeta
    by by apply (commit_meta b prepared_key _ ops (cs_db cs)).
  destruct (write_and_publish _ _ _ _) as [status cs2] eqn:Ew. injection H as <- <-.
  apply write_and_publish_spec in Ew as [(-> & Ho & ->)|[(Hs & Hi & ->)|(Hi & Hr & Hvis & Hd)]];
    [..|done].
  - cbn [check mbind StatusOr_bind]. apply verdict_commits.
    + done.
    + done.
    + apply (step_inv ledger events cs1 b prepared_key ops); try done. apply Ha.
    + done.
    + exact Hmeta.
    + done.
    + done.
  - destruct status as [|code m]; [done|]. by apply verdict_refuses.
  - destruct status as [|code m]; [done|]. apply verdict_unknown; try done.
    destruct Hd as [Hd|Hd]; [by left|right]. split_and!; [done|..].
    + change (facts_cf (cs_impl cs2)) with (db_facts (cs_db cs2)). rewrite Hd.
      apply (commit_facts b prepared_key _ ops); try done;
        [apply (inv_store _ _ _ Hinv)|by apply (step_new ledger)].
    + change (meta_cf cs2) with (db_meta (cs_db cs2)). by rewrite Hd.
Qed.

Lemma commit_fresh_effect r cs' :
  StoreCommitBatch_Validate b = StatusOK ->
  (forall s b', (s, b') ∈ ledger -> txn_id b' <> txn_id b) ->
  commit_fresh cf_id outcome b prepared_key cs = (r, cs') ->
  commit_effect ledger events cs b prepared_key r cs'.
Proof.
  intros Hv Htxn H. unfold commit_fresh in H.
  assert (batch_ok b) as Hbok
    by by apply StoreCommitBatch_Validate_OK; [apply prepared_batch_typed|].
  destruct (validate_dependencies_admissible events (cs_impl cs) b)
    as (valid & c & E & Hst & Hadm); [apply Hinv|done..|]. rewrite E in H.
  pose proof (commit_inv_cache _ _ _ c Hinv Hst) as Hinv'.
  set (cs1 := with_impl (with_cache c (cs_impl cs)) cs) in *.
  destruct (valid ≫= _) as [ops|s] eqn:Eops.
  2: { injection H as <- <-. by apply effect_none. }
  inv_ok. bool_to_prop. subst x1.
  assert (visible_seq (cs_impl cs) < U64_MAX) as Hmax.
  { pose proof (inv_visible _ _ _ Hinv) as [_ ?]. unfold U64_MAX in *. cbn in *. lia. }
  assert (admissible events (visible_seq (cs_impl cs)) b) as Ha
    by (apply Hadm; [by destruct x|done]).
  assert (commit_inv ((visible_seq (cs_impl cs) + 1, b) :: ledger)
            (batch_events (visible_seq (cs_impl cs) + 1) b ++ events)
            (committed_store ops (visible_seq (cs_impl cs) + 1) b cs1)) as Hw
    by (apply (step_inv ledger events cs1 b prepared_key ops); try done; apply Ha).
  assert (uint 64 (visible_seq (cs_impl cs) + 1)) as Hseq
    by by apply (step_seq ledger events cs1).
  destruct (write_and_publish _ _ _ _) as [status cs2] eqn:Ew. injection H as <- <-.
  apply write_and_publish_spec in Ew as [(-> & Ho & ->)|[(Hs & Hi & ->)|(Hi & Hr & Hvis & Hd)]];
    [..|done].
  - apply (effect_written _ _ _ _ _ _ _ ops
      (committed_store ops (visible_seq (cs_impl cs) + 1) b cs1)); try done;
      [exact (committed_store_db ops (visible_seq (cs_impl cs) + 1) b cs1)
      |by intros ? [= <-]].
  - destruct status as [|code m]; [done|]. by apply effect_none.
  - destruct status as [|code m]; [done|]. destruct Hd as [Hd|Hd].
    + apply effect_none; [done|by rewrite Hr|done..].
    + apply (effect_written _ _ _ _ _ _ _ ops
        (committed_store ops (visible_seq (cs_impl cs) + 1) b cs1)); try done;
        [by rewrite committed_store_db, Hd|by rewrite Hr].
Qed.

Lemma CommitDirect_effect r cs' :
  (fresh_transaction_id b = true ->
   forall s b', (s, b') ∈ ledger -> txn_id b' <> txn_id b) ->
  CommitDirect cf_id outcome b prepared_key cs = (r, cs') ->
  commit_effect ledger events cs b prepared_key r cs'.
Proof.
  intros Hfresh H. unfold CommitDirect in H.
  destruct (accept_batch cs b ≫= _) as [found|s] eqn:E.
  2: { injection H as <- <-. by apply effect_none. }
  unfold accept_batch in E. inv_ok. subst found.
  match goal with H : StoreCommitBatch_Validate b = StatusOK |- _ => rename H into Hv end.
  match goal with H : EncodeTransactionMetaKey _ = Ok ?k |- _ =>
    rename H into Hk; rename k into key end.
  destruct (fresh_transaction_id b);
    [apply commit_fresh_effect; [done|by apply Hfresh|exact H]|].
  destruct (cf_get key (meta_cf cs)) as [v|] eqn:Hg.
  - injection H as <- <-. apply effect_none; [done|done| |done]. intros res Hr.
    destruct (inv_outcomes _ _ _ Hinv (txn_id b) key) as (s & stored & Hin & Et);
      [apply Hb|done|by exists v|].
    assert (batch_ok b) as Hbok
      by by apply StoreCommitBatch_Validate_OK; [apply prepared_batch_typed|].
    destruct (proj1 (retry_commit_OK ledger events cs s stored Hinv Hin b key v res
      (eq_sym Et) Hb Hbok Hk Hg) Hr) as (_ & Hsame & ->). by exists s, stored.
  - apply commit_fresh_effect; [done| |exact H]. intros s b' Hin Et.
    destruct (inv_entries _ _ _ Hinv s b' Hin)
      as (_ & _ & _ & [(k & v & Hk' & Hg' & _) _] & _).
    rewrite Et, Hk in Hk'. injection Hk' as <-. congruence.
Qed.

Lemma CommitDirect_OK r cs' :
  (fresh_transaction_id b = true ->
   forall s b', (s, b') ∈ ledger -> txn_id b' <> txn_id b) ->
  CommitDirect cf_id outcome b prepared_key cs = (r, cs') ->
  commit_verdict ledger events cs b prepared_key r cs'.
Proof.
  intros Hfresh H. unfold CommitDirect in H.
  destruct (accept_batch cs b ≫= _) as [found|s] eqn:E.
  2: { injection H as <- <-. by apply verdict_refuses. }
  unfold accept_batch in E. inv_ok. subst found.
  match goal with H : StoreCommitBatch_Validate b = StatusOK |- _ => rename H into Hv end.
  match goal with H : EncodeTransactionMetaKey _ = Ok ?k |- _ =>
    rename H into Hk; rename k into key end.
  assert (batch_ok b) as Hbok
    by by apply StoreCommitBatch_Validate_OK; [apply prepared_batch_typed|].
  assert (forall v, cf_get key (meta_cf cs) = Some v ->
    exists s stored, (s, stored) ∈ ledger /\ txn_id stored = txn_id b) as Hfound.
  { intros v Hg. apply (inv_outcomes _ _ _ Hinv (txn_id b) key); try done. apply Hb. }
  assert (cf_get key (meta_cf cs) = None ->
          forall s b', (s, b') ∈ ledger -> txn_id b' <> txn_id b) as Hnew.
  { intros Hn s b' Hin Et. destruct (inv_entries _ _ _ Hinv s b' Hin)
      as (_ & _ & _ & [(k & v & Hk' & Hg & _) _] & _).
    rewrite Et, Hk in Hk'. injection Hk' as <-. congruence. }
  destruct (fresh_transaction_id b);
    [apply commit_fresh_spec; [done|by apply Hfresh|exact H]|].
  destruct (cf_get key (meta_cf cs)) as [v|] eqn:Hg;
    [|apply commit_fresh_spec; [done|by apply Hnew|exact H]].
  injection H as <- <-. destruct (Hfound v eq_refl) as (s & stored & Hin & Et).
  destruct (retry_commit cs b v) as [res|st] eqn:Hr; [|by apply verdict_refuses].
  apply (retry_commit_OK ledger events cs s stored Hinv Hin b key v res) in Hr
    as (_ & Hsame & ->); try done. by eapply verdict_retries.
Qed.

End direct.

(** Every key of a stored event is within the limits of a read. *)
Lemma event_read_key events cf e :
  represents cf events -> e ∈ events ->
  key_ok (event_ref e) (event_valid_from e) U64_MAX.
Proof.
  intros (_ & _ & Hr) He. destruct (Hr e He) as (kv & _ & Hen).
  destruct (entry_key_ok _ _ Hen) as (? & ? & ? & _). unfold key_ok, uint, U64_MAX in *.
  split_and!; try done; lia.
Qed.

(** Events above a limit do not change what a read at the limit sees. *)
Lemma effective_above events new limit t ref :
  (forall e, e ∈ new -> limit < event_commit_seq e) ->
  effective (history (new ++ events) ref) limit t = effective (history events ref) limit t.
Proof.
  intros H. unfold history, effective. rewrite filter_app, fold_left_app. f_equal.
  assert (forall e, e ∈ filter (fun e => event_ref e = ref) new ->
            applies limit t e = false) as Hn.
  { intros e [_ He]%list_elem_of_filter. unfold applies. apply andb_false_iff. left.
    specialize (H e He). lia. }
  induction (filter _ new) as [|e l IH]; [done|]. cbn. unfold effective_step at 2.
  rewrite Hn by by left. apply IH. intros e' He'. apply Hn. by right.
Qed.

(** The facts that a verdict leaves. *)
Lemma verdict_facts ledger events cs b prepared_key r cs' :
  commit_inv ledger events cs -> prepared_typed b -> prepared_key_ok b prepared_key ->
  commit_verdict ledger events cs b prepared_key r cs' ->
  exists new, represents (facts_cf (cs_impl cs')) (new ++ events) /\
    forall e, e ∈ new -> visible_seq (cs_impl cs) < event_commit_seq e.
Proof.
  intros Hinv Hb Hk Hv.
  assert (forall st, db_facts (cs_db st) = facts_cf (cs_impl st)) as Ef by done.
  assert (represents (facts_cf (cs_impl cs)) ([] ++ events)) as Hrep
    by apply (inv_store _ _ _ Hinv).
  destruct Hv as [cs' seq _ _ Hinv' _ _ _ _|s stored _ _|st cs' _ Ed _|st cs' _ _ _ Hd].
  - exists (batch_events seq b). split; [apply (inv_store _ _ _ Hinv')|].
    intros e He. rewrite (batch_events_seq _ _ _ He). unfold seq. lia.
  - exists []. split; [done|]. by intros e ?%not_elem_of_nil.
  - exists []. split; [by rewrite <- Ef, Ed, Ef|]. by intros e ?%not_elem_of_nil.
  - destruct Hd as [Ed|(_ & Hrep' & _)].
    { exists []. split; [by rewrite <- Ef, Ed, Ef|]. by intros e ?%not_elem_of_nil. }
    eexists. split; [exact Hrep'|].
    intros e He. rewrite (batch_events_seq _ _ _ He). lia.
Qed.

(** ** Commits that succeed *)

Lemma write_verdict_unique events visible deps status :
  write_verdict events visible deps status -> write_verdict events visible deps StatusOK ->
  status = StatusOK.
Proof.
  intros H Hok. inversion Hok as [| |Hle Hno]; subst.
  destruct H as [d Hd Hx|d _ Hd Hc|]; [|by destruct (Hno d Hd)|done].
  specialize (Hle d Hd). lia.
Qed.

Lemma validate_dependencies_complete events st b :
  store_ok events st -> prepared_typed b -> batch_ok b -> visible_seq st < U64_MAX ->
  admissible events (visible_seq st) b ->
  exists c, validate_dependencies st b = (Ok tt, with_cache c st) /\
    store_ok events (with_cache c st).
Proof.
  intros Hst Hb Hbok Hmax (Hw & Hs & He). unfold validate_dependencies.
  destruct (ValidateSnapshotWriteDependencies_OK events st
              (snapshot_write_dependencies b)) as (status & c & -> & Hst' & Hv);
    [done|by apply dependencies_ok|].
  rewrite (write_verdict_unique _ _ _ _ Hv Hw). exists c. split; [|done].
  rewrite (proj2 (ValidateStrictReadDependencies_OK events (with_cache c st)
    (strict_read_dependencies b) Hst' (strict_reads_ok b Hb Hbok) Hmax))
    by by apply Forall_forall.
  by rewrite (proj2 (ValidateEdgeIdentitiesForCommit_OK events (with_cache c st) b Hst'
    (edge_batch_ok_batch b Hb Hbok)) He).
Qed.

Lemma CommitDirect_complete cf_id outcome ledger events cs b prepared_key k ops :
  commit_inv ledger events cs -> prepared_typed b ->
  StoreCommitBatch_Validate b = StatusOK ->
  EstimateCommitBatchBytes b <= group_commit_max_batch_bytes cs ->
  check_prepared cs b prepared_key = Ok tt ->
  EncodeTransactionMetaKey (txn_id b) = Ok k -> cf_get k (meta_cf cs) = None ->
  visible_seq (cs_impl cs) < U64_MAX ->
  admissible events (visible_seq (cs_impl cs)) b ->
  commit_ops b prepared_key (visible_seq (cs_impl cs) + 1) = Ok ops ->
  GetDataSize cf_id ops <= group_commit_max_batch_bytes cs ->
  write_status outcome = rocks_ok ->
  exists c, store_ok events (with_cache c (cs_impl cs)) /\
    CommitDirect cf_id outcome b prepared_key cs
    = (Ok (mkStoreCommitResult (visible_seq (cs_impl cs) + 1) (system_hlc b)),
       committed_store ops (visible_seq (cs_impl cs) + 1) b
         (with_impl (with_cache c (cs_impl cs)) cs)).
Proof.
  intros Hinv Hb Hv Hest Hp Hk Hg Hmax Hadm Hops Hsize Ho.
  assert (batch_ok b) as Hbok
    by by apply StoreCommitBatch_Validate_OK; [apply prepared_batch_typed|].
  destruct (validate_dependencies_complete events (cs_impl cs) b)
    as (c & E & Hst); try done; [apply Hinv|]. exists c. split; [done|].
  unfold CommitDirect, accept_batch.
  rewrite Hv, (inv_running _ _ _ Hinv), (proj2 (Z.leb_le _ _) Hest).
  cbn [check require mbind StatusOr_bind negb]. rewrite Hp. cbn [mbind StatusOr_bind].
  rewrite Hk. cbn [mbind StatusOr_bind].
  assert (forall x : bool, (if x then None else cf_get k (meta_cf cs)) = None) as ->
    by by intros [].
  unfold commit_fresh. rewrite E. cbn [mbind StatusOr_bind].
  change (visible_seq (with_cache c (cs_impl cs))) with (visible_seq (cs_impl cs)).
  rewrite (proj2 (Z.eqb_neq (visible_seq (cs_impl cs)) U64_MAX)) by lia.
  cbn [negb require mbind StatusOr_bind]. rewrite Hops. cbn [mbind StatusOr_bind].
  unfold CheckCommittedBatchSize.
  change (group_commit_max_batch_bytes (with_impl ?i cs)) with (group_commit_max_batch_bytes cs).
  rewrite (proj2 (Z.leb_le _ _) Hsize). cbn [require mbind StatusOr_bind].
  unfold write_and_publish. rewrite Ho. done.
Qed.

(** ** The sample store *)

Lemma sample_commit_inv : commit_inv [] sample_events sample_commit_store.
Proof.
  split.
  - exact sample_store_ok.
  - constructor.
  - unfold uint. cbn. lia.
  - done.
  - by intros s b ?%not_elem_of_nil.
  - intros txn k _ _ [v Hv]. discriminate Hv.
Qed.

Lemma sample_write_typed : prepared_typed sample_write.
Proof. split_and!; repeat constructor; unfold uint, sint; simpl; lia. Qed.

Lemma verdict_first events cs b prepared_key r cs' :
  commit_verdict [] events cs b prepared_key (Ok r) cs' ->
  let s := visible_seq (cs_impl cs) + 1 in
  commit_inv [(s, b)] (batch_events s b ++ events) cs'.
Proof. inversion 1; subst; [done|set_solver]. Qed.

(** The sample batch is committed at sequence 7. *)
Lemma sample_committed :
  commit_inv [(7, sample_write)] (batch_events 7 sample_write ++ sample_events)
    (CommitDirect sample_cf_id sample_written sample_write None sample_commit_store).2.
Proof.
  apply (verdict_first sample_events sample_commit_store sample_write None
           (mkStoreCommitResult 7 1000)).
  assert ((CommitDirect sample_cf_id sample_written sample_write None
             sample_commit_store).1 = Ok (mkStoreCommitResult 7 1000)) as <-
    by (vm_compute; reflexivity).
  apply (CommitDirect_OK sample_cf_id sample_written [] sample_events);
    [exact sample_commit_inv|exact sample_write_typed|by intros k|exact I
    |by intros|apply surjective_pairing].
Qed.

(** ** Properties *)

(** C1: a commit is atomic and exact.  Whatever the engine reports for the write, a
    commit of a store that satisfies the invariant comes to one of four ends.  It
    commits the batch at the next sequence, if no snapshot write or strict read of
    it conflicts and its edges keep their identities: its facts are added to the
    others; in the metadata its transaction and sequence records, a record for each
    of its edges and the watermark are stored, the prepared record goes and every
    other key, of whatever kind, keeps its value; the derived structures follow.  Or the transaction was committed before with
    the same content and the recorded sequence is returned.  Or it refuses and
    leaves both column families and the watermark as they were.  Or the outcome of
    the write is unknown: the store holds all of the batch, facts and records and nothing else,
    or nothing of it; it shows nothing of it, and requires recovery.  A batch that is
    marked fresh is assumed to have an identifier that was not committed before, and a
    prepared key to be that of the transaction. *)
Theorem CommitDirect_spec cf_id outcome ledger events cs b prepared_key r cs' :
  commit_inv ledger events cs -> prepared_typed b -> prepared_key_ok b prepared_key ->
  outcome_ok outcome ->
  (fresh_transaction_id b = true ->
   forall s b', (s, b') ∈ ledger -> txn_id b' <> txn_id b) ->
  CommitDirect cf_id outcome b prepared_key cs = (r, cs') ->
  commit_verdict ledger events cs b prepared_key r cs'.
Proof. intros. by eapply CommitDirect_OK. Qed.

Lemma CommitDirect_spec_witness :
  commit_verdict [] sample_events sample_commit_store sample_write None
    (Ok (mkStoreCommitResult 7 1000))
    (CommitDirect sample_cf_id sample_written sample_write None sample_commit_store).2.
Proof.
  apply (CommitDirect_spec sample_cf_id sample_written [] sample_events
           sample_commit_store sample_write None).
  - exact sample_commit_inv.
  - exact sample_write_typed.
  - intros k Hk. discriminate Hk.
  - exact I.
  - intros H. discriminate H.
  - vm_compute. reflexivity.
Defined.

(** C29: a transaction identifier is answered exactly once.  In a store that still
    holds every fact of a committed transaction, none of them vacuumed, and retains
    its sequence record, a valid batch with its identifier, within the byte limit and
    not marked fresh, is not committed again.  When the content is the same, the
    sequence of the first commit is returned; otherwise the batch is refused with the
    conflict that the identifier belongs to a different batch.  In both cases nothing
    changes.  Content is compared by the equality of values, so that a batch with a NaN
    differs from itself and its retry is refused. *)
Theorem CommitDirect_retry cf_id outcome ledger events cs s stored b :
  commit_inv ledger events cs -> (s, stored) ∈ ledger ->
  sequence_retention_watermark cs <= s ->
  prepared_typed b -> StoreCommitBatch_Validate b = StatusOK ->
  EstimateCommitBatchBytes b <= group_commit_max_batch_bytes cs ->
  txn_id b = txn_id stored -> fresh_transaction_id b = false ->
  same_batch b stored /\
    CommitDirect cf_id outcome b None cs
    = (Ok (mkStoreCommitResult s (system_hlc stored)), cs) \/
  ~ same_batch b stored /\
    CommitDirect cf_id outcome b None cs = (Fail different_batch, cs).
Proof.
  intros Hinv Hin Hret Ht Hv Hest Et Hfresh. unfold CommitDirect, accept_batch.
  destruct (inv_entries _ _ _ Hinv s stored Hin)
    as (_ & _ & _ & [(k & v & Hk & Hg & _) _] & _). rewrite <- Et in Hk.
  rewrite Hv, (inv_running _ _ _ Hinv), (proj2 (Z.leb_le _ _) Hest), Hfresh.
  cbn [check require mbind StatusOr_bind negb check_prepared].
  rewrite Hk. cbn [mbind StatusOr_bind]. rewrite Hg.
  assert (batch_ok b) as Hb
    by by apply StoreCommitBatch_Validate_OK; [apply prepared_batch_typed|].
  pose proof (fun r => retry_commit_OK ledger events cs s stored Hinv Hin b k v r Et Ht Hb
    Hk Hg) as Hr.
  destruct (retry_commit_answered ledger events cs s stored Hinv Hin b k v Hret Et Ht Hb
    Hk Hg) as [[r E]|E]; rewrite E.
  - left. apply Hr in E as (_ & Hsame & ->). split; [done|]. by destruct Hsame as (_ & -> & _).
  - right. split; [|done]. intros Hsame.
    pose proof (proj2 (Hr _) (conj Hret (conj Hsame eq_refl))). congruence.
Qed.

Lemma CommitDirect_retry_witness :
  let cs := (CommitDirect sample_cf_id sample_written sample_write None
               sample_commit_store).2 in
  CommitDirect sample_cf_id sample_written (recovered sample_write) None cs
  = (Ok (mkStoreCommitResult 7 1000), cs).
Proof.
  intros cs. edestruct (CommitDirect_retry sample_cf_id sample_written [(7, sample_write)]
    (batch_events 7 sample_write ++ sample_events) cs 7 sample_write
    (recovered sample_write)) as [[_ H]|[H _]].
  - exact sample_committed.
  - by left.
  - vm_compute. discriminate.
  - exact sample_write_typed.
  - vm_compute. reflexivity.
  - vm_compute. discriminate.
  - reflexivity.
  - reflexivity.
  - exact H.
  - destruct H. split_and!; try reflexivity. repeat constructor.
Defined.

(** C30: snapshots are stable.  A commit to a store that satisfies the invariant,
    however it ends and even when its outcome is unknown, does not change what a read of
    any fact at any valid time through a snapshot at or below the visible watermark
    returns.  A batch that is marked fresh is assumed to have an identifier that was not
    committed before, and a prepared key to be that of the transaction. *)
Theorem CommitDirect_snapshot_stable cf_id outcome ledger events cs b prepared_key r cs'
    snapshot_seq ref t :
  commit_inv ledger events cs -> prepared_typed b -> prepared_key_ok b prepared_key ->
  outcome_ok outcome ->
  (fresh_transaction_id b = true ->
   forall s b', (s, b') ∈ ledger -> txn_id b' <> txn_id b) ->
  CommitDirect cf_id outcome b prepared_key cs = (r, cs') ->
  snapshot_seq <= visible_seq (cs_impl cs) -> key_ok ref t U64_MAX ->
  Read (mkStoreSnapshot true snapshot_seq (facts_cf (cs_impl cs'))) ref t
  = Read (mkStoreSnapshot true snapshot_seq (facts_cf (cs_impl cs))) ref t.
Proof.
  intros Hinv Hb Hk Ho Hf H Hs Hkey.
  destruct (verdict_facts ledger events cs b prepared_key r cs')
    as (new & Hrep & Hnew); try done; [by eapply CommitDirect_OK|].
  rewrite (Read_events _ (new ++ events)), (Read_events _ events); try done;
    [|apply (inv_store _ _ _ Hinv)].
  cbn [snapshot_commit_seq]. rewrite effective_above; [done|].
  intros e He. specialize (Hnew e He). lia.
Qed.

Lemma CommitDirect_snapshot_stable_witness :
  Read (mkStoreSnapshot true 5 (facts_cf (cs_impl
          (CommitDirect sample_cf_id (mkWriteOutcome (rocks_other "disk") true)
             sample_write None sample_commit_store).2))) sample_ref 15
  = Read (mkStoreSnapshot true 5 sample_cf) sample_ref 15.
Proof.
  apply (CommitDirect_snapshot_stable sample_cf_id
    (mkWriteOutcome (rocks_other "disk") true) [] sample_events sample_commit_store
    sample_write None
    (CommitDirect sample_cf_id (mkWriteOutcome (rocks_other "disk") true)
       sample_write None sample_commit_store).1).
  - exact sample_commit_inv.
  - exact sample_write_typed.
  - intros k Hk. discriminate Hk.
  - exact I.
  - intros H. discriminate H.
  - symmetry. apply surjective_pairing.
  - cbn. lia.
  - unfold key_ok, ref_typed, uint. split_and!; done.
Defined.

(** Committed writes are durable.  In every store that satisfies the invariant,
    a read at the sequence of a committed transaction returns each of its writes as
    it was written, whatever was committed since. *)
Theorem committed_write_readable ledger events cs s b m :
  commit_inv ledger events cs -> (s, b) ∈ ledger -> m ∈ mutations b ->
  Read (mkStoreSnapshot true s (facts_cf (cs_impl cs))) (mutation_ref m)
    (mutation_valid_from m)
  = Ok (present (Some (committed_event s (m, None)))).
Proof.
  intros Hinv Hin Hm. set (e := committed_event s (m, None)).
  destruct (inv_entries _ _ _ Hinv s b Hin) as (_ & _ & _ & _ & Hsub & _).
  assert (e ∈ events) as He.
  { apply Hsub, list_elem_of_fmap_2, elem_of_app. left.
    by apply (list_elem_of_fmap_2 (fun m => (m, None))). }
  pose proof (inv_store _ _ _ Hinv) as (Hrep & _).
  rewrite (Read_events _ events) by first [done|by apply (event_read_key events _ e Hrep)].
  do 2 f_equal. apply effective_unique.
  - by eapply history_distinct.
  - by apply elem_of_history.
  - unfold applies. cbn. rewrite !Z.leb_refl. done.
  - intros e' _ Ha. unfold applies, event_le, event_before in *. cbn in *.
    apply andb_true_iff in Ha as [?%Z.leb_le ?%Z.leb_le].
    destruct (Z.eqb_spec (mutation_valid_from m) (event_valid_from e')); cbn; lia.
Qed.

Lemma committed_write_readable_witness :
  Read (mkStoreSnapshot true 7 (facts_cf (cs_impl
          (CommitDirect sample_cf_id sample_written sample_write None
             sample_commit_store).2))) (mkFactRef 1 kVertexProperty 2 77) 30
  = Ok (Some (mkFactEvent (mkFactRef 1 kVertexProperty 2 77) 30 7 kPut 1
                (Some (VInt32 5)) None)).
Proof.
  apply (committed_write_readable [(7, sample_write)]
    (batch_events 7 sample_write ++ sample_events) _ 7 sample_write
    (mkPendingFactMutation (mkFactRef 1 kVertexProperty 2 77) 30 kPut 1
       (Some (VInt32 5)))).
  - exact sample_committed.
  - by left.
  - by left.
Defined.
