(* ===== verification/GroupedCommit.v ===== *)
(** * GroupedCommit: several commits in one physical write

    Models [FactStore::CommitGrouped] of [src/storage/rocks/rocks_adapter.cc]: the
    leader takes a prefix of the queue, checks every request, appends them all to
    one write batch and publishes them, or falls back to one commit after the
    other.

    The queue is a list, whose selection is [GroupCommit.select_group]; waiting and
    waking are not modelled.  The outcomes of the writes are arguments. *)

From S2P Require Import Prelude Status Crc32c Wire Value Fact FactCodec CommitBatch.
From S2P Require Import Frame MetaCodec PreparedCodec GroupCommit Bloom RecentWrites.
From S2P Require Import ValidationCache Accelerators Temporal FactStore Conflict.
From S2P Require Import WriteBatch Commit.

(** ** The group commit *)

Record GroupCommitRequest := mkGroupCommitRequest {
  request_batch : StoreCommitBatch;
  request_prepared_key : option (list byte);
  request_sync : bool
}.

(** The prepared record of a grouped request, compared without being decoded. *)
Definition check_grouped_prepared (cs : CommitStore) (r : GroupCommitRequest)
  : StatusOr unit :=
  match request_prepared_key r with
  | None => Ok tt
  | Some key =>
      encoded_prepare ← from_option (cf_get key (meta_cf cs)) prepare_missing;
      expected_prepare ← EncodePreparedCommit (request_batch r);
      require (bool_decide (encoded_prepare = expected_prepare)) prepare_differs
  end.

Inductive GroupCheck := group_ready | group_fallback | group_failed (s : Status).

(** The checks of the leader on every selected request: a failed prepare check
    fails the group, an outcome or a failed validation leads to the fallback.  The
    three validations all run. *)
Fixpoint check_group (cs : CommitStore) (requests : list GroupCommitRequest)
  : GroupCheck * CommitStore :=
  match requests with
  | [] => (group_ready, cs)
  | r :: requests' =>
      match
        _ ← check_grouped_prepared cs r;
        EncodeTransactionMetaKey (txn_id (request_batch r))
      with
      | Fail s => (group_failed s, cs)
      | Ok transaction_key =>
          let '(valid, st) := validate_dependencies (cs_impl cs) (request_batch r) in
          let existing := cf_get transaction_key (meta_cf cs) in
          let cs := with_impl st cs in
          if bool_decide (is_Some existing) || negb (is_ok valid)
          then (group_fallback, cs) else check_group cs requests'
      end
  end.

(** The operations and results of the requests, from the given sequence on. *)
Fixpoint group_ops (commit_seq : Z) (requests : list GroupCommitRequest)
  : StatusOr (list WriteOp * list StoreCommitResult) :=
  match requests with
  | [] => Ok ([], [])
  | r :: requests' =>
      let b := request_batch r in
      fact_keys ← loop (candidate_fact_keys commit_seq) [] (mutations b);
      ops ← AppendCandidateToWriteBatch (mkCandidateCommit b commit_seq fact_keys);
      '(ops', results) ← group_ops (commit_seq + 1) requests';
      Ok (ops ++ delete_prepared (request_prepared_key r) ++ ops',
          mkStoreCommitResult commit_seq (system_hlc b) :: results)
  end.

Fixpoint publish_group (commit_seq : Z) (requests : list GroupCommitRequest)
    (st : FactStoreImpl) : FactStoreImpl :=
  match requests with
  | [] => st
  | r :: requests' =>
      publish_group (commit_seq + 1) requests'
        (publish_commit (request_batch r) commit_seq st)
  end.

(** One [CommitDirect] after the other, with the outcomes of their writes. *)
Fixpoint commit_each (cf_id : ColumnFamily -> Z) (outcomes : list WriteOutcome)
    (requests : list GroupCommitRequest) (cs : CommitStore)
  : list (StatusOr StoreCommitResult) * CommitStore :=
  match requests, outcomes with
  | r :: requests', o :: outcomes' =>
      let '(result, cs) :=
        CommitDirect cf_id o (request_batch r) (request_prepared_key r) cs in
      let '(results, cs) := commit_each cf_id outcomes' requests' cs in
      (result :: results, cs)
  | _, _ => ([], cs)
  end.

(** [finish_all]. *)
Definition finish_all (requests : list GroupCommitRequest)
    (result : StatusOr StoreCommitResult) : list (StatusOr StoreCommitResult) :=
  const result <$> requests.

(** The leader's work on a group of two or more requests: the results in the order
    of the requests.  [outcomes] are those of the writes in the fallback. *)
Definition commit_group (cf_id : ColumnFamily -> Z) (outcome : WriteOutcome)
    (outcomes : list WriteOutcome) (requests : list GroupCommitRequest)
    (cs : CommitStore) : list (StatusOr StoreCommitResult) * CommitStore :=
  if recovery_required cs then (finish_all requests (Fail reopen_required), cs)
  else
    match check_group cs requests with
    | (group_failed s, cs) => (finish_all requests (Fail s), cs)
    | (group_fallback, cs) => commit_each cf_id outcomes requests cs
    | (group_ready, cs) =>
        let visible := visible_seq (cs_impl cs) in
        let last_seq := visible + Z.of_nat (length requests) in
        match
          _ ← require (Z.of_nat (length requests) <=? U64_MAX - visible)
                sequence_exhausted;
          '(ops, results) ← group_ops (visible + 1) requests;
          watermark ← EncodeWatermark last_seq;
          let ops := ops ++ [Put kMetaCf EncodeVisibleWatermarkKey watermark] in
          _ ← CheckCommittedBatchSize cf_id ops (group_commit_max_batch_bytes cs);
          Ok (ops, results)
        with
        | Fail s => (finish_all requests (Fail s), cs)
        | Ok (ops, results) =>
            let '(status, cs) :=
              write_and_publish ops outcome
                (fun st => PublishVisible last_seq
                             (publish_group (visible + 1) requests st)) cs in
            match status with
            | StatusOK => (Ok <$> results, cs)
            | s => (finish_all requests (Fail s), cs)
            end
        end
    end.

(** The leader's branch on the number of selected requests. *)
Definition lead_group (cf_id : ColumnFamily -> Z) (outcome : WriteOutcome)
    (outcomes : list WriteOutcome) (requests : list GroupCommitRequest)
    (cs : CommitStore) : list (StatusOr StoreCommitResult) * CommitStore :=
  match requests with
  | [r] =>
      let '(result, cs) :=
        CommitDirect cf_id outcome (request_batch r) (request_prepared_key r) cs in
      (finish_all requests result, cs)
  | _ => commit_group cf_id outcome outcomes requests cs
  end.

(** ** Specification *)

(** Batches whose commits do not affect each other's validation: they may share a
    physical write, and the later one did not read the identity fact of an edge the
    earlier one creates, which [BuildCommitFootprint] does not list among the
    writes. *)
Definition independent (a b : StoreCommitBatch) : Prop :=
  shareable a b /\
  forall d i, d ∈ strict_read_dependencies b -> i ∈ edge_identities a ->
    srd_ref d <> mutation_ref (identity_mutation i).

(** What the queue promises of a request. *)
Definition request_ok (cs : CommitStore) (r : GroupCommitRequest) : Prop :=
  let b := request_batch r in
  prepared_typed b /\ StoreCommitBatch_Validate b = StatusOK /\
  EstimateCommitBatchBytes b <= group_commit_max_batch_bytes cs /\
  prepared_key_ok b (request_prepared_key r).

(** What the leader's checks establish of a request. *)
Definition request_ready (events : list FactEvent) (cs : CommitStore)
    (r : GroupCommitRequest) : Prop :=
  let b := request_batch r in
  check_grouped_prepared cs r = Ok tt /\
  (exists k, EncodeTransactionMetaKey (txn_id b) = Ok k /\ cf_get k (meta_cf cs) = None) /\
  admissible events (visible_seq (cs_impl cs)) b.

(** The ledger and the events after the requests. *)
Fixpoint group_ledger (s : Z) (requests : list GroupCommitRequest)
    (ledger : list (Z * StoreCommitBatch)) : list (Z * StoreCommitBatch) :=
  match requests with
  | [] => ledger
  | r :: requests' => group_ledger (s + 1) requests' ((s, request_batch r) :: ledger)
  end.

Fixpoint group_events (s : Z) (requests : list GroupCommitRequest)
    (events : list FactEvent) : list FactEvent :=
  match requests with
  | [] => events
  | r :: requests' =>
      group_events (s + 1) requests' (batch_events s (request_batch r) ++ events)
  end.

(** The effect of the group's operations and of the commits one after the other:
    they agree on every key but the watermark, which the last commit writes. *)
Definition serial_ops (last_seq : Z) (nonempty : Prop) (gops sops : list WriteOp)
  : Prop :=
  (forall cf k old, ~ (cf = kMetaCf /\ k = EncodeVisibleWatermarkKey) ->
     ops_value cf k gops old = ops_value cf k sops old) /\
  (nonempty -> forall w old, EncodeWatermark last_seq = Ok w ->
     ops_value kMetaCf EncodeVisibleWatermarkKey sops old = Some w).

(** Two batches of which the first creates an edge and the second has strictly read
    that the edge has no identity fact. *)
Definition identity_writer : StoreCommitBatch :=
  mkStoreCommitBatch 41 1000
    [mkPendingFactMutation (mkFactRef 1 kEdgeState 0 88) 30 kPut 0 None]
    [mkEdgeIdentity 88 3 4 2 1 1 6] [] [] false.

Definition identity_reader : StoreCommitBatch :=
  mkStoreCommitBatch 42 1001
    [mkPendingFactMutation (mkFactRef 1 kVertexState 0 5) 30 kPut 0 None] [] []
    [mkStrictReadDependency (mkFactRef 1 kEdgeIdentity 0 88) 0 6 None None None] false.

Definition sample_other : StoreCommitBatch :=
  mkStoreCommitBatch 43 1002
    [mkPendingFactMutation (mkFactRef 1 kVertexState 0 9) 40 kPut 0 None] [] [] [] false.

(** A batch with a value of 1000 bytes. *)
Definition large_write (txn : Z) : StoreCommitBatch :=
  mkStoreCommitBatch txn 1000
    [mkPendingFactMutation (mkFactRef 1 kVertexProperty 2 txn) 30 kPut 1
       (Some (VString (replicate 1000 (z2b 65))))] [] [] [] false.

Definition sample_request (b : StoreCommitBatch) : GroupCommitRequest :=
  mkGroupCommitRequest b None true.

(** The sample store with another byte limit. *)
Definition limited_store (max_bytes : Z) : CommitStore :=
  mkCommitStore sample_store [] false 0 max_bytes.

(** ** Independence *)

Lemma batch_event_ref s b e :
  e ∈ batch_events s b ->
  event_ref e ∈ mutation_ref <$> mutations b \/
  exists i, i ∈ edge_identities b /\ event_ref e = mutation_ref (identity_mutation i).
Proof.
  intros (f & -> & Hf)%list_elem_of_fmap. unfold VisitCommitFacts in Hf.
  apply elem_of_app in Hf as [Hm|Hi].
  - apply list_elem_of_fmap in Hm as (m & -> & Hm). left. by apply (list_elem_of_fmap_2 mutation_ref).
  - apply list_elem_of_fmap in Hi as (i & -> & Hi). right. by exists i.
Qed.

Section frame.

Context (events : list FactEvent) (visible : Z) (a b : StoreCommitBatch).
Let s := visible + 1.
Hypothesis Hind : independent a b.
Hypothesis Ha : batch_ok a.
Hypothesis Hb : batch_ok b.
Hypothesis Hvis : forall e, e ∈ events -> event_commit_seq e <= visible.

Lemma frame_write_history d :
  d ∈ snapshot_write_dependencies b ->
  history (batch_events s a ++ events) (swd_ref d) = history events (swd_ref d).
Proof.
  intros Hd. apply history_other. intros e He Er.
  destruct Hind as [(_ & Hap & _) _].
  pose proof Hb as (_ & _ & _ & Hv & _ & Hdep & _). rewrite Forall_forall in Hdep.
  destruct (Hdep d Hd) as [_ Hin]. apply list_elem_of_fmap in Hin as (m & [= Em _] & Hm).
  destruct (batch_event_ref _ _ _ He) as [Hr|(i & _ & Hr)]; rewrite Er, Em in Hr.
  - apply (Hap _ Hr). by apply list_elem_of_fmap_2.
  - rewrite Forall_forall in Hv. destruct (mutation_family m (Hv m Hm)) as [_ Hf].
    apply Hf. by rewrite Hr.
Qed.

Lemma frame_read_history d :
  d ∈ strict_read_dependencies b ->
  history (batch_events s a ++ events) (srd_ref d) = history events (srd_ref d).
Proof.
  intros Hd. apply history_other. intros e He Er.
  destruct Hind as [(_ & _ & Hap & _) Hid].
  destruct (batch_event_ref _ _ _ He) as [Hr|(i & Hi & Hr)]; rewrite Er in Hr.
  - apply (Hap _ Hr). by apply list_elem_of_fmap_2.
  - by apply (Hid d i).
Qed.

Lemma strict_view_next d n :
  d ∈ strict_read_dependencies b -> strict_view events d visible n ->
  strict_view (batch_events s a ++ events) d s n.
Proof.
  intros Hd Hv. unfold strict_view. rewrite frame_read_history by done.
  apply (strict_view_raise events d visible s n); [|unfold s; lia|done].
  intros e [He _]%elem_of_history. by apply Hvis.
Qed.

Lemma strict_view_snapshot d n :
  d ∈ strict_read_dependencies b -> srd_snapshot_seq d <= visible ->
  strict_view events d (srd_snapshot_seq d) n ->
  strict_view (batch_events s a ++ events) d (srd_snapshot_seq d) n.
Proof. intros Hd _. unfold strict_view. by rewrite frame_read_history. Qed.

(** Committing [a] does not disturb the validation of [b]. *)
Lemma admissible_frame :
  uint 64 s ->
  (forall e, e ∈ events -> 0 <= event_valid_from e) ->
  admissible events visible b -> admissible (batch_events s a ++ events) s b.
Proof.
  intros Hs H0 (Hw & Hr & He1 & He2). split; [|split; [|split]].
  - inversion Hw as [| |Hle Hno]; subst. apply verdict_ok.
    + intros d Hd. specialize (Hle d Hd). unfold s. lia.
    + intros d Hd. unfold conflicting. rewrite frame_write_history by done. by apply Hno.
  - rewrite Forall_forall in Hr. apply Forall_forall. intros d Hd.
    destruct (Hr d Hd) as (Hle & n & Hv1 & Hv2 & ? & ?).
    split; [unfold s; lia|]. exists n. split_and!; try done;
      [by apply strict_view_snapshot|by apply strict_view_next].
  - intros m Hm Hf Ho. destruct (He1 m Hm Hf Ho) as [[i Hi]|?]; [left|by right].
    destruct (decide (edge_of m ∈ edge_ref <$> edge_identities a)) as [Hin|Hin].
    + apply list_elem_of_fmap in Hin as (i' & -> & Hi'). exists i'.
      apply stored_identity_new; try done. intros e He.
      specialize (Hvis e He). specialize (H0 e He). unfold s. lia.
    + rewrite stored_identity_old by done. by eexists.
  - intros i Hi. rewrite stored_identity_old; [by apply He2|done|].
    destruct Hind as [(_ & _ & _ & _ & Hap) _]. intros Hin.
    apply (Hap _ Hin). by apply list_elem_of_fmap_2.
Qed.

End frame.

(** ** The leader's checks *)

Lemma with_cache_meta c cs :
  meta_cf (with_impl (with_cache c (cs_impl cs)) cs) = meta_cf cs /\
  visible_seq (cs_impl (with_impl (with_cache c (cs_impl cs)) cs))
  = visible_seq (cs_impl cs) /\
  cs_db (with_impl (with_cache c (cs_impl cs)) cs) = cs_db cs.
Proof. done. Qed.

Lemma check_group_ready ledger events requests cs cs' :
  commit_inv ledger events cs -> Forall (request_ok cs) requests ->
  visible_seq (cs_impl cs) < U64_MAX ->
  check_group cs requests = (group_ready, cs') ->
  commit_inv ledger events cs' /\ cs_db cs' = cs_db cs /\
  visible_seq (cs_impl cs') = visible_seq (cs_impl cs) /\
  group_commit_max_batch_bytes cs' = group_commit_max_batch_bytes cs /\
  Forall (request_ready events cs) requests.
Proof.
  revert cs. induction requests as [|r requests IH]; intros cs Hinv Hok Hmax H.
  { injection H as <-. by split_and!. }
  apply Forall_cons in Hok as [(Hb & Hv & ? & ?) Hok]. cbn [check_group] in H.
  destruct (check_grouped_prepared cs r) as [[]|] eqn:Hp; [|done].
  cbn [mbind StatusOr_bind] in H.
  destruct (EncodeTransactionMetaKey _) as [k|] eqn:Hk; [|done].
  destruct (validate_dependencies_admissible events (cs_impl cs) (request_batch r))
    as (valid & c & E & Hst & Hadm); [apply Hinv|done| |].
  { by apply StoreCommitBatch_Validate_OK; [apply prepared_batch_typed|]. }
  rewrite E in H. destruct valid as [[]|]; [|by rewrite orb_true_r in H].
  case_bool_decide as Hg; [done|]. cbn [is_ok negb orb] in H.
  apply IH in H as (? & ? & ? & ? & Hr); [|by apply commit_inv_cache|done|done].
  split_and!; try done. constructor; [|done]. split_and!; [done| |by apply Hadm].
  exists k. split; [done|]. by apply eq_None_not_Some.
Qed.

(** ** Sizes *)

Lemma GetDataSize_cons cf_id op ops :
  GetDataSize cf_id (op :: ops)
  = Z.of_nat (length (op_rep cf_id op)) + GetDataSize cf_id ops.
Proof. unfold GetDataSize. rewrite !batch_rep_length. cbn. lia. Qed.

Lemma GetDataSize_app cf_id ops ops' :
  GetDataSize cf_id (ops ++ ops') = GetDataSize cf_id ops + GetDataSize cf_id ops' - 12.
Proof.
  induction ops as [|op ops IH]; [cbn [app]|].
  - unfold GetDataSize. rewrite !batch_rep_length. cbn. lia.
  - cbn [app]. rewrite !GetDataSize_cons, IH. lia.
Qed.

Lemma GetDataSize_ge cf_id ops : 12 <= GetDataSize cf_id ops.
Proof.
  induction ops as [|op ops IH]; [|rewrite GetDataSize_cons; lia].
  unfold GetDataSize. by rewrite batch_rep_length.
Qed.

Lemma GetDataSize_put cf_id cf k v v' ops :
  length v = length v' ->
  GetDataSize cf_id (Put cf k v :: ops) = GetDataSize cf_id (Put cf k v' :: ops).
Proof.
  intros E. rewrite !GetDataSize_cons. cbn [op_rep].
  unfold put_rep, PutLengthPrefixedSlice. rewrite !length_app, E. done.
Qed.

(** ** One commit of the group *)

Lemma delete_prepared_watermark b prepared_key op :
  prepared_typed b -> prepared_key_ok b prepared_key -> op ∈ delete_prepared prepared_key ->
  op_value kMetaCf EncodeVisibleWatermarkKey op = None.
Proof.
  intros Hb Hk Hop. destruct prepared_key as [pk|]; [|by apply not_elem_of_nil in Hop].
  apply list_elem_of_singleton in Hop as ->. cbn. rewrite bool_decide_false; [done|].
  intros [_ E]. specialize (Hk pk eq_refl).
  by discriminate (store_key_distinct (PreparedKey (txn_id b))
                     (MetaKey VisibleWatermarkKey) pk (proj1 Hb) I Hk (f_equal Ok (eq_sym E))).
Qed.

Lemma serial_cons b prepared_key s last_seq requests core w1 gops sops :
  prepared_typed b -> prepared_key_ok b prepared_key -> EncodeWatermark s = Ok w1 ->
  (requests = [] -> last_seq = s) ->
  (requests = [] -> sops = []) ->
  serial_ops last_seq (requests <> ([] : list GroupCommitRequest)) gops sops ->
  serial_ops last_seq True
    (core ++ delete_prepared prepared_key ++ gops)
    ((core ++ Put kMetaCf EncodeVisibleWatermarkKey w1 :: delete_prepared prepared_key)
     ++ sops).
Proof.
  intros Hb Hk Hw1 Hlast Hnil [HA HB]. split.
  - intros cf k old Hne. rewrite !ops_value_app, HA by done. f_equal.
    cbn [ops_value op_value]. rewrite bool_decide_false; [done|]. naive_solver.
  - intros _ w old Hw. rewrite !ops_value_app. destruct requests as [|r requests].
    + rewrite Hnil by done. rewrite Hlast, Hw1 in Hw by done. injection Hw as ->. cbn.
      rewrite bool_decide_true by done. apply ops_value_untouched.
      intros op Hop. by eapply delete_prepared_watermark.
    + by apply HB.
Qed.

Lemma cs_db_committed ops s b cs : cs_db (committed_store ops s b cs) = db_write (cs_db cs) ops.
Proof. unfold committed_store, cs_db, with_db. cbn. by destruct (db_write _ _). Qed.

(** Committing one request keeps the others ready. *)
Lemma request_ready_frame ledger events cs b prepared_key ops c r :
  let s := visible_seq (cs_impl cs) + 1 in
  commit_inv ledger events cs -> visible_seq (cs_impl cs) < U64_MAX ->
  prepared_typed b -> batch_ok b -> prepared_key_ok b prepared_key ->
  commit_ops b prepared_key s = Ok ops ->
  request_ok cs r -> independent b (request_batch r) -> request_ready events cs r ->
  request_ready (batch_events s b ++ events)
    (committed_store ops s b (with_impl (with_cache c (cs_impl cs)) cs)) r.
Proof.
  intros s Hinv Hmax Hb Hbok Hk Hops (Htr & Hvr & _ & Hkr) Hind (Hp & (k & Ek & Hg) & Hadm).
  set (cs' := committed_store _ _ _ _).
  assert (uint 64 s) as Hs by (by apply (step_seq ledger events cs); [|lia]).
  assert (forall key k, untouched s b key -> encode_store_key key = Ok k ->
            cf_get k (meta_cf cs') = cf_get k (meta_cf cs)) as Hframe.
  { intros key k' Hu Hk'.
    by apply (commit_frame b prepared_key s ops (cs_db cs) Hb Hs Hk
                (step_sorted ledger events cs Hinv) Hops key). }
  assert (txn_id (request_batch r) <> txn_id b) as Hne
    by (destruct Hind as [(? & _) _]; congruence).
  split_and!.
  - unfold check_grouped_prepared in *.
    destruct (request_prepared_key r) as [pk|]; [|done]. specialize (Hkr pk eq_refl).
    rewrite (Hframe (PreparedKey (txn_id (request_batch r)))); [done| |done].
    split_and!; [apply Htr|by intros []|done|]. congruence.
  - exists k. split; [done|].
    rewrite (Hframe (MetaKey (TransactionKey (txn_id (request_batch r))))); [done| |done].
    split_and!; try done. apply Htr.
  - apply admissible_frame; try done.
    + by apply StoreCommitBatch_Validate_OK; [apply prepared_batch_typed|].
    + apply (inv_store _ _ _ Hinv).
    + intros e He. destruct (inv_store _ _ _ Hinv) as ((_ & _ & Hrep) & _).
      destruct (Hrep e He) as (kv & _ & (_ & [? _] & _) & _). lia.
Qed.

Lemma check_prepared_grouped cs r :
  prepared_typed (request_batch r) -> check_grouped_prepared cs r = Ok tt ->
  check_prepared cs (request_batch r) (request_prepared_key r) = Ok tt.
Proof.
  intros Ht. unfold check_grouped_prepared, check_prepared.
  destruct (request_prepared_key r) as [pk|]; [|done].
  destruct (cf_get pk (meta_cf cs)) as [v|]; cbn [from_option mbind StatusOr_bind]; [|done].
  destruct (EncodePreparedCommit (request_batch r)) as [v'|] eqn:E; [|done].
  cbn [mbind StatusOr_bind]. case_bool_decide as Ev; [|done]. intros _. subst v'.
  rewrite (DecodePreparedCommit_encode _ _ Ht E). cbn [mbind StatusOr_bind]. done.
Qed.

Lemma group_ops_cons s r requests gops results :
  group_ops s (r :: requests) = Ok (gops, results) ->
  exists core gops' results',
    AppendCandidateToWriteBatch
      (mkCandidateCommit (request_batch r) s
         ((fun m => EncodeFactKey (mutation_ref m) (mutation_valid_from m) s)
            <$> mutations (request_batch r))) = Ok core /\
    group_ops (s + 1) requests = Ok (gops', results') /\
    gops = core ++ delete_prepared (request_prepared_key r) ++ gops' /\
    results = mkStoreCommitResult s (system_hlc (request_batch r)) :: results' /\
    forall w, EncodeWatermark s = Ok w ->
      commit_ops (request_batch r) (request_prepared_key r) s
      = Ok (core ++ Put kMetaCf EncodeVisibleWatermarkKey w
                    :: delete_prepared (request_prepared_key r)).
Proof.
  cbn [group_ops]. intros H. apply bind_Ok in H as (keys & Hk & H).
  pose proof (candidate_keys_Ok _ _ _ _ Hk) as Ek. cbn [app] in Ek.
  apply bind_Ok in H as (core & Hc & H). apply bind_Ok in H as ([gops' results'] & Hg & H).
  injection H as <- <-. rewrite Ek in Hc. exists core, gops', results'.
  split_and!; try done. intros w Hw. unfold commit_ops. rewrite Hk.
  cbn [mbind StatusOr_bind]. rewrite Hw. cbn [mbind StatusOr_bind]. rewrite Ek, Hc. done.
Qed.

Section serial.

Context (cf_id : ColumnFamily -> Z).

(** One commit out of a group: the rest stays ready. *)
Lemma commit_one o ledger events cs r requests ops :
  let s := visible_seq (cs_impl cs) + 1 in
  commit_inv ledger events cs -> Forall (request_ok cs) (r :: requests) ->
  Forall (request_ready events cs) (r :: requests) ->
  Forall (independent (request_batch r)) (request_batch <$> requests) ->
  visible_seq (cs_impl cs) < U64_MAX ->
  commit_ops (request_batch r) (request_prepared_key r) s = Ok ops ->
  GetDataSize cf_id ops <= group_commit_max_batch_bytes cs ->
  write_status o = rocks_ok ->
  exists cs', CommitDirect cf_id o (request_batch r) (request_prepared_key r) cs
      = (Ok (mkStoreCommitResult s (system_hlc (request_batch r))), cs') /\
    commit_inv ((s, request_batch r) :: ledger)
      (batch_events s (request_batch r) ++ events) cs' /\
    cs_db cs' = db_write (cs_db cs) ops /\ visible_seq (cs_impl cs') = s /\
    group_commit_max_batch_bytes cs' = group_commit_max_batch_bytes cs /\
    Forall (request_ready (batch_events s (request_batch r) ++ events) cs') requests.
Proof.
  intros s Hinv Hok Hready Hind Hmax Hops Hsize Ho.
  apply Forall_cons in Hok as [(Hb & Hv & Hest & Hk) Hok].
  apply Forall_cons in Hready as [(Hp & (k & Ek & Hgk) & Hadm) Hready].
  assert (batch_ok (request_batch r)) as Hbok
    by by apply StoreCommitBatch_Validate_OK; [apply prepared_batch_typed|].
  destruct (CommitDirect_complete cf_id o ledger events cs (request_batch r)
              (request_prepared_key r) k ops) as (c & Hst & Hdirect); try done;
    [by apply check_prepared_grouped|].
  eexists. split; [exact Hdirect|].
  split_and!; [|by rewrite cs_db_committed|done|done|].
  - apply (step_inv ledger events (with_impl (with_cache c (cs_impl cs)) cs) _
             (request_prepared_key r)); try done; [by apply commit_inv_cache|apply Hadm| |].
    + intros s' b' Hin Et. destruct (inv_entries _ _ _ Hinv s' b' Hin)
        as (_ & _ & _ & [(k' & v & Hk' & Hg & _) _] & _).
      rewrite Et, Ek in Hk'. injection Hk' as <-. congruence.
    + cbn. lia.
  - rewrite Forall_forall in Hok. rewrite Forall_forall in Hready.
    rewrite Forall_fmap, Forall_forall in Hind. apply Forall_forall. intros r' Hr'.
    apply (request_ready_frame ledger events cs _ (request_prepared_key r)); try done;
      [by apply Hok|by apply (Hind r')|by apply Hready].
Qed.

(** The commits one after the other. *)
Lemma commit_each_serial requests outcomes ledger events cs gops results w0 :
  commit_inv ledger events cs ->
  Forall (request_ok cs) requests -> Forall (request_ready events cs) requests ->
  ForallOrdPairs independent (request_batch <$> requests) ->
  visible_seq (cs_impl cs) + Z.of_nat (length requests) <= U64_MAX ->
  group_ops (visible_seq (cs_impl cs) + 1) requests = Ok (gops, results) ->
  length w0 = 18%nat ->
  GetDataSize cf_id (gops ++ [Put kMetaCf EncodeVisibleWatermarkKey w0])
  <= group_commit_max_batch_bytes cs ->
  length outcomes = length requests ->
  Forall (fun o => write_status o = rocks_ok) outcomes ->
  exists sops cs', commit_each cf_id outcomes requests cs = (Ok <$> results, cs') /\
    commit_inv (group_ledger (visible_seq (cs_impl cs) + 1) requests ledger)
      (group_events (visible_seq (cs_impl cs) + 1) requests events) cs' /\
    cs_db cs' = db_write (cs_db cs) sops /\
    visible_seq (cs_impl cs')
    = visible_seq (cs_impl cs) + Z.of_nat (length requests) /\
    (requests = [] -> sops = []) /\
    serial_ops (visible_seq (cs_impl cs) + Z.of_nat (length requests))
      (requests <> []) gops sops.
Proof.
  revert outcomes ledger events cs gops results.
  induction requests as [|r requests IH];
    intros [|o outcomes] ledger events cs gops results Hinv Hok Hready Hind Hmax Hg Hw0
      Hsize Hlen Hout; try done.
  { injection Hg as <- <-. exists [], cs. cbn [length]. rewrite Z.add_0_r.
    split_and!; try done. }
  apply Forall_cons in Hout as [Ho Hout]. rewrite fmap_cons in Hind.
  inversion Hind as [|? ? Hi Hind' E1]; subst. injection Hlen as Hlen. cbn [length] in *.
  apply group_ops_cons in Hg as (core & gops' & results' & Hcore & Hg' & -> & -> & Hops).
  destruct (EncodeWatermark_total (visible_seq (cs_impl cs) + 1)) as [w1 Hw1].
  specialize (Hops w1 Hw1). rewrite <- !app_assoc, !GetDataSize_app in Hsize.
  pose proof (GetDataSize_put cf_id kMetaCf EncodeVisibleWatermarkKey w0 w1 []) as Hw.
  rewrite Hw0, (length_EncodeWatermark _ _ Hw1) in Hw. specialize (Hw eq_refl).
  pose proof (GetDataSize_ge cf_id core). pose proof (GetDataSize_ge cf_id gops').
  pose proof (GetDataSize_ge cf_id (delete_prepared (request_prepared_key r))).
  destruct (commit_one o ledger events cs r requests _ Hinv Hok Hready Hi ltac:(lia) Hops)
    as (cs1 & Hdirect & Hinv1 & Hdb1 & Hvis1 & Hmax1 & Hready1); [|done|].
  { rewrite GetDataSize_app, GetDataSize_cons. rewrite !GetDataSize_cons in Hw. rewrite !GetDataSize_cons in Hsize.
    assert (GetDataSize cf_id [] = 12) by done. lia. }
  apply Forall_cons in Hok as [(Hb & _ & _ & Hk) Hok].
  destruct (IH outcomes _ _ cs1 gops' results' Hinv1)
    as (sops & cs2 & Heach & Hinv2 & Hdb2 & Hvis2 & Hnil & Hser); try done.
  - unfold request_ok. by rewrite Hmax1.
  - rewrite Hvis1. lia.
  - by rewrite Hvis1.
  - rewrite Hmax1, GetDataSize_app. lia.
  - rewrite Hvis1 in *.
    exists ((core ++ Put kMetaCf EncodeVisibleWatermarkKey w1
                     :: delete_prepared (request_prepared_key r)) ++ sops), cs2.
    cbn [commit_each]. rewrite Hdirect, Heach. split_and!; try done; try lia.
    + by rewrite Hdb2, Hdb1, (db_write_app _ _ sops).
    + replace (visible_seq (cs_impl cs) + Z.of_nat (S (length requests)))
        with (visible_seq (cs_impl cs) + 1 + Z.of_nat (length requests)) by lia.
      destruct (serial_cons (request_batch r) (request_prepared_key r)
                  (visible_seq (cs_impl cs) + 1)
                  (visible_seq (cs_impl cs) + 1 + Z.of_nat (length requests)) requests core
                  w1 gops' sops) as [HA HB]; try done; [intros ->; cbn; lia|].
      split; [done|]. intros _. by apply HB.
Qed.

End serial.

(** ** Publication of a group *)

Lemma publish_group_reflects s requests events st :
  0 < s -> Forall (fun r => batch_ok (request_batch r)) requests ->
  reflects_opt events (recent_fact_write_index st) ->
  reflects_opt events (identity_history st) ->
  reflects_opt events (version_validation_cache st) ->
  let st' := publish_group s requests st in
  reflects_opt (group_events s requests events) (recent_fact_write_index st') /\
  reflects_opt (group_events s requests events) (identity_history st') /\
  reflects_opt (group_events s requests events) (version_validation_cache st').
Proof.
  revert s events st. induction requests as [|r requests IH]; intros s events st Hs Hb H1 H2 H3;
    [done|]. apply Forall_cons in Hb as [Hbr Hb]. cbn [publish_group group_events].
  apply IH; try done; [lia|..]; by apply publish_to_reflects; [|lia|].
Qed.

Lemma publish_group_facts s requests st :
  facts_cf (publish_group s requests st) = facts_cf st.
Proof.
  revert s st. induction requests as [|r requests IH]; intros s st; [done|].
  cbn [publish_group]. by rewrite IH.
Qed.

(** The invariant depends on the column families, the watermark and the derived
    structures. *)
Lemma commit_inv_transfer ledger events cs cs' :
  commit_inv ledger events cs -> cs_db cs' = cs_db cs ->
  visible_seq (cs_impl cs') = visible_seq (cs_impl cs) -> recovery_required cs' = false ->
  reflects_opt events (recent_fact_write_index (cs_impl cs')) ->
  reflects_opt events (identity_history (cs_impl cs')) ->
  reflects_opt events (version_validation_cache (cs_impl cs')) ->
  commit_inv ledger events cs'.
Proof.
  intros [(Hrep & Hle & _) Hm Hv Hr He Ho] E Ev Hrun H1 H2 H3.
  unfold cs_db in E. injection E as Ef Em. split; rewrite ?Em, ?Ev; try done.
  split_and!; rewrite ?Ef, ?Ev; done.
Qed.

(** Both orders of the operations leave the same database. *)
Lemma serial_db db last_seq w gops sops :
  db_sorted db -> EncodeWatermark last_seq = Ok w -> serial_ops last_seq True gops sops ->
  db_write db (gops ++ [Put kMetaCf EncodeVisibleWatermarkKey w]) = db_write db sops.
Proof.
  intros Hdb Hw [HA HB]. apply db_ext; try by apply db_write_sorted.
  intros cf k. rewrite !db_write_get, ops_value_app by done.
  destruct (decide (cf = kMetaCf /\ k = EncodeVisibleWatermarkKey)) as [[-> ->]|Hne].
  - rewrite (HB I w) by done. cbn. by rewrite bool_decide_true.
  - rewrite HA by done. cbn. rewrite bool_decide_false; [done|]. naive_solver.
Qed.

(** A group that was written. *)
Lemma commit_group_ready cf_id outcome fallbacks ledger events requests cs results cs1 :
  commit_inv ledger events cs -> requests <> [] -> Forall (request_ok cs) requests ->
  visible_seq (cs_impl cs) < U64_MAX -> (check_group cs requests).1 = group_ready ->
  write_status outcome = rocks_ok ->
  commit_group cf_id outcome fallbacks requests cs = (Ok <$> results, cs1) ->
  let last_seq := visible_seq (cs_impl cs) + Z.of_nat (length requests) in
  exists gops w csc, commit_inv ledger events csc /\ cs_db csc = cs_db cs /\
    visible_seq (cs_impl csc) = visible_seq (cs_impl cs) /\
    Forall (request_ready events cs) requests /\ last_seq <= U64_MAX /\
    group_ops (visible_seq (cs_impl cs) + 1) requests = Ok (gops, results) /\
    EncodeWatermark last_seq = Ok w /\
    GetDataSize cf_id (gops ++ [Put kMetaCf EncodeVisibleWatermarkKey w])
    <= group_commit_max_batch_bytes cs /\
    let written := with_db (db_write (cs_db csc)
      (gops ++ [Put kMetaCf EncodeVisibleWatermarkKey w])) csc in
    cs1 = with_impl (PublishVisible last_seq
            (publish_group (visible_seq (cs_impl cs) + 1) requests (cs_impl written)))
            written.
Proof.
  intros Hinv Hne Hok Hmax Hcheck Ho H last_seq. unfold commit_group in H.
  rewrite (inv_running _ _ _ Hinv) in H.
  destruct (check_group cs requests) as [g csc] eqn:Ec. cbn in Hcheck. subst g.
  apply (check_group_ready ledger events) in Ec as (Hinvc & Edb & Ev & Em & Hready); try done.
  rewrite Ev in H.
  match type of H with context [match ?m with Ok _ => _ | Fail _ => _ end] =>
    destruct m as [[ops results']|s] eqn:Eops end.
  2: { destruct requests as [|r requests]; [done|]. by destruct results. }
  inv_ok. injection Eops as <- <-. unfold CheckCommittedBatchSize in *. inv_ok. bool_to_prop.
  unfold write_and_publish in H. rewrite Ho in H. injection H as Er <-.
  apply list_fmap_eq_inj in Er; [subst|by intros ? ? [= ->]]. rewrite Em in *.
  eexists _, _, csc. split_and!; try done. unfold last_seq. lia.
Qed.

(** The checks of a prefix that passes. *)
Lemma check_group_app cs requests requests' csc :
  check_group cs requests = (group_ready, csc) ->
  check_group cs (requests ++ requests') = check_group csc requests'.
Proof.
  revert cs. induction requests as [|r requests IH]; intros cs H; [by injection H as <-|].
  cbn [app check_group] in *. destruct (_ ≫= _); [|done].
  destruct (validate_dependencies _ _) as [valid st].
  destruct (_ || _); [done|]. by apply IH.
Qed.

Lemma check_grouped_prepared_db cs cs' r :
  cs_db cs' = cs_db cs -> check_grouped_prepared cs' r = check_grouped_prepared cs r.
Proof. unfold cs_db, check_grouped_prepared. by intros [= _ ->]. Qed.

(** ** Properties *)

(** C10: a group commit is serial.  When the leader's checks pass for a group of
    independent requests and its one physical write succeeds, the results, both
    column families and the watermark are those of committing the requests one after
    the other, and the store satisfies the invariant with all of them in the
    ledger. *)
Theorem commit_group_serial cf_id outcome fallbacks outcomes ledger events requests cs
    results cs1 :
  commit_inv ledger events cs -> requests <> [] -> Forall (request_ok cs) requests ->
  ForallOrdPairs independent (request_batch <$> requests) ->
  visible_seq (cs_impl cs) < U64_MAX -> (check_group cs requests).1 = group_ready ->
  write_status outcome = rocks_ok ->
  length outcomes = length requests -> Forall (fun o => write_status o = rocks_ok) outcomes ->
  commit_group cf_id outcome fallbacks requests cs = (Ok <$> results, cs1) ->
  exists cs2, commit_each cf_id outcomes requests cs = (Ok <$> results, cs2) /\
    cs_db cs1 = cs_db cs2 /\ visible_seq (cs_impl cs1) = visible_seq (cs_impl cs2) /\
    let s := visible_seq (cs_impl cs) + 1 in
    commit_inv (group_ledger s requests ledger) (group_events s requests events) cs1.
Proof.
  intros Hinv Hne Hok Hind Hmax Hcheck Ho Hlen Hout H.
  destruct (commit_group_ready cf_id outcome fallbacks ledger events requests cs results cs1)
    as (gops & w & csc & Hinvc & Edb & Ev & Hready & Hn & Hg & Hw & Hsize & ->); try done.
  destruct (commit_each_serial cf_id requests outcomes ledger events cs gops results w)
    as (sops & cs2 & Heach & Hinv2 & Hdb2 & Hvis2 & _ & HA & HB); try done.
  { by eapply length_EncodeWatermark. }
  pose proof (serial_db (cs_db cs) _ w gops sops (step_sorted _ _ _ Hinv) Hw
                (conj HA (fun _ => HB Hne))) as Hsame.
  exists cs2. rewrite Edb, Hsame. cbn zeta.
  assert (forall st, cs_db (with_impl (PublishVisible
            (visible_seq (cs_impl cs) + Z.of_nat (length requests))
            (publish_group (visible_seq (cs_impl cs) + 1) requests
               (cs_impl (with_db st csc)))) (with_db st csc)) = st) as Hst.
  { intros [f m]. unfold cs_db. cbn. by rewrite publish_group_facts. }
  split; [done|]. split; [by rewrite Hst|]. split; [by rewrite Hvis2|].
  destruct (inv_store _ _ _ Hinvc) as (_ & _ & H1 & H2 & H3).
  destruct (publish_group_reflects (visible_seq (cs_impl cs) + 1) requests events
    (cs_impl (with_db (db_write (cs_db cs) sops) csc))) as (R1 & R2 & R3); try done.
  { pose proof (inv_visible _ _ _ Hinv) as [? _]. lia. }
  { eapply Forall_impl; [exact Hok|]. intros r (? & ? & _).
    by apply StoreCommitBatch_Validate_OK; [apply prepared_batch_typed|]. }
  apply (commit_inv_transfer _ _ cs2); try done;
    [by rewrite Hst|apply (inv_running _ _ _ Hinvc)].
Qed.

Lemma commit_group_serial_witness :
  let requests := [sample_request sample_write; sample_request sample_other] in
  exists cs2,
    commit_each sample_cf_id [sample_written; sample_written] requests sample_commit_store
    = ([Ok (mkStoreCommitResult 7 1000); Ok (mkStoreCommitResult 8 1002)], cs2) /\
    let cs1 := (commit_group sample_cf_id sample_written [] requests
                  sample_commit_store).2 in
    cs_db cs1 = cs_db cs2 /\ visible_seq (cs_impl cs1) = visible_seq (cs_impl cs2) /\
    commit_inv (group_ledger 7 requests []) (group_events 7 requests sample_events) cs1.
Proof.
  intros requests.
  apply (commit_group_serial sample_cf_id sample_written []
           [sample_written; sample_written] [] sample_events requests sample_commit_store
           [mkStoreCommitResult 7 1000; mkStoreCommitResult 8 1002]).
  - exact sample_commit_inv.
  - discriminate.
  - repeat constructor; try (unfold uint, sint; cbn; lia); try (intros k Hk; discriminate Hk);
      vm_compute; congruence.
  - constructor; [|repeat constructor]. repeat constructor; try (cbn; congruence);
      unfold apart; set_solver.
  - cbn. unfold U64_MAX. lia.
  - vm_compute. reflexivity.
  - reflexivity.
  - reflexivity.
  - repeat constructor.
  - vm_compute. reflexivity.
Defined.

(** A failed prepare check is not confined to its request.  When the prepared
    record of one selected request is missing or differs, every request of the group
    gets that error, the ones whose checks passed included, and nothing is
    written. *)
Theorem commit_group_prepare_failure cf_id outcome fallbacks ledger events cs before r
    after status :
  commit_inv ledger events cs -> Forall (request_ok cs) before ->
  visible_seq (cs_impl cs) < U64_MAX -> (check_group cs before).1 = group_ready ->
  check_grouped_prepared cs r = Fail status ->
  let '(results, cs') := commit_group cf_id outcome fallbacks (before ++ r :: after) cs in
  results = finish_all (before ++ r :: after) (Fail status) /\ cs_db cs' = cs_db cs.
Proof.
  intros Hinv Hok Hmax Hb Hr. unfold commit_group. rewrite (inv_running _ _ _ Hinv).
  destruct (check_group cs before) as [g csc] eqn:Ec. cbn in Hb. subst g.
  rewrite (check_group_app _ _ (r :: after) _ Ec).
  apply (check_group_ready ledger events) in Ec as (_ & Edb & _); try done.
  cbn [check_group]. rewrite (check_grouped_prepared_db cs csc r Edb), Hr. done.
Qed.

Lemma commit_group_prepare_failure_witness :
  let gone := mkGroupCommitRequest sample_other
                (Some (or_empty (EncodePreparedCommitKey 43))) true in
  let '(results, cs') := commit_group sample_cf_id sample_written []
                           ([sample_request sample_write] ++ [gone]) sample_commit_store in
  results = [Fail prepare_missing; Fail prepare_missing] /\
  cs_db cs' = cs_db sample_commit_store.
Proof.
  intros gone.
  apply (commit_group_prepare_failure sample_cf_id sample_written [] [] sample_events
           sample_commit_store [sample_request sample_write] gone [] prepare_missing).
  - exact sample_commit_inv.
  - constructor; [|constructor]. split_and!; [exact sample_write_typed|..];
      [vm_compute; congruence..|by intros k].
  - cbn. unfold U64_MAX. lia.
  - vm_compute. reflexivity.
  - vm_compute. reflexivity.
Defined.

(** A footprint does not list the identity facts that a batch writes.  A batch
    that creates an edge and a batch that has strictly read that the edge has no
    identity fact may share a group and both commit, although one after the other
    the second is refused. *)
Example group_misses_identity_read :
  CanSharePhysicalWrite (BuildCommitFootprint identity_writer)
    (BuildCommitFootprint identity_reader) = true /\
  (commit_group sample_cf_id sample_written []
     [sample_request identity_writer; sample_request identity_reader]
     sample_commit_store).1
  = [Ok (mkStoreCommitResult 7 1000); Ok (mkStoreCommitResult 8 1001)] /\
  (commit_each sample_cf_id [sample_written; sample_written]
     [sample_request identity_writer; sample_request identity_reader]
     sample_commit_store).1
  = [Ok (mkStoreCommitResult 7 1000); Fail strict_changed].
Proof. split_and!; vm_compute; reflexivity. Qed.

(** A group above the byte limit fails as a whole, although each of its requests is
    within the limit. *)
Lemma group_over_limit :
  let requests := sample_request <$> [large_write 51; large_write 52] in
  (commit_group sample_cf_id sample_written [] requests (limited_store 2048)).1
  = [Fail batch_too_large; Fail batch_too_large] /\
  (commit_each sample_cf_id [sample_written; sample_written] requests
     (limited_store 2048)).1
  = [Ok (mkStoreCommitResult 7 1000); Ok (mkStoreCommitResult 8 1000)].
Proof. split; vm_compute; reflexivity. Qed.
