(* ===== verification/CommitSize.v ===== *)
(** * CommitSize: the size estimate and commits that succeed

    Relates [EstimateCommitBatchBytes] of
    [src/storage/facts/group_commit_planner.cc] to the bytes the write batch of
    [src/storage/rocks/commit_publisher.cc] really takes
    ([WriteBatch::GetDataSize]), and concludes that a valid batch without conflicts
    whose estimate is within the limit is committed.

    Sizes are those of [size_t]: the lengths of a batch are below 2^63, the bound of
    the standard containers. *)

From S2P Require Import Prelude Status Crc32c Wire Value Fact FactCodec CommitBatch.
From S2P Require Import Frame MetaCodec PreparedCodec GroupCommit Bloom RecentWrites.
From S2P Require Import ValidationCache Accelerators Temporal FactStore Conflict.
From S2P Require Import WriteBatch Commit GroupedCommit.

(** ** Specification *)

Definition mutation_payload (m : PendingFactMutation) : Z :=
  match mutation_value m with Some v => ValuePayloadBytes v | None => 0 end.

(** The bytes of a put in a write batch. *)
Definition put_bytes (key value : Z) : Z :=
  2 + Varint32Bytes key + key + Varint32Bytes value + value.

Definition sum_of {A} (f : A -> Z) (l : list A) : Z := fold_right (fun a n => f a + n) 0 l.

Definition fact_count (b : StoreCommitBatch) : Z :=
  Z.of_nat (length (mutations b) + length (edge_identities b)).

(** The bytes of the facts and records of a batch. *)
Definition exact_bytes (b : StoreCommitBatch) : Z :=
  12 + put_bytes 12 27 + put_bytes 17 (32 + 23 * fact_count b) + put_bytes 17 18
  + sum_of (fun m => put_bytes 32 (15 + mutation_payload m)) (mutations b)
  + sum_of (fun _ => put_bytes 32 59 + put_bytes 17 54) (edge_identities b).

(** The containers of a batch are within the limits of the standard library. *)
Definition sizes_ok (b : StoreCommitBatch) : Prop :=
  fact_count b < 2 ^ 63 /\ Forall (fun m => mutation_payload m < 2 ^ 63) (mutations b).

(** An estimating step adds an amount, unless it saturates. *)
Definition adds {A} (f : Z -> A -> Z) (g : A -> Z) (a : A) : Prop :=
  forall t, 0 <= t <= SIZE_MAX ->
    t <= f t a <= SIZE_MAX /\ (f t a < SIZE_MAX -> f t a = t + g a).

(** ** Saturating sums *)

Lemma SaturatingAdd_small amount total :
  0 <= amount -> 0 <= total <= SIZE_MAX -> SaturatingAdd amount total < SIZE_MAX ->
  SaturatingAdd amount total = total + amount /\ total + amount < SIZE_MAX.
Proof. unfold SaturatingAdd. intros ? ? H. destruct (Z.ltb_spec (SIZE_MAX - total) amount); lia. Qed.

Lemma SaturatingAdd_range amount total :
  0 <= amount -> 0 <= total <= SIZE_MAX -> total <= SaturatingAdd amount total <= SIZE_MAX.
Proof. unfold SaturatingAdd. intros ? ?. destruct (Z.ltb_spec (SIZE_MAX - total) amount); lia. Qed.

Lemma Varint32Bytes_range v : 1 <= Varint32Bytes v <= 5.
Proof. unfold Varint32Bytes. repeat case_match; lia. Qed.

Lemma WriteBatchPutBytes_small key value :
  0 <= key -> 0 <= value ->
  0 <= WriteBatchPutBytes key value <= SIZE_MAX /\
  (WriteBatchPutBytes key value < SIZE_MAX ->
   WriteBatchPutBytes key value = put_bytes key value).
Proof.
  intros Hk Hv. unfold WriteBatchPutBytes, put_bytes.
  pose proof (Varint32Bytes_range key). pose proof (Varint32Bytes_range value).
  unfold SaturatingAdd, SIZE_MAX.
  repeat match goal with |- context [Z.ltb ?a ?b] => destruct (Z.ltb_spec a b) end; lia.
Qed.

Lemma fold_adds {A} (f : Z -> A -> Z) (g : A -> Z) l t :
  Forall (adds f g) l -> 0 <= t <= SIZE_MAX ->
  t <= fold_left f l t <= SIZE_MAX /\
  (fold_left f l t < SIZE_MAX -> fold_left f l t = t + sum_of g l).
Proof.
  intros H. revert t. induction H as [|a l Ha H IH]; intros t Ht; cbn [fold_left].
  - unfold sum_of. cbn. lia.
  - destruct (Ha t Ht) as [Hr He]. destruct (IH (f t a)) as [Hr' He']; [lia|].
    split; [lia|]. intros Hlt. rewrite He' by done. rewrite He by lia.
    unfold sum_of. cbn [fold_right]. lia.
Qed.

Lemma put_adds amount t :
  0 <= amount <= SIZE_MAX -> 0 <= t <= SIZE_MAX ->
  t <= SaturatingAdd amount t <= SIZE_MAX /\
  (SaturatingAdd amount t < SIZE_MAX -> SaturatingAdd amount t = t + amount).
Proof.
  intros Ha Ht. split; [apply SaturatingAdd_range; lia|]. intros H.
  apply SaturatingAdd_small; lia.
Qed.

Lemma mutation_payload_nonneg m : 0 <= mutation_payload m.
Proof. unfold mutation_payload. destruct (mutation_value m) as [[]|]; cbn; lia. Qed.

Lemma estimate_mutation_adds m :
  mutation_payload m < 2 ^ 63 ->
  adds estimate_mutation (fun m => put_bytes 32 (15 + mutation_payload m)) m.
Proof.
  intros Hm t Ht. unfold estimate_mutation. fold (mutation_payload m).
  pose proof (mutation_payload_nonneg m).
  assert (EncodedFactValueBytes (mutation_payload m) = 15 + mutation_payload m) as ->.
  { unfold EncodedFactValueBytes, kFactValueHeaderBytes, kFactValueChecksumBytes.
    rewrite uint_wrap; unfold uint; lia. }
  destruct (WriteBatchPutBytes_small 32 (15 + mutation_payload m)) as [Hr He]; [lia..|].
  change (Z.of_nat kEncodedFactKeyBytes) with 32.
  destruct (put_adds (WriteBatchPutBytes 32 (15 + mutation_payload m)) t) as [? Hs]; [lia..|].
  split; [done|]. intros Hlt. rewrite Hs by done. rewrite He; lia.
Qed.

Lemma estimate_identity_adds i :
  adds estimate_identity (fun _ => put_bytes 32 59 + put_bytes 17 54) i.
Proof.
  intros t Ht. unfold estimate_identity.
  change (WriteBatchPutBytes (Z.of_nat kEncodedFactKeyBytes)
            (EncodedFactValueBytes kEdgeIdentityPayloadBytes)) with (put_bytes 32 59).
  change (WriteBatchPutBytes kEdgeIdentityMetaKeyBytes
            (EncodedMetaRecordValueBytes kEdgeIdentityPayloadBytes)) with (put_bytes 17 54).
  destruct (put_adds (put_bytes 32 59) t) as [? H1]; [vm_compute; intuition congruence|lia|].
  destruct (put_adds (put_bytes 17 54) (SaturatingAdd (put_bytes 32 59) t)) as [? H2];
    [vm_compute; intuition congruence|lia|].
  split; [lia|]. intros Hlt. rewrite H2 by done. rewrite H1 by lia. lia.
Qed.

Lemma estimate_strict_read_grows d t :
  0 <= t <= SIZE_MAX -> t <= estimate_strict_read t d <= SIZE_MAX.
Proof.
  intros Ht. unfold estimate_strict_read, AddFactEventBytes.
  pose proof (SaturatingAdd_range 128 t). destruct (srd_observed_event d) as [e|]; [|lia].
  pose proof (SaturatingAdd_range 64 (SaturatingAdd 128 t)).
  destruct (event_value e) as [v|]; [|lia].
  pose proof (SaturatingAdd_range (ValuePayloadBytes v)
    (SaturatingAdd 64 (SaturatingAdd 128 t))).
  assert (0 <= ValuePayloadBytes v) by (destruct v; cbn; lia). lia.
Qed.

Lemma fold_strict_grows l t :
  0 <= t <= SIZE_MAX -> t <= fold_left estimate_strict_read l t <= SIZE_MAX.
Proof.
  revert t. induction l as [|d l IH]; intros t Ht; cbn; [lia|].
  pose proof (estimate_strict_read_grows d t Ht).
  specialize (IH (estimate_strict_read t d) ltac:(lia)). lia.
Qed.

Lemma EstimateSequenceRecordBytes_small n :
  0 <= n ->
  0 <= EstimateSequenceRecordBytes n <= SIZE_MAX /\
  (EstimateSequenceRecordBytes n < SIZE_MAX ->
   EstimateSequenceRecordBytes n = 32 + 23 * n).
Proof.
  intros Hn. unfold EstimateSequenceRecordBytes, SaturatingAddProduct.
  change (SaturatingAdd kSequenceV2FixedPayloadBytes kMetaRecordHeaderBytes) with 28.
  change (negb (kSequenceV2DescriptorBytes =? 0)) with true. cbn [andb].
  change kSequenceV2DescriptorBytes with 23. change kMetaRecordChecksumBytes with 4.
  destruct (Z.ltb_spec (SIZE_MAX / 23) n).
  - pose proof (SaturatingAdd_range 4 SIZE_MAX). unfold SIZE_MAX in *. lia.
  - pose proof (Z.mul_div_le SIZE_MAX 23 ltac:(lia)).
    assert (28 <= SIZE_MAX) by (unfold SIZE_MAX; lia).
    destruct (put_adds (23 * n) 28) as [R1 E1]; [lia..|].
    destruct (put_adds 4 (SaturatingAdd (23 * n) 28)) as [R2 E2]; [lia..|].
    split; [lia|]. intros Hlt. rewrite E2 by done. rewrite E1 by lia. lia.
Qed.

(** The records of a transaction. *)
Lemma estimate_records n :
  0 <= n ->
  let t := SaturatingAdd (put_bytes 17 18)
             (SaturatingAdd (WriteBatchPutBytes 17 (EstimateSequenceRecordBytes n))
                (12 + put_bytes 12 27)) in
  0 <= t <= SIZE_MAX /\
  (t < SIZE_MAX ->
   t = 12 + put_bytes 12 27 + put_bytes 17 (32 + 23 * n) + put_bytes 17 18).
Proof.
  intros Hn. destruct (EstimateSequenceRecordBytes_small n Hn) as [Hs Es].
  set (sq := EstimateSequenceRecordBytes n) in *.
  destruct (WriteBatchPutBytes_small 17 sq) as [Hp Ep]; [lia..|].
  set (pb := WriteBatchPutBytes 17 sq) in *.
  assert (0 <= put_bytes 12 27 <= 1000 /\ 0 <= put_bytes 17 18 <= 1000) as [Hc1 Hc2]
    by (vm_compute; intuition congruence).
  set (c1 := put_bytes 12 27) in *. set (c2 := put_bytes 17 18) in *.
  assert (10000 <= SIZE_MAX) by (unfold SIZE_MAX; lia).
  destruct (put_adds pb (12 + c1)) as [R1 E1]; [lia..|].
  set (t1 := SaturatingAdd pb (12 + c1)) in *.
  destruct (put_adds c2 t1) as [R2 E2]; [lia..|]. cbn zeta. split; [lia|].
  intros Hlt. assert (pb < SIZE_MAX) as Hpb by lia.
  specialize (Ep Hpb). assert (sq < SIZE_MAX) as Hsq.
  { unfold put_bytes in Ep. pose proof (Varint32Bytes_range 17).
    pose proof (Varint32Bytes_range sq). lia. }
  rewrite (Es Hsq) in Ep. lia.
Qed.

(** The estimate is at least 256 bytes above the exact size. *)
Lemma estimate_exact b :
  sizes_ok b -> EstimateCommitBatchBytes b < SIZE_MAX ->
  exact_bytes b + 256 <= EstimateCommitBatchBytes b.
Proof.
  intros [Hn Hm]. unfold EstimateCommitBatchBytes, exact_bytes. fold (fact_count b).
  assert (0 <= fact_count b) as Hn0 by (unfold fact_count; lia).
  replace (Z.of_nat (length (mutations b)) + Z.of_nat (length (edge_identities b)))
    with (fact_count b) by (unfold fact_count; lia).
  rewrite uint_wrap by (unfold uint; lia).
  destruct (estimate_records (fact_count b) Hn0) as [R2 E2].
  set (t2 := SaturatingAdd (put_bytes 17 18) _) in *.
  change (SaturatingAdd (WriteBatchPutBytes kVisibleWatermarkKeyBytes _) _) with t2.
  destruct (fold_adds estimate_mutation
    (fun m => put_bytes 32 (15 + mutation_payload m)) (mutations b) t2) as [R3 E3]; [|lia|].
  { eapply Forall_impl; [exact Hm|]. apply estimate_mutation_adds. }
  set (t3 := fold_left estimate_mutation (mutations b) t2) in *.
  destruct (fold_adds estimate_identity (fun _ => put_bytes 32 59 + put_bytes 17 54)
    (edge_identities b) t3) as [R4 E4]; [|lia|].
  { apply Forall_forall. intros i _. apply estimate_identity_adds. }
  set (t4 := fold_left estimate_identity (edge_identities b) t3) in *.
  pose proof (fold_strict_grows (strict_read_dependencies b) t4 ltac:(lia)) as R5.
  set (t5 := fold_left estimate_strict_read (strict_read_dependencies b) t4) in *.
  pose proof (Z.div_pos t5 256 ltac:(lia) ltac:(lia)).
  pose proof (Z.div_le_upper_bound t5 256 SIZE_MAX ltac:(lia) ltac:(lia)).
  assert (256 <= SIZE_MAX) by (unfold SIZE_MAX; lia).
  destruct (put_adds 256 (t5 / 256)) as [R6 E6]; [lia..|].
  destruct (put_adds (SaturatingAdd 256 (t5 / 256)) t5) as [R7 E7]; [lia..|].
  intros Hlt. specialize (E7 Hlt). lia.
Qed.

(** ** Real sizes *)

Lemma length_EncodeVarint32 v : Z.of_nat (length (EncodeVarint32 v)) = Varint32Bytes v.
Proof. unfold EncodeVarint32, Varint32Bytes. repeat case_match; done. Qed.

Lemma length_slice value :
  Z.of_nat (length value) < 2 ^ 32 ->
  Z.of_nat (length (PutLengthPrefixedSlice value))
  = Varint32Bytes (Z.of_nat (length value)) + Z.of_nat (length value).
Proof.
  intros H. unfold PutLengthPrefixedSlice. rewrite uint_wrap by (unfold uint; lia).
  rewrite length_app, Nat2Z.inj_add, length_EncodeVarint32. done.
Qed.

Lemma Varint32Bytes_small v : v < 128 -> Varint32Bytes v = 1.
Proof.
  intros H. unfold Varint32Bytes. change (Z.shiftl 1 7) with 128.
  by rewrite (proj2 (Z.ltb_lt _ _) H).
Qed.

Lemma length_literal_u64 (p : list byte) v : length (AppendU64 p v) = (length p + 8)%nat.
Proof. unfold AppendU64. by rewrite length_app, length_be_bytes. Qed.

Lemma length_EncodeRecord kind payload bytes :
  MetaCodec.EncodeRecord kind payload = Ok bytes ->
  length bytes = (10 + length payload)%nat.
Proof.
  unfold MetaCodec.EncodeRecord. intros H.
  apply encode_frame_Ok in H as [_ ->]; [|unfold kMaxMetaPayloadBytes; lia].
  unfold frame_body. rewrite length_app. cbn [length]. rewrite length_app, !length_be_bytes.
  lia.
Qed.

Lemma length_value_payload v : Z.of_nat (length (value_payload v)) = ValuePayloadBytes v.
Proof. by destruct v. Qed.

Lemma length_EncodeFactValue e bytes :
  EncodeFactValue e = Ok bytes ->
  Z.of_nat (length bytes)
  = 15 + match event_edge_identity e, event_value e with
         | Some _, _ => 44
         | None, Some v => ValuePayloadBytes v
         | None, None => 0
         end.
Proof.
  intros (_ & kind & payload & Hp & ->)%EncodeFactValue_Ok.
  assert (Z.of_nat (length payload)
          = match event_edge_identity e, event_value e with
            | Some _, _ => 44
            | None, Some v => ValuePayloadBytes v
            | None, None => 0
            end) as <-.
  { unfold event_payload in Hp. destruct (event_edge_identity e) as [i|].
    - inv_ok. unfold EncodeEdgeIdentityPayload in *. inv_ok. simplify_eq.
      by rewrite length_identity_bytes.
    - destruct (event_value e) as [v|]; inv_ok; simplify_eq; [|done].
      unfold EncodeValuePayload in *. case_match; [done|]. inv_ok. subst.
      apply length_value_payload. }
  unfold value_body. rewrite length_app. cbn [length].
  rewrite length_app. cbn [length]. rewrite length_app, !length_be_bytes. lia.
Qed.

Lemma EncodeFactValue_bound e bytes :
  EncodeFactValue e = Ok bytes ->
  Z.of_nat (length bytes) <= 15 + kMaxFactValuePayloadBytes.
Proof.
  intros (_ & kind & payload & Hp & ->)%EncodeFactValue_Ok.
  apply event_payload_Ok in Hp as [Hp _]. unfold value_body.
  rewrite length_app. cbn [length]. rewrite length_app. cbn [length].
  rewrite length_app, !length_be_bytes. lia.
Qed.

Lemma Forall2_and_l {A B} {R : A -> B -> Prop} {P : A -> Prop} {l k} :
  Forall2 R l k -> Forall P l -> Forall2 (fun a b => R a b /\ P a) l k.
Proof. induction 1; inversion 1; subst; constructor; auto. Qed.

Section sizes.

Context (cf_id : ColumnFamily -> Z).
Hypothesis Hcf : forall cf, 0 < cf_id cf < 128.

Lemma length_op_tag plain in_family cf :
  Z.of_nat (length (op_tag cf_id plain in_family cf)) = 2.
Proof.
  pose proof (Hcf cf). unfold op_tag. rewrite (proj2 (Z.eqb_neq _ _)) by lia.
  cbn [length]. rewrite Nat2Z.inj_succ, length_EncodeVarint32, Varint32Bytes_small; lia.
Qed.

Lemma op_rep_put cf k v key value :
  Z.of_nat (length k) = key -> Z.of_nat (length v) = value ->
  key < 2 ^ 32 -> value < 2 ^ 32 ->
  Z.of_nat (length (op_rep cf_id (Put cf k v))) = put_bytes key value.
Proof.
  intros <- <- Hk Hv. cbn [op_rep]. unfold put_rep. rewrite !length_app.
  pose proof (length_slice k Hk). pose proof (length_slice v Hv).
  pose proof (length_op_tag kTypeValue kTypeColumnFamilyValue cf). unfold put_bytes. lia.
Qed.

Lemma GetDataSize_Forall2 {A} (g : A -> Z) l ops :
  Forall2 (fun a op => Z.of_nat (length (op_rep cf_id op)) = g a) l ops ->
  GetDataSize cf_id ops = 12 + sum_of g l.
Proof.
  induction 1 as [|a op l ops Hop _ IH]; [done|].
  rewrite GetDataSize_cons, Hop, IH. unfold sum_of. cbn. lia.
Qed.

Lemma facts_size commit_seq b ops :
  batch_ok b -> commit_seq <> 0 ->
  Forall2 (fun e op => exists v, EncodeFactValue e = Ok v /\
                         op = Put kFactsCf (event_key e) v)
    (batch_events commit_seq b) ops ->
  GetDataSize cf_id ops
  = 12 + sum_of (fun m => put_bytes 32 (15 + mutation_payload m)) (mutations b)
    + sum_of (fun _ => put_bytes 32 59) (edge_identities b).
Proof.
  intros Hb Hs H. unfold batch_events, VisitCommitFacts in H. rewrite fmap_app in H.
  apply Forall2_app_inv_l in H as (ops1 & ops2 & H1 & H2 & ->).
  rewrite <- list_fmap_compose, Forall2_fmap_l in H1.
  rewrite <- list_fmap_compose, Forall2_fmap_l in H2.
  pose proof (batch_ok_refs b Hb) as Hr. unfold commit_mutations, VisitCommitFacts in Hr.
  rewrite fmap_app, Forall_app, <- !list_fmap_compose, !Forall_fmap in Hr.
  destruct Hr as [Hr1 Hr2].
  assert (forall e, FactRef_Validate (event_ref e) = StatusOK ->
            event_commit_seq e = commit_seq -> Z.of_nat (length (event_key e)) = 32) as Hkey.
  { intros e Hv E. unfold event_key. by rewrite length_EncodeFactKey by (done || by rewrite E). }
  rewrite GetDataSize_app,
    (GetDataSize_Forall2 (fun m => put_bytes 32 (15 + mutation_payload m)) (mutations b)),
    (GetDataSize_Forall2 (fun _ => put_bytes 32 59) (edge_identities b)); [lia|..].
  - eapply Forall2_impl; [exact (Forall2_and_l H2 Hr2)|].
    intros i op [(v & Hv & ->) Hri]. apply op_rep_put; [by apply Hkey| |lia|lia].
    by rewrite (length_EncodeFactValue _ _ Hv).
  - eapply Forall2_impl; [exact (Forall2_and_l H1 Hr1)|].
    intros m op [(v & Hv & ->) Hri]. pose proof (EncodeFactValue_bound _ _ Hv) as Hmax.
    assert (Z.of_nat (length v) = 15 + mutation_payload m) as El
      by by rewrite (length_EncodeFactValue _ _ Hv).
    unfold kMaxFactValuePayloadBytes in Hmax.
    apply op_rep_put; [by apply Hkey|done|lia|lia].
Qed.

Lemma records_size b records :
  Forall2 (fun i op => exists k v, EncodeEdgeIdentityMetaKey (edge_ref i) = Ok k /\
             EncodeEdgeIdentity i = Ok v /\ op = Put kMetaCf k v)
    (edge_identities b) records ->
  GetDataSize cf_id records = 12 + sum_of (fun _ => put_bytes 17 54) (edge_identities b).
Proof.
  intros H. apply GetDataSize_Forall2. eapply Forall2_impl; [exact H|].
  intros i op (k & v & Hk & Hv & ->). unfold EncodeEdgeIdentityMetaKey in Hk.
  destruct (_ =? 0); inv_ok. subst k. unfold EncodeEdgeIdentity in Hv. inv_ok.
  apply length_EncodeRecord in Hv. rewrite length_identity_bytes in Hv.
  apply op_rep_put; [|lia|lia|lia]. rewrite length_literal_u64. unfold AppendU32.
  rewrite length_app, length_be_bytes. done.
Qed.

Lemma length_EncodeSequenceRecordV2 r bytes :
  EncodeSequenceRecordV2 r = Ok bytes ->
  Z.of_nat (length bytes) = 32 + 23 * Z.of_nat (length (fact_keys r)) /\
  Z.of_nat (length bytes) <= 10 + kMaxMetaPayloadBytes.
Proof.
  intros H. assert (SequenceRecord_Validate r = StatusOK) as Hv
    by (unfold EncodeSequenceRecordV2 in H; by inv_ok).
  pose proof (proj1 (SequenceRecord_Validate_OK r) Hv) as (_ & _ & _ & _ & Hk & _).
  apply seq_keys_facts in Hk as (facts & Hf & Hk).
  rewrite (EncodeSequenceRecordV2_facts _ facts) in H by done.
  pose proof (length_EncodeRecord _ _ _ H) as Hl.
  apply encode_frame_Ok in H as [Hm _]; [|unfold kMaxMetaPayloadBytes; lia].
  rewrite Hk, length_fmap. unfold sequence_payload in *. cbn [length] in *.
  rewrite !length_app, !length_be_bytes, length_descriptors in *. lia.
Qed.

Lemma sum_of_add {A} (f g : A -> Z) l :
  sum_of (fun a => f a + g a) l = sum_of f l + sum_of g l.
Proof. induction l as [|a l IH]; [done|]. unfold sum_of in *. cbn in *. lia. Qed.

(** The write batch of a commit takes what was computed, and at most 25 bytes for the
    deletion of the prepared record. *)
Lemma commit_ops_size b prepared_key commit_seq ops :
  batch_ok b -> prepared_key_ok b prepared_key ->
  commit_ops b prepared_key commit_seq = Ok ops ->
  GetDataSize cf_id ops <= exact_bytes b + 25.
Proof.
  intros Hb Hk H. apply commit_ops_Ok in H as (core & w & Hc & Hw & ->).
  apply AppendCandidate_Ok in Hc
    as (facts & records & tk & sk & out & sq & -> & Hf & Hr & Ht & Hs & Ho & Hq).
  pose proof (EncodeSequenceRecordV2_NoDup _ _ Hq) as [_ Hs0]. cbn in Hs0.
  apply length_EncodeSequenceRecordV2 in Hq as [Hq Hq']. cbn [fact_keys] in Hq.
  assert (Z.of_nat (length (event_key <$> batch_events commit_seq b)) = fact_count b) as En.
  { unfold batch_events, VisitCommitFacts, fact_count.
    rewrite !length_fmap, length_app, !length_fmap. done. }
  rewrite En in Hq. unfold kMaxMetaPayloadBytes in Hq'.
  assert (GetDataSize cf_id (delete_prepared prepared_key) <= 12 + 25) as Hd.
  { destruct prepared_key as [pk|]; [|by vm_compute]. specialize (Hk pk eq_refl).
    unfold EncodePreparedCommitKey in Hk. destruct (_ =? 0); inv_ok. subst pk.
    cbn [delete_prepared]. rewrite GetDataSize_cons. cbn [op_rep]. unfold delete_rep.
    rewrite length_app, Nat2Z.inj_add, length_op_tag, length_slice;
      rewrite !length_literal_u64; by vm_compute. }
  assert (length tk = 12%nat /\ length sk = 17%nat) as [Htk Hsk].
  { unfold EncodeTransactionMetaKey in Ht. unfold EncodeSequenceMetaKey in Hs.
    destruct (txn_id b =? 0), (commit_seq =? 0); inv_ok; try done. subst.
    by rewrite !length_literal_u64. }
  assert (length out = 27%nat) as Hout.
  { unfold EncodeTransactionOutcome in Ho. inv_ok. apply length_EncodeRecord in Ho as ->.
    by rewrite length_app, !length_literal_u64. }
  rewrite !GetDataSize_app, GetDataSize_cons, GetDataSize_cons.
  rewrite (GetDataSize_cons _ (Put kMetaCf EncodeVisibleWatermarkKey w)).
  rewrite (facts_size _ _ _ Hb Hs0 Hf), (records_size _ _ Hr).
  rewrite (op_rep_put _ tk out 12 27), (op_rep_put _ sk sq 17 (32 + 23 * fact_count b)),
    (op_rep_put _ EncodeVisibleWatermarkKey w 17 18); try lia; [|done|].
  2: { by rewrite (length_EncodeWatermark _ _ Hw). }
  unfold exact_bytes. rewrite sum_of_add. change (GetDataSize cf_id []) with 12. lia.
Qed.

End sizes.

(** ** Batches that can be encoded *)

Lemma candidate_keys_total commit_seq ms keys :
  (forall m, m ∈ ms -> key_ok (mutation_ref m) (mutation_valid_from m) commit_seq) ->
  loop (candidate_fact_keys commit_seq) keys ms
  = Ok (keys
        ++ ((fun m => EncodeFactKey (mutation_ref m) (mutation_valid_from m) commit_seq)
              <$> ms)).
Proof.
  revert keys. induction ms as [|m ms IH]; intros keys H; [cbn; by rewrite app_nil_r|].
  cbn [loop fmap list_fmap].
  assert (candidate_fact_keys commit_seq keys m
          = Ok (keys ++ [EncodeFactKey (mutation_ref m) (mutation_valid_from m) commit_seq]))
    as ->.
  { unfold candidate_fact_keys. rewrite bool_decide_false; [done|].
    by apply EncodeFactKey_nonempty, H; left. }
  cbn [mbind StatusOr_bind]. rewrite IH by (intros; apply H; by right).
  by rewrite <- app_assoc.
Qed.

(** The facts are put under the given keys, if all of them can be encoded. *)
Lemma put_facts_total commit_seq facts keys :
  (length (filter (fun f => f.2 = None) facts) <= length keys)%nat ->
  (forall f, f ∈ facts -> exists v, EncodeFactValue (committed_event commit_seq f) = Ok v) ->
  is_ok (put_facts commit_seq keys facts) = true.
Proof.
  revert keys. induction facts as [|[m o] facts IH]; intros keys Hlen H; [done|].
  cbn [put_facts]. destruct (H (m, o) ltac:(by left)) as [v ->].
  cbn [mbind StatusOr_bind]. rewrite filter_cons in Hlen.
  destruct o as [i|].
  - rewrite decide_False in Hlen by done. specialize (IH keys Hlen).
    destruct (put_facts commit_seq keys facts) as [[]|]; [done|].
    apply IH. intros; apply H; by right.
  - rewrite decide_True in Hlen by done. destruct keys as [|key keys]; [cbn in Hlen; lia|].
    specialize (IH keys ltac:(cbn in Hlen; lia)).
    destruct (put_facts commit_seq keys facts) as [[]|]; [done|].
    apply IH. intros; apply H; by right.
Qed.

Lemma EncodeRecord_total kind payload :
  Z.of_nat (length payload) <= kMaxMetaPayloadBytes ->
  exists bytes, MetaCodec.EncodeRecord kind payload = Ok bytes.
Proof.
  intros H. unfold MetaCodec.EncodeRecord, encode_frame.
  rewrite (proj2 (Z.ltb_ge _ _) H). by eexists.
Qed.

Lemma put_identity_total ids ops :
  Forall (fun i => EdgeIdentity_Validate i = StatusOK) ids ->
  is_ok (loop put_identity ops ids) = true.
Proof.
  intros H. revert ops. induction H as [|i ids Hi H IH]; intros ops; [done|].
  cbn [loop]. assert (exists ops', put_identity ops i = Ok ops') as [ops' ->]; [|by apply IH].
  unfold put_identity, EncodeEdgeIdentityMetaKey, EncodeEdgeIdentity.
  rewrite Hi. apply EdgeIdentity_Validate_OK in Hi as [Hne _].
  change (edge_ref_id (edge_ref i)) with (edge_id i).
  rewrite (proj2 (Z.eqb_neq _ _) Hne). cbn [check mbind StatusOr_bind].
  destruct (EncodeRecord_total kEdgeIdentityRecord (identity_bytes i)) as [bytes ->];
    [rewrite length_identity_bytes; unfold kMaxMetaPayloadBytes; lia|]. by eexists.
Qed.

Section total.

Context (b : StoreCommitBatch) (commit_seq : Z).
Hypothesis Ht : prepared_typed b.
Hypothesis Hb : batch_ok b.
Hypothesis Hs : uint 64 commit_seq.
Hypothesis Hs0 : commit_seq <> 0.
Hypothesis Hcount : 22 + 23 * fact_count b <= kMaxMetaPayloadBytes.
Hypothesis Hpayload :
  Forall (fun m => mutation_payload m <= kMaxFactValuePayloadBytes) (mutations b).

Lemma total_fact_ok f :
  f ∈ VisitCommitFacts b ->
  key_ok (mutation_ref f.1) (mutation_valid_from f.1) commit_seq.
Proof.
  intros Hf. pose proof (batch_ok_refs b Hb) as Hr. rewrite Forall_forall in Hr.
  specialize (Hr f.1 (list_elem_of_fmap_2 fst _ _ Hf)).
  pose proof (batch_events_typed commit_seq b Ht Hs) as He. rewrite Forall_forall in He.
  destruct (He _ (list_elem_of_fmap_2 (committed_event commit_seq) _ _ Hf)) as (? & ? & _).
  destruct f as [m o]. unfold key_ok. split_and?; done.
Qed.

Lemma total_event_valid f :
  f ∈ VisitCommitFacts b -> FactEvent_Validate (committed_event commit_seq f) = StatusOK.
Proof.
  intros Hf. pose proof (total_fact_ok f Hf) as (_ & Hr & _).
  pose proof Hb as (_ & _ & _ & Hm & _ & _ & _ & _ & _ & Hi & _).
  rewrite Forall_forall in Hm. rewrite Forall_forall in Hi.
  apply FactEvent_Validate_OK. unfold VisitCommitFacts in Hf.
  apply elem_of_app in Hf as [Hin|Hin];
    [apply list_elem_of_fmap in Hin as (m & -> & Hin)
    |apply list_elem_of_fmap in Hin as (i & -> & Hin)]; cbn in Hr |- *.
  - specialize (Hm m Hin). destruct (mutation_family m Hm) as [_ Hf].
    unfold PendingFactMutation_Validate in Hm.
    destruct (ValidateMutation _ _ _ _) eqn:E; [|done]. unfold identity_payload_ok.
    by split_and!.
  - destruct (Hi i Hin) as [Hiv _]. split_and!; try done.
    apply ValidateMutation_OK. cbn. split_and!; done.
Qed.

Lemma total_value f :
  f ∈ VisitCommitFacts b ->
  exists v, EncodeFactValue (committed_event commit_seq f) = Ok v.
Proof.
  intros Hf. pose proof (total_event_valid f Hf) as Hv.
  enough (exists kind payload,
            event_payload (committed_event commit_seq f) = Ok (kind, payload))
    as (kind & payload & Hp).
  { eexists. apply EncodeFactValue_Ok. split; [done|]. by eexists _, _. }
  unfold VisitCommitFacts in Hf. apply elem_of_app in Hf as [Hin|Hin];
    [apply list_elem_of_fmap in Hin as (m & -> & Hin)
    |apply list_elem_of_fmap in Hin as (i & -> & Hin)]; unfold event_payload; cbn.
  - rewrite Forall_forall in Hpayload. specialize (Hpayload m Hin).
    unfold mutation_payload in Hpayload.
    destruct (mutation_value m) as [v|]; [|by eexists _, _].
    unfold EncodeValuePayload. rewrite length_value_payload.
    rewrite (proj2 (Z.ltb_ge _ _) Hpayload). by eexists _, _.
  - apply FactEvent_Validate_OK in Hv as (_ & _ & Hid). cbn in Hid.
    unfold EncodeEdgeIdentityPayload. destruct Hid as (_ & _ & _ & _ & _ & _ & ->).
    by eexists _, _.
Qed.

Lemma total_keys_NoDup : NoDup (event_key <$> batch_events commit_seq b).
Proof.
  unfold batch_events. rewrite <- list_fmap_compose.
  apply (NoDup_fmap_iff _ (fun f => (mutation_ref f.1, mutation_valid_from f.1))).
  { intros [m o] [m' o'] Hf Hf'.
    apply (EncodeFactKey_inj _ _ _ _ commit_seq (total_fact_ok _ Hf) (total_fact_ok _ Hf')). }
  pose proof Hb as (_ & _ & _ & Hm & Hnd & _ & _ & _ & _ & _ & Hne).
  unfold VisitCommitFacts. rewrite fmap_app, <- !list_fmap_compose, NoDup_app.
  split_and!; [exact Hnd| |].
  - intros x (m & -> & Hin)%list_elem_of_fmap (i & E & _)%list_elem_of_fmap.
    rewrite Forall_forall in Hm. destruct (mutation_family m (Hm m Hin)) as [_ Hf].
    cbn in E. injection E as Er _. apply Hf. by rewrite Er.
  - eapply (NoDup_fmap_iff _ edge_ref); [|exact Hne]. intros i j _ _. cbn.
    unfold edge_ref. split; congruence.
Qed.

Let mutation_keys :=
  (fun m => EncodeFactKey (mutation_ref m) (mutation_valid_from m) commit_seq)
    <$> mutations b.
Let identity_keys :=
  (fun i => EncodeFactKey (mutation_ref (identity_mutation i)) 0 commit_seq)
    <$> edge_identities b.

Lemma batch_keys : event_key <$> batch_events commit_seq b = mutation_keys ++ identity_keys.
Proof.
  unfold batch_events, VisitCommitFacts, mutation_keys, identity_keys.
  by rewrite !fmap_app, <- !list_fmap_compose.
Qed.

Lemma total_mutation_key m :
  m ∈ mutations b -> key_ok (mutation_ref m) (mutation_valid_from m) commit_seq.
Proof.
  intros Hm. apply (total_fact_ok (m, None)). apply elem_of_app. left.
  by apply (list_elem_of_fmap_2 (fun m => (m, None))).
Qed.

Lemma total_identity_key i :
  i ∈ edge_identities b -> key_ok (mutation_ref (identity_mutation i)) 0 commit_seq.
Proof.
  intros Hi. apply (total_fact_ok (identity_mutation i, Some i)). apply elem_of_app. right.
  by apply (list_elem_of_fmap_2 (fun i => (identity_mutation i, Some i))).
Qed.

Lemma total_fact_checks :
  loop (check_fact_key commit_seq) ∅ mutation_keys = Ok (list_to_set mutation_keys).
Proof.
  pose proof total_keys_NoDup as Hnd. rewrite batch_keys, NoDup_app in Hnd.
  destruct Hnd as (Hnd & _ & _).
  apply (loop_unique (check_fact_key commit_seq) (fun _ => True) id mutation_keys).
  2: { rewrite list_fmap_id. split_and!; [by apply Forall_forall|done|set_solver|set_solver]. }
  intros s k s' Hk. apply list_elem_of_fmap in Hk as (m & -> & Hm).
  pose proof (total_mutation_key m Hm) as Hok. unfold check_fact_key, emplace, id.
  pose proof (length_fact_key commit_seq (mutation_ref m, mutation_valid_from m) Hok) as El.
  unfold fact_key in El. cbn [fst snd] in El. rewrite El.
  rewrite (DecodeFactKey_Encode _ _ _ Hok). cbn [key_commit_seq].
  rewrite Nat.eqb_refl, Z.eqb_refl. cbn [require mbind StatusOr_bind].
  case_bool_decide; cbn; split; [intros [= <-]|intros (_ & _ & ->)|..]; naive_solver.
Qed.

Lemma total_identity_checks :
  is_ok (loop (check_identity_key commit_seq (list_to_set mutation_keys)) ∅
           (edge_identities b)) = true.
Proof.
  pose proof total_keys_NoDup as Hnd. rewrite batch_keys, NoDup_app in Hnd.
  destruct Hnd as (_ & Hdis & Hnd).
  destruct (loop _ _ _) as [x|] eqn:E; [done|]. exfalso.
  assert (loop (check_identity_key commit_seq (list_to_set mutation_keys)) ∅
            (edge_identities b) = Ok (list_to_set identity_keys)) as E'; [|congruence].
  apply (loop_unique (check_identity_key commit_seq (list_to_set mutation_keys))
           (fun _ => True)
           (fun i => EncodeFactKey (mutation_ref (identity_mutation i)) 0 commit_seq)).
  2: { split_and!; [by apply Forall_forall|done|set_solver|set_solver]. }
  intros s i s' Hi. pose proof (total_identity_key i Hi) as Hok.
  unfold check_identity_key, emplace.
  set (key := EncodeFactKey (mutation_ref (identity_mutation i)) 0 commit_seq).
  rewrite (bool_decide_false (key = [])) by by apply EncodeFactKey_nonempty.
  rewrite (bool_decide_false (key ∈ list_to_set mutation_keys)).
  2: { intros Hin%elem_of_list_to_set. apply (Hdis key Hin).
       by apply (list_elem_of_fmap_2 (fun i => EncodeFactKey
                   (mutation_ref (identity_mutation i)) 0 commit_seq)). }
  cbn [negb andb require mbind StatusOr_bind].
  case_bool_decide; cbn; split; [intros [= <-]|intros (_ & _ & ->)|..]; naive_solver.
Qed.

Lemma total_sequence_record :
  exists bytes, EncodeSequenceRecordV2
    (mkSequenceRecord commit_seq (txn_id b) (system_hlc b)
       (mutation_keys ++ identity_keys)) = Ok bytes.
Proof.
  set (facts := (fun f => (mutation_ref f.1, mutation_valid_from f.1)) <$> VisitCommitFacts b).
  assert (Forall (fact_ok commit_seq) facts) as Hf.
  { apply Forall_fmap, Forall_forall. intros f Hf. by apply total_fact_ok. }
  assert (mutation_keys ++ identity_keys = fact_key commit_seq <$> facts) as Ek.
  { unfold facts, mutation_keys, identity_keys, VisitCommitFacts.
    by rewrite !fmap_app, <- !list_fmap_compose. }
  assert (Z.of_nat (length facts) = fact_count b) as En.
  { unfold facts, VisitCommitFacts, fact_count.
    rewrite !length_fmap, length_app, !length_fmap. done. }
  assert (SequenceRecord_Validate (mkSequenceRecord commit_seq (txn_id b) (system_hlc b)
            (mutation_keys ++ identity_keys)) = StatusOK) as Hv.
  { apply SequenceRecord_Validate_OK. cbn. pose proof Hb as (? & _ & Hne & _).
    unfold kMaxMetaPayloadBytes in Hcount.
    assert (uint 32 (Z.of_nat (length (mutation_keys ++ identity_keys)))).
    { rewrite Ek, length_fmap, En. unfold uint. unfold fact_count in *. lia. }
    split_and?; try done.
    - unfold mutation_keys. by destruct (mutations b).
    - rewrite Ek. by apply facts_seq_keys.
    - rewrite <- batch_keys. apply total_keys_NoDup. }
  rewrite (EncodeSequenceRecordV2_facts _ facts) by done. cbn [seq_txn_id seq_system_hlc].
  apply EncodeRecord_total. unfold sequence_payload. cbn [length].
  rewrite !length_app, !length_be_bytes, length_descriptors. lia.
Qed.

Lemma commit_ops_total prepared_key : exists ops, commit_ops b prepared_key commit_seq = Ok ops.
Proof.
  unfold commit_ops. rewrite candidate_keys_total by apply total_mutation_key.
  cbn [app mbind StatusOr_bind].
  destruct (EncodeWatermark_total commit_seq) as [w ->]. cbn [mbind StatusOr_bind].
  enough (exists core, AppendCandidateToWriteBatch
            (mkCandidateCommit b commit_seq mutation_keys) = Ok core) as [core E].
  { fold mutation_keys. rewrite E. by eexists. }
  unfold AppendCandidateToWriteBatch. cbn [candidate_keys candidate_batch candidate_seq].
  assert (length mutation_keys = length (mutations b)) as El by apply length_fmap.
  rewrite El, Nat.eqb_refl. cbn [require mbind StatusOr_bind].
  rewrite total_fact_checks. cbn [mbind StatusOr_bind].
  pose proof total_identity_checks as Hi. destruct (loop _ ∅ (edge_identities b)); [|done].
  cbn [mbind StatusOr_bind].
  assert (is_ok (put_facts commit_seq mutation_keys (VisitCommitFacts b)) = true) as Hp.
  { apply put_facts_total; [|apply total_value]. rewrite El. unfold VisitCommitFacts.
    rewrite filter_app, length_app, (filter_none _ (_ <$> edge_identities b)).
    - cbn [length]. rewrite Nat.add_0_r. etransitivity; [apply length_filter|].
      by rewrite length_fmap.
    - by apply Forall_fmap, Forall_forall. }
  pose proof (put_identities commit_seq (edge_identities b)) as Hids.
  destruct (put_facts _ _ _) as [[fops sequence_keys]|] eqn:Ep; [|done].
  apply put_mutations in Ep as (? & ops2 & _ & Ep & _). apply Hids in Ep as [Ek _].
  cbn [mbind StatusOr_bind].
  pose proof (put_identity_total (edge_identities b) []) as Hr.
  destruct (loop put_identity _ _); [|discriminate Hr].
  2: { pose proof Hb as (_ & _ & _ & _ & _ & _ & _ & _ & _ & Hiv & _).
       eapply Forall_impl; [exact Hiv|]. by intros i [? _]. }
  cbn [mbind StatusOr_bind]. pose proof Hb as (Htxn & _).
  unfold EncodeTransactionMetaKey, EncodeSequenceMetaKey, EncodeTransactionOutcome,
    TransactionOutcomeRecord_Validate.
  cbn [outcome_txn_id outcome_commit_seq outcome].
  rewrite (proj2 (Z.eqb_neq _ _) Htxn), (proj2 (Z.eqb_neq _ _) Hs0).
  cbn [orb negb check mbind StatusOr_bind].
  destruct total_sequence_record as [sq Hsq].
  match goal with |- context [MetaCodec.EncodeRecord kTransactionOutcome ?p] =>
    destruct (EncodeRecord_total kTransactionOutcome p) as [out ->] end.
  { rewrite length_app, !length_literal_u64. unfold kMaxMetaPayloadBytes. cbn. lia. }
  cbn [mbind StatusOr_bind].
  assert (sequence_keys = identity_keys) as -> .
  { rewrite Ek. unfold identity_keys. by rewrite <- !list_fmap_compose. }
  rewrite Hsq. by eexists.
Qed.

End total.

(** ** Bounds from the estimate *)

Lemma sum_of_nonneg {A} (f : A -> Z) l : (forall a, a ∈ l -> 0 <= f a) -> 0 <= sum_of f l.
Proof.
  induction l as [|a l IH]; intros H; [done|]. unfold sum_of in *. cbn.
  pose proof (H a ltac:(by left)). specialize (IH ltac:(intros; apply H; by right)). lia.
Qed.

Lemma sum_of_ge {A} (f : A -> Z) l a :
  (forall a, a ∈ l -> 0 <= f a) -> a ∈ l -> f a <= sum_of f l.
Proof.
  induction l as [|x l IH]; intros H; [by intros ?%not_elem_of_nil|].
  pose proof (sum_of_nonneg f l ltac:(intros; apply H; by right)).
  pose proof (H x ltac:(by left)). intros [->|Ha]%elem_of_cons.
  - unfold sum_of in *. cbn. lia.
  - specialize (IH ltac:(intros; apply H; by right) Ha). unfold sum_of in *. cbn. lia.
Qed.

Lemma put_bytes_ge key value : 0 <= key -> 0 <= value -> 0 <= put_bytes key value /\ value <= put_bytes key value.
Proof.
  intros. unfold put_bytes. pose proof (Varint32Bytes_range key).
  pose proof (Varint32Bytes_range value). lia.
Qed.

Lemma exact_bytes_bounds b :
  23 * fact_count b + 32 <= exact_bytes b /\
  Forall (fun m => mutation_payload m <= exact_bytes b) (mutations b).
Proof.
  unfold exact_bytes. assert (0 <= fact_count b) by (unfold fact_count; lia).
  pose proof (put_bytes_ge 12 27). pose proof (put_bytes_ge 17 18).
  pose proof (put_bytes_ge 17 (32 + 23 * fact_count b)).
  pose proof (put_bytes_ge 32 59). pose proof (put_bytes_ge 17 54).
  assert (forall m, 0 <= put_bytes 32 (15 + mutation_payload m) /\
            mutation_payload m <= put_bytes 32 (15 + mutation_payload m)) as Hm.
  { intros m. pose proof (mutation_payload_nonneg m).
    pose proof (put_bytes_ge 32 (15 + mutation_payload m)). lia. }
  pose proof (sum_of_nonneg (fun m => put_bytes 32 (15 + mutation_payload m)) (mutations b)
                (fun m _ => proj1 (Hm m))).
  pose proof (sum_of_nonneg (fun _ : EdgeIdentity => put_bytes 32 59 + put_bytes 17 54)
                (edge_identities b) ltac:(intros; lia)).
  split; [lia|]. apply Forall_forall. intros m Hin.
  pose proof (sum_of_ge (fun m => put_bytes 32 (15 + mutation_payload m)) (mutations b) m
                (fun m _ => proj1 (Hm m)) Hin) as Hge. cbn beta in Hge.
  specialize (Hm m). lia.
Qed.

Lemma CommitDirect_succeeds_OK cf_id outcome ledger events cs b prepared_key :
  (forall cf, 0 < cf_id cf < 128) ->
  commit_inv ledger events cs -> prepared_typed b ->
  StoreCommitBatch_Validate b = StatusOK -> sizes_ok b ->
  EstimateCommitBatchBytes b <= group_commit_max_batch_bytes cs ->
  group_commit_max_batch_bytes cs <= 2 * 1024 * 1024 ->
  prepared_key_ok b prepared_key -> check_prepared cs b prepared_key = Ok tt ->
  (forall s b', (s, b') ∈ ledger -> txn_id b' <> txn_id b) ->
  visible_seq (cs_impl cs) < U64_MAX -> admissible events (visible_seq (cs_impl cs)) b ->
  write_status outcome = rocks_ok ->
  exists cs', CommitDirect cf_id outcome b prepared_key cs
    = (Ok (mkStoreCommitResult (visible_seq (cs_impl cs) + 1) (system_hlc b)), cs').
Proof.
  intros Hcf Hinv Hb Hv Hs He Hmax Hk Hp Htxn Hvis Hadm Ho.
  assert (batch_ok b) as Hbok
    by by apply StoreCommitBatch_Validate_OK; [apply prepared_batch_typed|].
  pose proof (estimate_exact b Hs ltac:(unfold SIZE_MAX; lia)) as Hest.
  pose proof (exact_bytes_bounds b) as [Hcount Hpay].
  destruct (step_seq ledger events cs Hinv ltac:(lia)) as [Hseq ?].
  destruct (commit_ops_total b (visible_seq (cs_impl cs) + 1) Hb Hbok Hseq ltac:(lia)
              ltac:(unfold kMaxMetaPayloadBytes; lia)) with (prepared_key := prepared_key)
    as [ops Hops].
  { eapply Forall_impl; [exact Hpay|]. unfold kMaxFactValuePayloadBytes. intros m ?. lia. }
  pose proof (commit_ops_size cf_id Hcf b prepared_key _ ops Hbok Hk Hops).
  assert (exists k, EncodeTransactionMetaKey (txn_id b) = Ok k) as [k Ek].
  { unfold EncodeTransactionMetaKey. rewrite (proj2 (Z.eqb_neq _ _)) by apply Hbok.
    by eexists. }
  destruct (CommitDirect_complete cf_id outcome ledger events cs b prepared_key k ops)
    as (c & _ & E); try done; [|lia|by eexists].
  destruct (cf_get k (meta_cf cs)) eqn:Eg; [exfalso|done].
  destruct (inv_outcomes _ _ _ Hinv (txn_id b) k) as (s & b' & Hin & Et);
    [apply Hb|done|by rewrite Eg|]. by apply (Htxn s b').
Qed.

Lemma sample_write_sizes : sizes_ok sample_write.
Proof. split; [by vm_compute|]. repeat constructor. Qed.

Lemma sample_cf_id_small cf : 0 < sample_cf_id cf < 128.
Proof. destruct cf; cbn; lia. Qed.

(** ** Properties *)

(** The estimate is an upper bound.  With column families whose identifiers take
    one byte, the write batch of a commit, the deletion of a prepared record
    included, never takes more bytes than the estimate its batch was admitted by, as
    long as the estimate does not saturate. *)
Theorem EstimateCommitBatchBytes_bounds cf_id b prepared_key commit_seq ops :
  (forall cf, 0 < cf_id cf < 128) ->
  batch_typed b -> StoreCommitBatch_Validate b = StatusOK ->
  prepared_key_ok b prepared_key -> sizes_ok b -> EstimateCommitBatchBytes b < SIZE_MAX ->
  commit_ops b prepared_key commit_seq = Ok ops ->
  GetDataSize cf_id ops <= EstimateCommitBatchBytes b.
Proof.
  intros Hcf Ht Hv Hk Hs He Hops.
  pose proof (estimate_exact b Hs He).
  pose proof (commit_ops_size cf_id Hcf b prepared_key commit_seq ops
    (proj1 (StoreCommitBatch_Validate_OK b Ht) Hv) Hk Hops). lia.
Qed.

Lemma EstimateCommitBatchBytes_bounds_witness :
  exists ops, commit_ops sample_write None 7 = Ok ops /\
    GetDataSize sample_cf_id ops <= EstimateCommitBatchBytes sample_write.
Proof.
  eexists. split; [vm_compute; reflexivity|].
  apply (EstimateCommitBatchBytes_bounds sample_cf_id sample_write None 7).
  - apply sample_cf_id_small.
  - apply prepared_batch_typed, sample_write_typed.
  - vm_compute. reflexivity.
  - intros k Hk. discriminate Hk.
  - exact sample_write_sizes.
  - vm_compute. reflexivity.
  - vm_compute. reflexivity.
Defined.

(** C32: a commit that can succeed does.  A valid batch of a new transaction that has
    no conflict, whose estimate is within the byte limit of at most 2 MiB and whose
    prepared record, if it has one, is in place, is committed at the next sequence
    once the engine writes it: neither the encoders nor the check of the real size
    can refuse it. *)
Theorem CommitDirect_succeeds cf_id outcome ledger events cs b prepared_key :
  (forall cf, 0 < cf_id cf < 128) ->
  commit_inv ledger events cs -> prepared_typed b ->
  StoreCommitBatch_Validate b = StatusOK -> sizes_ok b ->
  EstimateCommitBatchBytes b <= group_commit_max_batch_bytes cs ->
  group_commit_max_batch_bytes cs <= 2 * 1024 * 1024 ->
  prepared_key_ok b prepared_key -> check_prepared cs b prepared_key = Ok tt ->
  (forall s b', (s, b') ∈ ledger -> txn_id b' <> txn_id b) ->
  visible_seq (cs_impl cs) < U64_MAX -> admissible events (visible_seq (cs_impl cs)) b ->
  write_status outcome = rocks_ok ->
  exists cs', CommitDirect cf_id outcome b prepared_key cs
    = (Ok (mkStoreCommitResult (visible_seq (cs_impl cs) + 1) (system_hlc b)), cs').
Proof. apply CommitDirect_succeeds_OK. Qed.

Lemma CommitDirect_succeeds_witness :
  exists cs', CommitDirect sample_cf_id sample_written sample_write None sample_commit_store
    = (Ok (mkStoreCommitResult 7 1000), cs').
Proof.
  apply (CommitDirect_succeeds sample_cf_id sample_written [] sample_events
           sample_commit_store sample_write None).
  - apply sample_cf_id_small.
  - exact sample_commit_inv.
  - exact sample_write_typed.
  - vm_compute. reflexivity.
  - exact sample_write_sizes.
  - vm_compute. discriminate.
  - vm_compute. discriminate.
  - intros k Hk. discriminate Hk.
  - reflexivity.
  - intros s b H. by apply not_elem_of_nil in H.
  - vm_compute. reflexivity.
  - destruct (validate_dependencies_admissible sample_events sample_store sample_write)
      as (valid & c & E & _ & Hadm);
      [exact sample_store_ok|exact sample_write_typed| |].
    { apply StoreCommitBatch_Validate_OK; [apply prepared_batch_typed, sample_write_typed|].
      vm_compute. reflexivity. }
    apply Hadm; [|vm_compute; reflexivity].
    apply (f_equal fst) in E. vm_compute in E. by rewrite <- E.
  - reflexivity.
Defined.
