(* ===== verification/Transaction.v ===== *)
(** * Transaction: client transactions

    Models [Transaction] of [src/kernel/transaction.cc] with the dependencies it
    captures ([src/kernel/temporal_validation.cc]) and the canonical order of its
    mutations ([src/kernel/transaction_mutation.h]): reads at the snapshot that are
    recorded when the transaction is strict, staged writes, and the commit.

    An operation is a function of the transaction and of the database as the call
    finds it: whether it is open, its catalog of properties and the identity filter of
    its store.  A failed operation may have recorded a read before it failed, so the
    transaction is returned with the error.  A moved-from handle cannot be expressed.
    The snapshot is there as long as the transaction is not terminal; [Finish] drops
    it.  On the way to the store the commit pipeline queues the batch and groups it
    with others; the batch is handed to [CommitDirect] here, to which [Epoch] proves
    the decision and write of a group equal. *)

From S2P Require Import Prelude Status Crc32c Wire Value Fact FactCodec CommitBatch.
From S2P Require Import Frame MetaCodec PreparedCodec GroupCommit Bloom RecentWrites.
From S2P Require Import ValidationCache Accelerators Temporal FactStore Conflict Scan.
From S2P Require Import WriteBatch Commit GroupedCommit CommitSize.

(** ** State *)

Inductive IsolationLevel := kSnapshot | kStrict.

#[export] Instance IsolationLevel_eq_dec : EqDecision IsolationLevel.
Proof. solve_decision. Defined.

(** [MutationKey]: part, family, property, entity and valid time. *)
Definition MutationKey : Type := Z * Z * Z * Z * Z.

Definition MutationKey_of (m : PendingFactMutation) : MutationKey :=
  let r := mutation_ref m in
  (ref_part_id r, FactFamily_to_u8 (ref_family r), ref_property_id r, ref_entity_id r,
   mutation_valid_from m).

Record TransactionState := mkTransactionState {
  t_isolation : IsolationLevel;
  t_snapshot : StoreSnapshot;
  t_txn_id : Z;
  t_mutations : list PendingFactMutation;
  t_edge_identities : list EdgeIdentity;
  t_strict_reads : list StrictReadDependency;
  t_mutation_keys : gset MutationKey;
  t_property_definitions : gmap Z PropertyDefinition;
  t_terminal : bool
}.

Definition with_reads (reads : list StrictReadDependency) (t : TransactionState)
  : TransactionState :=
  mkTransactionState (t_isolation t) (t_snapshot t) (t_txn_id t) (t_mutations t)
    (t_edge_identities t) reads (t_mutation_keys t) (t_property_definitions t) (t_terminal t).

Definition with_staged (mutations : list PendingFactMutation) (keys : gset MutationKey)
    (t : TransactionState) : TransactionState :=
  mkTransactionState (t_isolation t) (t_snapshot t) (t_txn_id t) mutations
    (t_edge_identities t) (t_strict_reads t) keys (t_property_definitions t) (t_terminal t).

Definition with_identities (identities : list EdgeIdentity) (t : TransactionState)
  : TransactionState :=
  mkTransactionState (t_isolation t) (t_snapshot t) (t_txn_id t) (t_mutations t)
    identities (t_strict_reads t) (t_mutation_keys t) (t_property_definitions t) (t_terminal t).

Definition with_definitions (definitions : gmap Z PropertyDefinition) (t : TransactionState)
  : TransactionState :=
  mkTransactionState (t_isolation t) (t_snapshot t) (t_txn_id t) (t_mutations t)
    (t_edge_identities t) (t_strict_reads t) (t_mutation_keys t) definitions (t_terminal t).

Definition Finish (t : TransactionState) : TransactionState :=
  mkTransactionState (t_isolation t) (t_snapshot t) (t_txn_id t) (t_mutations t)
    (t_edge_identities t) (t_strict_reads t) (t_mutation_keys t) (t_property_definitions t) true.

(** The database as a call finds it. *)
Record DatabaseView := mkDatabaseView {
  closed : bool;
  closing : bool;
  view_schemas : option PropertySchemas;
  view_filter : option (FactRef -> bool)
}.

(** ** Operations that may fail and change the transaction *)

Definition Txn (A : Type) : Type := TransactionState -> StatusOr A * TransactionState.

Definition txn_ret {A} (a : A) : Txn A := fun t => (Ok a, t).

Definition txn_bind {A B} (m : Txn A) (k : A -> Txn B) : Txn B :=
  fun t => match m t with
           | (Ok a, t') => k a t'
           | (Fail s, t') => (Fail s, t')
           end.

Definition lift {A} (r : StatusOr A) : Txn A := fun t => (r, t).
Definition gets {A} (f : TransactionState -> StatusOr A) : Txn A := fun t => (f t, t).

Notation "x <~ m ; k" := (txn_bind m (fun x => k))
  (at level 20, m at level 100, k at level 200, only parsing) : cedar_scope.
Open Scope cedar_scope.

Definition CheckDatabaseOpen (db : DatabaseView) : StatusOr unit :=
  if closed db then Fail (InvalidArgument "transaction" "database is closed")
  else if closing db then
    Fail (ShutdownInProgress "transaction" "database close is in progress")
  else Ok tt.

(** The checks in front of every operation. *)
Definition enter (db : DatabaseView) : Txn unit :=
  gets (fun t =>
    if t_terminal t then Fail (InvalidArgument "transaction" "terminal transaction")
    else CheckDatabaseOpen db).

(** ** Dependencies *)

Definition StoreReadTemporalNeighborhood (filter : option (FactRef -> bool))
    (snapshot : StoreSnapshot) (ref : FactRef) (valid_time : Z)
  : StatusOr TemporalNeighborhood :=
  if negb (snapshot_owned snapshot) then
    Fail (InvalidArgument "temporal neighborhood" "snapshot belongs to another store")
  else ReadTemporalNeighborhood filter (snapshot_facts snapshot) ref valid_time
         (snapshot_commit_seq snapshot).

Definition CaptureStrictReadDependency (filter : option (FactRef -> bool))
    (snapshot : StoreSnapshot) (ref : FactRef) (valid_time : Z)
  : StatusOr StrictReadDependency :=
  _ ← check (FactRef_Validate ref);
  n ← StoreReadTemporalNeighborhood filter snapshot ref valid_time;
  Ok (mkStrictReadDependency ref valid_time (snapshot_commit_seq snapshot)
        (observed n) (predecessor n) (successor n)).

Definition CaptureSnapshotWriteDependency (filter : option (FactRef -> bool))
    (snapshot : StoreSnapshot) (ref : FactRef) (valid_time : Z)
  : StatusOr SnapshotWriteDependency :=
  n ← StoreReadTemporalNeighborhood filter snapshot ref valid_time;
  Ok (mkSnapshotWriteDependency ref valid_time (predecessor n) (successor n)
        (snapshot_commit_seq snapshot)).

Definition DeriveSnapshotWriteDependencies (filter : option (FactRef -> bool))
    (snapshot : StoreSnapshot) (mutations : list PendingFactMutation)
  : StatusOr (list SnapshotWriteDependency) :=
  queries ← loop (fun queries m =>
      _ ← check (PendingFactMutation_Validate m);
      Ok (queries ++ [mkTemporalNeighborhoodQuery (mutation_ref m) (mutation_valid_from m)]))
    [] mutations;
  neighborhoods ← ReadTemporalNeighborhoods filter snapshot queries;
  Ok (zip_with (fun m n =>
        mkSnapshotWriteDependency (mutation_ref m) (mutation_valid_from m)
          (predecessor n) (successor n) (snapshot_commit_seq snapshot))
      mutations neighborhoods).

Definition CaptureStrictRead (db : DatabaseView) (ref : FactRef) (valid_time : Z)
  : Txn unit :=
  fun t =>
    if negb (bool_decide (t_isolation t = kStrict)) then (Ok tt, t)
    else if bool_decide (Exists (fun d => srd_ref d = ref /\ srd_valid_time d = valid_time)
                           (t_strict_reads t))
    then (Ok tt, t)
    else
      match CaptureStrictReadDependency (view_filter db) (t_snapshot t) ref valid_time with
      | Fail s => (Fail s, t)
      | Ok d => (Ok tt, with_reads (t_strict_reads t ++ [d]) t)
      end.

(** ** Reads *)

Definition store_read (ref : FactRef) (valid_time : Z) : Txn (option FactEvent) :=
  gets (fun t => Read (t_snapshot t) ref valid_time).

(** The read of a fact, recorded first. *)
Definition tracked_read (db : DatabaseView) (ref : FactRef) (valid_time : Z)
  : Txn (option FactEvent) :=
  _ <~ CaptureStrictRead db ref valid_time;
  store_read ref valid_time.

Definition source_ref (i : EdgeIdentity) : VertexRef :=
  mkVertexRef (source_part_id i) (source_vertex_id i).
Definition target_ref (i : EdgeIdentity) : VertexRef :=
  mkVertexRef (target_part_id i) (target_vertex_id i).

(** One endpoint of an edge. *)
Definition endpoint_visible (db : DatabaseView) (endpoint : VertexRef) (valid_time : Z)
  : Txn bool :=
  state <~ tracked_read db (EntityFact_Vertex endpoint) valid_time;
  txn_ret (bool_decide (is_Some state)).

Definition EdgeVisible (db : DatabaseView) (edge : EdgeRef) (valid_time : Z) : Txn bool :=
  edge_event <~ tracked_read db (EntityFact_Edge edge) valid_time;
  match edge_event with
  | None => txn_ret false
  | Some _ =>
      identity <~ gets (fun t => LookupEdgeIdentity (t_snapshot t) edge);
      match identity with
      | None => txn_ret false
      | Some i =>
          source <~ endpoint_visible db (source_ref i) valid_time;
          if source then endpoint_visible db (target_ref i) valid_time else txn_ret false
      end
  end.

(** The edge of a fact about one. *)
Definition edge_of_ref (ref : FactRef) : EdgeRef :=
  mkEdgeRef (ref_part_id ref) (ref_entity_id ref).

(** [Transaction::Exists] of the fact [entity.ref()]. *)
Definition Txn_Exists (db : DatabaseView) (entity : FactRef) (valid_time : Z) : Txn bool :=
  _ <~ enter db;
  if bool_decide (ref_family entity = kEdgeState) then
    EdgeVisible db (edge_of_ref entity) valid_time
  else
    event <~ tracked_read db entity valid_time;
    txn_ret (bool_decide (is_Some event)).

Definition Txn_Get (db : DatabaseView) (property : FactRef) (valid_time : Z)
  : Txn (option Value) :=
  _ <~ enter db;
  event <~ tracked_read db property valid_time;
  match event with
  | None => txn_ret None
  | Some e =>
      if bool_decide (ref_family property = kEdgeProperty) then
        visible <~ EdgeVisible db (edge_of_ref property) valid_time;
        txn_ret (if (visible : bool) then event_value e else None)
      else txn_ret (event_value e)
  end.

(** A scan of partition zero; strict transactions support exact reads only. *)
Definition Txn_Scan {St} (db : DatabaseView) (family : FactFamily) (property_id : Z)
    (visitor : Visitor St FactEvent) (state : St) (t : TransactionState) : St * Status :=
  if t_terminal t then (state, InvalidArgument "transaction" "terminal transaction")
  else
    with_value state (CheckDatabaseOpen db) (fun _ =>
      if bool_decide (t_isolation t = kStrict) then
        (state, UnsupportedSerializablePredicate "transaction"
                  "strict transactions support only exact reads")
      else Scan (t_snapshot t) (FactPrefix_Family 0 family property_id) no_bounds visitor state).

(** ** Staged writes *)

Definition Stage (m : PendingFactMutation) : Txn unit :=
  fun t =>
    match PendingFactMutation_Validate m with
    | StatusOK =>
        let '(inserted, keys) := emplace (MutationKey_of m) (t_mutation_keys t) in
        if negb inserted then
          (Fail (InvalidArgument "transaction" "duplicate fact mutation"),
           with_staged (t_mutations t) keys t)
        else (Ok tt, with_staged (t_mutations t ++ [m]) keys t)
    | s => (Fail s, t)
    end.

Definition StageEdge (identity : EdgeIdentity) (valid_time : Z) : Txn unit :=
  fun t =>
    match EdgeIdentity_Validate identity with
    | StatusOK =>
        let existing := list_find (fun i => edge_ref i = edge_ref identity)
                          (t_edge_identities t) in
        if match existing with
           | Some (_, i) => negb (bool_decide (i = identity))
           | None => false
           end
        then (Fail (IdentityConflict "transaction" "edge ID has a different identity"), t)
        else
          match Stage (mkPendingFactMutation (EntityFact_Edge (edge_ref identity))
                         valid_time kPut 0 None) t with
          | (Fail s, t) => (Fail s, t)
          | (Ok _, t) =>
              (Ok tt, match existing with
                      | None => with_identities (t_edge_identities t ++ [identity]) t
                      | Some _ => t
                      end)
          end
    | s => (Fail s, t)
    end.

(** The definition of a property, as the transaction resolved it first. *)
Definition resolve_definition (db : DatabaseView) (property_id : Z) : Txn PropertyDefinition :=
  fun t =>
    match t_property_definitions t !! property_id with
    | Some definition => (Ok definition, t)
    | None =>
        match LookupProperty (t_snapshot t) (view_schemas db) property_id 0 with
        | Fail s => (Fail s, t)
        | Ok None => (Fail (SchemaMismatch "transaction" "property is not registered"), t)
        | Ok (Some definition) =>
            (Ok definition,
             with_definitions (<[property_id := definition]> (t_property_definitions t)) t)
        end
    end.

Definition ResolveProperty (db : DatabaseView) (property : FactRef)
  : Txn PropertyDefinition :=
  definition <~ resolve_definition db (ref_property_id property);
  lift (
    let expected_kind :=
      if bool_decide (ref_family property = kVertexProperty) then kVertexEntity else kEdgeEntity in
    if negb (bool_decide (def_entity_kind definition = expected_kind)) then
      Fail (SchemaMismatch "transaction" "property entity kind differs")
    else Ok definition).

Definition Txn_Assert (db : DatabaseView) (entity : FactRef) (valid_time : Z) : Txn unit :=
  _ <~ enter db;
  Stage (mkPendingFactMutation entity valid_time kPut 0 None).

Definition Txn_AssertEdge (db : DatabaseView) (identity : EdgeIdentity) (valid_time : Z)
  : Txn unit :=
  _ <~ enter db;
  StageEdge identity valid_time.

Definition Txn_Retract (db : DatabaseView) (entity : FactRef) (valid_time : Z) : Txn unit :=
  _ <~ enter db;
  Stage (mkPendingFactMutation entity valid_time kDelete 0 None).

Definition Txn_Set (db : DatabaseView) (property : FactRef) (valid_time : Z) (value : Value)
  : Txn unit :=
  _ <~ enter db;
  definition <~ ResolveProperty db property;
  if negb (bool_decide (def_physical_type definition = value_type value)) then
    lift (Fail (SchemaMismatch "transaction" "property value type differs"))
  else
    Stage (mkPendingFactMutation property valid_time kPut (def_schema_epoch definition)
             (Some value)).

Definition Txn_Unset (db : DatabaseView) (property : FactRef) (valid_time : Z) : Txn unit :=
  _ <~ enter db;
  definition <~ ResolveProperty db property;
  Stage (mkPendingFactMutation property valid_time kDelete (def_schema_epoch definition) None).

Definition Txn_Rollback : Txn unit :=
  fun t =>
    if t_terminal t then (Fail (InvalidArgument "transaction" "terminal transaction"), t)
    else (Ok tt, Finish t).

(** ** Commit *)

Definition tuple3_less (a b : Z * Z * Z) : bool :=
  let '(a1, a2, a3) := a in
  let '(b1, b2, b3) := b in
  if a1 =? b1 then if a2 =? b2 then a3 <? b3 else a2 <? b2 else a1 <? b1.

Definition mutation_prefix (m : PendingFactMutation) : Z * Z * Z :=
  let r := mutation_ref m in
  (FactFamily_to_u8 (ref_family r), ref_property_id r, ref_entity_id r).

Definition CanonicalMutationLess (left right : PendingFactMutation) : bool :=
  if negb (bool_decide (mutation_prefix left = mutation_prefix right)) then
    tuple3_less (mutation_prefix left) (mutation_prefix right)
  else mutation_valid_from right <? mutation_valid_from left.

Definition EndCommit (active_commit_calls : Z) : Z := active_commit_calls - 1.

(** [db] is what the first look finds, [db'] what the looks after the registration
    find: the database may have begun to close in between. *)
Definition BeginCommit (db db' : DatabaseView) (active_commit_calls : Z)
  : StatusOr unit * Z :=
  if closed db then
    (Fail (InvalidArgument "transaction" "database is closed"), active_commit_calls)
  else
    let active_commit_calls := active_commit_calls + 1 in
    if closing db' then
      (Fail (ShutdownInProgress "transaction" "database close is in progress"),
       EndCommit active_commit_calls)
    else if closed db' then
      (Fail (InvalidArgument "transaction" "database is closed"),
       EndCommit active_commit_calls)
    else (Ok tt, active_commit_calls).

Inductive CommitOutcome := outcome_committed | outcome_aborted | outcome_indeterminate.

Record CommitResult := mkCommitResult {
  cr_outcome : CommitOutcome;
  cr_commit_seq : Z;
  cr_txn_id : Z;
  cr_status : Status
}.

(** The commit pipeline: [admission] is what the queue answers, after its waits, to a
    batch within the byte limit. *)
Definition SubmitSyncCommit (cf_id : ColumnFamily -> Z) (outcome : WriteOutcome)
    (append_commit_max_batch_bytes : Z) (admission : Status) (b : StoreCommitBatch)
    (cs : CommitStore) : StatusOr StoreCommitResult * CommitStore :=
  if append_commit_max_batch_bytes <? EstimateCommitBatchBytes b then (Fail batch_too_large, cs)
  else
    match admission with
    | StatusOK => CommitDirect cf_id outcome b None cs
    | s => (Fail s, cs)
    end.

(** The staged vectors are moved into the batch. *)
Definition released (t : TransactionState) : TransactionState :=
  mkTransactionState (t_isolation t) (t_snapshot t) (t_txn_id t) [] [] []
    (t_mutation_keys t) (t_property_definitions t) (t_terminal t).

Definition sort_staged (t : TransactionState) : TransactionState :=
  with_staged (stable_sort CanonicalMutationLess (t_mutations t)) (t_mutation_keys t) t.

Definition commit_batch (t : TransactionState) (dependencies : list SnapshotWriteDependency)
  : StoreCommitBatch :=
  mkStoreCommitBatch (t_txn_id t) (t_txn_id t) (t_mutations t) (t_edge_identities t)
    dependencies (t_strict_reads t) true.

(** What [Commit] reports of the store's answer. *)
Definition commit_result (txn_id : Z) (committed : StatusOr StoreCommitResult)
  : CommitResult :=
  match committed with
  | Fail s =>
      mkCommitResult (if IsIndeterminate s || IsRecoveryRequired s
                      then outcome_indeterminate else outcome_aborted) 0 txn_id s
  | Ok r => mkCommitResult outcome_committed (result_commit_seq r) txn_id StatusOK
  end.

Definition Txn_Commit (db db' : DatabaseView)
    (submit : StoreCommitBatch -> StatusOr StoreCommitResult * CommitStore)
    (cs : CommitStore) (active_commit_calls : Z) (t : TransactionState)
  : StatusOr CommitResult * TransactionState * Z * CommitStore :=
  if t_terminal t then
    (Fail (InvalidArgument "transaction" "terminal transaction"), t, active_commit_calls, cs)
  else
    match BeginCommit db db' active_commit_calls with
    | (Fail s, calls) => (Fail s, t, calls, cs)
    | (Ok _, calls) =>
        let t := sort_staged t in
        match DeriveSnapshotWriteDependencies (view_filter db') (t_snapshot t) (t_mutations t) with
        | Fail s =>
            (Ok (mkCommitResult outcome_aborted 0 (t_txn_id t) s), Finish t, EndCommit calls, cs)
        | Ok dependencies =>
            let '(committed, cs) := submit (commit_batch t dependencies) in
            (Ok (commit_result (t_txn_id t) committed), Finish (released t),
             EndCommit calls, cs)
        end
    end.

(** [Database::BeginTransaction]: [txn_id] is the transaction ID that the store hands
    out and [snapshot] its current snapshot. *)
Definition BeginTransaction (db : DatabaseView) (isolation : IsolationLevel)
    (txn_id : StatusOr Z) (snapshot : StatusOr StoreSnapshot) : StatusOr TransactionState :=
  if closed db then Fail (InvalidArgument "database" "database is closed")
  else if closing db then
    Fail (ShutdownInProgress "database" "database close is in progress")
  else
    txn_id ← txn_id;
    snapshot ← snapshot;
    Ok (mkTransactionState isolation snapshot txn_id [] [] [] ∅ ∅ false).

(** ** Snapshot reads *)

(** [EdgeVisibleAt] of [src/kernel/snapshot.cc], the same filter for plain snapshots. *)
Definition EdgeVisibleAt (snapshot : StoreSnapshot) (edge : EdgeRef) (valid_time : Z)
  : StatusOr bool :=
  state ← Read snapshot (EntityFact_Edge edge) valid_time;
  match state with
  | None => Ok false
  | Some e =>
      identity ← LookupEdgeIdentity_observed snapshot edge e;
      match identity with
      | None => Ok false
      | Some i =>
          source ← Read snapshot (EntityFact_Vertex (source_ref i)) valid_time;
          if negb (bool_decide (is_Some source)) then Ok false
          else
            target ← Read snapshot (EntityFact_Vertex (target_ref i)) valid_time;
            Ok (bool_decide (is_Some target))
      end
  end.

(** ** Specification *)

(** What the staged vectors of a transaction hold. *)
Record staged_ok (t : TransactionState) : Prop := {
  staged_valid : Forall (fun m => PendingFactMutation_Validate m = StatusOK) (t_mutations t);
  staged_typed : Forall mutation_typed (t_mutations t);
  staged_distinct :
    NoDup ((fun m => (mutation_ref m, mutation_valid_from m)) <$> t_mutations t);
  staged_keys : t_mutation_keys t = list_to_set (MutationKey_of <$> t_mutations t);
  identities_valid :
    Forall (fun i => EdgeIdentity_Validate i = StatusOK /\ identity_typed i /\
              exists m, m ∈ t_mutations t /\ mutation_ref m = EntityFact_Edge (edge_ref i) /\
                        mutation_operation m = kPut) (t_edge_identities t);
  identities_distinct : NoDup (edge_ref <$> t_edge_identities t);
  definitions_typed :
    map_Forall (fun _ d => uint 32 (def_schema_epoch d)) (t_property_definitions t)
}.

Definition catalog_typed (db : DatabaseView) : Prop :=
  forall schemas property epochs d, view_schemas db = Some schemas ->
    schemas !! property = Some epochs -> d ∈ epochs -> uint 32 (def_schema_epoch d).

(** A snapshot of a store whose facts are [events]: it shows those up to its sequence,
    and the identity filter covers what it holds. *)
Definition reads_from (events : list FactEvent) (db : DatabaseView)
    (snapshot : StoreSnapshot) : Prop :=
  snapshot_owned snapshot = true /\ 0 <= snapshot_commit_seq snapshot < U64_MAX /\
  exists held, represents (snapshot_facts snapshot) held /\
    filter_sound (view_filter db) held /\
    forall e, event_commit_seq e <= snapshot_commit_seq snapshot -> e ∈ held <-> e ∈ events.

(** A recorded read is what the history shows at the snapshot. *)
Definition read_recorded (events : list FactEvent) (snapshot_seq : Z)
    (d : StrictReadDependency) : Prop :=
  strict_read_ok d /\ srd_snapshot_seq d = snapshot_seq /\
  strict_view events d snapshot_seq
    (mkTemporalNeighborhood (srd_observed_event d) (srd_predecessor d) (srd_successor d)).

Record reads_ok (events : list FactEvent) (t : TransactionState) : Prop := {
  reads_recorded :
    Forall (read_recorded events (snapshot_commit_seq (t_snapshot t))) (t_strict_reads t);
  reads_distinct : NoDup ((fun d => (srd_ref d, srd_valid_time d)) <$> t_strict_reads t)
}.

(** Staging leaves the reads alone. *)
Definition same_reads (t t' : TransactionState) : Prop :=
  t_isolation t' = t_isolation t /\ t_snapshot t' = t_snapshot t /\
  t_txn_id t' = t_txn_id t /\ t_strict_reads t' = t_strict_reads t /\
  t_terminal t' = t_terminal t.

Definition stages {A} (m : Txn A) (Q : A -> Prop) : Prop :=
  forall t r t', staged_ok t -> m t = (r, t') ->
    (staged_ok t' /\ same_reads t t') /\ forall a, r = Ok a -> Q a.

(** The arguments of a call about a fact. *)
Definition property_typed (property : FactRef) (valid_time : Z) : Prop :=
  ref_typed property /\ uint 64 valid_time.

(** ** Staging *)

Lemma FactFamily_to_u8_known a b :
  IsKnownFamily a = true -> IsKnownFamily b = true ->
  FactFamily_to_u8 a = FactFamily_to_u8 b -> a = b.
Proof. by destruct a, b. Qed.

Lemma mutation_known m :
  PendingFactMutation_Validate m = StatusOK -> IsKnownFamily (ref_family (mutation_ref m)) = true.
Proof.
  unfold PendingFactMutation_Validate. destruct (ValidateMutation _ _ _ _) eqn:E; [|done].
  by apply ValidateMutation_OK in E as [[? _]%FactRef_Validate_OK _].
Qed.

Lemma MutationKey_of_inj a b :
  PendingFactMutation_Validate a = StatusOK -> PendingFactMutation_Validate b = StatusOK ->
  MutationKey_of a = MutationKey_of b ->
  (mutation_ref a, mutation_valid_from a) = (mutation_ref b, mutation_valid_from b).
Proof.
  intros Ha%mutation_known Hb%mutation_known [= E1 E2 E3 E4 E5].
  apply FactFamily_to_u8_known in E2; [|done..].
  destruct (mutation_ref a), (mutation_ref b). cbn in *. congruence.
Qed.

Lemma Stage_OK m t r t' :
  staged_ok t -> mutation_typed m -> Stage m t = (r, t') ->
  (t' = t /\ exists s, r = Fail s) \/
  (r = Ok tt /\ PendingFactMutation_Validate m = StatusOK /\
   t' = with_staged (t_mutations t ++ [m]) ({[MutationKey_of m]} ∪ t_mutation_keys t) t /\
   staged_ok t').
Proof.
  intros [Hv Ht Hd Hk Hi Hid Hdef] Hm. unfold Stage, emplace.
  destruct (PendingFactMutation_Validate m) eqn:Hval; [|by intros [= <- <-]; eauto].
  case_bool_decide as Hin; cbn; intros [= <- <-]; [right|left].
  - split_and!; try done. constructor; cbn; try done.
    + apply Forall_app. by rewrite Forall_singleton.
    + apply Forall_app. by rewrite Forall_singleton.
    + rewrite fmap_app. apply NoDup_app. split_and!; [done| |apply NoDup_singleton].
      intros p Hp ->%list_elem_of_singleton. apply Hin. rewrite Hk.
      apply list_elem_of_fmap in Hp as (m' & [= E1 E2] & Hm'). apply elem_of_list_to_set.
      apply list_elem_of_fmap. exists m'. split; [|done]. unfold MutationKey_of. by rewrite E1, E2.
    + rewrite fmap_app, list_to_set_app_L, Hk. cbn. set_solver.
    + eapply Forall_impl; [exact Hi|]. intros i (? & ? & m' & ? & ?). split_and!; try done.
      exists m'. by split; [apply elem_of_app; left|].
  - split; [|by eexists].
    assert ({[MutationKey_of m]} ∪ t_mutation_keys t = t_mutation_keys t) as ->.
    { apply subseteq_union_1_L, singleton_subseteq_l. by destruct (decide (MutationKey_of m ∈ t_mutation_keys t)). }
    by destruct t.
Qed.

Lemma same_reads_refl t : same_reads t t.
Proof. done. Qed.

Lemma Stage_stages m : mutation_typed m -> stages (Stage m) (fun _ => True).
Proof.
  intros Hm t r t' Hok Hst.
  by apply Stage_OK in Hst as [[-> _]|(_ & _ & -> & ?)].
Qed.

Lemma stages_bind {A B} (m : Txn A) (k : A -> Txn B) Q R :
  stages m Q -> (forall a, Q a -> stages (k a) R) -> stages (txn_bind m k) R.
Proof.
  intros Hm Hk t r t' Hok. unfold txn_bind. destruct (m t) as [[a|s] t1] eqn:E.
  - intros E2. destruct (Hm _ _ _ Hok E) as [[Hok1 (? & ? & ? & ? & ?)] Ha].
    destruct (Hk a (Ha a eq_refl) _ _ _ Hok1 E2) as [[? (? & ? & ? & ? & ?)] ?].
    split; [|done]. split; [done|]. unfold same_reads. split_and!; congruence.
  - intros [= <- <-]. by split; [apply (Hm _ _ _ Hok E)|].
Qed.

Lemma stages_gets {A} (f : TransactionState -> StatusOr A) (Q : A -> Prop) :
  (forall t a, f t = Ok a -> Q a) -> stages (gets f) Q.
Proof. intros H t r t' Hok [= <- <-]. split; [by split; [|apply same_reads_refl]|]. apply H. Qed.

Lemma stages_lift {A} (r : StatusOr A) (Q : A -> Prop) :
  (forall a, r = Ok a -> Q a) -> stages (lift r) Q.
Proof. intros H. apply (stages_gets (fun _ => r)). by intros _. Qed.

Lemma edge_assertion_typed i vt :
  identity_typed i -> uint 64 vt ->
  mutation_typed (mkPendingFactMutation (EntityFact_Edge (edge_ref i)) vt kPut 0 None).
Proof.
  intros (? & ? & ? & ? & ? & ? & ?) ?. unfold mutation_typed, ref_typed, uint in *. cbn.
  split_and!; lia || done.
Qed.

Lemma StageEdge_stages i vt : identity_typed i -> uint 64 vt -> stages (StageEdge i vt) (fun _ => True).
Proof.
  intros Hi Hvt t r t' Hok. unfold StageEdge.
  destruct (EdgeIdentity_Validate i) eqn:Hval; [|by intros [= <- <-]].
  match goal with |- (if ?b then _ else _) = _ -> _ => destruct b eqn:Hsame end;
    [by intros [= <- <-]|].
  destruct (Stage _ t) as [r1 t1] eqn:Hst.
  apply Stage_OK in Hst as [[-> [s ->]]|(-> & _ & Et & Hok1)];
    [by intros [= <- <-]| |done|by apply edge_assertion_typed].
  intros [= <- <-]. destruct (list_find _ _) as [[j i']|] eqn:Hfind; subst t1; [done|].
  split; [|done]. split; [|done]. destruct Hok1 as [Hv Ht Hd Hk Hids Hid Hdef]. cbn in *.
  constructor; cbn; try done.
  - apply Forall_app. split; [done|]. constructor; [|done]. split_and!; try done.
    eexists. split; [apply elem_of_app; right; by apply list_elem_of_singleton|done].
  - rewrite fmap_app. apply NoDup_app. split_and!; [done| |apply NoDup_singleton].
    intros e He ->%list_elem_of_singleton. apply list_elem_of_fmap in He as (i' & E & Hi').
    apply list_find_None in Hfind. rewrite Forall_forall in Hfind. by apply (Hfind i').
Qed.

(** The definition a property resolves to comes from the catalog. *)
Lemma LookupProperty_elem snapshot catalog property epoch d :
  LookupProperty snapshot catalog property epoch = Ok (Some d) ->
  exists schemas epochs, catalog = Some schemas /\ schemas !! property = Some epochs /\ d ∈ epochs.
Proof.
  unfold LookupProperty, LookupPropertyInSchemas. repeat case_match; intros [= E]; try done.
  - do 2 eexists. split_and!; try done. by apply last_Some_elem_of.
  - do 2 eexists. split_and!; try done. by eapply list_elem_of_lookup_2.
Qed.

Lemma resolve_definition_stages db property :
  catalog_typed db ->
  stages (resolve_definition db property) (fun d => uint 32 (def_schema_epoch d)).
Proof.
  intros Hcat t r t' Hok. unfold resolve_definition.
  destruct (t_property_definitions t !! property) as [d|] eqn:Ed.
  { intros [= <- <-]. split; [done|]. intros ? [= <-].
    exact (definitions_typed _ Hok _ _ Ed). }
  destruct (LookupProperty _ _ _ _) as [[d|]|s] eqn:El; intros [= <- <-]; try done.
  apply LookupProperty_elem in El as (schemas & epochs & Hs & Hp & Hd).
  pose proof (Hcat _ _ _ _ Hs Hp Hd) as Hu. split; [|by intros ? [= <-]].
  split; [|done]. destruct Hok as [? ? ? ? ? ? Hdef]. constructor; try done. cbn.
  by apply map_Forall_insert_2.
Qed.

Lemma ResolveProperty_stages db property :
  catalog_typed db ->
  stages (ResolveProperty db property) (fun d => uint 32 (def_schema_epoch d)).
Proof.
  intros Hcat. eapply stages_bind; [by apply resolve_definition_stages|].
  intros d Hd. apply stages_lift. intros a. cbv zeta. destruct (negb _); [done|]. by intros [= <-].
Qed.

Lemma enter_stages db : stages (enter db) (fun _ => True).
Proof. by apply stages_gets. Qed.

(** ** Writes *)

Ltac stages_step :=
  lazymatch goal with
  | |- stages (txn_bind (enter _) _) _ =>
      eapply stages_bind; [apply enter_stages|intros _ _]
  | |- stages (txn_bind (ResolveProperty _ _) _) _ =>
      eapply stages_bind; [by apply ResolveProperty_stages|intros ? ?]
  | |- stages (Stage _) _ => apply Stage_stages
  | |- stages (lift _) _ => by apply stages_lift
  | |- mutation_typed _ =>
      unfold mutation_typed; cbn; split_and!; first [done | unfold uint; lia]
  end.

Lemma Txn_Assert_stages db entity vt :
  property_typed entity vt -> stages (Txn_Assert db entity vt) (fun _ => True).
Proof. unfold Txn_Assert. intros []. repeat stages_step. Qed.

Lemma Txn_Retract_stages db entity vt :
  property_typed entity vt -> stages (Txn_Retract db entity vt) (fun _ => True).
Proof. unfold Txn_Retract. intros []. repeat stages_step. Qed.

Lemma Txn_AssertEdge_stages db i vt :
  identity_typed i -> uint 64 vt -> stages (Txn_AssertEdge db i vt) (fun _ => True).
Proof. unfold Txn_AssertEdge. intros Hi Hvt. stages_step. by apply StageEdge_stages. Qed.

Lemma Txn_Set_stages db property vt value :
  catalog_typed db -> property_typed property vt -> value_wf value ->
  stages (Txn_Set db property vt value) (fun _ => True).
Proof. unfold Txn_Set. intros ? [] ?. do 2 stages_step. case_match; repeat stages_step. Qed.

Lemma Txn_Unset_stages db property vt :
  catalog_typed db -> property_typed property vt ->
  stages (Txn_Unset db property vt) (fun _ => True).
Proof. unfold Txn_Unset. intros ? []. repeat stages_step. Qed.

(** ** Derived dependencies *)

Lemma loop_snoc {A B} (body : list B -> A -> StatusOr (list B)) (f : A -> B) l acc :
  (forall acc a, a ∈ l -> body acc a = Ok (acc ++ [f a])) -> loop body acc l = Ok (acc ++ (f <$> l)).
Proof.
  revert acc. induction l as [|a l IH]; intros acc H; cbn; [by rewrite app_nil_r|].
  rewrite H by by left. cbn [mbind StatusOr_bind]. rewrite IH by (intros; apply H; by right).
  by rewrite <- app_assoc.
Qed.

(** The batched derivation captures for every mutation what a capture of its own does. *)
Lemma Derive_captures filter S ms (f : PendingFactMutation -> SnapshotWriteDependency) :
  (forall m, m ∈ ms -> PendingFactMutation_Validate m = StatusOK /\
     CaptureSnapshotWriteDependency filter S (mutation_ref m) (mutation_valid_from m) = Ok (f m)) ->
  DeriveSnapshotWriteDependencies filter S ms = Ok (f <$> ms).
Proof.
  intros H. unfold DeriveSnapshotWriteDependencies.
  set (query m := mkTemporalNeighborhoodQuery (mutation_ref m) (mutation_valid_from m)).
  set (answer q := match ReadTemporalNeighborhood filter (snapshot_facts S) (query_ref q)
         (query_valid_time q) (snapshot_commit_seq S) with
       | Ok n => n | Fail _ => mkTemporalNeighborhood None None None end).
  rewrite (loop_snoc _ query) by by intros acc m [-> _]%H. cbn [mbind StatusOr_bind app].
  assert (forall m, m ∈ ms -> snapshot_owned S = true /\
    ReadTemporalNeighborhood filter (snapshot_facts S) (mutation_ref m) (mutation_valid_from m)
      (snapshot_commit_seq S) = Ok (answer (query m)) /\
    f m = mkSnapshotWriteDependency (mutation_ref m) (mutation_valid_from m)
            (predecessor (answer (query m))) (successor (answer (query m)))
            (snapshot_commit_seq S)) as Ha.
  { intros m [_ Hm]%H. unfold CaptureSnapshotWriteDependency, StoreReadTemporalNeighborhood in Hm.
    destruct (snapshot_owned S); [|done]. apply bind_Ok in Hm as (n & Hn & Hf%Ok_inj).
    unfold answer. cbn [query_ref query_valid_time query]. cbn [negb] in Hn. by rewrite Hn. }
  destruct ms as [|m0 ms0]; [done|]. set (ms := m0 :: ms0) in *.
  rewrite (ReadTemporalNeighborhoods_OK _ _ _ answer).
  - cbn [mbind StatusOr_bind]. f_equal. clearbody ms. clear H.
    induction ms as [|m ms IH]; [done|]. cbn. destruct (Ha m) as (_ & _ & <-); [by left|].
    f_equal. apply IH. intros. apply Ha. by right.
  - by destruct (Ha m0) as (? & _); [left|].
  - intros q (m & -> & Hm)%list_elem_of_fmap. destruct (Ha m Hm) as (_ & ? & _).
    destruct (H m Hm) as [Hv _]. split; [by destruct (mutation_family m Hv)|done].
Qed.
