(* ===== verification/Serializable.v ===== *)
(** * Serializable: what transactions guarantee

    Theorems about the transactions of [Transaction] over the committed history: what a
    read answers, that a committed strict transaction read the state just before its
    own commit, that no write is lost, that the batch a transaction hands over is valid
    and that a transaction without contention commits. *)

From S2P Require Import Prelude Status Crc32c Wire Value Fact FactCodec CommitBatch.
From S2P Require Import Frame MetaCodec PreparedCodec GroupCommit Bloom RecentWrites.
From S2P Require Import ValidationCache Accelerators Temporal FactStore Conflict Scan.
From S2P Require Import WriteBatch Commit GroupedCommit CommitSize Transaction.

(** ** Specification *)

(** The state of a fact at a valid time, as of a commit sequence. *)
Definition state_at (events : list FactEvent) (seq : Z) (ref : FactRef) (vt : Z)
  : option FactEvent := present (effective (history events ref) seq vt).

(** An edge is there when it and both its ends are. *)
Definition edge_visible (events : list FactEvent) (seq : Z) (edge : EdgeRef) (vt : Z)
  : bool :=
  match state_at events seq (EntityFact_Edge edge) vt, stored_identity events edge with
  | Some _, Some i =>
      bool_decide (is_Some (state_at events seq (EntityFact_Vertex (source_ref i)) vt)) &&
      bool_decide (is_Some (state_at events seq (EntityFact_Vertex (target_ref i)) vt))
  | _, _ => false
  end.

Definition exists_at (events : list FactEvent) (entity : FactRef) (vt seq : Z)
  : StatusOr bool :=
  _ ← check (FactRef_Validate entity);
  Ok (if bool_decide (ref_family entity = kEdgeState)
      then edge_visible events seq (edge_of_ref entity) vt
      else bool_decide (is_Some (state_at events seq entity vt))).

Definition get_at (events : list FactEvent) (property : FactRef) (vt seq : Z)
  : StatusOr (option Value) :=
  _ ← check (FactRef_Validate property);
  Ok (e ← state_at events seq property vt;
      if bool_decide (ref_family property = kEdgeProperty)
         && negb (edge_visible events seq (edge_of_ref property) vt)
      then None else event_value e).

Definition identity_ref (edge : EdgeRef) : FactRef :=
  mkFactRef (edge_home_part_id edge) kEdgeIdentity 0 (edge_ref_id edge).

(** Identities are immutable and come with the first assertion of their edge. *)
Record identities_inv (events : list FactEvent) : Prop := {
  events_wf : forall e, e ∈ events -> event_typed e /\ FactEvent_Validate e = StatusOK;
  identity_first : forall e, e ∈ events -> ref_family (event_ref e) = kEdgeState ->
    event_operation e = kPut -> exists i, i ∈ events /\
      event_ref i = identity_ref (edge_of_ref (event_ref e)) /\
      event_commit_seq i <= event_commit_seq e;
  identity_unique : forall i j, i ∈ events -> j ∈ events ->
    ref_family (event_ref i) = kEdgeIdentity -> event_ref i = event_ref j ->
    event_edge_identity i = event_edge_identity j
}.

(** A recorded read shows at [visible] what it showed at the snapshot. *)
Definition read_stable (events : list FactEvent) (s visible : Z) (d : StrictReadDependency)
  : Prop :=
  state_at events visible (srd_ref d) (srd_valid_time d)
  = state_at events s (srd_ref d) (srd_valid_time d).

(** The operation answers as of the snapshot and records the reads that its answer
    rests on. *)
Definition answers_as {A} (events : list FactEvent) (m : Txn A) (t : TransactionState)
    (spec : Z -> StatusOr A) : Prop :=
  let s := snapshot_commit_seq (t_snapshot t) in
  exists reads, m t = (spec s, with_reads reads t) /\
    reads_ok events (with_reads reads t) /\ t_strict_reads t ⊆ reads /\
    (t_isolation t = kStrict -> forall visible,
       Forall (read_stable events s visible) reads -> spec visible = spec s).

(** A client: the calls it makes before it commits, and what they answer. *)
Inductive Call :=
| CallExists (entity : FactRef) (vt : Z)
| CallGet (property : FactRef) (vt : Z)
| CallScan (family : FactFamily) (property_id : Z)
| CallAssert (entity : FactRef) (vt : Z)
| CallAssertEdge (identity : EdgeIdentity) (vt : Z)
| CallRetract (entity : FactRef) (vt : Z)
| CallSet (property : FactRef) (vt : Z) (value : Value)
| CallUnset (property : FactRef) (vt : Z).

Inductive Answer :=
| AnswerBool (r : StatusOr bool)
| AnswerValue (r : StatusOr (option Value))
| AnswerEvents (r : list FactEvent * Status)
| AnswerDone (r : StatusOr unit).

Definition run_call (db : DatabaseView) (c : Call) (t : TransactionState)
  : Answer * TransactionState :=
  match c with
  | CallExists entity vt => prod_map AnswerBool id (Txn_Exists db entity vt t)
  | CallGet property vt => prod_map AnswerValue id (Txn_Get db property vt t)
  | CallScan family property =>
      (AnswerEvents (Txn_Scan db family property (fun seen e => (seen ++ [e], StatusOK)) [] t), t)
  | CallAssert entity vt => prod_map AnswerDone id (Txn_Assert db entity vt t)
  | CallAssertEdge i vt => prod_map AnswerDone id (Txn_AssertEdge db i vt t)
  | CallRetract entity vt => prod_map AnswerDone id (Txn_Retract db entity vt t)
  | CallSet property vt value => prod_map AnswerDone id (Txn_Set db property vt value t)
  | CallUnset property vt => prod_map AnswerDone id (Txn_Unset db property vt t)
  end.

(** Each call finds the database in a state of its own. *)
Fixpoint run (calls : list (DatabaseView * Call)) (t : TransactionState)
  : list Answer * TransactionState :=
  match calls with
  | [] => ([], t)
  | (db, c) :: calls =>
      let '(a, t) := run_call db c t in
      let '(answers, t) := run calls t in
      (a :: answers, t)
  end.

(** What the factories of [EntityFact] build. *)
Definition is_EntityFact (r : FactRef) : Prop :=
  (exists v, r = EntityFact_Vertex v) \/ (exists e, r = EntityFact_Edge e).

Definition call_typed (db : DatabaseView) (c : Call) : Prop :=
  match c with
  | CallExists r vt | CallAssert r vt | CallRetract r vt =>
      property_typed r vt /\ is_EntityFact r
  | CallGet r vt => property_typed r vt
  | CallScan _ _ => True
  | CallAssertEdge i vt => identity_typed i /\ uint 64 vt
  | CallSet r vt v => catalog_typed db /\ property_typed r vt /\ value_wf v
  | CallUnset r vt => catalog_typed db /\ property_typed r vt
  end.

(** What a call of a strict transaction says of the history at a sequence; a write says
    nothing. *)
Definition strict_answer (events : list FactEvent) (db : DatabaseView) (c : Call) (seq : Z)
  : option Answer :=
  match c with
  | CallExists entity vt =>
      Some (AnswerBool (_ ← CheckDatabaseOpen db; exists_at events entity vt seq))
  | CallGet property vt =>
      Some (AnswerValue (_ ← CheckDatabaseOpen db; get_at events property vt seq))
  | _ => None
  end.

(** A transaction before its commit. *)
Record txn_ok (events : list FactEvent) (t : TransactionState) : Prop := {
  ok_staged : staged_ok t;
  ok_reads : reads_ok events t;
  ok_active : t_terminal t = false
}.

(** What a call leaves alone: reads are only added. *)
Definition continues (t t' : TransactionState) : Prop :=
  t_isolation t' = t_isolation t /\ t_snapshot t' = t_snapshot t /\
  t_txn_id t' = t_txn_id t /\ t_strict_reads t ⊆ t_strict_reads t'.

(** The dependency of a staged write is what the history shows at the snapshot. *)
Definition write_recorded (events : list FactEvent) (snapshot_seq : Z)
    (m : PendingFactMutation) (d : SnapshotWriteDependency) : Prop :=
  let chain := history events (mutation_ref m) in
  swd_ref d = mutation_ref m /\ swd_valid_from d = mutation_valid_from m /\
  swd_snapshot_seq d = snapshot_seq /\
  nearest_before chain snapshot_seq (mutation_valid_from m) (swd_predecessor d) /\
  nearest_after chain snapshot_seq (mutation_valid_from m) (swd_successor d).

(** The commit pipeline on a store. *)
Definition submit (cf_id : ColumnFamily -> Z) (outcome : WriteOutcome) (limit : Z)
    (admission : Status) (cs : CommitStore) (b : StoreCommitBatch)
  : StatusOr StoreCommitResult * CommitStore :=
  SubmitSyncCommit cf_id outcome limit admission b cs.

(** What a client is given: a transaction on a snapshot of the store, and calls with
    arguments of their types. *)
Definition client_run (events : list FactEvent) (db : DatabaseView) (isolation : IsolationLevel)
    (id : Z) (S : StoreSnapshot) (calls : list (DatabaseView * Call)) (answers : list Answer)
    (t : TransactionState) : Prop :=
  exists t0, BeginTransaction db isolation (Ok id) (Ok S) = Ok t0 /\
    Forall (fun '(db, c) => reads_from events db S /\ call_typed db c) calls /\
    run calls t0 = (answers, t).

(** Nothing that the transaction read or writes has changed since its snapshot. *)
Definition uncontended (events : list FactEvent) (t : TransactionState) : Prop :=
  forall e, e ∈ events -> snapshot_commit_seq (t_snapshot t) < event_commit_seq e ->
    event_ref e ∉ mutation_ref <$> t_mutations t /\ event_ref e ∉ srd_ref <$> t_strict_reads t.

(** A client on the sample store. *)
Definition sample_view : DatabaseView := mkDatabaseView false false None None.
Definition sample_snapshot : StoreSnapshot := mkStoreSnapshot true 6 sample_cf.

Definition sample_calls : list (DatabaseView * Call) :=
  [(sample_view, CallGet sample_ref 15);
   (sample_view, CallAssert (EntityFact_Vertex (mkVertexRef 1 5)) 30);
   (sample_view, CallExists (EntityFact_Vertex (mkVertexRef 1 5)) 30);
   (sample_view, CallAssertEdge (mkEdgeIdentity 88 5 4 2 1 1 6) 20)].

Definition sample_begun : TransactionState :=
  mkTransactionState kStrict sample_snapshot 90 [] [] [] ∅ ∅ false.

Definition sample_client : list Answer * TransactionState := run sample_calls sample_begun.

Definition sample_commit : StatusOr CommitResult * TransactionState * Z * CommitStore :=
  Txn_Commit sample_view sample_view
    (submit sample_cf_id sample_written 4096 StatusOK sample_commit_store)
    sample_commit_store 0 sample_client.2.

(** An edge with its ends, of which the target is retracted from 50 on. *)
Definition edge_events : list FactEvent :=
  [mkFactEvent (EntityFact_Vertex (mkVertexRef 1 5)) 10 2 kPut 0 None None;
   mkFactEvent (identity_ref (mkEdgeRef 1 88)) 0 2 kPut 0 None
     (Some (mkEdgeIdentity 88 5 4 2 1 1 6));
   mkFactEvent (EntityFact_Edge (mkEdgeRef 1 88)) 10 2 kPut 0 None None;
   mkFactEvent (EntityFact_Vertex (mkVertexRef 6 4)) 50 3 kDelete 0 None None;
   mkFactEvent (EntityFact_Vertex (mkVertexRef 6 4)) 10 2 kPut 0 None None].

Definition edge_snapshot : StoreSnapshot := mkStoreSnapshot true 3 (encoded_cf edge_events).

(** ** Histories that agree up to a sequence *)

Lemma applies_seq s t e : applies s t e = true -> event_commit_seq e <= s.
Proof. unfold applies. intros [?%Z.leb_le _]%andb_true_iff. done. Qed.

Lemma effective_agree held events s t ref :
  distinct_versions (history held ref) ->
  (forall e, event_commit_seq e <= s -> e ∈ held <-> e ∈ events) ->
  effective (history events ref) s t = effective (history held ref) s t.
Proof.
  intros Hd Hin.
  assert (forall e, applies s t e = true -> e ∈ history held ref <-> e ∈ history events ref) as H.
  { intros e He%applies_seq. unfold history. rewrite !list_elem_of_filter, Hin by done. done. }
  destruct (effective (history events ref) s t) as [e|] eqn:E.
  - symmetry. apply effective_Some in E as (He & Ha & Hmax).
    apply effective_unique; [done|by apply H|done|].
    intros e' He' Ha'. apply Hmax; [by apply H|done].
  - symmetry. apply effective_None. intros e He.
    destruct (applies s t e) eqn:Ha; [|done].
    rewrite <- Ha. apply (proj1 (effective_None _ _ _) E). by apply H.
Qed.

Lemma history_agree held events s ref :
  (forall e, event_commit_seq e <= s -> e ∈ held <-> e ∈ events) ->
  forall e, event_commit_seq e <= s -> e ∈ history held ref <-> e ∈ history events ref.
Proof. intros H e He. unfold history. rewrite !list_elem_of_filter, H by done. done. Qed.

Lemma nearest_before_agree chain chain' s t o :
  (forall e, event_commit_seq e <= s -> e ∈ chain <-> e ∈ chain') ->
  nearest_before chain s t o -> nearest_before chain' s t o.
Proof.
  intros H. unfold nearest_before. destruct o as [p|].
  - intros (? & (e & ? & ? & ?) & Hall). split; [done|]. split.
    + exists e. by rewrite <- H.
    + intros e' He' ? ?. apply Hall; [by apply H|done..].
  - intros Hall e He ?. apply Hall; [by apply H|done].
Qed.

Lemma nearest_after_agree chain chain' s t o :
  (forall e, event_commit_seq e <= s -> e ∈ chain <-> e ∈ chain') ->
  nearest_after chain s t o -> nearest_after chain' s t o.
Proof.
  intros H. unfold nearest_after. destruct o as [p|].
  - intros (? & (e & ? & ? & ?) & Hall). split; [done|]. split.
    + exists e. by rewrite <- H.
    + intros e' He' ? ?. apply Hall; [by apply H|done..].
  - intros Hall e He ?. apply Hall; [by apply H|done].
Qed.

(** ** Identities *)

Lemma edge_state_key edge t :
  edge_key_ok edge -> uint 64 t -> key_ok (EntityFact_Edge edge) t U64_MAX.
Proof.
  intros (? & ? & ?) ?. unfold key_ok, ref_typed, uint, U64_MAX in *. cbn. split_and!; try lia.
  unfold FactRef_Validate. cbn. by rewrite (proj2 (Z.eqb_neq _ _)).
Qed.

Lemma identity_key edge : edge_key_ok edge -> key_ok (identity_ref edge) 0 U64_MAX.
Proof.
  intros (? & ? & ?). unfold key_ok, ref_typed, uint, U64_MAX in *. cbn. split_and!; try lia.
  unfold FactRef_Validate. cbn. by rewrite (proj2 (Z.eqb_neq _ _)).
Qed.

Lemma vertex_state_key part id t :
  uint 32 part -> uint 64 id -> id <> 0 -> uint 64 t ->
  key_ok (EntityFact_Vertex (mkVertexRef part id)) t U64_MAX.
Proof.
  intros. unfold key_ok, ref_typed, uint, U64_MAX in *. cbn. split_and!; try lia.
  unfold FactRef_Validate. cbn. by rewrite (proj2 (Z.eqb_neq _ _)).
Qed.

Section identities.

Context {events : list FactEvent}.
Hypothesis Hinv : identities_inv events.

Lemma identity_event_wf j edge :
  j ∈ events -> event_ref j = identity_ref edge ->
  event_valid_from j = 0 /\ event_operation j = kPut /\ uint 64 (event_commit_seq j) /\
  exists i, event_edge_identity j = Some i /\ edge_ref i = edge /\ identity_typed i /\
            EdgeIdentity_Validate i = StatusOK.
Proof.
  intros Hj Er. destruct (events_wf _ Hinv j Hj) as [Ht Hv].
  apply FactEvent_Validate_OK in Hv as (_ & _ & Hp). unfold identity_payload_ok in Hp.
  destruct Ht as (_ & _ & ? & _ & _ & Hti). destruct (event_edge_identity j) as [i|].
  - destruct Hp as (_ & ? & ? & _ & _ & Hedge & ?). split_and!; try done. exists i.
    split_and!; try done. rewrite Hedge, Er. by destruct edge.
  - by rewrite Er in Hp.
Qed.

(** Any identity fact of an edge shows at any sequence from its own on. *)
Lemma identity_state s j edge :
  j ∈ events -> event_ref j = identity_ref edge -> event_commit_seq j <= s ->
  exists j', state_at events s (identity_ref edge) 0 = Some j' /\
    j' ∈ events /\ event_ref j' = identity_ref edge.
Proof.
  intros Hj Er Hs. destruct (identity_event_wf j edge Hj Er) as (Hvf & _).
  unfold state_at. destruct (effective _ s 0) as [j'|] eqn:E.
  - apply effective_Some in E as ([Er' Hj']%list_elem_of_filter & _).
    exists j'. destruct (identity_event_wf j' edge Hj' Er') as (_ & Hop & _).
    cbn. by rewrite Hop.
  - exfalso. pose proof (proj1 (effective_None _ _ _) E j) as Hna.
    unfold history in Hna. rewrite list_elem_of_filter in Hna. specialize (Hna (conj Er Hj)).
    unfold applies in Hna. rewrite Hvf in Hna. apply andb_false_iff in Hna as [?|?]; lia.
Qed.

Lemma stored_identity_any j edge i :
  j ∈ events -> event_ref j = identity_ref edge -> event_edge_identity j = Some i ->
  stored_identity events edge = Some i /\ identity_typed i /\
  EdgeIdentity_Validate i = StatusOK /\ edge_ref i = edge.
Proof.
  intros Hj Er Ei. destruct (identity_event_wf j edge Hj Er) as (_ & _ & Hu & i' & Ei' & ? & ? & ?).
  rewrite Ei in Ei'. injection Ei' as <-. split_and!; try done.
  unfold stored_identity, latest_identity. fold (identity_ref edge).
  destruct (identity_state U64_MAX j edge Hj Er) as (j' & Ej' & Hj' & Er');
    [unfold uint, U64_MAX in *; lia|]. unfold state_at in Ej'. rewrite Ej'. cbn.
  by rewrite (identity_unique _ Hinv j' j), Ei; [|done|done|by rewrite Er'|congruence].
Qed.

(** An edge that shows has its identity from then on. *)
Lemma stored_identity_event s edge t e :
  state_at events s (EntityFact_Edge edge) t = Some e ->
  exists j i, j ∈ events /\ event_ref j = identity_ref edge /\
    event_commit_seq j <= s /\ event_edge_identity j = Some i.
Proof.
  unfold state_at, present. intros He. destruct (effective _ s t) as [e'|] eqn:E; [|done].
  case_bool_decide as Hop; [done|]. injection He as ->.
  apply effective_Some in E as ([Er Hin]%list_elem_of_filter & Ha%applies_seq & _).
  destruct (events_wf _ Hinv e Hin) as [_ (_ & Hm & _)%FactEvent_Validate_OK].
  apply ValidateMutation_OK in Hm as (_ & Hknown & _).
  destruct (identity_first _ Hinv e Hin) as (j & Hj & Ej & Hle).
  - by rewrite Er.
  - by destruct (event_operation e).
  - rewrite Er in Ej. destruct edge as [p n]. cbn in Ej.
    destruct (identity_event_wf j (mkEdgeRef p n) Hj Ej) as (_ & _ & _ & i & Ei & _).
    exists j, i. split_and!; try done. lia.
Qed.

End identities.

Section snapshot.

Context {events : list FactEvent} {db : DatabaseView} {S : StoreSnapshot}.
Hypothesis Hfrom : reads_from events db S.

Lemma snapshot_Read ref t :
  key_ok ref t U64_MAX -> Read S ref t = Ok (state_at events (snapshot_commit_seq S) ref t).
Proof.
  intros Hk. destruct Hfrom as (Ho & _ & held & Hrep & _ & Hin).
  rewrite (Read_events S held) by done. unfold state_at. do 2 f_equal. symmetry.
  apply effective_agree; [by eapply history_distinct|done].
Qed.

Lemma snapshot_neighborhood ref t :
  key_ok ref t U64_MAX ->
  exists n, StoreReadTemporalNeighborhood (view_filter db) S ref t = Ok n /\
    let s := snapshot_commit_seq S in
    observed n = effective (history events ref) s t /\
    nearest_before (history events ref) s t (predecessor n) /\
    nearest_after (history events ref) s t (successor n).
Proof.
  intros Hk. destruct Hfrom as (Ho & Hs & held & Hrep & Hflt & Hin).
  unfold StoreReadTemporalNeighborhood. rewrite Ho. cbn [negb].
  destruct (ReadTemporalNeighborhood_OK (view_filter db) (snapshot_facts S) held ref t
              (snapshot_commit_seq S)) as (n & E & Eo & Hb & Ha); [done..|lia|].
  exists n. split; [done|]. cbv zeta. rewrite Eo. split_and!.
  - symmetry. apply effective_agree; [by eapply history_distinct|done].
  - eapply nearest_before_agree; [by apply history_agree|done].
  - eapply nearest_after_agree; [by apply history_agree|done].
Qed.

Lemma capture_OK ref t :
  key_ok ref t U64_MAX ->
  exists d, CaptureStrictReadDependency (view_filter db) S ref t = Ok d /\
    srd_ref d = ref /\ srd_valid_time d = t /\
    read_recorded events (snapshot_commit_seq S) d.
Proof.
  intros Hk. destruct (snapshot_neighborhood ref t Hk) as (n & E & Hn).
  unfold CaptureStrictReadDependency. pose proof Hk as (_ & Hv & _). rewrite Hv, E. cbn.
  eexists. split; [done|]. do 2 (split; [done|]). split; [exact Hk|]. by split.
Qed.

(** The identity of an edge whose state the snapshot shows is the stored one. *)
Lemma snapshot_identity edge t e :
  identities_inv events -> edge_key_ok edge -> uint 64 t ->
  state_at events (snapshot_commit_seq S) (EntityFact_Edge edge) t = Some e ->
  exists i, LookupEdgeIdentity S edge = Ok (Some i) /\
    LookupEdgeIdentity_observed S edge e = Ok (Some i) /\
    stored_identity events edge = Some i /\
    identity_typed i /\ EdgeIdentity_Validate i = StatusOK.
Proof.
  intros Hinv Hedge Ht He.
  assert (key_ok (EntityFact_Edge edge) t U64_MAX) as Hk by by apply edge_state_key.
  pose proof (snapshot_Read _ _ Hk) as Hr. rewrite He in Hr.
  destruct Hfrom as (Ho & Hs & held & Hrep & Hflt & Hin).
  destruct (LookupEdgeIdentity_agree S held edge t e Hrep Hedge Ht Hr) as [-> ->].
  destruct (stored_identity_event Hinv _ edge t e He) as (j & i & Hj & Er & Hseq & Ei).
  destruct (stored_identity_any Hinv j edge i Hj Er Ei) as (Hst & Hti & Hvi & Hei).
  exists i. assert (ReadEdgeIdentity S edge = Ok (Some i)) as ->; [|by split_and!].
  unfold ReadEdgeIdentity.
  assert (key_ok (identity_ref edge) 0 U64_MAX) as Hk' by by apply identity_key.
  fold (identity_ref edge). rewrite (snapshot_Read _ _ Hk'). cbn [mbind StatusOr_bind].
  destruct (identity_state Hinv _ j edge Hj Er Hseq) as (j' & -> & Hj' & Er').
  cbn. rewrite (identity_unique _ Hinv j' j), Ei; [|done|done|by rewrite Er'|congruence].
  by rewrite bool_decide_true.
Qed.

End snapshot.

(** ** Reads of a transaction *)

Lemma with_reads_id t : with_reads (t_strict_reads t) t = t.
Proof. by destruct t. Qed.

Lemma answers_ext {A} events (m : Txn A) t spec spec' :
  answers_as events m t spec -> (forall seq, spec' seq = spec seq) -> answers_as events m t spec'.
Proof.
  intros (reads & E & Hok & Hsub & Hst) H. exists reads. rewrite H. split_and!; try done.
  intros Hs visible Hv. rewrite !H. by apply Hst.
Qed.

Lemma answers_bind {A B} events (m : Txn A) (k : A -> Txn B) t spec spec2 :
  answers_as events m t spec ->
  (forall reads a, reads_ok events (with_reads reads t) ->
     spec (snapshot_commit_seq (t_snapshot t)) = Ok a ->
     answers_as events (k a) (with_reads reads t) (spec2 a)) ->
  answers_as events (txn_bind m k) t (fun seq => a ← spec seq; spec2 a seq).
Proof.
  intros (reads & E & Hok & Hsub & Hst) Hk. unfold answers_as, txn_bind. rewrite E.
  destruct (spec _) as [a|s] eqn:Es.
  - destruct (Hk reads a Hok eq_refl) as (reads2 & E2 & Hok2 & Hsub2 & Hst2).
    exists reads2. cbn [mbind StatusOr_bind]. split_and!; [exact E2|exact Hok2|set_solver|].
    intros Hs visible Hv. rewrite Hst; [|done|].
    + cbn. by apply Hst2.
    + apply Forall_forall. intros d Hd. rewrite Forall_forall in Hv. by apply Hv, Hsub2.
  - exists reads. split_and!; try done. intros Hs visible Hv. by rewrite Hst.
Qed.

Lemma answers_pure {A} events t (f : TransactionState -> StatusOr A) r :
  reads_ok events t -> f t = r -> answers_as events (gets f) t (fun _ => r).
Proof.
  intros Hok E. exists (t_strict_reads t). rewrite with_reads_id. split_and!; try done.
  unfold gets. by rewrite E.
Qed.

Lemma answers_ret {A} events t (a : A) :
  reads_ok events t -> answers_as events (txn_ret a) t (fun _ => Ok a).
Proof. intros Hok. by apply (answers_pure events t (fun _ => Ok a)). Qed.

Lemma reads_ok_add events t d :
  reads_ok events t -> read_recorded events (snapshot_commit_seq (t_snapshot t)) d ->
  ~ Exists (fun d' => srd_ref d' = srd_ref d /\ srd_valid_time d' = srd_valid_time d)
      (t_strict_reads t) ->
  reads_ok events (with_reads (t_strict_reads t ++ [d]) t).
Proof.
  intros [Hr Hn] Hd Hnew. constructor; cbn.
  - apply Forall_app. by rewrite Forall_singleton.
  - rewrite fmap_app. apply NoDup_app. split_and!; [done| |apply NoDup_singleton].
    intros p Hp ->%list_elem_of_singleton. apply Hnew, Exists_exists.
    apply list_elem_of_fmap in Hp as (d' & [= E1 E2] & Hd'). by exists d'.
Qed.

Section reads.

Context {events : list FactEvent} {db : DatabaseView}.
Hypothesis Hinv : identities_inv events.

Lemma tracked_read_answers t ref vt :
  reads_ok events t -> reads_from events db (t_snapshot t) -> property_typed ref vt ->
  answers_as events (tracked_read db ref vt) t
    (fun seq => _ ← check (FactRef_Validate ref); Ok (state_at events seq ref vt)).
Proof.
  intros Hok Hfrom [Hr Hvt]. unfold tracked_read, txn_bind, CaptureStrictRead, store_read, gets.
  pose proof Hfrom as (Ho & _).
  destruct (FactRef_Validate ref) as [|c msg] eqn:Hval.
  2: { exists (t_strict_reads t). rewrite with_reads_id. split_and!; try done.
       unfold CaptureStrictReadDependency, Read. rewrite Hval.
       by destruct (negb _); [|destruct (bool_decide _)]; cbn; rewrite ?Ho. }
  assert (key_ok ref vt U64_MAX) as Hk by (split_and!; unfold uint, U64_MAX; lia || done).
  cbn [check mbind StatusOr_bind]. pose proof (snapshot_Read Hfrom ref vt Hk) as Hread.
  unfold answers_as. case_bool_decide as Hs; cbn [negb].
  2: { exists (t_strict_reads t). rewrite with_reads_id, Hread. by split_and!. }
  case_bool_decide as Hdup.
  - exists (t_strict_reads t). rewrite with_reads_id, Hread. split_and!; try done.
    intros _ visible Hst. apply Exists_exists in Hdup as (d & Hd & <- & <-). f_equal.
    rewrite Forall_forall in Hst. by apply Hst.
  - destruct (capture_OK Hfrom ref vt Hk) as (d & E & <- & <- & Hrec). rewrite E.
    exists (t_strict_reads t ++ [d]). cbn. rewrite Hread. split_and!; [done| |set_solver|].
    + by apply reads_ok_add.
    + intros _ visible [_ Hst]%Forall_app. f_equal. by inv Hst.
Qed.

Lemma endpoint_visible_answers t part id vt :
  reads_ok events t -> reads_from events db (t_snapshot t) ->
  uint 32 part -> uint 64 id -> id <> 0 -> uint 64 vt ->
  answers_as events (endpoint_visible db (mkVertexRef part id) vt) t
    (fun seq => Ok (bool_decide (is_Some
       (state_at events seq (EntityFact_Vertex (mkVertexRef part id)) vt)))).
Proof.
  intros Hok Hfrom Hp Hid Hnz Hvt.
  pose proof (vertex_state_key part id vt Hp Hid Hnz Hvt) as (Hr & Hv & _).
  eapply answers_ext; [eapply answers_bind; [by apply tracked_read_answers|]|].
  - intros reads a Hok' _. apply answers_ret, Hok'.
  - intros seq. rewrite Hv. done.
Qed.

Lemma EdgeVisible_answers t edge vt :
  reads_ok events t -> reads_from events db (t_snapshot t) ->
  uint 32 (edge_home_part_id edge) -> uint 64 (edge_ref_id edge) -> uint 64 vt ->
  answers_as events (EdgeVisible db edge vt) t
    (fun seq => _ ← check (FactRef_Validate (EntityFact_Edge edge));
                Ok (edge_visible events seq edge vt)).
Proof.
  intros Hok Hfrom Hp Hid Hvt.
  eapply answers_ext; [eapply (answers_bind _ _ _ _ _ (fun edge_event seq =>
    match edge_event, stored_identity events edge with
    | Some _, Some i => Ok (
      bool_decide (is_Some (state_at events seq (EntityFact_Vertex (source_ref i)) vt)) &&
      bool_decide (is_Some (state_at events seq (EntityFact_Vertex (target_ref i)) vt)))
    | _, _ => Ok false
    end)); [apply tracked_read_answers; try done|]|].
  - intros reads [e|] Hok' Ha; [|by apply answers_ret].
    destruct (FactRef_Validate _) eqn:Hval; [|done]. injection Ha as He.
    apply FactRef_Validate_OK in Hval as (_ & Hnz & _).
    destruct (snapshot_identity Hfrom edge vt e Hinv) as (i & Hl & _ & Hst & Hti & Hvi);
      [by split_and!|done|done|]. rewrite Hst.
    eapply answers_ext; [eapply (answers_bind _ _ _ _ _ (fun _ seq =>
        b ← Ok (bool_decide (is_Some
          (state_at events seq (EntityFact_Vertex (source_ref i)) vt)));
        if (b : bool) then
          Ok (bool_decide (is_Some (state_at events seq (EntityFact_Vertex (target_ref i)) vt)))
        else Ok false)); [apply (answers_pure _ _ _ (Ok (Some i)) Hok' Hl)|]|].
    + intros reads2 a Hok2 [= <-].
      destruct Hti as (_ & ? & ? & _ & _ & ? & ?). apply EdgeIdentity_Validate_OK in Hvi as (_ & ? & ? & _).
      eapply answers_bind; [by apply endpoint_visible_answers|].
      intros reads3 [] Hok3 _; [by apply endpoint_visible_answers|by apply answers_ret].
    + intros seq. cbn. by case_bool_decide.
  - intros seq. unfold edge_visible. destruct (FactRef_Validate _); [|done]. cbn.
    by repeat case_match.
Qed.

Lemma enter_answers t :
  reads_ok events t -> t_terminal t = false ->
  answers_as events (enter db) t (fun _ => CheckDatabaseOpen db).
Proof. intros Hok Hact. apply answers_pure; [done|]. by rewrite Hact. Qed.

Lemma Txn_Exists_answers t entity vt :
  reads_ok events t -> t_terminal t = false -> reads_from events db (t_snapshot t) ->
  property_typed entity vt -> is_EntityFact entity ->
  answers_as events (Txn_Exists db entity vt) t
    (fun seq => _ ← CheckDatabaseOpen db; exists_at events entity vt seq).
Proof.
  intros Hok Hact Hfrom Ht Hent. unfold Txn_Exists.
  apply (answers_bind _ _ _ _ _ (fun _ => exists_at events entity vt)); [by apply enter_answers|].
  intros reads [] Hok' _. unfold exists_at. destruct Hent as [[v ->]|[edge ->]].
  - rewrite bool_decide_false by done.
    eapply answers_ext; [eapply answers_bind; [by apply tracked_read_answers|]|].
    + intros reads' a Hok2 _. apply answers_ret, Hok2.
    + intros seq. by destruct (check _).
  - rewrite bool_decide_true by done. destruct edge as [p n]. cbn [edge_of_ref].
    destruct Ht as [(? & ? & ? & ?) ?]. by apply EdgeVisible_answers.
Qed.

Lemma Txn_Get_answers t property vt :
  reads_ok events t -> t_terminal t = false -> reads_from events db (t_snapshot t) ->
  property_typed property vt ->
  answers_as events (Txn_Get db property vt) t
    (fun seq => _ ← CheckDatabaseOpen db; get_at events property vt seq).
Proof.
  intros Hok Hact Hfrom Ht. unfold Txn_Get.
  apply (answers_bind _ _ _ _ _ (fun _ => get_at events property vt)); [by apply enter_answers|].
  intros reads [] Hok' _. unfold get_at.
  eapply answers_ext; [eapply (answers_bind _ _ _ _ _ (fun event seq =>
    Ok (e ← event;
        if bool_decide (ref_family property = kEdgeProperty)
           && negb (edge_visible events seq (edge_of_ref property) vt)
        then None else event_value e))); [by apply tracked_read_answers|]|].
  - intros reads2 [e|] Hok2 Ha; [|eapply answers_ext; [by apply answers_ret|done]].
    case_bool_decide as Hf; [|eapply answers_ext; [by apply answers_ret|done]].
    destruct (FactRef_Validate property) eqn:Hv; [|done].
    apply FactRef_Validate_OK in Hv as (_ & Hnz & _).
    destruct Ht as [(? & ? & ? & ?) ?].
    eapply answers_ext; [eapply (answers_bind _ _ _ _ _ (fun (visible : bool) _ =>
      Ok (if visible then event_value e else None))); [by apply EdgeVisible_answers|]|].
    + intros reads3 visible Hok3 _. by apply answers_ret.
    + intros seq.
      assert (FactRef_Validate (EntityFact_Edge (edge_of_ref property)) = StatusOK) as ->.
      { by apply FactRef_Validate_OK. }
      cbn. by destruct (edge_visible _ _ _ _).
  - intros seq. by destruct (check _).
Qed.

End reads.

(** ** Runs *)

Lemma stages_call {A} (m : Txn A) Q events t r t' :
  stages m Q -> txn_ok events t -> m t = (r, t') -> txn_ok events t' /\ continues t t'.
Proof.
  intros Hm [Hs [Hr Hd] Ha] E. destruct (Hm _ _ _ Hs E) as [[Hs' (E1 & E2 & E3 & E4 & E5)] _].
  split.
  - constructor; [done| |congruence]. by constructor; rewrite E4; [rewrite E2|].
  - unfold continues. rewrite E4. by split_and!.
Qed.

Lemma answers_call {A} events (m : Txn A) t spec r t' :
  answers_as events m t spec -> txn_ok events t -> m t = (r, t') ->
  (txn_ok events t' /\ continues t t') /\
  r = spec (snapshot_commit_seq (t_snapshot t)) /\
  (t_isolation t = kStrict -> forall visible,
     Forall (read_stable events (snapshot_commit_seq (t_snapshot t)) visible) (t_strict_reads t') ->
     r = spec visible).
Proof.
  intros (reads & E & Hok & Hsub & Hst) [Hs Hr Ha] E'. rewrite E in E'. injection E' as <- <-.
  split; [split; [|done]; constructor; [|done..]|].
  - destruct Hs. by constructor.
  - split; [done|]. intros Hi visible Hv. symmetry. by apply Hst.
Qed.

Lemma run_call_OK events db c t a t' :
  identities_inv events -> txn_ok events t -> reads_from events db (t_snapshot t) ->
  call_typed db c -> run_call db c t = (a, t') ->
  (txn_ok events t' /\ continues t t') /\
  (t_isolation t = kStrict -> forall visible a',
     Forall (read_stable events (snapshot_commit_seq (t_snapshot t)) visible) (t_strict_reads t') ->
     strict_answer events db c visible = Some a' -> a = a').
Proof.
  intros Hinv Hok Hfrom Ht Hrun. pose proof Hok as [_ Hr Ha].
  destruct c; cbn [run_call call_typed] in Hrun, Ht;
    try match type of Hrun with prod_map _ _ (?m t) = _ =>
      destruct (m t) as [r t1] eqn:E end;
    cbn [prod_map fst snd] in Hrun; injection Hrun as <- <-.
  - destruct Ht as [Ht He].
    pose proof (answers_call _ _ _ _ _ _ (Txn_Exists_answers Hinv _ _ _ Hr Ha Hfrom Ht He) Hok E)
      as (? & _ & H). split; [done|]. intros Hs visible a' Hv [= <-]. f_equal. by apply H.
  - pose proof (answers_call _ _ _ _ _ _ (Txn_Get_answers Hinv _ _ _ Hr Ha Hfrom Ht) Hok E)
      as (? & _ & H). split; [done|]. intros Hs visible a' Hv [= <-]. f_equal. by apply H.
  - split; [|done]. by split.
  - destruct Ht. split; [|done]. eapply stages_call; [by apply Txn_Assert_stages|done..].
  - destruct Ht. split; [|done]. eapply stages_call; [by apply Txn_AssertEdge_stages|done..].
  - destruct Ht. split; [|done]. eapply stages_call; [by apply Txn_Retract_stages|done..].
  - destruct Ht as (? & ? & ?). split; [|done]. eapply stages_call; [by apply Txn_Set_stages|done..].
  - destruct Ht. split; [|done]. eapply stages_call; [by apply Txn_Unset_stages|done..].
Qed.

Lemma run_OK events calls t answers t' :
  identities_inv events -> txn_ok events t ->
  Forall (fun '(db, c) => reads_from events db (t_snapshot t) /\ call_typed db c) calls ->
  run calls t = (answers, t') ->
  (txn_ok events t' /\ continues t t') /\
  (t_isolation t = kStrict -> forall visible,
     Forall (read_stable events (snapshot_commit_seq (t_snapshot t)) visible) (t_strict_reads t') ->
     Forall2 (fun '(db, c) a => forall a', strict_answer events db c visible = Some a' -> a = a')
       calls answers).
Proof.
  intros Hinv. revert t answers. induction calls as [|[db c] calls IH]; intros t answers Hok Hc; cbn.
  { intros [= <- <-]. split; [done|]. intros _ visible _. constructor. }
  apply Forall_cons in Hc as [[Hfrom Ht] Hc].
  destruct (run_call db c t) as [a t1] eqn:E1. destruct (run calls t1) as [as1 t2] eqn:E2.
  intros [= <- <-].
  destruct (run_call_OK _ _ _ _ _ _ Hinv Hok Hfrom Ht E1) as [[Hok1 (Ei & Es & Et & Hsub)] Ha].
  destruct (IH t1 as1 Hok1 ltac:(by rewrite Es) E2) as [[Hok2 (Ei2 & Es2 & Et2 & Hsub2)] Has].
  split; [split; [done|]; unfold continues; rewrite Ei2, Es2, Et2; by split_and!; [..|set_solver]|].
  intros Hs visible Hv. constructor.
  - intros a'. apply Ha; [done|]. apply Forall_forall. intros d Hd.
    rewrite Forall_forall in Hv. by apply Hv, Hsub2.
  - apply Has; [congruence|]. by rewrite Es.
Qed.

(** ** The batch of a transaction *)

Lemma mutation_key_ok m :
  mutation_typed m -> PendingFactMutation_Validate m = StatusOK ->
  key_ok (mutation_ref m) (mutation_valid_from m) U64_MAX.
Proof.
  intros Ht Hv. destruct (key_ok_mutation m Ht Hv) as (? & ? & ? & _).
  unfold key_ok, uint, U64_MAX in *. split_and!; try done; lia.
Qed.

Lemma Derive_OK events db S ms :
  reads_from events db S -> Forall mutation_typed ms ->
  Forall (fun m => PendingFactMutation_Validate m = StatusOK) ms ->
  exists deps, DeriveSnapshotWriteDependencies (view_filter db) S ms = Ok deps /\
    Forall2 (write_recorded events (snapshot_commit_seq S)) ms deps.
Proof.
  intros Hfrom Ht Hv. pose proof Hfrom as (Ho & _).
  set (query m := mkTemporalNeighborhoodQuery (mutation_ref m) (mutation_valid_from m)).
  set (answer q := match ReadTemporalNeighborhood (view_filter db) (snapshot_facts S)
                     (query_ref q) (query_valid_time q) (snapshot_commit_seq S) with
                   | Ok n => n | Fail _ => mkTemporalNeighborhood None None None end).
  assert (forall m, m ∈ ms ->
    FactRef_Validate (mutation_ref m) = StatusOK /\
    ReadTemporalNeighborhood (view_filter db) (snapshot_facts S) (mutation_ref m)
      (mutation_valid_from m) (snapshot_commit_seq S) = Ok (answer (query m)) /\
    write_recorded events (snapshot_commit_seq S) m
      (mkSnapshotWriteDependency (mutation_ref m) (mutation_valid_from m)
         (predecessor (answer (query m))) (successor (answer (query m))) (snapshot_commit_seq S)))
    as Hm.
  { intros m Hin. rewrite Forall_forall in Ht, Hv.
    pose proof (mutation_key_ok m (Ht m Hin) (Hv m Hin)) as Hk.
    destruct (snapshot_neighborhood Hfrom _ _ Hk) as (n & E & _ & Hb & Ha).
    unfold StoreReadTemporalNeighborhood in E. rewrite Ho in E. cbn [negb] in E.
    unfold answer, query. cbn [query_ref query_valid_time]. rewrite E. split_and!; try done.
    apply Hk. }
  assert (forall l acc, l ⊆ ms -> loop (fun queries m =>
      _ ← check (PendingFactMutation_Validate m); Ok (queries ++ [query m])) acc l
    = Ok (acc ++ (query <$> l))) as Hloop.
  { induction l as [|m l IH]; intros acc Hsub; cbn; [by rewrite app_nil_r|].
    rewrite Forall_forall in Hv. rewrite Hv by set_solver. cbn.
    rewrite IH by set_solver. by rewrite <- app_assoc. }
  eexists. split.
  - unfold DeriveSnapshotWriteDependencies. fold query. rewrite Hloop by done.
    cbn [mbind StatusOr_bind app]. rewrite (ReadTemporalNeighborhoods_OK _ _ _ answer); [done|done|].
    intros q (m & -> & Hin)%list_elem_of_fmap. destruct (Hm m Hin) as (? & ? & _). by split.
  - clear Hloop Ht Hv. induction ms as [|m ms IH]; cbn; [constructor|].
    constructor; [by apply Hm; left|]. apply IH. intros m' Hin. apply Hm. by right.
Qed.

(** ** The batch is valid *)

Section batch.

Context {events : list FactEvent} {t : TransactionState}.
Hypothesis Hinv : identities_inv events.
Hypothesis Hok : txn_ok events t.
Hypothesis Hseq : uint 64 (snapshot_commit_seq (t_snapshot t)).

Lemma nearest_typed ref s vt o :
  nearest_before (history events ref) s vt o \/ nearest_after (history events ref) s vt o ->
  optional_time_typed o.
Proof.
  destruct o as [p|]; [|done].
  intros [(_ & (e & He & _ & <-) & _)|(_ & (e & He & _ & <-) & _)];
    apply list_elem_of_filter in He as [_ He]; apply (events_wf _ Hinv e He).
Qed.

Lemma read_recorded_valid d :
  read_recorded events (snapshot_commit_seq (t_snapshot t)) d ->
  StrictReadDependency_Validate d = StatusOK /\ strict_read_full d.
Proof.
  intros ((Hr & Hv & Hvt & _) & Hs & Hobs & Hb & Ha). cbn in Hobs, Hb, Ha. split.
  - unfold StrictReadDependency_Validate. rewrite Hv.
    assert (opt_test (srd_predecessor d) (fun p => srd_valid_time d <? p) = false /\
      opt_test (srd_predecessor d) (fun p => srd_valid_time d <=? p) = false) as [-> Hp].
    { destruct (srd_predecessor d); [|done]. destruct Hb as [? _]. cbn. lia. }
    assert (opt_test (srd_successor d) (fun s => s <=? srd_valid_time d) = false) as ->.
    { destruct (srd_successor d); [|done]. destruct Ha as [? _]. cbn. lia. }
    destruct (srd_observed_event d) as [e|] eqn:Eo; symmetry in Hobs.
    + apply effective_Some in Hobs as ([Er He]%list_elem_of_filter & Hap & _).
      destruct (events_wf _ Hinv e He) as [_ ->]. rewrite Hp.
      unfold applies in Hap. apply andb_true_iff in Hap as [?%Z.leb_le ?%Z.leb_le].
      rewrite bool_decide_true by done. rewrite !(proj2 (Z.ltb_ge _ _)) by lia. done.
    + destruct (srd_predecessor d) as [p|]; [exfalso|done].
      destruct Hb as (? & (e & He & ? & ?) & _).
      pose proof (proj1 (effective_None _ _ _) Hobs e He) as Hna. unfold applies in Hna.
      apply andb_false_iff in Hna as [?%Z.leb_gt|?%Z.leb_gt]; lia.
  - unfold strict_read_full, strict_read_typed. rewrite Hs. split_and!; try done.
    + eapply nearest_typed. by left.
    + eapply nearest_typed. by right.
    + destruct (srd_observed_event d) as [e|]; [|done]. symmetry in Hobs.
      apply effective_Some in Hobs as ([Er He]%list_elem_of_filter & _).
      by apply (events_wf _ Hinv e).
Qed.

Lemma write_recorded_valid m d :
  mutation_typed m -> PendingFactMutation_Validate m = StatusOK ->
  write_recorded events (snapshot_commit_seq (t_snapshot t)) m d ->
  SnapshotWriteDependency_Validate d = StatusOK /\ dependency_full d.
Proof.
  intros Ht Hv (Er & Ev & Es & Hb & Ha).
  destruct (mutation_key_ok m Ht Hv) as (? & Hrv & ? & _). split.
  - unfold SnapshotWriteDependency_Validate. rewrite Er, Ev, Hrv.
    destruct (swd_predecessor d); [destruct Hb as [? _]|];
      (destruct (swd_successor d); [destruct Ha as [? _]|]); cbn;
      rewrite ?(proj2 (Z.leb_gt _ _)) by lia; done.
  - unfold dependency_full, dependency_typed. rewrite Er, Ev, Es. split_and!; try done.
    + eapply nearest_typed. by left.
    + eapply nearest_typed. by right.
Qed.

Lemma dependency_keys ms deps s :
  Forall2 (write_recorded events s) ms deps ->
  (fun d => (swd_ref d, swd_valid_from d)) <$> deps
  = (fun m => (mutation_ref m, mutation_valid_from m)) <$> ms.
Proof.
  induction 1 as [|m d ms deps (E1 & E2 & _) _ IH]; [done|]. by rewrite !fmap_cons, IH, E1, E2.
Qed.

Lemma dependencies_valid deps :
  Forall2 (write_recorded events (snapshot_commit_seq (t_snapshot t)))
    (t_mutations (sort_staged t)) deps ->
  Forall (fun d => SnapshotWriteDependency_Validate d = StatusOK /\ dependency_full d) deps.
Proof.
  intros Hdeps. apply Forall_forall. intros d [n Hn]%list_elem_of_lookup.
  destruct (Forall2_lookup_r _ _ _ _ _ Hdeps Hn) as (m & Hm%list_elem_of_lookup_2 & Hrec).
  cbn in Hm. rewrite stable_sort_perm in Hm. destruct Hok as [[Hv Ht _ _ _ _ _] _ _].
  rewrite Forall_forall in Hv, Ht. by apply (write_recorded_valid m); auto.
Qed.

Lemma commit_batch_typed deps :
  uint 64 (t_txn_id t) ->
  Forall2 (write_recorded events (snapshot_commit_seq (t_snapshot t)))
    (t_mutations (sort_staged t)) deps ->
  prepared_typed (commit_batch (sort_staged t) deps).
Proof.
  intros Hu Hdeps%dependencies_valid. destruct Hok as [[_ Ht _ _ Hi _ _] [Hr _] _].
  rewrite <- (stable_sort_perm CanonicalMutationLess) in Ht.
  unfold prepared_typed, commit_batch. cbn -[stable_sort]. split_and!; try done.
  - eapply Forall_impl; [exact Hi|]. by intros i (_ & ? & _).
  - eapply Forall_impl; [exact Hdeps|]. by intros d [_ ?].
  - eapply Forall_impl; [exact Hr|]. intros d Hrec. by apply read_recorded_valid.
Qed.

Lemma commit_batch_ok deps :
  t_txn_id t <> 0 -> t_mutations t <> [] ->
  Forall2 (write_recorded events (snapshot_commit_seq (t_snapshot t)))
    (t_mutations (sort_staged t)) deps ->
  batch_ok (commit_batch (sort_staged t) deps).
Proof.
  intros Htxn Hne Hdeps. destruct Hok as [[Hv Ht Hd _ Hi Hid _] [Hr Hrd] _].
  pose proof (stable_sort_perm CanonicalMutationLess (t_mutations t)) as Hperm.
  rewrite <- Hperm in Hv, Hd. pose proof (dependency_keys _ _ _ Hdeps) as Hkeys.
  apply dependencies_valid in Hdeps.
  unfold batch_ok, commit_batch. cbn -[stable_sort] in *. rewrite Hkeys.
  split_and!; try done.
  - intros E. apply Hne. rewrite E in Hperm. by apply Permutation_nil.
  - apply Forall_forall. intros d Hin. rewrite Forall_forall in Hdeps.
    split; [by apply Hdeps|]. rewrite <- Hkeys.
    by apply (list_elem_of_fmap_2 (fun d => (swd_ref d, swd_valid_from d))).
  - eapply Forall_impl; [exact Hr|]. intros d Hrec. by apply read_recorded_valid.
  - eapply Forall_impl; [exact Hi|]. intros i (? & _ & m & ? & ? & ?). split; [done|].
    exists m. by rewrite Hperm.
Qed.

End batch.

(** ** Identities of a history that grows *)

Lemma stored_identity_elem events edge i :
  stored_identity events edge = Some i ->
  exists j, j ∈ events /\ event_ref j = identity_ref edge /\ event_edge_identity j = Some i.
Proof.
  unfold stored_identity, latest_identity, present. fold (identity_ref edge).
  destruct (effective _ _ _) as [j|] eqn:E; [|done]. case_bool_decide; [done|]. intros Ej.
  apply effective_Some in E as ([Er Hj]%list_elem_of_filter & _). by exists j.
Qed.

Lemma batch_edge_state seq b e :
  e ∈ batch_events seq b -> ref_family (event_ref e) = kEdgeState ->
  exists m, m ∈ mutations b /\ e = committed_event seq (m, None).
Proof.
  intros (f & -> & Hf)%list_elem_of_fmap Hfam. unfold VisitCommitFacts in Hf.
  apply elem_of_app in Hf as [Hm|Hi];
    [apply list_elem_of_fmap in Hm as (m & -> & Hm)
    |by apply list_elem_of_fmap in Hi as (i & -> & Hi)]. by exists m.
Qed.

Lemma identities_commit events seq b cf :
  identities_inv events -> batch_ok b -> edges_hold events b ->
  represents cf (batch_events seq b ++ events) ->
  (forall e, e ∈ events -> event_commit_seq e <= seq) ->
  identities_inv (batch_events seq b ++ events).
Proof.
  intros Hinv Hb [Hassert Hids] (_ & _ & Hrep) Hold. constructor.
  - intros e He. destruct (Hrep e He) as (kv & _ & Ht & _ & Hv). split; [done|].
    by apply EncodeFactValue_Ok in Hv as [? _].
  - intros e [He|He]%elem_of_app Hf Hop.
    2: { destruct (identity_first _ Hinv e He Hf Hop) as (j & Hj & ?). exists j. set_solver. }
    destruct (batch_edge_state _ _ _ He Hf) as (m & Hm & ->). cbn in Hf, Hop.
    destruct (Hassert m Hm Hf Hop) as [[i Hi]|(i & Hi & Ei)].
    + destruct (stored_identity_elem _ _ _ Hi) as (j & Hj & Er & _). exists j.
      split_and!; [set_solver|done|]. cbn. by apply Hold.
    + exists (committed_event seq (identity_mutation i, Some i)).
      split_and!; [by apply elem_of_app; left; apply identity_event| |done].
      cbn. unfold identity_ref, edge_of_ref. cbn. unfold edge_of, edge_ref in Ei.
      injection Ei as E1 E2. by rewrite <- E1, <- E2.
  - assert (forall i j, i ∈ batch_events seq b -> j ∈ events ->
      ref_family (event_ref i) = kEdgeIdentity -> event_ref i = event_ref j ->
      event_edge_identity i = event_edge_identity j) as Hmix.
    { intros i j Hi Hj Hf Er. apply batch_identity_events in Hi as (x & Hx & ->); [|done|done].
      assert (event_ref j = identity_ref (edge_ref x)) as Ej by done.
      destruct (identity_event_wf Hinv j _ Hj Ej) as (_ & _ & _ & y & Ey & _).
      destruct (stored_identity_any Hinv j _ y Hj Ej Ey) as (Hst & _).
      rewrite Ey. cbn. by destruct (Hids x Hx); congruence. }
    intros i j [Hi|Hi]%elem_of_app [Hj|Hj]%elem_of_app Hf Er.
    + apply batch_identity_events in Hi as (x & Hx & ->); [|done|done].
      apply batch_identity_events in Hj as (y & Hy & ->); [|done|by rewrite <- Er].
      cbn. f_equal. destruct Hb as (_ & _ & _ & _ & _ & _ & _ & _ & _ & _ & Hnd).
      eapply (NoDup_fmap_inj_on edge_ref); [exact Hnd|done|done|].
      cbn in Er. unfold edge_ref. congruence.
    + by apply Hmix.
    + symmetry. apply Hmix; [done|done|by rewrite <- Er|done].
    + by apply (identity_unique _ Hinv).
Qed.

(** ** Commits *)

Section commit.

Context (cf_id : ColumnFamily -> Z) (outcome : WriteOutcome) (limit : Z) (admission : Status).
Context (ledger : list (Z * StoreCommitBatch)) (events : list FactEvent) (cs : CommitStore).
Hypothesis Hcommit : commit_inv ledger events cs.
Hypothesis Hinv : identities_inv events.
Hypothesis Hout : outcome_ok outcome.

Lemma SubmitSyncCommit_direct b res cs' :
  submit cf_id outcome limit admission cs b = (Ok res, cs') -> CommitDirect cf_id outcome b None cs = (Ok res, cs').
Proof. unfold submit, SubmitSyncCommit. by repeat case_match. Qed.

(** A transaction that reports a commit. *)
Lemma Txn_Commit_committed db db' n t r t' n' cs' :
  txn_ok events t -> reads_from events db' (t_snapshot t) -> uint 64 (t_txn_id t) ->
  (forall s b, (s, b) ∈ ledger -> txn_id b <> t_txn_id t) ->
  Txn_Commit db db' (submit cf_id outcome limit admission cs) cs n t = (Ok r, t', n', cs') ->
  cr_outcome r = outcome_committed ->
  exists deps, let b := commit_batch (sort_staged t) deps in
    let visible := visible_seq (cs_impl cs) in
    Forall2 (write_recorded events (snapshot_commit_seq (t_snapshot t)))
      (t_mutations (sort_staged t)) deps /\
    admissible events visible b /\ cr_commit_seq r = visible + 1 /\
    commit_inv ((visible + 1, b) :: ledger) (batch_events (visible + 1) b ++ events) cs' /\
    identities_inv (batch_events (visible + 1) b ++ events).
Proof.
  intros Hok Hfrom Hu Hnew. unfold Txn_Commit. rewrite (ok_active _ _ Hok).
  destruct (BeginCommit db db' n) as [[[]|s] n1]; [|done].
  pose proof (stable_sort_perm CanonicalMutationLess (t_mutations t)) as Hperm.
  destruct (Derive_OK events db' (t_snapshot t) (t_mutations (sort_staged t)) Hfrom)
    as (deps & Ed & Hdeps).
  { cbn -[stable_sort]. rewrite Hperm. apply Hok. }
  { cbn -[stable_sort]. rewrite Hperm. apply Hok. }
  change (t_snapshot (sort_staged t)) with (t_snapshot t). rewrite Ed.
  set (b := commit_batch (sort_staged t) deps).
  destruct (submit _ _ _ _ _ b) as [c cs1] eqn:Es. intros [= <- <- <- <-] Hc.
  destruct c as [res|s]; [|cbn in Hc; by destruct (_ || _)].
  apply SubmitSyncCommit_direct in Es. exists deps. fold b. cbv zeta.
  pose proof Hfrom as (_ & Hs & _).
  assert (prepared_typed b) as Hb.
  { apply (commit_batch_typed Hinv Hok); [unfold uint, U64_MAX in *; lia|done..]. }
  pose proof (CommitDirect_OK cf_id outcome ledger events cs b None Hcommit Hb
                ltac:(done) Hout _ _ (fun _ => Hnew) Es) as Hv.
  inversion Hv as [cs2 cseq Hadm _ Hci Hvis Hw _|s0 stored Hin Hsame| |]; subst.
  - split_and!; try done.
    eapply identities_commit; [done| |apply Hadm|apply (inv_store _ _ _ Hci)|].
    + apply StoreCommitBatch_Validate_OK; [by apply prepared_batch_typed|].
      by destruct (inv_entries _ _ _ Hci _ _ ltac:(left)) as (_ & _ & ? & _).
    + intros e He. destruct (inv_store _ _ _ Hcommit) as (_ & Hle & _). specialize (Hle e He). lia.
  - exfalso. apply (Hnew _ _ Hin). by destruct Hsame as [<- _].
Qed.

End commit.

(** ** Begun transactions *)

Lemma begun_ok events db isolation id S t :
  BeginTransaction db isolation (Ok id) (Ok S) = Ok t ->
  txn_ok events t /\ t_isolation t = isolation /\ t_snapshot t = S /\ t_txn_id t = id.
Proof.
  unfold BeginTransaction. destruct (closed db), (closing db); cbn; try done.
  intros [= <-]. split; [|done]. by repeat constructor.
Qed.

Lemma client_run_OK events db isolation id S calls answers t :
  identities_inv events -> client_run events db isolation id S calls answers t ->
  txn_ok events t /\ t_isolation t = isolation /\ t_snapshot t = S /\ t_txn_id t = id /\
  (isolation = kStrict -> forall visible,
     Forall (read_stable events (snapshot_commit_seq S) visible) (t_strict_reads t) ->
     Forall2 (fun '(db, c) a => forall a', strict_answer events db c visible = Some a' -> a = a')
       calls answers).
Proof.
  intros Hinv (t0 & Hbegin & Hcalls & Hrun).
  destruct (begun_ok events _ _ _ _ _ Hbegin) as (Hok & Ei & <- & Et).
  destruct (run_OK events calls t0 answers t Hinv Hok Hcalls Hrun)
    as [[Hok' (Ei' & Es & Et' & _)] H].
  split_and!; try congruence. intros Hs. apply H. congruence.
Qed.

Lemma strict_read_stable events s visible d :
  srd_snapshot_seq d = s -> strict_read_holds events visible d -> read_stable events s visible d.
Proof.
  intros <- (_ & n & (E1 & _) & (E2 & _) & _). unfold read_stable, state_at. congruence.
Qed.

(** ** Contention *)

Section uncontended.

Context {ledger : list (Z * StoreCommitBatch)} {events : list FactEvent} {cs : CommitStore}.
Context {t : TransactionState}.
Hypothesis Hcommit : commit_inv ledger events cs.
Hypothesis Hok : txn_ok events t.
Hypothesis Hfree : uncontended events t.
Let s := snapshot_commit_seq (t_snapshot t).
Let visible := visible_seq (cs_impl cs).
Hypothesis Hs : s <= visible.

Lemma read_unchanged d :
  d ∈ t_strict_reads t ->
  SameOptFactEvent (srd_observed_event d) (srd_observed_event d) = true ->
  strict_read_holds events visible d.
Proof.
  intros Hd Hself. pose proof (reads_recorded _ _ (ok_reads _ _ Hok)) as Hr.
  rewrite Forall_forall in Hr. destruct (Hr d Hd) as (_ & Es & Hview). fold s in Es, Hview.
  assert (forall e, e ∈ history events (srd_ref d) -> event_commit_seq e <= s) as Hle.
  { intros e [Er He]%list_elem_of_filter. destruct (Z.le_gt_cases (event_commit_seq e) s); [done|].
    destruct (Hfree e He) as [_ Hno]; [done|]. exfalso. apply Hno. rewrite Er.
    by apply list_elem_of_fmap_2. }
  split; [lia|]. eexists. rewrite Es. split; [exact Hview|].
  split; [by apply (strict_view_raise events d s)|]. split; [|done].
  unfold MatchesStrictReadDependency. cbn. by rewrite Hself, !bool_decide_true.
Qed.

Lemma write_unchanged m d :
  m ∈ t_mutations t -> write_recorded events s m d -> ~ conflicting events d.
Proof.
  intros Hm (Er & _ & Es & _) (e & [Ere He]%list_elem_of_filter & Hlt & _).
  destruct (Hfree e He) as [Hno _]; [fold s; lia|]. apply Hno. rewrite Ere, Er.
  by apply list_elem_of_fmap_2.
Qed.

Lemma uncontended_admissible deps :
  Forall2 (write_recorded events s) (t_mutations (sort_staged t)) deps ->
  edges_hold events (commit_batch t []) ->
  Forall (fun d => SameOptFactEvent (srd_observed_event d) (srd_observed_event d) = true)
    (t_strict_reads t) ->
  admissible events visible (commit_batch (sort_staged t) deps).
Proof.
  intros Hdeps [He1 He2] Hself. split; [|split].
  - assert (forall d, d ∈ snapshot_write_dependencies (commit_batch (sort_staged t) deps) ->
      exists m, m ∈ t_mutations t /\ write_recorded events s m d) as Hd.
    { cbn. intros d [n Hn]%list_elem_of_lookup.
      destruct (Forall2_lookup_r _ _ _ _ _ Hdeps Hn) as (m & Hm%list_elem_of_lookup_2 & Hrec).
      cbn in Hm. rewrite stable_sort_perm in Hm. by exists m. }
    apply verdict_ok.
    + intros d (m & _ & _ & _ & Es & _)%Hd. lia.
    + intros d (m & Hm & Hrec)%Hd. by eapply write_unchanged.
  - cbn. rewrite Forall_forall in Hself. apply Forall_forall. intros d Hd.
    by apply read_unchanged; auto.
  - split; [|done]. cbn -[stable_sort]. intros m Hm. rewrite stable_sort_perm in Hm. by apply He1.
Qed.

End uncontended.

(** ** A client on the sample store *)

Lemma sample_reads_from : reads_from sample_events sample_view sample_snapshot.
Proof.
  split; [done|]. split; [unfold U64_MAX; cbn; lia|]. exists sample_events.
  split; [exact sample_represents|]. by split.
Qed.

Lemma sample_identities : identities_inv sample_events.
Proof.
  constructor.
  - intros e He. destruct sample_represents as (_ & _ & Hr).
    destruct (Hr e He) as (kv & _ & Ht & _ & [Hv _]%EncodeFactValue_Ok). done.
  - intros e He Hf. exfalso. repeat (apply elem_of_cons in He as [->|He]; [done|]).
    by apply not_elem_of_nil in He.
  - intros e j He _ Hf. exfalso. repeat (apply elem_of_cons in He as [->|He]; [done|]).
    by apply not_elem_of_nil in He.
Qed.

Lemma sample_client_run :
  client_run sample_events sample_view kStrict 90 sample_snapshot sample_calls
    sample_client.1 sample_client.2.
Proof.
  exists sample_begun. split; [reflexivity|]. split; [|by destruct sample_client eqn:E].
  unfold sample_calls. rewrite !Forall_cons.
  split_and!; try exact sample_reads_from; try apply Forall_nil_2;
    cbn [call_typed]; unfold property_typed, ref_typed, identity_typed, uint, is_EntityFact;
    split_and!; cbn; try lia; left; by eexists.
Qed.

Lemma sample_uncontended : uncontended sample_events sample_client.2.
Proof.
  intros e He Hlt. exfalso. change (snapshot_commit_seq (t_snapshot sample_client.2)) with 6 in Hlt.
  repeat (apply elem_of_cons in He as [->|He]; [vm_compute in Hlt; discriminate Hlt|]).
  by apply not_elem_of_nil in He.
Qed.

Lemma sample_staged :
  t_mutations sample_client.2
  = [mkPendingFactMutation (EntityFact_Vertex (mkVertexRef 1 5)) 30 kPut 0 None;
     mkPendingFactMutation (EntityFact_Edge (mkEdgeRef 1 88)) 20 kPut 0 None] /\
  t_edge_identities sample_client.2 = [mkEdgeIdentity 88 5 4 2 1 1 6].
Proof. split; vm_compute; reflexivity. Qed.

Lemma sample_edges_hold : edges_hold sample_events (commit_batch sample_client.2 []).
Proof.
  destruct sample_staged as [Em Ei]. unfold commit_batch, edges_hold.
  cbn [mutations edge_identities]. rewrite Em, Ei. split.
  - intros m Hm Hf _. right. eexists. split; [by apply list_elem_of_singleton|].
    apply elem_of_cons in Hm as [-> | ->%list_elem_of_singleton]; [discriminate Hf|reflexivity].
  - intros i ->%list_elem_of_singleton. left. vm_compute. reflexivity.
Qed.

Lemma sample_reads_self :
  Forall (fun d => SameOptFactEvent (srd_observed_event d) (srd_observed_event d) = true)
    (t_strict_reads sample_client.2).
Proof. apply (bool_decide_unpack _). vm_compute. exact I. Qed.

Lemma sample_sizes deps :
  length deps = length (t_mutations sample_client.2) ->
  let b := commit_batch (sort_staged sample_client.2) deps in
  sizes_ok b /\ EstimateCommitBatchBytes b <= 4096 /\
  EstimateCommitBatchBytes b <= group_commit_max_batch_bytes sample_commit_store.
Proof.
  intros _ b.
  assert (sizes_ok (commit_batch (sort_staged sample_client.2) [])) as Hs.
  { split; [vm_compute; reflexivity|]. apply (bool_decide_unpack _). vm_compute. exact I. }
  assert (EstimateCommitBatchBytes (commit_batch (sort_staged sample_client.2) []) <= 4096) as He
    by (vm_compute; discriminate).
  split_and!; [exact Hs|exact He|exact He].
Qed.

Lemma sample_commit_result :
  sample_commit.1.1.1 = Ok (mkCommitResult outcome_committed 7 90 StatusOK).
Proof. vm_compute. reflexivity. Qed.

(** ** Properties *)

(** C4: strict transactions are serializable.  When a strict transaction commits, at the
    sequence after the visible one, every read it made is the answer of the store just
    before the commit, not only of its snapshot: the reads it recorded, the endpoints
    and the identity behind the visibility of an edge included.  The commit adds
    exactly its staged writes and the edge identities it staged to the history, and
    identities stay immutable. *)
Theorem strict_transaction_serializable cf_id outcome limit admission ledger events cs
    db0 id S calls answers t db db' n r t' n' cs' :
  commit_inv ledger events cs -> identities_inv events -> outcome_ok outcome ->
  uint 64 id -> (forall s b, (s, b) ∈ ledger -> txn_id b <> id) ->
  client_run events db0 kStrict id S calls answers t -> reads_from events db' S ->
  Txn_Commit db db' (submit cf_id outcome limit admission cs) cs n t = (Ok r, t', n', cs') ->
  cr_outcome r = outcome_committed ->
  let visible := visible_seq (cs_impl cs) in
  cr_commit_seq r = visible + 1 /\
  Forall2 (fun '(db, c) a => forall a', strict_answer events db c visible = Some a' -> a = a')
    calls answers /\
  exists b, txn_id b = id /\ mutations b ≡ₚ t_mutations t /\
    edge_identities b = t_edge_identities t /\
    commit_inv ((visible + 1, b) :: ledger) (batch_events (visible + 1) b ++ events) cs' /\
    identities_inv (batch_events (visible + 1) b ++ events).
Proof.
  intros Hcommit Hinv Hout Hid Hnew Hrun Hfrom Htc Hr visible.
  destruct (client_run_OK _ _ _ _ _ _ _ _ Hinv Hrun) as (Hok & Hi & <- & <- & Hans).
  destruct (Txn_Commit_committed cf_id outcome limit admission ledger events cs Hcommit Hinv Hout
    db db' n t r t' n' cs' Hok Hfrom Hid Hnew Htc Hr) as (deps & _ & Hadm & Hseq & Hci & Hids).
  split; [done|]. split.
  - apply Hans; [done|]. destruct Hadm as (_ & Hstrict & _). cbn in Hstrict.
    pose proof (reads_recorded _ _ (ok_reads _ _ Hok)) as Hrec.
    rewrite Forall_forall in Hstrict, Hrec. apply Forall_forall. intros d Hd.
    apply strict_read_stable; [by apply Hrec|by apply Hstrict].
  - exists (commit_batch (sort_staged t) deps).
    split; [done|]. split; [apply stable_sort_perm|by split].
Qed.

Lemma strict_transaction_serializable_witness :
  Forall2 (fun '(db, c) a => forall a', strict_answer sample_events db c 6 = Some a' -> a = a')
    sample_calls sample_client.1.
Proof.
  destruct sample_commit as [[[r t'] n'] cs'] eqn:E.
  pose proof sample_commit_result as Hr. rewrite E in Hr. cbn in Hr. subst r.
  destruct (strict_transaction_serializable sample_cf_id sample_written 4096 StatusOK []
    sample_events sample_commit_store sample_view 90 sample_snapshot sample_calls
    sample_client.1 sample_client.2 sample_view sample_view 0
    (mkCommitResult outcome_committed 7 90 StatusOK) t' n' cs') as (_ & H & _).
  - exact sample_commit_inv.
  - exact sample_identities.
  - exact I.
  - unfold uint. lia.
  - intros s b H. destruct (not_elem_of_nil _ H).
  - exact sample_client_run.
  - exact sample_reads_from.
  - exact E.
  - reflexivity.
  - exact H.
Defined.

(** C12: the first committer wins.  When a transaction of either isolation commits, no
    other one has committed, since its snapshot, a boundary inside the valid-time
    interval that a staged write covers: from the written valid time up to the next
    boundary that the snapshot shows. *)
Theorem first_committer_wins cf_id outcome limit admission ledger events cs
    db0 isolation id S calls answers t db db' n r t' n' cs' :
  commit_inv ledger events cs -> identities_inv events -> outcome_ok outcome ->
  uint 64 id -> (forall s b, (s, b) ∈ ledger -> txn_id b <> id) ->
  client_run events db0 isolation id S calls answers t -> reads_from events db' S ->
  Txn_Commit db db' (submit cf_id outcome limit admission cs) cs n t = (Ok r, t', n', cs') ->
  cr_outcome r = outcome_committed ->
  forall m, m ∈ t_mutations t ->
  exists next,
    nearest_after (history events (mutation_ref m)) (snapshot_commit_seq S)
      (mutation_valid_from m) next /\
    forall e, e ∈ history events (mutation_ref m) ->
      snapshot_commit_seq S < event_commit_seq e ->
      event_valid_from e < mutation_valid_from m \/
      exists p, next = Some p /\ p <= event_valid_from e.
Proof.
  intros Hcommit Hinv Hout Hid Hnew Hrun Hfrom Htc Hr m Hm.
  destruct (client_run_OK _ _ _ _ _ _ _ _ Hinv Hrun) as (Hok & Hi & <- & <- & _).
  destruct (Txn_Commit_committed cf_id outcome limit admission ledger events cs Hcommit Hinv Hout
    db db' n t r t' n' cs' Hok Hfrom Hid Hnew Htc Hr) as (deps & Hdeps & [Hw _] & _).
  rewrite <- (stable_sort_perm CanonicalMutationLess) in Hm.
  apply list_elem_of_lookup in Hm as [k Hk].
  destruct (Forall2_lookup_l _ _ _ _ _ Hdeps Hk) as (d & Hd%list_elem_of_lookup_2 & Hrec).
  inversion Hw as [| |_ Hno]; subst. specialize (Hno d Hd).
  destruct Hrec as (Er & Ev & Es & _ & Ha). exists (swd_successor d). split; [done|].
  intros e He Hlt.
  destruct (Z.lt_ge_cases (event_valid_from e) (mutation_valid_from m)) as [?|Hge]; [by left|right].
  destruct (swd_successor d) as [p|] eqn:Ep;
    [destruct (Z.le_gt_cases p (event_valid_from e)); [by exists p|]|];
    destruct Hno; exists e; rewrite Er; (split; [done|]); (split; [lia|]); left;
    rewrite Ev, Ep; (split; [lia|]); [by intros ? [= <-]|done].
Qed.

Lemma first_committer_wins_witness :
  exists next,
    nearest_after (history sample_events (EntityFact_Edge (mkEdgeRef 1 88))) 6 20 next /\
    forall e, e ∈ history sample_events (EntityFact_Edge (mkEdgeRef 1 88)) ->
      6 < event_commit_seq e ->
      event_valid_from e < 20 \/ exists p, next = Some p /\ p <= event_valid_from e.
Proof.
  destruct sample_commit as [[[r t'] n'] cs'] eqn:E.
  pose proof sample_commit_result as Hr. rewrite E in Hr. cbn in Hr. subst r.
  apply (first_committer_wins sample_cf_id sample_written 4096 StatusOK []
    sample_events sample_commit_store sample_view kStrict 90 sample_snapshot sample_calls
    sample_client.1 sample_client.2 sample_view sample_view 0
    (mkCommitResult outcome_committed 7 90 StatusOK) t' n' cs') with
    (m := mkPendingFactMutation (EntityFact_Edge (mkEdgeRef 1 88)) 20 kPut 0 None).
  - exact sample_commit_inv.
  - exact sample_identities.
  - exact I.
  - unfold uint. lia.
  - intros s b H. destruct (not_elem_of_nil _ H).
  - exact sample_client_run.
  - exact sample_reads_from.
  - exact E.
  - reflexivity.
  - apply (list_elem_of_lookup_2 _ 1%nat). vm_compute. reflexivity.
Defined.

(** What a client stages is always a valid batch.  Whatever calls a client makes, in
    whatever order and with whatever failures between them, the dependencies of the
    staged writes can be derived, and the batch passes the validation of the store as
    soon as a write is staged: no duplicate write, no malformed dependency or strict
    read, and no edge identity without its assertion. *)
Theorem staged_batch_valid events db0 isolation id S calls answers t db :
  identities_inv events -> uint 64 id -> id <> 0 ->
  client_run events db0 isolation id S calls answers t -> reads_from events db S ->
  t_mutations t <> [] ->
  exists deps,
    DeriveSnapshotWriteDependencies (view_filter db) S (t_mutations (sort_staged t)) = Ok deps /\
    StoreCommitBatch_Validate (commit_batch (sort_staged t) deps) = StatusOK.
Proof.
  intros Hinv Hu Hid Hrun Hfrom Hne.
  destruct (client_run_OK _ _ _ _ _ _ _ _ Hinv Hrun) as (Hok & _ & <- & <- & _).
  pose proof (stable_sort_perm CanonicalMutationLess (t_mutations t)) as Hperm.
  destruct (Derive_OK events db (t_snapshot t) (t_mutations (sort_staged t)) Hfrom)
    as (deps & Ed & Hdeps).
  { cbn -[stable_sort]. rewrite Hperm. apply Hok. }
  { cbn -[stable_sort]. rewrite Hperm. apply Hok. }
  exists deps. split; [done|]. pose proof Hfrom as (_ & Hs & _).
  apply StoreCommitBatch_Validate_OK.
  - apply prepared_batch_typed, (commit_batch_typed Hinv Hok); try done.
    unfold uint, U64_MAX in *. lia.
  - apply (commit_batch_ok Hinv Hok); try done. unfold uint, U64_MAX in *. lia.
Qed.

Lemma staged_batch_valid_witness :
  exists deps,
    DeriveSnapshotWriteDependencies None sample_snapshot (t_mutations (sort_staged sample_client.2))
    = Ok deps /\
    StoreCommitBatch_Validate (commit_batch (sort_staged sample_client.2) deps) = StatusOK.
Proof.
  apply (staged_batch_valid sample_events sample_view kStrict 90 sample_snapshot sample_calls
           sample_client.1 sample_client.2 sample_view).
  - exact sample_identities.
  - unfold uint. lia.
  - lia.
  - exact sample_client_run.
  - exact sample_reads_from.
  - vm_compute. discriminate.
Defined.



(** The two filters for the visibility of an edge agree.  What a snapshot computes
    from the edge state it has read, without a scan of the edge's states, is what a
    transaction of snapshot isolation computes with the scan, and both answer whether
    the edge and both its ends are there. *)
Theorem EdgeVisible_agree events db S t edge vt :
  identities_inv events -> reads_from events db S -> t_snapshot t = S -> reads_ok events t ->
  uint 32 (edge_home_part_id edge) -> uint 64 (edge_ref_id edge) -> edge_ref_id edge <> 0 ->
  uint 64 vt ->
  EdgeVisibleAt S edge vt = Ok (edge_visible events (snapshot_commit_seq S) edge vt) /\
  (EdgeVisible db edge vt t).1 = EdgeVisibleAt S edge vt.
Proof.
  intros Hinv Hfrom <- Hr Hp He Hnz Hvt.
  assert (edge_key_ok edge) as Hedge by by split_and!.
  pose proof (edge_state_key edge vt Hedge Hvt) as Hk.
  assert (EdgeVisibleAt (t_snapshot t) edge vt
    = Ok (edge_visible events (snapshot_commit_seq (t_snapshot t)) edge vt)) as Hat.
  { unfold EdgeVisibleAt, edge_visible. rewrite (snapshot_Read Hfrom) by done.
    cbn [mbind StatusOr_bind]. destruct (state_at _ _ (EntityFact_Edge edge) vt) as [e|] eqn:Ee; [|done].
    destruct (snapshot_identity Hfrom edge vt e Hinv Hedge Hvt Ee) as (i & _ & -> & -> & Hti & Hvi).
    destruct Hti as (_ & ? & ? & _ & _ & ? & ?). apply EdgeIdentity_Validate_OK in Hvi as (_ & ? & ? & _).
    cbn [mbind StatusOr_bind].
    rewrite (snapshot_Read Hfrom (EntityFact_Vertex (source_ref i))) by by apply vertex_state_key.
    rewrite (snapshot_Read Hfrom (EntityFact_Vertex (target_ref i))) by by apply vertex_state_key.
    cbn [mbind StatusOr_bind]. by case_bool_decide. }
  split; [done|].
  destruct (EdgeVisible_answers Hinv t edge vt Hr Hfrom Hp He Hvt) as (reads & -> & _).
  rewrite Hat. destruct Hk as (_ & -> & _). done.
Qed.

Lemma edge_events_represent : represents (encoded_cf edge_events) edge_events.
Proof. represents_concrete. Qed.

Lemma edge_events_identities : identities_inv edge_events.
Proof.
  constructor.
  - intros e He. destruct edge_events_represent as (_ & _ & Hr).
    destruct (Hr e He) as (kv & _ & Ht & _ & [Hv _]%EncodeFactValue_Ok). done.
  - intros e He Hf _. exists (mkFactEvent (identity_ref (mkEdgeRef 1 88)) 0 2 kPut 0 None
      (Some (mkEdgeIdentity 88 5 4 2 1 1 6))).
    split; [by right; left|].
    repeat (apply elem_of_cons in He as [->|He]; [try discriminate Hf; by split|]).
    destruct (not_elem_of_nil _ He).
  - intros i j Hi Hj Hf Er.
    repeat (apply elem_of_cons in Hi as [->|Hi]; [try discriminate Hf;
      repeat (apply elem_of_cons in Hj as [->|Hj]; [try discriminate Er; reflexivity|]);
      destruct (not_elem_of_nil _ Hj)|]).
    destruct (not_elem_of_nil _ Hi).
Qed.

Lemma EdgeVisible_agree_witness :
  EdgeVisibleAt edge_snapshot (mkEdgeRef 1 88) 20 = Ok true /\
  EdgeVisibleAt edge_snapshot (mkEdgeRef 1 88) 60 = Ok false.
Proof.
  assert (reads_from edge_events sample_view edge_snapshot) as Hfrom.
  { split; [done|]. split; [unfold U64_MAX; cbn; lia|]. exists edge_events.
    split; [exact edge_events_represent|]. by split. }
  assert (reads_ok edge_events
    (mkTransactionState kSnapshot edge_snapshot 90 [] [] [] ∅ ∅ false)) as Hr
    by repeat constructor.
  split.
  - apply (EdgeVisible_agree edge_events sample_view edge_snapshot
      (mkTransactionState kSnapshot edge_snapshot 90 [] [] [] ∅ ∅ false) (mkEdgeRef 1 88) 20);
      first [exact edge_events_identities|exact Hfrom|exact Hr|reflexivity|unfold uint; cbn; lia].
  - apply (EdgeVisible_agree edge_events sample_view edge_snapshot
      (mkTransactionState kSnapshot edge_snapshot 90 [] [] [] ∅ ∅ false) (mkEdgeRef 1 88) 60);
      first [exact edge_events_identities|exact Hfrom|exact Hr|reflexivity|unfold uint; cbn; lia].
Defined.

Lemma Txn_Commit_ends db db' sub cs n t r t' n' cs' :
  Txn_Commit db db' sub cs n t = (r, t', n', cs') ->
  n' = n /\ match r with
            | Ok x => t_terminal t' = true /\ cr_txn_id x = t_txn_id t
            | Fail _ => t' = t /\ cs' = cs
            end.
Proof.
  unfold Txn_Commit, BeginCommit, EndCommit. destruct (t_terminal t); [by intros [= <- <- <- <-]|].
  destruct (closed db); [by intros [= <- <- <- <-]|].
  destruct (closing db'); [intros [= <- <- <- <-]; split; [lia|done]|].
  destruct (closed db'); [intros [= <- <- <- <-]; split; [lia|done]|].
  destruct (DeriveSnapshotWriteDependencies _ _ _).
  - destruct (sub _) as [c cs1]. intros [= <- <- <- <-]. split; [lia|]. split; [done|].
    by destruct c.
  - intros [= <- <- <- <-]. split; [lia|done].
Qed.
