(* ===== verification/SnapshotReader.v ===== *)
(** * SnapshotReader: canonical reads of a snapshot

    Models the read specification of [include/cedar/fact/read_spec.h], the canonical
    reader of a snapshot in [src/kernel/snapshot.cc] ([ReadStateAt], [ReadEvents],
    [ReadStateRows], [EventScan], [StateScan]) and the reduction of events to states in
    [src/query/temporal/state_reader.cc].  Visitors are as in [Scan]; batches are lists
    of rows.  Reads without a memory budget are modelled, columnar reads are not. *)

From S2P Require Import Prelude Status Crc32c Wire Value Fact FactCodec CommitBatch.
From S2P Require Import Frame MetaCodec PreparedCodec GroupCommit Bloom RecentWrites.
From S2P Require Import ValidationCache Accelerators Temporal FactStore Conflict Scan.
From S2P Require Import WriteBatch Commit GroupedCommit CommitSize Transaction Serializable.

(** ** Read specifications *)

Inductive PartScopeKind := scope_exact | scope_set | scope_all.

#[export] Instance PartScopeKind_eq_dec : EqDecision PartScopeKind.
Proof. solve_decision. Defined.

Record PartScope := mkPartScope {
  scope_kind : PartScopeKind;
  parts : list Z
}.

Definition PartScope_Exact (part : Z) : PartScope := mkPartScope scope_exact [part].
Definition PartScope_All : PartScope := mkPartScope scope_all [].

(** [std::unique] with the erase behind it: the first of equal neighbours stays. *)
Fixpoint unique (l : list Z) : list Z :=
  match l with
  | [] => []
  | a :: l' =>
      match unique l' with
      | b :: rest => if a =? b then b :: rest else a :: b :: rest
      | [] => [a]
      end
  end.

Definition PartScope_Set (parts : list Z) : PartScope :=
  mkPartScope scope_set (unique (stable_sort Z.ltb parts)).

(** [std::is_sorted] and [std::adjacent_find]. *)
Fixpoint parts_sorted (l : list Z) : bool :=
  match l with
  | a :: (b :: _) as l' => negb (b <? a) && parts_sorted l'
  | _ => true
  end.

Fixpoint adjacent_equal (l : list Z) : bool :=
  match l with
  | a :: (b :: _) as l' => (a =? b) || adjacent_equal l'
  | _ => false
  end.

Definition PartScope_Validate (scope : PartScope) : Status :=
  match scope_kind scope with
  | scope_all =>
      if bool_decide (parts scope = []) then StatusOK
      else InvalidArgument "part scope" "wildcard cannot carry parts"
  | kind =>
      if bool_decide (parts scope = []) then InvalidArgument "part scope" "empty part set"
      else if bool_decide (kind = scope_exact) && negb (length (parts scope) =? 1)%nat then
        InvalidArgument "part scope" "exact scope requires one part"
      else if negb (parts_sorted (parts scope)) then
        InvalidArgument "part scope" "parts must be sorted"
      else if adjacent_equal (parts scope) then
        InvalidArgument "part scope" "parts must be unique"
      else StatusOK
  end.

(** The binary search is for sorted parts. *)
Definition PartScope_Contains (scope : PartScope) (part : Z) : bool :=
  if bool_decide (scope_kind scope = scope_all) then true
  else bool_decide (part ∈ parts scope).

Record EntityRange := mkEntityRange {
  range_min : option Z;
  range_max_exclusive : option Z
}.

Definition EntityRange_Validate (r : EntityRange) : Status :=
  match range_min r, range_max_exclusive r with
  | Some lo, Some hi =>
      if hi <=? lo then InvalidArgument "entity range" "min must be less than max_exclusive"
      else StatusOK
  | _, _ => StatusOK
  end.

(** [projection] holds the column identifiers.  The memory budget and
    [preserve_predecessor_context], which these readers do not look at, are left out. *)
Record FactReadSpec := mkFactReadSpec {
  part_scope : PartScope;
  spec_family : FactFamily;
  spec_property_id : Z;
  entity_range : EntityRange;
  valid_from_min : option Z;
  valid_from_max : option Z;
  commit_seq_min : option Z;
  commit_seq_max : option Z;
  projection : list Z;
  batch_row_limit : Z;
  max_rows : option Z
}.

Definition reversed (lo hi : option Z) : bool :=
  match lo, hi with Some lo, Some hi => hi <? lo | _, _ => false end.

Definition FactReadSpec_Validate (spec : FactReadSpec) : Status :=
  to_status
    (_ ← check (PartScope_Validate (part_scope spec));
     _ ← check (EntityRange_Validate (entity_range spec));
     _ ← require (negb (batch_row_limit spec =? 0))
           (InvalidArgument "fact read spec" "zero batch row limit");
     _ ← require (negb (reversed (valid_from_min spec) (valid_from_max spec)))
           (InvalidArgument "fact read spec" "reversed valid-time range");
     _ ← require (negb (reversed (commit_seq_min spec) (commit_seq_max spec)))
           (InvalidArgument "fact read spec" "reversed commit range");
     _ ← loop (fun seen column =>
                 let '(inserted, seen) := emplace column seen in
                 _ ← require inserted
                       (InvalidArgument "fact read spec" "duplicate projection column");
                 Ok seen) (∅ : gset Z) (projection spec);
     Ok tt).

(** [events.max_rows.reset()]. *)
Definition without_limit (spec : FactReadSpec) : FactReadSpec :=
  mkFactReadSpec (part_scope spec) (spec_family spec) (spec_property_id spec)
    (entity_range spec) (valid_from_min spec) (valid_from_max spec) (commit_seq_min spec)
    (commit_seq_max spec) (projection spec) (batch_row_limit spec) None.

Definition MatchesReadSpec (spec : FactReadSpec) (e : FactEvent) : bool :=
  let r := event_ref e in
  if negb (PartScope_Contains (part_scope spec) (ref_part_id r))
     || negb (bool_decide (ref_family r = spec_family spec))
     || negb (ref_property_id r =? spec_property_id spec) then false
  else if opt_test (range_min (entity_range spec)) (fun m => ref_entity_id r <? m) then false
  else if opt_test (range_max_exclusive (entity_range spec)) (fun m => m <=? ref_entity_id r)
  then false
  else if opt_test (valid_from_min spec) (fun m => event_valid_from e <? m) then false
  else if opt_test (valid_from_max spec) (fun m => m <? event_valid_from e) then false
  else if opt_test (commit_seq_min spec) (fun m => event_commit_seq e <? m) then false
  else if opt_test (commit_seq_max spec) (fun m => m <? event_commit_seq e) then false
  else true.

(** The bounds of [ToFactScanSpec]. *)
Definition scan_bounds (spec : FactReadSpec) : FactScanBounds :=
  mkFactScanBounds (range_min (entity_range spec))
    (match range_max_exclusive (entity_range spec) with
     | Some hi => if hi =? 0 then None else Some (hi - 1)
     | None => None
     end).

(** ** Point reads *)

Definition ReadStateAt (snapshot : StoreSnapshot) (spec : FactReadSpec)
    (valid_time snapshot_seq : Z) : StatusOr (option FactEvent) :=
  _ ← check (FactReadSpec_Validate spec);
  _ ← require (negb ((snapshot_commit_seq snapshot <? snapshot_seq)
                     && negb (snapshot_seq =? 0)))
        (InvalidArgument "canonical reader" "requested sequence exceeds snapshot");
  let lo := range_min (entity_range spec) in
  let hi := range_max_exclusive (entity_range spec) in
  let max_id_exact := bool_decide (lo = Some U64_MAX) && bool_decide (hi = None) in
  let ordinary_exact :=
    match lo, hi with Some lo, Some hi => hi =? wrap 64 (lo + 1) | _, _ => false end in
  match scope_kind (part_scope spec), parts (part_scope spec), lo with
  | scope_exact, [part], Some entity =>
      if negb ordinary_exact && negb max_id_exact then
        Fail (InvalidArgument "canonical reader" "state-at requires one exact entity")
      else
        event ← Read snapshot (mkFactRef part (spec_family spec) (spec_property_id spec) entity)
                  valid_time;
        match event with
        | Some e =>
            if negb (snapshot_seq =? 0) && (snapshot_seq <? event_commit_seq e) then Ok None
            else Ok (Some e)
        | None => Ok None
        end
  | _, _, _ =>
      Fail (InvalidArgument "canonical reader" "state-at requires one exact entity")
  end.

(** ** Reads of events *)

(** The output of [ReadEvents]: the state of the visitor, the batch that is being
    filled, the rows handed out and whether the limit ended the scan. *)
Record EventSink (St : Type) := mkEventSink {
  sink_state : St;
  sink_batch : list FactEvent;
  emitted : Z;
  limit_reached : bool
}.
Arguments mkEventSink {St}.
Arguments sink_state {St}.
Arguments sink_batch {St}.
Arguments emitted {St}.
Arguments limit_reached {St}.

Section events.

Context {St : Type} (visitor : Visitor St (list FactEvent)) (spec : FactReadSpec).

Definition batch_limit : Z :=
  match max_rows spec with
  | Some m => Z.min (batch_row_limit spec) m
  | None => batch_row_limit spec
  end.

Definition max_rows_reached : Status :=
  QueryCancelled "canonical reader" "max_rows reached".

Definition stopped (sink : EventSink St) : EventSink St :=
  mkEventSink (sink_state sink) (sink_batch sink) (emitted sink) true.

Definition append_event (sink : EventSink St) (e : FactEvent) : EventSink St * Status :=
  if opt_test (max_rows spec) (fun m => m <=? emitted sink) then (stopped sink, max_rows_reached)
  else
    let batch := sink_batch sink ++ [e] in
    let size := Z.of_nat (length batch) in
    let reaches_limit := opt_test (max_rows spec) (fun m => m - emitted sink <=? size) in
    let sink := mkEventSink (sink_state sink) batch (emitted sink) (limit_reached sink) in
    if negb reaches_limit && (size <? batch_limit) then (sink, StatusOK)
    else
      match visitor (sink_state sink) batch with
      | (state, StatusOK) =>
          let sink := mkEventSink state [] (emitted sink + size) (limit_reached sink) in
          if reaches_limit then (stopped sink, max_rows_reached) else (sink, StatusOK)
      | (state, s) => (mkEventSink state batch (emitted sink) (limit_reached sink), s)
      end.

(** The visitor of the scans. *)
Definition append_matching (sink : EventSink St) (e : FactEvent) : EventSink St * Status :=
  if MatchesReadSpec spec e then append_event sink e else (sink, StatusOK).

Definition scan_part (snapshot : StoreSnapshot) (sink : EventSink St) (part : Z)
  : EventSink St * Status :=
  Scan snapshot (FactPrefix_Family part (spec_family spec) (spec_property_id spec))
    (scan_bounds spec) append_matching sink.

(** After the scan: the rows that are left, unless the limit ended it. *)
Definition finish_events (scanned : EventSink St * Status) : St * Status :=
  let '(sink, status) := scanned in
  if negb (status_ok status) && negb (limit_reached sink) then (sink_state sink, status)
  else if negb (bool_decide (sink_batch sink = [])) && negb (limit_reached sink) then
    visitor (sink_state sink) (sink_batch sink)
  else (sink_state sink, StatusOK).

(** [None] when the scan of a family runs out of fuel, which it does not. *)
Definition ReadEvents (snapshot : StoreSnapshot) (state : St) : option (St * Status) :=
  match FactReadSpec_Validate spec with
  | StatusOK =>
      if bool_decide (max_rows spec = Some 0) then Some (state, StatusOK)
      else
        let sink := mkEventSink state [] 0 false in
        finish_events <$>
          (if bool_decide (scope_kind (part_scope spec) = scope_all) then
             ScanFamily snapshot (spec_family spec) append_matching sink
           else Some (visit (scan_part snapshot) sink (parts (part_scope spec))))
  | s => Some (state, s)
  end.

End events.

(** ** Scans of one partition *)

(** [max_rows], which the columnar scans alone look at, is left out. *)
Record FactScanSpec := mkFactScanSpec {
  scan_part_id : Z;
  scan_family : FactFamily;
  scan_property_id : Z;
  scan_valid_time : Z;
  scan_batch_row_limit : Z;
  scan_entity_id_min : option Z;
  scan_entity_id_max : option Z;
  event_valid_from_min : option Z;
  event_valid_from_max : option Z;
  event_commit_seq_min : option Z;
  event_commit_seq_max : option Z
}.

Definition scan_prefix (spec : FactScanSpec) : FactPrefix :=
  FactPrefix_Family (scan_part_id spec) (scan_family spec) (scan_property_id spec).

Definition ValidateFactScanSpec (spec : FactScanSpec) : Status :=
  if scan_batch_row_limit spec =? 0 then InvalidArgument "fact scan" "zero batch row limit"
  else if reversed (scan_entity_id_min spec) (scan_entity_id_max spec)
          || reversed (event_valid_from_min spec) (event_valid_from_max spec)
          || reversed (event_commit_seq_min spec) (event_commit_seq_max spec) then
    InvalidArgument "fact scan" "invalid inclusive range"
  else FactPrefix_Validate (scan_prefix spec).

Definition MatchesFactScanSpec (spec : FactScanSpec) (e : FactEvent) : bool :=
  negb (opt_test (scan_entity_id_min spec) (fun m => ref_entity_id (event_ref e) <? m)
        || opt_test (scan_entity_id_max spec) (fun m => m <? ref_entity_id (event_ref e))
        || opt_test (event_valid_from_min spec) (fun m => event_valid_from e <? m)
        || opt_test (event_valid_from_max spec) (fun m => m <? event_valid_from e)
        || opt_test (event_commit_seq_min spec) (fun m => event_commit_seq e <? m)
        || opt_test (event_commit_seq_max spec) (fun m => m <? event_commit_seq e)).

Section scans.

Context {St : Type} (visitor : Visitor St (list FactEvent)) (spec : FactScanSpec).

(** The events that wait, with the state of the visitor. *)
Definition FlushFactEventBatch (pending : St * list FactEvent)
  : (St * list FactEvent) * Status :=
  let '(state, events) := pending in
  if bool_decide (events = []) then (pending, StatusOK)
  else let '(state, status) := visitor state events in ((state, []), status).

Definition push_event (pending : St * list FactEvent) (e : FactEvent)
  : (St * list FactEvent) * Status :=
  let '(state, events) := pending in
  let events := events ++ [e] in
  if Z.of_nat (length events) <? scan_batch_row_limit spec then ((state, events), StatusOK)
  else FlushFactEventBatch (state, events).

Definition scan_spec_bounds : FactScanBounds :=
  mkFactScanBounds (scan_entity_id_min spec) (scan_entity_id_max spec).

Definition EventScan (snapshot : StoreSnapshot) (state : St) : St * Status :=
  match ValidateFactScanSpec spec with
  | StatusOK =>
      let '(pending, status) :=
        and_then
          (Scan snapshot (scan_prefix spec) scan_spec_bounds
             (fun pending e =>
                if negb (MatchesFactScanSpec spec e) then (pending, StatusOK)
                else push_event pending e) (state, []))
          FlushFactEventBatch in
      (fst pending, status)
  | s => (state, s)
  end.

(** The identity seen last, with the events that wait. *)
Definition state_scan_step (snapshot : StoreSnapshot)
    (s : option (Z * Z * Z * Z) * (St * list FactEvent)) (scanned : FactEvent)
  : (option (Z * Z * Z * Z) * (St * list FactEvent)) * Status :=
  let '(last_identity, pending) := s in
  if opt_test (scan_entity_id_min spec) (fun m => ref_entity_id (event_ref scanned) <? m)
     || opt_test (scan_entity_id_max spec) (fun m => m <? ref_entity_id (event_ref scanned))
  then (s, StatusOK)
  else
    let r := event_ref scanned in
    let identity :=
      (ref_part_id r, FactFamily_to_u8 (ref_family r), ref_property_id r, ref_entity_id r) in
    if bool_decide (last_identity = Some identity) then (s, StatusOK)
    else
      let s := (Some identity, pending) in
      with_value s (Read snapshot r (scan_valid_time spec)) (fun event =>
        match event with
        | None => (s, StatusOK)
        | Some e =>
            if negb (MatchesFactScanSpec spec e) then (s, StatusOK)
            else let '(pending, status) := push_event pending e in
                 ((Some identity, pending), status)
        end).

Definition StateScan (snapshot : StoreSnapshot) (state : St) : St * Status :=
  match ValidateFactScanSpec spec with
  | StatusOK =>
      match Scan snapshot (scan_prefix spec) scan_spec_bounds (state_scan_step snapshot)
              (None, (state, [])) with
      | ((_, pending), StatusOK) =>
          let '(pending, status) := FlushFactEventBatch pending in (fst pending, status)
      | ((_, pending), s) => (fst pending, s)
      end
  | s => (state, s)
  end.

End scans.

(** ** Rows of states *)

Record CanonicalStateReadSpec := mkCanonicalStateReadSpec {
  facts : FactReadSpec;
  state_valid_time : Z;
  state_snapshot_seq : Z;
  state_max_rows : option Z
}.

Record CanonicalStateRow := mkCanonicalStateRow {
  row_ref : FactRef;
  row_effective : ValidTimeInterval;
  row_commit_seq : Z;
  row_value : option Value
}.

Record StateRowStream (St : Type) := mkStateRowStream {
  stream_state : St;
  current_events : list FactEvent;
  current_ref : option FactRef;
  output : list CanonicalStateRow;
  emitted_rows : Z;
  state_limit_reached : bool;
  finished : bool
}.
Arguments mkStateRowStream {St}.
Arguments stream_state {St}.
Arguments current_events {St}.
Arguments current_ref {St}.
Arguments output {St}.
Arguments emitted_rows {St}.
Arguments state_limit_reached {St}.
Arguments finished {St}.

Definition BoundaryCommit (boundaries : list CorrectedBoundary) (from fallback : Z) : Z :=
  match list_find (fun b => boundary_valid_from b = from) boundaries with
  | Some (_, b) => boundary_commit_seq b
  | None => fallback
  end.

Section stream.

Context {St : Type} (visitor : Visitor St (list CanonicalStateRow)).
Context (spec : CanonicalStateReadSpec).

Definition state_rows_reached : Status :=
  QueryCancelled "canonical reader" "state max_rows reached".

Definition new_stream (state : St) : StateRowStream St :=
  mkStateRowStream state [] None [] 0 false false.

Definition with_output (state : St) (rows : list CanonicalStateRow) (n : Z)
    (s : StateRowStream St) : StateRowStream St :=
  mkStateRowStream state (current_events s) (current_ref s) rows n
    (state_limit_reached s) (finished s).

Definition with_current (events : list FactEvent) (ref : option FactRef)
    (s : StateRowStream St) : StateRowStream St :=
  mkStateRowStream (stream_state s) events ref (output s) (emitted_rows s)
    (state_limit_reached s) (finished s).

Definition state_stopped (s : StateRowStream St) : StateRowStream St :=
  mkStateRowStream (stream_state s) (current_events s) (current_ref s) (output s)
    (emitted_rows s) true (finished s).

Definition FlushOutput (s : StateRowStream St) : StateRowStream St * Status :=
  if bool_decide (output s = []) then (s, StatusOK)
  else
    match visitor (stream_state s) (output s) with
    | (state, StatusOK) =>
        (with_output state [] (emitted_rows s + Z.of_nat (length (output s))) s, StatusOK)
    | (state, e) => (with_output state (output s) (emitted_rows s) s, e)
    end.

(** One more row: the output goes out when it is full or has the last row allowed. *)
Definition push_row (s : StateRowStream St) (row : CanonicalStateRow)
  : StateRowStream St * Status :=
  if opt_test (state_max_rows spec)
       (fun m => (m <=? emitted_rows s)
                 || (m - emitted_rows s <=? Z.of_nat (length (output s)))) then
    (state_stopped s, state_rows_reached)
  else
    let s := with_output (stream_state s) (output s ++ [row]) (emitted_rows s) s in
    let size := Z.of_nat (length (output s)) in
    if opt_test (state_max_rows spec) (fun m => m - emitted_rows s <=? size) then
      and_then (FlushOutput s) (fun s => (state_stopped s, state_rows_reached))
    else if batch_row_limit (facts spec) <=? size then FlushOutput s
    else (s, StatusOK).

(** The row of one interval of the present state. *)
Definition row_of (ref : FactRef) (boundaries : list CorrectedBoundary)
    (state : StateInterval) : CanonicalStateRow :=
  mkCanonicalStateRow ref (interval state)
    (BoundaryCommit boundaries (from (interval state)) (state_snapshot_seq spec))
    (state_value state).

Definition flush_state (ref : FactRef) (boundaries : list CorrectedBoundary)
    (s : StateRowStream St) (state : StateInterval) : StateRowStream St * Status :=
  if negb (Contains (interval state) (state_valid_time spec)) then (s, StatusOK)
  else push_row s (row_of ref boundaries state).

(** There are events only with their reference. *)
Definition FlushCurrent (s : StateRowStream St) : StateRowStream St * Status :=
  match current_events s, current_ref s with
  | [], _ => (s, StatusOK)
  | _, None => (s, StatusOK)
  | events, Some ref =>
      with_value s (ResolveCorrectedBoundaries events (state_snapshot_seq spec))
        (fun boundaries =>
           and_then (visit (flush_state ref boundaries) s (MaterializePresentState boundaries))
             (fun s => (with_current [] (current_ref s) s, StatusOK)))
  end.

Definition consume_event (s : StateRowStream St) (e : FactEvent)
  : StateRowStream St * Status :=
  let s :=
    match current_ref s with
    | None => with_current (current_events s) (Some (event_ref e)) s
    | Some _ => s
    end in
  and_then
    (if bool_decide (current_ref s = Some (event_ref e)) then (s, StatusOK)
     else and_then (FlushCurrent s)
            (fun s => (with_current (current_events s) (Some (event_ref e)) s, StatusOK)))
    (fun s => (with_current (current_events s ++ [e]) (current_ref s) s, StatusOK)).

Definition Consume (s : StateRowStream St) (batch : list FactEvent)
  : StateRowStream St * Status :=
  if finished s then (s, InvalidArgument "state row stream" "already finished")
  else if state_limit_reached s then (s, state_rows_reached)
  else visit consume_event s batch.

Definition Finish_stream (s : StateRowStream St) : StateRowStream St * Status :=
  if finished s then (s, InvalidArgument "state row stream" "already finished")
  else
    let s := mkStateRowStream (stream_state s) (current_events s) (current_ref s) (output s)
               (emitted_rows s) (state_limit_reached s) true in
    if state_limit_reached s then (s, StatusOK)
    else
      match FlushCurrent s with
      | (s, StatusOK) => FlushOutput s
      | (s, e) =>
          if IsQueryCancelled e && state_limit_reached s then (s, StatusOK) else (s, e)
      end.

(** The rows of a source of events: [read] hands them to its visitor in batches. *)
Definition stream_rows
    (read : Visitor (StateRowStream St) (list FactEvent) -> StateRowStream St ->
            option (StateRowStream St * Status)) (state : St) : option (St * Status) :=
  '(s, status) ← read Consume (new_stream state);
  match status with
  | StatusOK => let '(s, status) := Finish_stream s in Some (stream_state s, status)
  | e =>
      if IsQueryCancelled e && state_limit_reached s then Some (stream_state s, StatusOK)
      else Some (stream_state s, e)
  end.

Definition ReadStateRows (snapshot : StoreSnapshot) (state : St) : option (St * Status) :=
  match FactReadSpec_Validate (facts spec) with
  | StatusOK =>
      if (snapshot_commit_seq snapshot <? state_snapshot_seq spec)
         && negb (state_snapshot_seq spec =? 0) then
        Some (state, InvalidArgument "canonical reader" "requested sequence exceeds snapshot")
      else if bool_decide (state_max_rows spec = Some 0) then Some (state, StatusOK)
      else
        stream_rows (fun visitor => ReadEvents visitor (without_limit (facts spec)) snapshot)
          state
  | s => Some (state, s)
  end.

End stream.

(** ** Specification *)

(** Rows in batches: a batch is handed out when it has [n] rows, the last one with what
    is left. *)
Fixpoint batches {A} (n : nat) (batch l : list A) : list (list A) :=
  match l with
  | [] => match batch with [] => [] | _ => [batch] end
  | a :: l =>
      let batch := batch ++ [a] in
      if (n <=? length batch)%nat then batch :: batches n [] l else batches n batch l
  end.

Definition limited {A} (limit : option Z) (l : list A) : list A :=
  match limit with Some m => take (Z.to_nat m) l | None => l end.

(** The field widths of a specification. *)
Definition spec_typed (spec : FactReadSpec) : Prop :=
  Forall (uint 32) (parts (part_scope spec)) /\ uint 16 (spec_property_id spec) /\
  match range_min (entity_range spec) with Some lo => uint 64 lo | None => True end /\
  match range_max_exclusive (entity_range spec) with Some hi => uint 64 hi | None => True end /\
  uint 32 (batch_row_limit spec) /\
  match max_rows spec with Some m => uint 64 m | None => True end.

(** The rows of the events of one fact, and of events in groups by their facts. *)
Definition fact_rows (spec : CanonicalStateReadSpec) (events : list FactEvent)
  : list CanonicalStateRow :=
  match events, ResolveCorrectedBoundaries events (state_snapshot_seq spec) with
  | e :: _, Ok boundaries =>
      row_of spec (event_ref e) boundaries <$>
        filter (fun s => Contains (interval s) (state_valid_time spec) = true)
          (MaterializePresentState boundaries)
  | _, _ => []
  end.

Fixpoint group_rows (spec : CanonicalStateReadSpec) (current events : list FactEvent)
  : list CanonicalStateRow :=
  match events with
  | [] => fact_rows spec current
  | e :: events =>
      match current with
      | [] => group_rows spec [e] events
      | c :: _ =>
          if bool_decide (event_ref c = event_ref e) then group_rows spec (current ++ [e]) events
          else fact_rows spec current ++ group_rows spec [e] events
      end
  end.

(** The family and the property fit together. *)
Definition spec_prefix_ok (spec : FactReadSpec) : Prop :=
  IsKnownFamily (spec_family spec) = true /\
  (IsStateFamily (spec_family spec) = false <-> spec_property_id spec <> 0).

(** The events that a specification selects at a snapshot. *)
Definition selected (S : StoreSnapshot) (spec : FactReadSpec) (e : FactEvent) : Prop :=
  MatchesReadSpec spec e = true /\ event_commit_seq e <= snapshot_commit_seq S.

(** The rows that are still allowed. *)
Definition room {St} (spec : FactReadSpec) (sink : EventSink St) : option Z :=
  m ← max_rows spec; Some (m - emitted sink - Z.of_nat (length (sink_batch sink))).

Definition row_room {St} (spec : CanonicalStateReadSpec) (s : StateRowStream St) : option Z :=
  m ← state_max_rows spec; Some (m - emitted_rows s - Z.of_nat (length (output s))).

(** What a reader makes of the stream in the end. *)
Definition finish_rows {St} (visitor : Visitor St (list CanonicalStateRow))
    (r : StateRowStream St * Status) : St * Status :=
  match r with
  | (s, StatusOK) => let '(s, e) := FlushOutput visitor s in (stream_state s, e)
  | (s, e) =>
      if IsQueryCancelled e && state_limit_reached s then (stream_state s, StatusOK)
      else (stream_state s, e)
  end.

(** The stream with other events that wait. *)
Definition reframe {St} (c : list FactEvent) (r : option FactRef) (f : bool)
    (s : StateRowStream St) : StateRowStream St :=
  mkStateRowStream (stream_state s) c r (output s) (emitted_rows s) (state_limit_reached s) f.

Definition erase {St} (s : StateRowStream St) : StateRowStream St := reframe [] None false s.

(** Well-formed events of one fact. *)
Definition group_ok (events : list FactEvent) : Prop :=
  Forall (fun e => FactEvent_Validate e = StatusOK) events /\
  match events with [] => True | c :: _ => Forall (fun e => event_ref e = event_ref c) events end.

Definition stream_ok {St} (s : StateRowStream St) : Prop :=
  group_ok (current_events s) /\
  current_ref s = match current_events s with [] => None | c :: _ => Some (event_ref c) end.

(** Well-formed events, those of a fact next to each other in the order of the facts. *)
Definition fact_le (a b : FactRef) : Prop := ref_compare a b <> Gt.

Definition in_groups (evs : list FactEvent) : Prop :=
  Forall (fun e => FactEvent_Validate e = StatusOK) evs /\
  StronglySorted (fun a b => fact_le (event_ref a) (event_ref b)) evs.

Definition others (r : FactRef) (evs : list FactEvent) : list FactEvent :=
  filter (fun e => event_ref e <> r) evs.

(** A row shows the state of a fact that the events leave at the time of the read. *)
Definition row_shows (spec : CanonicalStateReadSpec) (events : list FactEvent)
    (row : CanonicalStateRow) : Prop :=
  exists e, effective events (state_snapshot_seq spec) (state_valid_time spec) = Some e /\
    event_operation e = kPut /\ same_value (event_value e) (row_value row) /\
    Contains (row_effective row) (state_valid_time spec) = true.

(** One row for every fact that is present, in the order of the facts. *)
Definition rows_show (spec : CanonicalStateReadSpec) (events : list FactEvent)
    (rows : list CanonicalStateRow) : Prop :=
  StronglySorted (fun a b => ref_compare (row_ref a) (row_ref b) = Lt) rows /\
  (forall row, row ∈ rows -> row_shows spec (history events (row_ref row)) row) /\
  forall r e, effective (history events r) (state_snapshot_seq spec) (state_valid_time spec) = Some e ->
    event_operation e = kPut -> exists row, row ∈ rows /\ row_ref row = r.

(** The field widths of a scan specification. *)
Definition scan_typed (spec : FactScanSpec) : Prop :=
  uint 32 (scan_part_id spec) /\ uint 16 (scan_property_id spec) /\
  uint 64 (scan_valid_time spec) /\ uint 32 (scan_batch_row_limit spec) /\
  bounds_typed (scan_spec_bounds spec).

(** What a scan of a partition visits. *)
Definition scanned_by (S : StoreSnapshot) (spec : FactScanSpec) (e : FactEvent) : Prop :=
  in_prefix (scan_prefix spec) (event_ref e) /\
  in_bounds (scan_spec_bounds spec) (ref_entity_id (event_ref e)) /\
  event_commit_seq e <= snapshot_commit_seq S.

(** The facts of scanned events, behind the one that was seen last. *)
Fixpoint new_refs (last : option FactRef) (evs : list FactEvent) : list FactRef :=
  match evs with
  | [] => []
  | e :: evs =>
      if bool_decide (last = Some (event_ref e)) then new_refs last evs
      else event_ref e :: new_refs (Some (event_ref e)) evs
  end.

Definition identity_of (r : FactRef) : Z * Z * Z * Z :=
  (ref_part_id r, FactFamily_to_u8 (ref_family r), ref_property_id r, ref_entity_id r).

(** A read of a property in all partitions, two rows at a time. *)
Definition sample_read_spec : FactReadSpec :=
  mkFactReadSpec PartScope_All kVertexProperty 4 (mkEntityRange None None) None None None None []
    2 (Some 3).

Definition sample_state_spec : CanonicalStateReadSpec :=
  mkCanonicalStateReadSpec sample_read_spec 12 5 None.

(** ** Batches *)

Lemma batches_concat {A} n (batch l : list A) : concat (batches n batch l) = batch ++ l.
Proof.
  revert batch. induction l as [|a l IH]; intros batch; cbn.
  - destruct batch; cbn; by rewrite ?app_nil_r.
  - case_match; cbn; rewrite IH; by rewrite <- ?app_assoc.
Qed.

Lemma batches_sizes {A} n (batch l : list A) :
  (0 < n)%nat -> (length batch < n)%nat ->
  Forall (fun b => b <> [] /\ (length b <= n)%nat) (batches n batch l).
Proof.
  intros Hn. revert batch. induction l as [|a l IH]; intros batch Hb; cbn.
  - destruct batch; [constructor|]. constructor; [|constructor]. split; [done|cbn in *; lia].
  - destruct (Nat.leb_spec n (length (batch ++ [a]))) as [Hle|Hlt].
    + constructor; [|apply IH; cbn; lia]. rewrite length_app in *. cbn in *.
      split; [by destruct batch|lia].
    + by apply IH.
Qed.

(** ** Visits *)

Lemma visit_filter {St A} (P : A -> bool) (f : Visitor St A) state l :
  visit (fun s a => if P a then f s a else (s, StatusOK)) state l
  = visit f state (filter (fun a => P a = true) l).
Proof.
  revert state. induction l as [|a l IH]; intros state; [done|]. cbn [visit].
  rewrite filter_cons. destruct (P a) eqn:E.
  - rewrite decide_True by done. cbn [visit]. destruct (f state a) as [? []]; [apply IH|done].
  - rewrite decide_False by done. apply IH.
Qed.

Lemma visit_concat {St A} (f : Visitor St A) state ll :
  visit (fun s l => visit f s l) state ll = visit f state (concat ll).
Proof.
  revert state. induction ll as [|l ll IH]; intros state; [done|]. cbn [visit concat].
  rewrite visit_app. destruct (visit f state l) as [? []]; [apply IH|done].
Qed.

Lemma visit_fmap {St A B} (f : Visitor St B) (g : A -> B) state l :
  visit (fun s a => f s (g a)) state l = visit f state (g <$> l).
Proof.
  revert state. induction l as [|a l IH]; intros state; [done|].
  rewrite fmap_cons. cbn [visit]. destruct (f state (g a)) as [? []]; [apply IH|done].
Qed.

(** ** The sink of events *)

Section sink.

Context {St : Type} (visitor : Visitor St (list FactEvent)) (spec : FactReadSpec).
Hypothesis Hbatch : 0 < batch_row_limit spec.

Lemma visit_one {A} (f : Visitor St A) state a : visit f state [a] = f state a.
Proof. cbn. by destruct (f state a) as [? []]. Qed.

Lemma limited_cons {A} k (a : A) l :
  1 < k -> limited (Some k) (a :: l) = a :: limited (Some (k - 1)) l.
Proof. intros Hk. cbn. by replace (Z.to_nat k) with (S (Z.to_nat (k - 1))) by lia. Qed.

Lemma batches_last {A} n batch (a : A) :
  batches n batch [a] = [batch ++ [a]].
Proof. cbn. case_match; [done|]. by destruct batch. Qed.

Lemma append_events_spec evs sink :
  limit_reached sink = false ->
  Z.of_nat (length (sink_batch sink)) < batch_limit spec ->
  (forall k, room spec sink = Some k -> 0 < k) ->
  finish_events visitor (visit (append_event visitor spec) sink evs)
  = visit visitor (sink_state sink)
      (batches (Z.to_nat (batch_limit spec)) (sink_batch sink) (limited (room spec sink) evs)).
Proof.
  revert sink. induction evs as [|e evs IH]; intros [st batch n l] Hl Hb Hroom;
    cbn [sink_state sink_batch limit_reached emitted] in *; subst l.
  { cbn [visit finish_events]. replace (limited _ []) with (@nil FactEvent)
      by (destruct (room spec _); cbn; by rewrite ?take_nil).
    destruct batch; [done|]. cbn [batches]. by rewrite visit_one. }
  cbn [visit]. unfold append_event at 1. cbn [sink_state sink_batch limit_reached emitted].
  unfold room in *. cbn [sink_batch emitted] in *.
  assert (length (batch ++ [e]) = S (length batch)) as Hlen by (rewrite length_app; cbn; lia).
  destruct (max_rows spec) as [m|] eqn:Em; cbn [opt_test mbind option_bind] in *.
  - specialize (Hroom _ eq_refl). rewrite (proj2 (Z.leb_gt m n)) by lia.
    destruct (Z.leb_spec (m - n) (Z.of_nat (length (batch ++ [e])))) as [Hr|Hr]; cbn [negb andb].
    + replace (m - n - Z.of_nat (length batch)) with 1 by lia.
      replace (limited (Some 1) (e :: evs)) with [e] by done.
      rewrite batches_last, visit_one. by destruct (visitor st _) as [st' []].
    + rewrite limited_cons by lia. cbn [batches].
      destruct (Z.ltb_spec (Z.of_nat (length (batch ++ [e]))) (batch_limit spec)).
      * rewrite (proj2 (Nat.leb_gt _ _)) by lia. cbn [and_then]. rewrite IH; cbn; try done.
        -- do 4 f_equal. lia.
        -- intros k [= <-]. lia.
      * rewrite (proj2 (Nat.leb_le _ _)) by lia. cbn [visit].
        destruct (visitor st _) as [st' []]; [|done]. cbn [and_then]. rewrite IH; cbn; try done.
        -- do 4 f_equal. lia.
        -- lia.
        -- intros k [= <-]. lia.
  - cbn [negb andb limited batches].
    destruct (Z.ltb_spec (Z.of_nat (length (batch ++ [e]))) (batch_limit spec)).
    + rewrite (proj2 (Nat.leb_gt _ _)) by lia. cbn [and_then]. by rewrite IH.
    + rewrite (proj2 (Nat.leb_le _ _)) by lia. cbn [visit].
      destruct (visitor st _) as [st' []]; [|done]. cbn [and_then]. rewrite IH; cbn; try done.
      unfold batch_limit. rewrite Em. lia.
Qed.

End sink.

Lemma batches_min {A} (n m : nat) (batch l : list A) :
  (length batch + length l <= m)%nat -> batches (n `min` m) batch l = batches n batch l.
Proof.
  revert batch. induction l as [|a l IH]; intros batch Hm; [done|]. cbn [batches length] in *.
  assert (length (batch ++ [a]) = S (length batch)) as Hlen by (rewrite length_app; cbn; lia).
  destruct (Nat.leb_spec (n `min` m) (length (batch ++ [a]))),
    (Nat.leb_spec n (length (batch ++ [a]))); try lia.
  - rewrite IH; [done|]. cbn. lia.
  - destruct l; [|cbn in Hm; lia]. by destruct batch.
  - apply IH. lia.
Qed.

(** ** Events by partition *)

Lemma sorted_split_at {A} (m : A -> Z) p (P : A -> Prop) `{!forall x, Decision (P x)} l :
  StronglySorted (fun a b => m a <= m b) l ->
  filter P l = filter (fun x => P x /\ m x <= p) l ++ filter (fun x => P x /\ p < m x) l.
Proof.
  induction 1 as [|a l Hs IH Hall]; [done|]. rewrite !filter_cons.
  destruct (decide (m a <= p)) as [Hle|Hgt].
  - rewrite (decide_False (P := P a /\ p < m a)) by lia. rewrite IH.
    by destruct (decide (P a)); [rewrite (decide_True (P := P a /\ m a <= p)) by done
                                |rewrite (decide_False (P := P a /\ m a <= p)) by tauto].
  - rewrite (decide_False (P := P a /\ m a <= p)) by lia.
    rewrite (filter_none (fun x => P x /\ m x <= p)).
    + cbn [app]. assert (filter P l = filter (fun x => P x /\ p < m x) l) as ->.
      { rewrite IH, filter_none; [done|]. eapply Forall_impl; [exact Hall|]. cbn. lia. }
      by destruct (decide (P a)); [rewrite decide_True by (split; [done|lia])
                                  |rewrite decide_False by tauto].
    + eapply Forall_impl; [exact Hall|]. cbn. lia.
Qed.

Lemma concat_parts {A} (m : A -> Z) (Q : A -> Prop) `{!forall x, Decision (Q x)} parts l :
  StronglySorted (fun a b => m a <= m b) l -> StronglySorted Z.lt parts ->
  concat ((fun p => filter (fun x => m x = p /\ Q x) l) <$> parts)
  = filter (fun x => m x ∈ parts /\ Q x) l.
Proof.
  intros Hl. induction 1 as [|p parts Hp IH Hall]; cbn.
  { rewrite filter_none; [done|]. apply Forall_forall. intros x _ [?%not_elem_of_nil _]. done. }
  rewrite (sorted_split_at m p (fun x => m x ∈ p :: parts /\ Q x) l Hl). f_equal.
  - apply filter_ext_on. intros x _. rewrite elem_of_cons. rewrite Forall_forall in Hall.
    split; [intros [-> ?]; split; [by split; [left|]|lia]|].
    intros [[[?|Hx] ?] ?]; [done|]. specialize (Hall _ Hx). lia.
  - rewrite IH. apply filter_ext_on. intros x _. rewrite elem_of_cons, Forall_forall in *.
    split; [intros [Hx ?]; split; [by split; [right|]|by apply Hall]|].
    intros [[[?|?] ?] ?]; [lia|done].
Qed.

(** ** Specifications that validate *)

Lemma parts_strict l :
  parts_sorted l = true -> adjacent_equal l = false -> StronglySorted Z.lt l.
Proof.
  intros Hs Ha. apply Sorted_StronglySorted; [intros ? ? ?; lia|].
  induction l as [|a l IH]; [constructor|]. destruct l as [|b l]; [by repeat constructor|].
  cbn in Hs, Ha. apply andb_true_iff in Hs as [Hab Hs]. apply orb_false_iff in Ha as [Hne Ha].
  constructor; [by apply IH|]. constructor. bool_to_prop. lia.
Qed.

Lemma FactReadSpec_Validate_OK spec :
  FactReadSpec_Validate spec = StatusOK ->
  PartScope_Validate (part_scope spec) = StatusOK /\
  EntityRange_Validate (entity_range spec) = StatusOK /\ batch_row_limit spec <> 0.
Proof.
  unfold FactReadSpec_Validate.
  destruct (PartScope_Validate _) eqn:E1; [|by cbn]. cbn [check mbind StatusOr_bind].
  destruct (EntityRange_Validate _) eqn:E2; [|by cbn]. cbn [check mbind StatusOr_bind].
  destruct (Z.eqb_spec (batch_row_limit spec) 0); [by cbn|]. done.
Qed.

Lemma PartScope_Validate_strict scope :
  PartScope_Validate scope = StatusOK -> scope_kind scope <> scope_all ->
  StronglySorted Z.lt (parts scope).
Proof.
  unfold PartScope_Validate. intros H Hk.
  destruct (scope_kind scope); [| |done];
    (repeat match type of H with (if ?b then _ else _) = _ => destruct b eqn:? end; try done;
     apply parts_strict; [|done]; bool_to_prop; done).
Qed.

Lemma MatchesReadSpec_true spec e :
  MatchesReadSpec spec e = true ->
  (scope_kind (part_scope spec) <> scope_all -> ref_part_id (event_ref e) ∈ parts (part_scope spec)) /\
  ref_family (event_ref e) = spec_family spec /\
  ref_property_id (event_ref e) = spec_property_id spec /\
  (forall m, range_min (entity_range spec) = Some m -> m <= ref_entity_id (event_ref e)) /\
  (forall m, range_max_exclusive (entity_range spec) = Some m -> ref_entity_id (event_ref e) < m).
Proof.
  unfold MatchesReadSpec, PartScope_Contains. intros H.
  destruct (_ || _) eqn:E1 in H; [done|]. apply orb_false_iff in E1 as [E1 E3].
  apply orb_false_iff in E1 as [E1 E2].
  destruct (opt_test (range_min _) _) eqn:E4 in H; [done|].
  destruct (opt_test (range_max_exclusive _) _) eqn:E5 in H; [done|]. clear H.
  apply negb_false_iff in E1, E2, E3. split_and!.
  - intros Hk. rewrite bool_decide_false in E1 by done. by apply bool_decide_eq_true in E1.
  - by apply bool_decide_eq_true in E2.
  - by apply Z.eqb_eq in E3.
  - intros m Hm. rewrite Hm in E4. cbn in E4. lia.
  - intros m Hm. rewrite Hm in E5. cbn in E5. lia.
Qed.

Lemma family_prefix_ok spec part :
  spec_prefix_ok spec ->
  FactPrefix_Validate (FactPrefix_Family part (spec_family spec) (spec_property_id spec)) = StatusOK.
Proof.
  intros [Hk Hp]. unfold FactPrefix_Validate, FactRef_Validate. cbn. rewrite Hk. cbn.
  destruct (IsStateFamily (spec_family spec)), (Z.eqb_spec (spec_property_id spec) 0); cbn; try done;
    naive_solver.
Qed.

(** ** Reads of events *)

Section read_events.

Context {S : StoreSnapshot} {evs : list FactEvent} {spec : FactReadSpec}.
Hypothesis Hst : stored_in_order (snapshot_facts S) evs.
Hypothesis Howned : snapshot_owned S = true.
Hypothesis Hval : FactReadSpec_Validate spec = StatusOK.
Hypothesis Htyped : spec_typed spec.
Hypothesis Hprefix : spec_prefix_ok spec.

Lemma scan_part_selected {St} (visitor : Visitor St (list FactEvent)) sink part :
  part ∈ parts (part_scope spec) ->
  scan_part visitor spec S sink part
  = visit (append_event visitor spec) sink
      (filter (fun e => ref_part_id (event_ref e) = part /\ selected S spec e) evs).
Proof.
  intros Hpart. destruct Htyped as (Hparts & Hprop & Hlo & Hhi & _). rewrite Forall_forall in Hparts.
  destruct (FactReadSpec_Validate_OK _ Hval) as (_ & Hrange & _).
  unfold scan_part. rewrite (Scan_OK S _ _ _ _ evs); try done.
  - unfold append_matching. rewrite visit_filter, list_filter_filter. f_equal.
    apply filter_ext_on. intros e _. unfold selected, in_prefix, in_bounds, at_least. cbn. split.
    + intros [Hm ((Hp & _) & _ & ?)]. done.
    + intros (Hp & Hm & ?). pose proof (MatchesReadSpec_true _ _ Hm) as (_ & ? & ? & Hl & Hh).
      split_and!; try done.
      * destruct (range_min _); [by apply Hl|done].
      * destruct (range_max_exclusive _) as [hi|]; [|done]. specialize (Hh _ eq_refl).
        destruct (Z.eqb_spec hi 0); [done|]. lia.
  - split; [by apply Hparts|]. by split.
  - unfold bounds_typed, scan_bounds. cbn. split; [done|].
    destruct (range_max_exclusive _) as [hi|]; [|done]. destruct (Z.eqb_spec hi 0); [done|].
    unfold uint in *. lia.
  - by apply family_prefix_ok.
  - unfold scan_bounds. cbn. unfold EntityRange_Validate in Hrange.
    destruct (range_min _) as [lo|]; [|done]. destruct (range_max_exclusive _) as [hi|]; [|done].
    destruct (Z.leb_spec hi lo); [done|]. destruct (Z.eqb_spec hi 0); [done|]. lia.
Qed.

Lemma visit_ext {St A} (f g : Visitor St A) state l :
  (forall s a, a ∈ l -> f s a = g s a) -> visit f state l = visit g state l.
Proof.
  revert state. induction l as [|a l IH]; intros state H; [done|]. cbn [visit].
  rewrite H by by left. destruct (g state a) as [? []]; [|done].
  cbn. apply IH. intros. apply H. by right.
Qed.

Lemma scanned_selected {St} (visitor : Visitor St (list FactEvent)) sink :
  (if bool_decide (scope_kind (part_scope spec) = scope_all)
   then ScanFamily S (spec_family spec) (append_matching visitor spec) sink
   else Some (visit (scan_part visitor spec S) sink (parts (part_scope spec))))
  = Some (visit (append_event visitor spec) sink (filter (selected S spec) evs)).
Proof.
  destruct (FactReadSpec_Validate_OK _ Hval) as (Hscope & _).
  case_bool_decide as Hk.
  - rewrite (ScanFamily_OK S _ _ _ evs Hst); [|apply Hprefix|done]. unfold append_matching.
    rewrite visit_filter, list_filter_filter. do 2 f_equal. apply filter_ext_on. intros e _.
    unfold selected. split; [tauto|]. intros [Hm ?]. split_and!; try done.
    by apply MatchesReadSpec_true in Hm as (_ & ? & _).
  - f_equal. rewrite (visit_ext _ (fun s p => visit (append_event visitor spec) s
      (filter (fun e => ref_part_id (event_ref e) = p /\ selected S spec e) evs)))
      by (intros s p Hp; by apply scan_part_selected).
    rewrite (visit_fmap (fun s l => visit (append_event visitor spec) s l)), visit_concat.
    f_equal. rewrite (concat_parts (fun e => ref_part_id (event_ref e)));
      [|by eapply stored_parts|by apply PartScope_Validate_strict].
    apply filter_ext_on. intros e _. split; [tauto|]. intros [Hm ?]. split; [|done].
    by apply MatchesReadSpec_true in Hm as (Hp & _); apply Hp.
Qed.

Lemma ReadEvents_OK {St} (visitor : Visitor St (list FactEvent)) state :
  ReadEvents visitor spec S state
  = Some (visit visitor state
      (batches (Z.to_nat (batch_row_limit spec)) []
         (limited (max_rows spec) (filter (selected S spec) evs)))).
Proof.
  unfold ReadEvents. rewrite Hval. destruct (FactReadSpec_Validate_OK _ Hval) as (_ & _ & Hb0).
  destruct Htyped as (_ & _ & _ & _ & Hb & Hm).
  case_bool_decide as Hzero; [by rewrite Hzero|].
  rewrite scanned_selected. cbn [fmap option_fmap option_map]. f_equal.
  assert (0 < batch_limit spec) as Hlim.
  { unfold batch_limit, uint in *. destruct (max_rows spec) as [m|]; [|lia].
    assert (m <> 0) by congruence. lia. }
  rewrite append_events_spec; cbn; try done.
  - f_equal. unfold room, batch_limit. cbn. destruct (max_rows spec) as [m|]; cbn; [|done].
    change (Z.of_nat 0) with 0. rewrite !Z.sub_0_r.
    replace (Z.to_nat (Z.min _ m)) with (Z.to_nat (batch_row_limit spec) `min` Z.to_nat m)%nat by lia.
    apply batches_min. cbn. rewrite length_take. lia.
  - unfold uint in *. lia.
  - unfold room. intros k Hk. destruct (max_rows spec) as [m|]; [|done]. injection Hk as <-. cbn.
    assert (m <> 0) by congruence. unfold uint in *. lia.
Qed.

End read_events.

(** ** Rows of states *)

Section rows.

Context {St : Type} (visitor : Visitor St (list CanonicalStateRow)).
Context (spec : CanonicalStateReadSpec).
Hypothesis Hbatch : 0 < batch_row_limit (facts spec).

Lemma FlushOutput_visit s :
  finish_rows visitor (s, StatusOK) = visit visitor (stream_state s)
    (match output s with [] => [] | _ => [output s] end).
Proof.
  unfold finish_rows, FlushOutput. destruct (output s) as [|r l] eqn:E; [done|].
  rewrite bool_decide_false by done. rewrite visit_one.
  by destruct (visitor (stream_state s) _) as [st []].
Qed.

Lemma push_rows_spec rows s :
  state_limit_reached s = false ->
  Z.of_nat (length (output s)) < batch_row_limit (facts spec) ->
  (forall k, row_room spec s = Some k -> 0 < k) ->
  finish_rows visitor (visit (push_row visitor spec) s rows)
  = visit visitor (stream_state s)
      (batches (Z.to_nat (batch_row_limit (facts spec))) (output s) (limited (row_room spec s) rows)).
Proof.
  revert s. induction rows as [|row rows IH]; intros [st cur ref out n l fin] Hl Hb Hroom;
    cbn [stream_state output emitted_rows state_limit_reached] in *; subst l.
  { cbn [visit]. rewrite FlushOutput_visit. cbn [stream_state output].
    replace (limited _ []) with (@nil CanonicalStateRow)
      by (destruct (row_room spec _); cbn; by rewrite ?take_nil). by destruct out. }
  cbn [visit]. unfold push_row at 1. unfold row_room in *.
  cbn [stream_state output emitted_rows state_limit_reached with_output] in *.
  assert (length (out ++ [row]) = S (length out)) as Hlen by (rewrite length_app; cbn; lia).
  assert (bool_decide (out ++ [row] = []) = false) as Hne by (apply bool_decide_false; by destruct out).
  unfold FlushOutput. cbn [stream_state output emitted_rows with_output]. rewrite Hne.
  destruct (state_max_rows spec) as [m|] eqn:Em; cbn [opt_test mbind option_bind] in *.
  - specialize (Hroom _ eq_refl).
    rewrite (proj2 (Z.leb_gt m n)), (proj2 (Z.leb_gt (m - n) _)) by lia. cbn [orb].
    destruct (Z.leb_spec (m - n) (Z.of_nat (length (out ++ [row])))) as [Hr|Hr].
    + replace (m - n - Z.of_nat (length out)) with 1 by lia.
      replace (limited (Some 1) (row :: rows)) with [row] by done.
      rewrite batches_last, visit_one. by destruct (visitor st _) as [st' []]; cbn; rewrite ?andb_false_r.
    + rewrite limited_cons by lia. cbn [batches].
      destruct (Z.leb_spec (batch_row_limit (facts spec)) (Z.of_nat (length (out ++ [row])))).
      * rewrite (proj2 (Nat.leb_le _ _)) by lia. cbn [visit].
        destruct (visitor st _) as [st' []]; [|by cbn; rewrite ?andb_false_r].
        cbn [and_then]. rewrite IH; cbn; try done.
        -- do 4 f_equal. lia.
        -- intros k [= <-]. lia.
      * rewrite (proj2 (Nat.leb_gt _ _)) by lia. cbn [and_then]. rewrite IH; cbn; try done.
        -- do 4 f_equal. lia.
        -- intros k [= <-]. lia.
  - cbn [limited batches].
    destruct (Z.leb_spec (batch_row_limit (facts spec)) (Z.of_nat (length (out ++ [row])))).
    + rewrite (proj2 (Nat.leb_le _ _)) by lia. cbn [visit].
      destruct (visitor st _) as [st' []]; [|by cbn; rewrite ?andb_false_r].
      cbn [and_then]. by rewrite IH.
    + rewrite (proj2 (Nat.leb_gt _ _)) by lia. cbn [and_then]. by rewrite IH.
Qed.

Lemma push_row_reframe c r f s row :
  push_row visitor spec (reframe c r f s) row
  = prod_map (reframe c r f) id (push_row visitor spec s row).
Proof.
  destruct s as [st cur ref out n l fin]. unfold push_row, FlushOutput, reframe, with_output.
  cbn. repeat (case_match; cbn; try done); by simplify_eq.
Qed.

Lemma push_rows_reframe c r f s rows :
  visit (push_row visitor spec) (reframe c r f s) rows
  = prod_map (reframe c r f) id (visit (push_row visitor spec) s rows).
Proof.
  revert s. induction rows as [|row rows IH]; intros s; [done|]. cbn [visit].
  rewrite push_row_reframe. destruct (push_row visitor spec s row) as [s' []]; [apply IH|done].
Qed.

Lemma push_row_Ok s row s' :
  push_row visitor spec s row = (s', StatusOK) ->
  state_limit_reached s' = state_limit_reached s /\ finished s' = finished s.
Proof.
  unfold push_row, FlushOutput. repeat (case_match; cbn; try done); intros [= <-]; by simplify_eq/=.
Qed.

Lemma push_rows_Ok s rows s' :
  visit (push_row visitor spec) s rows = (s', StatusOK) ->
  state_limit_reached s' = state_limit_reached s /\ finished s' = finished s.
Proof.
  revert s. induction rows as [|row rows IH]; intros s; cbn [visit]; [by intros [= <-]|].
  destruct (push_row visitor spec s row) as [s1 []] eqn:E; [|done]. cbn.
  intros [-> ->]%IH. by apply push_row_Ok in E.
Qed.

Lemma group_resolves events :
  group_ok events -> is_Some (match ResolveCorrectedBoundaries events (state_snapshot_seq spec) with
                              | Ok bs => Some bs | Fail _ => None end).
Proof.
  intros [Hv Hr].
  assert (exists bs, ResolveCorrectedBoundaries events (state_snapshot_seq spec) = Ok bs) as [bs ->];
    [|by eexists].
  eexists. apply ResolveCorrectedBoundaries_Ok. split; [done|].
  assert (forall (P : FactEvent -> Prop), Forall P events ->
    Forall P (visible_events (state_snapshot_seq spec) events)) as Hvis.
  { intros P HP. apply Forall_forall. intros e [He _]%elem_of_visible.
    rewrite Forall_forall in HP. by apply HP. }
  split; [by apply Hvis|]. destruct events as [|c l]; [by exists (mkFactRef 0 kVertexState 0 0)|].
  exists (event_ref c). by apply Hvis.
Qed.

Lemma flush_states ref bs s states :
  visit (flush_state visitor spec ref bs) s states
  = visit (push_row visitor spec) s
      (row_of spec ref bs <$> filter (fun s => Contains (interval s) (state_valid_time spec) = true) states).
Proof.
  rewrite <- (visit_fmap (push_row visitor spec) (row_of spec ref bs)), <- visit_filter.
  apply visit_ext. intros s' a _. unfold flush_state. by destruct (Contains _ _).
Qed.

Lemma FlushCurrent_rows s :
  stream_ok s ->
  FlushCurrent visitor spec s
  = and_then (visit (push_row visitor spec) s (fact_rows spec (current_events s)))
      (fun s => (with_current [] (current_ref s) s, StatusOK)).
Proof.
  intros [Hg Hr]. unfold FlushCurrent, fact_rows. destruct (group_resolves _ Hg) as [bs Hbs].
  destruct (current_events s) as [|c l] eqn:Ec.
  { cbn. by destruct s; cbn in *; subst. }
  rewrite Hr. destruct (ResolveCorrectedBoundaries _ _) as [bs'|]; [|done]. cbn [with_value].
  by rewrite flush_states.
Qed.

Lemma erase_push c r f s rows :
  prod_map erase id (visit (push_row visitor spec) (reframe c r f s) rows)
  = prod_map erase id (visit (push_row visitor spec) s rows).
Proof. rewrite push_rows_reframe. by destruct (visit _ _ _) as [[] ?]. Qed.

Lemma FlushCurrent_erase s :
  stream_ok s ->
  prod_map erase id (FlushCurrent visitor spec s)
  = prod_map erase id (visit (push_row visitor spec) s (fact_rows spec (current_events s))).
Proof. intros Hok. rewrite FlushCurrent_rows by done. by destruct (visit _ _ _) as [[] []]. Qed.

Lemma consume_rows evs s :
  stream_ok s -> Forall (fun e => FactEvent_Validate e = StatusOK) evs ->
  prod_map erase id (and_then (visit (consume_event visitor spec) s evs)
                       (FlushCurrent visitor spec))
  = prod_map erase id (visit (push_row visitor spec) s (group_rows spec (current_events s) evs)).
Proof.
  revert s. induction evs as [|e evs IH]; intros s Hok Hv.
  { by apply FlushCurrent_erase. }
  apply Forall_cons in Hv as [He Hv]. pose proof Hok as [[Hg1 Hg2] Hr]. cbn [visit group_rows].
  assert (forall s' : StateRowStream St, group_ok [e] -> stream_ok (with_current [e] (Some (event_ref e)) s')) as Hone
    by done.
  assert (group_ok [e]) as Hge by (split; by repeat constructor). specialize (fun s => Hone s Hge).
  unfold consume_event at 1. destruct (current_events s) as [|c l] eqn:Ec; rewrite Hr.
  - cbn [current_ref with_current]. rewrite bool_decide_true by done. cbn [and_then].
    cbn [current_events with_current]. rewrite ?Ec. cbn [app]. rewrite IH by auto.
    apply (erase_push [e] (Some (event_ref e)) (finished s) s).
  - cbv zeta. rewrite Hr. case_bool_decide as Hsame.
    + injection Hsame as Hsame. rewrite (bool_decide_true (event_ref c = event_ref e)) by done.
      cbn [and_then]. rewrite ?Ec. rewrite IH; [|split; [split|]; cbn [with_current current_events]|done].
      * apply (erase_push _ _ (finished s) s).
      * apply Forall_app. by rewrite Forall_singleton.
      * cbn [app]. apply Forall_cons in Hg2 as [? Hg2]. constructor; [done|].
        apply Forall_app. by rewrite Forall_singleton.
      * done.
    + rewrite (bool_decide_false (event_ref c = event_ref e)) by congruence.
      rewrite FlushCurrent_rows, visit_app, Ec by done.
      destruct (visit (push_row visitor spec) s _) as [s' []]; [|done]. cbn [and_then].
      cbn [current_events with_current app]. rewrite IH by auto.
      apply (erase_push [e] (Some (event_ref e)) (finished s') s').
Qed.

Lemma finish_rows_erase r : finish_rows visitor (prod_map erase id r) = finish_rows visitor r.
Proof.
  destruct r as [[st cur ref out n l fin] []]; [|done]. cbn. unfold FlushOutput. cbn.
  repeat (case_match; cbn; try done); by simplify_eq/=.
Qed.

Lemma consume_event_Ok s e s' :
  stream_ok s -> FactEvent_Validate e = StatusOK ->
  consume_event visitor spec s e = (s', StatusOK) ->
  stream_ok s' /\ state_limit_reached s' = state_limit_reached s /\ finished s' = finished s.
Proof.
  intros Hok He. pose proof Hok as [[Hg1 Hg2] Hr]. unfold consume_event.
  assert (group_ok [e]) as Hge by (split; by repeat constructor).
  destruct (current_events s) as [|c l] eqn:Ec; rewrite Hr.
  - cbn [current_ref with_current]. rewrite bool_decide_true by done. cbn [and_then].
    cbn [current_events with_current]. rewrite ?Ec. by intros [= <-].
  - cbv zeta. rewrite Hr. case_bool_decide as Hsame.
    + injection Hsame as Hsame. cbn [and_then]. intros [= <-]. rewrite ?Ec. split; [|done].
      split; [split|]; cbn [with_current current_events app]; [| |done].
      * apply Forall_cons in Hg1 as [? ?]. constructor; [done|]. apply Forall_app.
        by rewrite Forall_singleton.
      * apply Forall_cons in Hg2 as [? ?]. constructor; [done|]. apply Forall_app.
        by rewrite Forall_singleton.
    + rewrite FlushCurrent_rows by done.
      destruct (visit (push_row visitor spec) s _) as [s1 []] eqn:E; [|done].
      apply push_rows_Ok in E. cbn [and_then]. intros [= <-]. by split.
Qed.

Lemma Consume_batches bs s :
  stream_ok s -> state_limit_reached s = false -> finished s = false ->
  Forall (fun e => FactEvent_Validate e = StatusOK) (concat bs) ->
  visit (Consume visitor spec) s bs = visit (consume_event visitor spec) s (concat bs).
Proof.
  revert s. induction bs as [|b bs IH]; intros s Hok Hl Hf Hv; [done|]. cbn [visit concat] in *.
  rewrite visit_app. unfold Consume at 1. rewrite Hl, Hf.
  apply Forall_app in Hv as [Hb Hv].
  assert (forall s', visit (consume_event visitor spec) s b = (s', StatusOK) ->
    stream_ok s' /\ state_limit_reached s' = false /\ finished s' = false) as H.
  { clear IH Hv. revert s Hok Hl Hf. induction b as [|e b IHb]; intros s Hok Hl Hf s'; cbn [visit].
    - by intros [= <-].
    - apply Forall_cons in Hb as [He Hb].
      destruct (consume_event visitor spec s e) as [s1 []] eqn:E; [|done]. cbn [and_then].
      apply consume_event_Ok in E as (? & ? & ?); [|done..]. apply IHb; congruence. }
  destruct (visit (consume_event visitor spec) s b) as [s' []]; [|done]. cbn [and_then].
  destruct (H s' eq_refl) as (? & ? & ?). by apply IH.
Qed.

Lemma consume_events_Ok evs s s' :
  stream_ok s -> Forall (fun e => FactEvent_Validate e = StatusOK) evs ->
  visit (consume_event visitor spec) s evs = (s', StatusOK) ->
  stream_ok s' /\ state_limit_reached s' = state_limit_reached s /\ finished s' = finished s.
Proof.
  revert s. induction evs as [|e evs IH]; intros s Hok Hv; cbn [visit]; [by intros [= <-]|].
  apply Forall_cons in Hv as [He Hv].
  destruct (consume_event visitor spec s e) as [s1 []] eqn:E; [|done]. cbn [and_then].
  apply consume_event_Ok in E as (? & <- & <-); [|done..]. by apply IH.
Qed.

(** A stream over a source of events hands out the rows of its groups. *)
Lemma stream_rows_OK read bs state :
  (forall k, state_max_rows spec = Some k -> 0 < k) ->
  read (Consume visitor spec) (new_stream state)
  = Some (visit (Consume visitor spec) (new_stream state) bs) ->
  Forall (fun e => FactEvent_Validate e = StatusOK) (concat bs) ->
  stream_rows visitor spec read state
  = Some (visit visitor state
      (batches (Z.to_nat (batch_row_limit (facts spec))) []
         (limited (state_max_rows spec) (group_rows spec [] (concat bs))))).
Proof.
  intros Hmax Hread Hv. assert (stream_ok (new_stream state)) as Hok by done.
  unfold stream_rows. rewrite Hread, Consume_batches by done. cbn [mbind option_bind].
  transitivity (Some (finish_rows visitor
    (visit (push_row visitor spec) (new_stream state) (group_rows spec [] (concat bs))))).
  2: { rewrite push_rows_spec; cbn [stream_state output new_stream state_limit_reached]; try done;
         unfold row_room; cbn [emitted_rows output new_stream length].
       - do 3 f_equal. destruct (state_max_rows spec); cbn; [|done]. do 2 f_equal. lia.
       - intros k Hk. destruct (state_max_rows spec); [|done]. injection Hk as <-.
         specialize (Hmax _ eq_refl). lia. }
  rewrite <- finish_rows_erase.
  change (@nil FactEvent) with (current_events (new_stream state)).
  rewrite <- consume_rows, finish_rows_erase by done.
  destruct (visit (consume_event visitor spec) (new_stream state) (concat bs)) as [s []] eqn:E;
    cbn [and_then]; [|by cbn; case_match].
  apply consume_events_Ok in E as (Hs & Hl & Hf); [|done..]. cbn in Hl, Hf.
  unfold Finish_stream. rewrite Hf. cbn [state_limit_reached]. rewrite Hl.
  replace (mkStateRowStream _ _ _ _ _ false true)
    with (reframe (current_events s) (current_ref s) true s) by (unfold reframe; by rewrite Hl).
  assert (finish_rows visitor (FlushCurrent visitor spec (reframe (current_events s) (current_ref s) true s))
          = finish_rows visitor (FlushCurrent visitor spec s)) as <-.
  { rewrite <- finish_rows_erase, FlushCurrent_erase by done. cbn [current_events reframe].
    by rewrite erase_push, <- FlushCurrent_erase, finish_rows_erase. }
  unfold finish_rows. destruct (FlushCurrent _ _ _) as [s' []].
  - by destruct (FlushOutput visitor s').
  - by destruct (_ && _).
Qed.

End rows.

(** ** Groups of events *)

Lemma fact_le_spec a b :
  fact_le a b <->
  ref_part_id a < ref_part_id b \/ (ref_part_id a = ref_part_id b /\
    (FactFamily_to_u8 (ref_family a) < FactFamily_to_u8 (ref_family b) \/
     (FactFamily_to_u8 (ref_family a) = FactFamily_to_u8 (ref_family b) /\
      (ref_property_id a < ref_property_id b \/
       (ref_property_id a = ref_property_id b /\ ref_entity_id a <= ref_entity_id b))))).
Proof.
  unfold fact_le, ref_compare, then_compare.
  destruct (Z.compare_spec (ref_part_id a) (ref_part_id b)),
    (Z.compare_spec (FactFamily_to_u8 (ref_family a)) (FactFamily_to_u8 (ref_family b))),
    (Z.compare_spec (ref_property_id a) (ref_property_id b)),
    (Z.compare_spec (ref_entity_id a) (ref_entity_id b)); split; intros; try done; try lia.
Qed.

Lemma fact_le_antisym a b :
  IsKnownFamily (ref_family a) = true -> IsKnownFamily (ref_family b) = true ->
  fact_le a b -> fact_le b a -> a = b.
Proof.
  intros Ha Hb Hab%fact_le_spec Hba%fact_le_spec. destruct a as [p f q i], b as [p' f' q' i']. cbn in *.
  assert (f = f') as -> by (apply FactFamily_to_u8_known; [done..|lia]). f_equal; lia.
Qed.

Lemma event_known e :
  FactEvent_Validate e = StatusOK -> IsKnownFamily (ref_family (event_ref e)) = true.
Proof.
  intros H%FactEvent_Validate_ref. apply FactRef_Validate_OK in H. tauto.
Qed.

(** A group takes all events of its fact. *)
Lemma group_rows_history spec c current evs :
  Forall (fun e => event_ref e = event_ref c) current -> in_groups (c :: evs) ->
  group_rows spec (c :: current) evs
  = fact_rows spec (c :: current ++ history evs (event_ref c))
    ++ group_rows spec [] (others (event_ref c) evs).
Proof.
  intros Hcur [Hv Hs]. apply Forall_cons in Hv as [Hc Hv].
  inversion_clear Hs as [|? ? Hs' Hle]. revert current Hcur.
  induction evs as [|e evs IH]; intros current Hcur.
  { cbn. unfold history. cbn. by rewrite !app_nil_r. }
  apply Forall_cons in Hv as [He Hv]. apply Forall_cons in Hle as [Hce Hle].
  inversion_clear Hs' as [|? ? Hs Hle']. cbn [group_rows].
  unfold history, others. rewrite !filter_cons. case_bool_decide as Heq.
  - rewrite (decide_True (P := event_ref e = event_ref c)) by done.
    rewrite (decide_False (P := event_ref e <> event_ref c)) by naive_solver.
    fold (history evs (event_ref c)). fold (others (event_ref c) evs).
    change ((c :: current) ++ [e]) with (c :: (current ++ [e])).
    rewrite IH; try done; [by rewrite <- app_assoc|].
    apply Forall_app. by rewrite Forall_singleton.
  - rewrite (decide_False (P := event_ref e = event_ref c)) by done.
    rewrite (decide_True (P := event_ref e <> event_ref c)) by done.
    assert (Forall (fun x => event_ref x <> event_ref c) evs) as Hne.
    { rewrite Forall_forall in *. intros x Hx Hxc. specialize (Hle' x Hx). apply Heq. symmetry.
      apply fact_le_antisym; [by apply event_known..|by rewrite <- Hxc|done]. }
    rewrite filter_none by (eapply Forall_impl; [exact Hne|done]).
    rewrite filter_all by done. by rewrite app_nil_r.
Qed.

Lemma in_groups_filter (P : FactEvent -> Prop) `{!forall e, Decision (P e)} evs :
  in_groups evs -> in_groups (filter P evs).
Proof.
  intros [Hv Hs]. split; [|by eapply sorted_filter_impl; [|exact Hs]].
  rewrite Forall_forall in *. intros e [_ He]%list_elem_of_filter. by apply Hv.
Qed.

Lemma in_groups_split spec e evs :
  in_groups (e :: evs) ->
  group_rows spec [] (e :: evs)
  = fact_rows spec (history (e :: evs) (event_ref e))
    ++ group_rows spec [] (others (event_ref e) (e :: evs)).
Proof.
  intros Hg. cbn [group_rows]. rewrite group_rows_history by done.
  unfold history, others. rewrite !filter_cons.
  rewrite (decide_True (P := event_ref e = event_ref e)) by done.
  by rewrite (decide_False (P := event_ref e <> event_ref e)) by naive_solver.
Qed.

(** The facts one after the other: what holds of an empty list and carries over a fact
    and the rest holds of every list in groups. *)
Lemma in_groups_ind (P : list FactEvent -> Prop) :
  P [] ->
  (forall e evs, in_groups (e :: evs) -> P (others (event_ref e) (e :: evs)) -> P (e :: evs)) ->
  forall evs, in_groups evs -> P evs.
Proof.
  intros H0 Hstep evs. induction evs as [evs IH] using (induction_ltof1 _ length). unfold ltof in IH.
  destruct evs as [|e evs]; [done|]. intros Hg. apply Hstep; [done|]. apply IH.
  - unfold others. rewrite filter_cons, decide_False by naive_solver. cbn.
    pose proof (length_filter (fun x => event_ref x <> event_ref e) evs). lia.
  - by apply in_groups_filter.
Qed.

Lemma history_others r r' evs : r <> r' -> history (others r evs) r' = history evs r'.
Proof.
  intros Hr. unfold history, others. rewrite list_filter_filter. apply filter_ext_on.
  intros e _. naive_solver.
Qed.

(** The row of one fact. *)
Lemma fact_rows_shown spec r events :
  Forall (fun e => FactEvent_Validate e = StatusOK) events ->
  Forall (fun e => event_ref e = r) events -> distinct_versions events -> events <> [] ->
  match fact_rows spec events with
  | [] => forall e, effective events (state_snapshot_seq spec) (state_valid_time spec) = Some e ->
            event_operation e <> kPut
  | [row] => row_ref row = r /\ row_shows spec events row
  | _ => False
  end.
Proof.
  intros Hv Hr Hd Hne. destruct events as [|c events]; [done|].
  assert (event_ref c = r) as <- by by apply Forall_cons in Hr as [? _].
  destruct (group_resolves spec (c :: events)) as [bs Hbs]; [by split|].
  unfold fact_rows. destruct (ResolveCorrectedBoundaries _ _) as [bs'|] eqn:E; [|done].
  injection Hbs as ->. pose proof (Resolve_boundary_at _ _ _ (state_valid_time spec) Hd E) as Hat.
  pose proof (present_at bs (state_valid_time spec) (Resolve_sorted _ _ _ E)) as H.
  destruct (filter _ _) as [|s [|]] eqn:Ef; [| |done]; cbn [fmap list_fmap].
  - intros e He. rewrite He in Hat. specialize (H _ Hat). done.
  - split; [done|]. destruct H as (b & Hb & Hput & Hval). rewrite Hb in Hat.
    destruct (effective _ _ _) as [e|] eqn:Ee; [|done]. injection Hat as ->. exists e. cbn in *.
    split_and!; try done. assert (s ∈ filter (fun s => Contains (interval s) (state_valid_time spec) = true)
      (MaterializePresentState bs)) as Hs by (rewrite Ef; by left).
    by apply list_elem_of_filter in Hs as [? _].
Qed.

Lemma ref_compare_refl r : ref_compare r r = Eq.
Proof. unfold ref_compare. by rewrite !Z.compare_refl. Qed.

Lemma in_groups_lt e evs x :
  in_groups (e :: evs) -> x ∈ e :: evs -> event_ref x <> event_ref e ->
  ref_compare (event_ref e) (event_ref x) = Lt.
Proof.
  intros [[He Hv]%Forall_cons Hs] Hx Hne. inversion_clear Hs as [|? ? _ Hle].
  apply elem_of_cons in Hx as [->|Hx]; [done|]. rewrite Forall_forall in *.
  specialize (Hle x Hx) as Hc. unfold fact_le in Hc.
  destruct (ref_compare _ _) eqn:E; [|done..]. destruct Hne. symmetry.
  apply fact_le_antisym; [apply event_known, He|apply event_known, Hv, Hx|unfold fact_le; by rewrite E|].
  apply fact_le_spec. unfold ref_compare, then_compare in E.
  repeat match type of E with context [?a ?= ?b] => destruct (Z.compare_spec a b); try done end. lia.
Qed.

Lemma rows_show_ref spec events rows row :
  rows_show spec events rows -> row ∈ rows ->
  exists e, e ∈ events /\ event_ref e = row_ref row.
Proof.
  intros (_ & Hrows & _) (e & He & _)%Hrows. apply effective_Some in He as (He & _).
  exists e. by apply elem_of_history in He.
Qed.

Lemma group_rows_shown spec evs :
  in_groups evs -> (forall r, distinct_versions (history evs r)) ->
  rows_show spec evs (group_rows spec [] evs).
Proof.
  intros Hg. revert evs Hg. apply (in_groups_ind (fun evs => (forall r, _) -> rows_show spec evs _)).
  { intros _. split_and!; [constructor|by intros ? ?%not_elem_of_nil|done]. }
  intros e evs Hg IH Hd. rewrite in_groups_split by done. set (r := event_ref e) in *.
  assert (rows_show spec (others r (e :: evs)) (group_rows spec [] (others r (e :: evs)))) as H.
  { apply IH. intros r'. destruct (decide (r = r')) as [<-|Hr]; [|by rewrite history_others].
    intros a b [[Ha _]%list_elem_of_filter ?]%elem_of_history. done. }
  clear IH. pose proof H as (Hs & Hrows & Hall).
  assert (forall row, row ∈ group_rows spec [] (others r (e :: evs)) ->
    ref_compare r (row_ref row) = Lt) as Hlt.
  { intros row Hrow. destruct (rows_show_ref _ _ _ _ H Hrow) as (x & [Hx Hin]%list_elem_of_filter & <-).
    by apply (in_groups_lt _ _ _ Hg). }
  assert (history (e :: evs) r <> []) as Hne
    by (unfold history; by rewrite filter_cons, decide_True by done).
  destruct Hg as [Hv _]. rewrite Forall_forall in Hv.
  pose proof (fact_rows_shown spec r (history (e :: evs) r)
    ltac:(apply Forall_forall; intros x [Hx _]%elem_of_history; by apply Hv)
    ltac:(apply Forall_forall; by intros x [_ ?]%elem_of_history) (Hd r) Hne) as Hf.
  assert (forall row, row ∈ group_rows spec [] (others r (e :: evs)) ->
    row_shows spec (history (e :: evs) (row_ref row)) row) as Hrest.
  { intros row Hrow. rewrite <- (history_others r); [by apply Hrows|].
    intros Heq. specialize (Hlt row Hrow). rewrite Heq, ref_compare_refl in Hlt. done. }
  split_and!.
  - destruct (fact_rows _ _) as [|row [|]]; [done| |done]. destruct Hf as [Hrr _]. cbn.
    constructor; [done|]. apply Forall_forall. rewrite Hrr. exact Hlt.
  - intros row [Hrow|Hrow]%elem_of_app; [|by apply Hrest].
    destruct (fact_rows _ _) as [|row' [|]]; [by apply not_elem_of_nil in Hrow| |done].
    apply list_elem_of_singleton in Hrow as ->. by destruct Hf as [-> ?].
  - intros r' x Hx Hput. destruct (decide (r = r')) as [<-|Hr].
    + destruct (fact_rows _ _) as [|row' [|]]; [by destruct (Hf _ Hx)| |done].
      destruct Hf as [? _]. exists row'. split; [by left|done].
    + rewrite <- (history_others r) in Hx by done. destruct (Hall _ _ Hx Hput) as (row & ? & ?).
      exists row. by split; [apply elem_of_app; right|].
Qed.

(** ** Reads of a stored history *)

Lemma stored_groups cf evs : stored_in_order cf evs -> in_groups evs.
Proof.
  intros Hst. split.
  - destruct Hst as [_ Hf]. apply Forall_forall. intros e He.
    apply list_elem_of_lookup in He as [i Hi].
    destruct (Forall2_lookup_l _ _ _ _ _ Hf Hi) as (kv & _ & (_ & _ & H)).
    unfold EncodeFactValue in H. destruct (FactEvent_Validate e); [done|by inv_ok].
  - eapply stored_sorted; [|exact Hst]. intros a b kva kvb Ha Hb Hlt.
    pose proof (entry_lt_compare a b kva kvb Ha Hb Hlt) as H. unfold fact_le, version_compare in *.
    cbn [key_ref] in H. by destruct (ref_compare _ _).
Qed.

Lemma stored_distinct cf evs r : stored_in_order cf evs -> distinct_versions (history evs r).
Proof.
  intros [Hs Hf]. destruct (history_chain cf evs evs r Hs Hf) as [Hn _]; [done|].
  by apply newest_first_distinct.
Qed.

Lemma distinct_versions_filter (P : FactEvent -> Prop) `{!forall e, Decision (P e)} evs r :
  distinct_versions (history evs r) -> distinct_versions (history (filter P evs) r).
Proof.
  intros Hd a b Ha Hb. apply Hd; apply elem_of_history;
    [apply elem_of_history in Ha as [[_ ?]%list_elem_of_filter ?]
    |apply elem_of_history in Hb as [[_ ?]%list_elem_of_filter ?]]; done.
Qed.

Lemma ReadStateRows_OK {St} (visitor : Visitor St (list CanonicalStateRow)) spec S evs state :
  stored_in_order (snapshot_facts S) evs -> snapshot_owned S = true ->
  FactReadSpec_Validate (facts spec) = StatusOK -> spec_typed (facts spec) ->
  spec_prefix_ok (facts spec) ->
  (forall m, state_max_rows spec = Some m -> uint 64 m) ->
  state_snapshot_seq spec <= snapshot_commit_seq S ->
  ReadStateRows visitor spec S state
  = Some (visit visitor state
      (batches (Z.to_nat (batch_row_limit (facts spec))) []
         (limited (state_max_rows spec)
            (group_rows spec [] (filter (selected S (facts spec)) evs))))).
Proof.
  intros Hst Ho Hval Htyped Hprefix Hm Hseq. unfold ReadStateRows. rewrite Hval.
  rewrite (proj2 (Z.ltb_ge _ _)) by lia. cbn [andb].
  case_bool_decide as Hzero; [by rewrite Hzero|].
  destruct (FactReadSpec_Validate_OK _ Hval) as (_ & _ & Hb).
  pose proof Htyped as (Hp & Hq & Hlo & Hhi & Hbt & _).
  assert (0 < batch_row_limit (facts spec)) as Hpos by (unfold uint in Hbt; lia).
  assert (filter (selected S (facts spec)) evs
          = concat (batches (Z.to_nat (batch_row_limit (facts spec))) []
              (filter (selected S (without_limit (facts spec))) evs))) as ->
    by by rewrite batches_concat.
  apply stream_rows_OK; [done| | |].
  - intros k Hk. specialize (Hm k Hk). unfold uint in Hm. assert (k <> 0) by congruence. lia.
  - by rewrite (ReadEvents_OK Hst Ho).
  - rewrite batches_concat. cbn [app]. by apply (in_groups_filter _ _ (stored_groups _ _ Hst)).
Qed.

(** ** Scans of one partition *)

Section scan_specs.

Context {St : Type} (visitor : Visitor St (list FactEvent)) (spec : FactScanSpec).
Hypothesis Hlimit : 0 < scan_batch_row_limit spec.

Lemma push_events_flush l state pending :
  Z.of_nat (length pending) < scan_batch_row_limit spec ->
  prod_map fst id (and_then (visit (push_event visitor spec) (state, pending) l)
                     (FlushFactEventBatch visitor))
  = visit visitor state (batches (Z.to_nat (scan_batch_row_limit spec)) pending l).
Proof.
  revert state pending. induction l as [|e l IH]; intros state pending Hp.
  { cbn [visit and_then batches]. unfold FlushFactEventBatch. case_bool_decide as E; [by subst|].
    destruct pending; [done|]. rewrite visit_one. by destruct (visitor _ _). }
  cbn [visit batches]. unfold push_event at 1.
  assert (length (pending ++ [e]) = S (length pending)) as Hlen by (rewrite length_app; cbn; lia).
  destruct (Z.ltb_spec (Z.of_nat (length (pending ++ [e]))) (scan_batch_row_limit spec)).
  - rewrite (proj2 (Nat.leb_gt _ _)) by lia. cbn [and_then]. by apply IH.
  - rewrite (proj2 (Nat.leb_le _ _)) by lia. cbn [visit]. unfold FlushFactEventBatch at 1.
    rewrite bool_decide_false by by destruct pending.
    destruct (visitor state (pending ++ [e])) as [state' []]; [|done]. cbn [and_then]. by apply IH.
Qed.

End scan_specs.

Lemma ValidateFactScanSpec_OK spec :
  ValidateFactScanSpec spec = StatusOK ->
  scan_batch_row_limit spec <> 0 /\ FactPrefix_Validate (scan_prefix spec) = StatusOK /\
  match scan_entity_id_min spec, scan_entity_id_max spec with
  | Some lo, Some hi => lo <= hi | _, _ => True end.
Proof.
  unfold ValidateFactScanSpec. destruct (Z.eqb_spec (scan_batch_row_limit spec) 0); [done|].
  destruct (_ || _) eqn:E; [done|]. intros Hp. split_and!; try done.
  apply orb_false_iff in E as [[E _]%orb_false_iff _]. unfold reversed in E.
  destruct (scan_entity_id_min spec), (scan_entity_id_max spec); try done. lia.
Qed.

Lemma EventScan_OK {St} (visitor : Visitor St (list FactEvent)) spec S evs state :
  stored_in_order (snapshot_facts S) evs -> snapshot_owned S = true ->
  ValidateFactScanSpec spec = StatusOK -> scan_typed spec ->
  EventScan visitor spec S state
  = visit visitor state
      (batches (Z.to_nat (scan_batch_row_limit spec)) []
         (filter (fun e => MatchesFactScanSpec spec e = true) (filter (scanned_by S spec) evs))).
Proof.
  intros Hst Ho Hval (Hp & Hq & _ & Hl & Hb). unfold EventScan. rewrite Hval.
  destruct (ValidateFactScanSpec_OK _ Hval) as (Hl0 & Hpre & Hr). unfold uint in Hl.
  rewrite (Scan_OK S _ _ _ _ evs) by (done || by split_and!).
  rewrite (visit_ext _ (fun pending e => if MatchesFactScanSpec spec e
    then push_event visitor spec pending e else (pending, StatusOK)))
    by (intros; by destruct (MatchesFactScanSpec spec _)).
  rewrite visit_filter. rewrite <- push_events_flush by (cbn; lia).
  change (filter (scanned_by S spec) evs)
    with (filter (fun e => in_prefix (scan_prefix spec) (event_ref e) /\
            in_bounds (scan_spec_bounds spec) (ref_entity_id (event_ref e)) /\
            event_commit_seq e <= snapshot_commit_seq S) evs).
  by destruct (and_then _ _) as [[] ?].
Qed.

Lemma identity_of_inj r r' :
  IsKnownFamily (ref_family r) = true -> IsKnownFamily (ref_family r') = true ->
  identity_of r = identity_of r' -> r = r'.
Proof.
  destruct r as [p f q i], r' as [p' f' q' i']. unfold identity_of. cbn. intros H H' [= -> E -> ->].
  by rewrite (FactFamily_to_u8_known f f').
Qed.

(** Every fact is read once, where its first event is. *)
Lemma state_scan_visit {St} (visitor : Visitor St (list FactEvent)) spec S state_of l last st :
  (forall e, e ∈ l -> scanned_by S spec e /\ IsKnownFamily (ref_family (event_ref e)) = true /\
     Read S (event_ref e) (scan_valid_time spec) = Ok (state_of (event_ref e))) ->
  (forall r, last = Some r -> IsKnownFamily (ref_family r) = true) ->
  prod_map snd id (visit (state_scan_step visitor spec S) (identity_of <$> last, st) l)
  = visit (push_event visitor spec) st
      (filter (fun e => MatchesFactScanSpec spec e = true) (omap state_of (new_refs last l))).
Proof.
  revert last st. induction l as [|e l IH]; intros last st Hl Hlast; [done|].
  destruct (Hl e) as ((_ & [Hlo Hhi] & _) & Hk & Hread); [by left|].
  assert (forall x, x ∈ l -> _) as Hl' by (intros x Hx; apply Hl; by right).
  cbn [visit new_refs]. unfold state_scan_step at 1.
  replace (opt_test (scan_entity_id_min spec) _ || _) with false.
  2: { unfold at_least in *. cbn in Hlo, Hhi.
       destruct (scan_entity_id_min spec), (scan_entity_id_max spec); cbn; symmetry;
         rewrite ?orb_false_r; try apply orb_false_iff; rewrite ?Z.ltb_ge; try done; lia. }
  fold (identity_of (event_ref e)).
  assert (identity_of <$> last = Some (identity_of (event_ref e)) <-> last = Some (event_ref e)) as Hsame.
  { destruct last as [r|]; [|done]. cbn. split; [intros [= H]|by intros [= ->]].
    f_equal. apply identity_of_inj; [by apply Hlast|done|]. unfold identity_of. congruence. }
  rewrite (bool_decide_ext _ _ Hsame). case_bool_decide as Heq; [by apply IH|].
  rewrite Hread. cbn [with_value omap list_omap].
  destruct (state_of (event_ref e)) as [x|].
  2: { apply (IH (Some (event_ref e))); [done|]. by intros r [= <-]. }
  rewrite filter_cons. destruct (MatchesFactScanSpec spec x) eqn:Em; cbn [negb].
  - rewrite decide_True by done. cbn [visit].
    destruct (push_event visitor spec st x) as [st' []]; [|done]. cbn [and_then].
    apply (IH (Some (event_ref e))); [done|]. by intros r [= <-].
  - rewrite decide_False by done. apply (IH (Some (event_ref e))); [done|]. by intros r [= <-].
Qed.

Lemma StateScan_OK {St} (visitor : Visitor St (list FactEvent)) spec S events evs state :
  represents (snapshot_facts S) events -> Forall2 entry_of evs (snapshot_facts S) ->
  snapshot_owned S = true -> ValidateFactScanSpec spec = StatusOK -> scan_typed spec ->
  StateScan visitor spec S state
  = visit visitor state
      (batches (Z.to_nat (scan_batch_row_limit spec)) []
         (filter (fun e => MatchesFactScanSpec spec e = true)
            (omap (fun r => present (effective (history events r) (snapshot_commit_seq S)
                                       (scan_valid_time spec)))
               (new_refs None (filter (scanned_by S spec) evs))))).
Proof.
  intros Hrep Hf Ho Hval (Hp & Hq & Ht & Hl & Hb). unfold StateScan. rewrite Hval.
  assert (stored_in_order (snapshot_facts S) evs) as Hst by by destruct Hrep.
  destruct (ValidateFactScanSpec_OK _ Hval) as (Hl0 & Hpre & Hr). unfold uint in Hl.
  rewrite (Scan_OK S _ _ _ _ evs) by (done || by split_and!).
  rewrite <- push_events_flush by (cbn; lia).
  rewrite <- (state_scan_visit _ _ S); [|
    |done].
  - cbn [fmap option_fmap option_map].
    change (filter (fun e => in_prefix (scan_prefix spec) (event_ref e) /\ _) evs)
      with (filter (scanned_by S spec) evs).
    destruct (visit _ _ _) as [[last pending] []]; [|done]. cbn.
    by destruct (FlushFactEventBatch visitor pending).
  - intros e [Hs He]%list_elem_of_filter. split; [done|].
    apply list_elem_of_lookup in He as [i Hi].
    destruct (Forall2_lookup_l _ _ _ _ _ Hf Hi) as (kv & _ & Hkv).
    pose proof (entry_key_ok _ _ Hkv) as (Htr & Hvr & _).
    split; [by apply FactRef_Validate_OK in Hvr as [? _]|]. apply Read_events; [done| |done].
    unfold key_ok. split_and!; try done.
Qed.

Lemma new_refs_elem last evs r :
  (exists e, e ∈ evs /\ event_ref e = r) -> last <> Some r -> r ∈ new_refs last evs.
Proof.
  revert last. induction evs as [|e evs IH]; intros last (x & Hx & Hr) Hl; [by apply not_elem_of_nil in Hx|].
  cbn [new_refs]. apply elem_of_cons in Hx as [->|Hx].
  - rewrite Hr, bool_decide_false by done. by left.
  - case_bool_decide as E; [apply IH; [by exists x|done]|].
    destruct (decide (event_ref e = r)) as [->|Hne]; [by left|]. right.
    apply IH; [by exists x|]. congruence.
Qed.

Lemma new_refs_sub last evs r :
  r ∈ new_refs last evs -> exists e, e ∈ evs /\ event_ref e = r.
Proof.
  revert last. induction evs as [|e evs IH]; intros last H; [by apply not_elem_of_nil in H|].
  cbn [new_refs] in H. case_bool_decide.
  - apply IH in H as (x & ? & ?). exists x. split; [by right|done].
  - apply elem_of_cons in H as [->|H]; [exists e; by split; [left|]|].
    apply IH in H as (x & ? & ?). exists x. split; [by right|done].
Qed.

Lemma new_refs_NoDup last evs :
  in_groups evs ->
  (forall r e, last = Some r -> e ∈ evs -> fact_le r (event_ref e)) ->
  (forall r, last = Some r -> IsKnownFamily (ref_family r) = true) ->
  NoDup (new_refs last evs) /\ forall r, last = Some r -> r ∉ new_refs last evs.
Proof.
  revert last. induction evs as [|e evs IH]; intros last Hg Hle Hk.
  { split; [constructor|]. intros r _ H. by apply not_elem_of_nil in H. }
  destruct Hg as [[He Hv]%Forall_cons Hs]. inversion_clear Hs as [|? ? Hs' Hall].
  rewrite Forall_forall in Hall. pose proof (event_known e He) as Hke. cbn [new_refs].
  case_bool_decide as Heq.
  - apply IH; [by split| |done]. intros r x Hr Hx. apply Hle; [done|by right].
  - destruct (IH (Some (event_ref e))) as [Hnd Hnin].
    + by split.
    + intros r x [= <-] Hx. by apply Hall.
    + by intros r [= <-].
    + split; [constructor; [by apply Hnin|done]|].
      intros r Hr [->|Hin]%elem_of_cons; [done|].
      destruct (new_refs_sub _ _ _ Hin) as (x & Hx & <-). destruct Heq. rewrite Hr. f_equal.
      apply fact_le_antisym; [by apply Hk|done|apply Hle; [done|by left]|by apply Hall].
Qed.

Lemma present_ref events r seq t e :
  present (effective (history events r) seq t) = Some e -> e ∈ events /\ event_ref e = r /\
  event_commit_seq e <= seq.
Proof.
  unfold present. destruct (effective _ _ _) as [x|] eqn:E; [|done].
  case_bool_decide; [done|]. intros [= ->]. apply effective_Some in E as (He & Ha & _).
  apply elem_of_history in He as [? ?]. unfold applies in Ha. split_and!; try done. lia.
Qed.

(** ** Properties *)

(** A scan of the states of one partition ends and hands the visitor the event that
    decides the state of every fact that is present at the valid time, within the
    entity bounds and the ranges of the specification, each fact once. *)
Theorem StateScan_spec {St} (visitor : Visitor St (list FactEvent)) spec S events state :
  represents (snapshot_facts S) events -> snapshot_owned S = true ->
  ValidateFactScanSpec spec = StatusOK -> scan_typed spec ->
  exists evs bs,
    StateScan visitor spec S state = visit visitor state bs /\ concat bs = evs /\
    NoDup (event_ref <$> evs) /\
    forall e, e ∈ evs <->
      in_prefix (scan_prefix spec) (event_ref e) /\
      in_bounds (scan_spec_bounds spec) (ref_entity_id (event_ref e)) /\
      present (effective (history events (event_ref e)) (snapshot_commit_seq S)
                 (scan_valid_time spec)) = Some e /\
      MatchesFactScanSpec spec e = true.
Proof.
  intros Hrep Ho Hval Htyped. pose proof Hrep as (Hs & _).
  destruct (represents_events _ _ Hrep) as (evs & Hf & Hin).
  assert (stored_in_order (snapshot_facts S) evs) as Hst by done.
  do 2 eexists. split; [by eapply StateScan_OK|]. rewrite batches_concat. split; [done|]. cbn [app].
  set (state_of r := present (effective (history events r) (snapshot_commit_seq S) (scan_valid_time spec))).
  assert (forall r x, state_of r = Some x -> event_ref x = r) as Href
    by (intros r x (_ & ? & _)%present_ref; done).
  split.
  - destruct (new_refs_NoDup None (filter (scanned_by S spec) evs)) as [Hnd _]; [|done..|].
    { by eapply in_groups_filter, stored_groups. }
    clear -Hnd Href. revert Hnd. generalize (new_refs None (filter (scanned_by S spec) evs)).
    assert (forall l : list FactRef, event_ref <$> filter (fun e => MatchesFactScanSpec spec e = true) (omap state_of l) ⊆ l)
      as Hsub.
    { intros l r (x & -> & [_ Hx]%list_elem_of_filter)%list_elem_of_fmap.
      apply list_elem_of_omap in Hx as (r & Hr & Hx). by rewrite (Href r x Hx). }
    induction l as [|r l IH]; intros Hnd; [constructor|]. inversion_clear Hnd as [|? ? Hnin Hnd'].
    cbn. destruct (state_of r) as [x|] eqn:Ex; [|by apply IH]. rewrite filter_cons.
    case_decide; [|by apply IH]. cbn. constructor; [|by apply IH].
    rewrite (Href r x Ex). intros H'. by apply Hnin, (Hsub l).
  - intros e. rewrite list_elem_of_filter, list_elem_of_omap. split.
    + intros (Hm & r & Hr & He). pose proof (Href r e He) as <-.
      apply new_refs_sub in Hr as (x & [Hx _]%list_elem_of_filter & Hxr).
      destruct Hx as (Hpx & Hbx & _). rewrite Hxr in Hpx, Hbx. done.
    + intros (Hp & Hb & He & Hm). split; [done|]. exists (event_ref e). split; [|done].
      pose proof (present_ref _ _ _ _ _ He) as (Hev & _ & Hc).
      apply new_refs_elem; [|done]. exists e. split; [|done].
      apply list_elem_of_filter. split; [done|by apply Hin].
Qed.

(** C27: a read of events ends and hands the visitor the events that the specification
    selects of what the snapshot sees, in the order of their keys, in batches that are not empty
    and have no more rows than the specification allows.  With a row limit these are
    the first events up to the limit; a visitor that fails ends the read with its status. *)
Theorem ReadEvents_spec {St} (visitor : Visitor St (list FactEvent)) spec S events state :
  represents (snapshot_facts S) events -> snapshot_owned S = true ->
  FactReadSpec_Validate spec = StatusOK -> spec_typed spec -> spec_prefix_ok spec ->
  exists evs bs,
    ReadEvents visitor spec S state = Some (visit visitor state bs) /\
    concat bs = limited (max_rows spec) evs /\
    Forall (fun b => b <> [] /\ Z.of_nat (length b) <= batch_row_limit spec) bs /\
    StronglySorted (fun a b => bytes_lt (event_key a) (event_key b)) evs /\
    forall e, e ∈ evs <->
      e ∈ events /\ MatchesReadSpec spec e = true /\ event_commit_seq e <= snapshot_commit_seq S.
Proof.
  intros Hrep Ho Hval Htyped Hprefix. pose proof Hrep as (Hs & _).
  destruct (represents_events _ _ Hrep) as (evs & Hall & Hin).
  assert (stored_in_order (snapshot_facts S) evs) as Hst by done.
  destruct (FactReadSpec_Validate_OK _ Hval) as (_ & _ & Hb).
  pose proof Htyped as (_ & _ & _ & _ & Hbt & _). unfold uint in Hbt.
  exists (filter (selected S spec) evs). eexists. split; [by apply (ReadEvents_OK Hst)|]. split_and!.
  - by rewrite batches_concat.
  - eapply Forall_impl; [apply batches_sizes; cbn; lia|]. cbn. intros b [? ?]. split; [done|lia].
  - apply (sorted_filter_impl (fun a b => bytes_lt (event_key a) (event_key b))); [auto|].
    eapply stored_sorted; [|exact Hst]. intros a b kva kvb (_ & Ea & _) (_ & Eb & _).
    by rewrite Ea, Eb.
  - intros e. rewrite list_elem_of_filter, Hin. unfold selected. tauto.
Qed.

Lemma ReadEvents_spec_witness :
  exists evs bs,
    ReadEvents (fun seen b => (seen ++ [b], StatusOK)) sample_read_spec
      (mkStoreSnapshot true 5 spread_cf) []
    = Some (visit (fun seen b => (seen ++ [b], StatusOK)) [] bs) /\
    concat bs = limited (Some 3) evs /\
    forall e, e ∈ evs <->
      e ∈ spread_events /\ MatchesReadSpec sample_read_spec e = true /\ event_commit_seq e <= 5.
Proof.
  destruct (ReadEvents_spec (fun seen b => (seen ++ [b], StatusOK)) sample_read_spec
              (mkStoreSnapshot true 5 spread_cf) spread_events []) as (evs & bs & E & C & _ & _ & H).
  - exact spread_represents.
  - reflexivity.
  - reflexivity.
  - repeat (constructor || (unfold uint; cbn; lia)).
  - repeat (constructor || (cbn; intros; congruence || lia)).
  - exists evs, bs. split; [exact E|]. split; [exact C|exact H].
Defined.

(** C18: a read of states ends and hands the visitor one row for every fact that is present
    at the valid time and the sequence of the read, in the order of the facts, up to the
    row limit and in batches that are not empty and not too large.  A row carries the value
    of the event that decides the state at that time, and an interval that holds the
    time.  The history of a fact is what the specification selects of it. *)
Theorem ReadStateRows_spec {St} (visitor : Visitor St (list CanonicalStateRow)) spec S events state :
  represents (snapshot_facts S) events -> snapshot_owned S = true ->
  FactReadSpec_Validate (facts spec) = StatusOK -> spec_typed (facts spec) ->
  spec_prefix_ok (facts spec) ->
  (forall m, state_max_rows spec = Some m -> uint 64 m) ->
  state_snapshot_seq spec <= snapshot_commit_seq S ->
  exists evs rows bs,
    ReadStateRows visitor spec S state = Some (visit visitor state bs) /\
    concat bs = limited (state_max_rows spec) rows /\
    Forall (fun b => b <> [] /\ Z.of_nat (length b) <= batch_row_limit (facts spec)) bs /\
    rows_show spec evs rows /\
    forall e, e ∈ evs <->
      e ∈ events /\ MatchesReadSpec (facts spec) e = true /\
      event_commit_seq e <= snapshot_commit_seq S.
Proof.
  intros Hrep Ho Hval Htyped Hprefix Hm Hseq. pose proof Hrep as (Hs & _).
  destruct (represents_events _ _ Hrep) as (evs & Hall & Hin).
  assert (stored_in_order (snapshot_facts S) evs) as Hst by done.
  destruct (FactReadSpec_Validate_OK _ Hval) as (_ & _ & Hb).
  pose proof Htyped as (_ & _ & _ & _ & Hbt & _). unfold uint in Hbt.
  exists (filter (selected S (facts spec)) evs). do 2 eexists.
  split; [by apply (ReadStateRows_OK _ _ _ _ _ Hst)|]. split_and!.
  - by rewrite batches_concat.
  - eapply Forall_impl; [apply batches_sizes; cbn; lia|]. cbn. intros b [? ?]. split; [done|lia].
  - apply group_rows_shown; [by eapply in_groups_filter, stored_groups|].
    intros r. by eapply distinct_versions_filter, stored_distinct.
  - intros e. rewrite list_elem_of_filter, Hin. unfold selected. tauto.
Qed.

Lemma ReadStateRows_spec_witness :
  exists evs rows bs,
    ReadStateRows (fun seen b => (seen ++ [b], StatusOK)) sample_state_spec
      (mkStoreSnapshot true 5 spread_cf) []
    = Some (visit (fun seen b => (seen ++ [b], StatusOK)) [] bs) /\
    concat bs = rows /\ rows_show sample_state_spec evs rows.
Proof.
  destruct (ReadStateRows_spec (fun seen b => (seen ++ [b], StatusOK)) sample_state_spec
              (mkStoreSnapshot true 5 spread_cf) spread_events [])
    as (evs & rows & bs & E & C & _ & H & _).
  - exact spread_represents.
  - reflexivity.
  - reflexivity.
  - repeat (constructor || (unfold uint; cbn; lia)).
  - repeat (constructor || (cbn; intros; congruence || lia)).
  - discriminate.
  - discriminate.
  - exists evs, rows, bs. split; [exact E|]. split; [exact C|exact H].
Defined.
