(* ===== verification/Overlay.v ===== *)
(** * Overlay: staged writes over a snapshot

    Models the reader of a transaction that sees its own writes,
    [TransactionOverlayReader] of [src/kernel/transaction.cc]: reads of events and of
    states merge the staged mutations, as events of the next commit sequence, into what
    the snapshot shows.  Reads without a memory budget are modelled, columnar reads are
    not. *)

From S2P Require Import Prelude Status Crc32c Wire Value Fact FactCodec CommitBatch.
From S2P Require Import Frame MetaCodec PreparedCodec GroupCommit Bloom RecentWrites.
From S2P Require Import ValidationCache Accelerators Temporal FactStore Conflict Scan.
From S2P Require Import WriteBatch Commit GroupedCommit CommitSize Transaction Serializable.
From S2P Require Import SnapshotReader.

(** ** Staged writes over a snapshot *)

Record TransactionOverlayReader := mkOverlay {
  base : StoreSnapshot;
  overlay_mutations : list PendingFactMutation;
  overlay_identities : list EdgeIdentity;
  include_staged : bool;
  overlay_seq : Z
}.

(** [BeginReadSnapshot]: a reader over a snapshot at the sequence of the transaction. *)
Definition BeginReadSnapshot (db : DatabaseView)
    (begin_snapshot : Z -> StatusOr StoreSnapshot) (include_staged : bool)
    (t : TransactionState) : StatusOr TransactionOverlayReader :=
  if t_terminal t then Fail (InvalidArgument "transaction" "terminal transaction")
  else
    _ ← CheckDatabaseOpen db;
    let base_seq := snapshot_commit_seq (t_snapshot t) in
    reader_snapshot ← begin_snapshot base_seq;
    _ ← begin_snapshot base_seq;
    let overlay_seq := if base_seq =? U64_MAX then base_seq else Z.max 1 (base_seq + 1) in
    Ok (mkOverlay reader_snapshot (t_mutations t) (t_edge_identities t) include_staged
          overlay_seq).

Definition MatchesOverlaySpec (spec : FactReadSpec) (e : FactEvent) : bool :=
  let r := event_ref e in
  PartScope_Contains (part_scope spec) (ref_part_id r)
  && bool_decide (spec_family spec = ref_family r)
  && (spec_property_id spec =? ref_property_id r)
  && negb (opt_test (range_min (entity_range spec)) (fun m => negb (m <=? ref_entity_id r)))
  && negb (opt_test (range_max_exclusive (entity_range spec))
             (fun m => negb (ref_entity_id r <? m)))
  && negb (opt_test (valid_from_min spec) (fun m => negb (m <=? event_valid_from e)))
  && negb (opt_test (valid_from_max spec) (fun m => negb (event_valid_from e <=? m)))
  && negb (opt_test (commit_seq_min spec) (fun m => negb (m <=? event_commit_seq e)))
  && negb (opt_test (commit_seq_max spec) (fun m => negb (event_commit_seq e <=? m))).

Definition staged_mutation_event (seq : Z) (m : PendingFactMutation) : FactEvent :=
  mkFactEvent (mutation_ref m) (mutation_valid_from m) seq (mutation_operation m)
    (mutation_schema_epoch m) None None.

Definition staged_identity_event (seq : Z) (i : EdgeIdentity) : FactEvent :=
  mkFactEvent (mkFactRef (home_part_id i) kEdgeIdentity 0 (edge_id i)) 0 seq kPut 0 None
    (Some i).

(** [VisitStaged]: the visitor is called with an event and its value. *)
Definition VisitStaged {St} (o : TransactionOverlayReader) (spec : FactReadSpec)
    (visitor : Visitor St (FactEvent * option Value)) (state : St) : St * Status :=
  let visit_one state '(e, value) :=
    if MatchesOverlaySpec spec e then visitor state (e, value) else (state, StatusOK) in
  if negb (include_staged o) then (state, StatusOK)
  else
    and_then
      (visit visit_one state
         ((fun m => (staged_mutation_event (overlay_seq o) m, mutation_value m))
            <$> overlay_mutations o))
      (fun state =>
         if bool_decide (spec_family spec = kEdgeIdentity) then
           visit visit_one state
             ((fun i => (staged_identity_event (overlay_seq o) i, None))
                <$> overlay_identities o)
         else (state, StatusOK)).

Definition with_payload (e : FactEvent) (value : option Value) : FactEvent :=
  mkFactEvent (event_ref e) (event_valid_from e) (event_commit_seq e) (event_operation e)
    (event_schema_epoch e) value (event_edge_identity e).

(** A staged event displaces the candidate. *)
Definition displaces (e : FactEvent) (candidate : option FactEvent) : bool :=
  match candidate with
  | None => true
  | Some c =>
      (event_valid_from c <? event_valid_from e)
      || (event_valid_from e =? event_valid_from c)
         && (event_commit_seq c <=? event_commit_seq e)
  end.

Definition Overlay_ReadStateAt (o : TransactionOverlayReader) (spec : FactReadSpec)
    (time snapshot_seq : Z) : StatusOr (option FactEvent) :=
  let base_seq := snapshot_commit_seq (base o) in
  let durable_seq := if base_seq <? snapshot_seq then base_seq else snapshot_seq in
  winner ← ReadStateAt (base o) spec time durable_seq;
  if negb (include_staged o) then Ok winner
  else
    let '(staged_winner, selected) :=
      VisitStaged o spec (fun staged_winner '(e, value) =>
        if time <? event_valid_from e then (staged_winner, StatusOK)
        else
          let candidate :=
            match staged_winner with Some (s, _) => Some s | None => winner end in
          if displaces e candidate then (Some (e, value), StatusOK)
          else (staged_winner, StatusOK)) None in
    _ ← check selected;
    match staged_winner with
    | None => Ok winner
    | Some (e, payload) =>
        Ok (Some (match payload with Some v => with_payload e (Some v) | None => e end))
    end.

(** The order of the merged events. *)
Definition ref_tuple (r : FactRef) : Z * Z * Z * Z :=
  (ref_part_id r, FactFamily_to_u8 (ref_family r), ref_property_id r, ref_entity_id r).

Definition overlay_less (left right : FactEvent) : bool :=
  if negb (bool_decide (event_ref left = event_ref right)) then
    tuple4_less (ref_tuple (event_ref left)) (ref_tuple (event_ref right))
  else if negb (event_valid_from left =? event_valid_from right) then
    event_valid_from left <? event_valid_from right
  else event_commit_seq left <? event_commit_seq right.

(** [std::vector] in steps of [n] rows. *)
Fixpoint in_steps (fuel : nat) (n : nat) (l : list FactEvent) : list (list FactEvent) :=
  match fuel, l with
  | _, [] => []
  | O, _ => []
  | S fuel, _ => take n l :: in_steps fuel n (drop n l)
  end.

Definition Overlay_ReadEvents {St} (o : TransactionOverlayReader) (spec : FactReadSpec)
    (visitor : Visitor St (list FactEvent)) (state : St) : option (St * Status) :=
  match FactReadSpec_Validate spec with
  | StatusOK =>
      if bool_decide (max_rows spec = Some 0) then Some (state, StatusOK)
      else if negb (include_staged o) then ReadEvents visitor spec (base o) state
      else
        '(events, status) ←
          ReadEvents (fun events batch => (events ++ batch, StatusOK)) spec (base o) [];
        match status with
        | StatusOK =>
            let '(events, status) :=
              VisitStaged o spec
                (fun events '(e, value) => (events ++ [with_payload e value], StatusOK)) events in
            match status with
            | StatusOK =>
                let events := stable_sort overlay_less events in
                let output_size :=
                  match max_rows spec with
                  | Some m => Nat.min (length events) (Z.to_nat m)
                  | None => length events
                  end in
                Some (visit visitor state
                        (in_steps output_size (Z.to_nat (batch_row_limit spec))
                           (take output_size events)))
            | s => Some (state, s)
            end
        | s => Some (state, s)
        end
  | s => Some (state, s)
  end.

Definition Overlay_ReadStateRows {St} (o : TransactionOverlayReader)
    (spec : CanonicalStateReadSpec) (visitor : Visitor St (list CanonicalStateRow)) (state : St)
  : option (St * Status) :=
  if negb (include_staged o) then ReadStateRows visitor spec (base o) state
  else if bool_decide (state_max_rows spec = Some 0) then Some (state, StatusOK)
  else
    stream_rows visitor spec
      (fun visitor => Overlay_ReadEvents o (without_limit (facts spec)) visitor) state.

(** ** Specification *)

(** What an overlay shows of the stored events and of the staged batch. *)
Definition merged (o : TransactionOverlayReader) (evs : list FactEvent) (b : StoreCommitBatch)
    (spec : FactReadSpec) : list FactEvent :=
  filter (selected (base o) spec) evs
  ++ filter (fun e => MatchesReadSpec spec e = true) (batch_events (overlay_seq o) b).

(** Reads of the states of vertices in partition one. *)
Definition vertex_spec (time seq : Z) : CanonicalStateReadSpec :=
  mkCanonicalStateReadSpec
    (mkFactReadSpec (PartScope_Exact 1) kVertexState 0 (mkEntityRange None None)
       None None None None [] 16 None) time seq None.

(** The store's snapshots at the sequence of the sample. *)
Definition sample_begin_snapshot (seq : Z) : StatusOr StoreSnapshot :=
  if seq =? 6 then Ok sample_snapshot else Fail (SnapshotExpired "snapshot" "sequence is below retention boundary").

(** A vertex that is retracted from 50 on, with a write at 20 staged over it. *)
Definition retracted_events : list FactEvent :=
  [mkFactEvent (mkFactRef 1 kVertexState 0 9) 50 3 kDelete 0 None None;
   mkFactEvent (mkFactRef 1 kVertexState 0 9) 10 2 kPut 0 None None].

Definition retracted_overlay : TransactionOverlayReader :=
  mkOverlay (mkStoreSnapshot true 3 (encoded_cf retracted_events))
    [mkPendingFactMutation (mkFactRef 1 kVertexState 0 9) 20 kPut 0 None] [] true 4.

Definition vertex_at_spec : FactReadSpec :=
  mkFactReadSpec (PartScope_Exact 1) kVertexState 0 (mkEntityRange (Some 9) (Some 10))
    None None None None [] 16 None.

(** ** Staged events *)

Lemma opt_test_ext o f g :
  (forall a, f a = g a) -> opt_test o f = opt_test o g.
Proof. intros H. destruct o; [apply H|done]. Qed.

Lemma MatchesOverlaySpec_agree spec e : MatchesOverlaySpec spec e = MatchesReadSpec spec e.
Proof.
  unfold MatchesOverlaySpec, MatchesReadSpec.
  rewrite (opt_test_ext (range_min _) _ (fun m => ref_entity_id (event_ref e) <? m)),
    (opt_test_ext (range_max_exclusive _) _ (fun m => m <=? ref_entity_id (event_ref e))),
    (opt_test_ext (valid_from_min _) _ (fun m => event_valid_from e <? m)),
    (opt_test_ext (valid_from_max _) _ (fun m => m <? event_valid_from e)),
    (opt_test_ext (commit_seq_min _) _ (fun m => event_commit_seq e <? m)),
    (opt_test_ext (commit_seq_max _) _ (fun m => m <? event_commit_seq e)) by (intros; lia).
  rewrite (Z.eqb_sym (spec_property_id spec)),
    (bool_decide_ext (spec_family spec = _) (ref_family (event_ref e) = spec_family spec)) by done.
  assert (forall p q : bool, (if p then false else q) = negb p && q) as Hif by by intros [].
  by rewrite !Hif, !negb_orb, !negb_involutive, <- !andb_assoc, andb_true_r.
Qed.

Lemma visit_pairs {St} spec (visitor : Visitor St FactEvent) state l :
  visit (fun s '(e, value) =>
           if MatchesOverlaySpec spec e then visitor s (with_payload e value) else (s, StatusOK))
    state l
  = visit visitor state
      (filter (fun e => MatchesReadSpec spec e = true)
         ((fun '(e, value) => with_payload e value) <$> l)).
Proof.
  rewrite <- visit_filter, <- visit_fmap. apply visit_ext. intros s [e v] _.
  by rewrite MatchesOverlaySpec_agree.
Qed.

(** What the staged vectors hold as events, in the order of the visits. *)
Lemma VisitStaged_events {St} o spec (visitor : Visitor St FactEvent) b state :
  include_staged o = true -> mutations b = overlay_mutations o ->
  edge_identities b = overlay_identities o ->
  VisitStaged o spec (fun s '(e, value) => visitor s (with_payload e value)) state
  = visit visitor state
      (filter (fun e => MatchesReadSpec spec e = true) (batch_events (overlay_seq o) b)).
Proof.
  intros Hi Hm He. unfold VisitStaged. rewrite Hi. cbn [negb].
  unfold batch_events, VisitCommitFacts. rewrite fmap_app, filter_app, visit_app, Hm, He.
  rewrite visit_pairs, <- !list_fmap_compose.
  change ((fun '(e, value) => with_payload e value) ∘ _)
    with (committed_event (overlay_seq o) ∘ (fun m => (m, @None EdgeIdentity))).
  destruct (visit visitor state _) as [s []]; [|done]. cbn [and_then].
  case_bool_decide as Hf.
  - by rewrite visit_pairs, <- !list_fmap_compose.
  - rewrite filter_none; [done|]. apply Forall_forall.
    intros e (i & -> & _)%list_elem_of_fmap (_ & Hfam & _)%MatchesReadSpec_true.
    by destruct Hf.
Qed.

(** ** The order of the merged events *)

Lemma overlay_less_true a b :
  IsKnownFamily (ref_family (event_ref a)) = true ->
  IsKnownFamily (ref_family (event_ref b)) = true ->
  overlay_less a b = true <->
  (event_ref a <> event_ref b /\ fact_le (event_ref a) (event_ref b)) \/
  (event_ref a = event_ref b /\ event_before a b = true).
Proof.
  intros Ha Hb. unfold overlay_less. case_bool_decide as Hr; cbn [negb].
  - rewrite event_before_spec.
    destruct (Z.eqb_spec (event_valid_from a) (event_valid_from b)); cbn [negb]; split; intros;
      try lia; try (right; split; [done|lia]); naive_solver lia.
  - assert (fact_le (event_ref b) (event_ref a) -> fact_le (event_ref a) (event_ref b) -> False) as Hanti
      by (intros; apply Hr; by apply fact_le_antisym).
    rewrite !fact_le_spec in Hanti. rewrite fact_le_spec. unfold tuple4_less, ref_tuple.
    repeat match goal with |- context [?x =? ?y] => destruct (Z.eqb_spec x y) end;
      rewrite Z.ltb_lt; split; intros; try (left; split; [done|]); naive_solver lia.
Qed.

Lemma merged_groups l :
  Forall (fun e => FactEvent_Validate e = StatusOK) l -> in_groups (stable_sort overlay_less l).
Proof.
  intros Hv. split.
  - apply Forall_forall. intros e He. rewrite (stable_sort_perm overlay_less l) in He.
    rewrite Forall_forall in Hv. by apply Hv.
  - apply (stable_sort_sorted _ (fun e => FactEvent_Validate e = StatusOK)); [| |done].
    + intros a b Ha%event_known Hb%event_known. pose proof (overlay_less_true a b Ha Hb) as Hab.
      assert (fact_le (event_ref a) (event_ref b) \/ fact_le (event_ref b) (event_ref a)) as Htot
        by (rewrite !fact_le_spec; lia).
      destruct (overlay_less a b).
      * destruct (proj1 Hab eq_refl) as [[_ ?]|[-> _]]; [done|]. apply fact_le_spec. lia.
      * destruct (decide (event_ref a = event_ref b)) as [->|Hr]; [apply fact_le_spec; lia|].
        destruct Htot as [Hle|]; [|done]. by discriminate (proj2 Hab (or_introl (conj Hr Hle))).
    + intros a b c _ _ _. rewrite !fact_le_spec. lia.
Qed.

(** The rows of a set of events do not depend on the order they come in. *)
Lemma fact_rows_perm spec r events events' :
  Forall (fun e => FactEvent_Validate e = StatusOK) events ->
  Forall (fun e => event_ref e = r) events -> distinct_versions events ->
  events ≡ₚ events' -> fact_rows spec events = fact_rows spec events'.
Proof.
  intros Hv Hr Hd Hp.
  assert (forall l, l ≡ₚ events -> ResolveCorrectedBoundaries l (state_snapshot_seq spec)
    = Ok (group_boundaries (sort_events (visible_events (state_snapshot_seq spec) events)))) as Hres.
  { intros l Hl. apply ResolveCorrectedBoundaries_Ok.
    assert (visible_events (state_snapshot_seq spec) l
            ≡ₚ visible_events (state_snapshot_seq spec) events) as Hvis
      by (unfold visible_events; by rewrite Hl).
    assert (visible_events (state_snapshot_seq spec) events ⊆ events) as Hsub
      by (intros x [? _]%elem_of_visible; done).
    assert (Forall (fun e => FactEvent_Validate e = StatusOK /\ event_ref e = r)
              (visible_events (state_snapshot_seq spec) l)) as Hall.
    { apply Forall_forall. intros x Hx. rewrite Hvis in Hx. rewrite Forall_forall in Hv, Hr.
      split; [by apply Hv, Hsub|by apply Hr, Hsub]. }
    split_and!.
    - f_equal. symmetry. apply sort_events_unique.
      + intros a b ? ?. apply Hd; by apply Hsub.
      + by apply StronglySorted_Sorted, sort_events_sorted.
      + by rewrite sort_events_perm.
    - eapply Forall_impl; [exact Hall|]. by intros ? [? _].
    - exists r. eapply Forall_impl; [exact Hall|]. by intros ? [_ ?]. }
  unfold fact_rows. pose proof (Hres events) as H1. pose proof (Hres events') as H2.
  destruct events as [|e l], events' as [|e' l']; [done| | |].
  - by apply Permutation_nil in Hp.
  - symmetry in Hp. by apply Permutation_nil in Hp.
  - rewrite H1, H2 by done. rewrite Forall_forall in Hr.
    rewrite (Hr e), (Hr e'); [done|rewrite Hp; by left|by left].
Qed.

Lemma group_rows_perm spec evs :
  in_groups evs -> forall evs', in_groups evs' -> evs ≡ₚ evs' ->
  (forall r, distinct_versions (history evs r)) ->
  group_rows spec [] evs = group_rows spec [] evs'.
Proof.
  revert evs. apply (in_groups_ind (fun evs => forall evs', in_groups evs' -> evs ≡ₚ evs' -> (forall r, _) -> _)).
  { by intros evs' _ ->%Permutation_nil _. }
  intros e evs Hg IH [|e' evs'] Hg' Hp Hd; [by symmetry in Hp; apply Permutation_nil in Hp|].
  assert (event_ref e = event_ref e') as Hr.
  { destruct (decide (event_ref e' = event_ref e)) as [|Hne]; [done|].
    pose proof (in_groups_lt e evs e' Hg) as H1. pose proof (in_groups_lt e' evs' e Hg') as H2.
    assert (ref_compare (event_ref e) (event_ref e') = Lt) as L1
      by (apply H1; [rewrite Hp; by left|done]).
    assert (ref_compare (event_ref e') (event_ref e) = Lt) as L2
      by (apply H2; [rewrite <- Hp; by left|done]).
    destruct Hg as [[He _]%Forall_cons _], Hg' as [[He' _]%Forall_cons _].
    apply fact_le_antisym; [by apply event_known..| |]; unfold fact_le; by rewrite ?L1, ?L2. }
  rewrite !in_groups_split by done. rewrite <- Hr. f_equal.
  - destruct Hg as [Hv _]. rewrite Forall_forall in Hv. apply (fact_rows_perm _ (event_ref e)).
    + apply Forall_forall. intros x [Hx _]%elem_of_history. by apply Hv.
    + apply Forall_forall. by intros x [_ ?]%elem_of_history.
    + done.
    + unfold history. by rewrite Hp.
  - apply IH.
    + by apply in_groups_filter.
    + unfold others. by rewrite Hp.
    + intros r. by apply distinct_versions_filter.
Qed.

(** ** Batches of a vector *)

Lemma batches_step {A} n (batch l : list A) :
  (length batch < n)%nat -> batch ++ l <> [] ->
  batches n batch l = take n (batch ++ l) :: batches n [] (drop n (batch ++ l)).
Proof.
  revert batch. induction l as [|a l IH]; intros batch Hb Hne.
  - rewrite app_nil_r in *. rewrite take_ge, drop_ge by lia. by destruct batch.
  - cbn [batches]. replace (batch ++ a :: l) with ((batch ++ [a]) ++ l) by by rewrite <- app_assoc.
    assert (length (batch ++ [a]) = S (length batch)) as Hlen by (rewrite length_app; cbn; lia).
    destruct (Nat.leb_spec n (length (batch ++ [a]))).
    + rewrite take_app_length', drop_app_length' by lia. done.
    + apply IH; [done|]. by destruct batch.
Qed.

Lemma in_steps_batches fuel n l :
  (0 < n)%nat -> (length l <= fuel)%nat -> in_steps fuel n l = batches n [] l.
Proof.
  intros Hn. revert l. induction fuel as [|fuel IH]; intros [|a l] Hl; try done; [cbn in Hl; lia|].
  rewrite batches_step by done. cbn [in_steps app]. f_equal. apply IH.
  rewrite length_drop. cbn in *. lia.
Qed.

(** ** Merged reads *)

Lemma visit_collect {A B} (f : B -> list A) l acc :
  visit (fun acc b => (acc ++ f b, StatusOK)) acc l = (acc ++ concat (f <$> l), StatusOK).
Proof.
  revert acc. induction l as [|b l IH]; intros acc; cbn; [by rewrite app_nil_r|].
  by rewrite IH, <- app_assoc.
Qed.

Lemma stored_NoDup cf evs : stored_in_order cf evs -> NoDup evs.
Proof.
  intros Hst. assert (StronglySorted (fun a b => bytes_lt (event_key a) (event_key b)) evs) as Hs.
  { eapply stored_sorted; [|exact Hst]. intros a b kva kvb (_ & Ea & _) (_ & Eb & _).
    by rewrite Ea, Eb. }
  clear Hst. induction Hs as [|e evs Hs IH Hall]; constructor; [|done].
  intros He. rewrite Forall_forall in Hall. exact (irreflexivity bytes_lt _ (Hall e He)).
Qed.

Section merged.

Context {o : TransactionOverlayReader} {evs : list FactEvent} {b : StoreCommitBatch}.
Hypothesis Hst : stored_in_order (snapshot_facts (base o)) evs.
Hypothesis Howned : snapshot_owned (base o) = true.
Hypothesis Hstaged : include_staged o = true.
Hypothesis Hmutations : mutations b = overlay_mutations o.
Hypothesis Hidentities : edge_identities b = overlay_identities o.
Hypothesis Hvalid : Forall (fun e => FactEvent_Validate e = StatusOK) (batch_events (overlay_seq o) b).

Lemma Overlay_ReadEvents_OK {St} spec (visitor : Visitor St (list FactEvent)) state :
  FactReadSpec_Validate spec = StatusOK -> spec_typed spec -> spec_prefix_ok spec ->
  max_rows spec = None ->
  Overlay_ReadEvents o spec visitor state
  = Some (visit visitor state
      (batches (Z.to_nat (batch_row_limit spec)) [] (stable_sort overlay_less (merged o evs b spec)))).
Proof.
  intros Hval Htyped Hprefix Hmax. unfold Overlay_ReadEvents. rewrite Hval, Hmax, Hstaged.
  rewrite bool_decide_false by done. cbn [negb].
  destruct (FactReadSpec_Validate_OK _ Hval) as (_ & _ & Hb).
  pose proof Htyped as (_ & _ & _ & _ & Hbt & _). unfold uint in Hbt.
  rewrite (ReadEvents_OK Hst Howned Hval Htyped Hprefix), Hmax.
  rewrite (visit_collect id), list_fmap_id, batches_concat. cbn [mbind option_bind app].
  rewrite (VisitStaged_events o spec (fun events e => (events ++ [e], StatusOK)) b) by done.
  rewrite (visit_collect (fun e => [e])). fold (merged o evs b spec).
  assert (forall l : list FactEvent, concat ((fun e => [e]) <$> l) = l) as Hsing
    by (induction l as [|? ? IH]; cbn; [done|by rewrite IH]).
  rewrite Hsing. fold (merged o evs b spec). rewrite take_ge by lia.
  rewrite in_steps_batches; [done|lia|done].
Qed.

Lemma merged_valid spec : Forall (fun e => FactEvent_Validate e = StatusOK) (merged o evs b spec).
Proof.
  destruct (stored_groups _ _ Hst) as [Hv _]. unfold merged. rewrite Forall_forall in *.
  intros e [[_ He]%list_elem_of_filter|[_ He]%list_elem_of_filter]%elem_of_app; auto.
Qed.

Lemma Overlay_ReadStateRows_OK {St} spec (visitor : Visitor St (list CanonicalStateRow)) state :
  FactReadSpec_Validate (facts spec) = StatusOK -> spec_typed (facts spec) ->
  spec_prefix_ok (facts spec) -> (forall m, state_max_rows spec = Some m -> uint 64 m) ->
  Overlay_ReadStateRows o spec visitor state
  = Some (visit visitor state
      (batches (Z.to_nat (batch_row_limit (facts spec))) []
         (limited (state_max_rows spec)
            (group_rows spec [] (stable_sort overlay_less (merged o evs b (facts spec))))))).
Proof.
  intros Hval Htyped Hprefix Hm. unfold Overlay_ReadStateRows. rewrite Hstaged. cbn [negb].
  case_bool_decide as Hzero; [by rewrite Hzero|].
  destruct (FactReadSpec_Validate_OK _ Hval) as (_ & _ & Hb).
  pose proof Htyped as (Hp & Hq & Hlo & Hhi & Hbt & _).
  assert (0 < batch_row_limit (facts spec)) as Hpos by (unfold uint in Hbt; lia).
  assert (stable_sort overlay_less (merged o evs b (facts spec))
          = concat (batches (Z.to_nat (batch_row_limit (facts spec))) []
              (stable_sort overlay_less (merged o evs b (without_limit (facts spec)))))) as ->
    by by rewrite batches_concat.
  apply stream_rows_OK; [done| | |].
  - intros k Hk. specialize (Hm k Hk). unfold uint in Hm. assert (k <> 0) by congruence. lia.
  - by rewrite Overlay_ReadEvents_OK.
  - rewrite batches_concat. apply merged_groups, merged_valid.
Qed.

(** The rows are those of a store that holds the staged events. *)
Lemma merged_rows spec cf' evs' (P : FactEvent -> Prop) `{!forall e, Decision (P e)} :
  stored_in_order cf' evs' -> NoDup (batch_events (overlay_seq o) b) ->
  snapshot_commit_seq (base o) < overlay_seq o ->
  (forall e, e ∈ filter P evs' <-> e ∈ merged o evs b (facts spec)) ->
  group_rows spec [] (stable_sort overlay_less (merged o evs b (facts spec)))
  = group_rows spec [] (filter P evs').
Proof.
  intros Hst' Hnd Hseq Hin. symmetry. apply group_rows_perm.
  - by eapply in_groups_filter, stored_groups.
  - apply merged_groups, merged_valid.
  - rewrite stable_sort_perm. apply NoDup_Permutation; [|
      |done].
    + by eapply NoDup_filter, stored_NoDup.
    + apply NoDup_app. split_and!; [by eapply NoDup_filter, stored_NoDup| |by apply NoDup_filter].
      intros e [[_ ?] _]%list_elem_of_filter [_ He]%list_elem_of_filter.
      rewrite (batch_events_seq _ _ _ He) in *. lia.
  - intros r. by eapply distinct_versions_filter, stored_distinct.
Qed.

End merged.

(** ** Read your writes *)

Lemma batch_events_perm seq b b' :
  mutations b ≡ₚ mutations b' -> edge_identities b = edge_identities b' ->
  batch_events seq b ≡ₚ batch_events seq b'.
Proof. intros Hm Hi. unfold batch_events, VisitCommitFacts. by rewrite Hm, Hi. Qed.

Lemma committed_batch_events ledger events cs seq b :
  commit_inv ((seq, b) :: ledger) events cs ->
  Forall (fun e => FactEvent_Validate e = StatusOK) (batch_events seq b) /\
  NoDup (batch_events seq b).
Proof.
  intros Hinv. destruct (inv_entries _ _ _ Hinv seq b) as (Hs & Ht & Hv & _); [by left|].
  pose proof (inv_visible _ _ _ Hinv) as Hvis.
  apply StoreCommitBatch_Validate_OK in Hv; [|by apply prepared_batch_typed].
  assert (uint 64 seq) as Hu by (unfold uint in *; lia). split.
  - apply Forall_forall. intros e (f & -> & Hf)%list_elem_of_fmap.
    apply (total_event_valid b seq); try done. lia.
  - eapply NoDup_fmap_1, (total_keys_NoDup b seq); try done. lia.
Qed.

Lemma begun_overlay events db db' begin_snapshot t o :
  (forall s S', begin_snapshot s = Ok S' ->
     reads_from events db' S' /\ snapshot_commit_seq S' = s) ->
  BeginReadSnapshot db begin_snapshot true t = Ok o -> reads_from events db' (t_snapshot t) ->
  reads_from events db' (base o) /\
  snapshot_commit_seq (base o) = snapshot_commit_seq (t_snapshot t) /\
  overlay_mutations o = t_mutations t /\ overlay_identities o = t_edge_identities t /\
  include_staged o = true /\ overlay_seq o = snapshot_commit_seq (t_snapshot t) + 1.
Proof.
  intros Hbegin Ho (_ & Hs & _). unfold BeginReadSnapshot in Ho.
  destruct (t_terminal t); [done|]. apply bind_Ok in Ho as ([] & _ & Ho). cbv zeta in Ho.
  apply bind_Ok in Ho as (S1 & H1 & Ho). apply bind_Ok in Ho as (S2 & _ & <-%Ok_inj).
  destruct (Hbegin _ _ H1) as [Hr Eseq]. cbn. split_and!; try done. rewrite (proj2 (Z.eqb_neq _ _)) by lia. lia.
Qed.

(** ** Properties *)

(** C5: a transaction that reads its own writes sees what its commit will leave.  When
    nothing else is committed between the snapshot of a transaction and its commit, the
    rows that the overlay of its staged writes gave for a time and a sequence, batch by
    batch, are those that a snapshot of the committed store gives. *)
Theorem read_your_writes cf_id outcome limit admission ledger events cs
    db0 isolation id S calls answers t db db' n r t' n' cs'
    {St} begin_snapshot o spec (visitor : Visitor St (list CanonicalStateRow)) state :
  commit_inv ledger events cs -> identities_inv events -> outcome_ok outcome ->
  uint 64 id -> (forall s b, (s, b) ∈ ledger -> txn_id b <> id) ->
  client_run events db0 isolation id S calls answers t -> reads_from events db' S ->
  (forall s S', begin_snapshot s = Ok S' ->
     reads_from events db' S' /\ snapshot_commit_seq S' = s) ->
  BeginReadSnapshot db begin_snapshot true t = Ok o ->
  Txn_Commit db db' (submit cf_id outcome limit admission cs) cs n t = (Ok r, t', n', cs') ->
  cr_outcome r = outcome_committed ->
  snapshot_commit_seq S = visible_seq (cs_impl cs) ->
  FactReadSpec_Validate (facts spec) = StatusOK -> spec_typed (facts spec) ->
  spec_prefix_ok (facts spec) -> (forall m, state_max_rows spec = Some m -> uint 64 m) ->
  state_snapshot_seq spec <= cr_commit_seq r ->
  Overlay_ReadStateRows o spec visitor state
  = ReadStateRows visitor spec
      (mkStoreSnapshot true (cr_commit_seq r) (facts_cf (cs_impl cs'))) state.
Proof.
  intros Hcommit Hinv Hout Hid Hnew Hrun Hfrom Hbegin Ho Htc Hr Hseq Hval Htyped Hprefix Hm Hspec.
  destruct (client_run_OK _ _ _ _ _ _ _ _ Hinv Hrun) as (Hok & _ & Hsnap & <- & _).
  rewrite <- Hsnap in Hfrom, Hseq.
  destruct (Txn_Commit_committed cf_id outcome limit admission ledger events cs Hcommit Hinv Hout
    db db' n t r t' n' cs' Hok Hfrom Hid Hnew Htc Hr) as (deps & _ & _ & Hrs & Hci & _).
  destruct (begun_overlay _ _ _ _ _ _ Hbegin Ho Hfrom)
    as (Hbase & Hbseq & Hmut & Hids & Hstaged & Hoseq).
  destruct Hbase as (Hown & _ & held & Hheld & _ & Hagree).
  destruct (inv_store _ _ _ Hcommit) as (_ & Hle & _).
  destruct (inv_store _ _ _ Hci) as (Hrep' & _).
  pose proof (committed_batch_events _ _ _ _ _ Hci) as [Hvalid Hnd].
  set (b := commit_batch (sort_staged t) deps) in *. set (b0 := commit_batch t deps).
  assert (batch_events (overlay_seq o) b0 ≡ₚ batch_events (overlay_seq o) b) as Hperm.
  { apply batch_events_perm; [|done]. symmetry. apply stable_sort_perm. }
  rewrite Hrs in *. rewrite Hoseq, Hseq in Hperm.
  destruct (represents_events _ _ Hheld) as (evs & Hf & Hevs).
  assert (stored_in_order (snapshot_facts (base o)) evs) as Hst by by destruct Hheld.
  destruct (represents_events _ _ Hrep') as (evs' & Hf' & Hevs').
  assert (stored_in_order (facts_cf (cs_impl cs')) evs') as Hst' by by destruct Hrep'.
  rewrite (Overlay_ReadStateRows_OK (b := b0) Hst); try done.
  2: { rewrite Hoseq, Hseq. by rewrite Hperm. }
  rewrite (ReadStateRows_OK _ _ _ evs'); try done.
  do 4 f_equal. eapply (merged_rows Hst); [|exact Hst'| | |].
  - rewrite Hoseq, Hseq. by rewrite Hperm.
  - rewrite Hoseq, Hseq. by rewrite Hperm.
  - lia.
  - intros e. unfold merged, selected. rewrite elem_of_app, !list_elem_of_filter, Hoseq, Hseq, Hperm.
    rewrite Hbseq, Hseq in *. cbn [snapshot_commit_seq]. rewrite Hevs', Hevs, elem_of_app. split.
    + intros [[Hmatch _] [He|He]]; [by right|left].
      pose proof (Hle e He). split; [by split|]. by apply Hagree.
    + intros [[[? Hes] He%Hagree]|[? He]]; [|done|].
      * split; [split; [done|lia]|by right].
      * split; [split; [done|]|by left]. rewrite (batch_events_seq _ _ _ He). lia.
Qed.

Lemma read_your_writes_witness :
  exists o cs', BeginReadSnapshot sample_view sample_begin_snapshot true sample_client.2 = Ok o /\
    Overlay_ReadStateRows o (vertex_spec 35 7) (fun seen b => (seen ++ b, StatusOK)) []
    = ReadStateRows (fun seen b => (seen ++ b, StatusOK)) (vertex_spec 35 7)
        (mkStoreSnapshot true 7 (facts_cf (cs_impl cs'))) [].
Proof.
  destruct sample_commit as [[[r t'] n'] cs'] eqn:E.
  pose proof sample_commit_result as Hr. rewrite E in Hr. cbn in Hr. subst r.
  destruct (BeginReadSnapshot sample_view sample_begin_snapshot true sample_client.2)
    as [o|s] eqn:Eo; [|vm_compute in Eo; discriminate Eo].
  exists o, cs'. split; [reflexivity|].
  apply (read_your_writes sample_cf_id sample_written 4096 StatusOK []
    sample_events sample_commit_store sample_view kStrict 90 sample_snapshot sample_calls
    sample_client.1 sample_client.2 sample_view sample_view 0
    (mkCommitResult outcome_committed 7 90 StatusOK) t' n' cs' sample_begin_snapshot o).
  - exact sample_commit_inv.
  - exact sample_identities.
  - exact I.
  - unfold uint. lia.
  - intros s b H. destruct (not_elem_of_nil _ H).
  - exact sample_client_run.
  - exact sample_reads_from.
  - intros s S'. unfold sample_begin_snapshot. destruct (Z.eqb_spec s 6) as [Hs|_]; [|discriminate].
    intros H. apply Ok_inj in H. subst. split; [exact sample_reads_from|reflexivity].
  - exact Eo.
  - exact E.
  - reflexivity.
  - reflexivity.
  - reflexivity.
  - repeat (constructor || (unfold uint; cbn; lia)).
  - repeat (constructor || (cbn; intros; congruence || lia)).
  - discriminate.
  - cbn. lia.
Defined.

(** The point read of an overlay takes a retracted state for no state at all, so that a
    staged write in front of the retraction wins over it.  The rows of the same overlay
    have the vertex absent, as the committed store would. *)
Lemma overlay_point_read_resurrects :
  Overlay_ReadStateAt retracted_overlay vertex_at_spec 60 4
  = Ok (Some (mkFactEvent (mkFactRef 1 kVertexState 0 9) 20 4 kPut 0 None None)) /\
  Overlay_ReadStateRows retracted_overlay (vertex_spec 60 4) (fun seen b => (seen ++ b, StatusOK)) []
  = Some ([], StatusOK).
Proof. split; vm_compute; reflexivity. Qed.

(** A point read behind the snapshot loses the version that was in force then when a
    later commit corrected it; the rows of the same reader show it. *)
Lemma point_read_behind_snapshot :
  ReadStateAt (mkStoreSnapshot true 5 spread_cf)
    (mkFactReadSpec (PartScope_Exact 1) kVertexProperty 4 (mkEntityRange (Some 9) (Some 10))
       None None None None [] 16 None) 12 3 = Ok None /\
  ReadStateRows (fun seen b => (seen ++ (row_value <$> b), StatusOK))
    (mkCanonicalStateReadSpec
       (mkFactReadSpec (PartScope_Exact 1) kVertexProperty 4 (mkEntityRange (Some 9) (Some 10))
          None None None None [] 16 None) 12 3 None)
    (mkStoreSnapshot true 5 spread_cf) [] = Some ([Some (VInt32 5)], StatusOK).
Proof. split; vm_compute; reflexivity. Qed.
