(* ===== verification/Epoch.v ===== *)
(** * Epoch: decided epochs

    Models [src/storage/rocks/decided_epoch.{h,cc}] and the epoch path of
    [src/storage/rocks/rocks_adapter.cc]: the decision stage
    [DecideAndEncodeGroupLocked], which validates a list of requests, assigns their
    sequences and encodes one write batch, the writer stage
    [WriteDecidedGroupLocked], which writes a decided epoch once and publishes it,
    [FactStore::DecideIndependentAppendGroup], which predicts the sequences of blind
    puts without looking at the store, and [FactStore::ValidatePredictedGroup].

    Timers and metrics are not modelled; the outcome of the engine's write is an
    argument. *)

From S2P Require Import Prelude Status Crc32c Wire Value Fact FactCodec CommitBatch.
From S2P Require Import Frame MetaCodec PreparedCodec GroupCommit Bloom RecentWrites.
From S2P Require Import ValidationCache Accelerators Temporal FactStore Conflict.
From S2P Require Import WriteBatch Commit GroupedCommit CommitSize.

(** ** Decided epochs *)

Record DecidedEpoch := mkDecidedEpoch {
  base_visible_seq : Z;
  visible_seq_target : Z;
  committed_count : Z;
  has_durable_terminal : bool;
  request_alignment : Z;
  epoch_batch : option (list WriteOp);
  group_results : list (StatusOr StoreCommitResult)
}.

(** The constructor drops the batch of a decision that writes nothing. *)
Definition make_DecidedEpoch (base target count : Z) (durable : bool)
    (write_batch : option (list WriteOp)) (alignment : Z)
    (results : list (StatusOr StoreCommitResult)) : DecidedEpoch :=
  mkDecidedEpoch base target count durable alignment
    (if durable then write_batch else None) results.

(** Moving the batch out leaves a null pointer. *)
Definition ClaimBatchForWrite (e : DecidedEpoch) : option (list WriteOp) * DecidedEpoch :=
  (epoch_batch e,
   mkDecidedEpoch (base_visible_seq e) (visible_seq_target e) (committed_count e)
     (has_durable_terminal e) (request_alignment e) None (group_results e)).

Definition TakeGroupResult (e : DecidedEpoch)
  : list (StatusOr StoreCommitResult) * DecidedEpoch :=
  (group_results e,
   mkDecidedEpoch (base_visible_seq e) (visible_seq_target e) (committed_count e)
     (has_durable_terminal e) (request_alignment e) (epoch_batch e) []).

(** ** Request alignment *)

Record StoreCommitGroupRequest := mkStoreCommitGroupRequest {
  group_batch : StoreCommitBatch;
  persist_async_abort : bool
}.

Definition kRequestAlignmentSeed : Z := 0x9e3779b97f4a7c15.

Definition MixRequestAlignment (digest value : Z) : Z :=
  Z.lxor digest
    (wrap 64 (value + 0x9e3779b97f4a7c15 + wrap 64 (Z.shiftl digest 6)
              + Z.shiftr digest 2)).

Definition RequestDigest (r : StoreCommitGroupRequest) : Z :=
  let b := group_batch r in
  let digest := MixRequestAlignment kRequestAlignmentSeed 1 in
  let digest := MixRequestAlignment digest (txn_id b) in
  let digest := MixRequestAlignment digest (if persist_async_abort r then 1 else 0) in
  let digest := MixRequestAlignment digest (system_hlc b) in
  let digest := MixRequestAlignment digest (Z.of_nat (length (mutations b))) in
  let digest := MixRequestAlignment digest (Z.of_nat (length (edge_identities b))) in
  let digest :=
    MixRequestAlignment digest (Z.of_nat (length (snapshot_write_dependencies b))) in
  MixRequestAlignment digest (Z.of_nat (length (strict_read_dependencies b))).

Definition RequestAlignmentDigest (requests : list StoreCommitGroupRequest) : Z :=
  fold_left (fun digest r => MixRequestAlignment digest (RequestDigest r)) requests
    kRequestAlignmentSeed.

(** ** The decision *)

Definition already_committed : Status :=
  Conflict "commit" "transaction ID is already committed".
Definition duplicate_in_group : Status :=
  Conflict "commit" "duplicate transaction ID in group".

(** The state of the loop over the requests. *)
Record GroupDecision := mkGroupDecision {
  decision_ids : gset Z;
  decision_ops : list WriteOp;
  decision_results : list (StatusOr StoreCommitResult);
  decision_count : Z;
  decision_durable : bool
}.

(** The validation of one request: its status, whether an abort may be persisted, and
    the transactions met so far. *)
Definition validate_request (max_bytes : Z) (meta : column_family)
    (transaction_ids : gset Z) (r : StoreCommitGroupRequest) (st : FactStoreImpl)
  : Status * bool * gset Z * FactStoreImpl :=
  let b := group_batch r in
  let may_persist_abort := persist_async_abort r in
  match StoreCommitBatch_Validate b with
  | StatusOK =>
      if max_bytes <? EstimateCommitBatchBytes b then
        (batch_too_large, may_persist_abort, transaction_ids, st)
      else
        let '(inserted, transaction_ids) := emplace (txn_id b) transaction_ids in
        if negb inserted then (duplicate_in_group, false, transaction_ids, st)
        else
          match EncodeTransactionMetaKey (txn_id b) with
          | Fail s => (s, may_persist_abort, transaction_ids, st)
          | Ok key =>
              if negb (fresh_transaction_id b) && bool_decide (is_Some (cf_get key meta))
              then (already_committed, false, transaction_ids, st)
              else
                let '(valid, st) := validate_dependencies st b in
                (to_status valid, may_persist_abort, transaction_ids, st)
          end
  | s => (s, may_persist_abort, transaction_ids, st)
  end.

Definition terminal_put (txn : Z) : StatusOr WriteOp :=
  key ← EncodeAsyncTerminalKey txn;
  value ← EncodeAsyncAbortTerminal txn;
  Ok (Put kMetaCf key value).

(** What the decision appends for one request. *)
Definition append_request (visible : Z) (r : StoreCommitGroupRequest)
    (validation : Status) (may_persist_abort : bool) (transaction_ids : gset Z)
    (d : GroupDecision) : StatusOr GroupDecision :=
  let b := group_batch r in
  match validation with
  | StatusOK =>
      _ ← require (negb ((visible =? U64_MAX) || (decision_count d =? U64_MAX - visible)))
            sequence_exhausted;
      let commit_seq := visible + decision_count d + 1 in
      fact_keys ← loop (candidate_fact_keys commit_seq) [] (mutations b);
      ops ← AppendCandidateToWriteBatch (mkCandidateCommit b commit_seq fact_keys);
      Ok (mkGroupDecision transaction_ids (decision_ops d ++ ops)
            (decision_results d ++ [Ok (mkStoreCommitResult commit_seq (system_hlc b))])
            (decision_count d + 1) (decision_durable d))
  | s =>
      '(ops, durable) ←
         (if may_persist_abort then op ← terminal_put (txn_id b); Ok ([op], true)
          else Ok ([], decision_durable d));
      Ok (mkGroupDecision transaction_ids (decision_ops d ++ ops)
            (decision_results d ++ [Fail s]) (decision_count d) durable)
  end.

Fixpoint decide_loop (max_bytes : Z) (meta : column_family) (d : GroupDecision)
    (requests : list StoreCommitGroupRequest) (st : FactStoreImpl)
  : StatusOr GroupDecision * FactStoreImpl :=
  match requests with
  | [] => (Ok d, st)
  | r :: requests' =>
      let '(validation, may_persist_abort, transaction_ids, st) :=
        validate_request max_bytes meta (decision_ids d) r st in
      match append_request (visible_seq st) r validation may_persist_abort
              transaction_ids d with
      | Fail s => (Fail s, st)
      | Ok d => decide_loop max_bytes meta d requests' st
      end
  end.

Definition empty_decision : GroupDecision := mkGroupDecision ∅ [] [] 0 false.

(** The epoch of a finished loop. *)
Definition seal_decision (cf_id : ColumnFamily -> Z) (max_bytes base : Z) (d : GroupDecision)
    (requests : list StoreCommitGroupRequest) : StatusOr DecidedEpoch :=
  let alignment := RequestAlignmentDigest requests in
  if (decision_count d =? 0) && negb (decision_durable d) then
    Ok (make_DecidedEpoch base base 0 false None alignment (decision_results d))
  else
    ops ← (if negb (decision_count d =? 0) then
             watermark ← EncodeWatermark (base + decision_count d);
             Ok (decision_ops d ++ [Put kMetaCf EncodeVisibleWatermarkKey watermark])
           else Ok (decision_ops d));
    _ ← CheckCommittedBatchSize cf_id ops max_bytes;
    Ok (make_DecidedEpoch base (base + decision_count d) (decision_count d)
          (negb (decision_count d =? 0) || decision_durable d) (Some ops) alignment
          (decision_results d)).

Definition DecideAndEncodeGroupLocked (cf_id : ColumnFamily -> Z)
    (requests : list StoreCommitGroupRequest) (cs : CommitStore)
  : StatusOr DecidedEpoch * CommitStore :=
  let max_bytes := group_commit_max_batch_bytes cs in
  let '(decided, st) :=
    decide_loop max_bytes (meta_cf cs) empty_decision requests (cs_impl cs) in
  (d ← decided; seal_decision cf_id max_bytes (visible_seq (cs_impl cs)) d requests,
   with_impl st cs).

(** [FactStore::DecideAndEncodeGroup]. *)
Definition DecideAndEncodeGroup (cf_id : ColumnFamily -> Z)
    (requests : list StoreCommitGroupRequest) (cs : CommitStore)
  : StatusOr DecidedEpoch * CommitStore :=
  if recovery_required cs then (Fail reopen_required, cs)
  else DecideAndEncodeGroupLocked cf_id requests cs.

(** ** The writer *)

Fixpoint publish_decided (requests : list StoreCommitGroupRequest)
    (decisions : list (StatusOr StoreCommitResult)) (st : FactStoreImpl)
  : FactStoreImpl :=
  match requests, decisions with
  | r :: requests', Ok result :: decisions' =>
      publish_decided requests' decisions'
        (publish_commit (group_batch r) (result_commit_seq result) st)
  | _ :: requests', Fail _ :: decisions' => publish_decided requests' decisions' st
  | _, _ => st
  end.

(** The status of a failed epoch write. *)
Definition epoch_write_failure (failure : RocksStatus) : Status :=
  let status := FromCommitWriteFailure failure in
  if IsIndeterminate status then status
  else RecoveryRequired "commit" (ToString status).

Definition WriteDecidedGroupLocked (outcome : WriteOutcome)
    (requests : list StoreCommitGroupRequest) (e : DecidedEpoch) (cs : CommitStore)
  : StatusOr (list (StatusOr StoreCommitResult)) * DecidedEpoch * CommitStore :=
  if negb (has_durable_terminal e) then
    let '(results, e) := TakeGroupResult e in (Ok results, e, cs)
  else if negb (visible_seq (cs_impl cs) =? base_visible_seq e) then
    (Fail (Conflict "commit" "decided epoch base is no longer current"), e, cs)
  else if negb (length (group_results e) =? length requests)%nat
          || negb (request_alignment e =? RequestAlignmentDigest requests) then
    (Fail (Corruption "commit" "decided epoch requests do not match its decision"), e, cs)
  else
    let '(decided_batch, e) := ClaimBatchForWrite e in
    match decided_batch with
    | None => (Fail (Corruption "commit" "decided epoch batch was already claimed"), e, cs)
    | Some ops =>
        let written := with_db (db_write (cs_db cs) ops) cs in
        match write_status outcome with
        | rocks_ok =>
            let cs :=
              if negb (committed_count e =? 0) then
                with_impl
                  (PublishVisible (visible_seq_target e)
                     (publish_decided requests (group_results e) (cs_impl written)))
                  written
              else written in
            let '(results, e) := TakeGroupResult e in (Ok results, e, cs)
        | failure =>
            (Fail (epoch_write_failure failure), e,
             require_recovery (if write_applied outcome then written else cs))
        end
    end.

Definition WriteDecidedGroup (outcome : WriteOutcome)
    (requests : list StoreCommitGroupRequest) (e : DecidedEpoch) (cs : CommitStore)
  : StatusOr (list (StatusOr StoreCommitResult)) * DecidedEpoch * CommitStore :=
  if recovery_required cs then (Fail reopen_required, e, cs)
  else WriteDecidedGroupLocked outcome requests e cs.

Definition CommitGroupWithWalCallbackDirect (cf_id : ColumnFamily -> Z)
    (outcome : WriteOutcome) (requests : list StoreCommitGroupRequest)
    (cs : CommitStore) : StatusOr (list (StatusOr StoreCommitResult)) * CommitStore :=
  if recovery_required cs then (Fail reopen_required, cs)
  else
    match DecideAndEncodeGroupLocked cf_id requests cs with
    | (Fail s, cs) => (Fail s, cs)
    | (Ok e, cs) =>
        let '(results, _, cs) := WriteDecidedGroupLocked outcome requests e cs in
        (results, cs)
    end.

(** ** Predicted epochs *)

Definition not_blind_put : Status :=
  InvalidArgument "commit" "independent append decision requires a fresh blind put batch".
Definition append_conflict : Status :=
  Conflict "commit" "independent append group has a conflict".

(** One turn of the loop of [DecideIndependentAppendGroup]; the views are pointers
    that the callers keep non-null. *)
Definition predict_request (max_bytes base : Z) (s : CommitConflictIndex * GroupDecision)
    (r : StoreCommitGroupRequest) : StatusOr (CommitConflictIndex * GroupDecision) :=
  let '(conflict_index, d) := s in
  let b := group_batch r in
  _ ← require (fresh_transaction_id b && CanUseAppendFastPath b) not_blind_put;
  _ ← check (StoreCommitBatch_Validate b);
  _ ← require (EstimateCommitBatchBytes b <=? max_bytes) batch_too_large;
  let '(inserted, conflict_index) := Insert conflict_index (BuildCommitFootprint b) in
  _ ← require inserted append_conflict;
  _ ← require (negb (decision_count d =? U64_MAX - base)) sequence_exhausted;
  let commit_seq := base + decision_count d + 1 in
  fact_keys ← loop (candidate_fact_keys commit_seq) [] (mutations b);
  ops ← AppendCandidateToWriteBatch (mkCandidateCommit b commit_seq fact_keys);
  Ok (conflict_index,
      mkGroupDecision (decision_ids d) (decision_ops d ++ ops)
        (decision_results d ++ [Ok (mkStoreCommitResult commit_seq (system_hlc b))])
        (decision_count d + 1) (decision_durable d)).

Definition DecideIndependentAppendGroup (cf_id : ColumnFamily -> Z) (base : Z)
    (requests : list StoreCommitGroupRequest) (cs : CommitStore)
  : StatusOr DecidedEpoch :=
  let max_bytes := group_commit_max_batch_bytes cs in
  _ ← require (negb (recovery_required cs)) reopen_required;
  _ ← require (negb (bool_decide (requests = [])))
        (InvalidArgument "commit" "missing independent append batches");
  _ ← require (negb (base =? U64_MAX)) sequence_exhausted;
  '(_, d) ← loop (predict_request max_bytes base) (empty_index, empty_decision) requests;
  watermark ← EncodeWatermark (base + decision_count d);
  let ops := decision_ops d ++ [Put kMetaCf EncodeVisibleWatermarkKey watermark] in
  _ ← CheckCommittedBatchSize cf_id ops max_bytes;
  Ok (make_DecidedEpoch base (base + decision_count d) (decision_count d) true (Some ops)
        (RequestAlignmentDigest requests) (decision_results d)).

Fixpoint validate_predicted (requests : list StoreCommitGroupRequest)
    (st : FactStoreImpl) : Status * FactStoreImpl :=
  match requests with
  | [] => (StatusOK, st)
  | r :: requests' =>
      match ValidateSnapshotWriteDependencies st
              (snapshot_write_dependencies (group_batch r)) with
      | (StatusOK, st) => validate_predicted requests' st
      | (s, st) => (s, st)
      end
  end.

Definition ValidatePredictedGroup (requests : list StoreCommitGroupRequest)
    (cs : CommitStore) : Status * CommitStore :=
  if recovery_required cs then (reopen_required, cs)
  else
    let '(s, st) := validate_predicted requests (cs_impl cs) in (s, with_impl st cs).

(** ** Specification *)

(** A request the store can commit. *)
Definition acceptable (events : list FactEvent) (cs : CommitStore)
    (r : StoreCommitGroupRequest) : Prop :=
  let b := group_batch r in
  StoreCommitBatch_Validate b = StatusOK /\
  EstimateCommitBatchBytes b <= group_commit_max_batch_bytes cs /\
  (fresh_transaction_id b = true \/
   forall k, EncodeTransactionMetaKey (txn_id b) = Ok k -> cf_get k (meta_cf cs) = None) /\
  admissible events (visible_seq (cs_impl cs)) b.

Definition direct_request (r : StoreCommitGroupRequest) : GroupCommitRequest :=
  mkGroupCommitRequest (group_batch r) None true.

(** The requests with a sequence among the results, as requests of their own. *)
Fixpoint accepted (requests : list StoreCommitGroupRequest)
    (results : list (StatusOr StoreCommitResult)) : list GroupCommitRequest :=
  match requests, results with
  | r :: requests', Ok _ :: results' => direct_request r :: accepted requests' results'
  | _ :: requests', Fail _ :: results' => accepted requests' results'
  | _, _ => []
  end.

Definition successes (results : list (StatusOr StoreCommitResult))
  : list StoreCommitResult :=
  omap (fun r => match r with Ok s => Some s | Fail _ => None end) results.

(** The keys of abort terminals. *)
Definition terminal_key (k : list byte) : Prop :=
  exists txn, EncodeAsyncTerminalKey txn = Ok k.

(** The operations [ops] are [gops] and abort terminals. *)
Definition with_terminals (gops ops : list WriteOp) : Prop :=
  (forall cf k old, cf = kFactsCf \/ ~ terminal_key k ->
     ops_value cf k ops old = ops_value cf k gops old) /\
  forall cf_id, GetDataSize cf_id gops <= GetDataSize cf_id ops.

(** The state of the decision after some requests. *)
Definition decided (visible : Z) (requests : list StoreCommitGroupRequest)
    (d : GroupDecision) : Prop :=
  length (decision_results d) = length requests /\
  decision_count d = Z.of_nat (length (successes (decision_results d))) /\
  exists gops,
    group_ops (visible + 1) (accepted requests (decision_results d))
    = Ok (gops, successes (decision_results d)) /\
    with_terminals gops (decision_ops d).

(** A decision with other transactions met. *)
Definition with_ids (ids : gset Z) (d : GroupDecision) : GroupDecision :=
  mkGroupDecision ids (decision_ops d) (decision_results d) (decision_count d)
    (decision_durable d).

(** A batch that does not validate. *)
Definition sample_empty : StoreCommitBatch := mkStoreCommitBatch 44 1003 [] [] [] [] false.

(** Two blind puts of fresh transactions. *)
Definition blind_put (txn entity : Z) : StoreCommitBatch :=
  mkStoreCommitBatch txn 1000
    [mkPendingFactMutation (mkFactRef 1 kVertexState 0 entity) 30 kPut 0 None] []
    [mkSnapshotWriteDependency (mkFactRef 1 kVertexState 0 entity) 30 None None 6] [] true.

Definition blind_puts : list StoreCommitGroupRequest :=
  [mkStoreCommitGroupRequest (blind_put 51 5) false;
   mkStoreCommitGroupRequest (blind_put 52 9) false].

(** The epoch predicted for them on the sample store. *)
Definition sample_epoch : StatusOr DecidedEpoch :=
  DecideIndependentAppendGroup sample_cf_id 6 blind_puts sample_commit_store.

(** ** Terminals *)

Lemma with_terminals_app gops ops more :
  with_terminals gops ops -> with_terminals (gops ++ more) (ops ++ more).
Proof.
  intros [H1 H2]. split.
  - intros cf k old Hk. by rewrite !ops_value_app, H1.
  - intros cf_id. rewrite !GetDataSize_app. specialize (H2 cf_id). lia.
Qed.

Lemma with_terminals_put gops ops txn op :
  with_terminals gops ops -> terminal_put txn = Ok op -> with_terminals gops (ops ++ [op]).
Proof.
  intros [H1 H2] Hop. unfold terminal_put in Hop. inv_ok. subst op. split.
  - intros cf k old Hk. rewrite ops_value_app, H1 by done. cbn.
    rewrite bool_decide_false; [done|]. intros [<- <-]. destruct Hk as [|Hk]; [done|].
    apply Hk. by exists txn.
  - intros cf_id. rewrite GetDataSize_app. specialize (H2 cf_id).
    pose proof (GetDataSize_ge cf_id [Put kMetaCf x x0]). lia.
Qed.

Lemma with_terminals_nil : with_terminals [] [].
Proof. split; [done|]. intros cf_id. lia. Qed.

Lemma terminal_key_apart k :
  terminal_key k ->
  (forall txn, EncodeTransactionMetaKey txn <> Ok k) /\
  (forall s, EncodeSequenceMetaKey s <> Ok k) /\ k <> EncodeVisibleWatermarkKey.
Proof.
  intros [txn H]. unfold EncodeAsyncTerminalKey in H. destruct (txn =? 0); inv_ok. subst k.
  split_and!; [intros t|intros s|]; unfold EncodeTransactionMetaKey, EncodeSequenceMetaKey;
    try case_match; cbn; discriminate.
Qed.

(** ** The decision loop *)

Lemma accepted_app requests results r res :
  length requests = length results ->
  accepted (requests ++ [r]) (results ++ [res])
  = accepted requests results ++ (if is_ok res then [direct_request r] else []).
Proof.
  revert results. induction requests as [|q requests IH]; intros [|x results] Hlen; try done.
  - by destruct res.
  - injection Hlen as Hlen. cbn. rewrite (IH results Hlen). by destruct x.
Qed.

Lemma successes_app results res :
  successes (results ++ [res])
  = successes results ++ match res with Ok s => [s] | Fail _ => [] end.
Proof. unfold successes. rewrite omap_app. by destruct res. Qed.

Lemma group_ops_snoc s requests r gops results keys core :
  group_ops s requests = Ok (gops, results) ->
  let s' := s + Z.of_nat (length results) in
  loop (candidate_fact_keys s') [] (mutations (request_batch r)) = Ok keys ->
  AppendCandidateToWriteBatch (mkCandidateCommit (request_batch r) s' keys) = Ok core ->
  group_ops s (requests ++ [r])
  = Ok (gops ++ core ++ delete_prepared (request_prepared_key r),
        results ++ [mkStoreCommitResult s' (system_hlc (request_batch r))]).
Proof.
  revert s gops results. induction requests as [|q requests IH]; intros s gops results H s' Hk Hc.
  - injection H as <- <-. unfold s' in *. cbn [length] in *. rewrite Z.add_0_r in *.
    cbn [app group_ops]. rewrite Hk. cbn [mbind StatusOr_bind]. rewrite Hc.
    cbn [mbind StatusOr_bind]. by rewrite app_nil_r.
  - cbn [app group_ops] in *. apply bind_Ok in H as (kq & -> & H).
    apply bind_Ok in H as (cq & Hcq & H). apply bind_Ok in H as ([g rs] & Hg & H).
    injection H as <- <-. cbn [mbind StatusOr_bind]. rewrite Hcq. cbn [mbind StatusOr_bind].
    assert (s' = s + 1 + Z.of_nat (length rs)) as Es by (unfold s'; cbn [length]; lia).
    rewrite (IH (s + 1) g rs Hg); rewrite <- Es; [|done..].
    cbn. by rewrite <- !app_assoc.
Qed.

Lemma append_request_decided visible past r validation may_persist ids d d' :
  decided visible past d -> visible + decision_count d <= U64_MAX ->
  append_request visible r validation may_persist ids d = Ok d' ->
  decided visible (past ++ [r]) d' /\ visible + decision_count d' <= U64_MAX /\
  decision_ids d' = ids /\
  exists res, decision_results d' = decision_results d ++ [res] /\
    (is_ok res = true <-> validation = StatusOK).
Proof.
  intros (Hlen & Hcount & gops & Hg & Ht) Hmax H. unfold append_request in H.
  destruct validation as [|code msg].
  - inv_ok. bool_to_prop. subst d'. cbn [decision_ids decision_results decision_count].
    split_and!; [|lia|done|by eexists].
    assert (visible + decision_count d + 1
            = visible + 1 + Z.of_nat (length (successes (decision_results d)))) as Es by lia.
    split_and!; cbn [decision_results decision_count decision_ops].
    + rewrite !length_app. cbn. lia.
    + rewrite successes_app, length_app. cbn. lia.
    + rewrite accepted_app, successes_app by done. cbn [is_ok].
      match goal with Hk : loop _ _ _ = Ok _, Hc : AppendCandidateToWriteBatch _ = Ok ?core |- _ =>
        rewrite Es in Hk, Hc |- *;
        pose proof (group_ops_snoc _ _ (direct_request r) _ _ _ _ Hg Hk Hc) as Hs;
        exists (gops ++ core); rewrite app_nil_r in Hs end.
      split; [exact Hs|by apply with_terminals_app].
  - apply bind_Ok in H as ([ops durable] & Hops & H). apply Ok_inj in H as <-.
    cbn [decision_ids decision_results decision_count].
    split_and!; [|lia|done|by eexists].
    split_and!; cbn [decision_results decision_count decision_ops].
    + rewrite !length_app. cbn. lia.
    + by rewrite successes_app, app_nil_r.
    + rewrite accepted_app, successes_app, !app_nil_r by done. exists gops. split; [done|].
      destruct may_persist; inv_ok; injection Hops as <- <-; [|by rewrite app_nil_r].
      by eapply with_terminals_put.
Qed.

Lemma validate_dependencies_proper st b :
  (validate_dependencies st b).1 <> Fail StatusOK.
Proof.
  unfold validate_dependencies. destruct (ValidateSnapshotWriteDependencies _ _) as [s st'].
  cbn [fst]. repeat (apply proper_bind; [apply proper_check|intros _]). apply proper_check.
Qed.

Section decide.

Context (ledger : list (Z * StoreCommitBatch)) (events : list FactEvent) (cs : CommitStore).
Hypothesis Hinv : commit_inv ledger events cs.
Hypothesis Hmax : visible_seq (cs_impl cs) < U64_MAX.

(** The validation accepts what is acceptable. *)
Lemma validate_request_spec ids r c validation may_persist ids' st' :
  prepared_typed (group_batch r) -> store_ok events (with_cache c (cs_impl cs)) ->
  txn_id (group_batch r) ∉ ids ->
  validate_request (group_commit_max_batch_bytes cs) (meta_cf cs) ids r
    (with_cache c (cs_impl cs)) = (validation, may_persist, ids', st') ->
  (validation = StatusOK <-> acceptable events cs r) /\
  (ids' = ids \/ ids' = {[ txn_id (group_batch r) ]} ∪ ids) /\
  exists c', st' = with_cache c' (cs_impl cs) /\ store_ok events st'.
Proof.
  intros Ht Hst Hids H. unfold validate_request in H. unfold acceptable.
  destruct (StoreCommitBatch_Validate (group_batch r)) eqn:Hv.
  2: { injection H as <- <- <- <-. split; [naive_solver|]. split; [by left|by exists c]. }
  destruct (Z.ltb_spec (group_commit_max_batch_bytes cs)
              (EstimateCommitBatchBytes (group_batch r))) as [Hlt|Hle].
  { injection H as <- <- <- <-. split; [split; [done|lia]|]. split; [by left|by exists c]. }
  unfold emplace in H. rewrite bool_decide_true in H by done. cbn [negb] in H.
  assert (batch_ok (group_batch r)) as Hbok
    by by apply StoreCommitBatch_Validate_OK; [apply prepared_batch_typed|].
  destruct (EncodeTransactionMetaKey (txn_id (group_batch r))) as [k|] eqn:Ek.
  2: { exfalso. unfold EncodeTransactionMetaKey in Ek.
       rewrite (proj2 (Z.eqb_neq _ _)) in Ek by apply Hbok. done. }
  destruct (negb _ && _) eqn:Ef.
  { injection H as <- <- <- <-. bool_to_prop. split; [|split; [by right|by exists c]].
    split; [done|]. intros (_ & _ & [|Hn] & _); [congruence|].
    rewrite (Hn k eq_refl) in *. by apply is_Some_None in H0. }
  pose proof (validate_dependencies_proper (with_cache c (cs_impl cs)) (group_batch r)) as Hp.
  destruct (validate_dependencies_admissible events (with_cache c (cs_impl cs))
              (group_batch r) Hst Ht Hbok) as (valid & c' & E & Hst' & Hadm).
  rewrite E in H, Hp. cbn [fst] in Hp. injection H as <- <- <- <-.
  split; [|split; [by right|by exists c']]. rewrite to_status_unit by done. split.
  - intros ->. split_and!; [done|done| |by apply Hadm].
    apply andb_false_iff in Ef as [Ef|Ef]; [left; by destruct (fresh_transaction_id _)|right].
    intros k' [= <-]. apply bool_decide_eq_false in Ef. by apply eq_None_not_Some.
  - intros (_ & _ & _ & Ha).
    destruct (validate_dependencies_complete events (with_cache c (cs_impl cs))
                (group_batch r) Hst Ht Hbok Hmax Ha) as (c'' & E' & _). congruence.
Qed.

Lemma decide_loop_spec todo past d c d' st' :
  decided (visible_seq (cs_impl cs)) past d ->
  visible_seq (cs_impl cs) + decision_count d <= U64_MAX ->
  store_ok events (with_cache c (cs_impl cs)) ->
  (forall t, t ∈ decision_ids d -> exists q, q ∈ past /\ txn_id (group_batch q) = t) ->
  Forall2 (fun r res => is_ok res = true <-> acceptable events cs r) past
    (decision_results d) ->
  Forall (fun r => prepared_typed (group_batch r)) todo ->
  NoDup ((fun r => txn_id (group_batch r)) <$> past ++ todo) ->
  decide_loop (group_commit_max_batch_bytes cs) (meta_cf cs) d todo
    (with_cache c (cs_impl cs)) = (Ok d', st') ->
  decided (visible_seq (cs_impl cs)) (past ++ todo) d' /\
  visible_seq (cs_impl cs) + decision_count d' <= U64_MAX /\
  (exists c', st' = with_cache c' (cs_impl cs)) /\ store_ok events st' /\
  Forall2 (fun r res => is_ok res = true <-> acceptable events cs r) (past ++ todo)
    (decision_results d').
Proof.
  revert past d c. induction todo as [|r todo IH];
    intros past d c Hd Hle Hst Hids Hres Ht Hnd H.
  { cbn in H. injection H as <- <-. rewrite app_nil_r. split_and!; try done. by exists c. }
  apply Forall_cons in Ht as [Htr Ht]. cbn [decide_loop] in H.
  destruct (validate_request _ _ _ _ _) as [[[validation may] ids'] st1] eqn:Ev.
  apply validate_request_spec in Ev as (Hacc & Hids' & c1 & -> & Hst1); try done.
  2: { intros Hin. destruct (Hids _ Hin) as (q & Hq & Et).
       rewrite fmap_app, NoDup_app in Hnd. destruct Hnd as (_ & Hdis & _).
       apply (Hdis (txn_id (group_batch r))); [|by left].
       rewrite <- Et. by apply (list_elem_of_fmap_2 (fun r => txn_id (group_batch r))). }
  change (visible_seq (with_cache c1 (cs_impl cs))) with (visible_seq (cs_impl cs)) in H.
  destruct (append_request _ _ _ _ _ _) as [d1|] eqn:Ea; [|done].
  apply (append_request_decided _ past) in Ea as (Hd1 & Hle1 & Eids & res & Er & Hok); try done.
  replace (past ++ r :: todo) with ((past ++ [r]) ++ todo) in * by by rewrite <- app_assoc.
  eapply IH; try done.
  - intros t Hin. rewrite Eids in Hin.
    assert (t ∈ decision_ids d \/ t = txn_id (group_batch r)) as [Hin'| ->]
      by (destruct Hids' as [-> | ->]; set_solver).
    + destruct (Hids t Hin') as (q & Hq & ?). exists q. split; [set_solver|done].
    + exists r. split; [set_solver|done].
  - rewrite Er. apply Forall2_app; [done|]. constructor; [|constructor].
    by rewrite Hok, Hacc.
Qed.

End decide.

(** ** The accepted requests *)

Lemma accepted_length requests results :
  length requests = length results ->
  length (accepted requests results) = length (successes results).
Proof.
  revert results. induction requests as [|r requests IH]; intros [|res results] Hlen; try done.
  injection Hlen as Hlen. cbn. destruct res; cbn; by rewrite IH.
Qed.

Lemma accepted_Forall (P : StoreCommitGroupRequest -> Prop) requests results :
  Forall2 (fun r res => is_ok res = true -> P r) requests results ->
  Forall (fun q => exists r, q = direct_request r /\ P r /\ r ∈ requests)
    (accepted requests results).
Proof.
  induction 1 as [|r res requests results Hr _ IH]; [constructor|].
  assert (Forall (fun q => exists r', q = direct_request r' /\ P r' /\ r' ∈ r :: requests)
            (accepted requests results)) as IH'.
  { eapply Forall_impl; [exact IH|]. intros q (r' & ? & ? & ?). exists r'. set_solver. }
  destruct res; cbn; [|done]. constructor; [|done]. exists r. set_solver.
Qed.

Lemma accepted_pairs (R : StoreCommitBatch -> StoreCommitBatch -> Prop) requests results :
  ForallOrdPairs R (group_batch <$> requests) ->
  ForallOrdPairs R (request_batch <$> accepted requests results).
Proof.
  revert results. induction requests as [|r requests IH]; intros [|res results] H;
    try (cbn; by constructor).
  rewrite fmap_cons in H. inversion H as [|? ? Hr H']; subst.
  destruct res; cbn; [|by apply IH]. constructor; [|by apply IH].
  rewrite Forall_forall in Hr. apply Forall_fmap.
  assert (forall q, q ∈ accepted requests results -> exists r', r' ∈ requests /\
            q = direct_request r') as Hin.
  { clear. revert results. induction requests as [|x requests IH]; intros [|y results] q;
      cbn; try (by intros ?%not_elem_of_nil).
    destruct y; [intros [->|Hq]%elem_of_cons|intros Hq]; [exists x; set_solver|..];
      destruct (IH results q Hq) as (r' & ? & ?); exists r'; set_solver. }
  apply Forall_forall. intros q Hq. destruct (Hin q Hq) as (r' & Hr' & ->).
  apply Hr. by apply (list_elem_of_fmap_2 group_batch).
Qed.

Lemma publish_decided_group s requests results gops st :
  length requests = length results ->
  group_ops s (accepted requests results) = Ok (gops, successes results) ->
  publish_decided requests results st = publish_group s (accepted requests results) st.
Proof.
  revert s results gops st. induction requests as [|r requests IH];
    intros s [|res results] gops st Hlen H; try done. injection Hlen as Hlen.
  destruct res as [res|]; cbn in H |- *; [|by eapply IH].
  apply bind_Ok in H as (k & _ & H). apply bind_Ok in H as (core & _ & H).
  apply bind_Ok in H as ([g rs] & Hg & H). injection H as _ E1 E2.
  rewrite <- E1. cbn [result_commit_seq]. eapply IH; [done|]. rewrite Hg. by rewrite E2.
Qed.

Lemma shareable_NoDup requests :
  ForallOrdPairs independent (group_batch <$> requests) ->
  NoDup ((fun r => txn_id (group_batch r)) <$> requests).
Proof.
  induction requests as [|r requests IH]; rewrite ?fmap_cons; [constructor|].
  intros H. inversion H as [|? ? Hr H']; subst. constructor; [|by apply IH].
  intros (q & E & Hq)%list_elem_of_fmap. rewrite Forall_forall in Hr.
  destruct (Hr (group_batch q) (list_elem_of_fmap_2 group_batch _ _ Hq)) as [(Hne & _) _].
  by apply Hne.
Qed.

(** The invariant depends on the facts and on the records of transactions. *)
Lemma commit_inv_agree ledger events cs cs' :
  commit_inv ledger events cs -> facts_cf (cs_impl cs') = facts_cf (cs_impl cs) ->
  cf_sorted (meta_cf cs') ->
  (forall k, ~ terminal_key k -> cf_get k (meta_cf cs') = cf_get k (meta_cf cs)) ->
  visible_seq (cs_impl cs') = visible_seq (cs_impl cs) -> recovery_required cs' = false ->
  reflects_opt events (recent_fact_write_index (cs_impl cs')) ->
  reflects_opt events (identity_history (cs_impl cs')) ->
  reflects_opt events (version_validation_cache (cs_impl cs')) ->
  commit_inv ledger events cs'.
Proof.
  intros [(Hrep & Hle & _) _ Hv _ He Ho] Ef Hs Hk Ev Hrun H1 H2 H3. split; rewrite ?Ev; try done.
  - split_and!; rewrite ?Ef, ?Ev; done.
  - intros s b Hin. destruct (He s b Hin) as (? & ? & ? & Hrec & ? & ?).
    split_and!; try done; try lia. eapply recorded_frame; [|exact Hrec].
    intros key k Hc Ek. apply Hk. intros Ht. apply terminal_key_apart in Ht as (T1 & T2 & _).
    destruct Hc as [-> | ->]; [by apply (T1 (txn_id b))|by apply (T2 s)].
  - intros txn k Ht Ek Hg. apply (Ho txn k Ht Ek). rewrite <- Hk; [done|].
    intros Hterm. apply terminal_key_apart in Hterm as (T1 & _). by apply (T1 txn).
Qed.

(** Abort terminals change nothing else. *)
Lemma with_terminals_db db gops ops :
  db_sorted db -> with_terminals gops ops ->
  db_facts (db_write db ops) = db_facts (db_write db gops) /\
  forall k, ~ terminal_key k ->
    cf_get k (db_meta (db_write db ops)) = cf_get k (db_meta (db_write db gops)).
Proof.
  intros Hdb [H _]. split.
  - apply cf_ext; try by apply db_write_sorted. intros k.
    change (db_facts ?d) with (db_cf kFactsCf d). rewrite !db_write_get by done.
    apply H. by left.
  - intros k Hk. change (db_meta ?d) with (db_cf kMetaCf d).
    rewrite !db_write_get by done. apply H. by right.
Qed.

(** ** Decision and write together *)

(** What a successful group commit did. *)
Lemma CommitGroup_Ok cf_id outcome requests cs results cs1 :
  recovery_required cs = false -> write_status outcome = rocks_ok ->
  CommitGroupWithWalCallbackDirect cf_id outcome requests cs = (Ok results, cs1) ->
  exists d st,
    decide_loop (group_commit_max_batch_bytes cs) (meta_cf cs) empty_decision requests
      (cs_impl cs) = (Ok d, st) /\ results = decision_results d /\
    (let csd := with_impl st cs in
     (decision_count d = 0 /\ decision_durable d = false /\ cs1 = csd) \/
     (decision_count d = 0 /\ cs1 = with_db (db_write (cs_db csd) (decision_ops d)) csd) \/
     (decision_count d <> 0 /\ exists w,
        let last_seq := visible_seq (cs_impl cs) + decision_count d in
        let ops := decision_ops d ++ [Put kMetaCf EncodeVisibleWatermarkKey w] in
        let written := with_db (db_write (cs_db csd) ops) csd in
        EncodeWatermark last_seq = Ok w /\
        GetDataSize cf_id ops <= group_commit_max_batch_bytes cs /\
        cs1 = with_impl (PublishVisible last_seq
                (publish_decided requests results (cs_impl written))) written)).
Proof.
  intros Hrun Ho H. unfold CommitGroupWithWalCallbackDirect, DecideAndEncodeGroupLocked in H.
  rewrite Hrun in H. destruct (decide_loop _ _ _ _ _) as [[d|] st] eqn:Ed; [|done].
  cbn [mbind StatusOr_bind] in H. exists d, st. split; [done|].
  unfold seal_decision in H. destruct (Z.eqb_spec (decision_count d) 0) as [E0|E0].
  - destruct (decision_durable d) eqn:Edu; cbn [negb andb orb mbind StatusOr_bind] in H.
    + destruct (CheckCommittedBatchSize _ _ _); [|done]. cbn [mbind StatusOr_bind] in H.
      unfold WriteDecidedGroupLocked, make_DecidedEpoch in H.
      cbn [has_durable_terminal negb base_visible_seq group_results request_alignment
        ClaimBatchForWrite epoch_batch committed_count cs_impl with_impl] in H.
      destruct (visible_seq st =? _) eqn:Ev; [|done]. rewrite Z.eqb_refl in H.
      destruct (_ =? _)%nat eqn:El; [|done]. cbn [negb orb] in H. rewrite Ho in H.
      rewrite E0 in H. cbn in H. injection H as <- <-. split; [done|]. right; left.
      by rewrite E0.
    + unfold WriteDecidedGroupLocked, make_DecidedEpoch in H. cbn in H.
      injection H as <- <-. split; [done|]. by left.
  - cbn [negb andb orb] in H. destruct (EncodeWatermark _) as [w|] eqn:Ew; [|done].
    cbn [mbind StatusOr_bind] in H. destruct (CheckCommittedBatchSize _ _ _) eqn:Es; [|done].
    unfold CheckCommittedBatchSize in Es. apply require_Ok, Z.leb_le in Es.
    cbn [mbind StatusOr_bind] in H. unfold WriteDecidedGroupLocked, make_DecidedEpoch in H.
    cbn [has_durable_terminal negb base_visible_seq group_results request_alignment
      ClaimBatchForWrite epoch_batch committed_count cs_impl with_impl visible_seq_target
      TakeGroupResult] in H.
    destruct (visible_seq st =? _) eqn:Ev; [|done]. rewrite Z.eqb_refl in H.
    destruct (_ =? _)%nat eqn:El; [|done]. cbn [negb orb] in H. rewrite Ho in H.
    rewrite (proj2 (Z.eqb_neq _ _) E0) in H. cbn [negb] in H. injection H as <- <-.
    split; [done|]. right; right. split; [done|]. by exists w.
Qed.

(** The accepted requests are those a leader would find ready. *)
Lemma accepted_ready ledger events cs requests results :
  commit_inv ledger events cs ->
  Forall (fun r => prepared_typed (group_batch r)) requests ->
  (forall r s b, r ∈ requests -> fresh_transaction_id (group_batch r) = true ->
     (s, b) ∈ ledger -> txn_id b <> txn_id (group_batch r)) ->
  Forall2 (fun r res => is_ok res = true <-> acceptable events cs r) requests results ->
  Forall (request_ok cs) (accepted requests results) /\
  Forall (request_ready events cs) (accepted requests results).
Proof.
  intros Hinv Ht Hfresh Hres. rewrite Forall_forall in Ht.
  assert (Forall (fun q => exists r, q = direct_request r /\ acceptable events cs r /\
            r ∈ requests) (accepted requests results)) as Hacc.
  { apply accepted_Forall. eapply Forall2_impl; [exact Hres|]. naive_solver. }
  split; (eapply Forall_impl; [exact Hacc|]); intros q (r & -> & (Hv & Hest & Hn & Hadm) & Hin).
  - split_and!; try done. by apply Ht.
  - split_and!; try done.
    assert (batch_ok (group_batch r)) as Hbok
      by by apply StoreCommitBatch_Validate_OK; [apply prepared_batch_typed, Ht|].
    destruct (EncodeTransactionMetaKey (txn_id (group_batch r))) as [k|] eqn:Ek.
    2: { exfalso. unfold EncodeTransactionMetaKey in Ek.
         rewrite (proj2 (Z.eqb_neq _ _)) in Ek by apply Hbok. done. }
    exists k. split; [done|]. destruct Hn as [Hf|Hn]; [|by apply Hn].
    destruct (cf_get k (meta_cf cs)) eqn:Eg; [|done]. exfalso.
    destruct (inv_outcomes _ _ _ Hinv (txn_id (group_batch r)) k) as (s & b & Hl & Et);
      [by apply (Ht r Hin)|done|by rewrite Eg|]. by apply (Hfresh r s b).
Qed.

(** A decision that accepts nothing leaves the committed state alone. *)
Lemma terminals_only_inv ledger events cs c ops :
  commit_inv ledger events cs -> store_ok events (with_cache c (cs_impl cs)) ->
  with_terminals [] ops ->
  let csd := with_impl (with_cache c (cs_impl cs)) cs in
  let cs1 := with_db (db_write (cs_db csd) ops) csd in
  facts_cf (cs_impl cs1) = facts_cf (cs_impl cs) /\
  (forall k, ~ terminal_key k -> cf_get k (meta_cf cs1) = cf_get k (meta_cf cs)) /\
  visible_seq (cs_impl cs1) = visible_seq (cs_impl cs) /\ commit_inv ledger events cs1.
Proof.
  intros Hinv Hst Hw csd cs1. pose proof (step_sorted _ _ _ Hinv) as Hs.
  destruct (with_terminals_db (cs_db cs) [] ops Hs Hw) as [Ef Em].
  destruct Hst as (_ & _ & H1 & H2 & H3).
  assert (facts_cf (cs_impl cs1) = facts_cf (cs_impl cs)) as Ef1 by exact Ef.
  split_and!; [done|exact Em|done|].
  apply (commit_inv_agree ledger events cs); try done.
  - exact (proj2 (db_write_sorted (cs_db cs) ops Hs)).
  - apply (inv_running _ _ _ Hinv).
Qed.

(** A written decision and the commits of its accepted requests one after the other. *)
Lemma decided_serial cf_id outcomes ledger events requests results cs c gops ops w :
  commit_inv ledger events cs -> store_ok events (with_cache c (cs_impl cs)) ->
  let acc := accepted requests results in
  let s := visible_seq (cs_impl cs) + 1 in
  let last_seq := visible_seq (cs_impl cs) + Z.of_nat (length acc) in
  let csd := with_impl (with_cache c (cs_impl cs)) cs in
  let ops' := ops ++ [Put kMetaCf EncodeVisibleWatermarkKey w] in
  let written := with_db (db_write (cs_db csd) ops') csd in
  let cs1 := with_impl (PublishVisible last_seq
               (publish_decided requests results (cs_impl written))) written in
  length requests = length results -> acc <> [] -> last_seq <= U64_MAX ->
  Forall (request_ok cs) acc -> Forall (request_ready events cs) acc ->
  ForallOrdPairs independent (request_batch <$> acc) ->
  group_ops s acc = Ok (gops, successes results) -> with_terminals gops ops ->
  EncodeWatermark last_seq = Ok w ->
  GetDataSize cf_id ops' <= group_commit_max_batch_bytes cs ->
  length outcomes = length acc -> Forall (fun o => write_status o = rocks_ok) outcomes ->
  exists cs2, commit_each cf_id outcomes acc cs = (Ok <$> successes results, cs2) /\
    facts_cf (cs_impl cs1) = facts_cf (cs_impl cs2) /\
    (forall k, ~ terminal_key k -> cf_get k (meta_cf cs1) = cf_get k (meta_cf cs2)) /\
    visible_seq (cs_impl cs1) = visible_seq (cs_impl cs2) /\
    commit_inv (group_ledger s acc ledger) (group_events s acc events) cs1.
Proof.
  intros Hinv Hst acc s last_seq csd ops' written cs1 Hlen Hne Hmax Hok Hready Hind Hg Ht Hw
    Hsize Hout Hall.
  pose proof (with_terminals_app _ _ [Put kMetaCf EncodeVisibleWatermarkKey w] Ht) as Ht'.
  pose proof (proj2 Ht' cf_id) as Hle.
  destruct (commit_each_serial cf_id acc outcomes ledger events cs gops (successes results) w)
    as (sops & cs2 & Heach & Hinv2 & Hdb2 & Hvis2 & _ & HA & HB); try done.
  { by eapply length_EncodeWatermark. }
  { fold ops' in Hle. lia. }
  pose proof (step_sorted _ _ _ Hinv) as Hs.
  pose proof (serial_db (cs_db cs) _ w gops sops Hs Hw (conj HA (fun _ => HB Hne))) as Hsame.
  destruct (with_terminals_db (cs_db cs) _ _ Hs Ht') as [Ef Em].
  rewrite Hsame, <- Hdb2 in Ef, Em.
  assert (facts_cf (cs_impl cs1) = facts_cf (cs_impl cs2)) as Ef1.
  { unfold cs1. rewrite (publish_decided_group s requests results gops) by done.
    cbn. rewrite publish_group_facts. exact Ef. }
  destruct Hst as (_ & _ & H1 & H2 & H3).
  destruct (publish_group_reflects s acc events (cs_impl written)) as (R1 & R2 & R3); try done.
  { pose proof (inv_visible _ _ _ Hinv) as [? _]. unfold s. lia. }
  { eapply Forall_impl; [exact Hok|]. intros r (? & ? & _).
    by apply StoreCommitBatch_Validate_OK; [apply prepared_batch_typed|]. }
  exists cs2. split_and!; [done|done|exact Em|by rewrite Hvis2|].
  apply (commit_inv_agree _ _ cs2); try done.
  - exact (proj2 (db_write_sorted (cs_db cs) ops' Hs)).
  - apply (inv_running _ _ _ Hinv).
  - unfold cs1. by rewrite (publish_decided_group s requests results gops).
  - unfold cs1. by rewrite (publish_decided_group s requests results gops).
  - unfold cs1. by rewrite (publish_decided_group s requests results gops).
Qed.

(** ** Writing an epoch *)

Lemma publish_decided_facts requests results st :
  facts_cf (publish_decided requests results st) = facts_cf st /\
  visible_seq (publish_decided requests results st) = visible_seq st.
Proof.
  revert results st. induction requests as [|r requests IH]; intros [|[res|] results] st;
    try done; cbn [publish_decided]; [|apply IH].
  destruct (IH results (publish_commit (group_batch r) (result_commit_seq res) st))
    as [-> ->]. done.
Qed.

Lemma cs_db_with db cs : cs_db (with_db db cs) = db.
Proof. by destruct db. Qed.

Lemma cs_db_publish target requests results db cs :
  let written := with_db db cs in
  cs_db (with_impl (PublishVisible target
           (publish_decided requests results (cs_impl written))) written) = db.
Proof.
  unfold cs_db. cbn. rewrite (proj1 (publish_decided_facts _ _ _)). by destruct db.
Qed.

(** A claimed epoch is never written again. *)
Lemma claimed_refused outcome requests e cs :
  has_durable_terminal e = true -> epoch_batch e = None ->
  exists s, WriteDecidedGroup outcome requests e cs = (Fail s, e, cs).
Proof.
  intros Hd Hb. unfold WriteDecidedGroup, WriteDecidedGroupLocked. rewrite Hd. cbn [negb].
  destruct (recovery_required cs); [by eexists|].
  destruct (negb (visible_seq _ =? _)); [by eexists|]. destruct (_ || _); [by eexists|].
  destruct e as [? ? ? ? ? b ?]. cbn in Hb. subst b. cbn. by eexists.
Qed.

(** ** Predicted decisions *)

Lemma fact_intervals_visible st ref observed :
  visible_seq (fact_intervals st ref observed).2 = visible_seq st.
Proof.
  unfold fact_intervals, CachedFactIntervals.
  assert (forall st', visible_seq (scan_and_prime st' ref observed).2 = visible_seq st')
    as Hscan.
  { intros st'. unfold scan_and_prime. destruct (ScanCurrentFactIntervals _ _); [|done].
    by destruct (version_validation_cache st'). }
  destruct (version_validation_cache st); [|by apply Hscan].
  destruct (Lookup _ _) as [[cached|] c']; [done|]. cbn [fmap option_fmap option_map].
  by rewrite Hscan.
Qed.

Lemma check_pending_visible observed group pending st :
  visible_seq (check_pending observed group pending st).2 = visible_seq st.
Proof.
  revert group st. induction pending as [|d pending IH]; intros group st; [done|].
  assert (forall intervals st', visible_seq
    (if existsb (interval_conflicts d) intervals then (write_conflict, st')
     else check_pending observed (Some (swd_ref d, intervals)) pending st').2
    = visible_seq st') as Hcheck by (intros intervals st'; by destruct (existsb _ _)).
  pose proof (fact_intervals_visible st (swd_ref d) observed) as Hf. cbn [check_pending].
  destruct (fact_intervals st (swd_ref d) observed) as [[intervals|s] st']; cbn [snd] in Hf;
    destruct group as [[ref is_]|]; try destruct (bool_decide _); rewrite ?Hcheck; done.
Qed.

Lemma snapshot_validation_visible st deps :
  visible_seq (ValidateSnapshotWriteDependencies st deps).2 = visible_seq st.
Proof.
  unfold ValidateSnapshotWriteDependencies. destruct (select_pending st deps); [|done].
  apply check_pending_visible.
Qed.

(** Blind puts have nothing but snapshot dependencies to validate. *)
Lemma blind_put_validation st b :
  CanUseAppendFastPath b = true ->
  validate_dependencies st b
  = let '(s, st) := ValidateSnapshotWriteDependencies st (snapshot_write_dependencies b) in
    (check s, st).
Proof.
  unfold CanUseAppendFastPath. destruct (_ || _) eqn:E1; [done|]. bool_to_prop.
  intros [Hm _]%andb_true_iff. unfold validate_dependencies.
  destruct (ValidateSnapshotWriteDependencies _ _) as [s st']. f_equal.
  destruct s; [|done]. cbn [check mbind StatusOr_bind].
  match goal with H : strict_read_dependencies b = [] |- _ => rewrite H end.
  unfold ValidateEdgeIdentitiesForCommit.
  match goal with H : edge_identities b = [] |- _ => rewrite H end.
  assert (loop (fun _ m => validate_assertion st' b m) tt (mutations b) = Ok tt) as ->; [|done].
  apply loop_unit_Ok. rewrite forallb_forall in Hm. intros m Hin.
  apply list_elem_of_In, Hm in Hin. unfold validate_assertion.
  destruct (bool_decide (mutation_operation m = kPut)), (bool_decide (_ = kEdgeState));
    done.
Qed.

(** One predicted request is decided the same way once its dependencies hold. *)
Lemma predict_request_decides max_bytes meta base index d r index' d' st st1 :
  predict_request max_bytes base (index, d) r = Ok (index', d') ->
  ValidateSnapshotWriteDependencies st (snapshot_write_dependencies (group_batch r))
  = (StatusOK, st1) ->
  base <> U64_MAX ->
  exists ids',
    validate_request max_bytes meta (index_txn_ids index) r st
    = (StatusOK, persist_async_abort r, ids', st1) /\ ids' = index_txn_ids index' /\
    append_request base r StatusOK (persist_async_abort r) ids'
      (with_ids (index_txn_ids index) d) = Ok (with_ids ids' d') /\
    decision_count d' = decision_count d + 1 /\ decision_durable d' = decision_durable d.
Proof.
  intros H Hv Hbase. unfold predict_request in H.
  apply bind_Ok in H as ([] & Hp & H). apply require_Ok, andb_true_iff in Hp as [Hf Hp].
  apply bind_Ok in H as ([] & Hval & H). apply check_Ok in Hval.
  apply bind_Ok in H as ([] & Hest & H). apply require_Ok, Z.leb_le in Hest.
  unfold Insert in H. destruct (CanInsert _ _) eqn:Hins; [|done].
  apply bind_Ok in H as ([] & _ & H).
  apply bind_Ok in H as ([] & Hcount & H). apply require_Ok in Hcount.
  apply bind_Ok in H as (keys & Hk & H). apply bind_Ok in H as (ops & Ho & H).
  injection H as <- <-. cbn [decision_count decision_durable index_txn_ids].
  assert (txn_id (group_batch r) ∉ index_txn_ids index) as Hnew.
  { unfold CanInsert in Hins. apply andb_true_iff in Hins as [Hins _].
    do 3 apply andb_true_iff in Hins as [Hins _]. cbn in Hins.
    rewrite orb_false_r in Hins. by apply negb_true_iff, bool_decide_eq_false in Hins. }
  assert (exists k, EncodeTransactionMetaKey (txn_id (group_batch r)) = Ok k) as [k Ek].
  { clear -Ho. unfold AppendCandidateToWriteBatch in Ho. inv_ok. by eexists. }
  eexists. split_and!; [|reflexivity| |done|done].
  - unfold validate_request. rewrite Hval, (proj2 (Z.ltb_ge _ _)) by done.
    unfold emplace. rewrite bool_decide_true by done. rewrite Ek, Hf. cbn [negb andb].
    rewrite blind_put_validation, Hv by done. cbn [check to_status].
    f_equal. f_equal. cbn. set_solver.
  - unfold append_request. cbn [decision_count with_ids decision_ops decision_results].
    rewrite (proj2 (Z.eqb_neq _ _)) by done. cbn [orb]. rewrite Hcount.
    cbn [require mbind StatusOr_bind]. rewrite Hk. cbn [mbind StatusOr_bind]. by rewrite Ho.
Qed.

Lemma predict_loop_decides max_bytes meta todo index d index' d' st st1 :
  loop (predict_request max_bytes (visible_seq st)) (index, d) todo = Ok (index', d') ->
  validate_predicted todo st = (StatusOK, st1) -> visible_seq st <> U64_MAX ->
  decide_loop max_bytes meta (with_ids (index_txn_ids index) d) todo st
  = (Ok (with_ids (index_txn_ids index') d'), st1) /\
  decision_count d' = decision_count d + Z.of_nat (length todo) /\
  decision_durable d' = decision_durable d.
Proof.
  revert index d st. induction todo as [|r todo IH]; intros index d st H Hv Hbase.
  { injection H as <- <-. injection Hv as <-. cbn. split_and!; [done|lia|done]. }
  cbn [loop] in H. apply bind_Ok in H as ([index1 d1] & Hr & H). cbn [validate_predicted] in Hv.
  pose proof (snapshot_validation_visible st (snapshot_write_dependencies (group_batch r)))
    as Hvis.
  destruct (ValidateSnapshotWriteDependencies _ _) as [[|] st2] eqn:Ev; [|done].
  cbn [snd] in Hvis.
  destruct (predict_request_decides max_bytes meta (visible_seq st) index d r index1 d1 st st2
              Hr Ev Hbase) as (ids & E & -> & Ea & Ec & Ed).
  rewrite <- Hvis in H, Hbase. destruct (IH index1 d1 st2 H Hv Hbase) as (El & Ec' & Ed').
  cbn [decide_loop length]. cbn [decision_ids with_ids]. rewrite E, Hvis, Ea.
  split_and!; [exact El|lia|congruence].
Qed.

(** ** Properties *)

(** C2: a decided epoch is serial.  When the group commit of independent requests
    succeeds, the requests with a sequence are exactly the ones that validate, and the
    facts, the watermark and every metadata record but the abort terminals are those of
    committing these requests one after the other with [CommitDirect], with the same
    results; the store satisfies the invariant with exactly them in the ledger. *)
Theorem CommitGroupWithWalCallbackDirect_serial cf_id outcome outcomes ledger events
    requests cs results cs1 :
  commit_inv ledger events cs ->
  Forall (fun r => prepared_typed (group_batch r)) requests ->
  ForallOrdPairs independent (group_batch <$> requests) ->
  (forall r s b, r ∈ requests -> fresh_transaction_id (group_batch r) = true ->
     (s, b) ∈ ledger -> txn_id b <> txn_id (group_batch r)) ->
  visible_seq (cs_impl cs) < U64_MAX -> write_status outcome = rocks_ok ->
  CommitGroupWithWalCallbackDirect cf_id outcome requests cs = (Ok results, cs1) ->
  let acc := accepted requests results in
  let s := visible_seq (cs_impl cs) + 1 in
  length outcomes = length acc -> Forall (fun o => write_status o = rocks_ok) outcomes ->
  Forall2 (fun r res => is_ok res = true <-> acceptable events cs r) requests results /\
  exists cs2, commit_each cf_id outcomes acc cs = (Ok <$> successes results, cs2) /\
    facts_cf (cs_impl cs1) = facts_cf (cs_impl cs2) /\
    (forall k, ~ terminal_key k -> cf_get k (meta_cf cs1) = cf_get k (meta_cf cs2)) /\
    visible_seq (cs_impl cs1) = visible_seq (cs_impl cs2) /\
    commit_inv (group_ledger s acc ledger) (group_events s acc events) cs1.
Proof.
  intros Hinv Ht Hind Hfresh Hmax Ho H acc s Hout Hall.
  apply CommitGroup_Ok in H as (d & st & Hd & -> & Hcases); [|apply (inv_running _ _ _ Hinv)|done].
  pose proof (inv_store _ _ _ Hinv) as Hst.
  rewrite <- (with_cache_id (cs_impl cs)) in Hd, Hst.
  apply (decide_loop_spec ledger events cs Hinv Hmax requests [])
    in Hd as ((Hlen & Hcount & gops & Hg & Hw) & Hle & (c & ->) & Hst' & Hres); try done.
  2: { split_and!; try done. exists []. split; [done|apply with_terminals_nil]. }
  2: { cbn. lia. }
  2: { by apply shareable_NoDup. }
  cbn [app] in *. split; [done|].
  destruct (accepted_ready ledger events cs requests (decision_results d)) as [Hok Hready];
    try done.
  assert (length acc = length (successes (decision_results d))) as Hacc
    by by apply accepted_length.
  assert (decision_count d = 0 -> acc = [] /\ successes (decision_results d) = [] /\
            outcomes = [] /\ gops = []) as Hzero.
  { intros E0. assert (acc = []) as Ea by (apply nil_length_inv; lia).
    unfold acc in *. rewrite Ea in *. cbn in Hg. injection Hg as <- <-.
    by rewrite (nil_length_inv _ Hout). }
  destruct Hcases as [(E0 & _ & ->)|[(E0 & ->)|(Hne & w & Ew & Hsize & ->)]].
  - destruct (Hzero E0) as (-> & -> & -> & ->). exists cs.
    destruct (terminals_only_inv ledger events cs c [] Hinv Hst' with_terminals_nil)
      as (? & ? & ? & Hi). split; [done|]. by destruct cs as [[] ? ? ? ?].
  - destruct (Hzero E0) as (-> & -> & -> & ->). exists cs. split; [done|].
    by apply (terminals_only_inv ledger events cs c).
  - rewrite Hcount, <- Hacc in *.
    apply (decided_serial cf_id outcomes ledger events requests _ cs c gops _ w); try done.
    + intros E. fold acc in E. by rewrite E in Hne.
    + by apply accepted_pairs.
Qed.

Lemma CommitGroupWithWalCallbackDirect_serial_witness :
  let requests := [mkStoreCommitGroupRequest sample_write true;
                   mkStoreCommitGroupRequest sample_empty true;
                   mkStoreCommitGroupRequest sample_other false] in
  let acc := [sample_request sample_write; sample_request sample_other] in
  let cs1 := (CommitGroupWithWalCallbackDirect sample_cf_id sample_written requests
                sample_commit_store).2 in
  exists results : list (StatusOr StoreCommitResult),
    Forall2 (fun r res => is_ok res = true <->
               acceptable sample_events sample_commit_store r) requests results /\
    exists cs2,
      commit_each sample_cf_id [sample_written; sample_written] acc sample_commit_store
      = ([Ok (mkStoreCommitResult 7 1000); Ok (mkStoreCommitResult 8 1002)], cs2) /\
      facts_cf (cs_impl cs1) = facts_cf (cs_impl cs2) /\
      (forall k, ~ terminal_key k -> cf_get k (meta_cf cs1) = cf_get k (meta_cf cs2)) /\
      visible_seq (cs_impl cs1) = visible_seq (cs_impl cs2) /\
      commit_inv (group_ledger 7 acc []) (group_events 7 acc sample_events) cs1.
Proof.
  intros requests acc cs1.
  exists [Ok (mkStoreCommitResult 7 1000); Fail (StoreCommitBatch_Validate sample_empty);
          Ok (mkStoreCommitResult 8 1002)].
  apply (CommitGroupWithWalCallbackDirect_serial sample_cf_id sample_written
           [sample_written; sample_written] [] sample_events requests sample_commit_store
           [Ok (mkStoreCommitResult 7 1000); Fail (StoreCommitBatch_Validate sample_empty);
            Ok (mkStoreCommitResult 8 1002)]).
  - exact sample_commit_inv.
  - repeat constructor; unfold uint, sint; cbn; lia.
  - repeat constructor; try (cbn; congruence); unfold apart; set_solver.
  - intros r s b _ _ Hin. by apply not_elem_of_nil in Hin.
  - cbn. unfold U64_MAX. lia.
  - reflexivity.
  - vm_compute. reflexivity.
  - reflexivity.
  - repeat constructor.
Defined.

(** An epoch is written at most once and only at its base.  [WriteDecidedGroup]
    either refuses the epoch, which stays as it is and so does the store, or it runs on
    a store without a pending recovery, at the sequence the epoch was decided on, with
    requests of the decision's alignment: then it writes exactly the epoch's batch and
    moves the watermark to the target, or it fails and the store requires recovery, and
    in both cases the epoch is spent and every later write of it is refused on any
    store. *)
Theorem WriteDecidedGroup_once outcome requests e cs r e1 cs1 :
  has_durable_terminal e = true ->
  WriteDecidedGroup outcome requests e cs = (r, e1, cs1) ->
  (is_ok r = false /\ e1 = e /\ cs1 = cs) \/
  exists ops, epoch_batch e = Some ops /\ recovery_required cs = false /\
    visible_seq (cs_impl cs) = base_visible_seq e /\
    length (group_results e) = length requests /\
    request_alignment e = RequestAlignmentDigest requests /\
    match write_status outcome with
    | rocks_ok =>
       r = Ok (group_results e) /\ cs_db cs1 = db_write (cs_db cs) ops /\
       recovery_required cs1 = false /\
       visible_seq (cs_impl cs1)
       = (if committed_count e =? 0 then visible_seq (cs_impl cs) else visible_seq_target e)
    | _ =>
       is_ok r = false /\ recovery_required cs1 = true /\
       cs_db cs1 = (if write_applied outcome then db_write (cs_db cs) ops else cs_db cs) /\
       visible_seq (cs_impl cs1) = visible_seq (cs_impl cs)
    end /\
    forall outcome' requests' cs', exists s,
      WriteDecidedGroup outcome' requests' e1 cs' = (Fail s, e1, cs').
Proof.
  intros Hd H. unfold WriteDecidedGroup, WriteDecidedGroupLocked in H. rewrite Hd in H.
  cbn [negb] in H.
  destruct (recovery_required cs) eqn:Hrun; [injection H as <- <- <-; by left|].
  destruct (Z.eqb_spec (visible_seq (cs_impl cs)) (base_visible_seq e)) as [Hb|];
    [|injection H as <- <- <-; by left].
  destruct (_ || _) eqn:Hal; [injection H as <- <- <-; by left|]. cbn [negb] in H.
  apply orb_false_iff in Hal as [Hl Ha]. apply negb_false_iff, Nat.eqb_eq in Hl.
  apply negb_false_iff, Z.eqb_eq in Ha. cbn [ClaimBatchForWrite] in H.
  destruct (epoch_batch e) as [ops|] eqn:Ee.
  2: { injection H as <- <- <-. left. split_and!; try done. destruct e. cbn in *. by subst. }
  right. exists ops. do 5 (split; [done|]).
  destruct (write_status outcome) eqn:Ho.
  1: { cbn [committed_count visible_seq_target group_results] in H.
    destruct (committed_count e =? 0); cbn [negb TakeGroupResult] in H;
      injection H as <- <- <-; (split; [|intros; by apply claimed_refused]);
      split_and!; try done; apply cs_db_with || apply cs_db_publish. }
  all: injection H as <- <- <-; (split; [|intros; by apply claimed_refused]);
    destruct (write_applied outcome); split_and!; try done; apply cs_db_with.
Qed.

Lemma WriteDecidedGroup_once_witness :
  exists e e1 cs1 ops, sample_epoch = Ok e /\
    WriteDecidedGroup sample_written blind_puts e sample_commit_store
    = (Ok (group_results e), e1, cs1) /\
    cs_db cs1 = db_write (cs_db sample_commit_store) ops /\ epoch_batch e = Some ops /\
    visible_seq (cs_impl cs1) = 8 /\
    exists s, WriteDecidedGroup sample_written blind_puts e1 sample_commit_store
              = (Fail s, e1, sample_commit_store).
Proof.
  destruct sample_epoch as [e|] eqn:Ee; [|vm_compute in Ee; discriminate].
  assert (has_durable_terminal e = true /\ visible_seq_target e = 8 /\
          committed_count e = 2) as (Hd & Ht & Hc).
  { vm_compute in Ee. injection Ee as <-. done. }
  destruct (WriteDecidedGroup sample_written blind_puts e sample_commit_store)
    as [[r e1] cs1] eqn:Ew.
  assert (is_ok r = true) as Hr.
  { change r with ((r, e1, cs1).1.1). rewrite <- Ew. clear -Ee. vm_compute in Ee.
    injection Ee as <-. vm_compute. reflexivity. }
  destruct (WriteDecidedGroup_once sample_written blind_puts e sample_commit_store r e1 cs1
              Hd Ew) as [(Hf & _)|(ops & Hb & _ & _ & _ & _ & (-> & Hdb & _ & Hv) & Hl)];
    [congruence|].
  exists e, e1, cs1, ops. rewrite Hc, Ht in Hv. split_and!; try done.
Defined.

(** The predicted epoch is the decided one.  When a group of blind puts was
    predicted on the store's current sequence and its snapshot dependencies validate,
    the full decision on the store returns the same epoch, with the same operations,
    sequences and alignment. *)
Theorem DecideIndependentAppendGroup_predicts cf_id requests cs e cs1 :
  DecideIndependentAppendGroup cf_id (visible_seq (cs_impl cs)) requests cs = Ok e ->
  ValidatePredictedGroup requests cs = (StatusOK, cs1) ->
  DecideAndEncodeGroup cf_id requests cs = (Ok e, cs1).
Proof.
  intros H Hv. unfold DecideIndependentAppendGroup in H.
  apply bind_Ok in H as ([] & Hrun & H). apply require_Ok, negb_true_iff in Hrun.
  apply bind_Ok in H as ([] & Hne & H).
  apply require_Ok, negb_true_iff, bool_decide_eq_false in Hne.
  apply bind_Ok in H as ([] & Hmax & H). apply require_Ok, negb_true_iff, Z.eqb_neq in Hmax.
  apply bind_Ok in H as ([index d] & Hloop & H). unfold ValidatePredictedGroup in Hv.
  rewrite Hrun in Hv. destruct (validate_predicted _ _) as [s st] eqn:Ep.
  injection Hv as -> <-.
  destruct (predict_loop_decides _ (meta_cf cs) _ _ _ _ _ _ _ Hloop Ep Hmax) as (Ed & Ec & Edu).
  unfold DecideAndEncodeGroup, DecideAndEncodeGroupLocked. rewrite Hrun.
  change empty_decision with (with_ids (index_txn_ids empty_index) empty_decision).
  rewrite Ed. cbn [mbind StatusOr_bind]. f_equal. unfold seal_decision.
  cbn [decision_count decision_durable decision_ops decision_results with_ids].
  rewrite (proj2 (Z.eqb_neq (decision_count d) 0)).
  2: { rewrite Ec. destruct requests; [done|]. cbn. lia. }
  cbn [negb andb orb]. apply bind_Ok in H as (w & -> & H). exact H.
Qed.

Lemma DecideIndependentAppendGroup_predicts_witness :
  exists e, sample_epoch = Ok e /\
    DecideAndEncodeGroup sample_cf_id blind_puts sample_commit_store
    = (Ok e, (ValidatePredictedGroup blind_puts sample_commit_store).2).
Proof.
  destruct sample_epoch as [e|] eqn:Ee; [|vm_compute in Ee; discriminate].
  exists e. split; [done|].
  apply (DecideIndependentAppendGroup_predicts sample_cf_id blind_puts sample_commit_store e).
  - exact Ee.
  - vm_compute. reflexivity.
Defined.

(** The alignment does not see what a batch writes: a decided epoch of one batch is
    written, and published, with another one of the same descriptor. *)
Lemma alignment_ignores_payload :
  let replaced := [mkStoreCommitGroupRequest (blind_put 51 700) false;
                   mkStoreCommitGroupRequest (blind_put 52 900) false] in
  exists e, sample_epoch = Ok e /\
    RequestAlignmentDigest replaced = RequestAlignmentDigest blind_puts /\
    is_ok (WriteDecidedGroup sample_written replaced e sample_commit_store).1.1 = true.
Proof.
  intros replaced. destruct sample_epoch as [e|] eqn:Ee; [|vm_compute in Ee; discriminate].
  exists e. split; [done|]. split; [reflexivity|].
  vm_compute in Ee. injection Ee as <-. vm_compute. reflexivity.
Qed.
