(* ===== verification/Vacuum.v ===== *)
(** * Vacuum: removal of fact versions no snapshot can read

    Models [src/storage/facts/vacuum.{h,cc}] and, of
    [src/storage/rocks/rocks_adapter.cc], [DeleteObsoleteFactVersions], which
    cleans one bounded batch and moves the durable cursor in the same atomic write,
    and [ResumeVacuum], which repeats it until the facts are exhausted.

    The outcome of the n-th write is an argument; fault injectors, which exist for
    tests, are left out.  The loop of [ResumeVacuum] has fuel: one round per stored
    pair and one more is enough, because every round but the last one moves the
    cursor over at least one pair. *)

From S2P Require Import Prelude Status Crc32c Wire Value Fact FactCodec CommitBatch.
From S2P Require Import Frame MetaCodec PreparedCodec GroupCommit Bloom RecentWrites.
From S2P Require Import ValidationCache Accelerators Temporal FactStore Conflict.
From S2P Require Import WriteBatch Commit.

(** ** The planner *)

Record VacuumKeyDecision := mkVacuumKeyDecision {
  stop_before_key : bool;
  delete_key : bool
}.

Definition kDefaultKeysPerBatch : nat := 1024.
Definition kFactValidTimePrefixBytes : nat := 24.

Record VacuumCleanupPlanner := mkVacuumCleanupPlanner {
  target_ : Z;
  max_keys_ : nat;
  processed_ : nat;
  active_boundary_ : list byte;
  last_key_ : list byte;
  retained_baseline_ : bool
}.

Definition new_planner (target : Z) (max_keys : nat) : VacuumCleanupPlanner :=
  mkVacuumCleanupPlanner target max_keys 0 [] [] false.

Definition Consider (p : VacuumCleanupPlanner) (encoded_fact_key : list byte)
  : StatusOr (VacuumKeyDecision * VacuumCleanupPlanner) :=
  decoded ← DecodeFactKey encoded_fact_key;
  let boundary := take kFactValidTimePrefixBytes encoded_fact_key in
  if (max_keys_ p <=? processed_ p)%nat && negb (bool_decide (boundary = active_boundary_ p))
  then Ok (mkVacuumKeyDecision true false, p)
  else
    let '(active, retained) :=
      if bool_decide (boundary = active_boundary_ p)
      then (active_boundary_ p, retained_baseline_ p) else (boundary, false) in
    let '(delete, retained) :=
      if key_commit_seq decoded <=? target_ p then (retained, true)
      else (false, retained) in
    Ok (mkVacuumKeyDecision false delete,
        mkVacuumCleanupPlanner (target_ p) (max_keys_ p) (S (processed_ p)) active
          encoded_fact_key retained).

(** ** One cleanup batch *)

Definition FromMetadataWriteFailure (s : RocksStatus) : Status :=
  match s with
  | rocks_invalid_argument _ | rocks_not_supported _ =>
      FromRocksDb s "persist fact store metadata"
  | _ => Indeterminate "persist fact store metadata" (rocks_message s)
  end.

(** The iterator behind the cursor. *)
Definition seek_cursor (cursor : list byte) (cf : column_family) : column_family :=
  if bool_decide (cursor = []) then cf
  else
    match Seek cursor cf with
    | (k, v) :: rest => if bool_decide (k = cursor) then rest else (k, v) :: rest
    | [] => []
    end.

(** The loop over the facts: the deletions, the planner afterwards, and whether the
    iterator ran out. *)
Fixpoint vacuum_loop (p : VacuumCleanupPlanner) (entries : column_family)
  : StatusOr (list WriteOp * VacuumCleanupPlanner * bool) :=
  match entries with
  | [] => Ok ([], p, true)
  | (key, _) :: entries' =>
      '(decision, p') ← Consider p key;
      if stop_before_key decision then Ok ([], p', false)
      else
        '(deletes, p'', completed) ← vacuum_loop p' entries';
        Ok (if delete_key decision then Delete kFactsCf key :: deletes else deletes,
            p'', completed)
  end.

(** The write batch of one round. *)
Definition cleanup_ops (max_keys : nat) (state : VacuumState) (cf : column_family)
  : StatusOr (list WriteOp * bool) :=
  scanned ← vacuum_loop (new_planner (vacuum_target state) max_keys)
              (seek_cursor (vacuum_cursor state) cf);
  let '(deletes, p, completed) :=
    (scanned : list WriteOp * VacuumCleanupPlanner * bool) in
  if completed then Ok (deletes ++ [Delete kMetaCf EncodeVacuumStateKey], true)
  else
    next ← EncodeVacuumState (mkVacuumState (vacuum_target state) kRunning (last_key_ p));
    Ok (deletes ++ [Put kMetaCf EncodeVacuumStateKey next], false).

Definition DeleteObsoleteFactVersions (outcome : WriteOutcome) (state : VacuumState)
    (cs : CommitStore) : StatusOr bool * CommitStore :=
  match cleanup_ops kDefaultKeysPerBatch state (facts_cf (cs_impl cs)) with
  | Fail s => (Fail s, cs)
  | Ok (ops, completed) =>
      let written := with_db (db_write (cs_db cs) ops) cs in
      match write_status outcome with
      | rocks_ok => (Ok completed, written)
      | failure =>
          (Fail (FromMetadataWriteFailure failure),
           if write_applied outcome then written else cs)
      end
  end.

(** ** The whole cleanup *)

(** [None] is out of fuel; the second component is the number of writes made. *)
Fixpoint resume_vacuum (fuel : nat) (outcomes : nat -> WriteOutcome) (n : nat)
    (state : VacuumState) (cs : CommitStore) : option (Status * nat * CommitStore) :=
  match fuel with
  | O => None
  | S fuel' =>
      match DeleteObsoleteFactVersions (outcomes n) state cs with
      | (Fail s, cs) => Some (s, S n, cs)
      | (Ok true, cs) => Some (StatusOK, S n, cs)
      | (Ok false, cs) =>
          match
            encoded ← from_option (cf_get EncodeVacuumStateKey (meta_cf cs))
                        (NotFound "read vacuum cursor" "NotFound: ");
            DecodeVacuumState encoded
          with
          | Fail s => Some (s, S n, cs)
          | Ok state => resume_vacuum fuel' outcomes (S n) state cs
          end
      end
  end.

Definition ResumeVacuum (outcomes : nat -> WriteOutcome) (n : nat) (state : VacuumState)
    (cs : CommitStore) : option (Status * nat * CommitStore) :=
  resume_vacuum (S (length (facts_cf (cs_impl cs)))) outcomes n state cs.

(** ** Specification *)

(** A stored version is superseded for snapshots at or above the target when a newer
    version of the same fact and valid time is at or below the target too. *)
Definition same_boundary (a b : FactEvent) : Prop :=
  event_ref a = event_ref b /\ event_valid_from a = event_valid_from b.

#[export] Instance same_boundary_dec : RelDecision same_boundary.
Proof. intros a b. unfold same_boundary. apply _. Defined.

Definition superseded (target : Z) (events : list FactEvent) (e : FactEvent) : Prop :=
  Exists (fun e' => same_boundary e e' /\ event_commit_seq e < event_commit_seq e' /\
                    event_commit_seq e' <= target) events.

#[export] Instance superseded_dec target events e : Decision (superseded target events e).
Proof. unfold superseded. apply _. Defined.

Definition retained (target : Z) (events : list FactEvent) : list FactEvent :=
  filter (fun e => ~ superseded target events e) events.

(** The same on stored pairs. *)
Definition pair_boundary (kv : list byte * list byte) : list byte :=
  take kFactValidTimePrefixBytes (fst kv).

Definition pair_seq (kv : list byte * list byte) : Z :=
  match DecodeFactKey (fst kv) with Ok key => key_commit_seq key | Fail _ => 0 end.

Definition outdated (target : Z) (cf : column_family) (kv : list byte * list byte)
  : Prop :=
  Exists (fun kv' => pair_boundary kv' = pair_boundary kv /\
                     pair_seq kv < pair_seq kv' /\ pair_seq kv' <= target) cf.

#[export] Instance outdated_dec target cf kv : Decision (outdated target cf kv).
Proof. unfold outdated. apply _. Defined.

Definition cleaned (target : Z) (cf : column_family) : column_family :=
  filter (fun kv => ~ outdated target cf kv) cf.

(** Sorted pairs with keys of facts. *)
Definition facts_ok (cf : column_family) : Prop :=
  cf_sorted cf /\ Forall (fun kv => is_ok (DecodeFactKey (fst kv)) = true) cf.

(** What the planner knows after some pairs. *)
Definition planner_ok (target : Z) (max_keys : nat) (past : column_family)
    (p : VacuumCleanupPlanner) : Prop :=
  target_ p = target /\ max_keys_ p = max_keys /\ processed_ p = length past /\
  match last past with
  | None => active_boundary_ p = [] /\ last_key_ p = [] /\ retained_baseline_ p = false
  | Some kv =>
      active_boundary_ p = pair_boundary kv /\ last_key_ p = fst kv /\
      (retained_baseline_ p = true <->
       Exists (fun kv' => pair_boundary kv' = pair_boundary kv /\
                          pair_seq kv' <= target) past)
  end.

Definition cursor_of (past : column_family) : list byte :=
  match last past with Some kv => fst kv | None => [] end.

(** The state of a cleanup of [cf] in between two rounds: [past] is clean and ends
    with a boundary, the cursor is its last key. *)
Definition progress (target : Z) (cf cf' : column_family) (cursor : list byte) : Prop :=
  exists past rest, cf = past ++ rest /\
    cf' = filter (fun kv => ~ outdated target cf kv) past ++ rest /\
    cursor = cursor_of past /\
    forall a b, a ∈ past -> b ∈ rest -> pair_boundary a <> pair_boundary b.

(** The database durably describes a cleanup of [cf] that is under way or done. *)
Definition vacuum_running (target : Z) (cf : column_family) (state : VacuumState)
    (cs : CommitStore) : Prop :=
  (exists encoded, cf_get EncodeVacuumStateKey (meta_cf cs) = Some encoded /\
     DecodeVacuumState encoded = Ok state) /\
  vacuum_target state = target /\
  progress target cf (facts_cf (cs_impl cs)) (vacuum_cursor state).

Definition vacuum_finished (target : Z) (cf : column_family) (cs : CommitStore) : Prop :=
  cf_get EncodeVacuumStateKey (meta_cf cs) = None /\
  facts_cf (cs_impl cs) = cleaned target cf.

(** A cleanup changes the facts and its own record only. *)
Definition vacuum_frame (cs cs' : CommitStore) : Prop :=
  cs' = with_db (cs_db cs') cs /\ db_sorted (cs_db cs') /\
  forall k, k <> EncodeVacuumStateKey -> cf_get k (meta_cf cs') = cf_get k (meta_cf cs).

(** The deletions of the outdated pairs of a list. *)
Definition deletions (target : Z) (cf pairs : column_family) : list WriteOp :=
  Delete kFactsCf <$> (fst <$> filter (outdated target cf) pairs).

(** The events of a column family that was cleaned in part. *)
Definition partly_retained (target : Z) (events events' : list FactEvent) : Prop :=
  (forall e, e ∈ events' -> e ∈ events) /\
  forall e, e ∈ events -> ~ superseded target events e -> e ∈ events'.

(** A fact with three versions at one valid time and one at another. *)
Definition versioned_events : list FactEvent :=
  [sample_version 20 3 (Some (VInt32 5)); sample_version 10 6 (Some (VInt32 9));
   sample_version 10 4 (Some (VInt32 7)); sample_version 10 2 (Some (VInt32 1))].

Definition versioned_cf : column_family := encoded_cf versioned_events.

Definition sample_vacuum : VacuumState := mkVacuumState 5 kPrepared [].

(** A store with these facts and the durable record of a cleanup at sequence 5. *)
Definition versioned_store : CommitStore :=
  mkCommitStore (mkFactStoreImpl versioned_cf 6 None None None)
    match EncodeVacuumState sample_vacuum with
    | Ok encoded => [(EncodeVacuumStateKey, encoded)]
    | Fail _ => []
    end false 0 4096.

(** A batch that rewrites the property [sample_write] writes, at the same valid
    time. *)
Definition sample_rewrite : StoreCommitBatch :=
  mkStoreCommitBatch 45 1004
    [mkPendingFactMutation (mkFactRef 1 kVertexProperty 2 77) 30 kPut 1 (Some (VInt32 6))]
    [] [] [] false.

(** The sample store after both commits, and after a cleanup at the last sequence. *)
Definition rewritten_store : CommitStore :=
  (CommitDirect sample_cf_id sample_written sample_rewrite None
     (CommitDirect sample_cf_id sample_written sample_write None sample_commit_store).2).2.

Definition vacuumed_store : option (Status * nat * CommitStore) :=
  ResumeVacuum (fun _ => sample_written) 0 (mkVacuumState 8 kPrepared []) rewritten_store.

(** ** The order of the pairs *)

Lemma facts_ok_app cf cf' :
  facts_ok (cf ++ cf') ->
  facts_ok cf /\ facts_ok cf' /\
  forall a b, a ∈ cf -> b ∈ cf' -> bytes_lt (fst a) (fst b).
Proof.
  intros [Hs Hk]. apply Forall_app in Hk as [Hk Hk']. unfold facts_ok, cf_sorted in *.
  induction cf as [|kv cf IH]; cbn [app] in *.
  { split; [split; constructor|]. split; [done|]. by intros a b ?%not_elem_of_nil. }
  inversion_clear Hs as [|? ? Hs' Hall]. apply Forall_cons in Hk as [Hkv Hk].
  destruct (IH Hs' Hk) as ([Hc _] & ? & Hlt). apply Forall_app in Hall as [Hall Hall'].
  split; [split; by constructor|]. split; [done|].
  intros a b [->|Ha]%elem_of_cons Hb; [|by apply Hlt].
  rewrite Forall_forall in Hall'. by apply Hall'.
Qed.

Lemma key_decodes kv :
  is_ok (DecodeFactKey (fst kv)) = true ->
  exists d, DecodeFactKey (fst kv) = Ok d /\ pair_seq kv = key_commit_seq d /\
    key_ok (key_ref d) (key_valid_from d) (key_commit_seq d) /\
    fst kv = pair_boundary kv ++ be_bytes 8 (bnot64 (pair_seq kv)) /\
    length (pair_boundary kv) = 24%nat /\
    pair_boundary kv = ref_bytes (key_ref d) ++ be_bytes 8 (bnot64 (key_valid_from d)).
Proof.
  intros H. destruct (DecodeFactKey (fst kv)) as [d|] eqn:E; [|done]. exists d.
  pose proof (DecodeFactKey_Ok _ _ E) as [Hk Ek].
  assert (pair_seq kv = key_commit_seq d) as Es by (unfold pair_seq; by rewrite E).
  pose proof Hk as (_ & Hv & _ & _ & Hn). rewrite EncodeFactKey_eq in Ek by done.
  assert (length (ref_bytes (key_ref d) ++ be_bytes 8 (bnot64 (key_valid_from d))) = 24%nat)
    as Hl by by autorewrite with cedar_len.
  assert (pair_boundary kv = ref_bytes (key_ref d) ++ be_bytes 8 (bnot64 (key_valid_from d)))
    as Eb.
  { unfold pair_boundary. rewrite Ek, app_assoc. by rewrite take_app_length' by done. }
  rewrite Eb, Es. by split_and!; rewrite <- ?app_assoc.
Qed.

(** Within a boundary the newest version comes first. *)
Lemma boundary_order a b :
  is_ok (DecodeFactKey (fst a)) = true -> is_ok (DecodeFactKey (fst b)) = true ->
  bytes_lt (fst a) (fst b) -> pair_boundary a = pair_boundary b -> pair_seq b < pair_seq a.
Proof.
  intros (da & _ & Ea & Ka & Ha & _)%key_decodes (db & _ & Eb & Kb & Hb & _)%key_decodes Hlt E.
  rewrite Ha, Hb, E in Hlt. unfold bytes_lt in Hlt.
  rewrite bytes_compare_app, bytes_compare_refl in Hlt by done. cbn in Hlt.
  rewrite bytes_compare_be in Hlt by apply bnot64_uint.
  rewrite bnot64_compare in Hlt. 2,3: rewrite ?Ea, ?Eb; apply Ka || apply Kb.
  by apply Z.compare_lt_iff in Hlt.
Qed.

(** The pairs of a boundary are next to each other. *)
Lemma boundary_between a b c :
  is_ok (DecodeFactKey (fst a)) = true -> is_ok (DecodeFactKey (fst c)) = true ->
  bytes_lt (fst a) (fst b) -> bytes_lt (fst b) (fst c) ->
  pair_boundary a = pair_boundary c -> pair_boundary b = pair_boundary c.
Proof.
  intros (da & _ & _ & _ & Ha & Hl & _)%key_decodes (dc & _ & _ & _ & Hc & Hl' & _)%key_decodes
    H1 H2 E.
  rewrite Ha, E in H1. rewrite Hc in H2. unfold bytes_lt in *.
  assert (StartsWith (fst b) (pair_boundary c) = true) as (s & Eb)%StartsWith_true.
  { eapply StartsWith_between; [by rewrite H1|by rewrite H2]. }
  unfold pair_boundary at 1. rewrite Eb. by rewrite take_app_length' by done.
Qed.

(** ** One pass of the planner *)

Lemma last_app_elem {A} (l : list A) x : x ∈ l -> exists l' y, l = l' ++ [y].
Proof.
  intros Hx. destruct l as [|a l] using rev_ind; [by apply not_elem_of_nil in Hx|].
  by exists l, a.
Qed.

(** The pairs of the current boundary end with the last pair. *)
Lemma boundary_of_last past todo kv a :
  facts_ok (past ++ kv :: todo) -> a ∈ past -> pair_boundary a = pair_boundary kv ->
  exists b, last past = Some b /\ pair_boundary b = pair_boundary kv.
Proof.
  intros Hok Ha E. destruct (last_app_elem _ _ Ha) as (past' & b & ->).
  exists b. split; [by rewrite last_snoc|].
  destruct (facts_ok_app _ _ Hok) as (Hp & [_ Hk] & Hlt).
  apply Forall_cons in Hk as [Hkv _]. destruct (facts_ok_app _ _ Hp) as (_ & _ & Hlt').
  apply elem_of_app in Ha as [Ha|Ha%list_elem_of_singleton]; [|by subst].
  apply (boundary_between a b kv); try done.
  - destruct Hp as [_ Hp]. rewrite Forall_forall in Hp. apply Hp. set_solver.
  - apply Hlt'; [done|set_solver].
  - apply Hlt; set_solver.
Qed.

(** A pair is outdated when an older pair of its boundary was kept back before it. *)
Lemma outdated_past target past kv todo :
  facts_ok (past ++ kv :: todo) ->
  outdated target (past ++ kv :: todo) kv <->
  pair_seq kv <= target /\
  Exists (fun kv' => pair_boundary kv' = pair_boundary kv /\ pair_seq kv' <= target) past.
Proof.
  intros Hok. destruct (facts_ok_app _ _ Hok) as ([_ Hp] & [Hs Hk] & Hlt).
  inversion_clear Hs as [|? ? _ Hall]. apply Forall_cons in Hk as [Hkv Hk].
  rewrite Forall_forall in Hp. rewrite Forall_forall in Hk. rewrite Forall_forall in Hall.
  unfold outdated. rewrite !Exists_exists. split.
  - intros (x & Hx & Eb & H1 & H2). split; [lia|].
    apply elem_of_app in Hx as [Hx|[->|Hx]%elem_of_cons]; [by exists x|lia|].
    pose proof (boundary_order kv x Hkv (Hk x Hx) (Hall x Hx) (eq_sym Eb)). lia.
  - intros (_ & x & Hx & Eb & H2). exists x. split; [set_solver|].
    pose proof (boundary_order x kv (Hp x Hx) Hkv (Hlt x kv Hx ltac:(by left)) Eb). done.
Qed.

(** One step of the planner on a pair. *)
Lemma Consider_spec target max_keys past kv todo p :
  facts_ok (past ++ kv :: todo) -> planner_ok target max_keys past p ->
  (Consider p (fst kv) = Ok (mkVacuumKeyDecision true false, p) /\
   (max_keys <= length past)%nat /\
   forall a, a ∈ past -> pair_boundary a <> pair_boundary kv) \/
  exists p', planner_ok target max_keys (past ++ [kv]) p' /\
    Consider p (fst kv)
    = Ok (mkVacuumKeyDecision false (bool_decide (outdated target (past ++ kv :: todo) kv)),
          p').
Proof.
  intros Hok (Et & Em & Ep & Hlast).
  destruct (facts_ok_app _ _ Hok) as (_ & [_ Hk] & _). apply Forall_cons in Hk as [Hkv _].
  destruct (key_decodes kv Hkv) as (d & Ed & Es & _ & _ & Hl & _).
  assert (forall a, a ∈ past -> pair_boundary a = pair_boundary kv ->
            active_boundary_ p = pair_boundary kv) as Hactive.
  { intros a Ha E. destruct (boundary_of_last past todo kv a Hok Ha E) as (b & Eb & E').
    rewrite Eb in Hlast. by rewrite (proj1 Hlast). }
  set (retained0 := if bool_decide (pair_boundary kv = active_boundary_ p)
                    then retained_baseline_ p else false).
  assert (retained0 = true <-> Exists (fun kv' => pair_boundary kv' = pair_boundary kv /\
            pair_seq kv' <= target) past) as Hret.
  { unfold retained0. case_bool_decide as E.
    - destruct (last past) as [b|]; destruct Hlast as (Ea & _ & Hr).
      + rewrite Hr, <- Ea, <- E. done.
      + rewrite Ea in E. by rewrite E in Hl.
    - split; [done|]. rewrite Exists_exists. intros (a & Ha & Eb & _).
      destruct E. symmetry. by apply (Hactive a). }
  unfold Consider. rewrite Ed. cbn [mbind StatusOr_bind]. fold (pair_boundary kv).
  rewrite Em, Ep, Et, <- Es. destruct (_ && _) eqn:Estop.
  { left. apply andb_true_iff in Estop as [E1%Nat.leb_le E2%negb_true_iff].
    apply bool_decide_eq_false in E2. split_and!; try done.
    intros a Ha E. destruct E2. symmetry. by apply (Hactive a). }
  right.
  assert ((if bool_decide (pair_boundary kv = active_boundary_ p)
           then (active_boundary_ p, retained_baseline_ p) else (pair_boundary kv, false))
          = (pair_boundary kv, retained0)) as ->.
  { unfold retained0. case_bool_decide as E; by rewrite ?E. }
  pose proof (outdated_past target past kv todo Hok) as Hout. rewrite <- Hret in Hout.
  assert (forall r : bool, (r = true <-> Exists (fun kv' =>
            pair_boundary kv' = pair_boundary kv /\ pair_seq kv' <= target) (past ++ [kv])) ->
          planner_ok target max_keys (past ++ [kv])
            (mkVacuumCleanupPlanner target max_keys (S (length past)) (pair_boundary kv)
               (fst kv) r)) as Hplanner.
  { intros r Hr. split_and!; try done; [cbn; rewrite length_app; cbn; lia|].
    rewrite last_snoc. done. }
  destruct (Z.leb_spec (pair_seq kv) target) as [Hle|Hgt]; eexists.
  - split; [apply Hplanner|f_equal; f_equal; f_equal].
    + rewrite Exists_app, Exists_cons. naive_solver.
    + apply eq_true_iff_eq. rewrite bool_decide_eq_true, Hout. tauto.
  - split; [apply Hplanner|f_equal; f_equal; f_equal].
    + rewrite Hret, Exists_app, Exists_cons, Exists_nil. intuition lia.
    + symmetry. apply bool_decide_eq_false. rewrite Hout. lia.
Qed.

(** The loop deletes the outdated pairs up to where it stops, in front of a new
    boundary. *)
Lemma vacuum_loop_spec target max_keys todo past p :
  facts_ok (past ++ todo) -> planner_ok target max_keys past p ->
  exists now later p', todo = now ++ later /\
    vacuum_loop p todo
    = Ok (deletions target (past ++ todo) now, p', bool_decide (later = [])) /\
    planner_ok target max_keys (past ++ now) p' /\
    (later <> [] -> (max_keys <= length (past ++ now))%nat) /\
    forall a b, a ∈ past ++ now -> b ∈ later -> pair_boundary a <> pair_boundary b.
Proof.
  revert past p. induction todo as [|kv todo IH]; intros past p Hok Hp.
  { exists [], [], p. rewrite !app_nil_r. split_and!; try done.
    by intros a b _ ?%not_elem_of_nil. }
  destruct kv as [k v]. destruct (Consider_spec target max_keys past (k, v) todo p Hok Hp)
    as [(Ec & Hmax & Hnew)|(p1 & Hp1 & Ec)]; cbn [fst] in Ec.
  - exists [], ((k, v) :: todo), p. cbn [vacuum_loop]. rewrite Ec. rewrite app_nil_r.
    split_and!; try done. intros a b Ha [->|Hb]%elem_of_cons; [by apply Hnew|].
    intros E. apply (Hnew a Ha).
    destruct (facts_ok_app _ _ Hok) as ([_ Hk] & [Hs Hk'] & Hlt).
    rewrite Forall_forall in Hk. rewrite Forall_forall in Hk'.
    inversion_clear Hs as [|? ? _ Hall]. rewrite Forall_forall in Hall.
    rewrite E. symmetry. apply (boundary_between a (k, v) b); try done;
      [by apply Hk|by apply Hk'; right|apply Hlt; [done|by left]|by apply Hall].
  - replace (past ++ (k, v) :: todo) with ((past ++ [(k, v)]) ++ todo) in *
      by by rewrite <- app_assoc.
    destruct (IH _ _ Hok Hp1) as (now & later & p' & -> & El & Hp' & Hmax & Hsep).
    exists ((k, v) :: now), later, p'. rewrite <- !app_assoc in *. cbn [app] in *.
    split_and!; try done. cbn [vacuum_loop]. rewrite Ec. cbn [mbind StatusOr_bind].
    rewrite El. cbn [mbind StatusOr_bind stop_before_key delete_key]. unfold deletions.
    rewrite filter_cons. repeat case_decide; repeat case_bool_decide; done.
Qed.

(** ** Rounds *)

Lemma db_delete_facts keys db :
  db_sorted db ->
  db_write db (Delete kFactsCf <$> keys)
  = mkDatabase (filter (fun kv => fst kv ∉ keys) (db_facts db)) (db_meta db).
Proof.
  intros Hs. apply db_ext; [by apply db_write_sorted| |].
  { split; [by apply cf_sorted_filter, Hs|apply Hs]. }
  intros cf k. rewrite db_write_get by done.
  assert (forall old, ops_value cf k (Delete kFactsCf <$> keys) old
          = if decide (cf = kFactsCf /\ k ∈ keys) then None else old) as ->.
  { induction keys as [|key keys IH]; intros old; [cbn; case_decide; set_solver|].
    rewrite fmap_cons. cbn [ops_value op_value]. rewrite IH.
    repeat case_decide; repeat case_bool_decide; set_solver. }
  destruct cf; [|by rewrite decide_False by naive_solver]. cbn [db_cf db_facts].
  apply option_eq. intros v. rewrite <- elem_of_cf by apply cf_sorted_filter, Hs.
  rewrite list_elem_of_filter, elem_of_cf by apply Hs. cbn [fst].
  case_decide; naive_solver.
Qed.

Lemma key_nonempty (kv : list byte * list byte) :
  is_ok (DecodeFactKey (fst kv)) = true -> length (fst kv) = 32%nat.
Proof.
  intros (d & _ & _ & _ & -> & Hl & _)%key_decodes. rewrite length_app, Hl.
  by rewrite length_be_bytes.
Qed.

(** The cursor leads to what is left. *)
Lemma seek_cursor_rest (P : list byte * list byte -> Prop) `{!forall kv, Decision (P kv)}
    past rest :
  facts_ok (past ++ rest) -> seek_cursor (cursor_of past) (filter P past ++ rest) = rest.
Proof.
  intros Hok. destruct past as [|kv past _] using rev_ind; [done|].
  destruct (facts_ok_app _ _ Hok) as (Hp & [Hs _] & Hlt).
  destruct (facts_ok_app _ _ Hp) as ([Hs' _] & [_ Hkv] & Hlt').
  apply Forall_cons in Hkv as [Hkv _]. pose proof (key_nonempty kv Hkv) as Hl.
  unfold cursor_of. rewrite last_snoc. unfold seek_cursor.
  rewrite bool_decide_false by (intros E; by rewrite E in Hl).
  assert (forall l : column_family, (forall a, a ∈ l -> bytes_lt (fst kv) (fst a)) ->
            filter (fun a => bytes_compare (fst a) (fst kv) <> Lt) l = l) as Hge.
  { intros l Hl'. apply filter_all, Forall_forall. intros a Ha%Hl'. unfold bytes_lt in Ha.
    rewrite bytes_compare_antisym, Ha. done. }
  rewrite Seek_filter, filter_app, (filter_app P), filter_app, (Hge rest).
  2: { intros a Ha. apply Hlt; [set_solver|done]. }
  2: { destruct Hok as [Hsort _]. unfold cf_sorted in *. clear -Hsort.
       induction (past ++ [kv]) as [|x l IH]; [done|]. cbn [app] in Hsort.
       inversion_clear Hsort as [|? ? Hs Hall]. rewrite filter_cons.
       case_decide; [|by apply IH]. cbn [app]. constructor; [by apply IH|].
       apply Forall_app in Hall as [H1 H2]. apply Forall_app. split; [|done].
       rewrite Forall_forall in H1. apply Forall_forall.
       intros a [_ Ha]%list_elem_of_filter. by apply H1. }
  rewrite (filter_none _ (filter P past)).
  2: { apply Forall_forall. intros a [_ Ha]%list_elem_of_filter.
       specialize (Hlt' a kv Ha ltac:(by left)). intros Hge'. by apply Hge'. }
  cbn [app]. rewrite (filter_cons P), filter_nil. case_decide.
  - rewrite filter_cons, filter_nil, bytes_compare_refl, decide_True by done. cbn [app].
    destruct kv as [k v]. by rewrite bool_decide_true.
  - cbn [app filter list_filter]. destruct rest as [|[k v] rest]; [done|].
    rewrite bool_decide_false; [done|]. intros ->.
    specialize (Hlt kv (fst kv, v) ltac:(set_solver) ltac:(by left)).
    by apply bytes_lt_irrefl in Hlt.
Qed.

(** Pairs in front of a boundary do not outdate the ones behind it. *)
Lemma outdated_suffix target past rest kv :
  (forall a b, a ∈ past -> b ∈ rest -> pair_boundary a <> pair_boundary b) -> kv ∈ rest ->
  outdated target (past ++ rest) kv <-> outdated target rest kv.
Proof.
  intros Hsep Hkv. unfold outdated. rewrite Exists_app. split; [|by right].
  intros [(a & Ha & E & _)%Exists_exists|]; [|done]. by destruct (Hsep a kv).
Qed.

(** A round removes the outdated pairs of what it went over. *)
Lemma remove_outdated target past now later :
  let cf := past ++ now ++ later in
  facts_ok cf ->
  filter (fun kv => fst kv ∉ fst <$> filter (outdated target cf) now)
    (filter (fun kv => ~ outdated target cf kv) past ++ now ++ later)
  = filter (fun kv => ~ outdated target cf kv) (past ++ now) ++ later.
Proof.
  intros cf Hok.
  assert (forall kv a, kv ∈ cf -> a ∈ cf -> fst kv = fst a -> kv = a) as Hinj.
  { intros [k v] [k' v'] H1 H2 E. cbn in E. subst k'.
    apply elem_of_cf in H1; [|apply Hok]. apply elem_of_cf in H2; [|apply Hok]. congruence. }
  destruct (facts_ok_app _ _ Hok) as (_ & Hok' & H1).
  destruct (facts_ok_app _ _ Hok') as (_ & _ & H2).
  assert (forall l : column_family, (forall a b, a ∈ l -> b ∈ now -> fst a <> fst b) ->
            filter (fun kv => fst kv ∉ fst <$> filter (outdated target cf) now) l = l) as Hall.
  { intros l H. apply filter_all, Forall_forall. intros a Ha (b & E & Hb)%list_elem_of_fmap.
    apply list_elem_of_filter in Hb as [_ Hb]. by apply (H a b). }
  rewrite !filter_app, <- app_assoc. f_equal; [|f_equal].
  - apply Hall. intros a b [_ Ha]%list_elem_of_filter Hb E.
    apply (bytes_lt_irrefl (fst b)). rewrite <- E at 1. apply H1; set_solver.
  - apply filter_ext_on. intros kv Hkv. split.
    + intros H Ho. apply H. apply list_elem_of_fmap. exists kv.
      split; [done|]. by apply list_elem_of_filter.
    + intros H (a & E & [Ha Hin]%list_elem_of_filter)%list_elem_of_fmap. apply H.
      rewrite (Hinj kv a); try done; unfold cf; set_solver.
  - apply Hall. intros a b Ha Hb E. apply (bytes_lt_irrefl (fst b)).
    rewrite <- E at 2. by apply H2.
Qed.

Lemma EncodeVacuumState_total target phase cursor :
  target <> 0 -> (phase = kPrepared /\ cursor = []) \/
                 (phase = kRunning /\ length cursor = 32%nat) ->
  exists bytes, EncodeVacuumState (mkVacuumState target phase cursor) = Ok bytes.
Proof.
  intros Ht Hc. unfold EncodeVacuumState, VacuumState_Validate.
  cbn [vacuum_target vacuum_phase vacuum_cursor].
  rewrite (proj2 (Z.eqb_neq _ _)) by done.
  destruct Hc as [[-> ->]|[-> Hc]]; [|rewrite Hc];
    cbn [orb negb Nat.eqb andb check mbind StatusOr_bind IsKnownPhase length]; eexists;
    (apply encode_frame_Ok; [unfold kMaxMetaPayloadBytes; lia|]); (split; [|done]);
    unfold AppendU32, AppendU64, kMaxMetaPayloadBytes;
    rewrite !length_app, !length_be_bytes, ?Hc; cbn; lia.
Qed.

(** A round changes the facts and its own record. *)
Lemma vacuum_frame_write cs ops op :
  db_sorted (cs_db cs) -> (exists keys, ops = Delete kFactsCf <$> keys) ->
  op = Delete kMetaCf EncodeVacuumStateKey \/
  (exists v, op = Put kMetaCf EncodeVacuumStateKey v) ->
  vacuum_frame cs (with_db (db_write (cs_db cs) (ops ++ [op])) cs).
Proof.
  intros Hdb (keys & ->) Hop.
  pose proof (db_write_sorted _ ((Delete kFactsCf <$> keys) ++ [op]) Hdb) as Hs.
  split; [by destruct (db_write _ _)|]. split; [by destruct (db_write _ _)|].
  intros k Hk. cbn [meta_cf with_db]. change (db_meta ?d) with (db_cf kMetaCf d).
  rewrite db_write_get, ops_value_app by done.
  rewrite (ops_value_untouched kMetaCf k (Delete kFactsCf <$> keys)).
  - destruct Hop as [->|(v & ->)]; cbn; by rewrite bool_decide_false by naive_solver.
  - intros o (key & -> & _)%list_elem_of_fmap. cbn. by rewrite bool_decide_false by naive_solver.
Qed.

(** The loop of a round that starts behind a boundary. *)
Lemma round_loop target max_keys past rest :
  facts_ok (past ++ rest) ->
  (forall a b, a ∈ past -> b ∈ rest -> pair_boundary a <> pair_boundary b) ->
  exists now later p, rest = now ++ later /\
    vacuum_loop (new_planner target max_keys) rest
    = Ok (deletions target (past ++ rest) now, p, bool_decide (later = [])) /\
    last_key_ p = cursor_of now /\ (later <> [] -> (max_keys <= length now)%nat) /\
    forall a b, a ∈ past ++ now -> b ∈ later -> pair_boundary a <> pair_boundary b.
Proof.
  intros Hok Hsep. destruct (facts_ok_app _ _ Hok) as (_ & Hrest & _).
  destruct (vacuum_loop_spec target max_keys rest [] (new_planner target max_keys))
    as (now & later & p & Er & El & Hp & Hlen & Hsep'); [done|done|]. cbn [app] in *.
  exists now, later, p. split; [done|]. split; [|split; [|split; [done|]]].
  - rewrite El. do 3 f_equal. unfold deletions. f_equal. f_equal. apply filter_ext_on.
    intros kv Hkv. symmetry. apply outdated_suffix; [done|]. rewrite Er. set_solver.
  - destruct Hp as (_ & _ & _ & Hp). unfold cursor_of. destruct (last now); apply Hp.
  - intros a b [Ha|Ha]%elem_of_app Hb; [|by apply Hsep'].
    apply Hsep; [done|]. rewrite Er. set_solver.
Qed.

(** The facts after a round; its last operation is on the metadata. *)
Lemma round_write target past now later cs op :
  let cf := past ++ now ++ later in
  let db := db_write (cs_db cs) (deletions target cf now ++ [op]) in
  facts_ok cf -> db_sorted (cs_db cs) ->
  facts_cf (cs_impl cs) = filter (fun kv => ~ outdated target cf kv) past ++ now ++ later ->
  (exists k, op = Delete kMetaCf k) \/ (exists k v, op = Put kMetaCf k v) ->
  db_facts db = filter (fun kv => ~ outdated target cf kv) (past ++ now) ++ later /\
  db_meta db = db_meta (apply_op (cs_db cs) op).
Proof.
  intros cf db Hok Hdb Efacts Hop. unfold db, deletions.
  rewrite db_write_app, db_delete_facts by done.
  cbn [cs_db db_facts db_meta]. rewrite Efacts. unfold cf.
  rewrite (remove_outdated target past now later Hok).
  by destruct Hop as [(k & ->)|(k & v & ->)].
Qed.

(** The operations of a round and the facts they leave. *)
Lemma cleanup_ops_spec target max_keys state cf cs :
  facts_ok cf -> (0 < max_keys)%nat -> uint 64 target -> target <> 0 ->
  db_sorted (cs_db cs) -> vacuum_running target cf state cs ->
  exists ops completed, cleanup_ops max_keys state (facts_cf (cs_impl cs)) = Ok (ops, completed) /\
    let cs' := with_db (db_write (cs_db cs) ops) cs in
    vacuum_frame cs cs' /\
    if completed then vacuum_finished target cf cs'
    else exists state', vacuum_running target cf state' cs' /\
      (length (seek_cursor (vacuum_cursor state') (facts_cf (cs_impl cs')))
       < length (seek_cursor (vacuum_cursor state) (facts_cf (cs_impl cs))))%nat.
Proof.
  intros Hok Hmax Ht Hnz Hdb (_ & Etarget & past & rest & -> & Efacts & Ecursor & Hsep).
  assert (seek_cursor (vacuum_cursor state) (facts_cf (cs_impl cs)) = rest) as Eseek
    by by rewrite Efacts, Ecursor; apply seek_cursor_rest.
  destruct (round_loop target max_keys past rest Hok Hsep)
    as (now & later & p & -> & El & Ek & Hlen & Hsep').
  unfold cleanup_ops. rewrite Eseek, Etarget, El. cbn [mbind StatusOr_bind]. rewrite Ek.
  case_bool_decide as Elater.
  - eexists _, true. split; [done|]. cbn zeta. split.
    { apply vacuum_frame_write; [done|by eexists|by left]. }
    destruct (round_write target past now later cs (Delete kMetaCf EncodeVacuumStateKey))
      as [Hf Hm]; [done..|left; by eexists|].
    split; cbn [meta_cf with_db facts_cf cs_impl].
    + rewrite Hm. cbn. rewrite cf_get_delete by apply Hdb. by rewrite bool_decide_true.
    + rewrite Hf. subst later. by rewrite !app_nil_r.
  - assert (exists kv, kv ∈ now /\ cursor_of now = fst kv /\ cursor_of (past ++ now) = fst kv)
      as (kv & Hkv & Ecur & Ecur').
    { destruct now as [|x now _] using rev_ind; [specialize (Hlen Elater); cbn in Hlen; lia|].
      exists x. unfold cursor_of. rewrite app_assoc, !last_snoc. set_solver. }
    assert (length (fst kv) = 32%nat) as Hl.
    { apply key_nonempty. destruct Hok as [_ Hk]. rewrite Forall_forall in Hk. set_solver. }
    destruct (EncodeVacuumState_total target kRunning (fst kv) Hnz (or_intror (conj eq_refl Hl)))
      as [bytes Eb].
    rewrite Ecur, Eb. cbn [mbind StatusOr_bind]. eexists _, false. split; [done|]. cbn zeta.
    split; [apply vacuum_frame_write; [done|by eexists|right; by eexists]|].
    destruct (round_write target past now later cs (Put kMetaCf EncodeVacuumStateKey bytes))
      as [Hf Hm]; [done..|right; by eexists _, _|].
    exists (mkVacuumState target kRunning (fst kv)). unfold vacuum_running.
    cbn [vacuum_cursor vacuum_target cs_impl with_db facts_cf meta_cf]. rewrite Hf, Hm.
    split; [split; [|split; [done|]]|].
    + exists bytes. split; [|by apply (codec_decode (typed := vacuum_typed))].
      cbn. rewrite cf_get_put. by rewrite bool_decide_true.
    + exists (past ++ now), later. by rewrite <- app_assoc, Ecur'.
    + rewrite <- Ecur', seek_cursor_rest by by rewrite <- app_assoc.
      rewrite length_app. destruct now; [by apply not_elem_of_nil in Hkv|]. cbn. lia.
Qed.

Lemma DeleteObsoleteFactVersions_step target outcome state cf cs :
  facts_ok cf -> uint 64 target -> target <> 0 -> db_sorted (cs_db cs) ->
  vacuum_running target cf state cs ->
  exists r cs', DeleteObsoleteFactVersions outcome state cs = (r, cs') /\ vacuum_frame cs cs' /\
    match r with
    | Ok true => vacuum_finished target cf cs'
    | Ok false => exists state', vacuum_running target cf state' cs' /\
        (length (seek_cursor (vacuum_cursor state') (facts_cf (cs_impl cs')))
         < length (seek_cursor (vacuum_cursor state) (facts_cf (cs_impl cs))))%nat
    | Fail s => s <> StatusOK /\ write_status outcome <> rocks_ok /\
        (vacuum_finished target cf cs' \/ exists state', vacuum_running target cf state' cs')
    end.
Proof.
  intros Hok Ht Hnz Hdb Hrun.
  destruct (cleanup_ops_spec target kDefaultKeysPerBatch state cf cs)
    as (ops & completed & E & Hframe & Hres); try done; [unfold kDefaultKeysPerBatch; lia|].
  unfold DeleteObsoleteFactVersions. rewrite E.
  assert (vacuum_frame cs cs) as Hrefl by (split; [by destruct cs as [[] ? ? ? ?]|done]).
  destruct (write_status outcome) eqn:Eo.
  1: { eexists _, _. split; [done|]. by destruct completed. }
  all: eexists _, _; split; [done|]; destruct (write_applied outcome);
    (split; [done|]); (split; [done|]); (split; [done|]); try (right; by exists state).
  all: destruct completed; [by left|right; destruct Hres as (state' & ? & _); by exists state'].
Qed.

Lemma vacuum_frame_trans cs cs1 cs2 :
  vacuum_frame cs cs1 -> vacuum_frame cs1 cs2 -> vacuum_frame cs cs2.
Proof.
  intros (E1 & _ & H1) (E2 & Hs & H2). split; [|split; [done|]].
  - rewrite E2, E1. by destruct cs1 as [[] ? ? ? ?].
  - intros k Hk. by rewrite H2, H1.
Qed.

(** The rounds end, and the database describes where they ended. *)
Lemma resume_vacuum_spec target cf outcomes fuel n state cs :
  facts_ok cf -> uint 64 target -> target <> 0 -> db_sorted (cs_db cs) ->
  vacuum_running target cf state cs ->
  (length (seek_cursor (vacuum_cursor state) (facts_cf (cs_impl cs))) < fuel)%nat ->
  exists s n' cs', resume_vacuum fuel outcomes n state cs = Some (s, n', cs') /\
    vacuum_frame cs cs' /\ (s = StatusOK -> vacuum_finished target cf cs') /\
    (vacuum_finished target cf cs' \/ exists state', vacuum_running target cf state' cs') /\
    ((forall i, write_status (outcomes i) = rocks_ok) -> s = StatusOK).
Proof.
  intros Hok Ht Hnz. revert n state cs. induction fuel as [|fuel IH];
    intros n state cs Hdb Hrun Hfuel; [lia|]. cbn [resume_vacuum].
  destruct (DeleteObsoleteFactVersions_step target (outcomes n) state cf cs)
    as (r & cs1 & -> & Hframe & Hr); try done.
  destruct r as [[]|s].
  - eexists _, _, _. split_and!; try done. by left.
  - destruct Hr as (state1 & Hrun1 & Hlt). pose proof Hrun1 as ((enc & -> & Ed) & _).
    cbn [from_option mbind StatusOr_bind]. rewrite Ed.
    destruct (IH (S n) state1 cs1) as (s & n' & cs' & E & Hf & H1 & H2 & H3);
      [apply Hframe|done|lia|].
    exists s, n', cs'. split_and!; try done. by eapply vacuum_frame_trans.
  - destruct Hr as (Hs & Ho & Hres). eexists _, _, _. split_and!; try done.
    intros Hall. by destruct Ho.
Qed.

(** ** Stored events *)

Lemma pair_event e kv :
  entry_of e kv ->
  pair_seq kv = event_commit_seq e /\ is_ok (DecodeFactKey (fst kv)) = true /\
  pair_boundary kv = ref_bytes (event_ref e) ++ be_bytes 8 (bnot64 (event_valid_from e)).
Proof.
  intros H. pose proof (entry_decode_key _ _ H) as E.
  assert (is_ok (DecodeFactKey (fst kv)) = true) as Hok by by rewrite E.
  destruct (key_decodes kv Hok) as (d & E' & Es & _ & _ & _ & Eb). rewrite E in E'.
  injection E' as <-. by rewrite Es, Eb.
Qed.

Lemma pair_same_boundary e e' kv kv' :
  entry_of e kv -> entry_of e' kv' ->
  pair_boundary kv' = pair_boundary kv <-> same_boundary e e'.
Proof.
  intros H H'. pose proof (pair_event _ _ H) as (_ & _ & ->).
  pose proof (pair_event _ _ H') as (_ & _ & ->).
  pose proof (entry_key_ok _ _ H) as (R & V & T & _).
  pose proof (entry_key_ok _ _ H') as (R' & V' & T' & _). unfold same_boundary. split.
  - intros E. apply app_inj_1 in E as [E1 E2]; [|by rewrite !length_ref_bytes].
    apply (f_equal be_num) in E2. rewrite !be_num_bytes in E2.
    rewrite !Z.mod_small in E2 by apply bnot64_uint.
    split; [symmetry; by apply ref_bytes_inj|].
    rewrite <- (bnot64_involutive (event_valid_from e)), <- E2 by done.
    by apply bnot64_involutive.
  - intros [-> ->]. done.
Qed.

Lemma represents_facts_ok cf events : represents cf events -> facts_ok cf.
Proof.
  intros (Hs & H & _). split; [done|]. apply Forall_forall.
  intros kv (e & _ & He)%H. apply (pair_event _ _ He).
Qed.

Lemma outdated_superseded target cf events e kv :
  represents cf events -> entry_of e kv ->
  outdated target cf kv <-> superseded target events e.
Proof.
  intros (_ & H1 & H2) He. unfold outdated, superseded. rewrite !Exists_exists.
  pose proof (pair_event _ _ He) as (-> & _). split.
  - intros (kv' & (e' & Hin' & He')%H1 & Eb & Hlt & Hle). exists e'. split; [done|].
    pose proof (pair_event _ _ He') as (Es' & _). rewrite Es' in *.
    split; [by eapply pair_same_boundary|lia].
  - intros (e' & (kv' & Hin' & He')%H2 & Eb & Hlt & Hle). exists kv'. split; [done|].
    pose proof (pair_event _ _ He') as (-> & _). split; [by eapply pair_same_boundary|lia].
Qed.

(** Pairs between the cleaned and all of them hold events between the retained and
    all of them. *)
Lemma partly_represents target cf events cf' :
  represents cf events -> cf_sorted cf' -> (forall kv, kv ∈ cf' -> kv ∈ cf) ->
  (forall kv, kv ∈ cf -> ~ outdated target cf kv -> kv ∈ cf') ->
  exists events', represents cf' events' /\ partly_retained target events events'.
Proof.
  intros Hrep Hs Hsub Hkeep. pose proof Hrep as (_ & H1 & H2).
  exists (filter (fun e => event_key e ∈ fst <$> cf') events). split; [split_and!; [done|..]|split].
  - intros kv Hkv. destruct (H1 kv (Hsub kv Hkv)) as (e & Hin & He). exists e. split; [|done].
    apply list_elem_of_filter. split; [|done]. apply list_elem_of_fmap. exists kv.
    split; [|done]. by destruct He as (_ & -> & _).
  - intros e [(kv & E & Hkv)%list_elem_of_fmap Hin]%list_elem_of_filter. exists kv.
    split; [done|]. destruct (H2 e Hin) as (kv' & Hin' & He').
    replace kv with kv'; [done|]. destruct He' as (_ & Ek & _).
    destruct kv as [k v], kv' as [k' v']. cbn in *. subst k'. rewrite E in *. f_equal.
    apply Hsub in Hkv. apply elem_of_cf in Hkv; [|apply Hrep].
    apply elem_of_cf in Hin'; [|apply Hrep]. congruence.
  - intros e [_ ?]%list_elem_of_filter. done.
  - intros e Hin Hno. apply list_elem_of_filter. split; [|done].
    destruct (H2 e Hin) as (kv & Hkv & He). apply list_elem_of_fmap. exists kv.
    split; [by destruct He as (_ & -> & _)|]. apply Hkeep; [done|].
    by rewrite outdated_superseded.
Qed.

(** Snapshots at or above the target see no difference. *)
Lemma effective_partly target events events' ref snapshot t :
  distinct_versions (history events ref) -> partly_retained target events events' ->
  target <= snapshot ->
  effective (history events' ref) snapshot t = effective (history events ref) snapshot t.
Proof.
  intros Hd [Hsub Hkeep] Hle.
  destruct (effective (history events ref) snapshot t) as [e|] eqn:E.
  - apply effective_Some in E as ([Hin Er]%elem_of_history & Ha & Hmax).
    apply effective_unique.
    + intros a b [? ?]%elem_of_history [? ?]%elem_of_history. apply Hd; apply elem_of_history; auto.
    + apply elem_of_history. split; [|done]. apply Hkeep; [done|].
      intros (e' & Hin' & [E1 E2] & H1 & H2)%Exists_exists.
      assert (event_le e' e) as Hl.
      { apply Hmax; [apply elem_of_history; split; [done|congruence]|].
        unfold applies in *. rewrite andb_true_iff, !Z.leb_le in *. lia. }
      unfold event_le in Hl. apply not_true_iff_false in Hl. apply Hl, event_before_spec.
      right. by rewrite E2.
    + done.
    + intros e' [? ?]%elem_of_history. apply Hmax. apply elem_of_history. auto.
  - apply effective_None. intros e [? ?]%elem_of_history.
    apply (proj1 (effective_None _ _ _) E). apply elem_of_history. auto.
Qed.

Lemma progress_pairs target cf cf' cursor :
  facts_ok cf -> progress target cf cf' cursor ->
  cf_sorted cf' /\ (forall kv, kv ∈ cf' -> kv ∈ cf) /\
  forall kv, kv ∈ cf -> ~ outdated target cf kv -> kv ∈ cf'.
Proof.
  intros Hok (past & rest & -> & -> & _ & Hsep).
  assert (filter (fun kv => ~ outdated target (past ++ rest) kv) past ++ rest
          = filter (fun kv => ~ outdated target (past ++ rest) kv \/ kv ∈ rest) (past ++ rest))
    as E.
  { rewrite filter_app. f_equal; [|symmetry; apply filter_all, Forall_forall; auto].
    apply filter_ext_on. intros kv Hkv. split; [auto|]. intros [|Hr]; [done|].
    by destruct (Hsep kv kv). }
  rewrite E. split; [by apply cf_sorted_filter, Hok|].
  split; intros kv; rewrite list_elem_of_filter; tauto.
Qed.

(** Whatever state a cleanup is in, snapshots at or above its target read the same. *)
Lemma vacuum_reads target cf events cs snapshot ref t :
  represents cf events ->
  vacuum_finished target cf cs \/ (exists state, vacuum_running target cf state cs) ->
  target <= snapshot -> key_ok ref t U64_MAX ->
  Read (mkStoreSnapshot true snapshot (facts_cf (cs_impl cs))) ref t
  = Read (mkStoreSnapshot true snapshot cf) ref t.
Proof.
  intros Hrep Hstate Hle Hkey. pose proof (represents_facts_ok _ _ Hrep) as Hok.
  assert (exists events', represents (facts_cf (cs_impl cs)) events' /\
            partly_retained target events events') as (events' & Hrep' & Hpart).
  { apply (partly_represents target cf events); [done|..].
    all: destruct Hstate as [[_ ->]|(state & _ & _ & Hp)];
      [|by destruct (progress_pairs _ _ _ _ Hok Hp) as (? & ? & ?)].
    - by apply cf_sorted_filter, Hok.
    - intros kv [_ ?]%list_elem_of_filter. done.
    - intros kv ? ?. by apply list_elem_of_filter. }
  rewrite (Read_events _ events' ref t), (Read_events _ events ref t) by done. do 2 f_equal.
  apply (effective_partly target); try done. by eapply history_distinct.
Qed.

(** A finished cleanup stores the retained events. *)
Lemma cleaned_represents target cf events :
  represents cf events -> represents (cleaned target cf) (retained target events).
Proof.
  intros Hrep. pose proof Hrep as (Hs & H1 & H2). split_and!.
  - by apply cf_sorted_filter.
  - intros kv [Hno Hin]%list_elem_of_filter. destruct (H1 kv Hin) as (e & Hine & He).
    exists e. split; [|done]. apply list_elem_of_filter. split; [|done].
    by rewrite <- (outdated_superseded target cf events e kv).
  - intros e [Hno Hin]%list_elem_of_filter. destruct (H2 e Hin) as (kv & Hinkv & He).
    exists kv. split; [|done]. apply list_elem_of_filter. split; [|done].
    by rewrite (outdated_superseded target cf events e kv).
Qed.

Lemma versioned_represents : represents versioned_cf versioned_events.
Proof. represents_concrete. Qed.

Lemma versioned_running : vacuum_running 5 versioned_cf sample_vacuum versioned_store.
Proof.
  split; [|split; [done|]].
  - destruct (EncodeVacuumState sample_vacuum) as [encoded|] eqn:E;
      [|vm_compute in E; discriminate].
    exists encoded. split; [unfold versioned_store; rewrite E; reflexivity|].
    apply (codec_decode (typed := vacuum_typed)); [|done]. unfold vacuum_typed, uint. cbn. lia.
  - exists [], versioned_cf. split_and!; try done. by intros a b ?%not_elem_of_nil.
Qed.

(** ** Properties *)

(** C23: a cleanup terminates and can be interrupted anywhere.  From the durable record
    of a cleanup, and whatever the outcomes of its writes are, [ResumeVacuum] returns;
    it touches the facts and its own record only; every read at a snapshot at or above
    the target is what it was on the facts before the cleanup; and the database holds
    either the finished cleanup or a record from which the same cleanup continues.
    When all writes succeed it reports success, and it reports success only when
    exactly the versions are left that no newer version at or below the target
    supersedes. *)
Theorem ResumeVacuum_resumable target cf events outcomes n state cs :
  represents cf events -> uint 64 target -> target <> 0 -> db_sorted (cs_db cs) ->
  vacuum_running target cf state cs ->
  exists s n' cs', ResumeVacuum outcomes n state cs = Some (s, n', cs') /\
    vacuum_frame cs cs' /\
    (forall snapshot ref t, target <= snapshot -> key_ok ref t U64_MAX ->
       Read (mkStoreSnapshot true snapshot (facts_cf (cs_impl cs'))) ref t
       = Read (mkStoreSnapshot true snapshot cf) ref t) /\
    (vacuum_finished target cf cs' \/ exists state', vacuum_running target cf state' cs') /\
    ((forall i, write_status (outcomes i) = rocks_ok) -> s = StatusOK) /\
    (s = StatusOK -> vacuum_finished target cf cs' /\
       represents (facts_cf (cs_impl cs')) (retained target events)).
Proof.
  intros Hrep Ht Hnz Hdb Hrun. pose proof (represents_facts_ok _ _ Hrep) as Hok.
  destruct (resume_vacuum_spec target cf outcomes (S (length (facts_cf (cs_impl cs)))) n state cs)
    as (s & n' & cs' & E & Hframe & Hdone & Hstate & Hall); try done.
  { destruct Hrun as (_ & _ & past & rest & -> & -> & -> & _).
    rewrite seek_cursor_rest, length_app by done. lia. }
  exists s, n', cs'. split; [exact E|]. split_and!; try done.
  - intros snapshot ref t Hle Hkey. by apply (vacuum_reads target cf events).
  - intros Hs. split; [by apply Hdone|]. destruct (Hdone Hs) as [_ ->].
    by apply cleaned_represents.
Qed.

Lemma ResumeVacuum_resumable_witness :
  exists n' cs', ResumeVacuum (fun _ => sample_written) 0 sample_vacuum versioned_store
    = Some (StatusOK, n', cs') /\
    represents (facts_cf (cs_impl cs')) (retained 5 versioned_events) /\
    retained 5 versioned_events
    = [sample_version 20 3 (Some (VInt32 5)); sample_version 10 6 (Some (VInt32 9));
       sample_version 10 4 (Some (VInt32 7))].
Proof.
  destruct (ResumeVacuum_resumable 5 versioned_cf versioned_events (fun _ => sample_written) 0
              sample_vacuum versioned_store)
    as (s & n' & cs' & E & _ & _ & _ & Hall & Hdone).
  - exact versioned_represents.
  - unfold uint. lia.
  - discriminate.
  - split; [apply versioned_represents|].
    change (db_meta (cs_db versioned_store)) with (meta_cf versioned_store).
    unfold versioned_store. cbn [meta_cf]. destruct (EncodeVacuumState _); repeat constructor.
  - exact versioned_running.
  - rewrite (Hall ltac:(done)) in E. exists n', cs'. split; [exact E|].
    split; [by apply Hdone, Hall|vm_compute; reflexivity].
Defined.

(** A cleanup makes committed transactions look lost.  The retry of a transaction
    that committed at sequence 7 reports that commit; once its fact was rewritten at
    the same valid time and a cleanup at sequence 8 has succeeded, the same retry
    fails with a fact that is not found, although the outcome and the sequence record
    of the transaction are still there. *)
Example retry_after_vacuum :
  (CommitDirect sample_cf_id sample_written sample_write None rewritten_store).1
  = Ok (mkStoreCommitResult 7 1000) /\
  exists cs n, vacuumed_store = Some (StatusOK, n, cs) /\
    meta_cf cs = meta_cf rewritten_store /\
    (CommitDirect sample_cf_id sample_written sample_write None cs).1
    = Fail (NotFound "read committed fact" "NotFound: ").
Proof.
  split; [vm_compute; reflexivity|].
  destruct vacuumed_store as [[[s n] cs]|] eqn:E; [|vm_compute in E; discriminate].
  exists cs, n. vm_compute in E. injection E as <- <- <-.
  split; [reflexivity|]. split; vm_compute; reflexivity.
Qed.
