(* ===== verification/SequenceRetention.v ===== *)
(** * SequenceRetention: pruning of sequence records

    Models [PruneSequenceRecords] of [src/storage/rocks/rocks_adapter.cc], which
    first makes the retention watermark durable and then deletes the sequence
    records below it in bounded batches.

    The outcome of the n-th write is an argument.  The iterator reads the metadata
    as it was when the iterator was made.  The outer loop has fuel, one round per
    pair under the iterator and one more, which is enough because every round that
    goes on deletes a record. *)

From S2P Require Import Prelude Status Crc32c Wire Value Fact FactCodec CommitBatch.
From S2P Require Import Frame MetaCodec PreparedCodec GroupCommit Bloom RecentWrites.
From S2P Require Import ValidationCache Accelerators Temporal FactStore Conflict.
From S2P Require Import WriteBatch Commit Vacuum.

Definition kSequenceMetaPrefix : list byte := literal "sequence/".
Definition kSequenceMetaKeyBytes : nat := 17.

(** The eight bytes behind the prefix, the most significant first. *)
Definition ParseSequenceMetaKey (key : list byte) : Z :=
  be_value 8 (take 8 (drop (length kSequenceMetaPrefix) key)).

Definition kMaxKeysPerBatch : nat := 1024.

(** The inner loop: the keys of one batch and the iterator behind them. *)
Fixpoint prune_batch (budget : nat) (boundary : Z) (entries : column_family)
  : StatusOr (list (list byte) * column_family) :=
  match entries with
  | [] => Ok ([], [])
  | (key, value) :: entries' =>
      if negb (StartsWith key kSequenceMetaPrefix) then Ok ([], entries)
      else
        match budget with
        | O => Ok ([], entries)
        | S budget' =>
            if negb (length key =? kSequenceMetaKeyBytes)%nat then
              Fail (Corruption "sequence retention" "invalid durable sequence record key")
            else if boundary <=? ParseSequenceMetaKey key then Ok ([], entries)
            else
              '(keys, rest) ← prune_batch budget' boundary entries';
              Ok (key :: keys, rest)
        end
  end.

(** A synchronous write of metadata. *)
Definition write_metadata (outcome : WriteOutcome) (ops : list WriteOp) (cs : CommitStore)
  : Status * CommitStore :=
  let written := with_db (db_write (cs_db cs) ops) cs in
  match write_status outcome with
  | rocks_ok => (StatusOK, written)
  | failure =>
      (FromMetadataWriteFailure failure, if write_applied outcome then written else cs)
  end.

(** The outer loop. *)
Fixpoint prune_rounds (fuel : nat) (outcomes : nat -> WriteOutcome) (n : nat)
    (boundary : Z) (entries : column_family) (cs : CommitStore)
  : option (Status * nat * CommitStore) :=
  match fuel with
  | O => None
  | S fuel' =>
      match entries with
      | (key, _) :: _ =>
          if negb (StartsWith key kSequenceMetaPrefix) then Some (StatusOK, n, cs)
          else
            match prune_batch kMaxKeysPerBatch boundary entries with
            | Fail s => Some (s, n, cs)
            | Ok ([], _) => Some (StatusOK, n, cs)
            | Ok (keys, rest) =>
                match write_metadata (outcomes n) (Delete kMetaCf <$> keys) cs with
                | (StatusOK, cs) => prune_rounds fuel' outcomes (S n) boundary rest cs
                | (s, cs) => Some (s, S n, cs)
                end
            end
      | [] => Some (StatusOK, n, cs)
      end
  end.

Definition with_retention (watermark : Z) (cs : CommitStore) : CommitStore :=
  mkCommitStore (cs_impl cs) (meta_cf cs) (recovery_required cs) watermark
    (group_commit_max_batch_bytes cs).

(** The watermark, made durable before it is published. *)
Definition raise_retention (outcome : WriteOutcome) (boundary : Z) (cs : CommitStore)
  : Status * CommitStore :=
  match EncodeWatermark boundary with
  | Fail s => (s, cs)
  | Ok watermark =>
      match write_metadata outcome
              [Put kMetaCf EncodeSequenceRetentionWatermarkKey watermark] cs with
      | (StatusOK, cs) => (StatusOK, with_retention boundary cs)
      | (s, cs) => (s, cs)
      end
  end.

Definition prune_all (outcomes : nat -> WriteOutcome) (n : nat) (boundary : Z)
    (cs : CommitStore) : option (Status * nat * CommitStore) :=
  let entries := Seek kSequenceMetaPrefix (meta_cf cs) in
  prune_rounds (S (length entries)) outcomes n boundary entries cs.

Definition PruneSequenceRecords (outcomes : nat -> WriteOutcome) (n : nat)
    (boundary : Z) (cs : CommitStore) : option (Status * nat * CommitStore) :=
  if boundary <=? 1 then Some (StatusOK, n, cs)
  else if sequence_retention_watermark cs <? boundary then
    match raise_retention (outcomes n) boundary cs with
    | (StatusOK, cs) => prune_all outcomes (S n) boundary cs
    | (s, cs) => Some (s, S n, cs)
    end
  else prune_all outcomes n boundary cs.

(** ** Specification *)

(** The durable watermark covers a boundary. *)
Definition retention_covers (meta : column_family) (boundary : Z) : Prop :=
  exists v w, cf_get EncodeSequenceRetentionWatermarkKey meta = Some v /\
    DecodeWatermark v = Ok w /\ boundary <= w.

(** The published watermark is not ahead of the durable one. *)
Definition retention_durable (cs : CommitStore) : Prop :=
  0 < sequence_retention_watermark cs ->
  retention_covers (meta_cf cs) (sequence_retention_watermark cs).

(** The keys a prune may delete. *)
Definition prunable (boundary : Z) (key : list byte) : Prop :=
  exists s, 0 <= s < boundary /\ key = kSequenceMetaPrefix ++ be_bytes 8 s.

(** Deletions of prunable keys from the metadata. *)
Definition pruned (boundary : Z) (cs cs' : CommitStore) : Prop :=
  cs' = with_db (cs_db cs') cs /\ db_sorted (cs_db cs') /\
  facts_cf (cs_impl cs') = facts_cf (cs_impl cs) /\
  forall k, cf_get k (meta_cf cs') = cf_get k (meta_cf cs) \/
    (prunable boundary k /\ cf_get k (meta_cf cs') = None).

(** Where a prune stops: nothing is left to delete. *)
Definition prune_stopped (boundary : Z) (rest : column_family) : Prop :=
  match rest with
  | [] => True
  | (k, _) :: _ =>
      StartsWith k kSequenceMetaPrefix = false \/
      exists s, boundary <= s < 2 ^ 64 /\ k = kSequenceMetaPrefix ++ be_bytes 8 s
  end.

(** The store after both sample commits, pruned below the second one. *)
Definition pruned_sample : option (Status * nat * CommitStore) :=
  PruneSequenceRecords (fun _ => sample_written) 0 8 rewritten_store.

(** The same after the first commit alone. *)
Definition first_store : CommitStore :=
  (CommitDirect sample_cf_id sample_written sample_write None sample_commit_store).2.

Definition pruned_first : option (Status * nat * CommitStore) :=
  PruneSequenceRecords (fun _ => sample_written) 0 8 first_store.

(** ** Batches *)

Lemma sequence_key_parse k :
  StartsWith k kSequenceMetaPrefix = true -> length k = kSequenceMetaKeyBytes ->
  k = kSequenceMetaPrefix ++ be_bytes 8 (ParseSequenceMetaKey k) /\
  0 <= ParseSequenceMetaKey k < 2 ^ 64.
Proof.
  intros (suffix & ->)%StartsWith_true Hl. unfold kSequenceMetaKeyBytes in Hl.
  assert (length suffix = 8%nat) as Hs.
  { rewrite length_app in Hl. change (length kSequenceMetaPrefix) with 9%nat in Hl. lia. }
  unfold ParseSequenceMetaKey. rewrite drop_app_length, take_ge by lia.
  rewrite be_value_num by lia. split; [by rewrite be_bytes_num|].
  pose proof (be_num_range suffix) as H. by rewrite Hs in H.
Qed.

Lemma prune_batch_spec budget boundary entries keys rest :
  prune_batch budget boundary entries = Ok (keys, rest) ->
  exists taken, entries = taken ++ rest /\ keys = fst <$> taken /\
    Forall (prunable boundary) keys /\
    ((length keys < budget)%nat -> prune_stopped boundary rest).
Proof.
  revert entries keys rest. induction budget as [|budget IH]; intros entries keys rest H;
    destruct entries as [|[k v] entries]; cbn [prune_batch] in H;
    try (injection H as <- <-; exists []; split_and!; [done..|cbn; done || lia]).
  - destruct (negb _); injection H as <- <-; exists []; (split_and!; [done..|cbn; lia]).
  - destruct (StartsWith k kSequenceMetaPrefix) eqn:Ep; cbn [negb] in H.
    2: { injection H as <- <-. exists []. split_and!; [done..|]. intros _. by left. }
    destruct (Nat.eqb_spec (length k) kSequenceMetaKeyBytes) as [El|]; [|done].
    destruct (sequence_key_parse k Ep El) as [Ek Hr]. cbn [negb] in H.
    destruct (Z.leb_spec boundary (ParseSequenceMetaKey k)) as [Hle|Hlt].
    { injection H as <- <-. exists []. split_and!; [done..|]. intros _. right.
      exists (ParseSequenceMetaKey k). split; [lia|done]. }
    apply bind_Ok in H as ([keys' rest'] & Hb & H). injection H as <- <-.
    destruct (IH _ _ _ Hb) as (taken & -> & -> & Hall & Hstop).
    exists ((k, v) :: taken). split_and!; [done..| |].
    + constructor; [|done]. exists (ParseSequenceMetaKey k). split; [lia|done].
    + cbn. intros. apply Hstop. lia.
Qed.

Lemma prune_batch_proper budget boundary entries :
  prune_batch budget boundary entries <> Fail StatusOK.
Proof.
  revert entries. induction budget as [|budget IH]; intros [|[k v] entries];
    cbn [prune_batch]; try done; [by destruct (negb _)|].
  repeat (destruct (negb _); [done|]). destruct (_ <=? _); [done|].
  specialize (IH entries). by destruct (prune_batch _ _ _) as [[]|[]].
Qed.

(** ** Rounds *)

Lemma db_delete_meta keys db :
  db_sorted db ->
  db_facts (db_write db (Delete kMetaCf <$> keys)) = db_facts db /\
  forall k, cf_get k (db_meta (db_write db (Delete kMetaCf <$> keys)))
            = if decide (k ∈ keys) then None else cf_get k (db_meta db).
Proof.
  intros Hs.
  assert (forall cf k old, ops_value cf k (Delete kMetaCf <$> keys) old
          = if decide (cf = kMetaCf /\ k ∈ keys) then None else old) as Hops.
  { intros cf k. induction keys as [|key keys IH]; intros old; [cbn; case_decide; set_solver|].
    rewrite fmap_cons. cbn [ops_value op_value]. rewrite IH.
    repeat case_decide; repeat case_bool_decide; set_solver. }
  split.
  - apply cf_ext; [apply (db_write_sorted _ _ Hs)|apply Hs|]. intros k.
    change (db_facts ?d) with (db_cf kFactsCf d). rewrite db_write_get, Hops by done.
    by rewrite decide_False by naive_solver.
  - intros k. change (db_meta ?d) with (db_cf kMetaCf d). rewrite db_write_get, Hops by done.
    repeat case_decide; naive_solver.
Qed.

Lemma pruned_refl boundary cs : db_sorted (cs_db cs) -> pruned boundary cs cs.
Proof. intros H. split; [by destruct cs as [[] ? ? ? ?]|]. split_and!; auto. Qed.

Lemma pruned_trans boundary cs cs1 cs2 :
  pruned boundary cs cs1 -> pruned boundary cs1 cs2 -> pruned boundary cs cs2.
Proof.
  intros (E1 & _ & F1 & H1) (E2 & Hs & F2 & H2). split; [|split; [done|split; [congruence|]]].
  - rewrite E2, E1. by destruct cs1 as [[] ? ? ? ?].
  - intros k. destruct (H2 k) as [->|[? ->]]; [apply H1|by right].
Qed.

Lemma pruned_write boundary keys cs :
  db_sorted (cs_db cs) -> Forall (prunable boundary) keys ->
  let cs' := with_db (db_write (cs_db cs) (Delete kMetaCf <$> keys)) cs in
  pruned boundary cs cs' /\ forall k, k ∈ keys -> cf_get k (meta_cf cs') = None.
Proof.
  intros Hdb Hall cs'. destruct (db_delete_meta keys (cs_db cs) Hdb) as [Hf Hm].
  pose proof (db_write_sorted _ (Delete kMetaCf <$> keys) Hdb) as Hs.
  split; [split_and!|].
  - unfold cs'. by destruct (db_write _ _).
  - unfold cs'. by destruct (db_write _ _).
  - exact Hf.
  - intros k. unfold cs'. cbn [meta_cf with_db]. rewrite Hm. case_decide as Hk; [right|by left].
    rewrite Forall_forall in Hall. split; [by apply Hall|done].
  - intros k Hk. unfold cs'. cbn [meta_cf with_db]. rewrite Hm. by rewrite decide_True.
Qed.

Lemma prune_rounds_spec fuel outcomes n boundary entries cs :
  db_sorted (cs_db cs) -> (length entries < fuel)%nat ->
  exists s n' cs', prune_rounds fuel outcomes n boundary entries cs = Some (s, n', cs') /\
    pruned boundary cs cs' /\
    (s = StatusOK -> exists taken rest, entries = taken ++ rest /\
       prune_stopped boundary rest /\
       forall k, k ∈ fst <$> taken -> cf_get k (meta_cf cs') = None).
Proof.
  revert n entries cs. induction fuel as [|fuel IH]; intros n entries cs Hdb Hlen; [lia|].
  assert (forall rest, entries = rest -> prune_stopped boundary rest ->
    exists taken rest, entries = taken ++ rest /\ prune_stopped boundary rest /\
      forall k, k ∈ fst <$> taken -> cf_get k (meta_cf cs) = None) as Hend.
  { intros rest -> Hst. exists [], rest. split_and!; try done. by intros k ?%not_elem_of_nil. }
  cbn [prune_rounds]. destruct entries as [|[key v] entries].
  { eexists _, _, _. split_and!; [done|by apply pruned_refl|]. intros _. by apply (Hend []). }
  destruct (StartsWith key kSequenceMetaPrefix) eqn:Ep; cbn [negb].
  2: { eexists _, _, _. split_and!; [done|by apply pruned_refl|]. intros _.
       eapply Hend; [done|by left]. }
  destruct (prune_batch _ _ _) as [[keys rest]|s] eqn:Eb.
  2: { eexists _, _, _. split_and!; [done|by apply pruned_refl|]. intros ->.
       by apply prune_batch_proper in Eb. }
  apply prune_batch_spec in Eb as (taken & Et & -> & Hall & Hstop).
  destruct taken as [|[k1 v1] taken].
  { eexists _, _, _. split_and!; [done|by apply pruned_refl|]. intros _.
    apply (Hend rest); [done|]. apply Hstop. cbn. unfold kMaxKeysPerBatch. lia. }
  set (keys := fst <$> (k1, v1) :: taken) in *.
  destruct (pruned_write boundary keys cs Hdb Hall) as [Hp Hnone].
  change (fst <$> (k1, v1) :: taken) with (k1 :: (fst <$> taken)) in keys.
  cbn [fmap list_fmap fst]. fold keys. unfold write_metadata.
  destruct (write_status (outcomes n)) eqn:Eo.
  1: { destruct (IH (S n) rest (with_db (db_write (cs_db cs) (Delete kMetaCf <$> keys)) cs))
         as (s & n' & cs' & E & Hp' & Hs); [apply Hp| |].
       { apply (f_equal length) in Et. rewrite length_app in Et. cbn in Et, Hlen. lia. }
       exists s, n', cs'. split; [exact E|]. split; [by eapply pruned_trans|]. intros Hok.
       destruct (Hs Hok) as (taken' & rest' & -> & Hst & Hk).
       exists (((k1, v1) :: taken) ++ taken'), rest'. rewrite <- app_assoc.
       split_and!; [done..|]. intros k. rewrite fmap_app, elem_of_app. intros [Hin|]; [|by apply Hk].
       destruct Hp' as (_ & _ & _ & Hp'). destruct (Hp' k) as [->|[_ ?]]; [|done].
       by apply Hnone. }
  all: eexists _, _, _; split; [done|]; split;
    [destruct (write_applied (outcomes n)); [done|by apply pruned_refl]|done].
Qed.

(** No record is left behind where a prune stops. *)
Lemma stopped_nothing_left boundary rest k v :
  cf_sorted rest -> (forall kv, kv ∈ rest -> bytes_compare (fst kv) kSequenceMetaPrefix <> Lt) ->
  prune_stopped boundary rest -> boundary < 2 ^ 64 -> prunable boundary k -> (k, v) ∉ rest.
Proof.
  intros Hs Hge Hstop Hb (s & Hr & ->) Hin. destruct rest as [|[k0 v0] rest];
    [by apply not_elem_of_nil in Hin|].
  assert (bytes_compare k0 (kSequenceMetaPrefix ++ be_bytes 8 s) <> Gt) as Hle.
  { inversion_clear Hs as [|? ? _ Hall]. apply elem_of_cons in Hin as [[= <- _]|Hin].
    - by rewrite bytes_compare_refl.
    - rewrite Forall_forall in Hall. apply Hall in Hin. unfold bytes_lt in Hin.
      cbn [fst] in Hin. by rewrite Hin. }
  destruct Hstop as [Hp|(s0 & Hr0 & ->)].
  - apply not_true_iff_false in Hp. apply Hp.
    apply (StartsWith_between kSequenceMetaPrefix [] (be_bytes 8 s)); [|done].
    rewrite app_nil_r, bytes_compare_antisym.
    specialize (Hge (k0, v0) ltac:(by left)). cbn [fst] in Hge.
    by destruct (bytes_compare k0 kSequenceMetaPrefix).
  - rewrite bytes_compare_app, bytes_compare_refl in Hle by done. cbn in Hle.
    rewrite bytes_compare_be in Hle by (unfold uint; lia). by apply Z.compare_ngt_iff in Hle; lia.
Qed.

Lemma prune_all_spec outcomes n boundary cs :
  db_sorted (cs_db cs) -> boundary < 2 ^ 64 ->
  exists s n' cs', prune_all outcomes n boundary cs = Some (s, n', cs') /\
    pruned boundary cs cs' /\
    (s = StatusOK -> forall k, prunable boundary k -> cf_get k (meta_cf cs') = None).
Proof.
  intros Hdb Hb. unfold prune_all.
  assert (Seek kSequenceMetaPrefix (meta_cf cs) = filter (fun kv =>
    bytes_compare (fst kv) kSequenceMetaPrefix <> Lt) (meta_cf cs)) as Ee
    by apply Seek_filter, Hdb.
  generalize dependent (Seek kSequenceMetaPrefix (meta_cf cs)). intros entries Ee.
  destruct (prune_rounds_spec (S (length entries)) outcomes n boundary entries cs)
    as (s & n' & cs' & E & Hp & Hs); [done|lia|].
  exists s, n', cs'. split_and!; [done..|]. intros Hok k Hk.
  destruct (Hs Hok) as (taken & rest & Eent & Hstop & Hnone).
  destruct (cf_get k (meta_cf cs)) as [v|] eqn:Eg.
  2: { destruct Hp as (_ & _ & _ & Hp). by destruct (Hp k) as [->|[_ ?]]. }
  apply elem_of_cf in Eg; [|apply Hdb].
  assert (cf_sorted entries) as Hsort by (rewrite Ee; apply cf_sorted_filter, Hdb).
  assert (forall kv, kv ∈ entries -> bytes_compare (fst kv) kSequenceMetaPrefix <> Lt) as Hge.
  { intros kv. rewrite Ee. by intros [? _]%list_elem_of_filter. }
  assert ((k, v) ∈ entries) as Hin.
  { rewrite Ee. apply list_elem_of_filter. split; [|done]. cbn [fst]. destruct Hk as (q & _ & ->).
    pose proof (bytes_compare_prefix kSequenceMetaPrefix (be_bytes 8 q)) as H.
    rewrite bytes_compare_antisym in H. intros Hlt. by rewrite Hlt in H. }
  rewrite Eent in Hin, Hge, Hsort. apply elem_of_app in Hin as [Hin|Hin].
  - apply Hnone, list_elem_of_fmap. by exists (k, v).
  - exfalso. assert (cf_sorted rest) as Hsr.
    { clear -Hsort. induction taken; [done|]. inversion_clear Hsort. auto. }
    eapply (stopped_nothing_left boundary rest k v); try done.
    intros kv Hkv. apply Hge, elem_of_app. by right.
Qed.

Lemma retention_key_kept boundary : ~ prunable boundary EncodeSequenceRetentionWatermarkKey.
Proof. intros (s & _ & E). discriminate E. Qed.

Lemma pruned_covers boundary cs cs' w :
  pruned boundary cs cs' -> retention_covers (meta_cf cs) w -> retention_covers (meta_cf cs') w.
Proof.
  intros (_ & _ & _ & H) (v & w' & Hg & Hd & Hle). exists v, w'. split; [|done].
  destruct (H EncodeSequenceRetentionWatermarkKey) as [->|[Hp _]]; [done|].
  by apply retention_key_kept in Hp.
Qed.

(** Raising the watermark. *)
Lemma raise_retention_spec outcome boundary cs :
  db_sorted (cs_db cs) -> uint 64 boundary ->
  exists s cs', raise_retention outcome boundary cs = (s, cs') /\
    cs_impl cs' = cs_impl cs /\ recovery_required cs' = recovery_required cs /\
    group_commit_max_batch_bytes cs' = group_commit_max_batch_bytes cs /\
    db_sorted (cs_db cs') /\
    (forall k, k <> EncodeSequenceRetentionWatermarkKey ->
       cf_get k (meta_cf cs') = cf_get k (meta_cf cs)) /\
    (retention_covers (meta_cf cs') boundary \/ meta_cf cs' = meta_cf cs) /\
    sequence_retention_watermark cs'
    = (if decide (s = StatusOK) then boundary else sequence_retention_watermark cs) /\
    (s = StatusOK -> retention_covers (meta_cf cs') boundary).
Proof.
  intros Hdb Hb. unfold raise_retention.
  destruct (EncodeWatermark boundary) as [w|] eqn:Ew.
  2: { destruct (EncodeWatermark_total boundary) as [? E]. congruence. }
  pose proof (db_write_sorted _ [Put kMetaCf EncodeSequenceRetentionWatermarkKey w] Hdb) as Hs.
  set (written := with_db (db_write (cs_db cs)
                    [Put kMetaCf EncodeSequenceRetentionWatermarkKey w]) cs).
  assert (cs_impl written = cs_impl cs) as Ei by by destruct cs as [[] ? ? ? ?].
  assert (forall k, cf_get k (meta_cf written)
            = if decide (k = EncodeSequenceRetentionWatermarkKey) then Some w
              else cf_get k (meta_cf cs)) as Hget.
  { intros k. cbn. rewrite cf_get_put. repeat case_decide; repeat case_bool_decide; congruence. }
  assert (retention_covers (meta_cf written) boundary) as Hc.
  { exists w, boundary. rewrite Hget, decide_True by done.
    split_and!; [done| |lia]. by apply (codec_decode (typed := uint 64)). }
  unfold write_metadata. fold written. destruct (write_status outcome) eqn:Eo.
  1: { eexists StatusOK, _. split; [done|]. rewrite decide_True by done.
       split_and!; try done; [|by left]. intros k Hk. cbn [meta_cf with_retention].
       by rewrite Hget, decide_False. }
  all: destruct (write_applied outcome); eexists _, _; (split; [done|]);
    split_and!; try done; try (by left); try (by right).
  all: intros k Hk; by rewrite Hget, decide_False.
Qed.

(** What a prune leaves of a store. *)
Lemma prune_all_covered outcomes n boundary cs :
  db_sorted (cs_db cs) -> retention_durable cs -> 1 < boundary < 2 ^ 64 ->
  boundary <= sequence_retention_watermark cs ->
  exists s n' cs', prune_all outcomes n boundary cs = Some (s, n', cs') /\
    cs_impl cs' = cs_impl cs /\ recovery_required cs' = recovery_required cs /\
    group_commit_max_batch_bytes cs' = group_commit_max_batch_bytes cs /\
    retention_durable cs' /\
    (forall k, cf_get k (meta_cf cs') <> cf_get k (meta_cf cs) ->
       prunable boundary k /\ cf_get k (meta_cf cs') = None /\
       retention_covers (meta_cf cs') boundary) /\
    (s = StatusOK -> boundary <= sequence_retention_watermark cs' /\
       forall k, prunable boundary k -> cf_get k (meta_cf cs') = None).
Proof.
  intros Hdb Hdur Hb Hge.
  destruct (prune_all_spec outcomes n boundary cs Hdb) as (s & n' & cs' & E & Hp & Hs); [lia|].
  assert (cs_impl cs' = cs_impl cs /\ recovery_required cs' = recovery_required cs /\
          group_commit_max_batch_bytes cs' = group_commit_max_batch_bytes cs /\
          sequence_retention_watermark cs' = sequence_retention_watermark cs)
    as (E1 & E2 & E3 & E4).
  { destruct Hp as (-> & _ & Hf & _). cbn in Hf. destruct cs as [[] ? ? ? ?]. cbn in *.
    by rewrite Hf. }
  specialize (Hdur ltac:(lia)).
  assert (retention_covers (meta_cf cs') (sequence_retention_watermark cs)) as Hc
    by by eapply pruned_covers.
  exists s, n', cs'. split_and!; try done.
  - intros _. by rewrite E4.
  - intros k Hk. destruct Hp as (_ & _ & _ & Hp). destruct (Hp k) as [|[? ?]]; [done|].
    split_and!; try done. destruct Hc as (v & w & ? & ? & ?). exists v, w.
    split_and!; try done. lia.
  - rewrite E4. auto.
Qed.

Lemma PruneSequenceRecords_OK outcomes n boundary cs :
  db_sorted (cs_db cs) -> retention_durable cs -> 1 < boundary < 2 ^ 64 ->
  exists s n' cs', PruneSequenceRecords outcomes n boundary cs = Some (s, n', cs') /\
    cs_impl cs' = cs_impl cs /\ recovery_required cs' = recovery_required cs /\
    group_commit_max_batch_bytes cs' = group_commit_max_batch_bytes cs /\
    retention_durable cs' /\
    (forall k, k <> EncodeSequenceRetentionWatermarkKey ->
       cf_get k (meta_cf cs') <> cf_get k (meta_cf cs) ->
       prunable boundary k /\ cf_get k (meta_cf cs') = None /\
       retention_covers (meta_cf cs') boundary) /\
    (s = StatusOK -> boundary <= sequence_retention_watermark cs' /\
       forall k, prunable boundary k -> cf_get k (meta_cf cs') = None).
Proof.
  intros Hdb Hdur Hb. unfold PruneSequenceRecords.
  rewrite (proj2 (Z.leb_gt _ _)) by lia.
  destruct (Z.ltb_spec (sequence_retention_watermark cs) boundary) as [Hlt|Hge].
  2: { destruct (prune_all_covered outcomes n boundary cs Hdb Hdur Hb Hge)
         as (s & n' & cs' & E & ? & ? & ? & ? & Hk & Hs).
       exists s, n', cs'. split_and!; try done. intros k _. apply Hk. }
  destruct (raise_retention_spec (outcomes n) boundary cs)
    as (s & cs1 & -> & E1 & E2 & E3 & Hdb1 & Hk1 & Hc1 & Ew & Hok); [done|unfold uint; lia|].
  destruct (decide (s = StatusOK)) as [->|Hne].
  - destruct (prune_all_covered outcomes (S n) boundary cs1 Hdb1)
      as (s & n' & cs' & E & F1 & F2 & F3 & Hd & Hk & Hs); [|done|lia|].
    { intros _. rewrite Ew. by apply Hok. }
    exists s, n', cs'. split_and!; try done; try congruence.
    intros k Hne Hdiff. apply Hk. by rewrite Hk1.
  - exists s, (S n), cs1. split; [by destruct s|]. split_and!; try done.
    + intros Hpos. rewrite Ew in *. destruct Hc1 as [(v & w & ? & ? & ?)| ->]; [|by apply Hdur].
      exists v, w. split_and!; try done. lia.
    + intros k Hk Hdiff. by rewrite Hk1 in Hdiff.
Qed.

Lemma rewritten_sorted : db_sorted (cs_db rewritten_store).
Proof.
  destruct (cs_db rewritten_store) as [f m] eqn:E. vm_compute in E. injection E as <- <-.
  split; repeat constructor.
Qed.

Lemma rewritten_durable : retention_durable rewritten_store.
Proof.
  unfold retention_durable. destruct (sequence_retention_watermark rewritten_store) eqn:E;
    vm_compute in E; [lia|discriminate..].
Qed.

Lemma first_durable : retention_durable first_store.
Proof.
  unfold retention_durable. destruct (sequence_retention_watermark first_store) eqn:E;
    vm_compute in E; [lia|discriminate..].
Qed.

Lemma first_inv :
  commit_inv [(7, sample_write)] (batch_events 7 sample_write ++ sample_events) first_store.
Proof. unfold first_store. exact sample_committed. Qed.

(** ** Properties *)

(** C25: pruning never outruns its watermark.  Whatever the outcomes of its writes are,
    [PruneSequenceRecords] returns and leaves the facts alone; a metadata record that is
    gone afterwards is the record of a sequence below the boundary, and the durable
    retention watermark covers the boundary then; on success every record below the
    boundary is gone and the published watermark is at least the boundary. *)
Theorem PruneSequenceRecords_covered outcomes n boundary cs :
  db_sorted (cs_db cs) -> retention_durable cs -> 1 < boundary < 2 ^ 64 ->
  exists s n' cs', PruneSequenceRecords outcomes n boundary cs = Some (s, n', cs') /\
    facts_cf (cs_impl cs') = facts_cf (cs_impl cs) /\ retention_durable cs' /\
    (forall k, k <> EncodeSequenceRetentionWatermarkKey ->
       cf_get k (meta_cf cs') <> cf_get k (meta_cf cs) ->
       prunable boundary k /\ cf_get k (meta_cf cs') = None /\
       retention_covers (meta_cf cs') boundary) /\
    (s = StatusOK -> boundary <= sequence_retention_watermark cs' /\
       forall k, prunable boundary k -> cf_get k (meta_cf cs') = None).
Proof.
  intros Hdb Hdur Hb. destruct (PruneSequenceRecords_OK outcomes n boundary cs Hdb Hdur Hb)
    as (s & n' & cs' & E & Ei & _ & _ & ? & ? & ?).
  exists s, n', cs'. split_and!; try done. by rewrite Ei.
Qed.

Lemma PruneSequenceRecords_covered_witness :
  exists cs', pruned_sample = Some (StatusOK, 2%nat, cs') /\
    facts_cf (cs_impl cs') = facts_cf (cs_impl rewritten_store) /\
    cf_get (kSequenceMetaPrefix ++ be_bytes 8 7) (meta_cf rewritten_store) <> None /\
    cf_get (kSequenceMetaPrefix ++ be_bytes 8 7) (meta_cf cs') = None /\
    8 <= sequence_retention_watermark cs'.
Proof.
  destruct (PruneSequenceRecords_covered (fun _ => sample_written) 0 8 rewritten_store)
    as (s & n' & cs' & E & Hf & _ & _ & Hok).
  - exact rewritten_sorted.
  - exact rewritten_durable.
  - lia.
  - assert (fst <$> pruned_sample = Some (StatusOK, 2%nat)) as Ev by (vm_compute; reflexivity).
    unfold pruned_sample in *. rewrite E in Ev. injection Ev as -> ->.
    destruct (Hok eq_refl) as [Hw Hnone]. exists cs'.
    split; [exact E|]. split; [exact Hf|]. split; [vm_compute; discriminate|].
    split; [|exact Hw]. apply Hnone. exists 7. split; [lia|reflexivity].
Defined.

(** A retry below the retention watermark is told so.  After a successful prune of a
    store that satisfies the commit invariant, the retry of a transaction committed
    below the boundary fails with an expired snapshot, not with a missing record. *)
Theorem retry_after_prune cf_id outcome ledger events outcomes n n' boundary cs cs' s b :
  commit_inv ledger events cs -> retention_durable cs -> 1 < boundary < 2 ^ 64 ->
  PruneSequenceRecords outcomes n boundary cs = Some (StatusOK, n', cs') ->
  (s, b) ∈ ledger -> s < boundary ->
  EstimateCommitBatchBytes b <= group_commit_max_batch_bytes cs ->
  CommitDirect cf_id outcome (recovered b) None cs'
  = (Fail (SnapshotExpired "commit"
             "sequence record was pruned below the sequence retention watermark"), cs').
Proof.
  intros Hinv Hdur Hb Hprune Hin Hlt Hest.
  destruct (PruneSequenceRecords_OK outcomes n boundary cs (step_sorted _ _ _ Hinv) Hdur Hb)
    as (s' & n1 & cs1 & E & Ei & Er & Em & _ & Hk & Hs).
  rewrite Hprune in E. injection E as <- <- <-. destruct (Hs eq_refl) as [Hw _].
  destruct (inv_entries _ _ _ Hinv s b Hin) as (Hr & Ht & Hv & [(k & v & Ek & Hg & Hd) _] & _).
  assert (cf_get k (meta_cf cs') = Some v) as Hg'.
  { destruct (decide (cf_get k (meta_cf cs') = cf_get k (meta_cf cs))) as [->|Hne]; [done|].
    assert (k <> EncodeSequenceRetentionWatermarkKey /\
            forall q, k <> kSequenceMetaPrefix ++ be_bytes 8 q) as [Hn Hq].
    { unfold EncodeTransactionMetaKey in Ek. destruct (txn_id b =? 0); [done|].
      injection Ek as <-. split; [|intros q]; discriminate. }
    destruct (Hk k Hn Hne) as ((q & _ & Eq) & _). by apply Hq in Eq. }
  unfold CommitDirect, accept_batch.
  change (StoreCommitBatch_Validate (recovered b)) with (StoreCommitBatch_Validate b).
  change (EstimateCommitBatchBytes (recovered b)) with (EstimateCommitBatchBytes b).
  change (txn_id (recovered b)) with (txn_id b).
  change (fresh_transaction_id (recovered b)) with false.
  rewrite Hv, Em, (proj2 (Z.leb_le _ _) Hest), Er, (inv_running _ _ _ Hinv).
  cbn [check require mbind StatusOr_bind negb check_prepared].
  rewrite Ek. cbn [mbind StatusOr_bind]. rewrite Hg'. unfold retry_commit. rewrite Hd.
  cbn [mbind StatusOr_bind outcome_commit_seq]. rewrite (proj2 (Z.leb_gt _ _)) by lia. done.
Qed.

Lemma retry_after_prune_witness :
  exists cs', pruned_first = Some (StatusOK, 2%nat, cs') /\
    CommitDirect sample_cf_id sample_written (recovered sample_write) None cs'
    = (Fail (SnapshotExpired "commit"
               "sequence record was pruned below the sequence retention watermark"), cs').
Proof.
  destruct pruned_first as [[[s n] cs']|] eqn:E; [|vm_compute in E; discriminate].
  assert (fst <$> pruned_first = Some (StatusOK, 2%nat)) as Ev by (vm_compute; reflexivity).
  rewrite E in Ev. injection Ev as -> ->. exists cs'. split; [reflexivity|].
  apply (retry_after_prune sample_cf_id sample_written [(7, sample_write)]
           (batch_events 7 sample_write ++ sample_events) (fun _ => sample_written) 0 2 8
           first_store cs' 7 sample_write).
  - exact first_inv.
  - exact first_durable.
  - lia.
  - exact E.
  - by left.
  - lia.
  - vm_compute. discriminate.
Defined.
