(* ===== verification/Retention.v ===== *)
(** * Retention: snapshots and the vacuum

    Models the part of [src/storage/rocks/rocks_adapter.cc] in which readers open
    snapshots while a vacuum advances the retention boundary: the epochs a snapshot
    holds ([BeginSnapshot], [BeginSnapshotAtCached], the cache of historical epochs)
    and [FactStore::Vacuum] with its two critical sections, the boundary write
    between them and the cleanup behind them.

    A definition is one critical section of [epoch_mutex] or of the cache mutex; the
    step relation interleaves them with commits, which [publisher_mutex] keeps apart
    from a vacuum.  An epoch holds the facts of its engine snapshot.  Reference
    counts are the multiplicities of the lists of holders; how an epoch's memory is
    reclaimed is not modelled here.  The lock-free pin is one step, at the load that
    finds the epoch still current.  The preview of the checks that [BeginSnapshot] and
    [BeginSnapshotAtCached] make before they take the lock is left out: it may only
    refuse a reader, and the same checks follow under the lock.  A commit is its
    successful publication; one whose write fails publishes nothing and keeps later
    commits and vacuums out until the store is reopened. *)

From S2P Require Import Prelude Status Crc32c Wire Value Fact FactCodec CommitBatch.
From S2P Require Import Frame MetaCodec PreparedCodec GroupCommit Bloom RecentWrites.
From S2P Require Import ValidationCache Accelerators Temporal FactStore Conflict.
From S2P Require Import WriteBatch Commit Vacuum SequenceRetention.

(** ** Epochs *)

Record SnapshotEpoch := mkSnapshotEpoch {
  epoch_seq : Z;
  epoch_facts : column_family
}.

#[export] Instance SnapshotEpoch_eq_dec : EqDecision SnapshotEpoch.
Proof. solve_decision. Defined.

(** Where a vacuum is: nowhere, between its two critical sections, or cleaning. *)
Inductive VacuumControl :=
| vacuum_idle
| vacuum_reserved (target : Z)
| vacuum_cleaning (state : VacuumState).

Record RetentionStore := mkRetentionStore {
  rs_commit : CommitStore;
  oldest_readable_seq : Z;
  pending_vacuum_oldest : Z;
  current_epoch : option SnapshotEpoch;
  reader_epochs : list SnapshotEpoch;
  as_of_cache : list SnapshotEpoch;
  vacuum_control : VacuumControl
}.

Definition rs_visible (rs : RetentionStore) : Z := visible_seq (cs_impl (rs_commit rs)).
Definition rs_facts (rs : RetentionStore) : column_family :=
  facts_cf (cs_impl (rs_commit rs)).

Definition with_commit (cs : CommitStore) (rs : RetentionStore) : RetentionStore :=
  mkRetentionStore cs (oldest_readable_seq rs) (pending_vacuum_oldest rs)
    (current_epoch rs) (reader_epochs rs) (as_of_cache rs) (vacuum_control rs).

Definition with_control (c : VacuumControl) (rs : RetentionStore) : RetentionStore :=
  mkRetentionStore (rs_commit rs) (oldest_readable_seq rs) (pending_vacuum_oldest rs)
    (current_epoch rs) (reader_epochs rs) (as_of_cache rs) c.

Definition with_boundaries (oldest pending : Z) (rs : RetentionStore) : RetentionStore :=
  mkRetentionStore (rs_commit rs) oldest pending (current_epoch rs) (reader_epochs rs)
    (as_of_cache rs) (vacuum_control rs).

Definition with_epochs (current : option SnapshotEpoch)
    (readers cached : list SnapshotEpoch) (rs : RetentionStore) : RetentionStore :=
  mkRetentionStore (rs_commit rs) (oldest_readable_seq rs) (pending_vacuum_oldest rs)
    current readers cached (vacuum_control rs).

Definition CreateEpochLocked (seq : Z) (rs : RetentionStore) : SnapshotEpoch :=
  mkSnapshotEpoch seq (rs_facts rs).

Definition EffectiveOldestReadableLocked (rs : RetentionStore) : Z :=
  Z.max (oldest_readable_seq rs) (pending_vacuum_oldest rs).

(** The epoch of the visible sequence, shared when it is already there. *)
Definition PinCurrentEpochLocked (rs : RetentionStore) : RetentionStore :=
  let created := CreateEpochLocked (rs_visible rs) rs in
  let epoch :=
    match current_epoch rs with
    | Some e => if epoch_seq e =? rs_visible rs then e else created
    | None => created
    end in
  with_epochs (Some epoch) (epoch :: reader_epochs rs) (as_of_cache rs) rs.

Definition CreateUncachedEpochLocked (seq : Z) (rs : RetentionStore) : RetentionStore :=
  with_epochs (current_epoch rs) (CreateEpochLocked seq rs :: reader_epochs rs)
    (as_of_cache rs) rs.

Definition below_boundary : Status :=
  SnapshotExpired "snapshot" "sequence is below retention boundary".
Definition exceeds_watermark : Status :=
  InvalidArgument "snapshot" "sequence exceeds visible watermark".

(** The check of the boundary, in the critical section that registers the epoch. *)
Definition check_sequence (sequence : Z) (rs : RetentionStore) : StatusOr unit :=
  _ ← require (EffectiveOldestReadableLocked rs <=? sequence) below_boundary;
  require (sequence <=? rs_visible rs) exceeds_watermark.

Definition BeginSnapshot (as_of : option Z) (rs : RetentionStore)
  : StatusOr RetentionStore :=
  let sequence := match as_of with Some s => s | None => rs_visible rs end in
  _ ← check_sequence sequence rs;
  Ok (match as_of with
      | None => PinCurrentEpochLocked rs
      | Some _ => CreateUncachedEpochLocked sequence rs
      end).

(** The first critical section of [BeginSnapshotAtCached]. *)
Definition register_at (sequence : Z) (rs : RetentionStore)
  : StatusOr RetentionStore :=
  _ ← check_sequence sequence rs;
  Ok (if sequence =? rs_visible rs then PinCurrentEpochLocked rs
      else CreateUncachedEpochLocked sequence rs).

(** ** The cache of historical epochs *)

Definition kAsOfCacheSlots : nat := 8.

Definition remove_one (e : SnapshotEpoch) (l : list SnapshotEpoch)
  : list SnapshotEpoch :=
  match list_find (e =.) l with Some (i, _) => delete i l | None => l end.

(** The entry with the smallest sequence. *)
Definition oldest_entry (l : list SnapshotEpoch) : option SnapshotEpoch :=
  fold_left (fun slot e =>
    match slot with
    | None => Some e
    | Some s => if epoch_seq e <? epoch_seq s then Some e else slot
    end) l None.

Definition cached_at (sequence : Z) (rs : RetentionStore) : option SnapshotEpoch :=
  snd <$> list_find (fun e => epoch_seq e = sequence) (as_of_cache rs).

(** The second critical section: the creator's epoch goes into the cache, in place of
    the oldest entry when it is full, unless the sequence is cached already; the
    reader ends up with the cached one. *)
Definition insert_as_of (e : SnapshotEpoch) (rs : RetentionStore) : RetentionStore :=
  match cached_at (epoch_seq e) rs with
  | Some winner =>
      with_epochs (current_epoch rs) (winner :: remove_one e (reader_epochs rs))
        (as_of_cache rs) rs
  | None =>
      let kept :=
        if (length (as_of_cache rs) <? kAsOfCacheSlots)%nat then as_of_cache rs
        else match oldest_entry (as_of_cache rs) with
             | Some slot => remove_one slot (as_of_cache rs)
             | None => as_of_cache rs
             end in
      with_epochs (current_epoch rs) (reader_epochs rs) (e :: kept) rs
  end.

(** A hit of the cache on the lock-free path: no check of the boundary. *)
Definition hit_as_of (sequence : Z) (rs : RetentionStore) : option RetentionStore :=
  (fun e => with_epochs (current_epoch rs) (e :: reader_epochs rs) (as_of_cache rs) rs)
    <$> cached_at sequence rs.

(** The epoch the reader ends up with is the first of [reader_epochs]. *)
Definition BeginSnapshotAtCached (sequence : Z) (rs : RetentionStore)
  : StatusOr RetentionStore :=
  rs' ← register_at sequence rs;
  Ok (if sequence =? rs_visible rs then rs'
      else match reader_epochs rs' with
           | e :: _ => insert_as_of e rs'
           | [] => rs'
           end).

(** The lock-free pin, at the load that finds the epoch still current. *)
Definition TryPinCurrentEpochLockFree (rs : RetentionStore) : option RetentionStore :=
  (fun e => with_epochs (current_epoch rs) (e :: reader_epochs rs) (as_of_cache rs) rs)
    <$> current_epoch rs.

Definition BeginCurrentSnapshot (rs : RetentionStore) : StatusOr RetentionStore :=
  match TryPinCurrentEpochLockFree rs with
  | Some rs' => Ok rs'
  | None => BeginSnapshot None rs
  end.

Definition ClearAsOfCache (rs : RetentionStore) : RetentionStore :=
  with_epochs (current_epoch rs) (reader_epochs rs) [] rs.

Definition ReleaseEpochRef (e : SnapshotEpoch) (rs : RetentionStore) : RetentionStore :=
  with_epochs (current_epoch rs) (remove_one e (reader_epochs rs)) (as_of_cache rs) rs.

(** A pinned epoch of another sequence is released again. *)
Definition pin_exact (sequence : Z) (rs : RetentionStore)
  : RetentionStore * option RetentionStore :=
  match TryPinCurrentEpochLockFree rs with
  | Some rs' =>
      match reader_epochs rs' with
      | e :: _ =>
          if epoch_seq e =? sequence then (rs', Some rs') else (ReleaseEpochRef e rs', None)
      | [] => (rs', None)
      end
  | None => (rs, None)
  end.

Definition BeginCurrentSnapshotAt (sequence : Z) (rs : RetentionStore)
  : StatusOr RetentionStore :=
  _ ← require (oldest_readable_seq rs <=? sequence) below_boundary;
  _ ← require (sequence <=? rs_visible rs) exceeds_watermark;
  if sequence =? rs_visible rs then
    match pin_exact sequence rs with
    | (_, Some rs') => Ok rs'
    | (rs', None) => BeginSnapshotAtCached sequence rs'
    end
  else
    match hit_as_of sequence rs with
    | Some rs' => Ok rs'
    | None => BeginSnapshotAtCached sequence rs
    end.

(** The epochs with a reference other than the store's own. *)
Definition OldestActiveEpochSeqLocked (rs : RetentionStore) : option Z :=
  epoch_seq <$> oldest_entry (reader_epochs rs ++ as_of_cache rs).

(** ** The vacuum *)

Definition outside_range : Status :=
  InvalidArgument "vacuum" "target is outside readable range".
Definition snapshot_pinned : Status :=
  SnapshotPinned "vacuum" "active snapshot predates target".

(** The first critical section: the scan and the reservation. *)
Definition VacuumReserve (oldest_readable : Z) (rs : RetentionStore)
  : Status * RetentionStore :=
  let pinned :=
    match OldestActiveEpochSeqLocked rs with
    | Some oldest_active => oldest_active <? oldest_readable
    | None => false
    end in
  if pinned then (snapshot_pinned, rs)
  else (StatusOK, with_control (vacuum_reserved oldest_readable)
                    (with_boundaries (oldest_readable_seq rs) oldest_readable rs)).

Definition indeterminate_recovery (s : Status) (cs : CommitStore) : CommitStore :=
  if IsIndeterminate s then require_recovery cs else cs.

(** The write of the boundary; the second critical section publishes it, and the guard
    drops the reservation when it was not written. *)
Definition VacuumPublish (outcome : WriteOutcome) (oldest_readable : Z)
    (rs : RetentionStore) : Status * RetentionStore :=
  let unreserved := with_boundaries (oldest_readable_seq rs) 0 in
  match
    state ← EncodeVacuumState (mkVacuumState oldest_readable kPrepared []);
    watermark ← EncodeWatermark oldest_readable;
    Ok [Put kMetaCf EncodeVacuumStateKey state;
        Put kMetaCf EncodeOldestReadableWatermarkKey watermark]
  with
  | Fail s => (s, with_control vacuum_idle (unreserved rs))
  | Ok ops =>
      match write_metadata outcome ops (rs_commit rs) with
      | (StatusOK, cs) =>
          (StatusOK,
           with_control (vacuum_cleaning (mkVacuumState oldest_readable kPrepared []))
             (with_boundaries oldest_readable 0 (with_commit cs rs)))
      | (s, cs) =>
          (s, with_control vacuum_idle
                (unreserved (with_commit (indeterminate_recovery s cs) rs)))
      end
  end.

(** One round of the cleanup, with the cursor read back. *)
Definition VacuumRound (outcome : WriteOutcome) (state : VacuumState)
    (rs : RetentionStore) : Status * RetentionStore :=
  match DeleteObsoleteFactVersions outcome state (rs_commit rs) with
  | (Fail s, cs) =>
      (s, with_control vacuum_idle (with_commit (indeterminate_recovery s cs) rs))
  | (Ok true, cs) => (StatusOK, with_control vacuum_idle (with_commit cs rs))
  | (Ok false, cs) =>
      match
        encoded ← from_option (cf_get EncodeVacuumStateKey (meta_cf cs))
                    (NotFound "read vacuum cursor" "NotFound: ");
        DecodeVacuumState encoded
      with
      | Fail s => (s, with_control vacuum_idle (with_commit (indeterminate_recovery s cs) rs))
      | Ok state => (StatusOK, with_control (vacuum_cleaning state) (with_commit cs rs))
      end
  end.

(** The opt-in pruning at the end of a vacuum. *)
Definition run_sequence_prune (prune_sequence_records_on_vacuum : bool)
    (outcomes : nat -> WriteOutcome) (n : nat) (boundary : Z) (rs : RetentionStore)
  : option (Status * RetentionStore) :=
  if negb prune_sequence_records_on_vacuum then Some (StatusOK, rs)
  else
    '(pruned, _, cs) ← PruneSequenceRecords outcomes n boundary (rs_commit rs);
    Some (pruned, with_commit (indeterminate_recovery pruned cs) rs).

(** The part of a vacuum behind the reservation. *)
Definition vacuum_to (prune : bool) (outcomes : nat -> WriteOutcome) (oldest_readable : Z)
    (rs : RetentionStore) : option (Status * RetentionStore) :=
  match VacuumPublish (outcomes 0%nat) oldest_readable rs with
  | (StatusOK, rs) =>
      '(cleaned, n, cs) ← ResumeVacuum outcomes 1
                            (mkVacuumState oldest_readable kPrepared []) (rs_commit rs);
      let rs := with_control vacuum_idle
                  (with_commit (indeterminate_recovery cleaned cs) rs) in
      match cleaned with
      | StatusOK => run_sequence_prune prune outcomes n oldest_readable rs
      | s => Some (s, rs)
      end
  | (s, rs) => Some (s, rs)
  end.

Definition Vacuum (prune : bool) (outcomes : nat -> WriteOutcome) (oldest_readable : Z)
    (rs : RetentionStore) : option (Status * RetentionStore) :=
  if recovery_required (rs_commit rs) then
    Some (RecoveryRequired "vacuum" "reopen required after indeterminate write", rs)
  else if (oldest_readable <? oldest_readable_seq rs) || (rs_visible rs <? oldest_readable)
  then Some (outside_range, rs)
  else if oldest_readable =? oldest_readable_seq rs then
    run_sequence_prune prune outcomes 0 (oldest_readable_seq rs) rs
  else
    match VacuumReserve oldest_readable (ClearAsOfCache rs) with
    | (StatusOK, rs) => vacuum_to prune outcomes oldest_readable rs
    | (s, rs) => Some (s, rs)
    end.

(** ** Interleaving *)

(** The store after a commit, with the epoch of the old sequence retired. *)
Definition commit_published (ops : list WriteOp) (b : StoreCommitBatch)
    (rs : RetentionStore) : RetentionStore :=
  let commit_seq := rs_visible rs + 1 in
  let rs' := with_commit (committed_store ops commit_seq b (rs_commit rs)) rs in
  match current_epoch rs with
  | Some e =>
      if negb (epoch_seq e =? commit_seq)
      then with_epochs None (reader_epochs rs) (as_of_cache rs) rs' else rs'
  | None => rs'
  end.

(** One critical section of some thread; the first component collects all events ever
    committed. *)
Inductive step : list FactEvent * RetentionStore -> list FactEvent * RetentionStore -> Prop :=
| step_commit log rs b prepared_key ops :
    vacuum_control rs = vacuum_idle -> rs_visible rs < U64_MAX ->
    prepared_typed b -> prepared_key_ok b prepared_key ->
    commit_ops b prepared_key (rs_visible rs + 1) = Ok ops ->
    step (log, rs) (batch_events (rs_visible rs + 1) b ++ log, commit_published ops b rs)
| step_open log rs as_of rs' :
    BeginSnapshot as_of rs = Ok rs' -> step (log, rs) (log, rs')
| step_open_at log rs sequence rs' :
    register_at sequence rs = Ok rs' -> step (log, rs) (log, rs')
| step_pin log rs rs' :
    TryPinCurrentEpochLockFree rs = Some rs' -> step (log, rs) (log, rs')
| step_insert log rs e :
    e ∈ reader_epochs rs -> step (log, rs) (log, insert_as_of e rs)
| step_hit log rs sequence rs' :
    hit_as_of sequence rs = Some rs' -> step (log, rs) (log, rs')
| step_close log rs e : step (log, rs) (log, ReleaseEpochRef e rs)
| step_clear log rs : step (log, rs) (log, ClearAsOfCache rs)
| step_reserve log rs target s rs' :
    vacuum_control rs = vacuum_idle ->
    oldest_readable_seq rs < target <= rs_visible rs ->
    VacuumReserve target rs = (s, rs') -> step (log, rs) (log, rs')
| step_publish log rs target outcome s rs' :
    vacuum_control rs = vacuum_reserved target ->
    VacuumPublish outcome target rs = (s, rs') -> step (log, rs) (log, rs')
| step_round log rs state outcome s rs' :
    vacuum_control rs = vacuum_cleaning state ->
    VacuumRound outcome state rs = (s, rs') -> step (log, rs) (log, rs')
| step_prune log rs prune outcomes n s rs' :
    vacuum_control rs = vacuum_idle ->
    run_sequence_prune prune outcomes n (oldest_readable_seq rs) rs = Some (s, rs') ->
    step (log, rs) (log, rs').

(** ** Specification *)

(** The epoch reads as the whole log does at its sequence. *)
Definition epoch_ok (log : list FactEvent) (visible : Z) (e : SnapshotEpoch) : Prop :=
  epoch_seq e <= visible /\
  exists stored, represents (epoch_facts e) stored /\
    forall ref t, effective (history stored ref) (epoch_seq e) t
                  = effective (history log ref) (epoch_seq e) t.

(** The facts are those of the log up to what vacuums removed; a running cleanup
    works on such facts. *)
Definition facts_inv (log : list FactEvent) (rs : RetentionStore) : Prop :=
  match vacuum_control rs with
  | vacuum_cleaning state =>
      0 < oldest_readable_seq rs /\
      exists cf stored, represents cf stored /\
        partly_retained (oldest_readable_seq rs) log stored /\
        vacuum_running (oldest_readable_seq rs) cf state (rs_commit rs)
  | _ =>
      exists stored, represents (rs_facts rs) stored /\
        partly_retained (oldest_readable_seq rs) log stored
  end.

Definition boundaries_inv (rs : RetentionStore) : Prop :=
  0 <= oldest_readable_seq rs <= rs_visible rs /\ rs_visible rs <= U64_MAX /\
  match vacuum_control rs with
  | vacuum_reserved target =>
      pending_vacuum_oldest rs = target /\ oldest_readable_seq rs < target <= rs_visible rs
  | _ => pending_vacuum_oldest rs = 0
  end.

Record retention_inv (s : list FactEvent * RetentionStore) : Prop := {
  ret_sorted : db_sorted (cs_db (rs_commit s.2));
  ret_boundaries : boundaries_inv s.2;
  ret_log : forall e, e ∈ s.1 -> event_commit_seq e <= rs_visible s.2;
  ret_distinct : forall ref, distinct_versions (history s.1 ref);
  ret_facts : facts_inv s.1 s.2;
  ret_current : forall e, current_epoch s.2 = Some e ->
    epoch_seq e = rs_visible s.2 /\ epoch_ok s.1 (rs_visible s.2) e;
  ret_held : forall e, e ∈ reader_epochs s.2 ++ as_of_cache s.2 ->
    oldest_readable_seq s.2 <= epoch_seq e /\ pending_vacuum_oldest s.2 <= epoch_seq e /\
    epoch_ok s.1 (rs_visible s.2) e
}.

(** What opening a snapshot at a sequence does, without interference. *)
Definition opens_at (log : list FactEvent) (sequence : Z) (rs rs' : RetentionStore) : Prop :=
  rtc step (log, rs) (log, rs') /\
  exists e, reader_epochs rs' = e :: reader_epochs rs /\ epoch_seq e = sequence.

(** The sample facts, all readable, with no reader. *)
Definition sample_retention : RetentionStore :=
  mkRetentionStore
    (mkCommitStore (mkFactStoreImpl versioned_cf 6 None None None) [] false 0 4096)
    0 0 None [] [] vacuum_idle.

(** The same with a reader of the visible sequence. *)
Definition sample_reader : RetentionStore :=
  let e := mkSnapshotEpoch 6 versioned_cf in with_epochs (Some e) [e] [] sample_retention.

(** ** Retained events *)

Lemma superseded_mono t1 t2 events events' e :
  t1 <= t2 -> (forall x, x ∈ events -> x ∈ events') ->
  superseded t1 events e -> superseded t2 events' e.
Proof.
  intros Ht Hsub (x & Hx & Hb & H1 & H2)%Exists_exists. apply Exists_exists.
  exists x. split_and!; [by apply Hsub|done|done|lia].
Qed.

Lemma partly_trans t1 t2 log stored stored' :
  t1 <= t2 -> partly_retained t1 log stored -> partly_retained t2 stored stored' ->
  partly_retained t2 log stored'.
Proof.
  intros Ht [Hs1 Hk1] [Hs2 Hk2]. split; [auto|]. intros e He Hno. apply Hk2.
  - apply Hk1; [done|]. intros H. apply Hno. by apply (superseded_mono t1 t2 log).
  - intros H. apply Hno. by apply (superseded_mono t2 t2 stored).
Qed.

Lemma partly_refl t events : partly_retained t events events.
Proof. split; auto. Qed.

Lemma partly_app t log stored new :
  partly_retained t log stored -> partly_retained t (new ++ log) (new ++ stored).
Proof.
  intros [Hs Hk]. split; intros e; rewrite !elem_of_app; [naive_solver|].
  intros [He|He] Hno; [by left|right]. apply Hk; [done|]. intros H. apply Hno.
  eapply superseded_mono; [done| |exact H]. set_solver.
Qed.

(** Later events do not show at a sequence. *)
Lemma effective_newer new log ref s t :
  (forall e, e ∈ new -> s < event_commit_seq e) ->
  effective (history (new ++ log) ref) s t = effective (history log ref) s t.
Proof.
  intros Hnew. unfold effective, history. rewrite filter_app, fold_left_app. f_equal.
  assert (forall e, e ∈ filter (fun e => event_ref e = ref) new -> applies s t e = false) as H.
  { intros e [_ He]%list_elem_of_filter. specialize (Hnew e He). unfold applies.
    by rewrite (proj2 (Z.leb_gt _ _)). }
  induction (filter _ new) as [|e l IH]; [done|]. cbn. unfold effective_step at 2.
  rewrite H by by left. apply IH. intros e' He'. apply H. by right.
Qed.

(** ** Epochs of a store that satisfies the invariant *)

(** A cleanup, done or under way, removes superseded events only. *)
Lemma cleanup_facts target log stored cf cs :
  represents cf stored -> partly_retained target log stored -> db_sorted (cs_db cs) ->
  (vacuum_finished target cf cs \/ exists state, vacuum_running target cf state cs) ->
  exists stored', represents (facts_cf (cs_impl cs)) stored' /\
    partly_retained target log stored'.
Proof.
  intros Hrep Hpart Hdb [[_ ->]|(state & _ & _ & Hprog)].
  - exists (retained target stored). split; [by apply cleaned_represents|].
    eapply partly_trans; [done|exact Hpart|]. unfold retained.
    split; intros e; rewrite list_elem_of_filter; tauto.
  - destruct (progress_pairs _ _ _ _ (represents_facts_ok _ _ Hrep) Hprog) as (H1 & H2 & H3).
    destruct (partly_represents target cf stored (facts_cf (cs_impl cs)))
      as (stored' & Hrep' & Hpart'); try done.
    exists stored'. split; [done|]. by eapply partly_trans; [|done..].
Qed.

Lemma facts_view log rs :
  db_sorted (cs_db (rs_commit rs)) -> facts_inv log rs ->
  exists stored, represents (rs_facts rs) stored /\
    partly_retained (oldest_readable_seq rs) log stored.
Proof.
  intros Hdb H. unfold facts_inv in H. destruct (vacuum_control rs) as [| |state]; [done..|].
  destruct H as (_ & cf & stored & Hrep & Hpart & Hrun).
  apply (cleanup_facts _ log stored cf); try done. right. by exists state.
Qed.

Lemma create_ok s seq :
  retention_inv s -> oldest_readable_seq s.2 <= seq <= rs_visible s.2 ->
  epoch_ok s.1 (rs_visible s.2) (CreateEpochLocked seq s.2).
Proof.
  intros Hinv Hseq. destruct (facts_view _ _ (ret_sorted _ Hinv) (ret_facts _ Hinv))
    as (stored & Hrep & Hpart).
  split; [cbn; lia|]. exists stored. split; [done|]. intros ref t. cbn [epoch_seq CreateEpochLocked].
  apply (effective_partly (oldest_readable_seq s.2)); [by apply ret_distinct|done|lia].
Qed.

Lemma elem_of_remove_one e x l : x ∈ remove_one e l -> x ∈ l.
Proof.
  unfold remove_one. destruct (list_find _ l) as [[i ?]|]; [|done].
  intros (j & Hj)%list_elem_of_lookup. apply list_elem_of_lookup.
  rewrite list_lookup_delete in Hj. case_match; eauto.
Qed.

Lemma cached_at_Some sequence rs e :
  cached_at sequence rs = Some e -> e ∈ as_of_cache rs /\ epoch_seq e = sequence.
Proof.
  unfold cached_at. destruct (list_find _ _) as [[i x]|] eqn:E; [|done].
  intros [= ->]. apply list_find_Some in E as (Hi & ? & _). split; [|done].
  by eapply list_elem_of_lookup_2.
Qed.

Lemma oldest_entry_spec l e :
  e ∈ l -> exists m, oldest_entry l = Some m /\ epoch_seq m <= epoch_seq e.
Proof.
  assert (forall l slot, exists m,
    fold_left (fun slot e => match slot with
      | None => Some e
      | Some s => if epoch_seq e <? epoch_seq s then Some e else slot end) l (Some slot)
    = Some m /\ epoch_seq m <= epoch_seq slot /\ forall x, x ∈ l -> epoch_seq m <= epoch_seq x)
    as H.
  { intros k. induction k as [|a k IH]; intros slot; cbn [fold_left].
    { exists slot. split_and!; [done|lia|]. by intros x ?%not_elem_of_nil. }
    destruct (Z.ltb_spec (epoch_seq a) (epoch_seq slot)).
    - destruct (IH a) as (m & -> & ? & Hm). exists m. split_and!; [done|lia|].
      intros x [->|Hx]%elem_of_cons; [done|by apply Hm].
    - destruct (IH slot) as (m & -> & ? & Hm). exists m. split_and!; [done|lia|].
      intros x [->|Hx]%elem_of_cons; [lia|by apply Hm]. }
  intros He. destruct l as [|a l]; [by apply not_elem_of_nil in He|].
  destruct (H l a) as (m & Em & ? & Hm). exists m. split; [exact Em|].
  apply elem_of_cons in He as [->|He]; [done|by apply Hm].
Qed.

(** ** Preservation: readers *)

Lemma inv_epochs log rs current readers cached :
  retention_inv (log, rs) ->
  (forall e, current = Some e ->
     epoch_seq e = rs_visible rs /\ epoch_ok log (rs_visible rs) e) ->
  (forall e, e ∈ readers ++ cached ->
     oldest_readable_seq rs <= epoch_seq e /\ pending_vacuum_oldest rs <= epoch_seq e /\
     epoch_ok log (rs_visible rs) e) ->
  retention_inv (log, with_epochs current readers cached rs).
Proof. intros [? ? ? ? ? _ _] H1 H2. by split. Qed.

Lemma check_sequence_Ok sequence rs :
  check_sequence sequence rs = Ok tt <->
  oldest_readable_seq rs <= sequence /\ pending_vacuum_oldest rs <= sequence /\
  sequence <= rs_visible rs.
Proof.
  unfold check_sequence, EffectiveOldestReadableLocked. rewrite bind_Ok. split.
  - intros ([] & H1%require_Ok%Z.leb_le & H2%require_Ok%Z.leb_le). lia.
  - intros (? & ? & ?). exists tt. split; apply require_Ok, Z.leb_le; lia.
Qed.

Lemma inv_pin log rs :
  retention_inv (log, rs) -> check_sequence (rs_visible rs) rs = Ok tt ->
  retention_inv (log, PinCurrentEpochLocked rs).
Proof.
  intros Hinv (H1 & H2 & _)%check_sequence_Ok. unfold PinCurrentEpochLocked.
  pose proof (create_ok (log, rs) (rs_visible rs) Hinv ltac:(cbn; lia)) as Hc. cbn in Hc.
  set (e := match current_epoch rs with Some e => _ | None => _ end).
  assert (epoch_seq e = rs_visible rs /\ epoch_ok log (rs_visible rs) e) as [Es He].
  { unfold e. destruct (current_epoch rs) as [e'|] eqn:E; [|done].
    destruct (ret_current _ Hinv e' E) as [Es' ?]. cbn in Es'. rewrite Es', Z.eqb_refl. done. }
  apply inv_epochs; [done|by intros ? [= <-]|]. intros x [->|Hx]%elem_of_cons.
  - rewrite Es. done.
  - by apply (ret_held _ Hinv).
Qed.

Lemma inv_uncached log rs sequence :
  retention_inv (log, rs) -> check_sequence sequence rs = Ok tt ->
  retention_inv (log, CreateUncachedEpochLocked sequence rs).
Proof.
  intros Hinv (H1 & H2 & H3)%check_sequence_Ok.
  apply inv_epochs; [done|by apply (ret_current _ Hinv)|]. intros x [->|Hx]%elem_of_cons.
  - split_and!; [done..|]. by apply (create_ok (log, rs)).
  - by apply (ret_held _ Hinv).
Qed.

Lemma inv_open log rs as_of rs' :
  retention_inv (log, rs) -> BeginSnapshot as_of rs = Ok rs' -> retention_inv (log, rs').
Proof.
  intros Hinv H. unfold BeginSnapshot in H. apply bind_Ok in H as ([] & Hc & H).
  apply Ok_inj in H as <-. destruct as_of; [by apply inv_uncached|by apply inv_pin].
Qed.

Lemma inv_open_at log rs sequence rs' :
  retention_inv (log, rs) -> register_at sequence rs = Ok rs' ->
  retention_inv (log, rs').
Proof.
  intros Hinv H. unfold register_at in H. apply bind_Ok in H as ([] & Hc & H).
  apply Ok_inj in H as <-. destruct (Z.eqb_spec sequence (rs_visible rs)) as [->|];
    [by apply inv_pin|by apply inv_uncached].
Qed.

(** Holders move between readers and the cache. *)
Lemma inv_move log rs readers cached :
  retention_inv (log, rs) ->
  (forall e, e ∈ readers ++ cached -> e ∈ reader_epochs rs ++ as_of_cache rs) ->
  retention_inv (log, with_epochs (current_epoch rs) readers cached rs).
Proof.
  intros Hinv Hsub. apply inv_epochs; [done|by apply (ret_current _ Hinv)|].
  intros e He. by apply (ret_held _ Hinv), Hsub.
Qed.

Lemma inv_insert log rs e :
  retention_inv (log, rs) -> e ∈ reader_epochs rs -> retention_inv (log, insert_as_of e rs).
Proof.
  intros Hinv He. unfold insert_as_of. destruct (cached_at _ rs) as [winner|] eqn:E.
  - apply cached_at_Some in E as [Hw _]. apply inv_move; [done|]. intros x.
    rewrite !elem_of_app, elem_of_cons. intros [[->|Hx%elem_of_remove_one]|Hx]; auto.
  - apply inv_move; [done|]. intros x. rewrite !elem_of_app, elem_of_cons.
    intros [Hx|[->|Hx]]; auto. right. destruct (_ <? _)%nat; [done|].
    destruct (oldest_entry _); [by eapply elem_of_remove_one|done].
Qed.

Lemma inv_hit log rs sequence rs' :
  retention_inv (log, rs) -> hit_as_of sequence rs = Some rs' -> retention_inv (log, rs').
Proof.
  intros Hinv H. unfold hit_as_of in H. destruct (cached_at sequence rs) as [e|] eqn:E; [|done].
  injection H as <-. apply cached_at_Some in E as [He _]. apply inv_move; [done|].
  intros x. rewrite !elem_of_app, elem_of_cons. intros [[->|]|]; auto.
Qed.

Lemma inv_pin_current log rs rs' :
  retention_inv (log, rs) -> TryPinCurrentEpochLockFree rs = Some rs' ->
  retention_inv (log, rs').
Proof.
  intros Hinv H. unfold TryPinCurrentEpochLockFree in H.
  destruct (current_epoch rs) as [e|] eqn:E; [|done]. injection H as <-. rewrite <- E.
  destruct (ret_current _ Hinv e E) as [Es He]. cbn in Es, He.
  apply inv_epochs; [done|by apply (ret_current _ Hinv)|].
  intros x [->|Hx]%elem_of_cons; [|by apply (ret_held _ Hinv)]. rewrite Es.
  destruct (ret_boundaries _ Hinv) as (Hb & _ & Hp). cbn in Hb, Hp.
  split_and!; [lia| |done]. destruct (vacuum_control rs); lia.
Qed.

Lemma inv_close log rs e : retention_inv (log, rs) -> retention_inv (log, ReleaseEpochRef e rs).
Proof.
  intros Hinv. apply inv_move; [done|]. intros x. rewrite !elem_of_app.
  intros [Hx%elem_of_remove_one|]; auto.
Qed.

Lemma inv_clear log rs : retention_inv (log, rs) -> retention_inv (log, ClearAsOfCache rs).
Proof.
  intros Hinv. apply inv_move; [done|]. intros x. rewrite app_nil_r, elem_of_app. auto.
Qed.

(** ** Preservation: the vacuum *)

Lemma inv_update log rs cs oldest pending control :
  let rs' := mkRetentionStore cs oldest pending (current_epoch rs) (reader_epochs rs)
               (as_of_cache rs) control in
  retention_inv (log, rs) -> db_sorted (cs_db cs) -> visible_seq (cs_impl cs) = rs_visible rs ->
  boundaries_inv rs' -> facts_inv log rs' ->
  (forall e, e ∈ reader_epochs rs ++ as_of_cache rs ->
     oldest <= epoch_seq e /\ pending <= epoch_seq e) ->
  retention_inv (log, rs').
Proof.
  intros rs' [? ? Hl Hd ? Hc Hh] Hs Ev Hb Hf Hheld.
  assert (rs_visible rs' = rs_visible rs) as Ev' by exact Ev.
  split; cbn [fst snd]; rewrite ?Ev'; try done.
  intros e He. destruct (Hheld e He). split_and!; try done. by apply Hh.
Qed.

Lemma inv_reserve log rs target s rs' :
  retention_inv (log, rs) -> vacuum_control rs = vacuum_idle ->
  oldest_readable_seq rs < target <= rs_visible rs ->
  VacuumReserve target rs = (s, rs') -> retention_inv (log, rs').
Proof.
  intros Hinv Hidle Ht H. unfold VacuumReserve in H.
  destruct (match OldestActiveEpochSeqLocked rs with Some _ => _ | None => _ end) eqn:E;
    injection H as <- <-; [done|].
  apply (inv_update log rs); [done|apply (ret_sorted _ Hinv)|done|..].
  - destruct (ret_boundaries _ Hinv) as (? & ? & _). by split; [|split; [|split]].
  - pose proof (ret_facts _ Hinv) as Hf. unfold facts_inv in *. cbn in *. by rewrite Hidle in Hf.
  - intros e He. split; [by apply (ret_held _ Hinv)|].
    unfold OldestActiveEpochSeqLocked in E.
    destruct (oldest_entry_spec _ e He) as (m & Em & Hle). rewrite Em in E. cbn in E.
    apply Z.ltb_ge in E. cbn. lia.
Qed.

(** A store without a running cleanup. *)
Lemma inv_idle log rs cs pending :
  retention_inv (log, rs) -> db_sorted (cs_db cs) ->
  visible_seq (cs_impl cs) = rs_visible rs -> pending = 0 ->
  (exists stored, represents (facts_cf (cs_impl cs)) stored /\
     partly_retained (oldest_readable_seq rs) log stored) ->
  retention_inv (log, mkRetentionStore cs (oldest_readable_seq rs) pending (current_epoch rs)
                        (reader_epochs rs) (as_of_cache rs) vacuum_idle).
Proof.
  intros Hinv Hs Hv -> Hst. apply inv_update; try done.
  - destruct (ret_boundaries _ Hinv) as (? & ? & _). unfold boundaries_inv, rs_visible.
    cbn [oldest_readable_seq rs_commit vacuum_control pending_vacuum_oldest]. by rewrite Hv.
  - intros e He. destruct (ret_held _ Hinv e He) as (? & ? & _). cbn in *.
    destruct (ret_boundaries _ Hinv). cbn in *. lia.
Qed.

Lemma indeterminate_recovery_impl s cs :
  cs_impl (indeterminate_recovery s cs) = cs_impl cs /\
  meta_cf (indeterminate_recovery s cs) = meta_cf cs.
Proof. unfold indeterminate_recovery. by destruct (IsIndeterminate s). Qed.

Lemma indeterminate_recovery_db s cs : cs_db (indeterminate_recovery s cs) = cs_db cs.
Proof. unfold cs_db. by destruct (indeterminate_recovery_impl s cs) as [-> ->]. Qed.

(** The same after a failure that may require recovery. *)
Lemma inv_stopped log rs s cs pending :
  retention_inv (log, rs) -> db_sorted (cs_db cs) ->
  visible_seq (cs_impl cs) = rs_visible rs -> pending = 0 ->
  (exists stored, represents (facts_cf (cs_impl cs)) stored /\
     partly_retained (oldest_readable_seq rs) log stored) ->
  retention_inv (log, mkRetentionStore (indeterminate_recovery s cs) (oldest_readable_seq rs)
                        pending (current_epoch rs) (reader_epochs rs) (as_of_cache rs)
                        vacuum_idle).
Proof.
  destruct (indeterminate_recovery_impl s cs) as [Ei _].
  intros. apply (inv_idle log rs); rewrite ?indeterminate_recovery_db, ?Ei; done.
Qed.

(** A write of metadata keeps the facts, whether it is reported as failed or not. *)
Lemma write_metadata_frame outcome ops cs s cs' :
  Forall meta_op ops -> db_sorted (cs_db cs) -> write_metadata outcome ops cs = (s, cs') ->
  db_sorted (cs_db cs') /\ cs_impl cs' = cs_impl cs /\
  (s = StatusOK -> cs' = with_db (db_write (cs_db cs) ops) cs).
Proof.
  intros Hm Hs H.
  assert (cs' = cs \/ cs' = with_db (db_write (cs_db cs) ops) cs) as Hc.
  { unfold write_metadata in H. destruct (write_status outcome), (write_applied outcome);
      injection H as <- <-; auto. }
  assert (s = StatusOK -> cs' = with_db (db_write (cs_db cs) ops) cs) as Hok.
  { intros ->. unfold write_metadata in H. destruct (write_status outcome);
      by injection H. }
  split_and!; [..|done]; destruct Hc as [-> | ->]; try done.
  - by apply db_write_sorted.
  - pose proof (write_meta (cs_db cs) ops Hm) as E. destruct cs as [[] ? ? ? ?]. cbn in *.
    by rewrite E.
Qed.

(** The boundary write starts a cleanup of the facts that are there. *)
Lemma publish_running target state watermark cs :
  uint 64 target -> db_sorted (cs_db cs) ->
  EncodeVacuumState (mkVacuumState target kPrepared []) = Ok state ->
  let ops := [Put kMetaCf EncodeVacuumStateKey state;
              Put kMetaCf EncodeOldestReadableWatermarkKey watermark] in
  vacuum_running target (facts_cf (cs_impl cs)) (mkVacuumState target kPrepared [])
    (with_db (db_write (cs_db cs) ops) cs).
Proof.
  intros Ht Hs Es ops. split; [|split; [done|]].
  - exists state. split; [|by apply (codec_decode (typed := vacuum_typed))].
    pose proof (db_write_get kMetaCf EncodeVacuumStateKey (cs_db cs) ops Hs) as E.
    etrans; [exact E|]. vm_compute. done.
  - exists [], (facts_cf (cs_impl cs)). split_and!; [done..|]. by intros a b ?%not_elem_of_nil.
Qed.

Lemma inv_publish log rs target outcome s rs' :
  retention_inv (log, rs) -> vacuum_control rs = vacuum_reserved target ->
  VacuumPublish outcome target rs = (s, rs') -> retention_inv (log, rs').
Proof.
  intros Hinv Hc H. pose proof (ret_sorted _ Hinv) as Hs. cbn in Hs.
  destruct (ret_boundaries _ Hinv) as (Hb1 & Hb2 & Hb3). cbn in Hb1, Hb2, Hb3.
  rewrite Hc in Hb3. destruct Hb3 as [Hp Ht].
  pose proof (ret_facts _ Hinv) as Hf. unfold facts_inv in Hf. cbn in Hf. rewrite Hc in Hf.
  unfold VacuumPublish in H.
  destruct (EncodeVacuumState _) as [state|s1] eqn:Es.
  2: { cbn in H. injection H as <- <-. by apply (inv_idle log rs). }
  destruct (EncodeWatermark target) as [watermark|s1] eqn:Ew.
  2: { cbn in H. injection H as <- <-. by apply (inv_idle log rs). }
  cbn [mbind StatusOr_bind] in H.
  destruct (write_metadata _ _ _) as [s1 cs] eqn:E.
  apply write_metadata_frame in E as (Hs1 & Ei & Hok); [|by repeat constructor|done].
  destruct (decide (s1 = StatusOK)) as [->|Hno].
  - injection H as <- <-. specialize (Hok eq_refl).
    assert (uint 64 target) as Hu by (unfold uint, U64_MAX in *; lia).
    apply (inv_update log rs); [done|done|exact (f_equal visible_seq Ei)|..].
    + unfold boundaries_inv, rs_visible. cbn. rewrite Ei. fold (rs_visible rs). lia.
    + destruct Hf as (stored & Hrep & Hpart). split; [cbn; lia|].
      exists (rs_facts rs), stored. split_and!; [done|..].
      * eapply partly_trans; [|exact Hpart|apply partly_refl]. cbn. lia.
      * cbn [rs_commit oldest_readable_seq with_control with_boundaries with_commit].
        rewrite Hok. by apply publish_running.
    + intros e He. destruct (ret_held _ Hinv e He) as (? & ? & _). cbn in *. lia.
  - assert (retention_inv (log, with_control vacuum_idle (with_boundaries (oldest_readable_seq rs) 0
              (with_commit (indeterminate_recovery s1 cs) rs)))) as Hgoal.
    { apply (inv_stopped log rs); [done|done|exact (f_equal visible_seq Ei)|done|].
      by rewrite Ei. }
    destruct s1; [done|injection H as <- <-; exact Hgoal..].
Qed.

Lemma inv_round log rs state outcome s rs' :
  retention_inv (log, rs) -> vacuum_control rs = vacuum_cleaning state ->
  VacuumRound outcome state rs = (s, rs') -> retention_inv (log, rs').
Proof.
  intros Hinv Hc H. pose proof (ret_sorted _ Hinv) as Hs. cbn in Hs.
  destruct (ret_boundaries _ Hinv) as (Hb1 & Hb2 & Hb3). cbn in Hb1, Hb2, Hb3.
  rewrite Hc in Hb3. pose proof (ret_facts _ Hinv) as Hf. unfold facts_inv in Hf. cbn in Hf.
  rewrite Hc in Hf. destruct Hf as (Hpos & cf & stored & Hrep & Hpart & Hrun).
  unfold VacuumRound in H.
  destruct (DeleteObsoleteFactVersions_step (oldest_readable_seq rs) outcome state cf (rs_commit rs))
    as (r & cs & E & (Ecs & Hs' & _) & Hr);
    [by eapply represents_facts_ok|unfold uint, U64_MAX in *; lia|lia|done|done|].
  assert (visible_seq (cs_impl cs) = rs_visible rs) as Ev by by rewrite Ecs.
  rewrite E in H. clear E Ecs. destruct r as [[]|s1].
  - injection H as <- <-. apply (inv_idle log rs); try done.
    apply (cleanup_facts _ log stored cf); auto.
  - destruct Hr as (state1 & Hrun1 & _). pose proof Hrun1 as ((enc & Eg & Ed) & _).
    rewrite Eg in H. cbn [from_option mbind StatusOr_bind] in H. rewrite Ed in H.
    injection H as <- <-. apply (inv_update log rs); try done.
    + unfold boundaries_inv, rs_visible. cbn. rewrite Ev. by split; [|split].
    + split; [done|]. by exists cf, stored.
    + intros e He. destruct (ret_held _ Hinv e He) as (? & ? & _). done.
  - destruct Hr as (_ & _ & Hr). injection H as <- <-. apply (inv_stopped log rs); try done.
    by apply (cleanup_facts _ log stored cf).
Qed.

(** Pruning ends, and keeps the facts and the watermark. *)
Lemma PruneSequenceRecords_frame outcomes n boundary cs :
  db_sorted (cs_db cs) -> uint 64 boundary ->
  exists s n' cs', PruneSequenceRecords outcomes n boundary cs = Some (s, n', cs') /\
    db_sorted (cs_db cs') /\ facts_cf (cs_impl cs') = facts_cf (cs_impl cs) /\
    visible_seq (cs_impl cs') = visible_seq (cs_impl cs).
Proof.
  intros Hs Hb.
  assert (forall n cs, db_sorted (cs_db cs) ->
    exists s n' cs', prune_all outcomes n boundary cs = Some (s, n', cs') /\
      db_sorted (cs_db cs') /\ facts_cf (cs_impl cs') = facts_cf (cs_impl cs) /\
      visible_seq (cs_impl cs') = visible_seq (cs_impl cs)) as Hall.
  { intros n1 cs1 Hs1. destruct (prune_all_spec outcomes n1 boundary cs1 Hs1 (proj2 Hb))
      as (s & n' & cs' & E & (Ecs & ? & ? & _) & _).
    exists s, n', cs'. split_and!; try done. by rewrite Ecs. }
  unfold PruneSequenceRecords. destruct (boundary <=? 1); [by eexists _, _, _|].
  destruct (_ <? boundary); [|by apply Hall].
  destruct (raise_retention_spec (outcomes n) boundary cs Hs Hb)
    as (s1 & cs1 & -> & Ei & _ & _ & Hs1 & _). destruct s1.
  - rewrite <- Ei. by apply Hall.
  - eexists _, _, _. split; [done|]. by rewrite Ei.
Qed.

Lemma inv_prune log rs prune outcomes n s rs' :
  retention_inv (log, rs) -> vacuum_control rs = vacuum_idle ->
  run_sequence_prune prune outcomes n (oldest_readable_seq rs) rs = Some (s, rs') ->
  retention_inv (log, rs').
Proof.
  intros Hinv Hc H. unfold run_sequence_prune in H.
  destruct prune; [|by injection H as <- <-]. cbn [negb] in H.
  destruct (ret_boundaries _ Hinv) as (Hb1 & Hb2 & Hb3). cbn in Hb1, Hb2, Hb3. rewrite Hc in Hb3.
  destruct (PruneSequenceRecords_frame outcomes n (oldest_readable_seq rs) (rs_commit rs))
    as (s1 & n1 & cs & E & Hs & Ef & Ev);
    [apply (ret_sorted _ Hinv)|unfold uint, U64_MAX in *; lia|]. rewrite E in H.
  pose proof (ret_facts _ Hinv) as Hf. unfold facts_inv in Hf. cbn in Hf. rewrite Hc in Hf.
  cbn in H. injection H as <- <-. unfold with_commit. rewrite Hc.
  apply (inv_stopped log rs); try done. by rewrite Ef.
Qed.

(** ** Preservation: commits *)

Lemma epoch_ok_commit new log visible e :
  (forall x, x ∈ new -> visible < event_commit_seq x) ->
  epoch_ok log visible e -> epoch_ok (new ++ log) (visible + 1) e.
Proof.
  intros Hnew (Hle & stored & Hrep & He). split; [lia|]. exists stored. split; [done|].
  intros ref t. rewrite He, effective_newer; [done|]. intros x Hx. specialize (Hnew x Hx). lia.
Qed.

Lemma distinct_commit commit_seq new log stored ref cf :
  represents cf (new ++ stored) -> (forall e, e ∈ new -> event_commit_seq e = commit_seq) ->
  (forall e, e ∈ log -> event_commit_seq e < commit_seq) ->
  distinct_versions (history log ref) -> distinct_versions (history (new ++ log) ref).
Proof.
  intros Hrep Hnew Hlog Hd a b. rewrite !elem_of_history, !elem_of_app.
  intros [[Ha|Ha] Ra] [[Hb|Hb] Rb] Ev Es.
  - apply (history_distinct _ _ ref Hrep); rewrite ?elem_of_history, ?elem_of_app; auto.
  - specialize (Hnew a Ha). specialize (Hlog b Hb). lia.
  - specialize (Hnew b Hb). specialize (Hlog a Ha). lia.
  - apply Hd; rewrite ?elem_of_history; auto.
Qed.

Lemma commit_published_frame log rs ops b :
  retention_inv (log, rs) ->
  let rs' := commit_published ops b rs in
  rs_visible rs' = rs_visible rs + 1 /\
  rs_commit rs' = committed_store ops (rs_visible rs + 1) b (rs_commit rs) /\
  oldest_readable_seq rs' = oldest_readable_seq rs /\
  pending_vacuum_oldest rs' = pending_vacuum_oldest rs /\
  vacuum_control rs' = vacuum_control rs /\ reader_epochs rs' = reader_epochs rs /\
  as_of_cache rs' = as_of_cache rs /\ current_epoch rs' = None.
Proof.
  intros Hinv. unfold commit_published.
  destruct (current_epoch rs) as [e|] eqn:E; [|by rewrite <- E].
  destruct (ret_current _ Hinv e E) as [Es _]. cbn in Es.
  by rewrite (proj2 (Z.eqb_neq _ _)) by lia.
Qed.

Lemma inv_commit log rs b prepared_key ops :
  retention_inv (log, rs) -> vacuum_control rs = vacuum_idle -> rs_visible rs < U64_MAX ->
  prepared_typed b -> prepared_key_ok b prepared_key ->
  commit_ops b prepared_key (rs_visible rs + 1) = Ok ops ->
  retention_inv (batch_events (rs_visible rs + 1) b ++ log, commit_published ops b rs).
Proof.
  intros Hinv Hc Hmax Hb Hkey Hops. destruct (ret_boundaries _ Hinv) as (Hb1 & Hb2 & Hb3).
  cbn in Hb1, Hb2, Hb3. rewrite Hc in Hb3.
  pose proof (ret_facts _ Hinv) as Hf. unfold facts_inv in Hf. cbn in Hf. rewrite Hc in Hf.
  destruct Hf as (stored & Hrep & Hpart). pose proof (ret_sorted _ Hinv) as Hs. cbn in Hs.
  pose proof (ret_log _ Hinv) as Hlog. cbn in Hlog.
  set (new := batch_events (rs_visible rs + 1) b).
  assert (forall e, e ∈ new -> event_commit_seq e = rs_visible rs + 1) as Hnew
    by apply batch_events_seq.
  assert (represents (db_facts (db_write (cs_db (rs_commit rs)) ops)) (new ++ stored)) as Hrep'.
  { apply (commit_facts b prepared_key); [done|unfold uint, U64_MAX in *; lia|done|done| |done].
    intros e He%(proj1 Hpart)%Hlog. lia. }
  assert (forall e, epoch_ok log (rs_visible rs) e -> epoch_ok (new ++ log) (rs_visible rs + 1) e)
    as Hepoch by (intros e; apply epoch_ok_commit; intros x Hx%Hnew; lia).
  destruct (commit_published_frame log rs ops b Hinv) as (Ev & Ec & Eo & Ep & Ex & Er & Ea & En).
  rewrite Hb3 in Ep. rewrite Hc in Ex.
  split; cbn [fst snd]; rewrite ?Ev, ?Er, ?Ea, ?Eo, ?Ep.
  - rewrite Ec. by apply (db_write_sorted _ ops) in Hs.
  - unfold boundaries_inv. rewrite Ev, Eo, Ex, Ep. lia.
  - intros e [->%Hnew|He%Hlog]%elem_of_app; lia.
  - intros ref. apply (distinct_commit (rs_visible rs + 1) new log stored ref _ Hrep'); [done| |].
    + intros e He%Hlog. lia.
    + by apply (ret_distinct _ Hinv).
  - unfold facts_inv, rs_facts. rewrite Ex, Ec, Eo. exists (new ++ stored).
    split; [done|by apply partly_app].
  - by rewrite En.
  - intros e He. destruct (ret_held _ Hinv e He) as (H1 & H2 & H3). cbn in *.
    split_and!; [lia|lia|auto].
Qed.

Lemma inv_step s s' : step s s' -> retention_inv s -> retention_inv s'.
Proof.
  destruct 1; intros Hinv; eauto using inv_commit, inv_open, inv_open_at, inv_insert, inv_hit, inv_pin_current,
    inv_close, inv_clear, inv_reserve, inv_publish, inv_round, inv_prune.
Qed.

Lemma inv_steps s s' : rtc step s s' -> retention_inv s -> retention_inv s'.
Proof. induction 1; eauto using inv_step. Qed.

(** What an epoch reads is decided by the events up to its sequence. *)
Lemma epoch_reads log visible e ref t :
  epoch_ok log visible e -> key_ok ref t U64_MAX ->
  Read (mkStoreSnapshot true (epoch_seq e) (epoch_facts e)) ref t
  = Ok (present (effective (history log ref) (epoch_seq e) t)).
Proof.
  intros (_ & stored & Hrep & He) Hk. by rewrite (Read_events _ stored) by done; rewrite <- He.
Qed.

(** ** The vacuum as a sequence of steps *)

Lemma oldest_entry_elem l m : oldest_entry l = Some m -> m ∈ l.
Proof.
  assert (forall l slot, fold_left (fun slot e => match slot with
      | None => Some e
      | Some s => if epoch_seq e <? epoch_seq s then Some e else slot end) l (Some slot)
    = Some m -> m ∈ slot :: l) as H.
  { intros k. induction k as [|a k IH]; intros slot; cbn [fold_left].
    { intros [= ->]. by left. }
    destruct (epoch_seq a <? epoch_seq slot); intros H%IH; set_solver. }
  destruct l as [|a l]; [done|]. apply H.
Qed.

Lemma resume_steps fuel outcomes n state log rs s n' cs :
  vacuum_control rs = vacuum_cleaning state ->
  resume_vacuum fuel outcomes n state (rs_commit rs) = Some (s, n', cs) ->
  rtc step (log, rs)
    (log, with_control vacuum_idle (with_commit (indeterminate_recovery s cs) rs)).
Proof.
  revert n state rs. induction fuel as [|fuel IH]; intros n state rs Hc H; [done|].
  cbn [resume_vacuum] in H.
  destruct (DeleteObsoleteFactVersions (outcomes n) state (rs_commit rs)) as [[[]|s1] cs1] eqn:E.
  - injection H as <- <- <-. apply rtc_once, (step_round log rs state (outcomes n) StatusOK); [done|].
    unfold VacuumRound. by rewrite E.
  - destruct (mbind _ _) as [state1|s1] eqn:Es.
    + eapply rtc_l.
      { apply (step_round log rs state (outcomes n) StatusOK); [done|].
        unfold VacuumRound. by rewrite E, Es. }
      by apply (IH (S n) state1 (with_control (vacuum_cleaning state1) (with_commit cs1 rs))).
    + injection H as <- <- <-. apply rtc_once, (step_round log rs state (outcomes n) s1); [done|].
      unfold VacuumRound. by rewrite E, Es.
  - injection H as <- <- <-. apply rtc_once, (step_round log rs state (outcomes n) s1); [done|].
    unfold VacuumRound. by rewrite E.
Qed.

Lemma run_prune_steps log rs prune outcomes n :
  retention_inv (log, rs) -> vacuum_control rs = vacuum_idle ->
  exists s rs', run_sequence_prune prune outcomes n (oldest_readable_seq rs) rs = Some (s, rs') /\
    rtc step (log, rs) (log, rs') /\ vacuum_control rs' = vacuum_idle /\
    reader_epochs rs' = reader_epochs rs /\
    oldest_readable_seq rs' = oldest_readable_seq rs /\ (prune = false -> s = StatusOK).
Proof.
  intros Hinv Hc. destruct (ret_boundaries _ Hinv) as (Hb1 & Hb2 & _). cbn in Hb1, Hb2.
  assert (exists s rs',
    run_sequence_prune prune outcomes n (oldest_readable_seq rs) rs = Some (s, rs') /\
    vacuum_control rs' = vacuum_idle /\ reader_epochs rs' = reader_epochs rs /\
    oldest_readable_seq rs' = oldest_readable_seq rs /\ (prune = false -> s = StatusOK))
    as (s & rs' & E & ? & ? & ? & ?).
  { unfold run_sequence_prune. destruct prune; cbn [negb]; [|by eexists _, _].
    destruct (PruneSequenceRecords_frame outcomes n (oldest_readable_seq rs) (rs_commit rs))
      as (s1 & n1 & cs & -> & _);
      [apply (ret_sorted _ Hinv)|unfold uint, U64_MAX in *; lia|]. by eexists _, _. }
  exists s, rs'. split_and!; try done. by eapply rtc_once, step_prune.
Qed.

Lemma publish_result log rs target outcome :
  retention_inv (log, rs) -> vacuum_control rs = vacuum_reserved target ->
  exists s rs', VacuumPublish outcome target rs = (s, rs') /\
    reader_epochs rs' = reader_epochs rs /\ (write_status outcome = rocks_ok -> s = StatusOK) /\
    if decide (s = StatusOK)
    then vacuum_control rs' = vacuum_cleaning (mkVacuumState target kPrepared []) /\
         oldest_readable_seq rs' = target
    else vacuum_control rs' = vacuum_idle /\ oldest_readable_seq rs' = oldest_readable_seq rs.
Proof.
  intros Hinv Hc. destruct (ret_boundaries _ Hinv) as (Hb1 & _ & Hb3). cbn in Hb1, Hb3.
  rewrite Hc in Hb3. unfold VacuumPublish.
  destruct (EncodeVacuumState_total target kPrepared []) as [state ->]; [lia|by left|].
  destruct (EncodeWatermark_total target) as [watermark ->]. cbn [mbind StatusOr_bind].
  destruct (write_metadata outcome _ (rs_commit rs)) as [s cs] eqn:E.
  assert (write_status outcome = rocks_ok -> s = StatusOK) as Hok.
  { intros Eo. unfold write_metadata in E. rewrite Eo in E. by injection E. }
  destruct s; eexists _, _; (split; [done|]); by split_and!.
Qed.

Lemma resume_result log rs state outcomes n :
  retention_inv (log, rs) -> vacuum_control rs = vacuum_cleaning state ->
  exists s n' cs, ResumeVacuum outcomes n state (rs_commit rs) = Some (s, n', cs) /\
    ((forall i, write_status (outcomes i) = rocks_ok) -> s = StatusOK).
Proof.
  intros Hinv Hc. destruct (ret_boundaries _ Hinv) as (Hb1 & Hb2 & _). cbn in Hb1, Hb2.
  pose proof (ret_facts _ Hinv) as Hf. unfold facts_inv in Hf. cbn in Hf. rewrite Hc in Hf.
  destruct Hf as (Hpos & cf & stored & Hrep & _ & Hrun).
  destruct (resume_vacuum_spec (oldest_readable_seq rs) cf outcomes
              (S (length (facts_cf (cs_impl (rs_commit rs))))) n state (rs_commit rs))
    as (s & n' & cs & E & _ & _ & _ & Hall); try done.
  - by eapply represents_facts_ok.
  - unfold uint, U64_MAX in *. lia.
  - lia.
  - apply (ret_sorted _ Hinv).
  - destruct Hrun as (_ & _ & past & rest & -> & -> & -> & _).
    rewrite seek_cursor_rest, length_app by by eapply represents_facts_ok. lia.
  - by exists s, n', cs.
Qed.

Lemma vacuum_to_steps log rs prune outcomes target :
  retention_inv (log, rs) -> vacuum_control rs = vacuum_reserved target ->
  exists s rs', vacuum_to prune outcomes target rs = Some (s, rs') /\
    rtc step (log, rs) (log, rs') /\ vacuum_control rs' = vacuum_idle /\
    reader_epochs rs' = reader_epochs rs /\ (s = StatusOK -> oldest_readable_seq rs' = target) /\
    (prune = false -> (forall i, write_status (outcomes i) = rocks_ok) -> s = StatusOK).
Proof.
  intros Hinv Hc. unfold vacuum_to.
  destruct (publish_result log rs target (outcomes 0%nat) Hinv Hc) as (s & rs1 & E & Hr & Hok & Hs).
  assert (step (log, rs) (log, rs1)) as Hstep by by eapply step_publish.
  assert (retention_inv (log, rs1)) as Hinv1 by by eapply inv_step.
  rewrite E. destruct s.
  2: { eexists _, rs1. split; [done|]. destruct Hs. split_and!; try done; [by apply rtc_once|].
       intros _ Hall. by apply Hok. }
  destruct Hs as [Hc1 Eo1].
  destruct (resume_result log rs1 _ outcomes 1 Hinv1 Hc1) as (s & n & cs & Er & Hall).
  rewrite Er. cbn [mbind option_bind].
  pose proof (resume_steps _ _ _ _ log _ _ _ _ Hc1 Er) as Hsteps.
  set (rs2 := with_control vacuum_idle (with_commit (indeterminate_recovery s cs) rs1)) in *.
  assert (rtc step (log, rs) (log, rs2)) as Hrtc by by eapply rtc_l.
  destruct s.
  2: { eexists _, rs2. split; [done|]. split_and!; try done. }
  destruct (run_prune_steps log rs2 prune outcomes n) as (s & rs' & Ep & H1 & H2 & H3 & H4 & H5);
    [by eapply inv_steps|done|].
  replace (oldest_readable_seq rs2) with target in * by done.
  exists s, rs'. split_and!; [done|by etrans|done|by rewrite H3|by rewrite H4|auto].
Qed.

Lemma Vacuum_steps log rs prune outcomes target :
  retention_inv (log, rs) -> vacuum_control rs = vacuum_idle ->
  exists s rs', Vacuum prune outcomes target rs = Some (s, rs') /\
    rtc step (log, rs) (log, rs') /\ vacuum_control rs' = vacuum_idle /\
    reader_epochs rs' = reader_epochs rs /\
    (s = StatusOK -> oldest_readable_seq rs' = target) /\
    (prune = false -> recovery_required (rs_commit rs) = false ->
     oldest_readable_seq rs <= target <= rs_visible rs ->
     (forall e, e ∈ reader_epochs rs -> target <= epoch_seq e) ->
     (forall i, write_status (outcomes i) = rocks_ok) -> s = StatusOK).
Proof.
  intros Hinv Hc. unfold Vacuum.
  destruct (recovery_required (rs_commit rs)) eqn:Err; [by eexists _, _|].
  destruct ((target <? _) || _) eqn:Erange.
  { eexists _, _. split; [done|]. split_and!; try done. intros _ _ Hr _ _.
    apply orb_true_iff in Erange as [?%Z.ltb_lt|?%Z.ltb_lt]; lia. }
  apply orb_false_iff in Erange as [Hlo%Z.ltb_ge Hhi%Z.ltb_ge].
  destruct (Z.eqb_spec target (oldest_readable_seq rs)) as [->|Hne].
  { destruct (run_prune_steps log rs prune outcomes 0 Hinv Hc)
      as (s & rs' & E & H1 & H2 & H3 & H4 & H5). exists s, rs'. split_and!; auto. }
  assert (step (log, rs) (log, ClearAsOfCache rs)) as Hclear by constructor.
  pose proof (inv_step _ _ Hclear Hinv) as Hinv1.
  destruct (VacuumReserve target (ClearAsOfCache rs)) as [s rs1] eqn:E.
  assert (step (log, ClearAsOfCache rs) (log, rs1)) as Hreserve
    by (eapply step_reserve; [exact Hc| |exact E];
        change (oldest_readable_seq rs < target <= rs_visible rs); lia).
  unfold VacuumReserve in E. destruct (match OldestActiveEpochSeqLocked _ with
    Some _ => _ | None => _ end) eqn:Ep; injection E as <- <-.
  - eexists _, _. split; [done|]. split_and!; try done; [by apply rtc_once|].
    intros _ _ _ Hr _. unfold OldestActiveEpochSeqLocked in Ep.
    destruct (oldest_entry _) as [m|] eqn:Em; [|done]. cbn in Ep. apply Z.ltb_lt in Ep.
    apply oldest_entry_elem in Em. cbn in Em. rewrite app_nil_r in Em. specialize (Hr m Em). lia.
  - pose proof (inv_step _ _ Hreserve Hinv1) as Hinv2.
    edestruct (vacuum_to_steps log _ prune outcomes target Hinv2)
      as (s & rs' & Ev & H1 & H2 & H3 & H4 & H5); [done|].
    exists s, rs'. split_and!; try done; [|by auto]. eapply rtc_l; [done|]. by eapply rtc_l.
Qed.

(** ** Opening a snapshot at a sequence *)

Lemma register_at_opens log sequence rs :
  check_sequence sequence rs = Ok tt ->
  exists rs', register_at sequence rs = Ok rs' /\ as_of_cache rs' = as_of_cache rs /\
    opens_at log sequence rs rs'.
Proof.
  intros Hc.
  assert (forall rs', register_at sequence rs = Ok rs' -> rtc step (log, rs) (log, rs')) as Hstep
    by by intros; eapply rtc_once, step_open_at.
  unfold register_at in *. rewrite Hc in *. cbn [mbind StatusOr_bind] in *.
  eexists. split; [done|]. destruct (Z.eqb_spec sequence (rs_visible rs)) as [->|].
  - split; [done|]. split; [by apply Hstep|]. eexists. split; [done|].
    destruct (current_epoch rs) as [e|]; [|done]. by destruct (Z.eqb_spec (epoch_seq e) (rs_visible rs)).
  - split; [done|]. split; [by apply Hstep|]. by eexists.
Qed.

Lemma at_cached_opens log sequence rs :
  check_sequence sequence rs = Ok tt ->
  (sequence <> rs_visible rs -> cached_at sequence rs = None) ->
  exists rs', BeginSnapshotAtCached sequence rs = Ok rs' /\ opens_at log sequence rs rs'.
Proof.
  intros Hc Hmiss. destruct (register_at_opens log sequence rs Hc)
    as (rs' & E & Ea & Hsteps & e & Er & Es). unfold BeginSnapshotAtCached. rewrite E.
  cbn [mbind StatusOr_bind]. rewrite Er. eexists. split; [done|].
  destruct (Z.eqb_spec sequence (rs_visible rs)) as [|Hne]; [by split; [|exists e]|].
  specialize (Hmiss Hne). split.
  - eapply rtc_r; [done|]. apply step_insert. rewrite Er. by left.
  - exists e. split; [|done]. unfold insert_as_of.
    assert (cached_at (epoch_seq e) rs' = None) as -> by (unfold cached_at in *; by rewrite Es, Ea).
    done.
Qed.

Lemma pin_opens log rs rs' :
  retention_inv (log, rs) -> TryPinCurrentEpochLockFree rs = Some rs' ->
  opens_at log (rs_visible rs) rs rs'.
Proof.
  intros Hinv H. split; [by apply rtc_once, step_pin|].
  unfold TryPinCurrentEpochLockFree in H. destruct (current_epoch rs) as [e|] eqn:E; [|done].
  injection H as <-. exists e. split; [done|]. by apply (ret_current _ Hinv).
Qed.

(** An open succeeds exactly in the readable range. *)
Lemma current_at_opens log sequence rs :
  retention_inv (log, rs) -> check_sequence sequence rs = Ok tt ->
  exists rs', BeginCurrentSnapshotAt sequence rs = Ok rs' /\ opens_at log sequence rs rs'.
Proof.
  intros Hinv Hc. pose proof Hc as (H1 & H2 & H3)%check_sequence_Ok.
  unfold BeginCurrentSnapshotAt. rewrite !(proj2 (Z.leb_le _ _)) by done.
  cbn [require mbind StatusOr_bind].
  destruct (Z.eqb_spec sequence (rs_visible rs)) as [->|Hne].
  - unfold pin_exact. destruct (TryPinCurrentEpochLockFree rs) as [rs'|] eqn:E.
    + pose proof (pin_opens log rs rs' Hinv E) as Hopen. pose proof Hopen as (_ & e & -> & ->).
      rewrite Z.eqb_refl. by exists rs'.
    + by apply at_cached_opens.
  - unfold hit_as_of. destruct (cached_at sequence rs) as [e|] eqn:E; cbn [fmap option_fmap option_map].
    + eexists. split; [done|]. split.
      * apply rtc_once, (step_hit _ _ sequence). unfold hit_as_of. by rewrite E.
      * exists e. split; [done|]. by apply cached_at_Some in E as [_ ?].
    + by apply at_cached_opens.
Qed.

Lemma current_at_refuses log sequence rs s :
  retention_inv (log, rs) -> check_sequence sequence rs = Fail s ->
  BeginCurrentSnapshotAt sequence rs = Fail s.
Proof.
  intros Hinv Hc. pose proof Hc as Hc'. unfold BeginCurrentSnapshotAt.
  destruct (ret_boundaries _ Hinv) as (Hb & _ & Hp). cbn in Hb, Hp.
  assert (pending_vacuum_oldest rs <= rs_visible rs) as Hpend by (destruct (vacuum_control rs); lia).
  unfold check_sequence, EffectiveOldestReadableLocked in Hc'.
  destruct (Z.leb_spec (Z.max (oldest_readable_seq rs) (pending_vacuum_oldest rs)) sequence)
    as [H1|H1]; cbn [require mbind StatusOr_bind] in Hc'.
  { destruct (Z.leb_spec sequence (rs_visible rs)); [done|].
    rewrite (proj2 (Z.leb_le (oldest_readable_seq rs) sequence)) by lia. by injection Hc' as <-. }
  destruct (Z.leb_spec (oldest_readable_seq rs) sequence) as [H2|H2]; [|by injection Hc' as <-].
  rewrite (proj2 (Z.leb_le sequence (rs_visible rs))) by lia. cbn [require mbind StatusOr_bind].
  rewrite (proj2 (Z.eqb_neq _ _)) by lia. unfold hit_as_of.
  destruct (cached_at sequence rs) as [e|] eqn:E.
  - apply cached_at_Some in E as [He Es].
    destruct (ret_held _ Hinv e) as (_ & H & _); [by apply elem_of_app; right|]. cbn in H. lia.
  - cbn. unfold BeginSnapshotAtCached, register_at. by rewrite Hc.
Qed.

(** ** Samples *)

Lemma sample_retention_inv : retention_inv (versioned_events, sample_retention).
Proof.
  split.
  - split; [apply versioned_represents|constructor].
  - by vm_compute.
  - intros e He. cbn in *. repeat (apply elem_of_cons in He as [->|He]; [by vm_compute|]).
    by apply not_elem_of_nil in He.
  - intros ref. eapply history_distinct, versioned_represents.
  - exists versioned_events. split; [apply versioned_represents|apply partly_refl].
  - done.
  - by intros e ?%not_elem_of_nil.
Qed.

Lemma sample_open : BeginSnapshot None sample_retention = Ok sample_reader.
Proof. done. Qed.

Lemma sample_reader_inv : retention_inv (versioned_events, sample_reader).
Proof. by eapply inv_open; [apply sample_retention_inv|apply sample_open]. Qed.

(** ** Properties *)

(** C11: whatever the interleaving of commits, readers that open and close snapshots,
    the cache of historical epochs, and the critical sections and cleanup rounds of
    vacuums, with any of their writes failing or left in doubt: every snapshot that is
    held, by a reader or by the cache, lies between the retention boundary and the
    visible sequence, and reads, for every fact and valid time, what all events ever
    committed give at its sequence. *)
Theorem held_snapshot_reads s s' :
  retention_inv s -> rtc step s s' ->
  retention_inv s' /\
  forall e, e ∈ reader_epochs s'.2 ++ as_of_cache s'.2 ->
    oldest_readable_seq s'.2 <= epoch_seq e <= rs_visible s'.2 /\
    forall ref t, key_ok ref t U64_MAX ->
      Read (mkStoreSnapshot true (epoch_seq e) (epoch_facts e)) ref t
      = Ok (present (effective (history s'.1 ref) (epoch_seq e) t)).
Proof.
  intros Hinv Hsteps. pose proof (inv_steps _ _ Hsteps Hinv) as Hinv'. split; [done|].
  intros e He. destruct (ret_held _ Hinv' e He) as (H1 & _ & Hok). split; [split; [done|apply Hok]|].
  intros ref t Hk. by eapply epoch_reads.
Qed.

Lemma held_snapshot_reads_witness :
  exists rs', rtc step (versioned_events, sample_retention) (versioned_events, rs') /\
    pending_vacuum_oldest rs' = 5 /\
    Read (mkStoreSnapshot true 6 versioned_cf) (event_ref (sample_version 10 6 None)) 15
    = Ok (present (effective (history versioned_events
                    (event_ref (sample_version 10 6 None))) 6 15)).
Proof.
  set (rs' := with_control (vacuum_reserved 5) (with_boundaries 0 5 sample_reader)).
  assert (rtc step (versioned_events, sample_retention) (versioned_events, rs')) as Hsteps.
  { eapply rtc_l; [eapply (step_open _ _ None), sample_open|].
    by apply rtc_once, (step_reserve _ _ 5 StatusOK). }
  exists rs'. split; [exact Hsteps|]. split; [done|].
  destruct (held_snapshot_reads _ _ sample_retention_inv Hsteps) as [_ H].
  apply (H (mkSnapshotEpoch 6 versioned_cf)); [by left|by vm_compute].
Defined.

(** Opening a snapshot at a sequence, over the lock-free pin, the cache or a new
    epoch, succeeds exactly when the sequence is neither below the retention boundary,
    with the target a vacuum has reserved, nor above the visible sequence, and reports
    which of the two it is.  The reader then holds an epoch of exactly that sequence,
    whose reads are those of all events ever committed. *)
Theorem BeginCurrentSnapshotAt_spec log rs sequence :
  retention_inv (log, rs) ->
  match BeginCurrentSnapshotAt sequence rs with
  | Ok rs' =>
      Z.max (oldest_readable_seq rs) (pending_vacuum_oldest rs) <= sequence <= rs_visible rs /\
      rtc step (log, rs) (log, rs') /\
      exists e, reader_epochs rs' = e :: reader_epochs rs /\ epoch_seq e = sequence /\
        forall ref t, key_ok ref t U64_MAX ->
          Read (mkStoreSnapshot true sequence (epoch_facts e)) ref t
          = Ok (present (effective (history log ref) sequence t))
  | Fail s =>
      (s = below_boundary /\
       sequence < Z.max (oldest_readable_seq rs) (pending_vacuum_oldest rs)) \/
      (s = exceeds_watermark /\ rs_visible rs < sequence)
  end.
Proof.
  intros Hinv. destruct (check_sequence sequence rs) as [[]|s] eqn:Hc.
  - destruct (current_at_opens log sequence rs Hinv Hc) as (rs' & -> & Hsteps & e & Er & Es).
    apply check_sequence_Ok in Hc. split; [lia|]. split; [done|]. exists e.
    split_and!; [done..|]. intros ref t Hk.
    pose proof (inv_steps _ _ Hsteps Hinv) as Hinv'.
    destruct (ret_held _ Hinv' e) as (_ & _ & Hok).
    { cbn [snd]. rewrite Er. by left. }
    rewrite <- Es. by eapply epoch_reads.
  - rewrite (current_at_refuses log sequence rs s Hinv Hc).
    unfold check_sequence, EffectiveOldestReadableLocked in Hc.
    destruct (Z.leb_spec (Z.max (oldest_readable_seq rs) (pending_vacuum_oldest rs)) sequence);
      cbn in Hc; [right|left; by injection Hc as <-].
    destruct (Z.leb_spec sequence (rs_visible rs)); [done|]. by injection Hc as <-.
Qed.

Lemma BeginCurrentSnapshotAt_spec_witness :
  exists rs' e, BeginCurrentSnapshotAt 4 sample_reader = Ok rs' /\
    reader_epochs rs' = e :: reader_epochs sample_reader /\ epoch_seq e = 4.
Proof.
  pose proof (BeginCurrentSnapshotAt_spec versioned_events sample_reader 4 sample_reader_inv) as H.
  destruct (BeginCurrentSnapshotAt 4 sample_reader) as [rs'|s] eqn:E.
  - destruct H as (_ & _ & e & Er & Es & _). exists rs', e. split; [reflexivity|]. by split.
  - vm_compute in E. discriminate.
Defined.

(** C24: a vacuum ends, whatever its writes report, and is one run of the steps above.
    Afterwards no vacuum is under way and the readers are the same.  Success means
    that the boundary is the target.  A reader below the target keeps the vacuum from
    succeeding.  A target in the readable range that no reader precedes is reached
    when all writes succeed and records are not pruned. *)
Theorem Vacuum_refines log rs prune outcomes target :
  retention_inv (log, rs) -> vacuum_control rs = vacuum_idle ->
  exists s rs', Vacuum prune outcomes target rs = Some (s, rs') /\
    rtc step (log, rs) (log, rs') /\ vacuum_control rs' = vacuum_idle /\
    reader_epochs rs' = reader_epochs rs /\
    (s = StatusOK -> oldest_readable_seq rs' = target) /\
    (forall e, e ∈ reader_epochs rs -> epoch_seq e < target -> s <> StatusOK) /\
    (prune = false -> recovery_required (rs_commit rs) = false ->
     oldest_readable_seq rs <= target <= rs_visible rs ->
     (forall e, e ∈ reader_epochs rs -> target <= epoch_seq e) ->
     (forall i, write_status (outcomes i) = rocks_ok) -> s = StatusOK).
Proof.
  intros Hinv Hc. destruct (Vacuum_steps log rs prune outcomes target Hinv Hc)
    as (s & rs' & E & Hsteps & Hi & Hr & Hs & Hok).
  exists s, rs'. split_and!; try done. intros e He Hlt ->.
  pose proof (inv_steps _ _ Hsteps Hinv) as Hinv'.
  destruct (ret_held _ Hinv' e) as (Hle & _); cbn [snd] in *.
  - apply elem_of_app. left. by rewrite Hr.
  - rewrite Hs in Hle by done. lia.
Qed.

Lemma Vacuum_refines_witness :
  exists rs', Vacuum false (fun _ => sample_written) 5 sample_reader = Some (StatusOK, rs') /\
    oldest_readable_seq rs' = 5 /\ vacuum_control rs' = vacuum_idle.
Proof.
  destruct (Vacuum_refines versioned_events sample_reader false (fun _ => sample_written) 5)
    as (s & rs' & E & _ & Hi & _ & Hs & _ & Hok).
  - exact sample_reader_inv.
  - reflexivity.
  - assert (s = StatusOK) as ->.
    { apply Hok; [done|done|vm_compute; split; discriminate| |done].
      intros e [->|H]%elem_of_cons; [vm_compute; discriminate|by apply not_elem_of_nil in H]. }
    exists rs'. split; [exact E|]. split; [by apply Hs|exact Hi].
Defined.
