(* ===== verification/MetaTable.v ===== *)
(** * MetaTable: tables of the metadata column family

    The store keeps several tables in one column family, each under a prefix of its
    own: prepared transactions, abort terminals, external decisions, property
    definitions and so on ([src/storage/rocks/meta_codec.cc],
    [src/storage/rocks/async_transaction_codec.cc]).  This file says what it means
    for the column family to hold a finite map as such a table, how single writes and
    prefix scans act on it, and which tables the writes of a commit leave alone. *)

From S2P Require Import Prelude Status Crc32c Wire Value Fact FactCodec CommitBatch.
From S2P Require Import Frame MetaCodec PreparedCodec GroupCommit Bloom RecentWrites.
From S2P Require Import ValidationCache Accelerators Temporal FactStore Conflict.
From S2P Require Import WriteBatch Commit Vacuum SequenceRetention Retention.

(** A table: the keys of its rows share a prefix, tell the rows apart and are in the
    order [lt] of the rows. *)
Class MetaTable {K} (prefix : list byte) (typed : K -> Prop)
    (key : K -> StatusOr (list byte)) (lt : K -> K -> Prop) := {
  table_prefix i k : key i = Ok k -> StartsWith k prefix = true;
  table_key_inj i j k : typed i -> typed j -> key i = Ok k -> key j = Ok k -> i = j;
  table_key_lt i j k l : typed i -> typed j -> key i = Ok k -> key j = Ok l ->
    bytes_lt k l -> lt i j
}.

(** The column family holds the map [m] under the prefix, and nothing else there;
    [ok] says which rows there may be. *)
Record table_in {K V} `{Countable K} (prefix : list byte)
    (key : K -> StatusOr (list byte)) (encode : K -> V -> StatusOr (list byte))
    (ok : K -> V -> Prop) (m : gmap K V) (meta : column_family) : Prop := {
  table_rows i x : m !! i = Some x ->
    ok i x /\ exists k v, key i = Ok k /\ encode i x = Ok v /\ cf_get k meta = Some v;
  table_only k v : cf_get k meta = Some v -> StartsWith k prefix = true ->
    exists i x, m !! i = Some x /\ key i = Ok k
}.

(** Two texts that differ where both have a byte. *)
Fixpoint diverge (p q : list byte) : bool :=
  match p, q with
  | x :: p', y :: q' => if bool_decide (x = y) then diverge p' q' else true
  | _, _ => false
  end.

(** An operation that is not on the metadata under the prefix. *)
Definition op_outside (prefix : list byte) (op : WriteOp) : Prop :=
  match op with
  | Put kMetaCf k _ | Delete kMetaCf k => StartsWith k prefix = false
  | _ => True
  end.

(** The families of keys that a commit writes besides the prepared record. *)
Definition commit_prefixes : list (list byte) :=
  [literal "edge/"; literal "txn/"; literal "sequence/"; EncodeVisibleWatermarkKey].

(** A metadata write after which an indeterminate failure closes the store. *)
Definition persist_metadata (outcome : WriteOutcome) (ops : list WriteOp)
    (cs : CommitStore) : Status * CommitStore :=
  let '(status, cs) := write_metadata outcome ops cs in
  (status, indeterminate_recovery status cs).

(** What such a write can come to. *)
Inductive persisted (ops : list WriteOp) (cs : CommitStore)
  : Status -> CommitStore -> Prop :=
| persist_done : persisted ops cs StatusOK (with_db (db_write (cs_db cs) ops) cs)
| persist_refused status : status <> StatusOK -> IsIndeterminate status = false ->
    persisted ops cs status cs
| persist_unknown status (applied : bool) : IsIndeterminate status = true ->
    persisted ops cs status
      (require_recovery (if applied then with_db (db_write (cs_db cs) ops) cs else cs)).

(** ** Prefixes *)

Lemma diverge_outside p q s : diverge p q = true -> StartsWith (p ++ s) q = false.
Proof.
  intros H. apply not_true_iff_false. intros [u E]%StartsWith_true.
  revert q H E. induction p as [|x p IH]; intros [|y q] H E; try done. cbn in *.
  injection E as -> E. rewrite bool_decide_true in H by done. by apply (IH q).
Qed.

Lemma StartsWith_prefix_get prefix cf k v :
  cf_sorted cf ->
  (k, v) ∈ while_prefix prefix (Seek prefix cf) <->
  cf_get k cf = Some v /\ StartsWith k prefix = true.
Proof.
  intros Hs. pose proof (forward_block prefix [] cf Hs) as E. rewrite app_nil_r in E.
  rewrite E, list_elem_of_filter. cbn [fst]. rewrite elem_of_cf by done.
  split; [tauto|]. intros [? Hp]. split_and!; try done.
  apply StartsWith_true in Hp as [s ->]. pose proof (bytes_compare_prefix prefix s) as Hc.
  rewrite bytes_compare_antisym in Hc. intros Hlt. by rewrite Hlt in Hc.
Qed.

Lemma prefix_block_sorted prefix cf :
  cf_sorted cf -> cf_sorted (while_prefix prefix (Seek prefix cf)).
Proof.
  intros Hs. pose proof (forward_block prefix [] cf Hs) as E. rewrite app_nil_r in E.
  rewrite E. by apply cf_sorted_filter.
Qed.

(** Writes outside a prefix leave what is under it. *)
Lemma write_outside prefix db ops k :
  db_sorted db -> Forall (op_outside prefix) ops -> StartsWith k prefix = true ->
  cf_get k (db_meta (db_write db ops)) = cf_get k (db_meta db).
Proof.
  intros Hs Hops Hk. change (db_meta ?d) with (db_cf kMetaCf d).
  rewrite db_write_get by done. apply ops_value_untouched. intros op Hop.
  rewrite Forall_forall in Hops. specialize (Hops op Hop).
  destruct op as [[] k' v|[] k']; cbn in *; rewrite ?bool_decide_false; try done;
    intros [? ->]; congruence.
Qed.

Lemma commit_ops_outside prefix b prepared_key commit_seq ops :
  Forall (fun p => diverge p prefix = true) commit_prefixes ->
  (forall k, prepared_key = Some k -> StartsWith k prefix = false) ->
  commit_ops b prepared_key commit_seq = Ok ops -> Forall (op_outside prefix) ops.
Proof.
  intros Hp Hk Hops. unfold commit_prefixes in Hp. rewrite !Forall_cons in Hp.
  destruct Hp as (He & Ht & Hs & Hw & _).
  destruct (commit_ops_Ok _ _ _ _ Hops) as (core & w & Hc & _ & ->).
  destruct (AppendCandidate_Ok _ _ _ Hc)
    as (facts & records & tk & sk & o & q & -> & Hf & Hr & Htk & Hsk & _ & _).
  rewrite !Forall_app. split_and!.
  - apply Forall_forall. intros op Hop. apply list_elem_of_lookup in Hop as [i Hi].
    by destruct (Forall2_lookup_r _ _ _ _ _ Hf Hi) as (e & _ & v & _ & ->).
  - apply Forall_forall. intros op Hop. apply list_elem_of_lookup in Hop as [i Hi].
    destruct (Forall2_lookup_r _ _ _ _ _ Hr Hi) as (e & _ & k & v & Hek & _ & ->).
    cbn [op_outside]. unfold EncodeEdgeIdentityMetaKey in Hek. case_match; [done|].
    injection Hek as <-. unfold AppendU64, AppendU32. rewrite <- app_assoc.
    by apply diverge_outside.
  - unfold EncodeTransactionMetaKey in Htk. unfold EncodeSequenceMetaKey in Hsk.
    destruct (txn_id b =? 0), (commit_seq =? 0); try done.
    injection Htk as <-. injection Hsk as <-.
    rewrite !Forall_cons. split_and!; [..|done]; cbn [op_outside]; unfold AppendU64;
      by apply diverge_outside.
  - constructor; [|by destruct prepared_key; repeat constructor; apply Hk].
    cbn [op_outside]. rewrite <- (app_nil_r EncodeVisibleWatermarkKey). by apply diverge_outside.
Qed.

(** The deletion of the prepared record comes last. *)
Lemma commit_ops_delete b k commit_seq ops :
  commit_ops b (Some k) commit_seq = Ok ops ->
  exists ops0, commit_ops b None commit_seq = Ok ops0 /\ ops = ops0 ++ [Delete kMetaCf k].
Proof.
  unfold commit_ops. intros H. inv_ok. subst ops. eexists. split; [|].
  - rewrite H0. cbn [mbind StatusOr_bind]. rewrite H1. cbn [mbind StatusOr_bind].
    by rewrite H2.
  - cbn [delete_prepared]. by rewrite app_nil_r, app_assoc.
Qed.

(** ** Rows *)

Section table.

Context {K V : Type} `{Countable K}.
Context (prefix : list byte) (typed : K -> Prop) (key : K -> StatusOr (list byte)).
Context (lt : K -> K -> Prop) `{!MetaTable prefix typed key lt}.
Context (encode : K -> V -> StatusOr (list byte)) (ok : K -> V -> Prop).
Context (ok_typed : forall i x, ok i x -> typed i).

Notation stored := (table_in prefix key encode ok).

(** The keys of a table are outside a prefix that diverges from its own. *)
Lemma table_key_outside p i k :
  key i = Ok k -> diverge prefix p = true -> StartsWith k p = false.
Proof.
  intros Hk Hd. apply table_prefix, StartsWith_true in Hk as [s ->].
  by apply diverge_outside.
Qed.

Lemma table_get (m : gmap K V) meta i k :
  stored m meta -> typed i -> key i = Ok k ->
  match m !! i with
  | Some x => ok i x /\ exists v, encode i x = Ok v /\ cf_get k meta = Some v
  | None => cf_get k meta = None
  end.
Proof.
  intros [Hr Ho] Ht Hk. destruct (m !! i) as [x|] eqn:Ei.
  - destruct (Hr i x Ei) as (? & k' & v & Hk' & ? & ?). split; [done|]. exists v.
    rewrite Hk in Hk'. by injection Hk' as <-.
  - destruct (cf_get k meta) as [v|] eqn:Eg; [|done].
    destruct (Ho k v Eg) as (j & x & Hj & Hjk); [by eapply table_prefix|].
    destruct (Hr j x Hj) as [Hok _].
    rewrite (table_key_inj i j k) in Ei; eauto. congruence.
Qed.

Lemma table_agree (m : gmap K V) meta meta' :
  (forall k, StartsWith k prefix = true -> cf_get k meta' = cf_get k meta) ->
  stored m meta -> stored m meta'.
Proof.
  intros He [Hr Ho]. split.
  - intros i x Hi. destruct (Hr i x Hi) as (? & k & v & Hk & ? & ?). split; [done|].
    exists k, v. rewrite He by by eapply table_prefix. done.
  - intros k v Hg Hp. rewrite He in Hg by done. by eapply Ho.
Qed.

Lemma table_write (m : gmap K V) db ops :
  db_sorted db -> Forall (op_outside prefix) ops ->
  stored m (db_meta db) -> stored m (db_meta (db_write db ops)).
Proof. intros Hs Ho. apply table_agree. intros k. by apply write_outside. Qed.

Lemma table_insert (m : gmap K V) meta i x k v :
  stored m meta -> ok i x -> key i = Ok k -> encode i x = Ok v ->
  stored (<[i := x]> m) (cf_put k v meta).
Proof.
  intros Hm Hok Hk Hv. split.
  - intros j y. rewrite lookup_insert_Some. intros [[<- <-]|[Hne Hj]].
    + split; [done|]. exists k, v. by rewrite cf_get_put, bool_decide_true.
    + destruct (table_rows _ _ _ _ _ _ Hm j y Hj) as (Hjok & k' & v' & Hk' & ? & ?).
      split; [done|]. exists k', v'. rewrite cf_get_put, bool_decide_false; [done|].
      intros <-. apply Hne. eapply table_key_inj; eauto.
  - intros k' v'. rewrite cf_get_put. case_bool_decide as E.
    + intros _ _. subst k'. exists i, x. by rewrite lookup_insert_eq.
    + intros Hg Hp. destruct (table_only _ _ _ _ _ _ Hm k' v' Hg Hp) as (j & y & Hj & Hjk).
      exists j, y. split; [|done]. rewrite lookup_insert_ne; [done|]. congruence.
Qed.

Lemma table_delete (m : gmap K V) meta i k :
  cf_sorted meta -> stored m meta -> typed i -> key i = Ok k ->
  stored (delete i m) (cf_delete k meta).
Proof.
  intros Hs Hm Ht Hk. split.
  - intros j y. rewrite lookup_delete_Some. intros [Hne Hj].
    destruct (table_rows _ _ _ _ _ _ Hm j y Hj) as (Hjok & k' & v' & Hk' & ? & ?).
    split; [done|]. exists k', v'. rewrite cf_get_delete, bool_decide_false; [done| |done].
    intros <-. apply Hne. eapply table_key_inj; eauto.
  - intros k' v'. rewrite cf_get_delete by done. case_bool_decide as E; [done|].
    intros Hg Hp. destruct (table_only _ _ _ _ _ _ Hm k' v' Hg Hp) as (j & y & Hj & Hjk).
    exists j, y. split; [|done]. rewrite lookup_delete_ne; [done|]. congruence.
Qed.

Notation row_at := (fun (row : K * V) (kv : list byte * list byte) =>
  ok row.1 row.2 /\ key row.1 = Ok kv.1 /\ encode row.1 row.2 = Ok kv.2).

Lemma rows_sorted l block :
  cf_sorted block -> Forall2 row_at l block -> StronglySorted (fun a b => lt a.1 b.1) l.
Proof.
  intros Hs. revert l. induction Hs as [|kv block Hs IH Hall]; intros l Hl;
    inversion_clear Hl as [|row ? l' ? Hrow Hl']; constructor; [auto|].
  apply Forall_forall. intros row' [n Hn]%list_elem_of_lookup.
  destruct (Forall2_lookup_l _ _ _ _ _ Hl' Hn) as (kv' & Hkv' & Hok' & Hk' & _).
  destruct Hrow as (Hok & Hk & _). apply list_elem_of_lookup_2 in Hkv'.
  rewrite Forall_forall in Hall. eapply table_key_lt; eauto.
Qed.

Lemma rows_NoDup l block : cf_sorted block -> Forall2 row_at l block -> NoDup l.
Proof.
  intros Hs. revert l. induction Hs as [|kv block Hs IH Hall]; intros l Hl;
    inversion_clear Hl as [|row ? l' ? Hrow Hl']; constructor; [|auto].
  intros [n Hn]%list_elem_of_lookup.
  destruct (Forall2_lookup_l _ _ _ _ _ Hl' Hn) as (kv' & Hkv' & _ & Hk' & _).
  destruct Hrow as (_ & Hk & _). rewrite Hk' in Hk. injection Hk as Ek.
  apply list_elem_of_lookup_2 in Hkv'. rewrite Forall_forall in Hall.
  apply Hall in Hkv'. rewrite Ek in Hkv'. by apply bytes_lt_irrefl in Hkv'.
Qed.

(** The pairs of the column family under the prefix are rows of the table. *)
Lemma rows_exist (m : gmap K V) meta block :
  stored m meta ->
  (forall k v, (k, v) ∈ block -> cf_get k meta = Some v /\ StartsWith k prefix = true) ->
  exists l, Forall2 row_at l block /\ forall row, row ∈ l -> m !! row.1 = Some row.2.
Proof.
  intros Hm. induction block as [|[k v] block IH]; intros Hin.
  { exists []. split; [constructor|]. by intros ? ?%not_elem_of_nil. }
  destruct IH as (l & Hf & Hrows); [intros; apply Hin; by right|].
  destruct (Hin k v) as [Hg Hp]; [by left|].
  destruct (table_only _ _ _ _ _ _ Hm k v Hg Hp) as (i & x & Hi & Hk).
  destruct (table_rows _ _ _ _ _ _ Hm i x Hi) as (Hok & k' & v' & Hk' & Hv & Hg').
  rewrite Hk in Hk'. injection Hk' as <-. rewrite Hg in Hg'. injection Hg' as <-.
  exists ((i, x) :: l). split; [by constructor|]. intros row [->|?]%elem_of_cons; auto.
Qed.

(** A scan of the prefix finds the rows of the table in their order. *)
Lemma table_scan (m : gmap K V) meta :
  cf_sorted meta -> stored m meta ->
  exists l, l ≡ₚ map_to_list m /\ StronglySorted (fun a b => lt a.1 b.1) l /\
    Forall2 row_at l (while_prefix prefix (Seek prefix meta)).
Proof.
  intros Hs Hm. pose proof (prefix_block_sorted prefix meta Hs) as Hsort.
  pose proof (fun k v => StartsWith_prefix_get prefix meta k v Hs) as Hblock.
  destruct (rows_exist m meta (while_prefix prefix (Seek prefix meta)) Hm)
    as (l & Hl & Hin); [intros k v; apply Hblock|].
  exists l. split_and!; [|by eapply rows_sorted|done].
  apply NoDup_Permutation; [by eapply rows_NoDup|apply NoDup_map_to_list|].
  intros [i x]. rewrite elem_of_map_to_list. split; [apply (Hin (i, x))|]. intros Hi.
  destruct (table_rows _ _ _ _ _ _ Hm i x Hi) as (Hok & k & v & Hk & Hv & Hg).
  destruct (proj1 (list_elem_of_lookup _ _) (proj2 (Hblock k v)
    (conj Hg (table_prefix _ _ Hk)))) as [n Hn].
  destruct (Forall2_lookup_r _ _ _ _ _ Hl Hn) as ([j y] & Hj & Hjok & Hjk & _).
  apply list_elem_of_lookup_2 in Hj. pose proof (Hin _ Hj) as Hjin. cbn in *.
  assert (j = i) as -> by eauto using table_key_inj. congruence.
Qed.

End table.

(** Applies a lemma of a table whose prefix the goal names. *)
Tactic Notation "by_table" uconstr(lemma) := eapply lemma; [apply _|..].

(** Tables under eight bytes of an identifier. *)
Lemma u64_table prefix (key : Z -> StatusOr (list byte)) :
  (forall i k, key i = Ok k -> k = AppendU64 prefix i) ->
  MetaTable prefix (uint 64) key Z.lt.
Proof.
  intros Hkey. split.
  - intros i k ->%Hkey. apply StartsWith_app.
  - intros i j k Hi Hj ->%Hkey E%Hkey. unfold AppendU64 in E. apply app_inv_head in E.
    by apply be_bytes_inj in E.
  - intros i j k l Hi Hj ->%Hkey ->%Hkey. unfold AppendU64, bytes_lt.
    rewrite bytes_compare_app, bytes_compare_refl by done. cbn.
    by rewrite bytes_compare_be by done.
Qed.

(** ** Writes *)

(** Metadata other than the records of transactions has no part in the invariant. *)
Lemma commit_inv_metadata ledger events cs ops :
  commit_inv ledger events cs -> Forall meta_op ops ->
  Forall (op_outside (literal "txn/")) ops ->
  Forall (op_outside (literal "sequence/")) ops ->
  commit_inv ledger events (with_db (db_write (cs_db cs) ops) cs).
Proof.
  intros Hinv Hm Ht Hs. pose proof Hinv as [Hst Hmeta Hv Hrun He Ho].
  assert (db_sorted (cs_db cs)) as Hdb by (split; [apply Hst|done]).
  assert (forall txn k, EncodeTransactionMetaKey txn = Ok k ->
    cf_get k (db_meta (db_write (cs_db cs) ops)) = cf_get k (meta_cf cs)) as Et.
  { intros txn k Hk. apply (write_outside (literal "txn/") (cs_db cs)); try done.
    unfold EncodeTransactionMetaKey in Hk. case_match; [done|]. injection Hk as <-.
    apply StartsWith_app. }
  split; try done.
  - pose proof (write_meta (cs_db cs) ops Hm) as E. destruct cs as [[] ? ? ? ?]. cbn in *.
    by rewrite E.
  - apply db_write_sorted, Hdb.
  - intros s b Hin. destruct (He s b Hin) as (? & ? & ? & Hrec & ? & ?).
    refine (conj _ (conj _ (conj _ (conj _ (conj _ _))))); try done.
    eapply recorded_frame; [|exact Hrec]. intros key k [-> | ->] Hk; [by apply (Et (txn_id b))|].
    apply (write_outside (literal "sequence/") (cs_db cs)); try done.
    cbn in Hk. unfold EncodeSequenceMetaKey in Hk. case_match; [done|].
    injection Hk as <-. apply StartsWith_app.
  - intros txn k Ht' Hk Hg. apply (Ho txn k Ht' Hk). by rewrite <- (Et txn).
Qed.

Lemma persist_metadata_spec outcome ops cs status cs' :
  persist_metadata outcome ops cs = (status, cs') ->
  outcome_ok outcome -> persisted ops cs status cs'.
Proof.
  unfold persist_metadata, write_metadata, outcome_ok. intros H Ho.
  destruct (write_status outcome) eqn:E; cbn in H; try rewrite Ho in H;
    injection H as <- <-; try (by constructor);
    by apply (persist_unknown _ _ _ (write_applied outcome)).
Qed.
