(* ===== verification/Prepared.v ===== *)
(** * Prepared: transactions that wait for an external decision

    Models the participant of a two-phase commit: the prepared transactions, the
    terminals and the decisions of [FactStore] ([PersistPreparedCommits],
    [ListPreparedCommits], [FinalizePreparedCommit], [AbortPreparedCommit],
    [PersistPreparedDecision], [ResolvePreparedDecision], [ResolveTransaction],
    [ResolveAsyncTransaction] of [src/storage/rocks/rocks_adapter.cc]), the calls of
    [Database] on top of them and the recovery of prepared transactions when a
    database is opened ([src/kernel/database.cc]).

    A call is one step: the store's calls hold the publisher lock, the calls of
    [Database] hold its mutex.  The outcomes of the writes and of the synchronization
    of the log are arguments.  A finalization is alone in its commit group. *)

From S2P Require Import Prelude Status Crc32c Wire Value Fact FactCodec CommitBatch.
From S2P Require Import Frame MetaCodec PreparedCodec GroupCommit Bloom RecentWrites.
From S2P Require Import ValidationCache Accelerators Temporal FactStore Conflict.
From S2P Require Import WriteBatch Commit GroupedCommit Transaction Vacuum.
From S2P Require Import SequenceRetention Retention MetaTable.

#[export] Instance StorePreparedDecisionOutcome_eq_dec :
  EqDecision StorePreparedDecisionOutcome.
Proof. solve_decision. Defined.

#[export] Instance StorePreparedDecision_eq_dec : EqDecision StorePreparedDecision.
Proof. solve_decision. Defined.

(** ** The store *)

Definition check_prepare_ids (txn_ids : gset Z) (b : StoreCommitBatch)
  : StatusOr (gset Z) :=
  let '(inserted, txn_ids) := emplace (txn_id b) txn_ids in
  _ ← require inserted (InvalidArgument "async prepare" "duplicate transaction ID");
  Ok txn_ids.

Definition check_prepares (batches : list StoreCommitBatch) : StatusOr unit :=
  _ ← require (negb (length batches =? 0)%nat)
        (InvalidArgument "async prepare" "missing prepared batches");
  _ ← loop (fun _ b => check (StoreCommitBatch_Validate b)) tt batches;
  _ ← loop check_prepare_ids ∅ batches;
  Ok tt.

Definition prepare_batch (meta : column_family) (ops : list WriteOp)
    (b : StoreCommitBatch) : StatusOr (list WriteOp) :=
  key ← EncodePreparedCommitKey (txn_id b);
  value ← EncodePreparedCommit b;
  match cf_get key meta with
  | Some existing =>
      if bool_decide (existing = value) then Ok ops
      else Fail (Conflict "async prepare" "transaction ID belongs to a different batch")
  | None =>
      transaction_key ← EncodeTransactionMetaKey (txn_id b);
      match cf_get transaction_key meta with
      | Some _ => Fail (Conflict "async prepare" "transaction ID is already committed")
      | None => Ok (ops ++ [Put kMetaCf key value])
      end
  end.

Definition PersistPreparedCommits (outcome : WriteOutcome)
    (batches : list StoreCommitBatch) (cs : CommitStore) : Status * CommitStore :=
  match
    _ ← check_prepares batches;
    _ ← require (negb (recovery_required cs))
          (RecoveryRequired "async prepare" "reopen required after indeterminate write");
    loop (prepare_batch (meta_cf cs)) [] batches
  with
  | Fail s => (s, cs)
  | Ok [] => (StatusOK, cs)
  | Ok ops => persist_metadata outcome ops cs
  end.

Definition list_prepare (batches : list StoreCommitBatch) (kv : list byte * list byte)
  : StatusOr (list StoreCommitBatch) :=
  decoded ← DecodePreparedCommit kv.2;
  _ ← require match EncodePreparedCommitKey (txn_id decoded) with
              | Ok key => bool_decide (key = kv.1)
              | Fail _ => false
              end (Corruption "async prepare" "prepare key disagrees with record");
  Ok (batches ++ [decoded]).

Definition ListPreparedCommits (cs : CommitStore) : StatusOr (list StoreCommitBatch) :=
  loop list_prepare []
    (while_prefix PreparedCommitPrefix (Seek PreparedCommitPrefix (meta_cf cs))).

(** [grouped] is whether the options ask for group commits; the request is the only
    one of its group. *)
Definition FinalizePreparedCommit (cf_id : ColumnFamily -> Z) (outcome : WriteOutcome)
    (grouped sync : bool) (b : StoreCommitBatch) (cs : CommitStore)
  : StatusOr StoreCommitResult * CommitStore :=
  match EncodePreparedCommitKey (txn_id b) with
  | Fail s => (Fail s, cs)
  | Ok key =>
      if grouped then
        match accept_batch cs b with
        | Fail s => (Fail s, cs)
        | Ok _ =>
            let '(results, cs) :=
              lead_group cf_id outcome [] [mkGroupCommitRequest b (Some key) sync] cs in
            (hd (Fail reopen_required) results, cs)
        end
      else CommitDirect cf_id outcome b (Some key) cs
  end.

Definition SynchronizeWal (synced : RocksStatus) : Status :=
  FromRocksDb synced "sync fact store WAL".

Definition AbortPreparedCommit (outcome : WriteOutcome) (txn : Z) (cs : CommitStore)
  : Status * CommitStore :=
  match
    prepare_key ← EncodePreparedCommitKey txn;
    terminal_key ← EncodeAsyncTerminalKey txn;
    terminal_value ← EncodeAsyncAbortTerminal txn;
    Ok [Put kMetaCf terminal_key terminal_value; Delete kMetaCf prepare_key]
  with
  | Fail s => (s, cs)
  | Ok ops => persist_metadata outcome ops cs
  end.

Definition certificate_differs (context : string) : Status :=
  Conflict context "terminal certificate differs".

Definition PersistPreparedDecision (outcome : WriteOutcome) (d : StorePreparedDecision)
    (cs : CommitStore) : Status * CommitStore :=
  match
    decision_key ← EncodePreparedDecisionKey (decision_txn_id d);
    decision_value ← EncodePreparedDecision d;
    match cf_get decision_key (meta_cf cs) with
    | Some existing =>
        if bool_decide (existing = decision_value) then Ok []
        else Fail (certificate_differs "prepared decision")
    | None =>
        prepare_key ← EncodePreparedCommitKey (decision_txn_id d);
        _ ← from_option (cf_get prepare_key (meta_cf cs))
              (NotFound "prepared decision" "transaction is not prepared");
        Ok [Put kMetaCf decision_key decision_value]
    end
  with
  | Fail s => (s, cs)
  | Ok [] => (StatusOK, cs)
  | Ok ops => persist_metadata outcome ops cs
  end.

Definition ResolvePreparedDecision (txn : Z) (cs : CommitStore)
  : StatusOr (option StorePreparedDecision) :=
  key ← EncodePreparedDecisionKey txn;
  match cf_get key (meta_cf cs) with
  | None => Ok None
  | Some encoded =>
      decoded ← DecodePreparedDecision encoded;
      _ ← require (decision_txn_id decoded =? txn)
            (Corruption "prepared decision" "decision key disagrees with record");
      Ok (Some decoded)
  end.

Definition read_retention (meta : column_family) : StatusOr Z :=
  match cf_get EncodeSequenceRetentionWatermarkKey meta with
  | None => Ok 0
  | Some encoded => DecodeWatermark encoded
  end.

Definition ResolveTransaction (txn : Z) (cs : CommitStore)
  : StatusOr (option StoreCommitResult) :=
  _ ← require (negb (txn =? 0)) (InvalidArgument "transaction" "zero transaction ID");
  transaction_key ← EncodeTransactionMetaKey txn;
  match cf_get transaction_key (meta_cf cs) with
  | None => Ok None
  | Some encoded_outcome =>
      outcome ← DecodeTransactionOutcome encoded_outcome;
      let commit_seq := outcome_commit_seq outcome in
      encoded_visible ← from_option (cf_get EncodeVisibleWatermarkKey (meta_cf cs))
                          (Corruption "transaction" "visible watermark is missing");
      visible ← DecodeWatermark encoded_visible;
      if (visible <? commit_seq) || (visible_seq (cs_impl cs) <? commit_seq) then Ok None
      else
        retention_watermark ← read_retention (meta_cf cs);
        _ ← require (retention_watermark <=? commit_seq)
              (SnapshotExpired "transaction"
                 "sequence record was pruned below the sequence retention watermark");
        sequence_key ← EncodeSequenceMetaKey commit_seq;
        encoded_sequence ← from_option (cf_get sequence_key (meta_cf cs))
                             (Corruption "transaction" "outcome is missing sequence record");
        sequence ← DecodeSequenceRecord encoded_sequence commit_seq;
        _ ← require ((seq_txn_id sequence =? txn)
                     && (seq_commit_seq sequence =? commit_seq))
              (Corruption "transaction" "outcome and sequence disagree");
        Ok (Some (mkStoreCommitResult commit_seq (seq_system_hlc sequence)))
  end.

Inductive StoreAsyncCommitOutcome := async_committed | async_aborted.

Record StoreAsyncCommitResult := mkStoreAsyncCommitResult {
  async_outcome : StoreAsyncCommitOutcome;
  async_commit_seq : Z;
  async_txn_id : Z
}.

Definition ResolveAsyncTransaction (txn : Z) (cs : CommitStore)
  : StatusOr (option StoreAsyncCommitResult) :=
  committed ← ResolveTransaction txn cs;
  match committed with
  | Some r =>
      Ok (Some (mkStoreAsyncCommitResult async_committed (result_commit_seq r) txn))
  | None =>
      terminal_key ← EncodeAsyncTerminalKey txn;
      match cf_get terminal_key (meta_cf cs) with
      | None => Ok None
      | Some encoded =>
          decoded ← DecodeAsyncAbortTerminal encoded;
          _ ← require (decoded =? txn)
                (Corruption "async terminal" "terminal key disagrees with record");
          Ok (Some (mkStoreAsyncCommitResult async_aborted 0 txn))
      end
  end.

(** ** The database *)

Record KernelDatabase := mkKernelDatabase {
  kd_closed : bool;
  kd_closing : bool;
  kd_store : CommitStore
}.

Definition with_store (cs : CommitStore) (db : KernelDatabase) : KernelDatabase :=
  mkKernelDatabase (kd_closed db) (kd_closing db) cs.

Record PreparedCommitBatch := mkPreparedCommitBatch {
  pc_txn_id : Z;
  pc_system_hlc : Z;
  pc_events : list FactEvent
}.

Definition store_prepared_event
    (stored : list EdgeIdentity * list PendingFactMutation) (e : FactEvent)
  : StatusOr (list EdgeIdentity * list PendingFactMutation) :=
  _ ← check (FactEvent_Validate e);
  let '(identities, ms) := stored in
  '(identities, ref) ←
    (if bool_decide (ref_family (event_ref e) = kEdgeIdentity) then
       identity ← from_option (event_edge_identity e)
                    (InvalidArgument "prepared commit" "edge identity is missing");
       Ok (identities ++ [identity],
           mkFactRef (edge_home_part_id (edge_ref identity)) kEdgeState 0
             (edge_ref_id (edge_ref identity)))
     else Ok (identities, event_ref e));
  Ok (identities,
      ms ++ [mkPendingFactMutation ref (event_valid_from e) (event_operation e)
               (event_schema_epoch e) (event_value e)]).

Definition ToStorePreparedBatch (b : PreparedCommitBatch) : StatusOr StoreCommitBatch :=
  _ ← require (negb ((pc_txn_id b =? 0) || (pc_system_hlc b =? 0)
                     || (length (pc_events b) =? 0)%nat))
        (InvalidArgument "prepared commit" "invalid batch");
  '(identities, ms) ← loop store_prepared_event ([], []) (pc_events b);
  let stored := mkStoreCommitBatch (pc_txn_id b) (pc_system_hlc b) ms identities
                  [] [] false in
  _ ← check (StoreCommitBatch_Validate stored);
  Ok stored.

Definition public_prepared_event (b : StoreCommitBatch) (m : PendingFactMutation)
  : FactEvent :=
  let identity :=
    if bool_decide (ref_family (mutation_ref m) = kEdgeState) then
      List.find (fun i => (home_part_id i =? ref_part_id (mutation_ref m))
                          && (edge_id i =? ref_entity_id (mutation_ref m)))
        (edge_identities b)
    else None in
  mkFactEvent (mutation_ref m) (mutation_valid_from m) 1 (mutation_operation m)
    (mutation_schema_epoch m) (mutation_value m) identity.

Definition ToPublicPreparedBatch (b : StoreCommitBatch) : PreparedCommitBatch :=
  mkPreparedCommitBatch (txn_id b) (system_hlc b)
    (public_prepared_event b <$> mutations b).

Definition ToCommitResult (txn : Z) (result : StatusOr StoreCommitResult)
  : CommitResult :=
  match result with
  | Ok r => mkCommitResult outcome_committed (result_commit_seq r) txn StatusOK
  | Fail s =>
      mkCommitResult (if IsIndeterminate s || IsRecoveryRequired s
                      then outcome_indeterminate else outcome_aborted) 0 txn s
  end.

Definition database_closing : Status :=
  ShutdownInProgress "database" "database is closing".

Definition require_open (db : KernelDatabase) : StatusOr unit :=
  require (negb (kd_closed db || kd_closing db)) database_closing.

(** The guard of the calls that only read. *)
Definition require_readable (db : KernelDatabase) : StatusOr unit :=
  _ ← require (negb (kd_closed db)) (InvalidArgument "database" "database is closed");
  require (negb (kd_closing db))
    (ShutdownInProgress "database" "database close is in progress").

Definition Database_PersistPreparedCommit (outcome : WriteOutcome)
    (b : PreparedCommitBatch) (db : KernelDatabase) : Status * KernelDatabase :=
  match
    _ ← require_open db;
    terminal ← ResolvePreparedDecision (pc_txn_id b) (kd_store db);
    _ ← require (negb (bool_decide (is_Some terminal)))
          (Conflict "prepared commit" "transaction is terminal");
    ToStorePreparedBatch b
  with
  | Fail s => (s, db)
  | Ok stored =>
      let '(s, cs) := PersistPreparedCommits outcome [stored] (kd_store db) in
      (s, with_store cs db)
  end.

Definition Database_ListPreparedCommits (db : KernelDatabase)
  : StatusOr (list PreparedCommitBatch) :=
  _ ← require_open db;
  stored ← ListPreparedCommits (kd_store db);
  Ok (List.map ToPublicPreparedBatch stored).

Definition ResolvePreparedCommitDecision (txn : Z) (db : KernelDatabase)
  : StatusOr (option (StorePreparedDecisionOutcome * list byte)) :=
  _ ← require_readable db;
  resolved ← ResolvePreparedDecision txn (kd_store db);
  Ok (option_map
        (fun d => (if bool_decide (decision_outcome d = kCommit) then kCommit else kAbort,
                   certificate d)) resolved).

Inductive PreparedFinalizeDurability :=
| kBuffered | kWalSync | kUnknownDurability (raw : Z).

Definition invalid_decision : Status :=
  InvalidArgument "prepared commit" "invalid terminal decision".

(** The decision of a call: one that is there has to be the same, one that is not is
    made durable. *)
Definition decide_prepared (outcome : WriteOutcome) (desired : StorePreparedDecision)
    (cs : CommitStore) : Status * CommitStore :=
  match ResolvePreparedDecision (decision_txn_id desired) cs with
  | Fail s => (s, cs)
  | Ok (Some terminal) =>
      (if bool_decide (terminal = desired) then StatusOK
       else certificate_differs "prepared commit", cs)
  | Ok None => PersistPreparedDecision outcome desired cs
  end.

Record FinalizeOutcomes := mkFinalizeOutcomes {
  decision_write : WriteOutcome;
  commit_write : WriteOutcome;
  wal_sync : RocksStatus
}.

(** The part of [FinalizePreparedCommit] behind the decision. *)
Definition finalize_decided (cf_id : ColumnFamily -> Z) (o : FinalizeOutcomes)
    (grouped wal : bool) (txn : Z) (cs : CommitStore)
  : StatusOr CommitResult * CommitStore :=
  match ListPreparedCommits cs with
  | Fail s => (Fail s, cs)
  | Ok batches =>
      match List.find (fun b => txn_id b =? txn) batches with
      | Some prepared =>
          let '(result, cs) :=
            FinalizePreparedCommit cf_id (commit_write o) grouped wal prepared cs in
          (Ok (ToCommitResult txn result), cs)
      | None =>
          (committed ← ResolveTransaction txn cs;
           result ← from_option committed
                      (NotFound "prepared commit" "transaction is not prepared");
           _ ← (if wal then check (SynchronizeWal (wal_sync o)) else Ok tt);
           Ok (ToCommitResult txn (Ok result)), cs)
      end
  end.

Definition Database_FinalizePreparedCommit (cf_id : ColumnFamily -> Z)
    (o : FinalizeOutcomes) (grouped : bool) (txn : Z) (decision_certificate : list byte)
    (durability : PreparedFinalizeDurability) (db : KernelDatabase)
  : StatusOr CommitResult * KernelDatabase :=
  match
    _ ← require (negb ((txn =? 0) || (length decision_certificate =? 0)%nat))
          invalid_decision;
    wal ← match durability with
          | kBuffered => Ok false
          | kWalSync => Ok true
          | kUnknownDurability _ =>
              Fail (InvalidArgument "prepared commit" "invalid finalize durability")
          end;
    _ ← require_open db;
    Ok wal
  with
  | Fail s => (Fail s, db)
  | Ok wal =>
      let desired := mkStorePreparedDecision txn kCommit decision_certificate in
      match decide_prepared (decision_write o) desired (kd_store db) with
      | (StatusOK, cs) =>
          let '(result, cs) := finalize_decided cf_id o grouped wal txn cs in
          (result, with_store cs db)
      | (s, cs) => (Fail s, with_store cs db)
      end
  end.

Definition Database_AbortPreparedCommit (decision_outcome abort_outcome : WriteOutcome)
    (txn : Z) (decision_certificate : list byte) (db : KernelDatabase)
  : Status * KernelDatabase :=
  match
    _ ← require (negb ((txn =? 0) || (length decision_certificate =? 0)%nat))
          invalid_decision;
    require_open db
  with
  | Fail s => (s, db)
  | Ok _ =>
      let desired := mkStorePreparedDecision txn kAbort decision_certificate in
      match decide_prepared decision_outcome desired (kd_store db) with
      | (StatusOK, cs) =>
          let '(s, cs) := AbortPreparedCommit abort_outcome txn cs in
          (s, with_store cs db)
      | (s, cs) => (s, with_store cs db)
      end
  end.

Definition Database_ResolveTransaction (txn : Z) (db : KernelDatabase)
  : StatusOr (option CommitResult) :=
  _ ← require_readable db;
  resolved ← ResolveTransaction txn (kd_store db);
  match resolved with
  | Some stored =>
      Ok (Some (mkCommitResult outcome_committed (result_commit_seq stored) txn StatusOK))
  | None =>
      async ← ResolveAsyncTransaction txn (kd_store db);
      Ok (option_map
            (fun stored =>
               match async_outcome stored with
               | async_committed =>
                   mkCommitResult outcome_committed (async_commit_seq stored) txn StatusOK
               | async_aborted =>
                   mkCommitResult outcome_aborted (async_commit_seq stored) txn
                     (Conflict "async commit" "validation failed")
               end) async)
  end.

Inductive PreparedCommitRecoveryPolicy := kFinalizeOnOpen | kAwaitExternalDecision.

(** The finalizations of the recovery, with the outcomes of their writes. *)
Fixpoint finalize_all (cf_id : ColumnFamily -> Z) (outcomes : nat -> WriteOutcome)
    (n : nat) (grouped : bool) (batches : list StoreCommitBatch) (cs : CommitStore)
  : StatusOr unit * CommitStore :=
  match batches with
  | [] => (Ok tt, cs)
  | b :: batches' =>
      match FinalizePreparedCommit cf_id (outcomes n) grouped false b cs with
      | (Fail s, cs) => (Fail s, cs)
      | (Ok _, cs) => finalize_all cf_id outcomes (S n) grouped batches' cs
      end
  end.

(** What opening a database does with the prepared transactions of its store. *)
Definition recover_prepared (cf_id : ColumnFamily -> Z) (outcomes : nat -> WriteOutcome)
    (grouped : bool) (policy : PreparedCommitRecoveryPolicy) (cs : CommitStore)
  : StatusOr unit * CommitStore :=
  match ListPreparedCommits cs with
  | Fail s => (Fail s, cs)
  | Ok batches =>
      match policy with
      | kFinalizeOnOpen => finalize_all cf_id outcomes 0 grouped batches cs
      | kAwaitExternalDecision => (Ok tt, cs)
      end
  end.

(** ** Specification *)

Definition kDecisionPrefix : list byte := literal "external/decision/".

(** The rows of the three tables. *)
Definition prepared_row (txn : Z) (b : StoreCommitBatch) : Prop :=
  uint 64 txn /\ txn_id b = txn /\ prepared_typed b /\
  StoreCommitBatch_Validate b = StatusOK /\ fresh_transaction_id b = false.

Definition decision_row (txn : Z) (d : StorePreparedDecision) : Prop :=
  uint 64 txn /\ decision_txn_id d = txn.

Definition terminal_row (txn : Z) (_ : unit) : Prop := uint 64 txn.

(** What a participant remembers: the transactions that wait, the decisions it was
    given and the transactions it has aborted. *)
Record Participant := mkParticipant {
  pt_prepared : gmap Z StoreCommitBatch;
  pt_decisions : gmap Z StorePreparedDecision;
  pt_aborted : gmap Z unit
}.

Record participates (pt : Participant) (meta : column_family) : Prop := {
  pt_prepares : table_in PreparedCommitPrefix EncodePreparedCommitKey
    (fun _ b => EncodePreparedCommit b) prepared_row (pt_prepared pt) meta;
  pt_decides : table_in kDecisionPrefix EncodePreparedDecisionKey
    (fun _ d => EncodePreparedDecision d) decision_row (pt_decisions pt) meta;
  pt_terminates : table_in AsyncTerminalPrefix EncodeAsyncTerminalKey
    (fun txn _ => EncodeAsyncAbortTerminal txn) terminal_row (pt_aborted pt) meta
}.

Definition with_prepared (prepared : gmap Z StoreCommitBatch) (pt : Participant)
  : Participant := mkParticipant prepared (pt_decisions pt) (pt_aborted pt).

Definition with_decision (d : StorePreparedDecision) (pt : Participant) : Participant :=
  mkParticipant (pt_prepared pt) (<[decision_txn_id d := d]> (pt_decisions pt))
    (pt_aborted pt).

Definition with_aborted (txn : Z) (pt : Participant) : Participant :=
  mkParticipant (delete txn (pt_prepared pt)) (pt_decisions pt)
    (<[txn := tt]> (pt_aborted pt)).

Definition committed_in (ledger : list (Z * StoreCommitBatch)) (txn : Z) : Prop :=
  exists s b, (s, b) ∈ ledger /\ txn_id b = txn.

(** The participant keeps to its decisions: no transaction waits that is committed,
    none that was to abort is committed, and one that was to commit is committed or
    waits. *)
Record keeps_decisions (ledger : list (Z * StoreCommitBatch)) (pt : Participant)
  : Prop := {
  keeps_waiting txn b : pt_prepared pt !! txn = Some b -> ~ committed_in ledger txn;
  keeps_decided txn d : pt_decisions pt !! txn = Some d ->
    match decision_outcome d with
    | kCommit => is_Some (pt_prepared pt !! txn) \/ committed_in ledger txn
    | _ => ~ committed_in ledger txn
    end
}.

(** The invariant of a store with prepared transactions.  A store that has to be
    reopened may be behind its database. *)
Record prepared_inv (ledger : list (Z * StoreCommitBatch)) (events : list FactEvent)
    (pt : Participant) (cs : CommitStore) : Prop := {
  pi_sorted : db_sorted (cs_db cs);
  pi_tables : participates pt (meta_cf cs);
  pi_entries s b : (s, b) ∈ ledger -> recorded (meta_cf cs) s b;
  pi_outcomes txn k : uint 64 txn -> EncodeTransactionMetaKey txn = Ok k ->
    is_Some (cf_get k (meta_cf cs)) -> committed_in ledger txn;
  pi_running : recovery_required cs = false -> commit_inv ledger events cs;
  pi_keeps : keeps_decisions ledger pt
}.

(** What may become of the transactions of a participant. *)
Record evolves (ledger : list (Z * StoreCommitBatch)) (pt : Participant)
    (ledger' : list (Z * StoreCommitBatch)) (pt' : Participant) : Prop := {
  ev_ledger e : e ∈ ledger -> e ∈ ledger';
  ev_decisions txn d : pt_decisions pt !! txn = Some d ->
    pt_decisions pt' !! txn = Some d;
  ev_fate txn b : pt_prepared pt !! txn = Some b ->
    pt_prepared pt' !! txn = Some b \/
    exists d, pt_decisions pt' !! txn = Some d /\
      (decision_outcome d = kCommit /\ (exists s, (s, b) ∈ ledger') \/
       decision_outcome d = kAbort)
}.

(** Writes that leave the records of transactions alone. *)
Definition side_ops (ops : list WriteOp) : Prop :=
  Forall meta_op ops /\ Forall (op_outside (literal "txn/")) ops /\
  Forall (op_outside (literal "sequence/")) ops.

(** The participant with further prepared transactions. *)
Definition add_prepared (batches : list StoreCommitBatch) (pt : Participant)
  : Participant :=
  fold_left (fun pt b =>
    with_prepared (<[txn_id b := recovered b]> (pt_prepared pt)) pt) batches pt.

(** The calls on a database with prepared transactions, with the outcomes of their
    writes; [call_commit] is any other transaction. *)
Inductive PreparedCall :=
| call_prepare (outcome : WriteOutcome) (b : PreparedCommitBatch)
| call_finalize (o : FinalizeOutcomes) (txn : Z) (decision_certificate : list byte)
    (durability : PreparedFinalizeDurability)
| call_abort (decision_outcome abort_outcome : WriteOutcome) (txn : Z)
    (decision_certificate : list byte)
| call_commit (outcome : WriteOutcome) (b : StoreCommitBatch).

Definition run_call (cf_id : ColumnFamily -> Z) (grouped : bool) (call : PreparedCall)
    (db : KernelDatabase) : KernelDatabase :=
  match call with
  | call_prepare outcome b => (Database_PersistPreparedCommit outcome b db).2
  | call_finalize o txn certificate durability =>
      (Database_FinalizePreparedCommit cf_id o grouped txn certificate durability db).2
  | call_abort decision_outcome abort_outcome txn certificate =>
      (Database_AbortPreparedCommit decision_outcome abort_outcome txn certificate db).2
  | call_commit outcome b =>
      with_store (CommitDirect cf_id outcome b None (kd_store db)).2 db
  end.

(** The fields have their widths, a write that the engine rejects changes nothing,
    fresh identifiers have no outcome, and other transactions do not use the identifiers
    of prepared or decided ones. *)
Definition call_ok (call : PreparedCall) (db : KernelDatabase) : Prop :=
  match call with
  | call_prepare outcome b =>
      outcome_ok outcome /\ uint 64 (pc_txn_id b) /\ uint 64 (pc_system_hlc b) /\
      Forall event_typed (pc_events b)
  | call_finalize o txn _ _ =>
      outcome_ok (decision_write o) /\ outcome_ok (commit_write o) /\ uint 64 txn
  | call_abort decision_outcome abort_outcome txn _ =>
      outcome_ok decision_outcome /\ outcome_ok abort_outcome /\ uint 64 txn
  | call_commit outcome b =>
      outcome_ok outcome /\ prepared_typed b /\
      fresh_unrecorded (meta_cf (kd_store db)) b /\
      ResolvePreparedDecision (txn_id b) (kd_store db) = Ok None /\
      exists k, EncodePreparedCommitKey (txn_id b) = Ok k /\
                cf_get k (meta_cf (kd_store db)) = None
  end.

Definition call_step (cf_id : ColumnFamily -> Z) (grouped : bool)
    (db db' : KernelDatabase) : Prop :=
  exists call, call_ok call db /\ db' = run_call cf_id grouped call db.

(** A sample: a database with no prepared transactions and a transaction to prepare. *)
Definition sample_prepared_db : KernelDatabase :=
  mkKernelDatabase false false sample_commit_store.

Definition sample_batch : PreparedCommitBatch :=
  mkPreparedCommitBatch 61 2000
    [mkFactEvent (mkFactRef 1 kVertexState 0 95) 30 1 kPut 0 None None].

Definition sample_stored : StoreCommitBatch :=
  mkStoreCommitBatch 61 2000
    [mkPendingFactMutation (mkFactRef 1 kVertexState 0 95) 30 kPut 0 None] [] [] [] false.

Definition no_participants : Participant := mkParticipant ∅ ∅ ∅.

Definition sample_certificate : list byte := literal "txnd=81;term=7;index=23".

Definition sample_outcomes : FinalizeOutcomes :=
  mkFinalizeOutcomes sample_written sample_written rocks_ok.

Definition prepared_sample : KernelDatabase :=
  run_call sample_cf_id false (call_prepare sample_written sample_batch)
    sample_prepared_db.

Definition finalized_sample : KernelDatabase :=
  run_call sample_cf_id false
    (call_finalize sample_outcomes 61 sample_certificate kBuffered) prepared_sample.

(** A crash between the decision to abort and the deletion of the prepared record. *)
Definition interrupted_sample : KernelDatabase :=
  run_call sample_cf_id false
    (call_abort sample_written (mkWriteOutcome (rocks_other "IO error: ") false) 61
       sample_certificate) prepared_sample.

(** The store when the crash comes before the abort. *)
Definition decided_sample : CommitStore :=
  (PersistPreparedDecision sample_written
     (mkStorePreparedDecision 61 kAbort sample_certificate) (kd_store prepared_sample)).2.

(** An edge with its identity fact and its state from valid time 30 on. *)
Definition sample_edge_batch : PreparedCommitBatch :=
  mkPreparedCommitBatch 62 2001
    [mkFactEvent (mkFactRef 1 kEdgeIdentity 0 88) 0 1 kPut 0 None
       (Some (mkEdgeIdentity 88 3 4 2 1 1 6));
     mkFactEvent (mkFactRef 1 kEdgeState 0 88) 30 1 kPut 0 None None].

(** ** Tables *)

#[export] Instance Prepared_table :
  MetaTable PreparedCommitPrefix (uint 64) EncodePreparedCommitKey Z.lt.
Proof.
  apply u64_table. unfold EncodePreparedCommitKey. intros i k H. by case_match; inv_ok.
Qed.

#[export] Instance Decision_table :
  MetaTable kDecisionPrefix (uint 64) EncodePreparedDecisionKey Z.lt.
Proof.
  apply u64_table. unfold EncodePreparedDecisionKey. intros i k H. by case_match; inv_ok.
Qed.

#[export] Instance Terminal_table :
  MetaTable AsyncTerminalPrefix (uint 64) EncodeAsyncTerminalKey Z.lt.
Proof.
  apply u64_table. unfold EncodeAsyncTerminalKey. intros i k H. by case_match; inv_ok.
Qed.

Lemma prepared_row_typed txn b : prepared_row txn b -> uint 64 txn.
Proof. by intros [? _]. Qed.

Lemma decision_row_typed txn d : decision_row txn d -> uint 64 txn.
Proof. by intros [? _]. Qed.

Lemma terminal_row_typed txn u : terminal_row txn u -> uint 64 txn.
Proof. done. Qed.

#[export] Hint Resolve prepared_row_typed decision_row_typed terminal_row_typed : cedar.

Lemma recovered_row b txn :
  prepared_row txn b -> recovered b = b.
Proof. intros (_ & _ & _ & _ & E). destruct b. cbn in *. by subst. Qed.

Section tables.

Context (pt : Participant) (cs : CommitStore).
Context (Hsorted : cf_sorted (meta_cf cs)) (Hp : participates pt (meta_cf cs)).

(** The listing: the transactions that wait, in the order of their identifiers. *)
Lemma ListPreparedCommits_OK :
  exists l, ListPreparedCommits cs = Ok l /\
    StronglySorted (fun a b => txn_id a < txn_id b) l /\
    forall b, b ∈ l <-> pt_prepared pt !! txn_id b = Some b.
Proof.
  destruct (table_scan _ _ _ _ _ _ prepared_row_typed _ _ Hsorted (pt_prepares _ _ Hp))
    as (rows & Hperm & Hsort & Hrows).
  assert (forall acc, loop list_prepare acc
    (while_prefix PreparedCommitPrefix (Seek PreparedCommitPrefix (meta_cf cs)))
    = Ok (acc ++ rows.*2)) as Hloop.
  { clear Hperm Hsort. induction Hrows as [|[txn b] [k v] rows block Hrow Hrows IH];
      intros acc; cbn [loop]; [by rewrite app_nil_r|].
    destruct Hrow as (Hrow & Hk & Hv). cbn [fst snd] in *.
    assert (list_prepare acc (k, v) = Ok (acc ++ [b])) as ->.
    { unfold list_prepare. cbn [fst snd].
      rewrite (DecodePreparedCommit_encode b) by (done || apply Hrow).
      cbn [mbind StatusOr_bind]. rewrite (recovered_row b txn Hrow).
      destruct Hrow as (_ & -> & _). by rewrite Hk, bool_decide_true. }
    cbn [mbind StatusOr_bind]. rewrite IH. by rewrite fmap_cons, <- app_assoc. }
  exists rows.*2. split; [exact (Hloop [])|].
  assert (forall row, row ∈ rows -> txn_id row.2 = row.1) as Hid.
  { intros row [i Hi]%list_elem_of_lookup.
    destruct (Forall2_lookup_l _ _ _ _ _ Hrows Hi) as (? & _ & (_ & ? & _) & _). done. }
  split.
  - clear Hperm Hrows Hloop. induction Hsort as [|row rows Hsort IH Hall]; [constructor|].
    rewrite fmap_cons. constructor; [apply IH; intros; apply Hid; by right|].
    apply Forall_forall. intros b (row' & -> & Hin)%list_elem_of_fmap.
    rewrite Forall_forall in Hall. rewrite !Hid by by constructor. by apply Hall.
  - intros b. rewrite list_elem_of_fmap. split.
    + intros ([txn b'] & -> & Hin). rewrite (Hid _ Hin). cbn.
      by rewrite <- elem_of_map_to_list, <- Hperm.
    + intros Hb. exists (txn_id b, b). by rewrite Hperm, elem_of_map_to_list.
Qed.

Lemma find_prepared l txn :
  (forall b, b ∈ l <-> pt_prepared pt !! txn_id b = Some b) ->
  List.find (fun b => txn_id b =? txn) l = pt_prepared pt !! txn.
Proof.
  intros Hl. destruct (List.find _ l) as [b|] eqn:E.
  - apply List.find_some in E as [Hin Et]. bool_to_prop. subst txn.
    apply list_elem_of_In, Hl in Hin. done.
  - destruct (pt_prepared pt !! txn) as [b|] eqn:Eb; [|done].
    destruct (table_rows _ _ _ _ _ _ (pt_prepares _ _ Hp) _ _ Eb) as [(_ & Et & _) _].
    assert ((txn_id b =? txn) = false) as Hn.
    { apply (List.find_none _ _ E b), list_elem_of_In, Hl. by rewrite Et. }
    by rewrite Et, Z.eqb_refl in Hn.
Qed.

Lemma ResolvePreparedDecision_OK txn :
  uint 64 txn -> txn <> 0 ->
  ResolvePreparedDecision txn cs = Ok (pt_decisions pt !! txn).
Proof.
  intros Ht H0. unfold ResolvePreparedDecision.
  destruct (EncodePreparedDecisionKey txn) as [k|] eqn:Hk.
  2: { unfold EncodePreparedDecisionKey in Hk. by rewrite (proj2 (Z.eqb_neq txn 0)) in Hk. }
  cbn [mbind StatusOr_bind].
  pose proof (table_get _ _ _ _ _ _ decision_row_typed _ _ _ _ (pt_decides _ _ Hp) Ht Hk) as Hg.
  destruct (pt_decisions pt !! txn) as [d|].
  - destruct Hg as ((_ & Ed) & v & Hv & ->).
    rewrite (codec_decode (encode := EncodePreparedDecision) (typed := decision_typed) d);
      [|unfold decision_typed; by rewrite Ed|done].
    cbn [mbind StatusOr_bind]. by rewrite Ed, Z.eqb_refl.
  - by rewrite Hg.
Qed.

End tables.

(** ** Writes *)

Lemma db_meta_put db k v : db_meta (db_write db [Put kMetaCf k v]) = cf_put k v (db_meta db).
Proof. done. Qed.

Section writes.

Context (pt : Participant) (db : Database).
Context (Hdb : db_sorted db) (Hp : participates pt (db_meta db)).

Lemma participates_write ops :
  Forall (op_outside PreparedCommitPrefix) ops -> Forall (op_outside kDecisionPrefix) ops ->
  Forall (op_outside AsyncTerminalPrefix) ops ->
  participates pt (db_meta (db_write db ops)).
Proof. intros H1 H2 H3. destruct Hp. split; by by_table table_write. Qed.

Lemma participates_prepare b k v :
  prepared_row (txn_id b) b -> EncodePreparedCommitKey (txn_id b) = Ok k ->
  EncodePreparedCommit b = Ok v ->
  participates (with_prepared (<[txn_id b := b]> (pt_prepared pt)) pt)
    (db_meta (db_write db [Put kMetaCf k v])).
Proof.
  intros Hb Hk Hv. destruct Hp as [H1 H2 H3]. split; [|by_table table_write..]; try done.
  - by_table table_insert; eauto with cedar.
  - repeat constructor. by by_table (table_key_outside PreparedCommitPrefix).
  - repeat constructor. by by_table (table_key_outside PreparedCommitPrefix).
Qed.

Lemma participates_decide d k v :
  decision_row (decision_txn_id d) d -> EncodePreparedDecisionKey (decision_txn_id d) = Ok k ->
  EncodePreparedDecision d = Ok v ->
  participates (with_decision d pt) (db_meta (db_write db [Put kMetaCf k v])).
Proof.
  intros Hd Hk Hv. destruct Hp as [H1 H2 H3]. split.
  - by_table table_write; try done. repeat constructor.
    by by_table (table_key_outside kDecisionPrefix).
  - by_table table_insert; eauto with cedar.
  - by_table table_write; try done. repeat constructor.
    by by_table (table_key_outside kDecisionPrefix).
Qed.

Lemma participates_abort txn prepare_key terminal_key v :
  uint 64 txn -> EncodePreparedCommitKey txn = Ok prepare_key ->
  EncodeAsyncTerminalKey txn = Ok terminal_key -> EncodeAsyncAbortTerminal txn = Ok v ->
  participates (with_aborted txn pt)
    (db_meta (db_write db [Put kMetaCf terminal_key v; Delete kMetaCf prepare_key])).
Proof.
  intros Ht Hk Hk' Hv. destruct Hp as [H1 H2 H3].
  assert (cf_sorted (db_meta db)) as Hs by apply Hdb.
  change (db_write db [?a; ?b]) with (db_write (db_write db [a]) [b]).
  assert (db_sorted (db_write db [Put kMetaCf terminal_key v])) as Hdb'
    by by apply db_write_sorted.
  split.
  - change (db_meta (db_write ?d [Delete kMetaCf ?k])) with (cf_delete k (db_meta d)).
    by_table table_delete; eauto with cedar; [apply Hdb'|].
    by_table table_write; try done. repeat constructor.
    by by_table (table_key_outside AsyncTerminalPrefix).
  - by_table table_write; try done.
    + repeat constructor. by by_table (table_key_outside PreparedCommitPrefix).
    + by_table table_write; try done. repeat constructor.
      by by_table (table_key_outside AsyncTerminalPrefix).
  - by_table table_write; try done.
    + repeat constructor. by by_table (table_key_outside PreparedCommitPrefix).
    + by by_table table_insert; eauto with cedar.
Qed.

Lemma participates_commit b commit_seq ops :
  commit_ops b None commit_seq = Ok ops -> participates pt (db_meta (db_write db ops)).
Proof.
  intros Hops. apply participates_write;
    (apply (commit_ops_outside _ b None commit_seq); [|done|done]); repeat constructor.
Qed.

Lemma participates_finalize b k commit_seq ops :
  uint 64 (txn_id b) -> EncodePreparedCommitKey (txn_id b) = Ok k ->
  commit_ops b (Some k) commit_seq = Ok ops ->
  participates (with_prepared (delete (txn_id b) (pt_prepared pt)) pt)
    (db_meta (db_write db ops)).
Proof.
  intros Ht Hk (ops0 & Hops & ->)%commit_ops_delete.
  pose proof (participates_commit b commit_seq ops0 Hops) as [H1 H2 H3].
  rewrite db_write_app.
  assert (db_sorted (db_write db ops0)) as Hdb' by by apply db_write_sorted.
  split.
  - by_table table_delete; eauto with cedar. apply Hdb'.
  - by_table table_write; try done. repeat constructor.
    by by_table (table_key_outside PreparedCommitPrefix).
  - by_table table_write; try done. repeat constructor.
    by by_table (table_key_outside PreparedCommitPrefix).
Qed.

End writes.

(** ** The invariant *)

Lemma evolves_refl ledger pt : evolves ledger pt ledger pt.
Proof. split; auto. Qed.

Lemma evolves_trans ledger pt ledger1 pt1 ledger2 pt2 :
  evolves ledger pt ledger1 pt1 -> evolves ledger1 pt1 ledger2 pt2 ->
  evolves ledger pt ledger2 pt2.
Proof.
  intros [L1 D1 F1] [L2 D2 F2]. split; [auto..|].
  intros txn b [Hb|(d & Hd & Hf)]%F1; [by apply F2|]. right. exists d. split; [auto|].
  destruct Hf as [[Ho [s Hs]]|Ho]; [left|by right]. split; [done|]. exists s. auto.
Qed.

Lemma inv_recovery ledger events pt cs :
  prepared_inv ledger events pt cs -> prepared_inv ledger events pt (require_recovery cs).
Proof. by intros []. Qed.

Lemma cs_db_with_db db cs : cs_db (with_db db cs) = db.
Proof. by destruct db. Qed.

Lemma transaction_key_prefix txn k :
  EncodeTransactionMetaKey txn = Ok k -> StartsWith k (literal "txn/") = true.
Proof.
  unfold EncodeTransactionMetaKey. case_match; [done|]. intros [= <-]. apply StartsWith_app.
Qed.

Lemma sequence_key_prefix s k :
  EncodeSequenceMetaKey s = Ok k -> StartsWith k (literal "sequence/") = true.
Proof.
  unfold EncodeSequenceMetaKey. case_match; [done|]. intros [= <-]. apply StartsWith_app.
Qed.

Lemma inv_side_write ledger events pt pt' cs ops :
  prepared_inv ledger events pt cs -> side_ops ops ->
  participates pt' (db_meta (db_write (cs_db cs) ops)) -> keeps_decisions ledger pt' ->
  prepared_inv ledger events pt' (with_db (db_write (cs_db cs) ops) cs).
Proof.
  intros [Hs Hp He Ho Hr Hk] (Hm & Ht & Hq) Hp' Hk'. split.
  - rewrite cs_db_with_db. by apply db_write_sorted.
  - done.
  - intros s b Hin. eapply recorded_frame; [|by apply He].
    intros key k [-> | ->] Ek; [apply (write_outside (literal "txn/") (cs_db cs))
      |apply (write_outside (literal "sequence/") (cs_db cs))]; try done;
      [by eapply transaction_key_prefix|by eapply sequence_key_prefix].
  - intros txn k Ht' Ek Hg. apply (Ho txn k Ht' Ek).
    change (meta_cf (with_db ?d cs)) with (db_meta d) in Hg.
    rewrite (write_outside (literal "txn/") (cs_db cs)) in Hg; try done.
    by eapply transaction_key_prefix.
  - intros Hrun. apply commit_inv_metadata; auto.
  - done.
Qed.

Lemma inv_persisted ledger events pt pt' cs ops status cs' :
  prepared_inv ledger events pt cs -> side_ops ops -> persisted ops cs status cs' ->
  participates pt' (db_meta (db_write (cs_db cs) ops)) -> keeps_decisions ledger pt' ->
  evolves ledger pt ledger pt' ->
  exists pt'', prepared_inv ledger events pt'' cs' /\ evolves ledger pt ledger pt'' /\
    (status = StatusOK -> pt'' = pt').
Proof.
  intros Hinv Hops Hpers Hp Hk He.
  pose proof (inv_side_write _ _ _ _ _ _ Hinv Hops Hp Hk) as Hw.
  destruct Hpers as [|status Hs Hi|status applied Hi].
  - by exists pt'.
  - exists pt. split_and!; [done|apply evolves_refl|done].
  - assert (status <> StatusOK) by (by intros ->). destruct applied.
    + exists pt'. split_and!; [by apply inv_recovery|done..].
    + exists pt. split_and!; [by apply inv_recovery|apply evolves_refl|done].
Qed.

Lemma side_op_put {K} (prefix : list byte) (typed : K -> Prop)
    (key : K -> StatusOr (list byte)) lt `{!MetaTable prefix typed key lt} i k op :
  key i = Ok k -> diverge prefix (literal "txn/") = true ->
  diverge prefix (literal "sequence/") = true ->
  (exists v, op = Put kMetaCf k v) \/ op = Delete kMetaCf k ->
  meta_op op /\ op_outside (literal "txn/") op /\ op_outside (literal "sequence/") op.
Proof.
  intros Hk Ht Hs Hop.
  assert (StartsWith k (literal "txn/") = false) by by by_table (table_key_outside prefix).
  assert (StartsWith k (literal "sequence/") = false)
    by by by_table (table_key_outside prefix).
  by destruct Hop as [[v ->]| ->].
Qed.

(** ** Preparing *)

Lemma recovered_prepared_row b :
  prepared_typed b -> StoreCommitBatch_Validate b = StatusOK ->
  prepared_row (txn_id b) (recovered b).
Proof. intros Ht Hv. split_and!; try done; apply Ht. Qed.

Lemma add_prepared_decisions batches pt :
  pt_decisions (add_prepared batches pt) = pt_decisions pt.
Proof. revert pt. induction batches as [|b l IH]; intros pt; [done|]. cbn. by rewrite IH. Qed.

Lemma add_prepared_lookup batches pt txn :
  NoDup (txn_id <$> batches) ->
  (forall b, b ∈ batches -> txn_id b = txn ->
     pt_prepared (add_prepared batches pt) !! txn = Some (recovered b)) /\
  ((forall b, b ∈ batches -> txn_id b <> txn) ->
     pt_prepared (add_prepared batches pt) !! txn = pt_prepared pt !! txn).
Proof.
  revert pt. induction batches as [|b l IH]; intros pt Hnd.
  { split; [by intros ? ?%not_elem_of_nil|done]. }
  rewrite fmap_cons, NoDup_cons in Hnd. destruct Hnd as [Hb Hnd].
  cbn [add_prepared fold_left]. fold (add_prepared l).
  destruct (IH (with_prepared (<[txn_id b := recovered b]> (pt_prepared pt)) pt) Hnd)
    as [H1 H2]. split.
  - intros b' [->|Hin]%elem_of_cons Et; [|by apply H1]. unfold add_prepared in H2.
    rewrite H2; [cbn; by rewrite Et, lookup_insert_eq|].
    intros b' Hin <-. apply Hb. rewrite Et. by apply list_elem_of_fmap_2.
  - intros Hn. unfold add_prepared in H2. rewrite H2 by (intros; apply Hn; by right).
    cbn. rewrite lookup_insert_ne; [done|]. apply Hn. by left.
Qed.

(** What the loop of [PersistPreparedCommits] finds out. *)
Lemma prepare_loop pt cs batches ops0 ops :
  participates pt (meta_cf cs) -> Forall prepared_typed batches ->
  loop (prepare_batch (meta_cf cs)) ops0 batches = Ok ops ->
  exists new puts, ops = ops0 ++ puts /\ new `sublist_of` batches /\
    Forall2 (fun b op => exists k v, EncodePreparedCommitKey (txn_id b) = Ok k /\
       EncodePreparedCommit b = Ok v /\ op = Put kMetaCf k v) new puts /\
    (forall b, b ∈ new -> pt_prepared pt !! txn_id b = None /\
       exists k, EncodeTransactionMetaKey (txn_id b) = Ok k /\
                 cf_get k (meta_cf cs) = None) /\
    (forall b, b ∈ batches -> b ∈ new \/ pt_prepared pt !! txn_id b = Some (recovered b)).
Proof.
  intros Hp. revert ops0. induction batches as [|b batches IH]; intros ops0 Ht H.
  { injection H as <-. exists [], []. rewrite app_nil_r.
    split_and!; [done|constructor|constructor|..]; by intros ? ?%not_elem_of_nil. }
  apply Forall_cons in Ht as [Htb Ht]. cbn [loop] in H.
  apply bind_Ok in H as (ops1 & Hb & H).
  destruct (IH _ Ht H) as (new & puts & -> & Hsub & Hputs & Hnew & Hold).
  unfold prepare_batch in Hb. inv_ok.
  pose proof (table_get _ _ _ _ _ _ prepared_row_typed _ _ _ _ (pt_prepares _ _ Hp)
    (proj1 Htb) H0) as Hg.
  destruct (pt_prepared pt !! txn_id b) as [b0|] eqn:Eb.
  - destruct Hg as (Hrow & v & Hv & Hget). rewrite Hget in Hb.
    case_bool_decide as Ev; [|done]. injection Hb as <-. subst v.
    exists new, puts. split_and!; try done; [by apply sublist_cons|].
    intros b' [->|Hin]%elem_of_cons; [right|auto]. rewrite Eb. f_equal.
    rewrite <- (recovered_row b0 (txn_id b) Hrow).
    pose proof (DecodePreparedCommit_encode b0 _ (proj1 (proj2 (proj2 Hrow))) Hv) as D.
    rewrite (DecodePreparedCommit_encode b _ Htb H1) in D. congruence.
  - rewrite Hg in Hb. inv_ok.
    match type of Hb with match ?g with _ => _ end = _ => destruct g eqn:Et; [done|] end.
    injection Hb as <-. eexists (b :: new), (_ :: puts).
    split_and!; [by rewrite <- app_assoc|by apply sublist_skip| | |].
    + constructor; [|done]. by eexists _, _.
    + intros b' [->|Hin]%elem_of_cons; [|auto]. split; [done|]. by eexists.
    + intros b' [->|Hin]%elem_of_cons; [left; by left|].
      destruct (Hold b' Hin); [left; by right|by right].
Qed.

Lemma participates_puts pt db new puts :
  db_sorted db -> participates pt (db_meta db) ->
  Forall prepared_typed new -> Forall (fun b => StoreCommitBatch_Validate b = StatusOK) new ->
  Forall2 (fun b op => exists k v, EncodePreparedCommitKey (txn_id b) = Ok k /\
     EncodePreparedCommit b = Ok v /\ op = Put kMetaCf k v) new puts ->
  participates (add_prepared new pt) (db_meta (db_write db puts)) /\ side_ops puts.
Proof.
  intros Hdb Hp Ht Hv H. revert pt db Hdb Hp Ht Hv.
  induction H as [|b op new puts (k & v & Hk & Hv & ->) H IH]; intros pt db Hdb Hp Ht Hval.
  { by split. }
  apply Forall_cons in Ht as [? Ht]. apply Forall_cons in Hval as [? Hval].
  pose proof (participates_prepare pt db Hdb Hp (recovered b) k v
    (recovered_prepared_row b ltac:(done) ltac:(done)) Hk Hv) as Hp'.
  destruct (IH _ (apply_op db (Put kMetaCf k v)) ltac:(by apply apply_op_sorted) Hp' Ht Hval)
    as [? (? & ? & ?)].
  split; [done|]. destruct (side_op_put PreparedCommitPrefix (uint 64) EncodePreparedCommitKey
    Z.lt (txn_id b) k (Put kMetaCf k v)) as (? & ? & ?); try done; [left; by eexists|].
  split_and!; by constructor.
Qed.

Lemma not_committed ledger events pt cs txn k :
  prepared_inv ledger events pt cs -> EncodeTransactionMetaKey txn = Ok k ->
  cf_get k (meta_cf cs) = None -> ~ committed_in ledger txn.
Proof.
  intros Hinv Hk Hg (s & b & Hin & <-).
  destruct (pi_entries _ _ _ _ Hinv s b Hin) as [(k' & v & Hk' & Hg' & _) _].
  rewrite Hk in Hk'. injection Hk' as <-. congruence.
Qed.

Lemma add_prepared_fits ledger events pt cs new :
  prepared_inv ledger events pt cs -> NoDup (txn_id <$> new) ->
  (forall b, b ∈ new -> pt_prepared pt !! txn_id b = None /\
     exists k, EncodeTransactionMetaKey (txn_id b) = Ok k /\ cf_get k (meta_cf cs) = None) ->
  keeps_decisions ledger (add_prepared new pt) /\ evolves ledger pt ledger (add_prepared new pt).
Proof.
  intros Hinv Hnd Hnew. pose proof (pi_keeps _ _ _ _ Hinv) as [Hw Hd].
  assert (forall txn, (exists b, b ∈ new /\ txn_id b = txn) \/
            forall b, b ∈ new -> txn_id b <> txn) as Hcase.
  { intros txn. destruct (decide (txn ∈ txn_id <$> new)) as [(b & -> & Hb)%list_elem_of_fmap|Hn].
    - left. by exists b.
    - right. intros b Hb <-. apply Hn. by apply list_elem_of_fmap_2. }
  assert (forall txn b, pt_prepared pt !! txn = Some b ->
            pt_prepared (add_prepared new pt) !! txn = Some b) as Hkeep.
  { intros txn b Hb. destruct (add_prepared_lookup new pt txn Hnd) as [_ H2].
    rewrite H2; [done|]. intros b' Hb' <-. destruct (Hnew b' Hb'). congruence. }
  split; split.
  - intros txn b Hb. destruct (add_prepared_lookup new pt txn Hnd) as [H1 H2].
    destruct (Hcase txn) as [(b' & Hb' & <-)|Hn].
    + destruct (Hnew b' Hb') as (_ & k & Hk & Hg). by eapply not_committed.
    + rewrite H2 in Hb by done. by eapply Hw.
  - intros txn d. rewrite add_prepared_decisions. intros Hdec. specialize (Hd txn d Hdec).
    destruct (decision_outcome d); [|done..]. destruct Hd as [[b Hb]|?]; [left|by right].
    rewrite (Hkeep txn b Hb). done.
  - done.
  - intros txn d. by rewrite add_prepared_decisions.
  - intros txn b Hb. left. by apply Hkeep.
Qed.

Lemma check_prepares_OK batches :
  check_prepares batches = Ok tt ->
  Forall (fun b => StoreCommitBatch_Validate b = StatusOK) batches /\
  NoDup (txn_id <$> batches).
Proof.
  unfold check_prepares. intros H. apply bind_Ok in H as (_ & _ & H).
  apply bind_Ok in H as ([] & Hv & H). apply bind_Ok in H as (ids & Hids & _). split.
  - apply Forall_forall. rewrite loop_unit_Ok in Hv. intros b Hb.
    specialize (Hv b Hb). by inv_ok.
  - clear Hv. revert Hids. generalize (∅ : gset Z).
    assert (forall (ids ids' : gset Z), loop check_prepare_ids ids batches = Ok ids' ->
      NoDup (txn_id <$> batches) /\ forall b, b ∈ batches -> txn_id b ∉ ids) as Hl.
    { clear ids. induction batches as [|b batches IH]; intros ids ids' Hl; cbn [loop] in Hl.
      { split; [constructor|by intros ? ?%not_elem_of_nil]. }
      apply bind_Ok in Hl as (ids1 & Hb & Hl). unfold check_prepare_ids, emplace in Hb.
      inv_ok. bool_to_prop. subst ids1. destruct (IH _ _ Hl) as [Hnd Hout]. split.
      - rewrite fmap_cons. constructor; [|done].
        intros (b' & Et & Hb')%list_elem_of_fmap. apply (Hout b' Hb'). set_solver.
      - intros b' [->|Hb']%elem_of_cons; [done|]. specialize (Hout b' Hb'). set_solver. }
    intros ids0 Hids. by destruct (Hl _ _ Hids).
Qed.

Ltac proper_status :=
  repeat first [apply proper_Ok | apply proper_check | apply proper_require
    | apply proper_from_option | apply proper_bind; [|intros] | apply proper_loop; intros
    | done | case_match].

Lemma proper_EncodePreparedCommit b : proper (EncodePreparedCommit b).
Proof.
  unfold EncodePreparedCommit, AppendMutation, AppendStrictRead, AppendObserved,
    EncodeRecord, encode_frame, EncodeFactValue, event_payload,
    EncodeEdgeIdentityPayload, EncodeValuePayload. cbv zeta. proper_status.
Qed.

Lemma proper_prepare meta ops b : proper (prepare_batch meta ops b).
Proof.
  unfold prepare_batch, EncodePreparedCommitKey, EncodeTransactionMetaKey.
  apply proper_bind; [proper_status|intros key].
  apply proper_bind; [apply proper_EncodePreparedCommit|intros value]. proper_status.
Qed.

Lemma proper_prepares batches : proper (check_prepares batches).
Proof. unfold check_prepares, check_prepare_ids, emplace. proper_status. Qed.

Lemma PersistPreparedCommits_OK outcome ledger events pt cs batches status cs' :
  prepared_inv ledger events pt cs -> Forall prepared_typed batches -> outcome_ok outcome ->
  PersistPreparedCommits outcome batches cs = (status, cs') ->
  exists pt', prepared_inv ledger events pt' cs' /\ evolves ledger pt ledger pt' /\
    (status = StatusOK -> forall b, b ∈ batches ->
       pt_prepared pt' !! txn_id b = Some (recovered b)).
Proof.
  intros Hinv Ht Ho H. unfold PersistPreparedCommits in H.
  destruct (check_prepares batches ≫= _) as [ops|s] eqn:E.
  2: { injection H as <- <-. exists pt. split_and!; [done|apply evolves_refl|].
       intros ->. exfalso. revert E. apply proper_bind; [apply proper_prepares|intros _].
       apply proper_bind; [by apply proper_require|intros _].
       apply proper_loop. intros. apply proper_prepare. }
  inv_ok. destruct x. destruct (check_prepares_OK _ H0) as [Hval Hnd].
  destruct (prepare_loop pt cs batches [] ops (pi_tables _ _ _ _ Hinv) Ht E)
    as (new & puts & -> & Hsub & Hputs & Hnew & Hold). cbn [app] in *.
  assert (NoDup (txn_id <$> new)) as Hndn
    by (eapply sublist_NoDup; [exact Hnd|by apply fmap_sublist]).
  assert (forall b, b ∈ new -> b ∈ batches) as Hin
    by (intros b; by apply sublist_subseteq).
  destruct (participates_puts pt (cs_db cs) new puts (pi_sorted _ _ _ _ Hinv)
    (pi_tables _ _ _ _ Hinv)) as [Hp Hside];
    [rewrite Forall_forall in *; auto..|done|].
  destruct (add_prepared_fits ledger events pt cs new Hinv Hndn Hnew) as [Hk He].
  assert (persisted puts cs status cs') as Hpers.
  { destruct puts as [|op puts]; [|by eapply persist_metadata_spec].
    injection H as <- <-. destruct cs as [[] ? ? ? ?]. apply persist_done. }
  destruct (inv_persisted _ _ _ _ _ _ _ _ Hinv Hside Hpers Hp Hk He)
    as (pt' & Hinv' & He' & Hok). exists pt'. split_and!; [done..|].
  intros ->%Hok b Hb. destruct (add_prepared_lookup new pt (txn_id b) Hndn) as [H1' H2'].
  destruct (decide (txn_id b ∈ txn_id <$> new)) as [(b' & Et & Hb')%list_elem_of_fmap|Hn].
  - destruct (Hold b Hb) as [?|Hrow]; [by apply H1'|].
    destruct (Hnew b' Hb'). rewrite Et in Hrow. congruence.
  - rewrite H2' by (intros b' Hb' Et; apply Hn; rewrite <- Et; by apply list_elem_of_fmap_2).
    destruct (Hold b Hb) as [?|]; [|done]. destruct Hn. by apply list_elem_of_fmap_2.
Qed.

(** ** Deciding and aborting *)

Lemma prepared_key_Ok txn : txn <> 0 -> exists k, EncodePreparedCommitKey txn = Ok k.
Proof.
  intros H. unfold EncodePreparedCommitKey. rewrite (proj2 (Z.eqb_neq txn 0)) by done. by eexists.
Qed.

Lemma proper_PersistPreparedDecision meta d :
  proper (decision_key ← EncodePreparedDecisionKey (decision_txn_id d);
    decision_value ← EncodePreparedDecision d;
    match cf_get decision_key meta with
    | Some existing =>
        if bool_decide (existing = decision_value) then Ok []
        else Fail (certificate_differs "prepared decision")
    | None =>
        prepare_key ← EncodePreparedCommitKey (decision_txn_id d);
        _ ← from_option (cf_get prepare_key meta)
              (NotFound "prepared decision" "transaction is not prepared");
        Ok [Put kMetaCf decision_key decision_value]
    end).
Proof.
  unfold EncodePreparedDecisionKey, EncodePreparedDecision, EncodePreparedCommitKey,
    EncodeRecord, encode_frame. proper_status.
Qed.

Lemma with_decision_keeps ledger pt d b :
  keeps_decisions ledger pt -> pt_prepared pt !! decision_txn_id d = Some b ->
  keeps_decisions ledger (with_decision d pt).
Proof.
  intros [Hw Hd] Hb. split; [done|]. intros txn d'. cbn [pt_decisions with_decision].
  rewrite lookup_insert_Some. intros [[<- <-]|[_ Hd']]; [|by apply Hd].
  destruct (decision_outcome d); [left; by exists b|by eapply Hw..].
Qed.

Lemma decide_prepared_OK outcome ledger events pt cs d status cs' :
  prepared_inv ledger events pt cs -> uint 64 (decision_txn_id d) ->
  decision_txn_id d <> 0 -> outcome_ok outcome ->
  decide_prepared outcome d cs = (status, cs') ->
  exists pt', prepared_inv ledger events pt' cs' /\ evolves ledger pt ledger pt' /\
    (status = StatusOK -> pt_decisions pt' !! decision_txn_id d = Some d).
Proof.
  intros Hinv Ht H0 Ho H. unfold decide_prepared in H.
  pose proof (pi_sorted _ _ _ _ Hinv) as Hs. pose proof (pi_tables _ _ _ _ Hinv) as Hp.
  rewrite (ResolvePreparedDecision_OK pt) in H by done.
  destruct (pt_decisions pt !! decision_txn_id d) as [d0|] eqn:Ed.
  { injection H as <- <-. exists pt. split_and!; [done|apply evolves_refl|].
    case_bool_decide; [|done]. congruence. }
  unfold PersistPreparedDecision in H.
  pose proof (proper_PersistPreparedDecision (meta_cf cs) d) as Hprop.
  destruct (EncodePreparedDecisionKey (decision_txn_id d) ≫= _) as [ops|s] eqn:E.
  2: { injection H as <- <-. exists pt. split_and!; [done|apply evolves_refl|].
       intros ->. by destruct Hprop. }
  clear Hprop. inv_ok. rename x into key, x0 into value.
  pose proof (table_get _ _ _ _ _ _ decision_row_typed _ _ _ _ (pt_decides _ _ Hp) Ht H1) as Hg.
  rewrite Ed in Hg. rewrite Hg in E. inv_ok. subst ops.
  rename x into prepare_key, x0 into prepared.
  pose proof (table_get _ _ _ _ _ _ prepared_row_typed _ _ _ _ (pt_prepares _ _ Hp) Ht H3) as Hb.
  destruct (pt_prepared pt !! decision_txn_id d) as [b|] eqn:Eb; [|congruence].
  destruct (side_op_put kDecisionPrefix (uint 64) EncodePreparedDecisionKey Z.lt
    (decision_txn_id d) key (Put kMetaCf key value)) as (? & ? & ?); try done;
    [left; by eexists|].
  destruct (inv_persisted ledger events pt (with_decision d pt) cs [Put kMetaCf key value]
    status cs') as (pt' & ? & ? & Hok); try done.
  - unfold side_ops. split_and!; by repeat constructor.
  - by eapply persist_metadata_spec.
  - by apply participates_decide.
  - by eapply with_decision_keeps; [apply (pi_keeps _ _ _ _ Hinv)|].
  - split; auto. intros txn d'. cbn. intros Hd'.
    rewrite lookup_insert_ne; [done|]. congruence.
  - exists pt'. split_and!; [done..|]. intros ->%Hok. cbn. by rewrite lookup_insert_eq.
Qed.

Lemma with_aborted_fits ledger pt txn d :
  keeps_decisions ledger pt -> pt_decisions pt !! txn = Some d -> decision_outcome d = kAbort ->
  keeps_decisions ledger (with_aborted txn pt) /\ evolves ledger pt ledger (with_aborted txn pt).
Proof.
  intros [Hw Hd] Ed Ea. split; split.
  - intros txn' b. cbn. intros [_ Hb]%lookup_delete_Some. by eapply Hw.
  - intros txn' d' Hd'. cbn in Hd'. specialize (Hd txn' d' Hd'). cbn.
    destruct (decision_outcome d') eqn:E'; [|done..].
    destruct Hd as [?|?]; [left|by right]. rewrite lookup_delete_ne; [done|]. congruence.
  - done.
  - done.
  - intros txn' b Hb. cbn. destruct (decide (txn' = txn)) as [->|Hne].
    + right. exists d. split; [done|]. by right.
    + left. by rewrite lookup_delete_ne.
Qed.

Lemma AbortPreparedCommit_OK outcome ledger events pt cs txn d status cs' :
  prepared_inv ledger events pt cs -> uint 64 txn -> outcome_ok outcome ->
  pt_decisions pt !! txn = Some d -> decision_outcome d = kAbort ->
  AbortPreparedCommit outcome txn cs = (status, cs') ->
  exists pt', prepared_inv ledger events pt' cs' /\ evolves ledger pt ledger pt' /\
    (status = StatusOK -> pt' = with_aborted txn pt).
Proof.
  intros Hinv Ht Ho Ed Ea H. unfold AbortPreparedCommit in H.
  destruct (EncodePreparedCommitKey txn ≫= _) as [ops|s] eqn:E.
  2: { injection H as <- <-. exists pt. split_and!; [done|apply evolves_refl|].
       intros ->. exfalso. revert E. unfold EncodePreparedCommitKey, EncodeAsyncTerminalKey,
         EncodeAsyncAbortTerminal, EncodeRecord, encode_frame.
       match goal with |- ?x = _ -> _ => change (proper x) end. proper_status. }
  inv_ok. subst ops. rename x into prepare_key, x0 into terminal_key.
  destruct (with_aborted_fits ledger pt txn d (pi_keeps _ _ _ _ Hinv) Ed Ea) as [Hk He].
  eapply (inv_persisted ledger events pt (with_aborted txn pt) cs
    [Put kMetaCf terminal_key x1; Delete kMetaCf prepare_key]); try done.
  - destruct (side_op_put AsyncTerminalPrefix (uint 64) EncodeAsyncTerminalKey Z.lt
      txn terminal_key (Put kMetaCf terminal_key x1)) as (? & ? & ?); try done; [left; by eexists|].
    destruct (side_op_put PreparedCommitPrefix (uint 64) EncodePreparedCommitKey Z.lt
      txn prepare_key (Delete kMetaCf prepare_key)) as (? & ? & ?); try done; [by right|].
    unfold side_ops. split_and!; by repeat constructor.
  - by eapply persist_metadata_spec.
  - apply participates_abort; try done; apply Hinv.
Qed.

(** ** Committing *)

Lemma FinalizePreparedCommit_direct cf_id outcome grouped sync b cs k :
  EncodePreparedCommitKey (txn_id b) = Ok k ->
  FinalizePreparedCommit cf_id outcome grouped sync b cs
  = CommitDirect cf_id outcome b (Some k) cs.
Proof.
  intros Hk. unfold FinalizePreparedCommit. rewrite Hk. destruct grouped; [|done].
  destruct (accept_batch cs b) as [u|s] eqn:E.
  - cbn. by destruct (CommitDirect _ _ _ _ _).
  - unfold CommitDirect. by rewrite E.
Qed.

(** A store that has to be reopened commits nothing. *)
Lemma CommitDirect_stopped cf_id outcome b prepared_key cs :
  recovery_required cs = true ->
  exists s, CommitDirect cf_id outcome b prepared_key cs = (Fail s, cs).
Proof.
  intros Hr. unfold CommitDirect. rewrite Hr.
  destruct (accept_batch cs b) as [u|s]; cbn; by eexists.
Qed.

Lemma inv_same_db ledger events pt cs cs' :
  prepared_inv ledger events pt cs -> cs_db cs' = cs_db cs ->
  (recovery_required cs' = false -> commit_inv ledger events cs') ->
  prepared_inv ledger events pt cs'.
Proof.
  intros [Hs Hp He Ho _ Hk] Ed Hr.
  assert (meta_cf cs' = meta_cf cs) as Em by exact (f_equal db_meta Ed).
  split; rewrite ?Ed, ?Em; done.
Qed.

(** A commit that reached the database. *)
Lemma inv_written ledger events pt cs cs' commit_seq b new written :
  prepared_inv ledger events pt cs -> cs_db written = cs_db cs' ->
  commit_inv ((commit_seq, b) :: ledger) new written ->
  (recovery_required cs' = false -> cs' = written) ->
  forall pt', participates pt' (meta_cf cs') ->
  keeps_decisions ((commit_seq, b) :: ledger) pt' ->
  prepared_inv ((commit_seq, b) :: ledger) new pt' cs'.
Proof.
  intros Hinv Ed Hw Hr pt' Hp Hk.
  assert (meta_cf written = meta_cf cs') as Em by exact (f_equal db_meta Ed).
  split; try done.
  - rewrite <- Ed. split; [apply (inv_store _ _ _ Hw)|apply (inv_meta _ _ _ Hw)].
  - intros s b' Hin. rewrite <- Em. by apply (inv_entries _ _ _ Hw).
  - intros txn k Ht Hk' Hg. rewrite <- Em in Hg. by apply (inv_outcomes _ _ _ Hw txn k).
  - intros Hrun. by rewrite (Hr Hrun).
Qed.

Lemma committed_cons ledger s b txn :
  committed_in ((s, b) :: ledger) txn -> txn_id b = txn \/ committed_in ledger txn.
Proof.
  intros (s' & b' & [[= -> ->]|Hin]%elem_of_cons & Et); [by left|right].
  by exists s', b'.
Qed.

Lemma committed_mono ledger e txn : committed_in ledger txn -> committed_in (e :: ledger) txn.
Proof. intros (s & b & Hin & Et). exists s, b. split; [by right|done]. Qed.

(** A commit of a transaction that neither waits nor is decided. *)
Lemma foreign_keeps ledger pt s b :
  keeps_decisions ledger pt -> pt_prepared pt !! txn_id b = None ->
  pt_decisions pt !! txn_id b = None -> keeps_decisions ((s, b) :: ledger) pt.
Proof.
  intros [Hw Hd] Hn1 Hn2. split.
  - intros txn b' Hb' [Et|Hc]%committed_cons; [congruence|by eapply Hw].
  - intros txn d Hdec. specialize (Hd txn d Hdec). destruct (decision_outcome d).
    + destruct Hd; [by left|right; by apply committed_mono].
    + intros [Et|Hc]%committed_cons; [congruence|done].
    + intros [Et|Hc]%committed_cons; [congruence|done].
Qed.

Lemma foreign_commit_OK cf_id outcome ledger events pt cs b r cs' :
  prepared_inv ledger events pt cs -> prepared_typed b -> fresh_unrecorded (meta_cf cs) b ->
  pt_prepared pt !! txn_id b = None -> pt_decisions pt !! txn_id b = None ->
  outcome_ok outcome -> CommitDirect cf_id outcome b None cs = (r, cs') ->
  exists ledger' events', prepared_inv ledger' events' pt cs' /\
    evolves ledger pt ledger' pt.
Proof.
  intros Hinv Ht Hf Hn1 Hn2 Ho H.
  destruct (recovery_required cs) eqn:Er.
  { destruct (CommitDirect_stopped cf_id outcome b None cs Er) as [s E].
    rewrite E in H. injection H as <- <-. exists ledger, events.
    split; [done|apply evolves_refl]. }
  apply (CommitDirect_effect cf_id outcome ledger events) in H; try done;
    [|by apply (pi_running _ _ _ _ Hinv)
     |by apply (fresh_not_committed _ (meta_cf cs)); [apply Hinv|]].
  destruct H as [Ed Hrun _|ops written seq Hops Ed Ed' Hw Hnew Hseq Hr _].
  - exists ledger, events. split; [by eapply inv_same_db|apply evolves_refl].
  - exists ((seq, b) :: ledger), (batch_events seq b ++ events). split.
    + eapply inv_written; try done; [intros Hrun; by apply Hr| |].
      * change (meta_cf cs') with (db_meta (cs_db cs')). rewrite Ed.
        eapply participates_commit; try done; apply Hinv.
      * apply foreign_keeps; try done. apply Hinv.
    + split; auto. intros e He. by right.
Qed.

(** The commit of a transaction that waits and is to commit. *)
Lemma finalized_fits ledger pt s b d :
  keeps_decisions ledger pt -> pt_prepared pt !! txn_id b = Some b ->
  pt_decisions pt !! txn_id b = Some d -> decision_outcome d = kCommit ->
  let pt' := with_prepared (delete (txn_id b) (pt_prepared pt)) pt in
  keeps_decisions ((s, b) :: ledger) pt' /\ evolves ledger pt ((s, b) :: ledger) pt'.
Proof.
  intros [Hw Hd] Hb Hdec Hc. split; split; cbn.
  - intros txn b' [Hne Hb']%lookup_delete_Some [Et|Hcm]%committed_cons; [done|].
    by eapply Hw.
  - intros txn d' Hd'. specialize (Hd txn d' Hd').
    destruct (decide (txn = txn_id b)) as [->|Hne].
    { replace d' with d by congruence. rewrite Hc. right. exists s, b.
      split; [by left|done]. }
    destruct (decision_outcome d').
    + rewrite lookup_delete_ne by done.
      destruct Hd; [by left|right; by apply committed_mono].
    + intros [Et|Hcm]%committed_cons; [congruence|done].
    + intros [Et|Hcm]%committed_cons; [congruence|done].
  - intros e He. by right.
  - done.
  - intros txn b' Hb'. destruct (decide (txn = txn_id b)) as [->|Hne].
    + right. exists d. split; [done|]. left. split; [done|]. exists s.
      replace b' with b by congruence. by left.
    + left. by rewrite lookup_delete_ne.
Qed.

Lemma FinalizePreparedCommit_OK cf_id outcome grouped sync ledger events pt cs b d r cs' :
  prepared_inv ledger events pt cs -> outcome_ok outcome ->
  pt_prepared pt !! txn_id b = Some b -> pt_decisions pt !! txn_id b = Some d ->
  decision_outcome d = kCommit ->
  FinalizePreparedCommit cf_id outcome grouped sync b cs = (r, cs') ->
  exists ledger' events' pt', prepared_inv ledger' events' pt' cs' /\
    evolves ledger pt ledger' pt' /\
    forall x, r = Ok x -> (result_commit_seq x, b) ∈ ledger'.
Proof.
  intros Hinv Ho Hb Hd Hc H. pose proof (pi_tables _ _ _ _ Hinv) as Hp.
  destruct (table_rows _ _ _ _ _ _ (pt_prepares _ _ Hp) _ _ Hb)
    as ((Hu & _ & Ht & Hv & Hf) & k & v & Hk & _).
  rewrite (FinalizePreparedCommit_direct _ _ _ _ _ _ k Hk) in H.
  destruct (recovery_required cs) eqn:Er.
  { destruct (CommitDirect_stopped cf_id outcome b (Some k) cs Er) as [s E].
    rewrite E in H. injection H as <- <-. exists ledger, events, pt.
    split_and!; [done|apply evolves_refl|done]. }
  apply (CommitDirect_effect cf_id outcome ledger events) in H; try done;
    [|by apply (pi_running _ _ _ _ Hinv)|by intros ? [= <-]|congruence].
  destruct H as [Ed Hrun Hr|ops written seq Hops Ed Ed' Hw Hnew Hseq Hr Hx].
  - exists ledger, events, pt. split_and!; [by eapply inv_same_db|apply evolves_refl|].
    intros x (s & stored & Hin & (Et & _) & _)%Hr. exfalso.
    apply (keeps_waiting _ _ (pi_keeps _ _ _ _ Hinv) _ _ Hb). by exists s, stored.
  - destruct (finalized_fits ledger pt seq b d (pi_keeps _ _ _ _ Hinv) Hb Hd Hc) as [Hk' He].
    eexists _, _, _. split_and!; [|exact He|].
    + eapply inv_written; try done; [intros Hrun; by apply Hr|].
      change (meta_cf cs') with (db_meta (cs_db cs')). rewrite Ed.
      eapply participates_finalize; try done; apply Hinv.
    + intros x ->%Hx. by left.
Qed.

(** ** Calls *)

(** A transaction that is found committed is in the ledger. *)
Lemma ResolveTransaction_sound ledger events pt cs txn x :
  prepared_inv ledger events pt cs -> uint 64 txn ->
  ResolveTransaction txn cs = Ok (Some x) ->
  exists b, (result_commit_seq x, b) ∈ ledger /\ txn_id b = txn.
Proof.
  intros Hinv Ht H. unfold ResolveTransaction in H.
  apply bind_Ok in H as (_ & _ & H). apply bind_Ok in H as (k & Hk & H).
  destruct (cf_get k (meta_cf cs)) as [v|] eqn:Hg; [|done].
  destruct (pi_outcomes _ _ _ _ Hinv txn k Ht Hk) as (s & b & Hin & Et); [by exists v|].
  destruct (pi_entries _ _ _ _ Hinv s b Hin) as [(k' & v' & Hk' & Hg' & Hd) _].
  rewrite Et, Hk in Hk'. injection Hk' as <-. rewrite Hg in Hg'. injection Hg' as <-.
  rewrite Hd in H. cbn [mbind StatusOr_bind outcome_commit_seq] in H.
  apply bind_Ok in H as (? & _ & H). apply bind_Ok in H as (? & _ & H).
  destruct (_ || _); [done|]. inv_ok. injection H as <-. cbn. by exists b.
Qed.

Lemma finalize_decided_OK cf_id o grouped wal ledger events pt cs txn d r cs' :
  prepared_inv ledger events pt cs -> uint 64 txn -> outcome_ok (commit_write o) ->
  pt_decisions pt !! txn = Some d -> decision_outcome d = kCommit ->
  finalize_decided cf_id o grouped wal txn cs = (r, cs') ->
  exists ledger' events' pt', prepared_inv ledger' events' pt' cs' /\
    evolves ledger pt ledger' pt' /\
    forall x, r = Ok x -> cr_outcome x = outcome_committed ->
      exists b, (cr_commit_seq x, b) ∈ ledger' /\ txn_id b = txn.
Proof.
  intros Hinv Ht Ho Hd Hc H. unfold finalize_decided in H.
  pose proof (pi_tables _ _ _ _ Hinv) as Hp.
  destruct (ListPreparedCommits_OK pt cs (proj2 (pi_sorted _ _ _ _ Hinv)) Hp)
    as (l & El & _ & Hl). rewrite El, (find_prepared pt cs Hp l txn Hl) in H.
  destruct (pt_prepared pt !! txn) as [b|] eqn:Hb.
  - destruct (table_rows _ _ _ _ _ _ (pt_prepares _ _ Hp) _ _ Hb) as [(_ & Et & _) _].
    destruct (FinalizePreparedCommit _ _ _ _ _ _) as [res cs1] eqn:Ef.
    injection H as <- <-. subst txn.
    destruct (FinalizePreparedCommit_OK _ _ _ _ _ _ _ _ _ _ _ _ Hinv Ho Hb Hd Hc Ef)
      as (ledger' & events' & pt' & ? & ? & Hin).
    exists ledger', events', pt'. split_and!; [done..|]. intros x [= <-] Hcm.
    destruct res as [y|s]; cbn in *; [by eauto|]. by destruct (_ || _).
  - injection H as <- <-. exists ledger, events, pt.
    split_and!; [done|apply evolves_refl|]. intros x Hx _. inv_ok. subst x.
    match goal with H : ResolveTransaction _ _ = Ok ?c |- _ =>
      destruct c as [y|]; [|done] end. cbn in *.
    match goal with H : Some _ = Some _ |- _ => injection H as -> end.
    by eapply ResolveTransaction_sound.
Qed.

Lemma store_prepared_typed events identities ms identities' ms' :
  Forall event_typed events -> Forall identity_typed identities ->
  Forall mutation_typed ms ->
  loop store_prepared_event (identities, ms) events = Ok (identities', ms') ->
  Forall identity_typed identities' /\ Forall mutation_typed ms'.
Proof.
  revert identities ms. induction events as [|e events IH]; intros identities ms He Hi Hm H;
    cbn [loop] in H; [by injection H as <- <-|].
  apply Forall_cons in He as [(Hr & Hvf & _ & Hse & Hval & Hid) He].
  apply bind_Ok in H as ([ids1 ms1] & Hb & H). unfold store_prepared_event in Hb.
  apply bind_Ok in Hb as (_ & _ & Hb). apply bind_Ok in Hb as ([ids2 ref] & Hr2 & Hb).
  injection Hb as <- <-.
  assert (Forall identity_typed ids2 /\ ref_typed ref) as [Hi2 Href].
  { case_bool_decide; [|by injection Hr2 as <- <-]. inv_ok. injection Hr2 as <- <-.
    rewrite H1 in Hid. split; [by apply Forall_app, conj, Forall_singleton|].
    destruct Hid as (? & ? & ? & ? & ? & ? & ?). by unfold ref_typed, uint in *. }
  apply (IH ids2 (ms ++ [mkPendingFactMutation ref (event_valid_from e)
    (event_operation e) (event_schema_epoch e) (event_value e)])); try done.
  by apply Forall_app, conj, Forall_singleton.
Qed.

Lemma ToStorePreparedBatch_typed b stored :
  uint 64 (pc_txn_id b) -> uint 64 (pc_system_hlc b) -> Forall event_typed (pc_events b) ->
  ToStorePreparedBatch b = Ok stored -> prepared_typed stored /\ txn_id stored = pc_txn_id b.
Proof.
  intros Ht Hh He H. unfold ToStorePreparedBatch in H.
  apply bind_Ok in H as (_ & _ & H). apply bind_Ok in H as ([ids ms] & Hl & H).
  apply bind_Ok in H as (_ & _ & H). injection H as <-.
  destruct (store_prepared_typed _ _ _ _ _ He (Forall_nil_2 _) (Forall_nil_2 _) Hl).
  split_and!; try done; by constructor.
Qed.

(** Every call keeps the invariant, whatever becomes of its writes. *)
Lemma call_step_inv cf_id grouped db db' ledger events pt :
  prepared_inv ledger events pt (kd_store db) -> call_step cf_id grouped db db' ->
  exists ledger' events' pt', prepared_inv ledger' events' pt' (kd_store db') /\
    evolves ledger pt ledger' pt'.
Proof.
  intros Hinv (call & Hok & ->).
  assert (exists ledger' events' pt', prepared_inv ledger' events' pt' (kd_store db) /\
            evolves ledger pt ledger' pt') as Hsame
    by (exists ledger, events, pt; split; [done|apply evolves_refl]).
  destruct call as [o b|o txn c dur|o1 o2 txn c|o b]; cbn [run_call call_ok] in *.
  - destruct Hok as (Ho & Ht & Hh & He). unfold Database_PersistPreparedCommit.
    destruct (require_open db ≫= _) as [stored|s] eqn:E; [|done]. inv_ok.
    destruct (ToStorePreparedBatch_typed b stored Ht Hh He E) as [Hts _].
    destruct (PersistPreparedCommits _ _ _) as [s cs] eqn:Ep.
    destruct (PersistPreparedCommits_OK _ _ _ _ _ [stored] _ _ Hinv
      (proj2 (Forall_singleton _ _) Hts) Ho Ep) as (pt' & ? & ? & _). by exists ledger, events, pt'.
  - destruct Hok as (Ho1 & Ho2 & Ht). unfold Database_FinalizePreparedCommit.
    destruct (require _ _ ≫= _) as [wal|s] eqn:E; [|done]. inv_ok. bool_to_prop.
    destruct (decide_prepared _ _ _) as [s cs] eqn:Ed.
    eapply (decide_prepared_OK _ ledger events pt _ (mkStorePreparedDecision txn kCommit c))
      in Ed as (pt1 & Hinv1 & He1 & Hdec); try done.
    destruct s as [|code m]; [|by exists ledger, events, pt1].
    destruct (finalize_decided _ _ _ _ _ _) as [r cs1] eqn:Ef.
    destruct (finalize_decided_OK _ _ _ _ _ _ _ _ _ _ _ _ Hinv1 Ht Ho2 (Hdec eq_refl) eq_refl Ef)
      as (ledger' & events' & pt' & ? & ? & _).
    exists ledger', events', pt'. split; [done|by eapply evolves_trans].
  - destruct Hok as (Ho1 & Ho2 & Ht). unfold Database_AbortPreparedCommit.
    destruct (require _ _ ≫= _) as [wal|s] eqn:E; [|done]. inv_ok. bool_to_prop.
    destruct (decide_prepared _ _ _) as [s cs] eqn:Ed.
    eapply (decide_prepared_OK _ ledger events pt _ (mkStorePreparedDecision txn kAbort c))
      in Ed as (pt1 & Hinv1 & He1 & Hdec); try done.
    destruct s as [|code m]; [|by exists ledger, events, pt1].
    destruct (AbortPreparedCommit _ _ _) as [r cs1] eqn:Ea.
    destruct (AbortPreparedCommit_OK _ _ _ _ _ _ _ _ _ Hinv1 Ht Ho2 (Hdec eq_refl) eq_refl Ea)
      as (pt' & ? & ? & _).
    exists ledger, events, pt'. split; [done|by eapply evolves_trans].
  - destruct Hok as (Ho & Ht & Hf & Hdec & k & Hk & Hg).
    pose proof (pi_tables _ _ _ _ Hinv) as Hp.
    assert (txn_id b <> 0) as H0.
    { unfold EncodePreparedCommitKey in Hk. destruct (Z.eqb_spec (txn_id b) 0); done. }
    rewrite (ResolvePreparedDecision_OK pt) in Hdec; [|done|apply Ht|done].
    injection Hdec as Hdec.
    pose proof (table_get _ _ _ _ _ _ prepared_row_typed _ _ _ _ (pt_prepares _ _ Hp)
      (proj1 Ht) Hk) as Hrow.
    destruct (pt_prepared pt !! txn_id b) as [b0|] eqn:Eb.
    { destruct Hrow as (_ & v & _ & ?). congruence. }
    destruct (CommitDirect _ _ _ _ _) as [r cs'] eqn:Ec.
    destruct (foreign_commit_OK _ _ _ _ _ _ _ _ _ Hinv Ht Hf Eb Hdec Ho Ec)
      as (ledger' & events' & ? & ?). by exists ledger', events', pt.
Qed.

Lemma call_steps_inv cf_id grouped db db' ledger events pt :
  prepared_inv ledger events pt (kd_store db) -> rtc (call_step cf_id grouped) db db' ->
  exists ledger' events' pt', prepared_inv ledger' events' pt' (kd_store db') /\
    evolves ledger pt ledger' pt'.
Proof.
  intros Hinv Hsteps. revert ledger events pt Hinv.
  induction Hsteps as [db|db db1 db' Hstep Hsteps IH]; intros ledger events pt Hinv.
  { exists ledger, events, pt. split; [done|apply evolves_refl]. }
  destruct (call_step_inv _ _ _ _ _ _ _ Hinv Hstep) as (l1 & e1 & p1 & Hinv1 & He1).
  destruct (IH _ _ _ Hinv1) as (l2 & e2 & p2 & ? & ?).
  exists l2, e2, p2. split; [done|by eapply evolves_trans].
Qed.

(** ** Recovery *)

Lemma finalize_one cf_id outcome grouped sync ledger events pt cs b x cs' :
  commit_inv ledger events cs -> participates pt (meta_cf cs) -> outcome_ok outcome ->
  pt_prepared pt !! txn_id b = Some b -> ~ committed_in ledger (txn_id b) ->
  FinalizePreparedCommit cf_id outcome grouped sync b cs = (Ok x, cs') ->
  exists events', commit_inv ((result_commit_seq x, b) :: ledger) events' cs' /\
    participates (with_prepared (delete (txn_id b) (pt_prepared pt)) pt) (meta_cf cs').
Proof.
  intros Hinv Hp Ho Hb Hn H.
  destruct (table_rows _ _ _ _ _ _ (pt_prepares _ _ Hp) _ _ Hb)
    as ((Hu & _ & Ht & Hv & Hf) & k & v & Hk & _).
  rewrite (FinalizePreparedCommit_direct _ _ _ _ _ _ k Hk) in H.
  assert (prepared_key_ok b (Some k)) as Hpk by by intros ? [= <-].
  pose proof (CommitDirect_OK cf_id outcome ledger events cs b (Some k) Hinv Ht Hpk Ho _ _
    ltac:(congruence) H) as Hverdict.
  apply (CommitDirect_effect cf_id outcome ledger events) in H; try done; [|congruence].
  destruct H as [Ed Hrun Hr|ops written seq Hops Ed Ed' Hw Hnew Hseq Hr Hx].
  - destruct (Hr x eq_refl) as (s & stored & Hin & (Et & _) & _). destruct Hn.
    by exists s, stored.
  - rewrite (Hx x eq_refl). cbn [result_commit_seq].
    exists (batch_events seq b ++ events). split.
    + inversion Hverdict; subst; [done|]. destruct Hn.
      match goal with H : same_batch _ ?stored |- _ => exists s, stored; destruct H end.
      done.
    + change (meta_cf cs') with (db_meta (cs_db cs')). rewrite Ed.
      eapply participates_finalize; try done. split; [apply (inv_store _ _ _ Hinv)|apply Hinv].
Qed.

Lemma finalize_all_OK cf_id outcomes grouped batches n ledger events pt cs cs' :
  commit_inv ledger events cs -> participates pt (meta_cf cs) ->
  (forall n, outcome_ok (outcomes n)) ->
  (forall txn b, pt_prepared pt !! txn = Some b -> ~ committed_in ledger txn) ->
  NoDup (txn_id <$> batches) ->
  (forall b, b ∈ batches <-> pt_prepared pt !! txn_id b = Some b) ->
  finalize_all cf_id outcomes n grouped batches cs = (Ok tt, cs') ->
  exists ledger' events', commit_inv ledger' events' cs' /\
    participates (with_prepared ∅ pt) (meta_cf cs') /\
    (forall e, e ∈ ledger -> e ∈ ledger') /\
    (forall b, b ∈ batches -> exists s, (s, b) ∈ ledger').
Proof.
  revert n ledger events pt cs. induction batches as [|b batches IH];
    intros n ledger events pt cs Hinv Hp Ho Hw Hnd Hl H; cbn [finalize_all] in H.
  { injection H as <-. exists ledger, events. split_and!; try done.
    - assert (pt_prepared pt = ∅) as E.
      { apply map_empty. intros txn. destruct (pt_prepared pt !! txn) as [b|] eqn:Eb; [|done].
        destruct (table_rows _ _ _ _ _ _ (pt_prepares _ _ Hp) _ _ Eb) as [(_ & Et & _) _].
        rewrite <- Et in Eb. by apply Hl, not_elem_of_nil in Eb. }
      rewrite <- E. by destruct pt.
    - by intros b ?%not_elem_of_nil. }
  rewrite fmap_cons, NoDup_cons in Hnd. destruct Hnd as [Hnb Hnd].
  destruct (FinalizePreparedCommit _ _ _ _ _ _) as [[x|s] cs1] eqn:Ef; [|done].
  assert (pt_prepared pt !! txn_id b = Some b) as Hb by (apply Hl; by left).
  eapply finalize_one in Ef as (events1 & Hinv1 & Hp1); eauto.
  edestruct (IH (S n)) as (l' & e' & ? & ? & Hsub & Hall);
    [exact Hinv1|exact Hp1|done| |done| |exact H|].
  - cbn. intros txn b' [Hne Hb']%lookup_delete_Some [Et|Hc]%committed_cons; [done|].
    by eapply Hw.
  - cbn. intros b'. rewrite lookup_delete_Some, <- Hl, elem_of_cons. split.
    + intros Hb'. split; [|by right]. intros E. apply Hnb. rewrite E.
      by apply list_elem_of_fmap_2.
    + by intros [Hne [-> |?]].
  - exists l', e'. split_and!; try done.
    + intros e He. apply Hsub. by right.
    + intros b' [->|Hin]%elem_of_cons; [|auto]. eexists. apply Hsub. by left.
Qed.

Lemma sorted_ids_NoDup l :
  StronglySorted (fun a b => txn_id a < txn_id b) l -> NoDup (txn_id <$> l).
Proof.
  induction 1 as [|b l Hs IH Hall]; [constructor|]. rewrite fmap_cons. constructor; [|done].
  intros (b' & E & Hin)%list_elem_of_fmap. rewrite Forall_forall in Hall.
  specialize (Hall b' Hin). lia.
Qed.

(** ** The sample *)

Lemma sample_prepared_inv :
  prepared_inv [] sample_events no_participants (kd_store sample_prepared_db).
Proof.
  assert (forall V (f : Z -> StatusOr (list byte)) (g : Z -> V -> StatusOr (list byte))
    (ok : Z -> V -> Prop) p, table_in p f g ok ∅ []) as Htab.
  { intros. split; [by intros ? ? ?%lookup_empty_Some|done]. }
  split.
  - split; [apply sample_store_ok|constructor].
  - split; apply Htab.
  - by intros s b ?%not_elem_of_nil.
  - by intros txn k _ _ [? ?].
  - intros _. exact sample_commit_inv.
  - split; intros txn x Hx; cbn in Hx; by rewrite lookup_empty in Hx.
Qed.

Lemma prepared_sample_inv :
  exists pt, prepared_inv [] sample_events pt (kd_store prepared_sample) /\
    pt_prepared pt !! 61 = Some sample_stored.
Proof.
  destruct (PersistPreparedCommits_OK sample_written [] sample_events no_participants
    sample_commit_store [sample_stored] StatusOK (kd_store prepared_sample))
    as (pt & Hinv & _ & Hin); [exact sample_prepared_inv| |done|by vm_compute|].
  - apply Forall_singleton. unfold prepared_typed. cbn.
    split_and!; try (unfold uint; lia); try constructor; [|constructor].
    split_and!; unfold ref_typed, uint; cbn; split_and?; lia || done.
  - exists pt. split; [done|]. by apply (Hin eq_refl sample_stored); left.
Qed.

Lemma finalized_sample_step : call_step sample_cf_id false prepared_sample finalized_sample.
Proof.
  exists (call_finalize sample_outcomes 61 sample_certificate kBuffered).
  split; [|done]. cbn. unfold outcome_ok, uint. cbn. split_and!; done || lia.
Qed.

Lemma finalized_none_waits : ListPreparedCommits (kd_store finalized_sample) = Ok [].
Proof. by vm_compute. Qed.

Lemma finalized_decision :
  ResolvePreparedDecision 61 (kd_store finalized_sample)
  = Ok (Some (mkStorePreparedDecision 61 kCommit sample_certificate)).
Proof. by vm_compute. Qed.

Lemma interrupted_step : call_step sample_cf_id false prepared_sample interrupted_sample.
Proof.
  exists (call_abort sample_written (mkWriteOutcome (rocks_other "IO error: ") false) 61
    sample_certificate).
  split; [|done]. cbn. unfold outcome_ok, uint. cbn. split_and!; done || lia.
Qed.

Lemma interrupted_decision :
  ResolvePreparedDecision 61 (kd_store interrupted_sample)
  = Ok (Some (mkStorePreparedDecision 61 kAbort sample_certificate)).
Proof. by vm_compute. Qed.

Lemma interrupted_finalize_step :
  call_step sample_cf_id false interrupted_sample
    (run_call sample_cf_id false
       (call_finalize sample_outcomes 61 sample_certificate kBuffered) interrupted_sample).
Proof.
  exists (call_finalize sample_outcomes 61 sample_certificate kBuffered).
  split; [|done]. cbn. unfold outcome_ok, uint. cbn. split_and!; done || lia.
Qed.

Lemma decided_sample_inv :
  exists pt, prepared_inv [] sample_events pt decided_sample /\
    pt_prepared pt !! 61 = Some sample_stored.
Proof.
  destruct prepared_sample_inv as (pt & Hinv & Hb).
  destruct (decide_prepared_OK sample_written [] sample_events pt (kd_store prepared_sample)
    (mkStorePreparedDecision 61 kAbort sample_certificate) StatusOK decided_sample)
    as (pt' & Hinv' & _); [done|unfold uint; cbn; lia|done|done|by vm_compute|].
  exists pt'. split; [done|].
  destruct (ListPreparedCommits_OK pt' decided_sample) as (l & El & _ & Hl);
    [apply Hinv'|apply Hinv'|].
  assert (ListPreparedCommits decided_sample = Ok [sample_stored]) as E by by vm_compute.
  rewrite E in El. injection El as <-. by apply (Hl sample_stored); left.
Qed.

Lemma decided_sample_runs : recovery_required decided_sample = false.
Proof. by vm_compute. Qed.

(** The recovery of the sample. *)
Lemma decided_sample_recovers :
  let result := recover_prepared sample_cf_id (fun _ => sample_written) false
                  kFinalizeOnOpen decided_sample in
  result = (Ok tt, result.2) /\
  ResolvePreparedDecision 61 result.2
  = Ok (Some (mkStorePreparedDecision 61 kAbort sample_certificate)).
Proof.
  cbv zeta. split; [|by vm_compute].
  apply injective_projections; [by vm_compute|reflexivity].
Qed.

(** ** Properties *)

(** C6: a prepared transaction is atomic while its database stays open.  Take any
    sequence of calls that prepare, finalize and abort transactions, and of commits of
    transactions that are neither prepared nor decided (with a fresh identifier that has
    no outcome, as [Transaction::Commit] submits them, or not), whatever becomes of
    their writes.  Afterwards a transaction that was prepared still waits and is not
    committed; or a decision is recorded for it, and it is committed with exactly the
    batch that was prepared when the decision says so, and not committed when the
    decision is to abort.  Nothing that was committed is lost.  Vacuum is not among the
    calls, nor is opening the database again, where the recovery policy decides and not
    the recorded decision. *)
Theorem prepared_transaction_atomic cf_id grouped db db' ledger events pt :
  prepared_inv ledger events pt (kd_store db) ->
  rtc (call_step cf_id grouped) db db' ->
  exists ledger' events' pt', prepared_inv ledger' events' pt' (kd_store db') /\
    (forall e, e ∈ ledger -> e ∈ ledger') /\
    (forall txn b, pt_prepared pt !! txn = Some b ->
       pt_prepared pt' !! txn = Some b /\ ~ committed_in ledger' txn \/
       exists d, ResolvePreparedDecision txn (kd_store db') = Ok (Some d) /\
         (decision_outcome d = kCommit /\ (exists s, (s, b) ∈ ledger') \/
          decision_outcome d = kAbort /\ ~ committed_in ledger' txn)).
Proof.
  intros Hinv Hsteps.
  destruct (call_steps_inv _ _ _ _ _ _ _ Hinv Hsteps) as (ledger' & events' & pt' & Hinv' & He).
  exists ledger', events', pt'. split; [done|]. split; [apply He|]. intros txn b Hb.
  destruct (table_rows _ _ _ _ _ _ (pt_prepares _ _ (pi_tables _ _ _ _ Hinv)) _ _ Hb)
    as ((Hu & _) & k & _ & Hk & _).
  destruct (pi_keeps _ _ _ _ Hinv') as [Hw Hd].
  destruct (ev_fate _ _ _ _ He txn b Hb) as [Hb'|(d & Hdec & Hf)].
  { left. split; [done|by eapply Hw]. }
  right. exists d. split.
  - rewrite (ResolvePreparedDecision_OK pt'), Hdec; try done; [apply Hinv'|].
    unfold EncodePreparedCommitKey in Hk. destruct (Z.eqb_spec txn 0); done.
  - destruct Hf as [Hf|Ha]; [by left|right]. specialize (Hd txn d Hdec).
    rewrite Ha in Hd. done.
Qed.

Lemma prepared_transaction_atomic_witness :
  exists ledger events pt s, prepared_inv ledger events pt (kd_store finalized_sample) /\
    (s, sample_stored) ∈ ledger.
Proof.
  destruct prepared_sample_inv as (pt & Hinv & Hb).
  destruct (prepared_transaction_atomic sample_cf_id false prepared_sample finalized_sample
    [] sample_events pt Hinv (rtc_once _ _ finalized_sample_step))
    as (ledger & events & pt' & Hinv' & _ & Hfate).
  exists ledger, events, pt'. destruct (Hfate 61 sample_stored Hb) as [[Hw _]|(d & Hd & Hf)].
  - destruct (ListPreparedCommits_OK pt' (kd_store finalized_sample)) as (l & El & _ & Hl);
      [apply Hinv'|apply Hinv'|].
    rewrite finalized_none_waits in El. injection El as <-.
    destruct (not_elem_of_nil sample_stored (proj2 (Hl sample_stored) Hw)).
  - rewrite finalized_decision in Hd. injection Hd as <-.
    destruct Hf as [[_ [s Hs]]|[Ha _]]; [|discriminate Ha].
    exists s. exact (conj Hinv' Hs).
Defined.

(** C40: decisions are final while the database stays open.  After any sequence of
    calls that prepare, finalize and abort transactions, and of commits of transactions
    that are neither prepared nor decided, whatever becomes of their writes, a decision
    that was recorded is answered unchanged, and a transaction with the decision to abort
    is never answered as committed. *)
Theorem prepared_decision_final cf_id grouped db db' ledger events pt txn d :
  prepared_inv ledger events pt (kd_store db) ->
  rtc (call_step cf_id grouped) db db' -> uint 64 txn ->
  ResolvePreparedDecision txn (kd_store db) = Ok (Some d) ->
  ResolvePreparedDecision txn (kd_store db') = Ok (Some d) /\
  (decision_outcome d = kAbort ->
   forall x, ResolveTransaction txn (kd_store db') <> Ok (Some x)).
Proof.
  intros Hinv Hsteps Ht Hd.
  assert (txn <> 0) as H0 by by intros ->.
  destruct (call_steps_inv _ _ _ _ _ _ _ Hinv Hsteps) as (ledger' & events' & pt' & Hinv' & He).
  rewrite (ResolvePreparedDecision_OK pt) in Hd by (done || apply Hinv).
  injection Hd as Hd. apply (ev_decisions _ _ _ _ He) in Hd.
  split; [by rewrite (ResolvePreparedDecision_OK pt'), Hd by (done || apply Hinv')|].
  intros Ha x Hx. pose proof (keeps_decided _ _ (pi_keeps _ _ _ _ Hinv') txn d Hd) as Hk.
  rewrite Ha in Hk. apply Hk.
  destruct (ResolveTransaction_sound _ _ _ _ _ _ Hinv' Ht Hx) as (b & ? & ?).
  by exists (result_commit_seq x), b.
Qed.

Lemma prepared_decision_final_witness :
  ResolvePreparedDecision 61 (kd_store (run_call sample_cf_id false
    (call_finalize sample_outcomes 61 sample_certificate kBuffered) interrupted_sample))
  = Ok (Some (mkStorePreparedDecision 61 kAbort sample_certificate)).
Proof.
  destruct prepared_sample_inv as (pt & Hinv & Hb).
  destruct (call_step_inv sample_cf_id false prepared_sample interrupted_sample
    [] sample_events pt Hinv interrupted_step) as (ledger & events & pt' & Hinv' & _).
  apply (prepared_decision_final sample_cf_id false interrupted_sample _ ledger events pt'
    61 (mkStorePreparedDecision 61 kAbort sample_certificate) Hinv'
    (rtc_once _ _ interrupted_finalize_step) ltac:(unfold uint; lia) interrupted_decision).
Defined.

(** C31: when a database is opened with the policy to finalize, recovery that succeeds
    has committed every prepared transaction with exactly its batch, in whatever state
    its decision is, and none waits any more; what was committed before stays and the
    decisions are unchanged. *)
Theorem recover_prepared_spec cf_id outcomes grouped ledger events pt cs cs' :
  commit_inv ledger events cs -> participates pt (meta_cf cs) ->
  (forall n, outcome_ok (outcomes n)) ->
  (forall txn b, pt_prepared pt !! txn = Some b -> ~ committed_in ledger txn) ->
  recover_prepared cf_id outcomes grouped kFinalizeOnOpen cs = (Ok tt, cs') ->
  exists ledger' events', commit_inv ledger' events' cs' /\
    (forall e, e ∈ ledger -> e ∈ ledger') /\
    (forall txn b, pt_prepared pt !! txn = Some b -> exists s, (s, b) ∈ ledger') /\
    ListPreparedCommits cs' = Ok [] /\
    participates (with_prepared ∅ pt) (meta_cf cs').
Proof.
  intros Hinv Hp Ho Hw H. unfold recover_prepared in H.
  destruct (ListPreparedCommits_OK pt cs (inv_meta _ _ _ Hinv) Hp) as (l & El & Hs & Hl).
  rewrite El in H.
  destruct (finalize_all_OK _ _ _ _ _ _ _ _ _ _ Hinv Hp Ho Hw (sorted_ids_NoDup l Hs) Hl H)
    as (ledger' & events' & Hinv' & Hp' & Hsub & Hall).
  exists ledger', events'. split; [done|]. split; [done|]. split; [|split; [|done]].
  - intros txn b Hb. apply Hall, Hl.
    destruct (table_rows _ _ _ _ _ _ (pt_prepares _ _ Hp) _ _ Hb) as [(_ & -> & _) _]. done.
  - destruct (ListPreparedCommits_OK _ cs' (inv_meta _ _ _ Hinv') Hp') as (l' & -> & _ & Hl').
    destruct l' as [|b l']; [done|]. exfalso.
    apply (lookup_empty_Some (M := gmap Z) (txn_id b) b), Hl'. by left.
Qed.

Lemma recover_prepared_spec_witness :
  let cs' := (recover_prepared sample_cf_id (fun _ => sample_written) false
                kFinalizeOnOpen decided_sample).2 in
  ResolvePreparedDecision 61 cs'
  = Ok (Some (mkStorePreparedDecision 61 kAbort sample_certificate)) /\
  exists ledger events s, commit_inv ledger events cs' /\ (s, sample_stored) ∈ ledger.
Proof.
  destruct decided_sample_recovers as [Hrec Hdec]. split; [exact Hdec|].
  destruct decided_sample_inv as (pt & Hinv & Hb).
  destruct (recover_prepared_spec sample_cf_id (fun _ => sample_written) false [] sample_events
    pt decided_sample _ (pi_running _ _ _ _ Hinv decided_sample_runs)
    (pi_tables _ _ _ _ Hinv) (fun _ => I) (keeps_waiting _ _ (pi_keeps _ _ _ _ Hinv)) Hrec)
    as (ledger & events & Hc & _ & Hall & _).
  destruct (Hall 61 sample_stored Hb) as [s Hs]. exists ledger, events, s.
  exact (conj Hc Hs).
Defined.

(** ** Prepared edges *)

(** Findings: the events that are listed for a prepared edge are not valid events, and
    the edge is asserted from valid time zero on, although its state was prepared from
    valid time 30 on. *)
Lemma listed_edge_event_invalid :
  exists stored, ToStorePreparedBatch sample_edge_batch = Ok stored /\
    Exists (fun e => FactEvent_Validate e <> StatusOK)
      (pc_events (ToPublicPreparedBatch stored)) /\
    mkPendingFactMutation (mkFactRef 1 kEdgeState 0 88) 0 kPut 0 None ∈ mutations stored.
Proof.
  eexists. split; [by vm_compute|]. split; [|by left].
  apply Exists_cons_hd. by vm_compute.
Qed.
