(* ===== verification/Allocator.v ===== *)
(** * Allocator: identifiers of transactions, vertices and edges

    Models the allocators of [src/storage/rocks/rocks_adapter.cc]:
    [LoadAllocatorState] and [LoadTransactionAllocatorState] when a store is opened,
    [LeaseIds], and [AllocateTransactionId], whose common path only uses atomics.

    [AllocateTransactionId] is a step function of one thread, with a step for every
    atomic load, store and exchange and for taking the lease mutex; the part under the
    publisher lock is one step, and the two loads under the lease mutex, which nobody
    else writes the limit without, are one.  An exchange may fail spuriously.  The
    system interleaves the threads with leases, with other writes and with restarts.
    The outcomes of the writes are arguments. *)

From S2P Require Import Prelude Status Crc32c Wire Value Fact FactCodec CommitBatch.
From S2P Require Import Frame MetaCodec PreparedCodec GroupCommit Bloom RecentWrites.
From S2P Require Import ValidationCache Accelerators Temporal FactStore Conflict.
From S2P Require Import WriteBatch Commit Vacuum SequenceRetention Retention MetaTable.

#[export] Instance IdKind_eq_dec : EqDecision IdKind.
Proof. solve_decision. Defined.

Definition kDefaultIdLeaseSize : Z := 65536.
Definition kDefaultEntityIdLeaseSize : Z := 4096.

Definition TransactionIdLeaseSize (lease_size_for_testing : Z) : Z :=
  if lease_size_for_testing =? 0 then kDefaultIdLeaseSize else lease_size_for_testing.

(** ** Loading *)

Definition LoadAllocatorState (meta : column_family) (kind : IdKind) : StatusOr Z :=
  match cf_get (EncodeAllocatorMetaKey kind) meta with
  | None => Ok 1
  | Some encoded =>
      decoded ← DecodeIdAllocatorState encoded;
      _ ← require (bool_decide (alloc_kind decoded = kind))
            (Corruption "fact store" "allocator record has wrong ID kind");
      Ok (next_id decoded)
  end.

Definition highest_transaction (highest : Z) (kv : list byte * list byte) : StatusOr Z :=
  _ ← require (length kv.1 =? kSequenceMetaKeyBytes)%nat
        (Corruption "fact store" "invalid durable sequence record key");
  sequence ← DecodeSequenceRecord kv.2 (ParseSequenceMetaKey kv.1);
  Ok (Z.max highest (seq_txn_id sequence)).

Definition LoadTransactionAllocatorState (meta : column_family)
    (sequence_retention_watermark : Z) : StatusOr Z :=
  match cf_get (EncodeAllocatorMetaKey kTransactionId) meta with
  | Some encoded =>
      decoded ← DecodeIdAllocatorState encoded;
      _ ← require (bool_decide (alloc_kind decoded = kTransactionId))
            (Corruption "fact store" "transaction allocator has wrong ID kind");
      Ok (next_id decoded)
  | None =>
      let first_key :=
        AppendU64 kSequenceMetaPrefix (Z.max 1 sequence_retention_watermark) in
      highest ← loop highest_transaction 0
                  (while_prefix kSequenceMetaPrefix (Seek first_key meta));
      _ ← require (negb (highest =? U64_MAX))
            (ResourceExhausted "transaction" "transaction ID space exhausted");
      Ok (highest + 1)
  end.

(** ** State *)

(** The store with its allocators; the mutex knows the thread that holds it. *)
Record AllocatorStore := mkAllocatorStore {
  al_store : CommitStore;
  vertex_allocator : Z;
  edge_allocator : Z;
  transaction_allocator : Z;
  next_transaction_id : Z;
  transaction_lease_limit : Z;
  transaction_lease_mutex : option nat
}.

(** What opening a store makes of its allocators. *)
Definition open_allocators (cs : CommitStore) : StatusOr AllocatorStore :=
  vertex ← LoadAllocatorState (meta_cf cs) kVertexId;
  edge ← LoadAllocatorState (meta_cf cs) kEdgeId;
  transaction ← LoadTransactionAllocatorState (meta_cf cs)
                  (sequence_retention_watermark cs);
  Ok (mkAllocatorStore cs vertex edge transaction transaction transaction None).

Definition with_al_store (cs : CommitStore) (s : AllocatorStore) : AllocatorStore :=
  mkAllocatorStore cs (vertex_allocator s) (edge_allocator s) (transaction_allocator s)
    (next_transaction_id s) (transaction_lease_limit s) (transaction_lease_mutex s).

Definition with_allocator (kind : IdKind) (next : Z) (s : AllocatorStore)
  : AllocatorStore :=
  let vertex := if bool_decide (kind = kVertexId) then next else vertex_allocator s in
  let edge := if bool_decide (kind = kEdgeId) then next else edge_allocator s in
  let transaction :=
    if bool_decide (kind = kTransactionId) then next else transaction_allocator s in
  mkAllocatorStore (al_store s) vertex edge transaction (next_transaction_id s)
    (transaction_lease_limit s) (transaction_lease_mutex s).

Definition with_lease (next limit : Z) (s : AllocatorStore) : AllocatorStore :=
  mkAllocatorStore (al_store s) (vertex_allocator s) (edge_allocator s)
    (transaction_allocator s) next limit (transaction_lease_mutex s).

Definition with_mutex (mutex : option nat) (s : AllocatorStore) : AllocatorStore :=
  mkAllocatorStore (al_store s) (vertex_allocator s) (edge_allocator s)
    (transaction_allocator s) (next_transaction_id s) (transaction_lease_limit s) mutex.

(** The synchronized write of an allocator record; the allocator in memory follows when
    the write is known to be durable. *)
Definition write_allocator (outcome : WriteOutcome) (kind : IdKind) (next : Z)
    (s : AllocatorStore) : Status * AllocatorStore :=
  match EncodeIdAllocatorState (mkIdAllocatorState kind next) with
  | Fail status => (status, s)
  | Ok encoded =>
      match persist_metadata outcome [Put kMetaCf (EncodeAllocatorMetaKey kind) encoded]
              (al_store s) with
      | (StatusOK, cs) => (StatusOK, with_allocator kind next (with_al_store cs s))
      | (status, cs) => (status, with_al_store cs s)
      end
  end.

(** ** Leases of vertex and edge identifiers *)

Record IdLease := mkIdLease {
  lease_kind : IdKind;
  lease_first_id : Z;
  lease_count : Z
}.

Definition LeaseIds (outcome : WriteOutcome) (kind : IdKind) (count : Z)
    (s : AllocatorStore) : StatusOr IdLease * AllocatorStore :=
  let count := if count =? 0 then kDefaultEntityIdLeaseSize else count in
  let allocator := if bool_decide (kind = kVertexId) then vertex_allocator s
                   else edge_allocator s in
  match
    _ ← require (bool_decide (kind = kVertexId) || bool_decide (kind = kEdgeId))
          (InvalidArgument "ID lease" "unknown ID kind");
    _ ← require (negb (recovery_required (al_store s)))
          (RecoveryRequired "ID lease" "reopen required after indeterminate write");
    require (count <=? U64_MAX - allocator)
      (ResourceExhausted "ID lease" "ID space exhausted")
  with
  | Fail status => (Fail status, s)
  | Ok _ =>
      match write_allocator outcome kind (allocator + count) s with
      | (StatusOK, s) => (Ok (mkIdLease kind allocator count), s)
      | (status, s) => (Fail status, s)
      end
  end.

(** ** Transaction identifiers *)

(** Where a call is.  The first three stages are the common path; from [rechecking] on
    the thread holds the lease mutex. *)
Inductive AllocStage :=
| at_top
| loaded_next (next : Z)
| loaded_limit (next limit : Z)
| locking
| rechecking
| extending
| storing_next (lease_start next_id : Z)
| storing_limit (next_id : Z)
| returned (result : StatusOr Z).

Definition transaction_recovery : Status :=
  RecoveryRequired "transaction" "reopen required after indeterminate write".

(** The slow path under the publisher lock, to the write. *)
Definition extend_lease (lease_size : Z) (outcome : WriteOutcome) (s : AllocatorStore)
  : AllocatorStore * AllocStage :=
  let lease_start := transaction_allocator s in
  if recovery_required (al_store s) then
    (with_mutex None s, returned (Fail transaction_recovery))
  else if U64_MAX - lease_start <? lease_size then
    (with_mutex None s,
     returned (Fail (ResourceExhausted "transaction" "transaction ID space exhausted")))
  else
    match write_allocator outcome kTransactionId (lease_start + lease_size) s with
    | (StatusOK, s) => (s, storing_next lease_start (lease_start + lease_size))
    | (status, s) => (with_mutex None s, returned (Fail status))
    end.

(** One step of [AllocateTransactionId] by the thread [self]; [None] when it waits. *)
Definition AllocateTransactionId_step (lease_size : Z) (outcome : WriteOutcome)
    (spurious : bool) (self : nat) (s : AllocatorStore) (stage : AllocStage)
  : option (AllocatorStore * AllocStage) :=
  match stage with
  | at_top =>
      Some (s, if recovery_required (al_store s) then returned (Fail transaction_recovery)
               else loaded_next (next_transaction_id s))
  | loaded_next next => Some (s, loaded_limit next (transaction_lease_limit s))
  | loaded_limit next limit =>
      if (next <? limit) && negb spurious && (next_transaction_id s =? next)
      then Some (with_lease (wrap 64 (next + 1)) (transaction_lease_limit s) s,
                 returned (Ok next))
      else Some (s, locking)
  | locking =>
      match transaction_lease_mutex s with
      | None => Some (with_mutex (Some self) s, rechecking)
      | Some _ => None
      end
  | rechecking =>
      if next_transaction_id s <? transaction_lease_limit s
      then Some (with_mutex None s, at_top)
      else Some (s, extending)
  | extending => Some (extend_lease lease_size outcome s)
  | storing_next lease_start next_id =>
      Some (with_lease lease_start (transaction_lease_limit s) s, storing_limit next_id)
  | storing_limit next_id =>
      Some (with_mutex None (with_lease (next_transaction_id s) next_id s), at_top)
  | returned _ => None
  end.

(** A call on its own. *)
Fixpoint AllocateTransactionId (fuel : nat) (lease_size : Z)
    (outcomes : nat -> WriteOutcome) (s : AllocatorStore) (stage : AllocStage)
  : option (StatusOr Z * AllocatorStore) :=
  match fuel, stage with
  | _, returned result => Some (result, s)
  | O, _ => None
  | S fuel', _ =>
      '(s, stage) ←
        AllocateTransactionId_step lease_size (outcomes fuel) false 0 s stage;
      AllocateTransactionId fuel' lease_size outcomes s stage
  end.

(** ** Specification *)

(** A system: the store, the threads inside [AllocateTransactionId], and what was
    handed out since the database exists, the newest first. *)
Record AllocSystem := mkAllocSystem {
  sys_store : AllocatorStore;
  sys_threads : list AllocStage;
  sys_issued : list Z;
  sys_leases : list IdLease
}.

Definition issued_by (stage : AllocStage) : list Z :=
  match stage with returned (Ok id) => [id] | _ => [] end.

Definition leased_by (result : StatusOr IdLease) : list IdLease :=
  match result with Ok lease => [lease] | Fail _ => [] end.

Inductive alloc_system_step (lease_size : Z) : AllocSystem -> AllocSystem -> Prop :=
| step_thread sys i stage outcome spurious s' stage' :
    sys_threads sys !! i = Some stage -> outcome_ok outcome ->
    AllocateTransactionId_step lease_size outcome spurious i (sys_store sys) stage
    = Some (s', stage') ->
    alloc_system_step lease_size sys
      (mkAllocSystem s' (<[i := stage']> (sys_threads sys))
         (issued_by stage' ++ sys_issued sys) (sys_leases sys))
| step_call sys i result :
    sys_threads sys !! i = Some (returned result) ->
    alloc_system_step lease_size sys
      (mkAllocSystem (sys_store sys) (<[i := at_top]> (sys_threads sys))
         (sys_issued sys) (sys_leases sys))
| step_spawn sys :
    alloc_system_step lease_size sys
      (mkAllocSystem (sys_store sys) (sys_threads sys ++ [at_top]) (sys_issued sys)
         (sys_leases sys))
| step_lease sys outcome kind count result s' :
    outcome_ok outcome -> 0 <= count ->
    LeaseIds outcome kind count (sys_store sys) = (result, s') ->
    alloc_system_step lease_size sys
      (mkAllocSystem s' (sys_threads sys) (sys_issued sys)
         (leased_by result ++ sys_leases sys))
| step_other sys cs :
    db_sorted (cs_db cs) ->
    (forall k, StartsWith k (literal "allocator/") = true ->
       cf_get k (meta_cf cs) = cf_get k (meta_cf (al_store (sys_store sys)))) ->
    alloc_system_step lease_size sys
      (mkAllocSystem (with_al_store cs (sys_store sys)) (sys_threads sys)
         (sys_issued sys) (sys_leases sys))
| step_restart sys cs s' :
    meta_cf cs = meta_cf (al_store (sys_store sys)) -> db_sorted (cs_db cs) ->
    open_allocators cs = Ok s' ->
    alloc_system_step lease_size sys
      (mkAllocSystem s' [] (sys_issued sys) (sys_leases sys)).

(** The record of an allocator, if there is one, is not behind [next]; [fresh] has to
    hold while there is none. *)
Definition durable_at (kind : IdKind) (next : Z) (fresh : Prop) (meta : column_family)
  : Prop :=
  match cf_get (EncodeAllocatorMetaKey kind) meta with
  | None => fresh
  | Some encoded => exists d, DecodeIdAllocatorState encoded = Ok d /\
      alloc_kind d = kind /\ next <= next_id d < 2 ^ 64
  end.

Definition holds_mutex (stage : AllocStage) : bool :=
  match stage with
  | rechecking | extending | storing_next _ _ | storing_limit _ => true
  | _ => false
  end.

(** The lease that a thread is about to make known. *)
Definition pending_lease (stage : AllocStage) : bool :=
  match stage with storing_next _ _ | storing_limit _ => true | _ => false end.

(** What the write of a record does to the metadata. *)
Definition allocator_written (kind : IdKind) (next : Z) (s : AllocatorStore)
    (cs : CommitStore) : Prop :=
  db_sorted (cs_db cs) /\
  (forall k, k <> EncodeAllocatorMetaKey kind ->
     cf_get k (meta_cf cs) = cf_get k (meta_cf (al_store s))) /\
  (cf_get (EncodeAllocatorMetaKey kind) (meta_cf cs)
   = cf_get (EncodeAllocatorMetaKey kind) (meta_cf (al_store s)) \/
   exists encoded, cf_get (EncodeAllocatorMetaKey kind) (meta_cf cs) = Some encoded /\
     DecodeIdAllocatorState encoded = Ok (mkIdAllocatorState kind next)).

(** The transaction allocator has a record. *)
Definition lease_recorded (s : AllocatorStore) : Prop :=
  is_Some (cf_get (EncodeAllocatorMetaKey kTransactionId) (meta_cf (al_store s))).

Definition stage_ok (s : AllocatorStore) (stage : AllocStage) : Prop :=
  match stage with
  | loaded_limit _ limit => limit <= transaction_lease_limit s
  | extending => next_transaction_id s = transaction_lease_limit s
  | storing_next lease_start next =>
      lease_start = transaction_lease_limit s /\ next = transaction_allocator s /\
      next_transaction_id s = transaction_lease_limit s /\ lease_recorded s
  | storing_limit next =>
      next = transaction_allocator s /\
      next_transaction_id s = transaction_lease_limit s /\ lease_recorded s
  | _ => True
  end.

Definition kind_leases (kind : IdKind) (leases : list IdLease) : list IdLease :=
  filter (fun l => lease_kind l = kind) leases.

(** The leases of a kind lie behind each other and before [next]. *)
Definition leases_ok (kind : IdKind) (next : Z) (meta : column_family)
    (leases : list IdLease) : Prop :=
  1 <= next < 2 ^ 64 /\ durable_at kind next (kind_leases kind leases = []) meta /\
  Forall (fun l => 1 <= lease_first_id l /\ 0 < lease_count l /\
                   lease_first_id l + lease_count l <= next) (kind_leases kind leases) /\
  StronglySorted (fun l' l => lease_first_id l + lease_count l <= lease_first_id l')
    (kind_leases kind leases).

(** A call that meets no other one, as one function. *)
Definition allocate_alone (lease_size : Z) (outcome : WriteOutcome) (s : AllocatorStore)
  : StatusOr Z * AllocatorStore :=
  let next := next_transaction_id s in
  if recovery_required (al_store s) then (Fail transaction_recovery, s)
  else if next <? transaction_lease_limit s then
    (Ok next, with_lease (next + 1) (transaction_lease_limit s) s)
  else if U64_MAX - next <? lease_size then
    (Fail (ResourceExhausted "transaction" "transaction ID space exhausted"), s)
  else
    match write_allocator outcome kTransactionId (next + lease_size) s with
    | (StatusOK, s) => (Ok next, with_lease (next + 1) (next + lease_size) s)
    | (status, s) => (Fail status, s)
    end.

Record alloc_inv (sys : AllocSystem) : Prop := {
  ai_sorted : db_sorted (cs_db (al_store (sys_store sys)));
  ai_order : 1 <= next_transaction_id (sys_store sys)
             <= transaction_lease_limit (sys_store sys) /\
             transaction_lease_limit (sys_store sys)
             <= transaction_allocator (sys_store sys) < 2 ^ 64;
  ai_durable : durable_at kTransactionId (transaction_allocator (sys_store sys))
    (sys_issued sys = [] /\
     transaction_lease_limit (sys_store sys) = next_transaction_id (sys_store sys))
    (meta_cf (al_store (sys_store sys)));
  ai_issued : NoDup (sys_issued sys) /\
    Forall (fun id => 1 <= id < next_transaction_id (sys_store sys)) (sys_issued sys);
  ai_stages i stage : sys_threads sys !! i = Some stage ->
    stage_ok (sys_store sys) stage /\
    (holds_mutex stage = true <-> transaction_lease_mutex (sys_store sys) = Some i);
  ai_holder i : transaction_lease_mutex (sys_store sys) = Some i ->
    is_Some (sys_threads sys !! i);
  ai_limit : (exists i stage, sys_threads sys !! i = Some stage /\
                pending_lease stage = true) \/
    transaction_lease_limit (sys_store sys) = transaction_allocator (sys_store sys);
  ai_vertex : leases_ok kVertexId (vertex_allocator (sys_store sys))
    (meta_cf (al_store (sys_store sys))) (sys_leases sys);
  ai_edge : leases_ok kEdgeId (edge_allocator (sys_store sys))
    (meta_cf (al_store (sys_store sys))) (sys_leases sys)
}.

(** A store whose allocators have handed out nothing, the same store after one transaction
    and one lease of vertices, after a restart, and after another transaction. *)
Definition sample_allocators : AllocatorStore :=
  mkAllocatorStore sample_commit_store 1 1 1 1 1 None.

Definition after_call (s : AllocatorStore) : AllocatorStore :=
  (allocate_alone (TransactionIdLeaseSize 0) sample_written s).2.

Definition sample_leased : AllocatorStore :=
  (LeaseIds sample_written kVertexId 0 (after_call sample_allocators)).2.

Definition sample_restarted : AllocatorStore :=
  mkAllocatorStore (al_store sample_leased) 4097 1 65537 65537 65537 None.

(** ** Records *)

Lemma allocator_key_inj kind kind' :
  IsKnownIdKind kind = true -> IsKnownIdKind kind' = true ->
  EncodeAllocatorMetaKey kind = EncodeAllocatorMetaKey kind' -> kind = kind'.
Proof. destruct kind, kind'; done. Qed.

Lemma allocator_key_prefix kind :
  IsKnownIdKind kind = true ->
  StartsWith (EncodeAllocatorMetaKey kind) (literal "allocator/") = true.
Proof. by destruct kind. Qed.

Lemma allocator_encodes kind next :
  IsKnownIdKind kind = true -> 1 <= next < 2 ^ 64 ->
  exists encoded, EncodeIdAllocatorState (mkIdAllocatorState kind next) = Ok encoded /\
    DecodeIdAllocatorState encoded = Ok (mkIdAllocatorState kind next).
Proof.
  intros Hk Hn.
  assert (exists e, EncodeIdAllocatorState (mkIdAllocatorState kind next) = Ok e) as [e He].
  { unfold EncodeIdAllocatorState, IdAllocatorState_Validate. cbn [alloc_kind MetaCodec.next_id].
    rewrite Hk, (proj2 (Z.eqb_neq next 0)) by lia. cbn. by eexists. }
  exists e. split; [done|].
  apply (codec_decode (encode := EncodeIdAllocatorState) (typed := allocator_typed)); [|done].
  unfold allocator_typed, uint. cbn. lia.
Qed.

Lemma write_allocator_OK outcome kind next s status s' :
  db_sorted (cs_db (al_store s)) -> outcome_ok outcome -> IsKnownIdKind kind = true ->
  1 <= next < 2 ^ 64 -> write_allocator outcome kind next s = (status, s') ->
  exists cs, allocator_written kind next s cs /\
    match status with
    | StatusOK => s' = with_allocator kind next (with_al_store cs s) /\
        exists encoded, cf_get (EncodeAllocatorMetaKey kind) (meta_cf cs) = Some encoded /\
          DecodeIdAllocatorState encoded = Ok (mkIdAllocatorState kind next)
    | _ => s' = with_al_store cs s
    end.
Proof.
  intros Hs Ho Hk Hn H. unfold write_allocator in H.
  destruct (allocator_encodes kind next Hk Hn) as (e & He & Hd). rewrite He in H.
  destruct (persist_metadata _ _ _) as [st cs] eqn:Ep.
  apply persist_metadata_spec in Ep; [|done].
  set (key := EncodeAllocatorMetaKey kind) in *.
  set (written := with_db (db_write (cs_db (al_store s)) [Put kMetaCf key e]) (al_store s)) in *.
  assert (allocator_written kind next s written /\
          cf_get key (meta_cf written) = Some e) as [Hw Hget].
  { assert (forall k, cf_get k (meta_cf written)
      = if bool_decide (key = k) then Some e else cf_get k (meta_cf (al_store s))) as Eg
      by (intros; cbn; by rewrite cf_get_put).
    split; [split_and!|].
    - by apply db_write_sorted.
    - intros k Hne. rewrite Eg, bool_decide_false; [done|]. by intros <-.
    - right. exists e. by rewrite Eg, bool_decide_true.
    - by rewrite Eg, bool_decide_true. }
  assert (allocator_written kind next s (al_store s)) as Hold by (split_and!; auto).
  destruct Ep as [|st Hst Hi|st applied Hi].
  - injection H as <- <-. exists written. split; [done|]. split; [done|]. by exists e.
  - exists (al_store s). destruct st; [done|]. by injection H as <- <-.
  - destruct st as [|code m]; [done|]. injection H as <- <-. destruct applied.
    + by exists (require_recovery written).
    + by exists (require_recovery (al_store s)).
Qed.

Lemma durable_written kind next next' fresh s cs :
  durable_at kind next fresh (meta_cf (al_store s)) -> next <= next' < 2 ^ 64 ->
  allocator_written kind next' s cs -> durable_at kind next fresh (meta_cf cs).
Proof.
  intros Hd Hn (_ & _ & Hcase). unfold durable_at in *.
  destruct Hcase as [->|(e & -> & He)]; [done|]. eexists. split; [exact He|]. done.
Qed.

Lemma durable_other kind kind' next next' fresh s cs :
  IsKnownIdKind kind = true -> IsKnownIdKind kind' = true -> kind <> kind' ->
  durable_at kind next fresh (meta_cf (al_store s)) ->
  allocator_written kind' next' s cs -> durable_at kind next fresh (meta_cf cs).
Proof.
  intros Hk Hk' Hne Hd (_ & Heq & _). unfold durable_at in *.
  rewrite Heq; [done|]. intros E. by apply Hne, allocator_key_inj.
Qed.

Lemma durable_imply kind next (fresh fresh' : Prop) meta :
  (fresh -> fresh') -> durable_at kind next fresh meta -> durable_at kind next fresh' meta.
Proof. unfold durable_at. destruct (cf_get _ _); auto. Qed.

Lemma leases_other kind kind' next next' leases s cs :
  IsKnownIdKind kind = true -> IsKnownIdKind kind' = true -> kind <> kind' ->
  leases_ok kind next (meta_cf (al_store s)) leases ->
  allocator_written kind' next' s cs -> leases_ok kind next (meta_cf cs) leases.
Proof.
  intros Hk Hk' Hne (H1 & H2 & H3) Hw. split; [done|]. split; [|done].
  by eapply durable_other.
Qed.

(** ** Threads *)

Lemma stage_free s s' stage :
  holds_mutex stage = false -> transaction_lease_limit s <= transaction_lease_limit s' ->
  stage_ok s stage -> stage_ok s' stage.
Proof. destruct stage; try done. cbn. lia. Qed.

Section threads.

Context (sys : AllocSystem) (i : nat) (stage : AllocStage).
Hypothesis Hinv : alloc_inv sys.
Hypothesis Hstage : sys_threads sys !! i = Some stage.

(** The other threads are outside the mutex while one is inside. *)
Lemma others_free j stage_j :
  holds_mutex stage = true -> j <> i -> sys_threads sys !! j = Some stage_j ->
  holds_mutex stage_j = false.
Proof.
  intros Hh Hne Hj. destruct (ai_stages _ Hinv i stage Hstage) as [_ [Hi _]].
  destruct (ai_stages _ Hinv j stage_j Hj) as [_ [Hj' _]].
  destruct (holds_mutex stage_j); [|done]. specialize (Hi Hh). specialize (Hj' eq_refl).
  congruence.
Qed.

(** A step that keeps the allocator and its records, seen by the threads. *)
Lemma threads_update s' stage' :
  transaction_lease_limit (sys_store sys) <= transaction_lease_limit s' ->
  (forall j stage_j, j <> i -> sys_threads sys !! j = Some stage_j ->
     holds_mutex stage_j = true -> stage_ok (sys_store sys) stage_j -> stage_ok s' stage_j) ->
  stage_ok s' stage' ->
  (holds_mutex stage' = true <-> transaction_lease_mutex s' = Some i) ->
  (forall j, j <> i -> transaction_lease_mutex s' = Some j <->
     transaction_lease_mutex (sys_store sys) = Some j) ->
  forall j stage_j, <[i := stage']> (sys_threads sys) !! j = Some stage_j ->
    stage_ok s' stage_j /\
    (holds_mutex stage_j = true <-> transaction_lease_mutex s' = Some j).
Proof.
  intros Hlim Hheld Hok Hm Hothers j stage_j.
  rewrite list_lookup_insert_Some. intros [(-> & <- & _)|[Hne Hj]]; [done|].
  destruct (ai_stages _ Hinv j stage_j Hj) as [Hjok Hjm]. rewrite Hjm, Hothers by done.
  split; [|done]. destruct (holds_mutex stage_j) eqn:E; [by eapply Hheld|].
  by eapply stage_free.
Qed.

Lemma holder_update (s' : AllocatorStore) stage' :
  (forall j, j <> i -> transaction_lease_mutex s' = Some j ->
     transaction_lease_mutex (sys_store sys) = Some j) ->
  forall j, transaction_lease_mutex s' = Some j ->
    is_Some (<[i := stage']> (sys_threads sys) !! j).
Proof.
  intros Ho j Hj. rewrite list_lookup_insert. destruct (decide _) as [|Hne]; [done|].
  destruct (decide (i = j)) as [<-|Hij].
  - destruct Hne. split; [done|]. by eapply lookup_lt_Some.
  - by apply (ai_holder _ Hinv), Ho.
Qed.

(** A pending lease of another thread stays pending. *)
Lemma limit_update (s' : AllocatorStore) stage' :
  pending_lease stage = false ->
  transaction_lease_limit s' = transaction_lease_limit (sys_store sys) ->
  transaction_allocator s' = transaction_allocator (sys_store sys) ->
  (exists j stage_j, <[i := stage']> (sys_threads sys) !! j = Some stage_j /\
     pending_lease stage_j = true) \/
  transaction_lease_limit s' = transaction_allocator s'.
Proof.
  intros Hp -> ->. destruct (ai_limit _ Hinv) as [(j & stage_j & Hj & Hpj)|E]; [left|by right].
  exists j, stage_j. split; [|done]. rewrite list_lookup_insert_ne; [done|]. congruence.
Qed.

(** Steps between stages that change at most the mutex. *)
Lemma inv_stage m stage' :
  let s' := with_mutex m (sys_store sys) in
  stage_ok s' stage' -> issued_by stage' = [] -> pending_lease stage = pending_lease stage' ->
  (holds_mutex stage' = true <-> m = Some i) ->
  (forall j, j <> i -> m = Some j <-> transaction_lease_mutex (sys_store sys) = Some j) ->
  alloc_inv (mkAllocSystem s' (<[i := stage']> (sys_threads sys))
    (issued_by stage' ++ sys_issued sys) (sys_leases sys)).
Proof.
  intros s' Hok Hi Hp Hm Ho. pose proof Hinv as [? ? ? ? ? ? Hl ? ?]. rewrite Hi.
  split; cbn [sys_store sys_threads sys_issued sys_leases app]; try done.
  - by apply threads_update.
  - apply holder_update. intros j Hne. apply Ho, Hne.
  - destruct (pending_lease stage) eqn:Ep.
    + left. exists i, stage'. split; [|done]. apply list_lookup_insert_eq.
      by eapply lookup_lt_Some.
    + by apply limit_update.
Qed.

End threads.

Lemma inv_exchange sys i next limit :
  alloc_inv sys -> sys_threads sys !! i = Some (loaded_limit next limit) ->
  next < limit -> next_transaction_id (sys_store sys) = next ->
  let s' := with_lease (wrap 64 (next + 1)) (transaction_lease_limit (sys_store sys))
              (sys_store sys) in
  alloc_inv (mkAllocSystem s' (<[i := returned (Ok next)]> (sys_threads sys))
    (next :: sys_issued sys) (sys_leases sys)).
Proof.
  intros Hinv Hi Hlt En s'. pose proof Hinv as [Hs Ho Hd [Hnd Hall] Hst _ Hl Hv He].
  destruct (Hst i _ Hi) as [Hlim Hmi]. cbn [stage_ok] in Hlim.
  assert (wrap 64 (next + 1) = next + 1) as Ew by (apply uint_wrap; unfold uint; lia).
  assert (next_transaction_id s' = next + 1) as En' by exact Ew.
  split; cbn [sys_store sys_threads sys_issued sys_leases app]; try done; rewrite ?En'.
  - cbn. lia.
  - eapply durable_imply; [|exact Hd]. lia.
  - split.
    + constructor; [|done]. intros Hin. rewrite Forall_forall in Hall.
      specialize (Hall next Hin). lia.
    + constructor; [lia|]. eapply Forall_impl; [exact Hall|]. cbn. intros. lia.
  - apply (threads_update sys i _ Hinv Hi); try done.
    intros j stage_j Hne Hj Hh Hok. destruct stage_j; try done; cbn in *; lia.
  - by apply (holder_update sys i _ Hinv Hi).
  - by apply (limit_update sys i (loaded_limit next limit)).
Qed.

Lemma with_allocator_transaction next s :
  with_allocator kTransactionId next s
  = mkAllocatorStore (al_store s) (vertex_allocator s) (edge_allocator s) next
      (next_transaction_id s) (transaction_lease_limit s) (transaction_lease_mutex s).
Proof. done. Qed.

(** A write of the transaction allocator's record. *)
Lemma extend_OK lease_size outcome sys i :
  alloc_inv sys -> sys_threads sys !! i = Some extending -> outcome_ok outcome ->
  0 <= lease_size ->
  let '(s', stage') := extend_lease lease_size outcome (sys_store sys) in
  alloc_inv (mkAllocSystem s' (<[i := stage']> (sys_threads sys))
    (issued_by stage' ++ sys_issued sys) (sys_leases sys)).
Proof.
  intros Hinv Hi Hout Hsize. unfold extend_lease.
  pose proof Hinv as [Hs Ho Hd Hiss Hst _ Hl Hv He].
  destruct (Hst i _ Hi) as [Hnext Hmi]. cbn [stage_ok holds_mutex] in Hnext, Hmi.
  assert (forall code m, alloc_inv (mkAllocSystem (with_mutex None (sys_store sys))
    (<[i := returned (Fail (StatusError code m))]> (sys_threads sys))
    (sys_issued sys) (sys_leases sys))) as Hfail.
  { intros code m. apply (inv_stage sys i extending Hinv Hi None); try done.
    intros j Hne. rewrite (proj1 Hmi eq_refl). split; congruence. }
  destruct (recovery_required _); [apply Hfail|].
  destruct (Z.ltb_spec (U64_MAX - transaction_allocator (sys_store sys)) lease_size) as [|Hle];
    [apply Hfail|]. unfold U64_MAX in Hle.
  destruct (write_allocator _ _ _ _) as [status s1] eqn:Ew.
  apply write_allocator_OK in Ew as (cs & Hw & Hres); try done; [|lia].
  assert (transaction_lease_limit (sys_store sys) = transaction_allocator (sys_store sys)) as El.
  { destruct Hl as [(j & stage_j & Hj & Hp)|]; [|done].
    destruct (decide (j = i)) as [->|Hne]; [rewrite Hi in Hj; by injection Hj as <-|].
    pose proof (others_free sys i extending Hinv Hi j stage_j eq_refl Hne Hj).
    by destruct stage_j. }
  pose proof (leases_other kVertexId kTransactionId _ _ _ _ cs eq_refl eq_refl
    ltac:(done) Hv Hw) as Hv'.
  pose proof (leases_other kEdgeId kTransactionId _ _ _ _ cs eq_refl eq_refl
    ltac:(done) He Hw) as He'.
  assert (forall j, j <> i -> transaction_lease_mutex (sys_store sys) <> Some j) as Hmj
    by (intros j Hne; rewrite (proj1 Hmi eq_refl); congruence).
  assert (forall (s' : AllocatorStore) j stage_j, j <> i -> sys_threads sys !! j = Some stage_j ->
     holds_mutex stage_j = true -> stage_ok (sys_store sys) stage_j -> stage_ok s' stage_j) as Hfree.
  { intros s' j stage_j Hne Hj Hh.
    by rewrite (others_free sys i extending Hinv Hi j stage_j eq_refl Hne Hj) in Hh. }
  destruct status as [|code m].
  - destruct Hres as (-> & enc & Henc & Hdec). rewrite with_allocator_transaction.
    split; cbn [sys_store sys_threads sys_issued sys_leases app issued_by]; try done.
    + apply Hw.
    + cbn. lia.
    + unfold durable_at. cbn [al_store with_al_store transaction_allocator]. rewrite Henc.
      eexists. split; [exact Hdec|]. split; [done|]. cbn. lia.
    + apply (threads_update sys i _ Hinv Hi); try done; [by apply Hfree|].
      cbn [stage_ok]. split_and!; try done. by exists enc.
    + by apply (holder_update sys i _ Hinv Hi).
    + left. eexists i, (storing_next _ _). split; [|done]. apply list_lookup_insert_eq.
      by eapply lookup_lt_Some.
  - subst s1. split; cbn [sys_store sys_threads sys_issued sys_leases app issued_by]; try done.
    + apply Hw.
    + eapply durable_written; [exact Hd| |exact Hw]. cbn. lia.
    + apply (threads_update sys i _ Hinv Hi); try done; [by apply Hfree|].
      intros j Hne. cbn. split; [done|]. intros E. by destruct (Hmj j Hne).
    + by right.
Qed.

(** The new limit becomes known. *)
Lemma storing_limit_OK sys i next :
  alloc_inv sys -> sys_threads sys !! i = Some (storing_limit next) ->
  alloc_inv (mkAllocSystem
    (with_mutex None (with_lease (next_transaction_id (sys_store sys)) next (sys_store sys)))
    (<[i := at_top]> (sys_threads sys)) (sys_issued sys) (sys_leases sys)).
Proof.
  intros Hinv Hi. pose proof Hinv as [Hs Ho Hd Hiss Hst _ Hl Hv He].
  destruct (Hst i _ Hi) as [(-> & Hn & [enc Henc]) Hmi]. cbn [holds_mutex] in Hmi.
  split; cbn [sys_store sys_threads sys_issued sys_leases]; try done.
  - cbn. lia.
  - unfold durable_at in *. cbn [al_store with_mutex with_lease transaction_allocator].
    by rewrite Henc in *.
  - apply (threads_update sys i _ Hinv Hi); try done.
    + cbn. lia.
    + intros j stage_j Hne Hj Hh. by rewrite (others_free sys i _ Hinv Hi j stage_j eq_refl Hne Hj) in Hh.
    + intros j Hne. cbn. rewrite (proj1 Hmi eq_refl). split; congruence.
  - by right.
Qed.

Lemma thread_step_OK lease_size sys i stage outcome spurious s' stage' :
  alloc_inv sys -> sys_threads sys !! i = Some stage -> outcome_ok outcome -> 0 <= lease_size ->
  AllocateTransactionId_step lease_size outcome spurious i (sys_store sys) stage
  = Some (s', stage') ->
  alloc_inv (mkAllocSystem s' (<[i := stage']> (sys_threads sys))
    (issued_by stage' ++ sys_issued sys) (sys_leases sys)).
Proof.
  intros Hinv Hi Hout Hsize H. destruct (ai_stages _ Hinv i stage Hi) as [Hok Hm].
  assert (with_mutex (transaction_lease_mutex (sys_store sys)) (sys_store sys)
          = sys_store sys) as Esame by by destruct (sys_store sys).
  assert (forall stage', holds_mutex stage' = holds_mutex stage ->
    stage_ok (sys_store sys) stage' -> issued_by stage' = [] ->
    pending_lease stage = pending_lease stage' ->
    alloc_inv (mkAllocSystem (sys_store sys) (<[i := stage']> (sys_threads sys))
      (issued_by stage' ++ sys_issued sys) (sys_leases sys))) as Hplain.
  { intros st Hh Hst Hiss Hp. rewrite <- Esame at 1.
    apply (inv_stage sys i stage Hinv Hi); rewrite ?Esame, ?Hh; done. }
  destruct stage; cbn [AllocateTransactionId_step] in H.
  - injection H as <- <-. by destruct (recovery_required _); apply Hplain.
  - injection H as <- <-. apply Hplain; done || cbn; lia.
  - destruct (_ && _) eqn:E; injection H as <- <-; [|by apply Hplain].
    bool_to_prop. by apply (inv_exchange sys i next limit).
  - destruct (transaction_lease_mutex _) eqn:Em; [done|]. injection H as <- <-.
    apply (inv_stage sys i locking Hinv Hi); try done. intros j Hne. rewrite Em.
    split; congruence.
  - destruct (Z.ltb_spec (next_transaction_id (sys_store sys))
      (transaction_lease_limit (sys_store sys))) as [|Hge]; injection H as <- <-.
    + apply (inv_stage sys i rechecking Hinv Hi); try done. intros j Hne.
      rewrite (proj1 Hm eq_refl). split; congruence.
    + apply Hplain; try done. cbn. pose proof (ai_order _ Hinv). lia.
  - injection H as H. pose proof (extend_OK lease_size outcome sys i Hinv Hi Hout Hsize) as He.
    by rewrite H in He.
  - injection H as <- <-. destruct Hok as (-> & -> & Hn & Hr).
    replace (with_lease _ _ _) with (sys_store sys)
      by (destruct (sys_store sys); cbn in *; by subst).
    by apply Hplain.
  - injection H as <- <-. by apply storing_limit_OK.
  - done.
Qed.

(** ** The system *)

(** A step that leaves the transaction allocator and its record alone. *)
Lemma inv_metadata sys cs vertex edge leases :
  let s := sys_store sys in
  let s' := mkAllocatorStore cs vertex edge (transaction_allocator s)
    (next_transaction_id s) (transaction_lease_limit s) (transaction_lease_mutex s) in
  alloc_inv sys -> db_sorted (cs_db cs) ->
  cf_get (EncodeAllocatorMetaKey kTransactionId) (meta_cf cs)
  = cf_get (EncodeAllocatorMetaKey kTransactionId) (meta_cf (al_store s)) ->
  leases_ok kVertexId vertex (meta_cf cs) leases ->
  leases_ok kEdgeId edge (meta_cf cs) leases ->
  alloc_inv (mkAllocSystem s' (sys_threads sys) (sys_issued sys) leases).
Proof.
  intros s s' Hinv Hs Eget Hv He. pose proof Hinv as [_ Ho Hd Hiss Hst Hh Hl _ _].
  split; cbn [sys_store sys_threads sys_issued sys_leases]; try done.
  - unfold durable_at in *. subst s s'. cbn [al_store]. by rewrite Eget.
  - intros i stage Hi. destruct (Hst i stage Hi) as [Hok Hm]. split; [|done].
    destruct stage; try done; cbn [stage_ok] in *; unfold lease_recorded in *;
      subst s s'; cbn [al_store] in *; by rewrite Eget.
Qed.

(** A lease that was written, and one that was not. *)
Lemma leases_extend kind next count leases s cs encoded :
  leases_ok kind next (meta_cf (al_store s)) leases -> 0 < count -> next + count < 2 ^ 64 ->
  cf_get (EncodeAllocatorMetaKey kind) (meta_cf cs) = Some encoded ->
  DecodeIdAllocatorState encoded = Ok (mkIdAllocatorState kind (next + count)) ->
  leases_ok kind (next + count) (meta_cf cs) (mkIdLease kind next count :: leases).
Proof.
  intros (Hr & Hd & Hall & Hsort) Hc Hlt Hget Hdec. unfold leases_ok, kind_leases in *.
  rewrite filter_cons_True by done. split_and!.
  - lia.
  - lia.
  - unfold durable_at. rewrite Hget. eexists. split; [exact Hdec|]. split; [done|]. cbn. lia.
  - constructor; [cbn; lia|]. eapply Forall_impl; [exact Hall|]. cbn. intros. lia.
  - constructor; [done|]. eapply Forall_impl; [exact Hall|]. cbn. intros. lia.
Qed.

Lemma leases_indeterminate kind next next' leases s cs :
  leases_ok kind next (meta_cf (al_store s)) leases -> next <= next' < 2 ^ 64 ->
  allocator_written kind next' s cs -> leases_ok kind next (meta_cf cs) leases.
Proof.
  intros (Hr & Hd & Hrest) Hn Hw. split; [done|]. split; [|done].
  by eapply durable_written.
Qed.

Lemma lease_step_OK sys outcome kind count result s' :
  alloc_inv sys -> outcome_ok outcome -> 0 <= count ->
  LeaseIds outcome kind count (sys_store sys) = (result, s') ->
  alloc_inv (mkAllocSystem s' (sys_threads sys) (sys_issued sys)
    (leased_by result ++ sys_leases sys)).
Proof.
  intros Hinv Ho Hc H. unfold LeaseIds in H.
  set (size := if count =? 0 then _ else _) in H. assert (0 < size) as Hsize.
  { subst size. unfold kDefaultEntityIdLeaseSize. destruct (Z.eqb_spec count 0); lia. }
  clearbody size. clear Hc.
  assert (forall st, alloc_inv (mkAllocSystem (sys_store sys) (sys_threads sys) (sys_issued sys)
    (leased_by (Fail st) ++ sys_leases sys))) as Hsame by (intros; by destruct sys).
  destruct (mbind _ _) as [[]|st] eqn:Ec; [|injection H as <- <-; apply Hsame].
  inv_ok; bool_to_prop. clear Hsame.
  pose proof Hinv as [Hs _ _ _ _ _ _ Hv He].
  destruct (write_allocator _ _ _ _) as [status s1] eqn:Ew. unfold U64_MAX in *.
  destruct kind; try done; rewrite ?bool_decide_true, ?bool_decide_false in * by done.
  - destruct Hv as [Hr Hv]. pose proof (conj Hr Hv : leases_ok kVertexId _ _ _) as Hok.
    apply write_allocator_OK in Ew as (cs & Hw & Hres); try done; [|lia].
    pose proof (leases_other kEdgeId kVertexId _ _ _ _ cs eq_refl eq_refl ltac:(done) He Hw).
    pose proof (proj1 (proj2 Hw) (EncodeAllocatorMetaKey kTransactionId) ltac:(done)) as Et.
    destruct status as [|code m]; [destruct Hres as (-> & enc & Henc & Hdec)|subst s1];
      injection H as <- <-;
      refine (inv_metadata sys cs _ _ _ Hinv (proj1 Hw) Et _ _); try done.
    + eapply leases_extend; try done. lia.
    + eapply leases_indeterminate; [exact Hok| |exact Hw]. lia.
  - destruct He as [Hr He]. pose proof (conj Hr He : leases_ok kEdgeId _ _ _) as Hok.
    apply write_allocator_OK in Ew as (cs & Hw & Hres); try done; [|lia].
    pose proof (leases_other kVertexId kEdgeId _ _ _ _ cs eq_refl eq_refl ltac:(done) Hv Hw).
    pose proof (proj1 (proj2 Hw) (EncodeAllocatorMetaKey kTransactionId) ltac:(done)) as Et.
    destruct status as [|code m]; [destruct Hres as (-> & enc & Henc & Hdec)|subst s1];
      injection H as <- <-;
      refine (inv_metadata sys cs _ _ _ Hinv (proj1 Hw) Et _ _); try done.
    + eapply leases_extend; try done. lia.
    + eapply leases_indeterminate; [exact Hok| |exact Hw]. lia.
Qed.

(** ** Loading the records again *)

Lemma load_leases kind next leases meta next' :
  leases_ok kind next meta leases -> LoadAllocatorState meta kind = Ok next' ->
  leases_ok kind next' meta leases.
Proof.
  intros (Hr & Hd & Hall & Hsort) H. unfold LoadAllocatorState in H.
  unfold leases_ok, durable_at in *. destruct (cf_get _ _) as [enc|].
  - destruct Hd as (d & Hdec & Hk & Hn). rewrite Hdec in H. cbn in H. inv_ok. subst next'.
    split; [lia|]. split; [exists d; split_and!; done || lia|]. split; [|done].
    eapply Forall_impl; [exact Hall|]. cbn. intros. lia.
  - injection H as <-. rewrite Hd. split_and!; try done; constructor.
Qed.

Lemma highest_transaction_range entries highest highest' :
  Forall (fun kv => StartsWith kv.1 kSequenceMetaPrefix = true) entries ->
  loop highest_transaction highest entries = Ok highest' ->
  0 <= highest < 2 ^ 64 -> 0 <= highest' < 2 ^ 64.
Proof.
  intros Hp. revert highest. induction Hp as [|[k v] entries Hk _ IH]; intros highest H Hr.
  { by injection H as <-. }
  cbn [loop] in H. inv_ok. apply IH in H; [done|].
  unfold highest_transaction in H0. cbn [fst snd] in *. inv_ok. bool_to_prop. subst.
  destruct (sequence_key_parse k Hk) as [_ Hu]; [done|].
  apply DecodeSequenceRecord_OK in H2 as (_ & [Ht _] & _); [|done]. unfold uint in Ht. lia.
Qed.

Lemma while_prefix_starts p entries :
  Forall (fun kv => StartsWith kv.1 p = true) (while_prefix p entries).
Proof.
  induction entries as [|[k v] entries IH]; cbn; [constructor|].
  destruct (StartsWith k p) eqn:E; constructor; done.
Qed.

Lemma load_transactions next fresh meta watermark next' :
  durable_at kTransactionId next fresh meta -> 1 <= next ->
  LoadTransactionAllocatorState meta watermark = Ok next' ->
  1 <= next' < 2 ^ 64 /\
  (fresh \/ next <= next') /\ durable_at kTransactionId next' fresh meta.
Proof.
  intros Hd Hn H. unfold LoadTransactionAllocatorState, durable_at in *.
  destruct (cf_get _ _) as [enc|].
  - destruct Hd as (d & Hdec & Hk & Hr). rewrite Hdec in H. cbn in H. inv_ok. subst next'.
    split; [lia|]. split; [right; lia|]. exists d. split_and!; done || lia.
  - inv_ok. apply highest_transaction_range in H0; [|apply while_prefix_starts|lia].
    bool_to_prop. subst. unfold U64_MAX in *. split; [lia|]. auto.
Qed.

(** A record that decodes is in range. *)
Lemma decoded_allocator encoded d :
  DecodeIdAllocatorState encoded = Ok d -> 1 <= next_id d < 2 ^ 64.
Proof.
  intros H. pose proof (codec_typed (typed := allocator_typed) _ _ H) as Hu.
  apply codec_encode in H as He. unfold allocator_typed, uint in Hu.
  unfold EncodeIdAllocatorState, IdAllocatorState_Validate in He.
  destruct (Z.eqb_spec (next_id d) 0); [|lia].
  by destruct (IsKnownIdKind (alloc_kind d)).
Qed.

Lemma restart_OK sys cs s' :
  alloc_inv sys -> meta_cf cs = meta_cf (al_store (sys_store sys)) -> db_sorted (cs_db cs) ->
  open_allocators cs = Ok s' ->
  alloc_inv (mkAllocSystem s' [] (sys_issued sys) (sys_leases sys)).
Proof.
  intros Hinv Em Hs H. pose proof Hinv as [_ Ho Hd [Hnd Hall] _ _ _ Hv He].
  unfold open_allocators in H. inv_ok. subst s'. rewrite Em in *.
  apply (load_leases _ _ _ _ _ Hv) in H0. apply (load_leases _ _ _ _ _ He) in H1.
  apply (load_transactions _ _ _ _ _ Hd) in H2 as (Hr & Hle & Hd'); [|lia].
  split; cbn [sys_store sys_threads sys_issued sys_leases al_store transaction_allocator
    next_transaction_id transaction_lease_limit vertex_allocator edge_allocator];
    rewrite ?Em; try done.
  - lia.
  - eapply durable_imply; [|exact Hd']. tauto.
  - split; [done|]. destruct Hle as [[-> _]|Hle]; [constructor|].
    eapply Forall_impl; [exact Hall|]. cbn. intros. lia.
  - by right.
Qed.

Lemma alloc_step_OK lease_size sys sys' :
  0 <= lease_size -> alloc_inv sys -> alloc_system_step lease_size sys sys' -> alloc_inv sys'.
Proof.
  intros Hsize Hinv Hstep. revert Hinv.
  destruct Hstep as [sys0 i stage outcome spurious s' stage' Hi Ho H|sys0 i result Hi|sys0
    |sys0 outcome kind count result s' Ho Hc H|sys0 cs Hs Hsame|sys0 cs s' Em Hs H]; intros Hinv.
  - by eapply thread_step_OK.
  - assert (with_mutex (transaction_lease_mutex (sys_store sys0)) (sys_store sys0)
            = sys_store sys0) as Esame by by destruct (sys_store sys0).
    destruct (ai_stages _ Hinv i _ Hi) as [_ Hm].
    pose proof (inv_stage sys0 i _ Hinv Hi (transaction_lease_mutex (sys_store sys0)) at_top)
      as Hstep. rewrite Esame in Hstep. by apply Hstep.
  - pose proof Hinv as [? ? ? ? Hst Hh Hl ? ?].
    split; cbn [sys_store sys_threads sys_issued sys_leases]; try done.
    + intros j stage_j [Hj|[Hlen Hj]]%lookup_app_Some; [by apply Hst|].
      apply list_lookup_singleton_Some in Hj as [Hj <-]. split; [done|]. split; [done|].
      intros [? Hlt%lookup_lt_Some]%Hh. lia.
    + intros j [stage_j Hj]%Hh. exists stage_j. by apply lookup_app_l_Some.
    + destruct Hl as [(j & stage_j & Hj & Hp)|]; [left|by right].
      exists j, stage_j. split; [|done]. by apply lookup_app_l_Some.
  - by eapply lease_step_OK.
  - pose proof Hinv as [_ _ _ _ _ _ _ (Hv1 & Hv2 & Hv3) (He1 & He2 & He3)].
    unfold durable_at in Hv2, He2. rewrite <- Hsame in Hv2, He2 by done.
    by apply (inv_metadata sys0 cs); try apply Hsame.
  - by eapply restart_OK.
Qed.

(** A database that is opened without knowing what was handed out before. *)
Lemma load_first_leases meta kind next :
  LoadAllocatorState meta kind = Ok next -> leases_ok kind next meta [].
Proof.
  unfold LoadAllocatorState, leases_ok, durable_at. intros H.
  destruct (cf_get _ _) as [enc|].
  - inv_ok. apply decoded_allocator in H0 as Hr. bool_to_prop. subst.
    split_and!; try lia; try constructor. exists x. split_and!; done || lia.
  - injection H as <-. split_and!; done || constructor.
Qed.

Lemma load_first_transactions meta watermark next :
  LoadTransactionAllocatorState meta watermark = Ok next ->
  durable_at kTransactionId 1 True meta.
Proof.
  unfold LoadTransactionAllocatorState, durable_at. intros H.
  destruct (cf_get _ _) as [enc|]; [|done].
  inv_ok. apply decoded_allocator in H0 as Hr. bool_to_prop. subst. exists x.
  split_and!; done || lia.
Qed.

Lemma open_inv cs s :
  db_sorted (cs_db cs) -> open_allocators cs = Ok s -> alloc_inv (mkAllocSystem s [] [] []).
Proof.
  intros Hs H. unfold open_allocators in H. inv_ok. subst s.
  apply load_first_leases in H0, H1.
  pose proof (load_first_transactions _ _ _ H2) as Hd.
  apply (load_transactions _ _ _ _ _ Hd) in H2 as (Hr & _ & Hd'); [|done].
  split; cbn [sys_store sys_threads sys_issued sys_leases al_store transaction_allocator
    next_transaction_id transaction_lease_limit vertex_allocator edge_allocator]; try done.
  - lia.
  - by eapply durable_imply; [|exact Hd'].
  - split; constructor.
  - by right.
Qed.

Lemma alloc_reachable lease_size cs s sys :
  0 <= lease_size -> db_sorted (cs_db cs) -> open_allocators cs = Ok s ->
  rtc (alloc_system_step lease_size) (mkAllocSystem s [] [] []) sys -> alloc_inv sys.
Proof.
  intros Hsize Hs Hopen. intros Hsteps.
  assert (alloc_inv (mkAllocSystem s [] [] [])) as Hinv by by eapply open_inv.
  induction Hsteps as [|x y z Hxy _ IH]; [done|]. by eapply IH, alloc_step_OK.
Qed.

Lemma TransactionIdLeaseSize_pos configured :
  0 <= configured -> 0 < TransactionIdLeaseSize configured.
Proof.
  unfold TransactionIdLeaseSize, kDefaultIdLeaseSize. destruct (Z.eqb_spec configured 0); lia.
Qed.

(** Distinct positions of a list that is sorted are related. *)
Lemma StronglySorted_apart {A} (R : A -> A -> Prop) l i j x y :
  StronglySorted R l -> l !! i = Some x -> l !! j = Some y -> (i < j)%nat -> R x y.
Proof.
  intros H. revert i j. induction H as [|a l Hl IH Ha]; intros i j Hx Hy Hij; [done|].
  destruct j as [|j]; [lia|]. destruct i as [|i]; cbn in Hx, Hy.
  - injection Hx as <-. rewrite Forall_lookup in Ha. by eapply Ha.
  - eapply IH; [exact Hx|exact Hy|lia].
Qed.

(** ** A call on its own *)

(** Its steps are steps of the system. *)
Lemma call_steps fuel lease_size outcome s stage r s' issued leases :
  outcome_ok outcome ->
  AllocateTransactionId fuel lease_size (fun _ => outcome) s stage = Some (r, s') ->
  rtc (alloc_system_step lease_size)
    (mkAllocSystem s [stage] (issued_by stage ++ issued) leases)
    (mkAllocSystem s' [returned r] (issued_by (returned r) ++ issued) leases).
Proof.
  intros Ho. revert s stage. induction fuel as [|fuel IH]; intros s stage H.
  { destruct stage; try done. by injection H as -> ->. }
  assert ((exists res, stage = returned res) \/
    issued_by stage = [] /\ exists s1 stage1,
      AllocateTransactionId_step lease_size outcome false 0 s stage = Some (s1, stage1) /\
      AllocateTransactionId fuel lease_size (fun _ => outcome) s1 stage1 = Some (r, s'))
    as [[res ->]|(Hi & s1 & stage1 & Hstep & Hrest)].
  { destruct stage; [right..|left; by eexists]; (split; [done|]); cbn [AllocateTransactionId] in H;
      apply bind_Some in H as ([s1 stage1] & Hs & H); by exists s1, stage1. }
  { by injection H as -> ->. }
  rewrite Hi. eapply rtc_l; [|by apply IH, Hrest].
  by apply (step_thread lease_size (mkAllocSystem s [stage] issued leases) 0 stage outcome false).
Qed.

Lemma written_recovers outcome kind next s s' :
  outcome_ok outcome -> write_allocator outcome kind next s = (StatusOK, s') ->
  recovery_required (al_store s') = recovery_required (al_store s) /\
  next_transaction_id s' = next_transaction_id s /\
  transaction_lease_limit s' = transaction_lease_limit s /\
  transaction_lease_mutex s' = transaction_lease_mutex s.
Proof.
  intros Ho. unfold write_allocator. destruct (EncodeIdAllocatorState _) as [e|st] eqn:Ee.
  - destruct (persist_metadata _ _ _) as [st cs] eqn:Ep. intros H. destruct st; [|done].
    apply persist_metadata_spec in Ep; [|done]. injection H as <-.
    inversion Ep; try done; by subst.
  - intros [= -> <-]. done.
Qed.

Lemma call_step lease_size outcome s stage s1 stage1 fuel :
  AllocateTransactionId_step lease_size outcome false 0 s stage = Some (s1, stage1) ->
  AllocateTransactionId (S fuel) lease_size (fun _ => outcome) s stage
  = AllocateTransactionId fuel lease_size (fun _ => outcome) s1 stage1.
Proof. intros H. destruct stage; [..|done]; cbn [AllocateTransactionId]; by rewrite H. Qed.

Lemma call_returned fuel lease_size outcomes s r :
  AllocateTransactionId fuel lease_size outcomes s (returned r) = Some (r, s).
Proof. by destruct fuel. Qed.

(** Three steps take the next identifier of a lease. *)
Lemma call_leased lease_size outcome s fuel :
  recovery_required (al_store s) = false ->
  next_transaction_id s < transaction_lease_limit s < 2 ^ 64 -> 0 <= next_transaction_id s ->
  AllocateTransactionId (3 + fuel) lease_size (fun _ => outcome) s at_top
  = Some (Ok (next_transaction_id s),
          with_lease (next_transaction_id s + 1) (transaction_lease_limit s) s).
Proof.
  intros Hr Hlt Hpos. cbn [Nat.add].
  erewrite call_step by (cbn; by rewrite Hr). erewrite call_step by done.
  erewrite call_step; [apply call_returned|]. cbn [AllocateTransactionId_step].
  rewrite (proj2 (Z.ltb_lt _ _)), Z.eqb_refl by lia. cbn [andb negb].
  by rewrite uint_wrap by (unfold uint; lia).
Qed.

Lemma write_with_mutex outcome kind next m s :
  write_allocator outcome kind next (with_mutex m s)
  = ((write_allocator outcome kind next s).1,
     with_mutex m (write_allocator outcome kind next s).2).
Proof.
  unfold write_allocator. destruct (EncodeIdAllocatorState _); [|done]. cbn [al_store with_mutex].
  by destruct (persist_metadata _ _ _) as [[] cs].
Qed.

(** Six steps extend the lease under the mutex and use it. *)
Lemma call_extend lease_size outcome s fuel :
  outcome_ok outcome -> 0 < lease_size -> 1 <= transaction_allocator s ->
  recovery_required (al_store s) = false -> transaction_lease_mutex s = None ->
  AllocateTransactionId (6 + fuel) lease_size (fun _ => outcome) (with_mutex (Some 0%nat) s)
    extending
  = let next := transaction_allocator s in
    Some (if U64_MAX - next <? lease_size then
            (Fail (ResourceExhausted "transaction" "transaction ID space exhausted"), s)
          else match write_allocator outcome kTransactionId (next + lease_size) s with
               | (StatusOK, s) => (Ok next, with_lease (next + 1) (next + lease_size) s)
               | (status, s) => (Fail status, s)
               end).
Proof.
  intros Ho Hpos Hn Hr Hm. cbv zeta. set (next := transaction_allocator s). cbn [Nat.add].
  assert (forall m s', transaction_lease_mutex s' = None ->
    with_mutex None (with_mutex m s') = s') as Hsame by (intros m [] H; cbn in *; by subst).
  erewrite call_step by by (cbn [AllocateTransactionId_step]; apply f_equal, surjective_pairing).
  unfold extend_lease. cbn [al_store with_mutex transaction_allocator]. rewrite Hr.
  rewrite write_with_mutex. fold next.
  destruct (Z.ltb_spec (U64_MAX - next) lease_size) as [Hlt|Hle].
  { cbn [fst snd]. rewrite call_returned. by rewrite (Hsame (Some 0%nat)). }
  destruct (write_allocator _ _ _ s) as [st s1] eqn:Ew. cbn [fst snd].
  destruct st as [|code m].
  - destruct (written_recovers _ _ _ _ _ Ho Ew) as (Hr1 & _ & _ & Hm1).
    rewrite Hr in Hr1. rewrite Hm in Hm1. cbn [fst snd].
    erewrite call_step by done. erewrite call_step by done.
    set (s2 := with_mutex None _).
    assert (s2 = with_lease next (next + lease_size) s1) as ->
      by (destruct s1; cbn in *; by subst).
    unfold U64_MAX in Hle. rewrite (call_leased lease_size outcome _ fuel)
      by (done || cbn; lia). done.
  - cbn [fst snd]. rewrite call_returned, Hsame; [done|].
    unfold write_allocator in Ew. destruct (EncodeIdAllocatorState _); [|by simplify_eq].
    destruct (persist_metadata _ _ _) as [[] cs]; by simplify_eq.
Qed.

(** ** Properties *)

(** A call of [AllocateTransactionId] that meets no other one always returns, and it
    returns what one function says: the next identifier of the lease, the first one of a
    new lease that was written first when the lease is used up, or the error of a store
    that needs recovery, of an exhausted identifier space or of the write. *)
Theorem AllocateTransactionId_returns configured outcome s issued leases fuel :
  alloc_inv (mkAllocSystem s [] issued leases) -> outcome_ok outcome -> 0 <= configured ->
  let lease_size := TransactionIdLeaseSize configured in
  AllocateTransactionId (11 + fuel) lease_size (fun _ => outcome) s at_top
  = Some (allocate_alone lease_size outcome s).
Proof.
  intros Hinv Ho Hc lease_size.
  assert (0 < lease_size) as Hpos by by apply TransactionIdLeaseSize_pos.
  clearbody lease_size. pose proof Hinv as [_ Hord _ _ _ Hh Hl _ _].
  cbn [sys_store sys_threads] in *.
  assert (transaction_lease_mutex s = None) as Hm.
  { destruct (transaction_lease_mutex s) as [i|]; [|done]. by destruct (Hh i eq_refl). }
  destruct Hl as [(i & stage & Hi & _)|Hl]; [done|]. unfold allocate_alone.
  destruct (recovery_required (al_store s)) eqn:Er.
  { cbn [Nat.add]. erewrite call_step by (cbn; by rewrite Er). apply call_returned. }
  destruct (Z.ltb_spec (next_transaction_id s) (transaction_lease_limit s)) as [Hlt|Hge].
  { apply (call_leased _ _ _ (8 + fuel)); done || lia. }
  assert (next_transaction_id s = transaction_allocator s) as -> by lia. cbn [Nat.add].
  erewrite call_step by (cbn; by rewrite Er). erewrite call_step by done.
  erewrite call_step by (cbn; by rewrite (proj2 (Z.ltb_ge _ _))).
  erewrite call_step by (cbn; by rewrite Hm).
  erewrite call_step by (cbn; by rewrite (proj2 (Z.ltb_ge _ _))).
  apply (call_extend _ _ _ fuel); done || lia.
Qed.

Lemma sample_db_sorted : db_sorted (cs_db sample_commit_store).
Proof.
  pose proof sample_commit_inv as Hinv. split.
  - apply (inv_store _ _ _ Hinv).
  - apply (inv_meta _ _ _ Hinv).
Qed.

Lemma sample_allocators_inv : alloc_inv (mkAllocSystem sample_allocators [] [] []).
Proof. apply (open_inv sample_commit_store); [apply sample_db_sorted|by vm_compute]. Qed.

Lemma AllocateTransactionId_returns_witness :
  AllocateTransactionId 11 65536 (fun _ => sample_written) sample_allocators at_top
  = Some (Ok 1, after_call sample_allocators).
Proof.
  refine (eq_trans (AllocateTransactionId_returns 0 sample_written sample_allocators [] [] 0
    sample_allocators_inv _ _) _); [done|lia|]. by vm_compute.
Defined.

(** C7: from the moment a database is opened, and whatever its threads, its leases, its
    other writes and its restarts do, also when a write of an allocator's record is
    indeterminate, no transaction identifier is ever returned twice, all of them are
    nonzero 64-bit numbers, and every range of vertex or edge identifiers that is leased
    lies behind all the ranges of its kind that were leased before, inside the 64-bit
    numbers. *)
Theorem identifiers_unique configured cs s sys :
  0 <= configured -> db_sorted (cs_db cs) -> open_allocators cs = Ok s ->
  rtc (alloc_system_step (TransactionIdLeaseSize configured)) (mkAllocSystem s [] [] []) sys ->
  NoDup (sys_issued sys) /\ Forall (fun id => 1 <= id < 2 ^ 64) (sys_issued sys) /\
  forall kind, kind = kVertexId \/ kind = kEdgeId ->
    StronglySorted (fun l' l => lease_first_id l + lease_count l <= lease_first_id l')
      (kind_leases kind (sys_leases sys)) /\
    Forall (fun l => 1 <= lease_first_id l /\ 0 < lease_count l /\
                     lease_first_id l + lease_count l < 2 ^ 64)
      (kind_leases kind (sys_leases sys)).
Proof.
  intros Hc Hs Hopen Hsteps.
  assert (alloc_inv sys) as [_ Hord _ [Hnd Hall] _ _ _ Hv He].
  { eapply alloc_reachable; [|done..]. by apply Z.lt_le_incl, TransactionIdLeaseSize_pos. }
  split; [done|]. split; [eapply Forall_impl; [exact Hall|]; cbn; intros; lia|].
  intros kind [-> | ->]; [destruct Hv as (Hr & _ & Hl & Hsort)
    |destruct He as (Hr & _ & Hl & Hsort)];
    (split; [done|]); (eapply Forall_impl; [exact Hl|]; cbn; intros; lia).
Qed.

(** One transaction, one lease, a restart and another transaction: the rest of the first
    lease of transactions is skipped. *)
Lemma sample_alloc_run :
  rtc (alloc_system_step (TransactionIdLeaseSize 0))
    (mkAllocSystem sample_allocators [] [] [])
    (mkAllocSystem (after_call sample_restarted) [returned (Ok 65537)] [65537; 1]
       [mkIdLease kVertexId 1 4096]).
Proof.
  eapply rtc_l; [by apply step_spawn|]. cbn [sys_store sys_threads sys_issued sys_leases app].
  etrans. { apply (call_steps 11 _ sample_written _ at_top (Ok 1)
    (after_call sample_allocators) []); [done|]. by vm_compute. }
  eapply rtc_l.
  { apply (step_lease _ _ sample_written kVertexId 0 (Ok (mkIdLease kVertexId 1 4096))
      sample_leased); [done|done|]. by vm_compute. }
  cbn [sys_store sys_threads sys_issued sys_leases app issued_by leased_by].
  eapply rtc_l.
  { apply (step_restart _ _ (al_store sample_leased) sample_restarted); [done| |by vm_compute].
    repeat apply db_write_sorted. apply sample_db_sorted. }
  eapply rtc_l; [by apply step_spawn|]. cbn [sys_store sys_threads sys_issued sys_leases app].
  apply (call_steps 11 _ sample_written _ at_top (Ok 65537)); [done|]. by vm_compute.
Qed.

Lemma identifiers_unique_witness :
  NoDup [65537; 1] /\ open_allocators sample_commit_store = Ok sample_allocators.
Proof.
  split; [|by vm_compute].
  exact (proj1 (identifiers_unique 0 sample_commit_store sample_allocators _
    (Z.le_refl 0) sample_db_sorted eq_refl sample_alloc_run)).
Defined.
