(* ===== verification/Schema.v ===== *)
(** * Schema: the catalog of property definitions

    Models the registration of properties in [src/storage/rocks/rocks_adapter.cc]:
    [RegisterProperty], which gives every changed definition the next epoch of its
    property and makes it durable before it is published, [LookupProperty],
    [ListProperties], [SchemaFingerprint], and [LoadPropertySchemas], which rebuilds the
    catalog when a store is opened.  The catalog itself and the lookup in it are in
    [Scan]. *)

From stdpp Require Import pretty sorting.
From S2P Require Import Prelude Status Crc32c Wire Value Fact FactCodec CommitBatch.
From S2P Require Import Frame MetaCodec PreparedCodec GroupCommit Bloom RecentWrites.
From S2P Require Import ValidationCache Accelerators Temporal FactStore Conflict Scan.
From S2P Require Import WriteBatch Commit Vacuum SequenceRetention Retention MetaTable.

Definition kSchemaMetaPrefix : list byte := literal "schema/".

(** ** Operations *)

Definition SamePropertyDefinition (left right : PropertyDefinition) : bool :=
  (def_property_id left =? def_property_id right)
  && bool_decide (def_name left = def_name right)
  && bool_decide (def_entity_kind left = def_entity_kind right)
  && bool_decide (def_physical_type left = def_physical_type right)
  && (def_blob_threshold_bytes left =? def_blob_threshold_bytes right).

Definition with_epoch (schema_epoch : Z) (d : PropertyDefinition) : PropertyDefinition :=
  mkPropertyDefinition (def_property_id d) schema_epoch (def_name d) (def_entity_kind d)
    (def_physical_type d) (def_blob_threshold_bytes d).

Definition ValidatePropertyRequest (d : PropertyDefinition) : Status :=
  if negb (def_schema_epoch d =? 0) then
    InvalidArgument "property definition" "registration request has a schema epoch"
  else PropertyDefinition_Validate (with_epoch 1 d).

Definition HasIncompatiblePropertyName (definitions : list PropertyDefinition)
    (candidate : PropertyDefinition) : bool :=
  existsb (fun d => bool_decide (def_name d = def_name candidate)
             && (negb (bool_decide (def_entity_kind d = def_entity_kind candidate))
                 || negb (bool_decide (def_physical_type d = def_physical_type candidate))))
    definitions.

(** The epochs of a property, as [operator[]] finds or makes them. *)
Definition epochs_of (property_id : Z) (schemas : PropertySchemas)
  : list PropertyDefinition := default [] (schemas !! property_id).

Definition push_definition (d : PropertyDefinition) (schemas : PropertySchemas)
  : PropertySchemas :=
  <[def_property_id d := epochs_of (def_property_id d) schemas ++ [d]]> schemas.

Definition load_definition (schemas : PropertySchemas) (kv : list byte * list byte)
  : StatusOr PropertySchemas :=
  definition ← DecodePropertyDefinition kv.2;
  expected_key ← EncodeSchemaMetaKey (def_property_id definition)
                   (def_schema_epoch definition);
  _ ← require (bool_decide (kv.1 = expected_key))
        (Corruption "fact store" "schema record key disagrees with value");
  let epochs := epochs_of (def_property_id definition) schemas in
  _ ← require (def_schema_epoch definition =? Z.of_nat (length epochs) + 1)
        (Corruption "fact store" "schema epochs are not contiguous");
  _ ← require (negb (HasIncompatiblePropertyName epochs definition))
        (Corruption "fact store" "schema type changes for a property name");
  Ok (push_definition definition schemas).

Definition LoadPropertySchemas (meta : column_family) : StatusOr PropertySchemas :=
  loop load_definition ∅ (while_prefix kSchemaMetaPrefix (Seek kSchemaMetaPrefix meta)).

Record SchemaStore := mkSchemaStore {
  sc_store : CommitStore;
  property_schemas : PropertySchemas
}.

(** The definition that a request asks to be written; [inl] is one that is there. *)
Definition next_definition (schemas : PropertySchemas) (d : PropertyDefinition)
  : StatusOr (PropertyDefinition + PropertyDefinition) :=
  let epochs := epochs_of (def_property_id d) schemas in
  match last epochs with
  | None => Ok (inr (with_epoch 1 d))
  | Some latest =>
      if SamePropertyDefinition latest d then Ok (inl latest)
      else if HasIncompatiblePropertyName epochs d then
        Fail (SchemaMismatch "property definition" "property name has an incompatible type")
      else if def_schema_epoch latest =? 2 ^ 32 - 1 then
        Fail (ResourceExhausted "property definition" "schema epochs exhausted")
      else Ok (inr (with_epoch (def_schema_epoch latest + 1) d))
  end.

Definition RegisterProperty (outcome : WriteOutcome) (d : PropertyDefinition)
    (s : SchemaStore) : StatusOr PropertyDefinition * SchemaStore :=
  match
    _ ← check (ValidatePropertyRequest d);
    _ ← require (negb (recovery_required (sc_store s)))
          (RecoveryRequired "property definition"
             "reopen required after indeterminate write");
    next_definition (property_schemas s) d
  with
  | Fail status => (Fail status, s)
  | Ok (inl latest) => (Ok latest, s)
  | Ok (inr d) =>
      match
        key ← EncodeSchemaMetaKey (def_property_id d) (def_schema_epoch d);
        encoded ← EncodePropertyDefinition d;
        Ok [Put kMetaCf key encoded]
      with
      | Fail status => (Fail status, s)
      | Ok ops =>
          match persist_metadata outcome ops (sc_store s) with
          | (StatusOK, cs) =>
              (Ok d, mkSchemaStore cs (push_definition d (property_schemas s)))
          | (status, cs) => (Fail status, mkSchemaStore cs (property_schemas s))
          end
      end
  end.

Definition LookupCurrentProperty (s : SchemaStore) (property_id schema_epoch : Z)
  : StatusOr (option PropertyDefinition) :=
  LookupPropertyInSchemas (property_schemas s) property_id schema_epoch.

Definition entry_le (a b : Z * list PropertyDefinition) : Prop := a.1 <= b.1.

Definition property_le (a b : PropertyDefinition) : Prop :=
  def_property_id a <= def_property_id b.

#[export] Instance entry_le_dec : RelDecision entry_le.
Proof. intros a b. unfold entry_le. apply _. Defined.

#[export] Instance property_le_dec : RelDecision property_le.
Proof. intros a b. unfold property_le. apply _. Defined.

(** The catalog in the order of its keys, which is the order of a [std::map]. *)
Definition in_key_order (schemas : PropertySchemas) : list (Z * list PropertyDefinition) :=
  merge_sort entry_le (map_to_list schemas).

Definition ListProperties (s : SchemaStore) : list PropertyDefinition :=
  merge_sort property_le
    (omap (fun entry => last entry.2) (in_key_order (property_schemas s))).

(** Numbers as the streams print them. *)
Definition decimal (n : Z) : list byte := literal (pretty n).

Definition hex_digit (n : Z) : byte := z2b (if n <? 10 then 48 + n else 87 + n).

Fixpoint hex_digits (fuel : nat) (n : Z) (out : list byte) : list byte :=
  match fuel with
  | O => out
  | S fuel' =>
      let out := hex_digit (n mod 16) :: out in
      if n / 16 =? 0 then out else hex_digits fuel' (n / 16) out
  end.

Definition canonical_definition (entry : Z * list PropertyDefinition) : list byte :=
  match last entry.2 with
  | None => []
  | Some d =>
      decimal entry.1 ++ literal ":" ++ decimal (def_schema_epoch d) ++ literal ":"
      ++ decimal (PropertyEntityKind_to_u8 (def_entity_kind d)) ++ literal ":"
      ++ decimal (PhysicalType_to_u8 (def_physical_type d)) ++ literal ":"
      ++ decimal (def_blob_threshold_bytes d) ++ literal ":" ++ def_name d ++ literal ";"
  end.

(** [std::hex] stays in force for the size behind the colon. *)
Definition SchemaFingerprint (s : SchemaStore) : list byte :=
  let bytes := concat (canonical_definition <$> in_key_order (property_schemas s)) in
  hex_digits 16 (crc32c bytes) [] ++ literal ":"
  ++ hex_digits 16 (Z.of_nat (length bytes)) [].

(** ** Specification *)

Definition schema_key (i : Z * Z) : StatusOr (list byte) := EncodeSchemaMetaKey i.1 i.2.

Definition schema_key_typed (i : Z * Z) : Prop := uint 16 i.1 /\ uint 32 i.2.

Definition schema_key_lt (i j : Z * Z) : Prop := i.1 < j.1 \/ i.1 = j.1 /\ i.2 < j.2.

(** A record of the table. *)
Definition schema_row (i : Z * Z) (d : PropertyDefinition) : Prop :=
  i = (def_property_id d, def_schema_epoch d) /\ definition_typed d.

(** The definition of a property at an epoch. *)
Definition defined (schemas : PropertySchemas) (i : Z * Z) (d : PropertyDefinition) : Prop :=
  exists epochs, schemas !! i.1 = Some epochs /\ 1 <= i.2 /\
    epochs !! Z.to_nat (i.2 - 1) = Some d.

(** A catalog: epochs count from 1, and a name keeps its type. *)
Record catalog_ok (schemas : PropertySchemas) : Prop := {
  cat_nonempty p : schemas !! p <> Some [];
  cat_epochs p epochs i d : schemas !! p = Some epochs -> epochs !! i = Some d ->
    def_property_id d = p /\ def_schema_epoch d = Z.of_nat i + 1;
  cat_typed p epochs d : schemas !! p = Some epochs -> d ∈ epochs -> definition_typed d;
  cat_names p epochs i d : schemas !! p = Some epochs -> epochs !! i = Some d ->
    HasIncompatiblePropertyName (take i epochs) d = false
}.

(** The metadata holds the catalog. *)
Definition catalog_in (schemas : PropertySchemas) (meta : column_family) : Prop :=
  exists m, table_in kSchemaMetaPrefix schema_key (fun _ => EncodePropertyDefinition)
    schema_row m meta /\ forall i d, m !! i = Some d <-> defined schemas i d.

(** What the records are when the outcome of the last write is unknown: the catalog of
    the store, or one definition more. *)
Definition durable_catalog (s : SchemaStore) (disk : PropertySchemas) : Prop :=
  disk = property_schemas s \/
  recovery_required (sc_store s) = true /\
  exists d, disk = push_definition d (property_schemas s).

Record schema_inv (s : SchemaStore) : Prop := {
  si_sorted : db_sorted (cs_db (sc_store s));
  si_catalog : catalog_ok (property_schemas s);
  si_durable : exists disk, catalog_ok disk /\ catalog_in disk (meta_cf (sc_store s)) /\
    durable_catalog s disk
}.

Definition epoch_lt (a b : PropertyDefinition) : Prop :=
  def_schema_epoch a < def_schema_epoch b.

(** Everything that is defined stays defined. *)
Definition extends (schemas schemas' : PropertySchemas) : Prop :=
  forall i d, defined schemas i d -> defined schemas' i d.

(** A request as the types of the code allow it. *)
Definition request_typed (d : PropertyDefinition) : Prop :=
  uint 16 (def_property_id d) /\ uint 64 (def_blob_threshold_bytes d) /\
  PhysicalType_of_u8 (PhysicalType_to_u8 (def_physical_type d)) = def_physical_type d.

(** A store registers properties, writes other metadata, after which it may require
    recovery, and is opened again. *)
Inductive schema_step : SchemaStore -> SchemaStore -> Prop :=
| step_register s outcome d r s' :
    outcome_ok outcome -> request_typed d -> RegisterProperty outcome d s = (r, s') ->
    schema_step s s'
| step_other_write s cs :
    db_sorted (cs_db cs) ->
    (recovery_required (sc_store s) = true -> recovery_required cs = true) ->
    (forall k, StartsWith k kSchemaMetaPrefix = true ->
       cf_get k (meta_cf cs) = cf_get k (meta_cf (sc_store s))) ->
    schema_step s (mkSchemaStore cs (property_schemas s))
| step_reopen s cs schemas :
    cs_db cs = cs_db (sc_store s) -> recovery_required cs = false ->
    LoadPropertySchemas (meta_cf cs) = Ok schemas ->
    schema_step s (mkSchemaStore cs schemas).

(** The catalog of a list of definitions. *)
Definition catalog_of (ds : list PropertyDefinition) : PropertySchemas :=
  foldl (fun schemas d => push_definition d schemas) ∅ ds.

(** A property, the same property with another name, and a store that has registered the
    first, that does not know whether it has registered the second, and that was opened
    again and has. *)
Definition sample_property : PropertyDefinition :=
  mkPropertyDefinition 7 0 (literal "age") kVertexEntity kInt32 256.

Definition renamed_property : PropertyDefinition :=
  mkPropertyDefinition 7 0 (literal "years") kVertexEntity kInt32 256.

Definition empty_schemas : SchemaStore := mkSchemaStore sample_commit_store ∅.

Definition unknown_outcome : WriteOutcome := mkWriteOutcome (rocks_other "IO error") true.

Definition registered_sample : SchemaStore :=
  (RegisterProperty sample_written sample_property empty_schemas).2.

Definition unknown_sample : SchemaStore :=
  (RegisterProperty unknown_outcome renamed_property registered_sample).2.

Definition reopened_sample : SchemaStore :=
  mkSchemaStore (with_db (cs_db (sc_store unknown_sample)) sample_commit_store)
    (catalog_of [with_epoch 1 sample_property; with_epoch 2 renamed_property]).


(** ** The table *)

#[export] Instance Schema_table :
  MetaTable kSchemaMetaPrefix schema_key_typed schema_key schema_key_lt.
Proof.
  assert (forall i k, schema_key i = Ok k ->
    k = kSchemaMetaPrefix ++ be_bytes 2 i.1 ++ literal "/" ++ be_bytes 4 i.2) as Hkey.
  { unfold schema_key, EncodeSchemaMetaKey, AppendU32, AppendU16. intros i k H.
    case_match; inv_ok. subst. by rewrite <- !app_assoc. }
  split.
  - intros i k ->%Hkey. apply StartsWith_app.
  - intros [p e] [p' e'] k [Hp He] [Hp' He'] ->%Hkey E%Hkey. cbn [fst snd] in *.
    apply app_inv_head in E. apply app_inj_1 in E as [E1 E2]; [|by rewrite !length_be_bytes].
    apply app_inv_head in E2. apply be_bytes_inj in E1; [|done..].
    apply be_bytes_inj in E2; [|done..]. by subst.
  - intros [p e] [p' e'] k l [Hp He] [Hp' He'] ->%Hkey ->%Hkey. unfold bytes_lt, schema_key_lt.
    cbn [fst snd] in *. rewrite bytes_compare_app, bytes_compare_refl by done. cbn [then_compare].
    rewrite bytes_compare_app, bytes_compare_be by (done || by rewrite !length_be_bytes).
    rewrite bytes_compare_app, bytes_compare_refl by done. cbn [then_compare].
    rewrite bytes_compare_be by done.
    destruct (Z.compare_spec p p'); cbn; try done; [|by left].
    destruct (Z.compare_spec e e'); try done. by right.
Qed.

Lemma schema_row_typed i d : schema_row i d -> schema_key_typed i.
Proof. intros [-> (? & ? & _)]. by split. Qed.

(** ** Catalogs *)

Lemma push_lookup d schemas p :
  push_definition d schemas !! p
  = if decide (def_property_id d = p) then Some (epochs_of p schemas ++ [d])
    else schemas !! p.
Proof.
  unfold push_definition. destruct (decide _) as [<-|Hne].
  - apply (lookup_insert_eq (M := gmap Z)).
  - by apply (lookup_insert_ne (M := gmap Z)).
Qed.

Lemma catalog_of_app ds d : catalog_of (ds ++ [d]) = push_definition d (catalog_of ds).
Proof. unfold catalog_of. by rewrite foldl_app. Qed.

Lemma catalog_of_lookup ds p :
  catalog_of ds !! p
  = match filter (fun d => def_property_id d = p) ds with [] => None | l => Some l end.
Proof.
  induction ds as [|d ds IH] using rev_ind; [apply (lookup_empty (M := gmap Z))|].
  rewrite catalog_of_app, push_lookup, filter_app. unfold epochs_of. rewrite IH.
  destruct (decide _) as [E|Hne].
  - rewrite filter_cons_True, filter_nil by done. by destruct (filter _ ds).
  - by rewrite filter_cons_False, filter_nil, app_nil_r.
Qed.

Lemma epochs_of_catalog ds p :
  epochs_of p (catalog_of ds) = filter (fun d => def_property_id d = p) ds.
Proof. unfold epochs_of. rewrite catalog_of_lookup. by destruct (filter _ _). Qed.

Lemma epoch_sorted_NoDup l : StronglySorted epoch_lt l -> NoDup l.
Proof.
  induction 1 as [|d l _ IH Hall]; constructor; [|done]. intros Hin.
  rewrite Forall_forall in Hall. specialize (Hall d Hin). unfold epoch_lt in Hall. lia.
Qed.

Section rows.

Context (schemas : PropertySchemas) (rows : list ((Z * Z) * PropertyDefinition)).
Context (Hok : catalog_ok schemas).
Context (Hsort : StronglySorted (fun a b => schema_key_lt a.1 b.1) rows).
Context (Hrows : forall i d, (i, d) ∈ rows <-> defined schemas i d).

Lemma row_key i d : (i, d) ∈ rows -> i = (def_property_id d, def_schema_epoch d).
Proof.
  intros (epochs & Hp & Hpos & Hd)%Hrows.
  destruct (cat_epochs _ Hok _ _ _ _ Hp Hd) as [-> ->]. destruct i; cbn in *. f_equal. lia.
Qed.

Lemma epochs_sorted p epochs : schemas !! p = Some epochs -> StronglySorted epoch_lt epochs.
Proof.
  intros Hp. assert (forall i d, epochs !! i = Some d -> def_schema_epoch d = Z.of_nat i + 1) as He.
  { intros i d Hd. by apply (cat_epochs _ Hok _ _ _ _ Hp Hd). }
  clear Hp. revert He. generalize 1. induction epochs as [|d epochs IH]; intros n He; constructor.
  - apply (IH (n + 1)). intros i d' Hd'. rewrite (He (S i) d' Hd'). lia.
  - apply Forall_forall. intros d' [i Hi]%list_elem_of_lookup. unfold epoch_lt.
    rewrite (He 0%nat d eq_refl), (He (S i) d' Hi). lia.
Qed.

Lemma filtered_sorted p l :
  l ⊆ rows -> StronglySorted (fun a b => schema_key_lt a.1 b.1) l ->
  StronglySorted epoch_lt (filter (fun d => def_property_id d = p) l.*2).
Proof.
  intros Hl Hs. induction Hs as [|[i d] l Hs IH Hall]; [constructor|].
  assert (l ⊆ rows) as Hl' by (intros x Hx; apply Hl; by right). rewrite fmap_cons. cbn [snd].
  rewrite filter_cons. destruct (decide _) as [E|]; [|by apply IH].
  constructor; [by apply IH|]. apply Forall_forall.
  intros d' [E' ([i' d0] & -> & Hin)%list_elem_of_fmap]%list_elem_of_filter. cbn [snd] in *.
  rewrite Forall_forall in Hall. specialize (Hall _ Hin). cbn [fst] in Hall.
  rewrite (row_key i d) in Hall by (apply Hl; by left).
  rewrite (row_key i' d0) in Hall by by apply Hl'. unfold schema_key_lt, epoch_lt in *.
  cbn in Hall. lia.
Qed.

(** The rows of a property are its epochs. *)
Lemma rows_by_property p epochs :
  schemas !! p = Some epochs -> filter (fun d => def_property_id d = p) rows.*2 = epochs.
Proof.
  intros Hp.
  assert (StronglySorted epoch_lt (filter (fun d => def_property_id d = p) rows.*2)) as Hf
    by by apply filtered_sorted.
  pose proof (epochs_sorted p epochs Hp) as He.
  apply (StronglySorted_unique_strong epoch_lt); [|done|done|].
  { unfold epoch_lt. intros. lia. }
  apply NoDup_Permutation; [by apply epoch_sorted_NoDup..|]. intros d.
  rewrite list_elem_of_filter, list_elem_of_fmap. split.
  - intros [E ([i d0] & -> & Hin)]. cbn [snd] in *. pose proof (row_key _ _ Hin) as ->.
    apply Hrows in Hin as (epochs' & Hp' & _ & Hd). cbn [fst snd] in *.
    rewrite E, Hp in Hp'. injection Hp' as <-. by eapply list_elem_of_lookup_2.
  - intros [n Hn]%list_elem_of_lookup. destruct (cat_epochs _ Hok _ _ _ _ Hp Hn) as [Ep Ee].
    split; [done|]. exists ((p, Z.of_nat n + 1), d). split; [done|]. apply Hrows.
    exists epochs. cbn. split; [done|]. split; [lia|]. by replace (Z.to_nat _) with n by lia.
Qed.

Lemma rows_of_none p :
  schemas !! p = None -> filter (fun d => def_property_id d = p) rows.*2 = [].
Proof.
  intros Hp. destruct (filter _ _) as [|d l] eqn:E; [done|].
  assert (d ∈ filter (fun d => def_property_id d = p) rows.*2) as Hd by (rewrite E; by left).
  apply list_elem_of_filter in Hd as [Ep ([i d0] & -> & Hin)%list_elem_of_fmap].
  pose proof (row_key _ _ Hin) as ->. apply Hrows in Hin as (epochs & Hp' & _). cbn in *.
  congruence.
Qed.

Lemma catalog_of_rows : catalog_of rows.*2 = schemas.
Proof.
  apply (map_eq (M := gmap Z)). intros p. rewrite catalog_of_lookup.
  destruct (schemas !! p) as [epochs|] eqn:Hp.
  - rewrite (rows_by_property p epochs Hp). destruct epochs; [|done].
    by destruct (cat_nonempty _ Hok p).
  - by rewrite rows_of_none.
Qed.

(** A row continues the epochs of its property. *)
Lemma row_continues before i d after :
  rows = before ++ (i, d) :: after ->
  let epochs := epochs_of (def_property_id d) (catalog_of before.*2) in
  def_schema_epoch d = Z.of_nat (length epochs) + 1 /\
  HasIncompatiblePropertyName epochs d = false.
Proof.
  intros Hrw. cbn zeta. rewrite epochs_of_catalog. set (p := def_property_id d).
  assert ((i, d) ∈ rows) as Hin by (rewrite Hrw; apply elem_of_app; right; by left).
  pose proof (row_key _ _ Hin) as Ei. apply Hrows in Hin as (epochs & Hp & _ & _).
  rewrite Ei in Hp. cbn [fst] in Hp. pose proof (rows_by_property _ _ Hp) as Ef.
  rewrite Hrw, fmap_app, fmap_cons, filter_app, filter_cons_True in Ef by done.
  set (l := filter _ before.*2) in *.
  assert (epochs !! length l = Some d) as Hd
    by (rewrite <- Ef, list_lookup_middle by done; done).
  split; [by apply (cat_epochs _ Hok _ _ _ _ Hp Hd)|].
  pose proof (cat_names _ Hok _ _ _ _ Hp Hd) as Hc. by rewrite <- Ef, take_app_length in Hc.
Qed.

End rows.

(** ** Loading *)

Lemma load_rows schemas rows block :
  catalog_ok schemas ->
  StronglySorted (fun a b => schema_key_lt a.1 b.1) rows ->
  (forall i d, (i, d) ∈ rows <-> defined schemas i d) ->
  Forall2 (fun row kv => schema_row row.1 row.2 /\ schema_key row.1 = Ok kv.1 /\
             EncodePropertyDefinition row.2 = Ok kv.2) rows block ->
  loop load_definition ∅ block = Ok schemas.
Proof.
  intros Hok Hsort Hrows Hblock. rewrite <- (catalog_of_rows schemas rows Hok Hsort Hrows).
  assert (forall before after block', rows = before ++ after ->
    Forall2 (fun row kv => schema_row row.1 row.2 /\ schema_key row.1 = Ok kv.1 /\
               EncodePropertyDefinition row.2 = Ok kv.2) after block' ->
    loop load_definition (catalog_of before.*2) block' = Ok (catalog_of rows.*2)) as Hloop.
  2: by apply (Hloop [] rows block).
  intros before after. revert before. induction after as [|[i d] after IH];
    intros before block' Hrw Hf; inversion_clear Hf as [|? [k v] ? block'' Hrow Hf'].
  { by rewrite Hrw, app_nil_r. }
  cbn [fst snd] in Hrow. destruct Hrow as ([Ei Ht] & Hk & Hv).
  destruct (row_continues schemas rows Hok Hsort Hrows before i d after Hrw) as [He Hn].
  assert (load_definition (catalog_of before.*2) (k, v) = Ok (catalog_of (before ++ [(i, d)]).*2))
    as Hstep.
  { rewrite fmap_app, fmap_cons, fmap_nil, catalog_of_app. unfold load_definition. cbn [fst snd].
    rewrite (codec_decode (encode := EncodePropertyDefinition) (typed := definition_typed) d v)
      by done.
    cbn [mbind StatusOr_bind]. subst i. unfold schema_key in Hk. cbn [fst snd] in Hk. rewrite Hk.
    cbn [mbind StatusOr_bind]. rewrite bool_decide_true, Hn, (proj2 (Z.eqb_eq _ _)) by done.
    done. }
  cbn [loop]. rewrite Hstep. cbn [mbind StatusOr_bind]. apply IH; [|done].
  by rewrite <- app_assoc.
Qed.

Lemma LoadPropertySchemas_OK schemas meta :
  cf_sorted meta -> catalog_ok schemas -> catalog_in schemas meta ->
  LoadPropertySchemas meta = Ok schemas.
Proof.
  intros Hs Hok (m & Hm & Hdef).
  destruct (table_scan _ _ _ _ _ _ schema_row_typed _ _ Hs Hm) as (rows & Hperm & Hsort & Hrows).
  apply (load_rows schemas rows); try done.
  intros i d. by rewrite Hperm, elem_of_map_to_list.
Qed.

(** ** Registration *)

Lemma catalog_epochs schemas p i d :
  catalog_ok schemas -> epochs_of p schemas !! i = Some d ->
  def_property_id d = p /\ def_schema_epoch d = Z.of_nat i + 1 /\ definition_typed d.
Proof.
  intros Hok Hd. unfold epochs_of in Hd. destruct (schemas !! p) as [epochs|] eqn:Hp; [|done].
  destruct (cat_epochs _ Hok _ _ _ _ Hp Hd). split_and!; try done.
  eapply cat_typed; [done..|]. by eapply list_elem_of_lookup_2.
Qed.

Lemma SamePropertyDefinition_epoch latest d :
  SamePropertyDefinition latest d = true -> latest = with_epoch (def_schema_epoch latest) d.
Proof.
  unfold SamePropertyDefinition. intros H. bool_to_prop. destruct latest, d. cbn in *. by subst.
Qed.

Lemma next_definition_OK schemas d r :
  catalog_ok schemas -> request_typed d -> next_definition schemas d = Ok r ->
  let epochs := epochs_of (def_property_id d) schemas in
  match r with
  | inl latest => last epochs = Some latest /\ exists e, latest = with_epoch e d
  | inr d' => d' = with_epoch (Z.of_nat (length epochs) + 1) d /\ definition_typed d' /\
      HasIncompatiblePropertyName epochs d' = false
  end.
Proof.
  intros Hok (Hp & Hb & Ht) H epochs. unfold next_definition in H. fold epochs in H.
  destruct (last epochs) as [latest|] eqn:El.
  - destruct (SamePropertyDefinition latest d) eqn:Es.
    { injection H as <-. split; [done|]. eexists. by apply SamePropertyDefinition_epoch. }
    destruct (HasIncompatiblePropertyName epochs d) eqn:Ec; [done|].
    destruct (Z.eqb_spec (def_schema_epoch latest) (2 ^ 32 - 1)); [done|]. injection H as <-.
    rewrite last_lookup in El. destruct (catalog_epochs _ _ _ _ Hok El) as (_ & Ee & _ & Hu & _).
    apply lookup_lt_Some in El as Hl. rewrite Ee in *. unfold uint in Hu.
    replace (Z.of_nat (pred (length epochs)) + 1) with (Z.of_nat (length epochs)) in * by lia.
    split; [done|]. split; [|done]. unfold definition_typed, uint in *. cbn.
    split_and!; done || lia.
  - injection H as <-. apply last_None in El. rewrite El. by repeat split; try apply Hp; try apply Hb.
Qed.

Lemma defined_push schemas d i d' :
  def_schema_epoch d = Z.of_nat (length (epochs_of (def_property_id d) schemas)) + 1 ->
  defined (push_definition d schemas) i d' <->
  i = (def_property_id d, def_schema_epoch d) /\ d' = d \/ defined schemas i d'.
Proof.
  intros He. set (p := def_property_id d) in *. destruct i as [q e]. unfold defined. cbn [fst snd].
  rewrite push_lookup. fold p. destruct (decide (p = q)) as [<-|Hne].
  2: { split; [by right|]. intros [[[= -> ->] _]|H]; done. }
  set (epochs := epochs_of p schemas) in *. split.
  - intros (epochs' & [= <-] & Hpos & Hd). apply lookup_app_Some in Hd as [Hd|[Hl Hd]].
    + right. unfold epochs, epochs_of in Hd. destruct (schemas !! p) as [l|]; [|done].
      by exists l.
    + apply list_lookup_singleton_Some in Hd as [Hd <-]. left. split; [|done]. f_equal. lia.
  - intros [[[= ->] ->]|(l & Hl & Hpos & Hd)]; exists (epochs ++ [d]); (split; [done|]).
    + split; [lia|]. by rewrite list_lookup_middle by lia.
    + split; [done|]. unfold epochs, epochs_of. rewrite Hl. by apply lookup_app_l_Some.
Qed.

Lemma push_catalog_ok schemas d :
  catalog_ok schemas -> definition_typed d ->
  def_schema_epoch d = Z.of_nat (length (epochs_of (def_property_id d) schemas)) + 1 ->
  HasIncompatiblePropertyName (epochs_of (def_property_id d) schemas) d = false ->
  catalog_ok (push_definition d schemas).
Proof.
  intros Hok Ht He Hn. set (p := def_property_id d) in *.
  split; intros q; rewrite push_lookup; fold p; destruct (decide (p = q)) as [<-|Hne];
    try apply Hok.
  - by destruct (epochs_of p schemas).
  - intros epochs i d' [= <-] [Hd|[Hl Hd]]%lookup_app_Some.
    + by destruct (catalog_epochs _ _ _ _ Hok Hd) as (? & ? & _).
    + apply list_lookup_singleton_Some in Hd as [Hd <-]. split; [done|]. lia.
  - intros epochs d' [= <-] [[i Hi]%list_elem_of_lookup| ->%list_elem_of_singleton]%elem_of_app; [|done].
    by destruct (catalog_epochs _ _ _ _ Hok Hi) as (_ & _ & ?).
  - intros epochs i d' [= <-] [Hd|[Hl Hd]]%lookup_app_Some.
    + rewrite take_app_le by by apply Nat.lt_le_incl; eapply lookup_lt_Some.
      unfold epochs_of in *. destruct (schemas !! p) as [l|] eqn:E; [|done].
      by apply (cat_names _ Hok p l).
    + apply list_lookup_singleton_Some in Hd as [Hd <-].
      by replace i with (length (epochs_of p schemas)) by lia; rewrite take_app_length.
Qed.

Lemma push_catalog_in schemas meta d k v :
  catalog_in schemas meta -> definition_typed d ->
  def_schema_epoch d = Z.of_nat (length (epochs_of (def_property_id d) schemas)) + 1 ->
  EncodeSchemaMetaKey (def_property_id d) (def_schema_epoch d) = Ok k ->
  EncodePropertyDefinition d = Ok v ->
  catalog_in (push_definition d schemas) (cf_put k v meta).
Proof.
  intros (m & Hm & Hdef) Ht He Hk Hv.
  exists (<[(def_property_id d, def_schema_epoch d) := d]> m). split.
  { by_table table_insert; try done. apply schema_row_typed. }
  intros i d'. rewrite (defined_push schemas d i d' He), lookup_insert_Some, <- Hdef.
  split; [naive_solver|]. intros [[-> ->]|Hi]; [by left|].
  destruct (decide (i = (def_property_id d, def_schema_epoch d))) as [->|]; [|by right].
  apply Hdef in Hi as (epochs & Hp & _ & Hi). cbn [fst snd] in *.
  unfold epochs_of in He. rewrite Hp in He. apply lookup_lt_Some in Hi. cbn in He. lia.
Qed.

Lemma catalog_in_agree schemas meta meta' :
  (forall k, StartsWith k kSchemaMetaPrefix = true -> cf_get k meta' = cf_get k meta) ->
  catalog_in schemas meta -> catalog_in schemas meta'.
Proof. intros H (m & Hm & Hdef). exists m. split; [|done]. by by_table table_agree. Qed.

(** What a registration comes to. *)
Lemma RegisterProperty_OK outcome d s r s' :
  schema_inv s -> outcome_ok outcome -> request_typed d ->
  RegisterProperty outcome d s = (r, s') ->
  schema_inv s' /\
  match r with
  | Ok d' => (exists e, d' = with_epoch e d) /\ extends (property_schemas s) (property_schemas s') /\
      last (epochs_of (def_property_id d) (property_schemas s')) = Some d' /\
      recovery_required (sc_store s') = false
  | Fail _ => property_schemas s' = property_schemas s
  end.
Proof.
  intros Hinv Ho Ht H. pose proof Hinv as [Hs Hcat (disk & Hdisk & Hin & Hdur)].
  unfold RegisterProperty in H.
  destruct (mbind _ _) as [[latest|d']|st] eqn:E; [| |by injection H as <- <-].
  all: inv_ok; bool_to_prop.
  - injection H as <- <-. apply next_definition_OK in E as [El [e Ee]]; [|done..].
    split; [done|]. split; [by exists e|]. split; [by intros ? ?|]. by split.
  - apply next_definition_OK in E as (Ed & Htd & Hn); [|done..].
    destruct Hdur as [->|[Hr _]]; [|congruence].
    assert (def_property_id d' = def_property_id d) as Ep by by rewrite Ed.
    assert (def_schema_epoch d' = Z.of_nat (length (epochs_of (def_property_id d')
      (property_schemas s))) + 1) as He by by rewrite Ed.
    rewrite <- Ep in Hn.
    destruct (mbind _ _) as [ops|st] eqn:Eo; [|by injection H as <- <-]. inv_ok. subst ops.
    destruct (persist_metadata _ _ _) as [st cs] eqn:Ep'. apply persist_metadata_spec in Ep'; [|done].
    pose proof (push_catalog_ok _ _ Hcat Htd He Hn) as Hcat'.
    pose proof (push_catalog_in _ _ _ _ _ Hin Htd He H2 H3) as Hin'.
    set (cs1 := with_db (db_write (cs_db (sc_store s)) [Put kMetaCf x1 x2]) (sc_store s)) in *.
    assert (db_sorted (cs_db cs1)) as Hs1 by by apply db_write_sorted.
    destruct Ep' as [|st Hst Hi|st applied Hi].
    + injection H as <- <-. split.
      * split; [done..|]. exists (push_definition d' (property_schemas s)). split; [done|]. split; [done|]. by left.
      * split; [by eexists|]. split; [by intros ? ? ?; apply defined_push; [|right]|]. cbn.
        split; [|done]. unfold epochs_of at 1. rewrite push_lookup, decide_True by done.
        cbn. by rewrite last_snoc.
    + destruct st; [done|]. injection H as <- <-. split; [|done]. by destruct s.
    + destruct st as [|code m]; [done|]. injection H as <- <-. split; [|done].
      destruct applied; (split; [done..|]).
      * exists (push_definition d' (property_schemas s)). split; [done|]. split; [done|].
        right. split; [done|]. by exists d'.
      * exists (property_schemas s). split; [done|]. split; [done|]. by left.
Qed.

Lemma push_extends schemas d :
  catalog_ok (push_definition d schemas) -> extends schemas (push_definition d schemas).
Proof.
  intros Hok i d' Hd. apply defined_push; [|by right].
  apply (cat_epochs _ Hok (def_property_id d) (epochs_of (def_property_id d) schemas ++ [d])).
  - by rewrite push_lookup, decide_True.
  - by apply list_lookup_middle.
Qed.

Lemma schema_step_OK s s' :
  schema_inv s -> schema_step s s' ->
  schema_inv s' /\ extends (property_schemas s) (property_schemas s').
Proof.
  intros Hinv Hstep. revert Hinv.
  destruct Hstep as [s outcome d r s' Ho Ht H|s cs Hs Hr Hsame|s cs schemas Edb Hr Hload];
    intros Hinv.
  - destruct (RegisterProperty_OK _ _ _ _ _ Hinv Ho Ht H) as [Hinv' Hres]. split; [done|].
    destruct r; [apply Hres|]. rewrite Hres; by intros ? ?.
  - pose proof Hinv as [_ Hcat (disk & Hdisk & Hin & Hdur)]. split; [|by intros ? ?].
    split; [done..|]. exists disk. split; [done|]. split; [by eapply catalog_in_agree|].
    destruct Hdur as [->|[Hrec Hd]]; [by left|right]. split; [by apply Hr|done].
  - pose proof Hinv as [Hs Hcat (disk & Hdisk & Hin & Hdur)].
    assert (meta_cf cs = meta_cf (sc_store s)) as Em by exact (f_equal db_meta Edb).
    rewrite Em, (LoadPropertySchemas_OK disk) in Hload by (done || apply Hs).
    injection Hload as <-. split.
    + split; cbn [sc_store property_schemas]; [by rewrite Edb|done|].
      exists disk. rewrite Em. split; [done|]. split; [done|]. by left.
    + cbn [property_schemas]. destruct Hdur as [->|(_ & d & ->)]; [by intros ? ?|].
      by apply push_extends.
Qed.

Lemma schema_reachable s s' :
  schema_inv s -> rtc schema_step s s' ->
  schema_inv s' /\ extends (property_schemas s) (property_schemas s').
Proof.
  intros Hinv Hsteps. induction Hsteps as [s|s s1 s2 Hstep _ IH]; [by split; [|intros ? ?]|].
  destruct (schema_step_OK s s1 Hinv Hstep) as [Hinv1 Hext]. destruct (IH Hinv1) as [Hinv2 Hext2].
  split; [done|]. intros i d Hd. by apply Hext2, Hext.
Qed.

Lemma lookup_defined schemas p e d :
  0 < e -> LookupPropertyInSchemas schemas p e = Ok (Some d) <-> p <> 0 /\ defined schemas (p, e) d.
Proof.
  intros He. unfold LookupPropertyInSchemas, defined. cbn [fst snd].
  destruct (Z.eqb_spec p 0) as [->|Hp]; [naive_solver|].
  destruct (schemas !! p) as [[|d0 epochs]|]; [naive_solver| |naive_solver].
  destruct (Z.ltb_spec (Z.of_nat (length (d0 :: epochs))) e) as [Hlt|Hle].
  - split; [done|]. intros (_ & l & [= <-] & _ & Hd%lookup_lt_Some). lia.
  - rewrite (proj2 (Z.eqb_neq e 0)) by lia. split.
    + intros [= Hd]. split; [done|]. exists (d0 :: epochs). split_and!; done || lia.
    + by intros (_ & l & [= <-] & _ & ->).
Qed.

Lemma registered_nonzero outcome d s d' s' :
  RegisterProperty outcome d s = (Ok d', s') -> def_property_id d <> 0.
Proof.
  unfold RegisterProperty, ValidatePropertyRequest, PropertyDefinition_Validate. intros H Hz.
  cbn [def_property_id with_epoch] in H. rewrite Hz in H. by destruct (negb (_ =? 0)).
Qed.

Lemma registered_current schemas d :
  catalog_ok schemas ->
  d ∈ omap (fun entry => last entry.2) (in_key_order schemas) <->
  last (epochs_of (def_property_id d) schemas) = Some d.
Proof.
  intros Hok. unfold in_key_order. rewrite list_elem_of_omap. unfold epochs_of. split.
  - intros ([p epochs] & Hin & Hd). rewrite merge_sort_Permutation in Hin.
    apply (elem_of_map_to_list (M := gmap Z)) in Hin. cbn [snd] in Hd.
    assert (schemas !! p = Some epochs) as Hp by exact Hin. rewrite last_lookup in Hd.
    destruct (cat_epochs _ Hok _ _ _ _ Hp Hd) as [-> _]. rewrite Hp. cbn.
    by rewrite last_lookup.
  - intros Hd. destruct (schemas !! _) as [epochs|] eqn:Hp; [|done].
    exists (def_property_id d, epochs). split; [|done].
    rewrite merge_sort_Permutation. by apply (elem_of_map_to_list (M := gmap Z)).
Qed.

(** The listing of a catalog: the current definition of every property, in the order of
    the properties. *)
Lemma ListProperties_OK s :
  catalog_ok (property_schemas s) ->
  Sorted property_le (ListProperties s) /\
  forall d, d ∈ ListProperties s <->
    last (epochs_of (def_property_id d) (property_schemas s)) = Some d.
Proof.
  intros Hok. unfold ListProperties. split.
  - assert (Total property_le) by (intros a b; unfold property_le; lia).
    apply (Sorted_merge_sort property_le).
  - intros d. rewrite merge_sort_Permutation. by apply registered_current.
Qed.

(** ** Properties *)

(** C8: property definitions are permanent: after any registrations, whatever becomes of
    their writes, any other writes of metadata and any restarts, a definition that was
    found under an epoch is found there unchanged; and opening the store always succeeds
    with the catalog, which is the one in memory unless the outcome of a write is open. *)
Theorem property_definitions_permanent s s' :
  schema_inv s -> rtc schema_step s s' ->
  (forall p e d, 0 < e -> LookupCurrentProperty s p e = Ok (Some d) ->
     LookupCurrentProperty s' p e = Ok (Some d)) /\
  exists schemas, LoadPropertySchemas (meta_cf (sc_store s')) = Ok schemas /\
    (recovery_required (sc_store s') = false -> schemas = property_schemas s').
Proof.
  intros Hinv Hsteps. destruct (schema_reachable s s' Hinv Hsteps) as [Hinv' Hext]. split.
  - intros p e d He [Hp Hd]%lookup_defined; [|done]. apply lookup_defined; [done|].
    split; [done|]. by apply Hext.
  - destruct Hinv' as [Hs Hcat (disk & Hdisk & Hin & Hdur)]. exists disk. split.
    + by apply LoadPropertySchemas_OK; [apply Hs|..].
    + intros Hr. destruct Hdur as [->|[Hr' _]]; [done|congruence].
Qed.

(** A registration that succeeds returns the requested definition under an epoch,
    that definition is the current one of its property, it is what a restart finds, and
    nothing that was defined before is lost; a registration that fails leaves the catalog
    as it was. *)
Theorem RegisterProperty_spec outcome d s r s' :
  schema_inv s -> outcome_ok outcome -> request_typed d ->
  RegisterProperty outcome d s = (r, s') ->
  match r with
  | Ok d' => (exists e, d' = with_epoch e d) /\
      LookupCurrentProperty s' (def_property_id d) 0 = Ok (Some d') /\
      LoadPropertySchemas (meta_cf (sc_store s')) = Ok (property_schemas s') /\
      forall p e x, 0 < e -> LookupCurrentProperty s p e = Ok (Some x) ->
        LookupCurrentProperty s' p e = Ok (Some x)
  | Fail _ => property_schemas s' = property_schemas s
  end.
Proof.
  intros Hinv Ho Ht H. pose proof (RegisterProperty_OK _ _ _ _ _ Hinv Ho Ht H) as [Hinv' Hres].
  destruct r as [d'|st]; [|done]. destruct Hres as (He & Hext & Hlast & Hr).
  split; [done|]. split; [|split].
  - unfold LookupCurrentProperty, LookupPropertyInSchemas.
    rewrite (proj2 (Z.eqb_neq _ _)) by by eapply registered_nonzero. unfold epochs_of in Hlast.
    destruct (_ !! _) as [[|x l]|]; [done| |done]. cbn [default from_option id] in Hlast.
    by rewrite (proj2 (Z.ltb_ge _ _)), Hlast by lia.
  - destruct Hinv' as [Hs Hcat (disk & Hdisk & Hin & Hdur)].
    destruct Hdur as [->|[Hr' _]]; [|congruence]. by apply LoadPropertySchemas_OK; [apply Hs|..].
  - intros p e x Hpos [Hp Hd]%lookup_defined; [|done]. apply lookup_defined; [done|].
    split; [done|]. by apply Hext.
Qed.

Lemma empty_schemas_inv : schema_inv empty_schemas.
Proof.
  assert (forall p, (∅ : PropertySchemas) !! p = None) as He
    by (intros; apply (lookup_empty (M := gmap Z))).
  assert (catalog_ok ∅) as Hok by (split; intros p; rewrite He; done).
  pose proof sample_commit_inv as Hinv. split; [split|done|].
  - apply (inv_store _ _ _ Hinv).
  - apply (inv_meta _ _ _ Hinv).
  - exists ∅. split; [done|]. split; [|by left]. exists ∅. split.
    + split; [intros i x; by rewrite lookup_empty|]. intros k v Hk. by vm_compute in Hk.
    + intros i d. rewrite lookup_empty. split; [done|]. intros (epochs & H & _).
      by rewrite He in H.
Qed.

Lemma sample_property_typed : request_typed sample_property /\ request_typed renamed_property.
Proof. by repeat split. Qed.

Lemma registered_result :
  RegisterProperty sample_written sample_property empty_schemas
  = (Ok (with_epoch 1 sample_property), registered_sample).
Proof. by vm_compute. Qed.

Lemma RegisterProperty_spec_witness :
  LookupCurrentProperty registered_sample 7 0 = Ok (Some (with_epoch 1 sample_property)) /\
  LoadPropertySchemas (meta_cf (sc_store registered_sample))
  = Ok (property_schemas registered_sample).
Proof.
  pose proof (RegisterProperty_spec sample_written sample_property empty_schemas _ _
    empty_schemas_inv I (proj1 sample_property_typed) registered_result) as H.
  exact (conj (proj1 (proj2 H)) (proj1 (proj2 (proj2 H)))).
Defined.

Lemma registered_inv : schema_inv registered_sample.
Proof.
  exact (proj1 (RegisterProperty_OK sample_written _ _ _ _ empty_schemas_inv I
    (proj1 sample_property_typed) registered_result)).
Qed.

Lemma sample_schema_steps : rtc schema_step registered_sample reopened_sample.
Proof.
  eapply rtc_l.
  { apply (step_register _ unknown_outcome renamed_property
      (RegisterProperty unknown_outcome renamed_property registered_sample).1 unknown_sample);
      [done|apply sample_property_typed|apply surjective_pairing]. }
  apply rtc_once, step_reopen; [done|done|]. by vm_compute.
Qed.

(** A rename whose write had an unknown outcome is there after the restart, as a second
    epoch beside the first. *)
Lemma property_definitions_permanent_witness :
  LookupCurrentProperty reopened_sample 7 1 = Ok (Some (with_epoch 1 sample_property)) /\
  LookupCurrentProperty reopened_sample 7 2 = Ok (Some (with_epoch 2 renamed_property)).
Proof.
  split; [|by vm_compute].
  apply (proj1 (property_definitions_permanent _ _ registered_inv sample_schema_steps));
    [lia|by vm_compute].
Defined.
