(* ===== verification/Recovery.v ===== *)
(** * Recovery: opening a fact store

    Models [FactStore::Open] of [src/storage/rocks/rocks_adapter.cc] once the engine has
    opened the column families: the records of a new database, the format and the
    watermarks of an existing one, the validation of its committed sequences
    ([ValidateCommittedSequences] with the content of each record and its outcomes in
    batches), the allocators, the catalog, the vacuum and the pruning that are resumed,
    and the derived structures that are built again.

    Directories, the placement of the log, the engine's options and its own recovery
    are outside: the database that the engine recovers is an argument, like the outcomes
    of the writes, the engine's estimate of the number of facts, and the sizes that the
    compiler gives to the cells of the derived structures. *)

From stdpp Require Import pretty.
From S2P Require Import Prelude Status Crc32c Wire Value Fact FactCodec CommitBatch.
From S2P Require Import Frame MetaCodec PreparedCodec GroupCommit Bloom RecentWrites.
From S2P Require Import ValidationCache Accelerators Temporal FactStore Conflict Scan.
From S2P Require Import WriteBatch Commit Vacuum SequenceRetention Retention MetaTable.
From S2P Require Import Prepared Allocator Schema.

Definition kMetaSequenceFormatV1 : Z := 1.
Definition kMetaSequenceFormatV2 : Z := 2.
Definition kMaximumGroupCommitBatchCount : Z := 512.
Definition kMaximumGroupCommitBatchBytes : Z := 2097152.

(** ** Options *)

Record OpenOptions := mkOpenOptions {
  path : list byte;
  meta_sequence_format : Z;
  group_commit_max_batch_size : Z;
  open_max_batch_bytes : Z;
  outcome_batch_size_for_testing : nat;
  deep_recovery_validation : bool;
  recovery_validation_recent_sequences : Z;
  prune_sequence_records_on_vacuum : bool;
  validation_cache_bytes : Z;
  identity_history_skip_rebuild_for_testing : bool
}.

(** What the engine and the compiler say. *)
Record OpenPlatform := mkOpenPlatform {
  estimated_fact_keys : option Z;
  sizeof_ExactBucket : Z;
  sizeof_Filter : Z;
  sizeof_Slot : Z
}.

Definition check_open_options (o : OpenOptions) : StatusOr unit :=
  _ ← require (negb (length (path o) =? 0)%nat)
        (InvalidArgument "fact store" "missing database path");
  _ ← require (negb (meta_sequence_format o =? kMetaSequenceFormatV1))
        (InvalidArgument "fact store"
           "meta sequence format 1 (v1) is no longer supported; this release writes and reads only format 2 (v2), which is the default");
  _ ← require (meta_sequence_format o =? kMetaSequenceFormatV2)
        (InvalidArgument "fact store"
           ("unsupported meta sequence format " +:+ pretty (meta_sequence_format o)
            +:+ "; this release supports only format 2 (v2)"));
  _ ← require (negb ((group_commit_max_batch_size o =? 0)
                     || (kMaximumGroupCommitBatchCount <? group_commit_max_batch_size o)))
        (InvalidArgument "fact store" "group commit count is outside [1, 512]");
  require (negb ((open_max_batch_bytes o =? 0)
                 || (kMaximumGroupCommitBatchBytes <? open_max_batch_bytes o)))
    (InvalidArgument "fact store" "group commit bytes exceed 2 MiB hard limit").

(** ** A new database *)

Definition current_identity : SystemIdentity :=
  mkSystemIdentity (literal "cedar.authoritative-columnar") 1 (literal "part32.fact.v2")
    (literal "cedar.parquet.facts.v3") (literal "cedar.v2.internal-key.bytewise.v1").

Definition initial_records : StatusOr (list WriteOp) :=
  identity ← EncodeSystemIdentity current_identity;
  empty_watermark ← EncodeWatermark 0;
  sequence_format ← EncodeSequenceFormat kMetaSequenceFormatV2;
  Ok [Put kMetaCf EncodeCurrentFormatKey identity;
      Put kMetaCf EncodeVisibleWatermarkKey empty_watermark;
      Put kMetaCf EncodeOldestReadableWatermarkKey empty_watermark;
      Put kMetaCf EncodeSequenceFormatKey sequence_format].

Definition initialize (outcome : WriteOutcome) (db : Database)
  : StatusOr unit * Database :=
  match initial_records with
  | Fail s => (Fail s, db)
  | Ok ops =>
      match write_status outcome with
      | rocks_ok => (Ok tt, db_write db ops)
      | failure =>
          (_ ← check (FromRocksDb failure "initialize fact store"); Ok tt,
           if write_applied outcome then db_write db ops else db)
      end
  end.

(** ** The records of an existing one *)

Record Watermarks := mkWatermarks {
  wm_visible : Z;
  wm_oldest : Z;
  wm_retention : Z
}.

Definition read_watermarks (meta : column_family) : StatusOr Watermarks :=
  '(encoded_visible, encoded_oldest) ←
    match cf_get EncodeVisibleWatermarkKey meta,
          cf_get EncodeOldestReadableWatermarkKey meta with
    | Some v, Some o => Ok (v, o)
    | _, _ => Fail (Corruption "fact store" "missing durable watermark")
    end;
  visible ← DecodeWatermark encoded_visible;
  oldest ← DecodeWatermark encoded_oldest;
  _ ← require (oldest <=? visible)
        (Corruption "fact store" "retention watermark exceeds visible sequence");
  sequence_retention ← read_retention meta;
  _ ← require (sequence_retention <=? oldest)
        (Corruption "fact store"
           "sequence retention watermark exceeds the retention boundary");
  Ok (mkWatermarks visible oldest sequence_retention).

Definition LoadMetaSequenceFormatMarker (meta : column_family) : StatusOr (option Z) :=
  match cf_get EncodeSequenceFormatKey meta with
  | None => Ok None
  | Some encoded => decoded ← DecodeSequenceFormat encoded; Ok (Some decoded)
  end.

Definition check_marker (meta : column_family) : StatusOr unit :=
  marker ← LoadMetaSequenceFormatMarker meta;
  marker_format ← from_option marker
    (LegacyMetaSequenceFormatError "database has no durable meta sequence format marker");
  _ ← require (negb (marker_format =? kMetaSequenceFormatV1))
        (LegacyMetaSequenceFormatError "database records meta sequence format 1 (v1)");
  require (marker_format =? kMetaSequenceFormatV2)
    (Corruption "fact store"
       ("unsupported meta sequence format marker: " +:+ pretty marker_format)).

(** ** Committed sequences *)

Definition validate_sequence_fact (facts : column_family) (commit_seq : Z)
    (require_facts : bool) (fact_key : list byte) : StatusOr unit :=
  let invalid := Corruption "fact store" "sequence contains invalid fact key" in
  match DecodeFactKey fact_key with
  | Fail _ => Fail invalid
  | Ok decoded_key =>
      _ ← require (key_commit_seq decoded_key =? commit_seq) invalid;
      if negb require_facts then Ok tt
      else
        encoded_fact ← from_option (cf_get fact_key facts)
                         (Corruption "fact store" "sequence record is missing fact");
        _ ← DecodeFactValue (key_ref decoded_key) (key_valid_from decoded_key) commit_seq
              encoded_fact;
        Ok tt
  end.

Definition ValidateSequenceRecordContent (facts : column_family) (commit_seq : Z)
    (sequence : SequenceRecordView) (require_facts : bool) : StatusOr unit :=
  _ ← require (view_commit_seq sequence =? commit_seq)
        (Corruption "fact store" "sequence record has wrong commit sequence");
  _ ← match SequenceRecordView_Validate sequence with
      | StatusOK => Ok tt
      | structure => Fail (Corruption "sequence record" (ToString structure))
      end;
  loop (fun _ => validate_sequence_fact facts commit_seq require_facts) tt
    (view_keys (Z.to_nat (view_fact_count sequence)) (view_identities sequence)).

(** An outcome that is still to be checked: its key, transaction and sequence. *)
Definition pending_outcome : Type := list byte * Z * Z.

Definition validate_outcome (meta : column_family) (p : pending_outcome) : StatusOr unit :=
  let '(key, txn, commit_seq) := p in
  encoded ← from_option (cf_get key meta)
              (Corruption "fact store" "sequence record is missing outcome");
  outcome ← DecodeTransactionOutcome encoded;
  require ((outcome_txn_id outcome =? txn) && (outcome_commit_seq outcome =? commit_seq))
    (Corruption "fact store" "outcome and sequence disagree").

Definition ValidateSequenceOutcomeBatch (meta : column_family)
    (batch : list pending_outcome) : StatusOr unit :=
  loop (fun _ => validate_outcome meta) tt batch.

(** The scan of the sequence records: the sequence expected next, the outcomes that are
    not checked yet, and the iterator where the scan stops.  [floor] is where the facts
    themselves are read. *)
Fixpoint validate_sequences (batch_size : nat) (db : Database) (floor visible : Z)
    (expected : Z) (pending : list pending_outcome) (entries : column_family)
  : StatusOr (Z * list pending_outcome * column_family) :=
  match entries with
  | [] => Ok (expected, pending, [])
  | (key, value) :: entries' =>
      if StartsWith key kSequenceMetaPrefix && (expected <=? visible) then
        _ ← require (bool_decide (key = AppendU64 kSequenceMetaPrefix expected))
              (Corruption "fact store" "missing durable sequence record");
        sequence ← DecodeSequenceRecordView value expected;
        _ ← ValidateSequenceRecordContent (db_facts db) expected sequence
              (floor <=? expected);
        transaction_key ← EncodeTransactionMetaKey (view_txn_id sequence);
        let pending := pending ++ [(transaction_key, view_txn_id sequence, expected)] in
        if (length pending =? batch_size)%nat then
          _ ← ValidateSequenceOutcomeBatch (db_meta db) pending;
          validate_sequences batch_size db floor visible (wrap 64 (expected + 1)) [] entries'
        else
          validate_sequences batch_size db floor visible (wrap 64 (expected + 1)) pending
            entries'
      else Ok (expected, pending, entries)
  end.

(** The first sequence whose facts are read. *)
Definition fact_validation_floor (o : OpenOptions) (w : Watermarks) : Z :=
  let recent_sequences := Z.max 1 (recovery_validation_recent_sequences o) in
  let recent_floor := if recent_sequences <? wm_visible w
                      then wm_visible w - recent_sequences + 1 else 1 in
  if deep_recovery_validation o then wm_oldest w
  else Z.max (wm_oldest w) recent_floor.

Definition outcome_batch_size (o : OpenOptions) : nat :=
  if (outcome_batch_size_for_testing o =? 0)%nat then 1024
  else outcome_batch_size_for_testing o.

Definition ValidateCommittedSequences (o : OpenOptions) (w : Watermarks) (db : Database)
  : StatusOr unit :=
  if wm_visible w =? 0 then Ok tt
  else
    let first_expected := Z.max 1 (wm_retention w) in
    '(expected, pending, rest) ←
      validate_sequences (outcome_batch_size o) db (fact_validation_floor o w)
        (wm_visible w) first_expected []
        (Seek (AppendU64 kSequenceMetaPrefix first_expected) (db_meta db));
    _ ← ValidateSequenceOutcomeBatch (db_meta db) pending;
    _ ← require (expected =? wrap 64 (wm_visible w + 1))
          (Corruption "fact store" "visible watermark lacks contiguous sequences");
    require match rest with
            | (key, _) :: _ => negb (StartsWith key kSequenceMetaPrefix)
            | [] => true
            end (Corruption "fact store" "sequence exceeds visible watermark").

(** ** Derived structures *)

Definition rebuild_history (h : FactIdentityHistory) (facts : column_family)
  : StatusOr FactIdentityHistory :=
  loop (fun h kv => decoded ← DecodeFactKey kv.1; Ok (history_Publish h (key_ref decoded)))
    h facts.

Definition with_derived (recent : RecentFactWriteIndex) (history : FactIdentityHistory)
    (cache : VersionValidationCache) (cs : CommitStore) : CommitStore :=
  with_impl (mkFactStoreImpl (facts_cf (cs_impl cs)) (visible_seq (cs_impl cs))
               (Some recent) (Some history) (Some cache)) cs.

(** The validation budget is split, and a history that cannot hold the facts is
    disabled instead of rebuilt. *)
Definition build_derived (o : OpenOptions) (pf : OpenPlatform) (cs : CommitStore)
  : StatusOr CommitStore :=
  let write_index_bytes := validation_cache_bytes o / 8 in
  let identity_history_bytes := wrap 64 (validation_cache_bytes o * 3) / 8 in
  let cache_bytes :=
    wrap 64 (validation_cache_bytes o - write_index_bytes - identity_history_bytes) in
  let skip :=
    identity_history_skip_rebuild_for_testing o ||
    match estimated_fact_keys pf with
    | Some estimate => negb (CanRepresent identity_history_bytes estimate)
    | None => false
    end in
  let history := new_history identity_history_bytes in
  history ← (if skip then Ok (Disable history)
             else rebuild_history history (facts_cf (cs_impl cs)));
  Ok (with_derived
        (new_index (sizeof_ExactBucket pf) (sizeof_Filter pf) write_index_bytes
           (visible_seq (cs_impl cs)) 16384)
        history (new_cache (sizeof_Slot pf) cache_bytes) cs).

(** ** Open *)

Record OpenedStore := mkOpenedStore {
  os_store : CommitStore;
  os_oldest : Z;
  os_allocators : AllocatorStore;
  os_schemas : PropertySchemas
}.

Definition bare_store (o : OpenOptions) (w : Watermarks) (db : Database) : CommitStore :=
  mkCommitStore (mkFactStoreImpl (db_facts db) (wm_visible w) None None None) (db_meta db)
    false (wm_retention w) (open_max_batch_bytes o).

Definition resume_on_open (outcomes : nat -> WriteOutcome) (n : nat) (oldest : Z)
    (cs : CommitStore) : option (Status * nat * CommitStore) :=
  match cf_get EncodeVacuumStateKey (meta_cf cs) with
  | None => Some (StatusOK, n, cs)
  | Some encoded =>
      match
        vacuum_state ← DecodeVacuumState encoded;
        _ ← require (vacuum_target vacuum_state =? oldest)
              (Corruption "vacuum" "state target disagrees with watermark");
        Ok vacuum_state
      with
      | Fail s => Some (s, n, cs)
      | Ok vacuum_state => ResumeVacuum outcomes n vacuum_state cs
      end
  end.

Definition prune_on_open (o : OpenOptions) (outcomes : nat -> WriteOutcome) (n : nat)
    (oldest : Z) (cs : CommitStore) : option (Status * nat * CommitStore) :=
  if prune_sequence_records_on_vacuum o then PruneSequenceRecords outcomes n oldest cs
  else Some (StatusOK, n, cs).

(** What is loaded before anything is resumed. *)
Definition load_store (o : OpenOptions) (is_new_database : bool) (w : Watermarks)
    (db : Database) : StatusOr (AllocatorStore * PropertySchemas) :=
  _ ← check_marker (db_meta db);
  _ ← (if is_new_database then Ok tt else ValidateCommittedSequences o w db);
  allocators ← open_allocators (bare_store o w db);
  schemas ← LoadPropertySchemas (db_meta db);
  Ok (allocators, schemas).

(** The part behind the watermarks; [None] is out of fuel.  The second component is the
    database as it is left. *)
Definition open_loaded (o : OpenOptions) (pf : OpenPlatform) (is_new_database : bool)
    (outcomes : nat -> WriteOutcome) (n : nat) (w : Watermarks) (db : Database)
  : option (StatusOr OpenedStore * Database) :=
  match load_store o is_new_database w db with
  | Fail s => Some (Fail s, db)
  | Ok (allocators, schemas) =>
      '(resumed, n, cs) ← resume_on_open outcomes n (wm_oldest w) (bare_store o w db);
      match resumed with
      | StatusError _ _ => Some (Fail resumed, cs_db cs)
      | StatusOK =>
          '(pruned, _, cs) ← prune_on_open o outcomes n (wm_oldest w) cs;
          match pruned with
          | StatusError _ _ => Some (Fail pruned, cs_db cs)
          | StatusOK =>
              Some (store ← build_derived o pf cs;
                    Ok (mkOpenedStore store (wm_oldest w) allocators schemas), cs_db cs)
          end
      end
  end.

Definition Open (o : OpenOptions) (pf : OpenPlatform) (is_new_database : bool)
    (outcomes : nat -> WriteOutcome) (db : Database)
  : option (StatusOr OpenedStore * Database) :=
  match check_open_options o with
  | Fail s => Some (Fail s, db)
  | Ok _ =>
      match cf_get EncodeCurrentFormatKey (db_meta db) with
      | None =>
          if negb is_new_database then
            Some (Fail (Corruption "fact store" "missing durable format record"), db)
          else
            match initialize (outcomes 0%nat) db with
            | (Fail s, db) => Some (Fail s, db)
            | (Ok _, db) =>
                open_loaded o pf is_new_database outcomes 1 (mkWatermarks 0 0 0) db
            end
      | Some encoded_format =>
          match
            _ ← DecodeSystemIdentity encoded_format;
            read_watermarks (db_meta db)
          with
          | Fail s => Some (Fail s, db)
          | Ok w => open_loaded o pf is_new_database outcomes 0 w db
          end
      end
  end.

(** ** Specification *)

Definition sequence_key (s : Z) : list byte := AppendU64 kSequenceMetaPrefix s.

(** What a committed batch left behind; its facts may be gone below the boundary. *)
Record committed_record (events : list FactEvent) (w : Watermarks) (meta : column_family)
    (s : Z) (b : StoreCommitBatch) : Prop := {
  cr_range : 0 < s <= wm_visible w;
  cr_typed : prepared_typed b;
  cr_valid : StoreCommitBatch_Validate b = StatusOK;
  cr_recorded : recorded meta s b;
  cr_facts : wm_oldest w <= s -> batch_events s b ⊆ events;
  cr_id : txn_id b = U64_MAX -> is_Some (cf_get (EncodeAllocatorMetaKey kTransactionId) meta)
}.

(** A database that can be opened: [ledger] has the batches from the retention watermark
    on, [events] the facts. *)
Record recoverable (ledger : list (Z * StoreCommitBatch)) (events : list FactEvent)
    (w : Watermarks) (schemas : PropertySchemas) (db : Database) : Prop := {
  rc_sorted : db_sorted db;
  rc_facts : represents (db_facts db) events;
  rc_seen e : e ∈ events -> event_commit_seq e <= wm_visible w;
  rc_identity : exists v i, cf_get EncodeCurrentFormatKey (db_meta db) = Some v /\
    DecodeSystemIdentity v = Ok i;
  rc_watermarks : read_watermarks (db_meta db) = Ok w;
  rc_marker : check_marker (db_meta db) = Ok tt;
  rc_retained s : Z.max 1 (wm_retention w) <= s <= wm_visible w ->
    exists b, (s, b) ∈ ledger /\ committed_record events w (db_meta db) s b;
  rc_sequences k v : cf_get k (db_meta db) = Some v ->
    StartsWith k kSequenceMetaPrefix = true ->
    exists s, k = sequence_key s /\ 0 < s <= wm_visible w;
  rc_allocators kind : IsKnownIdKind kind = true -> durable_at kind 1 True (db_meta db);
  rc_catalog : catalog_ok schemas /\ catalog_in schemas (db_meta db);
  rc_vacuum : cf_get EncodeVacuumStateKey (db_meta db) = None
}.

(** Budgets and sizes as the types of the code allow them. *)
Definition platform_ok (o : OpenOptions) (pf : OpenPlatform) : Prop :=
  0 <= validation_cache_bytes o < 2 ^ 60 /\ 0 < sizeof_ExactBucket pf /\
  0 < sizeof_Filter pf /\ 0 < sizeof_Slot pf.

(** A store as it is opened over a database. *)
Record opened_with (o : OpenOptions) (events : list FactEvent) (w : Watermarks)
    (schemas : PropertySchemas) (db : Database) (opened : OpenedStore) : Prop := {
  ow_oldest : os_oldest opened = wm_oldest w;
  ow_schemas : os_schemas opened = schemas;
  ow_db : cs_db (os_store opened) = db;
  ow_visible : visible_seq (cs_impl (os_store opened)) = wm_visible w;
  ow_running : recovery_required (os_store opened) = false;
  ow_retention : sequence_retention_watermark (os_store opened) = wm_retention w;
  ow_store : store_ok events (cs_impl (os_store opened));
  ow_allocators : open_allocators (bare_store o w db) = Ok (os_allocators opened)
}.

(** The records that no write but a commit changes. *)
Definition core_prefixes : list (list byte) :=
  [literal "txn/"; literal "sequence/"; EncodeCurrentFormatKey; EncodeVisibleWatermarkKey;
   EncodeOldestReadableWatermarkKey; EncodeSequenceRetentionWatermarkKey;
   EncodeSequenceFormatKey; EncodeVacuumStateKey].

Definition op_under (prefix : list byte) (op : WriteOp) : Prop :=
  match op with
  | Put kMetaCf k _ | Delete kMetaCf k => StartsWith k prefix = true
  | _ => False
  end.

(** The writes of prepared transactions. *)
Definition prepared_op (op : WriteOp) : Prop :=
  op_under PreparedCommitPrefix op \/ op_under kDecisionPrefix op \/
  op_under AsyncTerminalPrefix op.

(** The commits that the callers know of. *)
Definition acknowledge (r : StatusOr StoreCommitResult) (b : StoreCommitBatch)
    (acked : list (StoreCommitResult * StoreCommitBatch))
  : list (StoreCommitResult * StoreCommitBatch) :=
  match r with Ok x => (x, b) :: acked | Fail _ => acked end.

(** The last transaction identifier of all, which only a coordinator outside can choose,
    is committed only after identifiers have been leased. *)
Definition leased_before_last (meta : column_family) (b : StoreCommitBatch) : Prop :=
  txn_id b = U64_MAX -> is_Some (cf_get (EncodeAllocatorMetaKey kTransactionId) meta).

(** The life of a database: whatever becomes of its writes, its store commits, registers
    properties, prepares and decides transactions and extends its allocators; and at any
    time the process ends and opens the database again. *)
Inductive life_step : list (StoreCommitResult * StoreCommitBatch) * SchemaStore ->
    list (StoreCommitResult * StoreCommitBatch) * SchemaStore -> Prop :=
| life_commit acked s cf_id outcome b prepared_key r cs :
    prepared_typed b -> fresh_unrecorded (meta_cf (sc_store s)) b ->
    leased_before_last (meta_cf (sc_store s)) b ->
    prepared_key_ok b prepared_key -> outcome_ok outcome ->
    CommitDirect cf_id outcome b prepared_key (sc_store s) = (r, cs) ->
    life_step (acked, s) (acknowledge r b acked, mkSchemaStore cs (property_schemas s))
| life_register acked s outcome d r s' :
    outcome_ok outcome -> request_typed d -> RegisterProperty outcome d s = (r, s') ->
    life_step (acked, s) (acked, s')
| life_prepare acked s outcome batches status cs :
    outcome_ok outcome ->
    PersistPreparedCommits outcome batches (sc_store s) = (status, cs) ->
    life_step (acked, s) (acked, mkSchemaStore cs (property_schemas s))
| life_decide acked s outcome d status cs :
    outcome_ok outcome -> PersistPreparedDecision outcome d (sc_store s) = (status, cs) ->
    life_step (acked, s) (acked, mkSchemaStore cs (property_schemas s))
| life_abort acked s outcome txn status cs :
    outcome_ok outcome -> AbortPreparedCommit outcome txn (sc_store s) = (status, cs) ->
    life_step (acked, s) (acked, mkSchemaStore cs (property_schemas s))
| life_lease acked s outcome kind next status allocators allocators' :
    outcome_ok outcome -> IsKnownIdKind kind = true -> 1 <= next < 2 ^ 64 ->
    al_store allocators = sc_store s ->
    write_allocator outcome kind next allocators = (status, allocators') ->
    life_step (acked, s) (acked, mkSchemaStore (al_store allocators') (property_schemas s))
| life_restart acked s o pf outcomes opened db :
    check_open_options o = Ok tt -> platform_ok o pf ->
    prune_sequence_records_on_vacuum o = false ->
    Open o pf false outcomes (cs_db (sc_store s)) = Some (Ok opened, db) ->
    life_step (acked, s) (acked, mkSchemaStore (os_store opened) (os_schemas opened)).

(** The state behind a life: [cs0] is the store as it would be if the outcome of the last
    write were known. *)
Record life_state (acked : list (StoreCommitResult * StoreCommitBatch)) (s : SchemaStore)
    (ledger : list (Z * StoreCommitBatch)) (events : list FactEvent) (w : Watermarks)
    (disk : PropertySchemas) (cs0 : CommitStore) : Prop := {
  lf_recoverable : recoverable ledger events w disk (cs_db (sc_store s));
  lf_catalog : catalog_ok (property_schemas s);
  lf_durable : durable_catalog s disk;
  lf_commits : commit_inv ledger events cs0;
  lf_db : cs_db cs0 = cs_db (sc_store s);
  lf_visible : visible_seq (cs_impl cs0) = wm_visible w;
  lf_running : recovery_required (sc_store s) = false -> cs0 = sc_store s;
  lf_retained q b : (q, b) ∈ ledger -> wm_retention w <= q;
  lf_acked x b : (x, b) ∈ acked -> exists q stored, (q, stored) ∈ ledger /\
    (b = stored \/ same_batch b stored) /\ x = mkStoreCommitResult q (system_hlc b)
}.

Definition life_inv (st : list (StoreCommitResult * StoreCommitBatch) * SchemaStore)
  : Prop :=
  exists ledger events w disk cs0, life_state st.1 st.2 ledger events w disk cs0.

(** A database that is created, loses the answer of a commit, is opened again, and
    answers the retry. *)
Definition sample_options : OpenOptions :=
  mkOpenOptions (literal "db") 2 64 1048576 0 false 1024 false 0 false.

Definition sample_platform : OpenPlatform := mkOpenPlatform (Some 0) 32 16 24.

Definition open_of (r : option (StatusOr OpenedStore * Database)) : SchemaStore :=
  match r with
  | Some (Ok opened, _) => mkSchemaStore (os_store opened) (os_schemas opened)
  | _ => mkSchemaStore sample_commit_store ∅
  end.

Definition created_sample : SchemaStore :=
  open_of (Open sample_options sample_platform true (fun _ => sample_written)
             (mkDatabase [] [])).

Definition first_batch : StoreCommitBatch :=
  mkStoreCommitBatch 41 1000
    [mkPendingFactMutation (mkFactRef 1 kVertexProperty 2 77) 30 kPut 1 (Some (VInt32 5))]
    [] [] [] false.

Definition lost_sample : SchemaStore :=
  mkSchemaStore (CommitDirect sample_cf_id (mkWriteOutcome (rocks_other "timeout") true)
                   first_batch None (sc_store created_sample)).2
    (property_schemas created_sample).

Definition reopened_sample : SchemaStore :=
  open_of (Open sample_options sample_platform false (fun _ => sample_written)
             (cs_db (sc_store lost_sample))).

Definition retried_sample : SchemaStore :=
  mkSchemaStore (CommitDirect sample_cf_id sample_written first_batch None
                   (sc_store reopened_sample)).2
    (property_schemas reopened_sample).

(** What the validation of a sequence record has seen; [settled] are the outcomes that
    were or will be compared. *)
Definition sequence_checked (db : Database) (floor : Z) (settled : pending_outcome -> Prop)
    (s : Z) (v : list byte) : Prop :=
  exists view k, DecodeSequenceRecordView v s = Ok view /\
    ValidateSequenceRecordContent (db_facts db) s view (floor <=? s) = Ok tt /\
    EncodeTransactionMetaKey (view_txn_id view) = Ok k /\ settled (k, view_txn_id view, s).

(** What a sequence record is then known to be. *)
Record sequence_sound (db : Database) (floor : Z) (s : Z) : Prop := {
  ss_record : exists v view, cf_get (sequence_key s) (db_meta db) = Some v /\
    DecodeSequenceRecordView v s = Ok view /\ view_commit_seq view = s /\
    (exists k encoded outcome, EncodeTransactionMetaKey (view_txn_id view) = Ok k /\
       cf_get k (db_meta db) = Some encoded /\
       DecodeTransactionOutcome encoded = Ok outcome /\
       outcome_txn_id outcome = view_txn_id view /\ outcome_commit_seq outcome = s) /\
    forall fact, fact ∈ view_keys (Z.to_nat (view_fact_count view)) (view_identities view) ->
      exists key, DecodeFactKey fact = Ok key /\ key_commit_seq key = s /\
        (floor <= s -> exists encoded value, cf_get fact (db_facts db) = Some encoded /\
           DecodeFactValue (key_ref key) (key_valid_from key) s encoded = Ok value)
}.

(** The iterator in the middle of the scan. *)
Definition scan_at (w : Watermarks) (db : Database) (expected : Z) (entries : column_family)
  : Prop :=
  cf_sorted entries /\
  (forall k v, (k, v) ∈ entries -> cf_get k (db_meta db) = Some v /\
     bytes_compare (sequence_key (Z.max 1 (wm_retention w))) k <> Gt) /\
  (forall k v, (k, v) ∈ entries -> StartsWith k kSequenceMetaPrefix = true ->
     exists s, k = sequence_key s /\ expected <= s <= wm_visible w) /\
  (forall s, expected <= s <= wm_visible w -> exists v, (sequence_key s, v) ∈ entries).

(** ** Watermarks *)

Lemma DecodeWatermark_range v w : DecodeWatermark v = Ok w -> 0 <= w < 2 ^ 64.
Proof. apply (codec_typed (encode := EncodeWatermark) (typed := uint 64)). Qed.

Lemma read_watermarks_Ok meta w :
  read_watermarks meta = Ok w <->
  watermark_is meta (wm_visible w) /\
  (exists v, cf_get EncodeOldestReadableWatermarkKey meta = Some v /\
     DecodeWatermark v = Ok (wm_oldest w)) /\
  read_retention meta = Ok (wm_retention w) /\
  wm_retention w <= wm_oldest w <= wm_visible w.
Proof.
  unfold read_watermarks, watermark_is. split.
  - intros H. inv_ok. bool_to_prop. subst w. cbn [wm_visible wm_oldest wm_retention].
    destruct (cf_get EncodeVisibleWatermarkKey meta), (cf_get EncodeOldestReadableWatermarkKey meta);
      inv_ok; simplify_eq. split_and!; eauto.
  - intros ((v & -> & Hv) & (o & -> & Ho) & Hr & Hle). cbn [mbind StatusOr_bind].
    rewrite Hv, Ho. cbn [mbind StatusOr_bind].
    rewrite (proj2 (Z.leb_le (wm_oldest w) _)), Hr by lia. cbn [require mbind StatusOr_bind].
    rewrite (proj2 (Z.leb_le _ (wm_oldest w))) by lia. by destruct w.
Qed.

Lemma read_watermarks_range meta w :
  read_watermarks meta = Ok w ->
  0 <= wm_retention w <= wm_oldest w /\ wm_oldest w <= wm_visible w < 2 ^ 64.
Proof.
  intros ((v & _ & Hv%DecodeWatermark_range) & _ & Hr & Hle)%read_watermarks_Ok.
  assert (0 <= wm_retention w); [|lia]. unfold read_retention in Hr.
  destruct (cf_get _ _); [apply DecodeWatermark_range in Hr; lia|]. injection Hr. lia.
Qed.

Lemma sequence_key_inj s s' :
  uint 64 s -> uint 64 s' -> sequence_key s = sequence_key s' -> s = s'.
Proof. intros Hs Hs' E%app_inv_head. by apply be_bytes_inj in E. Qed.

Lemma sequence_key_compare s s' :
  uint 64 s -> uint 64 s' -> bytes_compare (sequence_key s) (sequence_key s') = (s ?= s').
Proof.
  intros Hs Hs'. unfold sequence_key, AppendU64.
  rewrite bytes_compare_app, bytes_compare_refl by done. by apply bytes_compare_be.
Qed.

Lemma sequence_key_under s : StartsWith (sequence_key s) kSequenceMetaPrefix = true.
Proof. apply StartsWith_app. Qed.

Lemma EncodeSequenceMetaKey_key s k : EncodeSequenceMetaKey s = Ok k -> k = sequence_key s.
Proof. unfold EncodeSequenceMetaKey. destruct (s =? 0); [done|]. by intros [= <-]. Qed.

(** ** Records of sequences *)

Section records.

Context (ledger : list (Z * StoreCommitBatch)) (events : list FactEvent) (w : Watermarks).
Context (schemas : PropertySchemas) (db : Database).
Hypothesis Hdb : recoverable ledger events w schemas db.

Lemma watermark_range :
  0 <= wm_retention w <= wm_oldest w /\ wm_oldest w <= wm_visible w < 2 ^ 64.
Proof. apply (read_watermarks_range (db_meta db)), Hdb. Qed.

Lemma batch_event_key s b e :
  committed_record events w (db_meta db) s b -> e ∈ batch_events s b ->
  DecodeFactKey (event_key e) = Ok (mkDecodedFactKey (event_ref e) (event_valid_from e) s).
Proof.
  intros [Hr Ht Hv _ _ _] He. pose proof watermark_range as Hw.
  assert (uint 64 s) as Hs by (unfold uint; lia).
  rewrite <- (batch_events_seq s b e He). apply DecodeFactKey_Encode.
  pose proof (batch_events_typed s b Ht Hs) as Hty. rewrite Forall_forall in Hty.
  destruct (Hty e He) as (Href & Hvf & Hcs & _). split_and!; try done.
  - assert (batch_ok b) as Hok
      by by apply StoreCommitBatch_Validate_OK; [apply prepared_batch_typed|].
    apply list_elem_of_fmap in He as ([m o] & -> & Hin).
    pose proof (batch_ok_refs b Hok) as Hrefs. rewrite Forall_forall in Hrefs.
    apply (Hrefs m). unfold commit_mutations. by apply (list_elem_of_fmap_2 fst _ (m, o)).
  - rewrite (batch_events_seq s b e He). lia.
Qed.

Lemma stored_event e :
  e ∈ events -> exists v, cf_get (event_key e) (db_facts db) = Some v /\
    DecodeFactValue (event_ref e) (event_valid_from e) (event_commit_seq e) v = Ok e.
Proof.
  intros He. destruct (rc_facts _ _ _ _ _ Hdb) as (Hs & _ & H).
  destruct (H e He) as ([k v] & Hin & Hen). exists v. apply elem_of_cf in Hin; [|done].
  destruct (entry_decode_value _ _ Hen). destruct Hen as (? & Ek & ?). cbn in Ek. by subst k.
Qed.

Lemma validate_fact s b req e :
  committed_record events w (db_meta db) s b -> (req = true -> wm_oldest w <= s) ->
  e ∈ batch_events s b ->
  validate_sequence_fact (db_facts db) s req (event_key e) = Ok tt.
Proof.
  intros Hc Hreq He. unfold validate_sequence_fact. rewrite (batch_event_key s b e Hc He).
  cbn [key_commit_seq key_ref key_valid_from]. rewrite Z.eqb_refl. cbn [require mbind StatusOr_bind].
  destruct req; [|done]. cbn [negb].
  destruct (stored_event e) as (v & -> & Hv); [by apply (cr_facts _ _ _ _ _ Hc); [apply Hreq|]|].
  rewrite (batch_events_seq s b e He) in Hv. cbn [from_option mbind StatusOr_bind]. by rewrite Hv.
Qed.

Lemma loop_unit_all {A} (f : A -> StatusOr unit) l :
  (forall x, x ∈ l -> f x = Ok tt) -> loop (fun _ => f) tt l = Ok tt.
Proof.
  induction l as [|x l IH]; intros H; [done|]. cbn [loop]. rewrite (H x) by by left.
  apply IH. intros y Hy. apply H. by right.
Qed.

(** A record of the ledger passes the validation, and its outcome is the one that is
    checked later. *)
Lemma validate_record s b req :
  committed_record events w (db_meta db) s b -> (req = true -> wm_oldest w <= s) ->
  exists v view k, cf_get (sequence_key s) (db_meta db) = Some v /\
    DecodeSequenceRecordView v s = Ok view /\
    ValidateSequenceRecordContent (db_facts db) s view req = Ok tt /\
    view_txn_id view = txn_id b /\ EncodeTransactionMetaKey (txn_id b) = Ok k /\
    validate_outcome (db_meta db) (k, txn_id b, s) = Ok tt.
Proof.
  intros Hc Hreq. pose proof watermark_range as Hw. pose proof (cr_range _ _ _ _ _ Hc) as Hr.
  destruct (cr_recorded _ _ _ _ _ Hc) as [(k & o & Hk & Ho & Hdo) (sk & v & Hsk & Hv & Hd)].
  apply EncodeSequenceMetaKey_key in Hsk as ->.
  apply DecodeSequenceRecordView_agrees in Hd as (view & Hview & Hval & Hrec); [|unfold uint; lia].
  assert (view_commit_seq view = s /\ view_txn_id view = txn_id b /\
    view_keys (Z.to_nat (view_fact_count view)) (view_identities view)
    = event_key <$> batch_events s b) as (Es & Et & Ek) by (unfold record_of in Hrec; by injection Hrec).
  exists v, view, k. split_and!; try done.
  - unfold ValidateSequenceRecordContent. rewrite Es, Hval, Z.eqb_refl, Ek.
    cbn [require mbind StatusOr_bind]. apply loop_unit_all.
    intros key (e & -> & He)%list_elem_of_fmap. by eapply validate_fact.
  - unfold validate_outcome. rewrite Ho. cbn [from_option mbind StatusOr_bind].
    rewrite Hdo. cbn. by rewrite !Z.eqb_refl.
Qed.

End records.

(** ** The scan *)

Section scan.

Context (ledger : list (Z * StoreCommitBatch)) (events : list FactEvent) (w : Watermarks).
Context (schemas : PropertySchemas) (db : Database) (batch_size : nat) (floor : Z).
Hypothesis Hdb : recoverable ledger events w schemas db.
Hypothesis Hfloor : wm_oldest w <= floor.

Let first := Z.max 1 (wm_retention w).

Lemma scan_head expected k v entries :
  first <= expected <= wm_visible w -> scan_at w db expected ((k, v) :: entries) ->
  k = sequence_key expected /\ scan_at w db (expected + 1) entries.
Proof.
  intros He (Hs & Hin & Hseq & Hall). pose proof (watermark_range _ _ _ _ _ Hdb) as Hw.
  assert (forall s, expected <= s <= wm_visible w -> uint 64 s) as Hu by (unfold uint, first in *; lia).
  apply StronglySorted_inv in Hs as [Hs Hk]. rewrite Forall_forall in Hk.
  assert (k = sequence_key expected) as ->.
  { destruct (Hall expected) as [v0 [E|Hv0]%elem_of_cons];
      [lia|by apply (f_equal fst) in E|].
    specialize (Hk _ Hv0). cbn [fst] in Hk. destruct (Hin k v) as [_ Hge]; [by left|].
    assert (StartsWith k kSequenceMetaPrefix = true) as Hp.
    { apply (StartsWith_between _ (be_bytes 8 first) (be_bytes 8 expected)); [exact Hge|].
      unfold bytes_lt in Hk. fold (sequence_key expected). unfold sequence_key, AppendU64 in Hk.
      by rewrite Hk. }
    destruct (Hseq k v) as (s & -> & Hs'); [by left|done|]. unfold bytes_lt in Hk.
    rewrite sequence_key_compare in Hk by (apply Hu; lia). exfalso. rewrite Z.compare_lt_iff in Hk. lia. }
  split; [done|]. split_and!; [done| | |].
  - intros k' v' H'. apply Hin. by right.
  - intros k' v' H' Hp. destruct (Hseq k' v') as (s & -> & Hs'); [by right|done|].
    exists s. split; [done|]. specialize (Hk _ H'). cbn [fst] in Hk. unfold bytes_lt in Hk.
    rewrite sequence_key_compare in Hk by (apply Hu; lia). rewrite Z.compare_lt_iff in Hk. lia.
  - intros s Hs'. destruct (Hall s) as [v' [E|H']%elem_of_cons]; [lia| |by exists v'].
    apply (f_equal fst) in E. cbn [fst] in E. apply sequence_key_inj in E; [lia|apply Hu; lia..].
Qed.

Lemma scan_end entries :
  scan_at w db (wm_visible w + 1) entries ->
  match entries with (k, _) :: _ => StartsWith k kSequenceMetaPrefix = false | [] => True end.
Proof.
  intros (_ & _ & Hseq & _). destruct entries as [|[k v] entries]; [done|].
  apply not_true_iff_false. intros Hp. destruct (Hseq k v) as (s & _ & ?); [by left|done|]. lia.
Qed.

Lemma validate_sequences_OK entries expected pending :
  first <= expected <= wm_visible w + 1 -> scan_at w db expected entries ->
  Forall (fun p => validate_outcome (db_meta db) p = Ok tt) pending ->
  exists pending' rest,
    validate_sequences batch_size db floor (wm_visible w) (wrap 64 expected) pending entries
    = Ok (wrap 64 (wm_visible w + 1), pending', rest) /\
    Forall (fun p => validate_outcome (db_meta db) p = Ok tt) pending' /\
    match rest with (k, _) :: _ => StartsWith k kSequenceMetaPrefix = false | [] => True end.
Proof.
  pose proof (watermark_range _ _ _ _ _ Hdb) as Hw. revert expected pending.
  induction entries as [|[k v] entries IH]; intros expected pending He Hat Hp.
  { assert (expected = wm_visible w + 1) as ->.
    { destruct (decide (expected <= wm_visible w)) as [Hle|]; [|lia].
      destruct Hat as (_ & _ & _ & Hall). destruct (Hall expected) as [v Hv]; [lia|].
      by apply not_elem_of_nil in Hv. }
    by exists pending, []. }
  destruct (decide (expected = wm_visible w + 1)) as [->|Hne].
  { pose proof (scan_end _ Hat) as Hend. cbn [validate_sequences]. rewrite Hend. cbn [andb].
    by exists pending, ((k, v) :: entries). }
  destruct (scan_head expected k v entries) as [-> Hat']; [lia|done|].
  assert (wrap 64 expected = expected) as -> by (apply uint_wrap; unfold uint, first in *; lia).
  destruct (rc_retained _ _ _ _ _ Hdb expected) as (b & _ & Hc); [fold first; lia|].
  destruct (validate_record _ _ _ _ _ Hdb expected b (floor <=? expected) Hc)
    as (v' & view & key & Hv' & Hview & Hval & Ht & Hkey & Hout); [intros; bool_to_prop; lia|].
  assert (v' = v) as ->.
  { destruct Hat as (_ & Hin & _). destruct (Hin (sequence_key expected) v) as [Hv _]; [by left|].
    congruence. }
  cbn [validate_sequences]. rewrite sequence_key_under, (proj2 (Z.leb_le _ _)) by lia.
  cbn [andb]. fold (sequence_key expected). rewrite bool_decide_true by done.
  cbn [require mbind StatusOr_bind]. rewrite Hview. cbn [mbind StatusOr_bind]. rewrite Hval.
  cbn [mbind StatusOr_bind]. rewrite Ht, Hkey. cbn [mbind StatusOr_bind]. cbv zeta.
  set (pending1 := pending ++ _).
  assert (Forall (fun p => validate_outcome (db_meta db) p = Ok tt) pending1) as Hp1
    by by apply Forall_app; split; [|repeat constructor].
  destruct (length pending1 =? batch_size)%nat.
  - unfold ValidateSequenceOutcomeBatch. rewrite loop_unit_all; cbn [mbind StatusOr_bind].
    + apply IH; [lia|done|constructor].
    + rewrite Forall_forall in Hp1. exact Hp1.
  - apply IH; [lia|done|done].
Qed.

(** The scan starts where the first retained record is. *)
Lemma scan_start :
  first <= wm_visible w ->
  scan_at w db first (Seek (sequence_key first) (db_meta db)).
Proof.
  intros Hle. pose proof (watermark_range _ _ _ _ _ Hdb) as Hw.
  destruct (rc_sorted _ _ _ _ _ Hdb) as [_ Hs]. rewrite Seek_filter by done.
  assert (forall k v, (k, v) ∈ filter (fun kv => bytes_compare kv.1 (sequence_key first) <> Lt)
            (db_meta db) <->
          cf_get k (db_meta db) = Some v /\ bytes_compare (sequence_key first) k <> Gt) as Hin.
  { intros k v. rewrite list_elem_of_filter, elem_of_cf by done. cbn [fst].
    rewrite (bytes_compare_antisym (sequence_key first) k).
    destruct (bytes_compare (sequence_key first) k); cbn; intuition congruence. }
  split_and!.
  - by apply cf_sorted_filter.
  - intros k v. apply Hin.
  - intros k v [Hk Hge]%Hin Hp. destruct (rc_sequences _ _ _ _ _ Hdb k v Hk Hp) as (s & -> & Hr).
    exists s. split; [done|]. rewrite sequence_key_compare in Hge by (unfold uint, first in *; lia).
    rewrite Z.compare_ngt_iff in Hge. lia.
  - intros s Hr. destruct (rc_retained _ _ _ _ _ Hdb s Hr) as (b & _ & Hc).
    destruct (validate_record _ _ _ _ _ Hdb s b false Hc) as (v & _ & _ & Hv & _); [done|].
    exists v. apply Hin. split; [done|].
    rewrite sequence_key_compare by (unfold uint, first in *; lia). apply Z.compare_ngt_iff. lia.
Qed.

End scan.

Lemma ValidateCommittedSequences_OK o ledger events w schemas db :
  recoverable ledger events w schemas db -> ValidateCommittedSequences o w db = Ok tt.
Proof.
  intros Hdb. pose proof (watermark_range _ _ _ _ _ Hdb) as Hw.
  unfold ValidateCommittedSequences. destruct (Z.eqb_spec (wm_visible w) 0); [done|].
  destruct (validate_sequences_OK ledger events w schemas db (outcome_batch_size o)
    (fact_validation_floor o w) Hdb) with (expected := Z.max 1 (wm_retention w))
    (pending := @nil pending_outcome)
    (entries := Seek (sequence_key (Z.max 1 (wm_retention w))) (db_meta db))
    as (pending & rest & E & Hp & Hrest).
  - unfold fact_validation_floor. destruct (deep_recovery_validation o); lia.
  - lia.
  - apply (scan_start ledger events w schemas); [done|lia].
  - constructor.
  - rewrite uint_wrap in E by (unfold uint; lia). unfold sequence_key in E. rewrite E.
    cbn [mbind StatusOr_bind]. unfold ValidateSequenceOutcomeBatch.
    rewrite loop_unit_all by (rewrite Forall_forall in Hp; exact Hp).
    cbn [mbind StatusOr_bind]. rewrite Z.eqb_refl. cbn [require mbind StatusOr_bind].
    destruct rest as [|[k v] rest]; [done|]. by rewrite Hrest.
Qed.

(** ** Allocators *)

Lemma while_prefix_elem p kv entries : kv ∈ while_prefix p entries -> kv ∈ entries.
Proof.
  induction entries as [|[k v] entries IH]; cbn; [done|]. case_match; [|by intros ?%not_elem_of_nil].
  intros [->|H']%elem_of_cons; [by left|right; auto].
Qed.

Lemma Seek_elem target cf k v :
  cf_sorted cf -> (k, v) ∈ Seek target cf -> cf_get k cf = Some v /\ bytes_compare k target <> Lt.
Proof.
  intros Hs. rewrite Seek_filter, list_elem_of_filter, elem_of_cf by done. cbn. tauto.
Qed.

Lemma sequence_key_value s :
  uint 64 s -> ParseSequenceMetaKey (sequence_key s) = s.
Proof.
  intros Hs. destruct (sequence_key_parse (sequence_key s) (sequence_key_under s)) as [E Hr].
  { unfold sequence_key, AppendU64. by rewrite length_app, length_be_bytes. }
  symmetry. by apply sequence_key_inj.
Qed.

Lemma load_allocator meta kind :
  IsKnownIdKind kind = true -> durable_at kind 1 True meta ->
  exists next, LoadAllocatorState meta kind = Ok next.
Proof.
  unfold durable_at, LoadAllocatorState. intros Hk Hd. destruct (cf_get _ _) as [enc|]; [|by eexists].
  destruct Hd as (d & Hdec & Hkd & _). exists (next_id d). rewrite Hdec. cbn [mbind StatusOr_bind].
  by rewrite bool_decide_true.
Qed.

Lemma highest_loop entries highest bound :
  Forall (fun kv => exists r, length kv.1 = kSequenceMetaKeyBytes /\
            DecodeSequenceRecord kv.2 (ParseSequenceMetaKey kv.1) = Ok r /\
            seq_txn_id r <= bound) entries -> highest <= bound ->
  exists highest', loop highest_transaction highest entries = Ok highest' /\ highest' <= bound.
Proof.
  intros Hall. revert highest.
  induction Hall as [|[k v] entries (r & Hl & Hr & Hb) _ IH]; intros highest Hh; [by eexists|].
  cbn [loop fst snd] in *.
  assert (highest_transaction highest (k, v) = Ok (Z.max highest (seq_txn_id r))) as ->.
  { unfold highest_transaction. cbn [fst snd].
    by rewrite (proj2 (Nat.eqb_eq _ _)), Hr by done. }
  cbn [mbind StatusOr_bind]. apply IH. lia.
Qed.

Lemma load_transaction_allocator ledger events w schemas db :
  recoverable ledger events w schemas db ->
  exists next, LoadTransactionAllocatorState (db_meta db) (wm_retention w) = Ok next.
Proof.
  intros Hdb. pose proof (watermark_range _ _ _ _ _ Hdb) as Hw.
  pose proof (rc_allocators _ _ _ _ _ Hdb kTransactionId eq_refl) as Hd.
  unfold LoadTransactionAllocatorState, durable_at in *.
  destruct (cf_get (EncodeAllocatorMetaKey kTransactionId) (db_meta db)) as [enc|] eqn:Ea.
  { destruct Hd as (d & Hdec & Hkd & _). exists (next_id d). rewrite Hdec.
    cbn [mbind StatusOr_bind]. by rewrite bool_decide_true. }
  cbv zeta. set (entries := while_prefix _ _).
  destruct (highest_loop entries 0 (U64_MAX - 1)) as (highest & Hh & Hle).
  - apply Forall_forall. intros [k v] Hin. cbn [fst snd].
    pose proof (while_prefix_starts kSequenceMetaPrefix
      (Seek (sequence_key (Z.max 1 (wm_retention w))) (db_meta db))) as Hp.
    rewrite Forall_forall in Hp. specialize (Hp _ Hin). cbn [fst] in Hp.
    apply while_prefix_elem in Hin. destruct (Z.le_gt_cases (Z.max 1 (wm_retention w)) (wm_visible w))
      as [Hle|Hgt].
    + destruct (scan_start ledger events w schemas db Hdb Hle) as (_ & Hget & Hseq & _).
      destruct (Hseq k v Hin Hp) as (s & -> & Hs). destruct (Hget _ _ Hin) as [Hv _].
      destruct (rc_retained _ _ _ _ _ Hdb s Hs) as (b & _ & Hc).
      destruct (cr_recorded _ _ _ _ _ Hc) as [_ (sk & v' & Hsk & Hv' & Hrec)].
      apply EncodeSequenceMetaKey_key in Hsk as ->. rewrite Hv in Hv'. injection Hv' as <-.
      rewrite sequence_key_value by (unfold uint; lia). eexists. split; [done|]. split; [exact Hrec|].
      cbn [seq_txn_id]. pose proof (proj1 (cr_typed _ _ _ _ _ Hc)) as Hu. unfold uint, U64_MAX in *.
      destruct (decide (txn_id b = 2 ^ 64 - 1)) as [E|]; [|lia].
      destruct (cr_id _ _ _ _ _ Hc E) as [? Hsome]. congruence.
    + exfalso. apply Seek_elem in Hin; [|apply Hdb]. destruct Hin as [Hv _].
      destruct (rc_sequences _ _ _ _ _ Hdb k v Hv Hp) as (s & _ & Hs). lia.
  - unfold U64_MAX. lia.
  - rewrite Hh. cbn [mbind StatusOr_bind]. exists (highest + 1).
    rewrite (proj2 (Z.eqb_neq _ _)) by lia. done.
Qed.

(** ** Derived structures *)

Lemma rebuild_history_OK (facts : column_family) (events : list FactEvent) h :
  (forall kv, kv ∈ facts -> exists e, e ∈ events /\ entry_of e kv) ->
  exists refs, rebuild_history h facts = Ok (publish_all h refs) /\
    forall e kv, kv ∈ facts -> entry_of e kv -> event_ref e ∈ refs.
Proof.
  unfold rebuild_history. revert h. induction facts as [|kv facts IH]; intros h Hf.
  { exists []. split; [done|]. by intros e kv ?%not_elem_of_nil. }
  destruct (Hf kv) as (e & _ & He); [by left|].
  destruct (IH (history_Publish h (event_ref e))) as (refs & E & Hrefs).
  { intros kv' Hin. apply Hf. by right. }
  exists (event_ref e :: refs). split.
  - cbn [loop]. by rewrite (entry_decode_key _ _ He).
  - intros e' kv' [->|Hin]%elem_of_cons He'; [|right; by eapply Hrefs].
    pose proof (entry_decode_key _ _ He) as E1. rewrite (entry_decode_key _ _ He') in E1.
    injection E1 as -> _ _. by left.
Qed.

Lemma build_derived_OK o pf events cs :
  platform_ok o pf -> represents (facts_cf (cs_impl cs)) events ->
  (forall e, e ∈ events -> event_commit_seq e <= visible_seq (cs_impl cs)) ->
  exists recent history cache,
    build_derived o pf cs = Ok (with_derived recent history cache cs) /\
    store_ok events (cs_impl (with_derived recent history cache cs)).
Proof.
  intros (Hb & He & Hf & Hs) Hrep Hseen. pose proof Hrep as (_ & Hev & Hst).
  assert (forall x, 0 <= x <= validation_cache_bytes o * 3 -> wrap 64 x = x) as Hwrap
    by (intros; apply uint_wrap; unfold uint; lia).
  unfold build_derived. rewrite (Hwrap (validation_cache_bytes o * 3)) by lia.
  set (B := validation_cache_bytes o) in *.
  assert (0 <= B / 8 <= B) as H8 by (split; [apply Z.div_pos; lia|apply Z.div_le_upper_bound; lia]).
  assert (0 <= B * 3 / 8 <= B) as H38
    by (split; [apply Z.div_pos; lia|apply Z.div_le_upper_bound; lia]).
  assert (B / 8 + B * 3 / 8 <= B) as Hsum
    by (pose proof (Z.mul_div_le B 8); pose proof (Z.mul_div_le (B * 3) 8); lia).
  rewrite (Hwrap (B - B / 8 - B * 3 / 8)) by lia. cbv zeta.
  set (skip := identity_history_skip_rebuild_for_testing o || _).
  set (h0 := new_history (B * 3 / 8)).
  assert (exists h, (if skip then Ok (Disable h0) else rebuild_history h0 (facts_cf (cs_impl cs)))
    = Ok h /\ history_reflects events h) as (h & Eh & Hh).
  { destruct skip.
    - exists (Disable h0). split; [done|]. split; [by right|]. done.
    - destruct (rebuild_history_OK (facts_cf (cs_impl cs)) events h0 Hev) as (refs & E & Hrefs).
      exists (publish_all h0 refs). split; [done|].
      assert (words_ok (history_words h0)) as Hw by (apply new_history_ok; lia). split.
      + left. clear -Hw. revert Hw. generalize h0. induction refs as [|r refs IH]; intros h Hw; [done|].
        apply IH. by apply history_Publish_words.
      + intros e Hin. apply publish_all_contains; [by left|].
        destruct (Hst e Hin) as (kv & Hkv & Hen). by eapply Hrefs. }
  rewrite Eh. cbn [mbind StatusOr_bind]. eexists _, _, _. split; [reflexivity|].
  split_and!; cbn; try done.
  - exists ((fun e => (IdentityOf (event_ref e), event_commit_seq e)) <$> events). split.
    + apply new_index_ok; try lia. intros id s (e & [= -> ->] & Hin)%list_elem_of_fmap. by apply Hseen.
    + intros e Hin. apply list_elem_of_fmap. by exists e.
  - apply new_cache_inv; lia.
Qed.

(** ** Opening *)

Lemma load_store_OK o is_new ledger events w schemas db :
  recoverable ledger events w schemas db ->
  exists allocators, load_store o is_new w db = Ok (allocators, schemas) /\
    open_allocators (bare_store o w db) = Ok allocators.
Proof.
  intros Hdb. unfold load_store. rewrite (rc_marker _ _ _ _ _ Hdb).
  assert ((if is_new then Ok tt else ValidateCommittedSequences o w db) = Ok tt) as ->
    by (destruct is_new; [done|by eapply ValidateCommittedSequences_OK]).
  destruct (load_allocator (db_meta db) kVertexId) as [vertex Hv];
    [done|by apply (rc_allocators _ _ _ _ _ Hdb)|].
  destruct (load_allocator (db_meta db) kEdgeId) as [edge He];
    [done|by apply (rc_allocators _ _ _ _ _ Hdb)|].
  destruct (load_transaction_allocator _ _ _ _ _ Hdb) as [txn Ht].
  assert (exists a, open_allocators (bare_store o w db) = Ok a) as [a Ha].
  { unfold open_allocators, bare_store. cbn [meta_cf sequence_retention_watermark].
    rewrite Hv, He, Ht. by eexists. }
  exists a. cbn [mbind StatusOr_bind]. rewrite Ha. cbn [mbind StatusOr_bind].
  destruct (rc_catalog _ _ _ _ _ Hdb) as [Hok Hin].
  by rewrite (LoadPropertySchemas_OK schemas) by (done || apply Hdb).
Qed.

Lemma open_loaded_OK o pf is_new outcomes n ledger events w schemas db :
  recoverable ledger events w schemas db -> platform_ok o pf ->
  prune_sequence_records_on_vacuum o = false ->
  exists opened, open_loaded o pf is_new outcomes n w db = Some (Ok opened, db) /\
    opened_with o events w schemas db opened.
Proof.
  intros Hdb Hpf Hprune. unfold open_loaded.
  destruct (load_store_OK o is_new _ _ _ _ _ Hdb) as (a & -> & Ha).
  unfold resume_on_open, bare_store at 1. cbn [meta_cf]. rewrite (rc_vacuum _ _ _ _ _ Hdb).
  cbn [mbind option_bind]. unfold prune_on_open. rewrite Hprune. cbn [mbind option_bind].
  destruct (build_derived_OK o pf events (bare_store o w db) Hpf (rc_facts _ _ _ _ _ Hdb)
    (rc_seen _ _ _ _ _ Hdb)) as (r & h & c & -> & Hst). cbn [mbind StatusOr_bind].
  eexists. split; [f_equal; f_equal; by destruct db|].
  split; try done; by destruct db.
Qed.

Lemma Open_OK o pf is_new outcomes ledger events w schemas db :
  recoverable ledger events w schemas db -> check_open_options o = Ok tt ->
  platform_ok o pf -> prune_sequence_records_on_vacuum o = false ->
  exists opened, Open o pf is_new outcomes db = Some (Ok opened, db) /\
    opened_with o events w schemas db opened.
Proof.
  intros Hdb Ho Hpf Hprune. unfold Open. rewrite Ho.
  destruct (rc_identity _ _ _ _ _ Hdb) as (v & i & -> & Hi). rewrite Hi. cbn [mbind StatusOr_bind].
  rewrite (rc_watermarks _ _ _ _ _ Hdb). by eapply open_loaded_OK.
Qed.

(** The same database in another store. *)
Lemma commit_inv_reopened ledger events cs cs' :
  commit_inv ledger events cs -> cs_db cs' = cs_db cs ->
  visible_seq (cs_impl cs') = visible_seq (cs_impl cs) -> recovery_required cs' = false ->
  store_ok events (cs_impl cs') -> commit_inv ledger events cs'.
Proof.
  intros [Hs Hm Hv Hr He Ho] Edb Ev Er Hst.
  assert (meta_cf cs' = meta_cf cs) as Em by exact (f_equal db_meta Edb).
  split; rewrite ?Em, ?Ev; done.
Qed.

(** ** Commits *)

(** Under the prefix of the sequences a commit writes one key. *)
Lemma commit_ops_sequence b prepared_key commit_seq ops :
  prepared_key_ok b prepared_key -> commit_ops b prepared_key commit_seq = Ok ops ->
  forall op, op ∈ ops ->
    match op with
    | Put kMetaCf k _ | Delete kMetaCf k =>
        StartsWith k kSequenceMetaPrefix = true -> k = sequence_key commit_seq
    | _ => True
    end.
Proof.
  intros Hpk Hops op Hop.
  assert (forall p s, diverge p kSequenceMetaPrefix = true ->
    StartsWith (p ++ s) kSequenceMetaPrefix = true -> p ++ s = sequence_key commit_seq) as Hout.
  { intros p s Hd Hp. by rewrite diverge_outside in Hp. }
  destruct (commit_ops_Ok _ _ _ _ Hops) as (core & w & Hc & _ & ->).
  destruct (AppendCandidate_Ok _ _ _ Hc)
    as (facts & records & tk & sk & o & q & -> & Hf & Hr & Htk & Hsk & _ & _).
  rewrite !elem_of_app in Hop. destruct Hop as [[Hop|[Hop|Hop]]|Hop].
  - apply list_elem_of_lookup in Hop as [i Hi].
    by destruct (Forall2_lookup_r _ _ _ _ _ Hf Hi) as (e & _ & v & _ & ->).
  - apply list_elem_of_lookup in Hop as [i Hi].
    destruct (Forall2_lookup_r _ _ _ _ _ Hr Hi) as (e & _ & k & v & Hek & _ & ->).
    unfold EncodeEdgeIdentityMetaKey in Hek. case_match; [done|]. injection Hek as <-.
    unfold AppendU64, AppendU32. rewrite <- app_assoc. by apply Hout.
  - apply EncodeSequenceMetaKey_key in Hsk as ->. unfold EncodeTransactionMetaKey in Htk.
    destruct (txn_id b =? 0); [done|]. injection Htk as <-.
    apply elem_of_cons in Hop as [->|Hop]; [by apply Hout|].
    by apply list_elem_of_singleton in Hop as ->.
  - apply elem_of_cons in Hop as [->|Hop].
    + rewrite <- (app_nil_r EncodeVisibleWatermarkKey). by apply Hout.
    + destruct prepared_key as [k|]; [|by apply not_elem_of_nil in Hop].
      apply list_elem_of_singleton in Hop as ->. specialize (Hpk k eq_refl).
      unfold EncodePreparedCommitKey in Hpk. destruct (txn_id b =? 0); [done|].
      injection Hpk as <-. by apply Hout.
Qed.

Section commit_recoverable.

Context (ledger : list (Z * StoreCommitBatch)) (events : list FactEvent) (w : Watermarks).
Context (schemas : PropertySchemas) (db : Database).
Context (b : StoreCommitBatch) (prepared_key : option (list byte)) (ops : list WriteOp).
Hypothesis Hdb : recoverable ledger events w schemas db.
Hypothesis Hb : prepared_typed b.
Hypothesis Hkey : prepared_key_ok b prepared_key.
Hypothesis Hseq : uint 64 (wm_visible w + 1).
Hypothesis Hops : commit_ops b prepared_key (wm_visible w + 1) = Ok ops.

Lemma commit_keeps mk k :
  meta_key_typed mk -> ~ touches (wm_visible w + 1) b (MetaKey mk) ->
  mk <> VisibleWatermarkKey -> encode_meta_key mk = Ok k ->
  cf_get k (db_meta (db_write db ops)) = cf_get k (db_meta db).
Proof.
  intros Ht Hn Hv Hk.
  apply (commit_frame b prepared_key (wm_visible w + 1) ops db) with (key := MetaKey mk);
    try done; [apply Hdb|]. split_and!; [done..|congruence|done].
Qed.

Lemma commit_committed s b' :
  s <= wm_visible w -> txn_id b' <> txn_id b ->
  committed_record events w (db_meta db) s b' ->
  committed_record (batch_events (wm_visible w + 1) b ++ events)
    (mkWatermarks (wm_visible w + 1) (wm_oldest w) (wm_retention w))
    (db_meta (db_write db ops)) s b'.
Proof.
  intros Hs Hne [Hr Ht Hv Hrec Hf Hid]. split; cbn [wm_visible wm_oldest]; try done.
  - lia.
  - eapply recorded_frame; [|exact Hrec]. intros key k [-> | ->] Hk.
    + by apply (commit_keeps (TransactionKey (txn_id b'))); [apply Ht|..].
    + apply (commit_keeps (SequenceKey s)); try done; cbn; [|lia].
      unfold uint in *. lia.
  - intros Ho e He. apply elem_of_app. right. by apply Hf.
  - intros Hm. rewrite (commit_keeps (AllocatorKey kTransactionId)) by (done || intros []).
    by apply Hid.
Qed.

Lemma commit_sequences k v :
  cf_get k (db_meta (db_write db ops)) = Some v -> StartsWith k kSequenceMetaPrefix = true ->
  exists s, k = sequence_key s /\ 0 < s <= wm_visible w + 1.
Proof.
  intros Hg Hp. destruct (decide (k = sequence_key (wm_visible w + 1))) as [->|Hne].
  { eexists. split; [done|]. destruct (read_watermarks_range _ _ (rc_watermarks _ _ _ _ _ Hdb)).
    lia. }
  change (db_meta ?d) with (db_cf kMetaCf d) in Hg. rewrite db_write_get in Hg by apply Hdb.
  rewrite ops_value_untouched in Hg.
  - destruct (rc_sequences _ _ _ _ _ Hdb k v Hg Hp) as (s & -> & ?).
    exists s. split; [done|lia].
  - intros op Hop. pose proof (commit_ops_sequence _ _ _ _ Hkey Hops op Hop) as Ho.
    destruct op as [[] k' v'|[] k']; cbn in *; rewrite ?bool_decide_false; try done;
      intros [? ->]; try done; auto.
Qed.

Lemma recoverable_commit :
  StoreCommitBatch_Validate b = StatusOK ->
  (forall s b', (s, b') ∈ ledger -> txn_id b' <> txn_id b) ->
  (txn_id b = U64_MAX ->
     is_Some (cf_get (EncodeAllocatorMetaKey kTransactionId) (db_meta db))) ->
  recoverable ((wm_visible w + 1, b) :: ledger) (batch_events (wm_visible w + 1) b ++ events)
    (mkWatermarks (wm_visible w + 1) (wm_oldest w) (wm_retention w)) schemas
    (db_write db ops).
Proof.
  intros Hv Hfresh Hid.
  pose proof (rc_watermarks _ _ _ _ _ Hdb) as Hw.
  pose proof (read_watermarks_range _ _ Hw) as Hrange.
  apply read_watermarks_Ok in Hw as (_ & Hold & Hret & Hord).
  assert (forall e, e ∈ events -> event_commit_seq e < wm_visible w + 1) as Hnew
    by (intros e He; pose proof (rc_seen _ _ _ _ _ Hdb e He); lia).
  split; cbn [wm_visible wm_oldest wm_retention].
  - by apply db_write_sorted, Hdb.
  - by eapply commit_facts; try done; apply Hdb.
  - intros e [He|He]%elem_of_app; [by rewrite (batch_events_seq _ _ _ He)|].
    specialize (Hnew e He). lia.
  - rewrite (commit_keeps CurrentFormatKey) by (done || intros []). apply Hdb.
  - apply read_watermarks_Ok. cbn [wm_visible wm_oldest wm_retention]. split_and!; try lia.
    + by eapply commit_watermark; try done; apply Hdb.
    + by rewrite (commit_keeps OldestReadableKey) by (done || intros []).
    + unfold read_retention. by rewrite (commit_keeps SequenceRetentionKey) by (done || intros []).
  - unfold check_marker, LoadMetaSequenceFormatMarker.
    rewrite (commit_keeps SequenceFormatKey) by (done || intros []). apply Hdb.
  - intros s Hs. destruct (decide (s = wm_visible w + 1)) as [->|Hne].
    + exists b. split; [by left|]. split; cbn [wm_visible wm_oldest]; try done; [lia|..].
      * by eapply commit_recorded; try done; apply Hdb.
      * intros _ e He. apply elem_of_app. by left.
      * intros Hm. rewrite (commit_keeps (AllocatorKey kTransactionId)) by (done || intros []).
        by apply Hid.
    + destruct (rc_retained _ _ _ _ _ Hdb s) as (b' & Hin & Hc); [lia|].
      exists b'. split; [by right|]. apply commit_committed; [lia|by eapply Hfresh|done].
  - apply commit_sequences.
  - intros kind Hk. unfold durable_at.
    rewrite (commit_keeps (AllocatorKey kind)) by (done || intros []).
    by apply (rc_allocators _ _ _ _ _ Hdb).
  - destruct (rc_catalog _ _ _ _ _ Hdb) as [Hok (m & Hm & Hd)]. split; [done|].
    exists m. split; [|done]. by_table table_write; [apply Hdb| |done].
    eapply commit_ops_outside; [by repeat constructor| |done].
    intros k Hk. specialize (Hkey k Hk). unfold EncodePreparedCommitKey in Hkey.
    destruct (txn_id b =? 0); [done|]. injection Hkey as <-. by apply diverge_outside.
  - rewrite (commit_keeps VacuumStateKey) by (done || intros []). apply Hdb.
Qed.

End commit_recoverable.

(** ** Other writes of metadata *)

Lemma outside_core prefix ops :
  Forall (fun p => diverge prefix p = true) core_prefixes -> Forall (op_under prefix) ops ->
  Forall (fun p => Forall (op_outside p) ops) core_prefixes.
Proof.
  intros Hd Hops. eapply Forall_impl; [exact Hd|]. intros p Hp.
  eapply Forall_impl; [exact Hops|]. intros op Hop.
  destruct op as [[] k v|[] k]; cbn in *; try done;
    apply StartsWith_true in Hop as [u ->]; by apply diverge_outside.
Qed.

Lemma op_under_meta prefix ops : Forall (op_under prefix) ops -> Forall meta_op ops.
Proof. intros H. eapply Forall_impl; [exact H|]. by intros [[] k v|[] k]. Qed.

Section metadata.

Context (ledger : list (Z * StoreCommitBatch)) (events : list FactEvent) (w : Watermarks).
Context (schemas schemas' : PropertySchemas) (db : Database) (ops : list WriteOp).
Hypothesis Hdb : recoverable ledger events w schemas db.
Hypothesis Hmeta : Forall meta_op ops.
Hypothesis Hcore : Forall (fun p => Forall (op_outside p) ops) core_prefixes.

Lemma metadata_keeps p k :
  p ∈ core_prefixes -> StartsWith k p = true ->
  cf_get k (db_meta (db_write db ops)) = cf_get k (db_meta db).
Proof.
  intros Hp Hk. rewrite Forall_forall in Hcore. apply (write_outside p); [apply Hdb|auto|done].
Qed.

Lemma recoverable_metadata :
  (forall kind, IsKnownIdKind kind = true -> durable_at kind 1 True (db_meta (db_write db ops))) ->
  (is_Some (cf_get (EncodeAllocatorMetaKey kTransactionId) (db_meta db)) ->
   is_Some (cf_get (EncodeAllocatorMetaKey kTransactionId) (db_meta (db_write db ops)))) ->
  catalog_ok schemas' -> catalog_in schemas' (db_meta (db_write db ops)) ->
  recoverable ledger events w schemas' (db_write db ops).
Proof.
  intros Ha Ht Hok Hin.
  assert (forall k, k ∈ core_prefixes ->
    cf_get k (db_meta (db_write db ops)) = cf_get k (db_meta db)) as Hkeep.
  { intros k Hk. apply (metadata_keeps k); [done|].
    rewrite <- (app_nil_r k) at 1. apply StartsWith_app. }
  split; try done.
  - by apply db_write_sorted, Hdb.
  - rewrite write_meta by done. apply Hdb.
  - apply Hdb.
  - rewrite Hkeep by (unfold core_prefixes; set_solver). apply Hdb.
  - unfold read_watermarks, read_retention. rewrite !Hkeep by (unfold core_prefixes; set_solver).
    apply Hdb.
  - unfold check_marker, LoadMetaSequenceFormatMarker.
    rewrite Hkeep by (unfold core_prefixes; set_solver). apply Hdb.
  - intros s Hs. destruct (rc_retained _ _ _ _ _ Hdb s Hs) as (b & Hin' & [? ? ? Hrec ? ?]).
    exists b. split; [done|]. split; [done..| |done|auto].
    eapply recorded_frame; [|exact Hrec]. intros key k Hc Hk.
    destruct Hc as [-> | ->]; cbn in Hk;
      unfold EncodeTransactionMetaKey, EncodeSequenceMetaKey in Hk; case_match; try done;
      injection Hk as <-; [apply (metadata_keeps (literal "txn/"))
                          |apply (metadata_keeps (literal "sequence/"))];
      try apply StartsWith_app; unfold core_prefixes; set_solver.
  - intros k v Hg Hp. rewrite (metadata_keeps (literal "sequence/")) in Hg;
      [|unfold core_prefixes; set_solver|done]. by apply (rc_sequences _ _ _ _ _ Hdb k v).
  - rewrite Hkeep by (unfold core_prefixes; set_solver). apply Hdb.
Qed.

End metadata.

(** ** The life of a database *)

Lemma core_commit_inv ledger events cs ops :
  commit_inv ledger events cs -> Forall meta_op ops ->
  Forall (fun p => Forall (op_outside p) ops) core_prefixes ->
  commit_inv ledger events (with_db (db_write (cs_db cs) ops) cs).
Proof.
  intros Hinv Hm Hc. unfold core_prefixes in Hc. rewrite !Forall_cons in Hc.
  by apply commit_inv_metadata; [..|apply Hc|apply Hc].
Qed.

Section life.

Context (acked : list (StoreCommitResult * StoreCommitBatch)) (s : SchemaStore).
Context (ledger : list (Z * StoreCommitBatch)) (events : list FactEvent) (w : Watermarks).
Context (disk : PropertySchemas) (cs0 : CommitStore).
Hypothesis Hlife : life_state acked s ledger events w disk cs0.

(** A write of metadata that is applied. *)
Lemma life_write schemas' disk' ops cs' :
  Forall meta_op ops -> Forall (fun p => Forall (op_outside p) ops) core_prefixes ->
  recoverable ledger events w disk' (db_write (cs_db (sc_store s)) ops) ->
  cs_db cs' = db_write (cs_db (sc_store s)) ops ->
  (recovery_required cs' = false ->
     recovery_required (sc_store s) = false /\
     cs' = with_db (db_write (cs_db (sc_store s)) ops) (sc_store s)) ->
  catalog_ok schemas' -> durable_catalog (mkSchemaStore cs' schemas') disk' ->
  life_inv (acked, mkSchemaStore cs' schemas').
Proof.
  intros Hm Hc Hrec Edb Hrun Hcat Hdur. destruct Hlife as [_ _ _ Hci Ed Hv Hr Hret Ha].
  exists ledger, events, w, disk', (with_db (db_write (cs_db cs0) ops) cs0).
  split; cbn [fst snd sc_store property_schemas]; try done.
  - by rewrite Edb.
  - by apply core_commit_inv.
  - rewrite Edb, Ed. unfold cs_db. cbn. by destruct (db_write _ _).
  - intros [Hr' ->]%Hrun. by rewrite (Hr Hr').
Qed.

Lemma life_same cs' :
  cs_db cs' = cs_db (sc_store s) ->
  (recovery_required (sc_store s) = true -> recovery_required cs' = true) ->
  (recovery_required cs' = false -> recovery_required (sc_store s) = false ->
     cs' = sc_store s) ->
  life_inv (acked, mkSchemaStore cs' (property_schemas s)).
Proof.
  intros Edb Hrec Hrun. destruct Hlife as [Hdb Hcat Hdur Hci Ed Hv Hr Hret Ha].
  exists ledger, events, w, disk, cs0. split; cbn [fst snd sc_store property_schemas]; try done.
  - by rewrite Edb.
  - destruct Hdur as [->|[Hq Hd]]; [by left|right]. split; [by apply Hrec|done].
  - by rewrite Edb.
  - intros Hf. destruct (recovery_required (sc_store s)) eqn:E; [by rewrite Hrec in Hf|].
    rewrite Hrun; auto.
Qed.

Lemma life_persisted ops status cs' :
  Forall meta_op ops -> Forall (fun p => Forall (op_outside p) ops) core_prefixes ->
  recoverable ledger events w disk (db_write (cs_db (sc_store s)) ops) ->
  persisted ops (sc_store s) status cs' ->
  life_inv (acked, mkSchemaStore cs' (property_schemas s)).
Proof.
  intros Hm Hc Hrec Hp. pose proof Hlife as [_ Hcat Hdur _ _ _ _ _ _].
  assert (forall cs', cs_db cs' = db_write (cs_db (sc_store s)) ops ->
    (recovery_required (sc_store s) = true -> recovery_required cs' = true) ->
    (recovery_required cs' = false ->
       recovery_required (sc_store s) = false /\
       cs' = with_db (db_write (cs_db (sc_store s)) ops) (sc_store s)) ->
    life_inv (acked, mkSchemaStore cs' (property_schemas s))) as Hw.
  { intros cs Edb Hreq Hrun. apply (life_write _ disk ops); try done.
    destruct Hdur as [->|[Hq Hd]]; [by left|right]. split; [by apply Hreq|done]. }
  destruct Hp as [|st Hst Hi|st applied Hi].
  - apply Hw; try done. unfold cs_db. cbn. by destruct (db_write _ _).
  - by apply life_same.
  - destruct applied; [apply Hw|apply life_same]; try done.
    unfold cs_db. cbn. by destruct (db_write _ _).
Qed.

Lemma life_prepared ops status cs' :
  Forall prepared_op ops -> persisted ops (sc_store s) status cs' ->
  life_inv (acked, mkSchemaStore cs' (property_schemas s)).
Proof.
  intros Hops. pose proof Hlife as [Hdb _ _ _ _ _ _ _ _].
  assert (forall p, Forall (fun q => diverge q p = true)
    [PreparedCommitPrefix; kDecisionPrefix; AsyncTerminalPrefix] ->
    Forall (op_outside p) ops) as Hout.
  { intros p Hp. rewrite !Forall_cons in Hp. destruct Hp as (H1 & H2 & H3 & _).
    eapply Forall_impl; [exact Hops|]. intros op Hop.
    destruct Hop as [Hop|[Hop|Hop]]; destruct op as [[] k v|[] k]; cbn in *; try done;
      apply StartsWith_true in Hop as [u ->]; by apply diverge_outside. }
  assert (Forall meta_op ops) as Hm.
  { eapply Forall_impl; [exact Hops|]. intros op [?|[?|?]]; by destruct op as [[] k v|[] k]. }
  assert (Forall (fun p => Forall (op_outside p) ops) core_prefixes) as Hc.
  { repeat (constructor; [apply Hout; by repeat constructor|]). constructor. }
  assert (forall kind, cf_get (EncodeAllocatorMetaKey kind)
    (db_meta (db_write (cs_db (sc_store s)) ops))
    = cf_get (EncodeAllocatorMetaKey kind) (db_meta (cs_db (sc_store s)))) as Ha.
  { intros kind. apply (write_outside (literal "allocator/")); [apply Hdb| |by destruct kind].
    apply Hout. by repeat constructor. }
  apply life_persisted; [done..|]. apply (recoverable_metadata _ _ _ disk); try done.
  - intros kind Hk. unfold durable_at. rewrite Ha. by apply (rc_allocators _ _ _ _ _ Hdb).
  - by rewrite Ha.
  - apply Hdb.
  - eapply catalog_in_agree; [|apply (rc_catalog _ _ _ _ _ Hdb)].
    intros k Hk. apply (write_outside kSchemaMetaPrefix); [apply Hdb| |done].
    apply Hout. by repeat constructor.
Qed.

Lemma life_commit_OK cf_id outcome b prepared_key r cs :
  prepared_typed b -> fresh_unrecorded (meta_cf (sc_store s)) b ->
  leased_before_last (meta_cf (sc_store s)) b ->
  prepared_key_ok b prepared_key -> outcome_ok outcome ->
  CommitDirect cf_id outcome b prepared_key (sc_store s) = (r, cs) ->
  life_inv (acknowledge r b acked, mkSchemaStore cs (property_schemas s)).
Proof.
  intros Hb Hf Hid Hk Ho H. pose proof Hlife as [Hdb Hcat Hdur Hci Ed Hv Hr Hret Ha].
  destruct (recovery_required (sc_store s)) eqn:Er.
  { assert (cs = sc_store s /\ exists st, r = Fail st) as [-> [st ->]].
    { unfold CommitDirect in H. rewrite Er in H. cbn [negb require mbind StatusOr_bind] in H.
      destruct (accept_batch _ _); injection H as <- <-; eauto. }
    by apply life_same; [done|auto|]. }
  rewrite Hr in Hci, Ed, Hv by done. clear Hr.
  destruct Hdur as [->|[? _]]; [|congruence].
  assert (fresh_transaction_id b = true ->
          forall q b', (q, b') ∈ ledger -> txn_id b' <> txn_id b) as Hnew.
  { apply (fresh_not_committed _ (meta_cf (sc_store s))); [|done].
    intros q b' Hin. by apply (inv_entries _ _ _ Hci). }
  destruct (CommitDirect_effect cf_id outcome ledger events (sc_store s) b prepared_key
    Hci Hb Hk Ho r cs Hnew H) as [Edb Hrun Hack|ops written q Hops Edb Ew Hw Hfresh Hq Hrun Hack Hvis].
  - exists ledger, events, w, (property_schemas s),
      (if recovery_required cs then sc_store s else cs).
    split; cbn [fst snd sc_store property_schemas]; try done.
    + by rewrite Edb.
    + by left.
    + destruct (recovery_required cs); auto.
    + by destruct (recovery_required cs).
    + destruct (recovery_required cs); congruence.
    + by intros ->.
    + intros x b' Hin. destruct r as [x'|st]; [|by apply Ha].
      apply elem_of_cons in Hin as [[= -> ->]|Hin]; [|by apply Ha].
      destruct (Hack x' eq_refl) as (q & stored & ? & ? & ?). exists q, stored. auto.
  - assert (q = wm_visible w + 1) as Eq by (unfold q; lia). rewrite Eq in *.
    pose proof (read_watermarks_range _ _ (rc_watermarks _ _ _ _ _ Hdb)) as Hrange.
    destruct (inv_entries _ _ _ Hw (wm_visible w + 1) b) as (_ & _ & Hval & _); [by left|].
    exists ((wm_visible w + 1, b) :: ledger), (batch_events (wm_visible w + 1) b ++ events),
      (mkWatermarks (wm_visible w + 1) (wm_oldest w) (wm_retention w)),
      (property_schemas s), written.
    split; cbn [fst snd sc_store property_schemas wm_visible wm_retention]; try done.
    + rewrite Edb. by apply (recoverable_commit _ _ _ _ _ _ prepared_key).
    + by left.
    + by intros [-> _]%Hrun.
    + intros q' b' [[= -> ->]|Hin]%elem_of_cons; [lia|by eapply Hret].
    + intros x b' Hin. destruct r as [x'|st].
      * apply elem_of_cons in Hin as [[= -> ->]|Hin].
        { exists (wm_visible w + 1), b. split; [by left|]. split; [by left|by apply Hack]. }
        destruct (Ha _ _ Hin) as (q' & stored & ? & ?). exists q', stored. split; [by right|done].
      * destruct (Ha _ _ Hin) as (q' & stored & ? & ?). exists q', stored. split; [by right|done].
Qed.

Lemma life_restart_OK o pf outcomes opened db :
  check_open_options o = Ok tt -> platform_ok o pf ->
  prune_sequence_records_on_vacuum o = false ->
  Open o pf false outcomes (cs_db (sc_store s)) = Some (Ok opened, db) ->
  life_inv (acked, mkSchemaStore (os_store opened) (os_schemas opened)).
Proof.
  intros Ho Hpf Hprune H. destruct Hlife as [Hdb Hcat Hdur Hci Ed Hv Hr Hret Ha].
  destruct (Open_OK o pf false outcomes _ _ _ _ _ Hdb Ho Hpf Hprune)
    as (opened' & E & [_ Es Edb Ev Erec _ Hst _]).
  rewrite E in H. injection H as <- _.
  assert (commit_inv ledger events (os_store opened')) as Hci'
    by (apply (commit_inv_reopened _ _ cs0); congruence).
  exists ledger, events, w, disk, (os_store opened').
  split; cbn [fst snd sc_store property_schemas]; try done.
  - by rewrite Edb.
  - rewrite Es. apply Hdb.
  - by left.
Qed.

Lemma register_writes outcome d r s' :
  outcome_ok outcome -> RegisterProperty outcome d s = (r, s') ->
  recovery_required (sc_store s) = false -> exists ops,
    Forall (op_under kSchemaMetaPrefix) ops /\
    cs_db (sc_store s') = db_write (cs_db (sc_store s)) ops /\
    (recovery_required (sc_store s') = false ->
       sc_store s' = with_db (db_write (cs_db (sc_store s)) ops) (sc_store s)).
Proof.
  intros Ho H Hr.
  assert (forall cs, with_db (db_write (cs_db cs) []) cs = cs) as Enil
    by by intros [[] ? ? ? ?].
  assert (s' = s -> exists ops, Forall (op_under kSchemaMetaPrefix) ops /\
    cs_db (sc_store s') = db_write (cs_db (sc_store s)) ops /\
    (recovery_required (sc_store s') = false ->
       sc_store s' = with_db (db_write (cs_db (sc_store s)) ops) (sc_store s))) as Hsame.
  { intros ->. exists []. rewrite Enil. split; [constructor|done]. }
  unfold RegisterProperty in H.
  destruct (mbind _ _) as [[latest|d']|st]; [by apply Hsame; injection H| |by apply Hsame; injection H].
  destruct (EncodeSchemaMetaKey _ _ ≫= _) as [ops|st] eqn:E; [|by apply Hsame; injection H].
  inv_ok. subst ops. destruct (persist_metadata _ _ _) as [st cs] eqn:Ep.
  apply persist_metadata_spec in Ep; [|done].
  assert (op_under kSchemaMetaPrefix (Put kMetaCf x x0)) as Hop
    by exact (table_prefix (MetaTable := Schema_table)
                (def_property_id d', def_schema_epoch d') x H0).
  assert (sc_store s' = cs) as -> by by destruct st; injection H as _ <-.
  destruct Ep as [|st Hst Hi|st applied Hi].
  - exists [Put kMetaCf x x0]. split; [by repeat constructor|]. split; [|done].
    unfold cs_db. cbn. done.
  - exists []. rewrite Enil. split; [constructor|done].
  - exists (if applied then [Put kMetaCf x x0] else []). destruct applied.
    + by split; [repeat constructor|].
    + by split; [constructor|].
Qed.

Lemma life_register_OK outcome d r s' :
  outcome_ok outcome -> request_typed d -> RegisterProperty outcome d s = (r, s') ->
  life_inv (acked, s').
Proof.
  intros Ho Ht H. pose proof Hlife as [Hdb Hcat Hdur Hci Ed Hv Hr Hret Ha].
  destruct (recovery_required (sc_store s)) eqn:Er.
  { assert (s' = s) as ->.
    { unfold RegisterProperty in H. rewrite Er in H. cbn [negb require mbind StatusOr_bind] in H.
      by destruct (check _); injection H. }
    exists ledger, events, w, disk, cs0. exact Hlife. }
  destruct (register_writes _ _ _ _ Ho H Er) as (ops & Hops & Edb & Hrun).
  destruct (RegisterProperty_OK outcome d s r s') as [[_ Hcat' (disk' & Hok & Hin & Hdur')] _];
    [|done..|].
  { split; [apply Hdb|done|]. exists disk. split; [apply Hdb|]. split; [apply Hdb|done]. }
  assert (db_meta (db_write (cs_db (sc_store s)) ops) = meta_cf (sc_store s')) as Em
    by (rewrite <- Edb; done).
  assert (Forall (fun p => Forall (op_outside p) ops) core_prefixes) as Hc
    by (apply (outside_core kSchemaMetaPrefix); [by repeat constructor|done]).
  assert (forall kind, cf_get (EncodeAllocatorMetaKey kind)
    (db_meta (db_write (cs_db (sc_store s)) ops))
    = cf_get (EncodeAllocatorMetaKey kind) (db_meta (cs_db (sc_store s)))) as Hal.
  { intros kind. apply (write_outside (literal "allocator/")); [apply Hdb| |by destruct kind].
    eapply Forall_impl; [exact Hops|]. intros op Hop.
    destruct op as [[] k v|[] k]; cbn in *; try done;
      apply StartsWith_true in Hop as [u ->]; by apply diverge_outside. }
  destruct s' as [cs' schemas']. cbn [sc_store property_schemas] in *.
  apply (life_write schemas' disk' ops); try done; [by eapply op_under_meta| |auto].
  apply (recoverable_metadata _ _ _ disk); try done.
  - by eapply op_under_meta.
  - intros kind Hk. unfold durable_at. rewrite Hal. by apply (rc_allocators _ _ _ _ _ Hdb).
  - by rewrite Hal.
  - by rewrite Em.
Qed.

Lemma prepare_writes meta batches ops ops' :
  loop (prepare_batch meta) ops batches = Ok ops' -> Forall prepared_op ops ->
  Forall prepared_op ops'.
Proof.
  revert ops. induction batches as [|b batches IH]; intros ops H Hops; [by injection H as <-|].
  cbn [loop] in H. destruct (prepare_batch meta ops b) as [ops1|] eqn:E; [|done].
  apply (IH ops1 H). clear H IH. unfold prepare_batch in E.
  destruct (EncodePreparedCommitKey (txn_id b)) as [key|] eqn:Hk; [|done].
  destruct (EncodePreparedCommit b) as [v|]; [|done]. cbn [mbind StatusOr_bind] in E.
  destruct (cf_get key meta); [case_bool_decide; by simplify_eq|].
  destruct (EncodeTransactionMetaKey (txn_id b)) as [tk|]; [|done]. cbn [mbind StatusOr_bind] in E.
  destruct (cf_get tk meta); [done|]. injection E as <-. apply Forall_app. split; [done|].
  constructor; [|constructor]. left.
  exact (table_prefix (typed := uint 64) (lt := Z.lt) (txn_id b) key Hk).
Qed.

Lemma life_prepare_OK outcome batches status cs :
  outcome_ok outcome -> PersistPreparedCommits outcome batches (sc_store s) = (status, cs) ->
  life_inv (acked, mkSchemaStore cs (property_schemas s)).
Proof.
  intros Ho H. unfold PersistPreparedCommits in H.
  destruct (check_prepares batches ≫= _) as [ops|st] eqn:E.
  2: { injection H as _ <-. by apply life_same. }
  inv_ok. apply prepare_writes in E; [|constructor].
  destruct ops as [|op ops]; [injection H as _ <-; by apply life_same|].
  by eapply life_prepared; [|eapply persist_metadata_spec].
Qed.

Lemma life_decide_OK outcome d status cs :
  outcome_ok outcome -> PersistPreparedDecision outcome d (sc_store s) = (status, cs) ->
  life_inv (acked, mkSchemaStore cs (property_schemas s)).
Proof.
  intros Ho H. unfold PersistPreparedDecision in H.
  destruct (EncodePreparedDecisionKey _ ≫= _) as [ops|st] eqn:E.
  2: { injection H as _ <-. by apply life_same. }
  inv_ok. destruct (cf_get x (meta_cf (sc_store s))).
  - case_bool_decide; [|done]. injection E as <-. injection H as _ <-. by apply life_same.
  - inv_ok. subst ops. eapply life_prepared; [|by eapply persist_metadata_spec].
    constructor; [|constructor]. right. left.
    by apply (table_prefix (prefix := kDecisionPrefix) (typed := uint 64) (lt := Z.lt)
      (key := EncodePreparedDecisionKey) (decision_txn_id d)).
Qed.

Lemma life_abort_OK outcome txn status cs :
  outcome_ok outcome -> AbortPreparedCommit outcome txn (sc_store s) = (status, cs) ->
  life_inv (acked, mkSchemaStore cs (property_schemas s)).
Proof.
  intros Ho H. unfold AbortPreparedCommit in H.
  destruct (EncodePreparedCommitKey _ ≫= _) as [ops|st] eqn:E.
  2: { injection H as _ <-. by apply life_same. }
  inv_ok. subst ops. eapply life_prepared; [|by eapply persist_metadata_spec].
  constructor; [right; right|constructor; [left|constructor]].
  - by apply (table_prefix (prefix := AsyncTerminalPrefix) (typed := uint 64) (lt := Z.lt)
      (key := EncodeAsyncTerminalKey) txn).
  - by apply (table_prefix (prefix := PreparedCommitPrefix) (typed := uint 64) (lt := Z.lt)
      (key := EncodePreparedCommitKey) txn).
Qed.

Lemma life_lease_OK outcome kind next status allocators allocators' :
  outcome_ok outcome -> IsKnownIdKind kind = true -> 1 <= next < 2 ^ 64 ->
  al_store allocators = sc_store s ->
  write_allocator outcome kind next allocators = (status, allocators') ->
  life_inv (acked, mkSchemaStore (al_store allocators') (property_schemas s)).
Proof.
  intros Ho Hk Hn Ea H. unfold write_allocator in H. rewrite Ea in H.
  destruct (allocator_encodes kind next Hk Hn) as (e & He & Hd). rewrite He in H.
  destruct (persist_metadata _ _ _) as [st cs] eqn:Ep. apply persist_metadata_spec in Ep; [|done].
  assert (al_store allocators' = cs) as -> by (destruct st; by injection H as _ <-).
  pose proof Hlife as [Hdb _ _ _ _ _ _ _ _].
  set (ops := [Put kMetaCf (EncodeAllocatorMetaKey kind) e]) in *.
  assert (Forall (op_under (literal "allocator/")) ops) as Hops
    by (repeat constructor; by destruct kind).
  assert (forall k, cf_get k (db_meta (db_write (cs_db (sc_store s)) ops))
    = if bool_decide (EncodeAllocatorMetaKey kind = k) then Some e
      else cf_get k (db_meta (cs_db (sc_store s)))) as Eg
    by (intros; cbn; by rewrite cf_get_put).
  assert (Forall (fun p => Forall (op_outside p) ops) core_prefixes) as Hc
    by (apply (outside_core (literal "allocator/")); [by repeat constructor|done]).
  apply (life_persisted ops st); [by eapply op_under_meta|done| |done].
  apply (recoverable_metadata _ _ _ disk); [done|by eapply op_under_meta|done|..|apply Hdb|].
  - intros kind' Hk'. unfold durable_at. rewrite Eg. case_bool_decide as Ek.
    + exists (mkIdAllocatorState kind next). split; [done|]. split; [|done].
      cbn. destruct kind, kind'; by simplify_eq.
    + by apply (rc_allocators _ _ _ _ _ Hdb).
  - rewrite Eg. by case_bool_decide.
  - eapply catalog_in_agree; [|apply (rc_catalog _ _ _ _ _ Hdb)].
    intros k Hp. rewrite Eg, bool_decide_false; [done|]. intros <-. by destruct kind.
Qed.

End life.

Lemma life_step_OK st st' : life_inv st -> life_step st st' -> life_inv st'.
Proof.
  intros H Hstep. destruct Hstep; destruct H as (ledger & events & w & disk & cs0 & H);
    cbn [fst snd] in H.
  - by eapply life_commit_OK.
  - by eapply life_register_OK.
  - by eapply life_prepare_OK.
  - by eapply life_decide_OK.
  - by eapply life_abort_OK.
  - by eapply life_lease_OK.
  - by eapply life_restart_OK.
Qed.

Lemma life_reachable st st' : life_inv st -> rtc life_step st st' -> life_inv st'.
Proof. intros H. induction 1; eauto using life_step_OK. Qed.

(** ** A new database *)

Lemma diverge_whole p q : diverge p q = true -> StartsWith p q = false.
Proof. intros H. rewrite <- (app_nil_r p). by apply diverge_outside. Qed.

(** The four records, and nothing else. *)
Lemma initial_keys ops k v :
  initial_records = Ok ops -> cf_get k (db_meta (db_write (mkDatabase [] []) ops)) = Some v ->
  k = EncodeCurrentFormatKey \/ k = EncodeVisibleWatermarkKey \/
  k = EncodeOldestReadableWatermarkKey \/ k = EncodeSequenceFormatKey.
Proof.
  intros H Hk. change (db_meta ?d) with (db_cf kMetaCf d) in Hk.
  rewrite db_write_get in Hk by (split; constructor).
  unfold initial_records in H. inv_ok. subst ops.
  destruct (decide (k = EncodeCurrentFormatKey)) as [|N1]; [auto|].
  destruct (decide (k = EncodeVisibleWatermarkKey)) as [|N2]; [auto|].
  destruct (decide (k = EncodeOldestReadableWatermarkKey)) as [|N3]; [auto|].
  destruct (decide (k = EncodeSequenceFormatKey)) as [|N4]; [auto|].
  rewrite ops_value_untouched in Hk; [done|].
  intros op Hop. rewrite !elem_of_cons, elem_of_nil in Hop.
  destruct Hop as [-> |[-> |[-> |[-> |[]]]]]; apply op_value_other; auto using not_eq_sym.
Qed.

Lemma initial_values :
  (ops ← initial_records;
   let meta := db_meta (db_write (mkDatabase [] []) ops) in
   v ← from_option (cf_get EncodeCurrentFormatKey meta) (NotFound "" "");
   i ← DecodeSystemIdentity v;
   w ← read_watermarks meta;
   _ ← check_marker meta;
   Ok w) = Ok (mkWatermarks 0 0 0).
Proof. vm_compute. reflexivity. Qed.

Lemma initial_recoverable ops :
  initial_records = Ok ops ->
  recoverable [] [] (mkWatermarks 0 0 0) ∅ (db_write (mkDatabase [] []) ops).
Proof.
  intros H. pose proof initial_values as Hv. rewrite H in Hv. cbn [mbind StatusOr_bind] in Hv.
  assert (forall k, ~ (k = EncodeCurrentFormatKey \/ k = EncodeVisibleWatermarkKey \/
    k = EncodeOldestReadableWatermarkKey \/ k = EncodeSequenceFormatKey) ->
    cf_get k (db_meta (db_write (mkDatabase [] []) ops)) = None) as Hnone.
  { intros k Hn. destruct (cf_get k _) eqn:E; [|done]. by apply (initial_keys _ _ _ H) in E. }
  assert (forall p k v, cf_get k (db_meta (db_write (mkDatabase [] []) ops)) = Some v ->
    StartsWith k p = true -> Forall (fun q => diverge q p = true)
      [EncodeCurrentFormatKey; EncodeVisibleWatermarkKey; EncodeOldestReadableWatermarkKey;
       EncodeSequenceFormatKey] -> False) as Hout.
  { intros p k v Hg Hp Hd. rewrite !Forall_cons in Hd. destruct Hd as (H1 & H2 & H3 & H4 & _).
    apply (initial_keys _ _ _ H) in Hg.
    destruct Hg as [-> |[-> |[-> | ->]]];
      [rewrite (diverge_whole _ _ H1) in Hp|rewrite (diverge_whole _ _ H2) in Hp
      |rewrite (diverge_whole _ _ H3) in Hp|rewrite (diverge_whole _ _ H4) in Hp];
      discriminate Hp. }
  assert (Forall meta_op ops) as Hmeta
    by (unfold initial_records in H; clear -H; inv_ok; subst ops; repeat constructor).
  inv_ok. subst x1. split.
  - apply db_write_sorted. split; constructor.
  - rewrite write_meta by done. split_and!; [constructor|..]; by intros ? ?%not_elem_of_nil.
  - by intros e ?%not_elem_of_nil.
  - eauto.
  - done.
  - by destruct x2.
  - cbn [wm_retention wm_visible]. lia.
  - intros k v Hg Hp. exfalso. by eapply Hout; [..|repeat constructor].
  - intros kind Hk. unfold durable_at. rewrite Hnone; [done|]. by destruct kind; intros [|[|[|]]].
  - split; [by split; intros ? ?|]. exists ∅. split.
    + split; [by intros ? ?|]. intros k v Hg Hp. exfalso. by eapply Hout; [..|repeat constructor].
    + intros i d. split; [done|]. by intros (? & ? & _).
  - rewrite Hnone; [done|]. by intros [|[|[|]]].
Qed.

Lemma transaction_resolved ledger events w cs q b :
  commit_inv ledger events cs -> read_watermarks (meta_cf cs) = Ok w ->
  visible_seq (cs_impl cs) = wm_visible w -> (q, b) ∈ ledger -> wm_retention w <= q ->
  ResolveTransaction (txn_id b) cs = Ok (Some (mkStoreCommitResult q (system_hlc b))).
Proof.
  intros Hinv Hw Hv Hin Hret.
  apply read_watermarks_Ok in Hw as ((v & Hg & Hd) & _ & Hr & _).
  destruct (inv_entries _ _ _ Hinv q b Hin)
    as (Hq & _ & _ & [(k & o & Hk & Ho & Eo) (k' & v' & Hk' & Hv' & Ev')] & _).
  unfold ResolveTransaction.
  assert (txn_id b =? 0 = false) as ->
    by (unfold EncodeTransactionMetaKey in Hk; by destruct (txn_id b =? 0)).
  cbn [negb require mbind StatusOr_bind]. rewrite Hk. cbn [mbind StatusOr_bind].
  rewrite Ho, Eo. cbn [mbind StatusOr_bind outcome_commit_seq].
  rewrite Hg. cbn [from_option mbind StatusOr_bind]. rewrite Hd. cbn [mbind StatusOr_bind].
  rewrite Hv, (proj2 (Z.ltb_ge (wm_visible w) q)) by lia. cbn [orb].
  rewrite Hr. cbn [mbind StatusOr_bind].
  rewrite (proj2 (Z.leb_le (wm_retention w) q)) by lia. cbn [require mbind StatusOr_bind].
  rewrite Hk'. cbn [mbind StatusOr_bind]. rewrite Hv'. cbn [from_option mbind StatusOr_bind].
  rewrite Ev'. cbn [mbind StatusOr_bind seq_txn_id seq_commit_seq seq_system_hlc].
  by rewrite !Z.eqb_refl.
Qed.

Lemma Open_created o pf outcomes opened db :
  check_open_options o = Ok tt -> platform_ok o pf ->
  prune_sequence_records_on_vacuum o = false ->
  Open o pf true outcomes (mkDatabase [] []) = Some (Ok opened, db) ->
  life_inv ([], mkSchemaStore (os_store opened) (os_schemas opened)).
Proof.
  intros Ho Hpf Hprune H. unfold Open in H. rewrite Ho in H.
  change (cf_get EncodeCurrentFormatKey (db_meta (mkDatabase [] []))) with (@None (list byte)) in H.
  cbn [negb] in H. unfold initialize in H.
  destruct initial_records as [ops|st] eqn:Ei; [|done].
  pose proof (initial_recoverable ops Ei) as Hdb.
  assert (write_status (outcomes 0%nat) = rocks_ok) as Ew
    by by destruct (write_status (outcomes 0%nat)).
  rewrite Ew in H.
  destruct (open_loaded_OK o pf true outcomes 1 _ _ _ _ _ Hdb Hpf Hprune)
    as (opened' & E & [_ Es Edb Ev Erec _ Hst _]).
  rewrite E in H. injection H as <- _.
  exists [], [], (mkWatermarks 0 0 0), ∅, (os_store opened').
  split; cbn [fst snd sc_store property_schemas]; try done.
  - by rewrite Edb.
  - rewrite Es. apply Hdb.
  - by left.
  - split; try done.
    + change (meta_cf (os_store opened')) with (db_meta (cs_db (os_store opened'))).
      rewrite Edb. apply Hdb.
    + by rewrite Ev.
    + by intros s b ?%not_elem_of_nil.
    + intros txn k Ht Hk [v Hg]. exfalso.
      change (meta_cf (os_store opened')) with (db_meta (cs_db (os_store opened'))) in Hg.
      rewrite Edb in Hg. apply (initial_keys _ _ _ Ei) in Hg.
      assert (StartsWith k (literal "txn/") = true) as Hp
        by (unfold EncodeTransactionMetaKey in Hk; destruct (txn =? 0); [done|];
            injection Hk as <-; apply StartsWith_app).
      destruct Hg as [-> |[-> |[-> | ->]]]; discriminate Hp.
  - by intros q b ?%not_elem_of_nil.
  - by intros x b ?%not_elem_of_nil.
Qed.

(** ** What the validation rules out *)

Section validated.

Context (o : OpenOptions) (w : Watermarks) (db : Database).
Hypothesis Hsorted : cf_sorted (db_meta db).
Hypothesis Hret : 0 <= wm_retention w.
Hypothesis Hvis : wm_visible w < U64_MAX.

Lemma loop_unit_sound {A} (f : A -> StatusOr unit) l :
  loop (fun _ => f) tt l = Ok tt -> forall x, x ∈ l -> f x = Ok tt.
Proof.
  induction l as [|y l IH]; intros H x Hx; [by apply not_elem_of_nil in Hx|].
  cbn [loop] in H. destruct (f y) as [[]|] eqn:E; [|done].
  apply elem_of_cons in Hx as [->|Hx]; [done|by apply IH].
Qed.

Lemma sequence_checked_mono floor (P Q : pending_outcome -> Prop) s v :
  (forall p, P p -> Q p) -> sequence_checked db floor P s v ->
  sequence_checked db floor Q s v.
Proof.
  intros H (view & k & ? & ? & ? & ?). exists view, k.
  split; [done|]. split; [done|]. split; [done|]. by apply H.
Qed.

(** The records that the scan has passed. *)
Lemma validate_sequences_sound batch_size floor entries expected pending expected' pending' rest :
  0 <= expected <= wm_visible w + 1 ->
  validate_sequences batch_size db floor (wm_visible w) expected pending entries
  = Ok (expected', pending', rest) ->
  let settled p := p ∈ pending' \/ validate_outcome (db_meta db) p = Ok tt in
  expected <= expected' <= wm_visible w + 1 /\
  (forall p, p ∈ pending -> settled p) /\
  exists passed, entries = passed ++ rest /\
    length passed = Z.to_nat (expected' - expected) /\
    forall i k v, passed !! i = Some (k, v) ->
      k = sequence_key (expected + Z.of_nat i) /\
      sequence_checked db floor settled (expected + Z.of_nat i) v.
Proof.
  revert expected pending.
  induction entries as [|[k v] entries IH]; intros expected pending He H settled.
  { injection H as <- <- <-. split; [lia|]. split; [by left|].
    exists []. split; [done|]. split; [cbn; lia|done]. }
  cbn [validate_sequences] in H.
  destruct (StartsWith k kSequenceMetaPrefix && (expected <=? wm_visible w)) eqn:Ec.
  2: { injection H as <- <- <-. split; [lia|]. split; [by left|].
       exists []. split; [done|]. split; [cbn; lia|done]. }
  apply andb_true_iff in Ec as [Hp Hle%Z.leb_le].
  destruct (bool_decide _) eqn:Ek; [|done]. apply bool_decide_eq_true in Ek.
  cbn [require mbind StatusOr_bind] in H.
  destruct (DecodeSequenceRecordView v expected) as [view|] eqn:Ev; [|done].
  cbn [mbind StatusOr_bind] in H.
  destruct (ValidateSequenceRecordContent _ _ _ _) as [[]|] eqn:Ec; [|done].
  cbn [mbind StatusOr_bind] in H.
  destruct (EncodeTransactionMetaKey _) as [tk|] eqn:Et; [|done].
  cbn [mbind StatusOr_bind] in H.
  rewrite (uint_wrap 64 (expected + 1)) in H by (unfold uint, U64_MAX in *; lia).
  set (pend := pending ++ [(tk, view_txn_id view, expected)]) in *.
  assert (exists pending0,
    validate_sequences batch_size db floor (wm_visible w) (expected + 1) pending0 entries
      = Ok (expected', pending', rest) /\
    forall p, p ∈ pend -> p ∈ pending0 \/ validate_outcome (db_meta db) p = Ok tt)
    as (pending0 & Hrec & Hpend).
  { destruct (_ =? _)%nat; [|by exists pend; auto].
    destruct (ValidateSequenceOutcomeBatch _ _) as [[]|] eqn:Eb; [|done].
    exists []. split; [done|]. intros p Hin. right. by eapply loop_unit_sound. }
  destruct (IH (expected + 1) pending0) as (Hr & Hset & passed & -> & Hlen & Hpassed); [lia|done|].
  assert (forall p, p ∈ pend -> settled p) as Hall
    by (intros p [?|?]%Hpend; [by apply Hset|by right]).
  split; [lia|]. split; [intros p Hin; apply Hall, elem_of_app; by left|].
  exists ((k, v) :: passed). split; [done|]. split; [cbn; lia|].
  intros [|i] k' v' Hi; cbn in Hi.
  - injection Hi as <- <-. rewrite Z.add_0_r. split; [done|].
    exists view, tk. split; [done|]. split; [done|]. split; [done|].
    apply Hall, elem_of_app. right. by left.
  - destruct (Hpassed i k' v' Hi) as [-> Hc].
    replace (expected + Z.of_nat (S i)) with (expected + 1 + Z.of_nat i) by lia. done.
Qed.

Lemma checked_sound floor s v :
  cf_get (sequence_key s) (db_meta db) = Some v ->
  sequence_checked db floor (fun p => validate_outcome (db_meta db) p = Ok tt) s v ->
  sequence_sound db floor s.
Proof.
  intros Hg (view & k & Hd & Hc & Hk & Ho). split. exists v, view.
  split; [done|]. split; [done|]. unfold ValidateSequenceRecordContent in Hc.
  destruct (view_commit_seq view =? s) eqn:Es; [|done]. apply Z.eqb_eq in Es.
  cbn [require mbind StatusOr_bind] in Hc.
  destruct (match SequenceRecordView_Validate view with StatusOK => Ok tt | _ => _ end)
    as [[]|]; [|done]. cbn [mbind StatusOr_bind] in Hc.
  split; [done|]. split.
  - unfold validate_outcome in Ho. inv_ok. bool_to_prop. by exists k, x, x0.
  - intros fact Hf. pose proof (loop_unit_sound _ _ Hc fact Hf) as Hv.
    unfold validate_sequence_fact in Hv. destruct (DecodeFactKey fact) as [key|]; [|done].
    destruct (key_commit_seq key =? s) eqn:Ek; [|done]. apply Z.eqb_eq in Ek.
    cbn [require mbind StatusOr_bind] in Hv. exists key. split; [done|]. split; [done|].
    intros Hfl. rewrite (proj2 (Z.leb_le _ _) Hfl) in Hv. cbn [negb] in Hv. inv_ok.
    by exists x, x0.
Qed.

(** The rest of the scan has no sequence records. *)
Lemma rest_outside first passed rest k v :
  Seek (sequence_key first) (db_meta db) = passed ++ rest ->
  match rest with
  | (key, _) :: _ => negb (StartsWith key kSequenceMetaPrefix)
  | [] => true
  end = true ->
  (k, v) ∈ rest -> StartsWith k kSequenceMetaPrefix = false.
Proof.
  intros Es Hhead Hin. destruct rest as [|[h vh] rest]; [by apply not_elem_of_nil in Hin|].
  apply negb_true_iff in Hhead. apply not_true_iff_false. intros [u Ek]%StartsWith_true.
  enough (StartsWith h kSequenceMetaPrefix = true) by congruence.
  assert (cf_sorted (passed ++ (h, vh) :: rest)) as Hs
    by (rewrite <- Es, Seek_filter by done; by apply cf_sorted_filter).
  apply (StartsWith_between kSequenceMetaPrefix (be_bytes 8 first) u).
  - assert ((h, vh) ∈ Seek (sequence_key first) (db_meta db)) as Hh
      by (rewrite Es; apply elem_of_app; right; by left).
    apply Seek_elem in Hh as [_ Hh]; [|done].
    change (kSequenceMetaPrefix ++ be_bytes 8 first) with (sequence_key first).
    rewrite bytes_compare_antisym. by destruct (bytes_compare h _).
  - rewrite <- Ek. apply elem_of_cons in Hin as [[= Eh _]|Hin]; [by rewrite <- Eh, bytes_compare_refl|].
    apply StronglySorted_app_1_r in Hs. apply StronglySorted_inv in Hs as [_ Hall].
    rewrite Forall_forall in Hall. specialize (Hall _ Hin). cbn in Hall.
    unfold bytes_lt in Hall. by rewrite Hall.
Qed.

Lemma validated_sound :
  0 < wm_visible w -> wm_retention w <= wm_visible w ->
  ValidateCommittedSequences o w db = Ok tt ->
  (forall s, Z.max 1 (wm_retention w) <= s <= wm_visible w ->
     sequence_sound db (fact_validation_floor o w) s) /\
  forall k v, cf_get k (db_meta db) = Some v -> StartsWith k kSequenceMetaPrefix = true ->
    bytes_compare k (sequence_key (Z.max 1 (wm_retention w))) <> Lt ->
    exists s, Z.max 1 (wm_retention w) <= s <= wm_visible w /\ k = sequence_key s.
Proof.
  intros Hpos Hle H. unfold ValidateCommittedSequences in H.
  rewrite (proj2 (Z.eqb_neq (wm_visible w) 0)) in H by lia.
  set (first := Z.max 1 (wm_retention w)) in *.
  destruct (validate_sequences _ _ _ _ _ _ _) as [[[expected pending] rest]|] eqn:E; [|done].
  cbn [mbind StatusOr_bind] in H.
  destruct (ValidateSequenceOutcomeBatch _ _) as [[]|] eqn:Eb; [|done].
  cbn [mbind StatusOr_bind] in H.
  rewrite uint_wrap in H by (unfold uint, U64_MAX in *; lia).
  destruct (expected =? wm_visible w + 1) eqn:Ee; [|done]. apply Z.eqb_eq in Ee. subst expected.
  cbn [require mbind StatusOr_bind] in H. change (AppendU64 kSequenceMetaPrefix first)
    with (sequence_key first) in E.
  destruct (match rest with (key, _) :: _ => _ | [] => true end) eqn:Hhead; [|done].
  apply validate_sequences_sound in E as (_ & _ & passed & Es & Hlen & Hpassed); [|lia].
  assert (forall p, p ∈ pending \/ validate_outcome (db_meta db) p = Ok tt ->
    validate_outcome (db_meta db) p = Ok tt) as Hset
    by (intros p [Hp|?]; [by eapply loop_unit_sound|done]).
  split.
  - intros s Hs. destruct (lookup_lt_is_Some_2 passed (Z.to_nat (s - first))) as [[k v] Hi]; [lia|].
    destruct (Hpassed _ _ _ Hi) as [-> Hc].
    replace (first + Z.of_nat (Z.to_nat (s - first))) with s in * by lia.
    apply (checked_sound _ s v); [|exact (sequence_checked_mono _ _ _ _ _ Hset Hc)].
    apply (Seek_elem (sequence_key first)); [done|]. rewrite Es. apply elem_of_app. left.
    by apply list_elem_of_lookup_2 in Hi.
  - intros k v Hg Hp Hge.
    assert ((k, v) ∈ passed ++ rest) as Hin.
    { rewrite <- Es, Seek_filter, list_elem_of_filter, elem_of_cf by done. done. }
    apply elem_of_app in Hin as [[i Hi]%list_elem_of_lookup|Hin].
    + destruct (Hpassed _ _ _ Hi) as [-> _]. exists (first + Z.of_nat i).
      apply lookup_lt_Some in Hi. split; [lia|done].
    + rewrite (rest_outside first passed rest k v) in Hp; done.
Qed.

End validated.

(** ** The sample life *)

Lemma open_of_Ok r :
  match r with Some (Ok _, _) => true | _ => false end = true ->
  exists opened db, r = Some (Ok opened, db) /\
    open_of r = mkSchemaStore (os_store opened) (os_schemas opened).
Proof. destruct r as [[[opened|] db]|]; [|done..]. by exists opened, db. Qed.

Lemma sample_platform_ok : platform_ok sample_options sample_platform.
Proof. unfold platform_ok. cbn. lia. Qed.

Lemma first_batch_typed : prepared_typed first_batch.
Proof. split_and!; repeat constructor; unfold uint, sint; simpl; lia. Qed.

Lemma sample_commit_step s outcome cs r acked :
  CommitDirect sample_cf_id outcome first_batch None (sc_store s) = (r, cs) ->
  outcome_ok outcome ->
  life_step (acked, s) (acknowledge r first_batch acked, mkSchemaStore cs (property_schemas s)).
Proof.
  intros H Ho. apply (life_commit _ _ sample_cf_id outcome first_batch None);
    [apply first_batch_typed|intros E; discriminate E|intros E; vm_compute in E; discriminate E
    |by intros ? [=]|exact Ho|exact H].
Qed.

Lemma sample_life :
  rtc life_step ([], created_sample)
    ([(mkStoreCommitResult 1 1000, first_batch)], retried_sample).
Proof.
  set (lost := Fail (A := StoreCommitResult)
                 (StatusError kIndeterminate "commit fact store batch: timeout")).
  assert (CommitDirect sample_cf_id (mkWriteOutcome (rocks_other "timeout") true) first_batch
    None (sc_store created_sample) = (lost, sc_store lost_sample)) as H1
    by (vm_compute; reflexivity).
  assert (CommitDirect sample_cf_id sample_written first_batch None (sc_store reopened_sample)
    = (Ok (mkStoreCommitResult 1 1000), sc_store retried_sample)) as H3
    by (vm_compute; reflexivity).
  apply rtc_l with ([], lost_sample); [exact (sample_commit_step _ _ _ _ [] H1 I)|].
  apply rtc_l with ([], reopened_sample);
    [|apply rtc_once; exact (sample_commit_step _ _ _ _ [] H3 I)].
  destruct (open_of_Ok (Open sample_options sample_platform false (fun _ => sample_written)
    (cs_db (sc_store lost_sample)))) as (opened & db & E & E'); [by vm_compute|].
  unfold reopened_sample. rewrite E'.
  by apply (life_restart _ _ sample_options sample_platform (fun _ => sample_written) opened db);
    [|apply sample_platform_ok|..].
Qed.

(** ** Properties *)

(** C3: acknowledged commits survive.  Take a database from its creation on, and any
    sequence of commits (of fresh identifiers as [Transaction::Commit] submits them, of
    batches that may be retries, and of prepared transactions), registrations of
    properties, preparations, decisions and aborts, extensions of the allocators, and
    ends of the process followed by opening the database again, however the writes end.
    Then opening the database succeeds, changes nothing, and gives a store that answers
    every commit that was acknowledged with the sequence the caller was given, holds
    every fact of it, and knows every property definition.  An identifier that is marked
    fresh has no outcome yet.  Two things are assumed not to happen: the identifier
    2^64-1, which only an external coordinator can choose, is not committed before the
    store has leased transaction identifiers, since such a store does not open again;
    and the database is not vacuumed or opened with pruning of sequence records. *)
Theorem acknowledged_commits_survive o pf outcomes opened db acked s o' pf' outcomes' :
  check_open_options o = Ok tt -> platform_ok o pf ->
  prune_sequence_records_on_vacuum o = false ->
  Open o pf true outcomes (mkDatabase [] []) = Some (Ok opened, db) ->
  rtc life_step ([], mkSchemaStore (os_store opened) (os_schemas opened)) (acked, s) ->
  check_open_options o' = Ok tt -> platform_ok o' pf' ->
  prune_sequence_records_on_vacuum o' = false ->
  exists opened', Open o' pf' false outcomes' (cs_db (sc_store s))
                  = Some (Ok opened', cs_db (sc_store s)) /\
    extends (property_schemas s) (os_schemas opened') /\
    forall x b, (x, b) ∈ acked ->
      ResolveTransaction (txn_id b) (os_store opened') = Ok (Some x) /\
      exists stored, (b = stored \/ same_batch b stored) /\
        forall e, e ∈ batch_events (result_commit_seq x) stored -> exists v,
          EncodeFactValue e = Ok v /\
          cf_get (event_key e) (facts_cf (cs_impl (os_store opened'))) = Some v.
Proof.
  intros Ho Hpf Hp Hopen Hlife Ho' Hpf' Hp'.
  apply Open_created in Hopen; [|done..].
  destruct (life_reachable _ _ Hopen Hlife)
    as (ledger & events & w & disk & cs0 & [Hdb Hcat Hdur Hci Ed Hv _ Hret Ha]).
  cbn [fst snd] in *.
  destruct (Open_OK o' pf' false outcomes' _ _ _ _ _ Hdb Ho' Hpf' Hp')
    as (opened' & E & [_ Es Edb Ev Erec _ Hst _]).
  exists opened'. split; [done|]. split.
  { rewrite Es. destruct Hdur as [->|[_ [d ->]]]; [by intros ? ?|]. apply push_extends, Hdb. }
  assert (commit_inv ledger events (os_store opened')) as Hci'
    by (apply (commit_inv_reopened _ _ cs0); congruence).
  intros x b Hin. destruct (Ha x b Hin) as (q & stored & Hq & Hsame & ->).
  assert (txn_id b = txn_id stored /\ system_hlc b = system_hlc stored) as [-> ->]
    by (destruct Hsame as [->|(? & ? & _)]; done).
  split.
  - eapply transaction_resolved; try done; [|by eapply Hret].
    change (meta_cf (os_store opened')) with (db_meta (cs_db (os_store opened'))).
    rewrite Edb. apply Hdb.
  - exists stored. split; [done|]. intros e He. cbn in He.
    destruct (inv_entries _ _ _ Hci' q stored Hq) as (_ & _ & _ & _ & Hev & _).
    destruct Hst as [(Hs & _ & Hr) _].
    destruct (Hr e (Hev e He)) as ([k v] & Hkv & _ & Ek & Ee). cbn in Ek, Ee. subst k.
    exists v. split; [done|]. by apply elem_of_cf.
Qed.

Lemma acknowledged_commits_survive_witness :
  exists opened', Open sample_options sample_platform false (fun _ => sample_written)
                    (cs_db (sc_store retried_sample))
                  = Some (Ok opened', cs_db (sc_store retried_sample)) /\
    ResolveTransaction 41 (os_store opened') = Ok (Some (mkStoreCommitResult 1 1000)).
Proof.
  destruct (open_of_Ok (Open sample_options sample_platform true (fun _ => sample_written)
    (mkDatabase [] []))) as (opened & db & E & Ec); [by vm_compute|].
  destruct (acknowledged_commits_survive sample_options sample_platform
    (fun _ => sample_written) opened db [(mkStoreCommitResult 1 1000, first_batch)]
    retried_sample sample_options sample_platform (fun _ => sample_written))
    as (opened' & E' & _ & H).
  - reflexivity.
  - apply sample_platform_ok.
  - reflexivity.
  - exact E.
  - rewrite <- Ec. exact sample_life.
  - reflexivity.
  - apply sample_platform_ok.
  - reflexivity.
  - exists opened'. split; [exact E'|]. by apply (H _ first_batch); left.
Defined.

(** C9: a database with a hole does not open.  When a store opens over an existing
    database, its watermarks are in order, and unless it is empty every sequence from the
    retention watermark to the visible one has its record and its outcome, which agree,
    with the keys of its facts, and from the validation floor on the facts themselves;
    and no other sequence record lies behind the retention watermark. *)
Theorem Open_validates o pf outcomes db opened db' :
  cf_sorted (db_meta db) -> Open o pf false outcomes db = Some (Ok opened, db') ->
  exists w, read_watermarks (db_meta db) = Ok w /\
    wm_retention w <= wm_oldest w <= wm_visible w /\
    (0 < wm_visible w < U64_MAX ->
     (forall s, Z.max 1 (wm_retention w) <= s <= wm_visible w ->
        sequence_sound db (fact_validation_floor o w) s) /\
     forall k v, cf_get k (db_meta db) = Some v -> StartsWith k kSequenceMetaPrefix = true ->
       bytes_compare k (sequence_key (Z.max 1 (wm_retention w))) <> Lt ->
       exists s, Z.max 1 (wm_retention w) <= s <= wm_visible w /\ k = sequence_key s).
Proof.
  intros Hs H. unfold Open in H. destruct (check_open_options o) as [[]|]; [|done].
  destruct (cf_get EncodeCurrentFormatKey _) as [f|]; [|done].
  destruct (_ ≫= _) as [w|] eqn:Ew; [|done]. inv_ok. exists w. split; [done|].
  destruct (read_watermarks_range _ _ Ew) as [Hr Hv]. split; [lia|]. intros Hpos.
  unfold open_loaded, load_store in H.
  destruct (check_marker _) as [[]|]; [|done]. cbn [mbind StatusOr_bind] in H.
  destruct (ValidateCommittedSequences o w db) as [[]|] eqn:Ev; [|done].
  apply validated_sound; try done; lia.
Qed.

Lemma Open_validates_witness :
  sequence_sound (cs_db (sc_store lost_sample)) 1 1.
Proof.
  destruct (open_of_Ok (Open sample_options sample_platform false (fun _ => sample_written)
    (cs_db (sc_store lost_sample)))) as (opened & db & E & _); [by vm_compute|].
  destruct (Open_validates sample_options sample_platform (fun _ => sample_written)
    (cs_db (sc_store lost_sample)) opened db) as (w & Hw & _ & H).
  - vm_compute. repeat constructor.
  - exact E.
  - assert (read_watermarks (db_meta (cs_db (sc_store lost_sample)))
            = Ok (mkWatermarks 1 0 0)) as Hw' by (vm_compute; reflexivity).
    rewrite Hw in Hw'. injection Hw' as ->.
    apply (proj1 (H (conj eq_refl eq_refl)) 1). split; discriminate.
Defined.

(** C39: an interrupted creation is final.  When the write of the first records fails and
    nothing of it is stored, the engine has created the database already: opening it
    again is refused as corruption, with any options and for ever. *)
Theorem interrupted_creation o pf outcomes :
  check_open_options o = Ok tt -> write_status (outcomes 0%nat) <> rocks_ok ->
  write_applied (outcomes 0%nat) = false ->
  exists s db, Open o pf true outcomes (mkDatabase [] []) = Some (Fail s, db) /\
    forall o' pf' outcomes', check_open_options o' = Ok tt ->
      Open o' pf' false outcomes' db
      = Some (Fail (Corruption "fact store" "missing durable format record"), db).
Proof.
  intros Ho Hs Ha. unfold Open at 1. rewrite Ho.
  change (cf_get EncodeCurrentFormatKey (db_meta (mkDatabase [] []))) with (@None (list byte)).
  cbn [negb]. unfold initialize. rewrite Ha.
  assert (forall st (failed : exists c m, st = StatusError c m),
    exists s db,
      match ((_ ← check st; Ok tt) : StatusOr unit, mkDatabase [] []) with
      | (Fail s, db) => Some (Fail s, db)
      | (Ok _, db) => open_loaded o pf true outcomes 1 (mkWatermarks 0 0 0) db
      end = Some (Fail s, db) /\
      forall o' pf' outcomes', check_open_options o' = Ok tt ->
        Open o' pf' false outcomes' db
        = Some (Fail (Corruption "fact store" "missing durable format record"), db)) as Hfail.
  { intros st (c & m & ->). cbn. do 2 eexists. split; [reflexivity|].
    intros o' pf' outcomes' Ho'. unfold Open. by rewrite Ho'. }
  assert (exists ops, initial_records = Ok ops) as [ops ->]
    by (destruct initial_records as [ops|] eqn:E; [by exists ops|by vm_compute in E]).
  destruct (write_status (outcomes 0%nat)); [done|..]; apply Hfail; by do 2 eexists.
Qed.

Lemma interrupted_creation_witness :
  exists s db, Open sample_options sample_platform true
      (fun _ => mkWriteOutcome (rocks_other "no space left") false) (mkDatabase [] [])
    = Some (Fail s, db) /\
    Open sample_options sample_platform false (fun _ => sample_written) db
    = Some (Fail (Corruption "fact store" "missing durable format record"), db).
Proof.
  destruct (interrupted_creation sample_options sample_platform
    (fun _ => mkWriteOutcome (rocks_other "no space left") false)) as (s & db & E & H).
  - reflexivity.
  - discriminate.
  - reflexivity.
  - exists s, db. split; [exact E|]. by apply H.
Defined.
