(* ===== verification/Compression.v ===== *)
(** * Compression: the codecs of projection payloads

    Models [src/query/projection/projection_compression.cc]: variable-length integers,
    the four column transforms (differences, runs, packed bits, dictionary) in both
    directions, and the two entry points with their limits.  The LZ4 block codec is a
    library: what it returns is an argument. *)

From S2P Require Import Prelude Status Wire Value.

(** ** Codecs *)

Inductive CompressionCodec :=
| kNoCodec
| kLz4
| kDelta
| kBitPacked
| kDictionary
| kRle
| kUnknownCodec (raw : Z).

Definition CompressionCodec_to_u8 (c : CompressionCodec) : Z :=
  match c with
  | kNoCodec => 0
  | kLz4 => 1
  | kDelta => 2
  | kBitPacked => 3
  | kDictionary => 4
  | kRle => 5
  | kUnknownCodec raw => raw
  end.

Definition CompressionCodec_of_u8 (raw : Z) : CompressionCodec :=
  if raw =? 0 then kNoCodec
  else if raw =? 1 then kLz4
  else if raw =? 2 then kDelta
  else if raw =? 3 then kBitPacked
  else if raw =? 4 then kDictionary
  else if raw =? 5 then kRle
  else kUnknownCodec raw.

(** ** Variable-length integers *)

(** Ten rounds write any 64-bit value ([PutVarint_at]). *)
Fixpoint put_varint (fuel : nat) (value : Z) : list byte :=
  match fuel with
  | O => []
  | S fuel' =>
      if 0x80 <=? value then
        z2b (Z.lor value 0x80) :: put_varint fuel' (Z.shiftr value 7)
      else [z2b value]
  end.

Definition PutVarint (value : Z) : list byte := put_varint 10 value.

(** The loop from [shift] on; shifts above 63 end it. *)
Fixpoint get_varint (rounds : nat) (shift result : Z) (input : list byte) (at_ : nat)
  : option (Z * nat) :=
  match rounds with
  | O => None
  | S rounds' =>
      if (length input <=? at_)%nat then None
      else
        let byte := byte_at input at_ in
        if (shift =? 63) && (1 <? byte) then None
        else
          let result := Z.lor result (Z.shiftl (Z.land byte 0x7f) shift) in
          if Z.land byte 0x80 =? 0 then Some (result, S at_)
          else get_varint rounds' (shift + 7) result input (S at_)
  end.

Definition GetVarint (input : list byte) (at_ : nat) : option (Z * nat) :=
  get_varint 10 0 0 input at_.

(** ** Encoding *)

Fixpoint delta_encode (previous : Z) (input : list byte) : list byte :=
  match input with
  | [] => []
  | byte :: input' => z2b (b2z byte - previous) :: delta_encode (b2z byte) input'
  end.

(** [while (j < size && input[j] == input[i]) ++j]. *)
Fixpoint run_length `{EqDecision A} (b : A) (input : list A) : nat :=
  match input with
  | next :: input' => if bool_decide (next = b) then S (run_length b input') else O
  | [] => O
  end.

(** A round per run, so the bytes of the input are enough. *)
Fixpoint rle_encode (fuel : nat) (input : list byte) : list byte :=
  match fuel, input with
  | S fuel', byte :: input' =>
      let more := run_length byte input' in
      byte :: PutVarint (Z.of_nat (S more)) ++ rle_encode fuel' (drop more input')
  | _, _ => []
  end.

(** [for (value = byte; value != 0; value >>= 1) ++bits] for eight bits. *)
Fixpoint bit_width (fuel : nat) (value : Z) : Z :=
  match fuel with
  | O => 0
  | S fuel' => if value =? 0 then 0 else 1 + bit_width fuel' (Z.shiftr value 1)
  end.

Definition packed_width (input : list byte) : Z :=
  fold_left (fun width byte => Z.max width (bit_width 8 (b2z byte))) input 0.

(** [while (used >= 8)]: the pending bits are fewer than sixteen, so one round is
    enough. *)
Definition flush_byte (bits used : Z) : list byte * Z * Z :=
  if 8 <=? used then ([z2b (Z.land bits 0xff)], Z.shiftr bits 8, used - 8)
  else ([], bits, used).

Fixpoint pack_bits (width bits used : Z) (input : list byte) : list byte :=
  match input with
  | [] => if used =? 0 then [] else [z2b (Z.land bits 0xff)]
  | byte :: input' =>
      let bits := Z.lor bits (Z.shiftl (b2z byte) used) in
      let '(out, bits, used) := flush_byte bits (used + width) in
      out ++ pack_bits width bits used input'
  end.

(** The place of an entry in the dictionary, which the code keeps in [index]. *)
Fixpoint dictionary_index `{EqDecision A} (dictionary : list A) (b : A) : option nat :=
  match dictionary with
  | [] => None
  | entry :: dictionary' =>
      if bool_decide (entry = b) then Some O
      else S <$> dictionary_index dictionary' b
  end.

Definition add_entry `{EqDecision A} (dictionary : list A) (b : A) : list A :=
  match dictionary_index dictionary b with
  | Some _ => dictionary
  | None => dictionary ++ [b]
  end.

Definition build_dictionary `{EqDecision A} (input : list A) : list A :=
  fold_left add_entry input [].

Definition index_of `{EqDecision A} (dictionary : list A) (b : A) : Z :=
  match dictionary_index dictionary b with Some i => Z.of_nat i | None => -1 end.

Definition TransformEncode (codec : CompressionCodec) (input : list byte)
  : StatusOr (list byte) :=
  let size := PutVarint (Z.of_nat (length input)) in
  match codec with
  | kDelta => Ok (size ++ delta_encode 0 input)
  | kRle => Ok (size ++ rle_encode (length input) input)
  | kBitPacked =>
      let width := packed_width input in
      Ok (size ++ z2b width :: pack_bits width 0 0 input)
  | kDictionary =>
      let dictionary := build_dictionary input in
      Ok (size ++ PutVarint (Z.of_nat (length dictionary)) ++ dictionary
          ++ mjoin ((fun byte => PutVarint (index_of dictionary byte)) <$> input))
  | _ => Fail (NotSupported "projection" "unknown transform codec")
  end.

(** ** Decoding *)

Definition corrupt (message : string) : Status := Corruption "projection" message.

Definition over_budget : Status :=
  ResourceExhausted "projection" "decoded bytes exceed budget".

Fixpoint delta_decode (previous : Z) (input : list byte) : list byte :=
  match input with
  | [] => []
  | byte :: input' =>
      let previous := wrap 8 (previous + b2z byte) in
      z2b previous :: delta_decode previous input'
  end.

(** [missing] bytes are still to come.  Every round reads two bytes at least, so a round
    per byte of the input is enough ([rle_decode_fuel]). *)
Fixpoint rle_decode (fuel : nat) (input : list byte) (at_ : nat) (missing : Z)
    (out : list byte) : StatusOr (list byte * nat) :=
  match fuel with
  | O => Fail (corrupt "RLE payload truncated")
  | S fuel' =>
      if missing =? 0 then Ok (out, at_)
      else if (length input <=? at_)%nat then Fail (corrupt "RLE payload truncated")
      else
        match GetVarint input (S at_) with
        | None => Fail (corrupt "invalid RLE run")
        | Some (run, at') =>
            if (run =? 0) || (missing <? run) then Fail (corrupt "invalid RLE run")
            else
              rle_decode fuel' input at' (missing - run)
                (out ++ replicate (Z.to_nat run) (z2b (byte_at input at_)))
        end
  end.

(** [while (used < width)]: a byte is enough for any width. *)
Fixpoint unpack_bits (count : nat) (width bits used : Z) (input : list byte) (at_ : nat)
    (out : list byte) : StatusOr (list byte * nat) :=
  match count with
  | O => Ok (out, at_)
  | S count' =>
      '(bits, used, at_) ←
        (if used <? width then
           if (length input <=? at_)%nat then Fail (corrupt "bit-packed payload truncated")
           else Ok (Z.lor bits (Z.shiftl (byte_at input at_) used), used + 8, S at_)
         else Ok (bits, used, at_));
      let value := if width =? 0 then 0 else Z.land bits (Z.shiftl 1 width - 1) in
      unpack_bits count' width (Z.shiftr bits width) (used - width) input at_
        (out ++ [z2b value])
  end.

Fixpoint lookup_indices (count : nat) (dictionary_size : Z) (dict_at : nat)
    (input : list byte) (at_ : nat) (out : list byte) : StatusOr (list byte * nat) :=
  match count with
  | O => Ok (out, at_)
  | S count' =>
      match GetVarint input at_ with
      | Some (index, at') =>
          if dictionary_size <=? index then Fail (corrupt "invalid dictionary index")
          else lookup_indices count' dictionary_size dict_at input at'
                 (out ++ [z2b (byte_at input (dict_at + Z.to_nat index))])
      | None => Fail (corrupt "invalid dictionary index")
      end
  end.

(** [at != input.size()] at the end. *)
Definition consumed (input : list byte) (message : string) (r : list byte * nat)
  : StatusOr (list byte) :=
  _ ← require (r.2 =? length input)%nat (corrupt message);
  Ok r.1.

Definition decode_bit_packed (input : list byte) (at_ : nat) (count : Z)
  : StatusOr (list byte) :=
  _ ← require (at_ <? length input)%nat (corrupt "bit-packed payload truncated");
  let width := byte_at input at_ in
  let at_ := S at_ in
  _ ← require (width <=? 8) (corrupt "invalid bit width");
  _ ← require (negb (negb (width =? 0) && ((U64_MAX - 7) / width <? count)))
        (ResourceExhausted "projection" "bit-packed size overflow");
  let bytes := (count * width + 7) / 8 in
  _ ← require (bytes =? Z.of_nat (length input - at_)) (corrupt "bit-packed length mismatch");
  '(out, _) ← unpack_bits (Z.to_nat count) width 0 0 input at_ [];
  Ok out.

Definition decode_dictionary (input : list byte) (at_ : nat) (count : Z)
  : StatusOr (list byte) :=
  '(dictionary_size, dict_at) ← from_option (GetVarint input at_) (corrupt "invalid dictionary");
  _ ← require (negb ((256 <? dictionary_size)
                     || (Z.of_nat (length input - dict_at) <? dictionary_size)))
        (corrupt "invalid dictionary");
  r ← lookup_indices (Z.to_nat count) dictionary_size dict_at input
        (dict_at + Z.to_nat dictionary_size) [];
  consumed input "dictionary trailing bytes" r.

Definition TransformDecode (codec : CompressionCodec) (input : list byte) (limit : Z)
  : StatusOr (list byte) :=
  '(count, at_) ← from_option (GetVarint input 0) (corrupt "invalid length varint");
  _ ← require (count <=? limit) over_budget;
  match codec with
  | kDelta =>
      _ ← require (count <=? Z.of_nat (length input - at_)) (corrupt "delta payload truncated");
      consumed input "delta payload trailing bytes"
        (delta_decode 0 (take (Z.to_nat count) (drop at_ input)), (at_ + Z.to_nat count)%nat)
  | kRle =>
      r ← rle_decode (S (length input)) input at_ count [];
      consumed input "RLE payload trailing bytes" r
  | kBitPacked => decode_bit_packed input at_ count
  | kDictionary => decode_dictionary input at_ count
  | _ => Fail (NotSupported "projection" "unknown transform codec")
  end.

(** ** Entry points *)

Definition INT_MAX : Z := 2147483647.

(** [LZ4_compressBound], [LZ4_compress_default] into a buffer of that many bytes, and
    [LZ4_decompress_safe] with a capacity: the result of the call and what it wrote. *)
Record Lz4 := mkLz4 {
  LZ4_compressBound : Z -> Z;
  LZ4_compress_default : list byte -> Z -> Z * list byte;
  LZ4_decompress_safe : list byte -> Z -> Z * list byte
}.

(** [output.resize(n)] of a buffer that starts with the written bytes. *)
Definition resized (written : list byte) (n : Z) : list byte :=
  take (Z.to_nat n) (written ++ replicate (Z.to_nat n - length written) (z2b 0)).

Definition CompressProjectionPayload (lz4 : Lz4) (codec : CompressionCodec)
    (input : list byte) : StatusOr (list byte) :=
  let size := Z.of_nat (length input) in
  if CompressionCodec_to_u8 codec =? 0 then Ok input
  else if 2 <=? CompressionCodec_to_u8 codec then TransformEncode codec input
  else
    _ ← require (size <=? INT_MAX)
          (ResourceExhausted "projection" "payload exceeds LZ4 limit");
    let bound := LZ4_compressBound lz4 size in
    _ ← require (0 <? bound)
          (ResourceExhausted "projection" "LZ4 compression bound overflow");
    let '(encoded, output) := LZ4_compress_default lz4 input bound in
    _ ← require (0 <? encoded) (corrupt "LZ4 compression failed");
    Ok (resized output encoded).

Definition DecompressProjectionPayload (lz4 : Lz4) (codec : CompressionCodec)
    (input : list byte) (limit : Z) : StatusOr (list byte) :=
  let size := Z.of_nat (length input) in
  if CompressionCodec_to_u8 codec =? 0 then
    _ ← require (size <=? limit) over_budget;
    Ok input
  else if 2 <=? CompressionCodec_to_u8 codec then TransformDecode codec input limit
  else
    _ ← require (limit <=? INT_MAX)
          (InvalidArgument "projection" "decode budget exceeds LZ4 limit");
    _ ← require (size <=? INT_MAX)
          (ResourceExhausted "projection" "compressed payload exceeds LZ4 limit");
    let '(decoded, output) := LZ4_decompress_safe lz4 input limit in
    _ ← require (0 <=? decoded) (corrupt "LZ4 payload corrupt");
    Ok (resized output decoded).

(** ** Specification *)

(** A list of numbers below [2 ^ width], least first. *)
Fixpoint packed (width : Z) (values : list Z) : Z :=
  match values with
  | [] => 0
  | v :: values' => v + 2 ^ width * packed width values'
  end.

(** What the documentation of LZ4 promises for inputs of up to its maximum size. *)
Definition LZ4_MAX_INPUT_SIZE : Z := 0x7E000000.

Definition lz4_ok (lz4 : Lz4) : Prop :=
  (forall n, LZ4_MAX_INPUT_SIZE < n -> LZ4_compressBound lz4 n <= 0) /\
  forall input, Z.of_nat (length input) <= LZ4_MAX_INPUT_SIZE ->
    let bound := LZ4_compressBound lz4 (Z.of_nat (length input)) in
    let r := LZ4_compress_default lz4 input bound in
    0 < bound /\ 0 < r.1 <= INT_MAX /\ r.1 = Z.of_nat (length r.2) /\
    forall capacity, Z.of_nat (length input) <= capacity <= INT_MAX ->
      LZ4_decompress_safe lz4 r.2 capacity = (Z.of_nat (length input), input).

(** An external codec that only copies behind a first byte. *)
Definition copy_lz4 : Lz4 :=
  mkLz4 (fun n => if n <=? LZ4_MAX_INPUT_SIZE then n + 1 else 0)
    (fun input _ => (Z.of_nat (length input) + 1, z2b 0 :: input))
    (fun input capacity =>
       if Z.of_nat (length (tail input)) <=? capacity
       then (Z.of_nat (length (tail input)), tail input) else (-1, [])).

(** ** Lemmas on variable-length integers *)

Lemma land_127 v : Z.land v 0x7f = v mod 128.
Proof. change 0x7f with (Z.ones 7). by rewrite Z.land_ones. Qed.

Lemma continued_byte v :
  Z.land (b2z (z2b (Z.lor v 0x80))) 0x7f = v mod 128 /\
  Z.land (b2z (z2b (Z.lor v 0x80))) 0x80 <> 0.
Proof.
  rewrite b2z_z2b. change 256 with (2 ^ 8). rewrite <- Z.land_ones by lia. split.
  - change 0x7f with (Z.ones 7). change 128 with (2 ^ 7) at 2.
    rewrite <- (Z.land_ones v) by lia. apply Z.bits_inj'. intros n Hn.
    rewrite !Z.land_spec, Z.lor_spec, !Z.testbit_ones_nonneg by lia.
    destruct (Z.ltb_spec n 7); [|by rewrite !andb_false_r].
    rewrite (proj2 (Z.ltb_lt n 8)) by lia. rewrite !andb_true_r.
    change 0x80 with (2 ^ 7). by rewrite Z.pow2_bits_false, orb_false_r by lia.
  - intros H. apply (f_equal (fun z => Z.testbit z 7)) in H.
    by rewrite !Z.land_spec, Z.lor_spec, orb_true_r in H.
Qed.

Lemma last_byte v : 0 <= v < 128 -> Z.land v 0x80 = 0.
Proof.
  intros H. apply Z.bits_inj'. intros n Hn. rewrite Z.land_spec, Z.bits_0.
  change 0x80 with (2 ^ 7). destruct (decide (n = 7)) as [->|Hne].
  - rewrite (proj2 (Z.testbit_false v 7 ltac:(lia))); [done|].
    by rewrite Z.div_small by lia.
  - by rewrite Z.pow2_bits_false, andb_false_r by lia.
Qed.

Lemma get_put_varint k fuel v result input o rest :
  (k + fuel = 10)%nat -> 0 <= v -> v * 2 ^ (7 * Z.of_nat k) < 2 ^ 64 ->
  uint (7 * Z.of_nat k) result -> (0 < fuel)%nat ->
  suffix_at input o (put_varint fuel v ++ rest) ->
  get_varint fuel (7 * Z.of_nat k) result input o
    = Some (result + v * 2 ^ (7 * Z.of_nat k), (o + length (put_varint fuel v))%nat) /\
  suffix_at input (o + length (put_varint fuel v)) rest.
Proof.
  revert k v result o. induction fuel as [|fuel IH]; intros k v result o Hk Hv Hb Hr Hf H; [lia|].
  cbn [put_varint get_varint] in *.
  destruct (Z.leb_spec 0x80 v) as [Hge|Hlt].
  - assert (k <= 8)%nat as Hk8.
    { destruct (decide (k <= 8)%nat) as [|Hn]; [done|]. exfalso.
      assert (k = 9)%nat as -> by lia. change (2 ^ (7 * Z.of_nat 9)) with (2 ^ 63) in Hb. lia. }
    cbn [app] in H. pose proof (suffix_at_length _ _ _ H) as Hl. rewrite length_cons in Hl.
    rewrite (proj2 (Nat.leb_gt _ _)) by lia.
    rewrite (byte_at_suffix _ _ _ _ H).
    destruct (continued_byte v) as [E1 E2]. rewrite E1, (proj2 (Z.eqb_neq _ _) E2).
    rewrite (proj2 (Z.eqb_neq _ _)) by lia. cbn [andb].
    rewrite lor_disjoint_add by (done || lia).
    rewrite Z.shiftr_div_pow2 in * by lia. change (2 ^ 7) with 128 in *.
    assert (2 ^ (7 * Z.of_nat (S k)) = 2 ^ (7 * Z.of_nat k) * 128) as Ep.
    { replace (7 * Z.of_nat (S k)) with (7 * Z.of_nat k + 7) by lia. by rewrite Z.pow_add_r by lia. }
    pose proof (Z.mod_pos_bound v 128 ltac:(lia)) as Hm. pose proof (Z.div_mod v 128 ltac:(lia)) as Hd.
    pose proof (Z.pow_pos_nonneg 2 (7 * Z.of_nat k) ltac:(lia) ltac:(lia)) as Hp.
    destruct (IH (S k) (v / 128) (result + v mod 128 * 2 ^ (7 * Z.of_nat k)) (S o)) as [E Hs].
    + lia.
    + by apply Z.div_pos.
    + rewrite Ep. nia.
    + unfold uint in *. rewrite Ep. nia.
    + lia.
    + by apply suffix_at_next in H.
    + replace (7 * Z.of_nat k + 7) with (7 * Z.of_nat (S k)) by lia. rewrite E, length_cons.
      split; [|by rewrite <- Nat.add_succ_comm].
      f_equal. f_equal; [|lia]. rewrite Ep. nia.
  - cbn [app] in H. pose proof (suffix_at_length _ _ _ H) as Hl. rewrite length_cons in Hl.
    rewrite (proj2 (Nat.leb_gt _ _)) by lia. rewrite (byte_at_suffix _ _ _ _ H).
    rewrite b2z_z2b_uint by (unfold uint; cbn; lia).
    assert ((7 * Z.of_nat k =? 63) && (1 <? v) = false) as ->.
    { apply andb_false_iff. destruct (Z.eqb_spec (7 * Z.of_nat k) 63) as [E|]; [right|by left].
      rewrite E in Hb. apply Z.ltb_ge. lia. }
    rewrite last_byte, land_127, Z.mod_small by lia. cbn [Z.eqb].
    rewrite lor_disjoint_add by (done || lia). cbn [length].
    split; [by rewrite Nat.add_1_r|]. apply suffix_at_next in H. by rewrite Nat.add_1_r.
Qed.

Lemma PutVarint_at v input o rest :
  uint 64 v -> suffix_at input o (PutVarint v ++ rest) ->
  GetVarint input o = Some (v, (o + length (PutVarint v))%nat) /\
  suffix_at input (o + length (PutVarint v)) rest.
Proof.
  intros [Hv Hb] H. unfold GetVarint, PutVarint in *.
  destruct (get_put_varint 0 10 v 0 input o rest) as [E Hs]; try done; try lia.
  change (7 * Z.of_nat 0) with 0 in E. by rewrite Z.add_0_l, Z.mul_1_r in E.
Qed.

Lemma PutVarint_length v : (1 <= length (PutVarint v))%nat.
Proof. unfold PutVarint. cbn [put_varint]. destruct (_ <=? v); cbn; lia. Qed.

(** ** Differences *)

Lemma delta_decode_encode previous input :
  uint 8 previous -> delta_decode previous (delta_encode previous input) = input.
Proof.
  revert previous. induction input as [|b input IH]; intros previous Hp; [done|].
  cbn [delta_encode delta_decode].
  assert (wrap 8 (previous + b2z (z2b (b2z b - previous))) = b2z b) as ->.
  { rewrite b2z_z2b. unfold wrap. change (2 ^ 8) with 256. pose proof (b2z_range b).
    rewrite Zplus_mod_idemp_r. rewrite Z.mod_small; lia. }
  rewrite z2b_b2z, IH; [done|]. pose proof (b2z_range b). unfold uint. cbn. lia.
Qed.

Lemma length_delta_encode previous input : length (delta_encode previous input) = length input.
Proof. revert previous. induction input as [|b input IH]; intros; cbn; auto. Qed.

(** ** Runs *)

Lemma run_length_spec `{EqDecision A} (b : A) input :
  (run_length b input <= length input)%nat /\
  input = replicate (run_length b input) b ++ drop (run_length b input) input.
Proof.
  induction input as [|c input [IH1 IH2]]; [done|]. cbn [run_length].
  case_bool_decide as E; [|by split; [cbn; lia|]]. subst c. split; [cbn; lia|].
  cbn. by rewrite <- IH2.
Qed.

Lemma rle_decode_at fuel fuel' data input o out rest :
  (length data <= fuel)%nat -> (length data < fuel')%nat ->
  Z.of_nat (length data) < 2 ^ 64 ->
  suffix_at input o (rle_encode fuel data ++ rest) ->
  rle_decode fuel' input o (Z.of_nat (length data)) out
    = Ok (out ++ data, (o + length (rle_encode fuel data))%nat).
Proof.
  revert fuel' data o out. induction fuel as [|fuel IH]; intros fuel' data o out Hf Hf' Hb H.
  { destruct data; [|cbn in Hf; lia]. destruct fuel'; [lia|]. cbn. by rewrite app_nil_r, Nat.add_0_r. }
  destruct data as [|b data].
  { destruct fuel'; [cbn in *; lia|]. cbn. by rewrite app_nil_r, Nat.add_0_r. }
  destruct fuel' as [|fuel']; [lia|]. cbn [rle_encode] in *.
  destruct (run_length_spec b data) as [Hrun Hdata].
  set (more := run_length b data) in *. rewrite length_cons in *.
  cbn [app] in H. rewrite <- app_assoc in H.
  pose proof (suffix_at_length _ _ _ H) as Hl. rewrite length_cons in Hl.
  cbn [rle_decode]. rewrite (proj2 (Z.eqb_neq _ _)) by lia.
  rewrite (proj2 (Nat.leb_gt _ _)) by lia.
  rewrite (byte_at_suffix _ _ _ _ H), z2b_b2z. apply suffix_at_next in H.
  apply PutVarint_at in H as [-> H]; [|unfold uint; lia].
  rewrite (proj2 (Z.eqb_neq _ _)) by lia. cbn [orb].
  rewrite (proj2 (Z.ltb_ge _ _)) by lia.
  replace (Z.of_nat (S (length data)) - Z.of_nat (S more))
    with (Z.of_nat (length (drop more data))) by (rewrite length_drop; lia).
  rewrite IH; [|rewrite length_drop; lia..|done].
  f_equal. f_equal; [|cbn [length]; rewrite length_app; lia].
  rewrite Nat2Z.id, <- app_assoc. cbn. by rewrite <- Hdata.
Qed.

(** More fuel than that changes nothing. *)
Lemma GetVarint_later input o v o' :
  GetVarint input o = Some (v, o') -> (o < o' <= length input)%nat.
Proof.
  unfold GetVarint.
  enough (forall rounds shift result o, get_varint rounds shift result input o = Some (v, o') ->
    (o < o' <= length input)%nat) as Hgen by apply Hgen.
  clear o. induction rounds as [|rounds IH]; intros shift result o H; [done|].
  cbn [get_varint] in H. destruct (Nat.leb_spec (length input) o); [done|].
  destruct (_ && _); [done|].
  destruct (_ =? 0); [injection H as <- <-; lia|]. apply IH in H. lia.
Qed.

Lemma rle_decode_fuel fuel fuel' input o missing out :
  (o <= length input)%nat -> (length input < fuel + o)%nat -> (length input < fuel' + o)%nat ->
  rle_decode fuel input o missing out = rle_decode fuel' input o missing out.
Proof.
  revert fuel' o missing out. induction fuel as [|fuel IH]; intros fuel' o missing out Ho H H'; [lia|].
  destruct fuel' as [|fuel']; [lia|]. cbn [rle_decode].
  destruct (missing =? 0); [done|]. destruct (_ <=? _)%nat; [done|].
  destruct (GetVarint input (S o)) as [[run o']|] eqn:E; [|done].
  destruct (_ || _); [done|]. apply GetVarint_later in E. apply IH; lia.
Qed.

(** ** Packed bits *)

Lemma packed_range width values :
  0 <= width -> Forall (uint width) values ->
  0 <= packed width values < 2 ^ (width * Z.of_nat (length values)).
Proof.
  intros Hw. induction 1 as [|v values [Hv1 Hv2] _ IH]; [cbn; rewrite Z.mul_0_r; cbn; lia|].
  cbn [packed]. rewrite length_cons.
  replace (width * Z.of_nat (S (length values)))
    with (width + width * Z.of_nat (length values)) by lia.
  rewrite Z.pow_add_r by lia. nia.
Qed.

(** What the encoder writes is the packed number, byte by byte. *)
Lemma pack_bits_value width bits used input :
  0 <= width <= 8 -> Forall (fun b => uint width (b2z b)) input ->
  uint used bits -> 0 <= used < 8 ->
  let out := pack_bits width bits used input in
  packed 8 (b2z <$> out) = bits + 2 ^ used * packed width (b2z <$> input) /\
  Z.of_nat (length out) = (used + width * Z.of_nat (length input) + 7) / 8.
Proof.
  intros Hw Hin. revert bits used. induction Hin as [|b input Hb _ IH]; intros bits used Hbits Hused.
  - cbn [pack_bits fmap list_fmap packed length].
    change (Z.of_nat 0) with 0. rewrite !Z.mul_0_r.
    destruct (Z.eqb_spec used 0) as [->|Hne].
    + unfold uint in Hbits. cbn in Hbits. split; [cbn; lia|done].
    + cbn [length fmap list_fmap packed]. rewrite b2z_z2b.
      change 0xff with (Z.ones 8). rewrite Z.land_ones by lia. change (2 ^ 8) with 256.
      rewrite Z.mod_mod by lia.
      assert (2 ^ used <= 2 ^ 8) by (apply Z.pow_le_mono_r; lia).
      unfold uint in Hbits. rewrite Z.mod_small by (change (2 ^ 8) with 256 in *; lia).
      split; [lia|]. apply Z.div_unique with (used + 7 - 8); lia.
  - cbn [pack_bits]. rewrite lor_disjoint_add by (done || lia).
    set (bits1 := bits + b2z b * 2 ^ used).
    assert (uint (used + width) bits1) as Hb1.
    { unfold uint, bits1 in *. rewrite Z.pow_add_r by lia. nia. }
    rewrite fmap_cons. cbn [packed length]. unfold flush_byte.
    destruct (Z.leb_spec 8 (used + width)) as [Hge|Hlt].
    + change 0xff with (Z.ones 8). rewrite Z.land_ones, Z.shiftr_div_pow2 by lia.
      change (2 ^ 8) with 256.
      assert (uint (used + width - 8) (bits1 / 256)) as Hb2.
      { unfold uint in *. replace (used + width) with (8 + (used + width - 8)) in Hb1 by lia.
        rewrite Z.pow_add_r in Hb1 by lia. change (2 ^ 8) with 256 in Hb1.
        split; [apply Z.div_pos; lia|]. apply Z.div_lt_upper_bound; lia. }
      destruct (IH (bits1 / 256) (used + width - 8) Hb2 ltac:(lia)) as [E1 E2].
      cbn [app]. rewrite fmap_cons. cbn [packed length]. rewrite b2z_z2b, Z.mod_mod by lia.
      rewrite E1. change (2 ^ 8) with 256.
      pose proof (Z.div_mod bits1 256 ltac:(lia)) as Hd.
      assert (2 ^ used * 2 ^ width = 256 * 2 ^ (used + width - 8)) as Ep.
      { rewrite <- Z.pow_add_r by lia. change 256 with (2 ^ 8). rewrite <- Z.pow_add_r by lia.
        f_equal. lia. }
      split.
      * unfold bits1 in *. nia.
      * rewrite Nat2Z.inj_succ, E2.
        replace (used + width - 8 + width * Z.of_nat (length input) + 7)
          with (used + width * Z.of_nat (S (length input)) + 7 + (-1) * 8) by lia.
        rewrite Z.div_add by lia. lia.
    + cbn [app]. destruct (IH bits1 (used + width) Hb1 ltac:(lia)) as [E1 E2]. split.
      * rewrite E1, Z.pow_add_r by lia. unfold bits1. nia.
      * rewrite E2. f_equal. lia.
Qed.

(** One value is taken from the bits that are there. *)
Lemma take_value width bits used rest v values :
  0 <= width -> width <= used -> uint used bits -> uint width v -> 0 <= rest ->
  bits + 2 ^ used * rest = v + 2 ^ width * values ->
  (if width =? 0 then 0 else Z.land bits (Z.shiftl 1 width - 1)) = v /\
  uint (used - width) (Z.shiftr bits width) /\
  Z.shiftr bits width + 2 ^ (used - width) * rest = values.
Proof.
  intros Hw Hle Hb Hv Hr E. rewrite Z.shiftl_1_l, Z.shiftr_div_pow2 by lia.
  replace (2 ^ width - 1) with (Z.ones width) by (rewrite Z.ones_equiv; lia).
  rewrite Z.land_ones by lia.
  assert (2 ^ used = 2 ^ width * 2 ^ (used - width)) as Ep
    by (rewrite <- Z.pow_add_r by lia; f_equal; lia).
  pose proof (Z.pow_pos_nonneg 2 width ltac:(lia) Hw) as Hp.
  pose proof (Z.div_mod bits (2 ^ width) ltac:(lia)) as Hd.
  pose proof (Z.mod_pos_bound bits (2 ^ width) Hp) as Hm.
  assert (bits mod 2 ^ width = v /\ bits / 2 ^ width + 2 ^ (used - width) * rest = values)
    as [E1 E2].
  { destruct (Z.div_mod_unique (2 ^ width) (bits / 2 ^ width + 2 ^ (used - width) * rest)
      values (bits mod 2 ^ width) v); [by left|by left|rewrite Ep in E; nia|done]. }
  split_and!; [|unfold uint in *|done].
  - destruct (Z.eqb_spec width 0) as [->|]; [|done]. unfold uint in Hv. cbn in Hv. lia.
  - rewrite Ep in Hb. split; [apply Z.div_pos; lia|]. by apply Z.div_lt_upper_bound; lia.
Qed.

Lemma unpack_bits_at width data bits used input o bytes out :
  0 <= width <= 8 -> Forall (fun b => uint width (b2z b)) data ->
  uint used bits -> 0 <= used < 8 -> suffix_at input o bytes ->
  bits + 2 ^ used * packed 8 (b2z <$> bytes) = packed width (b2z <$> data) ->
  width * Z.of_nat (length data) <= used + 8 * Z.of_nat (length bytes) ->
  exists o', unpack_bits (length data) width bits used input o out = Ok (out ++ data, o').
Proof.
  intros Hw Hdata. revert bits used o bytes out.
  induction Hdata as [|b data Hb _ IH]; intros bits used o bytes out Hbits Hused Hs E Hlen.
  { exists o. cbn. by rewrite app_nil_r. }
  rewrite fmap_cons in E. cbn [length packed] in *.
  assert (exists bits1 used1 o1 bytes1,
    (if used <? width then
       if (length input <=? o)%nat then Fail (corrupt "bit-packed payload truncated")
       else Ok (Z.lor bits (Z.shiftl (byte_at input o) used), used + 8, S o)
     else Ok (bits, used, o)) = Ok (bits1, used1, o1) /\
    width <= used1 < width + 8 /\ uint used1 bits1 /\ suffix_at input o1 bytes1 /\
    bits1 + 2 ^ used1 * packed 8 (b2z <$> bytes1)
      = b2z b + 2 ^ width * packed width (b2z <$> data) /\
    width * Z.of_nat (S (length data)) <= used1 + 8 * Z.of_nat (length bytes1))
    as (bits1 & used1 & o1 & bytes1 & E1 & Hu1 & Hb1 & Hs1 & Ev & Hl1).
  { destruct (Z.ltb_spec used width) as [Hlt|Hge].
    - destruct bytes as [|c bytes]; [cbn [length] in Hlen; lia|].
      pose proof (suffix_at_length _ _ _ Hs) as Hl. rewrite length_cons in Hl.
      rewrite (proj2 (Nat.leb_gt _ _)) by lia. rewrite (byte_at_suffix _ _ _ _ Hs).
      rewrite lor_disjoint_add by (done || lia). do 4 eexists. split; [done|].
      pose proof (b2z_range c). rewrite fmap_cons in E. cbn [packed length] in *.
      split; [lia|]. split; [|split; [by apply suffix_at_next in Hs|split; [|lia]]].
      + unfold uint in *. rewrite Z.pow_add_r by lia. change (2 ^ 8) with 256. nia.
      + rewrite <- E, Z.pow_add_r by lia. change (2 ^ 8) with 256. lia.
    - exists bits, used, o, bytes. split_and!; try done; lia. }
  cbn [unpack_bits]. rewrite E1. cbn [mbind StatusOr_bind].
  assert (0 <= packed 8 (b2z <$> bytes1)) as Hp.
  { apply packed_range; [lia|]. apply Forall_fmap, Forall_forall. intros c _.
    pose proof (b2z_range c). unfold uint. cbn. lia. }
  destruct (take_value width bits1 used1 _ _ _ ltac:(lia) ltac:(lia) Hb1 Hb Hp Ev)
    as (-> & Hb2 & E2).
  rewrite z2b_b2z.
  destruct (IH (Z.shiftr bits1 width) (used1 - width) o1 bytes1 (out ++ [b])) as [o' ->];
    try done; [lia..|].
  exists o'. by rewrite <- app_assoc.
Qed.

Lemma bit_width_spec fuel v :
  0 <= v < 2 ^ Z.of_nat fuel -> 0 <= bit_width fuel v <= Z.of_nat fuel /\ v < 2 ^ bit_width fuel v.
Proof.
  revert v. induction fuel as [|fuel IH]; intros v Hv; [cbn in *; lia|].
  cbn [bit_width]. destruct (Z.eqb_spec v 0) as [->|Hne]; [cbn; lia|].
  rewrite Z.shiftr_div_pow2 by lia. change (2 ^ 1) with 2.
  rewrite Nat2Z.inj_succ, Z.pow_succ_r in Hv by lia.
  destruct (IH (v / 2)) as [H1 H2].
  { split; [apply Z.div_pos; lia|]. apply Z.div_lt_upper_bound; lia. }
  rewrite Z.pow_add_r by lia. change (2 ^ 1) with 2.
  pose proof (Z.div_mod v 2 ltac:(lia)). pose proof (Z.mod_pos_bound v 2 ltac:(lia)). lia.
Qed.

Lemma packed_width_spec input :
  0 <= packed_width input <= 8 /\ Forall (fun b => uint (packed_width input) (b2z b)) input.
Proof.
  assert (forall w, 0 <= w <= 8 ->
    let w' := fold_left (fun width b => Z.max width (bit_width 8 (b2z b))) input w in
    w <= w' <= 8 /\ Forall (fun b => uint w' (b2z b)) input) as H.
  { induction input as [|b input IH]; intros w Hw; [cbn; split; [lia|constructor]|].
    cbn [fold_left]. pose proof (b2z_range b) as Hr.
    destruct (bit_width_spec 8 (b2z b)) as [H1 H2]; [cbn; lia|].
    destruct (IH (Z.max w (bit_width 8 (b2z b))) ltac:(lia)) as [H3 H4].
    split; [lia|]. constructor; [|done]. unfold uint. split; [lia|].
    eapply Z.lt_le_trans; [exact H2|]. apply Z.pow_le_mono_r; lia. }
  exact (H 0 ltac:(lia)).
Qed.

(** ** Dictionaries *)

Lemma dictionary_index_spec `{EqDecision A} (dictionary : list A) b i :
  dictionary_index dictionary b = Some i -> dictionary !! i = Some b.
Proof.
  revert i. induction dictionary as [|c dictionary IH]; intros i H; [done|]. cbn in H.
  case_bool_decide as E; [by injection H as <-; subst|].
  destruct (dictionary_index dictionary b) as [j|]; [|done]. injection H as <-. by apply IH.
Qed.

Lemma dictionary_index_elem `{EqDecision A} (dictionary : list A) b :
  b ∈ dictionary <-> is_Some (dictionary_index dictionary b).
Proof.
  induction dictionary as [|c dictionary IH].
  { split; [by intros ?%not_elem_of_nil|by intros [? ?]]. }
  rewrite elem_of_cons, IH. cbn. case_bool_decide as E; [subst; by split; [eauto|left]|].
  split.
  - intros [->|[j ->]]; [done|]. by eexists.
  - intros [j Hj]. right. by destruct (dictionary_index dictionary b).
Qed.

Lemma build_dictionary_spec `{EqDecision A} (input : list A) :
  NoDup (build_dictionary input) /\ forall b, b ∈ input -> b ∈ build_dictionary input.
Proof.
  unfold build_dictionary.
  enough (forall dictionary, NoDup dictionary ->
    let d := fold_left add_entry input dictionary in
    NoDup d /\ (forall b, b ∈ dictionary -> b ∈ d) /\ forall b, b ∈ input -> b ∈ d) as H.
  { destruct (H [] (NoDup_nil_2)) as (? & _ & ?). done. }
  induction input as [|c input IH]; intros dictionary Hd.
  { split; [done|]. split; [done|]. by intros b ?%not_elem_of_nil. }
  cbn [fold_left].
  assert (NoDup (add_entry dictionary c) /\ c ∈ add_entry dictionary c /\
    forall b, b ∈ dictionary -> b ∈ add_entry dictionary c) as (H1 & H2 & H3).
  { unfold add_entry. destruct (dictionary_index dictionary c) as [i|] eqn:E.
    - split; [done|]. split; [|done]. apply dictionary_index_elem. by eexists.
    - assert (c ∉ dictionary) by (rewrite dictionary_index_elem, E; by intros [? ?]).
      split; [|split].
      + apply NoDup_app. split; [done|]. split; [|apply NoDup_singleton].
        intros b Hb ->%list_elem_of_singleton. done.
      + apply elem_of_app. right. by left.
      + intros b Hb. apply elem_of_app. by left. }
  destruct (IH (add_entry dictionary c) H1) as (H4 & H5 & H6).
  split; [done|]. split; [auto|]. intros b [->|Hb]%elem_of_cons; auto.
Qed.

Lemma NoDup_bytes (l : list byte) : NoDup l -> (length l <= 256)%nat.
Proof.
  intros H. rewrite <- (length_fmap b2z l).
  transitivity (length (seqZ 0 256)); [|by rewrite length_seqZ].
  apply submseteq_length, NoDup_submseteq.
  - apply NoDup_fmap_2; [|done]. intros a b. apply b2z_inj.
  - intros z (b & -> & _)%list_elem_of_fmap. apply elem_of_seqZ. pose proof (b2z_range b). lia.
Qed.

Lemma index_of_spec `{EqDecision A} (dictionary : list A) b :
  b ∈ dictionary -> 0 <= index_of dictionary b < Z.of_nat (length dictionary) /\
    dictionary !! Z.to_nat (index_of dictionary b) = Some b.
Proof.
  intros [i Hi]%dictionary_index_elem. unfold index_of. rewrite Hi.
  apply dictionary_index_spec in Hi. rewrite Nat2Z.id. split; [|done].
  apply lookup_lt_Some in Hi. lia.
Qed.

Lemma lookup_indices_at dictionary data input dict_at tail o out rest :
  (forall b, b ∈ data -> b ∈ dictionary) -> (length dictionary <= 256)%nat ->
  suffix_at input dict_at (dictionary ++ tail) ->
  suffix_at input o (mjoin ((fun b => PutVarint (index_of dictionary b)) <$> data) ++ rest) ->
  lookup_indices (length data) (Z.of_nat (length dictionary)) dict_at input o out
    = Ok (out ++ data, (o + length (mjoin ((fun b => PutVarint (index_of dictionary b)) <$> data)))%nat).
Proof.
  intros Hin Hlen Hd. revert o out. induction data as [|b data IH]; intros o out H.
  { cbn. by rewrite app_nil_r, Nat.add_0_r. }
  destruct (index_of_spec dictionary b) as [Hi Hb]; [apply Hin; by left|].
  rewrite fmap_cons in *. cbn [mjoin list_join] in *. rewrite <- app_assoc in H.
  apply PutVarint_at in H as [Hg H]; [|unfold uint; lia].
  cbn [length lookup_indices]. rewrite Hg, (proj2 (Z.leb_gt _ _)) by lia.
  assert (z2b (byte_at input (dict_at + Z.to_nat (index_of dictionary b))) = b) as ->.
  { unfold byte_at. rewrite (nth_lookup_Some _ _ _ b); [apply z2b_b2z|].
    rewrite <- lookup_drop. destruct Hd as [_ ->]. by apply lookup_app_l_Some. }
  rewrite IH; [|intros c Hc; apply Hin; by right|done].
  by rewrite <- app_assoc, length_app, Nat.add_assoc.
Qed.

(** ** Both directions *)

Section roundtrip.

Context (input : list byte) (limit : Z).
Hypothesis Hlen : Z.of_nat (length input) < 2 ^ 60.
Hypothesis Hlim : Z.of_nat (length input) <= limit.

Lemma sized codec payload :
  let o := length (PutVarint (Z.of_nat (length input))) in
  let bytes := PutVarint (Z.of_nat (length input)) ++ payload in
  suffix_at bytes o payload /\
  TransformDecode codec bytes limit =
  match codec with
  | kDelta =>
      _ ← require (Z.of_nat (length input) <=? Z.of_nat (length bytes - o))
            (corrupt "delta payload truncated");
      consumed bytes "delta payload trailing bytes"
        (delta_decode 0 (take (length input) (drop o bytes)), (o + length input)%nat)
  | kRle =>
      r ← rle_decode (S (length bytes)) bytes o (Z.of_nat (length input)) [];
      consumed bytes "RLE payload trailing bytes" r
  | kBitPacked => decode_bit_packed bytes o (Z.of_nat (length input))
  | kDictionary => decode_dictionary bytes o (Z.of_nat (length input))
  | _ => Fail (NotSupported "projection" "unknown transform codec")
  end.
Proof.
  intros o bytes.
  destruct (PutVarint_at (Z.of_nat (length input)) bytes 0 payload) as [Hg Hs];
    [unfold uint; lia|apply suffix_at_0|]. split; [done|].
  unfold TransformDecode. rewrite Hg. cbn [from_option mbind StatusOr_bind].
  rewrite (proj2 (Z.leb_le _ _) Hlim). cbn [require mbind StatusOr_bind].
  by rewrite Nat2Z.id.
Qed.

Lemma consumed_all bytes message out n :
  n = length bytes -> consumed bytes message (out, n) = Ok out.
Proof. intros ->. unfold consumed. cbn [fst snd]. by rewrite Nat.eqb_refl. Qed.

Lemma delta_roundtrip :
  TransformDecode kDelta (PutVarint (Z.of_nat (length input)) ++ delta_encode 0 input) limit
  = Ok input.
Proof.
  destruct (sized kDelta (delta_encode 0 input)) as [Hs ->].
  pose proof (suffix_at_length _ _ _ Hs) as Hl. pose proof (length_delta_encode 0 input) as Hd.
  rewrite (proj2 (Z.leb_le _ _)) by lia. cbn [require mbind StatusOr_bind].
  rewrite consumed_all by lia. destruct Hs as [_ ->]. rewrite <- Hd at 1.
  rewrite firstn_all. f_equal. by apply delta_decode_encode.
Qed.

Lemma rle_roundtrip :
  TransformDecode kRle (PutVarint (Z.of_nat (length input)) ++ rle_encode (length input) input)
    limit = Ok input.
Proof.
  destruct (sized kRle (rle_encode (length input) input)) as [Hs ->].
  pose proof (suffix_at_length _ _ _ Hs) as Hl.
  set (bytes := PutVarint _ ++ _) in *. set (o := length (PutVarint _)) in *.
  rewrite (rle_decode_fuel _ (S (length bytes + length input))) by lia.
  rewrite (rle_decode_at (length input) _ input bytes o [] []); try lia;
    [|by rewrite app_nil_r].
  cbn [mbind StatusOr_bind app]. apply consumed_all. lia.
Qed.

Lemma bit_packed_roundtrip :
  let width := packed_width input in
  TransformDecode kBitPacked
    (PutVarint (Z.of_nat (length input)) ++ z2b width :: pack_bits width 0 0 input) limit
  = Ok input.
Proof.
  intros width. destruct (sized kBitPacked (z2b width :: pack_bits width 0 0 input)) as [Hs ->].
  set (bytes := PutVarint _ ++ _) in *. set (o := length (PutVarint _)) in *.
  destruct (packed_width_spec input) as [Hw Hv]. fold width in Hw, Hv.
  destruct (pack_bits_value width 0 0 input) as [Ep El]; try done.
  pose proof (suffix_at_length _ _ _ Hs) as Hl. rewrite length_cons in Hl.
  unfold decode_bit_packed. rewrite (proj2 (Nat.ltb_lt _ _)) by lia.
  cbn [require mbind StatusOr_bind].
  rewrite (byte_at_suffix _ _ _ _ Hs), b2z_z2b_uint by (unfold uint; cbn; lia).
  rewrite (proj2 (Z.leb_le _ _)) by lia. cbn [require mbind StatusOr_bind].
  assert (negb (width =? 0) && ((U64_MAX - 7) / width <? Z.of_nat (length input)) = false) as ->.
  { apply andb_false_iff. destruct (Z.eqb_spec width 0) as [->|Hne]; [by left|right].
    apply Z.ltb_ge. apply Z.div_le_lower_bound; [lia|]. unfold U64_MAX. nia. }
  cbn [negb require mbind StatusOr_bind].
  rewrite (proj2 (Z.eqb_eq _ _)).
  2: { replace (Z.of_nat (length bytes - S o))
         with (Z.of_nat (length (pack_bits width 0 0 input))) by lia.
       rewrite El. f_equal. lia. }
  cbn [require mbind StatusOr_bind]. rewrite Nat2Z.id.
  destruct (unpack_bits_at width input 0 0 bytes (S o) (pack_bits width 0 0 input) [])
    as [o' ->]; try done; [by apply suffix_at_next in Hs|rewrite Ep; lia|].
  rewrite El. pose proof (Z.div_mod (0 + width * Z.of_nat (length input) + 7) 8 ltac:(lia)).
  pose proof (Z.mod_pos_bound (0 + width * Z.of_nat (length input) + 7) 8 ltac:(lia)). lia.
Qed.

Lemma dictionary_roundtrip :
  let dictionary := build_dictionary input in
  TransformDecode kDictionary
    (PutVarint (Z.of_nat (length input)) ++ PutVarint (Z.of_nat (length dictionary))
     ++ dictionary ++ mjoin ((fun b => PutVarint (index_of dictionary b)) <$> input)) limit
  = Ok input.
Proof.
  intros dictionary. destruct (build_dictionary_spec input) as [Hd Hin].
  fold dictionary in Hd, Hin. pose proof (NoDup_bytes _ Hd) as Hd256.
  set (indices := mjoin _).
  destruct (sized kDictionary (PutVarint (Z.of_nat (length dictionary)) ++ dictionary ++ indices))
    as [Hs ->].
  set (bytes := PutVarint _ ++ _) in *. set (o := length (PutVarint _)) in *.
  unfold decode_dictionary.
  destruct (PutVarint_at (Z.of_nat (length dictionary)) bytes o (dictionary ++ indices))
    as [-> Hd1]; [unfold uint; lia|done|].
  cbn [from_option mbind StatusOr_bind].
  pose proof (suffix_at_length _ _ _ Hd1) as Hl. rewrite length_app in Hl.
  rewrite (proj2 (Z.ltb_ge _ _)), (proj2 (Z.ltb_ge _ _)) by lia.
  cbn [orb negb require mbind StatusOr_bind]. rewrite !Nat2Z.id.
  pose proof (suffix_at_skip _ _ _ _ Hd1) as Hd2.
  rewrite (lookup_indices_at dictionary input bytes _ indices _ [] []); try done;
    [|by rewrite app_nil_r].
  cbn [mbind StatusOr_bind app]. apply consumed_all. fold indices. lia.
Qed.

End roundtrip.

(** ** Sizes *)

Lemma length_delta_decode previous input : length (delta_decode previous input) = length input.
Proof. revert previous. induction input as [|b input IH]; intros; cbn; auto. Qed.

Lemma GetVarint_nonneg input o v o' : GetVarint input o = Some (v, o') -> 0 <= v.
Proof.
  unfold GetVarint.
  enough (forall rounds shift result o, 0 <= result -> 0 <= shift ->
    get_varint rounds shift result input o = Some (v, o') -> 0 <= v) as Hgen by (apply Hgen; lia).
  clear o. induction rounds as [|rounds IH]; intros shift result o Hr Hs E; [done|].
  cbn [get_varint] in E. destruct (_ <=? _)%nat; [done|]. destruct (_ && _); [done|].
  assert (0 <= Z.lor result (Z.shiftl (Z.land (byte_at input o) 127) shift)).
  { apply Z.lor_nonneg. split; [done|]. apply Z.shiftl_nonneg, Z.land_nonneg. by right. }
  destruct (_ =? 0); [by injection E as <- <-|]. apply IH in E; lia.
Qed.

Lemma rle_decode_length fuel input o missing out r o' :
  0 <= missing -> rle_decode fuel input o missing out = Ok (r, o') ->
  Z.of_nat (length r) = Z.of_nat (length out) + missing.
Proof.
  revert o missing out. induction fuel as [|fuel IH]; intros o missing out Hm H; [done|].
  cbn [rle_decode] in H. destruct (Z.eqb_spec missing 0); [injection H as <- <-; lia|].
  destruct (_ <=? _)%nat; [done|]. destruct (GetVarint _ _) as [[run o1]|] eqn:E; [|done].
  destruct (Z.eqb_spec run 0); [done|]. destruct (Z.ltb_spec missing run); [done|]. cbn [orb] in H.
  apply GetVarint_nonneg in E.
  apply IH in H; [|lia]. rewrite length_app, length_replicate in H. lia.
Qed.

Lemma unpack_bits_length count width bits used input o out r o' :
  unpack_bits count width bits used input o out = Ok (r, o') ->
  length r = (length out + count)%nat.
Proof.
  revert bits used o out. induction count as [|count IH]; intros bits used o out H.
  { injection H as <- <-. lia. }
  cbn [unpack_bits] in H. destruct (if used <? width then _ else _) as [[[bits1 used1] o1]|]; [|done].
  cbn [mbind StatusOr_bind] in H. apply IH in H. rewrite length_app in H. cbn in H. lia.
Qed.

Lemma lookup_indices_length count size dict_at input o out r o' :
  lookup_indices count size dict_at input o out = Ok (r, o') ->
  length r = (length out + count)%nat.
Proof.
  revert o out. induction count as [|count IH]; intros o out H.
  { injection H as <- <-. lia. }
  cbn [lookup_indices] in H. destruct (GetVarint _ _) as [[index o1]|]; [|done].
  destruct (_ <=? _); [done|]. apply IH in H. rewrite length_app in H. cbn in H. lia.
Qed.

Lemma TransformDecode_length codec input limit out :
  TransformDecode codec input limit = Ok out -> Z.of_nat (length out) <= limit.
Proof.
  unfold TransformDecode. destruct (GetVarint input 0) as [[count o]|] eqn:E; [|done].
  apply GetVarint_nonneg in E. cbn [from_option mbind StatusOr_bind].
  destruct (Z.leb_spec count limit) as [Hle|]; [|done]. cbn [require mbind StatusOr_bind].
  intros H. enough (Z.of_nat (length out) <= count) by lia. destruct codec; try done.
  - unfold consumed in H. inv_ok. cbn [fst] in H. subst out.
    rewrite length_delta_decode, length_take. lia.
  - unfold decode_bit_packed in H. inv_ok.
    match goal with H : unpack_bits _ _ _ _ _ _ _ = _ |- _ =>
      apply unpack_bits_length in H end. subst.
    cbn [length] in *. lia.
  - unfold decode_dictionary, consumed in H. inv_ok. destruct x as [size o1]. inv_ok.
    match goal with H : lookup_indices _ _ _ _ _ _ = Ok ?x |- _ =>
      destruct x as [r o']; apply lookup_indices_length in H end. cbn [fst] in *. subst.
    cbn [length] in *. lia.
  - unfold consumed in H. inv_ok.
    match goal with H : rle_decode _ _ _ _ _ = Ok ?x |- _ =>
      destruct x as [r o']; apply rle_decode_length in H; [|done] end. cbn [fst] in *. subst.
    cbn [length] in *. lia.
Qed.

(** ** The external codec *)

Lemma resized_all bytes : resized bytes (Z.of_nat (length bytes)) = bytes.
Proof.
  unfold resized. rewrite Nat2Z.id, Nat.sub_diag. cbn [replicate].
  by rewrite app_nil_r, firstn_all.
Qed.

Lemma copy_lz4_ok : lz4_ok copy_lz4.
Proof.
  unfold lz4_ok, copy_lz4, LZ4_MAX_INPUT_SIZE, INT_MAX.
  cbn [LZ4_compressBound LZ4_compress_default LZ4_decompress_safe]. split.
  { intros n Hn. by rewrite (proj2 (Z.leb_gt _ _)). }
  intros input Hlen. rewrite (proj2 (Z.leb_le _ _) Hlen). cbn [fst snd length tail].
  split_and!; [lia..|]. intros capacity Hc. by rewrite (proj2 (Z.leb_le _ _)) by lia.
Qed.

Lemma lz4_roundtrip lz4 input limit :
  lz4_ok lz4 -> Z.of_nat (length input) <= LZ4_MAX_INPUT_SIZE ->
  Z.of_nat (length input) <= limit <= INT_MAX ->
  exists out, CompressProjectionPayload lz4 kLz4 input = Ok out /\
    DecompressProjectionPayload lz4 kLz4 out limit = Ok input.
Proof.
  intros [_ Hok] Hmax Hlim. destruct (Hok input Hmax) as (Hb & Hr & Hl & Hd).
  unfold CompressProjectionPayload, DecompressProjectionPayload.
  cbn [CompressionCodec_to_u8 Z.eqb Z.leb Z.compare Pos.compare Pos.compare_cont].
  rewrite (proj2 (Z.leb_le _ INT_MAX)) by lia. cbn [require mbind StatusOr_bind].
  rewrite (proj2 (Z.ltb_lt 0 _)) by lia. cbn [require mbind StatusOr_bind].
  destruct (LZ4_compress_default lz4 input _) as [n bytes]. cbn [fst snd] in *. subst n.
  rewrite (proj2 (Z.ltb_lt 0 _)) by lia. cbn [require mbind StatusOr_bind].
  rewrite resized_all. exists bytes. split; [done|].
  rewrite (proj2 (Z.leb_le limit _)) by lia. cbn [require mbind StatusOr_bind].
  rewrite (proj2 (Z.leb_le _ INT_MAX)) by lia. cbn [require mbind StatusOr_bind].
  rewrite (Hd limit) by lia. rewrite (proj2 (Z.leb_le 0 _)) by lia.
  cbn [require mbind StatusOr_bind]. by rewrite resized_all.
Qed.

(** What a file codec wrote is read back within exactly the size of the payload. *)
Lemma file_codec_roundtrip lz4 codec input out :
  codec = kNoCodec \/ codec = kLz4 /\ lz4_ok lz4 ->
  CompressProjectionPayload lz4 codec input = Ok out ->
  DecompressProjectionPayload lz4 codec out (Z.of_nat (length input)) = Ok input.
Proof.
  intros [-> |[-> Hok]] H.
  { injection H as <-. unfold DecompressProjectionPayload. cbn. by rewrite Z.leb_refl. }
  destruct (decide (Z.of_nat (length input) <= LZ4_MAX_INPUT_SIZE)) as [Hmax|Hmax].
  - destruct (lz4_roundtrip lz4 input (Z.of_nat (length input)) Hok Hmax)
      as (out' & E & Hd); [unfold LZ4_MAX_INPUT_SIZE, INT_MAX in *; lia|].
    rewrite E in H. by injection H as <-.
  - unfold CompressProjectionPayload in H.
    cbn [CompressionCodec_to_u8 Z.eqb Z.leb Z.compare Pos.compare Pos.compare_cont] in H.
    inv_ok. bool_to_prop. destruct Hok as [Hbound _].
    specialize (Hbound (Z.of_nat (length input)) ltac:(lia)). lia.
Qed.

(** ** Properties *)

(** C37: projection payloads survive compression.  With every codec, compressing a payload
    succeeds, and decompressing the result within any budget that holds the payload
    returns it byte for byte; for the external codec within the sizes that it and the
    code accept, and by what its documentation promises. *)
Theorem projection_payload_roundtrip lz4 codec input limit :
  codec ∈ [kNoCodec; kLz4; kDelta; kBitPacked; kDictionary; kRle] ->
  (codec = kLz4 -> lz4_ok lz4 /\ Z.of_nat (length input) <= LZ4_MAX_INPUT_SIZE
                   /\ limit <= INT_MAX) ->
  Z.of_nat (length input) < 2 ^ 60 -> Z.of_nat (length input) <= limit ->
  exists out, CompressProjectionPayload lz4 codec input = Ok out /\
    DecompressProjectionPayload lz4 codec out limit = Ok input.
Proof.
  intros Hc Hlz Hlen Hlim. rewrite !elem_of_cons, elem_of_nil in Hc.
  destruct Hc as [-> |[-> |Hc]].
  { exists input. unfold DecompressProjectionPayload. cbn.
    by rewrite (proj2 (Z.leb_le _ _) Hlim). }
  { destruct (Hlz eq_refl) as (? & ? & ?). by apply lz4_roundtrip. }
  destruct Hc as [-> |[-> |[-> |[-> |[]]]]]; eexists; (split; [reflexivity|]);
    cbn [DecompressProjectionPayload CompressionCodec_to_u8 Z.eqb Z.leb Z.compare].
  - by apply delta_roundtrip.
  - by apply bit_packed_roundtrip.
  - by apply dictionary_roundtrip.
  - by apply rle_roundtrip.
Qed.

Lemma projection_payload_roundtrip_witness :
  (exists out, CompressProjectionPayload copy_lz4 kBitPacked (z2b <$> [1; 2; 3; 7; 0; 5]) = Ok out
     /\ DecompressProjectionPayload copy_lz4 kBitPacked out 6 = Ok (z2b <$> [1; 2; 3; 7; 0; 5]))
  /\ (exists out, CompressProjectionPayload copy_lz4 kLz4 (z2b <$> [1; 2]) = Ok out
     /\ DecompressProjectionPayload copy_lz4 kLz4 out 6 = Ok (z2b <$> [1; 2])).
Proof.
  split.
  - apply (projection_payload_roundtrip copy_lz4 kBitPacked (z2b <$> [1; 2; 3; 7; 0; 5]) 6).
    + set_solver.
    + discriminate.
    + reflexivity.
    + discriminate.
  - apply (projection_payload_roundtrip copy_lz4 kLz4 (z2b <$> [1; 2]) 6).
    + set_solver.
    + intros _. split; [apply copy_lz4_ok|]. split; discriminate.
    + reflexivity.
    + discriminate.
Defined.

(** Decompression keeps its budget.  Whatever the bytes are, a payload that is
    returned has no more bytes than the limit, provided that the external decoder stays
    within the capacity it is given. *)
Theorem projection_payload_bounded lz4 codec input limit out :
  (forall bytes capacity, (LZ4_decompress_safe lz4 bytes capacity).1 <= capacity) ->
  DecompressProjectionPayload lz4 codec input limit = Ok out ->
  Z.of_nat (length out) <= limit.
Proof.
  intros Hlz H. unfold DecompressProjectionPayload in H.
  destruct (_ =? 0).
  { destruct (Z.leb_spec (Z.of_nat (length input)) limit); [|done]. by injection H as <-. }
  destruct (2 <=? _); [by eapply TransformDecode_length|].
  specialize (Hlz input limit). destruct (LZ4_decompress_safe lz4 input limit) as [decoded output].
  inv_ok. subst out. bool_to_prop. cbn [fst] in Hlz. unfold resized. rewrite length_take. lia.
Qed.

Lemma projection_payload_bounded_witness :
  Z.of_nat (length (z2b <$> [9; 9; 9])) <= 4.
Proof.
  apply (projection_payload_bounded (mkLz4 id (fun _ _ => (0, [])) (fun _ c => (Z.min 0 c, [])))
    kRle (z2b <$> [3; 9; 3]) 4).
  - intros bytes capacity. cbn. lia.
  - vm_compute. reflexivity.
Defined.
