(* ===== verification/Projection.v ===== *)
(** * Projection: the files of query projections

    Models [src/query/projection/projection_format.cc]: the columns of a page (values in a
    dictionary, indices in runs, differences of entities and times, bit sets), the header
    and the directory of a file with their checksums, and every reader of them with its
    budget.  The sizes of the types of the code, the LZ4 codec and the callback that
    reserves memory are arguments. *)

From S2P Require Import Prelude Status Crc32c Wire Value Fact Frame CommitBatch Temporal.
From S2P Require Import Compression.
From Stdlib Require Import ZifyNat.

(** ** Data *)

Inductive ProjectionKind :=
| kStateProjection
| kAdjacency
| kPropertyProjection
| kStatistics
| kPropertyIndex
| kUnknownProjection (raw : Z).

#[export] Instance ProjectionKind_eq_dec : EqDecision ProjectionKind.
Proof. solve_decision. Defined.

Definition ProjectionKind_to_u8 (k : ProjectionKind) : Z :=
  match k with
  | kStateProjection => 1
  | kAdjacency => 2
  | kPropertyProjection => 3
  | kStatistics => 4
  | kPropertyIndex => 5
  | kUnknownProjection raw => raw
  end.

Definition ProjectionKind_of_u8 (raw : Z) : ProjectionKind :=
  if raw =? 1 then kStateProjection
  else if raw =? 2 then kAdjacency
  else if raw =? 3 then kPropertyProjection
  else if raw =? 4 then kStatistics
  else if raw =? 5 then kPropertyIndex
  else kUnknownProjection raw.

Record ProjectionHeader := mkProjectionHeader {
  kind : ProjectionKind;
  generation_id : Z;
  base_seq : Z;
  header_part_id : Z;
  header_property_id : Z;
  header_schema_epoch : Z;
  entity_min : Z;
  entity_max_exclusive : Z;
  valid_from_min : Z;
  valid_to_max : option Z
}.

Record ProjectionPageDirectoryEntry := mkDirectoryEntry {
  page_offset : Z;
  compressed_bytes : Z;
  uncompressed_bytes : Z;
  row_count : Z;
  page_entity_min : Z;
  page_entity_max_exclusive : Z;
  page_valid_from_min : Z;
  page_valid_to_max : option Z;
  edge_type_min : option Z;
  edge_type_max : option Z;
  payload_crc32c : Z;
  bloom_bits : Z;
  bloom_hashes : Z;
  bloom_mask : Z
}.

Record ProjectionInterval := mkProjectionInterval {
  effective_interval : ValidTimeInterval;
  interval_value : Value;
  interval_entity_id : Z
}.

Record ProjectionBoundary := mkProjectionBoundary {
  boundary_time : Z;
  boundary_operation : FactOperation;
  boundary_value : Value;
  boundary_entity_id : Z
}.

Record ProjectionChain := mkProjectionChain {
  header : ProjectionHeader;
  intervals : list ProjectionInterval;
  boundaries : list ProjectionBoundary;
  page_directory : list ProjectionPageDirectoryEntry
}.

(** The sizes that the compiler gives to the types of the code. *)
Record ProjectionSizes := mkProjectionSizes {
  sizeof_Value : Z;
  sizeof_ProjectionInterval : Z;
  sizeof_ProjectionBoundary : Z;
  sizeof_ProjectionChain : Z;
  sizeof_DirectoryEntry : Z
}.

Definition kHeaderBytes : Z := 81.
Definition kDirectoryBytes : Z := 91.
Definition kPayloadMagic : Z := 0x314c4f43.
Definition kSizeMax : Z := 2 ^ 64 - 1.
Definition U32_MAX : Z := 2 ^ 32 - 1.

Definition magic : list byte := literal "CDRPRJ1" ++ [z2b 0].

Definition exhausted (message : string) : Status := ResourceExhausted "projection" message.

(** ** Validation *)

Definition ValidRange (emin emax valid_from : Z) (valid_to : option Z) : Status :=
  if (emax <? emin)
     || match valid_to with Some t => t <? valid_from | None => false end
  then corrupt "invalid range" else StatusOK.

Definition ValidPage (d : ProjectionPageDirectoryEntry) : Status :=
  match ValidRange (page_entity_min d) (page_entity_max_exclusive d)
          (page_valid_from_min d) (page_valid_to_max d) with
  | StatusOK =>
      if match edge_type_min d, edge_type_max d with
         | Some low, Some high => high <? low
         | None, None => false
         | _, _ => true
         end then corrupt "invalid edge range"
      else if (8 <? bloom_hashes d) || (64 <? bloom_bits d)
              || ((bloom_bits d =? 0)
                  && (negb (bloom_hashes d =? 0) || negb (bloom_mask d =? 0)))
              || (negb (bloom_bits d =? 0) && (bloom_hashes d =? 0))
      then corrupt "invalid bloom metadata"
      else if (bloom_bits d <? 64) && negb (Z.shiftr (bloom_mask d) (bloom_bits d) =? 0)
      then corrupt "bloom mask exceeds bit count"
      else StatusOK
  | s => s
  end.

(** ** The columns of a page *)

Definition PutBlob (blob : list byte) : list byte :=
  le_bytes 4 (wrap 32 (Z.of_nat (length blob))) ++ blob.

(** A round per run, so the values are enough. *)
Fixpoint EncodeRle_rounds (fuel : nat) (values : list Z) : list byte :=
  match fuel, values with
  | S fuel', v :: values' =>
      let more := run_length v values' in
      le_bytes 4 v ++ le_bytes 4 (wrap 32 (Z.of_nat (S more)))
      ++ EncodeRle_rounds fuel' (drop more values')
  | _, _ => []
  end.

Definition EncodeRle (values : list Z) : list byte :=
  EncodeRle_rounds (length values) values.

(** The dictionary and the index of each value so far. *)
Definition add_value (st : list (list byte) * list Z) (v : Value)
  : list (list byte) * list Z :=
  let '(dictionary, indexes) := st in
  let encoded := Encode v in
  match dictionary_index dictionary encoded with
  | Some i => (dictionary, indexes ++ [Z.of_nat i])
  | None => (dictionary ++ [encoded], indexes ++ [wrap 32 (Z.of_nat (length dictionary))])
  end.

(** [bits[n / 8] |= 1 << (n % 8)]. *)
Definition set_flag (bits : list byte) (n : nat) : list byte :=
  alter (fun b => z2b (Z.lor (b2z b) (Z.shiftl 1 (Z.of_nat n mod 8)))) (n / 8)%nat bits.

Definition bitset (flags : list bool) : list byte :=
  fold_left (fun bits n => if default false (flags !! n) then set_flag bits n else bits)
    (seq 0 (length flags)) (replicate ((length flags + 7) / 8) (z2b 0)).

(** The differences of entities and of times; the times of an entity start at zero. *)
Fixpoint deltas (previous_entity previous_time : Z) (rows : list (Z * Z))
  : list Z * list Z :=
  match rows with
  | [] => ([], [])
  | (entity, time) :: rows' =>
      let previous_time := if entity =? previous_entity then previous_time else 0 in
      let '(entities, times) := deltas entity time rows' in
      (wrap 64 (entity - previous_entity) :: entities,
       wrap 64 (time - previous_time) :: times)
  end.

Definition column (values : list Z) : list byte := mjoin (le_bytes 8 <$> values).

Definition EncodePayload (ivs : list ProjectionInterval) (bds : list ProjectionBoundary)
  : list byte :=
  let '(dictionary, ii) := fold_left add_value (interval_value <$> ivs) ([], []) in
  let '(dictionary, bi) := fold_left add_value (boundary_value <$> bds) (dictionary, []) in
  let presence := bitset ((fun i => bool_decide (is_Some (to (effective_interval i)))) <$> ivs) in
  let operations := bitset ((fun b => bool_decide (boundary_operation b = kPut)) <$> bds) in
  let '(ie, it) :=
    deltas 0 0 ((fun i => (interval_entity_id i, from (effective_interval i))) <$> ivs) in
  let ito := (fun i => default 0 (to (effective_interval i))) <$> ivs in
  let '(be, bt) := deltas 0 0 ((fun b => (boundary_entity_id b, boundary_time b)) <$> bds) in
  le_bytes 4 kPayloadMagic ++ le_bytes 4 (wrap 32 (Z.of_nat (length ivs)))
  ++ le_bytes 4 (wrap 32 (Z.of_nat (length bds)))
  ++ le_bytes 4 (wrap 32 (Z.of_nat (length dictionary)))
  ++ mjoin (PutBlob <$> dictionary)
  ++ PutBlob presence ++ PutBlob operations ++ PutBlob (column ie) ++ PutBlob (column it)
  ++ PutBlob (column ito) ++ PutBlob (EncodeRle ii) ++ PutBlob (column be)
  ++ PutBlob (column bt) ++ PutBlob (EncodeRle bi).

(** ** Budgets *)

(** What has been charged, and what the callback has been asked for. *)
Record Budget := mkBudget {
  allocation_used : Z;
  granted : list Z
}.

Section budget.

(** The answer of the callback after what it was asked before; an empty callback
    refuses nothing. *)
Variable reserve : list Z -> Z -> bool.

Definition charge (limit cost : Z) (b : Budget) : option Budget :=
  if (cost <=? limit - Z.min limit (allocation_used b)) && reserve (granted b) cost
  then Some (mkBudget (allocation_used b + cost) (granted b ++ [cost]))
  else None.

Definition GetBlobBudget (input : list byte) (at_ : nat) (limit : Z) (b : Budget)
  : option (list byte * nat * Budget) :=
  '(n, at_) ← GetLittleEndian 4 input at_;
  if (length input - at_ <? Z.to_nat n)%nat then None
  else
    b ← charge limit n b;
    Some (take (Z.to_nat n) (drop at_ input), (at_ + Z.to_nat n)%nat, b).

(** Several blobs in a row. *)
Fixpoint GetBlobs (count : nat) (input : list byte) (at_ : nat) (limit : Z) (b : Budget)
  : option (list (list byte) * nat * Budget) :=
  match count with
  | O => Some ([], at_, b)
  | S count' =>
      '(blob, at_, b) ← GetBlobBudget input at_ limit b;
      '(blobs, at_, b) ← GetBlobs count' input at_ limit b;
      Some (blob :: blobs, at_, b)
  end.

(** [expected] values are still to come; a round reads eight bytes. *)
Fixpoint DecodeRle_rounds (fuel : nat) (input : list byte) (at_ : nat) (expected : nat)
    (values : list Z) : option (list Z) :=
  match expected, fuel with
  | O, _ => if (at_ =? length input)%nat then Some values else None
  | S _, O => None
  | S _, S fuel' =>
      '(value, at_) ← GetLittleEndian 4 input at_;
      '(run, at_) ← GetLittleEndian 4 input at_;
      if (run =? 0) || (Z.of_nat expected <? run) then None
      else DecodeRle_rounds fuel' input at_ (expected - Z.to_nat run)
             (values ++ replicate (Z.to_nat run) value)
  end.

Definition DecodeRle (input : list byte) (expected : nat) : option (list Z) :=
  DecodeRle_rounds (length input) input 0 expected [].

Definition DecodeSignedDelta (encoded previous : Z) : option Z :=
  if U64_MAX - previous <? encoded then None else Some (previous + encoded).

(** One value of the dictionary with the size of its encoding. *)
Definition decode_value (sizes : ProjectionSizes) (s : list byte) (limit : Z)
    (st : list (Value * Z) * nat * Budget) (_ : nat)
  : StatusOr (list (Value * Z) * nat * Budget) :=
  let '(dictionary, p, b) := st in
  '(encoded, p, b) ← from_option (GetBlobBudget s p limit b)
                       (exhausted "encoded dictionary exceeds budget");
  let size := Z.of_nat (length encoded) in
  _ ← require (size <=? (kSizeMax - sizeof_Value sizes) / 2)
        (exhausted "dictionary cost overflow");
  b ← from_option (charge limit (sizeof_Value sizes + 2 * size) b)
        (exhausted "dictionary exceeds budget");
  value ← from_option (Decode encoded) (corrupt "invalid dictionary value");
  Ok (dictionary ++ [(value, size)], p, b).

(** [(bits[n / 8] & (1 << (n % 8))) != 0]. *)
Definition test_flag (bits : list byte) (n : nat) : bool :=
  negb (Z.land (byte_at bits (n / 8)) (Z.shiftl 1 (Z.of_nat n mod 8)) =? 0).

(** The padding bits behind the last row. *)
Definition padding (bits : list byte) (count : Z) : bool :=
  negb (count mod 8 =? 0)
  && negb (Z.land (byte_at bits (length bits - 1))
             (Z.lxor 0xff (Z.shiftl 1 (count mod 8) - 1)) =? 0).

(** What the two row loops share: the entity, the time and the value of row [n]. *)
Definition decode_row (what : string) (sizeof_row limit : Z)
    (dictionary : list (Value * Z)) (entities times : list byte) (indexes : list Z)
    (n : nat) (previous_entity previous_time : Z) (b : Budget)
  : StatusOr (Z * Z * Value * Budget) :=
  '(entity, time_delta, value, size) ←
    from_option
      ('(entity_delta, _) ← GetLittleEndian 8 entities (8 * n);
       '(time_delta, _) ← GetLittleEndian 8 times (8 * n);
       entity ← DecodeSignedDelta entity_delta previous_entity;
       index ← indexes !! n;
       '(value, size) ← dictionary !! Z.to_nat index;
       Some (entity, time_delta, value, size))
      (corrupt ("invalid " +:+ what +:+ " delta"));
  _ ← require (size <=? kSizeMax - sizeof_row) (exhausted (what +:+ " cost overflow"));
  b ← from_option (charge limit (sizeof_row + size) b)
        (exhausted (what +:+ " rows exceed budget"));
  let previous_time := if entity =? previous_entity then previous_time else 0 in
  _ ← require (time_delta <=? U64_MAX - previous_time)
        (corrupt ("invalid " +:+ what +:+ " time delta"));
  Ok (entity, previous_time + time_delta, value, b).

Definition decode_interval (sizes : ProjectionSizes) (limit : Z)
    (dictionary : list (Value * Z)) (ie it ito presence : list byte) (ii : list Z)
    (st : list ProjectionInterval * Z * Z * Budget) (n : nat)
  : StatusOr (list ProjectionInterval * Z * Z * Budget) :=
  let '(rows, previous_entity, previous_time, b) := st in
  '(valid_to, _) ← from_option (GetLittleEndian 8 ito (8 * n)) (corrupt "invalid interval delta");
  '(entity, time, value, b) ←
    decode_row "interval" (sizeof_ProjectionInterval sizes) limit dictionary ie it ii n
      previous_entity previous_time b;
  let has := test_flag presence n in
  _ ← require (negb (has && (valid_to <? time))) (corrupt "invalid interval range");
  Ok (rows ++ [mkProjectionInterval (mkInterval time (if has then Some valid_to else None))
                 value entity], entity, time, b).

Definition decode_boundary (sizes : ProjectionSizes) (limit : Z)
    (dictionary : list (Value * Z)) (be bt operations : list byte) (bi : list Z)
    (st : list ProjectionBoundary * Z * Z * Budget) (n : nat)
  : StatusOr (list ProjectionBoundary * Z * Z * Budget) :=
  let '(rows, previous_entity, previous_time, b) := st in
  '(entity, time, value, b) ←
    decode_row "boundary" (sizeof_ProjectionBoundary sizes) limit dictionary be bt bi n
      previous_entity previous_time b;
  Ok (rows ++ [mkProjectionBoundary time (if test_flag operations n then kPut else kDelete)
                 value entity], entity, time, b).

(** The counts at the start of a page. *)
Definition decode_counts (sizes : ProjectionSizes) (s : list byte) (row_limit : Z)
  : StatusOr (Z * Z * Z * nat) :=
  _ ← require (negb ((row_limit <? sizeof_ProjectionInterval sizes)
                     || (row_limit <? sizeof_ProjectionBoundary sizes)))
        (exhausted "row output budget exhausted");
  '(ni, nb, nd, p) ←
    from_option
      ('(payload_magic, p) ← GetLittleEndian 4 s 0;
       if negb (payload_magic =? kPayloadMagic) then None
       else
         '(ni, p) ← GetLittleEndian 4 s p;
         '(nb, p) ← GetLittleEndian 4 s p;
         '(nd, p) ← GetLittleEndian 4 s p;
         if (row_limit <? ni) || (row_limit - Z.min row_limit ni <? nb)
            || (Z.of_nat (length s) / 5 <? nd) then None
         else Some (ni, nb, nd, p))
      (corrupt "invalid column counts");
  _ ← require (negb ((row_limit / sizeof_ProjectionInterval sizes <? ni)
                     || (row_limit / sizeof_ProjectionBoundary sizes <? nb)
                     || (row_limit / sizeof_Value sizes <? nd)))
        (exhausted "decoded rows exceed budget");
  Ok (ni, nb, nd, p).

(** The rows behind the columns. *)
Definition decode_rows (sizes : ProjectionSizes) (row_limit ni nb : Z)
    (dictionary : list (Value * Z)) (blobs : list (list byte)) (b : Budget)
  : StatusOr (list ProjectionInterval * list ProjectionBoundary * Budget) :=
  match blobs with
  | [presence; operations; ie; it; ito; irle; be; bt; brle] =>
      _ ← require ((Z.of_nat (length presence) =? wrap 32 (ni + 7) / 8)
                   && (Z.of_nat (length operations) =? wrap 32 (nb + 7) / 8))
            (exhausted "column streams exceed budget");
      _ ← require (negb (padding presence ni || padding operations nb))
            (corrupt "non-zero bitset padding");
      b ← from_option
            (charge row_limit
               (ni * (sizeof_ProjectionInterval sizes + 4)
                + nb * (sizeof_ProjectionBoundary sizes + 4)) b)
            (exhausted "row capacities exceed budget");
      ii ← from_option (DecodeRle irle (Z.to_nat ni)) (corrupt "invalid value run");
      bi ← from_option (DecodeRle brle (Z.to_nat nb)) (corrupt "invalid value run");
      _ ← require ((Z.of_nat (length ie) =? wrap 32 (ni * 8)) && (Z.of_nat (length it) =? wrap 32 (ni * 8))
                   && (Z.of_nat (length ito) =? wrap 32 (ni * 8)) && (Z.of_nat (length be) =? wrap 32 (nb * 8))
                   && (Z.of_nat (length bt) =? wrap 32 (nb * 8))) (corrupt "invalid delta column");
      '(ivs, _, _, b) ←
        loop (decode_interval sizes row_limit dictionary ie it ito presence ii)
          ([], 0, 0, b) (seq 0 (Z.to_nat ni));
      '(bds, _, _, b) ←
        loop (decode_boundary sizes row_limit dictionary be bt operations bi)
          ([], 0, 0, b) (seq 0 (Z.to_nat nb));
      Ok (ivs, bds, b)
  | _ => Fail (exhausted "column streams exceed budget")
  end.

Definition DecodePayload (sizes : ProjectionSizes) (s : list byte) (row_limit : Z)
    (b : Budget) : StatusOr (list ProjectionInterval * list ProjectionBoundary * Budget) :=
  '(ni, nb, nd, p) ← decode_counts sizes s row_limit;
  b ← from_option (charge row_limit (nd * (sizeof_Value sizes + 8)) b)
        (exhausted "dictionary capacity exceeds budget");
  '(dictionary, p, b) ←
    loop (decode_value sizes s row_limit) ([], p, b) (seq 0 (Z.to_nat nd));
  '(blobs, p, b) ← from_option (GetBlobs 9 s p row_limit b)
                     (exhausted "column streams exceed budget");
  r ← decode_rows sizes row_limit ni nb dictionary blobs b;
  _ ← require (p =? length s)%nat (corrupt "trailing payload");
  Ok r.

End budget.

(** ** Pages and files *)

(** The rows of each page: the intervals first, in equal shares of what is left. *)
Fixpoint Pages (left : nat) (ivs : list ProjectionInterval) (bds : list ProjectionBoundary)
  : list (list ProjectionInterval * list ProjectionBoundary) :=
  match left with
  | O => []
  | S left' =>
      let want := ((length ivs + length bds + left') / left)%nat in
      let rest := (want - length ivs)%nat in
      (take want ivs, take rest bds) :: Pages left' (drop want ivs) (drop rest bds)
  end.

Definition flag (o : option Z) : byte := if o then z2b 1 else z2b 0.

Definition encode_header (h : ProjectionHeader) (codec : CompressionCodec) (pages : Z)
  : list byte :=
  let fields :=
    magic ++ le_bytes 4 1 ++ [z2b (ProjectionKind_to_u8 (kind h));
                              z2b (CompressionCodec_to_u8 codec)]
    ++ le_bytes 8 (generation_id h) ++ le_bytes 8 (base_seq h)
    ++ le_bytes 4 (header_part_id h) ++ le_bytes 2 (header_property_id h)
    ++ le_bytes 4 (header_schema_epoch h) ++ le_bytes 8 (entity_min h)
    ++ le_bytes 8 (entity_max_exclusive h) ++ le_bytes 8 (valid_from_min h)
    ++ flag (valid_to_max h) :: le_bytes 8 (default 0 (valid_to_max h))
    ++ le_bytes 4 (wrap 32 pages) in
  fields ++ le_bytes 4 (crc32c fields).

Definition encode_entry (d : ProjectionPageDirectoryEntry) : list byte :=
  le_bytes 8 (page_offset d) ++ le_bytes 4 (compressed_bytes d)
  ++ le_bytes 4 (uncompressed_bytes d) ++ le_bytes 4 (row_count d)
  ++ le_bytes 8 (page_entity_min d) ++ le_bytes 8 (page_entity_max_exclusive d)
  ++ le_bytes 8 (page_valid_from_min d)
  ++ flag (page_valid_to_max d) :: le_bytes 8 (default 0 (page_valid_to_max d))
  ++ flag (edge_type_min d) :: le_bytes 8 (default 0 (edge_type_min d))
  ++ le_bytes 8 (default 0 (edge_type_max d)) ++ le_bytes 4 (payload_crc32c d)
  ++ le_bytes 8 (bloom_bits d) ++ z2b (bloom_hashes d) :: le_bytes 8 (bloom_mask d).

(** The checks of the order of the rows: the entity and the time of the row before. *)
Definition check_order (message : string) (st : Z * Z) (row : Z * Z) : StatusOr (Z * Z) :=
  let '(previous_entity, previous_time) := st in
  let '(entity, time) := row in
  _ ← require (negb ((entity <? previous_entity)
                     || ((entity =? previous_entity) && (time <? previous_time))))
        (InvalidArgument "projection" message);
  Ok (entity, if entity =? previous_entity then time else 0).

Definition interval_row (i : ProjectionInterval) : Z * Z :=
  (interval_entity_id i, from (effective_interval i)).

Definition boundary_row (b : ProjectionBoundary) : Z * Z :=
  (boundary_entity_id b, boundary_time b).

Definition check_boundary (st : Z * Z) (b : ProjectionBoundary) : StatusOr (Z * Z) :=
  let row := boundary_row b in
  let st' := check_order "non-monotonic boundary columns" st row in
  _ ← st';
  _ ← require (bool_decide (boundary_operation b = kPut)
               || bool_decide (boundary_operation b = kDelete))
        (InvalidArgument "projection" "unknown fact operation");
  st'.

Definition check_chain (c : ProjectionChain) (codec : CompressionCodec) : StatusOr unit :=
  let h := header c in
  _ ← require (negb ((ProjectionKind_to_u8 (kind h) <? 1) || (5 <? ProjectionKind_to_u8 (kind h))))
        (InvalidArgument "projection" "invalid projection kind");
  _ ← require ((CompressionCodec_to_u8 codec =? 0) || (CompressionCodec_to_u8 codec =? 1))
        (NotSupported "projection" "column codec is not a file codec");
  _ ← check (ValidRange (entity_min h) (entity_max_exclusive h) (valid_from_min h)
               (valid_to_max h));
  _ ← loop (check_order "non-monotonic interval columns") (0, 0) (interval_row <$> intervals c);
  _ ← loop check_boundary (0, 0) (boundaries c);
  require (forallb (fun v => Z.of_nat (length (Encode v)) <=? U32_MAX)
             ((interval_value <$> intervals c) ++ (boundary_value <$> boundaries c)))
    (exhausted "typed value exceeds column limit").

(** The bits of the entities of an adjacency page. *)
Definition adjacency_mask (entities : list Z) : Z :=
  fold_left (fun mask e => Z.lor mask (Z.shiftl 1 (e mod 64))) entities 0.

Definition page_entry (c : ProjectionChain) (i : nat)
    (page : list ProjectionInterval * list ProjectionBoundary)
  : ProjectionPageDirectoryEntry :=
  let h := header c in
  let d :=
    match page_directory c !! i with
    | Some d => d
    | None => mkDirectoryEntry 0 0 0 0 (entity_min h) (entity_max_exclusive h)
                (valid_from_min h) (valid_to_max h) None None 0 0 0 0
    end in
  if bool_decide (ProjectionKind_to_u8 (kind h) = 2) then
    mkDirectoryEntry (page_offset d) (compressed_bytes d) (uncompressed_bytes d) (row_count d)
      (page_entity_min d) (page_entity_max_exclusive d) (page_valid_from_min d)
      (page_valid_to_max d) (edge_type_min d) (edge_type_max d) (payload_crc32c d) 64 1
      (adjacency_mask ((interval_entity_id <$> page.1) ++ (boundary_entity_id <$> page.2)))
  else d.

Definition encode_page (lz4 : Lz4) (c : ProjectionChain) (codec : CompressionCodec)
    (st : list (list byte) * list ProjectionPageDirectoryEntry * Z)
    (indexed : nat * (list ProjectionInterval * list ProjectionBoundary))
  : StatusOr (list (list byte) * list ProjectionPageDirectoryEntry * Z) :=
  let '(payloads, dirs, offset) := st in
  let '(i, page) := indexed in
  let ni := Z.of_nat (length page.1) in
  let nb := Z.of_nat (length page.2) in
  _ ← require (negb ((U32_MAX <? ni) || (U32_MAX <? nb))) (exhausted "too many page rows");
  let raw := EncodePayload page.1 page.2 in
  cp ← CompressProjectionPayload lz4 codec raw;
  let size := Z.of_nat (length cp) in
  _ ← require (negb ((U32_MAX <? Z.of_nat (length raw)) || (U32_MAX <? size)))
        (exhausted "page too large");
  let d := page_entry c i page in
  _ ← check (ValidPage d);
  let d :=
    mkDirectoryEntry offset size (Z.of_nat (length raw)) (wrap 32 (ni + nb))
      (page_entity_min d) (page_entity_max_exclusive d) (page_valid_from_min d)
      (page_valid_to_max d) (edge_type_min d) (edge_type_max d) (crc32c cp) (bloom_bits d)
      (bloom_hashes d) (bloom_mask d) in
  Ok (payloads ++ [cp], dirs ++ [d], offset + size).

Definition EncodeProjectionPage (lz4 : Lz4) (c : ProjectionChain) (codec : CompressionCodec)
  : StatusOr (list byte) :=
  _ ← check_chain c codec;
  let pages := Pages (Nat.max 1 (length (page_directory c))) (intervals c) (boundaries c) in
  let count := Z.of_nat (length pages) in
  _ ← require (count <=? U32_MAX) (exhausted "too many pages");
  '(payloads, dirs, _) ←
    loop (encode_page lz4 c codec) ([], [], kHeaderBytes + count * kDirectoryBytes)
      (zip (seq 0 (length pages)) pages);
  let out := encode_header (header c) codec count ++ mjoin (encode_entry <$> dirs)
             ++ mjoin payloads in
  Ok (out ++ le_bytes 4 (crc32c out)).

(** The fields of a header behind its first fourteen bytes, up to the flag. *)
Definition read_header (k : ProjectionKind) (b : list byte) (p : nat)
  : option (ProjectionHeader * nat) :=
  '(gen, p) ← GetLittleEndian 8 b p;
  '(base, p) ← GetLittleEndian 8 b p;
  '(part, p) ← GetLittleEndian 4 b p;
  '(prop, p) ← GetLittleEndian 2 b p;
  '(schema, p) ← GetLittleEndian 4 b p;
  '(emin, p) ← GetLittleEndian 8 b p;
  '(emax, p) ← GetLittleEndian 8 b p;
  '(valid_from, p) ← GetLittleEndian 8 b p;
  if (length b <=? p)%nat then None
  else Some (mkProjectionHeader k gen base part prop schema emin emax valid_from None, p).

Definition with_valid_to (h : ProjectionHeader) (has valid_to : Z) : ProjectionHeader :=
  mkProjectionHeader (kind h) (generation_id h) (base_seq h) (header_part_id h)
    (header_property_id h) (header_schema_epoch h) (entity_min h) (entity_max_exclusive h)
    (valid_from_min h) (if has =? 0 then None else Some valid_to).

Definition header_range (h : ProjectionHeader) : Status :=
  ValidRange (entity_min h) (entity_max_exclusive h) (valid_from_min h) (valid_to_max h).

(** One entry of the directory; the two readers name its defects differently. *)
Definition read_entry (truncated bad_flag metadata bloom : string) (b : list byte)
    (st : list ProjectionPageDirectoryEntry * nat) (_ : nat)
  : StatusOr (list ProjectionPageDirectoryEntry * nat) :=
  let '(entries, p) := st in
  '(offset, compressed, uncompressed, rows, emin, emax, vf, p) ←
    from_option
      ('(offset, p) ← GetLittleEndian 8 b p;
       '(compressed, p) ← GetLittleEndian 4 b p;
       '(uncompressed, p) ← GetLittleEndian 4 b p;
       '(rows, p) ← GetLittleEndian 4 b p;
       '(emin, p) ← GetLittleEndian 8 b p;
       '(emax, p) ← GetLittleEndian 8 b p;
       '(vf, p) ← GetLittleEndian 8 b p;
       if (length b <=? p)%nat then None
       else Some (offset, compressed, uncompressed, rows, emin, emax, vf, p))
      (corrupt truncated);
  let hp := byte_at b p in
  '(vt, p) ←
    from_option
      (if 1 <? hp then None
       else
         '(vt, p) ← GetLittleEndian 8 b (S p);
         if (length b <=? p)%nat then None else Some (vt, p))
      (corrupt bad_flag);
  let he := byte_at b p in
  '(mn, mx, crc, bits, p) ←
    from_option
      (if 1 <? he then None
       else
         '(mn, p) ← GetLittleEndian 8 b (S p);
         '(mx, p) ← GetLittleEndian 8 b p;
         '(crc, p) ← GetLittleEndian 4 b p;
         '(bits, p) ← GetLittleEndian 8 b p;
         if (length b <=? p)%nat then None else Some (mn, mx, crc, bits, p))
      (corrupt metadata);
  let hashes := byte_at b p in
  '(mask, p) ← from_option (GetLittleEndian 8 b (S p)) (corrupt bloom);
  let d :=
    mkDirectoryEntry offset compressed uncompressed rows emin emax vf
      (if hp =? 0 then None else Some vt) (if he =? 0 then None else Some mn)
      (if he =? 0 then None else Some mx) crc bits hashes mask in
  _ ← check (ValidPage d);
  Ok (entries ++ [d], p).

(** [end] behind one page of the directory. *)
Definition directory_step (start size : Z) (end_ : Z) (d : ProjectionPageDirectoryEntry)
  : StatusOr Z :=
  _ ← require (negb ((page_offset d <? start) || (page_offset d <? end_)
                     || (size - 4 <? page_offset d))) (corrupt "malformed directory");
  _ ← require (compressed_bytes d <=? size - 4 - page_offset d) (corrupt "page exceeds file");
  Ok (page_offset d + compressed_bytes d).

Definition ValidDirectory (entries : list ProjectionPageDirectoryEntry) (start size : Z)
  : StatusOr unit :=
  _ ← require (negb ((size <? 4) || (size - 4 <? start))) (corrupt "directory outside file");
  end_ ← loop (directory_step start size) start entries;
  require (end_ =? size - 4) (corrupt "page payload gap").

(** The header and the directory of a whole file. *)
Definition decode_directory (b : list byte) (limit : Z)
  : StatusOr (ProjectionHeader * CompressionCodec * list ProjectionPageDirectoryEntry) :=
  let size := Z.of_nat (length b) in
  _ ← require (negb ((size <? kHeaderBytes + 4) || negb (bool_decide (take 8 b = magic))))
        (corrupt "bad magic or truncated file");
  '(version, p) ← from_option (GetLittleEndian 4 b 8) (corrupt "truncated version");
  _ ← require (version =? 1) (NotSupported "projection" "unknown format version");
  _ ← require (p + 2 <=? length b)%nat (corrupt "truncated header");
  let k := byte_at b p in
  let codec := byte_at b (S p) in
  _ ← require (negb ((k <? 1) || (5 <? k))) (corrupt "invalid projection kind");
  _ ← require ((codec =? 0) || (codec =? 1))
        (NotSupported "projection" "column codec is not a file codec");
  '(h, p) ← from_option (read_header (ProjectionKind_of_u8 k) b (p + 2))
              (corrupt "truncated header");
  let has := byte_at b p in
  '(valid_to, count, p) ←
    from_option
      (if 1 <? has then None
       else
         '(valid_to, p) ← GetLittleEndian 8 b (S p);
         '(count, p) ← GetLittleEndian 4 b p;
         Some (valid_to, count, p))
      (corrupt "invalid header flag");
  let h := with_valid_to h has valid_to in
  _ ← check (header_range h);
  _ ← require (negb ((limit / kDirectoryBytes <? count)
                     || ((size - kHeaderBytes) / kDirectoryBytes <? count)))
        (exhausted "directory exceeds budget");
  p ← from_option
        ('(hc, p) ← GetLittleEndian 4 b p;
         if (Z.of_nat p =? kHeaderBytes)
            && (hc =? crc32c (take (Z.to_nat (kHeaderBytes - 4)) b)) then Some p else None)
        (corrupt "header CRC32C mismatch");
  '(entries, _) ←
    loop (read_entry "truncated directory" "invalid page flag" "truncated page metadata"
            "truncated bloom metadata" b) ([], p) (seq 0 (Z.to_nat count));
  _ ← ValidDirectory entries (kHeaderBytes + count * kDirectoryBytes) size;
  _ ← from_option
        ('(fc, _) ← GetLittleEndian 4 b (length b - 4);
         if fc =? crc32c (take (length b - 4) b) then Some tt else None)
        (corrupt "file CRC32C mismatch");
  Ok (h, CompressionCodec_of_u8 codec, entries).

(** The rows so far, the bytes of the pages so far, and the budget. *)
Definition decode_page (sizes : ProjectionSizes) (lz4 : Lz4) (b : list byte) (limit : Z)
    (codec : CompressionCodec) (only_page : option nat)
    (st : list ProjectionInterval * list ProjectionBoundary * Z * Budget)
    (indexed : nat * ProjectionPageDirectoryEntry)
  : StatusOr (list ProjectionInterval * list ProjectionBoundary * Z * Budget) :=
  let '(ivs, bds, used_bytes, budget) := st in
  let '(page_index, d) := indexed in
  if match only_page with Some i => negb (page_index =? i)%nat | None => false end then Ok st
  else
    let payload := take (Z.to_nat (compressed_bytes d)) (drop (Z.to_nat (page_offset d)) b) in
    _ ← require (payload_crc32c d =? crc32c payload) (corrupt "page payload CRC32C mismatch");
    _ ← require (negb ((limit - Z.min limit used_bytes <? uncompressed_bytes d)
                       || (limit - Z.min limit used_bytes <? compressed_bytes d)))
          (exhausted "payload exceeds remaining budget");
    raw ← DecompressProjectionPayload lz4 codec payload
            (Z.min (uncompressed_bytes d) (limit - used_bytes));
    _ ← require (Z.of_nat (length raw) =? uncompressed_bytes d)
          (corrupt "decoded length mismatch");
    let rows := Z.of_nat (length ivs + length bds) in
    '(ivs', bds', budget) ←
      DecodePayload (fun _ _ => true) sizes raw (limit - Z.min limit rows) budget;
    _ ← require (Z.of_nat (length ivs' + length bds') =? row_count d)
          (corrupt "directory row count mismatch");
    Ok (ivs ++ ivs', bds ++ bds', used_bytes + uncompressed_bytes d, budget).

Definition DecodeProjectionPageImpl (sizes : ProjectionSizes) (lz4 : Lz4) (b : list byte)
    (limit : Z) (only_page : option nat) : StatusOr ProjectionChain :=
  '(h, codec, entries) ← decode_directory b limit;
  '(ivs, bds, _, _) ←
    loop (decode_page sizes lz4 b limit codec only_page) ([], [], 0, mkBudget 0 [])
      (zip (seq 0 (length entries)) entries);
  Ok (mkProjectionChain h ivs bds entries).

Definition DecodeProjectionPage (sizes : ProjectionSizes) (lz4 : Lz4) (bytes : list byte)
    (limit : Z) : StatusOr ProjectionChain :=
  DecodeProjectionPageImpl sizes lz4 bytes limit None.

Definition ReadProjectionPage (sizes : ProjectionSizes) (lz4 : Lz4) (bytes : list byte)
    (page_index : nat) (limit : Z) : StatusOr ProjectionChain :=
  c ← DecodeProjectionPageImpl sizes lz4 bytes limit (Some page_index);
  d ← from_option (page_directory c !! page_index)
        (InvalidArgument "projection" "page index out of range");
  Ok (mkProjectionChain (header c) (intervals c) (boundaries c) [d]).

(** The directory alone, from the first bytes of a file. *)
Definition DecodeProjectionDirectory (b : list byte) (file_size : Z)
  : StatusOr (ProjectionChain * CompressionCodec) :=
  let size := Z.of_nat (length b) in
  _ ← require (negb ((file_size <? kHeaderBytes + 4) || (size <? kHeaderBytes)
                     || negb (bool_decide (take 8 b = magic))))
        (corrupt "bad directory header");
  p ← from_option
        ('(version, p) ← GetLittleEndian 4 b 8;
         if (version =? 1) && (p + 2 <=? length b)%nat then Some p else None)
        (corrupt "invalid directory header");
  let k := byte_at b p in
  let codec := byte_at b (S p) in
  _ ← require (negb ((k <? 1) || (4 <? k))) (corrupt "invalid projection kind");
  _ ← require ((codec =? 0) || (codec =? 1)) (NotSupported "projection" "unknown page codec");
  '(h, p) ← from_option (read_header (ProjectionKind_of_u8 k) b (p + 2))
              (corrupt "truncated directory header");
  let has := byte_at b p in
  '(valid_to, count, p) ←
    from_option
      (if 1 <? has then None
       else
         '(valid_to, p) ← GetLittleEndian 8 b (S p);
         '(count, p) ← GetLittleEndian 4 b p;
         if ((file_size - kHeaderBytes - 4) / kDirectoryBytes <? count)
            || ((size - kHeaderBytes) / kDirectoryBytes <? count) then None
         else Some (valid_to, count, p))
      (corrupt "invalid directory count");
  p ← from_option
        ('(hc, p) ← GetLittleEndian 4 b p;
         if (Z.of_nat p =? kHeaderBytes)
            && (hc =? crc32c (take (Z.to_nat (kHeaderBytes - 4)) b)) then Some p else None)
        (corrupt "directory header CRC mismatch");
  let h := with_valid_to h has valid_to in
  _ ← check (header_range h);
  '(entries, p) ←
    loop (read_entry "truncated page directory" "invalid page time flag"
            "truncated page directory" "truncated bloom directory" b) ([], p)
      (seq 0 (Z.to_nat count));
  let directory_end := kHeaderBytes + count * kDirectoryBytes in
  _ ← require (Z.of_nat p =? directory_end) (corrupt "directory size mismatch");
  _ ← ValidDirectory entries directory_end file_size;
  Ok (mkProjectionChain h [] [] entries, CompressionCodec_of_u8 codec).

(** The bits that an entity is tested with. *)
Fixpoint bloom_rounds (rounds : nat) (i : Z) (bits mask hash entity_id : Z) : bool :=
  match rounds with
  | O => true
  | S rounds' =>
      let bit := if i =? 0 then entity_id mod bits
                 else Z.shiftr hash (i * 7 mod 63) mod bits in
      if Z.land mask (Z.shiftl 1 bit) =? 0 then false
      else bloom_rounds rounds' (i + 1) bits mask (Z.lxor hash (Z.shiftr hash 29)) entity_id
  end.

Definition PageMayContainEntity (page : ProjectionPageDirectoryEntry) (entity_id : Z) : bool :=
  if (bloom_bits page =? 0) || (bloom_mask page =? 0) then true
  else
    bloom_rounds (Z.to_nat (Z.max (bloom_hashes page) 1)) 0 (Z.min (bloom_bits page) 64)
      (bloom_mask page) (wrap 64 (entity_id * 0x9e3779b97f4a7c15)) entity_id.

(** One page whose payload was read from the file; the capacity of the string that holds
    it is charged. *)
Definition ReadProjectionPagePayload (reserve : list Z -> Z -> bool) (sizes : ProjectionSizes)
    (lz4 : Lz4) (h : ProjectionHeader) (codec : CompressionCodec)
    (directory : ProjectionPageDirectoryEntry) (payload : list byte)
    (payload_capacity allocation_limit : Z) : StatusOr ProjectionChain :=
  _ ← require ((Z.of_nat (length payload) =? compressed_bytes directory)
               && (crc32c payload =? payload_crc32c directory))
        (corrupt "page payload CRC32C mismatch");
  let fixed_bytes := payload_capacity + uncompressed_bytes directory
                     + sizeof_ProjectionChain sizes + sizeof_DirectoryEntry sizes in
  _ ← require (fixed_bytes <=? allocation_limit) (exhausted "page scratch exceeds budget");
  _ ← require (reserve [] (fixed_bytes - payload_capacity))
        (exhausted "page scratch reservation failed");
  raw ← DecompressProjectionPayload lz4 codec payload
          (Z.min (uncompressed_bytes directory) allocation_limit);
  _ ← require (Z.of_nat (length raw) =? uncompressed_bytes directory)
        (corrupt "decoded page length mismatch");
  '(ivs, bds, _) ←
    DecodePayload reserve sizes raw allocation_limit
      (mkBudget fixed_bytes [fixed_bytes - payload_capacity]);
  _ ← require (Z.of_nat (length ivs + length bds) =? row_count directory)
        (corrupt "directory row count mismatch");
  Ok (mkProjectionChain h ivs bds [directory]).

(** ** Specification *)

Definition sample_sizes : ProjectionSizes := mkProjectionSizes 40 72 64 120 136.

(** A chain of three pages. *)
Definition sample_chain : ProjectionChain :=
  let row e f t v := mkProjectionInterval (mkInterval f t) (VInt32 v) e in
  let page low high := mkDirectoryEntry 0 0 0 0 low high 0 None None None 0 0 0 0 in
  mkProjectionChain
    (mkProjectionHeader kAdjacency 3 9 1 0 0 1 8 5 None)
    [row 1 10 (Some 20) 7; row 1 20 None 8; row 2 5 (Some 6) 7; row 5 5 None 7]
    [mkProjectionBoundary 10 kPut (VInt32 7) 1; mkProjectionBoundary 30 kDelete (VInt32 0) 1]
    [page 1 3; page 3 8].

(** Two rows of one entity, the later one first. *)
Definition unordered_chain : ProjectionChain :=
  let row e f t v := mkProjectionInterval (mkInterval f t) (VInt32 v) e in
  mkProjectionChain (mkProjectionHeader kStateProjection 3 9 1 0 0 1 2 5 None)
    [row 1 10 None 7; row 1 5 None 8] [] [].

(** What a value needs to survive its encoding. *)
Definition value_ok (v : Value) : Prop :=
  value_wf v /\
  match v with VString s | VBinary s => Z.of_nat (length s) < 2 ^ 32 | _ => True end /\
  Z.of_nat (length (Encode v)) <= U32_MAX.

(** Rows in the order of their entities and, within one, of their times. *)
Definition row_le (a b : Z * Z) : Prop := a.1 < b.1 \/ a.1 = b.1 /\ a.2 <= b.2.

Definition rows_ok (rows : list (Z * Z)) : Prop :=
  StronglySorted row_le rows /\ Forall (fun r => uint 64 r.1 /\ uint 64 r.2) rows.

Definition interval_ok (i : ProjectionInterval) : Prop :=
  value_ok (interval_value i) /\
  match to (effective_interval i) with
  | Some t => uint 64 t /\ from (effective_interval i) <= t
  | None => True
  end.

Definition boundary_ok (b : ProjectionBoundary) : Prop :=
  value_ok (boundary_value b) /\ (boundary_operation b = kPut \/ boundary_operation b = kDelete).

Definition sizes_ok (sizes : ProjectionSizes) : Prop :=
  0 < sizeof_Value sizes < 2 ^ 32 /\ 0 < sizeof_ProjectionInterval sizes < 2 ^ 32 /\
  0 < sizeof_ProjectionBoundary sizes < 2 ^ 32 /\
  0 <= sizeof_ProjectionChain sizes /\ 0 <= sizeof_DirectoryEntry sizes.

(** A budget that has room for [cost] more. *)
Definition room (limit : Z) (b : Budget) (cost : Z) : Prop :=
  0 <= allocation_used b /\ allocation_used b + cost <= limit.

(** What the blobs, the values of a dictionary and the rows of a page are charged. *)
Definition blobs_cost (blobs : list (list byte)) : Z :=
  Z.of_nat (length (mjoin blobs)).

Definition dictionary_cost (sizes : ProjectionSizes) (vs : list Value) : Z :=
  foldr (fun v cost => sizeof_Value sizes + 3 * Z.of_nat (length (Encode v)) + cost) 0 vs.

Definition rows_cost (sizeof_row : Z) (vs : list Value) : Z :=
  foldr (fun v cost => sizeof_row + Z.of_nat (length (Encode v)) + cost) 0 vs.

(** An entry of the dictionary that a reader holds. *)
Definition entry_of_value (v : Value) : Value * Z := (v, Z.of_nat (length (Encode v))).

(** The indices name the values in the dictionary. *)
Definition indexed (dictionary : list (Value * Z)) (values : list Value) (indexes : list Z)
  : Prop :=
  Forall2 (fun v i => dictionary !! Z.to_nat i = Some (entry_of_value v)) values indexes.

(** The columns of the ends, their presence and the operations. *)
Definition ends (ivs : list ProjectionInterval) : list Z :=
  (fun i => default 0 (to (effective_interval i))) <$> ivs.

Definition presence (ivs : list ProjectionInterval) : list byte :=
  bitset ((fun i => bool_decide (is_Some (to (effective_interval i)))) <$> ivs).

Definition operations (bds : list ProjectionBoundary) : list byte :=
  bitset ((fun b => bool_decide (boundary_operation b = kPut)) <$> bds).

(** The streams of a page and its bytes, with the values of the dictionary. *)
Definition columns (ivs : list ProjectionInterval) (bds : list ProjectionBoundary)
    (ii bi : list Z) : list (list byte) :=
  let ideltas := deltas 0 0 (interval_row <$> ivs) in
  let bdeltas := deltas 0 0 (boundary_row <$> bds) in
  [presence ivs; operations bds; column ideltas.1; column ideltas.2; column (ends ivs);
   EncodeRle ii; column bdeltas.1; column bdeltas.2; EncodeRle bi].

Definition payload_bytes (vs : list Value) (ivs : list ProjectionInterval)
    (bds : list ProjectionBoundary) (ii bi : list Z) : list byte :=
  le_bytes 4 kPayloadMagic ++ le_bytes 4 (Z.of_nat (length ivs))
  ++ le_bytes 4 (Z.of_nat (length bds)) ++ le_bytes 4 (Z.of_nat (length vs))
  ++ mjoin (PutBlob <$> (Encode <$> vs)) ++ mjoin (PutBlob <$> columns ivs bds ii bi).

(** What the reader of a page charges, with the sizes of a row of each kind. *)
Definition payload_cost (sizes : ProjectionSizes) (vs : list Value)
    (ivs : list ProjectionInterval) (bds : list ProjectionBoundary) (ii bi : list Z) : Z :=
  Z.of_nat (length vs) * (sizeof_Value sizes + 8)
  + (dictionary_cost sizes vs
  + (blobs_cost (columns ivs bds ii bi)
  + (Z.of_nat (length ivs) * (sizeof_ProjectionInterval sizes + 4)
     + Z.of_nat (length bds) * (sizeof_ProjectionBoundary sizes + 4)
  + (rows_cost (sizeof_ProjectionInterval sizes) (interval_value <$> ivs)
  + (rows_cost (sizeof_ProjectionBoundary sizes) (boundary_value <$> bds)
  + (sizeof_ProjectionInterval sizes + sizeof_ProjectionBoundary sizes)))))).

(** The fields of a header and of a directory entry have their types. *)
Definition header_ok (h : ProjectionHeader) : Prop :=
  ProjectionKind_of_u8 (ProjectionKind_to_u8 (kind h)) = kind h /\
  uint 64 (generation_id h) /\ uint 64 (base_seq h) /\ uint 32 (header_part_id h) /\
  uint 16 (header_property_id h) /\ uint 32 (header_schema_epoch h) /\
  uint 64 (entity_min h) /\ uint 64 (entity_max_exclusive h) /\ uint 64 (valid_from_min h) /\
  uint 64 (default 0 (valid_to_max h)).

Definition entry_ok (d : ProjectionPageDirectoryEntry) : Prop :=
  uint 64 (page_entity_min d) /\ uint 64 (page_entity_max_exclusive d) /\
  uint 64 (page_valid_from_min d) /\ uint 64 (default 0 (page_valid_to_max d)) /\
  uint 64 (default 0 (edge_type_min d)) /\ uint 64 (default 0 (edge_type_max d)) /\
  uint 64 (bloom_bits d) /\ uint 8 (bloom_hashes d) /\ uint 64 (bloom_mask d).

Definition placed_ok (d : ProjectionPageDirectoryEntry) : Prop :=
  uint 64 (page_offset d) /\ uint 32 (compressed_bytes d) /\ uint 32 (uncompressed_bytes d) /\
  uint 32 (row_count d) /\ uint 32 (payload_crc32c d) /\ entry_ok d /\ ValidPage d = StatusOK.

(** Rows that the readers give back. *)
Definition page_ok (page : list ProjectionInterval * list ProjectionBoundary) : Prop :=
  rows_ok (interval_row <$> page.1) /\ Forall interval_ok page.1 /\
  rows_ok (boundary_row <$> page.2) /\ Forall boundary_ok page.2.

Definition chain_ok (c : ProjectionChain) : Prop :=
  header_ok (header c) /\ Forall entry_ok (page_directory c) /\
  page_ok (intervals c, boundaries c).

(** The payloads follow each other in the order of the directory. *)
Fixpoint contiguous (offset : Z) (dirs : list ProjectionPageDirectoryEntry)
    (payloads : list (list byte)) : Prop :=
  match dirs, payloads with
  | [], [] => True
  | d :: dirs', p :: payloads' =>
      page_offset d = offset /\ compressed_bytes d = Z.of_nat (length p) /\
      contiguous (offset + Z.of_nat (length p)) dirs' payloads'
  | _, _ => False
  end.

Definition page_entities (page : list ProjectionInterval * list ProjectionBoundary) : list Z :=
  (interval_entity_id <$> page.1) ++ (boundary_entity_id <$> page.2).

(** A page, its entry and its payload. *)
Definition stored (lz4 : Lz4) (k : ProjectionKind) (codec : CompressionCodec)
    (page : list ProjectionInterval * list ProjectionBoundary)
    (d : ProjectionPageDirectoryEntry) (payload : list byte) : Prop :=
  let raw := EncodePayload page.1 page.2 in
  CompressProjectionPayload lz4 codec raw = Ok payload /\
  Z.of_nat (length raw) <= U32_MAX /\ Z.of_nat (length payload) <= U32_MAX /\
  compressed_bytes d = Z.of_nat (length payload) /\
  uncompressed_bytes d = Z.of_nat (length raw) /\
  row_count d = wrap 32 (Z.of_nat (length page.1) + Z.of_nat (length page.2)) /\
  payload_crc32c d = crc32c payload /\ entry_ok d /\ ValidPage d = StatusOK /\
  (k = kAdjacency ->
   bloom_bits d = 64 /\ bloom_hashes d = 1 /\ bloom_mask d = adjacency_mask (page_entities page)).

(** The bytes of a file before its checksum. *)
Definition file_body (h : ProjectionHeader) (codec : CompressionCodec)
    (dirs : list ProjectionPageDirectoryEntry) (payloads : list (list byte)) : list byte :=
  encode_header h codec (Z.of_nat (length dirs)) ++ mjoin (encode_entry <$> dirs)
  ++ mjoin payloads.

(** [lia] with divisions. *)
Ltac lia_mod := zify; Z.div_mod_to_equations; lia.

(** ** Budgets *)

Lemma blobs_cost_cons blob blobs :
  blobs_cost (blob :: blobs) = Z.of_nat (length blob) + blobs_cost blobs.
Proof. unfold blobs_cost. cbn [mjoin list_join]. by rewrite length_app, Nat2Z.inj_add. Qed.

Lemma blobs_cost_nonneg blobs : 0 <= blobs_cost blobs.
Proof. unfold blobs_cost. lia. Qed.

(** ** Dictionaries *)

Lemma add_value_spec values dictionary indexes dictionary' indexes' :
  fold_left add_value values (dictionary, indexes) = (dictionary', indexes') ->
  Z.of_nat (length dictionary') < 2 ^ 32 ->
  (exists added, dictionary' = dictionary ++ (Encode <$> added) /\ added ⊆ values) /\
  exists new, indexes' = indexes ++ new /\
    Forall2 (fun v i => uint 32 i /\ dictionary' !! Z.to_nat i = Some (Encode v)) values new.
Proof.
  revert dictionary indexes. induction values as [|v values IH]; intros dictionary indexes H Hlen.
  { injection H as <- <-. split; [exists []; by rewrite app_nil_r|].
    exists []. by rewrite app_nil_r. }
  cbn [fold_left add_value] in H.
  destruct (dictionary_index dictionary (Encode v)) as [i|] eqn:Ei.
  - apply dictionary_index_spec in Ei.
    destruct (IH _ _ H Hlen) as [(added & -> & Hsub) (new & -> & Hnew)].
    split; [exists added; split; [done|set_solver]|].
    exists (Z.of_nat i :: new). rewrite <- app_assoc. split; [done|]. constructor; [|done].
    rewrite Nat2Z.id. split; [|by apply lookup_app_l_Some].
    apply lookup_lt_Some in Ei. rewrite length_app in Hlen. unfold uint. lia.
  - destruct (IH _ _ H Hlen) as [(added & -> & Hsub) (new & -> & Hnew)].
    rewrite !length_app in Hlen. cbn [length] in Hlen.
    rewrite uint_wrap in * by (unfold uint; lia).
    split.
    + exists (v :: added). rewrite fmap_cons, <- app_assoc. split; [done|]. set_solver.
    + exists (Z.of_nat (length dictionary) :: new). rewrite <- app_assoc. split; [done|].
      constructor; [|done]. rewrite Nat2Z.id. split; [unfold uint; lia|].
      rewrite <- app_assoc, lookup_app_r, Nat.sub_diag by lia. done.
Qed.

(** ** Runs *)

Lemma DecodeRle_at fuel fuel' values input o out :
  (length values <= fuel)%nat -> (length (EncodeRle_rounds fuel values) <= fuel')%nat ->
  Forall (uint 32) values -> Z.of_nat (length values) < 2 ^ 32 ->
  suffix_at input o (EncodeRle_rounds fuel values) ->
  DecodeRle_rounds fuel' input o (length values) out = Some (out ++ values).
Proof.
  revert fuel' values o out. induction fuel as [|fuel IH]; intros fuel' values o out Hf Hf' Ht Hb H.
  all: destruct values as [|v values]; try (cbn in Hf; lia).
  1,2: pose proof (suffix_at_length _ _ _ H) as Hl; cbn in Hl;
    destruct fuel'; cbn; rewrite (proj2 (Nat.eqb_eq _ _)) by lia; by rewrite app_nil_r.
  cbn [EncodeRle_rounds length] in *. rewrite !length_app, !length_le_bytes in Hf'.
  destruct fuel' as [|fuel']; [lia|].
  destruct (run_length_spec v values) as [Hrun Hvalues]. set (more := run_length v values) in *.
  apply Forall_cons in Ht as [Hv Ht]. rewrite uint_wrap in H by (unfold uint; lia).
  cbn [DecodeRle_rounds].
  apply GetLittleEndian_at in H as [-> H]; [|done]. cbn [mbind option_bind].
  apply GetLittleEndian_at in H as [-> H]; [|unfold uint; cbn; lia]. cbn [mbind option_bind].
  rewrite (proj2 (Z.eqb_neq _ _)) by lia. cbn [orb]. rewrite (proj2 (Z.ltb_ge _ _)) by lia.
  rewrite Nat2Z.id. replace (S (length values) - S more)%nat with (length (drop more values))
    by (rewrite length_drop; lia).
  rewrite (IH fuel' (drop more values)); try done.
  - rewrite <- app_assoc. cbn. by rewrite <- Hvalues.
  - rewrite length_drop. lia.
  - lia.
  - by apply Forall_drop.
  - rewrite length_drop. lia.
Qed.

Lemma DecodeRle_EncodeRle values :
  Forall (uint 32) values -> Z.of_nat (length values) < 2 ^ 32 ->
  DecodeRle (EncodeRle values) (length values) = Some values.
Proof.
  intros H Hl. unfold DecodeRle, EncodeRle.
  apply (DecodeRle_at (length values) _ values _ 0 []); [lia|lia|done|done|].
  apply suffix_at_0.
Qed.

(** ** Bit sets *)

Lemma land_bit x j : 0 <= j -> negb (Z.land x (Z.shiftl 1 j) =? 0) = Z.testbit x j.
Proof.
  intros Hj. destruct (Z.testbit x j) eqn:E.
  - apply negb_true_iff, Z.eqb_neq. intros H0.
    assert (Z.testbit (Z.land x (Z.shiftl 1 j)) j = false) as Hf by (by rewrite H0, Z.bits_0).
    rewrite Z.land_spec, E, Z.shiftl_spec, Z.sub_diag in Hf by lia. done.
  - apply negb_false_iff, Z.eqb_eq. apply Z.bits_inj'. intros k Hk.
    rewrite Z.land_spec, Z.bits_0, Z.shiftl_1_l, Z.pow2_bits_eqb by lia.
    destruct (Z.eqb_spec j k) as [->|]; [by rewrite E|apply andb_false_r].
Qed.

Lemma test_flag_testbit bits n :
  test_flag bits n = Z.testbit (byte_at bits (n / 8)) (Z.of_nat n mod 8).
Proof. unfold test_flag. apply land_bit. lia_mod. Qed.

Lemma byte_at_lookup bits i b : bits !! i = Some b -> byte_at bits i = b2z b.
Proof. intros H. unfold byte_at. by rewrite (nth_lookup_Some _ _ _ _ H). Qed.

Lemma test_flag_set_flag bits n m :
  (n / 8 < length bits)%nat ->
  test_flag (set_flag bits n) m = (n =? m)%nat || test_flag bits m.
Proof.
  intros Hn. rewrite !test_flag_testbit. unfold set_flag.
  destruct (decide (n / 8 = m / 8)%nat) as [Hd|Hd].
  - rewrite <- Hd. destruct (lookup_lt_is_Some_2 bits (n / 8) Hn) as [b Hb].
    rewrite (byte_at_lookup _ _ (z2b (Z.lor (b2z b) (Z.shiftl 1 (Z.of_nat n mod 8)))))
      by (by rewrite list_lookup_alter_eq, Hb).
    rewrite (byte_at_lookup _ _ _ Hb), b2z_z2b. change 256 with (2 ^ 8).
    rewrite Z.mod_pow2_bits_low, Z.lor_spec, Z.shiftl_1_l, Z.pow2_bits_eqb by lia_mod.
    rewrite orb_comm. f_equal. destruct (Nat.eqb_spec n m) as [->|Hne]; [apply Z.eqb_refl|].
    apply Z.eqb_neq. lia_mod.
  - rewrite (proj2 (Nat.eqb_neq n m)) by congruence. cbn [orb]. f_equal.
    unfold byte_at. rewrite !nth_lookup. by rewrite list_lookup_alter_ne.
Qed.

Lemma length_set_flag bits n : length (set_flag bits n) = length bits.
Proof. apply length_alter. Qed.

Lemma bitset_flags (flags : list bool) k bits m :
  ((k + 7) / 8 <= length bits)%nat ->
  (forall n, test_flag bits n = false) ->
  let set bits n := if default false (flags !! n) then set_flag bits n else bits in
  length (fold_left set (seq 0 k) bits) = length bits /\
  test_flag (fold_left set (seq 0 k) bits) m
  = (m <? k)%nat && default false (flags !! m).
Proof.
  intros Hk Hzero set. induction k as [|k IH]; [by rewrite Hzero|].
  rewrite seq_S, fold_left_app. cbn [fold_left Nat.add].
  destruct IH as [IHl IH]; [lia_mod|]. unfold set at 1 3.
  assert ((m <? S k)%nat = (m <? k)%nat || (k =? m)%nat) as ->.
  { destruct (Nat.eqb_spec k m), (Nat.ltb_spec m k), (Nat.ltb_spec m (S k)); cbn; lia. }
  destruct (default false (flags !! k)) eqn:E.
  - rewrite length_set_flag, test_flag_set_flag, IH by lia_mod. split; [done|].
    destruct (Nat.eqb_spec k m) as [->|]; [by rewrite E, orb_true_r|by rewrite orb_false_r].
  - rewrite IH. split; [done|].
    destruct (Nat.eqb_spec k m) as [->|]; [by rewrite E, !andb_false_r|by rewrite orb_false_r].
Qed.

Lemma bitset_spec flags :
  length (bitset flags) = ((length flags + 7) / 8)%nat /\
  forall n, test_flag (bitset flags) n = default false (flags !! n).
Proof.
  assert (forall n m, test_flag (replicate n (z2b 0)) m = false) as Hzero.
  { intros n m. rewrite test_flag_testbit. unfold byte_at. rewrite nth_lookup.
    destruct (replicate n (z2b 0) !! (m / 8)%nat) as [b|] eqn:E; [|apply Z.bits_0].
    apply lookup_replicate in E as [-> _]. apply Z.bits_0. }
  pose proof (fun m => bitset_flags flags (length flags)
    (replicate ((length flags + 7) / 8) (z2b 0)) m) as H.
  rewrite length_replicate in H. unfold bitset. split.
  - by apply (H 0%nat).
  - intros n. destruct (H n) as [_ ->]; [done..|].
    destruct (Nat.ltb_spec n (length flags)); [done|]. by rewrite lookup_ge_None_2.
Qed.

Lemma bitset_padding flags : padding (bitset flags) (Z.of_nat (length flags)) = false.
Proof.
  destruct (bitset_spec flags) as [Hl Ht]. unfold padding.
  destruct (Z.eqb_spec (Z.of_nat (length flags) mod 8) 0) as [|Hr]; [done|]. cbn [negb andb].
  apply negb_false_iff, Z.eqb_eq, Z.bits_inj'. intros j Hj.
  rewrite Z.bits_0, Z.land_spec, Z.lxor_spec. 
  assert (0 <= Z.of_nat (length flags) mod 8 < 8) as Hr8 by lia_mod.
  remember (Z.of_nat (length flags) mod 8) as r eqn:Er.
  replace (Z.shiftl 1 r - 1) with (Z.ones r) by (unfold Z.ones; lia).
  change 0xff with (Z.ones 8). rewrite !Z.testbit_ones by lia.
  destruct (Z.ltb_spec j 8); [|by rewrite (proj2 (Z.ltb_ge j r)), !andb_false_r by lia].
  destruct (Z.ltb_spec j r); [by rewrite (proj2 (Z.leb_le 0 j)), andb_false_r by lia|].
  rewrite Hl. set (last := ((length flags + 7) / 8 - 1)%nat).
  specialize (Ht (8 * last + Z.to_nat j)%nat). rewrite test_flag_testbit in Ht.
  replace ((8 * last + Z.to_nat j) / 8)%nat with last in Ht by lia_mod.
  replace (Z.of_nat (8 * last + Z.to_nat j) mod 8) with j in Ht by lia_mod.
  rewrite Ht, lookup_ge_None_2; [done|]. subst last. lia_mod.
Qed.

(** ** Columns and differences *)

Lemma length_column values : length (column values) = (8 * length values)%nat.
Proof.
  unfold column. induction values as [|v values IH]; [done|].
  rewrite fmap_cons. cbn [mjoin list_join length]. rewrite length_app, length_le_bytes.
  change (mjoin ?l) with (mjoin (M := list) l). lia.
Qed.

Lemma column_at values n v :
  values !! n = Some v -> uint 64 v ->
  exists p, GetLittleEndian 8 (column values) (8 * n) = Some (v, p).
Proof.
  intros Hn Hv. rewrite <- (take_drop_middle _ _ _ Hn).
  assert (suffix_at (column (take n values ++ v :: drop (S n) values)) (8 * n)
            (le_bytes 8 v ++ column (drop (S n) values))) as Hs.
  { assert (length (column (take n values)) = (8 * n)%nat) as Hl.
    { rewrite length_column, length_take. apply lookup_lt_Some in Hn. lia. }
    unfold column at 1. rewrite fmap_app, join_app, fmap_cons.
    pose proof (suffix_at_skip _ _ _ _ (suffix_at_0
      (column (take n values) ++ le_bytes 8 v ++ column (drop (S n) values)))) as H.
    rewrite Hl in H. exact H. }
  apply GetLittleEndian_at in Hs as [-> _]; [by eexists|done].
Qed.

Lemma length_deltas pe pt rows :
  length (deltas pe pt rows).1 = length rows /\ length (deltas pe pt rows).2 = length rows.
Proof.
  revert pe pt. induction rows as [|[e t] rows IH]; intros pe pt; [done|]. cbn [deltas].
  specialize (IH e t). destruct (deltas e t rows). cbn in *. lia.
Qed.

Lemma deltas_lookup pe pt rows n e t pe' pt' :
  rows !! n = Some (e, t) -> ((pe, pt) :: rows) !! n = Some (pe', pt') ->
  (deltas pe pt rows).1 !! n = Some (wrap 64 (e - pe')) /\
  (deltas pe pt rows).2 !! n = Some (wrap 64 (t - if e =? pe' then pt' else 0)).
Proof.
  revert pe pt n. induction rows as [|[e0 t0] rows IH]; intros pe pt n Hn Hp; [done|].
  cbn [deltas]. specialize (IH e0 t0). destruct (deltas e0 t0 rows) as [es ts].
  destruct n as [|n]; cbn in Hn, Hp.
  - by simplify_eq.
  - apply (IH n Hn Hp).
Qed.

(** The row before is not behind. *)
Lemma rows_ok_step rows n e t pe pt :
  rows_ok rows -> rows !! n = Some (e, t) -> ((0, 0) :: rows) !! n = Some (pe, pt) ->
  uint 64 e /\ uint 64 t /\ uint 64 pe /\ uint 64 pt /\ pe <= e /\
  (if e =? pe then pt else 0) <= t.
Proof.
  intros [Hsort Htyped] Hn Hp.
  destruct (proj1 (Forall_lookup _ _) Htyped _ _ Hn) as [He Ht]. cbn in He, Ht.
  destruct n as [|n]; cbn in Hp.
  - simplify_eq. unfold uint in *. destruct (e =? 0); lia.
  - destruct (proj1 (Forall_lookup _ _) Htyped _ _ Hp) as [Hpe Hpt]. cbn in Hpe, Hpt.
    split_and!; try done.
    all: assert (row_le (pe, pt) (e, t)) as [|[]] by
      (rewrite <- (take_drop (S n) rows) in Hsort;
       apply (StronglySorted_app_1_elem_of _ _ _ _ _ Hsort); apply list_elem_of_lookup;
       [exists n; rewrite lookup_take_lt by lia|exists 0%nat; rewrite lookup_drop, Nat.add_0_r];
       done); cbn in *; try lia.
    all: destruct (Z.eqb_spec e pe); unfold uint in *; lia.
Qed.

(** ** The rows of a page *)

Lemma rows_cost_nonneg sizeof_row vs : 0 < sizeof_row -> 0 <= rows_cost sizeof_row vs.
Proof.
  intros H. induction vs; cbn [rows_cost foldr]; [done|]. fold (rows_cost sizeof_row vs). lia.
Qed.

Lemma indexed_at dictionary values indexes n v :
  indexed dictionary values indexes -> values !! n = Some v ->
  exists i, indexes !! n = Some i /\ dictionary !! Z.to_nat i = Some (entry_of_value v).
Proof. intros H Hn. by destruct (Forall2_lookup_l _ _ _ _ _ H Hn) as (i & Hi & Hd); eauto. Qed.

(** ** The bytes of a page *)

Lemma mjoin_cons {A} (x : list A) l : mjoin (x :: l) = x ++ mjoin l.
Proof. done. Qed.

Lemma blob_bound blob blobs :
  blob ∈ blobs -> (4 + length blob <= length (mjoin (PutBlob <$> blobs)))%nat.
Proof.
  induction blobs as [|b blobs IH]; [by intros ?%elem_of_nil|].
  rewrite fmap_cons, mjoin_cons, length_app. unfold PutBlob at 1.
  rewrite length_app, length_le_bytes. intros [->|H]%elem_of_cons; [lia|].
  specialize (IH H). lia.
Qed.

Lemma blobs_bound blobs :
  (4 * length blobs <= length (mjoin (PutBlob <$> blobs)))%nat.
Proof.
  induction blobs as [|b blobs IH]; [cbn; lia|].
  rewrite fmap_cons, mjoin_cons, length_app. unfold PutBlob at 1.
  rewrite length_app, length_le_bytes. cbn [length]. lia.
Qed.

Lemma encoded_bound vs :
  (5 * length vs <= length (mjoin (PutBlob <$> (Encode <$> vs))))%nat.
Proof.
  induction vs as [|v vs IH]; [cbn; lia|].
  rewrite !fmap_cons, mjoin_cons, length_app. unfold PutBlob at 1.
  rewrite length_app, length_le_bytes. cbn [length]. unfold Encode at 1. cbn [length]. lia.
Qed.

Lemma Encode_value_inj v w : value_ok v -> value_ok w -> Encode v = Encode w -> v = w.
Proof.
  intros (Hv & Hvs & _) (Hw & Hws & _) E. pose proof (Value_Decode_Encode v Hv Hvs) as H.
  rewrite E, (Value_Decode_Encode w Hw Hws) in H. by injection H.
Qed.

Lemma indexed_of_encodings vs values indexes :
  Forall value_ok vs -> Forall value_ok values ->
  Forall2 (fun v i => uint 32 i /\ (Encode <$> vs) !! Z.to_nat i = Some (Encode v))
    values indexes ->
  indexed (entry_of_value <$> vs) values indexes /\ Forall (uint 32) indexes.
Proof.
  intros Hvs Hvalues H. induction H as [|v i values indexes [Hi Hl] H IH]; [split; constructor|].
  apply Forall_cons in Hvalues as [Hv Hvalues]. destruct (IH Hvalues) as [H1 H2].
  split; [|by constructor]. constructor; [|done].
  rewrite list_lookup_fmap in Hl. rewrite list_lookup_fmap. destruct (vs !! Z.to_nat i) as [w|] eqn:Ew; [|done].
  apply (inj Some) in Hl. apply (proj1 (Forall_lookup _ _) Hvs) in Ew.
  cbn. by rewrite (Encode_value_inj w v Ew Hv Hl).
Qed.

Lemma column_bounds ivs bds ii bi :
  (8 * length ivs <= length (mjoin (PutBlob <$> columns ivs bds ii bi)))%nat /\
  (8 * length bds <= length (mjoin (PutBlob <$> columns ivs bds ii bi)))%nat.
Proof.
  pose proof (length_deltas 0 0 (interval_row <$> ivs)) as [Hi _].
  pose proof (length_deltas 0 0 (boundary_row <$> bds)) as [Hb _].
  rewrite length_fmap in Hi. rewrite length_fmap in Hb. rewrite <- Hi, <- Hb, <- !length_column. split.
  all: etransitivity; [|apply blob_bound]; [apply Nat.le_add_l|].
  - do 2 right. left.
  - do 6 right. left.
Qed.

Lemma EncodePayload_shape ivs bds :
  Forall interval_ok ivs -> Forall boundary_ok bds ->
  Z.of_nat (length (EncodePayload ivs bds)) <= U32_MAX ->
  exists vs ii bi,
    EncodePayload ivs bds = payload_bytes vs ivs bds ii bi /\ Forall value_ok vs /\
    indexed (entry_of_value <$> vs) (interval_value <$> ivs) ii /\ Forall (uint 32) ii /\
    indexed (entry_of_value <$> vs) (boundary_value <$> bds) bi /\ Forall (uint 32) bi.
Proof.
  intros Hivs Hbds Hlen. unfold EncodePayload in *.
  destruct (fold_left add_value (interval_value <$> ivs) ([], [])) as [d1 ii] eqn:E1.
  destruct (fold_left add_value (boundary_value <$> bds) (d1, [])) as [d2 bi] eqn:E2.
  destruct (deltas 0 0 _) as [ie it] eqn:Ei in Hlen |- *.
  destruct (deltas 0 0 ((λ b, (boundary_entity_id b, boundary_time b)) <$> bds)) as [be bt] eqn:Eb.
  cbv zeta in Hlen |- *.
  match type of Hlen with Z.of_nat (length (_ ++ _ ++ _ ++ _ ++ _ ++ ?columns')) <= _ =>
    assert (columns' = mjoin (PutBlob <$> columns ivs bds ii bi)) as Hcolumns end.
  { unfold columns. fold interval_row in Ei. fold boundary_row in Eb.
    change (λ i, (interval_entity_id i, from (effective_interval i))) with interval_row in Ei.
    change (λ b, (boundary_entity_id b, boundary_time b)) with boundary_row in Eb.
    rewrite Ei, Eb. cbn [fst snd]. rewrite !fmap_cons, !mjoin_cons. cbn [fmap list_fmap mjoin].
    by rewrite app_nil_r. }
  rewrite Hcolumns in Hlen |- *. rewrite !length_app, !length_le_bytes in Hlen.
  pose proof (blobs_bound d2) as Hd2. destruct (column_bounds ivs bds ii bi) as [Hni Hnb].
  unfold U32_MAX in Hlen.
  destruct (add_value_spec _ _ _ _ _ E2) as [(a2 & -> & Hs2) (n2 & Hn2 & Hf2)]; [lia|].
  rewrite length_app in Hd2.
  destruct (add_value_spec _ _ _ _ _ E1) as [(a1 & -> & Hs1) (n1 & Hn1 & Hf1)]; [lia|].
  cbn [app] in *. subst n1 n2. rewrite <- fmap_app in *.
  assert (Forall value_ok (interval_value <$> ivs)) as Hvi
    by (apply Forall_fmap; eapply Forall_impl; [exact Hivs|]; intros i [Hv _]; exact Hv).
  assert (Forall value_ok (boundary_value <$> bds)) as Hvb
    by (apply Forall_fmap; eapply Forall_impl; [exact Hbds|]; intros i [Hv _]; exact Hv).
  assert (Forall value_ok (a1 ++ a2)) as Hvs.
  { rewrite Forall_forall in *. set_solver. }
  exists (a1 ++ a2), ii, bi.
  destruct (indexed_of_encodings (a1 ++ a2) _ ii Hvs Hvi) as [Hx1 Hu1].
  { eapply Forall2_impl; [exact Hf1|]. intros v i [Hu Hl]. split; [done|].
    rewrite fmap_app. by apply lookup_app_l_Some. }
  destruct (indexed_of_encodings (a1 ++ a2) _ bi Hvs Hvb Hf2) as [Hx2 Hu2].
  split; [|done]. unfold payload_bytes. rewrite length_fmap.
  rewrite !length_fmap in Hd2.
  rewrite !uint_wrap by (unfold uint; rewrite ?length_app; lia). done.
Qed.

Lemma indexed_length dictionary values indexes :
  indexed dictionary values indexes -> length values = length indexes.
Proof. apply Forall2_length. Qed.

(** ** The reader of a page *)

Section payload.

Context (reserve : list Z -> Z -> bool) (sizes : ProjectionSizes) (limit : Z).
Hypothesis Hreserve : forall asked n, reserve asked n = true.
Hypothesis Hsizes : sizes_ok sizes.

Lemma charge_OK cost more b :
  0 <= cost -> 0 <= more -> room limit b (cost + more) ->
  exists b', charge reserve limit cost b = Some b' /\ room limit b' more.
Proof.
  intros Hc Hm [H0 H]. unfold charge. rewrite Hreserve, andb_true_r.
  rewrite (proj2 (Z.leb_le _ _)) by lia. eexists. split; [done|]. split; cbn; lia.
Qed.

Lemma GetBlobBudget_at s p blob rest more b :
  suffix_at s p (PutBlob blob ++ rest) -> Z.of_nat (length blob) < 2 ^ 32 ->
  0 <= more -> room limit b (Z.of_nat (length blob) + more) ->
  exists b', GetBlobBudget reserve s p limit b
             = Some (blob, (p + length (PutBlob blob))%nat, b') /\
    room limit b' more /\ suffix_at s (p + length (PutBlob blob)) rest.
Proof.
  intros H Hlen Hm Hroom. unfold PutBlob in *. rewrite uint_wrap in * by (unfold uint; lia).
  rewrite <- app_assoc in H. unfold GetBlobBudget.
  apply GetLittleEndian_at in H as [-> H]; [|unfold uint; cbn; lia].
  cbn [mbind option_bind]. rewrite Nat2Z.id.
  pose proof (suffix_at_length _ _ _ H) as Hl. rewrite length_app in Hl.
  rewrite (proj2 (Nat.ltb_ge _ _)) by lia.
  destruct (charge_OK (Z.of_nat (length blob)) more b) as (b' & -> & Hb'); [lia..|done|].
  cbn [mbind option_bind]. rewrite (suffix_at_take _ _ _ _ H).
  rewrite length_app, length_le_bytes, Nat.add_assoc.
  exists b'. split; [done|]. split; [done|]. by apply suffix_at_skip in H.
Qed.

Lemma GetBlobs_at blobs s p rest more b :
  suffix_at s p (mjoin (PutBlob <$> blobs) ++ rest) ->
  Forall (fun blob => Z.of_nat (length blob) < 2 ^ 32) blobs ->
  0 <= more -> room limit b (blobs_cost blobs + more) ->
  exists b', GetBlobs reserve (length blobs) s p limit b
             = Some (blobs, (p + length (mjoin (PutBlob <$> blobs)))%nat, b') /\
    room limit b' more /\ suffix_at s (p + length (mjoin (PutBlob <$> blobs))) rest.
Proof.
  revert p b. induction blobs as [|blob blobs IH]; intros p b H Hall Hm Hroom.
  { exists b. cbn in *. rewrite Nat.add_0_r. done. }
  apply Forall_cons in Hall as [Hblob Hall]. rewrite fmap_cons in *.
  cbn [mjoin list_join] in *. rewrite <- app_assoc in H. rewrite length_app.
  rewrite blobs_cost_cons in Hroom. pose proof (blobs_cost_nonneg blobs) as Hc.
  destruct (GetBlobBudget_at s p blob _ (blobs_cost blobs + more) b H)
    as (b1 & E1 & Hr1 & Hs1); [done|lia|unfold room in *; lia|].
  destruct (IH _ b1 Hs1 Hall Hm Hr1) as (b2 & E2 & Hr2 & Hs2).
  exists b2. cbn [length GetBlobs]. rewrite E1. cbn [mbind option_bind]. rewrite E2.
  cbn [mbind option_bind]. by rewrite Nat.add_assoc.
Qed.

Lemma dictionary_cost_nonneg vs : 0 <= dictionary_cost sizes vs.
Proof. destruct Hsizes as (? & _). induction vs; cbn [dictionary_cost foldr]; [done|]. fold (dictionary_cost sizes vs). lia. Qed.

Lemma decode_values_at vs l s p rest more dictionary b :
  length l = length vs -> Forall value_ok vs ->
  suffix_at s p (mjoin (PutBlob <$> (Encode <$> vs)) ++ rest) ->
  0 <= more -> room limit b (dictionary_cost sizes vs + more) ->
  exists p' b', loop (decode_value reserve sizes s limit) (dictionary, p, b) l
                = Ok (dictionary ++ (entry_of_value <$> vs), p', b') /\
    room limit b' more /\ suffix_at s p' rest.
Proof.
  revert l p b dictionary. induction vs as [|v vs IH]; intros l p b dictionary Hl Hok H Hm Hroom.
  { destruct l; [|done]. exists p, b. cbn. by rewrite app_nil_r. }
  destruct l as [|n l]; [done|]. injection Hl as Hl. apply Forall_cons in Hok as [Hv Hok].
  destruct Hv as (Hwf & Hstr & Hlen). rewrite !fmap_cons in *. cbn [mjoin list_join] in H.
  rewrite <- app_assoc in H. cbn [dictionary_cost foldr] in Hroom.
  fold (dictionary_cost sizes vs) in Hroom. pose proof (dictionary_cost_nonneg vs) as Hc.
  destruct Hsizes as (Hsv & _). unfold U32_MAX in Hlen.
  cbn [loop decode_value]. set (size := Z.of_nat (length (Encode v))) in *.
  destruct (GetBlobBudget_at s p (Encode v) _
    (sizeof_Value sizes + 2 * size + (dictionary_cost sizes vs + more)) b H)
    as (b1 & E1 & Hr1 & Hs1); [lia|lia|unfold room in *; lia|].
  rewrite E1. cbn [from_option mbind StatusOr_bind]. fold size.
  rewrite (proj2 (Z.leb_le size _))
    by (apply Z.div_le_lower_bound; [lia|unfold kSizeMax; lia]).
  cbn [require mbind StatusOr_bind].
  destruct (charge_OK (sizeof_Value sizes + 2 * size) (dictionary_cost sizes vs + more) b1)
    as (b2 & -> & Hr2); [lia|lia|done|].
  cbn [from_option mbind StatusOr_bind]. rewrite Value_Decode_Encode by done.
  cbn [from_option mbind StatusOr_bind].
  destruct (IH l _ b2 (dictionary ++ [(v, size)]) Hl Hok Hs1 Hm Hr2) as (p' & b' & -> & Hr' & Hs').
  exists p', b'. by rewrite <- app_assoc.
Qed.

Lemma decode_row_at what sizeof_row dictionary rows indexes n e t pe pt v i more b :
  rows_ok rows -> rows !! n = Some (e, t) -> ((0, 0) :: rows) !! n = Some (pe, pt) ->
  indexes !! n = Some i -> dictionary !! Z.to_nat i = Some (entry_of_value v) -> value_ok v ->
  0 < sizeof_row < 2 ^ 32 -> 0 <= more ->
  room limit b (sizeof_row + Z.of_nat (length (Encode v)) + more) ->
  exists b', decode_row reserve what sizeof_row limit dictionary (column (deltas 0 0 rows).1)
               (column (deltas 0 0 rows).2) indexes n pe pt b = Ok (e, t, v, b') /\
    room limit b' more.
Proof.
  intros Hrows Hn Hp Hi Hd (_ & _ & Hlen) Hs Hm Hroom.
  destruct (rows_ok_step _ _ _ _ _ _ Hrows Hn Hp) as (He & Ht & Hpe & Hpt & Hle & Htle).
  destruct (deltas_lookup _ _ _ _ _ _ _ _ Hn Hp) as [Hde Hdt].
  assert (0 <= if e =? pe then pt else 0) as Hpt0 by (unfold uint in *; destruct (e =? pe); lia).
  rewrite (uint_wrap 64 (e - pe)) in Hde by (unfold uint in *; lia).
  rewrite (uint_wrap 64 (t - _)) in Hdt by (unfold uint in *; lia).
  destruct (column_at _ _ _ Hde) as [p1 E1]; [unfold uint in *; lia|].
  destruct (column_at _ _ _ Hdt) as [p2 E2]; [unfold uint in *; lia|].
  unfold decode_row. rewrite E1. cbn [mbind option_bind]. rewrite E2. cbn [mbind option_bind].
  unfold DecodeSignedDelta. unfold uint, U32_MAX in *.
  rewrite (proj2 (Z.ltb_ge _ _)) by (unfold U64_MAX; lia). cbn [mbind option_bind].
  rewrite Hi. cbn [mbind option_bind]. rewrite Hd. unfold entry_of_value.
  cbn [mbind option_bind from_option StatusOr_bind].
  rewrite (proj2 (Z.leb_le (Z.of_nat (length (Encode v))) _)) by (unfold kSizeMax; lia).
  cbn [require mbind StatusOr_bind].
  destruct (charge_OK (sizeof_row + Z.of_nat (length (Encode v))) more b) as (b' & -> & Hb');
    [lia|lia|done|].
  cbn [from_option mbind StatusOr_bind]. replace (pe + (e - pe)) with e by lia.
  rewrite (proj2 (Z.leb_le _ (U64_MAX - _))) by (unfold U64_MAX; lia).
  cbn [require mbind StatusOr_bind]. exists b'. split; [|done]. repeat f_equal. lia.
Qed.

Lemma decode_interval_at dictionary ivs indexes n i pe pt more b before :
  rows_ok (interval_row <$> ivs) -> ivs !! n = Some i -> interval_ok i ->
  ((0, 0) :: (interval_row <$> ivs)) !! n = Some (pe, pt) ->
  indexed dictionary (interval_value <$> ivs) indexes ->
  0 <= more ->
  room limit b (sizeof_ProjectionInterval sizes + Z.of_nat (length (Encode (interval_value i)))
                + more) ->
  exists b', decode_interval reserve sizes limit dictionary
               (column (deltas 0 0 (interval_row <$> ivs)).1)
               (column (deltas 0 0 (interval_row <$> ivs)).2) (column (ends ivs)) (presence ivs)
               indexes (before, pe, pt, b) n
             = Ok (before ++ [i], (interval_row i).1, (interval_row i).2, b') /\
    room limit b' more.
Proof.
  intros Hrows Hn [Hv Hto] Hp Hix Hm Hroom.
  assert ((interval_row <$> ivs) !! n = Some (interval_row i)) as Hr
    by (by rewrite list_lookup_fmap, Hn).
  destruct (indexed_at _ _ _ n (interval_value i) Hix) as (k & Hk & Hd);
    [by rewrite list_lookup_fmap, Hn|].
  assert (ends ivs !! n = Some (default 0 (to (effective_interval i)))) as Hend
    by (unfold ends; by rewrite list_lookup_fmap, Hn).
  unfold decode_interval. destruct (column_at _ _ _ Hend) as [p E].
  { destruct (to (effective_interval i)); [apply Hto|unfold uint; cbn; lia]. }
  rewrite E. cbn [from_option mbind StatusOr_bind].
  destruct Hsizes as (_ & Hsi & _). unfold interval_row in Hr.
  destruct (decode_row_at "interval" (sizeof_ProjectionInterval sizes) dictionary _ _ _ _ _ _ _ _ _
    more b Hrows Hr Hp Hk Hd Hv) as (b' & E' & Hb'); [done..|].
  rewrite E'. cbn [mbind StatusOr_bind]. exists b'. split; [|done].
  assert (test_flag (presence ivs) n = bool_decide (is_Some (to (effective_interval i)))) as Hf.
  { unfold presence. rewrite (proj2 (bitset_spec _)), list_lookup_fmap, Hn. done. }
  rewrite Hf. destruct i as [[f [t|]] v e]; cbn in *.
  - rewrite (proj2 (Z.ltb_ge _ _)) by lia. done.
  - done.
Qed.

Lemma decode_boundary_at dictionary bds indexes n d pe pt more b before :
  rows_ok (boundary_row <$> bds) -> bds !! n = Some d -> boundary_ok d ->
  ((0, 0) :: (boundary_row <$> bds)) !! n = Some (pe, pt) ->
  indexed dictionary (boundary_value <$> bds) indexes ->
  0 <= more ->
  room limit b (sizeof_ProjectionBoundary sizes + Z.of_nat (length (Encode (boundary_value d)))
                + more) ->
  exists b', decode_boundary reserve sizes limit dictionary
               (column (deltas 0 0 (boundary_row <$> bds)).1)
               (column (deltas 0 0 (boundary_row <$> bds)).2) (operations bds)
               indexes (before, pe, pt, b) n
             = Ok (before ++ [d], (boundary_row d).1, (boundary_row d).2, b') /\
    room limit b' more.
Proof.
  intros Hrows Hn [Hv Hop] Hp Hix Hm Hroom.
  assert ((boundary_row <$> bds) !! n = Some (boundary_row d)) as Hr
    by (by rewrite list_lookup_fmap, Hn).
  destruct (indexed_at _ _ _ n (boundary_value d) Hix) as (k & Hk & Hd);
    [by rewrite list_lookup_fmap, Hn|].
  unfold decode_boundary. destruct Hsizes as (_ & _ & Hsb & _). unfold boundary_row in Hr.
  destruct (decode_row_at "boundary" (sizeof_ProjectionBoundary sizes) dictionary _ _ _ _ _ _ _ _ _
    more b Hrows Hr Hp Hk Hd Hv) as (b' & E' & Hb'); [done..|].
  rewrite E'. cbn [mbind StatusOr_bind]. exists b'. split; [|done].
  assert (test_flag (operations bds) n = bool_decide (boundary_operation d = kPut)) as Hf.
  { unfold operations. rewrite (proj2 (bitset_spec _)), list_lookup_fmap, Hn. done. }
  rewrite Hf. destruct d as [t op v e]; cbn in *. by destruct Hop as [->| ->].
Qed.

Lemma loop_rows {R} (body : list R * Z * Z * Budget -> nat -> StatusOr (list R * Z * Z * Budget))
    (row : R -> Z * Z) (value : R -> Value) sizeof_row all b more :
  (forall before n r pe pt more b, all !! n = Some r ->
     ((0, 0) :: (row <$> all)) !! n = Some (pe, pt) -> 0 <= more ->
     room limit b (sizeof_row + Z.of_nat (length (Encode (value r))) + more) ->
     exists b', body (before, pe, pt, b) n = Ok (before ++ [r], (row r).1, (row r).2, b') /\
       room limit b' more) ->
  0 < sizeof_row -> 0 <= more -> room limit b (rows_cost sizeof_row (value <$> all) + more) ->
  exists pe pt b', loop body ([], 0, 0, b) (seq 0 (length all)) = Ok (all, pe, pt, b') /\
    room limit b' more.
Proof.
  intros Hbody Hs Hm.
  enough (forall todo before pe pt b, all = before ++ todo ->
    ((0, 0) :: (row <$> all)) !! length before = Some (pe, pt) ->
    room limit b (rows_cost sizeof_row (value <$> todo) + more) ->
    exists pe' pt' b',
      loop body (before, pe, pt, b) (seq (length before) (length todo)) = Ok (all, pe', pt', b') /\
      room limit b' more) as H by (intros Hroom; by apply (H all [])).
  intros todo. induction todo as [|r todo IH]; intros before pe pt b0 -> Hp Hroom.
  { exists pe, pt, b0. rewrite app_nil_r. done. }
  rewrite fmap_cons in Hroom. cbn [rows_cost foldr] in Hroom.
  fold (rows_cost sizeof_row (value <$> todo)) in Hroom.
  pose proof (rows_cost_nonneg sizeof_row (value <$> todo) Hs) as Hc.
  assert ((before ++ r :: todo) !! length before = Some r) as Hr by (by apply list_lookup_middle).
  destruct (Hbody before _ r pe pt (rows_cost sizeof_row (value <$> todo) + more) b0 Hr Hp)
    as (b1 & E1 & Hr1); [lia|unfold room in *; lia|].
  cbn [length seq loop]. rewrite E1. cbn [mbind StatusOr_bind].
  destruct (IH (before ++ [r]) (row r).1 (row r).2 b1) as (pe' & pt' & b2 & E2 & Hr2).
  - by rewrite <- app_assoc.
  - rewrite length_app, Nat.add_1_r. cbn [length]. change (((0,0) :: ?l) !! S ?k) with (l !! k).
    rewrite list_lookup_fmap, Hr. cbn. by destruct (row r).
  - done.
  - exists pe', pt', b2. split; [|done]. rewrite <- E2. rewrite length_app, Nat.add_1_r. done.
Qed.

Lemma decode_intervals_at dictionary ivs indexes b more :
  rows_ok (interval_row <$> ivs) -> Forall interval_ok ivs ->
  indexed dictionary (interval_value <$> ivs) indexes -> 0 <= more ->
  room limit b (rows_cost (sizeof_ProjectionInterval sizes) (interval_value <$> ivs) + more) ->
  exists pe pt b',
    loop (decode_interval reserve sizes limit dictionary
            (column (deltas 0 0 (interval_row <$> ivs)).1)
            (column (deltas 0 0 (interval_row <$> ivs)).2) (column (ends ivs)) (presence ivs)
            indexes) ([], 0, 0, b) (seq 0 (length ivs)) = Ok (ivs, pe, pt, b') /\
    room limit b' more.
Proof.
  intros Hrows Hok Hix. apply loop_rows with (row := interval_row); [|apply Hsizes].
  intros before n r pe pt more' b' Hn Hp Hm Hroom.
  apply decode_interval_at; try done. by apply (proj1 (Forall_lookup _ _) Hok n).
Qed.

Lemma decode_boundaries_at dictionary bds indexes b more :
  rows_ok (boundary_row <$> bds) -> Forall boundary_ok bds ->
  indexed dictionary (boundary_value <$> bds) indexes -> 0 <= more ->
  room limit b (rows_cost (sizeof_ProjectionBoundary sizes) (boundary_value <$> bds) + more) ->
  exists pe pt b',
    loop (decode_boundary reserve sizes limit dictionary
            (column (deltas 0 0 (boundary_row <$> bds)).1)
            (column (deltas 0 0 (boundary_row <$> bds)).2) (operations bds)
            indexes) ([], 0, 0, b) (seq 0 (length bds)) = Ok (bds, pe, pt, b') /\
    room limit b' more.
Proof.
  intros Hrows Hok Hix. apply loop_rows with (row := boundary_row); [|apply Hsizes].
  intros before n r pe pt more' b' Hn Hp Hm Hroom.
  apply decode_boundary_at; try done. by apply (proj1 (Forall_lookup _ _) Hok n).
Qed.

Lemma decode_counts_at vs ivs bds ii bi cost b :
  Z.of_nat (length (payload_bytes vs ivs bds ii bi)) <= U32_MAX ->
  Z.of_nat (length vs) * sizeof_Value sizes
  + Z.of_nat (length ivs) * (sizeof_ProjectionInterval sizes + 4)
  + Z.of_nat (length bds) * (sizeof_ProjectionBoundary sizes + 4)
  + sizeof_ProjectionInterval sizes + sizeof_ProjectionBoundary sizes <= cost ->
  room limit b cost ->
  decode_counts sizes (payload_bytes vs ivs bds ii bi) limit
  = Ok (Z.of_nat (length ivs), Z.of_nat (length bds), Z.of_nat (length vs), 16%nat) /\
  suffix_at (payload_bytes vs ivs bds ii bi) 16
    (mjoin (PutBlob <$> (Encode <$> vs)) ++ mjoin (PutBlob <$> columns ivs bds ii bi) ++ []).
Proof.
  intros Hlen Hcost [H0 Hroom]. destruct Hsizes as (Hv & Hi & Hb & _).
  pose proof (encoded_bound vs) as Hnd. destruct (column_bounds ivs bds ii bi) as [Hni Hnb].
  pose proof (suffix_at_0 (payload_bytes vs ivs bds ii bi)) as H.
  set (raw := payload_bytes vs ivs bds ii bi) in *.
  assert (length raw = 16 + length (mjoin (PutBlob <$> (Encode <$> vs)))
          + length (mjoin (PutBlob <$> columns ivs bds ii bi)))%nat as Hraw
    by (unfold raw, payload_bytes; rewrite !length_app, !length_le_bytes; lia).
  unfold U32_MAX in Hlen. unfold raw at 2 in H. unfold payload_bytes in H.
  unfold decode_counts. rewrite (proj2 (Z.ltb_ge limit (sizeof_ProjectionInterval _))) by nia.
  rewrite (proj2 (Z.ltb_ge limit (sizeof_ProjectionBoundary _))) by nia.
  cbn [orb negb require mbind StatusOr_bind].
  apply GetLittleEndian_at in H as [-> H]; [|done].
  cbn [mbind option_bind]. rewrite Z.eqb_refl. cbn [negb].
  do 3 (apply GetLittleEndian_at in H as [-> H]; [|unfold uint; cbn; lia];
        cbn [mbind option_bind Nat.add]; cbn [Nat.add] in H).
  rewrite (proj2 (Z.ltb_ge limit (Z.of_nat (length ivs)))) by nia.
  rewrite (proj2 (Z.ltb_ge (limit - _) _)) by nia.
  rewrite (proj2 (Z.ltb_ge (Z.of_nat (length raw) / 5) _)) by lia_mod.
  cbn [orb from_option mbind StatusOr_bind].
  rewrite (proj2 (Z.ltb_ge (limit / sizeof_ProjectionInterval _) _))
    by (apply Z.div_le_lower_bound; nia).
  rewrite (proj2 (Z.ltb_ge (limit / sizeof_ProjectionBoundary _) _))
    by (apply Z.div_le_lower_bound; nia).
  rewrite (proj2 (Z.ltb_ge (limit / sizeof_Value _) _)) by (apply Z.div_le_lower_bound; nia).
  cbn [orb negb require mbind StatusOr_bind]. rewrite app_nil_r. done.
Qed.

Lemma decode_rows_at dictionary ivs bds ii bi b more :
  rows_ok (interval_row <$> ivs) -> Forall interval_ok ivs ->
  rows_ok (boundary_row <$> bds) -> Forall boundary_ok bds ->
  indexed dictionary (interval_value <$> ivs) ii -> Forall (uint 32) ii ->
  indexed dictionary (boundary_value <$> bds) bi -> Forall (uint 32) bi ->
  8 * Z.of_nat (length ivs) <= U32_MAX -> 8 * Z.of_nat (length bds) <= U32_MAX ->
  0 <= more ->
  room limit b
    (Z.of_nat (length ivs) * (sizeof_ProjectionInterval sizes + 4)
     + Z.of_nat (length bds) * (sizeof_ProjectionBoundary sizes + 4)
     + (rows_cost (sizeof_ProjectionInterval sizes) (interval_value <$> ivs)
     + (rows_cost (sizeof_ProjectionBoundary sizes) (boundary_value <$> bds) + more))) ->
  exists b',
    decode_rows reserve sizes limit (Z.of_nat (length ivs)) (Z.of_nat (length bds)) dictionary
      (columns ivs bds ii bi) b = Ok (ivs, bds, b') /\ room limit b' more.
Proof.
  intros Hri Hoi Hrb Hob Hxi Hui Hxb Hub Hni Hnb Hm Hroom. unfold U32_MAX in *.
  pose proof (indexed_length _ _ _ Hxi) as Hli. rewrite length_fmap in Hli.
  pose proof (indexed_length _ _ _ Hxb) as Hlb. rewrite length_fmap in Hlb.
  pose proof Hsizes as (_ & Hsi & Hsb & _).
  pose proof (rows_cost_nonneg _ (interval_value <$> ivs) (proj1 Hsi)) as Hci.
  pose proof (rows_cost_nonneg _ (boundary_value <$> bds) (proj1 Hsb)) as Hcb.
  unfold decode_rows, columns.
  assert (Z.of_nat (length (presence ivs)) = wrap 32 (Z.of_nat (length ivs) + 7) / 8) as Hp.
  { unfold presence. rewrite (proj1 (bitset_spec _)), length_fmap, uint_wrap
      by (unfold uint; lia). lia_mod. }
  assert (Z.of_nat (length (operations bds)) = wrap 32 (Z.of_nat (length bds) + 7) / 8) as Ho.
  { unfold operations. rewrite (proj1 (bitset_spec _)), length_fmap, uint_wrap
      by (unfold uint; lia). lia_mod. }
  rewrite Hp, Ho, !Z.eqb_refl. cbn [andb require mbind StatusOr_bind].
  pose proof (bitset_padding ((fun i => bool_decide (is_Some (to (effective_interval i)))) <$> ivs))
    as Hpi. rewrite length_fmap in Hpi. fold (presence ivs) in Hpi.
  pose proof (bitset_padding ((fun b => bool_decide (boundary_operation b = kPut)) <$> bds))
    as Hpb. rewrite length_fmap in Hpb. fold (operations bds) in Hpb.
  rewrite Hpi, Hpb. cbn [orb negb require mbind StatusOr_bind].
  destruct charge_OK with (3 := Hroom) as (b1 & -> & Hr1); [nia|lia|].
  cbn [from_option mbind StatusOr_bind]. rewrite !Nat2Z.id.
  replace (DecodeRle (EncodeRle ii) (length ivs)) with (Some ii)
    by (rewrite Hli; symmetry; apply DecodeRle_EncodeRle; [done|lia]).
  replace (DecodeRle (EncodeRle bi) (length bds)) with (Some bi)
    by (rewrite Hlb; symmetry; apply DecodeRle_EncodeRle; [done|lia]).
  cbn [from_option mbind StatusOr_bind].
  rewrite !length_column, !(proj1 (length_deltas _ _ _)), !(proj2 (length_deltas _ _ _)).
  replace (length (ends ivs)) with (length ivs) by (symmetry; apply length_fmap).
  rewrite !length_fmap, !uint_wrap by (unfold uint; lia).
  rewrite !Nat2Z.inj_mul, !(Z.mul_comm (Z.of_nat 8)), !Z.eqb_refl. cbn [andb require mbind StatusOr_bind].
  destruct (decode_intervals_at dictionary ivs ii b1) with (5 := Hr1)
    as (pe & pt & b2 & -> & Hr2); [done..|lia|]. cbn [mbind StatusOr_bind].
  destruct (decode_boundaries_at dictionary bds bi b2) with (5 := Hr2)
    as (pe' & pt' & b3 & -> & Hr3); [done..|]. cbn [mbind StatusOr_bind]. by exists b3.
Qed.

Lemma DecodePayload_at vs ivs bds ii bi b more :
  Z.of_nat (length (payload_bytes vs ivs bds ii bi)) <= U32_MAX -> Forall value_ok vs ->
  rows_ok (interval_row <$> ivs) -> Forall interval_ok ivs ->
  rows_ok (boundary_row <$> bds) -> Forall boundary_ok bds ->
  indexed (entry_of_value <$> vs) (interval_value <$> ivs) ii -> Forall (uint 32) ii ->
  indexed (entry_of_value <$> vs) (boundary_value <$> bds) bi -> Forall (uint 32) bi ->
  0 <= more -> room limit b (payload_cost sizes vs ivs bds ii bi + more) ->
  exists b', DecodePayload reserve sizes (payload_bytes vs ivs bds ii bi) limit b
             = Ok (ivs, bds, b') /\ room limit b' more.
Proof.
  intros Hlen Hvs Hri Hoi Hrb Hob Hxi Hui Hxb Hub Hm Hroom.
  pose proof Hsizes as (Hsv & Hsi & Hsb & _).
  pose proof (rows_cost_nonneg _ (interval_value <$> ivs) (proj1 Hsi)) as Hci.
  pose proof (rows_cost_nonneg _ (boundary_value <$> bds) (proj1 Hsb)) as Hcb.
  pose proof (dictionary_cost_nonneg vs) as Hcd.
  pose proof (blobs_cost_nonneg (columns ivs bds ii bi)) as Hcc.
  destruct (decode_counts_at vs ivs bds ii bi (payload_cost sizes vs ivs bds ii bi + more) b Hlen)
    as [Ec Hs]; [unfold payload_cost; nia|done|].
  destruct (column_bounds ivs bds ii bi) as [Hni Hnb].
  assert (length (mjoin (PutBlob <$> columns ivs bds ii bi))
          <= length (payload_bytes vs ivs bds ii bi))%nat as Hraw
    by (unfold payload_bytes; rewrite !length_app; lia).
  unfold payload_cost in Hroom. rewrite <- !Z.add_assoc in Hroom.
  unfold DecodePayload. rewrite Ec. cbn [mbind StatusOr_bind].
  destruct charge_OK with (3 := Hroom) as (b1 & -> & Hr1); [nia|nia|].
  cbn [from_option mbind StatusOr_bind]. rewrite Nat2Z.id.
  destruct decode_values_at with (l := seq 0 (length vs)) (dictionary := [] : list (Value * Z))
    (2 := Hvs) (3 := Hs) (5 := Hr1) as (p & b2 & -> & Hr2 & Hs2); [apply length_seq|nia|]. cbn [mbind StatusOr_bind app].
  destruct GetBlobs_at with (1 := Hs2) (4 := Hr2) as (b3 & E3 & Hr3 & Hs3); [|nia|].
  { apply Forall_forall. intros blob Hblob%blob_bound. unfold U32_MAX in Hlen. lia. }
  change (GetBlobs reserve 9) with (GetBlobs reserve (length (columns ivs bds ii bi))).
  rewrite E3. cbn [from_option mbind StatusOr_bind]. unfold U32_MAX in *.
  rewrite Z.add_assoc in Hr3.
  destruct (decode_rows_at (entry_of_value <$> vs) ivs bds ii bi b3
    (sizeof_ProjectionInterval sizes + (sizeof_ProjectionBoundary sizes + more)))
    as (b4 & -> & Hr4); try done; [unfold U32_MAX; lia..|lia|].
  cbn [mbind StatusOr_bind]. apply suffix_at_length in Hs3. cbn [length] in Hs3.
  rewrite (proj2 (Nat.eqb_eq _ _)) by lia. cbn [require mbind StatusOr_bind].
  exists b4. split; [done|]. unfold room in *. lia.
Qed.

End payload.

(** ** The directory *)

(** One step of a reader over a fixed-width field, by the bytes that follow. *)
Ltac field_step H :=
  apply GetLittleEndian_at in H as [-> H]; [|done];
  cbn [mbind option_bind].

Lemma flag_byte o : b2z (flag o) = if o then 1 else 0.
Proof. by destruct o; vm_compute. Qed.

Lemma length_encode_entry d : length (encode_entry d) = 91%nat.
Proof.
  unfold encode_entry.
  repeat (rewrite length_app || rewrite length_le_bytes || cbn [length]). done.
Qed.

Lemma length_encode_header h codec n : length (encode_header h codec n) = 81%nat.
Proof.
  unfold encode_header.
  repeat (rewrite length_app || rewrite length_le_bytes || cbn [length]). done.
Qed.

Lemma inside b p (x : byte) rest : suffix_at b p (x :: rest) -> (length b <=? p)%nat = false.
Proof. intros H%suffix_at_length. cbn [length] in H. apply Nat.leb_gt. lia. Qed.

Lemma flag_option (o : option Z) :
  (if (if o then 1 else 0) =? 0 then None else Some (default 0 o)) = o.
Proof. by destruct o. Qed.

Lemma ValidPage_edges d :
  ValidPage d = StatusOK ->
  (if (if edge_type_min d then 1 else 0) =? 0 then None else Some (default 0 (edge_type_max d)))
  = edge_type_max d.
Proof.
  unfold ValidPage. destruct (ValidRange _ _ _ _); [|done].
  by destruct (edge_type_min d), (edge_type_max d).
Qed.

Lemma read_entry_at truncated bad_flag metadata bloom b entries p n d rest :
  placed_ok d -> suffix_at b p (encode_entry d ++ rest) ->
  read_entry truncated bad_flag metadata bloom b (entries, p) n
  = Ok (entries ++ [d], (p + 91)%nat).
Proof.
  intros (Ho & Hc & Hu & Hr & Hcrc & (He1 & He2 & Hvf & Hvt & Hmn & Hmx & Hb & Hh & Hm) & Hvalid) H.
  unfold encode_entry in H. rewrite <- !app_assoc in H. unfold read_entry.
  do 7 field_step H. cbn [app] in H.
  rewrite (inside _ _ _ _ H). cbn [from_option mbind option_bind StatusOr_bind].
  rewrite (byte_at_suffix _ _ _ _ H), flag_byte. apply suffix_at_next in H.
  rewrite (proj2 (Z.ltb_ge 1 _)) by (destruct (page_valid_to_max d); lia).
  rewrite <- app_assoc in H. field_step H. cbn [app] in H.
  rewrite (inside _ _ _ _ H). cbn [from_option mbind option_bind StatusOr_bind].
  rewrite (byte_at_suffix _ _ _ _ H), flag_byte. apply suffix_at_next in H.
  rewrite (proj2 (Z.ltb_ge 1 _)) by (destruct (edge_type_min d); lia).
  rewrite <- !app_assoc in H. do 4 field_step H. cbn [app] in H.
  rewrite (inside _ _ _ _ H). cbn [from_option mbind option_bind StatusOr_bind].
  rewrite (byte_at_suffix _ _ _ _ H), b2z_z2b_uint by done. apply suffix_at_next in H.
  field_step H. cbn [from_option mbind option_bind StatusOr_bind].
  rewrite !flag_option, ValidPage_edges by done.
  replace (mkDirectoryEntry _ _ _ _ _ _ _ _ _ _ _ _ _ _) with d by (by destruct d).
  rewrite Hvalid. cbn [check mbind StatusOr_bind]. do 2 f_equal. lia.
Qed.

Lemma read_entries_at truncated bad_flag metadata bloom b entries p dirs l rest :
  length l = length dirs -> Forall placed_ok dirs ->
  suffix_at b p (mjoin (encode_entry <$> dirs) ++ rest) ->
  loop (read_entry truncated bad_flag metadata bloom b) (entries, p) l
  = Ok (entries ++ dirs, (p + 91 * length dirs)%nat).
Proof.
  revert entries p l. induction dirs as [|d dirs IH]; intros entries p l Hl Hok H.
  { destruct l; [|done]. cbn. by rewrite app_nil_r, Nat.add_0_r. }
  destruct l as [|n l]; [done|]. injection Hl as Hl. apply Forall_cons in Hok as [Hd Hok].
  rewrite fmap_cons, mjoin_cons, <- app_assoc in H. cbn [loop].
  rewrite (read_entry_at _ _ _ _ _ _ _ _ d _ Hd H). cbn [mbind StatusOr_bind].
  apply suffix_at_skip in H. rewrite length_encode_entry in H.
  rewrite (IH _ _ l Hl Hok H), <- app_assoc. cbn [app length]. do 2 f_equal. lia.
Qed.

Lemma header_at h codec count rest b :
  b = encode_header h codec count ++ rest -> header_ok h -> uint 32 count ->
  codec = kNoCodec \/ codec = kLz4 ->
  1 <= ProjectionKind_to_u8 (kind h) <= 5 ->
  exists h0,
    take 8 b = magic /\ GetLittleEndian 4 b 8 = Some (1, 12%nat) /\
    byte_at b 12 = ProjectionKind_to_u8 (kind h) /\
    byte_at b 13 = CompressionCodec_to_u8 codec /\
    read_header (ProjectionKind_of_u8 (ProjectionKind_to_u8 (kind h))) b 14 = Some (h0, 64%nat) /\
    byte_at b 64 = (if valid_to_max h then 1 else 0) /\
    GetLittleEndian 8 b 65 = Some (default 0 (valid_to_max h), 73%nat) /\
    GetLittleEndian 4 b 73 = Some (count, 77%nat) /\
    GetLittleEndian 4 b 77 = Some (crc32c (take 77 b), 81%nat) /\
    with_valid_to h0 (if valid_to_max h then 1 else 0) (default 0 (valid_to_max h)) = h /\
    suffix_at b 81 rest.
Proof.
  intros Eb (Hk & Hg & Hbs & Hp & Hpr & Hs & He1 & He2 & Hvf & Hvt) Hc Hcodec Hkind.
  assert (take 77 b = take 77 (encode_header h codec count)) as Htake.
  { rewrite Eb. apply take_app_le. rewrite length_encode_header. lia. }
  pose proof (suffix_at_0 b) as H. rewrite Eb in H at 2. unfold encode_header in H.
  rewrite uint_wrap in H by done.
  set (fields := magic ++ _) in H.
  assert (take 77 b = fields) as Hfields.
  { rewrite Htake. unfold encode_header. rewrite uint_wrap by done. fold fields.
    apply take_app_length'. unfold fields.
    repeat (rewrite length_app || rewrite length_le_bytes || cbn [length]). done. }
  rewrite Hfields. assert (uint 32 (crc32c fields)) as Hcrc by apply crc32c_uint.
  rewrite <- !app_assoc in H. unfold fields in H at 1. rewrite <- !app_assoc in H.
  pose proof (suffix_at_take _ _ _ _ H) as Hmagic. apply suffix_at_skip in H.
  change (drop 0 b) with b in Hmagic. change (length magic) with 8%nat in *.
  change (0 + 8)%nat with 8%nat in H.
  eexists. split; [exact Hmagic|].
  apply GetLittleEndian_at in H as [-> H]; [|done]. split; [done|].
  cbn [app Nat.add] in H. rewrite (byte_at_suffix _ _ _ _ H), b2z_z2b_uint by (unfold uint; lia).
  apply suffix_at_next in H. split; [done|].
  rewrite (byte_at_suffix _ _ _ _ H), b2z_z2b_uint by (by destruct Hcodec as [-> | ->]).
  apply suffix_at_next in H. split; [done|]. rewrite Hk. unfold read_header.
  rewrite <- ?app_assoc in H. do 8 (field_step H; cbn [Nat.add] in H |- *).
  rewrite (inside _ _ _ _ H). split; [done|].
  cbn [app] in H. rewrite (byte_at_suffix _ _ _ _ H), flag_byte. apply suffix_at_next in H.
  split; [done|]. rewrite <- ?app_assoc in H.
  do 3 (apply GetLittleEndian_at in H as [-> H]; [|done]; split; [done|]; cbn [Nat.add] in H).
  split; [|done]. unfold with_valid_to. cbn [kind generation_id base_seq header_part_id
    header_property_id header_schema_epoch entity_min entity_max_exclusive valid_from_min].
  rewrite flag_option. by destruct h.
Qed.

(** ** What the encoder writes *)

Lemma adjacency_mask_spec entities mask k :
  0 <= k ->
  Z.testbit (fold_left (fun mask e => Z.lor mask (Z.shiftl 1 (e mod 64))) entities mask) k
  = Z.testbit mask k || existsb (fun e => e mod 64 =? k) entities.
Proof.
  intros Hk. revert mask. induction entities as [|e entities IH]; intros mask;
    cbn [fold_left existsb]; [by rewrite orb_false_r|].
  by rewrite IH, Z.lor_spec, Z.shiftl_1_l, Z.pow2_bits_eqb, orb_assoc by lia_mod.
Qed.

Lemma adjacency_mask_uint entities : uint 64 (adjacency_mask entities).
Proof.
  assert (0 <= adjacency_mask entities) as H0.
  { enough (forall mask, 0 <= mask ->
      0 <= fold_left (fun mask e => Z.lor mask (Z.shiftl 1 (e mod 64))) entities mask) as H
      by (by apply (H 0)).
    induction entities as [|e entities IH]; intros mask Hm; cbn [fold_left]; [done|].
    apply IH. apply Z.lor_nonneg. split; [done|]. apply Z.shiftl_nonneg. lia. }
  split; [done|]. apply Z.lt_nge. intros Hbig.
  assert (64 <= Z.log2 (adjacency_mask entities)) as Hlog by (by apply Z.log2_le_pow2; lia).
  pose proof (Z.bit_log2 (adjacency_mask entities) ltac:(lia)) as Hbit.
  unfold adjacency_mask in Hbit at 1. rewrite adjacency_mask_spec in Hbit by lia.
  rewrite Z.bits_0 in Hbit. apply existsb_exists in Hbit as (e & _ & He%Z.eqb_eq). lia_mod.
Qed.

Lemma page_entry_ok c i page :
  header_ok (header c) -> Forall entry_ok (page_directory c) -> entry_ok (page_entry c i page).
Proof.
  intros (_ & _ & _ & _ & _ & _ & He1 & He2 & Hvf & Hvt) Hdir. unfold page_entry.
  set (d := match page_directory c !! i with Some d => d | None => _ end).
  assert (entry_ok d) as Hd.
  { subst d. destruct (page_directory c !! i) as [d|] eqn:E.
    - by apply (proj1 (Forall_lookup _ _) Hdir i).
    - unfold entry_ok. cbn. split_and!; try done; unfold uint; lia. }
  case_bool_decide; [|done]. destruct Hd as (? & ? & ? & ? & ? & ? & _).
  unfold entry_ok. cbn. split_and!; try done. apply adjacency_mask_uint.
Qed.

Lemma encode_page_spec lz4 c codec payloads dirs offset i page payloads' dirs' offset' :
  header_ok (header c) -> Forall entry_ok (page_directory c) ->
  encode_page lz4 c codec (payloads, dirs, offset) (i, page) = Ok (payloads', dirs', offset') ->
  exists p d, payloads' = payloads ++ [p] /\ dirs' = dirs ++ [d] /\
    page_offset d = offset /\ offset' = offset + Z.of_nat (length p) /\
    stored lz4 (kind (header c)) codec page d p.
Proof.
  destruct page as [ivs bds]. intros Hh Hdir H. unfold encode_page in H. inv_ok. bool_to_prop.
  match goal with H : CompressProjectionPayload _ _ _ = Ok ?x |- _ => rename x into p end.
  injection H as <- <- <-. eexists p, _. split; [done|]. split; [done|]. cbn [page_offset]. do 2 (split; [done|]).
  pose proof (page_entry_ok c i (ivs, bds) Hh Hdir) as Hok. unfold stored, entry_ok in *.
  cbn [compressed_bytes uncompressed_bytes row_count payload_crc32c page_entity_min
    page_entity_max_exclusive page_valid_from_min page_valid_to_max edge_type_min edge_type_max
    bloom_bits bloom_hashes bloom_mask].
  split_and!; try done; try lia; try apply Hok.
  intros Hk. unfold page_entry. by rewrite Hk, bool_decide_eq_true_2.
Qed.

Lemma encode_pages_spec lz4 c codec pages i payloads dirs offset payloads' dirs' offset' :
  header_ok (header c) -> Forall entry_ok (page_directory c) ->
  loop (encode_page lz4 c codec) (payloads, dirs, offset) (zip (seq i (length pages)) pages)
  = Ok (payloads', dirs', offset') ->
  exists ps ds, payloads' = payloads ++ ps /\ dirs' = dirs ++ ds /\ contiguous offset ds ps /\
    Forall3 (stored lz4 (kind (header c)) codec) pages ds ps.
Proof.
  intros Hh Hdir. revert i payloads dirs offset.
  induction pages as [|page pages IH]; intros i payloads dirs offset H.
  { injection H as <- <- _. exists [], []. rewrite !app_nil_r. split_and!; [done..|constructor]. }
  cbn [length seq zip zip_with loop] in H.
  destruct (encode_page lz4 c codec (payloads, dirs, offset) (i, page))
    as [[[ps1 ds1] o1]|] eqn:E; [|done].
  cbn [mbind StatusOr_bind] in H.
  destruct (encode_page_spec _ _ _ _ _ _ _ _ _ _ _ Hh Hdir E)
    as (p & d & -> & -> & Ho & -> & Hst).
  destruct (IH _ _ _ _ H) as (ps & ds & -> & -> & Hc & Hall).
  exists (p :: ps), (d :: ds). rewrite <- !app_assoc. split_and!; [done..| |by constructor].
  cbn [contiguous]. split; [done|]. split; [by apply Hst|done].
Qed.

Lemma check_chain_OK c codec :
  check_chain c codec = Ok tt ->
  1 <= ProjectionKind_to_u8 (kind (header c)) <= 5 /\ header_range (header c) = StatusOK.
Proof.
  unfold check_chain. fold (header_range (header c)). intros H. inv_ok. bool_to_prop.
  split; [lia|done].
Qed.

Lemma EncodeProjectionPage_spec lz4 c codec bytes :
  chain_ok c -> EncodeProjectionPage lz4 c codec = Ok bytes ->
  exists dirs payloads,
    let pages := Pages (Nat.max 1 (length (page_directory c))) (intervals c) (boundaries c) in
    let body := file_body (header c) codec dirs payloads in
    bytes = body ++ le_bytes 4 (crc32c body) /\
    1 <= ProjectionKind_to_u8 (kind (header c)) <= 5 /\ header_range (header c) = StatusOK /\
    Z.of_nat (length pages) <= U32_MAX /\
    contiguous (kHeaderBytes + Z.of_nat (length pages) * kDirectoryBytes) dirs payloads /\
    Forall3 (stored lz4 (kind (header c)) codec) pages dirs payloads.
Proof.
  intros (Hh & Hdir & _) H. unfold EncodeProjectionPage in H.
  set (pages := Pages _ _ _) in *. inv_ok. bool_to_prop.
  match goal with H : check_chain _ _ = Ok ?u |- _ =>
    destruct u; apply check_chain_OK in H as [Hkind Hrange] end.
  match goal with H : loop _ _ _ = Ok _ |- _ =>
    apply encode_pages_spec in H as (ps & ds & -> & -> & Hc & Hall); [|done..] end.
  exists ds, ps. cbv zeta. cbn [app]. unfold file_body.
  rewrite <- (Forall3_length_lm _ _ _ _ Hall).
  split_and!; try done; lia.
Qed.

(** ** Reading the directory back *)

Lemma length_entries dirs : length (mjoin (encode_entry <$> dirs)) = (91 * length dirs)%nat.
Proof.
  induction dirs as [|d dirs IH]; [done|].
  rewrite fmap_cons, mjoin_cons, length_app, length_encode_entry, IH. cbn [length]. lia.
Qed.

Lemma stored_placed lz4 k codec pages dirs payloads offset :
  Forall3 (stored lz4 k codec) pages dirs payloads -> contiguous offset dirs payloads ->
  0 <= offset -> offset + Z.of_nat (length (mjoin payloads)) < 2 ^ 64 ->
  Forall placed_ok dirs.
Proof.
  intros H. revert offset.
  induction H as [|page d p pages dirs payloads Hd H IH]; intros offset Hc H0 Hend; [done|].
  destruct Hc as (Ho & Hp & Hc). rewrite mjoin_cons, length_app in Hend.
  destruct Hd as (_ & Hraw & Hpl & Hcb & Hub & Hrc & Hcrc & Hok & Hvalid & _).
  constructor; [|apply (IH _ Hc); lia]. unfold U32_MAX in *. unfold placed_ok.
  rewrite Ho, Hcb, Hub, Hrc, Hcrc.
  split_and!; try done; try (unfold uint; lia); [apply wrap_uint; lia|apply crc32c_uint].
Qed.

Lemma directory_steps start size offset dirs payloads :
  contiguous offset dirs payloads -> start <= offset ->
  offset + Z.of_nat (length (mjoin payloads)) <= size - 4 ->
  loop (directory_step start size) offset dirs
  = Ok (offset + Z.of_nat (length (mjoin payloads))).
Proof.
  revert offset payloads. induction dirs as [|d dirs IH]; intros offset [|p payloads] Hc Hs He;
    try done.
  { cbn. by rewrite Z.add_0_r. }
  destruct Hc as (Ho & Hp & Hc). rewrite mjoin_cons, length_app, Nat2Z.inj_add in He |- *.
  cbn [loop].
  assert (directory_step start size offset d = Ok (offset + Z.of_nat (length p))) as ->.
  { unfold directory_step. rewrite Ho, Hp.
    rewrite !(proj2 (Z.ltb_ge _ _)) by lia. cbn [orb negb require mbind StatusOr_bind].
    by rewrite (proj2 (Z.leb_le _ _)) by lia. }
  cbn [mbind StatusOr_bind].
  rewrite (IH _ payloads Hc) by lia. f_equal. lia.
Qed.

Lemma ValidDirectory_OK dirs payloads start size :
  contiguous start dirs payloads -> size = start + Z.of_nat (length (mjoin payloads)) + 4 ->
  0 <= start ->
  ValidDirectory dirs start size = Ok tt.
Proof.
  intros Hc -> H0. unfold ValidDirectory. rewrite !(proj2 (Z.ltb_ge _ _)) by lia.
  cbn [orb negb require mbind StatusOr_bind].
  rewrite (directory_steps start _ start dirs payloads Hc) by lia. cbn [mbind StatusOr_bind].
  rewrite (proj2 (Z.eqb_eq _ _)) by lia. done.
Qed.

Section file.

Context (h : ProjectionHeader) (codec : CompressionCodec)
  (dirs : list ProjectionPageDirectoryEntry) (payloads : list (list byte)) (b : list byte).
Hypothesis Hb :
  b = file_body h codec dirs payloads ++ le_bytes 4 (crc32c (file_body h codec dirs payloads)).
Hypothesis Hheader : header_ok h.
Hypothesis Hkind : 1 <= ProjectionKind_to_u8 (kind h) <= 5.
Hypothesis Hcodec : codec = kNoCodec \/ codec = kLz4.
Hypothesis Hrange : header_range h = StatusOK.
Hypothesis Hcount : Z.of_nat (length dirs) <= U32_MAX.
Hypothesis Hplaced : Forall placed_ok dirs.
Hypothesis Hcontiguous :
  contiguous (kHeaderBytes + Z.of_nat (length dirs) * kDirectoryBytes) dirs payloads.

Lemma file_length :
  Z.of_nat (length b) = kHeaderBytes + Z.of_nat (length dirs) * kDirectoryBytes
                        + Z.of_nat (length (mjoin payloads)) + 4.
Proof.
  rewrite Hb. unfold file_body.
  rewrite !length_app, length_encode_header, length_entries, length_le_bytes.
  unfold kHeaderBytes, kDirectoryBytes. lia.
Qed.

Lemma codec_of_u8 : CompressionCodec_of_u8 (CompressionCodec_to_u8 codec) = codec.
Proof. by destruct Hcodec as [-> | ->]. Qed.

Lemma file_codec : (CompressionCodec_to_u8 codec =? 0) || (CompressionCodec_to_u8 codec =? 1) = true.
Proof. by destruct Hcodec as [-> | ->]. Qed.

Lemma file_checksum :
  GetLittleEndian 4 b (length b - 4) = Some (crc32c (take (length b - 4) b), length b).
Proof.
  set (body := file_body h codec dirs payloads) in *.
  assert (suffix_at b (length body) (le_bytes 4 (crc32c body) ++ [])) as H.
  { rewrite app_nil_r, Hb. apply (suffix_at_skip _ 0 body). apply suffix_at_0. }
  assert (length b = length body + 4)%nat as Hl by (rewrite Hb, length_app, length_le_bytes; done).
  replace (length b - 4)%nat with (length body) by lia.
  apply GetLittleEndian_at in H as [-> _]; [|apply crc32c_uint].
  rewrite Hb, take_app_length. by rewrite length_app, length_le_bytes.
Qed.

Lemma decode_directory_at limit :
  kDirectoryBytes * Z.of_nat (length dirs) <= limit ->
  decode_directory b limit = Ok (h, codec, dirs).
Proof.
  intros Hlimit. pose proof file_length as Hl. unfold kHeaderBytes, kDirectoryBytes, U32_MAX in *.
  destruct (header_at h codec (Z.of_nat (length dirs))
    (mjoin (encode_entry <$> dirs) ++ mjoin payloads
     ++ le_bytes 4 (crc32c (file_body h codec dirs payloads))) b)
    as (h0 & Hm & Hv & Hk & Hc & Hr & Hf & Ht & Hn & Hcrc & Hh & Hs);
    [rewrite Hb; unfold file_body; by rewrite <- !app_assoc|done|unfold uint; lia|done|done|].
  unfold decode_directory, kHeaderBytes, kDirectoryBytes. rewrite Hm.
  rewrite (proj2 (Z.ltb_ge (Z.of_nat (length b)) _)), bool_decide_eq_true_2 by (done || lia).
  cbn [orb negb require mbind StatusOr_bind]. rewrite Hv.
  cbn [from_option mbind StatusOr_bind Z.eqb Pos.eqb require].
  rewrite (proj2 (Nat.leb_le _ _)) by lia. cbn [require mbind StatusOr_bind Nat.add].
  rewrite Hk, Hc, !(proj2 (Z.ltb_ge _ _)) by lia. cbn [orb negb require mbind StatusOr_bind].
  rewrite file_codec. cbn [require mbind StatusOr_bind]. rewrite Hr.
  cbn [from_option mbind StatusOr_bind]. rewrite Hf.
  rewrite (proj2 (Z.ltb_ge 1 _)) by (destruct (valid_to_max h); lia).
  rewrite Ht. cbn [from_option mbind option_bind StatusOr_bind]. rewrite Hn.
  cbn [from_option mbind option_bind StatusOr_bind]. rewrite Hh, Hrange.
  cbn [check mbind StatusOr_bind].
  rewrite !(proj2 (Z.ltb_ge _ _)) by (apply Z.div_le_lower_bound; lia).
  cbn [orb negb require mbind StatusOr_bind]. rewrite Hcrc.
  cbn [mbind option_bind]. change (Z.to_nat (81 - 4)) with 77%nat. rewrite !Z.eqb_refl.
  cbn [andb Z.eqb Z.of_nat Pos.of_succ_nat Pos.succ Pos.eqb from_option mbind StatusOr_bind].
  rewrite Nat2Z.id, (read_entries_at _ _ _ _ b [] 81 dirs _ _ (length_seq _ _) Hplaced Hs). cbn [mbind StatusOr_bind app].
  rewrite (ValidDirectory_OK _ payloads) by (done || lia). cbn [mbind StatusOr_bind].
  rewrite file_checksum. cbn [mbind option_bind]. rewrite Z.eqb_refl.
  cbn [from_option mbind StatusOr_bind]. by rewrite codec_of_u8.
Qed.

Lemma directory_prefix k :
  (81 + 91 * length dirs <= k)%nat ->
  exists rest, take k b
    = encode_header h codec (Z.of_nat (length dirs)) ++ mjoin (encode_entry <$> dirs) ++ rest.
Proof.
  intros Hk. exists (take (k - (81 + 91 * length dirs))
    (mjoin payloads ++ le_bytes 4 (crc32c (file_body h codec dirs payloads)))).
  rewrite Hb. unfold file_body at 1. rewrite <- !app_assoc.
  rewrite take_app_ge, length_encode_header by (rewrite length_encode_header; lia).
  rewrite take_app_ge, length_entries by (rewrite length_entries; lia).
  do 3 f_equal. lia.
Qed.

Lemma DecodeProjectionDirectory_at k :
  (81 + 91 * length dirs <= k)%nat ->
  DecodeProjectionDirectory (take k b) (Z.of_nat (length b))
  = if 4 <? ProjectionKind_to_u8 (kind h) then Fail (corrupt "invalid projection kind")
    else Ok (mkProjectionChain h [] [] dirs, codec).
Proof.
  intros Hk. pose proof file_length as Hl. unfold kHeaderBytes, kDirectoryBytes, U32_MAX in *.
  destruct (directory_prefix k Hk) as [rest Hprefix].
  assert (81 + 91 * Z.of_nat (length dirs) <= Z.of_nat (length (take k b))) as Hpl
    by (rewrite Hprefix, !length_app, length_encode_header, length_entries; lia).
  set (b0 := take k b) in *. destruct (header_at h codec (Z.of_nat (length dirs))
    (mjoin (encode_entry <$> dirs) ++ rest) b0)
    as (h0 & Hm & Hv & Hkb & Hc & Hr & Hf & Ht & Hn & Hcrc & Hh & Hs);
    [done|done|unfold uint; lia|done|done|].
  unfold DecodeProjectionDirectory, kHeaderBytes, kDirectoryBytes. rewrite Hm.
  rewrite !(proj2 (Z.ltb_ge (Z.of_nat _) _)), bool_decide_eq_true_2 by (done || lia).
  cbn [orb negb require mbind StatusOr_bind]. rewrite Hv. cbn [mbind option_bind].
  rewrite (proj2 (Nat.leb_le _ _)) by lia.
  cbn [Z.eqb Pos.eqb andb from_option mbind StatusOr_bind Nat.add].
  rewrite Hkb, Hc, (proj2 (Z.ltb_ge (ProjectionKind_to_u8 _) 1)) by lia.
  destruct (4 <? ProjectionKind_to_u8 (kind h)); [done|].
  cbn [orb negb require mbind StatusOr_bind].
  rewrite file_codec. cbn [require mbind StatusOr_bind]. rewrite Hr.
  cbn [from_option mbind StatusOr_bind]. rewrite Hf.
  rewrite (proj2 (Z.ltb_ge 1 _)) by (destruct (valid_to_max h); lia).
  rewrite Ht. cbn [from_option mbind option_bind StatusOr_bind]. rewrite Hn.
  cbn [from_option mbind option_bind StatusOr_bind].
  rewrite !(proj2 (Z.ltb_ge _ _)) by (apply Z.div_le_lower_bound; lia).
  cbn [orb from_option mbind option_bind StatusOr_bind]. rewrite Hcrc.
  cbn [mbind option_bind]. change (Z.to_nat (81 - 4)) with 77%nat. rewrite !Z.eqb_refl.
  cbn [andb from_option mbind StatusOr_bind]. rewrite Hh, Hrange.
  cbn [check mbind StatusOr_bind].
  rewrite Nat2Z.id, (read_entries_at _ _ _ _ b0 [] 81 dirs _ _ (length_seq _ _) Hplaced Hs).
  cbn [mbind StatusOr_bind app]. rewrite (proj2 (Z.eqb_eq _ _)) by lia.
  cbn [require mbind StatusOr_bind].
  rewrite (ValidDirectory_OK _ payloads) by (done || lia). cbn [mbind StatusOr_bind].
  by rewrite codec_of_u8.
Qed.

End file.

(** ** Reading the pages back *)

Lemma rows_ok_app l1 l2 : rows_ok (l1 ++ l2) -> rows_ok l1 /\ rows_ok l2.
Proof.
  unfold rows_ok. rewrite Forall_app, StronglySorted_app. naive_solver.
Qed.

Lemma page_ok_split n m ivs bds :
  page_ok (ivs, bds) -> page_ok (take n ivs, take m bds) /\ page_ok (drop n ivs, drop m bds).
Proof.
  intros (Hri & Hi & Hrb & Hb). cbn [fst snd] in *.
  rewrite <- (take_drop n ivs), fmap_app in Hri. rewrite <- (take_drop m bds), fmap_app in Hrb.
  apply rows_ok_app in Hri as [Hri1 Hri2]. apply rows_ok_app in Hrb as [Hrb1 Hrb2].
  split; (split_and!; cbn [fst snd]; [done|by (apply Forall_take || apply Forall_drop)
                                     |done|by (apply Forall_take || apply Forall_drop)]).
Qed.

Lemma Pages_ok left_ ivs bds : page_ok (ivs, bds) -> Forall page_ok (Pages left_ ivs bds).
Proof.
  revert ivs bds. induction left_ as [|n IH]; intros ivs bds H; [constructor|]. cbn [Pages].
  set (want := ((length ivs + length bds + n) / S n)%nat).
  destruct (page_ok_split want (want - length ivs) ivs bds H) as [H1 H2].
  constructor; [done|]. by apply IH.
Qed.

Lemma Pages_length left_ ivs bds : length (Pages left_ ivs bds) = left_.
Proof. revert ivs bds. induction left_ as [|n IH]; intros; cbn [Pages length]; by rewrite ?IH. Qed.

(** No row is lost between the pages. *)
Lemma Pages_join left_ ivs bds :
  (0 < left_)%nat ->
  mjoin (fst <$> Pages left_ ivs bds) = ivs /\ mjoin (snd <$> Pages left_ ivs bds) = bds.
Proof.
  revert ivs bds. induction left_ as [|n IH]; intros ivs bds H; [lia|]. cbn [Pages].
  set (want := ((length ivs + length bds + n) / S n)%nat).
  rewrite !fmap_cons, !mjoin_cons. cbn [fst snd]. destruct n as [|n].
  - assert (want = length ivs + length bds)%nat as ->
      by (subst want; rewrite Nat.div_1_r; lia).
    cbn [Pages]. change (mjoin (fst <$> [])) with ([] : list ProjectionInterval).
    change (mjoin (snd <$> [])) with ([] : list ProjectionBoundary).
    by rewrite !app_nil_r, !take_ge by lia.
  - destruct (IH (drop want ivs) (drop (want - length ivs) bds)) as [-> ->]; [lia|].
    by rewrite !take_drop.
Qed.

Lemma payload_roundtrip sizes page :
  sizes_ok sizes -> page_ok page ->
  Z.of_nat (length (EncodePayload page.1 page.2)) <= U32_MAX ->
  exists cost, 0 <= cost /\
    forall reserve limit b more, (forall asked n, reserve asked n = true) -> 0 <= more ->
      room limit b (cost + more) ->
      exists b', DecodePayload reserve sizes (EncodePayload page.1 page.2) limit b
                 = Ok (page.1, page.2, b') /\ room limit b' more.
Proof.
  intros Hsizes (Hri & Hoi & Hrb & Hob) Hlen.
  destruct (EncodePayload_shape page.1 page.2 Hoi Hob Hlen)
    as (vs & ii & bi & E & Hvs & Hxi & Hui & Hxb & Hub). rewrite E in *.
  exists (payload_cost sizes vs page.1 page.2 ii bi). split.
  - pose proof Hsizes as (Hsv & Hsi & Hsb & _). unfold payload_cost.
    pose proof (rows_cost_nonneg _ (interval_value <$> page.1) (proj1 Hsi)).
    pose proof (rows_cost_nonneg _ (boundary_value <$> page.2) (proj1 Hsb)).
    pose proof (dictionary_cost_nonneg sizes Hsizes vs).
    pose proof (blobs_cost_nonneg (columns page.1 page.2 ii bi)). nia.
  - intros reserve limit b more Hreserve Hm Hroom. by apply DecodePayload_at.
Qed.

(** The rows of a page are counted without wrapping around. *)
Lemma page_rows lz4 k codec page d payload :
  page_ok page -> stored lz4 k codec page d payload ->
  row_count d = Z.of_nat (length page.1 + length page.2).
Proof.
  intros (_ & Hoi & _ & Hob) (_ & Hlen & _ & _ & _ & -> & _).
  destruct (EncodePayload_shape page.1 page.2 Hoi Hob Hlen) as (vs & ii & bi & E & _).
  rewrite E in Hlen. destruct (column_bounds page.1 page.2 ii bi) as [Hni Hnb].
  unfold payload_bytes in Hlen. rewrite !length_app in Hlen. unfold U32_MAX in Hlen.
  rewrite uint_wrap by (unfold uint; lia). lia.
Qed.

Lemma payload_slice b offset p rest :
  0 <= offset -> suffix_at b (Z.to_nat offset) (p ++ rest) ->
  take (Z.to_nat (Z.of_nat (length p))) (drop (Z.to_nat offset) b) = p.
Proof. intros H0 H. rewrite Nat2Z.id. by apply suffix_at_take in H. Qed.

(** One page within what is left of the budgets. *)
Lemma decode_page_at sizes lz4 k codec page d p :
  sizes_ok sizes -> codec = kNoCodec \/ codec = kLz4 /\ lz4_ok lz4 -> page_ok page ->
  stored lz4 k codec page d p ->
  exists cost, 0 <= cost /\
    forall b limit rest i ivs bds used budget more,
      0 <= page_offset d -> suffix_at b (Z.to_nat (page_offset d)) (p ++ rest) ->
      0 <= used -> used + cost + more <= limit -> 0 <= more ->
      room limit budget (Z.of_nat (length ivs + length bds) + cost + more) ->
      exists used' budget',
        decode_page sizes lz4 b limit codec None (ivs, bds, used, budget) (i, d)
        = Ok (ivs ++ page.1, bds ++ page.2, used', budget') /\
        0 <= used' /\ used' + more <= limit /\
        room limit budget'
          (Z.of_nat (length (ivs ++ page.1) + length (bds ++ page.2)) + more).
Proof.
  intros Hsizes Hcodec Hok Hst. pose proof (page_rows _ _ _ _ _ _ Hok Hst) as Hrows.
  destruct Hst as (Hcp & Hraw & Hpl & Hcb & Hub & _ & Hcrc & _).
  set (raw := EncodePayload page.1 page.2) in *.
  destruct (payload_roundtrip sizes page Hsizes Hok Hraw) as (cost & Hcost & Hdec).
  fold raw in Hdec. exists (cost + Z.of_nat (length raw) + Z.of_nat (length p)
          + Z.of_nat (length page.1 + length page.2)).
  split; [lia|]. intros b limit rest i ivs bds used budget more H0 Hs Hused Hlimit Hm Hroom.
  unfold decode_page. rewrite Hcb, (payload_slice _ _ _ _ H0 Hs), Hcrc, Z.eqb_refl, Hub.
  cbn [require mbind StatusOr_bind]. rewrite !(proj2 (Z.ltb_ge _ _)) by lia.
  cbn [orb negb require mbind StatusOr_bind]. rewrite (Z.min_l (Z.of_nat (length raw))) by lia.
  rewrite (file_codec_roundtrip _ _ _ _ Hcodec Hcp). cbn [mbind StatusOr_bind].
  rewrite Z.eqb_refl. cbn [require mbind StatusOr_bind].
  destruct (Hdec (fun _ _ => true) (limit - Z.min limit (Z.of_nat (length ivs + length bds)))
    budget (Z.of_nat (length page.1 + length page.2) + more)) as (budget' & -> & Hr');
    [done|lia|unfold room in *; lia|].
  cbn [mbind StatusOr_bind]. rewrite Hrows, Z.eqb_refl. cbn [require mbind StatusOr_bind].
  eexists _, budget'. split; [done|]. rewrite !length_app. unfold room in *. lia.
Qed.

Lemma decode_pages_at sizes lz4 k codec pages dirs payloads :
  sizes_ok sizes -> codec = kNoCodec \/ codec = kLz4 /\ lz4_ok lz4 -> Forall page_ok pages ->
  Forall3 (stored lz4 k codec) pages dirs payloads ->
  exists cost, 0 <= cost /\
    forall b limit rest i ivs bds used budget offset,
      0 <= offset -> contiguous offset dirs payloads ->
      suffix_at b (Z.to_nat offset) (mjoin payloads ++ rest) ->
      0 <= used -> used + cost <= limit ->
      room limit budget (Z.of_nat (length ivs + length bds) + cost) ->
      exists used' budget',
        loop (decode_page sizes lz4 b limit codec None) (ivs, bds, used, budget)
          (zip (seq i (length dirs)) dirs)
        = Ok (ivs ++ mjoin (fst <$> pages), bds ++ mjoin (snd <$> pages), used', budget').
Proof.
  intros Hsizes Hcodec Hok H.
  induction H as [|page d p pages dirs payloads Hd H IH].
  { exists 0. split; [lia|]. intros. cbn. rewrite !app_nil_r. by eauto. }
  apply Forall_cons in Hok as [Hp Hok]. destruct (IH Hok) as (cost2 & Hc2 & Hrest).
  destruct (decode_page_at sizes lz4 k codec page d p Hsizes Hcodec Hp Hd)
    as (cost1 & Hc1 & Hpage).
  exists (cost1 + cost2). split; [lia|].
  intros b limit rest i ivs bds used budget offset H0 (Ho & Hl & Hc) Hs Hu Hlim Hroom.
  rewrite mjoin_cons, <- app_assoc in Hs. cbn [length seq zip zip_with loop]. subst offset.
  destruct (Hpage b limit (mjoin payloads ++ rest) i ivs bds used budget cost2)
    as (used1 & budget1 & -> & Hu1 & Hl1 & Hr1); [done|done|done|lia|lia|unfold room in *; lia|].
  cbn [mbind StatusOr_bind]. rewrite !fmap_cons, !mjoin_cons, !app_assoc.
  apply suffix_at_skip in Hs.
  apply (Hrest b limit rest (S i)) with (offset := page_offset d + Z.of_nat (length p));
    [lia|done| |done|lia|done].
  replace (Z.to_nat (page_offset d + Z.of_nat (length p)))
    with (Z.to_nat (page_offset d) + length p)%nat by lia. done.
Qed.

Lemma page_read_at sizes lz4 k codec page d p :
  sizes_ok sizes -> codec = kNoCodec \/ codec = kLz4 /\ lz4_ok lz4 -> page_ok page ->
  stored lz4 k codec page d p ->
  exists budget, forall h capacity limit, 0 <= capacity -> budget + capacity <= limit ->
    ReadProjectionPagePayload (fun _ _ => true) sizes lz4 h codec d p capacity limit
    = Ok (mkProjectionChain h page.1 page.2 [d]).
Proof.
  intros Hsizes Hcodec Hok Hst. pose proof (page_rows _ _ _ _ _ _ Hok Hst) as Hrows.
  destruct Hst as (Hcp & Hraw & Hpl & Hcb & Hub & _ & Hcrc & _).
  set (raw := EncodePayload page.1 page.2) in *.
  destruct (payload_roundtrip sizes page Hsizes Hok Hraw) as (cost & Hcost & Hdec).
  fold raw in Hdec. exists (cost + Z.of_nat (length raw) + sizeof_ProjectionChain sizes
          + sizeof_DirectoryEntry sizes).
  intros h capacity limit H0 Hlimit. destruct Hsizes as (_ & _ & _ & Hsc & Hsd).
  unfold ReadProjectionPagePayload. rewrite Hcb, Hcrc, !Z.eqb_refl, Hub.
  cbn [andb require mbind StatusOr_bind]. rewrite (proj2 (Z.leb_le _ _)) by lia.
  cbn [require mbind StatusOr_bind]. rewrite (Z.min_l (Z.of_nat (length raw))) by lia.
  rewrite (file_codec_roundtrip _ _ _ _ Hcodec Hcp). cbn [mbind StatusOr_bind].
  rewrite Z.eqb_refl. cbn [require mbind StatusOr_bind].
  edestruct (Hdec (fun _ _ => true) limit) with (more := 0) as (b' & -> & _);
    [done|lia| |].
  { unfold room. cbn [allocation_used]. lia. }
  cbn [mbind StatusOr_bind]. by rewrite Hrows, Z.eqb_refl.
Qed.

(** An adjacency page answers for each of its entities. *)
Lemma bloom_complete lz4 codec page d p e :
  stored lz4 kAdjacency codec page d p -> e ∈ page_entities page ->
  PageMayContainEntity d e = true.
Proof.
  intros (_ & _ & _ & _ & _ & _ & _ & _ & _ & Hbloom) He.
  destruct (Hbloom eq_refl) as (Hbits & Hhashes & Hmask).
  unfold PageMayContainEntity. rewrite Hbits, Hhashes. destruct (_ || _); [done|].
  change (Z.to_nat (Z.max 1 1)) with 1%nat. change (Z.min 64 64) with 64.
  cbn [bloom_rounds Z.eqb]. rewrite <- (negb_involutive (Z.land _ _ =? 0)), land_bit by lia_mod.
  rewrite Hmask. unfold adjacency_mask. rewrite adjacency_mask_spec, Z.bits_0 by lia_mod.
  cbn [orb]. assert (existsb (fun e' => e' mod 64 =? e mod 64) (page_entities page) = true) as ->.
  { apply existsb_exists. exists e. split; [by apply list_elem_of_In|apply Z.eqb_refl]. }
  done.
Qed.

Lemma stored_slice lz4 k codec pages dirs payloads b offset rest i page d :
  Forall3 (stored lz4 k codec) pages dirs payloads -> contiguous offset dirs payloads ->
  0 <= offset -> suffix_at b (Z.to_nat offset) (mjoin payloads ++ rest) ->
  pages !! i = Some page -> dirs !! i = Some d ->
  stored lz4 k codec page d
    (take (Z.to_nat (compressed_bytes d)) (drop (Z.to_nat (page_offset d)) b)).
Proof.
  intros H. revert offset i.
  induction H as [|page0 d0 p pages dirs payloads Hd H IH]; intros offset i Hc H0 Hs Hp Hi; [done|].
  destruct Hc as (Ho & Hl & Hc). rewrite mjoin_cons, <- app_assoc in Hs.
  destruct i as [|i]; cbn in Hp, Hi.
  - simplify_eq. rewrite Hl, (payload_slice _ _ _ _ H0 Hs). done.
  - apply (IH _ i Hc); try done; [lia|]. apply suffix_at_skip in Hs.
    by replace (Z.to_nat (offset + Z.of_nat (length p)))
      with (Z.to_nat offset + length p)%nat by lia.
Qed.

(** What the readers rely on, of a file that the encoder wrote. *)
Lemma written_file lz4 c codec bytes :
  chain_ok c -> codec = kNoCodec \/ codec = kLz4 ->
  EncodeProjectionPage lz4 c codec = Ok bytes -> Z.of_nat (length bytes) < 2 ^ 64 ->
  exists dirs payloads,
    let pages := Pages (Nat.max 1 (length (page_directory c))) (intervals c) (boundaries c) in
    let start := kHeaderBytes + Z.of_nat (length dirs) * kDirectoryBytes in
    length dirs = length pages /\ contiguous start dirs payloads /\ 0 <= start /\
    Forall3 (stored lz4 (kind (header c)) codec) pages dirs payloads /\
    (exists rest, suffix_at bytes (Z.to_nat start) (mjoin payloads ++ rest)) /\
    (forall limit, kDirectoryBytes * Z.of_nat (length dirs) <= limit ->
       decode_directory bytes limit = Ok (header c, codec, dirs)) /\
    (forall k, (81 + 91 * length dirs <= k)%nat ->
       DecodeProjectionDirectory (take k bytes) (Z.of_nat (length bytes))
       = if bool_decide (kind (header c) = kPropertyIndex)
         then Fail (corrupt "invalid projection kind")
         else Ok (mkProjectionChain (header c) [] [] dirs, codec)).
Proof.
  intros Hok Hcodec H Hsize.
  destruct (EncodeProjectionPage_spec _ _ _ _ Hok H)
    as (dirs & payloads & Hb & Hkind & Hrange & Hn & Hc & Hall).
  pose proof (Forall3_length_lm _ _ _ _ Hall) as Hl. rewrite Hl in Hn, Hc.
  pose proof (file_length _ _ _ _ _ Hb) as Hlen. destruct Hok as (Hheader & _ & _).
  assert (Forall placed_ok dirs) as Hplaced.
  { eapply stored_placed; [exact Hall|exact Hc| |];
      unfold kHeaderBytes, kDirectoryBytes in *; lia. }
  exists dirs, payloads. cbv zeta. split; [done|]. split; [done|].
  split; [unfold kHeaderBytes, kDirectoryBytes; lia|]. split; [done|]. split.
  { exists (le_bytes 4 (crc32c (file_body (header c) codec dirs payloads))).
    pose proof (suffix_at_0 bytes) as Hs. rewrite Hb in Hs at 2. unfold file_body in Hs at 1.
    rewrite <- !app_assoc in Hs. do 2 apply suffix_at_skip in Hs.
    rewrite length_encode_header, length_entries in Hs.
    unfold kHeaderBytes, kDirectoryBytes.
    by replace (Z.to_nat (81 + Z.of_nat (length dirs) * 91)) with (0 + 81 + 91 * length dirs)%nat
      by lia. }
  split.
  - intros limit Hlimit. by apply (decode_directory_at _ _ _ payloads).
  - intros k Hk. rewrite (DecodeProjectionDirectory_at _ _ _ payloads) by done.
    destruct Hheader as [Ek _].
    destruct (kind (header c)); cbn in *; try done; destruct (Z.ltb_spec 4 raw); [|done].
    replace raw with 5 in * by lia. discriminate Ek.
Qed.

Lemma sample_chain_ok : chain_ok sample_chain.
Proof.
  split; [vm_compute; split_and!; done|]. split.
  { repeat constructor; vm_compute; done. }
  unfold page_ok, rows_ok, row_le. cbn.
  split_and!; repeat constructor; cbn; unfold uint; try lia; vm_compute; try done; by left || by right.
Qed.

(** ** Properties *)

(** C16: projection files survive the disk.  Take a chain whose rows are sorted by entity
    and time, whose intervals do not end before they start and whose fields have their
    types.  A file that was encoded from it is decoded, with every budget from some bound
    on, to the same header, the same intervals and the same boundaries, over any number
    of pages and with either file codec. *)
Theorem projection_file_roundtrip sizes lz4 c codec bytes :
  sizes_ok sizes -> codec = kNoCodec \/ codec = kLz4 /\ lz4_ok lz4 -> chain_ok c ->
  EncodeProjectionPage lz4 c codec = Ok bytes -> Z.of_nat (length bytes) < 2 ^ 64 ->
  exists dirs budget,
    length dirs = Nat.max 1 (length (page_directory c)) /\
    forall limit, budget <= limit ->
      DecodeProjectionPage sizes lz4 bytes limit
      = Ok (mkProjectionChain (header c) (intervals c) (boundaries c) dirs).
Proof.
  intros Hsizes Hcodec Hok H Hsize.
  destruct (written_file lz4 c codec bytes Hok ltac:(naive_solver) H Hsize)
    as (dirs & payloads & Hl & Hc & H0 & Hall & [rest Hs] & Hdir & _).
  set (pages := Pages _ _ _) in *. destruct Hok as (_ & _ & Hrows).
  assert (Forall page_ok pages) as Hpages by (by apply Pages_ok).
  destruct (decode_pages_at _ _ _ _ _ _ _ Hsizes Hcodec Hpages Hall) as (cost & Hcost & Hdec).
  exists dirs, (kDirectoryBytes * Z.of_nat (length dirs) + cost). unfold pages in Hl.
  rewrite Pages_length in Hl.
  split; [done|]. intros limit Hlimit. unfold kDirectoryBytes in *.
  unfold DecodeProjectionPage, DecodeProjectionPageImpl. rewrite Hdir by lia.
  cbn [mbind StatusOr_bind].
  edestruct (Hdec bytes limit rest 0%nat [] [] 0 (mkBudget 0 [])) as (used & budget & ->);
    [exact H0|exact Hc|exact Hs|lia|lia|unfold room; cbn; lia|].
  cbn [mbind StatusOr_bind app]. unfold pages.
  by destruct (Pages_join (Nat.max 1 (length (page_directory c))) (intervals c) (boundaries c))
    as [-> ->]; [lia|].
Qed.

Lemma projection_file_roundtrip_witness :
  exists bytes dirs budget, EncodeProjectionPage copy_lz4 sample_chain kLz4 = Ok bytes /\
    length dirs = 2%nat /\
    forall limit, budget <= limit ->
      DecodeProjectionPage sample_sizes copy_lz4 bytes limit
      = Ok (mkProjectionChain (header sample_chain) (intervals sample_chain)
              (boundaries sample_chain) dirs).
Proof.
  destruct (EncodeProjectionPage copy_lz4 sample_chain kLz4) as [bytes|s] eqn:E;
    [|vm_compute in E; discriminate].
  exists bytes.
  destruct (projection_file_roundtrip sample_sizes copy_lz4 sample_chain kLz4 bytes)
    as (dirs & budget & Hl & H).
  - unfold sizes_ok. cbn. lia.
  - right. split; [reflexivity|apply copy_lz4_ok].
  - apply sample_chain_ok.
  - exact E.
  - vm_compute in E. injection E as <-. reflexivity.
  - exists dirs, budget. split; [reflexivity|]. split; [exact Hl|exact H].
Defined.

(** C17: a page can be read alone.  Take a chain whose rows are sorted by entity and
    time, whose intervals do not end before they start and whose fields have their
    types, and the file that is written for it with either file codec.  Each page is
    read back from the bytes that its directory entry names, with every budget from some
    bound on, whatever the capacity of the string that holds them.  The pages together
    hold every row of the chain once and in order, and the filter of an adjacency page
    rejects none of the entities of the page.  The directory is read back
    from any prefix of the file that contains it, except for a property index: the
    reader of directories refuses every file of that kind, although the writer and the
    reader of whole files accept it. *)
Theorem projection_pages_roundtrip sizes lz4 c codec bytes :
  sizes_ok sizes -> codec = kNoCodec \/ codec = kLz4 /\ lz4_ok lz4 -> chain_ok c ->
  EncodeProjectionPage lz4 c codec = Ok bytes -> Z.of_nat (length bytes) < 2 ^ 64 ->
  exists dirs pages,
    (forall k, (81 + 91 * length dirs <= k)%nat ->
       DecodeProjectionDirectory (take k bytes) (Z.of_nat (length bytes))
       = if bool_decide (kind (header c) = kPropertyIndex)
         then Fail (corrupt "invalid projection kind")
         else Ok (mkProjectionChain (header c) [] [] dirs, codec)) /\
    length dirs = Nat.max 1 (length (page_directory c)) /\ length pages = length dirs /\
    mjoin (fst <$> pages) = intervals c /\ mjoin (snd <$> pages) = boundaries c /\
    forall i d page, dirs !! i = Some d -> pages !! i = Some page ->
      (exists budget, forall capacity limit, 0 <= capacity -> budget + capacity <= limit ->
         ReadProjectionPagePayload (fun _ _ => true) sizes lz4 (header c) codec d
           (take (Z.to_nat (compressed_bytes d)) (drop (Z.to_nat (page_offset d)) bytes))
           capacity limit
         = Ok (mkProjectionChain (header c) page.1 page.2 [d])) /\
      (kind (header c) = kAdjacency ->
       forall e, e ∈ page_entities page -> PageMayContainEntity d e = true).
Proof.
  intros Hsizes Hcodec Hok H Hsize.
  destruct (written_file lz4 c codec bytes Hok ltac:(naive_solver) H Hsize)
    as (dirs & payloads & Hl & Hc & H0 & Hall & [rest Hs] & _ & Hdir).
  set (pages := Pages _ _ _) in *. destruct Hok as (_ & _ & Hrows).
  assert (Forall page_ok pages) as Hpages by (by apply Pages_ok).
  exists dirs, pages. split; [by apply Hdir|].
  split; [by rewrite Hl; apply Pages_length|]. split; [done|].
  destruct (Pages_join (Nat.max 1 (length (page_directory c))) (intervals c) (boundaries c))
    as [Hi Hb]; [lia|]. split; [exact Hi|]. split; [exact Hb|].
  intros i d page Hd Hp.
  pose proof (stored_slice _ _ _ _ _ _ _ _ _ _ _ _ Hall Hc H0 Hs Hp Hd) as Hst.
  split.
  - pose proof (proj1 (Forall_lookup _ _) Hpages _ _ Hp) as Hpok.
    destruct (page_read_at _ _ _ _ _ _ _ Hsizes Hcodec Hpok Hst) as [budget Hread].
    exists budget. intros capacity limit. apply Hread.
  - intros Hk e He. rewrite Hk in Hst. by apply (bloom_complete _ _ _ _ _ _ Hst).
Qed.

Lemma projection_pages_roundtrip_witness :
  exists bytes dirs, EncodeProjectionPage copy_lz4 sample_chain kNoCodec = Ok bytes /\
    DecodeProjectionDirectory (take 400 bytes) (Z.of_nat (length bytes))
    = Ok (mkProjectionChain (header sample_chain) [] [] dirs, kNoCodec).
Proof.
  destruct (EncodeProjectionPage copy_lz4 sample_chain kNoCodec) as [bytes|s] eqn:E;
    [|vm_compute in E; discriminate].
  exists bytes.
  destruct (projection_pages_roundtrip sample_sizes copy_lz4 sample_chain kNoCodec bytes)
    as (dirs & pages & Hdir & Hl & Hi & _).
  - unfold sizes_ok. cbn. lia.
  - left. reflexivity.
  - apply sample_chain_ok.
  - exact E.
  - vm_compute in E. injection E as <-. reflexivity.
  - exists dirs. split; [reflexivity|]. apply Hdir. rewrite Hl. cbn. lia.
Defined.

(** The order check of the encoder has a gap: it does not record the time of the first row
    of an entity.  A chain whose second row of an entity is earlier than its first is
    encoded, and the file is rejected when it is read. *)
Lemma unordered_rows_accepted :
  exists bytes, EncodeProjectionPage copy_lz4 unordered_chain kNoCodec = Ok bytes /\
    DecodeProjectionPage sample_sizes copy_lz4 bytes (2 ^ 30)
    = Fail (corrupt "invalid interval time delta").
Proof. eexists. split; [vm_compute; reflexivity|vm_compute; reflexivity]. Qed.
