(* ===== verification/Resources.v ===== *)
(** * Resources: the budgets of queries

    Models [src/query/resource/query_resource_pool.cc] and the reservations of
    [src/query/runtime/relational.cc].  A pool admits queries against eleven shared
    counters and a number of workers; the counters are atomics that many threads change
    at once, so an admission is a machine whose steps are the atomic operations, and the
    system interleaves the steps of all threads.  A reservation is what an admitted query
    then spends, under its own lock. *)

From S2P Require Import Prelude Status.

(** ** Data *)

Inductive ResourceDimension :=
| kMemory
| kScratch
| kReadBytes
| kPrefetchBytes
| kDecodedRows
| kOutputRows
| kOutputBytes
| kIntervalFragments
| kGraphLabels
| kVisitedVertices
| kCpuMicros.

#[export] Instance ResourceDimension_eq_dec : EqDecision ResourceDimension.
Proof. solve_decision. Defined.

(** The dimensions in the order of their indices, below [kCount]. *)
Definition dimensions : list ResourceDimension :=
  [kMemory; kScratch; kReadBytes; kPrefetchBytes; kDecodedRows; kOutputRows; kOutputBytes;
   kIntervalFragments; kGraphLabels; kVisitedVertices; kCpuMicros].

Definition kCount : nat := 11.

Definition index (d : ResourceDimension) : nat :=
  match d with
  | kMemory => 0
  | kScratch => 1
  | kReadBytes => 2
  | kPrefetchBytes => 3
  | kDecodedRows => 4
  | kOutputRows => 5
  | kOutputBytes => 6
  | kIntervalFragments => 7
  | kGraphLabels => 8
  | kVisitedVertices => 9
  | kCpuMicros => 10
  end.

Definition Name (d : ResourceDimension) : string :=
  match d with
  | kMemory => "memory_bytes"
  | kScratch => "scratch_bytes"
  | kReadBytes => "read_bytes"
  | kPrefetchBytes => "prefetch_bytes"
  | kDecodedRows => "decoded_rows"
  | kOutputRows => "output_rows"
  | kOutputBytes => "output_bytes"
  | kIntervalFragments => "interval_fragments"
  | kGraphLabels => "graph_labels"
  | kVisitedVertices => "visited_vertices"
  | kCpuMicros => "cpu_us"
  end.

Inductive QueryExecutionMode := kAuto | kInteractive | kAnalytical.

#[export] Instance QueryExecutionMode_eq_dec : EqDecision QueryExecutionMode.
Proof. solve_decision. Defined.

(** What a query asks for. *)
Record QueryBudget := mkQueryBudget {
  budget_memory_bytes : Z;
  budget_scratch_bytes : Z;
  budget_read_bytes : Z;
  budget_prefetch_bytes : Z;
  budget_decoded_rows : Z;
  budget_output_rows : Z;
  budget_output_bytes : Z;
  budget_interval_fragments : Z;
  budget_graph_labels : Z;
  budget_visited_vertices : Z;
  budget_cpu_us : Z;
  budget_max_parallelism : Z
}.

(** What the pool has. *)
Record QueryResourcePoolOptions := mkPoolOptions {
  memory_bytes : Z;
  scratch_bytes : Z;
  read_bytes : Z;
  prefetch_bytes : Z;
  decoded_rows : Z;
  output_rows : Z;
  output_bytes : Z;
  interval_fragments : Z;
  graph_labels : Z;
  visited_vertices : Z;
  cpu_us : Z;
  read_bytes_per_second : Z;
  max_parallelism : Z;
  reserved_interactive_workers : Z
}.

Definition BudgetDim (b : QueryBudget) (d : ResourceDimension) : Z :=
  match d with
  | kMemory => budget_memory_bytes b
  | kScratch => budget_scratch_bytes b
  | kReadBytes => budget_read_bytes b
  | kPrefetchBytes => budget_prefetch_bytes b
  | kDecodedRows => budget_decoded_rows b
  | kOutputRows => budget_output_rows b
  | kOutputBytes => budget_output_bytes b
  | kIntervalFragments => budget_interval_fragments b
  | kGraphLabels => budget_graph_labels b
  | kVisitedVertices => budget_visited_vertices b
  | kCpuMicros => budget_cpu_us b
  end.

Definition PoolDim (o : QueryResourcePoolOptions) (d : ResourceDimension) : Z :=
  match d with
  | kMemory => memory_bytes o
  | kScratch => scratch_bytes o
  | kReadBytes => read_bytes o
  | kPrefetchBytes => prefetch_bytes o
  | kDecodedRows => decoded_rows o
  | kOutputRows => output_rows o
  | kOutputBytes => output_bytes o
  | kIntervalFragments => interval_fragments o
  | kGraphLabels => graph_labels o
  | kVisitedVertices => visited_vertices o
  | kCpuMicros => cpu_us o
  end.

(** An array with one entry per dimension. *)
Definition at_ (values : list Z) (i : nat) : Z := default 0 (values !! i).

(** The atomics of a pool. *)
Record Pool := mkPool {
  io_bytes : Z;
  admitted : list Z;
  workers : Z
}.

Definition empty_pool : Pool := mkPool 0 (replicate kCount 0) 0.

Definition exhausted (message : string) : Status := ResourceExhausted "query" message.

(** ** Reservations *)

Record Lease := mkLease {
  lease_bytes : Z;
  lease_owner : option Z
}.

(** [QueryReservation::State].  A lease is live while it is referenced; an owner maps to
    the identity of a lease that may have expired. *)
Record Reservation := mkReservation {
  limit_bytes : Z;
  used_bytes : Z;
  peak_bytes : Z;
  limits : list Z;
  used : list Z;
  admitted_dimensions : list Z;
  admitted_workers : Z;
  retained_owners : gmap Z nat;
  live_leases : gmap nat Lease;
  expired_leases : list Lease;
  next_lease : nat
}.

Definition new_reservation (limits admitted_dimensions : list Z) (admitted_workers : Z)
  : Reservation :=
  mkReservation (at_ limits (index kMemory)) 0 0 limits (replicate kCount 0)
    admitted_dimensions admitted_workers ∅ ∅ [] 0.

Definition with_used (used_bytes peak_bytes : Z) (used : list Z) (r : Reservation)
  : Reservation :=
  mkReservation (limit_bytes r) used_bytes peak_bytes (limits r) used
    (admitted_dimensions r) (admitted_workers r) (retained_owners r) (live_leases r)
    (expired_leases r) (next_lease r).

Definition with_leases (owners : gmap Z nat) (live : gmap nat Lease) (expired : list Lease)
    (next : nat) (r : Reservation) : Reservation :=
  mkReservation (limit_bytes r) (used_bytes r) (peak_bytes r) (limits r) (used r)
    (admitted_dimensions r) (admitted_workers r) owners live expired next.

(** [used_bytes] and its copy in the array. *)
Definition set_memory (bytes : Z) (r : Reservation) : Reservation :=
  with_used bytes (peak_bytes r) (<[index kMemory := bytes]> (used r)) r.

Definition TryGrow (bytes : Z) (r : Reservation) : bool * Reservation :=
  if (limit_bytes r <? bytes) || (limit_bytes r - bytes <? used_bytes r) then (false, r)
  else
    let grown := used_bytes r + bytes in
    (true, with_used grown (Z.max (peak_bytes r) grown)
             (<[index kMemory := grown]> (used r)) r).

Definition ReserveDimension (d : ResourceDimension) (amount : Z) (r : Reservation)
  : Status * Reservation :=
  let limit := at_ (limits r) (index d) in
  let before := at_ (used r) (index d) in
  if (limit <? amount) || (limit - amount <? before)
  then (exhausted (Name d +:+ " budget exhausted"), r)
  else
    let used' := <[index d := before + amount]> (used r) in
    if bool_decide (d = kMemory)
    then (StatusOK, with_used (before + amount) (Z.max (peak_bytes r) (before + amount)) used' r)
    else (StatusOK, with_used (used_bytes r) (peak_bytes r) used' r).

Definition ReleaseMemory (bytes : Z) (r : Reservation) : Reservation :=
  let before := at_ (used r) (index kMemory) in
  set_memory (before - Z.min bytes before) r.

(** [ReleaseScratch] and [ReleaseReadBytes]. *)
Definition ReleaseDimension (d : ResourceDimension) (amount : Z) (r : Reservation)
  : Reservation :=
  let before := at_ (used r) (index d) in
  with_used (used_bytes r) (peak_bytes r)
    (<[index d := if before <=? amount then 0 else before - amount]> (used r)) r.

Definition Release (bytes : Z) (r : Reservation) : Reservation :=
  set_memory (if used_bytes r <=? bytes then 0 else used_bytes r - bytes) r.

(** A new lease and its identity. *)
Definition TryRetain (bytes : Z) (owner : option Z) (r : Reservation)
  : option nat * Reservation :=
  let '(grown, r) := TryGrow bytes r in
  if grown then
    (Some (next_lease r),
     with_leases (retained_owners r) (<[next_lease r := mkLease bytes owner]> (live_leases r))
       (expired_leases r) (S (next_lease r)) r)
  else (None, r).

(** [found->second.lock()]. *)
Definition lock_owner (owner : Z) (r : Reservation) : option nat :=
  id ← retained_owners r !! owner;
  if bool_decide (is_Some (live_leases r !! id)) then Some id else None.

Definition TryRetainOwner (owner bytes : Z) (r : Reservation) : option nat * Reservation :=
  if owner =? 0 then TryRetain bytes None r
  else
    match lock_owner owner r with
    | Some id => (Some id, r)
    | None =>
        if U64_MAX - 128 <? bytes then (None, r)
        else
          match TryRetain (bytes + 128) (Some owner) r with
          | (Some id, r) =>
              (Some id, with_leases (<[owner := id]> (retained_owners r)) (live_leases r)
                          (expired_leases r) (next_lease r) r)
          | (None, r) => (None, r)
          end
    end.

(** The last reference to a lease goes; its destructor still waits for the lock. *)
Definition expire_lease (id : nat) (r : Reservation) : Reservation :=
  match live_leases r !! id with
  | Some lease =>
      with_leases (retained_owners r) (delete id (live_leases r)) (expired_leases r ++ [lease])
        (next_lease r) r
  | None => r
  end.

(** [~QueryReservationLease], under the lock. *)
Definition destroy_lease (k : nat) (r : Reservation) : Reservation :=
  match expired_leases r !! k with
  | Some lease =>
      let owners :=
        match lease_owner lease with
        | Some owner =>
            match lock_owner owner r with
            | Some _ => retained_owners r
            | None => delete owner (retained_owners r)
            end
        | None => retained_owners r
        end in
      Release (lease_bytes lease)
        (with_leases owners (live_leases r) (delete k (expired_leases r)) (next_lease r) r)
  | None => r
  end.

(** ** Admission *)

(** The workers that a query of this mode may fill the pool to. *)
Definition worker_limit (o : QueryResourcePoolOptions) (mode : QueryExecutionMode) : Z :=
  if bool_decide (mode = kAnalytical)
  then max_parallelism o
       - Z.min (if max_parallelism o =? 0 then 0 else max_parallelism o - 1)
           (reserved_interactive_workers o)
  else max_parallelism o.

(** Where a call of [Admit] is.  [taken] is its array of admitted dimensions. *)
Inductive AdmitStage :=
| AtDimension (i : nat) (taken : list Z)
| AtExchange (i : nat) (taken : list Z) (current : Z)
| AtWorkers (taken : list Z)
| AtWorkersExchange (taken : list Z) (current : Z)
| RollingBack (rollback stop : nat) (taken : list Z) (error : Status)
| Returned (result : StatusOr Reservation).

Definition set_admitted (i : nat) (v : Z) (p : Pool) : Pool :=
  mkPool (io_bytes p) (<[i := v]> (admitted p)) (workers p).

Definition set_workers (v : Z) (p : Pool) : Pool := mkPool (io_bytes p) (admitted p) v.

Definition set_io (v : Z) (p : Pool) : Pool := mkPool v (admitted p) (workers p).

(** [admitted_dimensions_[i]->fetch_sub(amount)] where the amount is not zero. *)
Definition give_back (i : nat) (amount : Z) (p : Pool) : Pool :=
  if amount =? 0 then p else set_admitted i (wrap 64 (at_ (admitted p) i - amount)) p.

Definition budget_limits (b : QueryBudget) : list Z := BudgetDim b <$> dimensions.

(** The check before the first atomic. *)
Definition Admit_begin (o : QueryResourcePoolOptions) (b : QueryBudget)
    (mode : QueryExecutionMode) : AdmitStage :=
  if (budget_max_parallelism b =? 0) || (worker_limit o mode <? budget_max_parallelism b)
  then Returned (Fail (exhausted "max_parallelism budget exhausted"))
  else AtDimension 0 (replicate kCount 0).

(** One atomic operation with the code up to the next; a weak exchange may fail
    spuriously. *)
Definition Admit_step (o : QueryResourcePoolOptions) (b : QueryBudget)
    (mode : QueryExecutionMode) (spurious : bool) (p : Pool) (stage : AdmitStage)
  : Pool * AdmitStage :=
  match stage with
  | AtDimension i taken =>
      match dimensions !! i with
      | Some d =>
          if BudgetDim b d =? 0 then (p, AtDimension (S i) taken)
          else (p, AtExchange i taken (at_ (admitted p) i))
      | None => (p, AtWorkers taken)
      end
  | AtExchange i taken current =>
      match dimensions !! i with
      | Some d =>
          let requested := BudgetDim b d in
          let limit := PoolDim o d in
          if (limit <? requested) || (limit - requested <? current)
          then (p, RollingBack 0 i taken (exhausted (Name d +:+ " pool admission exhausted")))
          else if (at_ (admitted p) i =? current) && negb spurious
          then (set_admitted i (wrap 64 (current + requested)) p,
                AtDimension (S i) (<[i := requested]> taken))
          else (p, AtExchange i taken (at_ (admitted p) i))
      | None => (p, stage)
      end
  | AtWorkers taken => (p, AtWorkersExchange taken (workers p))
  | AtWorkersExchange taken current =>
      if worker_limit o mode - Z.min (worker_limit o mode) current <? budget_max_parallelism b
      then (p, RollingBack 0 kCount taken (exhausted "parallelism pool admission exhausted"))
      else if (workers p =? current) && negb spurious
      then (set_workers (wrap 32 (current + budget_max_parallelism b)) p,
            Returned (Ok (new_reservation (budget_limits b) taken (budget_max_parallelism b))))
      else (p, AtWorkersExchange taken (workers p))
  | RollingBack rollback stop taken error =>
      if (rollback <? stop)%nat
      then (give_back rollback (at_ taken rollback) p, RollingBack (S rollback) stop taken error)
      else (p, Returned (Fail error))
  | Returned _ => (p, stage)
  end.

(** A call that no other thread interrupts. *)
Fixpoint Admit_run (fuel : nat) (o : QueryResourcePoolOptions) (b : QueryBudget)
    (mode : QueryExecutionMode) (p : Pool) (stage : AdmitStage)
  : option (Pool * StatusOr Reservation) :=
  match stage with
  | Returned result => Some (p, result)
  | _ =>
      match fuel with
      | O => None
      | S fuel' =>
          let '(p, stage) := Admit_step o b mode false p stage in
          Admit_run fuel' o b mode p stage
      end
  end.

(** Two steps for each dimension and for the workers, and a rollback of them all. *)
Definition admit_fuel : nat := 40.

Definition Admit (o : QueryResourcePoolOptions) (b : QueryBudget) (mode : QueryExecutionMode)
    (p : Pool) : option (Pool * StatusOr Reservation) :=
  Admit_run admit_fuel o b mode p (Admit_begin o b mode).

(** [~State]: the dimensions, then the workers. *)
Inductive ReleaseStage :=
| ReleasingDimension (i : nat)
| ReleasingWorkers
| Released.

Definition Release_step (r : Reservation) (p : Pool) (stage : ReleaseStage)
  : Pool * ReleaseStage :=
  match stage with
  | ReleasingDimension i =>
      if (i <? kCount)%nat
      then (give_back i (at_ (admitted_dimensions r) i) p, ReleasingDimension (S i))
      else (p, ReleasingWorkers)
  | ReleasingWorkers =>
      (if admitted_workers r =? 0 then p
       else set_workers (wrap 32 (workers p - admitted_workers r)) p, Released)
  | Released => (p, Released)
  end.

(** ** Permits *)

Inductive QueryWorkClass :=
| kDurability
| kInteractiveWork
| kMaintenance
| kAnalyticalWork
| kProjectionWork.

#[export] Instance QueryWorkClass_eq_dec : EqDecision QueryWorkClass.
Proof. solve_decision. Defined.

Inductive IoStage :=
| IoLoad
| IoExchange (current : Z)
| IoReturned (result : StatusOr Z).

(** The checks before the first atomic of the counter; a permit is the bytes it holds. *)
Definition AcquireIo_begin (o : QueryResourcePoolOptions) (wal_sync_critical : bool)
    (work_class : QueryWorkClass) (bytes : Z) : IoStage :=
  if bytes =? 0 then IoReturned (Ok 0)
  else if wal_sync_critical
          && (bool_decide (work_class = kAnalyticalWork)
              || bool_decide (work_class = kProjectionWork))
  then IoReturned (Fail (exhausted "wal_sync_critical io permit waits"))
  else if negb (read_bytes_per_second o =? 0) && (read_bytes_per_second o <? bytes)
  then IoReturned (Fail (exhausted "read_bytes_per_second rate exhausted"))
  else IoLoad.

Definition AcquireIo_step (o : QueryResourcePoolOptions) (bytes : Z) (spurious : bool)
    (p : Pool) (stage : IoStage) : Pool * IoStage :=
  match stage with
  | IoLoad => (p, IoExchange (io_bytes p))
  | IoExchange current =>
      if U64_MAX - current <? bytes
      then (p, IoReturned (Fail (exhausted "read_bytes accounting overflow")))
      else if negb (read_bytes o =? 0)
              && (read_bytes o - Z.min (read_bytes o) current <? bytes)
      then (p, IoReturned (Fail (exhausted "read_bytes budget exhausted")))
      else if (io_bytes p =? current) && negb spurious
      then (set_io (wrap 64 (current + bytes)) p, IoReturned (Ok bytes))
      else (p, IoExchange (io_bytes p))
  | IoReturned _ => (p, stage)
  end.

(** [~IoPermit]. *)
Definition release_permit (bytes : Z) (p : Pool) : Pool :=
  if bytes =? 0 then p else set_io (wrap 64 (io_bytes p - bytes)) p.

(** [IoPermit::operator=]: what was held is released, and the other permit is emptied. *)
Definition assign_permit (k j : nat) (held : list Z) (p : Pool) : Pool * list Z :=
  if (k =? j)%nat then (p, held)
  else (release_permit (at_ held k) p, <[j := 0]> (<[k := at_ held j]> held)).

(** ** The system *)

Inductive Call :=
| Admitting (b : QueryBudget) (mode : QueryExecutionMode) (stage : AdmitStage)
| Releasing (mode : QueryExecutionMode) (r : Reservation) (stage : ReleaseStage)
| Acquiring (bytes : Z) (stage : IoStage).

(** The atomics, the calls in progress, the live reservations with the mode they were
    admitted in, and the live permits. *)
Record System := mkSystem {
  pool : Pool;
  calls : list Call;
  queries : list (QueryExecutionMode * Reservation);
  permits : list Z
}.

Definition Call_step (o : QueryResourcePoolOptions) (spurious : bool) (p : Pool) (c : Call)
  : Pool * Call :=
  match c with
  | Admitting b mode stage =>
      let '(p, stage) := Admit_step o b mode spurious p stage in (p, Admitting b mode stage)
  | Releasing mode r stage =>
      let '(p, stage) := Release_step r p stage in (p, Releasing mode r stage)
  | Acquiring bytes stage =>
      let '(p, stage) := AcquireIo_step o bytes spurious p stage in (p, Acquiring bytes stage)
  end.

(** What a query does with its reservation. *)
Inductive reservation_step : Reservation -> Reservation -> Prop :=
| step_TryGrow bytes r : uint 64 bytes -> reservation_step r (TryGrow bytes r).2
| step_Reserve d amount r : uint 64 amount -> reservation_step r (ReserveDimension d amount r).2
| step_ReleaseMemory bytes r : uint 64 bytes -> reservation_step r (ReleaseMemory bytes r)
| step_ReleaseDimension d amount r :
    d = kScratch \/ d = kReadBytes -> uint 64 amount ->
    reservation_step r (ReleaseDimension d amount r)
| step_Release bytes r : uint 64 bytes -> reservation_step r (Release bytes r)
| step_TryRetain bytes r : uint 64 bytes -> reservation_step r (TryRetain bytes None r).2
| step_TryRetainOwner owner bytes r :
    uint 64 bytes -> reservation_step r (TryRetainOwner owner bytes r).2
| step_expire id r : reservation_step r (expire_lease id r)
| step_destroy k r : reservation_step r (destroy_lease k r).

(** The fields of a budget have their types. *)
Definition budget_ok (b : QueryBudget) : Prop :=
  (forall d, uint 64 (BudgetDim b d)) /\ uint 32 (budget_max_parallelism b).

Inductive system_step (o : QueryResourcePoolOptions) : System -> System -> Prop :=
| system_admit b mode s :
    budget_ok b ->
    system_step o s
      (mkSystem (pool s) (calls s ++ [Admitting b mode (Admit_begin o b mode)]) (queries s)
         (permits s))
| system_acquire wal_sync_critical work_class bytes s :
    uint 64 bytes ->
    system_step o s
      (mkSystem (pool s)
         (calls s ++ [Acquiring bytes (AcquireIo_begin o wal_sync_critical work_class bytes)])
         (queries s) (permits s))
| system_call i c spurious p' c' s :
    calls s !! i = Some c -> Call_step o spurious (pool s) c = (p', c') ->
    system_step o s (mkSystem p' (<[i := c']> (calls s)) (queries s) (permits s))
| system_admitted i b mode r s :
    calls s !! i = Some (Admitting b mode (Returned (Ok r))) ->
    system_step o s
      (mkSystem (pool s) (delete i (calls s)) ((mode, r) :: queries s) (permits s))
| system_permitted i bytes permit s :
    calls s !! i = Some (Acquiring bytes (IoReturned (Ok permit))) ->
    system_step o s
      (mkSystem (pool s) (delete i (calls s)) (queries s) (permit :: permits s))
| system_ended i c s :
    calls s !! i = Some c ->
    (exists b mode error, c = Admitting b mode (Returned (Fail error))) \/
    (exists mode r, c = Releasing mode r Released) \/
    (exists bytes error, c = Acquiring bytes (IoReturned (Fail error))) ->
    system_step o s (mkSystem (pool s) (delete i (calls s)) (queries s) (permits s))
| system_use k mode r r' s :
    queries s !! k = Some (mode, r) -> reservation_step r r' ->
    system_step o s
      (mkSystem (pool s) (calls s) (<[k := (mode, r')]> (queries s)) (permits s))
| system_drop k mode r s :
    queries s !! k = Some (mode, r) ->
    system_step o s
      (mkSystem (pool s) (calls s ++ [Releasing mode r (ReleasingDimension 0)])
         (delete k (queries s)) (permits s))
| system_release_permit k permit s :
    permits s !! k = Some permit ->
    system_step o s
      (mkSystem (release_permit permit (pool s)) (calls s) (queries s) (delete k (permits s)))
| system_assign_permit k j p' held s :
    (k < length (permits s))%nat -> (j < length (permits s))%nat ->
    assign_permit k j (permits s) (pool s) = (p', held) ->
    system_step o s (mkSystem p' (calls s) (queries s) held).

Definition initial_system : System := mkSystem empty_pool [] [] [].

(** ** Specification *)

Definition options_ok (o : QueryResourcePoolOptions) : Prop :=
  (forall d, uint 64 (PoolDim o d)) /\ uint 32 (max_parallelism o) /\
  uint 32 (reserved_interactive_workers o).

(** The sum of [f] over a list. *)
Definition total {A} (f : A -> Z) (l : list A) : Z := foldr (fun x sum => f x + sum) 0 l.

(** What a call holds of dimension [i]. *)
Definition held (i : nat) (c : Call) : Z :=
  match c with
  | Admitting _ _ stage =>
      match stage with
      | AtDimension _ taken | AtExchange _ taken _ | AtWorkers taken
      | AtWorkersExchange taken _ => at_ taken i
      | RollingBack rollback _ taken _ => if (rollback <=? i)%nat then at_ taken i else 0
      | Returned (Ok r) => at_ (admitted_dimensions r) i
      | Returned (Fail _) => 0
      end
  | Releasing _ r (ReleasingDimension j) =>
      if (j <=? i)%nat then at_ (admitted_dimensions r) i else 0
  | _ => 0
  end.

(** The workers that a call holds. *)
Definition held_workers (c : Call) : Z :=
  match c with
  | Admitting _ _ (Returned (Ok r)) => admitted_workers r
  | Releasing _ r Released => 0
  | Releasing _ r _ => admitted_workers r
  | _ => 0
  end.

Definition held_io (c : Call) : Z :=
  match c with
  | Acquiring _ (IoReturned (Ok permit)) => permit
  | _ => 0
  end.

Definition call_mode (c : Call) : QueryExecutionMode :=
  match c with
  | Admitting _ mode _ | Releasing mode _ _ => mode
  | Acquiring _ _ => kAuto
  end.

Definition analytical_workers (s : System) : Z :=
  total (fun c => if bool_decide (call_mode c = kAnalytical) then held_workers c else 0) (calls s)
  + total (fun q => if bool_decide (q.1 = kAnalytical) then admitted_workers q.2 else 0)
      (queries s).

(** A reservation keeps to what it was admitted with. *)
Definition reservation_ok (r : Reservation) : Prop :=
  length (limits r) = kCount /\ length (used r) = kCount /\ admitted_dimensions r = limits r /\
  (forall i, 0 <= at_ (used r) i <= at_ (limits r) i) /\
  used_bytes r = at_ (used r) (index kMemory) /\ limit_bytes r = at_ (limits r) (index kMemory) /\
  used_bytes r <= peak_bytes r <= limit_bytes r /\ 0 <= admitted_workers r /\
  (forall i, uint 64 (at_ (limits r) i)) /\
  (forall id, (next_lease r <= id)%nat -> live_leases r !! id = None) /\
  (forall id lease owner, live_leases r !! id = Some lease -> lease_owner lease = Some owner ->
     retained_owners r !! owner = Some id) /\
  map_Forall (fun _ lease => 0 <= lease_bytes lease) (live_leases r) /\
  Forall (fun lease => 0 <= lease_bytes lease) (expired_leases r).

(** The first [i] dimensions have been taken. *)
Definition taken_upto (b : QueryBudget) (i : nat) (taken : list Z) : Prop :=
  length taken = kCount /\
  forall j, at_ taken j = if (j <? i)%nat then at_ (budget_limits b) j else 0.

Definition call_ok (o : QueryResourcePoolOptions) (c : Call) : Prop :=
  match c with
  | Admitting b mode stage =>
      budget_ok b /\
      match stage with
      | Returned (Ok r) => reservation_ok r
      | Returned (Fail _) => True
      | AtDimension i taken => (i <= kCount)%nat /\ taken_upto b i taken
      | AtExchange i taken _ => (i < kCount)%nat /\ taken_upto b i taken
      | AtWorkers taken | AtWorkersExchange taken _ => taken_upto b kCount taken
      | RollingBack rollback stop taken _ =>
          (rollback <= stop <= kCount)%nat /\ taken_upto b stop taken
      end
  | Releasing _ r stage =>
      reservation_ok r /\
      match stage with ReleasingDimension i => (i <= kCount)%nat | _ => True end
  | Acquiring bytes stage =>
      uint 64 bytes /\
      match stage with IoReturned (Ok permit) => 0 <= permit | _ => True end
  end.

(** The counters are within the options. *)
Definition pool_ok (o : QueryResourcePoolOptions) (p : Pool) : Prop :=
  length (admitted p) = kCount /\
  (forall d, 0 <= at_ (admitted p) (index d) <= PoolDim o d) /\
  0 <= workers p <= max_parallelism o /\ uint 64 (io_bytes p) /\
  (read_bytes o <> 0 -> io_bytes p <= read_bytes o).

(** The counters are exactly what the calls, the queries and the permits hold. *)
Definition pool_exact (s : System) : Prop :=
  (forall i, at_ (admitted (pool s)) i
     = total (held i) (calls s) + total (fun q => at_ (admitted_dimensions q.2) i) (queries s)) /\
  workers (pool s)
  = total held_workers (calls s) + total (fun q => admitted_workers q.2) (queries s) /\
  io_bytes (pool s) = total held_io (calls s) + total id (permits s).

Definition system_inv (o : QueryResourcePoolOptions) (s : System) : Prop :=
  pool_ok o (pool s) /\ pool_exact s /\ analytical_workers s <= worker_limit o kAnalytical /\
  Forall (call_ok o) (calls s) /\ Forall (fun q => reservation_ok q.2) (queries s) /\
  Forall (fun permit => 0 <= permit) (permits s).

(** What an admission that runs alone decides. *)
Definition fits (o : QueryResourcePoolOptions) (b : QueryBudget) (p : Pool)
    (d : ResourceDimension) : bool :=
  (BudgetDim b d =? 0) || (at_ (admitted p) (index d) + BudgetDim b d <=? PoolDim o d).

Definition admissible (o : QueryResourcePoolOptions) (b : QueryBudget)
    (mode : QueryExecutionMode) (p : Pool) : bool :=
  (0 <? budget_max_parallelism b)
  && (workers p + budget_max_parallelism b <=? worker_limit o mode)
  && forallb (fits o b p) dimensions.

(** What is decided of the dimensions that are left and of the workers. *)
Definition decided (o : QueryResourcePoolOptions) (b : QueryBudget) (mode : QueryExecutionMode)
    (p : Pool) (rest : list ResourceDimension) (result : StatusOr Reservation) : Prop :=
  if forallb (fits o b p) rest
     && (budget_max_parallelism b <=? worker_limit o mode - Z.min (worker_limit o mode) (workers p))
  then result = Ok (new_reservation (budget_limits b) (budget_limits b) (budget_max_parallelism b))
  else exists message, result = Fail (exhausted message).

(** The pool with a budget added. *)
Definition admit_all (b : QueryBudget) (p : Pool) : Pool :=
  mkPool (io_bytes p) (zip_with Z.add (admitted p) (budget_limits b))
    (workers p + budget_max_parallelism b).

(** A pool, and a query that takes half of its memory. *)
Definition sample_options : QueryResourcePoolOptions :=
  mkPoolOptions 100 0 1000 0 50 50 1000 10 10 10 0 0 4 1.

Definition sample_budget : QueryBudget := mkQueryBudget 50 0 200 0 10 10 100 0 0 0 0 2.

(** A step of a call: the counters change by what the call takes or gives back. *)
Definition step_effect (o : QueryResourcePoolOptions) (p p' : Pool) (c c' : Call) : Prop :=
  call_ok o c' /\ pool_ok o p' /\
  (forall i, at_ (admitted p') i - at_ (admitted p) i = held i c' - held i c) /\
  workers p' - workers p = held_workers c' - held_workers c /\
  io_bytes p' - io_bytes p = held_io c' - held_io c /\
  call_mode c' = call_mode c /\
  (call_mode c = kAnalytical -> held_workers c < held_workers c' ->
   workers p' <= worker_limit o kAnalytical).

(** ** Arrays and sums *)

Lemma at_insert l i j v :
  (i < length l)%nat -> at_ (<[i := v]> l) j = if (i =? j)%nat then v else at_ l j.
Proof.
  intros Hi. unfold at_. destruct (Nat.eqb_spec i j) as [<-|Hne].
  - by rewrite list_lookup_insert_eq.
  - by rewrite list_lookup_insert_ne.
Qed.

Lemma at_replicate n i : at_ (replicate n 0) i = 0.
Proof.
  unfold at_. destruct (replicate n 0 !! i) eqn:E; [|done].
  by apply lookup_replicate in E as [-> _].
Qed.

Lemma at_ge l i : (length l <= i)%nat -> at_ l i = 0.
Proof. intros H. unfold at_. by rewrite lookup_ge_None_2. Qed.

Lemma index_lt d : (index d < kCount)%nat.
Proof. destruct d; cbn; unfold kCount; lia. Qed.

Lemma dimension_at i d : dimensions !! i = Some d -> index d = i.
Proof.
  intros H. do 11 (destruct i as [|i]; [cbn in H; by injection H as <-|]). cbn in H. done.
Qed.

Lemma dimension_index d : dimensions !! index d = Some d.
Proof. by destruct d. Qed.

Lemma dimension_None i : dimensions !! i = None -> (kCount <= i)%nat.
Proof. intros H%lookup_ge_None. done. Qed.

Lemma at_budget_limits b d : at_ (budget_limits b) (index d) = BudgetDim b d.
Proof. by destruct d. Qed.

Lemma at_budget_range b i : budget_ok b -> uint 64 (at_ (budget_limits b) i).
Proof.
  intros [H _]. destruct (dimensions !! i) as [d|] eqn:E.
  - apply dimension_at in E as <-. rewrite at_budget_limits. apply H.
  - apply dimension_None in E. rewrite at_ge by done. unfold uint. lia.
Qed.

Lemma total_cons {A} (f : A -> Z) x l : total f (x :: l) = f x + total f l.
Proof. done. Qed.

Lemma total_app {A} (f : A -> Z) l1 l2 : total f (l1 ++ l2) = total f l1 + total f l2.
Proof.
  induction l1 as [|x l1 IH]; [done|]. cbn [app]. rewrite !total_cons, IH. lia.
Qed.

Lemma total_snoc {A} (f : A -> Z) l x : total f (l ++ [x]) = total f l + f x.
Proof. rewrite total_app, total_cons. unfold total at 2. cbn [foldr]. lia. Qed.

Lemma total_insert {A} (f : A -> Z) l i x y :
  l !! i = Some x -> total f (<[i := y]> l) = total f l - f x + f y.
Proof.
  intros H. rewrite <- (take_drop_middle l i x H) at 2.
  rewrite insert_take_drop by (by apply lookup_lt_Some in H).
  rewrite !total_app, !total_cons. lia.
Qed.

Lemma total_delete {A} (f : A -> Z) l i x :
  l !! i = Some x -> total f (delete i l) = total f l - f x.
Proof.
  intros H. rewrite <- (take_drop_middle l i x H) at 2.
  rewrite delete_take_drop, !total_app, total_cons. lia.
Qed.

Lemma total_nonneg {A} (f : A -> Z) l : Forall (fun x => 0 <= f x) l -> 0 <= total f l.
Proof. induction 1; rewrite ?total_cons; [done|lia]. Qed.

Lemma total_le {A} (f g : A -> Z) l :
  Forall (fun x => f x <= g x) l -> total f l <= total g l.
Proof. induction 1; rewrite ?total_cons; [done|lia]. Qed.

(** One of the parts is not more than the sum. *)
Lemma total_part {A} (f : A -> Z) l i x :
  Forall (fun x => 0 <= f x) l -> l !! i = Some x -> f x <= total f l.
Proof.
  intros Hl Hi. pose proof (total_delete f l i x Hi) as H.
  assert (0 <= total f (delete i l)); [|lia].
  apply total_nonneg. by apply Forall_delete.
Qed.

(** ** Reservations *)

Lemma reservation_parts r :
  reservation_ok r -> (forall i, 0 <= at_ (admitted_dimensions r) i) /\ 0 <= admitted_workers r.
Proof.
  intros (_ & _ & Ha & _ & _ & _ & _ & Hw & Hl & _). split; [|done].
  intros i. rewrite Ha. apply Hl.
Qed.

(** A change of what is used, within the limits. *)
Lemma with_used_OK bytes peak used' r :
  reservation_ok r -> length used' = kCount ->
  (forall i, 0 <= at_ used' i <= at_ (limits r) i) ->
  bytes = at_ used' (index kMemory) -> bytes <= peak <= limit_bytes r ->
  reservation_ok (with_used bytes peak used' r).
Proof.
  intros (? & ? & ? & ? & ? & ? & ? & Hrest) ????. unfold reservation_ok.
  do 7 (split; [done|]). exact Hrest.
Qed.

Lemma used_insert_OK d v r :
  reservation_ok r -> 0 <= v <= at_ (limits r) (index d) ->
  length (<[index d := v]> (used r)) = kCount /\
  forall i, 0 <= at_ (<[index d := v]> (used r)) i <= at_ (limits r) i.
Proof.
  intros (_ & Hl & _ & Hu & _) Hv. rewrite length_insert. split; [done|]. intros i.
  rewrite at_insert by (rewrite Hl; apply index_lt).
  by destruct (Nat.eqb_spec (index d) i) as [<-|].
Qed.

Lemma set_memory_OK bytes r :
  reservation_ok r -> 0 <= bytes <= used_bytes r -> reservation_ok (set_memory bytes r).
Proof.
  intros Hr Hb. pose proof Hr as (_ & Hl & _ & Hu & Hm & Hlb & Hp & _).
  assert (0 <= bytes <= at_ (limits r) (index kMemory)) as Hv by lia.
  destruct (used_insert_OK kMemory bytes r Hr Hv) as [H1 H2].
  apply with_used_OK; try done; [|lia].
  by rewrite at_insert, Nat.eqb_refl by (rewrite Hl; apply index_lt).
Qed.

Lemma TryGrow_OK bytes r : 0 <= bytes -> reservation_ok r -> reservation_ok (TryGrow bytes r).2.
Proof.
  intros Hb Hr. pose proof Hr as (_ & Hl & _ & Hu & Hm & Hlb & Hp & _).
  specialize (Hu (index kMemory)). unfold TryGrow.
  destruct (Z.ltb_spec (limit_bytes r) bytes); [done|].
  destruct (Z.ltb_spec (limit_bytes r - bytes) (used_bytes r)); [done|]. cbn [orb snd].
  destruct (used_insert_OK kMemory (used_bytes r + bytes) r Hr) as [H1 H2]; [lia|].
  apply with_used_OK; try done; [|lia].
  by rewrite at_insert, Nat.eqb_refl by (rewrite Hl; apply index_lt).
Qed.

Lemma ReserveDimension_OK d amount r :
  0 <= amount -> reservation_ok r -> reservation_ok (ReserveDimension d amount r).2.
Proof.
  intros Ha Hr. pose proof Hr as (_ & Hl & _ & Hu & Hm & Hlb & Hp & _).
  pose proof (Hu (index d)) as Hd. unfold ReserveDimension.
  destruct (Z.ltb_spec (at_ (limits r) (index d)) amount); [done|].
  destruct (Z.ltb_spec (at_ (limits r) (index d) - amount) (at_ (used r) (index d))); [done|].
  cbn [orb]. destruct (used_insert_OK d (at_ (used r) (index d) + amount) r Hr) as [H1 H2]; [lia|].
  case_bool_decide as Hk; cbn [snd].
  - subst d. apply with_used_OK; try done; [|lia].
    by rewrite at_insert, Nat.eqb_refl by (rewrite Hl; apply index_lt).
  - apply with_used_OK; try done. rewrite at_insert by (rewrite Hl; apply index_lt).
    destruct (Nat.eqb_spec (index d) (index kMemory)) as [E|]; [|done]. by destruct d.
Qed.

Lemma ReleaseDimension_OK d amount r :
  d <> kMemory -> 0 <= amount -> reservation_ok r -> reservation_ok (ReleaseDimension d amount r).
Proof.
  intros Hk Ha Hr. pose proof Hr as (_ & Hl & _ & Hu & Hm & Hlb & Hp & _).
  pose proof (Hu (index d)) as Hd. unfold ReleaseDimension.
  set (v := if _ <=? _ then 0 else _).
  assert (0 <= v <= at_ (limits r) (index d)) as Hv
    by (subst v; destruct (Z.leb_spec (at_ (used r) (index d)) amount); lia).
  destruct (used_insert_OK d v r Hr Hv) as [H1 H2].
  apply with_used_OK; try done. rewrite at_insert by (rewrite Hl; apply index_lt).
  destruct (Nat.eqb_spec (index d) (index kMemory)) as [E|]; [|done]. by destruct d.
Qed.

Lemma Release_OK bytes r : 0 <= bytes -> reservation_ok r -> reservation_ok (Release bytes r).
Proof.
  intros Hb Hr. pose proof Hr as (_ & _ & _ & Hu & Hm & _). specialize (Hu (index kMemory)).
  apply set_memory_OK; [done|]. destruct (Z.leb_spec (used_bytes r) bytes); lia.
Qed.

(** A change of the leases. *)
Lemma with_leases_OK owners live expired next r :
  reservation_ok r ->
  (forall id, (next <= id)%nat -> live !! id = None) ->
  (forall id lease owner, live !! id = Some lease -> lease_owner lease = Some owner ->
     owners !! owner = Some id) ->
  map_Forall (fun _ lease => 0 <= lease_bytes lease) live ->
  Forall (fun lease => 0 <= lease_bytes lease) expired ->
  reservation_ok (with_leases owners live expired next r).
Proof.
  intros (? & ? & ? & ? & ? & ? & ? & ? & ? & _) ????. unfold reservation_ok.
  do 12 (split; [done|]). done.
Qed.

(** Growing does not touch the leases. *)
Lemma TryGrow_leases bytes r :
  let r' := (TryGrow bytes r).2 in
  retained_owners r' = retained_owners r /\ live_leases r' = live_leases r /\
  expired_leases r' = expired_leases r /\ next_lease r' = next_lease r.
Proof. unfold TryGrow. by destruct (_ || _). Qed.

(** The leases with one more, for an owner that has none. *)
Lemma add_lease_OK owners bytes owner r :
  reservation_ok r -> 0 <= bytes ->
  (forall o id, retained_owners r !! o = Some id -> Some o <> owner -> owners !! o = Some id) ->
  (forall o, owner = Some o -> owners !! o = Some (next_lease r)) ->
  (forall id lease o, live_leases r !! id = Some lease -> lease_owner lease = Some o ->
     Some o <> owner) ->
  reservation_ok
    (with_leases owners (<[next_lease r := mkLease bytes owner]> (live_leases r))
       (expired_leases r) (S (next_lease r)) r).
Proof.
  intros Hr Hb Hold Hnew Hother.
  pose proof Hr as (_ & _ & _ & _ & _ & _ & _ & _ & _ & Hnext & Howners & Hlive & Hexp).
  apply with_leases_OK; [done| | | |done].
  - intros id Hid. rewrite lookup_insert_ne by lia. apply Hnext. lia.
  - intros id lease o. destruct (decide (id = next_lease r)) as [->|Hne].
    + rewrite lookup_insert_eq. intros [= <-]. cbn. apply Hnew.
    + rewrite lookup_insert_ne by done. intros Hid Ho.
      apply Hold; [by eapply Howners|by eapply Hother].
  - by apply map_Forall_insert_2.
Qed.

Lemma TryRetain_OK bytes r :
  0 <= bytes -> reservation_ok r -> reservation_ok (TryRetain bytes None r).2.
Proof.
  intros Hb Hr. unfold TryRetain. pose proof (TryGrow_OK bytes r Hb Hr) as Hg.
  destruct (TryGrow bytes r) as [[] r1]; cbn [snd] in *; [|done].
  apply add_lease_OK; try done.
Qed.

Lemma lock_owner_None owner r id lease :
  reservation_ok r -> lock_owner owner r = None -> live_leases r !! id = Some lease ->
  lease_owner lease <> Some owner.
Proof.
  intros Hr Hlock Hid Ho. destruct Hr as (_ & _ & _ & _ & _ & _ & _ & _ & _ & _ & Howners & _).
  unfold lock_owner in Hlock. rewrite (Howners _ _ _ Hid Ho) in Hlock. cbn in Hlock.
  by rewrite Hid, bool_decide_eq_true_2 in Hlock.
Qed.

Lemma TryRetainOwner_OK owner bytes r :
  0 <= bytes -> reservation_ok r -> reservation_ok (TryRetainOwner owner bytes r).2.
Proof.
  intros Hb Hr. unfold TryRetainOwner. destruct (owner =? 0); [by apply TryRetain_OK|].
  destruct (lock_owner owner r) as [id|] eqn:Hlock; [done|].
  destruct (_ <? bytes); [done|]. unfold TryRetain.
  assert (0 <= bytes + 128) as Hb' by lia. pose proof (TryGrow_OK _ r Hb' Hr) as Hg.
  destruct (TryGrow_leases (bytes + 128) r) as (H1 & H2 & H3 & H4).
  destruct (TryGrow (bytes + 128) r) as [[] r1]; cbn [snd] in *; [|done].
  apply (add_lease_OK (<[owner := next_lease r1]> (retained_owners r1)) (bytes + 128)
    (Some owner) r1 Hg Hb').
  - intros o id Ho Hne. rewrite lookup_insert_ne by congruence. done.
  - intros o [= <-]. by rewrite lookup_insert_eq.
  - intros id lease o Hid Ho. rewrite H2 in Hid. rewrite <- Ho.
    by apply (lock_owner_None owner r id).
Qed.

Lemma expire_lease_OK id r : reservation_ok r -> reservation_ok (expire_lease id r).
Proof.
  intros Hr. unfold expire_lease. destruct (live_leases r !! id) as [lease|] eqn:Hid; [|done].
  pose proof Hr as (_ & _ & _ & _ & _ & _ & _ & _ & _ & Hnext & Howners & Hlive & Hexp).
  apply with_leases_OK; [done| | | |].
  - intros id' Hid'. apply lookup_delete_None. right. by apply Hnext.
  - intros id' lease' o [_ H]%lookup_delete_Some Ho. by eapply Howners.
  - by apply map_Forall_delete.
  - apply Forall_app. split; [done|]. constructor; [|constructor]. by apply (Hlive id).
Qed.

Lemma destroy_lease_OK k r : reservation_ok r -> reservation_ok (destroy_lease k r).
Proof.
  intros Hr. unfold destroy_lease. destruct (expired_leases r !! k) as [lease|] eqn:Hk; [|done].
  pose proof Hr as (_ & _ & _ & _ & _ & _ & _ & _ & _ & Hnext & Howners & Hlive & Hexp).
  apply Release_OK; [by apply (proj1 (Forall_lookup _ _) Hexp k)|].
  apply with_leases_OK; [done|done| |done|by apply Forall_delete].
  intros id lease' o Hid Ho. destruct (lease_owner lease) as [owner|]; [|by eapply Howners].
  destruct (lock_owner owner r) eqn:Hlock; [by eapply Howners|].
  pose proof (lock_owner_None _ _ _ _ Hr Hlock Hid) as Hne.
  rewrite lookup_delete_ne by congruence. by eapply Howners.
Qed.

(** Whatever a query does, it stays within what it was admitted with. *)
Lemma reservation_step_OK r r' :
  reservation_step r r' -> reservation_ok r ->
  reservation_ok r' /\ admitted_dimensions r' = admitted_dimensions r /\
  admitted_workers r' = admitted_workers r.
Proof.
  intros H Hr. split.
  - destruct H as [bytes r [H _]|d amount r [H _]|bytes r [H _]|d amount r Hd [H _]|bytes r [H _]
      |bytes r [H _]|owner bytes r [H _]|id r|k r].
    + by apply TryGrow_OK.
    + by apply ReserveDimension_OK.
    + pose proof Hr as (_ & _ & _ & Hu & Hm & _). specialize (Hu (index kMemory)).
      apply set_memory_OK; [done|lia].
    + apply ReleaseDimension_OK; [by destruct Hd as [-> | ->]|done|done].
    + by apply Release_OK.
    + by apply TryRetain_OK.
    + by apply TryRetainOwner_OK.
    + by apply expire_lease_OK.
    + by apply destroy_lease_OK.
  - assert (forall bytes r, admitted_dimensions (TryGrow bytes r).2 = admitted_dimensions r /\
      admitted_workers (TryGrow bytes r).2 = admitted_workers r) as Hg
      by (intros ? r0; unfold TryGrow; by destruct (_ || _)).
    assert (forall bytes owner r, admitted_dimensions (TryRetain bytes owner r).2
      = admitted_dimensions r /\ admitted_workers (TryRetain bytes owner r).2 = admitted_workers r)
      as Ht by (intros bytes0 ? r0; unfold TryRetain; specialize (Hg bytes0 r0);
                by destruct (TryGrow bytes0 r0) as [[] ?]).
    destruct H as [| | | | | |owner bytes r _|id r|k r]; try done; try apply Hg; try apply Ht.
    + unfold ReserveDimension. destruct (_ || _); [done|]. by case_bool_decide.
    + unfold TryRetainOwner. destruct (owner =? 0); [apply Ht|].
      destruct (lock_owner owner r); [done|]. destruct (_ <? bytes); [done|].
      specialize (Ht (bytes + 128) (Some owner) r).
      by destruct (TryRetain _ _ _) as [[] ?].
    + unfold expire_lease. by destruct (live_leases r !! id).
    + unfold destroy_lease. by destruct (expired_leases r !! k).
Qed.

Lemma new_reservation_OK b taken :
  budget_ok b -> taken_upto b kCount taken ->
  reservation_ok (new_reservation (budget_limits b) taken (budget_max_parallelism b)).
Proof.
  intros Hb [Hlen Htaken].
  assert (taken = budget_limits b) as ->.
  { apply list_eq_same_length with (n := kCount); [done|done|].
    intros i x y Hi Hx Hy. specialize (Htaken i). unfold at_ in Htaken.
    rewrite Hx, Hy, (proj2 (Nat.ltb_lt _ _)) in Htaken by done. done. }
  pose proof (fun i => at_budget_range b i Hb) as Hr. unfold reservation_ok, new_reservation.
  cbn [limits used admitted_dimensions used_bytes limit_bytes peak_bytes admitted_workers
    live_leases retained_owners expired_leases next_lease].
  split; [done|]. split; [apply length_replicate|]. split; [done|].
  split; [intros i; rewrite at_replicate; split; [done|apply Hr]|].
  split; [by rewrite at_replicate|]. split; [done|]. split; [split; [done|apply Hr]|].
  split; [apply Hb|]. split; [done|]. split; [done|]. split; [done|].
  split; [apply map_Forall_empty|constructor].
Qed.

(** ** Steps of calls *)

Section steps.

Context (o : QueryResourcePoolOptions).
Hypothesis Ho : options_ok o.

Lemma counter_range p i : pool_ok o p -> uint 64 (at_ (admitted p) i).
Proof.
  intros (Hl & Hd & _). destruct (dimensions !! i) as [d|] eqn:E.
  - apply dimension_at in E as <-. specialize (Hd d). destruct Ho as [Hp _]. specialize (Hp d).
    unfold uint in *. lia.
  - apply dimension_None in E. rewrite at_ge by (by rewrite Hl). unfold uint. lia.
Qed.

Lemma worker_limit_range mode : 0 <= worker_limit o mode <= max_parallelism o.
Proof.
  destruct Ho as (_ & Hm & Hr). unfold worker_limit, uint in *. case_bool_decide; [|lia].
  destruct (Z.eqb_spec (max_parallelism o) 0); lia.
Qed.

(** A step that changes no counter. *)
Lemma quiet_step p c c' :
  pool_ok o p -> call_ok o c' -> (forall i, held i c' = held i c) ->
  held_workers c' = held_workers c -> held_io c' = held_io c -> call_mode c' = call_mode c ->
  step_effect o p p c c'.
Proof.
  intros Hp Hc Hh Hw Hi Hm. split; [done|]. split; [done|].
  split; [intros i; rewrite Hh; lia|]. split; [lia|]. split; [lia|]. split; [done|].
  intros _ H. lia.
Qed.

Lemma set_admitted_OK p d v :
  pool_ok o p -> 0 <= v <= PoolDim o d ->
  pool_ok o (set_admitted (index d) v p) /\
  forall j, at_ (admitted (set_admitted (index d) v p)) j
            = if (index d =? j)%nat then v else at_ (admitted p) j.
Proof.
  intros (Hl & Hd & Hrest) Hv.
  assert (forall j, at_ (admitted (set_admitted (index d) v p)) j
    = if (index d =? j)%nat then v else at_ (admitted p) j) as Hat
    by (intros j; apply at_insert; rewrite Hl; apply index_lt).
  split; [|done]. split; [cbn; by rewrite length_insert|]. split; [|done].
  intros d'. rewrite Hat. destruct (Nat.eqb_spec (index d) (index d')) as [E|]; [|done].
  assert (d = d') as <-; [|done].
  pose proof (dimension_index d) as H1. rewrite E, dimension_index in H1. by injection H1.
Qed.

Lemma give_back_OK p i amount :
  pool_ok o p -> (i < kCount)%nat -> 0 <= amount <= at_ (admitted p) i ->
  pool_ok o (give_back i amount p) /\
  (forall j, at_ (admitted (give_back i amount p)) j
             = at_ (admitted p) j - if (i =? j)%nat then amount else 0) /\
  workers (give_back i amount p) = workers p /\ io_bytes (give_back i amount p) = io_bytes p.
Proof.
  intros Hp Hi Ha. unfold give_back. destruct (Z.eqb_spec amount 0) as [->|Hne].
  { split_and!; try done. intros j. destruct (i =? j)%nat; lia. }
  destruct (dimensions !! i) as [d|] eqn:E; [|apply dimension_None in E; lia].
  apply dimension_at in E as <-. pose proof (counter_range p (index d) Hp) as Hr.
  rewrite uint_wrap by (unfold uint in *; lia).
  destruct (set_admitted_OK p d (at_ (admitted p) (index d) - amount) Hp) as [H1 H2].
  { destruct Hp as (_ & Hd & _). specialize (Hd d). lia. }
  split_and!; try done. intros j. rewrite H2.
  destruct (Nat.eqb_spec (index d) j) as [<-|]; lia.
Qed.

Lemma set_workers_OK p v :
  pool_ok o p -> 0 <= v <= max_parallelism o -> pool_ok o (set_workers v p).
Proof. intros (Hl & Hd & _ & Hio) Hv. do 3 (split; [done|]). done. Qed.

Lemma set_io_OK p v :
  pool_ok o p -> uint 64 v -> (read_bytes o <> 0 -> v <= read_bytes o) -> pool_ok o (set_io v p).
Proof. intros (Hl & Hd & Hw & _) Hv Hr. do 4 (split; [done|]). done. Qed.

Lemma taken_next b i taken d :
  dimensions !! i = Some d -> taken_upto b i taken -> budget_ok b ->
  taken_upto b (S i) (<[i := BudgetDim b d]> taken) /\
  (BudgetDim b d = 0 -> taken_upto b (S i) taken).
Proof.
  intros Hd [Hl Ht] Hb. pose proof (dimension_at _ _ Hd) as <-.
  pose proof (index_lt d) as Hi. split; [split|intros H0; split].
  - by rewrite length_insert.
  - intros j. rewrite at_insert, Ht by lia. destruct (Nat.eqb_spec (index d) j) as [<-|Hne].
    + rewrite (proj2 (Nat.ltb_lt _ _)) by lia. symmetry. apply at_budget_limits.
    + destruct (Nat.ltb_spec j (index d)), (Nat.ltb_spec j (S (index d))); try done; lia.
  - done.
  - intros j. rewrite Ht.
    destruct (Nat.ltb_spec j (index d)), (Nat.ltb_spec j (S (index d))); try done; try lia.
    replace j with (index d) by lia. by rewrite at_budget_limits, H0.
Qed.

Lemma exchange_step p b mode i taken current spurious :
  pool_ok o p -> call_ok o (Admitting b mode (AtExchange i taken current)) ->
  let '(p', stage') := Admit_step o b mode spurious p (AtExchange i taken current) in
  step_effect o p p' (Admitting b mode (AtExchange i taken current)) (Admitting b mode stage').
Proof.
  intros Hp (Hb & Hi & Ht). cbn [Admit_step].
  destruct (dimensions !! i) as [d|] eqn:E; [|apply dimension_None in E; lia].
  destruct ((_ <? _) || _) eqn:Efull.
  { apply quiet_step; try done. split; [done|]. split; [lia|done]. }
  destruct ((_ =? current) && _) eqn:Ecas; [|by apply quiet_step].
  apply andb_true_iff in Ecas as [<-%Z.eqb_eq _].
  apply orb_false_iff in Efull as [Hlim%Z.ltb_ge Hcur%Z.ltb_ge].
  pose proof (dimension_at _ _ E) as <-. pose proof (proj1 Hb d) as Hbd.
  pose proof (counter_range p (index d) Hp) as Hr. destruct Ho as [Hod _]. specialize (Hod d).
  rewrite uint_wrap by (unfold uint in *; lia).
  destruct (set_admitted_OK p d (at_ (admitted p) (index d) + BudgetDim b d) Hp) as [Hp' Hat];
    [unfold uint in *; lia|].
  split; [|split; [done|split; [|split_and!; try (cbn; lia); done]]].
  - split; [done|]. split; [pose proof (index_lt d); lia|]. by apply taken_next.
  - intros j. rewrite Hat. cbn [held]. destruct Ht as [Hl Ht].
    rewrite at_insert by (rewrite Hl; apply index_lt).
    destruct (Nat.eqb_spec (index d) j) as [<-|]; [|lia].
    rewrite Ht, Nat.ltb_irrefl. lia.
Qed.

Lemma workers_step p b mode taken current spurious :
  pool_ok o p -> call_ok o (Admitting b mode (AtWorkersExchange taken current)) ->
  let '(p', stage') := Admit_step o b mode spurious p (AtWorkersExchange taken current) in
  step_effect o p p' (Admitting b mode (AtWorkersExchange taken current))
    (Admitting b mode stage').
Proof.
  intros Hp (Hb & Ht). cbn [Admit_step]. destruct (_ <? _) eqn:Efull.
  { apply quiet_step; try done. split; [done|]. split; [lia|done]. }
  destruct ((_ =? current) && _) eqn:Ecas; [|by apply quiet_step].
  apply andb_true_iff in Ecas as [<-%Z.eqb_eq _]. apply Z.ltb_ge in Efull.
  pose proof (worker_limit_range mode) as Hw. pose proof (proj2 Hb) as Hbw.
  destruct Ho as (_ & Hom & _). pose proof Hp as (Hl & Hd & Hpw & Hio).
  rewrite uint_wrap by (unfold uint in *; lia). unfold uint in Hbw.
  split; [split; [done|by apply new_reservation_OK]|].
  split; [apply set_workers_OK; [done|lia]|].
  cbn [held held_workers held_io call_mode workers io_bytes set_workers set_io admitted
    admitted_workers new_reservation admitted_dimensions].
  split; [intros i; lia|].
  split; [lia|]. split; [lia|]. split; [done|]. intros -> Hpos. lia.
Qed.

Lemma Admit_step_OK p b mode stage spurious :
  pool_ok o p -> call_ok o (Admitting b mode stage) ->
  (forall i, held i (Admitting b mode stage) <= at_ (admitted p) i) ->
  let '(p', stage') := Admit_step o b mode spurious p stage in
  step_effect o p p' (Admitting b mode stage) (Admitting b mode stage').
Proof.
  intros Hp Hc Hheld. destruct stage as [i taken|i taken current|taken|taken current|r stop taken
    error|result].
  - destruct Hc as (Hb & Hi & Ht). cbn [Admit_step].
    destruct (dimensions !! i) as [d|] eqn:E.
    + assert (i < kCount)%nat as Hlt by (by apply lookup_lt_Some in E).
      destruct (Z.eqb_spec (BudgetDim b d) 0) as [H0|_]; apply quiet_step; try done.
      split; [done|]. split; [lia|]. by apply (proj2 (taken_next b i taken d E Ht Hb)).
    + apply quiet_step; try done. apply dimension_None in E. split; [done|].
      by replace kCount with i by lia.
  - by apply exchange_step.
  - by apply quiet_step.
  - by apply workers_step.
  - destruct Hc as (Hb & Hr & Ht). cbn [Admit_step]. destruct (Nat.ltb_spec r stop) as [Hlt|Hge].
    + specialize (Hheld r). cbn [held] in Hheld. rewrite Nat.leb_refl in Hheld.
      assert (0 <= at_ taken r).
      { destruct Ht as [_ Ht]. rewrite Ht. destruct (r <? stop)%nat; [|done].
        apply at_budget_range, Hb. }
      destruct (give_back_OK p r (at_ taken r) Hp) as (Hp' & Hat & Hw & Hio); [lia|lia|].
      split; [split; [done|]; split; [lia|done]|]. split; [done|].
      split; [|cbn; split_and!; try lia; done]. intros j. rewrite Hat. cbn [held].
      destruct (Nat.eqb_spec r j) as [<-|Hne].
      * rewrite Nat.leb_refl, (proj2 (Nat.leb_gt (S r) r)) by lia. lia.
      * destruct (Nat.leb_spec r j), (Nat.leb_spec (S r) j); lia.
    + apply quiet_step; try done. intros j. cbn [held]. destruct (Nat.leb_spec r j); [|done].
      destruct Ht as [_ Ht]. by rewrite Ht, (proj2 (Nat.ltb_ge _ _)) by lia.
  - by apply quiet_step.
Qed.

Lemma Release_step_OK p mode r stage :
  pool_ok o p -> call_ok o (Releasing mode r stage) ->
  (forall i, held i (Releasing mode r stage) <= at_ (admitted p) i) ->
  held_workers (Releasing mode r stage) <= workers p ->
  let '(p', stage') := Release_step r p stage in
  step_effect o p p' (Releasing mode r stage) (Releasing mode r stage').
Proof.
  intros Hp (Hr & Hi) Hheld Hworkers. destruct (reservation_parts r Hr) as [Hd Hw].
  destruct stage as [i| |]; cbn [Release_step].
  - destruct (Nat.ltb_spec i kCount) as [Hlt|Hge].
    + specialize (Hheld i). cbn [held] in Hheld. rewrite Nat.leb_refl in Hheld.
      destruct (give_back_OK p i (at_ (admitted_dimensions r) i) Hp Hlt) as (Hp' & Hat & Hw' & Hio);
        [by split|].
      split; [split; [done|lia]|]. split; [done|].
      split; [|cbn; split_and!; try lia; done]. intros j. rewrite Hat. cbn [held].
      destruct (Nat.eqb_spec i j) as [<-|Hne].
      * rewrite Nat.leb_refl, (proj2 (Nat.leb_gt (S i) i)) by lia. lia.
      * destruct (Nat.leb_spec i j), (Nat.leb_spec (S i) j); lia.
    + apply quiet_step; try done. intros j. cbn [held]. destruct (Nat.leb_spec i j); [|done].
      destruct Hr as (Hl & _ & -> & _). by rewrite at_ge by lia.
  - pose proof Hp as (Hl & Hdim & Hpw & Hio). cbn [held_workers] in Hworkers.
    destruct Ho as (_ & Hom & _). unfold uint in Hom.
    destruct (Z.eqb_spec (admitted_workers r) 0) as [H0|H0].
    { by apply quiet_step. }
    rewrite uint_wrap by (unfold uint; lia).
    split; [done|]. split; [apply set_workers_OK; [done|lia]|].
    cbn [held held_workers held_io call_mode workers io_bytes set_workers set_io admitted
    admitted_workers new_reservation admitted_dimensions].
    split; [intros i; lia|]. split; [lia|]. split; [lia|]. split; [done|]. lia.
  - by apply quiet_step.
Qed.

Lemma AcquireIo_step_OK p bytes stage spurious :
  pool_ok o p -> call_ok o (Acquiring bytes stage) ->
  let '(p', stage') := AcquireIo_step o bytes spurious p stage in
  step_effect o p p' (Acquiring bytes stage) (Acquiring bytes stage').
Proof.
  intros Hp (Hb & Hc). destruct stage as [|current|result]; cbn [AcquireIo_step].
  - by apply quiet_step.
  - destruct (Z.ltb_spec (U64_MAX - current) bytes) as [|Hover]; [by apply quiet_step|].
    destruct (negb _ && _) eqn:Efull; [by apply quiet_step|].
    destruct ((_ =? current) && _) eqn:Ecas; [|by apply quiet_step].
    apply andb_true_iff in Ecas as [<-%Z.eqb_eq _].
    pose proof Hp as (Hl & Hdim & Hpw & Hio & Hread). unfold U64_MAX, uint in *.
    rewrite uint_wrap by (unfold uint; lia).
    assert (read_bytes o <> 0 -> io_bytes p + bytes <= read_bytes o) as Hread'.
    { intros Hne. apply andb_false_iff in Efull as [Hz|Hz%Z.ltb_ge].
      - by apply negb_false_iff, Z.eqb_eq in Hz.
      - specialize (Hread Hne). lia. }
    split; [split; [done|lia]|]. split; [apply set_io_OK; [done|unfold uint; lia|done]|].
    cbn [held held_workers held_io call_mode workers io_bytes set_workers set_io admitted
    admitted_workers new_reservation admitted_dimensions].
    split_and!; try lia; try done.
  - by apply quiet_step.
Qed.

Lemma Call_step_OK p c spurious p' c' :
  pool_ok o p -> call_ok o c -> (forall i, held i c <= at_ (admitted p) i) ->
  held_workers c <= workers p -> Call_step o spurious p c = (p', c') ->
  step_effect o p p' c c'.
Proof.
  intros Hp Hc Hheld Hw H. destruct c as [b mode stage|mode r stage|bytes stage];
    cbn [Call_step] in H.
  - pose proof (Admit_step_OK p b mode stage spurious Hp Hc Hheld) as Hs.
    destruct (Admit_step _ _ _ _ _ _). by injection H as <- <-.
  - pose proof (Release_step_OK p mode r stage Hp Hc Hheld Hw) as Hs.
    destruct (Release_step _ _ _). by injection H as <- <-.
  - pose proof (AcquireIo_step_OK p bytes stage spurious Hp Hc) as Hs.
    destruct (AcquireIo_step _ _ _ _ _). by injection H as <- <-.
Qed.

End steps.

(** ** The system *)

Lemma held_nonneg o c :
  call_ok o c -> (forall i, 0 <= held i c) /\ 0 <= held_workers c /\ 0 <= held_io c.
Proof.
  assert (forall b i taken j, budget_ok b -> taken_upto b i taken -> 0 <= at_ taken j) as Ht.
  { intros b i taken j Hb [_ H]. rewrite H. destruct (_ <? _)%nat; [|done].
    by apply at_budget_range. }
  destruct c as [b mode stage|mode r stage|bytes stage]; cbn.
  - intros [Hb Hs]. destruct stage as [i taken|i taken ?|taken|taken ?|? stop taken ?|[r|]]; cbn.
    5: split_and!; try done; intros j; destruct (_ <=? _)%nat; [|done]; eapply Ht; [done|apply Hs].
    all: split_and!; try done; try (by apply reservation_parts).
    all: intros j; eapply Ht; [done|apply Hs].
  - intros [Hr Hi]. destruct (reservation_parts r Hr) as [Hd Hw].
    destruct stage; split_and!; try done. intros j. by destruct (_ <=? _)%nat.
  - intros [Hb Hs]. split; [done|]. split; [done|]. by destruct stage as [| |[permit|]].
Qed.

Lemma held_all o cs :
  Forall (call_ok o) cs ->
  (forall i, Forall (fun c => 0 <= held i c) cs) /\ Forall (fun c => 0 <= held_workers c) cs.
Proof.
  intros H. split; [intros i|]; eapply Forall_impl; try exact H; intros c Hc; by apply (held_nonneg o).
Qed.

Lemma queries_all qs :
  Forall (fun q : QueryExecutionMode * Reservation => reservation_ok q.2) qs ->
  (forall i, Forall (fun q => 0 <= at_ (admitted_dimensions q.2) i) qs) /\
  Forall (fun q => 0 <= admitted_workers q.2) qs.
Proof.
  intros H. split; [intros i|]; eapply Forall_impl; try exact H; intros q Hq;
    by apply reservation_parts.
Qed.

(** The workers of the analytical queries are among all workers. *)
Lemma analytical_part o s : system_inv o s -> analytical_workers s <= workers (pool s).
Proof.
  intros (_ & (_ & -> & _) & _ & Hc & Hq & _). unfold analytical_workers.
  apply Z.add_le_mono; apply total_le.
  - eapply Forall_impl; [apply (held_all o _ Hc)|]. intros c H. cbn in *. case_bool_decide; lia.
  - eapply Forall_impl; [apply (queries_all _ Hq)|]. intros q H. cbn in *. case_bool_decide; lia.
Qed.

Lemma system_call_OK o s i c spurious p' c' :
  options_ok o -> system_inv o s -> calls s !! i = Some c ->
  Call_step o spurious (pool s) c = (p', c') ->
  system_inv o (mkSystem p' (<[i := c']> (calls s)) (queries s) (permits s)).
Proof.
  intros Ho Hs Hi H. pose proof (analytical_part o s Hs) as Hpart.
  destruct Hs as (Hp & (Hd & Hw & Hio) & Ha & Hc & Hq & Hpm).
  destruct (held_all o _ Hc) as [Hh Hhw]. destruct (queries_all _ Hq) as [Hqd Hqw].
  destruct (Call_step_OK o Ho (pool s) c spurious p' c') as (Hc' & Hp' & Hd' & Hw' & Hio' & Hm & Han);
    [done|by apply (proj1 (Forall_lookup _ _) Hc i)| | |done|].
  - intros j. rewrite Hd. pose proof (total_part _ _ _ _ (Hh j) Hi).
    pose proof (total_nonneg _ _ (Hqd j)). cbn in *. lia.
  - rewrite Hw. pose proof (total_part _ _ _ _ Hhw Hi). pose proof (total_nonneg _ _ Hqw). lia.
  - split; [done|]. split; [|split; [|split; [by apply Forall_insert|done]]].
    + unfold pool_exact. cbn [pool calls queries permits].
      split; [intros j; specialize (Hd' j); rewrite Hd in Hd'|split];
        rewrite (total_insert _ _ _ _ _ Hi); lia.
    + unfold analytical_workers in *. cbn [pool calls queries].
      rewrite (total_insert _ _ _ _ _ Hi), Hm. case_bool_decide as Hmode; [|lia].
      specialize (Han Hmode). destruct (Z.lt_ge_cases (held_workers c) (held_workers c')); [|lia].
      specialize (Han ltac:(done)). lia.
Qed.

(** Adding, removing and moving what is held. *)
Ltac system_sums Hd Hw Hio :=
  split; [unfold pool_exact;
          cbn [pool calls queries permits set_io admitted workers io_bytes];
          split; [intros j; rewrite Hd|split; [rewrite Hw|rewrite Hio]]
         |unfold analytical_workers in *; cbn [pool calls queries permits]].

Lemma system_begin_OK o s c :
  system_inv o s -> call_ok o c -> (forall i, held i c = 0) -> held_workers c = 0 ->
  held_io c = 0 ->
  system_inv o (mkSystem (pool s) (calls s ++ [c]) (queries s) (permits s)).
Proof.
  intros (Hp & (Hd & Hw & Hio) & Ha & Hc & Hq & Hpm) Hok H0 H1 H2.
  split; [done|]. apply and_assoc. cbn [calls queries permits].
  split; [|by rewrite Forall_app, Forall_singleton].
  system_sums Hd Hw Hio; rewrite total_snoc, ?H0, ?H1, ?H2; try case_bool_decide; lia.
Qed.

Lemma taken_none b : taken_upto b 0 (replicate kCount 0).
Proof. split; [apply length_replicate|]. intros j. apply at_replicate. Qed.

Lemma Admit_begin_OK o b mode :
  budget_ok b -> call_ok o (Admitting b mode (Admit_begin o b mode)) /\
  (forall i, held i (Admitting b mode (Admit_begin o b mode)) = 0) /\
  held_workers (Admitting b mode (Admit_begin o b mode)) = 0.
Proof.
  intros Hb. unfold Admit_begin. destruct (_ || _); [done|].
  split; [|split; [|done]].
  - split; [done|]. split; [unfold kCount; lia|apply taken_none].
  - intros i. apply at_replicate.
Qed.

Lemma AcquireIo_begin_OK o critical work_class bytes :
  uint 64 bytes ->
  let c := Acquiring bytes (AcquireIo_begin o critical work_class bytes) in
  call_ok o c /\ held_io c = 0.
Proof.
  intros Hb. unfold AcquireIo_begin. destruct (bytes =? 0); [done|].
  destruct (critical && _); [done|]. by destruct (_ && _).
Qed.

Lemma release_permit_OK o s k permit left_ :
  system_inv o s -> permits s !! k = Some permit ->
  total id left_ = total id (permits s) - permit -> Forall (fun permit => 0 <= permit) left_ ->
  system_inv o (mkSystem (release_permit permit (pool s)) (calls s) (queries s) left_).
Proof.
  intros (Hp & (Hd & Hw & Hio) & Ha & Hc & Hq & Hpm) Hk Htotal Hleft.
  pose proof (proj1 (Forall_lookup _ _) Hpm _ _ Hk) as H0. cbn in H0.
  pose proof (total_part id _ _ _ Hpm Hk) as Hle. unfold id in Hle at 1.
  assert (0 <= total held_io (calls s)) as Hheld.
  { apply total_nonneg. eapply Forall_impl; [exact Hc|]. intros c H. by apply (held_nonneg o). }
  assert (release_permit permit (pool s) = set_io (io_bytes (pool s) - permit) (pool s)) as ->.
  { unfold release_permit. destruct (Z.eqb_spec permit 0) as [->|].
    - rewrite Z.sub_0_r. by destruct (pool s).
    - destruct Hp as (_ & _ & _ & Hu & _). rewrite uint_wrap by (unfold uint in *; lia). done. }
  split; [|apply and_assoc; split; [|by split_and!]].
  - destruct Hp as (Hl & Hdd & Hww & Hu & Hread). apply set_io_OK; [done|unfold uint in *; lia|].
    intros Hne. specialize (Hread Hne). lia.
  - system_sums Hd Hw Hio; rewrite ?Htotal; lia.
Qed.

Lemma assign_permit_OK o s k j p' perms :
  system_inv o s -> (k < length (permits s))%nat -> (j < length (permits s))%nat ->
  assign_permit k j (permits s) (pool s) = (p', perms) ->
  system_inv o (mkSystem p' (calls s) (queries s) perms).
Proof.
  intros Hs Hk Hj H. unfold assign_permit in H. destruct (Nat.eqb_spec k j) as [|Hne].
  { injection H as <- <-. by destruct s. }
  injection H as <- <-.
  destruct (lookup_lt_is_Some_2 _ _ Hk) as [mine Hmine].
  destruct (lookup_lt_is_Some_2 _ _ Hj) as [other Hother].
  unfold at_ at 1 2. rewrite Hmine, Hother. cbn [default].
  pose proof Hs as (_ & _ & _ & _ & _ & Hpm).
  assert (<[k := other]> (permits s) !! j = Some other) as Hother'
    by (by rewrite list_lookup_insert_ne).
  apply (release_permit_OK o s k mine); try done.
  - rewrite (total_insert _ _ _ _ _ Hother'), (total_insert _ _ _ _ _ Hmine). unfold id. lia.
  - apply Forall_insert; [|done]. apply Forall_insert; [done|].
    by apply (proj1 (Forall_lookup _ _) Hpm j).
Qed.

Lemma system_step_OK o s s' :
  options_ok o -> system_inv o s -> system_step o s s' -> system_inv o s'.
Proof.
  intros Ho Hs H. destruct H as [b mode s Hb|critical work_class bytes s Hb
    |i c spurious p' c' s Hi H|i b mode r s Hi|i bytes permit s Hi|i c s Hi Hend
    |k mode r r' s Hk H|k mode r s Hk|k permit s Hk|k j p' perms s Hk Hj H].
  - destruct (Admit_begin_OK o b mode Hb) as (H1 & H2 & H3). by apply system_begin_OK.
  - destruct (AcquireIo_begin_OK o critical work_class bytes Hb) as (H1 & H2).
    by apply system_begin_OK.
  - by eapply system_call_OK.
  - destruct Hs as (Hp & (Hd & Hw & Hio) & Ha & Hc & Hq & Hpm).
    pose proof (proj1 (Forall_lookup _ _) Hc _ _ Hi) as [_ Hr]. split; [done|].
    apply and_assoc. split; [|split; [by apply Forall_delete|split; [by constructor|done]]].
    system_sums Hd Hw Hio; rewrite (total_delete _ _ _ _ Hi), ?total_cons; cbn; lia.
  - destruct Hs as (Hp & (Hd & Hw & Hio) & Ha & Hc & Hq & Hpm).
    pose proof (proj1 (Forall_lookup _ _) Hc _ _ Hi) as [_ Hr]. split; [done|].
    apply and_assoc. split; [|split; [by apply Forall_delete|split; [done|by constructor]]].
    system_sums Hd Hw Hio; rewrite (total_delete _ _ _ _ Hi), ?total_cons; cbn; unfold id;
      try case_bool_decide; lia.
  - destruct Hs as (Hp & (Hd & Hw & Hio) & Ha & Hc & Hq & Hpm). split; [done|].
    apply and_assoc. split; [|split; [by apply Forall_delete|done]].
    assert ((forall j, held j c = 0) /\ held_workers c = 0 /\ held_io c = 0) as (H0 & H1 & H2)
      by (by destruct Hend as [(? & ? & ? & ->)|[(? & ? & ->)|(? & ? & ->)]]).
    system_sums Hd Hw Hio; rewrite (total_delete _ _ _ _ Hi), ?H0, ?H1, ?H2;
      try case_bool_decide; lia.
  - destruct Hs as (Hp & (Hd & Hw & Hio) & Ha & Hc & Hq & Hpm).
    pose proof (proj1 (Forall_lookup _ _) Hq _ _ Hk) as Hr.
    destruct (reservation_step_OK r r' H Hr) as (Hr' & Had & Haw). split; [done|].
    apply and_assoc. split; [|split; [done|split; [by apply Forall_insert|done]]].
    system_sums Hd Hw Hio; rewrite ?(total_insert _ _ _ _ _ Hk); cbn [fst snd];
      rewrite ?Had, ?Haw; lia.
  - destruct Hs as (Hp & (Hd & Hw & Hio) & Ha & Hc & Hq & Hpm).
    pose proof (proj1 (Forall_lookup _ _) Hq _ _ Hk) as Hr. split; [done|].
    apply and_assoc. split.
    + system_sums Hd Hw Hio; rewrite ?(total_delete _ _ _ _ Hk), ?total_snoc; cbn; lia.
    + split; [|split; [by apply Forall_delete|done]].
      apply Forall_app. split; [done|]. constructor; [|constructor].
      split; [done|]. unfold kCount. lia.
  - apply (release_permit_OK o s k permit); try done; [exact (total_delete id _ _ _ Hk)|].
    apply Forall_delete. apply Hs.
  - exact (assign_permit_OK o s k j p' perms Hs Hk Hj H).
Qed.

Lemma initial_system_OK o : options_ok o -> system_inv o initial_system.
Proof.
  intros Ho. unfold initial_system, empty_pool. split.
  - split; [apply length_replicate|]. split; [intros d; cbn [pool admitted];
      rewrite at_replicate;
      split; [done|apply Ho]|]. cbn. split; [split; [done|apply Ho]|].
    split; [unfold uint; lia|]. intros _. apply (proj1 Ho kReadBytes).
  - split; [split; [intros i; apply at_replicate|done]|].
    split; [apply (worker_limit_range o Ho)|]. split_and!; constructor.
Qed.

Lemma system_reachable_OK o s :
  options_ok o -> rtc (system_step o) initial_system s -> system_inv o s.
Proof.
  intros Ho H. pose proof (initial_system_OK o Ho) as Hs. revert Hs.
  induction H as [|x y z Hstep _ IH]; [done|]. intros Hs. apply IH.
  by eapply system_step_OK.
Qed.

(** ** An admission that runs alone *)

Lemma array_ext l1 l2 :
  length l1 = length l2 -> (forall i, at_ l1 i = at_ l2 i) -> l1 = l2.
Proof.
  intros Hl H. apply list_eq_same_length with (n := length l1); [done|done|].
  intros i x y Hi Hx Hy. specialize (H i). unfold at_ in H. by rewrite Hx, Hy in H.
Qed.

Lemma taken_all b taken : taken_upto b kCount taken -> taken = budget_limits b.
Proof.
  intros [Hl H]. apply array_ext; [by rewrite Hl|]. intros i. rewrite H.
  destruct (Nat.ltb_spec i kCount); [done|]. by rewrite at_ge.
Qed.

Section alone.

Context (o : QueryResourcePoolOptions) (b : QueryBudget) (mode : QueryExecutionMode).
Hypothesis Ho : options_ok o.
Hypothesis Hb : budget_ok b.

(** The counters follow what the call holds. *)
Lemma run_effect fuel p stage p' result :
  pool_ok o p -> call_ok o (Admitting b mode stage) ->
  (forall i, held i (Admitting b mode stage) <= at_ (admitted p) i) ->
  Admit_run fuel o b mode p stage = Some (p', result) ->
  let c := Admitting b mode stage in
  let c' := Admitting b mode (Returned result) in
  pool_ok o p' /\
  (forall i, at_ (admitted p') i - at_ (admitted p) i = held i c' - held i c) /\
  workers p' - workers p = held_workers c' - held_workers c /\ io_bytes p' = io_bytes p.
Proof.
  revert p stage. induction fuel as [|fuel IH]; intros p stage Hp Hc Hheld H.
  { destruct stage; try done. injection H as <- <-. split_and!; try done; cbn; intros; lia. }
  pose proof (Admit_step_OK o Ho p b mode stage false Hp Hc Hheld) as Hs.
  destruct (Admit_step o b mode false p stage) as [p1 stage1] eqn:E.
  assert (stage = Returned result /\ p' = p \/ Admit_run fuel o b mode p1 stage1 = Some (p', result))
    as [[-> ->]|H1].
  { destruct stage; cbn [Admit_run] in H; rewrite ?E in H; try (by right).
    injection H as <- <-. by left. }
  { split_and!; try done; cbn; intros; lia. }
  destruct Hs as (Hc1 & Hp1 & Hd1 & Hw1 & Hio1 & _).
  destruct (IH p1 stage1 Hp1 Hc1) as (Hp' & Hd' & Hw' & Hio'); [|done|].
  - intros i. specialize (Hd1 i). specialize (Hheld i). lia.
  - cbn in Hio1. split; [done|]. split; [|split; [lia|lia]].
    intros i. specialize (Hd1 i). specialize (Hd' i). lia.
Qed.

Lemma rollback_returns k fuel p rollback stop taken error :
  (stop - rollback <= k)%nat -> (k < fuel)%nat ->
  exists p', Admit_run fuel o b mode p (RollingBack rollback stop taken error)
             = Some (p', Fail error).
Proof.
  revert fuel p rollback. induction k as [|k IH]; intros fuel p rollback Hk Hf;
    (destruct fuel as [|fuel]; [lia|]); cbn [Admit_run Admit_step];
    destruct (Nat.ltb_spec rollback stop) as [Hlt|Hge]; try lia.
  - destruct fuel; by eexists.
  - apply IH; lia.
  - destruct fuel; by eexists.
Qed.

Lemma fits_other p i v d :
  index d <> i -> (i < length (admitted p))%nat -> fits o b (set_admitted i v p) d = fits o b p d.
Proof.
  intros Hne Hi. unfold fits. cbn [set_admitted admitted]. rewrite at_insert by done.
  by rewrite (proj2 (Nat.eqb_neq _ _)).
Qed.

Lemma forallb_later p i v :
  (i < length (admitted p))%nat ->
  forallb (fits o b (set_admitted i v p)) (drop (S i) dimensions)
  = forallb (fits o b p) (drop (S i) dimensions).
Proof.
  intros Hi.
  enough (forall l, Forall (fun d => index d <> i) l ->
    forallb (fits o b (set_admitted i v p)) l = forallb (fits o b p) l) as H.
  { apply H. apply Forall_forall. intros d [j Hj]%list_elem_of_lookup.
    rewrite lookup_drop in Hj. apply dimension_at in Hj. lia. }
  induction 1 as [|d l Hd _ IH]; [done|]. cbn [forallb]. by rewrite IH, fits_other.
Qed.

Lemma workers_returns fuel p taken :
  (14 <= fuel)%nat -> taken_upto b kCount taken ->
  exists p' result, Admit_run fuel o b mode p (AtWorkers taken) = Some (p', result) /\
    decided o b mode p [] result.
Proof.
  intros Hf Ht. destruct fuel as [|[|fuel]]; [lia..|].
  cbn [Admit_run Admit_step]. rewrite Z.eqb_refl. cbn [negb andb].
  unfold decided. cbn [forallb andb]. rewrite (Z.leb_antisym _ (budget_max_parallelism b)).
  destruct (Z.ltb_spec (worker_limit o mode - Z.min (worker_limit o mode) (workers p))
              (budget_max_parallelism b)) as [Hfull|Hfree]; cbn [negb].
  - destruct (rollback_returns 11 fuel p 0 kCount taken
      (exhausted "parallelism pool admission exhausted")) as [p' E]; [unfold kCount; lia|lia|].
    exists p', (Fail (exhausted "parallelism pool admission exhausted")). split; [done|].
    by eexists.
  - rewrite (taken_all b taken Ht). destruct fuel; by eexists _, _.
Qed.

Lemma dimensions_return k fuel i p taken :
  (i + k = kCount)%nat -> (2 * k + 16 <= fuel)%nat -> pool_ok o p -> taken_upto b i taken ->
  exists p' result, Admit_run fuel o b mode p (AtDimension i taken) = Some (p', result) /\
    decided o b mode p (drop i dimensions) result.
Proof.
  revert fuel i p taken. induction k as [|k IH]; intros fuel i p taken Hi Hf Hp Ht.
  { replace i with kCount in * by lia. destruct fuel as [|fuel]; [lia|].
    cbn [Admit_run Admit_step]. change (dimensions !! kCount) with (@None ResourceDimension).
    apply workers_returns; [lia|done]. }
  destruct fuel as [|[|fuel]]; [lia..|]. unfold kCount in Hi.
  destruct (dimensions !! i) as [d|] eqn:E; [|apply dimension_None in E; unfold kCount in E; lia].
  destruct (taken_next b i taken d E Ht Hb) as [Hnext Hzero].
  rewrite (drop_S _ _ _ E). cbn [Admit_run Admit_step]. rewrite E.
  destruct (Z.eqb_spec (BudgetDim b d) 0) as [H0|Hne].
  { destruct (IH (S fuel) (S i) p taken) as (p' & result & Er & Hd);
      [unfold kCount; lia|lia|done|by apply Hzero|].
    exists p', result. split; [exact Er|]. unfold decided in *. cbn [forallb]. unfold fits at 1.
    by rewrite H0. }
  cbn [Admit_run Admit_step]. rewrite E, Z.eqb_refl. cbn [negb andb].
  pose proof (dimension_at _ _ E) as <-. pose proof (proj1 Hb d) as Hbd.
  pose proof (proj1 Ho d) as Hod. pose proof (counter_range o Ho p (index d) Hp) as Hr.
  pose proof (proj1 (proj2 Hp) d) as Hpd.
  destruct ((_ <? _) || _) eqn:Efull.
  - assert (fits o b p d = false) as Hfits.
    { unfold fits. rewrite (proj2 (Z.eqb_neq _ _)) by done. cbn [orb]. apply Z.leb_gt.
      apply orb_true_iff in Efull as [Hx%Z.ltb_lt|Hx%Z.ltb_lt]; lia. }
    destruct (rollback_returns 11 fuel p 0 (index d) taken
      (exhausted (Name d +:+ " pool admission exhausted"))) as [p' Er];
      [pose proof (index_lt d); unfold kCount in *; lia|lia|].
    exists p', (Fail (exhausted (Name d +:+ " pool admission exhausted"))). split; [exact Er|].
    unfold decided. cbn [forallb]. rewrite Hfits. by eexists.
  - apply orb_false_iff in Efull as [Hlim%Z.ltb_ge Hcur%Z.ltb_ge].
    rewrite uint_wrap by (unfold uint in *; lia).
    destruct (set_admitted_OK o p d (at_ (admitted p) (index d) + BudgetDim b d) Hp)
      as [Hp1 _]; [unfold uint in *; lia|].
    destruct (IH fuel (S (index d)) _ _ ltac:(unfold kCount; lia) ltac:(lia) Hp1 Hnext)
      as (p' & result & Er & Hd).
    exists p', result. split; [exact Er|]. unfold decided in *. cbn [forallb].
    rewrite forallb_later in Hd by (rewrite (proj1 Hp); apply index_lt).
    unfold fits at 1. rewrite (proj2 (Z.leb_le _ _)), orb_true_r by lia. exact Hd.
Qed.

End alone.

(** A call that runs alone is a run of the system. *)
Lemma run_in_system o b mode fuel p stage p' r :
  Admit_run fuel o b mode p stage = Some (p', Ok r) ->
  rtc (system_step o) (mkSystem p [Admitting b mode stage] [] [])
    (mkSystem p' [] [(mode, r)] []).
Proof.
  revert p stage. induction fuel as [|fuel IH]; intros p stage H.
  { destruct stage; try done. injection H as <- ->.
    by eapply rtc_once, (system_admitted o 0). }
  destruct (Admit_step o b mode false p stage) as [p1 stage1] eqn:E.
  assert (stage = Returned (Ok r) /\ p' = p \/ Admit_run fuel o b mode p1 stage1 = Some (p', Ok r))
    as [[-> ->]|H1].
  { destruct stage; cbn [Admit_run] in H; rewrite ?E in H; try (by right).
    injection H as <- ->. by left. }
  { by eapply rtc_once, (system_admitted o 0). }
  eapply rtc_l; [|by apply IH].
  apply (system_call o 0 (Admitting b mode stage) false p1 (Admitting b mode stage1)
    (mkSystem p [Admitting b mode stage] [] [])); [done|].
  cbn [Call_step pool]. by rewrite E.
Qed.

Lemma at_zip l1 l2 i :
  length l1 = length l2 -> at_ (zip_with Z.add l1 l2) i = at_ l1 i + at_ l2 i.
Proof.
  intros Hl. unfold at_. rewrite lookup_zip_with.
  destruct (l1 !! i) as [x|] eqn:E1, (l2 !! i) as [y|] eqn:E2; try done.
  - apply lookup_lt_Some in E1. apply lookup_ge_None in E2. lia.
  - apply lookup_lt_Some in E2. apply lookup_ge_None in E1. lia.
Qed.

Lemma Admit_run_returned fuel o b mode p result :
  Admit_run fuel o b mode p (Returned result) = Some (p, result).
Proof. by destruct fuel. Qed.

#[local] Opaque Admit_run.

(** The decision of a call that runs alone. *)
Lemma Admit_decides o b mode p :
  options_ok o -> budget_ok b -> pool_ok o p ->
  exists p' result, Admit o b mode p = Some (p', result) /\
    if admissible o b mode p
    then result = Ok (new_reservation (budget_limits b) (budget_limits b)
                        (budget_max_parallelism b))
    else exists message, result = Fail (exhausted message).
Proof.
  intros Ho Hb Hp. pose proof (proj1 (proj2 (proj2 Hp))) as Hpw. pose proof (proj2 Hb) as Hbw.
  unfold Admit, admissible, Admit_begin, uint in *.
  destruct (Z.eqb_spec (budget_max_parallelism b) 0) as [H0|H0].
  { cbn [orb]. rewrite Admit_run_returned, H0. eexists _, _. split; [reflexivity|].
    cbn. by eexists. }
  rewrite (proj2 (Z.ltb_lt 0 _)) by lia. cbn [orb andb].
  destruct (Z.ltb_spec (worker_limit o mode) (budget_max_parallelism b)) as [Hlt|Hge].
  { rewrite Admit_run_returned. eexists _, _. split; [reflexivity|].
    rewrite (proj2 (Z.leb_gt _ _)) by lia. cbn. by eexists. }
  destruct (dimensions_return o b mode Ho Hb 11 admit_fuel 0 p (replicate kCount 0))
    as (p' & result & E & Hd); [reflexivity|unfold admit_fuel; lia|exact Hp|apply taken_none|].
  exists p', result. split; [exact E|]. clear E. unfold decided in Hd. cbn [drop] in Hd.
  assert ((budget_max_parallelism b <=? worker_limit o mode - Z.min (worker_limit o mode) (workers p))
    = (workers p + budget_max_parallelism b <=? worker_limit o mode)) as Hw'
    by (apply eq_true_iff_eq; rewrite !Z.leb_le; lia).
  rewrite Hw', andb_comm in Hd. exact Hd.
Qed.

Lemma sample_options_ok : options_ok sample_options.
Proof. split; [intros []; done|done]. Qed.

Lemma sample_budget_ok : budget_ok sample_budget.
Proof. split; [intros []; done|done]. Qed.

(** ** Properties *)

(** C13: the pool is never overcommitted.  Whatever admissions, releases, reservations and
    permits run at once and however their atomic operations interleave, what all admitted
    queries use of a dimension is within the option of the pool; so are the workers they
    were admitted with.  The analytical queries hold at most the workers that are not
    reserved, or one worker when all of them are reserved: the reserve is clamped to leave
    one.  The bytes of the read permits are within the option, unless it is zero.  Each
    query also stays within its own limits and charges each owner once. *)
Theorem pool_never_overcommitted o s :
  options_ok o -> rtc (system_step o) initial_system s ->
  (forall d, total (fun q => at_ (used q.2) (index d)) (queries s) <= PoolDim o d) /\
  total (fun q => admitted_workers q.2) (queries s) <= max_parallelism o /\
  total (fun q => if bool_decide (q.1 = kAnalytical) then admitted_workers q.2 else 0) (queries s)
  <= Z.max 1 (max_parallelism o - reserved_interactive_workers o) /\
  (read_bytes o <> 0 -> total id (permits s) <= read_bytes o) /\
  forall k mode r, queries s !! k = Some (mode, r) ->
    (forall d, at_ (used r) (index d) <= at_ (limits r) (index d)) /\
    forall id1 id2 lease1 lease2 owner,
      live_leases r !! id1 = Some lease1 -> live_leases r !! id2 = Some lease2 ->
      lease_owner lease1 = Some owner -> lease_owner lease2 = Some owner -> id1 = id2.
Proof.
  intros Ho H. pose proof (system_reachable_OK o s Ho H) as Hs.
  destruct Hs as (Hp & (Hd & Hw & Hio) & Ha & Hc & Hq & Hpm).
  destruct (held_all o _ Hc) as [Hh Hhw]. split; [|split; [|split; [|split]]].
  - intros d. pose proof (proj1 (proj2 Hp) d) as Hle. rewrite Hd in Hle.
    pose proof (total_nonneg _ _ (Hh (index d))) as H0.
    assert (total (fun q => at_ (used q.2) (index d)) (queries s)
            <= total (fun q => at_ (admitted_dimensions q.2) (index d)) (queries s)); [|lia].
    apply total_le. eapply Forall_impl; [exact Hq|].
    intros q (_ & _ & Had & Hu & _). rewrite Had. apply Hu.
  - destruct Hp as (_ & _ & Hle & _). pose proof (total_nonneg _ _ Hhw). lia.
  - unfold analytical_workers in Ha.
    assert (0 <= total (fun c => if bool_decide (call_mode c = kAnalytical)
                                 then held_workers c else 0) (calls s)).
    { apply total_nonneg. eapply Forall_impl; [exact Hhw|]. intros c H0. by case_bool_decide. }
    destruct Ho as (_ & Hm & Hr). unfold worker_limit, uint in *.
    rewrite bool_decide_true in Ha by done.
    destruct (Z.eqb_spec (max_parallelism o) 0); lia.
  - intros Hne. destruct Hp as (_ & _ & _ & _ & Hread). specialize (Hread Hne).
    assert (0 <= total held_io (calls s)); [|lia].
    apply total_nonneg. eapply Forall_impl; [exact Hc|]. intros c Hok. by apply (held_nonneg o).
  - intros k mode r Hk. pose proof (proj1 (Forall_lookup _ _) Hq _ _ Hk) as Hr. cbn in Hr.
    destruct Hr as (_ & _ & _ & Hu & _ & _ & _ & _ & _ & _ & Howners & _).
    split; [intros d; apply Hu|]. intros id1 id2 lease1 lease2 owner H1 H2 Ho1 Ho2.
    pose proof (Howners _ _ _ H1 Ho1) as E1. rewrite (Howners _ _ _ H2 Ho2) in E1.
    by injection E1.
Qed.

Lemma pool_never_overcommitted_witness :
  exists s r, queries s = [(kAnalytical, r)] /\ at_ (used r) (index kMemory) = 30 /\
    total (fun q => at_ (used q.2) (index kMemory)) (queries s) <= 100.
Proof.
  destruct (Admit sample_options sample_budget kAnalytical empty_pool) as [[p [r|e]]|] eqn:E;
    [|vm_compute in E; discriminate|vm_compute in E; discriminate].
  exists (mkSystem p [] [(kAnalytical, (TryGrow 30 r).2)] []), (TryGrow 30 r).2.
  split; [reflexivity|]. split; [vm_compute in E; injection E as <- <-; reflexivity|].
  apply (pool_never_overcommitted sample_options) with (d := kMemory).
  - apply sample_options_ok.
  - eapply rtc_l; [apply (system_admit sample_options sample_budget kAnalytical), sample_budget_ok|].
    eapply rtc_r; [eapply run_in_system; exact E|].
    apply (system_use sample_options 0 kAnalytical r (TryGrow 30 r).2
      (mkSystem p [] [(kAnalytical, r)] [])); [reflexivity|].
    apply step_TryGrow. split; [discriminate|reflexivity].
Defined.

(** C14: the pool leaks nothing.  Once no call is in progress and every reservation and
    permit has been dropped, all counters are back at zero, also after admissions that
    failed half-way and rolled back while others ran. *)
Theorem pool_drained o s :
  options_ok o -> rtc (system_step o) initial_system s ->
  calls s = [] -> queries s = [] -> permits s = [] -> pool s = empty_pool.
Proof.
  intros Ho H Hcs Hqs Hps. destruct (system_reachable_OK o s Ho H)
    as ((Hl & _) & (Hd & Hw & Hio) & _).
  rewrite Hcs, Hqs in Hw. rewrite Hcs, Hps in Hio.
  assert (admitted (pool s) = replicate kCount 0) as Ha.
  { apply array_ext; [by rewrite Hl, length_replicate|]. intros i.
    by rewrite Hd, Hcs, Hqs, at_replicate. }
  destruct (pool s) as [io ad w]. cbn in *. by subst.
Qed.

Lemma pool_drained_witness :
  release_permit 5 (set_io 5 empty_pool) = empty_pool.
Proof.
  change (pool (mkSystem (release_permit 5 (set_io 5 empty_pool)) [] [] []) = empty_pool).
  apply (pool_drained sample_options); [apply sample_options_ok| |reflexivity|reflexivity|reflexivity].
  eapply rtc_l; [apply (system_acquire sample_options false kInteractiveWork 5);
                 split; [discriminate|reflexivity]|].
  eapply rtc_l; [eapply (system_call sample_options 0 _ false); reflexivity|].
  eapply rtc_l; [eapply (system_call sample_options 0 _ false); reflexivity|].
  eapply rtc_l; [apply (system_permitted sample_options 0 5 5
    (mkSystem (set_io 5 empty_pool) [Acquiring 5 (IoReturned (Ok 5))] [] [])); reflexivity|].
  eapply rtc_once. apply (system_release_permit sample_options 0 5
    (mkSystem (set_io 5 empty_pool) [] [] [5])). reflexivity.
Defined.

(** C15: an admission that meets no other call returns, and decides by the pool alone: it
    succeeds exactly when every dimension and the workers fit, and then it has added the
    budget to the counters; otherwise it fails and the counters are as they were. *)
Theorem admission_alone o b mode p :
  options_ok o -> budget_ok b -> pool_ok o p ->
  exists p' result, Admit o b mode p = Some (p', result) /\
    if admissible o b mode p
    then result = Ok (new_reservation (budget_limits b) (budget_limits b)
                        (budget_max_parallelism b)) /\ p' = admit_all b p
    else (exists message, result = Fail (exhausted message)) /\ p' = p.
Proof.
  intros Ho Hb Hp. destruct (Admit_begin_OK o b mode Hb) as (Hc & Hheld & Hw).
  destruct (Admit_decides o b mode p Ho Hb Hp) as (p' & result & E & Hres).
  exists p', result. split; [exact E|]. unfold Admit in E.
  destruct (run_effect o b mode Ho admit_fuel p (Admit_begin o b mode) p' result Hp Hc) as ((Hl' & _) & Hd' & Hw' & Hio');
    [|exact E|].
  { intros i. rewrite Hheld. apply (counter_range o Ho p i Hp). }
  clear E. rewrite Hw in Hw'. pose proof (proj1 Hp) as Hl.
  destruct (admissible o b mode p); (split; [exact Hres|]).
  - subst result. destruct p' as [io' ad' w'], p as [io ad w].
    cbn [admitted workers io_bytes held_workers new_reservation admitted_workers] in *.
    subst io'. unfold admit_all. cbn [admitted workers io_bytes]. f_equal; [|lia].
    assert (length ad = length (budget_limits b)) as Hlb by (by rewrite Hl).
    apply array_ext; [rewrite length_zip_with, <- Hlb; lia|]. intros i. rewrite at_zip by done.
    specialize (Hd' i). rewrite Hheld in Hd'.
    cbn [held new_reservation admitted_dimensions] in Hd'. lia.
  - destruct Hres as [message ->]. destruct p' as [io' ad' w'], p as [io ad w].
    cbn [admitted workers io_bytes held_workers] in *. subst io'. f_equal; [|lia].
    apply array_ext; [by rewrite Hl, Hl'|]. intros i. specialize (Hd' i).
    rewrite Hheld in Hd'.
    cbn [held new_reservation admitted_dimensions] in Hd'. lia.
Qed.

Lemma admission_alone_witness :
  exists p', Admit sample_options sample_budget kInteractive empty_pool
    = Some (p', Ok (new_reservation (budget_limits sample_budget) (budget_limits sample_budget) 2))
    /\ p' = admit_all sample_budget empty_pool.
Proof.
  destruct (admission_alone sample_options sample_budget kInteractive empty_pool)
    as (p' & result & E & H).
  - apply sample_options_ok.
  - apply sample_budget_ok.
  - exact (proj1 (initial_system_OK sample_options sample_options_ok)).
  - assert (admissible sample_options sample_budget kInteractive empty_pool = true) as Ha
      by (vm_compute; reflexivity).
    rewrite Ha in H. destruct H as [H1 H2]. rewrite H1 in E. exists p'.
    split; [exact E|exact H2].
Defined.
